(* ===== verification/_CoqProject ===== *)
-Q . S2P
Prelude.v
Logic4.v
Store.v
Gates.v
Devices.v
Sequential.v
Arith.v
Model.v
Engine.v
Reactive.v
Reaction.v
Reactions.v
Settle.v
Acyclic.v
Tick.v
Functions.v
Traces.v
Analog.v
Prepare.v
Codec.v
FloatingSubnet.v
Netlist.v
NetlistInv.v
NetlistOps.v
NetlistClaims.v
Mna.v
Linear.v
Assemble.v
AssembleClaims.v
VData.v
VExpr.v
VCache.v
VBuild.v
VBits.v
VWord.v
VWordSpec.v
VMul.v
VSelect.v
VWordClaims.v
VStmt.v
VStmtInv.v
VStmtClaims.v
VRuntime.v
VRuntimeInv.v
VSettle.v
VRuntimeClaims.v
VElab.v
VModule.v
VLex.v
VLiteral.v
VNames.v
VParser.v
VExprParser.v
VExprParserClaims.v
SynthCube.v
SynthPrimes.v
SynthPrimesClaims.v
SynthCover.v
SynthCoverClaims.v
SynthPetrick.v
SynthGreedy.v
SynthGreedyClaims.v
SynthEspresso.v
SynthEspressoLemmas.v
SynthEspressoClaims.v
SynthSelect.v
SynthNet.v
SynthNetLemmas.v
SynthLower.v
SynthStmt.v
SynthSim.v
SynthComb.v
SynthFf.v
SynthInstance.v
SynthBlock.v
SynthReads.v
SynthBlockClaims.v
SynthOpt.v
SynthOptLemmas.v
SynthOptClaims.v
