(* ===== verification/Prelude.v ===== *)
(** * Phy-Engine: digital core, Verilog, linear analog system, netlist, codec

    Phy-Engine is a circuit simulator in C++ (headers under
    [src/phy_engine_src/include/phy_engine/]).  A netlist owns models (gates,
    flip-flops, resistors, ...) and nodes; every pin of a model may point to a
    node, and a node lists the pins on it.  The engine ([struct circult])
    alternates an analog solution of the nodes with a digital tick, in which an
    event loop evaluates the digital models on the nodes whose state changed.
    One of the digital models is a Verilog module: its source is compiled to
    bit-level expressions and statements, elaborated into a tree of instances
    and simulated inside the tick; a synthesizer turns it into gates instead.
    This library models the digital half of the engine with all its models, the
    lexing, lowering, elaboration and simulation of Verilog, its synthesis to
    gates with the two-level minimization of the synthesizer, the system of
    equations that the linear models set up for the analog half, the netlist
    they run on, the detection of floating subnets, and the encoding of the
    netlist file format.

    ** Parts and files

    Paths are relative to the directory above.

    - [Prelude]: tactics, machine-width wraps, ordered sets as sorted lists
      ([std::set], [absl::btree_set]), counting lemmas.
    - [Logic4]: [digital_node_statement_t] and its operators
      ([model/node/node.h]).
    - [Store]: [node_t], [pin], [variant] ([model/model_refs/variant.h]) and the
      update table ([circuits/digital/update_table.h]); the state monad [M] in
      which the models run, and [double] as the binary64 numbers of the
      Standard Library's [SpecFloat] (rounding to nearest, NaN and infinities
      as in IEEE 754).  The union [node_information_union] is a tagged
      value: reading the member that is not stored is undefined behaviour.
      [None] in [M] is undefined behaviour or [unreachable()].
    - [Gates], [Devices], [Sequential], [Arith]: the models of
      [model/models/digital/logical/] and [.../combinational/], one Module per
      [struct], with its fields, [set_attribute_define], [get_attribute_define],
      [prepare_tr_define] and [update_digital_clk_define].
    - [Model]: the interface [model_base_impl] as the class [ModelImpl]
      ([model/model_refs/base.h]), [model_base], and the sum [device] of the
      modelled structs as its instance.
    - [Engine]: [struct circult] (the fields the digital part uses), the tick
      [digital_clk] with its phases [before_digital_clk],
      [update_table_digital_clk], [after_table_digital_clk], [update_digital],
      and the bookkeeping of [prepare()] up to the matrix
      ([circuits/circuit.h]).  It is written against [ModelImpl].
    - [Reactive], [Reaction], [Reactions]: the abstract specification.  A
      [reaction] is a pure function from a model's state and the states of its
      input nodes to its next state and the states of its output nodes; the
      class [ReactiveModel] says that a model's code is its reaction.  The
      instance for [device] is proved model by model, on digital nodes.
      [TRI] has no reaction (it always schedules its output) and is excluded
      by its well-formedness condition.
    - [Settle], [Acyclic]: the event loop against [ReactiveModel]: the
      invariant "stable or scheduled", and termination by a measure.
    - [Tick], [Functions], [Traces], [Analog], [Prepare]: the theorems about
      ticks, arithmetic, sequences of ticks, analog inputs and [prepare()].
    - [Codec]: [pe_nl_fileformat/codec.h] and [status.h].
    - [FloatingSubnet]: [circuits/floating_subnet/detect.h].
    - [Netlist], [NetlistInv], [NetlistOps], [NetlistClaims]:
      [netlist/operation.h] with the chunks of [netlist/netlist.h] and
      [model_base::remove_from_node] and [clear]; the invariant of the
      connections and of the ownership, kept by every operation.
    - [Mna]: the matrix of [circuits/MNA/mna.h]; its accessors return a
      reference ([ref]), and a stamp is a list of assignments through
      references that [exec] runs.  [mna_equiv] compares values, not which
      zeros are stored.
    - [Linear]: the fifteen models of [model/models/linear/], one Module per
      [struct], with attributes, [iterate_*_define] and
      [step_changed_tr_define], and the dispatch of [model_derv_impl] over them.
    - [Assemble], [AssembleClaims]: [circult::solve_once] up to
      the call of the solver ([circuits/circuit.h]), for circuits of linear and
      digital models (a digital model has no stamp), and the theorems about it.

    The files whose names start with [V] model [verilog/digital/digital.h] and
    the model that runs it.

    - [VData]: the operators on [logic_t], [expr_node], [stmt_node],
      [compiled_module] and the records in it.
    - [VExpr], [VCache]: [eval_expr], [module_state], [init_state],
      [eval_expr_cached]; [den] is the value of a node by the order of the
      arena, the reference of both evaluators.
    - [VBuild]: [expr_parser::add_node] with constant folding and sharing, in
      the state monad [B] of the arena, the table and the errors; [has] says
      what a root evaluates to.
    - [VBits], [VWord], [VWordSpec], [VMul], [VSelect], [VWordClaims]: the
      word operators of [expr_parser] ([VWord]) as constructions of bits;
      arithmetic on lists of bits ([VBits]), what each construction builds
      ([VWordSpec], [VMul] for products, [VSelect] for shifts and selects), and
      the theorems.
    - [VStmt], [VStmtInv], [VStmtClaims]: [exec_stmt], [assign_signal],
      [process_due_events], [apply_nba], in a state monad in which [None] is
      undefined behaviour; what every statement preserves.
    - [VRuntime], [VRuntimeInv], [VSettle], [VRuntimeClaims]: [instance_state]
      and the functions from [resolve_net_drivers] to [simulate]; the
      invariant of a tree of instances; the delta loop as an iteration on the
      values of the nets.
    - [VElab]: [build_design], [find_module], [fill_bindings],
      [elaborate].
    - [VModule]: [VERILOG_MODULE] of
      [model/models/digital/verilog_module.h].
    - [VLex]: [lex], with the source map of the preprocessor.
    - [VLiteral]: [parse_dec_uint64], [parse_dec_int64],
      [parse_dec_int], [parse_1bit_literal], [parse_literal_bits].
    - [VNames]: the tables of names of [compiled_module], from
      [get_or_create_signal] to [define_param], and [proc_scope].
    - [VParser]: [struct parser], the cursor over the tokens,
      and the functions that skip what is not supported.
    - [VExprParser], [VExprParserClaims]: the parsing functions of
      [expr_parser]; the branch of [parse_primary] for identifiers is an
      argument.  [gram] is the grammar they implement, with tables of the
      operators of its own.

    The files whose names start with [Synth] model the synthesizer of
    [verilog/digital/pe_synth.h], as it runs without a CUDA device: first its
    two-level minimization, then the construction of the netlist.

    - [SynthCube]: [qm_implicant], the costs and tests of covers,
      [qm_prime_implicants].  [SynthPrimes], [SynthPrimesClaims]: cubes as sets
      of minterms, implicants and primes.
    - [SynthCover]: [qm_exact_minimum_cover], [qm_petrick_minimum_cover],
      [qm_greedy_cover].  [SynthCoverClaims] (essential primes and the exact
      cover), [SynthPetrick], [SynthGreedy],
      [SynthGreedyClaims]: what they return.
    - [SynthEspresso], [SynthEspressoLemmas], [SynthEspressoClaims]: the
      heuristic minimizer on words of 64 minterms.
    - [SynthSelect]: [best_single_cover], which chooses among them.
    - [SynthNet]: [synth_context]: the netlist under construction, the count of
      the drivers, the caches of constants and delays, and the functions from
      [make_node] to [mux2], which fold constants.  [SynthNetLemmas]: a
      valuation of the nodes is [stable] when every model drives, by its
      reaction, what its output nodes carry; what every gate function adds.
    - [SynthLower]: [instance_builder::expr] and [expr_in_env].
    - [SynthStmt]: [collect_assigned_signals], and [synth_stmt_comb] and
      [synth_stmt_ff] as two instances of one recursion over the statements,
      which differ in what an assignment and a join do to the environment.
      [SynthSim]: the recursion simulates [exec_stmt] for every environment
      with the laws [env_laws]; [SynthComb], [SynthFf]: both have them.
    - [SynthInstance]: [synth_context::synth_instance] with its lambdas and
      [eval_const_expr_to_logic], [find_async_reset_if_stmt],
      [try_collect_async_reset_values].  [SynthBlock], [SynthReads],
      [SynthBlockClaims]: the blocks, the pruning of drivers, the theorems.
    - [SynthOpt]: passes over a finished netlist, each a state transformer of
      [netlist]: [optimize_eliminate_yes_buffers] and the passes for double
      inverters, constants, absorption, fused inverters, duplicates and unused
      models, with [build_gate_opt_fanout] and the costs.  [SynthOptLemmas]:
      [behaves], the equality of what the protected nodes can carry, and the
      steps that keep it.  [SynthOptClaims]: the passes.

    ** Memory

    Pointers to nodes, model slots and model objects are numbers, a pointer to
    a pin is the object that owns it with an index; the objects are in finite
    maps, so aliasing is explicit.  The order of [std::set] is the order of
    these numbers; the theorems hold for every numbering.

    ** What the theorems show

    - Logic: the operators are exact and monotone over the values an unknown
      may take.
    - Tick: a wired circuit's tick has no undefined behaviour; after a tick
      that emptied the table every model is stable, in particular every gate's
      output is its function; the loop empties the table when signals flow in
      ranks; the settled states are then unique, hence independent of the
      order of addresses; every device's code is its reaction.
    - Models: the updates of the gates, adders, subtractors and the multiplier
      drive their outputs with the functions their names promise, and schedule
      exactly the outputs whose node has to change; the counter
      counts, the generator has a maximal cycle, the delay line delays, the
      flip-flop holds; gates are safe on analog inputs; the Schmitt trigger has
      a hysteresis; attributes are read back.
    - Netlist: reachable netlists satisfy the invariant; deleting a model
      leaves no pin of it behind; added models are found; connecting and
      disconnecting is a round trip; both counts of the models agree.
    - Subnets: [detect] returns, and finds exactly the components the ground
      node does not reach.
    - Codec: integers, strings, vectors and doubles are read back; reading is
      in bounds on every input; an encoding of ten bytes whose value has more
      than 64 bits is read modulo 2^64.
    - Analog system: the stamps of every analysis stay inside the matrix; the
      reuse of the previous matrix's pattern does not change the system; a
      reciprocal network has a symmetric matrix; a resistor adds its
      conductance; the branch row of a voltage-controlled voltage source is
      its equation when its pins are on distinct nodes.
    - Verilog expressions: the nodes built for a sum, difference, product,
      comparison, shift or select evaluate to the number that the operator
      denotes, or to X when an operand is unknown, if the parser reported no
      error; the evaluator with a cache agrees with the recursive one.
    - Verilog statements: every statement of a well-formed arena returns and
      keeps the state well-formed; nonblocking assignments see the values from
      before the step; due events run in the order of their scheduling.
    - Verilog simulation: a step of a well-formed tree is defined and keeps
      it; nets with levels settle in a solution of their drivers; elaborated
      designs are well-formed trees of at most 66 levels with every driven net
      marked; a module in the circuit samples its input nodes, runs a step of
      the simulation on what it has sampled and drives its output nodes with
      the values it finds then; a new one is copied exactly.
    - Verilog text: the tokens and errors of the lexer are the only ones that
      a lexical grammar, stated without the lexer's functions, allows for the
      source, and it gives the same tokens when they are printed and
      lexed again; literals have the bits of the number they denote, and a
      decimal is accepted exactly when it fits; declarations keep the tables
      of a module consistent and the bits of its vectors apart; a parameter
      has its value in every instance; leaving a scope restores all names; the
      cursor stays inside of the tokens and skips exactly one group; the parser
      of expressions computes what a derivation of its grammar says.
    - Two-level minimization: the prime implicants are found exactly; Petrick's
      method returns a cover of minimal cost or gives up, the greedy cover
      covers and has no redundant pick, and the heuristic minimizer returns a
      valid cover, with or without the complement; the word-parallel cover test
      agrees with the test of one minterm; the cover that is chosen realizes
      the function for more than six variables.
    - Synthesis: the node built for an expression carries, in every stable
      valuation, the value the simulator's evaluator computes; continuous
      assignments and [always_comb] blocks are at rest in their netlist, with
      latches for variables that some path leaves alone; the flip-flops of an
      [always_ff] block load what the simulator computes for the next step; a
      variable without a driver is not read by a continuous assignment.  The
      theorems ask that no signal floats ([Z]), see the deviations.
    - Optimization: the passes for buffers, duplicates, unused models and fused
      inverters keep the netlist's invariant and what its ports can carry, and
      report whether they removed a model; no buffer and no model is left that
      they could have removed; a gate and the inverter that is its only reader
      are one complement gate afterwards; what replaces a gate with constant inputs
      carries the gate's value.
    - Deviations: a tri-state buffer keeps the loop busy for ever, toggling an
      unknown flip-flop makes it low, an eight-bit input of 255 is not driven,
      an encoding of more than 64 bits is accepted; in Verilog a continuous
      assignment to a register leaves its readers stale, an initial block that
      is not linear runs its first assignments twice, a derived clock does not
      fire, a copy of a running module runs its initial blocks again, the
      text kept for the body of a function joins symbols that stood apart, and
      the literal of the smallest 64-bit number is undefined; the exact cover
      of the synthesizer is only its essential primes, so functions of up to
      six variables can be replaced by others; its folding of constants lets
      [Z] pass through a gate, and a variable that is latched and read only in
      its own block gets no driver; the passes for double inverters, constants
      and absorption connect readers to nodes of gates they have removed.

    ** Bounds and fuel

    - The event loop has the code's budget of 10,000,000 iterations, counted in
      binary so that it evaluates ([Engine.loop_budget]);
      [Tick.budget_is_iteration] shows that this is the iterated body.
    - [Codec.read_uleb128_loop] has ten rounds of fuel: the shift reaches 70
      after ten bytes; [Codec.read_uleb128_safe] shows that more fuel changes
      nothing.  The writer has ten rounds, enough for 64 bits.
    - [FloatingSubnet.search] has as much fuel as there are nodes, and one
      more: a node is pushed once.  [FloatingSubnet.detect_finds_floating]
      shows that it returns.
    - The chunks of [Netlist] hold [4096 / sizeof] slots; the size is a
      parameter between 1 and 4096.
    - The evaluators of expressions have as much fuel as there are nodes, and
      the cached one one more: a node is marked before its operands are
      visited.  Statements nest at most as deep as their arena is long; loops
      have the code's 4096 rounds, the resolution its 64 deltas, and the walks
      over the instances the depth of the tree ([VRuntimeInv] shows that this
      is enough).  Elaboration stops below depth 64, as the code does.
    - The lexer has as much fuel as the source has characters, and the loops of
      the cursor as much as there are tokens; [VLex.lexing_partitions]
      and [VParser.skips_are_exact] show that they return.
    - The prime implicants have a round per variable of the sixteen and one
      more; the loops for essential primes end in their second round, the
      greedy loop picks each prime once, the cleanups shrink what they visit.
      The search of the exact cover takes its fuel as an argument; one step is
      enough, since it ends there ([SynthCoverClaims.exact_cover_is_essentials]).
    - Costs of covers are unbounded numbers: they are far below 64 bits
      ([SynthCoverClaims.cost_of_bound]).
    - Expressions and statements are lowered with as much fuel as their arenas
      are long, and one more; the traversal of the reads has two pushes per
      node.  The theorems on synthesis show that they return.
    - The orders that [std::sort] leaves open are arguments that permute.
    - Counters are 64-bit and wrap; the tokens of the caches are 32-bit.

    ** Not modelled, and next

    The rest of [circuit.h] (the analyses, the Newton iteration, [reset], and
    that [prepare()] establishes [Assemble.setup_ok]), the copying
    of netlists and [add_netlist], the registry and sections of
    [pe_nl_fileformat.h], the preprocessor of Verilog, the
    parsers of its identifiers, statements and modules, and of its synthesis
    ([verilog/digital/pe_synth.h]) the passes that rewrite cones and recognize
    arithmetic, the don't-care groups they use, the pipeline of the passes, nets
    with several drivers and the minimization of several outputs at once are
    next.  Code for CUDA devices stays outside.
    The solvers call Eigen, MKL and CUDA, the archive calls LevelDB, the non-linear devices are floating-point physics, [sin] and [cos] of the two
    AC sources are parameters, and the wrappers are glue
    for other languages: these stay outside. *)

From Stdlib Require Import ZArith Lia Sorting.Sorted.
From stdpp Require Import base list gmap numbers.

Open Scope Z_scope.

(** ** Automation

    [simp] is the case-analysis loop used throughout: it splits conjunctions,
    inverts equalities between constructors and rewrites with the hypotheses
    that say what a lookup returns. *)

Ltac simp_step :=
  match goal with
  | H : _ /\ _ |- _ => destruct H
  | H : exists _, _ |- _ => destruct H
  | H : Some _ = Some _ |- _ => injection H as H; subst
  | H : (_, _) = (_, _) |- _ => injection H as H; subst
  | H : None = Some _ |- _ => discriminate H
  | H : Some _ = None |- _ => discriminate H
  | H : true = false |- _ => discriminate H
  | H : false = true |- _ => discriminate H
  | H : ?x = ?x |- _ => clear H
  end.
Ltac simp := repeat (simp_step; simpl in *); subst; try done.

(** Case analysis on the scrutinee of a [match] or [if] of the goal (or of a
    hypothesis), remembering the equation. *)
Ltac case_goal :=
  match goal with
  | |- context [match ?x with _ => _ end] => destruct x eqn:?
  end.
Ltac case_hyp H :=
  match type of H with
  | context [match ?x with _ => _ end] => destruct x eqn:?; try discriminate H
  end.

Create HintDb phy.

(** ** Machine integers

    [std::size_t] and [std::uint64_t] are 64 bits wide on the targets of the
    program, [std::uint8_t] is 8 bits wide; an unsigned integer is a [Z] in
    range, and the wrap-around of an operation is written out. *)

Definition u64_wrap (z : Z) : Z := z mod 2 ^ 64.
Definition u8_wrap (z : Z) : Z := z mod 2 ^ 8.
Definition SIZE_MAX : Z := 2 ^ 64 - 1.

Lemma u64_wrap_range z : 0 <= u64_wrap z < 2 ^ 64.
Proof. unfold u64_wrap. apply Z.mod_pos_bound. lia. Qed.

Lemma u64_wrap_small z : 0 <= z < 2 ^ 64 -> u64_wrap z = z.
Proof. unfold u64_wrap. apply Z.mod_small. Qed.

Lemma u64_wrap_add z k : u64_wrap (u64_wrap z + k) = u64_wrap (z + k).
Proof. unfold u64_wrap. apply Zplus_mod_idemp_l. Qed.

Lemma u64_wrap_sub z k : u64_wrap (u64_wrap z - k) = u64_wrap (z - k).
Proof. unfold u64_wrap. apply Zminus_mod_idemp_l. Qed.

Lemma u8_wrap_range z : 0 <= u8_wrap z < 2 ^ 8.
Proof. unfold u8_wrap. apply Z.mod_pos_bound. lia. Qed.

Lemma u8_wrap_small z : 0 <= z < 2 ^ 8 -> u8_wrap z = z.
Proof. unfold u8_wrap. apply Z.mod_small. Qed.

(** A decidable fact about the numbers below a bound, by enumeration. *)
Lemma below_cases (n : nat) (P : Z -> bool) :
  forallb P (map Z.of_nat (seq 0 n)) = true -> forall b, 0 <= b < Z.of_nat n -> P b = true.
Proof.
  rewrite forallb_forall. intros HP b Hb. apply HP, in_map_iff. exists (Z.to_nat b). rewrite in_seq. lia.
Qed.

Lemma elem_of_concat {A} (x : A) ls : x ∈ concat ls <-> exists l, x ∈ l /\ l ∈ ls.
Proof.
  induction ls as [|l ls IH]; simpl; [set_solver|]. rewrite elem_of_app, IH. set_solver.
Qed.

(** ** Ordered sets

    [std::set] and [absl::btree_set] keep their keys in increasing order
    without duplicates, and iterate in that order; a set is the list of its
    keys in iteration order.  The key order is the order of the addresses. *)

Class OrdKey (A : Type) := {
  kcmp : A -> A -> comparison;
  kcmp_eq : forall x y, kcmp x y = Eq <-> x = y;
  kcmp_anti : forall x y, kcmp y x = CompOpp (kcmp x y);
  kcmp_trans : forall x y z, kcmp x y = Lt -> kcmp y z = Lt -> kcmp x z = Lt
}.

Definition klt {A} `{OrdKey A} (x y : A) : Prop := kcmp x y = Lt.

#[export, refine] Instance ordkey_N : OrdKey N := {| kcmp := N.compare |}.
Proof.
  - apply N.compare_eq_iff.
  - intros x y. apply N.compare_antisym.
  - intros x y z. rewrite !N.compare_lt_iff. lia.
Defined.

Definition pair_cmp (x y : N * N) : comparison :=
  match N.compare x.1 y.1 with Eq => N.compare x.2 y.2 | c => c end.

#[export, refine] Instance ordkey_NN : OrdKey (N * N) := {| kcmp := pair_cmp |}.
Proof.
  - intros [a b] [c d]. unfold pair_cmp; simpl. destruct (N.compare_spec a c); split; intros; simplify_eq; try lia.
    + apply N.compare_eq_iff in H0. by subst.
    + apply N.compare_refl.
  - intros [a b] [c d]. unfold pair_cmp; simpl. rewrite (N.compare_antisym a c).
    destruct (N.compare a c); simpl; try done. apply N.compare_antisym.
  - intros [a b] [c d] [e f]. unfold pair_cmp; simpl.
    destruct (N.compare a c) eqn:E1, (N.compare c e) eqn:E2; try discriminate; intros H1 H2;
      rewrite ?N.compare_eq_iff, ?N.compare_lt_iff in *; subst.
    + rewrite N.compare_refl. apply N.compare_lt_iff. lia.
    + by rewrite (proj2 (N.compare_lt_iff c e) E2).
    + by rewrite (proj2 (N.compare_lt_iff a e) E1).
    + by rewrite (proj2 (N.compare_lt_iff a e) ltac:(lia)).
Defined.

Section OSet.
Context {A : Type} `{OrdKey A}.

Fixpoint oset_insert (x : A) (l : list A) : list A :=
  match l with
  | [] => [x]
  | y :: l' =>
      match kcmp x y with
      | Lt => x :: l
      | Eq => l
      | Gt => y :: oset_insert x l'
      end
  end.

Fixpoint oset_erase (x : A) (l : list A) : list A :=
  match l with
  | [] => []
  | y :: l' => match kcmp x y with Eq => l' | _ => y :: oset_erase x l' end
  end.

Definition oset_insert_all (xs l : list A) : list A := fold_left (fun s x => oset_insert x s) xs l.

Lemma elem_of_oset_insert x y l : y ∈ oset_insert x l <-> y = x \/ y ∈ l.
Proof.
  induction l as [|z l IH]; simpl; [set_solver|].
  destruct (kcmp x z) eqn:E; [apply kcmp_eq in E; subst|..]; set_solver.
Qed.

Lemma elem_of_oset_insert_all xs y l : y ∈ oset_insert_all xs l <-> y ∈ xs \/ y ∈ l.
Proof.
  unfold oset_insert_all. revert l. induction xs as [|x xs IH]; intros l; simpl; [set_solver|].
  rewrite IH, elem_of_oset_insert. set_solver.
Qed.

Definition osorted (l : list A) : Prop := StronglySorted klt l.

Lemma oset_insert_sorted x l : osorted l -> osorted (oset_insert x l).
Proof.
  unfold osorted. induction 1 as [|y l Hs IH Hall]; simpl; [repeat constructor|].
  destruct (kcmp x y) eqn:E.
  - by constructor.
  - constructor; [by constructor|]. constructor; [done|].
    rewrite list.Forall_forall in *. intros z Hz. eapply kcmp_trans; [done|]. by apply Hall.
  - constructor; [done|]. rewrite list.Forall_forall in *. intros z Hz.
    apply elem_of_oset_insert in Hz as [->|Hz]; [|auto].
    unfold klt. rewrite kcmp_anti, E. done.
Qed.

Lemma oset_insert_all_sorted xs l : osorted l -> osorted (oset_insert_all xs l).
Proof.
  unfold oset_insert_all. revert l. induction xs; intros l Hl; simpl; auto using oset_insert_sorted.
Qed.

Lemma oset_erase_subset x y l : y ∈ oset_erase x l -> y ∈ l.
Proof. induction l as [|z l IH]; simpl; [done|]. destruct (kcmp x z); set_solver. Qed.

Lemma oset_erase_sorted x l : osorted l -> osorted (oset_erase x l).
Proof.
  unfold osorted. induction 1 as [|y l Hs IH Hall]; simpl; [constructor|].
  destruct (kcmp x y) eqn:E; [done|..]; (constructor; [done|]);
    rewrite list.Forall_forall in *; intros z Hz; apply Hall; by eapply oset_erase_subset.
Qed.

Lemma klt_irrefl (x : A) : ~ klt x x.
Proof. unfold klt. rewrite (proj2 (kcmp_eq x x) eq_refl). done. Qed.

Lemma elem_of_oset_erase x y l : osorted l -> y ∈ oset_erase x l <-> y ∈ l /\ y <> x.
Proof.
  unfold osorted. induction 1 as [|z l Hs IH Hall]; simpl; [set_solver|].
  rewrite list.Forall_forall in Hall.
  destruct (kcmp x z) eqn:E.
  - apply kcmp_eq in E as ->. split.
    + intros Hy. split; [set_solver|]. intros ->. by eapply klt_irrefl, Hall.
    + set_solver.
  - rewrite !elem_of_cons, IH. split; [|naive_solver].
    intros [->|?]; [|naive_solver]. split; [naive_solver|]. intros ->.
    by eapply klt_irrefl.
  - rewrite !elem_of_cons, IH. split; [|naive_solver].
    intros [->|?]; [|naive_solver]. split; [naive_solver|]. intros ->.
    rewrite (proj2 (kcmp_eq x x) eq_refl) in E. done.
Qed.

Lemma osorted_NoDup l : osorted l -> NoDup l.
Proof.
  unfold osorted. induction 1 as [|y l Hs IH Hall]; constructor; auto.
  rewrite list.Forall_forall in Hall. intros Hy. by eapply klt_irrefl, Hall.
Qed.

Lemma oset_insert_id x l : osorted l -> x ∈ l -> oset_insert x l = l.
Proof.
  unfold osorted. induction 1 as [|y l Hs IH Hall]; simpl; [set_solver|].
  intros Hx. apply elem_of_cons in Hx as [->|Hx].
  { by rewrite (proj2 (kcmp_eq y y) eq_refl). }
  rewrite list.Forall_forall in Hall. specialize (Hall x Hx). unfold klt in Hall.
  rewrite kcmp_anti, Hall; simpl. by rewrite IH.
Qed.

Lemma oset_erase_insert x l : x ∉ l -> oset_erase x (oset_insert x l) = l.
Proof.
  induction l as [|y l IH]; intros Hx; simpl; [by rewrite (proj2 (kcmp_eq x x) eq_refl)|].
  apply not_elem_of_cons in Hx as [Hxy Hx]. destruct (kcmp x y) eqn:E; [by apply kcmp_eq in E|..]; simpl.
  - by rewrite (proj2 (kcmp_eq x x) eq_refl).
  - by rewrite E, IH.
Qed.

(** Counting the keys with a property. *)
Definition count (f : A -> bool) (l : list A) : nat := length (List.filter f l).

Lemma count_insert (f : A -> bool) (x : A) (l : list A) : x ∉ l -> count f (oset_insert x l) = ((if f x then 1 else 0) + count f l)%nat.
Proof.
  unfold count. induction l as [|y l IH]; intros Hx; simpl; [by destruct (f x)|].
  apply not_elem_of_cons in Hx as [Hxy Hx]. destruct (kcmp x y) eqn:E; [by apply kcmp_eq in E|..]; simpl.
  - by destruct (f x), (f y).
  - specialize (IH Hx). destruct (f y); simpl; rewrite IH; lia.
Qed.

Lemma count_erase (f : A -> bool) (x : A) (l : list A) : x ∈ l -> ((if f x then 1 else 0) + count f (oset_erase x l) = count f l)%nat.
Proof.
  unfold count. induction l as [|y l IH]; intros Hx; simpl; [by apply elem_of_nil in Hx|].
  destruct (kcmp x y) eqn:E.
  - apply kcmp_eq in E as ->. by destruct (f y).
  - apply elem_of_cons in Hx as [->|Hx]; [by rewrite (proj2 (kcmp_eq y y) eq_refl) in E|].
    specialize (IH Hx). simpl. destruct (f y); simpl; lia.
  - apply elem_of_cons in Hx as [->|Hx]; [by rewrite (proj2 (kcmp_eq y y) eq_refl) in E|].
    specialize (IH Hx). simpl. destruct (f y); simpl; lia.
Qed.

Lemma count_ext (f g : A -> bool) (l : list A) : (forall x, x ∈ l -> f x = g x) -> count f l = count g l.
Proof.
  unfold count. induction l as [|y l IH]; intros Hfg; simpl; [done|].
  rewrite (Hfg y) by (apply elem_of_cons; by left).
  assert (length (List.filter f l) = length (List.filter g l)) by (apply IH; intros x Hx; apply Hfg, elem_of_cons; by right).
  destruct (g y); simpl; lia.
Qed.

Definition key_eq_dec : EqDecision A.
Proof. intros x y. destruct (kcmp x y) eqn:E; [left; by apply kcmp_eq|..]; right; intros Exy; apply kcmp_eq in Exy; congruence. Defined.

Lemma count_insert_all_false (f : A -> bool) (xs l : list A) :
  osorted l -> (forall x, x ∈ xs -> f x = false) -> count f (oset_insert_all xs l) = count f l.
Proof.
  unfold oset_insert_all. revert l. induction xs as [|x xs IH]; intros l Hl Hf; simpl; [done|].
  rewrite IH; [|by apply oset_insert_sorted|intros y Hy; apply Hf, elem_of_cons; by right].
  destruct (list_elem_of_dec (dec := key_eq_dec) x l) as [Hx|Hx]; [by rewrite oset_insert_id|].
  rewrite count_insert, (Hf x) by (done || apply elem_of_cons; by left). done.
Qed.

End OSet.

#[export] Hint Resolve oset_insert_sorted oset_insert_all_sorted oset_erase_sorted osorted_NoDup : phy.
