(* ===== verification/Logic4.v ===== *)
(** * Logic4: the four-state logic of [model/node/node.h]

    The states of a digital node and the operators [&], [|], [~], [^] that
    the gate models apply to them, with the reference semantics they are
    proved against: a state stands for the set of the booleans the wire may
    carry, and an operator returns the best state for the image of the sets. *)

From Stdlib Require Import ZArith.
From stdpp Require Import base list.
From S2P Require Import Prelude.

(** [enum class digital_node_statement_t] and [digital_update_method_t]. *)
Inductive digital_node_statement_t : Set :=
| false_state
| true_state
| indeterminate_state
| high_impedence_state.

Inductive digital_update_method_t : Set :=
| update_table
| before_all_clk
| after_all_clk.

#[export] Instance dns_eq_dec : EqDecision digital_node_statement_t.
Proof. solve_decision. Defined.
#[export] Instance method_eq_dec : EqDecision digital_update_method_t.
Proof. solve_decision. Defined.

Declare Scope dns_scope.
Delimit Scope dns_scope with dns.
Bind Scope dns_scope with digital_node_statement_t.
Open Scope dns_scope.

(** The aliases [L], [H], [X] of the enumeration are written [sL], [sH], [sX],
    and [Z] is [sZ] (the names clash with Rocq's). *)
Abbreviation sL := false_state.
Abbreviation sH := true_state.
Abbreviation sX := indeterminate_state.
Abbreviation sZ := high_impedence_state.

Definition dns_eqb (a b : digital_node_statement_t) : bool := bool_decide (a = b).

(** The underlying value of the enumeration, and [static_cast<bool>]. *)
Definition dns_value (a : digital_node_statement_t) : Z :=
  match a with sL => 0 | sH => 1 | sX => 2 | sZ => 3 end.
Definition dns_to_bool (a : digital_node_statement_t) : bool := negb (dns_value a =? 0)%Z.
Definition dns_of_bool (b : bool) : digital_node_statement_t := if b then sH else sL.

(** [print_reserve_define]: the character printed for a state. *)
Definition print_reserve_define (dns : digital_node_statement_t) : list Z :=
  match dns with
  | sL => [76%Z]
  | sH => [72%Z]
  | sX => [88%Z]
  | sZ => [90%Z]
  end.

Definition dns_and (a b : digital_node_statement_t) : digital_node_statement_t :=
  match a with
  | sL => sL
  | sH => match b with sL => sL | sH => sH | sX | sZ => sX end
  | sX | sZ => match b with sL => sL | sH | sX | sZ => sX end
  end.

Definition dns_or (a b : digital_node_statement_t) : digital_node_statement_t :=
  match a with
  | sL => match b with sL => sL | sH => sH | sX | sZ => sX end
  | sH => sH
  | sX | sZ => match b with sL => sX | sH => sH | sX | sZ => sX end
  end.

Definition dns_not (a : digital_node_statement_t) : digital_node_statement_t :=
  match a with sL => sH | sH => sL | sX | sZ => sX end.

Definition dns_xor (a b : digital_node_statement_t) : digital_node_statement_t :=
  match a with
  | sL | sH =>
      match b with
      | sL | sH => dns_of_bool (xorb (dns_to_bool a) (dns_to_bool b))
      | sX | sZ => sX
      end
  | sX | sZ => sX
  end.

Infix "&" := dns_and (at level 40, left associativity) : dns_scope.
Infix "|/" := dns_or (at level 45, left associativity) : dns_scope.
Infix "^^" := dns_xor (at level 42, left associativity) : dns_scope.
Notation "~! a" := (dns_not a) (at level 30, right associativity) : dns_scope.

(** The case analysis that decides a closed fact about states. *)
Ltac dns_cases :=
  repeat match goal with a : digital_node_statement_t |- _ => destruct a end.

Lemma dns_eqb_spec a b : dns_eqb a b = true <-> a = b.
Proof. unfold dns_eqb. apply bool_decide_eq_true. Qed.

Lemma dns_eqb_refl a : dns_eqb a a = true.
Proof. by apply dns_eqb_spec. Qed.

(** ** Reference semantics: the booleans a wire may carry *)

(** [may a v]: a wire in state [a] may carry the boolean [v]; an unknown or
    floating wire may carry either. *)
Definition may (a : digital_node_statement_t) (v : bool) : bool :=
  match a with sL => negb v | sH => v | sX | sZ => true end.

(** [a] is at least as defined as [b] when every boolean [a] may carry [b]
    may carry too. *)
Definition refines (a b : digital_node_statement_t) : Prop :=
  forall v, may a v = true -> may b v = true.

Definition binary (a : digital_node_statement_t) : bool :=
  match a with sL | sH => true | _ => false end.

(** [x] is the most precise driven state that covers the set [S]. *)
Definition best_state (S : bool -> Prop) (x : digital_node_statement_t) : Prop :=
  x <> sZ /\ forall v, may x v = true <-> S v.

Lemma best_state_unique S x y : best_state S x -> best_state S y -> x = y.
Proof.
  intros [Hx1 Hx] [Hy1 Hy].
  assert (E : forall v, may x v = may y v).
  { intros v. apply eq_bool_prop_intro. rewrite !Is_true_true, Hx, Hy. done. }
  pose proof (E true) as E1. pose proof (E false) as E2. destruct x, y; done.
Qed.

Ltac find_bool :=
  first [ by exists true | by exists false | by exists true, true | by exists true, false
        | by exists false, true | by exists false, false ].

Lemma operators_sets a b :
  (forall v, may (a & b) v = true <-> exists x y, may a x = true /\ may b y = true /\ v = andb x y) /\
  (forall v, may (a |/ b) v = true <-> exists x y, may a x = true /\ may b y = true /\ v = orb x y) /\
  (forall v, may (a ^^ b) v = true <-> exists x y, may a x = true /\ may b y = true /\ v = xorb x y) /\
  (forall v, may (~! a) v = true <-> exists x, may a x = true /\ v = negb x).
Proof.
  repeat apply conj; intros v; split.
  all: try (intros (x & y & Hx & Hy & ->); dns_cases; destruct x, y; done).
  all: try (intros (x & Hx & ->); dns_cases; destruct x; done).
  all: intros Hv; dns_cases; destruct v; try discriminate Hv; find_bool.
Qed.

(** C10: The four operators of the logic are exact: for every pair of states,
    [a & b] (and [|], [^], [~]) is the one driven state that stands for
    exactly the set of results the boolean operator can have on the booleans
    the operands may carry - sound for every valuation of the unknowns, and
    never [X] when the operands determine the result. *)
Theorem operators_exact : forall a b,
  best_state (fun v => exists x y, may a x = true /\ may b y = true /\ v = andb x y) (a & b) /\
  best_state (fun v => exists x y, may a x = true /\ may b y = true /\ v = orb x y) (a |/ b) /\
  best_state (fun v => exists x y, may a x = true /\ may b y = true /\ v = xorb x y) (a ^^ b) /\
  best_state (fun v => exists x, may a x = true /\ v = negb x) (~! a).
Proof.
  intros a b. destruct (operators_sets a b) as (A1 & A2 & A3 & A4). unfold best_state.
  repeat apply conj; auto; clear; dns_cases; discriminate.
Qed.

(** Refining the operands refines the result: if the unknowns of the
    operands are resolved in any way, the result of each operator only gets
    more defined, never contradicts the value computed from the unknowns. *)
Theorem operators_monotone : forall a a' b b',
  refines a a' -> refines b b' ->
  refines (a & b) (a' & b') /\ refines (a |/ b) (a' |/ b') /\
  refines (a ^^ b) (a' ^^ b') /\ refines (~! a) (~! a').
Proof.
  intros a a' b b' Ha Hb.
  destruct (operators_sets a b) as (A1 & A2 & A3 & A4), (operators_sets a' b') as (B1 & B2 & B3 & B4).
  repeat apply conj; intros v; [rewrite A1, B1|rewrite A2, B2|rewrite A3, B3|rewrite A4, B4];
    unfold refines in *; naive_solver.
Qed.

Lemma operators_monotone_witness :
  refines sH sX /\ refines sL sZ /\ refines (sH & sL) (sX & sZ).
Proof.
  assert (H1 : refines sH sX) by (intros []; done).
  assert (H2 : refines sL sZ) by (intros []; done).
  split; [exact H1|]. split; [exact H2|]. apply (operators_monotone sH sX sL sZ H1 H2).
Defined.
