(* ===== verification/Store.v ===== *)
(** * Store: nodes, pins, the update table, and the monad of the models

    [model/node/node.h], [model/pin/pin.h], [circuits/digital/update_table.h]
    and [model/model_refs/variant.h].  A node is reached through its address;
    a pin is reached through the address of the model object that holds it and
    its index in that object's pin array, so that the order of pin addresses is
    the lexicographic one.  Code that reads or writes nodes runs in a state
    monad whose failure is undefined behaviour: a null or dangling pointer, the
    inactive member of a union, or [fast_io::unreachable()]. *)

From Stdlib Require Import ZArith Lia SpecFloat.
From stdpp Require Import base list gmap strings.
From S2P Require Import Prelude Logic4.

(** ** The [double] of the program

    IEEE 754 binary64, as the Standard Library's executable specification
    [SpecFloat] gives it: a value is a sign, a mantissa and an exponent, an
    infinity, a signed zero or a NaN, and an operation rounds to nearest, ties
    to even.  A comparison with a NaN is false, as in C++. *)

Open Scope Z_scope.

Definition double : Type := spec_float.

Definition d_prec : Z := 53.
Definition d_emax : Z := 1024.

(** The double nearest to the decimal literal [m * 10 ^ -k]. *)
Definition of_decimal (m : positive) (k : Z) : double :=
  let '(mz, ez, lz) := SFdiv_core_binary d_prec d_emax (Zpos m) 0 (10 ^ k) 0 in
  binary_round_aux d_prec d_emax false mz ez lz.

Definition of_Z (z : Z) : double := binary_normalize d_prec d_emax z 0 false.

Definition d_zero : double := S754_zero false.
Definition d_five : double := of_decimal 5 0.
Definition d_1em9 : double := of_decimal 1 9.
Definition d_5em10 : double := of_decimal 5 10.

Definition dadd (x y : double) : double := SFadd d_prec d_emax x y.
Definition dsub (x y : double) : double := SFsub d_prec d_emax x y.
Definition dmul (x y : double) : double := SFmul d_prec d_emax x y.
Definition ddiv (x y : double) : double := SFdiv d_prec d_emax x y.

Definition dge (x y : double) : bool := SFleb y x.
Definition dle (x y : double) : bool := SFleb x y.
Definition dgt (x y : double) : bool := SFltb y x.
Definition dlt (x y : double) : bool := SFltb x y.

Open Scope Z_scope.

Abbreviation node_ptr := N.
Abbreviation model_ptr := N.
Abbreviation impl_ptr := N.
Abbreviation pin_ptr := (N * N)%type.

(** [std::complex<double>], [analog_node_t], [digital_node_t] and the union. *)
Record complex : Type := { re : double; im : double }.
Definition c_zero : complex := {| re := d_zero; im := d_zero |}.

Inductive node_information_union : Type :=
| dn (state : digital_node_statement_t)
| an (voltage : complex).

Record node_t : Type := mk_node {
  node_information : node_information_union;
  pins : list pin_ptr;
  num_of_analog_node : Z;
  node_index : Z
}.

(** [node_t() = default]: the first member of the union, value-initialised. *)
Definition node_t_default : node_t :=
  {| node_information := dn sL; pins := []; num_of_analog_node := 0; node_index := SIZE_MAX |}.

(** [node_t(node_t const&)]: copy and disconnect from the model. *)
Definition node_t_copy (others : node_t) : node_t :=
  {| node_information := node_information others; pins := []; num_of_analog_node := 0;
     node_index := SIZE_MAX |}.

(** [node_t& operator=(node_t const&)] keeps the counter and the index. *)
Definition node_t_assign (this others : node_t) : node_t :=
  {| node_information := node_information others; pins := [];
     num_of_analog_node := num_of_analog_node this; node_index := node_index this |}.

Definition node_t_copy_with_model (this others : node_t) : node_t :=
  {| node_information := node_information others; pins := pins others;
     num_of_analog_node := num_of_analog_node others; node_index := node_index others |}.

Definition node_t_destroy (this : node_t) : node_t :=
  {| node_information := node_information this; pins := []; num_of_analog_node := 0;
     node_index := SIZE_MAX |}.

Definition set_information (this : node_t) (i : node_information_union) : node_t :=
  {| node_information := i; pins := pins this; num_of_analog_node := num_of_analog_node this;
     node_index := node_index this |}.

(** [struct pin]. *)
Record pin : Type := mk_pin {
  name : string;
  nodes : option node_ptr;
  model : option model_ptr
}.
Definition pin_of_name (s : string) : pin := {| name := s; nodes := None; model := None |}.

(** [digital_node_update_table] and [need_operate_analog_node_t]. *)
Record digital_node_update_table : Type := mk_table {
  always_tables : list node_ptr;
  tables : list node_ptr
}.

Record need_operate_analog_node_t : Type := mk_need {
  voltage : double;
  need_to_operate_analog_node : option node_ptr
}.
Definition no_need : need_operate_analog_node_t :=
  {| voltage := d_zero; need_to_operate_analog_node := None |}.
Definition need (v : double) (n : node_ptr) : need_operate_analog_node_t :=
  {| voltage := v; need_to_operate_analog_node := Some n |}.

(** [struct variant]: a tagged union of attribute values.  No modelled operation
    sets or reads the [float] member [v_f]. *)
Inductive variant : Type :=
| v_invalid
| v_i8 (z : Z) | v_i16 (z : Z) | v_i32 (z : Z) | v_i64 (z : Z)
| v_ui8 (z : Z) | v_ui16 (z : Z) | v_ui32 (z : Z) | v_ui64 (z : Z)
| v_boolean (b : bool)
| v_f (x : double) | v_d (x : double)
| v_digital (s : digital_node_statement_t).

(** ** The state of the digital models and its monad *)

Record dstate : Type := mk_dstate {
  d_nodes : gmap node_ptr node_t;
  d_tables : list node_ptr
}.

Definition M (A : Type) : Type := dstate -> option (A * dstate).

Definition ret {A} (a : A) : M A := fun s => Some (a, s).
Definition ub {A} : M A := fun _ => None.
Definition bind {A B} (m : M A) (k : A -> M B) : M B :=
  fun s => match m s with Some (a, s') => k a s' | None => None end.

Declare Scope ub_scope.
Delimit Scope ub_scope with ub.
Notation "'let*' x ':=' c 'in' k" := (bind c (fun x => k))
  (at level 10, x name, c at level 200, k at level 200,
   format "'[v' 'let*'  x  ':='  c  'in' '/' k ']'") : ub_scope.
Notation "'do*' c 'in' k" := (bind c (fun _ => k))
  (at level 10, c at level 200, k at level 200, format "'[v' 'do*'  c  'in' '/' k ']'") : ub_scope.
Open Scope ub_scope.

Definition deref (n : node_ptr) : M node_t :=
  fun s => match d_nodes s !! n with Some nd => Some (nd, s) | None => None end.

(** [n->num_of_analog_node], [n->node_information.dn.state] and
    [n->node_information.an.voltage.real()]. *)
Definition get_num (n : node_ptr) : M Z := let* nd := deref n in ret (num_of_analog_node nd).
Definition get_dn (n : node_ptr) : M digital_node_statement_t :=
  let* nd := deref n in match node_information nd with dn st => ret st | an _ => ub end.
Definition get_voltage (n : node_ptr) : M double :=
  let* nd := deref n in match node_information nd with an v => ret (re v) | dn _ => ub end.

(** [n->node_information.dn.state = st] and [table.tables.insert(n)]. *)
Definition set_dn (n : node_ptr) (st : digital_node_statement_t) : M unit :=
  fun s => match d_nodes s !! n with
           | Some nd => Some (tt, {| d_nodes := <[n := set_information nd (dn st)]> (d_nodes s);
                                     d_tables := d_tables s |})
           | None => None
           end.
Definition insert_table (n : node_ptr) : M unit :=
  fun s => Some (tt, {| d_nodes := d_nodes s; d_tables := oset_insert n (d_tables s) |}).

(** [clip.pins[i].nodes]; an index outside the array is undefined behaviour. *)
Definition pin_nodes (ps : list pin) (i : nat) : M (option node_ptr) :=
  match ps !! i with Some p => ret (nodes p) | None => ub end.

(** [if (c) then m] with the fall-through value. *)
Definition when (b : bool) (m : M unit) : M unit := if b then m else ret tt.
