(* ===== verification/Gates.v ===== *)
(** * Gates: the logic gates and the terminals of [models/digital/logical/]

    The ten gates [AND], [OR], [XOR], [NAND], [NOR], [XNOR], [IMP], [NIMP],
    [NOT] and [YES], and the terminals [INPUT] and [OUTPUT].  The eight
    two-input gates have the same fields and the same code but for the line
    that computes [output_res]; [gate2] and [gate2_update] are that code, and
    each gate instantiates them with its own line.  So do [gate1] and
    [gate1_update] for the two one-input gates. *)

From Stdlib Require Import ZArith.
From stdpp Require Import base list gmap strings.
From S2P Require Import Prelude Store Logic4.

Open Scope Z_scope.

(** ** Sampling an input

    The fields [inputA], [USRA] and [duration_A] of one input. *)
Record channel : Type := mk_channel {
  input : digital_node_statement_t;
  USR : digital_node_statement_t;
  duration : double
}.
Definition channel_default : channel := {| input := sX; USR := sX; duration := d_zero |}.

(** The levels and the setup and hold times of a gate. *)
Record levels : Type := mk_levels { Ll : double; Hl : double; Tsu : double; Th : double }.
Definition levels_default : levels :=
  {| Ll := d_zero; Hl := d_five; Tsu := d_1em9; Th := d_5em10 |}.

(** The [switch (clip.inputA)] on an analog input; [None] is [unreachable()]. *)
Definition sample_analog (lv : levels) (tr_duration v : double) (c : channel) : option channel :=
  match input c with
  | sL =>
      Some (if dge v (Hl lv) then
              if dgt (Tsu lv) d_zero
              then {| input := sX; USR := sH; duration := tr_duration |}
              else {| input := sH; USR := USR c; duration := duration c |}
            else c)
  | sH =>
      Some (if dle v (Ll lv) then
              if dgt (Th lv) d_zero
              then {| input := sX; USR := sL; duration := tr_duration |}
              else {| input := sL; USR := USR c; duration := duration c |}
            else c)
  | sX =>
      match USR c with
      | sL =>
          Some (if dle v (Ll lv) then
                  if dge (dsub tr_duration (duration c)) (Tsu lv)
                  then {| input := sL; USR := USR c; duration := duration c |} else c
                else {| input := sH; USR := USR c; duration := duration c |})
      | sH =>
          Some (if dge v (Hl lv) then
                  if dge (dsub tr_duration (duration c)) (Th lv)
                  then {| input := sH; USR := USR c; duration := duration c |} else c
                else {| input := sL; USR := USR c; duration := duration c |})
      | sX =>
          Some (if dge v (Hl lv) then
                  if dge (dsub tr_duration (duration c)) (Th lv)
                  then {| input := sH; USR := USR c; duration := duration c |} else c
                else if dle v (Ll lv) then
                  if dge (dsub tr_duration (duration c)) (Tsu lv)
                  then {| input := sL; USR := USR c; duration := duration c |} else c
                else {| input := input c; USR := USR c; duration := tr_duration |})
      | sZ => None
      end
  | sZ => Some c
  end.

(** The whole of the input: an analog node is sampled against the levels, a
    digital node is read. *)
Definition sample_input (lv : levels) (tr_duration : double) (n : node_ptr) (c : channel) : M channel :=
  let* k := get_num n in
  if (k =? 0)%Z then
    let* st := get_dn n in ret {| input := st; USR := USR c; duration := duration c |}
  else
    let* v := get_voltage n in
    match sample_analog lv tr_duration v c with Some c' => ret c' | None => ub end.

(** The end of every gate: an analog output is driven to a level, a digital
    one gets the new state and is scheduled when the output changed. *)
Definition drive_output (lv : levels) (n : node_ptr) (res : digital_node_statement_t) (change : bool)
    : M need_operate_analog_node_t :=
  let* k := get_num n in
  if (k =? 0)%Z then
    do* set_dn n res in
    do* when change (insert_table n) in
    ret no_need
  else
    match res with
    | sL => ret (need (Ll lv) n)
    | sH => ret (need (Hl lv) n)
    | sX => ret (need (Ll lv) n)
    | sZ => ret no_need
    end.

(** The [inv] lambda of the inverting gates. *)
Definition inv (v : digital_node_statement_t) : digital_node_statement_t :=
  match v with sL => sH | sH => sL | _ => sX end.

(** ** Two-input gates *)

Record gate2 : Type := mk_gate2 {
  g2_pins : list pin;
  g2_levels : levels;
  g2_A : channel;
  g2_B : channel;
  g2_last_outputA : digital_node_statement_t
}.

Definition gate2_default : gate2 :=
  {| g2_pins := [pin_of_name "ia"; pin_of_name "ib"; pin_of_name "o"];
     g2_levels := levels_default; g2_A := channel_default; g2_B := channel_default;
     g2_last_outputA := sX |}.

Definition levels_set_attribute (lv : levels) (n : Z) (vi : variant) : bool * levels :=
  match n, vi with
  | 0, v_d x => (true, {| Ll := x; Hl := Hl lv; Tsu := Tsu lv; Th := Th lv |})
  | 1, v_d x => (true, {| Ll := Ll lv; Hl := x; Tsu := Tsu lv; Th := Th lv |})
  | 2, v_d x => (true, {| Ll := Ll lv; Hl := Hl lv; Tsu := x; Th := Th lv |})
  | 3, v_d x => (true, {| Ll := Ll lv; Hl := Hl lv; Tsu := Tsu lv; Th := x |})
  | _, _ => (false, lv)
  end.

Definition levels_get_attribute (lv : levels) (n : Z) : variant :=
  match n with
  | 0 => v_d (Ll lv)
  | 1 => v_d (Hl lv)
  | 2 => v_d (Tsu lv)
  | 3 => v_d (Th lv)
  | _ => v_invalid
  end.

Definition levels_get_attribute_name (n : Z) : string :=
  match n with 0 => "Ll" | 1 => "Hl" | 2 => "Tsu" | 3 => "Th" | _ => "" end.

Definition gate2_set_attribute (clip : gate2) (n : Z) (vi : variant) : bool * gate2 :=
  let '(ok, lv) := levels_set_attribute (g2_levels clip) n vi in
  (ok, {| g2_pins := g2_pins clip; g2_levels := lv; g2_A := g2_A clip; g2_B := g2_B clip;
          g2_last_outputA := g2_last_outputA clip |}).

Definition channel_prepare (c : channel) : channel :=
  {| input := sX; USR := sL; duration := d_zero |}.

Definition gate2_prepare_tr (clip : gate2) : bool * gate2 :=
  (true, {| g2_pins := g2_pins clip; g2_levels := g2_levels clip;
            g2_A := channel_prepare (g2_A clip); g2_B := channel_prepare (g2_B clip);
            g2_last_outputA := g2_last_outputA clip |}).

Definition gate2_update (op : digital_node_statement_t -> digital_node_statement_t -> digital_node_statement_t)
    (clip : gate2) (tr_duration : double) : M (gate2 * need_operate_analog_node_t) :=
  let* node_ia := pin_nodes (g2_pins clip) 0 in
  let* node_ib := pin_nodes (g2_pins clip) 1 in
  let* node_o := pin_nodes (g2_pins clip) 2 in
  match node_ia, node_ib, node_o with
  | Some ia, Some ib, Some o =>
      let* a := sample_input (g2_levels clip) tr_duration ia (g2_A clip) in
      let* b := sample_input (g2_levels clip) tr_duration ib (g2_B clip) in
      let output_res := op (input a) (input b) in
      let output_change := negb (dns_eqb (g2_last_outputA clip) output_res) in
      let clip' := {| g2_pins := g2_pins clip; g2_levels := g2_levels clip; g2_A := a; g2_B := b;
                      g2_last_outputA := output_res |} in
      let* r := drive_output (g2_levels clip) o output_res output_change in
      ret (clip', r)
  | _, _, _ => ret (clip, no_need)
  end.

(** [struct AND] of [logical/and.h]. *)
Module AND.

Definition model_name : string := "AND".
Definition digital_update_method : digital_update_method_t := update_table.
Definition default : gate2 := gate2_default.

Definition set_attribute_define (clip : gate2) (n : Z) (vi : variant) : bool * gate2 :=
  gate2_set_attribute clip n vi.

Definition get_attribute_define (clip : gate2) (n : Z) : variant :=
  levels_get_attribute (g2_levels clip) n.

Definition get_attribute_name_define (n : Z) : string := levels_get_attribute_name n.

Definition prepare_tr_define (clip : gate2) : bool * gate2 := gate2_prepare_tr clip.

Definition output_res (a b : digital_node_statement_t) : digital_node_statement_t := a & b.

Definition update_digital_clk_define (clip : gate2) (tr_duration : double) (method : digital_update_method_t)
    : M (gate2 * need_operate_analog_node_t) :=
  gate2_update output_res clip tr_duration.

Definition generate_pin_view_define (clip : gate2) : list pin := g2_pins clip.

End AND.

(** [struct OR] of [logical/or.h]. *)
Module OR.

Definition model_name : string := "OR".
Definition digital_update_method : digital_update_method_t := update_table.
Definition default : gate2 := gate2_default.

Definition set_attribute_define (clip : gate2) (n : Z) (vi : variant) : bool * gate2 :=
  gate2_set_attribute clip n vi.

Definition get_attribute_define (clip : gate2) (n : Z) : variant :=
  levels_get_attribute (g2_levels clip) n.

Definition get_attribute_name_define (n : Z) : string := levels_get_attribute_name n.

Definition prepare_tr_define (clip : gate2) : bool * gate2 := gate2_prepare_tr clip.

Definition output_res (a b : digital_node_statement_t) : digital_node_statement_t := a |/ b.

Definition update_digital_clk_define (clip : gate2) (tr_duration : double) (method : digital_update_method_t)
    : M (gate2 * need_operate_analog_node_t) :=
  gate2_update output_res clip tr_duration.

Definition generate_pin_view_define (clip : gate2) : list pin := g2_pins clip.

End OR.

(** [struct XOR] of [logical/xor.h]. *)
Module XOR.

Definition model_name : string := "XOR".
Definition digital_update_method : digital_update_method_t := update_table.
Definition default : gate2 := gate2_default.

Definition set_attribute_define (clip : gate2) (n : Z) (vi : variant) : bool * gate2 :=
  gate2_set_attribute clip n vi.

Definition get_attribute_define (clip : gate2) (n : Z) : variant :=
  levels_get_attribute (g2_levels clip) n.

Definition get_attribute_name_define (n : Z) : string := levels_get_attribute_name n.

Definition prepare_tr_define (clip : gate2) : bool * gate2 := gate2_prepare_tr clip.

Definition output_res (a b : digital_node_statement_t) : digital_node_statement_t := a ^^ b.

Definition update_digital_clk_define (clip : gate2) (tr_duration : double) (method : digital_update_method_t)
    : M (gate2 * need_operate_analog_node_t) :=
  gate2_update output_res clip tr_duration.

Definition generate_pin_view_define (clip : gate2) : list pin := g2_pins clip.

End XOR.

(** [struct NAND] of [logical/nand.h]. *)
Module NAND.

Definition model_name : string := "NAND".
Definition digital_update_method : digital_update_method_t := update_table.
Definition default : gate2 := gate2_default.

Definition set_attribute_define (clip : gate2) (n : Z) (vi : variant) : bool * gate2 :=
  gate2_set_attribute clip n vi.

Definition get_attribute_define (clip : gate2) (n : Z) : variant :=
  levels_get_attribute (g2_levels clip) n.

Definition get_attribute_name_define (n : Z) : string := levels_get_attribute_name n.

Definition prepare_tr_define (clip : gate2) : bool * gate2 := gate2_prepare_tr clip.

Definition output_res (a b : digital_node_statement_t) : digital_node_statement_t := inv (a & b).

Definition update_digital_clk_define (clip : gate2) (tr_duration : double) (method : digital_update_method_t)
    : M (gate2 * need_operate_analog_node_t) :=
  gate2_update output_res clip tr_duration.

Definition generate_pin_view_define (clip : gate2) : list pin := g2_pins clip.

End NAND.

(** [struct NOR] of [logical/nor.h]. *)
Module NOR.

Definition model_name : string := "NOR".
Definition digital_update_method : digital_update_method_t := update_table.
Definition default : gate2 := gate2_default.

Definition set_attribute_define (clip : gate2) (n : Z) (vi : variant) : bool * gate2 :=
  gate2_set_attribute clip n vi.

Definition get_attribute_define (clip : gate2) (n : Z) : variant :=
  levels_get_attribute (g2_levels clip) n.

Definition get_attribute_name_define (n : Z) : string := levels_get_attribute_name n.

Definition prepare_tr_define (clip : gate2) : bool * gate2 := gate2_prepare_tr clip.

Definition output_res (a b : digital_node_statement_t) : digital_node_statement_t := inv (a |/ b).

Definition update_digital_clk_define (clip : gate2) (tr_duration : double) (method : digital_update_method_t)
    : M (gate2 * need_operate_analog_node_t) :=
  gate2_update output_res clip tr_duration.

Definition generate_pin_view_define (clip : gate2) : list pin := g2_pins clip.

End NOR.

(** [struct XNOR] of [logical/xnor.h]. *)
Module XNOR.

Definition model_name : string := "XNOR".
Definition digital_update_method : digital_update_method_t := update_table.
Definition default : gate2 := gate2_default.

Definition set_attribute_define (clip : gate2) (n : Z) (vi : variant) : bool * gate2 :=
  gate2_set_attribute clip n vi.

Definition get_attribute_define (clip : gate2) (n : Z) : variant :=
  levels_get_attribute (g2_levels clip) n.

Definition get_attribute_name_define (n : Z) : string := levels_get_attribute_name n.

Definition prepare_tr_define (clip : gate2) : bool * gate2 := gate2_prepare_tr clip.

Definition output_res (a b : digital_node_statement_t) : digital_node_statement_t := inv (a ^^ b).

Definition update_digital_clk_define (clip : gate2) (tr_duration : double) (method : digital_update_method_t)
    : M (gate2 * need_operate_analog_node_t) :=
  gate2_update output_res clip tr_duration.

Definition generate_pin_view_define (clip : gate2) : list pin := g2_pins clip.

End XNOR.

(** [struct IMP] of [logical/implication.h]. *)
Module IMP.

Definition model_name : string := "IMP".
Definition digital_update_method : digital_update_method_t := update_table.
Definition default : gate2 := gate2_default.

Definition set_attribute_define (clip : gate2) (n : Z) (vi : variant) : bool * gate2 :=
  gate2_set_attribute clip n vi.

Definition get_attribute_define (clip : gate2) (n : Z) : variant :=
  levels_get_attribute (g2_levels clip) n.

Definition get_attribute_name_define (n : Z) : string := levels_get_attribute_name n.

Definition prepare_tr_define (clip : gate2) : bool * gate2 := gate2_prepare_tr clip.

Definition output_res (a b : digital_node_statement_t) : digital_node_statement_t := inv a |/ b.

Definition update_digital_clk_define (clip : gate2) (tr_duration : double) (method : digital_update_method_t)
    : M (gate2 * need_operate_analog_node_t) :=
  gate2_update output_res clip tr_duration.

Definition generate_pin_view_define (clip : gate2) : list pin := g2_pins clip.

End IMP.

(** [struct NIMP] of [logical/non_implication.h]. *)
Module NIMP.

Definition model_name : string := "NIMP".
Definition digital_update_method : digital_update_method_t := update_table.
Definition default : gate2 := gate2_default.

Definition set_attribute_define (clip : gate2) (n : Z) (vi : variant) : bool * gate2 :=
  gate2_set_attribute clip n vi.

Definition get_attribute_define (clip : gate2) (n : Z) : variant :=
  levels_get_attribute (g2_levels clip) n.

Definition get_attribute_name_define (n : Z) : string := levels_get_attribute_name n.

Definition prepare_tr_define (clip : gate2) : bool * gate2 := gate2_prepare_tr clip.

Definition output_res (a b : digital_node_statement_t) : digital_node_statement_t := a & inv b.

Definition update_digital_clk_define (clip : gate2) (tr_duration : double) (method : digital_update_method_t)
    : M (gate2 * need_operate_analog_node_t) :=
  gate2_update output_res clip tr_duration.

Definition generate_pin_view_define (clip : gate2) : list pin := g2_pins clip.

End NIMP.

(** ** One-input gates *)

Record gate1 : Type := mk_gate1 {
  g1_pins : list pin;
  g1_levels : levels;
  g1_A : channel;
  g1_last_outputA : digital_node_statement_t
}.

Definition gate1_default : gate1 :=
  {| g1_pins := [pin_of_name "i"; pin_of_name "o"];
     g1_levels := levels_default; g1_A := channel_default; g1_last_outputA := sX |}.

Definition gate1_set_attribute (clip : gate1) (n : Z) (vi : variant) : bool * gate1 :=
  let '(ok, lv) := levels_set_attribute (g1_levels clip) n vi in
  (ok, {| g1_pins := g1_pins clip; g1_levels := lv; g1_A := g1_A clip;
          g1_last_outputA := g1_last_outputA clip |}).

Definition gate1_prepare_tr (clip : gate1) : bool * gate1 :=
  (true, {| g1_pins := g1_pins clip; g1_levels := g1_levels clip;
            g1_A := channel_prepare (g1_A clip); g1_last_outputA := g1_last_outputA clip |}).

Definition gate1_update (op : digital_node_statement_t -> digital_node_statement_t)
    (clip : gate1) (tr_duration : double) : M (gate1 * need_operate_analog_node_t) :=
  let* node_i := pin_nodes (g1_pins clip) 0 in
  let* node_o := pin_nodes (g1_pins clip) 1 in
  match node_i, node_o with
  | Some i, Some o =>
      let* a := sample_input (g1_levels clip) tr_duration i (g1_A clip) in
      let output_res := op (input a) in
      let output_change := negb (dns_eqb (g1_last_outputA clip) output_res) in
      let clip' := {| g1_pins := g1_pins clip; g1_levels := g1_levels clip; g1_A := a;
                      g1_last_outputA := output_res |} in
      let* r := drive_output (g1_levels clip) o output_res output_change in
      ret (clip', r)
  | _, _ => ret (clip, no_need)
  end.

(** [struct NOT] of [logical/not.h]. *)
Module NOT.

Definition model_name : string := "NOT".
Definition digital_update_method : digital_update_method_t := update_table.
Definition default : gate1 := gate1_default.

Definition set_attribute_define (clip : gate1) (n : Z) (vi : variant) : bool * gate1 :=
  gate1_set_attribute clip n vi.

Definition get_attribute_define (clip : gate1) (n : Z) : variant :=
  levels_get_attribute (g1_levels clip) n.

Definition get_attribute_name_define (n : Z) : string := levels_get_attribute_name n.

Definition prepare_tr_define (clip : gate1) : bool * gate1 := gate1_prepare_tr clip.

Definition output_res (a : digital_node_statement_t) : digital_node_statement_t := ~! a.

Definition update_digital_clk_define (clip : gate1) (tr_duration : double) (method : digital_update_method_t)
    : M (gate1 * need_operate_analog_node_t) :=
  gate1_update output_res clip tr_duration.

Definition generate_pin_view_define (clip : gate1) : list pin := g1_pins clip.

End NOT.

(** [struct YES] of [logical/yes.h]. *)
Module YES.

Definition model_name : string := "YES".
Definition digital_update_method : digital_update_method_t := update_table.
Definition default : gate1 := gate1_default.

Definition set_attribute_define (clip : gate1) (n : Z) (vi : variant) : bool * gate1 :=
  gate1_set_attribute clip n vi.

Definition get_attribute_define (clip : gate1) (n : Z) : variant :=
  levels_get_attribute (g1_levels clip) n.

Definition get_attribute_name_define (n : Z) : string := levels_get_attribute_name n.

Definition prepare_tr_define (clip : gate1) : bool * gate1 := gate1_prepare_tr clip.

Definition output_res (a : digital_node_statement_t) : digital_node_statement_t := a.

Definition update_digital_clk_define (clip : gate1) (tr_duration : double) (method : digital_update_method_t)
    : M (gate1 * need_operate_analog_node_t) :=
  gate1_update output_res clip tr_duration.

Definition generate_pin_view_define (clip : gate1) : list pin := g1_pins clip.

End YES.

(** ** Terminals *)

(** [struct INPUT] of [logical/input.h]: drives the state set by the user. *)
Module INPUT.

Record t : Type := mk {
  i_pins : list pin;
  i_Ll : double;
  i_Hl : double;
  outputA : digital_node_statement_t;
  last_outputA : digital_node_statement_t
}.

Definition model_name : string := "INPUT".
Definition digital_update_method : digital_update_method_t := before_all_clk.
Definition default : t :=
  {| i_pins := [pin_of_name "o"]; i_Ll := d_zero; i_Hl := d_five; outputA := sL; last_outputA := sX |}.

Definition set_attribute_define (clip : t) (n : Z) (vi : variant) : bool * t :=
  match n, vi with
  | 0, v_digital s => (true, {| i_pins := i_pins clip; i_Ll := i_Ll clip; i_Hl := i_Hl clip;
                                outputA := s; last_outputA := last_outputA clip |})
  | _, _ => (false, clip)
  end.

Definition get_attribute_define (clip : t) (n : Z) : variant :=
  match n with 0 => v_digital (outputA clip) | _ => v_invalid end.

Definition get_attribute_name_define (n : Z) : string := match n with 0 => "boolean" | _ => "" end.

Definition update_digital_clk_define (clip : t) (tr_duration : double) (method : digital_update_method_t)
    : M (t * need_operate_analog_node_t) :=
  let* node_o := pin_nodes (i_pins clip) 0 in
  match node_o with
  | None => ret (clip, no_need)
  | Some o =>
      let output_res := outputA clip in
      let output_change := negb (dns_eqb (last_outputA clip) output_res) in
      let clip' := {| i_pins := i_pins clip; i_Ll := i_Ll clip; i_Hl := i_Hl clip;
                      outputA := outputA clip; last_outputA := output_res |} in
      let lv := {| Ll := i_Ll clip; Hl := i_Hl clip; Tsu := d_zero; Th := d_zero |} in
      let* r := drive_output lv o output_res output_change in
      ret (clip', r)
  end.

Definition generate_pin_view_define (clip : t) : list pin := i_pins clip.

End INPUT.

(** [struct OUTPUT] of [logical/output.h]: samples its node; the pin is
    dereferenced without a test. *)
Module OUTPUT.

Record t : Type := mk { o_pins : list pin; o_levels : levels; o_A : channel }.

Definition model_name : string := "OUTPUT".
Definition digital_update_method : digital_update_method_t := update_table.
Definition default : t :=
  {| o_pins := [pin_of_name "i"]; o_levels := levels_default; o_A := channel_default |}.

Definition set_attribute_define (clip : t) (n : Z) (vi : variant) : bool * t := (false, clip).

Definition get_attribute_define (clip : t) (n : Z) : variant :=
  match n with 0 => v_digital (input (o_A clip)) | _ => v_invalid end.

Definition get_attribute_name_define (n : Z) : string := match n with 0 => "value" | _ => "" end.

Definition update_digital_clk_define (clip : t) (tr_duration : double) (method : digital_update_method_t)
    : M (t * need_operate_analog_node_t) :=
  let* node_i := pin_nodes (o_pins clip) 0 in
  match node_i with
  | None => ub
  | Some i =>
      let* a := sample_input (o_levels clip) tr_duration i (o_A clip) in
      ret ({| o_pins := o_pins clip; o_levels := o_levels clip; o_A := a |}, no_need)
  end.

Definition generate_pin_view_define (clip : t) : list pin := o_pins clip.

End OUTPUT.
