(* ===== verification/Devices.v ===== *)
(** * Devices: the other combinational models of [models/digital/logical/]

    [CASE_EQ], [IS_UNKNOWN], [RESOLVE2], [TRI], [SCHMITT_TRIGGER],
    [TICK_DELAY], [EIGHT_BIT_INPUT] and [EIGHT_BIT_DISPLAY].  The lambdas and
    the final statements they (and the sequential models) repeat are the
    definitions at the head of the file. *)

From Stdlib Require Import ZArith.
From stdpp Require Import base list gmap strings.
From S2P Require Import Prelude Store Logic4.

Open Scope Z_scope.

(** [v >= Hl ? H : v <= Ll ? L : X]. *)
Definition read_level (Ll Hl v : double) : digital_node_statement_t :=
  if dge v Hl then sH else if dle v Ll then sL else sX.

(** The [read_dn] lambda that keeps [Z]. *)
Definition read_dn (Ll Hl : double) (n : node_ptr) : M digital_node_statement_t :=
  let* k := get_num n in
  if k =? 0 then get_dn n else let* v := get_voltage n in ret (read_level Ll Hl v).

(** The [read_dn] lambda that reads [Z] as [X]. *)
Definition z_to_x (s : digital_node_statement_t) : digital_node_statement_t :=
  if dns_eqb s sZ then sX else s.
Definition read_dn_x (Ll Hl : double) (n : node_ptr) : M digital_node_statement_t :=
  let* k := get_num n in
  if k =? 0 then let* s := get_dn n in ret (z_to_x s)
  else let* v := get_voltage n in ret (read_level Ll Hl v).

(** [if (n->dn.state != out) { n->dn.state = out; table.tables.insert(n); }]. *)
Definition update_dn (n : node_ptr) (out : digital_node_statement_t) : M unit :=
  let* st := get_dn n in
  if dns_eqb st out then ret tt else do* set_dn n out in insert_table n.

(** The analog end of a [switch (out)] whose [default] drives [Ll]. *)
Definition level_of (Ll Hl : double) (out : digital_node_statement_t) : double :=
  if dns_eqb out sH then Hl else Ll.

(** [struct CASE_EQ] of [logical/case_eq.h]. *)
Module CASE_EQ.

Record t : Type := mk {
  c_pins : list pin; c_Ll : double; c_Hl : double; last_out : digital_node_statement_t
}.

Definition digital_update_method : digital_update_method_t := update_table.
Definition default : t :=
  {| c_pins := [pin_of_name "ia"; pin_of_name "ib"; pin_of_name "o"]; c_Ll := d_zero; c_Hl := d_five;
     last_out := sX |}.

Definition set_attribute_define (clip : t) (n : Z) (vi : variant) : bool * t :=
  match n, vi with
  | 0, v_d x => (true, {| c_pins := c_pins clip; c_Ll := x; c_Hl := c_Hl clip; last_out := last_out clip |})
  | 1, v_d x => (true, {| c_pins := c_pins clip; c_Ll := c_Ll clip; c_Hl := x; last_out := last_out clip |})
  | _, _ => (false, clip)
  end.

Definition get_attribute_define (clip : t) (n : Z) : variant :=
  match n with 0 => v_d (c_Ll clip) | 1 => v_d (c_Hl clip) | _ => v_invalid end.

Definition get_attribute_name_define (n : Z) : string :=
  match n with 0 => "Ll" | 1 => "Hl" | _ => "" end.

Definition update_digital_clk_define (clip : t) (tr_duration : double) (method : digital_update_method_t)
    : M (t * need_operate_analog_node_t) :=
  let* node_a := pin_nodes (c_pins clip) 0 in
  let* node_b := pin_nodes (c_pins clip) 1 in
  let* node_o := pin_nodes (c_pins clip) 2 in
  match node_a, node_b, node_o with
  | Some na, Some nb, Some no =>
      let* a := read_dn (c_Ll clip) (c_Hl clip) na in
      let* b := read_dn (c_Ll clip) (c_Hl clip) nb in
      let out := if dns_eqb a b then sH else sL in
      let clip' := {| c_pins := c_pins clip; c_Ll := c_Ll clip; c_Hl := c_Hl clip; last_out := out |} in
      let* k := get_num no in
      if k =? 0 then do* update_dn no out in ret (clip', no_need)
      else if dns_eqb (last_out clip) out then ret (clip, no_need)
      else ret (clip', need (level_of (c_Ll clip) (c_Hl clip) out) no)
  | _, _, _ => ret (clip, no_need)
  end.

Definition generate_pin_view_define (clip : t) : list pin := c_pins clip.

End CASE_EQ.

(** [struct IS_UNKNOWN] of [logical/is_unknown.h]. *)
Module IS_UNKNOWN.

Record t : Type := mk {
  u_pins : list pin; u_Ll : double; u_Hl : double; last_out : digital_node_statement_t
}.

Definition digital_update_method : digital_update_method_t := update_table.
Definition default : t :=
  {| u_pins := [pin_of_name "i"; pin_of_name "o"]; u_Ll := d_zero; u_Hl := d_five; last_out := sX |}.

Definition set_attribute_define (clip : t) (n : Z) (vi : variant) : bool * t :=
  match n, vi with
  | 0, v_d x => (true, {| u_pins := u_pins clip; u_Ll := x; u_Hl := u_Hl clip; last_out := last_out clip |})
  | 1, v_d x => (true, {| u_pins := u_pins clip; u_Ll := u_Ll clip; u_Hl := x; last_out := last_out clip |})
  | _, _ => (false, clip)
  end.

Definition get_attribute_define (clip : t) (n : Z) : variant :=
  match n with 0 => v_d (u_Ll clip) | 1 => v_d (u_Hl clip) | _ => v_invalid end.

Definition get_attribute_name_define (n : Z) : string :=
  match n with 0 => "Ll" | 1 => "Hl" | _ => "" end.

Definition update_digital_clk_define (clip : t) (tr_duration : double) (method : digital_update_method_t)
    : M (t * need_operate_analog_node_t) :=
  let* node_i := pin_nodes (u_pins clip) 0 in
  let* node_o := pin_nodes (u_pins clip) 1 in
  match node_i, node_o with
  | Some ni, Some no =>
      let* i := read_dn (u_Ll clip) (u_Hl clip) ni in
      let unknown := dns_eqb i sX || dns_eqb i sZ in
      let out := if unknown then sH else sL in
      let clip' := {| u_pins := u_pins clip; u_Ll := u_Ll clip; u_Hl := u_Hl clip; last_out := out |} in
      let* k := get_num no in
      if k =? 0 then do* update_dn no out in ret (clip', no_need)
      else if dns_eqb (last_out clip) out then ret (clip, no_need)
      else ret (clip', need (level_of (u_Ll clip) (u_Hl clip) out) no)
  | _, _ => ret (clip, no_need)
  end.

Definition generate_pin_view_define (clip : t) : list pin := u_pins clip.

End IS_UNKNOWN.

(** [struct RESOLVE2] of [logical/resolve2.h]. *)
Module RESOLVE2.

Record t : Type := mk { r_pins : list pin; r_Ll : double; r_Hl : double }.

Definition digital_update_method : digital_update_method_t := update_table.
Definition default : t :=
  {| r_pins := [pin_of_name "a"; pin_of_name "b"; pin_of_name "o"]; r_Ll := d_zero; r_Hl := d_five |}.

Definition resolve (a0 b0 : digital_node_statement_t) : digital_node_statement_t :=
  if dns_eqb a0 sZ then b0
  else if dns_eqb b0 sZ then a0
  else if dns_eqb a0 b0 then a0
  else sX.

Definition update_digital_clk_define (clip : t) (tr_duration : double) (method : digital_update_method_t)
    : M (t * need_operate_analog_node_t) :=
  let* node_a := pin_nodes (r_pins clip) 0 in
  let* node_b := pin_nodes (r_pins clip) 1 in
  let* node_o := pin_nodes (r_pins clip) 2 in
  match node_a, node_b, node_o with
  | Some na, Some nb, Some no =>
      let* a := read_dn (r_Ll clip) (r_Hl clip) na in
      let* b := read_dn (r_Ll clip) (r_Hl clip) nb in
      let out := resolve a b in
      let* k := get_num no in
      if k =? 0 then do* update_dn no out in ret (clip, no_need)
      else ret (clip, need (level_of (r_Ll clip) (r_Hl clip) out) no)
  | _, _, _ => ret (clip, no_need)
  end.

Definition generate_pin_view_define (clip : t) : list pin := r_pins clip.

End RESOLVE2.

(** [struct TRI] of [logical/tri_state.h]: it schedules its output node at
    every evaluation, changed or not. *)
Module TRI.

Record t : Type := mk { t_pins : list pin; t_Ll : double; t_Hl : double }.

Definition digital_update_method : digital_update_method_t := update_table.
Definition default : t :=
  {| t_pins := [pin_of_name "i"; pin_of_name "en"; pin_of_name "o"]; t_Ll := d_zero; t_Hl := d_five |}.

Definition set_attribute_define (t0 : t) (idx : Z) (vi : variant) : bool * t :=
  match idx, vi with
  | 0, v_d x => (true, {| t_pins := t_pins t0; t_Ll := x; t_Hl := t_Hl t0 |})
  | 1, v_d x => (true, {| t_pins := t_pins t0; t_Ll := t_Ll t0; t_Hl := x |})
  | _, _ => (false, t0)
  end.

Definition get_attribute_define (t0 : t) (idx : Z) : variant :=
  match idx with 0 => v_d (t_Ll t0) | 1 => v_d (t_Hl t0) | _ => v_invalid end.

Definition get_attribute_name_define (idx : Z) : string :=
  match idx with 0 => "Ll" | 1 => "Hl" | _ => "" end.

Definition read_enabled (t0 : t) (n : node_ptr) : M bool :=
  let* k := get_num n in
  if k =? 0 then let* s := get_dn n in ret (dns_eqb s sH)
  else let* v := get_voltage n in ret (dge v (t_Hl t0)).

Definition update_digital_clk_define (t0 : t) (tr_duration : double) (method : digital_update_method_t)
    : M (t * need_operate_analog_node_t) :=
  let* node_i := pin_nodes (t_pins t0) 0 in
  let* node_en := pin_nodes (t_pins t0) 1 in
  let* node_o := pin_nodes (t_pins t0) 2 in
  match node_i, node_en, node_o with
  | Some ni, Some nen, Some no =>
      let* enabled := read_enabled t0 nen in
      if negb enabled then
        let* k := get_num no in
        if k =? 0 then do* set_dn no sZ in do* insert_table no in ret (t0, no_need)
        else ret (t0, no_need)
      else
        let* inputState := read_dn (t_Ll t0) (t_Hl t0) ni in
        let* k := get_num no in
        if k =? 0 then do* set_dn no inputState in do* insert_table no in ret (t0, no_need)
        else ret (t0, need (level_of (t_Ll t0) (t_Hl t0) inputState) no)
  | _, _, _ => ret (t0, no_need)
  end.

Definition generate_pin_view_define (t0 : t) : list pin := t_pins t0.

End TRI.

(** [struct SCHMITT_TRIGGER] of [logical/schmitt_trigger.h]. *)
Module SCHMITT_TRIGGER.

Record t : Type := mk {
  s_pins : list pin; s_Ll : double; s_Hl : double;
  Vth_low : double; Vth_high : double; inverted : bool;
  last_out : digital_node_statement_t; last_driven : digital_node_statement_t
}.

Definition digital_update_method : digital_update_method_t := update_table.
Definition default : t :=
  {| s_pins := [pin_of_name "i"; pin_of_name "o"]; s_Ll := d_zero; s_Hl := d_five;
     Vth_low := of_decimal 16666666666666666666666 22; Vth_high := of_decimal 3333333333333333333333 21;
     inverted := false; last_out := sL; last_driven := sX |}.

Definition set_last (clip : t) (out driven : digital_node_statement_t) : t :=
  {| s_pins := s_pins clip; s_Ll := s_Ll clip; s_Hl := s_Hl clip; Vth_low := Vth_low clip;
     Vth_high := Vth_high clip; inverted := inverted clip; last_out := out; last_driven := driven |}.

Definition set_attribute_define (clip : t) (n : Z) (vi : variant) : bool * t :=
  let set b lo hi := {| s_pins := s_pins clip; s_Ll := s_Ll clip; s_Hl := s_Hl clip; Vth_low := lo;
     Vth_high := hi; inverted := b; last_out := last_out clip; last_driven := last_driven clip |} in
  match n, vi with
  | 0, v_boolean b => (true, set b (Vth_low clip) (Vth_high clip))
  | 1, v_d x => (true, set (inverted clip) x (Vth_high clip))
  | 2, v_d x => (true, set (inverted clip) (Vth_low clip) x)
  | _, _ => (false, clip)
  end.

Definition get_attribute_define (clip : t) (n : Z) : variant :=
  match n with
  | 0 => v_boolean (inverted clip)
  | 1 => v_d (Vth_low clip)
  | 2 => v_d (Vth_high clip)
  | 3 => v_digital (last_out clip)
  | _ => v_invalid
  end.

Definition get_attribute_name_define (n : Z) : string :=
  match n with 0 => "inverted" | 1 => "Vth_low" | 2 => "Vth_high" | 3 => "out" | _ => "" end.

(** [decide_from_digital] and the [switch (clip.last_out)] on a voltage. *)
Definition decide_from_digital (st : digital_node_statement_t) : digital_node_statement_t :=
  match st with sL => sL | sH => sH | sX | sZ => sX end.

Definition decide_from_voltage (clip : t) (v : double) : digital_node_statement_t :=
  match last_out clip with
  | sL => if dge v (Vth_high clip) then sH else sL
  | sH => if dle v (Vth_low clip) then sL else sH
  | sX | sZ => if dge v (Vth_high clip) then sH
               else if dle v (Vth_low clip) then sL else last_out clip
  end.

Definition driven_of (inverted : bool) (out : digital_node_statement_t) : digital_node_statement_t :=
  if inverted then match out with sL => sH | sH => sL | s => s end else out.

Definition update_digital_clk_define (clip : t) (tr_duration : double) (method : digital_update_method_t)
    : M (t * need_operate_analog_node_t) :=
  let* n_i := pin_nodes (s_pins clip) 0 in
  let* n_o := pin_nodes (s_pins clip) 1 in
  match n_i, n_o with
  | Some ni, Some no =>
      let* k := get_num ni in
      let* out := (if k =? 0 then let* s := get_dn ni in ret (decide_from_digital s)
                   else let* v := get_voltage ni in ret (decide_from_voltage clip v)) in
      let driven := driven_of (inverted clip) out in
      let* ko := get_num no in
      if ko =? 0 then do* update_dn no driven in ret (set_last clip out driven, no_need)
      else if dns_eqb (last_driven clip) driven then ret (set_last clip out (last_driven clip), no_need)
      else ret (set_last clip out driven, need (level_of (s_Ll clip) (s_Hl clip) driven) no)
  | _, _ => ret (clip, no_need)
  end.

Definition generate_pin_view_define (clip : t) : list pin := s_pins clip.

End SCHMITT_TRIGGER.

(** [struct TICK_DELAY] of [logical/tick_delay.h]: a delay line that advances
    once per tick, in the [before_all_clk] phase. *)
Module TICK_DELAY.

Record t : Type := mk {
  d_pins : list pin; d_Ll : double; d_Hl : double; ticks : nat;
  pipe : list digital_node_statement_t; last_out : digital_node_statement_t
}.

Definition digital_update_method : digital_update_method_t := before_all_clk.
Definition with_ticks (n : nat) : t :=
  {| d_pins := [pin_of_name "i"; pin_of_name "o"]; d_Ll := d_zero; d_Hl := d_five; ticks := n;
     pipe := []; last_out := sX |}.
Definition default : t := with_ticks 1.

Definition set_pipe (m : t) (p : list digital_node_statement_t) (out : digital_node_statement_t) : t :=
  {| d_pins := d_pins m; d_Ll := d_Ll m; d_Hl := d_Hl m; ticks := ticks m; pipe := p; last_out := out |}.

Definition set_attribute_define (m : t) (index : Z) (vi : variant) : bool * t := (false, m).
Definition get_attribute_define (m : t) (index : Z) : variant := v_invalid.
Definition get_attribute_name_define (index : Z) : string := "".
Definition generate_pin_view_define (m : t) : list pin := d_pins m.

(** [for (i = n_ticks - 1; i > 0; --i) pipe[i] = pipe[i - 1];] *)
Fixpoint shift_down (i : nat) (p : list digital_node_statement_t) : list digital_node_statement_t :=
  match i with
  | O => p
  | S j => shift_down j (match p !! j with Some x => <[S j := x]> p | None => p end)
  end.

(** The digital end of the model: the output follows [out]; the node is
    scheduled when [last_out] changes. *)
Definition drive (m : t) (no : node_ptr) (out : digital_node_statement_t)
    : M (t * need_operate_analog_node_t) :=
  let* k := get_num no in
  if k =? 0 then
    do* set_dn no out in
    do* when (negb (dns_eqb (last_out m) out)) (insert_table no) in
    ret (set_pipe m (pipe m) out, no_need)
  else
    match out with
    | sL => ret (m, need (d_Ll m) no)
    | sH => ret (m, need (d_Hl m) no)
    | _ => ret (m, no_need)
    end.

Definition update_digital_clk_define (m : t) (tr_duration : double) (method : digital_update_method_t)
    : M (t * need_operate_analog_node_t) :=
  if negb (bool_decide (method = before_all_clk)) then ret (m, no_need)
  else
    let* node_i := pin_nodes (d_pins m) 0 in
    let* node_o := pin_nodes (d_pins m) 1 in
    match node_o with
    | None => ret (m, no_need)
    | Some no =>
        let* i := match node_i with None => ret sX | Some ni => read_dn (d_Ll m) (d_Hl m) ni end in
        if bool_decide (ticks m = 0%nat) then drive m no i
        else
          let m1 := if bool_decide (length (pipe m) = ticks m) then m
                    else set_pipe m (replicate (ticks m) i) sX in
          match pipe m1 !! (ticks m - 1)%nat with
          | None => ub
          | Some out =>
              let p := if bool_decide (1 < ticks m)%nat then shift_down (ticks m - 1) (pipe m1) else pipe m1 in
              drive (set_pipe m1 (<[0%nat := i]> p) (last_out m1)) no out
          end
    end.

End TICK_DELAY.

(** [struct EIGHT_BIT_INPUT] of [logical/eight_bit_input.h]: pins 0..7 are the
    bits [b7..b0] of [value]. *)
Module EIGHT_BIT_INPUT.

Record t : Type := mk {
  b_pins : list pin; b_Ll : double; b_Hl : double; value : Z; last_value : Z
}.

Definition digital_update_method : digital_update_method_t := before_all_clk.
Definition default : t :=
  {| b_pins := map pin_of_name ["b7"; "b6"; "b5"; "b4"; "b3"; "b2"; "b1"; "b0"]%string;
     b_Ll := d_zero; b_Hl := d_five; value := 0; last_value := 255 |}.

Definition set_attribute_define (clip : t) (n : Z) (vi : variant) : bool * t :=
  match n, vi with
  | 0, v_ui8 x => (true, {| b_pins := b_pins clip; b_Ll := b_Ll clip; b_Hl := b_Hl clip;
                            value := u8_wrap x; last_value := last_value clip |})
  | _, _ => (false, clip)
  end.

Definition get_attribute_define (clip : t) (n : Z) : variant :=
  match n with 0 => v_ui8 (value clip) | _ => v_invalid end.

Definition get_attribute_name_define (n : Z) : string := match n with 0 => "value" | _ => "" end.

Definition bit_state (v : Z) (bit : Z) : digital_node_statement_t :=
  if Z.land (Z.shiftr v bit) 1 =? 0 then sL else sH.

(** The body of [for (pin = 0; pin < 8; ++pin)]. *)
Definition drive_bit (clip : t) (changed : bool) (pin : nat) (analog_drive : need_operate_analog_node_t)
    : M need_operate_analog_node_t :=
  let* n := pin_nodes (b_pins clip) pin in
  match n with
  | None => ret analog_drive
  | Some n =>
      let out := bit_state (value clip) (7 - Z.of_nat pin) in
      let* k := get_num n in
      if k =? 0 then
        if changed then do* update_dn n out in ret analog_drive else ret analog_drive
      else match need_to_operate_analog_node analog_drive with
           | None => ret (need (level_of (b_Ll clip) (b_Hl clip) out) n)
           | Some _ => ret analog_drive
           end
  end.

Fixpoint drive_bits (clip : t) (changed : bool) (pins : list nat) (d : need_operate_analog_node_t)
    : M need_operate_analog_node_t :=
  match pins with
  | [] => ret d
  | p :: ps => let* d' := drive_bit clip changed p d in drive_bits clip changed ps d'
  end.

Definition update_digital_clk_define (clip : t) (tr_duration : double) (method : digital_update_method_t)
    : M (t * need_operate_analog_node_t) :=
  let changed := negb (last_value clip =? value clip) in
  let* analog_drive := drive_bits clip changed (seq 0 8) no_need in
  ret ({| b_pins := b_pins clip; b_Ll := b_Ll clip; b_Hl := b_Hl clip; value := value clip;
          last_value := value clip |}, analog_drive).

Definition generate_pin_view_define (clip : t) : list pin := b_pins clip.

End EIGHT_BIT_INPUT.

(** [struct EIGHT_BIT_DISPLAY] of [logical/eight_bit_display.h]. *)
Module EIGHT_BIT_DISPLAY.

Record t : Type := mk {
  y_pins : list pin; y_Ll : double; y_Hl : double; value : Z; unknown_mask : Z
}.

Definition digital_update_method : digital_update_method_t := update_table.
Definition default : t :=
  {| y_pins := map pin_of_name ["b7"; "b6"; "b5"; "b4"; "b3"; "b2"; "b1"; "b0"]%string;
     y_Ll := d_zero; y_Hl := d_five; value := 0; unknown_mask := 0 |}.

Definition set_attribute_define (clip : t) (n : Z) (vi : variant) : bool * t := (false, clip).

Definition get_attribute_define (clip : t) (n : Z) : variant :=
  match n with 0 => v_ui8 (value clip) | 1 => v_ui8 (unknown_mask clip) | _ => v_invalid end.

Definition get_attribute_name_define (n : Z) : string :=
  match n with 0 => "value" | 1 => "unknown_mask" | _ => "" end.

(** One iteration: the pair is [(v, um)]. *)
Definition sample_bit (clip : t) (pin : nat) (acc : Z * Z) : M (Z * Z) :=
  let* n := pin_nodes (y_pins clip) pin in
  let bit := 7 - Z.of_nat pin in
  let* st := match n with None => ret sX | Some n => read_dn_x (y_Ll clip) (y_Hl clip) n end in
  match st with
  | sL => ret acc
  | sH => ret (Z.lor (fst acc) (u8_wrap (Z.shiftl 1 bit)), snd acc)
  | sX | sZ => ret (fst acc, Z.lor (snd acc) (u8_wrap (Z.shiftl 1 bit)))
  end.

Fixpoint sample_bits (clip : t) (pins : list nat) (acc : Z * Z) : M (Z * Z) :=
  match pins with
  | [] => ret acc
  | p :: ps => let* acc' := sample_bit clip p acc in sample_bits clip ps acc'
  end.

Definition update_digital_clk_define (clip : t) (tr_duration : double) (method : digital_update_method_t)
    : M (t * need_operate_analog_node_t) :=
  let* acc := sample_bits clip (seq 0 8) (0, 0) in
  ret ({| y_pins := y_pins clip; y_Ll := y_Ll clip; y_Hl := y_Hl clip; value := fst acc;
          unknown_mask := snd acc |}, no_need).

Definition generate_pin_view_define (clip : t) : list pin := y_pins clip.

End EIGHT_BIT_DISPLAY.
