(* ===== verification/Sequential.v ===== *)
(** * Sequential: the storage elements of [models/digital/combinational/]

    [DFF], [DFF_ARSTN], [DLATCH], [TFF], [T_BAR_FF], [JKFF], and the clocked
    [COUNTER4] and [RANDOM_GENERATOR4]. *)

From Stdlib Require Import ZArith.
From stdpp Require Import base list gmap strings.
From S2P Require Import Prelude Store Logic4 Devices.

Open Scope Z_scope.

(** The end of every flip-flop: [q] goes to the node [nq]. *)
Definition drive_q (Ll Hl : double) (nq : node_ptr) (q : digital_node_statement_t)
    : M need_operate_analog_node_t :=
  let* k := get_num nq in
  if k =? 0 then do* update_dn nq q in ret no_need
  else ret (need (level_of Ll Hl q) nq).

(** [last == L && clk == H], and the history that ignores unknown levels. *)
Definition rising (last clk : digital_node_statement_t) : bool := dns_eqb last sL && dns_eqb clk sH.
Definition clk_history (last clk : digital_node_statement_t) : digital_node_statement_t :=
  if dns_eqb clk sL || dns_eqb clk sH then clk else last.

(** [static_cast<digital_node_statement_t>(!static_cast<bool>(q))]. *)
Definition toggle (q : digital_node_statement_t) : digital_node_statement_t :=
  dns_of_bool (negb (dns_to_bool q)).

(** [struct DFF] of [combinational/d_ff.h]. *)
Module DFF.

Record t : Type := mk {
  f_pins : list pin; f_Ll : double; f_Hl : double;
  q : digital_node_statement_t; last_clk : digital_node_statement_t
}.

Definition digital_update_method : digital_update_method_t := update_table.
Definition default : t :=
  {| f_pins := [pin_of_name "d"; pin_of_name "clk"; pin_of_name "q"]; f_Ll := d_zero; f_Hl := d_five;
     q := sL; last_clk := sL |}.

Definition next (clip : t) (D CLK : digital_node_statement_t) : t :=
  {| f_pins := f_pins clip; f_Ll := f_Ll clip; f_Hl := f_Hl clip;
     q := if rising (last_clk clip) CLK then D else q clip;
     last_clk := clk_history (last_clk clip) CLK |}.

Definition update_digital_clk_define (clip : t) (tr_duration : double) (method : digital_update_method_t)
    : M (t * need_operate_analog_node_t) :=
  let* p0 := pin_nodes (f_pins clip) 0 in
  let* p1 := pin_nodes (f_pins clip) 1 in
  let* p2 := pin_nodes (f_pins clip) 2 in
  match p0, p1, p2 with
  | Some nd, Some nclk, Some nq =>
      let* D := read_dn_x (f_Ll clip) (f_Hl clip) nd in
      let* CLK := read_dn_x (f_Ll clip) (f_Hl clip) nclk in
      let clip' := next clip D CLK in
      let* r := drive_q (f_Ll clip) (f_Hl clip) nq (q clip') in
      ret (clip', r)
  | _, _, _ => ret (clip, no_need)
  end.

Definition generate_pin_view_define (clip : t) : list pin := f_pins clip.

End DFF.

(** [struct DFF_ARSTN] of [combinational/d_ff_arstn.h]: an asynchronous,
    active-low reset. *)
Module DFF_ARSTN.

Record t : Type := mk {
  a_pins : list pin; a_Ll : double; a_Hl : double; q : digital_node_statement_t;
  reset_value : digital_node_statement_t; last_clk : digital_node_statement_t
}.

Definition digital_update_method : digital_update_method_t := update_table.
Definition default : t :=
  {| a_pins := map pin_of_name ["d"; "clk"; "arst_n"; "q"]%string; a_Ll := d_zero; a_Hl := d_five;
     q := sL; reset_value := sL; last_clk := sL |}.

Definition next (clip : t) (D CLK ARSTN : digital_node_statement_t) : t :=
  {| a_pins := a_pins clip; a_Ll := a_Ll clip; a_Hl := a_Hl clip;
     q := if dns_eqb ARSTN sX then sX
          else if dns_eqb ARSTN sL then reset_value clip
          else if rising (last_clk clip) CLK then D
          else q clip;
     reset_value := reset_value clip;
     last_clk := clk_history (last_clk clip) CLK |}.

Definition update_digital_clk_define (clip : t) (tr_duration : double) (method : digital_update_method_t)
    : M (t * need_operate_analog_node_t) :=
  let* p0 := pin_nodes (a_pins clip) 0 in
  let* p1 := pin_nodes (a_pins clip) 1 in
  let* p2 := pin_nodes (a_pins clip) 2 in
  let* p3 := pin_nodes (a_pins clip) 3 in
  match p0, p1, p2, p3 with
  | Some nd, Some nclk, Some narst, Some nq =>
      let* D := read_dn_x (a_Ll clip) (a_Hl clip) nd in
      let* CLK := read_dn_x (a_Ll clip) (a_Hl clip) nclk in
      let* ARSTN := read_dn_x (a_Ll clip) (a_Hl clip) narst in
      let clip' := next clip D CLK ARSTN in
      let* r := drive_q (a_Ll clip) (a_Hl clip) nq (q clip') in
      ret (clip', r)
  | _, _, _, _ => ret (clip, no_need)
  end.

Definition generate_pin_view_define (clip : t) : list pin := a_pins clip.

End DFF_ARSTN.

(** [struct DLATCH] of [combinational/d_latch.h]: a level-sensitive latch. *)
Module DLATCH.

Record t : Type := mk {
  l_pins : list pin; l_Ll : double; l_Hl : double; q : digital_node_statement_t
}.

Definition digital_update_method : digital_update_method_t := update_table.
Definition default : t :=
  {| l_pins := map pin_of_name ["d"; "en"; "q"]%string; l_Ll := d_zero; l_Hl := d_five; q := sX |}.

Definition next (clip : t) (d en : digital_node_statement_t) : t :=
  {| l_pins := l_pins clip; l_Ll := l_Ll clip; l_Hl := l_Hl clip;
     q := if dns_eqb en sX then sX else if dns_eqb en sH then d else q clip |}.

Definition update_digital_clk_define (clip : t) (tr_duration : double) (method : digital_update_method_t)
    : M (t * need_operate_analog_node_t) :=
  let* p0 := pin_nodes (l_pins clip) 0 in
  let* p1 := pin_nodes (l_pins clip) 1 in
  let* p2 := pin_nodes (l_pins clip) 2 in
  match p0, p1, p2 with
  | Some nd, Some nen, Some nq =>
      let* d := read_dn_x (l_Ll clip) (l_Hl clip) nd in
      let* en := read_dn_x (l_Ll clip) (l_Hl clip) nen in
      let clip' := next clip d en in
      let* r := drive_q (l_Ll clip) (l_Hl clip) nq (q clip') in
      ret (clip', r)
  | _, _, _ => ret (clip, no_need)
  end.

Definition generate_pin_view_define (clip : t) : list pin := l_pins clip.

End DLATCH.

(** [struct TFF] of [combinational/t_ff.h]. *)
Module TFF.

Record t : Type := mk {
  f_pins : list pin; f_Ll : double; f_Hl : double;
  q : digital_node_statement_t; last_clk : digital_node_statement_t
}.

Definition digital_update_method : digital_update_method_t := update_table.
Definition default : t :=
  {| f_pins := map pin_of_name ["t"; "clk"; "q"]%string; f_Ll := d_zero; f_Hl := d_five;
     q := sL; last_clk := sL |}.

Definition next (clip : t) (T CLK : digital_node_statement_t) : t :=
  {| f_pins := f_pins clip; f_Ll := f_Ll clip; f_Hl := f_Hl clip;
     q := if rising (last_clk clip) CLK then
            if dns_eqb T sH then toggle (q clip) else if dns_eqb T sX then sX else q clip
          else q clip;
     last_clk := clk_history (last_clk clip) CLK |}.

Definition update_digital_clk_define (clip : t) (tr_duration : double) (method : digital_update_method_t)
    : M (t * need_operate_analog_node_t) :=
  let* p0 := pin_nodes (f_pins clip) 0 in
  let* p1 := pin_nodes (f_pins clip) 1 in
  let* p2 := pin_nodes (f_pins clip) 2 in
  match p0, p1, p2 with
  | Some nt, Some nclk, Some nq =>
      let* T := read_dn_x (f_Ll clip) (f_Hl clip) nt in
      let* CLK := read_dn_x (f_Ll clip) (f_Hl clip) nclk in
      let clip' := next clip T CLK in
      let* r := drive_q (f_Ll clip) (f_Hl clip) nq (q clip') in
      ret (clip', r)
  | _, _, _ => ret (clip, no_need)
  end.

Definition generate_pin_view_define (clip : t) : list pin := f_pins clip.

End TFF.

(** [struct T_BAR_FF] of [combinational/t_bar_ff.h]: toggles on a low [t_bar]. *)
Module T_BAR_FF.

Record t : Type := mk {
  f_pins : list pin; f_Ll : double; f_Hl : double;
  q : digital_node_statement_t; last_clk : digital_node_statement_t
}.

Definition digital_update_method : digital_update_method_t := update_table.
Definition default : t :=
  {| f_pins := map pin_of_name ["t_bar"; "clk"; "q"]%string; f_Ll := d_zero; f_Hl := d_five;
     q := sL; last_clk := sL |}.

Definition next (clip : t) (TB CLK : digital_node_statement_t) : t :=
  {| f_pins := f_pins clip; f_Ll := f_Ll clip; f_Hl := f_Hl clip;
     q := if rising (last_clk clip) CLK then
            if dns_eqb TB sL then toggle (q clip) else if dns_eqb TB sX then sX else q clip
          else q clip;
     last_clk := clk_history (last_clk clip) CLK |}.

Definition update_digital_clk_define (clip : t) (tr_duration : double) (method : digital_update_method_t)
    : M (t * need_operate_analog_node_t) :=
  let* p0 := pin_nodes (f_pins clip) 0 in
  let* p1 := pin_nodes (f_pins clip) 1 in
  let* p2 := pin_nodes (f_pins clip) 2 in
  match p0, p1, p2 with
  | Some ntb, Some nclk, Some nq =>
      let* TB := read_dn_x (f_Ll clip) (f_Hl clip) ntb in
      let* CLK := read_dn_x (f_Ll clip) (f_Hl clip) nclk in
      let clip' := next clip TB CLK in
      let* r := drive_q (f_Ll clip) (f_Hl clip) nq (q clip') in
      ret (clip', r)
  | _, _, _ => ret (clip, no_need)
  end.

Definition generate_pin_view_define (clip : t) : list pin := f_pins clip.

End T_BAR_FF.

(** [struct JKFF] of [combinational/jk_ff.h]. *)
Module JKFF.

Record t : Type := mk {
  j_pins : list pin; j_Ll : double; j_Hl : double;
  q : digital_node_statement_t; last_clk : digital_node_statement_t
}.

Definition digital_update_method : digital_update_method_t := update_table.
Definition default : t :=
  {| j_pins := map pin_of_name ["j"; "k"; "clk"; "q"]%string; j_Ll := d_zero; j_Hl := d_five;
     q := sL; last_clk := sL |}.

Definition on_edge (q J K : digital_node_statement_t) : digital_node_statement_t :=
  if dns_eqb J sH && dns_eqb K sL then sH
  else if dns_eqb J sL && dns_eqb K sH then sL
  else if dns_eqb J sH && dns_eqb K sH then toggle q
  else if dns_eqb J sX || dns_eqb K sX then sX
  else q.

Definition next (clip : t) (J K CLK : digital_node_statement_t) : t :=
  {| j_pins := j_pins clip; j_Ll := j_Ll clip; j_Hl := j_Hl clip;
     q := if rising (last_clk clip) CLK then on_edge (q clip) J K else q clip;
     last_clk := clk_history (last_clk clip) CLK |}.

Definition update_digital_clk_define (clip : t) (tr_duration : double) (method : digital_update_method_t)
    : M (t * need_operate_analog_node_t) :=
  let* p0 := pin_nodes (j_pins clip) 0 in
  let* p1 := pin_nodes (j_pins clip) 1 in
  let* p2 := pin_nodes (j_pins clip) 2 in
  let* p3 := pin_nodes (j_pins clip) 3 in
  match p0, p1, p2, p3 with
  | Some nj, Some nk, Some nclk, Some nq =>
      let* J := read_dn_x (j_Ll clip) (j_Hl clip) nj in
      let* K := read_dn_x (j_Ll clip) (j_Hl clip) nk in
      let* CLK := read_dn_x (j_Ll clip) (j_Hl clip) nclk in
      let clip' := next clip J K CLK in
      let* r := drive_q (j_Ll clip) (j_Hl clip) nq (q clip') in
      ret (clip', r)
  | _, _, _, _ => ret (clip, no_need)
  end.

Definition generate_pin_view_define (clip : t) : list pin := j_pins clip.

End JKFF.

(** ** Four-bit clocked generators

    [COUNTER4] and [RANDOM_GENERATOR4] share the loop that drives the pins
    [q3..q0] (pins 0..3) from the low four bits of the register. *)

Definition q_state (unknown : bool) (v : Z) (bit : Z) : digital_node_statement_t :=
  if unknown then sX else if Z.land (Z.shiftr v bit) 1 =? 0 then sL else sH.

(** One iteration of [for (pin = 0; pin < 4; ++pin)]. *)
Definition drive_q_pin (ps : list pin) (Ll Hl : double) (changed unknown : bool) (v : Z) (pin : nat)
    (analog_drive : need_operate_analog_node_t) : M need_operate_analog_node_t :=
  let* nq := pin_nodes ps pin in
  match nq with
  | None => ret analog_drive
  | Some nq =>
      let out := q_state unknown v (3 - Z.of_nat pin) in
      let* k := get_num nq in
      if k =? 0 then
        let* st := get_dn nq in
        if changed || negb (dns_eqb st out) then
          if negb (dns_eqb st out) then do* set_dn nq out in do* insert_table nq in ret analog_drive
          else ret analog_drive
        else ret analog_drive
      else match need_to_operate_analog_node analog_drive with
           | None => ret (need (level_of Ll Hl out) nq)
           | Some _ => ret analog_drive
           end
  end.

Fixpoint drive_q_pins (ps : list pin) (Ll Hl : double) (changed unknown : bool) (v : Z) (idx : list nat)
    (d : need_operate_analog_node_t) : M need_operate_analog_node_t :=
  match idx with
  | [] => ret d
  | i :: idx' =>
      let* d' := drive_q_pin ps Ll Hl changed unknown v i d in
      drive_q_pins ps Ll Hl changed unknown v idx' d'
  end.

(** The [en] and [reset_n] inputs: unconnected or [Z] reads as [H]. *)
Definition read_pullup (Ll Hl : double) (n : option node_ptr) : M digital_node_statement_t :=
  let* s := match n with
            | None => ret sZ
            | Some n => let* k := get_num n in if k =? 0 then get_dn n else read_dn_x Ll Hl n
            end in
  ret (if dns_eqb s sZ then sH else s).

(** [struct COUNTER4] of [combinational/counter4.h]. *)
Module COUNTER4.

Record t : Type := mk {
  n_pins : list pin; n_Ll : double; n_Hl : double; value : Z; unknown : bool;
  last_clk : digital_node_statement_t; last_value : Z; last_unknown : bool
}.

Definition digital_update_method : digital_update_method_t := update_table.
Definition default : t :=
  {| n_pins := map pin_of_name ["q3"; "q2"; "q1"; "q0"; "clk"; "en"]%string; n_Ll := d_zero;
     n_Hl := d_five; value := 0; unknown := false; last_clk := sL; last_value := 255;
     last_unknown := true |}.

Definition set_value (clip : t) (v : Z) (u : bool) : t :=
  {| n_pins := n_pins clip; n_Ll := n_Ll clip; n_Hl := n_Hl clip; value := v; unknown := u;
     last_clk := last_clk clip; last_value := last_value clip; last_unknown := last_unknown clip |}.

Definition set_attribute_define (clip : t) (n : Z) (vi : variant) : bool * t :=
  match n, vi with
  | 0, v_ui8 x => (true, set_value clip (u8_wrap (Z.land x 15)) false)
  | 1, v_boolean b => (true, set_value clip (value clip) b)
  | _, _ => (false, clip)
  end.

Definition get_attribute_define (clip : t) (n : Z) : variant :=
  match n with
  | 0 => v_ui8 (u8_wrap (Z.land (value clip) 15))
  | 1 => v_boolean (unknown clip)
  | _ => v_invalid
  end.

Definition get_attribute_name_define (n : Z) : string :=
  match n with 0 => "value" | 1 => "unknown" | _ => "" end.

(** The effect of the clock and the enable on the register. *)
Definition next (clip : t) (clk en : digital_node_statement_t) : t :=
  let clip1 :=
    if rising (last_clk clip) clk then
      if dns_eqb en sH then
        if unknown clip then clip
        else set_value clip (u8_wrap (Z.land (value clip + 1) 15)) (unknown clip)
      else if dns_eqb en sL then clip
      else set_value clip (value clip) true
    else clip in
  {| n_pins := n_pins clip1; n_Ll := n_Ll clip1; n_Hl := n_Hl clip1; value := value clip1;
     unknown := unknown clip1; last_clk := clk_history (last_clk clip1) clk;
     last_value := last_value clip1; last_unknown := last_unknown clip1 |}.

Definition update_digital_clk_define (clip : t) (tr_duration : double) (method : digital_update_method_t)
    : M (t * need_operate_analog_node_t) :=
  let* n_clk := pin_nodes (n_pins clip) 4 in
  let* n_en := pin_nodes (n_pins clip) 5 in
  match n_clk with
  | None => ret (clip, no_need)
  | Some nclk =>
      let* clk := read_dn_x (n_Ll clip) (n_Hl clip) nclk in
      let* en := read_pullup (n_Ll clip) (n_Hl clip) n_en in
      let c := next clip clk en in
      let changed := negb (last_value c =? value c) || negb (Bool.eqb (last_unknown c) (unknown c)) in
      let* r := drive_q_pins (n_pins c) (n_Ll c) (n_Hl c) changed (unknown c) (value c) (seq 0 4) no_need in
      ret ({| n_pins := n_pins c; n_Ll := n_Ll c; n_Hl := n_Hl c; value := value c; unknown := unknown c;
              last_clk := last_clk c; last_value := value c; last_unknown := unknown c |}, r)
  end.

Definition generate_pin_view_define (clip : t) : list pin := n_pins clip.

End COUNTER4.

(** [struct RANDOM_GENERATOR4] of [combinational/random_generator4.h]. *)
Module RANDOM_GENERATOR4.

Record t : Type := mk {
  r_pins : list pin; r_Ll : double; r_Hl : double; state : Z; unknown : bool;
  last_clk : digital_node_statement_t; last_state : Z; last_unknown : bool
}.

Definition digital_update_method : digital_update_method_t := update_table.
Definition default : t :=
  {| r_pins := map pin_of_name ["q3"; "q2"; "q1"; "q0"; "clk"; "reset_n"]%string; r_Ll := d_zero;
     r_Hl := d_five; state := 1; unknown := false; last_clk := sL; last_state := 255;
     last_unknown := true |}.

Definition set_state (clip : t) (v : Z) (u : bool) : t :=
  {| r_pins := r_pins clip; r_Ll := r_Ll clip; r_Hl := r_Hl clip; state := v; unknown := u;
     last_clk := last_clk clip; last_state := last_state clip; last_unknown := last_unknown clip |}.

Definition set_attribute_define (clip : t) (n : Z) (vi : variant) : bool * t :=
  match n, vi with
  | 0, v_ui8 x => (true, set_state clip (u8_wrap (Z.land x 15)) false)
  | 1, v_boolean b => (true, set_state clip (state clip) b)
  | _, _ => (false, clip)
  end.

Definition get_attribute_define (clip : t) (n : Z) : variant :=
  match n with
  | 0 => v_ui8 (u8_wrap (Z.land (state clip) 15))
  | 1 => v_boolean (unknown clip)
  | _ => v_invalid
  end.

Definition get_attribute_name_define (n : Z) : string :=
  match n with 0 => "state" | 1 => "unknown" | _ => "" end.

(** The shift register step: feedback [(b3 ^ b2) ^ 1] enters at bit 0. *)
Definition lfsr_step (s : Z) : Z :=
  let b3 := negb (Z.land (Z.shiftr s 3) 1 =? 0) in
  let b2 := negb (Z.land (Z.shiftr s 2) 1 =? 0) in
  let feedback := xorb (xorb b3 b2) true in
  u8_wrap (Z.lor (Z.land (Z.shiftl s 1) 14) (if feedback then 1 else 0)).

Definition next (clip : t) (clk rstn : digital_node_statement_t) : t :=
  let clip1 :=
    if dns_eqb rstn sL then set_state clip 0 false
    else if dns_eqb rstn sX then set_state clip (state clip) true
    else if rising (last_clk clip) clk then
      if unknown clip then clip else set_state clip (lfsr_step (state clip)) (unknown clip)
    else clip in
  {| r_pins := r_pins clip1; r_Ll := r_Ll clip1; r_Hl := r_Hl clip1; state := state clip1;
     unknown := unknown clip1; last_clk := clk_history (last_clk clip1) clk;
     last_state := last_state clip1; last_unknown := last_unknown clip1 |}.

Definition update_digital_clk_define (clip : t) (tr_duration : double) (method : digital_update_method_t)
    : M (t * need_operate_analog_node_t) :=
  let* n_clk := pin_nodes (r_pins clip) 4 in
  let* n_rstn := pin_nodes (r_pins clip) 5 in
  match n_clk with
  | None => ret (clip, no_need)
  | Some nclk =>
      let* clk := read_dn_x (r_Ll clip) (r_Hl clip) nclk in
      let* rstn := read_pullup (r_Ll clip) (r_Hl clip) n_rstn in
      let c := next clip clk rstn in
      let changed := negb (last_state c =? state c) || negb (Bool.eqb (last_unknown c) (unknown c)) in
      let* r := drive_q_pins (r_pins c) (r_Ll c) (r_Hl c) changed (unknown c) (state c) (seq 0 4) no_need in
      ret ({| r_pins := r_pins c; r_Ll := r_Ll c; r_Hl := r_Hl c; state := state c; unknown := unknown c;
              last_clk := last_clk c; last_state := state c; last_unknown := unknown c |}, r)
  end.

Definition generate_pin_view_define (clip : t) : list pin := r_pins clip.

End RANDOM_GENERATOR4.
