(* ===== verification/Arith.v ===== *)
(** * Arith: the arithmetic models of [models/digital/combinational/]

    [HALF_ADDER], [FULL_ADDER], [HALF_SUB], [FULL_SUB] and [MUL2]: functions of
    their inputs (all outputs [X] as soon as one input is unknown), driven to
    the output nodes when they differ from the last driven value. *)

From Stdlib Require Import ZArith.
From stdpp Require Import base list gmap strings.
From S2P Require Import Prelude Store Logic4 Gates Devices.

Open Scope Z_scope.

(** The fields common to the adders and subtractors: two outputs. *)
Record arith2 : Type := mk_arith2 {
  ar_pins : list pin; ar_Ll : double; ar_Hl : double;
  last_0 : digital_node_statement_t; last_1 : digital_node_statement_t
}.

Definition any_unknown (l : list digital_node_statement_t) : bool := existsb (fun s => dns_eqb s sX) l.

(** [if (n->num_of_analog_node == 0) if (last != v) { last = v; ...; insert }]:
    the new value of [last]. *)
Definition drive_last (n : node_ptr) (last v : digital_node_statement_t) : M digital_node_statement_t :=
  let* k := get_num n in
  if k =? 0 then
    if dns_eqb last v then ret last
    else do* set_dn n v in do* insert_table n in ret v
  else ret last.

(** The outputs [v0] and [v1] go to the nodes [n0] and [n1]; the first analog
    output node, if any, is the one driven by voltage. *)
Definition arith2_drive (clip : arith2) (n0 n1 : node_ptr) (v0 v1 : digital_node_statement_t)
    : M (arith2 * need_operate_analog_node_t) :=
  let* l0 := drive_last n0 (last_0 clip) v0 in
  let* l1 := drive_last n1 (last_1 clip) v1 in
  let clip' := {| ar_pins := ar_pins clip; ar_Ll := ar_Ll clip; ar_Hl := ar_Hl clip; last_0 := l0; last_1 := l1 |} in
  let* k0 := get_num n0 in
  if negb (k0 =? 0) then ret (clip', need (level_of (ar_Ll clip) (ar_Hl clip) v0) n0)
  else
    let* k1 := get_num n1 in
    if negb (k1 =? 0) then ret (clip', need (level_of (ar_Ll clip) (ar_Hl clip) v1) n1)
    else ret (clip', no_need).

(** The shape of the half and the full models. *)
Definition half_update (f : digital_node_statement_t -> digital_node_statement_t ->
                            digital_node_statement_t * digital_node_statement_t)
    (clip : arith2) : M (arith2 * need_operate_analog_node_t) :=
  let* p0 := pin_nodes (ar_pins clip) 0 in
  let* p1 := pin_nodes (ar_pins clip) 1 in
  let* p2 := pin_nodes (ar_pins clip) 2 in
  let* p3 := pin_nodes (ar_pins clip) 3 in
  match p0, p1, p2, p3 with
  | Some na, Some nb, Some n0, Some n1 =>
      let* A := read_dn_x (ar_Ll clip) (ar_Hl clip) na in
      let* B := read_dn_x (ar_Ll clip) (ar_Hl clip) nb in
      let '(v0, v1) := f A B in
      arith2_drive clip n0 n1 v0 v1
  | _, _, _, _ => ret (clip, no_need)
  end.

Definition full_update (f : digital_node_statement_t -> digital_node_statement_t -> digital_node_statement_t ->
                            digital_node_statement_t * digital_node_statement_t)
    (clip : arith2) : M (arith2 * need_operate_analog_node_t) :=
  let* p0 := pin_nodes (ar_pins clip) 0 in
  let* p1 := pin_nodes (ar_pins clip) 1 in
  let* p2 := pin_nodes (ar_pins clip) 2 in
  let* p3 := pin_nodes (ar_pins clip) 3 in
  let* p4 := pin_nodes (ar_pins clip) 4 in
  match p0, p1, p2, p3, p4 with
  | Some na, Some nb, Some nc, Some n0, Some n1 =>
      let* A := read_dn_x (ar_Ll clip) (ar_Hl clip) na in
      let* B := read_dn_x (ar_Ll clip) (ar_Hl clip) nb in
      let* C := read_dn_x (ar_Ll clip) (ar_Hl clip) nc in
      let '(v0, v1) := f A B C in
      arith2_drive clip n0 n1 v0 v1
  | _, _, _, _, _ => ret (clip, no_need)
  end.

Definition arith2_default (names : list string) : arith2 :=
  {| ar_pins := map pin_of_name names; ar_Ll := d_zero; ar_Hl := d_five; last_0 := sX; last_1 := sX |}.

(** [struct HALF_ADDER] of [combinational/half_adder.h]. *)
Module HALF_ADDER.
Definition digital_update_method : digital_update_method_t := update_table.
Definition default : arith2 := arith2_default ["ia"; "ib"; "s"; "c"].
Definition outputs (A B : digital_node_statement_t) : digital_node_statement_t * digital_node_statement_t :=
  let u := any_unknown [A; B] in
  (if u then sX else A ^^ B, if u then sX else A & B).
Definition update_digital_clk_define (clip : arith2) (tr_duration : double) (method : digital_update_method_t)
    : M (arith2 * need_operate_analog_node_t) := half_update outputs clip.
Definition generate_pin_view_define (clip : arith2) : list pin := ar_pins clip.
End HALF_ADDER.

(** [struct FULL_ADDER] of [combinational/full_adder.h]. *)
Module FULL_ADDER.
Definition digital_update_method : digital_update_method_t := update_table.
Definition default : arith2 := arith2_default ["ia"; "ib"; "cin"; "s"; "cout"].
Definition outputs (A B CI : digital_node_statement_t) : digital_node_statement_t * digital_node_statement_t :=
  let u := any_unknown [A; B; CI] in
  (if u then sX else A ^^ B ^^ CI, if u then sX else (A & B) |/ (A & CI) |/ (B & CI)).
Definition update_digital_clk_define (clip : arith2) (tr_duration : double) (method : digital_update_method_t)
    : M (arith2 * need_operate_analog_node_t) := full_update outputs clip.
Definition generate_pin_view_define (clip : arith2) : list pin := ar_pins clip.
End FULL_ADDER.

(** [struct HALF_SUB] of [combinational/half_subtractor.h]. *)
Module HALF_SUB.
Definition digital_update_method : digital_update_method_t := update_table.
Definition default : arith2 := arith2_default ["ia"; "ib"; "d"; "b"].
Definition outputs (A B : digital_node_statement_t) : digital_node_statement_t * digital_node_statement_t :=
  let u := any_unknown [A; B] in
  (if u then sX else A ^^ B, if u then sX else inv A & B).
Definition update_digital_clk_define (clip : arith2) (tr_duration : double) (method : digital_update_method_t)
    : M (arith2 * need_operate_analog_node_t) := half_update outputs clip.
Definition generate_pin_view_define (clip : arith2) : list pin := ar_pins clip.
End HALF_SUB.

(** [struct FULL_SUB] of [combinational/full_subtractor.h]. *)
Module FULL_SUB.
Definition digital_update_method : digital_update_method_t := update_table.
Definition default : arith2 := arith2_default ["ia"; "ib"; "bin"; "d"; "bout"].
Definition outputs (A B BI : digital_node_statement_t) : digital_node_statement_t * digital_node_statement_t :=
  let u := any_unknown [A; B; BI] in
  (if u then sX else A ^^ B ^^ BI, if u then sX else (inv A & B) |/ (inv A & BI) |/ (B & BI)).
Definition update_digital_clk_define (clip : arith2) (tr_duration : double) (method : digital_update_method_t)
    : M (arith2 * need_operate_analog_node_t) := full_update outputs clip.
Definition generate_pin_view_define (clip : arith2) : list pin := ar_pins clip.
End FULL_SUB.

(** [struct MUL2] of [combinational/mul2.h]: a 2x2 multiplier. *)
Module MUL2.

Record t : Type := mk {
  m_pins : list pin; m_Ll : double; m_Hl : double; last_p : list digital_node_statement_t
}.

Definition digital_update_method : digital_update_method_t := update_table.
Definition default : t :=
  {| m_pins := map pin_of_name ["a0"; "a1"; "b0"; "b1"; "p0"; "p1"; "p2"; "p3"]%string;
     m_Ll := d_zero; m_Hl := d_five; last_p := [sX; sX; sX; sX] |}.

Definition outputs (A0 A1 B0 B1 : digital_node_statement_t) : list digital_node_statement_t :=
  if any_unknown [A0; A1; B0; B1] then [sX; sX; sX; sX]
  else
    let p0vv := A0 & B0 in
    let p1_t1 := A0 & B1 in
    let p1_t2 := A1 & B0 in
    let p1vv := p1_t1 ^^ p1_t2 in
    let c1 := p1_t1 & p1_t2 in
    let p2_t1 := A1 & B1 in
    let p2vv := p2_t1 ^^ c1 in
    let p3vv := p2_t1 & c1 in
    [p0vv; p1vv; p2vv; p3vv].

(** [for (i = 0; i < 4; ++i)]: an analog output returns at once. *)
Fixpoint drive_all (clip : t) (i : nat) (outs : list (node_ptr * digital_node_statement_t))
    : M (t * need_operate_analog_node_t) :=
  match outs with
  | [] => ret (clip, no_need)
  | (n, v) :: outs' =>
      let* k := get_num n in
      if k =? 0 then
        match last_p clip !! i with
        | None => ub
        | Some l =>
            if dns_eqb l v then drive_all clip (S i) outs'
            else
              do* set_dn n v in
              do* insert_table n in
              drive_all {| m_pins := m_pins clip; m_Ll := m_Ll clip; m_Hl := m_Hl clip;
                           last_p := <[i := v]> (last_p clip) |} (S i) outs'
        end
      else ret (clip, need (level_of (m_Ll clip) (m_Hl clip) v) n)
  end.

Definition update_digital_clk_define (clip : t) (tr_duration : double) (method : digital_update_method_t)
    : M (t * need_operate_analog_node_t) :=
  let* q0 := pin_nodes (m_pins clip) 0 in
  let* q1 := pin_nodes (m_pins clip) 1 in
  let* q2 := pin_nodes (m_pins clip) 2 in
  let* q3 := pin_nodes (m_pins clip) 3 in
  let* q4 := pin_nodes (m_pins clip) 4 in
  let* q5 := pin_nodes (m_pins clip) 5 in
  let* q6 := pin_nodes (m_pins clip) 6 in
  let* q7 := pin_nodes (m_pins clip) 7 in
  match q0, q1, q2, q3, q4, q5, q6, q7 with
  | Some a0, Some a1, Some b0, Some b1, Some p0, Some p1, Some p2, Some p3 =>
      let* A0 := read_dn_x (m_Ll clip) (m_Hl clip) a0 in
      let* A1 := read_dn_x (m_Ll clip) (m_Hl clip) a1 in
      let* B0 := read_dn_x (m_Ll clip) (m_Hl clip) b0 in
      let* B1 := read_dn_x (m_Ll clip) (m_Hl clip) b1 in
      drive_all clip 0 (zip [p0; p1; p2; p3] (outputs A0 A1 B0 B1))
  | _, _, _, _, _, _, _, _ => ret (clip, no_need)
  end.

Definition generate_pin_view_define (clip : t) : list pin := m_pins clip.

End MUL2.
