(* ===== verification/Model.v ===== *)
(** * Model: the virtual interface of the models, and the digital models as one type

    [model_refs/base.h]: [model_base_impl] is the interface the circuit and the
    netlist use, [model_derv_impl<mod>] implements it by calling the
    [..._define] functions of [mod] where they exist, and [model_base] owns one
    implementation.  [ModelImpl] is the interface as a type class; [device] is
    the sum of the digital models, with the dispatch as a [match]. *)

From Stdlib Require Import ZArith.
From stdpp Require Import base list gmap strings.
From S2P Require Import Prelude Store Logic4 Gates Devices Sequential Arith.

Open Scope Z_scope.

(** [enum class model_type], [model_device_type] and [struct branch]. *)
Inductive model_type : Set := null | invalid | normal.
Inductive model_device_type : Set := linear | non_linear | digital.
#[export] Instance model_type_eq_dec : EqDecision model_type.
Proof. solve_decision. Defined.
#[export] Instance model_device_type_eq_dec : EqDecision model_device_type.
Proof. solve_decision. Defined.

Record branch : Type := mk_branch { index : Z; current : complex }.

(** The part of [model_base_impl] that the digital engine and the netlist
    call.  A view is a pointer into the object: reading it is the getter,
    writing through it the setter. *)
Class ModelImpl (impl : Type) := {
  get_device_type : impl -> model_device_type;
  get_digital_update_method : impl -> digital_update_method_t;
  generate_pin_view : impl -> list pin;
  set_pin_view : impl -> list pin -> impl;
  generate_branch_view : impl -> list branch;
  set_branch_view : impl -> list branch -> impl;
  generate_internal_node_view : impl -> list node_t;
  set_internal_node_view : impl -> list node_t -> impl;
  update_digital_clk : impl -> double -> digital_update_method_t -> M (impl * need_operate_analog_node_t)
}.

(** [struct model_base]: [ptr] owns the implementation object. *)
Record model_base : Type := mk_model_base {
  type : model_type;
  ptr : option impl_ptr;
  identification : Z;
  mb_name : string;
  describe : string;
  has_init : bool
}.

(** ** The digital models *)

Inductive device : Type :=
| m_AND (m : gate2)
| m_OR (m : gate2)
| m_XOR (m : gate2)
| m_NAND (m : gate2)
| m_NOR (m : gate2)
| m_XNOR (m : gate2)
| m_IMP (m : gate2)
| m_NIMP (m : gate2)
| m_NOT (m : gate1)
| m_YES (m : gate1)
| m_INPUT (m : INPUT.t)
| m_OUTPUT (m : OUTPUT.t)
| m_CASE_EQ (m : CASE_EQ.t)
| m_IS_UNKNOWN (m : IS_UNKNOWN.t)
| m_RESOLVE2 (m : RESOLVE2.t)
| m_TRI (m : TRI.t)
| m_SCHMITT_TRIGGER (m : SCHMITT_TRIGGER.t)
| m_TICK_DELAY (m : TICK_DELAY.t)
| m_EIGHT_BIT_INPUT (m : EIGHT_BIT_INPUT.t)
| m_EIGHT_BIT_DISPLAY (m : EIGHT_BIT_DISPLAY.t)
| m_DFF (m : DFF.t)
| m_DFF_ARSTN (m : DFF_ARSTN.t)
| m_DLATCH (m : DLATCH.t)
| m_TFF (m : TFF.t)
| m_T_BAR_FF (m : T_BAR_FF.t)
| m_JKFF (m : JKFF.t)
| m_COUNTER4 (m : COUNTER4.t)
| m_RANDOM_GENERATOR4 (m : RANDOM_GENERATOR4.t)
| m_HALF_ADDER (m : arith2)
| m_FULL_ADDER (m : arith2)
| m_HALF_SUB (m : arith2)
| m_FULL_SUB (m : arith2)
| m_MUL2 (m : MUL2.t).

Definition set_pins_gate2 (m : gate2) (ps : list pin) : gate2 :=
  {| g2_pins := ps; g2_levels := g2_levels m; g2_A := g2_A m; g2_B := g2_B m; g2_last_outputA := g2_last_outputA m |}.
Definition set_pins_gate1 (m : gate1) (ps : list pin) : gate1 :=
  {| g1_pins := ps; g1_levels := g1_levels m; g1_A := g1_A m; g1_last_outputA := g1_last_outputA m |}.
Definition set_pins_arith2 (m : arith2) (ps : list pin) : arith2 :=
  {| ar_pins := ps; ar_Ll := ar_Ll m; ar_Hl := ar_Hl m; last_0 := last_0 m; last_1 := last_1 m |}.
Definition set_pins_INPUT (m : INPUT.t) (ps : list pin) : INPUT.t :=
  {| INPUT.i_pins := ps; INPUT.i_Ll := INPUT.i_Ll m; INPUT.i_Hl := INPUT.i_Hl m; INPUT.outputA := INPUT.outputA m; INPUT.last_outputA := INPUT.last_outputA m |}.
Definition set_pins_OUTPUT (m : OUTPUT.t) (ps : list pin) : OUTPUT.t :=
  {| OUTPUT.o_pins := ps; OUTPUT.o_levels := OUTPUT.o_levels m; OUTPUT.o_A := OUTPUT.o_A m |}.
Definition set_pins_CASE_EQ (m : CASE_EQ.t) (ps : list pin) : CASE_EQ.t :=
  {| CASE_EQ.c_pins := ps; CASE_EQ.c_Ll := CASE_EQ.c_Ll m; CASE_EQ.c_Hl := CASE_EQ.c_Hl m; CASE_EQ.last_out := CASE_EQ.last_out m |}.
Definition set_pins_IS_UNKNOWN (m : IS_UNKNOWN.t) (ps : list pin) : IS_UNKNOWN.t :=
  {| IS_UNKNOWN.u_pins := ps; IS_UNKNOWN.u_Ll := IS_UNKNOWN.u_Ll m; IS_UNKNOWN.u_Hl := IS_UNKNOWN.u_Hl m; IS_UNKNOWN.last_out := IS_UNKNOWN.last_out m |}.
Definition set_pins_RESOLVE2 (m : RESOLVE2.t) (ps : list pin) : RESOLVE2.t :=
  {| RESOLVE2.r_pins := ps; RESOLVE2.r_Ll := RESOLVE2.r_Ll m; RESOLVE2.r_Hl := RESOLVE2.r_Hl m |}.
Definition set_pins_TRI (m : TRI.t) (ps : list pin) : TRI.t :=
  {| TRI.t_pins := ps; TRI.t_Ll := TRI.t_Ll m; TRI.t_Hl := TRI.t_Hl m |}.
Definition set_pins_SCHMITT_TRIGGER (m : SCHMITT_TRIGGER.t) (ps : list pin) : SCHMITT_TRIGGER.t :=
  {| SCHMITT_TRIGGER.s_pins := ps; SCHMITT_TRIGGER.s_Ll := SCHMITT_TRIGGER.s_Ll m; SCHMITT_TRIGGER.s_Hl := SCHMITT_TRIGGER.s_Hl m; SCHMITT_TRIGGER.Vth_low := SCHMITT_TRIGGER.Vth_low m; SCHMITT_TRIGGER.Vth_high := SCHMITT_TRIGGER.Vth_high m; SCHMITT_TRIGGER.inverted := SCHMITT_TRIGGER.inverted m; SCHMITT_TRIGGER.last_out := SCHMITT_TRIGGER.last_out m; SCHMITT_TRIGGER.last_driven := SCHMITT_TRIGGER.last_driven m |}.
Definition set_pins_TICK_DELAY (m : TICK_DELAY.t) (ps : list pin) : TICK_DELAY.t :=
  {| TICK_DELAY.d_pins := ps; TICK_DELAY.d_Ll := TICK_DELAY.d_Ll m; TICK_DELAY.d_Hl := TICK_DELAY.d_Hl m; TICK_DELAY.ticks := TICK_DELAY.ticks m; TICK_DELAY.pipe := TICK_DELAY.pipe m; TICK_DELAY.last_out := TICK_DELAY.last_out m |}.
Definition set_pins_EIGHT_BIT_INPUT (m : EIGHT_BIT_INPUT.t) (ps : list pin) : EIGHT_BIT_INPUT.t :=
  {| EIGHT_BIT_INPUT.b_pins := ps; EIGHT_BIT_INPUT.b_Ll := EIGHT_BIT_INPUT.b_Ll m; EIGHT_BIT_INPUT.b_Hl := EIGHT_BIT_INPUT.b_Hl m; EIGHT_BIT_INPUT.value := EIGHT_BIT_INPUT.value m; EIGHT_BIT_INPUT.last_value := EIGHT_BIT_INPUT.last_value m |}.
Definition set_pins_EIGHT_BIT_DISPLAY (m : EIGHT_BIT_DISPLAY.t) (ps : list pin) : EIGHT_BIT_DISPLAY.t :=
  {| EIGHT_BIT_DISPLAY.y_pins := ps; EIGHT_BIT_DISPLAY.y_Ll := EIGHT_BIT_DISPLAY.y_Ll m; EIGHT_BIT_DISPLAY.y_Hl := EIGHT_BIT_DISPLAY.y_Hl m; EIGHT_BIT_DISPLAY.value := EIGHT_BIT_DISPLAY.value m; EIGHT_BIT_DISPLAY.unknown_mask := EIGHT_BIT_DISPLAY.unknown_mask m |}.
Definition set_pins_DFF (m : DFF.t) (ps : list pin) : DFF.t :=
  {| DFF.f_pins := ps; DFF.f_Ll := DFF.f_Ll m; DFF.f_Hl := DFF.f_Hl m; DFF.q := DFF.q m; DFF.last_clk := DFF.last_clk m |}.
Definition set_pins_DFF_ARSTN (m : DFF_ARSTN.t) (ps : list pin) : DFF_ARSTN.t :=
  {| DFF_ARSTN.a_pins := ps; DFF_ARSTN.a_Ll := DFF_ARSTN.a_Ll m; DFF_ARSTN.a_Hl := DFF_ARSTN.a_Hl m; DFF_ARSTN.q := DFF_ARSTN.q m; DFF_ARSTN.reset_value := DFF_ARSTN.reset_value m; DFF_ARSTN.last_clk := DFF_ARSTN.last_clk m |}.
Definition set_pins_DLATCH (m : DLATCH.t) (ps : list pin) : DLATCH.t :=
  {| DLATCH.l_pins := ps; DLATCH.l_Ll := DLATCH.l_Ll m; DLATCH.l_Hl := DLATCH.l_Hl m; DLATCH.q := DLATCH.q m |}.
Definition set_pins_TFF (m : TFF.t) (ps : list pin) : TFF.t :=
  {| TFF.f_pins := ps; TFF.f_Ll := TFF.f_Ll m; TFF.f_Hl := TFF.f_Hl m; TFF.q := TFF.q m; TFF.last_clk := TFF.last_clk m |}.
Definition set_pins_T_BAR_FF (m : T_BAR_FF.t) (ps : list pin) : T_BAR_FF.t :=
  {| T_BAR_FF.f_pins := ps; T_BAR_FF.f_Ll := T_BAR_FF.f_Ll m; T_BAR_FF.f_Hl := T_BAR_FF.f_Hl m; T_BAR_FF.q := T_BAR_FF.q m; T_BAR_FF.last_clk := T_BAR_FF.last_clk m |}.
Definition set_pins_JKFF (m : JKFF.t) (ps : list pin) : JKFF.t :=
  {| JKFF.j_pins := ps; JKFF.j_Ll := JKFF.j_Ll m; JKFF.j_Hl := JKFF.j_Hl m; JKFF.q := JKFF.q m; JKFF.last_clk := JKFF.last_clk m |}.
Definition set_pins_COUNTER4 (m : COUNTER4.t) (ps : list pin) : COUNTER4.t :=
  {| COUNTER4.n_pins := ps; COUNTER4.n_Ll := COUNTER4.n_Ll m; COUNTER4.n_Hl := COUNTER4.n_Hl m; COUNTER4.value := COUNTER4.value m; COUNTER4.unknown := COUNTER4.unknown m; COUNTER4.last_clk := COUNTER4.last_clk m; COUNTER4.last_value := COUNTER4.last_value m; COUNTER4.last_unknown := COUNTER4.last_unknown m |}.
Definition set_pins_RANDOM_GENERATOR4 (m : RANDOM_GENERATOR4.t) (ps : list pin) : RANDOM_GENERATOR4.t :=
  {| RANDOM_GENERATOR4.r_pins := ps; RANDOM_GENERATOR4.r_Ll := RANDOM_GENERATOR4.r_Ll m; RANDOM_GENERATOR4.r_Hl := RANDOM_GENERATOR4.r_Hl m; RANDOM_GENERATOR4.state := RANDOM_GENERATOR4.state m; RANDOM_GENERATOR4.unknown := RANDOM_GENERATOR4.unknown m; RANDOM_GENERATOR4.last_clk := RANDOM_GENERATOR4.last_clk m; RANDOM_GENERATOR4.last_state := RANDOM_GENERATOR4.last_state m; RANDOM_GENERATOR4.last_unknown := RANDOM_GENERATOR4.last_unknown m |}.
Definition set_pins_MUL2 (m : MUL2.t) (ps : list pin) : MUL2.t :=
  {| MUL2.m_pins := ps; MUL2.m_Ll := MUL2.m_Ll m; MUL2.m_Hl := MUL2.m_Hl m; MUL2.last_p := MUL2.last_p m |}.

Definition device_pins (d : device) : list pin :=
  match d with
  | m_AND m => AND.generate_pin_view_define m
  | m_OR m => OR.generate_pin_view_define m
  | m_XOR m => XOR.generate_pin_view_define m
  | m_NAND m => NAND.generate_pin_view_define m
  | m_NOR m => NOR.generate_pin_view_define m
  | m_XNOR m => XNOR.generate_pin_view_define m
  | m_IMP m => IMP.generate_pin_view_define m
  | m_NIMP m => NIMP.generate_pin_view_define m
  | m_NOT m => NOT.generate_pin_view_define m
  | m_YES m => YES.generate_pin_view_define m
  | m_INPUT m => INPUT.generate_pin_view_define m
  | m_OUTPUT m => OUTPUT.generate_pin_view_define m
  | m_CASE_EQ m => CASE_EQ.generate_pin_view_define m
  | m_IS_UNKNOWN m => IS_UNKNOWN.generate_pin_view_define m
  | m_RESOLVE2 m => RESOLVE2.generate_pin_view_define m
  | m_TRI m => TRI.generate_pin_view_define m
  | m_SCHMITT_TRIGGER m => SCHMITT_TRIGGER.generate_pin_view_define m
  | m_TICK_DELAY m => TICK_DELAY.generate_pin_view_define m
  | m_EIGHT_BIT_INPUT m => EIGHT_BIT_INPUT.generate_pin_view_define m
  | m_EIGHT_BIT_DISPLAY m => EIGHT_BIT_DISPLAY.generate_pin_view_define m
  | m_DFF m => DFF.generate_pin_view_define m
  | m_DFF_ARSTN m => DFF_ARSTN.generate_pin_view_define m
  | m_DLATCH m => DLATCH.generate_pin_view_define m
  | m_TFF m => TFF.generate_pin_view_define m
  | m_T_BAR_FF m => T_BAR_FF.generate_pin_view_define m
  | m_JKFF m => JKFF.generate_pin_view_define m
  | m_COUNTER4 m => COUNTER4.generate_pin_view_define m
  | m_RANDOM_GENERATOR4 m => RANDOM_GENERATOR4.generate_pin_view_define m
  | m_HALF_ADDER m => HALF_ADDER.generate_pin_view_define m
  | m_FULL_ADDER m => FULL_ADDER.generate_pin_view_define m
  | m_HALF_SUB m => HALF_SUB.generate_pin_view_define m
  | m_FULL_SUB m => FULL_SUB.generate_pin_view_define m
  | m_MUL2 m => MUL2.generate_pin_view_define m
  end.

Definition device_set_pins (d : device) (ps : list pin) : device :=
  match d with
  | m_AND m => m_AND (set_pins_gate2 m ps)
  | m_OR m => m_OR (set_pins_gate2 m ps)
  | m_XOR m => m_XOR (set_pins_gate2 m ps)
  | m_NAND m => m_NAND (set_pins_gate2 m ps)
  | m_NOR m => m_NOR (set_pins_gate2 m ps)
  | m_XNOR m => m_XNOR (set_pins_gate2 m ps)
  | m_IMP m => m_IMP (set_pins_gate2 m ps)
  | m_NIMP m => m_NIMP (set_pins_gate2 m ps)
  | m_NOT m => m_NOT (set_pins_gate1 m ps)
  | m_YES m => m_YES (set_pins_gate1 m ps)
  | m_INPUT m => m_INPUT (set_pins_INPUT m ps)
  | m_OUTPUT m => m_OUTPUT (set_pins_OUTPUT m ps)
  | m_CASE_EQ m => m_CASE_EQ (set_pins_CASE_EQ m ps)
  | m_IS_UNKNOWN m => m_IS_UNKNOWN (set_pins_IS_UNKNOWN m ps)
  | m_RESOLVE2 m => m_RESOLVE2 (set_pins_RESOLVE2 m ps)
  | m_TRI m => m_TRI (set_pins_TRI m ps)
  | m_SCHMITT_TRIGGER m => m_SCHMITT_TRIGGER (set_pins_SCHMITT_TRIGGER m ps)
  | m_TICK_DELAY m => m_TICK_DELAY (set_pins_TICK_DELAY m ps)
  | m_EIGHT_BIT_INPUT m => m_EIGHT_BIT_INPUT (set_pins_EIGHT_BIT_INPUT m ps)
  | m_EIGHT_BIT_DISPLAY m => m_EIGHT_BIT_DISPLAY (set_pins_EIGHT_BIT_DISPLAY m ps)
  | m_DFF m => m_DFF (set_pins_DFF m ps)
  | m_DFF_ARSTN m => m_DFF_ARSTN (set_pins_DFF_ARSTN m ps)
  | m_DLATCH m => m_DLATCH (set_pins_DLATCH m ps)
  | m_TFF m => m_TFF (set_pins_TFF m ps)
  | m_T_BAR_FF m => m_T_BAR_FF (set_pins_T_BAR_FF m ps)
  | m_JKFF m => m_JKFF (set_pins_JKFF m ps)
  | m_COUNTER4 m => m_COUNTER4 (set_pins_COUNTER4 m ps)
  | m_RANDOM_GENERATOR4 m => m_RANDOM_GENERATOR4 (set_pins_RANDOM_GENERATOR4 m ps)
  | m_HALF_ADDER m => m_HALF_ADDER (set_pins_arith2 m ps)
  | m_FULL_ADDER m => m_FULL_ADDER (set_pins_arith2 m ps)
  | m_HALF_SUB m => m_HALF_SUB (set_pins_arith2 m ps)
  | m_FULL_SUB m => m_FULL_SUB (set_pins_arith2 m ps)
  | m_MUL2 m => m_MUL2 (set_pins_MUL2 m ps)
  end.

Definition device_update_method (d : device) : digital_update_method_t :=
  match d with
  | m_AND _ => AND.digital_update_method
  | m_OR _ => OR.digital_update_method
  | m_XOR _ => XOR.digital_update_method
  | m_NAND _ => NAND.digital_update_method
  | m_NOR _ => NOR.digital_update_method
  | m_XNOR _ => XNOR.digital_update_method
  | m_IMP _ => IMP.digital_update_method
  | m_NIMP _ => NIMP.digital_update_method
  | m_NOT _ => NOT.digital_update_method
  | m_YES _ => YES.digital_update_method
  | m_INPUT _ => INPUT.digital_update_method
  | m_OUTPUT _ => OUTPUT.digital_update_method
  | m_CASE_EQ _ => CASE_EQ.digital_update_method
  | m_IS_UNKNOWN _ => IS_UNKNOWN.digital_update_method
  | m_RESOLVE2 _ => RESOLVE2.digital_update_method
  | m_TRI _ => TRI.digital_update_method
  | m_SCHMITT_TRIGGER _ => SCHMITT_TRIGGER.digital_update_method
  | m_TICK_DELAY _ => TICK_DELAY.digital_update_method
  | m_EIGHT_BIT_INPUT _ => EIGHT_BIT_INPUT.digital_update_method
  | m_EIGHT_BIT_DISPLAY _ => EIGHT_BIT_DISPLAY.digital_update_method
  | m_DFF _ => DFF.digital_update_method
  | m_DFF_ARSTN _ => DFF_ARSTN.digital_update_method
  | m_DLATCH _ => DLATCH.digital_update_method
  | m_TFF _ => TFF.digital_update_method
  | m_T_BAR_FF _ => T_BAR_FF.digital_update_method
  | m_JKFF _ => JKFF.digital_update_method
  | m_COUNTER4 _ => COUNTER4.digital_update_method
  | m_RANDOM_GENERATOR4 _ => RANDOM_GENERATOR4.digital_update_method
  | m_HALF_ADDER _ => HALF_ADDER.digital_update_method
  | m_FULL_ADDER _ => FULL_ADDER.digital_update_method
  | m_HALF_SUB _ => HALF_SUB.digital_update_method
  | m_FULL_SUB _ => FULL_SUB.digital_update_method
  | m_MUL2 _ => MUL2.digital_update_method
  end.

Definition lift_model {A} (f : A -> device) (m : M (A * need_operate_analog_node_t))
    : M (device * need_operate_analog_node_t) :=
  let* r := m in ret (f (fst r), snd r).

(** [model_derv_impl<mod>::update_digital_clk]. *)
Definition device_update (d : device) (tr_duration : double) (method : digital_update_method_t)
    : M (device * need_operate_analog_node_t) :=
  match d with
  | m_AND m => lift_model m_AND (AND.update_digital_clk_define m tr_duration method)
  | m_OR m => lift_model m_OR (OR.update_digital_clk_define m tr_duration method)
  | m_XOR m => lift_model m_XOR (XOR.update_digital_clk_define m tr_duration method)
  | m_NAND m => lift_model m_NAND (NAND.update_digital_clk_define m tr_duration method)
  | m_NOR m => lift_model m_NOR (NOR.update_digital_clk_define m tr_duration method)
  | m_XNOR m => lift_model m_XNOR (XNOR.update_digital_clk_define m tr_duration method)
  | m_IMP m => lift_model m_IMP (IMP.update_digital_clk_define m tr_duration method)
  | m_NIMP m => lift_model m_NIMP (NIMP.update_digital_clk_define m tr_duration method)
  | m_NOT m => lift_model m_NOT (NOT.update_digital_clk_define m tr_duration method)
  | m_YES m => lift_model m_YES (YES.update_digital_clk_define m tr_duration method)
  | m_INPUT m => lift_model m_INPUT (INPUT.update_digital_clk_define m tr_duration method)
  | m_OUTPUT m => lift_model m_OUTPUT (OUTPUT.update_digital_clk_define m tr_duration method)
  | m_CASE_EQ m => lift_model m_CASE_EQ (CASE_EQ.update_digital_clk_define m tr_duration method)
  | m_IS_UNKNOWN m => lift_model m_IS_UNKNOWN (IS_UNKNOWN.update_digital_clk_define m tr_duration method)
  | m_RESOLVE2 m => lift_model m_RESOLVE2 (RESOLVE2.update_digital_clk_define m tr_duration method)
  | m_TRI m => lift_model m_TRI (TRI.update_digital_clk_define m tr_duration method)
  | m_SCHMITT_TRIGGER m => lift_model m_SCHMITT_TRIGGER (SCHMITT_TRIGGER.update_digital_clk_define m tr_duration method)
  | m_TICK_DELAY m => lift_model m_TICK_DELAY (TICK_DELAY.update_digital_clk_define m tr_duration method)
  | m_EIGHT_BIT_INPUT m => lift_model m_EIGHT_BIT_INPUT (EIGHT_BIT_INPUT.update_digital_clk_define m tr_duration method)
  | m_EIGHT_BIT_DISPLAY m => lift_model m_EIGHT_BIT_DISPLAY (EIGHT_BIT_DISPLAY.update_digital_clk_define m tr_duration method)
  | m_DFF m => lift_model m_DFF (DFF.update_digital_clk_define m tr_duration method)
  | m_DFF_ARSTN m => lift_model m_DFF_ARSTN (DFF_ARSTN.update_digital_clk_define m tr_duration method)
  | m_DLATCH m => lift_model m_DLATCH (DLATCH.update_digital_clk_define m tr_duration method)
  | m_TFF m => lift_model m_TFF (TFF.update_digital_clk_define m tr_duration method)
  | m_T_BAR_FF m => lift_model m_T_BAR_FF (T_BAR_FF.update_digital_clk_define m tr_duration method)
  | m_JKFF m => lift_model m_JKFF (JKFF.update_digital_clk_define m tr_duration method)
  | m_COUNTER4 m => lift_model m_COUNTER4 (COUNTER4.update_digital_clk_define m tr_duration method)
  | m_RANDOM_GENERATOR4 m => lift_model m_RANDOM_GENERATOR4 (RANDOM_GENERATOR4.update_digital_clk_define m tr_duration method)
  | m_HALF_ADDER m => lift_model m_HALF_ADDER (HALF_ADDER.update_digital_clk_define m tr_duration method)
  | m_FULL_ADDER m => lift_model m_FULL_ADDER (FULL_ADDER.update_digital_clk_define m tr_duration method)
  | m_HALF_SUB m => lift_model m_HALF_SUB (HALF_SUB.update_digital_clk_define m tr_duration method)
  | m_FULL_SUB m => lift_model m_FULL_SUB (FULL_SUB.update_digital_clk_define m tr_duration method)
  | m_MUL2 m => lift_model m_MUL2 (MUL2.update_digital_clk_define m tr_duration method)
  end.

(** [model_derv_impl<mod>::set_attribute], [get_attribute] and
    [get_attribute_name]: a model without the function answers [false], an
    invalid variant, or the empty name. *)
Definition device_set_attribute (d : device) (n : Z) (vi : variant) : bool * device :=
  match d with
  | m_AND m => let '(ok, m') := AND.set_attribute_define m n vi in (ok, m_AND m')
  | m_OR m => let '(ok, m') := OR.set_attribute_define m n vi in (ok, m_OR m')
  | m_XOR m => let '(ok, m') := XOR.set_attribute_define m n vi in (ok, m_XOR m')
  | m_NAND m => let '(ok, m') := NAND.set_attribute_define m n vi in (ok, m_NAND m')
  | m_NOR m => let '(ok, m') := NOR.set_attribute_define m n vi in (ok, m_NOR m')
  | m_XNOR m => let '(ok, m') := XNOR.set_attribute_define m n vi in (ok, m_XNOR m')
  | m_IMP m => let '(ok, m') := IMP.set_attribute_define m n vi in (ok, m_IMP m')
  | m_NIMP m => let '(ok, m') := NIMP.set_attribute_define m n vi in (ok, m_NIMP m')
  | m_NOT m => let '(ok, m') := NOT.set_attribute_define m n vi in (ok, m_NOT m')
  | m_YES m => let '(ok, m') := YES.set_attribute_define m n vi in (ok, m_YES m')
  | m_INPUT m => let '(ok, m') := INPUT.set_attribute_define m n vi in (ok, m_INPUT m')
  | m_OUTPUT m => let '(ok, m') := OUTPUT.set_attribute_define m n vi in (ok, m_OUTPUT m')
  | m_CASE_EQ m => let '(ok, m') := CASE_EQ.set_attribute_define m n vi in (ok, m_CASE_EQ m')
  | m_IS_UNKNOWN m => let '(ok, m') := IS_UNKNOWN.set_attribute_define m n vi in (ok, m_IS_UNKNOWN m')
  | m_TRI m => let '(ok, m') := TRI.set_attribute_define m n vi in (ok, m_TRI m')
  | m_SCHMITT_TRIGGER m => let '(ok, m') := SCHMITT_TRIGGER.set_attribute_define m n vi in (ok, m_SCHMITT_TRIGGER m')
  | m_TICK_DELAY m => let '(ok, m') := TICK_DELAY.set_attribute_define m n vi in (ok, m_TICK_DELAY m')
  | m_EIGHT_BIT_INPUT m => let '(ok, m') := EIGHT_BIT_INPUT.set_attribute_define m n vi in (ok, m_EIGHT_BIT_INPUT m')
  | m_EIGHT_BIT_DISPLAY m => let '(ok, m') := EIGHT_BIT_DISPLAY.set_attribute_define m n vi in (ok, m_EIGHT_BIT_DISPLAY m')
  | m_COUNTER4 m => let '(ok, m') := COUNTER4.set_attribute_define m n vi in (ok, m_COUNTER4 m')
  | m_RANDOM_GENERATOR4 m => let '(ok, m') := RANDOM_GENERATOR4.set_attribute_define m n vi in (ok, m_RANDOM_GENERATOR4 m')
  | d => (false, d)
  end.

Definition device_get_attribute (d : device) (n : Z) : variant :=
  match d with
  | m_AND m => AND.get_attribute_define m n
  | m_OR m => OR.get_attribute_define m n
  | m_XOR m => XOR.get_attribute_define m n
  | m_NAND m => NAND.get_attribute_define m n
  | m_NOR m => NOR.get_attribute_define m n
  | m_XNOR m => XNOR.get_attribute_define m n
  | m_IMP m => IMP.get_attribute_define m n
  | m_NIMP m => NIMP.get_attribute_define m n
  | m_NOT m => NOT.get_attribute_define m n
  | m_YES m => YES.get_attribute_define m n
  | m_INPUT m => INPUT.get_attribute_define m n
  | m_OUTPUT m => OUTPUT.get_attribute_define m n
  | m_CASE_EQ m => CASE_EQ.get_attribute_define m n
  | m_IS_UNKNOWN m => IS_UNKNOWN.get_attribute_define m n
  | m_TRI m => TRI.get_attribute_define m n
  | m_SCHMITT_TRIGGER m => SCHMITT_TRIGGER.get_attribute_define m n
  | m_TICK_DELAY m => TICK_DELAY.get_attribute_define m n
  | m_EIGHT_BIT_INPUT m => EIGHT_BIT_INPUT.get_attribute_define m n
  | m_EIGHT_BIT_DISPLAY m => EIGHT_BIT_DISPLAY.get_attribute_define m n
  | m_COUNTER4 m => COUNTER4.get_attribute_define m n
  | m_RANDOM_GENERATOR4 m => RANDOM_GENERATOR4.get_attribute_define m n
  | _ => v_invalid
  end.

Definition device_get_attribute_name (d : device) (n : Z) : string :=
  match d with
  | m_AND _ => AND.get_attribute_name_define n
  | m_OR _ => OR.get_attribute_name_define n
  | m_XOR _ => XOR.get_attribute_name_define n
  | m_NAND _ => NAND.get_attribute_name_define n
  | m_NOR _ => NOR.get_attribute_name_define n
  | m_XNOR _ => XNOR.get_attribute_name_define n
  | m_IMP _ => IMP.get_attribute_name_define n
  | m_NIMP _ => NIMP.get_attribute_name_define n
  | m_NOT _ => NOT.get_attribute_name_define n
  | m_YES _ => YES.get_attribute_name_define n
  | m_INPUT _ => INPUT.get_attribute_name_define n
  | m_OUTPUT _ => OUTPUT.get_attribute_name_define n
  | m_CASE_EQ _ => CASE_EQ.get_attribute_name_define n
  | m_IS_UNKNOWN _ => IS_UNKNOWN.get_attribute_name_define n
  | m_TRI _ => TRI.get_attribute_name_define n
  | m_SCHMITT_TRIGGER _ => SCHMITT_TRIGGER.get_attribute_name_define n
  | m_TICK_DELAY _ => TICK_DELAY.get_attribute_name_define n
  | m_EIGHT_BIT_INPUT _ => EIGHT_BIT_INPUT.get_attribute_name_define n
  | m_EIGHT_BIT_DISPLAY _ => EIGHT_BIT_DISPLAY.get_attribute_name_define n
  | m_COUNTER4 _ => COUNTER4.get_attribute_name_define n
  | m_RANDOM_GENERATOR4 _ => RANDOM_GENERATOR4.get_attribute_name_define n
  | _ => ""
  end.

(** [model_derv_impl<mod>::prepare_tr]. *)
Definition device_prepare_tr (d : device) : bool * device :=
  match d with
  | m_AND m => let '(ok, m') := AND.prepare_tr_define m in (ok, m_AND m')
  | m_OR m => let '(ok, m') := OR.prepare_tr_define m in (ok, m_OR m')
  | m_XOR m => let '(ok, m') := XOR.prepare_tr_define m in (ok, m_XOR m')
  | m_NAND m => let '(ok, m') := NAND.prepare_tr_define m in (ok, m_NAND m')
  | m_NOR m => let '(ok, m') := NOR.prepare_tr_define m in (ok, m_NOR m')
  | m_XNOR m => let '(ok, m') := XNOR.prepare_tr_define m in (ok, m_XNOR m')
  | m_IMP m => let '(ok, m') := IMP.prepare_tr_define m in (ok, m_IMP m')
  | m_NIMP m => let '(ok, m') := NIMP.prepare_tr_define m in (ok, m_NIMP m')
  | m_NOT m => let '(ok, m') := NOT.prepare_tr_define m in (ok, m_NOT m')
  | m_YES m => let '(ok, m') := YES.prepare_tr_define m in (ok, m_YES m')
  | d => (true, d)
  end.

(** Every model of the sum is digital, and none has branches or internal
    nodes. *)
#[export] Instance device_impl : ModelImpl device := {|
  get_device_type := fun _ => digital;
  get_digital_update_method := device_update_method;
  generate_pin_view := device_pins;
  set_pin_view := device_set_pins;
  generate_branch_view := fun _ => [];
  set_branch_view := fun d _ => d;
  generate_internal_node_view := fun _ => [];
  set_internal_node_view := fun d _ => d;
  update_digital_clk := device_update
|}.

(** Writing the pins through a view and reading them back: a view is a pointer
    to the pins, and nothing else depends on them. *)
Class PinViews (impl : Type) `{ModelImpl impl} := {
  pin_view_set : forall d ps, length ps = length (generate_pin_view d) ->
    generate_pin_view (set_pin_view d ps) = ps;
  pin_view_type : forall d ps, get_device_type (set_pin_view d ps) = get_device_type d
}.

#[export, refine] Instance device_pin_views : PinViews device := {| pin_view_set := _; pin_view_type := _ |}.
Proof. - intros d ps _. by destruct d. - done. Defined.
