(* ===== verification/Engine.v ===== *)
(** * Engine: the digital part of [circuits/circuit.h]

    [struct circult] (the part of its state the digital engine uses), the
    bookkeeping of [prepare()], and one digital tick: [before_digital_clk],
    the event loop [update_table_digital_clk], [after_table_digital_clk].
    Written against the interface [ModelImpl], as the code is against
    [model_base_impl]. *)

From Stdlib Require Import ZArith.
From stdpp Require Import base list gmap strings.
From S2P Require Import Prelude Store Logic4 Model.

Open Scope Z_scope.

(** [enum class analyze_type]. *)
Inductive analyze_type : Set := OP | DC | AC | ACOP | TR | TROP.
#[export] Instance analyze_type_eq_dec : EqDecision analyze_type.
Proof. solve_decision. Defined.

(** A row of the solution vector is a node of the netlist or an internal node
    of a model. *)
Inductive node_ref : Type := nl_node (n : node_ptr) | internal_node (ip : impl_ptr) (i : nat).

Record circult (impl : Type) : Type := mk_circult {
  st_nodes : gmap node_ptr node_t;
  st_models : gmap model_ptr model_base;
  st_impls : gmap impl_ptr impl;
  nl_nodes : list (list node_ptr);
  nl_models : list (list model_ptr);
  ground_node : node_ptr;
  at_type : analyze_type;
  has_prepare : bool;
  node_counter : Z;
  branch_counter : Z;
  size_t_to_node_p : list node_ref;
  size_t_to_branch_p : list (impl_ptr * nat);
  digital_update_tables : digital_node_update_table;
  digital_out : list need_operate_analog_node_t;
  before_all_clk_digital_model : list model_ptr;
  after_all_clk_digital_model : list model_ptr;
  tr_duration : double
}.
Arguments st_nodes {impl}. Arguments st_models {impl}. Arguments st_impls {impl}.
Arguments nl_nodes {impl}. Arguments nl_models {impl}. Arguments ground_node {impl}.
Arguments at_type {impl}. Arguments has_prepare {impl}. Arguments node_counter {impl}.
Arguments branch_counter {impl}. Arguments size_t_to_node_p {impl}.
Arguments size_t_to_branch_p {impl}. Arguments digital_update_tables {impl}.
Arguments digital_out {impl}. Arguments before_all_clk_digital_model {impl}.
Arguments after_all_clk_digital_model {impl}. Arguments tr_duration {impl}.
Arguments mk_circult {impl}.

(** How a call ends: with a state, by [fast_io::fast_terminate()], or in
    undefined behaviour. *)
Inductive outcome (A : Type) : Type := done_ok (a : A) | terminated | undefined.
Arguments done_ok {A}. Arguments terminated {A}. Arguments undefined {A}.

Section Engine.
Context {impl : Type} `{ModelImpl impl}.

Abbreviation circ := (circult impl).

(** Field updates. *)
Definition set_digital (c : circ) (ns : gmap node_ptr node_t) (ims : gmap impl_ptr impl)
    (t : digital_node_update_table) (out : list need_operate_analog_node_t) : circ :=
  mk_circult ns (st_models c) ims (nl_nodes c) (nl_models c) (ground_node c) (at_type c) (has_prepare c)
    (node_counter c) (branch_counter c) (size_t_to_node_p c) (size_t_to_branch_p c) t out
    (before_all_clk_digital_model c) (after_all_clk_digital_model c) (tr_duration c).

Definition set_tables (c : circ) (l : list node_ptr) : circ :=
  set_digital c (st_nodes c) (st_impls c)
    {| always_tables := always_tables (digital_update_tables c); tables := l |} (digital_out c).

Definition cur_tables (c : circ) : list node_ptr := tables (digital_update_tables c).

(** [i->ptr->update_digital_clk(digital_update_tables, tr_duration, method)],
    with [digital_out.push_back(rt)] when a node is to be operated. *)
Definition call_update (c : circ) (mp : model_ptr) (method : digital_update_method_t) : option circ :=
  match st_models c !! mp with
  | None => None
  | Some mb =>
      match ptr mb with
      | None => None
      | Some ip =>
          match st_impls c !! ip with
          | None => None
          | Some d =>
              match update_digital_clk d (tr_duration c) method
                      {| d_nodes := st_nodes c; d_tables := cur_tables c |} with
              | None => None
              | Some ((d', rt), s') =>
                  Some (set_digital c (d_nodes s') (<[ip := d']> (st_impls c))
                          {| always_tables := always_tables (digital_update_tables c);
                             tables := d_tables s' |}
                          (match need_to_operate_analog_node rt with
                           | None => digital_out c
                           | Some _ => digital_out c ++ [rt]
                           end))
              end
          end
      end
  end.

Fixpoint call_updates (c : circ) (ms : list model_ptr) (method : digital_update_method_t) : option circ :=
  match ms with
  | [] => Some c
  | m :: ms' =>
      match call_update c m method with None => None | Some c' => call_updates c' ms' method end
  end.

Definition before_digital_clk (c : circ) : option circ :=
  call_updates c (before_all_clk_digital_model c) before_all_clk.

(** The body of [for (auto p : node->pins)]: [p->model], then its update when
    the model is digital. *)
Definition pin_model (c : circ) (p : pin_ptr) : option model_ptr :=
  match st_impls c !! (fst p) with
  | None => None
  | Some d =>
      match generate_pin_view d !! N.to_nat (snd p) with None => None | Some pn => model pn end
  end.

Definition visit_pin (c : circ) (p : pin_ptr) : option circ :=
  match pin_model c p with
  | None => None
  | Some mp =>
      match st_models c !! mp with
      | None => None
      | Some mb =>
          match ptr mb with
          | None => None
          | Some ip =>
              match st_impls c !! ip with
              | None => None
              | Some d =>
                  if bool_decide (get_device_type d = digital) then call_update c mp update_table
                  else Some c
              end
          end
      end
  end.

Fixpoint visit_pins (c : circ) (ps : list pin_ptr) : option circ :=
  match ps with
  | [] => Some c
  | p :: ps' => match visit_pin c p with None => None | Some c' => visit_pins c' ps' end
  end.

(** One iteration of [while (!tables.empty())]; with an empty table the loop
    has ended and the state stays. *)
Definition loop_body (c : circ) : option circ :=
  match cur_tables c with
  | [] => Some c
  | node :: rest =>
      match st_nodes c !! node with
      | None => None
      | Some nd => visit_pins (set_tables c rest) (pins nd)
      end
  end.

(** [iter_budget] iterations, counted in binary: iterating an ended loop does
    nothing, so a half of the budget is skipped as soon as the table is empty. *)
Fixpoint loop_budget (p : positive) (c : circ) : option circ :=
  match cur_tables c with
  | [] => Some c
  | _ :: _ =>
      match p with
      | xH => loop_body c
      | xO q => match loop_budget q c with None => None | Some c1 => loop_budget q c1 end
      | xI q =>
          match loop_body c with
          | None => None
          | Some c1 => match loop_budget q c1 with None => None | Some c2 => loop_budget q c2 end
          end
      end
  end.

(** [std::size_t iter_budget{10'000'000}]. *)
Definition iter_budget : positive := 10000000.

Definition seed_tables (c : circ) : circ :=
  set_tables c (oset_insert_all (always_tables (digital_update_tables c)) (cur_tables c)).

Definition update_table_digital_clk (c : circ) : option circ := loop_budget iter_budget (seed_tables c).

Definition after_table_digital_clk (c : circ) : option circ :=
  call_updates c (after_all_clk_digital_model c) after_all_clk.

Definition digital_clk (c : circ) : option circ :=
  let c0 := set_digital c (st_nodes c) (st_impls c) (digital_update_tables c) [] in
  match before_digital_clk c0 with
  | None => None
  | Some c1 =>
      match update_table_digital_clk c1 with
      | None => None
      | Some c2 => after_table_digital_clk c2
      end
  end.

(** [update_digital()]: outside a transient analysis the process terminates. *)
Definition update_digital (c : circ) : outcome circ :=
  if bool_decide (at_type c <> TR) && bool_decide (at_type c <> TROP) then terminated
  else match digital_clk c with Some c' => done_ok c' | None => undefined end.

(** ** [prepare()]: the tables of the tick and the numbering of the unknowns

    The part of [prepare()] before the matrix is cleared. *)

Definition method_value (m : digital_update_method_t) : Z :=
  match m with update_table => 0 | before_all_clk => 1 | after_all_clk => 2 end.
Definition has_method (m bit : digital_update_method_t) : bool :=
  Z.land (method_value m) (method_value bit) =? method_value bit.

Definition set_node (c : circ) (n : node_ptr) (nd : node_t) : circ :=
  set_digital c (<[n := nd]> (st_nodes c)) (st_impls c) (digital_update_tables c) (digital_out c).
Definition set_node_index (nd : node_t) (i : Z) : node_t :=
  {| node_information := node_information nd; pins := pins nd;
     num_of_analog_node := num_of_analog_node nd; node_index := i |}.

(** Adding a row to the solution vector. *)
Definition push_node (c : circ) (r : node_ref) : circ :=
  mk_circult (st_nodes c) (st_models c) (st_impls c) (nl_nodes c) (nl_models c) (ground_node c) (at_type c)
    (has_prepare c) (u64_wrap (node_counter c + 1)) (branch_counter c) (size_t_to_node_p c ++ [r])
    (size_t_to_branch_p c) (digital_update_tables c) (digital_out c)
    (before_all_clk_digital_model c) (after_all_clk_digital_model c) (tr_duration c).

(** The body of the loop over [nl.nodes]. *)
Definition prepare_node (c : circ) (n : node_ptr) : option circ :=
  match st_nodes c !! n with
  | None => None
  | Some nd =>
      if num_of_analog_node nd =? 0 then
        match pins nd with
        | [] => Some c
        | _ :: _ => if has_prepare c then Some c else Some (set_node c n (set_information nd (dn sX)))
        end
      else
        let c1 :=
          if num_of_analog_node nd =? Z.of_nat (length (pins nd)) then c
          else set_digital c (st_nodes c) (st_impls c)
                 {| always_tables := oset_insert n (always_tables (digital_update_tables c));
                    tables := cur_tables c |} (digital_out c) in
        Some (push_node (set_node c1 n (set_node_index nd (node_counter c1))) (nl_node n))
  end.

Fixpoint prepare_nodes (c : circ) (ns : list node_ptr) : option circ :=
  match ns with
  | [] => Some c
  | n :: ns' => match prepare_node c n with None => None | Some c' => prepare_nodes c' ns' end
  end.

Definition set_impl (c : circ) (ip : impl_ptr) (d : impl) : circ :=
  set_digital c (st_nodes c) (<[ip := d]> (st_impls c)) (digital_update_tables c) (digital_out c).

Definition push_branch (c : circ) (ip : impl_ptr) (i : nat) : circ :=
  mk_circult (st_nodes c) (st_models c) (st_impls c) (nl_nodes c) (nl_models c) (ground_node c) (at_type c)
    (has_prepare c) (node_counter c) (u64_wrap (branch_counter c + 1)) (size_t_to_node_p c)
    (size_t_to_branch_p c ++ [(ip, i)]) (digital_update_tables c) (digital_out c)
    (before_all_clk_digital_model c) (after_all_clk_digital_model c) (tr_duration c).

Definition push_method (c : circ) (mp : model_ptr) (m : digital_update_method_t) : circ :=
  let b := has_method m before_all_clk in
  let a := negb b && has_method m after_all_clk in
  mk_circult (st_nodes c) (st_models c) (st_impls c) (nl_nodes c) (nl_models c) (ground_node c) (at_type c)
    (has_prepare c) (node_counter c) (branch_counter c) (size_t_to_node_p c)
    (size_t_to_branch_p c) (digital_update_tables c) (digital_out c)
    (if b then before_all_clk_digital_model c ++ [mp] else before_all_clk_digital_model c)
    (if a then after_all_clk_digital_model c ++ [mp] else after_all_clk_digital_model c) (tr_duration c).

(** [branch_c->index = branch_counter++] and [in_c->node_index = node_counter++]
    for the elements of a view, from index [i]. *)
Fixpoint number_branches (c : circ) (ip : impl_ptr) (i : nat) (bs : list branch) : circ * list branch :=
  match bs with
  | [] => (c, [])
  | b :: bs' =>
      let '(c', r) := number_branches (push_branch c ip i) ip (S i) bs' in
      (c', {| index := branch_counter c; current := current b |} :: r)
  end.

Fixpoint number_internal (c : circ) (ip : impl_ptr) (i : nat) (ns : list node_t) : circ * list node_t :=
  match ns with
  | [] => (c, [])
  | nd :: ns' =>
      let '(c', r) := number_internal (push_node c (internal_node ip i)) ip (S i) ns' in
      (c', set_node_index nd (node_counter c) :: r)
  end.

Definition pin_set_model (mp : model_ptr) (p : pin) : pin :=
  {| name := name p; nodes := nodes p; model := Some mp |}.

(** The body of the loop over [nl.models]. *)
Definition prepare_model (c : circ) (mp : model_ptr) : option circ :=
  match st_models c !! mp with
  | None => None
  | Some mb =>
      if negb (bool_decide (type mb = normal)) then Some c
      else match ptr mb with
      | None => None
      | Some ip =>
          match st_impls c !! ip with
          | None => None
          | Some d =>
              let d1 := set_pin_view d (map (pin_set_model mp) (generate_pin_view d)) in
              let '(c1, bs) := number_branches c ip 0 (generate_branch_view d1) in
              let d2 := set_branch_view d1 bs in
              let '(c2, ns) := number_internal c1 ip 0 (generate_internal_node_view d2) in
              let d3 := set_internal_node_view d2 ns in
              let c3 := set_impl c2 ip d3 in
              Some (if bool_decide (get_device_type d3 = digital)
                    then push_method c3 mp (get_digital_update_method d3) else c3)
          end
      end
  end.

Fixpoint prepare_models (c : circ) (ms : list model_ptr) : option circ :=
  match ms with
  | [] => Some c
  | m :: ms' => match prepare_model c m with None => None | Some c' => prepare_models c' ms' end
  end.

(** The start of [prepare()]: the tables are emptied and the counters reset. *)
Definition prepare_clear (c : circ) : circ :=
  mk_circult (st_nodes c) (st_models c) (st_impls c) (nl_nodes c) (nl_models c) (ground_node c) (at_type c)
    (has_prepare c) 0 (branch_counter c) [] (size_t_to_branch_p c)
    {| always_tables := []; tables := [] |} (digital_out c)
    (before_all_clk_digital_model c) (after_all_clk_digital_model c) (tr_duration c).

(** Between the loops: [nl.ground_node.node_index = SIZE_MAX], the branches of
    [digital_out] first, the lists of clocked models emptied. *)
Definition prepare_middle (c : circ) : option circ :=
  match st_nodes c !! ground_node c with
  | None => None
  | Some g =>
      Some (mk_circult (<[ground_node c := set_node_index g SIZE_MAX]> (st_nodes c)) (st_models c)
        (st_impls c) (nl_nodes c) (nl_models c) (ground_node c) (at_type c) (has_prepare c)
        (node_counter c) (Z.of_nat (length (digital_out c))) (size_t_to_node_p c) []
        (digital_update_tables c) (digital_out c) [] [] (tr_duration c))
  end.

Definition set_has_prepare (c : circ) : circ :=
  mk_circult (st_nodes c) (st_models c) (st_impls c) (nl_nodes c) (nl_models c) (ground_node c) (at_type c)
    true (node_counter c) (branch_counter c) (size_t_to_node_p c) (size_t_to_branch_p c)
    (digital_update_tables c) (digital_out c)
    (before_all_clk_digital_model c) (after_all_clk_digital_model c) (tr_duration c).

(** [prepare()] without the matrix and the [prepare_...] calls of the models. *)
Definition prepare_tables (c : circ) : option circ :=
  match prepare_nodes (prepare_clear c) (concat (nl_nodes c)) with
  | None => None
  | Some c1 =>
      match prepare_middle c1 with
      | None => None
      | Some c2 =>
          match prepare_models c2 (concat (nl_models c)) with
          | None => None
          | Some c3 => Some (set_has_prepare c3)
          end
      end
  end.

End Engine.
