(* ===== verification/Reactive.v ===== *)
(** * Reactive: digital models as reactions

    On digital nodes every model of the sum (but [TRI]) is a reaction: it reads
    its input nodes, takes a step, and puts a value on each output node; a node
    whose state changes is scheduled, a node whose state does not is left
    alone.  This file has the vocabulary ([dig], [put]) and the lemmas that run
    the primitives of the models in it. *)

From Stdlib Require Import ZArith.
From stdpp Require Import base list gmap strings.
From S2P Require Import Prelude Store Logic4 Gates Devices Sequential Arith.

Open Scope Z_scope.

(** The state of a purely digital node. *)
Definition dig (ns : gmap node_ptr node_t) (n : node_ptr) : option digital_node_statement_t :=
  match ns !! n with
  | Some nd =>
      if num_of_analog_node nd =? 0 then
        match node_information nd with dn st => Some st | an _ => None end
      else None
  | None => None
  end.

Definition upd (ns : gmap node_ptr node_t) (n : node_ptr) (v : digital_node_statement_t)
    : gmap node_ptr node_t := alter (fun nd => set_information nd (dn v)) n ns.

(** Putting a value on a node: nothing when it is there already. *)
Definition put (n : node_ptr) (v : digital_node_statement_t) (s : dstate) : dstate :=
  match dig (d_nodes s) n with
  | Some v0 =>
      if dns_eqb v0 v then s
      else {| d_nodes := upd (d_nodes s) n v; d_tables := oset_insert n (d_tables s) |}
  | None => s
  end.

Fixpoint put_all (outs : list node_ptr) (vs : list digital_node_statement_t) (s : dstate) : dstate :=
  match outs, vs with
  | n :: outs', v :: vs' => put_all outs' vs' (put n v s)
  | _, _ => s
  end.

(** The states of a list of nodes. *)
Definition digs (ns : gmap node_ptr node_t) (l : list node_ptr) (vs : list digital_node_statement_t) : Prop :=
  Forall2 (fun n v => dig ns n = Some v) l vs.

(** ** Node maps that differ in digital states only *)

Definition node_shape (nd : node_t) : list pin_ptr * Z * Z :=
  (pins nd, num_of_analog_node nd, node_index nd).
Definition same_shape (ns ns' : gmap node_ptr node_t) : Prop :=
  forall n, node_shape <$> ns !! n = node_shape <$> ns' !! n.

#[export] Instance same_shape_equiv : Equivalence same_shape.
Proof.
  split.
  - intros ns n. done.
  - intros ns ns' Hs n. by rewrite Hs.
  - intros a b c H1 H2 n. by rewrite H1, H2.
Qed.

Lemma lookup_upd ns n v m :
  upd ns n v !! m = if decide (n = m) then (fun nd => set_information nd (dn v)) <$> ns !! m else ns !! m.
Proof.
  unfold upd. case_decide as E.
  - subst. by rewrite lookup_alter_eq.
  - by rewrite lookup_alter_ne.
Qed.

Lemma dig_upd ns n v m :
  is_Some (dig ns n) -> dig (upd ns n v) m = if decide (n = m) then Some v else dig ns m.
Proof.
  intros [v0 Hv]. unfold dig in *. rewrite lookup_upd. case_decide; [subst|done].
  destruct (ns !! m) as [nd|]; [|done]. simpl.
  destruct (num_of_analog_node nd =? 0) eqn:E; [|done]. done.
Qed.

Lemma upd_same ns n v : dig ns n = Some v -> upd ns n v = ns.
Proof.
  intros Hv. apply map_eq. intros m. rewrite lookup_upd. case_decide as E; [subst|done].
  unfold dig in Hv. destruct (ns !! m) as [[i p k x]|] eqn:E; [|done]. simpl in *.
  destruct (k =? 0); [|done]. destruct i as [st|]; [|done]. simpl. unfold set_information. simpl. congruence.
Qed.

Lemma same_shape_upd ns n v : same_shape ns (upd ns n v).
Proof. intros m. rewrite lookup_upd. case_decide; [subst|done]. by destruct (ns !! m). Qed.

(** ** Facts about [put] *)

Lemma put_dig n v s m :
  is_Some (dig (d_nodes s) n) ->
  dig (d_nodes (put n v s)) m = if decide (n = m) then Some v else dig (d_nodes s) m.
Proof.
  intros Hn. unfold put. destruct Hn as [v0 Hv]. rewrite Hv.
  destruct (dns_eqb v0 v) eqn:E.
  - apply dns_eqb_spec in E as ->. case_decide; congruence.
  - simpl. apply dig_upd. eauto.
Qed.

Lemma put_shape n v s : same_shape (d_nodes s) (d_nodes (put n v s)).
Proof.
  unfold put. destruct (dig _ _) as [v0|]; [|reflexivity].
  destruct (dns_eqb v0 v); [reflexivity|]. apply same_shape_upd.
Qed.

Lemma put_frame n v s m : m <> n -> d_nodes (put n v s) !! m = d_nodes s !! m.
Proof.
  intros Hm. unfold put. destruct (dig _ _) as [v0|]; [|done].
  destruct (dns_eqb v0 v); [done|]. simpl. rewrite lookup_upd. by case_decide.
Qed.

Lemma put_changed n v s m :
  d_nodes (put n v s) !! m = d_nodes s !! m \/ (m = n /\ m ∈ d_tables (put n v s)).
Proof.
  destruct (decide (m = n)) as [->|Hne]; [|left; by rewrite put_frame].
  unfold put. destruct (dig _ _) as [v0|]; [|by left].
  destruct (dns_eqb v0 v); [by left|]. right. split; [done|]. simpl. apply elem_of_oset_insert. by left.
Qed.

Lemma put_tables n v s m : m ∈ d_tables s -> m ∈ d_tables (put n v s).
Proof.
  intros Hm. unfold put. destruct (dig _ _) as [v0|]; [|done].
  destruct (dns_eqb v0 v); [done|]. simpl. apply elem_of_oset_insert. by right.
Qed.

Lemma put_tables_inv n v s m : m ∈ d_tables (put n v s) -> m = n \/ m ∈ d_tables s.
Proof.
  unfold put. destruct (dig _ _) as [v0|]; [|by right].
  destruct (dns_eqb v0 v); [by right|]. simpl. apply elem_of_oset_insert.
Qed.

Lemma put_sorted n v s : osorted (d_tables s) -> osorted (d_tables (put n v s)).
Proof.
  intros Hs. unfold put. destruct (dig _ _) as [v0|]; [|done].
  destruct (dns_eqb v0 v); [done|]. simpl. auto with phy.
Qed.

Lemma put_id n v s : dig (d_nodes s) n = Some v -> put n v s = s.
Proof. intros Hv. unfold put. by rewrite Hv, dns_eqb_refl. Qed.

Lemma put_nodes_ext n v s s' :
  d_nodes s = d_nodes s' -> d_nodes (put n v s) = d_nodes (put n v s').
Proof. intros E. unfold put. rewrite E. destruct (dig _ _) as [v0|]; [|done]. by destruct (dns_eqb v0 v). Qed.

(** ** Facts about [put_all] *)

Lemma put_all_shape outs vs s : same_shape (d_nodes s) (d_nodes (put_all outs vs s)).
Proof.
  revert vs s. induction outs as [|n outs IH]; intros [|v vs] s; simpl; try reflexivity.
  etransitivity; [apply put_shape|apply IH].
Qed.

Lemma put_all_dig_some outs vs s m :
  is_Some (dig (d_nodes s) m) -> is_Some (dig (d_nodes (put_all outs vs s)) m).
Proof.
  revert vs s. induction outs as [|n outs IH]; intros [|v vs] s Hm; simpl; auto.
  apply IH. destruct (dig (d_nodes s) n) eqn:E.
  - rewrite put_dig by eauto. case_decide; eauto.
  - unfold put. by rewrite E.
Qed.

Lemma put_all_frame outs vs s m : m ∉ outs -> d_nodes (put_all outs vs s) !! m = d_nodes s !! m.
Proof.
  revert vs s. induction outs as [|n outs IH]; intros [|v vs] s Hm; simpl; auto.
  apply not_elem_of_cons in Hm as [? ?]. rewrite IH by done. by apply put_frame.
Qed.

Lemma put_all_tables outs vs s m : m ∈ d_tables s -> m ∈ d_tables (put_all outs vs s).
Proof.
  revert vs s. induction outs as [|n outs IH]; intros [|v vs] s Hm; simpl; auto using put_tables.
Qed.

Lemma put_all_tables_inv outs vs s m :
  m ∈ d_tables (put_all outs vs s) -> m ∈ outs \/ m ∈ d_tables s.
Proof.
  revert vs s. induction outs as [|n outs IH]; intros [|v vs] s Hm; simpl in *; auto.
  apply IH in Hm as [?|Hm]; [set_solver|]. apply put_tables_inv in Hm as [->|?]; set_solver.
Qed.

Lemma put_all_sorted outs vs s : osorted (d_tables s) -> osorted (d_tables (put_all outs vs s)).
Proof.
  revert vs s. induction outs as [|n outs IH]; intros [|v vs] s Hs; simpl; auto using put_sorted.
Qed.

Lemma put_all_changed outs vs s m :
  d_nodes (put_all outs vs s) !! m = d_nodes s !! m \/
  (m ∈ outs /\ m ∈ d_tables (put_all outs vs s)).
Proof.
  revert vs s. induction outs as [|n outs IH]; intros [|v vs] s; simpl in *; auto.
  destruct (IH vs (put n v s)) as [E|[? ?]]; [|right; set_solver].
  rewrite E. destruct (put_changed n v s m) as [?|[-> ?]]; [by left|].
  right. split; [set_solver|]. by apply put_all_tables.
Qed.

Lemma put_all_id outs vs s : digs (d_nodes s) outs vs -> put_all outs vs s = s.
Proof.
  revert vs s. induction outs as [|n outs IH]; intros vs s Hd; inversion Hd; subst; simpl; [done|].
  rewrite put_id by done. auto.
Qed.

(** Putting values on distinct digital nodes leaves exactly those values. *)
Lemma put_all_digs outs vs s :
  NoDup outs -> length outs = length vs -> (forall n, n ∈ outs -> is_Some (dig (d_nodes s) n)) ->
  digs (d_nodes (put_all outs vs s)) outs vs.
Proof.
  revert vs s. induction outs as [|n outs IH]; intros [|v vs] s Hnd Hlen Hs; simpl in *; try done.
  { constructor. }
  inversion Hnd as [|? ? Hn Hnd']; subst. constructor.
  - assert (E : dig (d_nodes (put n v s)) n = Some v).
    { rewrite put_dig by (apply Hs; set_solver). by case_decide. }
    unfold dig in *. by rewrite put_all_frame.
  - apply IH; [done|lia|]. intros m Hm. rewrite put_dig by (apply Hs; set_solver).
    case_decide; [eauto|]. apply Hs. set_solver.
Qed.

Lemma put_all_nodes_ext outs vs s s' :
  d_nodes s = d_nodes s' -> d_nodes (put_all outs vs s) = d_nodes (put_all outs vs s').
Proof.
  revert vs s s'. induction outs as [|n outs IH]; intros [|v vs] s s' E; simpl; auto using put_nodes_ext.
Qed.

(** ** Running the primitives on digital nodes *)

Section Runs.
Variables (s : dstate) (n : node_ptr) (v : digital_node_statement_t).
Hypothesis (Hv : dig (d_nodes s) n = Some v).

Lemma dig_lookup : exists nd, d_nodes s !! n = Some nd /\ num_of_analog_node nd = 0 /\ node_information nd = dn v.
Proof using Hv.
  unfold dig in Hv. destruct (d_nodes s !! n) as [nd|]; [|done]. exists nd. split; [done|].
  destruct (num_of_analog_node nd =? 0) eqn:E; [|done]. apply Z.eqb_eq in E. split; [done|].
  destruct (node_information nd); congruence.
Qed.

Lemma run_get_num : get_num n s = Some (0, s).
Proof using Hv.
  destruct dig_lookup as (nd & E1 & E2 & _). unfold get_num, bind, deref, ret. by rewrite E1, E2.
Qed.

Lemma run_get_dn : get_dn n s = Some (v, s).
Proof using Hv.
  destruct dig_lookup as (nd & E1 & _ & E3). unfold get_dn, bind, deref. by rewrite E1, E3.
Qed.

Lemma run_set_dn w : set_dn n w s = Some (tt, {| d_nodes := upd (d_nodes s) n w; d_tables := d_tables s |}).
Proof using Hv.
  destruct dig_lookup as (nd & E1 & _ & E3). unfold set_dn. rewrite E1. do 3 f_equal.
  apply map_eq. intros m. rewrite lookup_upd. case_decide as E.
  - subst. rewrite lookup_insert_eq, E1. done.
  - by rewrite lookup_insert_ne.
Qed.

Lemma run_sample_input lv t c :
  sample_input lv t n c s = Some ({| input := v; USR := USR c; duration := duration c |}, s).
Proof using Hv. unfold sample_input, bind. rewrite run_get_num; simpl. by rewrite run_get_dn. Qed.

Lemma run_read_dn l h : read_dn l h n s = Some (v, s).
Proof using Hv. unfold read_dn, bind. rewrite run_get_num; simpl. apply run_get_dn. Qed.

Lemma run_read_dn_x l h : read_dn_x l h n s = Some (z_to_x v, s).
Proof using Hv. unfold read_dn_x, bind. rewrite run_get_num; simpl. by rewrite run_get_dn. Qed.

Lemma run_put w :
  (do* set_dn n w in insert_table n) s =
  Some (tt, {| d_nodes := upd (d_nodes s) n w; d_tables := oset_insert n (d_tables s) |}).
Proof using Hv. unfold bind. by rewrite run_set_dn. Qed.

Lemma run_update_dn w : update_dn n w s = Some (tt, put n w s).
Proof using Hv.
  unfold update_dn, bind. rewrite run_get_dn. unfold put. rewrite Hv.
  destruct (dns_eqb v w); [done|]. by rewrite run_set_dn.
Qed.

Lemma run_drive_output lv w : drive_output lv n w (negb (dns_eqb v w)) s = Some (no_need, put n w s).
Proof using Hv.
  unfold drive_output, bind. rewrite run_get_num; simpl. rewrite run_set_dn. unfold put. rewrite Hv.
  destruct (dns_eqb v w) eqn:E; simpl; [|done].
  apply dns_eqb_spec in E as <-. rewrite upd_same by done. by destruct s.
Qed.

Lemma run_drive_q l h w : drive_q l h n w s = Some (no_need, put n w s).
Proof using Hv. unfold drive_q, bind. rewrite run_get_num; simpl. by rewrite run_update_dn. Qed.

Lemma run_drive_last w : drive_last n v w s = Some (w, put n w s).
Proof using Hv.
  unfold drive_last, bind. rewrite run_get_num; simpl. unfold put. rewrite Hv.
  destruct (dns_eqb v w) eqn:E; simpl.
  - apply dns_eqb_spec in E as ->. done.
  - by rewrite run_set_dn.
Qed.

End Runs.

Lemma dig_put_ne s n v m : m <> n -> dig (d_nodes (put n v s)) m = dig (d_nodes s) m.
Proof. intros Hm. unfold dig. by rewrite put_frame. Qed.

Lemma dig_put_eq s n v : is_Some (dig (d_nodes s) n) -> dig (d_nodes (put n v s)) n = Some v.
Proof. intros Hn. rewrite put_dig by done. by case_decide. Qed.

(** ** All-or-nothing wiring

    Most models do nothing unless every pin is connected; their ports are then
    the first [k] nodes (inputs) and the others (outputs). *)

Definition wires (ps : list pin) : option (list node_ptr) := mapM nodes ps.
Definition port_ins (k : nat) (ps : list pin) : list node_ptr :=
  match wires ps with Some l => take k l | None => [] end.
Definition port_outs (k : nat) (ps : list pin) : list node_ptr :=
  match wires ps with Some l => drop k l | None => [] end.

Lemma wires_elem ps l n : wires ps = Some l -> n ∈ l -> exists p, p ∈ ps /\ nodes p = Some n.
Proof.
  unfold wires. rewrite mapM_Some. intros HF Hn.
  induction HF as [|p x ps l Hp HF IH]; [set_solver|].
  apply elem_of_cons in Hn as [->|Hn]; [exists p; set_solver|].
  destruct (IH Hn) as (q & ? & ?). exists q. set_solver.
Qed.

Lemma port_elem k ps n :
  n ∈ port_ins k ps \/ n ∈ port_outs k ps -> exists p, p ∈ ps /\ nodes p = Some n.
Proof.
  unfold port_ins, port_outs. destruct (wires ps) as [l|] eqn:E; [|set_solver].
  intros Hn. eapply wires_elem; [done|].
  rewrite <- (take_drop k l). apply elem_of_app. done.
Qed.

(** The states of nodes that were not touched. *)
Lemma digs_frame ns ns' l vs :
  (forall m, m ∈ l -> dig ns' m = dig ns m) -> digs ns l vs -> digs ns' l vs.
Proof.
  intros Hf. induction 1 as [|n v l vs Hv HF IH]; constructor.
  - rewrite Hf; [done|set_solver].
  - apply IH. intros m Hm. apply Hf. set_solver.
Qed.

Lemma digs_put_ne n v s l vs : n ∉ l -> digs (d_nodes s) l vs -> digs (d_nodes (put n v s)) l vs.
Proof. intros Hn. apply digs_frame. intros m Hm. apply dig_put_ne. set_solver. Qed.

Lemma digs_length ns l vs : digs ns l vs -> length l = length vs.
Proof. apply Forall2_length. Qed.

Lemma digs_functional ns l vs ws : digs ns l vs -> digs ns l ws -> vs = ws.
Proof.
  intros H1. revert ws. induction H1; intros ws H2; inversion H2; simplify_eq; [done|].
  f_equal; auto; congruence.
Qed.

Lemma digs_exists ns l : (forall n, n ∈ l -> is_Some (dig ns n)) -> exists vs, digs ns l vs.
Proof.
  induction l as [|n l IH]; intros Hl; [exists []; constructor|].
  destruct IH as [vs ?]; [set_solver|]. destruct (Hl n) as [v ?]; [set_solver|].
  exists (v :: vs). by constructor.
Qed.
