(* ===== verification/Reaction.v ===== *)
(** * Reaction: the contract of a digital model, and the models that meet it

    [reaction] is the abstract specification of a digital model: which nodes it
    reads and drives, what a step does to its registers and outputs, and when
    its registers agree with the nodes it drives.  [reaction_laws] is the
    contract the engine's theorems rely on, and each family of models (the
    gates, the flip-flops, the arithmetic models, ...) is proved to meet it. *)

From Stdlib Require Import ZArith Lia.
From stdpp Require Import base list gmap strings.
From S2P Require Import Prelude Store Logic4 Gates Devices Sequential Arith Reactive.

Open Scope Z_scope.

Abbreviation dns := digital_node_statement_t.

Record reaction (A : Type) : Type := mk_reaction {
  r_ins : A -> list node_ptr;
  r_outs : A -> list node_ptr;
  r_react : digital_update_method_t -> A -> list dns -> A * list dns;
  r_agree : A -> list dns -> Prop;
  r_wf : A -> Prop
}.
Arguments r_ins {A}. Arguments r_outs {A}. Arguments r_react {A}. Arguments r_agree {A}. Arguments r_wf {A}.
Arguments mk_reaction {A}.

(** [l_run]: the code is the reaction.  [l_keep]: a step keeps the wiring and
    the well-formedness, leaves the registers in agreement with the outputs it
    drives, and repeating it with the same inputs does nothing more. *)
Record reaction_laws {A : Type} (pins_of : A -> list pin)
    (update : A -> double -> digital_update_method_t -> M (A * need_operate_analog_node_t))
    (R : reaction A) : Prop := mk_laws {
  l_run : forall m t meth s xs os m' ys,
    r_wf R m -> digs (d_nodes s) (r_ins R m) xs -> digs (d_nodes s) (r_outs R m) os ->
    r_agree R m os -> NoDup (r_outs R m) -> r_react R meth m xs = (m', ys) ->
    update m t meth s = Some ((m', no_need), put_all (r_outs R m) ys s);
  l_ports : forall m n, n ∈ r_ins R m \/ n ∈ r_outs R m -> exists p, p ∈ pins_of m /\ nodes p = Some n;
  l_keep : forall meth m xs m' ys,
    r_wf R m -> length xs = length (r_ins R m) -> r_react R meth m xs = (m', ys) ->
    r_wf R m' /\ pins_of m' = pins_of m /\ r_ins R m' = r_ins R m /\ r_outs R m' = r_outs R m /\
    length ys = length (r_outs R m) /\ r_agree R m' ys /\ r_react R update_table m' xs = (m', ys)
}.

(** ** Running a model *)

Lemma bind_run {A B} (m : M A) (k : A -> M B) s a s' : m s = Some (a, s') -> bind m k s = k a s'.
Proof. intros E. unfold bind. by rewrite E. Qed.

Lemma pin_nodes_run ps i p s : ps !! i = Some p -> pin_nodes ps i s = Some (nodes p, s).
Proof. intros E. unfold pin_nodes. by rewrite E. Qed.

(** Runs the head of the monadic term in the goal with the lemmas of
    [Reactive]; the states of the nodes are hypotheses. *)
Ltac run_with H := erewrite bind_run by (eapply H; eassumption).
Ltac run_head :=
  first
    [ erewrite bind_run by (apply pin_nodes_run; reflexivity)
    | run_with run_read_dn | run_with run_read_dn_x | run_with run_sample_input
    | run_with run_update_dn | run_with run_drive_output | run_with run_drive_q
    | run_with run_drive_last | run_with run_get_num | run_with run_get_dn ]; cbv beta iota.

(** Splits the wiring of a model with a known number of pins. *)
Ltac split_list ps H :=
  let rec go ps :=
    (destruct ps as [|? ps]; simpl in H; [try (exfalso; lia)|try (exfalso; lia); go ps]) in
  go ps; clear H.
Ltac split_nodes := repeat match goal with p : pin |- _ => destruct p as [? [?|] ?] end.
Ltac split_digs :=
  repeat match goal with
  | H : digs _ _ _ |- _ => unfold digs in H
  | H : Forall2 _ (_ :: _) _ |- _ => apply Forall2_cons_inv_l in H as (? & ? & ? & H & ?)
  | H : Forall2 _ [] _ |- _ => apply Forall2_nil_inv_l in H
  end; simplify_eq.

(** A value that is there only when every pin is connected. *)
Definition all_wired {A} (ps : list pin) (d f : A) : A :=
  match wires ps with Some _ => f | None => d end.

(** ** The gates and the terminals *)

Definition set_input (c : channel) (v : dns) : channel :=
  {| input := v; USR := USR c; duration := duration c |}.

Definition gate2_reaction (op : dns -> dns -> dns) : reaction gate2 := {|
  r_ins := fun m => port_ins 2 (g2_pins m);
  r_outs := fun m => port_outs 2 (g2_pins m);
  r_react := fun _ m xs =>
    match wires (g2_pins m), xs with
    | Some _, [a; b] =>
        ({| g2_pins := g2_pins m; g2_levels := g2_levels m; g2_A := set_input (g2_A m) a;
            g2_B := set_input (g2_B m) b; g2_last_outputA := op a b |}, [op a b])
    | _, _ => (m, [])
    end;
  r_agree := fun m os => all_wired (g2_pins m) True (os = [g2_last_outputA m]);
  r_wf := fun m => length (g2_pins m) = 3%nat
|}.

(** Closes the law [l_keep] for a model whose pins are all known. *)
Ltac keep_with xs Hlen := cbn in *; split_list xs Hlen; simplify_eq; by repeat split.

Lemma gate2_laws op : reaction_laws g2_pins (fun m t _ => gate2_update op m t) (gate2_reaction op).
Proof.
  split.
  - intros [ps lv A B last] t meth s xs os m' ys Hwf Hi Ho Ha _ Hr. simpl in *.
    split_list ps Hwf. unfold gate2_update. do 3 run_head.
    split_nodes; cbn in *; simplify_eq; try done.
    split_digs. do 2 run_head. cbn. by run_head.
  - intros m n. apply port_elem.
  - intros meth [ps lv A B last] xs m' ys Hwf Hlen Hr. simpl in *.
    split_list ps Hwf. split_nodes; keep_with xs Hlen.
Qed.

Definition gate1_reaction (op : dns -> dns) : reaction gate1 := {|
  r_ins := fun m => port_ins 1 (g1_pins m);
  r_outs := fun m => port_outs 1 (g1_pins m);
  r_react := fun _ m xs =>
    match wires (g1_pins m), xs with
    | Some _, [a] =>
        ({| g1_pins := g1_pins m; g1_levels := g1_levels m; g1_A := set_input (g1_A m) a;
            g1_last_outputA := op a |}, [op a])
    | _, _ => (m, [])
    end;
  r_agree := fun m os => all_wired (g1_pins m) True (os = [g1_last_outputA m]);
  r_wf := fun m => length (g1_pins m) = 2%nat
|}.

Lemma gate1_laws op : reaction_laws g1_pins (fun m t _ => gate1_update op m t) (gate1_reaction op).
Proof.
  split.
  - intros [ps lv A last] t meth s xs os m' ys Hwf Hi Ho Ha _ Hr. simpl in *.
    split_list ps Hwf. unfold gate1_update. do 2 run_head.
    split_nodes; cbn in *; simplify_eq; try done.
    split_digs. run_head. cbn. by run_head.
  - intros m n. apply port_elem.
  - intros meth [ps lv A last] xs m' ys Hwf Hlen Hr. simpl in *.
    split_list ps Hwf. split_nodes; keep_with xs Hlen.
Qed.

(** [INPUT] drives its state whatever the phase. *)
Definition INPUT_reaction : reaction INPUT.t := {|
  r_ins := fun m => port_ins 0 (INPUT.i_pins m);
  r_outs := fun m => port_outs 0 (INPUT.i_pins m);
  r_react := fun _ m xs =>
    match wires (INPUT.i_pins m) with
    | Some _ =>
        ({| INPUT.i_pins := INPUT.i_pins m; INPUT.i_Ll := INPUT.i_Ll m; INPUT.i_Hl := INPUT.i_Hl m;
            INPUT.outputA := INPUT.outputA m; INPUT.last_outputA := INPUT.outputA m |}, [INPUT.outputA m])
    | None => (m, [])
    end;
  r_agree := fun m os => all_wired (INPUT.i_pins m) True (os = [INPUT.last_outputA m]);
  r_wf := fun m => length (INPUT.i_pins m) = 1%nat
|}.

Lemma INPUT_laws : reaction_laws INPUT.i_pins INPUT.update_digital_clk_define INPUT_reaction.
Proof.
  split.
  - intros [ps l h o last] t meth s xs os m' ys Hwf Hi Ho Ha _ Hr. simpl in *.
    split_list ps Hwf. unfold INPUT.update_digital_clk_define. run_head.
    split_nodes; cbn in *; simplify_eq; try done. split_digs. by run_head.
  - intros m n. apply port_elem.
  - intros meth [ps l h o last] xs m' ys Hwf Hlen Hr. simpl in *.
    split_list ps Hwf. split_nodes; keep_with xs Hlen.
Qed.

(** [OUTPUT] samples its node, which must be there. *)
Definition OUTPUT_reaction : reaction OUTPUT.t := {|
  r_ins := fun m => port_ins 1 (OUTPUT.o_pins m);
  r_outs := fun m => port_outs 1 (OUTPUT.o_pins m);
  r_react := fun _ m xs =>
    match xs with
    | [a] => ({| OUTPUT.o_pins := OUTPUT.o_pins m; OUTPUT.o_levels := OUTPUT.o_levels m;
                 OUTPUT.o_A := set_input (OUTPUT.o_A m) a |}, [])
    | _ => (m, [])
    end;
  r_agree := fun m os => True;
  r_wf := fun m => length (OUTPUT.o_pins m) = 1%nat /\ is_Some (wires (OUTPUT.o_pins m))
|}.

Lemma OUTPUT_laws : reaction_laws OUTPUT.o_pins OUTPUT.update_digital_clk_define OUTPUT_reaction.
Proof.
  split.
  - intros [ps l A] t meth s xs os m' ys [Hwf Hw] Hi Ho Ha _ Hr. simpl in *.
    split_list ps Hwf. unfold OUTPUT.update_digital_clk_define. run_head.
    split_nodes; cbn in *; simplify_eq; [|by destruct Hw]. split_digs. by run_head.
  - intros m n. apply port_elem.
  - intros meth [ps l A] xs m' ys [Hwf Hw] Hlen Hr. simpl in *.
    split_list ps Hwf. split_nodes; [|by destruct Hw]. keep_with xs Hlen.
Qed.

(** ** The combinational devices *)

Definition set_CASE_EQ (m : CASE_EQ.t) (out : dns) : CASE_EQ.t :=
  {| CASE_EQ.c_pins := CASE_EQ.c_pins m; CASE_EQ.c_Ll := CASE_EQ.c_Ll m; CASE_EQ.c_Hl := CASE_EQ.c_Hl m;
     CASE_EQ.last_out := out |}.

Definition CASE_EQ_reaction : reaction CASE_EQ.t := {|
  r_ins := fun m => port_ins 2 (CASE_EQ.c_pins m);
  r_outs := fun m => port_outs 2 (CASE_EQ.c_pins m);
  r_react := fun _ m xs =>
    match wires (CASE_EQ.c_pins m), xs with
    | Some _, [a; b] => let out := if dns_eqb a b then sH else sL in (set_CASE_EQ m out, [out])
    | _, _ => (m, [])
    end;
  r_agree := fun m os => True;
  r_wf := fun m => length (CASE_EQ.c_pins m) = 3%nat
|}.

Lemma CASE_EQ_laws : reaction_laws CASE_EQ.c_pins CASE_EQ.update_digital_clk_define CASE_EQ_reaction.
Proof.
  split.
  - intros [ps l h o] t meth s xs os m' ys Hwf Hi Ho Ha _ Hr. simpl in *.
    split_list ps Hwf. unfold CASE_EQ.update_digital_clk_define. do 3 run_head.
    split_nodes; cbn in *; simplify_eq; try done. split_digs. do 3 run_head. cbn. by run_head.
  - intros m n. apply port_elem.
  - intros meth [ps l h o] xs m' ys Hwf Hlen Hr. simpl in *.
    split_list ps Hwf. split_nodes; keep_with xs Hlen.
Qed.

Definition set_IS_UNKNOWN (m : IS_UNKNOWN.t) (out : dns) : IS_UNKNOWN.t :=
  {| IS_UNKNOWN.u_pins := IS_UNKNOWN.u_pins m; IS_UNKNOWN.u_Ll := IS_UNKNOWN.u_Ll m;
     IS_UNKNOWN.u_Hl := IS_UNKNOWN.u_Hl m; IS_UNKNOWN.last_out := out |}.

Definition IS_UNKNOWN_reaction : reaction IS_UNKNOWN.t := {|
  r_ins := fun m => port_ins 1 (IS_UNKNOWN.u_pins m);
  r_outs := fun m => port_outs 1 (IS_UNKNOWN.u_pins m);
  r_react := fun _ m xs =>
    match wires (IS_UNKNOWN.u_pins m), xs with
    | Some _, [a] =>
        let out := if dns_eqb a sX || dns_eqb a sZ then sH else sL in (set_IS_UNKNOWN m out, [out])
    | _, _ => (m, [])
    end;
  r_agree := fun m os => True;
  r_wf := fun m => length (IS_UNKNOWN.u_pins m) = 2%nat
|}.

Lemma IS_UNKNOWN_laws :
  reaction_laws IS_UNKNOWN.u_pins IS_UNKNOWN.update_digital_clk_define IS_UNKNOWN_reaction.
Proof.
  split.
  - intros [ps l h o] t meth s xs os m' ys Hwf Hi Ho Ha _ Hr. simpl in *.
    split_list ps Hwf. unfold IS_UNKNOWN.update_digital_clk_define. do 2 run_head.
    split_nodes; cbn in *; simplify_eq; try done. split_digs. do 2 run_head. cbn. by run_head.
  - intros m n. apply port_elem.
  - intros meth [ps l h o] xs m' ys Hwf Hlen Hr. simpl in *.
    split_list ps Hwf. split_nodes; keep_with xs Hlen.
Qed.

Definition RESOLVE2_reaction : reaction RESOLVE2.t := {|
  r_ins := fun m => port_ins 2 (RESOLVE2.r_pins m);
  r_outs := fun m => port_outs 2 (RESOLVE2.r_pins m);
  r_react := fun _ m xs =>
    match wires (RESOLVE2.r_pins m), xs with
    | Some _, [a; b] => (m, [RESOLVE2.resolve a b])
    | _, _ => (m, [])
    end;
  r_agree := fun m os => True;
  r_wf := fun m => length (RESOLVE2.r_pins m) = 3%nat
|}.

Lemma RESOLVE2_laws : reaction_laws RESOLVE2.r_pins RESOLVE2.update_digital_clk_define RESOLVE2_reaction.
Proof.
  split.
  - intros [ps l h] t meth s xs os m' ys Hwf Hi Ho Ha _ Hr. simpl in *.
    split_list ps Hwf. unfold RESOLVE2.update_digital_clk_define. do 3 run_head.
    split_nodes; cbn in *; simplify_eq; try done. split_digs. do 3 run_head. cbn. by run_head.
  - intros m n. apply port_elem.
  - intros meth [ps l h] xs m' ys Hwf Hlen Hr. simpl in *.
    split_list ps Hwf. split_nodes; keep_with xs Hlen.
Qed.

Definition SCHMITT_TRIGGER_reaction : reaction SCHMITT_TRIGGER.t := {|
  r_ins := fun m => port_ins 1 (SCHMITT_TRIGGER.s_pins m);
  r_outs := fun m => port_outs 1 (SCHMITT_TRIGGER.s_pins m);
  r_react := fun _ m xs =>
    match wires (SCHMITT_TRIGGER.s_pins m), xs with
    | Some _, [a] =>
        let out := SCHMITT_TRIGGER.decide_from_digital a in
        let driven := SCHMITT_TRIGGER.driven_of (SCHMITT_TRIGGER.inverted m) out in
        (SCHMITT_TRIGGER.set_last m out driven, [driven])
    | _, _ => (m, [])
    end;
  r_agree := fun m os => True;
  r_wf := fun m => length (SCHMITT_TRIGGER.s_pins m) = 2%nat
|}.

Lemma SCHMITT_TRIGGER_laws :
  reaction_laws SCHMITT_TRIGGER.s_pins SCHMITT_TRIGGER.update_digital_clk_define SCHMITT_TRIGGER_reaction.
Proof.
  split.
  - intros [ps l h vl vh b lo ld] t meth s xs os m' ys Hwf Hi Ho Ha _ Hr. simpl in *.
    split_list ps Hwf. unfold SCHMITT_TRIGGER.update_digital_clk_define. do 2 run_head.
    split_nodes; cbn in *; simplify_eq; try done. split_digs. run_head. cbn.
    erewrite bind_run by (erewrite bind_run by (apply run_get_dn; eassumption); reflexivity).
    run_head. cbn. by run_head.
  - intros m n. apply port_elem.
  - intros meth [ps l h vl vh b lo ld] xs m' ys Hwf Hlen Hr. simpl in *.
    split_list ps Hwf. split_nodes; keep_with xs Hlen.
Qed.
