(* ===== verification/Reactions.v ===== *)
(** * Reactions: storage elements, arithmetic, bit vectors and the delay line

    The families of models with registers or with more than one output meet
    the contract of [Reaction]; the last section puts the families together
    for the sum [device]. *)

From Stdlib Require Import ZArith Lia.
From stdpp Require Import base list gmap strings.
From S2P Require Import Prelude Store Logic4 Gates Devices Sequential Arith Model.
From S2P Require Import Reactive Reaction.

Open Scope Z_scope.

(** ** Flip-flops *)

(** A flip-flop with [k] inputs: [next] is the new state, [q] its output. *)
Definition ff_reaction {A} (pins_of : A -> list pin) (k : nat) (next : A -> list dns -> A) (q : A -> dns)
    : reaction A := {|
  r_ins := fun m => port_ins k (pins_of m);
  r_outs := fun m => port_outs k (pins_of m);
  r_react := fun _ m xs =>
    match wires (pins_of m) with
    | Some _ => let m' := next m (map z_to_x xs) in (m', [q m'])
    | None => (m, [])
    end;
  r_agree := fun m os => True;
  r_wf := fun m => length (pins_of m) = S k
|}.

Section FlipFlop.
Context {A : Type} (pins_of : A -> list pin) (k : nat) (next : A -> list dns -> A) (q : A -> dns)
  (update : A -> double -> digital_update_method_t -> M (A * need_operate_analog_node_t)).
Hypothesis (Hpins : forall m xs, pins_of (next m xs) = pins_of m).
Hypothesis (Hidem : forall m xs, next (next m xs) xs = next m xs).
Hypothesis (Hrun : forall m t meth s xs os m' ys,
  length (pins_of m) = S k -> digs (d_nodes s) (port_ins k (pins_of m)) xs ->
  digs (d_nodes s) (port_outs k (pins_of m)) os ->
  r_react (ff_reaction pins_of k next q) meth m xs = (m', ys) ->
  update m t meth s = Some ((m', no_need), put_all (port_outs k (pins_of m)) ys s)).

Lemma wires_length ps l : wires ps = Some l -> length l = length ps.
Proof. unfold wires. rewrite mapM_Some. intros HF. by apply Forall2_length in HF. Qed.

Lemma ff_laws : reaction_laws pins_of update (ff_reaction pins_of k next q).
Proof using Hpins Hidem Hrun.
  split.
  - intros m t meth s xs os m' ys Hwf Hi Ho _ _ Hr. by eapply Hrun.
  - intros m n. apply port_elem.
  - intros meth m xs m' ys Hwf Hlen Hr. simpl in *.
    destruct (wires (pins_of m)) as [l|] eqn:Hw; simplify_eq.
    + rewrite !Hpins, Hw, Hidem. repeat split; try done. simpl.
      unfold port_outs. rewrite Hw, length_drop. apply wires_length in Hw. lia.
    + rewrite Hw. repeat split; try done. simpl. unfold port_outs. by rewrite Hw.
Qed.

End FlipFlop.

(** Runs the code of a flip-flop with the given fields and number of pins. *)
Ltac ff_run ps Hwf :=
  split_list ps Hwf; repeat run_head; split_nodes; cbn in *; simplify_eq; try done;
  split_digs; repeat run_head; done.
Ltac ff_idem m :=
  destruct m; repeat match goal with x : digital_node_statement_t |- _ => destruct x end; reflexivity.

Definition DFF_next (m : DFF.t) (xs : list dns) : DFF.t :=
  match xs with [D; CLK] => DFF.next m D CLK | _ => m end.

Lemma DFF_laws :
  reaction_laws DFF.f_pins DFF.update_digital_clk_define (ff_reaction DFF.f_pins 2 DFF_next DFF.q).
Proof.
  apply ff_laws.
  - by intros m [|? [|? [|? ?]]].
  - intros m [|? [|? [|? ?]]]; try done. ff_idem m.
  - intros [ps l h q c] t meth s xs os m' ys Hwf Hi Ho Hr. simpl in *.
    unfold DFF.update_digital_clk_define. ff_run ps Hwf.
Qed.

Definition DFF_ARSTN_next (m : DFF_ARSTN.t) (xs : list dns) : DFF_ARSTN.t :=
  match xs with [D; CLK; ARSTN] => DFF_ARSTN.next m D CLK ARSTN | _ => m end.

Lemma DFF_ARSTN_laws :
  reaction_laws DFF_ARSTN.a_pins DFF_ARSTN.update_digital_clk_define
    (ff_reaction DFF_ARSTN.a_pins 3 DFF_ARSTN_next DFF_ARSTN.q).
Proof.
  apply ff_laws.
  - by intros m [|? [|? [|? [|? ?]]]].
  - intros m [|? [|? [|? [|? ?]]]]; try done. ff_idem m.
  - intros [ps l h q r c] t meth s xs os m' ys Hwf Hi Ho Hr. simpl in *.
    unfold DFF_ARSTN.update_digital_clk_define. ff_run ps Hwf.
Qed.

Definition DLATCH_next (m : DLATCH.t) (xs : list dns) : DLATCH.t :=
  match xs with [d; en] => DLATCH.next m d en | _ => m end.

Lemma DLATCH_laws :
  reaction_laws DLATCH.l_pins DLATCH.update_digital_clk_define
    (ff_reaction DLATCH.l_pins 2 DLATCH_next DLATCH.q).
Proof.
  apply ff_laws.
  - by intros m [|? [|? [|? ?]]].
  - intros m [|? [|? [|? ?]]]; try done. ff_idem m.
  - intros [ps l h q] t meth s xs os m' ys Hwf Hi Ho Hr. simpl in *.
    unfold DLATCH.update_digital_clk_define. ff_run ps Hwf.
Qed.

Definition TFF_next (m : TFF.t) (xs : list dns) : TFF.t :=
  match xs with [T; CLK] => TFF.next m T CLK | _ => m end.

Lemma TFF_laws :
  reaction_laws TFF.f_pins TFF.update_digital_clk_define (ff_reaction TFF.f_pins 2 TFF_next TFF.q).
Proof.
  apply ff_laws.
  - by intros m [|? [|? [|? ?]]].
  - intros m [|? [|? [|? ?]]]; try done. ff_idem m.
  - intros [ps l h q c] t meth s xs os m' ys Hwf Hi Ho Hr. simpl in *.
    unfold TFF.update_digital_clk_define. ff_run ps Hwf.
Qed.

Definition T_BAR_FF_next (m : T_BAR_FF.t) (xs : list dns) : T_BAR_FF.t :=
  match xs with [TB; CLK] => T_BAR_FF.next m TB CLK | _ => m end.

Lemma T_BAR_FF_laws :
  reaction_laws T_BAR_FF.f_pins T_BAR_FF.update_digital_clk_define
    (ff_reaction T_BAR_FF.f_pins 2 T_BAR_FF_next T_BAR_FF.q).
Proof.
  apply ff_laws.
  - by intros m [|? [|? [|? ?]]].
  - intros m [|? [|? [|? ?]]]; try done. ff_idem m.
  - intros [ps l h q c] t meth s xs os m' ys Hwf Hi Ho Hr. simpl in *.
    unfold T_BAR_FF.update_digital_clk_define. ff_run ps Hwf.
Qed.

Definition JKFF_next (m : JKFF.t) (xs : list dns) : JKFF.t :=
  match xs with [J; K; CLK] => JKFF.next m J K CLK | _ => m end.

Lemma JKFF_laws :
  reaction_laws JKFF.j_pins JKFF.update_digital_clk_define (ff_reaction JKFF.j_pins 3 JKFF_next JKFF.q).
Proof.
  apply ff_laws.
  - by intros m [|? [|? [|? [|? ?]]]].
  - intros m [|? [|? [|? [|? ?]]]]; try done. ff_idem m.
  - intros [ps l h q c] t meth s xs os m' ys Hwf Hi Ho Hr. simpl in *.
    unfold JKFF.update_digital_clk_define. ff_run ps Hwf.
Qed.

(** ** Arithmetic *)

(** Two outputs [f xs] from [k] inputs. *)
Definition arith2_reaction (k : nat) (f : list dns -> dns * dns) : reaction arith2 := {|
  r_ins := fun m => port_ins k (ar_pins m);
  r_outs := fun m => port_outs k (ar_pins m);
  r_react := fun _ m xs =>
    match wires (ar_pins m) with
    | Some _ =>
        let '(v0, v1) := f (map z_to_x xs) in
        ({| ar_pins := ar_pins m; ar_Ll := ar_Ll m; ar_Hl := ar_Hl m; last_0 := v0; last_1 := v1 |}, [v0; v1])
    | None => (m, [])
    end;
  r_agree := fun m os => all_wired (ar_pins m) True (os = [last_0 m; last_1 m]);
  r_wf := fun m => length (ar_pins m) = S (S k)
|}.

Lemma run_arith2_drive s clip n0 n1 v0 v1 :
  dig (d_nodes s) n0 = Some (last_0 clip) -> dig (d_nodes s) n1 = Some (last_1 clip) -> n0 <> n1 ->
  arith2_drive clip n0 n1 v0 v1 s =
  Some (({| ar_pins := ar_pins clip; ar_Ll := ar_Ll clip; ar_Hl := ar_Hl clip; last_0 := v0; last_1 := v1 |},
         no_need), put n1 v1 (put n0 v0 s)).
Proof.
  intros H0 H1 Hne. unfold arith2_drive. run_with run_drive_last.
  assert (H1' : dig (d_nodes (put n0 v0 s)) n1 = Some (last_1 clip)) by (by rewrite dig_put_ne).
  run_with run_drive_last.
  assert (H0' : dig (d_nodes (put n1 v1 (put n0 v0 s))) n0 = Some v0).
  { rewrite dig_put_ne by done. apply dig_put_eq. eauto. }
  assert (H1'' : dig (d_nodes (put n1 v1 (put n0 v0 s))) n1 = Some v1) by (apply dig_put_eq; eauto).
  run_with run_get_num. cbn. by run_with run_get_num.
Qed.

Definition pair_of2 (f : dns -> dns -> dns * dns) (xs : list dns) : dns * dns :=
  match xs with [a; b] => f a b | _ => (sX, sX) end.
Definition pair_of3 (f : dns -> dns -> dns -> dns * dns) (xs : list dns) : dns * dns :=
  match xs with [a; b; c] => f a b c | _ => (sX, sX) end.

Lemma arith2_keep k f meth m xs m' ys :
  r_wf (arith2_reaction k f) m -> r_react (arith2_reaction k f) meth m xs = (m', ys) ->
  let R := arith2_reaction k f in
  r_wf R m' /\ ar_pins m' = ar_pins m /\ r_ins R m' = r_ins R m /\ r_outs R m' = r_outs R m /\
  length ys = length (r_outs R m) /\ r_agree R m' ys /\ r_react R update_table m' xs = (m', ys).
Proof.
  intros Hwf Hr. simpl in *. destruct (f (map z_to_x xs)) as [v0 v1] eqn:Ef.
  destruct (wires (ar_pins m)) as [l|] eqn:Hw; simplify_eq; simpl; unfold all_wired, port_outs;
    rewrite Hw; repeat split; try done.
  rewrite length_drop. apply wires_length in Hw. simpl. lia.
Qed.

Lemma half_laws f : reaction_laws ar_pins (fun m _ _ => half_update f m) (arith2_reaction 2 (pair_of2 f)).
Proof.
  split.
  - intros [ps l h l0 l1] t meth s xs os m' ys Hwf Hi Ho Ha Hnd Hr. simpl in *.
    split_list ps Hwf. unfold half_update. do 4 run_head.
    split_nodes; cbn in *; simplify_eq; try done.
    split_digs. do 2 run_head. cbn in *. case_match; simplify_eq.
    apply run_arith2_drive; simpl; [done..|]. inversion Hnd. set_solver.
  - intros m n. apply port_elem.
  - intros meth m xs m' ys Hwf _ Hr. by eapply arith2_keep.
Qed.

Lemma full_laws f : reaction_laws ar_pins (fun m _ _ => full_update f m) (arith2_reaction 3 (pair_of3 f)).
Proof.
  split.
  - intros [ps l h l0 l1] t meth s xs os m' ys Hwf Hi Ho Ha Hnd Hr. simpl in *.
    split_list ps Hwf. unfold full_update. do 5 run_head.
    split_nodes; cbn in *; simplify_eq; try done.
    split_digs. do 3 run_head. cbn in *. case_match; simplify_eq.
    apply run_arith2_drive; simpl; [done..|]. inversion Hnd. set_solver.
  - intros m n. apply port_elem.
  - intros meth m xs m' ys Hwf _ Hr. by eapply arith2_keep.
Qed.

Definition MUL2_set (m : MUL2.t) (l : list dns) : MUL2.t :=
  {| MUL2.m_pins := MUL2.m_pins m; MUL2.m_Ll := MUL2.m_Ll m; MUL2.m_Hl := MUL2.m_Hl m; MUL2.last_p := l |}.

Definition MUL2_outputs (xs : list dns) : list dns :=
  match xs with [a0; a1; b0; b1] => MUL2.outputs a0 a1 b0 b1 | _ => [sX; sX; sX; sX] end.

Definition MUL2_reaction : reaction MUL2.t := {|
  r_ins := fun m => port_ins 4 (MUL2.m_pins m);
  r_outs := fun m => port_outs 4 (MUL2.m_pins m);
  r_react := fun _ m xs =>
    match wires (MUL2.m_pins m) with
    | Some _ => let ys := MUL2_outputs (map z_to_x xs) in (MUL2_set m ys, ys)
    | None => (m, [])
    end;
  r_agree := fun m os => all_wired (MUL2.m_pins m) True (os = MUL2.last_p m);
  r_wf := fun m => length (MUL2.m_pins m) = 8%nat /\ length (MUL2.last_p m) = 4%nat
|}.

Lemma MUL2_outputs_length xs : length (MUL2_outputs xs) = 4%nat.
Proof.
  unfold MUL2_outputs, MUL2.outputs.
  destruct xs as [|? [|? [|? [|? [|? ?]]]]]; try done. by destruct (any_unknown _).
Qed.

(** The loop over the outputs, one [last_p] entry per node. *)
Lemma run_MUL2_drive_all clip : forall outs vs pre lasts s,
  MUL2.last_p clip = pre ++ lasts -> length vs = length outs ->
  digs (d_nodes s) outs lasts -> NoDup outs ->
  MUL2.drive_all clip (length pre) (zip outs vs) s =
  Some ((MUL2_set clip (pre ++ vs), no_need), put_all outs vs s).
Proof.
  intros outs. revert clip. induction outs as [|n outs IH]; intros clip [|v vs] pre lasts s Hl Hlen Hd Hnd;
    simpl in *; try done.
  { apply Forall2_nil_inv_l in Hd as ->. rewrite app_nil_r in *. destruct clip; simpl in *.
    unfold MUL2_set; simpl. by rewrite Hl. }
  apply Forall2_cons_inv_l in Hd as (x & lasts' & Hx & Hd & ->). inversion Hnd as [|? ? Hn Hnd']; subst.
  run_with run_get_num. cbn.
  assert (Hd' : digs (d_nodes (put n v s)) outs lasts').
  { by apply digs_put_ne. }
  rewrite Hl, list_lookup_middle by done.
  destruct (dns_eqb x v) eqn:E.
  - apply dns_eqb_spec in E as <-. rewrite put_id in * by done.
    specialize (IH clip vs (pre ++ [x]) lasts' s). rewrite length_app, Nat.add_1_r in IH. simpl in IH.
    rewrite IH; [|by rewrite <-app_assoc|lia|done..]. by rewrite <-app_assoc.
  - erewrite bind_run by (eapply run_set_dn; eassumption). erewrite bind_run by reflexivity. simpl.
    assert (Ep : {| d_nodes := upd (d_nodes s) n v; d_tables := oset_insert n (d_tables s) |} = put n v s).
    { unfold put. by rewrite Hx, E. }
    rewrite Ep. rewrite insert_app_r_alt, Nat.sub_diag by lia. simpl.
    specialize (IH (MUL2_set clip (pre ++ v :: lasts')) vs (pre ++ [v]) lasts' (put n v s)).
    rewrite length_app, Nat.add_1_r in IH. simpl in IH.
    rewrite <-!app_assoc in IH. simpl in IH. unfold MUL2_set in *. simpl in *. apply IH; [done|lia|done..].
Qed.

Lemma MUL2_laws : reaction_laws MUL2.m_pins MUL2.update_digital_clk_define MUL2_reaction.
Proof.
  split.
  - intros [ps l h lp] t meth s xs os m' ys [Hwf Hlp] Hi Ho Ha Hnd Hr. simpl in *.
    split_list ps Hwf. unfold MUL2.update_digital_clk_define. do 8 run_head.
    repeat match goal with
    | p : pin |- _ => destruct p as [? [?|] ?]; [|cbn in *; simplify_eq; by repeat case_match]
    end.
    unfold port_ins, port_outs, wires, all_wired in *. cbn -[MUL2.outputs MUL2.drive_all zip put_all] in *.
    subst lp. unfold digs in Hi. apply Forall2_length in Ho as Hol.
    repeat apply Forall2_cons_inv_l in Hi as (? & ? & ? & Hi & ->). apply Forall2_nil_inv_l in Hi as ->.
    do 4 run_head. simpl map in Hr. unfold MUL2_outputs in Hr. injection Hr as <- <-.
    apply (run_MUL2_drive_all _ _ _ [] os); [done| |done..]. apply (MUL2_outputs_length [_; _; _; _]).
  - intros m n. apply port_elem.
  - intros meth m xs m' ys [Hwf Hlp] Hlen Hr. simpl in *.
    destruct (wires (MUL2.m_pins m)) as [l|] eqn:Hw; simplify_eq; simpl; unfold all_wired, port_outs;
      rewrite Hw; repeat split; try done; rewrite MUL2_outputs_length; [done|].
    rewrite length_drop. apply wires_length in Hw. lia.
Qed.

(** ** The delay line *)

Definition td_node (i : nat) (m : TICK_DELAY.t) : option node_ptr :=
  match TICK_DELAY.d_pins m !! i with Some p => nodes p | None => None end.

(** One advance of the line with input [i]: the value that comes out. *)
Definition td_step (m : TICK_DELAY.t) (i : dns) : TICK_DELAY.t * dns :=
  if bool_decide (TICK_DELAY.ticks m = 0%nat) then (TICK_DELAY.set_pipe m (TICK_DELAY.pipe m) i, i)
  else
    let p := if bool_decide (length (TICK_DELAY.pipe m) = TICK_DELAY.ticks m) then TICK_DELAY.pipe m
             else replicate (TICK_DELAY.ticks m) i in
    let out := default sX (p !! (TICK_DELAY.ticks m - 1)%nat) in
    let p' := if bool_decide (1 < TICK_DELAY.ticks m)%nat
              then TICK_DELAY.shift_down (TICK_DELAY.ticks m - 1) p else p in
    (TICK_DELAY.set_pipe m (<[0%nat := i]> p') out, out).

Definition TICK_DELAY_reaction : reaction TICK_DELAY.t := {|
  r_ins := fun m => match td_node 1 m with Some _ => option_list (td_node 0 m) | None => [] end;
  r_outs := fun m => option_list (td_node 1 m);
  r_react := fun meth m xs =>
    match td_node 1 m with
    | None => (m, [])
    | Some _ =>
        if bool_decide (meth = before_all_clk) then
          let '(m', out) := td_step m (default sX (head xs)) in (m', [out])
        else (m, [TICK_DELAY.last_out m])
    end;
  r_agree := fun m os => is_Some (td_node 1 m) -> os = [TICK_DELAY.last_out m];
  r_wf := fun m => length (TICK_DELAY.d_pins m) = 2%nat /\
    (TICK_DELAY.ticks m = 0%nat \/ length (TICK_DELAY.pipe m) = TICK_DELAY.ticks m \/ TICK_DELAY.last_out m = sX)
|}.

Lemma shift_down_length i p : length (TICK_DELAY.shift_down i p) = length p.
Proof.
  revert p. induction i as [|i IH]; intros p; simpl; [done|]. rewrite IH.
  destruct (p !! i); [apply length_insert|done].
Qed.

Lemma td_pipe_length m i :
  let p := if bool_decide (length (TICK_DELAY.pipe m) = TICK_DELAY.ticks m) then TICK_DELAY.pipe m
           else replicate (TICK_DELAY.ticks m) i in
  length p = TICK_DELAY.ticks m.
Proof. simpl. case_bool_decide; [done|apply length_replicate]. Qed.

Lemma td_step_wf m i m' out :
  td_step m i = (m', out) ->
  TICK_DELAY.d_pins m' = TICK_DELAY.d_pins m /\ TICK_DELAY.ticks m' = TICK_DELAY.ticks m /\
  TICK_DELAY.last_out m' = out /\
  (TICK_DELAY.ticks m <> 0%nat -> length (TICK_DELAY.pipe m') = TICK_DELAY.ticks m).
Proof.
  unfold td_step. case_bool_decide; intros ?; simplify_eq; simpl; repeat split; try done.
  intros _. rewrite length_insert.
  destruct (bool_decide (1 < _)%nat); rewrite ?shift_down_length; apply td_pipe_length.
Qed.

Lemma run_td_drive s m no out :
  dig (d_nodes s) no = Some (TICK_DELAY.last_out m) ->
  TICK_DELAY.drive m no out s = Some ((TICK_DELAY.set_pipe m (TICK_DELAY.pipe m) out, no_need), put no out s).
Proof.
  intros Hv. unfold TICK_DELAY.drive. run_with run_get_num. cbn.
  erewrite bind_run by (eapply run_set_dn; eassumption). unfold put. rewrite Hv.
  destruct (dns_eqb (TICK_DELAY.last_out m) out) eqn:E; simpl; [|done].
  unfold bind, ret. apply dns_eqb_spec in E as <-. rewrite upd_same by done. by destruct s.
Qed.

(** The body of the model in the [before_all_clk] phase is [td_step]. *)
Lemma run_td_body s m no i :
  dig (d_nodes s) no = Some (TICK_DELAY.last_out m) -> r_wf TICK_DELAY_reaction m ->
  (if bool_decide (TICK_DELAY.ticks m = 0%nat) then TICK_DELAY.drive m no i
   else
     let m1 := if bool_decide (length (TICK_DELAY.pipe m) = TICK_DELAY.ticks m) then m
               else TICK_DELAY.set_pipe m (replicate (TICK_DELAY.ticks m) i) sX in
     match TICK_DELAY.pipe m1 !! (TICK_DELAY.ticks m - 1)%nat with
     | None => ub
     | Some out =>
         let p := if bool_decide (1 < TICK_DELAY.ticks m)%nat
                  then TICK_DELAY.shift_down (TICK_DELAY.ticks m - 1) (TICK_DELAY.pipe m1)
                  else TICK_DELAY.pipe m1 in
         TICK_DELAY.drive (TICK_DELAY.set_pipe m1 (<[0%nat := i]> p) (TICK_DELAY.last_out m1)) no out
     end) s =
  Some ((fst (td_step m i), no_need), put no (snd (td_step m i)) s).
Proof.
  intros Hv [_ Hwf]. unfold td_step. case_bool_decide as Ht; simpl; [by apply run_td_drive|].
  pose proof (td_pipe_length m i) as Hp. simpl in Hp.
  case_bool_decide as Hl.
  - destruct (lookup_lt_is_Some_2 (TICK_DELAY.pipe m) (TICK_DELAY.ticks m - 1)) as [o Eo]; [lia|].
    rewrite Eo. simpl. by rewrite run_td_drive.
  - destruct Hwf as [?|[?|HX]]; [done..|]. simpl.
    destruct (lookup_lt_is_Some_2 (replicate (TICK_DELAY.ticks m) i) (TICK_DELAY.ticks m - 1)) as [o Eo]; [lia|].
    rewrite Eo. simpl. rewrite run_td_drive by (simpl; by rewrite <-HX). done.
Qed.

Lemma TICK_DELAY_laws :
  reaction_laws TICK_DELAY.d_pins TICK_DELAY.update_digital_clk_define TICK_DELAY_reaction.
Proof.
  split.
  - intros m t meth s xs os m' ys Hwf Hi Ho Ha _ Hr. pose proof Hwf as [Hlen _].
    pose proof (fun no Hv i => run_td_body s m no i Hv Hwf) as Hbody.
    cbn [r_ins r_outs r_react r_agree TICK_DELAY_reaction] in *. unfold td_node in *.
    destruct m as [ps l h k pi lo]. cbn [TICK_DELAY.d_pins] in *. split_list ps Hlen.
    unfold TICK_DELAY.update_digital_clk_define. cbn [lookup list_lookup] in *.
    destruct (bool_decide (meth = before_all_clk)); cbn [negb].
    2:{ destruct (nodes p0); simplify_eq; [|done]. rewrite (Ha ltac:(eauto)) in Ho.
        by rewrite put_all_id. }
    do 2 run_head. destruct (nodes p0) as [no|]; [|by simplify_eq].
    rewrite (Ha ltac:(eauto)) in Ho. simpl in Ho, Hi. split_digs.
    destruct (nodes p) as [ni|]; simpl in Hi; split_digs; simpl in Hr.
    + run_head. rewrite Hbody by done. by destruct (td_step _ _); simplify_eq.
    + erewrite bind_run by reflexivity. rewrite Hbody by done. by destruct (td_step _ _); simplify_eq.
  - intros m n Hn. simpl in Hn. unfold td_node in Hn.
    destruct (TICK_DELAY.d_pins m !! 1%nat) as [p1|] eqn:E1; [|set_solver].
    destruct (nodes p1) as [n1|] eqn:En1; [|set_solver].
    destruct Hn as [Hn|Hn]; [|exists p1; split; [by eapply list_elem_of_lookup_2|set_solver]].
    destruct (TICK_DELAY.d_pins m !! 0%nat) as [p0|] eqn:E0; [|set_solver].
    exists p0. split; [by eapply list_elem_of_lookup_2|]. destruct (nodes p0); set_solver.
  - intros meth m xs m' ys [Hlen Hwf] _ Hr. cbn [r_ins r_outs r_react r_agree r_wf TICK_DELAY_reaction] in *.
    destruct (td_node 1 m) as [n1|] eqn:E1; [|by simplify_eq; rewrite E1; repeat split; auto].
    destruct (bool_decide (meth = before_all_clk)) eqn:Em.
    2:{ simplify_eq. rewrite E1. repeat split; auto. }
    destruct (td_step m _) as [m1 out] eqn:Es. simplify_eq.
    apply td_step_wf in Es as (Ep & Et & El & Hpl). unfold td_node in *. rewrite Ep, E1.
    repeat split; auto; try congruence.
    + rewrite Et. destruct (decide (TICK_DELAY.ticks m = 0%nat)); auto.
    + rewrite bool_decide_eq_false_2 by done. by rewrite El.
Qed.

(** ** Bit vectors

    The models with one node per bit skip the pins that are not connected. *)

Definition conn (ps : list pin) : list node_ptr := omap nodes ps.
Fixpoint conn_vals (f : nat -> dns) (i : nat) (ps : list pin) : list dns :=
  match ps with
  | [] => []
  | p :: ps' => match nodes p with Some _ => f i :: conn_vals f (S i) ps' | None => conn_vals f (S i) ps' end
  end.

Lemma conn_vals_length f i ps : length (conn_vals f i ps) = length (conn ps).
Proof.
  revert i. induction ps as [|p ps IH]; intros i; [done|]. simpl. unfold conn in *. simpl.
  destruct (nodes p); simpl; by rewrite IH.
Qed.

Lemma conn_elem ps n : n ∈ conn ps -> exists p, p ∈ ps /\ nodes p = Some n.
Proof. unfold conn. rewrite list_elem_of_omap. naive_solver. Qed.

Lemma conn_cons p ps : conn (p :: ps) = option_list (nodes p) ++ conn ps.
Proof. unfold conn. simpl. by destruct (nodes p). Qed.

Lemma run_drive_q_pins Ll Hl changed unknown v : forall ps' ps pre post s,
  ps = pre ++ ps' ++ post -> (forall n, n ∈ conn ps' -> is_Some (dig (d_nodes s) n)) ->
  drive_q_pins ps Ll Hl changed unknown v (seq (length pre) (length ps')) no_need s =
  Some (no_need, put_all (conn ps')
    (conn_vals (fun i => q_state unknown v (3 - Z.of_nat i)) (length pre) ps') s).
Proof.
  induction ps' as [|p ps' IH]; intros ps pre post s Hps Hd; simpl; [done|].
  unfold bind at 1, drive_q_pin.
  erewrite bind_run by (apply pin_nodes_run; rewrite Hps; by apply list_lookup_middle).
  specialize (IH ps (pre ++ [p]) post).
  rewrite length_app, Nat.add_1_r in IH. rewrite conn_cons in *.
  destruct (nodes p) as [n|] eqn:En; simpl.
  2:{ apply IH; [by rewrite Hps, <-app_assoc|done]. }
  destruct (Hd n) as [v0 Hv]; [set_solver|]. run_with run_get_num. cbn -[conn put_all]. run_head.
  set (out := q_state _ _ _).
  assert (E : (if changed || negb (dns_eqb v0 out) then
     if negb (dns_eqb v0 out) then (do* set_dn n out in do* insert_table n in ret no_need) s
     else ret no_need s else ret no_need s) = Some (no_need, put n out s)).
  { unfold put. rewrite Hv. destruct (dns_eqb v0 out); simpl; [by destruct changed|].
    rewrite orb_true_r. by erewrite bind_run by (eapply run_set_dn; eassumption). }
  replace ((if changed || negb (dns_eqb v0 out) then
     if negb (dns_eqb v0 out) then do* set_dn n out in do* insert_table n in ret no_need
     else ret no_need else ret no_need) s) with (Some (no_need, put n out s))
    by (rewrite <-E; by repeat case_match).
  rewrite IH; [done|by rewrite Hps, <-app_assoc|].
  intros m Hm. rewrite put_dig by eauto. case_decide; [eauto|]. apply Hd. set_solver.
Qed.

(** The eight-bit input: the bits of [value] on the connected pins. *)
Definition bits_of (m : EIGHT_BIT_INPUT.t) : list dns :=
  conn_vals (fun i => EIGHT_BIT_INPUT.bit_state (EIGHT_BIT_INPUT.value m) (7 - Z.of_nat i)) 0
    (EIGHT_BIT_INPUT.b_pins m).

Definition EIGHT_BIT_INPUT_reaction : reaction EIGHT_BIT_INPUT.t := {|
  r_ins := fun m => [];
  r_outs := fun m => conn (EIGHT_BIT_INPUT.b_pins m);
  r_react := fun _ m xs =>
    ({| EIGHT_BIT_INPUT.b_pins := EIGHT_BIT_INPUT.b_pins m; EIGHT_BIT_INPUT.b_Ll := EIGHT_BIT_INPUT.b_Ll m;
        EIGHT_BIT_INPUT.b_Hl := EIGHT_BIT_INPUT.b_Hl m; EIGHT_BIT_INPUT.value := EIGHT_BIT_INPUT.value m;
        EIGHT_BIT_INPUT.last_value := EIGHT_BIT_INPUT.value m |}, bits_of m);
  r_agree := fun m os => EIGHT_BIT_INPUT.last_value m = EIGHT_BIT_INPUT.value m -> os = bits_of m;
  r_wf := fun m => length (EIGHT_BIT_INPUT.b_pins m) = 8%nat
|}.

(** With [changed] the loop puts every bit; without, it touches nothing. *)
Lemma run_drive_bits m changed : forall ps' pre s,
  EIGHT_BIT_INPUT.b_pins m = pre ++ ps' -> (forall n, n ∈ conn ps' -> is_Some (dig (d_nodes s) n)) ->
  EIGHT_BIT_INPUT.drive_bits m changed (seq (length pre) (length ps')) no_need s =
  Some (no_need, if changed then put_all (conn ps')
    (conn_vals (fun i => EIGHT_BIT_INPUT.bit_state (EIGHT_BIT_INPUT.value m) (7 - Z.of_nat i))
       (length pre) ps') s else s).
Proof.
  induction ps' as [|p ps' IH]; intros pre s Hps Hd; simpl; [by destruct changed|].
  unfold bind at 1, EIGHT_BIT_INPUT.drive_bit.
  erewrite bind_run by (apply pin_nodes_run; rewrite Hps; by apply list_lookup_middle).
  specialize (IH (pre ++ [p])). rewrite length_app, Nat.add_1_r in IH. rewrite conn_cons in *.
  destruct (nodes p) as [n|] eqn:En; simpl.
  2:{ apply IH; [by rewrite Hps, <-app_assoc|done]. }
  destruct (Hd n) as [v0 Hv]; [set_solver|]. run_with run_get_num. cbn -[conn put_all].
  destruct changed.
  - run_head. simpl. rewrite IH; [done|by rewrite Hps, <-app_assoc|].
    intros k Hk. rewrite put_dig by eauto. case_decide; [eauto|]. apply Hd. set_solver.
  - simpl. apply IH; [by rewrite Hps, <-app_assoc|]. intros k Hk. apply Hd. set_solver.
Qed.

Lemma digs_is_Some ns l vs : digs ns l vs -> forall n, n ∈ l -> is_Some (dig ns n).
Proof. induction 1; set_solver. Qed.

Lemma EIGHT_BIT_INPUT_laws :
  reaction_laws EIGHT_BIT_INPUT.b_pins EIGHT_BIT_INPUT.update_digital_clk_define EIGHT_BIT_INPUT_reaction.
Proof.
  split.
  - intros m t meth s xs os m' ys Hwf _ Ho Ha _ Hr. simpl in *. simplify_eq.
    unfold EIGHT_BIT_INPUT.update_digital_clk_define.
    pose proof (run_drive_bits m (negb (EIGHT_BIT_INPUT.last_value m =? EIGHT_BIT_INPUT.value m))
      (EIGHT_BIT_INPUT.b_pins m) [] s eq_refl (digs_is_Some _ _ _ Ho)) as Hrun.
    rewrite Hwf in Hrun. erewrite bind_run by exact Hrun. unfold ret. f_equal. f_equal.
    destruct (Z.eqb_spec (EIGHT_BIT_INPUT.last_value m) (EIGHT_BIT_INPUT.value m)) as [E|E]; simpl; [|done].
    rewrite (Ha E) in Ho. by rewrite put_all_id.
  - intros m n [Hn|Hn]; [set_solver|]. by apply conn_elem.
  - intros meth m xs m' ys Hwf _ Hr. simpl in *. simplify_eq. repeat split; auto.
    apply conn_vals_length.
Qed.

(** The eight-bit display: the bits that are [H], and those that are unknown. *)
Definition display_bit (i : nat) (x : dns) (acc : Z * Z) : Z * Z :=
  let b := u8_wrap (Z.shiftl 1 (7 - Z.of_nat i)) in
  match z_to_x x with
  | sL => acc
  | sH => (Z.lor (fst acc) b, snd acc)
  | sX | sZ => (fst acc, Z.lor (snd acc) b)
  end.

Fixpoint display_bits (i : nat) (ps : list pin) (xs : list dns) (acc : Z * Z) : Z * Z :=
  match ps with
  | [] => acc
  | p :: ps' =>
      match nodes p, xs with
      | Some _, x :: xs' => display_bits (S i) ps' xs' (display_bit i x acc)
      | _, _ => display_bits (S i) ps' xs (display_bit i sX acc)
      end
  end.

Definition EIGHT_BIT_DISPLAY_reaction : reaction EIGHT_BIT_DISPLAY.t := {|
  r_ins := fun m => conn (EIGHT_BIT_DISPLAY.y_pins m);
  r_outs := fun m => [];
  r_react := fun _ m xs =>
    let '(v, um) := display_bits 0 (EIGHT_BIT_DISPLAY.y_pins m) xs (0, 0) in
    ({| EIGHT_BIT_DISPLAY.y_pins := EIGHT_BIT_DISPLAY.y_pins m;
        EIGHT_BIT_DISPLAY.y_Ll := EIGHT_BIT_DISPLAY.y_Ll m; EIGHT_BIT_DISPLAY.y_Hl := EIGHT_BIT_DISPLAY.y_Hl m;
        EIGHT_BIT_DISPLAY.value := v; EIGHT_BIT_DISPLAY.unknown_mask := um |}, []);
  r_agree := fun m os => True;
  r_wf := fun m => length (EIGHT_BIT_DISPLAY.y_pins m) = 8%nat
|}.

Lemma run_sample_bits m s : forall ps' pre xs acc,
  EIGHT_BIT_DISPLAY.y_pins m = pre ++ ps' -> digs (d_nodes s) (conn ps') xs ->
  EIGHT_BIT_DISPLAY.sample_bits m (seq (length pre) (length ps')) acc s =
  Some (display_bits (length pre) ps' xs acc, s).
Proof.
  induction ps' as [|p ps' IH]; intros pre xs acc Hps Hd; simpl; [done|].
  unfold bind at 1, EIGHT_BIT_DISPLAY.sample_bit.
  erewrite bind_run by (apply pin_nodes_run; rewrite Hps; by apply list_lookup_middle).
  specialize (IH (pre ++ [p])). rewrite length_app, Nat.add_1_r in IH.
  assert (Hps' : EIGHT_BIT_DISPLAY.y_pins m = (pre ++ [p]) ++ ps') by (by rewrite Hps, <-app_assoc).
  rewrite conn_cons in Hd. destruct (nodes p) as [n|] eqn:En; simpl in Hd.
  - apply Forall2_cons_inv_l in Hd as (x & xs' & Hx & Hd & ->). run_head.
    unfold display_bit. destruct (z_to_x x); simpl; by apply IH.
  - simpl. by destruct xs; apply IH.
Qed.

Lemma EIGHT_BIT_DISPLAY_laws :
  reaction_laws EIGHT_BIT_DISPLAY.y_pins EIGHT_BIT_DISPLAY.update_digital_clk_define EIGHT_BIT_DISPLAY_reaction.
Proof.
  split.
  - intros m t meth s xs os m' ys Hwf Hi Ho _ _ Hr. cbn [r_ins r_outs r_react EIGHT_BIT_DISPLAY_reaction r_wf] in *.
    unfold EIGHT_BIT_DISPLAY.update_digital_clk_define.
    pose proof (run_sample_bits m s (EIGHT_BIT_DISPLAY.y_pins m) [] xs (0, 0) eq_refl Hi) as Hrun.
    rewrite Hwf in Hrun. erewrite bind_run by exact Hrun. simpl length in *.
    destruct (display_bits 0 _ xs (0, 0)) as [v um]. by simplify_eq.
  - intros m n [Hn|Hn]; [|set_solver]. by apply conn_elem.
  - intros meth m xs m' ys Hwf _ Hr. cbn [r_ins r_outs r_react r_agree EIGHT_BIT_DISPLAY_reaction r_wf] in *.
    destruct (display_bits 0 _ xs (0, 0)) as [v um] eqn:E. simplify_eq. simpl. rewrite E. by repeat split.
Qed.

(** ** The four-bit generators

    [q3..q0] are pins 0..3, the clock is pin 4, the pulled-up input pin 5. *)

Definition pin_at (ps : list pin) (i : nat) : option node_ptr :=
  match ps !! i with Some p => nodes p | None => None end.
Definition pullup (x : option dns) : dns :=
  match x with None => sH | Some s => if dns_eqb s sZ then sH else s end.

Definition gen_reaction {A} (pins_of : A -> list pin) (step : A -> dns -> dns -> A) (q : A -> nat -> dns)
    : reaction A := {|
  r_ins := fun m => match pin_at (pins_of m) 4 with
                    | Some c => c :: option_list (pin_at (pins_of m) 5) | None => [] end;
  r_outs := fun m => match pin_at (pins_of m) 4 with Some _ => conn (take 4 (pins_of m)) | None => [] end;
  r_react := fun _ m xs =>
    match pin_at (pins_of m) 4, xs with
    | Some _, c :: xs' =>
        let m' := step m (z_to_x c) (pullup (head xs')) in (m', conn_vals (q m') 0 (take 4 (pins_of m)))
    | _, _ => (m, [])
    end;
  r_agree := fun m os => True;
  r_wf := fun m => length (pins_of m) = 6%nat
|}.

Lemma run_read_pullup s l h (n : option node_ptr) xs :
  digs (d_nodes s) (option_list n) xs -> read_pullup l h n s = Some (pullup (head xs), s).
Proof.
  unfold read_pullup. destruct n as [n|]; simpl; intros Hd; split_digs; [|done].
  unfold bind at 1. run_with run_get_num. cbn. by erewrite run_get_dn by eassumption.
Qed.

Section Generator.
Context {A : Type} (pins_of : A -> list pin) (step : A -> dns -> dns -> A) (q : A -> nat -> dns).
Hypothesis (Hpins : forall m c e, pins_of (step m c e) = pins_of m).
Hypothesis (Hidem : forall m c e, step (step m c e) c e = step m c e).

Lemma gen_ports m n :
  n ∈ r_ins (gen_reaction pins_of step q) m \/ n ∈ r_outs (gen_reaction pins_of step q) m ->
  exists p, p ∈ pins_of m /\ nodes p = Some n.
Proof using Type.
  clear Hpins Hidem. assert (Hat : forall i n, pin_at (pins_of m) i = Some n -> exists p, p ∈ pins_of m /\ nodes p = Some n).
  { intros i k. unfold pin_at. destruct (pins_of m !! i) as [p|] eqn:E; [|done]. intros Hk.
    exists p. split; [by eapply list_elem_of_lookup_2|done]. }
  simpl. destruct (pin_at (pins_of m) 4) as [c|] eqn:E4; [|set_solver].
  intros [Hn|Hn].
  - apply elem_of_cons in Hn as [->|Hn]; [by eapply Hat|].
    destruct (pin_at (pins_of m) 5) eqn:E5; [|set_solver].
    apply list_elem_of_singleton in Hn as ->. by eapply Hat.
  - apply conn_elem in Hn as (p & Hp & ?). exists p. split; [|done].
    rewrite <-(take_drop 4 (pins_of m)). set_solver.
Qed.

Lemma gen_keep meth m xs m' ys :
  let R := gen_reaction pins_of step q in
  r_wf R m -> length xs = length (r_ins R m) -> r_react R meth m xs = (m', ys) ->
  r_wf R m' /\ pins_of m' = pins_of m /\ r_ins R m' = r_ins R m /\ r_outs R m' = r_outs R m /\
  length ys = length (r_outs R m) /\ r_agree R m' ys /\ r_react R update_table m' xs = (m', ys).
Proof using Hpins Hidem.
  intros R Hwf Hlen Hr. simpl in *.
  destruct (pin_at (pins_of m) 4) as [c|] eqn:E4; simplify_eq; [|rewrite E4; by repeat split].
  destruct xs as [|x xs]; [done|]. simplify_eq. rewrite !Hpins, E4, Hidem. repeat split; [done|].
  apply conn_vals_length.
Qed.

End Generator.

Definition COUNTER4_step (m : COUNTER4.t) (clk en : dns) : COUNTER4.t :=
  let c := COUNTER4.next m clk en in
  {| COUNTER4.n_pins := COUNTER4.n_pins c; COUNTER4.n_Ll := COUNTER4.n_Ll c; COUNTER4.n_Hl := COUNTER4.n_Hl c;
     COUNTER4.value := COUNTER4.value c; COUNTER4.unknown := COUNTER4.unknown c;
     COUNTER4.last_clk := COUNTER4.last_clk c; COUNTER4.last_value := COUNTER4.value c;
     COUNTER4.last_unknown := COUNTER4.unknown c |}.
Definition COUNTER4_q (m : COUNTER4.t) (i : nat) : dns :=
  q_state (COUNTER4.unknown m) (COUNTER4.value m) (3 - Z.of_nat i).

Ltac gen_idem m :=
  destruct m as [? ? ? ? [] ? ? ?];
  repeat match goal with x : digital_node_statement_t |- _ => destruct x end; reflexivity.

Lemma COUNTER4_pins m c e : COUNTER4.n_pins (COUNTER4_step m c e) = COUNTER4.n_pins m.
Proof. unfold COUNTER4_step, COUNTER4.next. simpl. by repeat case_match. Qed.

Lemma COUNTER4_laws :
  reaction_laws COUNTER4.n_pins COUNTER4.update_digital_clk_define
    (gen_reaction COUNTER4.n_pins COUNTER4_step COUNTER4_q).
Proof.
  split.
  - intros m t meth s xs os m' ys Hwf Hi Ho _ _ Hr. cbn [r_ins r_outs r_react r_wf gen_reaction] in *.
    unfold COUNTER4.update_digital_clk_define. pose proof (COUNTER4_pins m) as Hp.
    destruct (COUNTER4.n_pins m) as [|p0 [|p1 [|p2 [|p3 [|p4 [|p5 [|? ?]]]]]]] eqn:Eps; simpl in Hwf; try lia.
    do 2 run_head. unfold pin_at in *. cbn [lookup list_lookup take] in *.
    destruct (nodes p4) as [nclk|]; [|by simplify_eq].
    apply Forall2_cons_inv_l in Hi as (x & xs' & Hx & Hi & ->). run_head.
    erewrite bind_run by (by apply run_read_pullup).
    set (c := COUNTER4.next m (z_to_x x) (pullup (head xs'))) in *.
    pose proof (run_drive_q_pins (COUNTER4.n_Ll c) (COUNTER4.n_Hl c)
      (negb (COUNTER4.last_value c =? COUNTER4.value c) || negb (eqb (COUNTER4.last_unknown c) (COUNTER4.unknown c)))
      (COUNTER4.unknown c) (COUNTER4.value c) [p0; p1; p2; p3] (COUNTER4.n_pins c) [] [p4; p5] s
      (Hp (z_to_x x) (pullup (head xs'))) (digs_is_Some _ _ _ Ho)) as Hrun.
    erewrite bind_run by exact Hrun. by simplify_eq.
  - apply gen_ports.
  - apply gen_keep; [apply COUNTER4_pins|]. intros m c e. gen_idem m.
Qed.

Definition RANDOM_GENERATOR4_step (m : RANDOM_GENERATOR4.t) (clk rstn : dns) : RANDOM_GENERATOR4.t :=
  let c := RANDOM_GENERATOR4.next m clk rstn in
  {| RANDOM_GENERATOR4.r_pins := RANDOM_GENERATOR4.r_pins c; RANDOM_GENERATOR4.r_Ll := RANDOM_GENERATOR4.r_Ll c;
     RANDOM_GENERATOR4.r_Hl := RANDOM_GENERATOR4.r_Hl c; RANDOM_GENERATOR4.state := RANDOM_GENERATOR4.state c;
     RANDOM_GENERATOR4.unknown := RANDOM_GENERATOR4.unknown c;
     RANDOM_GENERATOR4.last_clk := RANDOM_GENERATOR4.last_clk c;
     RANDOM_GENERATOR4.last_state := RANDOM_GENERATOR4.state c;
     RANDOM_GENERATOR4.last_unknown := RANDOM_GENERATOR4.unknown c |}.
Definition RANDOM_GENERATOR4_q (m : RANDOM_GENERATOR4.t) (i : nat) : dns :=
  q_state (RANDOM_GENERATOR4.unknown m) (RANDOM_GENERATOR4.state m) (3 - Z.of_nat i).

Lemma RANDOM_GENERATOR4_pins m c e :
  RANDOM_GENERATOR4.r_pins (RANDOM_GENERATOR4_step m c e) = RANDOM_GENERATOR4.r_pins m.
Proof. unfold RANDOM_GENERATOR4_step, RANDOM_GENERATOR4.next. simpl. by repeat case_match. Qed.

Lemma RANDOM_GENERATOR4_laws :
  reaction_laws RANDOM_GENERATOR4.r_pins RANDOM_GENERATOR4.update_digital_clk_define
    (gen_reaction RANDOM_GENERATOR4.r_pins RANDOM_GENERATOR4_step RANDOM_GENERATOR4_q).
Proof.
  split.
  - intros m t meth s xs os m' ys Hwf Hi Ho _ _ Hr. cbn [r_ins r_outs r_react r_wf gen_reaction] in *.
    unfold RANDOM_GENERATOR4.update_digital_clk_define. pose proof (RANDOM_GENERATOR4_pins m) as Hp.
    destruct (RANDOM_GENERATOR4.r_pins m) as [|p0 [|p1 [|p2 [|p3 [|p4 [|p5 [|? ?]]]]]]] eqn:Eps;
      simpl in Hwf; try lia.
    do 2 run_head. unfold pin_at in *. cbn [lookup list_lookup take] in *.
    destruct (nodes p4) as [nclk|]; [|by simplify_eq].
    apply Forall2_cons_inv_l in Hi as (x & xs' & Hx & Hi & ->). run_head.
    erewrite bind_run by (by apply run_read_pullup).
    set (c := RANDOM_GENERATOR4.next m (z_to_x x) (pullup (head xs'))) in *.
    pose proof (run_drive_q_pins (RANDOM_GENERATOR4.r_Ll c) (RANDOM_GENERATOR4.r_Hl c)
      (negb (RANDOM_GENERATOR4.last_state c =? RANDOM_GENERATOR4.state c) ||
       negb (eqb (RANDOM_GENERATOR4.last_unknown c) (RANDOM_GENERATOR4.unknown c)))
      (RANDOM_GENERATOR4.unknown c) (RANDOM_GENERATOR4.state c) [p0; p1; p2; p3]
      (RANDOM_GENERATOR4.r_pins c) [] [p4; p5] s
      (Hp (z_to_x x) (pullup (head xs'))) (digs_is_Some _ _ _ Ho)) as Hrun.
    erewrite bind_run by exact Hrun. by simplify_eq.
  - apply gen_ports.
  - apply gen_keep; [apply RANDOM_GENERATOR4_pins|]. intros m c e. gen_idem m.
Qed.

(** ** The sum of the models

    A device seen as a value of its own model type, with that type's reaction.
    [TRI] has none: it schedules its output node at every evaluation, so it is
    not well formed here. *)

Definition TRI_reaction : reaction TRI.t := {|
  r_ins := fun m => []; r_outs := fun m => []; r_react := fun _ m xs => (m, []);
  r_agree := fun m os => True; r_wf := fun m => False
|}.

Lemma TRI_laws : reaction_laws TRI.t_pins TRI.update_digital_clk_define TRI_reaction.
Proof. split; simpl; try done. set_solver. Qed.

Record view : Type := mk_view {
  v_ty : Type; v_inj : v_ty -> device; v_val : v_ty; v_rx : reaction v_ty
}.
Definition as_view {A} (f : A -> device) (m : A) (R : reaction A) : view :=
  {| v_ty := A; v_inj := f; v_val := m; v_rx := R |}.

Definition device_view (d : device) : view :=
  match d with
  | m_AND m => as_view m_AND m (gate2_reaction AND.output_res)
  | m_OR m => as_view m_OR m (gate2_reaction OR.output_res)
  | m_XOR m => as_view m_XOR m (gate2_reaction XOR.output_res)
  | m_NAND m => as_view m_NAND m (gate2_reaction NAND.output_res)
  | m_NOR m => as_view m_NOR m (gate2_reaction NOR.output_res)
  | m_XNOR m => as_view m_XNOR m (gate2_reaction XNOR.output_res)
  | m_IMP m => as_view m_IMP m (gate2_reaction IMP.output_res)
  | m_NIMP m => as_view m_NIMP m (gate2_reaction NIMP.output_res)
  | m_NOT m => as_view m_NOT m (gate1_reaction NOT.output_res)
  | m_YES m => as_view m_YES m (gate1_reaction YES.output_res)
  | m_INPUT m => as_view m_INPUT m INPUT_reaction
  | m_OUTPUT m => as_view m_OUTPUT m OUTPUT_reaction
  | m_CASE_EQ m => as_view m_CASE_EQ m CASE_EQ_reaction
  | m_IS_UNKNOWN m => as_view m_IS_UNKNOWN m IS_UNKNOWN_reaction
  | m_RESOLVE2 m => as_view m_RESOLVE2 m RESOLVE2_reaction
  | m_TRI m => as_view m_TRI m TRI_reaction
  | m_SCHMITT_TRIGGER m => as_view m_SCHMITT_TRIGGER m SCHMITT_TRIGGER_reaction
  | m_TICK_DELAY m => as_view m_TICK_DELAY m TICK_DELAY_reaction
  | m_EIGHT_BIT_INPUT m => as_view m_EIGHT_BIT_INPUT m EIGHT_BIT_INPUT_reaction
  | m_EIGHT_BIT_DISPLAY m => as_view m_EIGHT_BIT_DISPLAY m EIGHT_BIT_DISPLAY_reaction
  | m_DFF m => as_view m_DFF m (ff_reaction DFF.f_pins 2 DFF_next DFF.q)
  | m_DFF_ARSTN m => as_view m_DFF_ARSTN m (ff_reaction DFF_ARSTN.a_pins 3 DFF_ARSTN_next DFF_ARSTN.q)
  | m_DLATCH m => as_view m_DLATCH m (ff_reaction DLATCH.l_pins 2 DLATCH_next DLATCH.q)
  | m_TFF m => as_view m_TFF m (ff_reaction TFF.f_pins 2 TFF_next TFF.q)
  | m_T_BAR_FF m => as_view m_T_BAR_FF m (ff_reaction T_BAR_FF.f_pins 2 T_BAR_FF_next T_BAR_FF.q)
  | m_JKFF m => as_view m_JKFF m (ff_reaction JKFF.j_pins 3 JKFF_next JKFF.q)
  | m_COUNTER4 m => as_view m_COUNTER4 m (gen_reaction COUNTER4.n_pins COUNTER4_step COUNTER4_q)
  | m_RANDOM_GENERATOR4 m => as_view m_RANDOM_GENERATOR4 m (gen_reaction RANDOM_GENERATOR4.r_pins RANDOM_GENERATOR4_step RANDOM_GENERATOR4_q)
  | m_HALF_ADDER m => as_view m_HALF_ADDER m (arith2_reaction 2 (pair_of2 HALF_ADDER.outputs))
  | m_HALF_SUB m => as_view m_HALF_SUB m (arith2_reaction 2 (pair_of2 HALF_SUB.outputs))
  | m_FULL_ADDER m => as_view m_FULL_ADDER m (arith2_reaction 3 (pair_of3 FULL_ADDER.outputs))
  | m_FULL_SUB m => as_view m_FULL_SUB m (arith2_reaction 3 (pair_of3 FULL_SUB.outputs))
  | m_MUL2 m => as_view m_MUL2 m MUL2_reaction
  end.

Definition device_reaction : reaction device := {|
  r_ins := fun d => let v := device_view d in r_ins (v_rx v) (v_val v);
  r_outs := fun d => let v := device_view d in r_outs (v_rx v) (v_val v);
  r_react := fun meth d xs =>
    let v := device_view d in
    let '(m', ys) := r_react (v_rx v) meth (v_val v) xs in (v_inj v m', ys);
  r_agree := fun d os => let v := device_view d in r_agree (v_rx v) (v_val v) os;
  r_wf := fun d => let v := device_view d in r_wf (v_rx v) (v_val v)
|}.

(** What is needed of one constructor. *)
Lemma lift_laws {A} (f : A -> device) (R : reaction A) pins_of update :
  reaction_laws pins_of update R ->
  (forall m, device_view (f m) = as_view f m R) -> (forall m, device_pins (f m) = pins_of m) ->
  (forall m t meth, device_update (f m) t meth = lift_model f (update m t meth)) ->
  (forall m t meth s xs os d' ys,
    r_wf device_reaction (f m) -> digs (d_nodes s) (r_ins device_reaction (f m)) xs ->
    digs (d_nodes s) (r_outs device_reaction (f m)) os -> r_agree device_reaction (f m) os ->
    NoDup (r_outs device_reaction (f m)) -> r_react device_reaction meth (f m) xs = (d', ys) ->
    device_update (f m) t meth s = Some ((d', no_need), put_all (r_outs device_reaction (f m)) ys s)) /\
  (forall m n, n ∈ r_ins device_reaction (f m) \/ n ∈ r_outs device_reaction (f m) ->
    exists p, p ∈ device_pins (f m) /\ nodes p = Some n) /\
  (forall meth m xs d' ys,
    r_wf device_reaction (f m) -> length xs = length (r_ins device_reaction (f m)) ->
    r_react device_reaction meth (f m) xs = (d', ys) ->
    r_wf device_reaction d' /\ device_pins d' = device_pins (f m) /\
    r_ins device_reaction d' = r_ins device_reaction (f m) /\
    r_outs device_reaction d' = r_outs device_reaction (f m) /\
    length ys = length (r_outs device_reaction (f m)) /\ r_agree device_reaction d' ys /\
    r_react device_reaction update_table d' xs = (d', ys)).
Proof.
  intros [Hrun Hports Hkeep] Hv Hp Hu. simpl. split; [|split].
  - intros m t meth s xs os d' ys. rewrite Hv, Hu; simpl. intros Hwf Hi Ho Ha Hnd Hr.
    destruct (r_react R meth m xs) as [m' ys'] eqn:E; simplify_eq. unfold lift_model.
    erewrite bind_run by (eapply Hrun; eassumption). done.
  - intros m n. rewrite Hv, Hp. apply Hports.
  - intros meth m xs d' ys. rewrite Hv; simpl. intros Hwf Hlen Hr.
    destruct (r_react R meth m xs) as [m' ys'] eqn:E; simplify_eq. rewrite Hv, !Hp; simpl.
    apply Hkeep in E as (? & ? & ? & ? & ? & ? & ->); [|done..]. by repeat split.
Qed.

(** Every digital model but [TRI] is a reaction. *)
Lemma device_laws : reaction_laws device_pins device_update device_reaction.
Proof.
  assert (Hall : forall d,
    (exists A (f : A -> device) (R : reaction A) pins_of update m, d = f m /\
      reaction_laws pins_of update R /\
      (forall m, device_view (f m) = as_view f m R) /\ (forall m, device_pins (f m) = pins_of m) /\
      (forall m t meth, device_update (f m) t meth = lift_model f (update m t meth)))).
  { intros d; destruct d as [m|m|m|m|m|m|m|m|m|m|m|m|m|m|m|m|m|m|m|m|m|m|m|m|m|m|m|m|m|m|m|m|m].
    - eexists _, m_AND, _, _, _, m. split; [done|]. by split; [apply (gate2_laws AND.output_res)|].
    - eexists _, m_OR, _, _, _, m. split; [done|]. by split; [apply (gate2_laws OR.output_res)|].
    - eexists _, m_XOR, _, _, _, m. split; [done|]. by split; [apply (gate2_laws XOR.output_res)|].
    - eexists _, m_NAND, _, _, _, m. split; [done|]. by split; [apply (gate2_laws NAND.output_res)|].
    - eexists _, m_NOR, _, _, _, m. split; [done|]. by split; [apply (gate2_laws NOR.output_res)|].
    - eexists _, m_XNOR, _, _, _, m. split; [done|]. by split; [apply (gate2_laws XNOR.output_res)|].
    - eexists _, m_IMP, _, _, _, m. split; [done|]. by split; [apply (gate2_laws IMP.output_res)|].
    - eexists _, m_NIMP, _, _, _, m. split; [done|]. by split; [apply (gate2_laws NIMP.output_res)|].
    - eexists _, m_NOT, _, _, _, m. split; [done|]. by split; [apply (gate1_laws NOT.output_res)|].
    - eexists _, m_YES, _, _, _, m. split; [done|]. by split; [apply (gate1_laws YES.output_res)|].
    - eexists _, m_INPUT, _, _, _, m. split; [done|]. by split; [apply INPUT_laws|].
    - eexists _, m_OUTPUT, _, _, _, m. split; [done|]. by split; [apply OUTPUT_laws|].
    - eexists _, m_CASE_EQ, _, _, _, m. split; [done|]. by split; [apply CASE_EQ_laws|].
    - eexists _, m_IS_UNKNOWN, _, _, _, m. split; [done|]. by split; [apply IS_UNKNOWN_laws|].
    - eexists _, m_RESOLVE2, _, _, _, m. split; [done|]. by split; [apply RESOLVE2_laws|].
    - eexists _, m_TRI, _, _, _, m. split; [done|]. by split; [apply TRI_laws|].
    - eexists _, m_SCHMITT_TRIGGER, _, _, _, m. split; [done|]. by split; [apply SCHMITT_TRIGGER_laws|].
    - eexists _, m_TICK_DELAY, _, _, _, m. split; [done|]. by split; [apply TICK_DELAY_laws|].
    - eexists _, m_EIGHT_BIT_INPUT, _, _, _, m. split; [done|]. by split; [apply EIGHT_BIT_INPUT_laws|].
    - eexists _, m_EIGHT_BIT_DISPLAY, _, _, _, m. split; [done|]. by split; [apply EIGHT_BIT_DISPLAY_laws|].
    - eexists _, m_DFF, _, _, _, m. split; [done|]. by split; [apply DFF_laws|].
    - eexists _, m_DFF_ARSTN, _, _, _, m. split; [done|]. by split; [apply DFF_ARSTN_laws|].
    - eexists _, m_DLATCH, _, _, _, m. split; [done|]. by split; [apply DLATCH_laws|].
    - eexists _, m_TFF, _, _, _, m. split; [done|]. by split; [apply TFF_laws|].
    - eexists _, m_T_BAR_FF, _, _, _, m. split; [done|]. by split; [apply T_BAR_FF_laws|].
    - eexists _, m_JKFF, _, _, _, m. split; [done|]. by split; [apply JKFF_laws|].
    - eexists _, m_COUNTER4, _, _, _, m. split; [done|]. by split; [apply COUNTER4_laws|].
    - eexists _, m_RANDOM_GENERATOR4, _, _, _, m. split; [done|]. by split; [apply RANDOM_GENERATOR4_laws|].
    - eexists _, m_HALF_ADDER, _, _, _, m. split; [done|]. by split; [apply (half_laws HALF_ADDER.outputs)|].
    - eexists _, m_FULL_ADDER, _, _, _, m. split; [done|]. by split; [apply (full_laws FULL_ADDER.outputs)|].
    - eexists _, m_HALF_SUB, _, _, _, m. split; [done|]. by split; [apply (half_laws HALF_SUB.outputs)|].
    - eexists _, m_FULL_SUB, _, _, _, m. split; [done|]. by split; [apply (full_laws FULL_SUB.outputs)|].
    - eexists _, m_MUL2, _, _, _, m. split; [done|]. by split; [apply MUL2_laws|].
  }
  split.
  - intros d. destruct (Hall d) as (A & f & R & po & u & m & -> & HL & Hv & Hp & Hu).
    intros t meth s xs os m' ys. eapply (lift_laws f R po u HL Hv Hp Hu).
  - intros d. destruct (Hall d) as (A & f & R & po & u & m & -> & HL & Hv & Hp & Hu).
    apply (lift_laws f R po u HL Hv Hp Hu).
  - intros meth d. destruct (Hall d) as (A & f & R & po & u & m & -> & HL & Hv & Hp & Hu).
    apply (lift_laws f R po u HL Hv Hp Hu).
Qed.

(** ** The contract as an interface

    What the engine's theorems assume of the implementation type. *)
Class ReactiveModel (impl : Type) `{ModelImpl impl} := {
  rm : reaction impl;
  rm_laws : reaction_laws generate_pin_view update_digital_clk rm;
  rm_digital : forall d, r_wf rm d -> get_device_type d = digital
}.

#[export, refine] Instance device_reactive : ReactiveModel device := {| rm := device_reaction |}.
Proof. - exact device_laws. - done. Defined.
