(* ===== verification/Settle.v ===== *)
(** * Settle: the digital tick of a digital circuit

    Against the contract [ReactiveModel]: in a wired circuit the tick never
    runs into undefined behaviour; the event loop keeps every model stable or
    scheduled, so that an emptied table means that every model is stable; and
    the loop empties the table when the models can be ranked so that signals
    flow from lower to higher ranks. *)

From Stdlib Require Import ZArith Lia.
From stdpp Require Import base list gmap strings.
From S2P Require Import Prelude Store Logic4 Model Reactive Reaction Reactions Engine.

Open Scope Z_scope.

Section Settle.
Context {impl : Type} `{ReactiveModel impl}.

Abbreviation circ := (circult impl).
Abbreviation ins := (r_ins rm).
Abbreviation outs := (r_outs rm).

(** ** Wired circuits

    Pins and nodes point at each other, every pin knows its model, every port
    of a model is a digital node, and a node has at most one driver. *)
Record wired (c : circ) : Prop := mk_wired {
  w_wf : forall ip d, st_impls c !! ip = Some d -> r_wf rm d;
  w_back : forall n nd p, st_nodes c !! n = Some nd -> p ∈ pins nd ->
    exists d pn mp mb, st_impls c !! p.1 = Some d /\ generate_pin_view d !! N.to_nat p.2 = Some pn /\
      model pn = Some mp /\ st_models c !! mp = Some mb /\ ptr mb = Some p.1;
  w_fwd : forall ip d i pn n, st_impls c !! ip = Some d -> generate_pin_view d !! i = Some pn ->
    nodes pn = Some n -> exists nd, st_nodes c !! n = Some nd /\ (ip, N.of_nat i) ∈ pins nd;
  w_dig : forall ip d n, st_impls c !! ip = Some d -> n ∈ ins d \/ n ∈ outs d -> is_Some (dig (st_nodes c) n);
  w_nodup : forall ip d, st_impls c !! ip = Some d -> NoDup (outs d);
  w_single : forall ip ip' d d' n, st_impls c !! ip = Some d -> st_impls c !! ip' = Some d' ->
    n ∈ outs d -> n ∈ outs d' -> ip = ip';
  w_agree : forall ip d os, st_impls c !! ip = Some d -> digs (st_nodes c) (outs d) os -> r_agree rm d os;
  w_tables : forall n, n ∈ cur_tables c \/ n ∈ always_tables (digital_update_tables c) ->
    is_Some (st_nodes c !! n);
  w_sorted : osorted (cur_tables c);
  w_clocked : forall mp, mp ∈ before_all_clk_digital_model c \/ mp ∈ after_all_clk_digital_model c ->
    exists mb ip d, st_models c !! mp = Some mb /\ ptr mb = Some ip /\ st_impls c !! ip = Some d
}.

(** A stable model: evaluating it changes neither it nor its outputs. *)
Definition quiescent (ns : gmap node_ptr node_t) (d : impl) : Prop :=
  exists xs os, digs ns (ins d) xs /\ digs ns (outs d) os /\ r_react rm update_table d xs = (d, os).

(** The state after an evaluation of the model at [ip]. *)
Definition after_update (c : circ) (ip : impl_ptr) (d' : impl) (s' : dstate) : circ :=
  set_digital c (d_nodes s') (<[ip := d']> (st_impls c))
    {| always_tables := always_tables (digital_update_tables c); tables := d_tables s' |} (digital_out c).

Definition here (c : circ) : dstate := {| d_nodes := st_nodes c; d_tables := cur_tables c |}.

Lemma ports_digs c ip d :
  wired c -> st_impls c !! ip = Some d ->
  exists xs os, digs (st_nodes c) (ins d) xs /\ digs (st_nodes c) (outs d) os.
Proof.
  intros W Hd. destruct (digs_exists (st_nodes c) (ins d)) as [xs ?]; [eauto using w_dig|].
  destruct (digs_exists (st_nodes c) (outs d)) as [os ?]; [eauto using w_dig|]. eauto.
Qed.

Lemma dig_shape ns ns' n :
  same_shape ns ns' -> is_Some (ns' !! n) -> is_Some (ns !! n).
Proof. intros Hs [nd E]. specialize (Hs n). rewrite E in Hs. destruct (ns !! n); [eauto|done]. Qed.

Lemma shape_pins ns ns' n nd' :
  same_shape ns ns' -> ns' !! n = Some nd' -> exists nd, ns !! n = Some nd /\ pins nd = pins nd'.
Proof.
  intros Hs E. specialize (Hs n). rewrite E in Hs. destruct (ns !! n) as [nd|]; [|done].
  exists nd. split; [done|]. unfold node_shape in Hs. simpl in Hs. congruence.
Qed.

(** One evaluation of a model in a wired circuit: it runs, the reaction says
    what it does, and the circuit stays wired. *)
Section Eval.
Context (c : circ) (W : wired c) (ip : impl_ptr) (d : impl) (Hd : st_impls c !! ip = Some d).
Context (meth : digital_update_method_t) (xs os ys : list dns) (d' : impl).
Hypothesis (Hxs : digs (st_nodes c) (ins d) xs) (Hos : digs (st_nodes c) (outs d) os).
Hypothesis (Hr : r_react rm meth d xs = (d', ys)).
Let c' := after_update c ip d' (put_all (outs d) ys (here c)).

Lemma eval_keep :
  r_wf rm d' /\ generate_pin_view d' = generate_pin_view d /\ ins d' = ins d /\ outs d' = outs d /\
  length ys = length (outs d) /\ r_agree rm d' ys /\ r_react rm update_table d' xs = (d', ys).
Proof using All.
  eapply (l_keep _ _ _ rm_laws); [by eapply w_wf| |exact Hr]. symmetry. by eapply digs_length.
Qed.

Lemma eval_run mp mb :
  st_models c !! mp = Some mb -> ptr mb = Some ip -> call_update c mp meth = Some c'.
Proof using All.
  intros Hm Hp. unfold call_update. rewrite Hm, Hp, Hd.
  rewrite (l_run _ _ _ rm_laws d (tr_duration c) meth (here c) xs os d' ys); simpl;
    eauto using w_wf, w_nodup, w_agree.
Qed.

Lemma eval_impl ip2 e : st_impls c' !! ip2 = Some e ->
  (ip2 = ip /\ e = d') \/ (ip2 <> ip /\ st_impls c !! ip2 = Some e).
Proof using All.
  unfold c', after_update; simpl. destruct (decide (ip2 = ip)) as [->|Hne].
  - rewrite lookup_insert_eq. intros [= ->]. auto.
  - rewrite lookup_insert_ne by done. auto.
Qed.

(** The wiring of a model is the one of the model it came from. *)
Lemma eval_origin ip2 e : st_impls c' !! ip2 = Some e ->
  exists e0, st_impls c !! ip2 = Some e0 /\ generate_pin_view e = generate_pin_view e0 /\
    ins e = ins e0 /\ outs e = outs e0 /\ r_wf rm e.
Proof using All.
  intros E. apply eval_impl in E as [[-> ->]|[_ E]].
  - exists d. destruct eval_keep as (? & ? & ? & ? & _). auto.
  - exists e. eauto 6 using w_wf.
Qed.

Lemma eval_survives ip2 e0 : st_impls c !! ip2 = Some e0 ->
  exists e, st_impls c' !! ip2 = Some e /\ generate_pin_view e = generate_pin_view e0.
Proof using All.
  intros E. unfold c', after_update; simpl. destruct (decide (ip2 = ip)) as [->|Hne].
  - exists d'. rewrite lookup_insert_eq. split; [done|]. destruct eval_keep as (_ & -> & _). congruence.
  - exists e0. by rewrite lookup_insert_ne.
Qed.

Lemma eval_digs_outs : digs (st_nodes c') (outs d) ys.
Proof using All.
  apply put_all_digs; [by eapply w_nodup|by destruct eval_keep as (_ & _ & _ & _ & -> & _)|].
  intros n Hn. simpl. eauto using w_dig.
Qed.

(** Other models' outputs are not touched. *)
Lemma eval_other_outs ip2 e : ip2 <> ip -> st_impls c !! ip2 = Some e ->
  forall n, n ∈ outs e -> st_nodes c' !! n = st_nodes c !! n.
Proof using All.
  intros Hne He n Hn. apply (put_all_frame (outs d) ys (here c)). intros Hn'.
  apply Hne. by eapply (w_single c W ip2 ip e d n).
Qed.

Lemma eval_wired : wired c'.
Proof using All.
  pose proof (put_all_shape (outs d) ys (here c)) as Hs. simpl in Hs.
  split.
  - intros ip2 e E. by apply eval_origin in E as (? & _ & _ & _ & _ & ?).
  - intros n nd p Hn Hp. destruct (shape_pins _ _ _ _ Hs Hn) as (nd0 & E0 & Ep).
    rewrite <-Ep in Hp. destruct (w_back c W n nd0 p E0 Hp) as (e0 & pn & mp & mb & He & Hpn & Hm & Hmb & Hpt).
    destruct (eval_survives _ _ He) as (e & He' & Epv). exists e, pn, mp, mb. by rewrite Epv.
  - intros ip2 e i pn n E. apply eval_origin in E as (e0 & E0 & Ep & _). rewrite Ep. intros Hi Hpn.
    destruct (w_fwd c W ip2 e0 i pn n E0 Hi Hpn) as (nd & Hn & Hin).
    specialize (Hs n). rewrite Hn in Hs. unfold c', after_update; simpl.
    destruct (d_nodes (put_all (outs d) ys (here c)) !! n) as [nd'|]; [|done].
    exists nd'. split; [done|]. unfold node_shape in Hs. simpl in Hs.
    assert (pins nd = pins nd') as <- by congruence. done.
  - intros ip2 e n E. apply eval_origin in E as (e0 & E0 & _ & Ei & Eo & _). rewrite Ei, Eo. intros Hn.
    apply put_all_dig_some. simpl. eauto using w_dig.
  - intros ip2 e E. apply eval_origin in E as (e0 & E0 & _ & _ & -> & _). eauto using w_nodup.
  - intros ip1 ip2 e1 e2 n E1 E2. apply eval_origin in E1 as (f1 & F1 & _ & _ & -> & _).
    apply eval_origin in E2 as (f2 & F2 & _ & _ & -> & _). by eapply (w_single c W).
  - intros ip2 e ws E Hws. apply eval_impl in E as [[-> ->]|[Hne E]].
    + destruct eval_keep as (_ & _ & _ & Eo & _ & Ha & _). rewrite Eo in Hws.
      by rewrite (digs_functional _ _ _ _ Hws eval_digs_outs).
    + eapply (w_agree c W); [done|]. eapply digs_frame; [|exact Hws].
      intros n Hn. unfold dig. by rewrite (eval_other_outs ip2 e).
  - intros n Hn. eapply dig_shape; [symmetry; exact Hs|].
    destruct Hn as [Hn|Hn]; [|by apply (w_tables c W); right].
    apply put_all_tables_inv in Hn as [Hn|Hn]; [|by apply (w_tables c W); left].
    destruct (w_dig c W ip d n Hd (or_intror Hn)) as [v Hv]. unfold dig in Hv.
    destruct (st_nodes c !! n); [eauto|done].
  - apply put_all_sorted. by apply w_sorted.
  - intros mp Hmp. destruct (w_clocked c W mp Hmp) as (mb & ip2 & e & ? & ? & He).
    destruct (eval_survives _ _ He) as (e' & ? & _). exists mb, ip2, e'. auto.
Qed.

End Eval.

(** ** Evaluations as steps *)

Inductive evals (c : circ) (ip : impl_ptr) (meth : digital_update_method_t) : circ -> Prop :=
| evals_intro d xs os ys d' :
    st_impls c !! ip = Some d -> digs (st_nodes c) (ins d) xs -> digs (st_nodes c) (outs d) os ->
    r_react rm meth d xs = (d', ys) ->
    evals c ip meth (after_update c ip d' (put_all (outs d) ys (here c))).

Lemma evals_wired c ip meth c' : wired c -> evals c ip meth c' -> wired c'.
Proof. intros W []. by eapply eval_wired. Qed.

Lemma call_update_evals c mp mb ip d meth :
  wired c -> st_models c !! mp = Some mb -> ptr mb = Some ip -> st_impls c !! ip = Some d ->
  exists c', call_update c mp meth = Some c' /\ evals c ip meth c'.
Proof.
  intros W Hm Hp Hd. destruct (ports_digs c ip d W Hd) as (xs & os & Hxs & Hos).
  destruct (r_react rm meth d xs) as [d' ys] eqn:Hr.
  eexists. split; [by eapply eval_run|]. by econstructor.
Qed.

(** A pin that is on the list of some node. *)
Definition backed (c : circ) (p : pin_ptr) : Prop :=
  exists n nd, st_nodes c !! n = Some nd /\ p ∈ pins nd.

Lemma evals_backed c ip meth c' p : evals c ip meth c' -> backed c p -> backed c' p.
Proof.
  intros [d xs os ys d' Hd _ _ _] (n & nd & Hn & Hp).
  pose proof (put_all_shape (outs d) ys (here c) n) as Hs. simpl in Hs. rewrite Hn in Hs.
  destruct (d_nodes (put_all (outs d) ys (here c)) !! n) as [nd'|] eqn:E; [|done].
  exists n, nd'. split; [done|]. unfold node_shape in Hs. simpl in Hs.
  by assert (pins nd = pins nd') as <- by congruence.
Qed.

Lemma visit_pin_evals c p :
  wired c -> backed c p -> exists c', visit_pin c p = Some c' /\ evals c p.1 update_table c'.
Proof.
  intros W (n & nd & Hn & Hp). destruct (w_back c W n nd p Hn Hp) as (d & pn & mp & mb & Hd & Hpn & Hm & Hmb & Hpt).
  unfold visit_pin, pin_model. rewrite Hd, Hpn, Hm, Hmb, Hpt, Hd.
  rewrite (rm_digital d) by eauto using w_wf. rewrite bool_decide_eq_true_2 by done.
  by eapply call_update_evals.
Qed.

(** ** Stable or scheduled *)

Definition scheduled (c : circ) (e : impl) : Prop :=
  exists p n, p ∈ generate_pin_view e /\ nodes p = Some n /\ n ∈ cur_tables c.

(** Every model of [U] is stable, has a node in the table, or is [waiting]. *)
Definition calm (U waiting : impl_ptr -> Prop) (c : circ) : Prop :=
  forall ip e, U ip -> st_impls c !! ip = Some e ->
    quiescent (st_nodes c) e \/ scheduled c e \/ waiting ip.

Definition nobody : impl_ptr -> Prop := fun _ => False.

Lemma calm_weaken (U V P Q : impl_ptr -> Prop) c :
  (forall ip, V ip -> U ip) -> (forall ip, P ip -> Q ip) -> calm U P c -> calm V Q c.
Proof. intros HU HP Hc ip e Hv He. destruct (Hc ip e) as [?|[?|?]]; auto. Qed.

(** Either none of some nodes changed or one of them is in the table. *)
Lemma put_all_ports os vs s (l : list node_ptr) :
  (forall n, n ∈ l -> d_nodes (put_all os vs s) !! n = d_nodes s !! n) \/
  (exists n, n ∈ l /\ n ∈ d_tables (put_all os vs s)).
Proof.
  induction l as [|n l IH]; [left; set_solver|].
  destruct IH as [IH|(m & ? & ?)]; [|right; exists m; set_solver].
  destruct (put_all_changed os vs s n) as [E|[_ E]]; [left|right; exists n; set_solver].
  intros m Hm. apply elem_of_cons in Hm as [->|?]; auto.
Qed.

Lemma ports_scheduled c (e : impl) n :
  n ∈ ins e \/ n ∈ outs e -> n ∈ cur_tables c -> scheduled c e.
Proof.
  intros Hn Ht. destruct (l_ports _ _ _ rm_laws e n Hn) as (p & ? & ?). exists p, n. auto.
Qed.

(** An evaluation leaves its model stable or scheduled, and the others so. *)
Lemma evals_calm U P c ip meth c' :
  wired c -> evals c ip meth c' -> calm U P c ->
  calm (fun i => U i \/ i = ip) (fun i => P i /\ i <> ip) c'.
Proof.
  intros W [d xs os ys d' Hd Hxs Hos Hr] Hc ip2 e HU He.
  destruct (eval_keep c W ip d Hd meth xs os ys d' Hxs Hos Hr) as (_ & _ & Ei & Eo & _ & _ & Hst).
  apply (eval_impl c W ip d Hd meth xs os ys d' Hxs Hos Hr) in He as [[-> ->]|[Hne He]].
  - destruct (put_all_ports (outs d) ys (here c) (ins d)) as [Hun|(n & Hn & Ht)].
    2:{ right. left. apply (ports_scheduled _ d' n); [rewrite Ei; auto|done]. }
    left. exists xs, ys. rewrite Ei, Eo. split; [|split]; [|by eapply eval_digs_outs|done].
    eapply digs_frame; [|exact Hxs]. intros n Hn. unfold dig. simpl. by rewrite Hun.
  - destruct HU as [HU|]; [|done]. destruct (Hc ip2 e HU He) as [Hq|[Hs|Hw]]; [|right; left|auto].
    + destruct (put_all_ports (outs d) ys (here c) (ins e ++ outs e)) as [Hun|(n & Hn & Ht)].
      2:{ right. left. apply (ports_scheduled _ e n); [set_solver|done]. }
      left. destruct Hq as (us & vs & Hus & Hvs & Hrr). exists us, vs.
      split; [|split]; [..|done]; (eapply digs_frame; [|eassumption]); intros n Hn; unfold dig;
        simpl; rewrite Hun; set_solver.
    + destruct Hs as (p & n & ? & ? & ?). exists p, n. split; [done|]. split; [done|].
      by apply (put_all_tables (outs d) ys (here c)).
Qed.

(** ** The loop *)

Definition owns (ps : list pin_ptr) (ip : impl_ptr) : Prop := exists p, p ∈ ps /\ p.1 = ip.

Lemma visit_pins_ok U : forall ps c,
  wired c -> Forall (backed c) ps -> calm U (owns ps) c ->
  exists c', visit_pins c ps = Some c' /\ wired c' /\ calm U nobody c'.
Proof.
  induction ps as [|p ps IH]; intros c W Hb Hc; simpl.
  { exists c. split; [done|]. split; [done|]. eapply calm_weaken; [| |exact Hc]; [done|].
    intros ip (q & Hq & _). set_solver. }
  apply Forall_cons in Hb as [Hp Hb]. destruct (visit_pin_evals c p W Hp) as (c1 & -> & He).
  apply IH; [by eapply evals_wired| |].
  - eapply Forall_impl; [exact Hb|]. intros q. by eapply evals_backed.
  - eapply calm_weaken; [| |by eapply evals_calm]; [by left|].
    intros ip [(q & Hq & Hip) Hne]. exists q. split; [|done].
    apply elem_of_cons in Hq as [->|?]; [congruence|done].
Qed.

Lemma set_tables_wired c n rest : wired c -> cur_tables c = n :: rest -> wired (set_tables c rest).
Proof.
  intros W Et. destruct W as [Hwf Hb Hf Hdg Hnd Hsg Hag Htb Hso Hck]. split; try done.
  - intros m Hm. apply Htb. simpl in Hm. rewrite Et. set_solver.
  - simpl. rewrite Et in Hso. by inversion Hso.
Qed.

(** Taking a node out of the table makes its models wait. *)
Lemma pop_calm U c n rest nd :
  wired c -> cur_tables c = n :: rest -> st_nodes c !! n = Some nd -> calm U nobody c ->
  calm U (owns (pins nd)) (set_tables c rest).
Proof.
  intros W Et Hn Hc ip e HU He. destruct (Hc ip e HU He) as [?|[(p & m & Hp & Hm & Ht)|[]]]; [by left|].
  rewrite Et in Ht. apply elem_of_cons in Ht as [->|Ht]; right; [right|left; by exists p, m].
  apply list_elem_of_lookup in Hp as [i Hi]. destruct (w_fwd c W ip e i p n He Hi Hm) as (nd' & Hn' & Hin).
  exists (ip, N.of_nat i). split; [congruence|done].
Qed.

Lemma loop_body_ok U c :
  wired c -> calm U nobody c -> exists c', loop_body c = Some c' /\ wired c' /\ calm U nobody c'.
Proof.
  intros W Hc. unfold loop_body. destruct (cur_tables c) as [|n rest] eqn:Et; [eauto|].
  destruct (w_tables c W n) as [nd Hn]; [rewrite Et; set_solver|]. rewrite Hn.
  apply visit_pins_ok.
  - by eapply set_tables_wired.
  - apply list.Forall_forall. intros p Hp. exists n, nd. auto.
  - by eapply pop_calm.
Qed.

Lemma loop_budget_ok U : forall p c,
  wired c -> calm U nobody c -> exists c', loop_budget p c = Some c' /\ wired c' /\ calm U nobody c'.
Proof.
  assert (Hemp : forall c, cur_tables c = [] -> forall p, loop_budget p c = Some c).
  { intros c E p. destruct p; simpl; by rewrite E. }
  induction p as [q IH|q IH|]; intros c W Hc; destruct (cur_tables c) eqn:Et;
    try (exists c; by rewrite Hemp); simpl; rewrite Et.
  - destruct (loop_body_ok U c W Hc) as (c1 & -> & W1 & H1).
    destruct (IH c1 W1 H1) as (c2 & -> & W2 & H2). by apply IH.
  - destruct (IH c W Hc) as (c2 & -> & W2 & H2). by apply IH.
  - by apply loop_body_ok.
Qed.

(** The models of a list of clocked models. *)
Definition clocked (c : circ) (ms : list model_ptr) (ip : impl_ptr) : Prop :=
  exists mp mb, mp ∈ ms /\ st_models c !! mp = Some mb /\ ptr mb = Some ip.

Lemma evals_models c ip meth c' : evals c ip meth c' ->
  st_models c' = st_models c /\ before_all_clk_digital_model c' = before_all_clk_digital_model c /\
  after_all_clk_digital_model c' = after_all_clk_digital_model c.
Proof. by intros []. Qed.

Lemma call_updates_ok U meth : forall ms c,
  wired c -> (forall m, m ∈ ms -> m ∈ before_all_clk_digital_model c \/ m ∈ after_all_clk_digital_model c) ->
  calm U nobody c ->
  exists c', call_updates c ms meth = Some c' /\ wired c' /\
    calm (fun ip => U ip \/ clocked c ms ip) nobody c' /\
    after_all_clk_digital_model c' = after_all_clk_digital_model c.
Proof.
  intros ms. revert U. induction ms as [|m ms IH]; intros U c W Hms Hc; simpl.
  { exists c. split; [done|]. split; [done|]. split; [|done]. apply (calm_weaken U _ nobody nobody); [|done..].
    intros ip [?|(mp & mb & Hmp & _)]; [done|]. by apply not_elem_of_nil in Hmp. }
  destruct (w_clocked c W m) as (mb & ip & d & Hm & Hp & Hd); [apply Hms; set_solver|].
  destruct (call_update_evals c m mb ip d meth W Hm Hp Hd) as (c1 & -> & He).
  pose proof (evals_models _ _ _ _ He) as (E1 & E2 & E3).
  destruct (IH (fun i => U i \/ i = ip) c1) as (c' & -> & W' & Hc' & E').
  - by eapply evals_wired.
  - intros x Hx. rewrite E2, E3. apply Hms. set_solver.
  - eapply calm_weaken; [| |by eapply evals_calm]; [done|]. by intros ? [[] _].
  - exists c'. rewrite E', E3. split; [done|]. split; [done|]. split; [|done]. eapply calm_weaken; [| |exact Hc']; [|done].
    intros i [?|(mp & mb' & Hmp & Hmb & Hpt)]; [auto|].
    apply elem_of_cons in Hmp as [->|Hmp]; [left; right; congruence|].
    right. exists mp, mb'. by rewrite E1.
Qed.

(** ** The tick *)

Lemma clear_out_wired c :
  wired c -> wired (set_digital c (st_nodes c) (st_impls c) (digital_update_tables c) []).
Proof. intros []. by split. Qed.

Lemma seed_tables_wired c : wired c -> wired (seed_tables c).
Proof.
  intros [Hwf Hb Hf Hdg Hnd Hsg Hag Htb Hso Hck]. split; try done.
  - intros n [Hn|Hn]; [|auto]. apply Htb. simpl in Hn. apply elem_of_oset_insert_all in Hn. naive_solver.
  - by apply oset_insert_all_sorted.
Qed.

Lemma seed_tables_calm U c : calm U nobody c -> calm U nobody (seed_tables c).
Proof.
  intros Hc ip e HU He. destruct (Hc ip e HU He) as [?|[(p & n & ? & ? & ?)|[]]]; [by left|].
  right. left. exists p, n. split; [done|]. split; [done|]. simpl. apply elem_of_oset_insert_all. by right.
Qed.

Lemma digital_clk_ok U c :
  wired c -> calm U nobody c ->
  exists c', digital_clk c = Some c' /\ wired c' /\
    calm (fun ip => U ip \/ clocked c (before_all_clk_digital_model c) ip) nobody c'.
Proof.
  intros W Hc. unfold digital_clk, before_digital_clk.
  set (c0 := set_digital c _ _ _ []). assert (W0 : wired c0) by (by apply clear_out_wired).
  destruct (call_updates_ok U before_all_clk (before_all_clk_digital_model c0) c0) as (c1 & -> & W1 & H1 & _);
    [done|by left|done|].
  unfold update_table_digital_clk.
  destruct (loop_budget_ok _ iter_budget (seed_tables c1) (seed_tables_wired _ W1) (seed_tables_calm _ _ H1))
    as (c2 & -> & W2 & H2).
  unfold after_table_digital_clk.
  destruct (call_updates_ok _ after_all_clk (after_all_clk_digital_model c2) c2 W2
    (fun m Hm => or_intror Hm) H2) as (c3 & -> & W3 & H3 & _).
  exists c3. split; [done|]. split; [done|]. eapply calm_weaken; [| |exact H3]; [|done]. intros ip ?. by left.
Qed.

(** ** Counting the iterations *)

(** [k] iterations of the body of the loop. *)
Fixpoint loop_iter (k : nat) (c : circ) : option circ :=
  match k with
  | O => Some c
  | S k' => match loop_body c with None => None | Some c1 => loop_iter k' c1 end
  end.

Lemma loop_iter_add i j c :
  loop_iter (i + j) c = match loop_iter i c with None => None | Some c1 => loop_iter j c1 end.
Proof. revert c. induction i as [|i IH]; intros c; simpl; [done|]. by destruct (loop_body c). Qed.

Lemma loop_body_empty c : cur_tables c = [] -> loop_body c = Some c.
Proof. intros E. unfold loop_body. by rewrite E. Qed.

Lemma loop_iter_empty k c : cur_tables c = [] -> loop_iter k c = Some c.
Proof. intros E. induction k as [|k IH]; simpl; [done|]. by rewrite loop_body_empty. Qed.

Lemma loop_budget_iter p c : loop_budget p c = loop_iter (Pos.to_nat p) c.
Proof.
  revert c. induction p as [q IH|q IH|]; intros c; destruct (cur_tables c) as [|n l] eqn:Et;
    try (rewrite loop_iter_empty by done; simpl; by rewrite Et); simpl loop_budget; rewrite Et.
  - rewrite Pos2Nat.inj_xI. simpl. destruct (loop_body c) as [c1|]; [|done].
    rewrite Nat.add_0_r, loop_iter_add, IH. by destruct (loop_iter (Pos.to_nat q) c1).
  - rewrite Pos2Nat.inj_xO. simpl. rewrite Nat.add_0_r, loop_iter_add, IH.
    by destruct (loop_iter (Pos.to_nat q) c).
  - simpl. by destruct (loop_body c).
Qed.
End Settle.
