(* ===== verification/Acyclic.v ===== *)
(** * Acyclic: the event loop empties the table of a ranked circuit

    When the models can be ranked so that a model reads only nodes driven at
    lower ranks, the loop [while (!tables.empty())] ends.  The measure counts,
    with weights that decrease with the rank, the models that may be unstable
    and the nodes in the table; taking a node out of the table decreases it and
    evaluating the models on that node does not increase it. *)

From Stdlib Require Import ZArith Lia.
From stdpp Require Import base list gmap strings.
From S2P Require Import Prelude Store Logic4 Model Reactive Reaction Reactions Engine.
From S2P Require Import Settle.

Open Scope nat_scope.

(** ** Sums over lists *)

Section Sums.
Context {A : Type} `{EqDecision A} (f : A -> nat).

Lemma sum_filter_ne (x : A) l : x ∈ l -> sum_list_with f (filter (fun y => y <> x) l) + f x <= sum_list_with f l.
Proof.
  assert (Hle : forall l, sum_list_with f (filter (fun y => y <> x) l) <= sum_list_with f l).
  { induction l0 as [|y l0 IH]; [done|]. rewrite filter_cons. case_decide; simpl; lia. }
  induction l as [|y l IH]; [set_solver|]. intros Hx. rewrite filter_cons. case_decide as E; simpl.
  - apply elem_of_cons in Hx as [->|Hx]; [done|]. specialize (IH Hx). lia.
  - assert (y = x) as -> by (destruct (decide (y = x)); [done|by destruct E]). specialize (Hle l). lia.
Qed.

Lemma sum_bound l b : (forall x, x ∈ l -> f x <= b) -> sum_list_with f l <= length l * b.
Proof.
  induction l as [|x l IH]; intros Hb; simpl; [lia|].
  specialize (Hb x ltac:(set_solver)) as Hx. specialize (IH ltac:(set_solver)). lia.
Qed.

End Sums.

Lemma sum_oset_insert (f : N -> nat) x l :
  sum_list_with f (oset_insert x l) <= f x + sum_list_with f l.
Proof. induction l as [|y l IH]; simpl; [lia|]. destruct (N.compare x y); simpl in *; lia. Qed.

Lemma sum_put (f : N -> nat) n v s :
  sum_list_with f (d_tables (put n v s)) <= f n + sum_list_with f (d_tables s).
Proof.
  unfold put. destruct (dig _ _) as [v0|]; [|lia]. destruct (dns_eqb v0 v); [lia|]. apply sum_oset_insert.
Qed.

Lemma sum_put_all (f : N -> nat) outs vs s :
  sum_list_with f (d_tables (put_all outs vs s)) <= sum_list_with f outs + sum_list_with f (d_tables s).
Proof.
  revert vs s. induction outs as [|n outs IH]; intros [|v vs] s; simpl; [lia..|].
  etransitivity; [apply IH|]. pose proof (sum_put f n v s). lia.
Qed.

Section Acyclic.
Context {impl : Type} `{ReactiveModel impl}.

Abbreviation circ := (circult impl).
Abbreviation ins := (r_ins rm).
Abbreviation outs := (r_outs rm).

(** A rank per model and per node, at most [R]; [all] lists the models, and
    [K] exceeds their numbers of outputs. *)
Context (rk : impl_ptr -> nat) (nrk : node_ptr -> nat) (R K : nat) (all : list impl_ptr).

Record ranked (c : circ) : Prop := mk_ranked {
  rk_out : forall ip d n, st_impls c !! ip = Some d -> n ∈ outs d -> nrk n = rk ip;
  rk_in : forall ip d n, st_impls c !! ip = Some d -> n ∈ ins d -> nrk n < rk ip;
  rk_all : forall ip d, st_impls c !! ip = Some d -> ip ∈ all;
  rk_max : forall ip, ip ∈ all -> rk ip <= R;
  rk_outs : forall ip d, st_impls c !! ip = Some d -> length (outs d) < K
}.

Definition weight : nat := length all * K + 1.
Definition model_weight (ip : impl_ptr) : nat := K * weight ^ (R - rk ip).
Definition node_weight (n : node_ptr) : nat := weight ^ (R - nrk n).
Definition measure (U : list impl_ptr) (tb : list node_ptr) : nat :=
  sum_list_with model_weight U + sum_list_with node_weight tb.

(** The models outside [U] are stable. *)
Definition loose (U : list impl_ptr) (c : circ) : Prop :=
  forall ip e, st_impls c !! ip = Some e -> ip ∉ U -> quiescent (st_nodes c) e.

Lemma weight_pos k : 1 <= weight ^ k.
Proof. unfold weight. pose proof (Nat.pow_nonzero (length all * K + 1) k). lia. Qed.

Lemma evals_ranked c ip meth c' : wired c -> evals c ip meth c' -> ranked c -> ranked c'.
Proof.
  intros W [d xs os ys d' Hd Hxs Hos Hr] [H1 H2 H3 H4 H5].
  assert (Ho : forall ip2 e, _ -> _) by exact (eval_origin c W ip d Hd meth xs os ys d' Hxs Hos Hr).
  split; [..|exact H4|].
  - intros ip2 e n E. apply Ho in E as (e0 & E0 & _ & _ & -> & _). eauto.
  - intros ip2 e n E. apply Ho in E as (e0 & E0 & _ & -> & _ & _). eauto.
  - intros ip2 e E. apply Ho in E as (e0 & E0 & _). eauto.
  - intros ip2 e E. apply Ho in E as (e0 & E0 & _ & _ & -> & _). eauto.
Qed.

(** Evaluating a stable model changes nothing. *)
Lemma evals_quiet c ip c' d :
  evals c ip update_table c' -> st_impls c !! ip = Some d -> quiescent (st_nodes c) d ->
  st_nodes c' = st_nodes c /\ st_impls c' = st_impls c /\ cur_tables c' = cur_tables c.
Proof.
  intros [d0 xs os ys d' Hd Hxs Hos Hr] Hd0 (us & vs & Hus & Hvs & Hq). simplify_eq.
  rewrite <-(digs_functional _ _ _ _ Hus Hxs), Hq in Hr. simplify_eq.
  unfold after_update; simpl. rewrite put_all_id by done. simpl. by rewrite insert_id.
Qed.

(** The higher-ranked models weigh together no more than one output node. *)
Lemma sum_higher r :
  (forall ip, ip ∈ all -> rk ip <= R) ->
  sum_list_with model_weight (filter (fun j => r < rk j) all) <= weight ^ (R - r).
Proof.
  intros Hmax. destruct (filter (fun j => r < rk j) all) as [|j l] eqn:E; [simpl; lia|]. rewrite <-E.
  assert (Hj : j ∈ filter (fun j => r < rk j) all) by (rewrite E; set_solver).
  apply list_elem_of_filter in Hj as [Hrj Hj]. specialize (Hmax j Hj) as Hmj.
  etransitivity; [apply (sum_bound model_weight _ (K * weight ^ (R - r - 1)))|].
  - intros i Hi. apply list_elem_of_filter in Hi as [Hri Hi]. specialize (Hmax i Hi).
    apply Nat.mul_le_mono_l, Nat.pow_le_mono_r; unfold weight; lia.
  - replace (R - r) with (S (R - r - 1)) at 2 by lia. rewrite Nat.pow_succ_r', Nat.mul_assoc.
    apply Nat.mul_le_mono_r. unfold weight.
    pose proof (length_filter (fun j => r < rk j) all) as Hl.
    apply (Nat.mul_le_mono_r _ _ K) in Hl. lia.
Qed.

(** The models that may be unstable after the model at [ip] was evaluated. *)
Definition spread (U : list impl_ptr) (ip : impl_ptr) : list impl_ptr :=
  filter (fun j => j <> ip) U ++ filter (fun j => rk ip < rk j) all.

Lemma evals_spread c ip c' U :
  wired c -> ranked c -> evals c ip update_table c' -> loose U c -> loose (spread U ip) c'.
Proof.
  intros W HR [d xs os ys d' Hd Hxs Hos Hr] HU ip2 e He Hn.
  destruct (eval_keep c W ip d Hd _ xs os ys d' Hxs Hos Hr) as (_ & _ & Ei & Eo & _ & _ & Hst).
  assert (Hframe : forall n, n ∉ outs d ->
    dig (st_nodes (after_update c ip d' (put_all (outs d) ys (here c)))) n = dig (st_nodes c) n).
  { intros n Hn'. unfold dig. simpl. by rewrite put_all_frame. }
  unfold spread in Hn. rewrite elem_of_app, !list_elem_of_filter in Hn.
  apply (eval_impl c W ip d Hd _ xs os ys d' Hxs Hos Hr) in He as [[-> ->]|[Hne He]].
  - exists xs, ys. rewrite Ei, Eo. split; [|split]; [|by eapply eval_digs_outs|done].
    eapply digs_frame; [|exact Hxs]. intros n Hi. apply Hframe. intros Ho.
    pose proof (rk_out c HR _ _ _ Hd Ho). pose proof (rk_in c HR _ _ _ Hd Hi). lia.
  - destruct (HU ip2 e He) as (us & vs & Hus & Hvs & Hq); [tauto|]. exists us, vs.
    split; [|split]; [..|done]; (eapply digs_frame; [|eassumption]); intros n Hp; apply Hframe; intros Ho.
    + apply Hn. right. pose proof (rk_out c HR _ _ _ Hd Ho). pose proof (rk_in c HR _ _ _ He Hp).
      split; [lia|]. by eapply rk_all.
    + apply Hne. by eapply (w_single c W ip2 ip).
Qed.

Lemma evals_measure c ip c' U :
  wired c -> ranked c -> evals c ip update_table c' -> loose U c ->
  exists U', loose U' c' /\ measure U' (cur_tables c') <= measure U (cur_tables c).
Proof.
  intros W HR He HU. destruct (decide (ip ∈ U)) as [Hin|Hout].
  - exists (spread U ip). split; [by eapply evals_spread|].
    destruct He as [d xs os ys d' Hd Hxs Hos Hr]. unfold measure, spread. rewrite sum_list_with_app.
    pose proof (sum_filter_ne model_weight ip U Hin) as H1.
    pose proof (sum_higher (rk ip) (rk_max c HR)) as H2.
    pose proof (sum_put_all node_weight (outs d) ys (here c)) as H3.
    assert (H4 : sum_list_with node_weight (outs d) <= length (outs d) * weight ^ (R - rk ip)).
    { apply sum_bound. intros n Hn. unfold node_weight. by rewrite (rk_out c HR ip d n). }
    pose proof (rk_outs c HR ip d Hd) as H5. unfold model_weight in H1 at 2. simpl in *.
    assert (H6 : (1 + length (outs d)) * weight ^ (R - rk ip) <= K * weight ^ (R - rk ip)).
    { apply Nat.mul_le_mono_r. lia. }
    unfold cur_tables in *. simpl in *. lia.
  - exists U. inversion He as [d ? ? ? ? Hd]; subst.
    destruct (evals_quiet _ _ _ d He Hd (HU ip d Hd Hout)) as (E1 & E2 & E3).
    rewrite E3. split; [|lia]. intros ip2 e. rewrite E1, E2. apply HU.
Qed.

Lemma visit_pins_measure : forall ps c U,
  wired c -> ranked c -> Forall (backed c) ps -> loose U c ->
  exists c' U', visit_pins c ps = Some c' /\ wired c' /\ ranked c' /\ loose U' c' /\
    measure U' (cur_tables c') <= measure U (cur_tables c).
Proof.
  induction ps as [|p ps IH]; intros c U W HR Hb HU; simpl; [by exists c, U|].
  apply Forall_cons in Hb as [Hp Hb]. destruct (visit_pin_evals c p W Hp) as (c1 & -> & He).
  destruct (evals_measure c p.1 c1 U W HR He HU) as (U1 & HU1 & Hm1).
  destruct (IH c1 U1) as (c' & U' & -> & W' & HR' & HU' & Hm');
    [by eapply evals_wired|by eapply evals_ranked| |done|].
  - eapply Forall_impl; [exact Hb|]. intros q. by eapply evals_backed.
  - exists c', U'. do 4 (split; [done|]). lia.
Qed.

Lemma loop_body_measure c U :
  wired c -> ranked c -> loose U c -> cur_tables c <> [] ->
  exists c' U', loop_body c = Some c' /\ wired c' /\ ranked c' /\ loose U' c' /\
    measure U' (cur_tables c') < measure U (cur_tables c).
Proof.
  intros W HR HU Hne. unfold loop_body. destruct (cur_tables c) as [|n rest] eqn:Et; [done|].
  destruct (w_tables c W n) as [nd Hn]; [rewrite Et; set_solver|]. rewrite Hn.
  destruct (visit_pins_measure (pins nd) (set_tables c rest) U) as (c' & U' & -> & W' & HR' & HU' & Hm').
  - by eapply set_tables_wired.
  - destruct HR as [H1 H2 H3 H4 H5]. by split.
  - apply list.Forall_forall. intros p Hp. exists n, nd. auto.
  - done.
  - exists c', U'. split; [done|]. do 3 (split; [done|]). eapply Nat.le_lt_trans; [exact Hm'|].
    unfold measure. simpl. pose proof (weight_pos (R - nrk n)). unfold node_weight at 2.
    change (cur_tables (set_tables c rest)) with rest. lia.
Qed.

(** Enough iterations empty the table. *)
Lemma loop_iter_measure : forall k c U,
  wired c -> ranked c -> loose U c -> measure U (cur_tables c) <= k ->
  exists c', loop_iter k c = Some c' /\ wired c' /\ cur_tables c' = [].
Proof.
  induction k as [|k IH]; intros c U W HR HU Hm; simpl; destruct (cur_tables c) as [|n l] eqn:Et.
  - by exists c.
  - unfold measure in Hm. simpl in Hm. pose proof (weight_pos (R - nrk n)). unfold node_weight in Hm. lia.
  - exists c. rewrite loop_body_empty, loop_iter_empty by done. by split.
  - destruct (loop_body_measure c U W HR HU) as (c' & U' & -> & W' & HR' & HU' & Hm'); [by rewrite Et|].
    rewrite Et in Hm'. apply (IH c' U'); [done..|lia].
Qed.

Lemma all_loose c : ranked c -> loose all c.
Proof. intros HR ip e He Hn. destruct Hn. by eapply rk_all. Qed.

Lemma loop_iter_terminates c :
  wired c -> ranked c ->
  exists c', loop_iter (measure all (cur_tables c)) c = Some c' /\ wired c' /\ cur_tables c' = [].
Proof. intros W HR. eapply loop_iter_measure; eauto using all_loose. Qed.

End Acyclic.
