(* ===== verification/Tick.v ===== *)
(** * Tick: theorems about the digital tick of a circuit of devices

    The theorems of [Settle] and [Acyclic] for circuits of the modelled
    devices, with a small circuit (two inputs, a gate, an output) on which each
    of them is applied. *)

From Stdlib Require Import ZArith Lia.
From stdpp Require Import base list gmap strings.
From S2P Require Import Prelude Store Logic4 Gates Devices Sequential Arith Model.
From S2P Require Import Reactive Reaction Reactions Engine Settle Acyclic.

Open Scope Z_scope.

(** ** Building circuits *)

Definition on_node (ps : list pin) (ns : list (option node_ptr)) : list pin :=
  zip_with (fun p n => {| name := name p; nodes := n; model := model p |}) ps ns.
Definition place (d : device) (ns : list node_ptr) : device :=
  device_set_pins d (on_node (device_pins d) (map Some ns)).
Definition input_of (v : dns) : device :=
  m_INPUT (snd (INPUT.set_attribute_define INPUT.default 0 (v_digital v))).

Definition plain_node (ps : list pin_ptr) : node_t :=
  {| node_information := dn sL; pins := ps; num_of_analog_node := 0; node_index := SIZE_MAX |}.
Definition normal_model (ip : impl_ptr) : model_base :=
  {| type := normal; ptr := Some ip; identification := 0; mb_name := ""; describe := ""; has_init := true |}.

(** A circuit in a transient analysis, not prepared: model [100 + ip] owns [ip]. *)
Definition circuit_of (ns : list (node_ptr * list pin_ptr)) (ds : list (impl_ptr * device)) : circult device :=
  {| st_nodes := <[0%N := plain_node []]> (list_to_map (map (fun x => (x.1, plain_node x.2)) ns));
     st_models := list_to_map (map (fun x => ((100 + x.1)%N, normal_model x.1)) ds);
     st_impls := list_to_map ds;
     nl_nodes := [map fst ns]; nl_models := [map (fun x => (100 + x.1)%N) ds]; ground_node := 0%N;
     at_type := TR; has_prepare := false; node_counter := 0; branch_counter := 0;
     size_t_to_node_p := []; size_t_to_branch_p := [];
     digital_update_tables := {| always_tables := []; tables := [] |}; digital_out := [];
     before_all_clk_digital_model := []; after_all_clk_digital_model := []; tr_duration := d_zero |}.

Definition and_circuit (a b : dns) : circult device :=
  circuit_of
    [(1%N, [(10%N, 0%N); (12%N, 0%N)]); (2%N, [(11%N, 0%N); (12%N, 1%N)]); (3%N, [(12%N, 2%N); (13%N, 0%N)])]
    [(10%N, place (input_of a) [1%N]); (11%N, place (input_of b) [2%N]);
     (12%N, place (m_AND AND.default) [1%N; 2%N; 3%N]); (13%N, place (m_OUTPUT OUTPUT.default) [3%N])].

Definition prepared (c : circult device) : circult device :=
  match prepare_tables c with Some c' => c' | None => c end.
Definition ticked (c : circult device) : circult device :=
  match digital_clk c with Some c' => c' | None => c end.

(** Membership in a concrete map, as cases. *)
Ltac in_map H :=
  apply elem_of_map_to_list in H; vm_compute in H;
  repeat (apply elem_of_cons in H as [H|H]; [injection H; clear H; intros; subst|]);
  try (apply not_elem_of_nil in H; destruct H).

Ltac in_list H := repeat (apply elem_of_cons in H as [->|H]); [..|by apply not_elem_of_nil in H].

(** The two-gate circuit after [prepare()]. *)
Definition and_ready : circult device := prepared (and_circuit sH sH).

Lemma and_ready_wired : wired and_ready.
Proof.
  split.
  - intros ip d Hd. in_map Hd; vm_compute; auto. split; [done|]. eexists. reflexivity.
  - intros n nd p Hn Hp. in_map Hn; simpl in Hp; try (by apply not_elem_of_nil in Hp); in_list Hp;
      do 4 eexists; repeat split; reflexivity.
  - intros ip d i pn n Hd Hi Hn. in_map Hd; simpl in Hi;
      repeat (destruct i as [|i]; simpl in Hi; simplify_eq; simpl in Hn; simplify_eq);
      eexists; (split; [reflexivity|set_solver]).
  - intros ip d n Hd Hn. in_map Hd; vm_compute in Hn; destruct Hn as [Hn|Hn];
      try (by apply not_elem_of_nil in Hn); in_list Hn; eexists; reflexivity.
  - intros ip d Hd. in_map Hd; vm_compute; repeat constructor; set_solver.
  - intros ip ip' d d' n Hd Hd' Hn Hn'. in_map Hd; in_map Hd'; try done; vm_compute in Hn, Hn'; set_solver.
  - intros ip d os Hd Ho. in_map Hd; vm_compute in Ho; vm_compute; split_digs; simpl; try done;
      vm_compute in *; congruence.
  - intros n Hn. vm_compute in Hn. set_solver.
  - vm_compute. constructor.
  - intros mp Hm. vm_compute in Hm. destruct Hm as [Hm|Hm]; try (by apply not_elem_of_nil in Hm);
      in_list Hm; do 3 eexists; repeat split; reflexivity.
Qed.

(** Its gate and its output are stable from the start: all states are [X]. *)
Definition gate_and_output (ip : impl_ptr) : Prop := ip = 12%N \/ ip = 13%N.

Lemma and_ready_calm : calm gate_and_output nobody and_ready.
Proof.
  intros ip e HU He. left. in_map He; try (by destruct HU).
  - exists [sX; sX], [sX]. repeat split; repeat constructor.
  - exists [sX], []. repeat split; repeat constructor.
Qed.

(** The ranks: inputs 0, gate 1, output 2. *)
Definition and_rk (ip : impl_ptr) : nat := if (ip <? 12)%N then 0 else N.to_nat (ip - 11).
Definition and_nrk (n : node_ptr) : nat := if (n <? 3)%N then 0 else 1.
Definition and_all : list impl_ptr := [10%N; 11%N; 12%N; 13%N].

Lemma and_ready_ranked : ranked and_rk and_nrk 2 2 and_all and_ready.
Proof.
  split.
  - intros ip d n Hd Hn. in_map Hd; vm_compute in Hn; try (by apply not_elem_of_nil in Hn); by in_list Hn.
  - intros ip d n Hd Hn. in_map Hd; vm_compute in Hn; try (by apply not_elem_of_nil in Hn); in_list Hn;
      vm_compute; lia.
  - intros ip d Hd. in_map Hd; unfold and_all; set_solver.
  - intros ip Hip. unfold and_all in Hip. in_list Hip; vm_compute; lia.
  - intros ip d Hd. in_map Hd; vm_compute; lia.
Qed.

Definition gate_of (c : circult device) : device :=
  match st_impls c !! 12%N with Some d => d | None => m_AND AND.default end.

(** ** Theorems *)

(** C3: the tick of a wired circuit in a transient analysis never runs into
    undefined behaviour, and leaves the circuit wired. *)
Theorem tick_defined (c : circult device) :
  wired c -> at_type c = TR -> exists c', update_digital c = done_ok c' /\ wired c'.
Proof.
  intros W Ht. destruct (digital_clk_ok nobody c W) as (c' & E & W' & _); [by intros ? ? []|].
  exists c'. unfold update_digital. rewrite Ht, E. by split.
Qed.

Lemma tick_defined_witness : exists c', update_digital and_ready = done_ok c' /\ wired c'.
Proof. apply (tick_defined and_ready and_ready_wired). reflexivity. Defined.

(** On digital nodes every device but the tri-state buffer is its reaction:
    evaluating it, whatever the time and the update method, succeeds without an
    analog request, stores the reaction's next state, writes the reaction's
    outputs to the output nodes and schedules exactly those that change ([put_all]); and the reaction
    is idempotent, so evaluating the device again on the same inputs leaves the
    device and its outputs as they are. *)
Theorem device_update_is_reaction (d d' : device) t meth s xs os ys :
  r_wf device_reaction d -> digs (d_nodes s) (r_ins device_reaction d) xs ->
  digs (d_nodes s) (r_outs device_reaction d) os -> r_agree device_reaction d os ->
  NoDup (r_outs device_reaction d) -> r_react device_reaction meth d xs = (d', ys) ->
  device_update d t meth s = Some ((d', no_need), put_all (r_outs device_reaction d) ys s) /\
  device_pins d' = device_pins d /\ r_react device_reaction update_table d' xs = (d', ys).
Proof.
  intros Hwf Hi Ho Ha Hn Hr. split; [by eapply (l_run _ _ _ device_laws)|].
  destruct (l_keep _ _ _ device_laws meth d xs d' ys) as (_ & E & _ & _ & _ & _ & Es); [done| |done|done].
  by apply digs_length in Hi.
Qed.

Lemma device_update_is_reaction_witness :
  device_update (gate_of and_ready) d_zero update_table (here and_ready) =
    Some ((fst (r_react device_reaction update_table (gate_of and_ready) [sX; sX]), no_need),
          put_all [3%N] [sX] (here and_ready)) /\
  device_pins (fst (r_react device_reaction update_table (gate_of and_ready) [sX; sX])) =
    device_pins (gate_of and_ready) /\
  r_react device_reaction update_table (fst (r_react device_reaction update_table (gate_of and_ready) [sX; sX])) [sX; sX] =
    (fst (r_react device_reaction update_table (gate_of and_ready) [sX; sX]), [sX]).
Proof.
  apply (device_update_is_reaction (gate_of and_ready)
    (fst (r_react device_reaction update_table (gate_of and_ready) [sX; sX])) d_zero update_table
    (here and_ready) [sX; sX] [sX] [sX]);
    [vm_compute; reflexivity|repeat constructor|repeat constructor|vm_compute; intros; congruence| |
     vm_compute; reflexivity].
  repeat constructor; set_solver.
Defined.

(** Outside a transient analysis [update_digital] terminates the process,
    whatever the circuit. *)
Theorem update_digital_guard (c : circult device) :
  at_type c <> TR -> at_type c <> TROP -> update_digital c = terminated.
Proof. intros H1 H2. unfold update_digital. by rewrite !bool_decide_eq_true_2. Qed.

Lemma update_digital_guard_witness :
  update_digital (impl := device) (mk_circult ∅ ∅ ∅ [] [] 0%N OP false 0 0 [] [] {| always_tables := []; tables := [] |} []
    [] [] d_zero) = terminated.
Proof. apply update_digital_guard; discriminate. Defined.

(** C1: the event loop loses no event.  If every model of a set is stable or
    has a node in the table when a tick starts, and the tick empties the table,
    then after the tick all these models, and the models evaluated at the start
    of the tick, are stable: evaluating them again changes nothing. *)
Theorem settled_tick_is_stable (c c' : circult device) (U : impl_ptr -> Prop) :
  wired c -> calm U nobody c -> digital_clk c = Some c' -> cur_tables c' = [] ->
  forall ip e, U ip \/ clocked c (before_all_clk_digital_model c) ip -> st_impls c' !! ip = Some e ->
    quiescent (st_nodes c') e.
Proof.
  intros W Hc E Et ip e HU He. destruct (digital_clk_ok U c W Hc) as (c2 & E2 & _ & H2).
  rewrite E in E2. injection E2 as <-. destruct (H2 ip e HU He) as [?|[(p & n & _ & _ & Hn)|[]]]; [done|].
  rewrite Et in Hn. by apply not_elem_of_nil in Hn.
Qed.

Lemma settled_tick_is_stable_witness :
  cur_tables (ticked and_ready) = [] /\ quiescent (st_nodes (ticked and_ready)) (gate_of (ticked and_ready)).
Proof.
  split; [vm_compute; reflexivity|].
  apply (settled_tick_is_stable and_ready (ticked and_ready) gate_and_output and_ready_wired and_ready_calm) with (ip := 12%N);
    [vm_compute; reflexivity|vm_compute; reflexivity| |vm_compute; reflexivity].
  left. left. reflexivity.
Defined.

(** The two-input gates with their functions. *)
Definition gates2 : list ((gate2 -> device) * (dns -> dns -> dns)) :=
  [(m_AND, AND.output_res); (m_OR, OR.output_res); (m_XOR, XOR.output_res); (m_NAND, NAND.output_res);
   (m_NOR, NOR.output_res); (m_XNOR, XNOR.output_res); (m_IMP, IMP.output_res); (m_NIMP, NIMP.output_res)].

(** A stable, connected gate shows its function. *)
Lemma quiescent_gate2 f op ns m a b o :
  (f, op) ∈ gates2 -> length (g2_pins m) = 3%nat -> wires (g2_pins m) = Some [a; b; o] -> quiescent ns (f m) ->
  exists va vb, dig ns a = Some va /\ dig ns b = Some vb /\ dig ns o = Some (op va vb).
Proof.
  intros Hf Hlen Hw (xs & os & Hi & Ho & Hr).
  assert (HR : v_ty (device_view (f m)) = gate2 /\ r_ins device_reaction (f m) = port_ins 2 (g2_pins m) /\
     r_outs device_reaction (f m) = port_outs 2 (g2_pins m) /\
     snd (r_react device_reaction update_table (f m) xs) = snd (r_react (gate2_reaction op) update_table m xs)).
  { unfold gates2 in Hf. repeat (apply elem_of_cons in Hf as [Hf|Hf]; [injection Hf as -> ->;
      repeat split; simpl; by repeat case_match|]). by apply not_elem_of_nil in Hf. }
  destruct HR as (_ & Ei & Eo & Es).
  change (digs ns (r_ins device_reaction (f m)) xs) in Hi. change (digs ns (r_outs device_reaction (f m)) os) in Ho.
  change (r_react device_reaction update_table (f m) xs = (f m, os)) in Hr. rewrite Ei in Hi. rewrite Eo in Ho.
  rewrite Hr in Es. simpl in Es. unfold port_ins, port_outs in *. rewrite Hw in *. simpl in *. split_digs. simpl in Es. simplify_eq. eauto.
Qed.

(** When a tick has emptied the table, the output node of each connected
    two-input gate that was stable or scheduled before the tick carries the
    gate's function of the states of its input nodes. *)
Theorem settled_gates (c c' : circult device) (U : impl_ptr -> Prop) f op ip m a b o :
  wired c -> calm U nobody c -> digital_clk c = Some c' -> cur_tables c' = [] ->
  (f, op) ∈ gates2 -> U ip -> st_impls c' !! ip = Some (f m) -> wires (g2_pins m) = Some [a; b; o] ->
  exists va vb, dig (st_nodes c') a = Some va /\ dig (st_nodes c') b = Some vb /\
    dig (st_nodes c') o = Some (op va vb).
Proof.
  intros W Hc E Et Hf HU He Hw. destruct (digital_clk_ok U c W Hc) as (c2 & E2 & _ & H2).
  rewrite E in E2. injection E2 as <-.
  destruct (H2 ip (f m) (or_introl HU) He) as [Hq|[(p & n & _ & _ & Hn)|[]]].
  - eapply quiescent_gate2; [done| |done|done]. apply wires_length in Hw. simpl in Hw. lia.
  - rewrite Et in Hn. by apply not_elem_of_nil in Hn.
Qed.

Lemma settled_gates_witness :
  exists va vb, dig (st_nodes (ticked and_ready)) 1%N = Some va /\
    dig (st_nodes (ticked and_ready)) 2%N = Some vb /\ dig (st_nodes (ticked and_ready)) 3%N = Some (va & vb).
Proof.
  refine (settled_gates and_ready (ticked and_ready) gate_and_output m_AND AND.output_res 12%N
    (match st_impls (ticked and_ready) !! 12%N with Some (m_AND m) => m | _ => gate2_default end)
    1%N 2%N 3%N and_ready_wired and_ready_calm _ _ _ _ _ _);
    [vm_compute; reflexivity|vm_compute; reflexivity| |by left|vm_compute; reflexivity|vm_compute; reflexivity].
  unfold gates2. set_solver.
Defined.

(** C5: the event loop of a wired circuit whose models can be ranked (every
    model reads only nodes driven at lower ranks) empties its table: the
    [measure] of the state is a number of iterations that is enough. *)
Theorem ranked_loop_terminates (c : circult device) rk nrk R K all :
  wired c -> ranked rk nrk R K all c ->
  exists c', loop_iter (measure rk nrk R K all all (cur_tables c)) c = Some c' /\ wired c' /\ cur_tables c' = [].
Proof. apply loop_iter_terminates. Qed.

Lemma ranked_loop_terminates_witness :
  exists c', loop_iter (measure and_rk and_nrk 2 2 and_all and_all (cur_tables and_ready)) and_ready = Some c' /\
    wired c' /\ cur_tables c' = [].
Proof. apply ranked_loop_terminates; [apply and_ready_wired|apply and_ready_ranked]. Defined.

(** The loop of the code, which counts [iter_budget] down, is the body
    iterated ten million times, and it stops with an empty table whenever the
    measure of the seeded state is within the budget. *)
Theorem ranked_loop_in_budget (c : circult device) rk nrk R K all :
  wired c -> ranked rk nrk R K all c ->
  (Z.of_nat (measure rk nrk R K all all (cur_tables (seed_tables c))) <= 10000000)%Z ->
  exists c', update_table_digital_clk c = Some c' /\ wired c' /\ cur_tables c' = [].
Proof.
  intros W [H1 H2 H3 H4 H5] Hm. unfold update_table_digital_clk. rewrite loop_budget_iter.
  eapply (loop_iter_measure rk nrk R K all _ (seed_tables c) all).
  - by apply seed_tables_wired.
  - by split.
  - apply (all_loose rk nrk R K). by split.
  - unfold iter_budget. lia.
Qed.

Lemma ranked_loop_in_budget_witness :
  exists c', update_table_digital_clk and_ready = Some c' /\ wired c' /\ cur_tables c' = [].
Proof.
  apply (ranked_loop_in_budget and_ready and_rk and_nrk 2 2 and_all);
    [apply and_ready_wired|apply and_ready_ranked|vm_compute; discriminate].
Defined.

(** Counting the budget in binary and stopping early gives the state of
    ten million iterations of the body of the loop. *)
Theorem budget_is_iteration (c : circult device) :
  update_table_digital_clk c = loop_iter (Pos.to_nat 10000000) (seed_tables c).
Proof. apply loop_budget_iter. Qed.

(** A valuation that has the states of some nodes has their list. *)
Lemma digs_map ns (v : node_ptr -> dns) l vs :
  digs ns l vs -> (forall n w, n ∈ l -> dig ns n = Some w -> v n = w) -> map v l = vs.
Proof.
  induction 1 as [|n w l vs Hw HF IH]; intros Hv; simpl; [done|]. f_equal.
  - apply Hv; [set_solver|done].
  - apply IH. intros k u Hk. apply Hv. set_solver.
Qed.

(** In a ranked circuit the settled states are unique: a valuation of the
    nodes that agrees with the states of the undriven nodes, and in which the
    outputs of every model are its reaction to its inputs, is the state of the
    circuit.  So the result of a settled tick does not depend on the order (of
    addresses) in which the loop evaluates the models. *)
Theorem settled_states_unique (c : circult device) rk nrk R K all (v : node_ptr -> dns) :
  ranked rk nrk R K all c -> (forall ip d, st_impls c !! ip = Some d -> quiescent (st_nodes c) d) ->
  (forall ip d, st_impls c !! ip = Some d ->
     map v (r_outs rm d) = snd (r_react rm update_table d (map v (r_ins rm d)))) ->
  (forall n w, dig (st_nodes c) n = Some w ->
     (forall ip d, st_impls c !! ip = Some d -> n ∉ r_outs rm d) -> v n = w) ->
  forall n w, dig (st_nodes c) n = Some w -> v n = w.
Proof.
  intros HR HQ HE HS n. remember (nrk n) as k eqn:Ek. revert n Ek.
  induction k as [k IH] using lt_wf_ind. intros n -> w Hw.
  destruct (decide (map_Exists (fun _ d => n ∈ r_outs rm d) (st_impls c))) as [(ip & d & Hd & Hn)|Hno].
  - destruct (HQ ip d Hd) as (xs & os & Hxs & Hos & Hr). specialize (HE ip d Hd).
    rewrite (digs_map (st_nodes c) v _ xs Hxs) in HE.
    + rewrite Hr in HE. cbn [snd] in HE. apply list_elem_of_lookup in Hn as [i Hi].
      assert (Hv : map v (r_outs rm d) !! i = Some (v n)) by (by rewrite list_lookup_fmap, Hi).
      rewrite HE in Hv. eapply Forall2_lookup_lr in Hos; [|exact Hi|exact Hv]. simpl in Hos. congruence.
    + intros j u Hj Hu. eapply (IH (nrk j)); [|reflexivity|exact Hu].
      rewrite (rk_out _ _ _ _ _ c HR ip d n Hd Hn). by eapply rk_in.
  - apply HS; [done|]. intros ip d Hd Hn. apply Hno. by exists ip, d.
Qed.

(** The states of the example after its first tick: everything is [H]. *)
Lemma and_ticked_ranked : ranked and_rk and_nrk 2 2 and_all (ticked and_ready).
Proof.
  split.
  - intros ip d n Hd Hn. in_map Hd; vm_compute in Hn; try (by apply not_elem_of_nil in Hn); by in_list Hn.
  - intros ip d n Hd Hn. in_map Hd; vm_compute in Hn; try (by apply not_elem_of_nil in Hn); in_list Hn;
      vm_compute; lia.
  - intros ip d Hd. in_map Hd; unfold and_all; set_solver.
  - intros ip Hip. unfold and_all in Hip. in_list Hip; vm_compute; lia.
  - intros ip d Hd. in_map Hd; vm_compute; lia.
Qed.

Lemma and_ticked_quiescent ip d :
  st_impls (ticked and_ready) !! ip = Some d -> quiescent (st_nodes (ticked and_ready)) d.
Proof.
  intros Hd. in_map Hd.
  - exists [], [sH]. repeat split; repeat constructor.
  - exists [sH; sH], [sH]. repeat split; repeat constructor.
  - exists [sH], []. repeat split; repeat constructor.
  - exists [], [sH]. repeat split; repeat constructor.
Qed.

Lemma settled_states_unique_witness :
  dig (st_nodes (ticked and_ready)) 3%N = Some sH /\
  forall n w, dig (st_nodes (ticked and_ready)) n = Some w -> (fun m => if (m =? 0)%N then sL else sH) n = w.
Proof.
  split; [vm_compute; reflexivity|].
  apply (settled_states_unique (ticked and_ready) and_rk and_nrk 2 2 and_all);
    [apply and_ticked_ranked|apply and_ticked_quiescent| |].
  - intros ip d Hd. in_map Hd; reflexivity.
  - intros n w Hn Hno. unfold dig in Hn. destruct (st_nodes (ticked and_ready) !! n) as [nd|] eqn:E; [|done].
    in_map E; simpl in Hn; simplify_eq; reflexivity.
Defined.

(** ** The tri-state buffer *)

(** A connected tri-state buffer puts its output node into the table at
    every evaluation, also when the state of the node does not change; the
    node's pins include the buffer's own, so the event loop evaluates it again. *)
Theorem tri_always_schedules (m : TRI.t) t meth s ni nen no vi ven vo :
  wires (TRI.t_pins m) = Some [ni; nen; no] ->
  dig (d_nodes s) ni = Some vi -> dig (d_nodes s) nen = Some ven -> dig (d_nodes s) no = Some vo ->
  exists s', TRI.update_digital_clk_define m t meth s = Some ((m, no_need), s') /\
    dig (d_nodes s') no = Some (if dns_eqb ven sH then vi else sZ) /\ d_tables s' = oset_insert no (d_tables s).
Proof.
  intros Hw Hi Hen Ho. pose proof (wires_length _ _ Hw) as Hlen. destruct m as [ps l h]. simpl in *.
  symmetry in Hlen. split_list ps Hlen. unfold TRI.update_digital_clk_define. do 3 run_head.
  split_nodes; cbn in *; try discriminate Hw. injection Hw as -> -> ->.
  erewrite bind_run by (unfold TRI.read_enabled; erewrite bind_run by (eapply run_get_num; eassumption); cbn;
    erewrite bind_run by (eapply run_get_dn; eassumption); reflexivity).
  exists {| d_nodes := upd (d_nodes s) no (if dns_eqb ven sH then vi else sZ);
            d_tables := oset_insert no (d_tables s) |}.
  split; [|split; [|done]].
  - destruct (dns_eqb ven sH); cbn [negb]; repeat run_head; cbn;
      by erewrite bind_run by (eapply run_set_dn; eassumption).
  - simpl. rewrite dig_upd by eauto. by rewrite decide_True.
Qed.

Definition tri_circuit : circult device :=
  circuit_of
    [(1%N, [(10%N, 0%N); (12%N, 0%N)]); (2%N, [(11%N, 0%N); (12%N, 1%N)]); (3%N, [(12%N, 2%N); (13%N, 0%N)])]
    [(10%N, place (input_of sH) [1%N]); (11%N, place (input_of sH) [2%N]);
     (12%N, place (m_TRI TRI.default) [1%N; 2%N; 3%N]); (13%N, place (m_OUTPUT OUTPUT.default) [3%N])].
Definition tri_started : circult device :=
  match before_digital_clk (prepared tri_circuit) with Some c => seed_tables c | None => tri_circuit end.

Lemma tri_always_schedules_witness :
  exists s', TRI.update_digital_clk_define
      (match st_impls tri_started !! 12%N with Some (m_TRI m) => m | _ => TRI.default end) d_zero update_table
      (here tri_started) = Some ((match st_impls tri_started !! 12%N with Some (m_TRI m) => m | _ => TRI.default end,
        no_need), s') /\
    dig (d_nodes s') 3%N = Some (if dns_eqb sH sH then sH else sZ) /\
    d_tables s' = oset_insert 3%N (d_tables (here tri_started)).
Proof. eapply tri_always_schedules; vm_compute; reflexivity. Defined.

Lemma tri_stuck k c : loop_body c = Some c -> loop_iter k c = Some c.
Proof. intros E. induction k as [|k IH]; simpl; [done|]. by rewrite E. Qed.

Definition tri_loop : circult device :=
  match loop_iter 3 tri_started with Some c => c | None => tri_started end.

Lemma tri_reaches_loop : loop_iter 3 tri_started = Some tri_loop.
Proof. vm_compute. reflexivity. Qed.
Lemma tri_loop_fixed : loop_body tri_loop = Some tri_loop.
Proof. vm_compute. reflexivity. Qed.
Lemma tri_loop_tables : cur_tables tri_loop = [3%N].
Proof. vm_compute. reflexivity. Qed.
Lemma tri_start_tables :
  (exists c', loop_iter 0 tri_started = Some c' /\ cur_tables c' <> []) /\
  (exists c', loop_iter 1 tri_started = Some c' /\ cur_tables c' <> []) /\
  (exists c', loop_iter 2 tri_started = Some c' /\ cur_tables c' <> []).
Proof. repeat split; eexists; (split; [vm_compute; reflexivity|discriminate]). Qed.

(** A circuit of two inputs, a tri-state buffer and an output never
    empties its table, however many iterations the event loop makes; so each
    tick of it exhausts the budget of the loop. *)
Theorem tri_never_settles : forall k, exists c', loop_iter k tri_started = Some c' /\ cur_tables c' <> [].
Proof.
  destruct tri_start_tables as (H0 & H1 & H2). intros [|[|[|k]]]; [done..|].
  change (S (S (S k))) with (3 + k)%nat. rewrite loop_iter_add, tri_reaches_loop, tri_stuck by apply tri_loop_fixed.
  exists tri_loop. by rewrite tri_loop_tables.
Qed.
