(* ===== verification/Functions.v ===== *)
(** * Functions: what the models compute

    The arithmetic models on binary inputs, the counter and the shift register,
    the delay line, the byte terminals, the resolution of two drivers, the
    Schmitt trigger and the sampling of analog inputs. *)

From Stdlib Require Import ZArith Lia.
From stdpp Require Import base list gmap strings.
From S2P Require Import Prelude Store Logic4 Gates Devices Sequential Arith Model.
From S2P Require Import Reactive Reaction Reactions.

Open Scope Z_scope.

(** ** Arithmetic *)

(** A binary state, and its value. *)
Definition binary (s : dns) : Prop := s = sL \/ s = sH.
Definition bit (s : dns) : Z := if dns_eqb s sH then 1 else 0.

(** A state of the store in which the nodes of a model with pins [ps] have the
    states [xs] (inputs) and [os] (outputs), the outputs being distinct nodes. *)
Definition wired_state (s : dstate) (k : nat) (ps : list pin) (xs os : list dns) : Prop :=
  digs (d_nodes s) (port_ins k ps) xs /\ digs (d_nodes s) (port_outs k ps) os /\ NoDup (port_outs k ps) /\
  is_Some (wires ps).

Lemma arith2_runs k f update clip t meth s xs os v0 v1 :
  reaction_laws ar_pins update (arith2_reaction k f) -> length (ar_pins clip) = S (S k) ->
  wired_state s k (ar_pins clip) xs os -> os = [last_0 clip; last_1 clip] -> f (map z_to_x xs) = (v0, v1) ->
  exists clip' s', update clip t meth s = Some ((clip', no_need), s') /\
    digs (d_nodes s') (port_outs k (ar_pins clip)) [v0; v1].
Proof.
  intros HL Hlen (Hi & Ho & Hnd & [l Hw]) Ha Hf.
  destruct (r_react (arith2_reaction k f) meth clip xs) as [clip' ys] eqn:Hr.
  assert (ys = [v0; v1]) as -> by (simpl in Hr; rewrite Hw, Hf in Hr; by simplify_eq).
  exists clip', (put_all (port_outs k (ar_pins clip)) [v0; v1] s). split.
  - eapply (l_run _ _ _ HL clip t meth s xs os); simpl; auto. unfold all_wired. by rewrite Hw.
  - apply put_all_digs; [done| |by eapply digs_is_Some].
    unfold port_outs. rewrite Hw, length_drop, (wires_length _ _ Hw), Hlen. simpl. lia.
Qed.

(** Binary inputs are concrete cases. *)
Ltac binary_cases := repeat match goal with
  | H : binary ?x |- _ => destruct H; subst x
  end.

(** On binary inputs the full adder's outputs are the two bits of the sum
    [ia + ib + cin]: its code leaves [s] and [cout] with
    [s + 2 * cout = ia + ib + cin]. *)
Theorem full_adder_adds (clip : arith2) t meth s os a b ci :
  length (ar_pins clip) = 5%nat -> wired_state s 3 (ar_pins clip) [a; b; ci] os ->
  os = [last_0 clip; last_1 clip] -> binary a -> binary b -> binary ci ->
  exists clip' s' vs vc, FULL_ADDER.update_digital_clk_define clip t meth s = Some ((clip', no_need), s') /\
    digs (d_nodes s') (port_outs 3 (ar_pins clip)) [vs; vc] /\ binary vs /\ binary vc /\
    bit vs + 2 * bit vc = bit a + bit b + bit ci.
Proof.
  intros Hlen Hs Hos Ha Hb Hc.
  destruct (pair_of3 FULL_ADDER.outputs (map z_to_x [a; b; ci])) as [vs vc] eqn:Ef.
  destruct (arith2_runs 3 _ _ clip t meth s _ os vs vc (full_laws FULL_ADDER.outputs) Hlen Hs Hos Ef)
    as (clip' & s' & Hrun & Hd).
  exists clip', s', vs, vc. split; [exact Hrun|]. split; [done|].
  binary_cases; vm_compute in Ef; simplify_eq; repeat split; first [by left|by right].
Qed.

(** On binary inputs the full subtractor's outputs are the difference and
    the borrow: [d - 2 * bout = ia - ib - bin]. *)
Theorem full_subtractor_subtracts (clip : arith2) t meth s os a b bi :
  length (ar_pins clip) = 5%nat -> wired_state s 3 (ar_pins clip) [a; b; bi] os ->
  os = [last_0 clip; last_1 clip] -> binary a -> binary b -> binary bi ->
  exists clip' s' vd vb, FULL_SUB.update_digital_clk_define clip t meth s = Some ((clip', no_need), s') /\
    digs (d_nodes s') (port_outs 3 (ar_pins clip)) [vd; vb] /\ binary vd /\ binary vb /\
    bit vd - 2 * bit vb = bit a - bit b - bit bi.
Proof.
  intros Hlen Hs Hos Ha Hb Hc.
  destruct (pair_of3 FULL_SUB.outputs (map z_to_x [a; b; bi])) as [vs vc] eqn:Ef.
  destruct (arith2_runs 3 _ _ clip t meth s _ os vs vc (full_laws FULL_SUB.outputs) Hlen Hs Hos Ef)
    as (clip' & s' & Hrun & Hd).
  exists clip', s', vs, vc. split; [exact Hrun|]. split; [done|].
  binary_cases; vm_compute in Ef; simplify_eq; repeat split; first [by left|by right].
Qed.

(** The half adder and the half subtractor on binary inputs:
    [s + 2 * c = ia + ib] and [d - 2 * b = ia - ib]. *)
Theorem half_models_compute (clip : arith2) t meth s os a b :
  length (ar_pins clip) = 4%nat -> wired_state s 2 (ar_pins clip) [a; b] os ->
  os = [last_0 clip; last_1 clip] -> binary a -> binary b ->
  (exists clip' s' vs vc, HALF_ADDER.update_digital_clk_define clip t meth s = Some ((clip', no_need), s') /\
    digs (d_nodes s') (port_outs 2 (ar_pins clip)) [vs; vc] /\ bit vs + 2 * bit vc = bit a + bit b) /\
  (exists clip' s' vd vb, HALF_SUB.update_digital_clk_define clip t meth s = Some ((clip', no_need), s') /\
    digs (d_nodes s') (port_outs 2 (ar_pins clip)) [vd; vb] /\ bit vd - 2 * bit vb = bit a - bit b).
Proof.
  intros Hlen Hs Hos Ha Hb. split.
  - destruct (pair_of2 HALF_ADDER.outputs (map z_to_x [a; b])) as [vs vc] eqn:Ef.
    destruct (arith2_runs 2 _ _ clip t meth s _ os vs vc (half_laws HALF_ADDER.outputs) Hlen Hs Hos Ef)
      as (clip' & s' & Hrun & Hd).
    exists clip', s', vs, vc. split; [exact Hrun|]. split; [done|].
    binary_cases; vm_compute in Ef; by simplify_eq.
  - destruct (pair_of2 HALF_SUB.outputs (map z_to_x [a; b])) as [vs vc] eqn:Ef.
    destruct (arith2_runs 2 _ _ clip t meth s _ os vs vc (half_laws HALF_SUB.outputs) Hlen Hs Hos Ef)
      as (clip' & s' & Hrun & Hd).
    exists clip', s', vs, vc. split; [exact Hrun|]. split; [done|].
    binary_cases; vm_compute in Ef; by simplify_eq.
Qed.

(** The number of four states, bit 0 first. *)
Definition number (l : list dns) : Z := fold_right (fun s acc => bit s + 2 * acc) 0 l.

(** The two-by-two multiplier on binary inputs puts the four bits of the
    product on [p0..p3]. *)
Theorem mul2_multiplies (clip : MUL2.t) t meth s os a0 a1 b0 b1 :
  length (MUL2.m_pins clip) = 8%nat -> wired_state s 4 (MUL2.m_pins clip) [a0; a1; b0; b1] os ->
  os = MUL2.last_p clip -> binary a0 -> binary a1 -> binary b0 -> binary b1 ->
  exists clip' s' ps, MUL2.update_digital_clk_define clip t meth s = Some ((clip', no_need), s') /\
    digs (d_nodes s') (port_outs 4 (MUL2.m_pins clip)) ps /\ Forall binary ps /\
    number ps = number [a0; a1] * number [b0; b1].
Proof.
  intros Hlen (Hi & Ho & Hnd & [l Hw]) Hos H0 H1 H2 H3.
  set (ys := MUL2_outputs (map z_to_x [a0; a1; b0; b1])).
  assert (Hlo : length (port_outs 4 (MUL2.m_pins clip)) = 4%nat).
  { unfold port_outs. rewrite Hw, length_drop, (wires_length _ _ Hw), Hlen. done. }
  exists (MUL2_set clip ys), (put_all (port_outs 4 (MUL2.m_pins clip)) ys s), ys. split; [|split; [|split]].
  - eapply (l_run _ _ _ MUL2_laws clip t meth s [a0; a1; b0; b1] os); simpl; auto.
    + split; [done|]. rewrite <-Hos. symmetry. by rewrite <-Hlo, (digs_length _ _ _ Ho).
    + unfold all_wired. by rewrite Hw.
    + by rewrite Hw.
  - apply put_all_digs; [done| |by eapply digs_is_Some].
    unfold ys. by rewrite MUL2_outputs_length.
  - subst ys. binary_cases; repeat (apply Forall_cons; split; [first [by left|by right]|]); constructor.
  - subst ys. binary_cases; reflexivity.
Qed.

(** ** The combinational models *)

(** The states that a boolean function allows, given what its operands may
    carry. *)
Definition image1 (f : bool -> bool) (a : dns) (v : bool) : Prop := exists x, may a x = true /\ v = f x.
Definition image2 (f : bool -> bool -> bool) (a b : dns) (v : bool) : Prop :=
  exists x y, may a x = true /\ may b y = true /\ v = f x y.

(** An arithmetic model: the equation [eq] between the numbers of its inputs
    and outputs when all inputs are binary, and [X] on all outputs otherwise. *)
Definition arithmetic (xs ys : list dns) (eq : Prop) : Prop :=
  (Forall binary xs -> Forall binary ys /\ eq) /\ (~ Forall binary xs -> Forall (fun y => y = sX) ys).

(** What a model has to put on its outputs for given inputs. *)
Definition computes (d : device) (xs ys : list dns) : Prop :=
  match d, xs, ys with
  | m_AND _, [a; b], [y] => best_state (image2 andb a b) y
  | m_OR _, [a; b], [y] => best_state (image2 orb a b) y
  | m_XOR _, [a; b], [y] => best_state (image2 xorb a b) y
  | m_NAND _, [a; b], [y] => best_state (image2 (fun x y => negb (x && y)) a b) y
  | m_NOR _, [a; b], [y] => best_state (image2 (fun x y => negb (x || y)) a b) y
  | m_XNOR _, [a; b], [y] => best_state (image2 eqb a b) y
  | m_IMP _, [a; b], [y] => best_state (image2 implb a b) y
  | m_NIMP _, [a; b], [y] => best_state (image2 (fun x y => x && negb y) a b) y
  | m_NOT _, [a], [y] => best_state (image1 negb a) y
  | m_YES _, [a], [y] => y = a
  | m_CASE_EQ _, [a; b], [y] => (a = b -> y = sH) /\ (a <> b -> y = sL)
  | m_IS_UNKNOWN _, [a], [y] => (binary a -> y = sL) /\ (~ binary a -> y = sH)
  | m_RESOLVE2 _, [a; b], [y] =>
      (a = sZ -> y = b) /\ (b = sZ -> y = a) /\ (a = b -> y = a) /\ (a <> sZ -> b <> sZ -> a <> b -> y = sX)
  | m_HALF_ADDER _, [a; b], [s; c] => arithmetic xs ys (bit s + 2 * bit c = bit a + bit b)
  | m_FULL_ADDER _, [a; b; c], [s; co] => arithmetic xs ys (bit s + 2 * bit co = bit a + bit b + bit c)
  | m_HALF_SUB _, [a; b], [d; bo] => arithmetic xs ys (bit d - 2 * bit bo = bit a - bit b)
  | m_FULL_SUB _, [a; b; c], [d; bo] => arithmetic xs ys (bit d - 2 * bit bo = bit a - bit b - bit c)
  | m_MUL2 _, [a0; a1; b0; b1], _ => length ys = 4%nat /\ arithmetic xs ys (number ys = number [a0; a1] * number [b0; b1])
  | _, _, _ => False
  end.

(** The number of inputs and outputs of the combinational models. *)
Definition ports (d : device) : option (nat * nat) :=
  match d with
  | m_AND _ | m_OR _ | m_XOR _ | m_NAND _ | m_NOR _ | m_XNOR _ | m_IMP _ | m_NIMP _ | m_CASE_EQ _ | m_RESOLVE2 _ => Some (2, 1)%nat
  | m_NOT _ | m_YES _ | m_IS_UNKNOWN _ => Some (1, 1)%nat
  | m_HALF_ADDER _ | m_HALF_SUB _ => Some (2, 2)%nat
  | m_FULL_ADDER _ | m_FULL_SUB _ => Some (3, 2)%nat
  | m_MUL2 _ => Some (4, 4)%nat
  | _ => None
  end.

(** The outputs that a model last drove, where its code compares with them
    instead of with the node. *)
Definition last_driven (d : device) : option (list dns) :=
  match d with
  | m_AND m | m_OR m | m_XOR m | m_NAND m | m_NOR m | m_XNOR m | m_IMP m | m_NIMP m => Some [g2_last_outputA m]
  | m_NOT m | m_YES m => Some [g1_last_outputA m]
  | m_HALF_ADDER m | m_FULL_ADDER m | m_HALF_SUB m | m_FULL_SUB m => Some [last_0 m; last_1 m]
  | m_MUL2 m => Some (MUL2.last_p m)
  | _ => None
  end.

Lemma put_all_scheduled outs ys : forall os s m, digs (d_nodes s) outs os -> NoDup outs -> length ys = length outs ->
  m ∈ d_tables (put_all outs ys s) <-> m ∈ d_tables s \/ exists i, outs !! i = Some m /\ os !! i <> ys !! i.
Proof.
  revert ys. induction outs as [|n outs IH]; intros [|y ys] os s m Hd Hn Hl; try done; simpl.
  { split; [by left|]. intros [?|(i & Hi & _)]; [done|]. by rewrite lookup_nil in Hi. }
  apply Forall2_cons_inv_l in Hd as (o & os' & Ho & Hd & ->). apply NoDup_cons in Hn as [Hni Hn]. injection Hl as Hl.
  rewrite (IH ys os') by (by try apply digs_put_ne). unfold put. rewrite Ho.
  assert (Hs : (exists i, (n :: outs) !! i = Some m /\ (o :: os') !! i <> (y :: ys) !! i) <->
    (n = m /\ o <> y) \/ exists i, outs !! i = Some m /\ os' !! i <> ys !! i).
  { split.
    - intros ([|i] & Hi & Hne); simpl in *; [left; split; congruence|right; by exists i].
    - intros [[-> Hne]|(i & Hi & Hne)]; [exists 0%nat; split; [done|simpl; congruence]|by exists (S i)]. }
  rewrite Hs. destruct (dns_eqb o y) eqn:E.
  - apply dns_eqb_spec in E as ->. naive_solver.
  - assert (o <> y) by (intros ->; by rewrite dns_eqb_refl in E). simpl. rewrite elem_of_oset_insert. naive_solver.
Qed.

Lemma wired_split ps k ins outs : wires ps = Some (ins ++ outs) -> length ins = k ->
  port_ins k ps = ins /\ port_outs k ps = outs /\ length ps = (length ins + length outs)%nat.
Proof.
  intros Hw <-. unfold port_ins, port_outs. rewrite Hw. rewrite take_app_length, drop_app_length. split_and!; [done..|].
  by rewrite <- length_app, (wires_length _ _ Hw).
Qed.

(** A table of states is the best one for a boolean function. *)
Lemma best_of2 (f : bool -> bool -> bool) (op : dns -> dns -> dns) :
  (forall a b v, may (op a b) v = existsb (fun x => existsb (fun y => may a x && may b y && eqb v (f x y)) [true; false]) [true; false]) ->
  (forall a b, op a b <> sZ) -> forall a b, best_state (image2 f a b) (op a b).
Proof.
  intros H Hz a b. split; [done|]. intros v. rewrite H, existsb_exists. split.
  - intros (x & _ & Hx). apply existsb_exists in Hx as (y & _ & Hy). rewrite !andb_true_iff, eqb_true_iff in Hy. destruct Hy as [[? ?] ->]. by exists x, y.
  - intros (x & y & Hx & Hy & ->). exists x. split; [destruct x; set_solver|]. apply existsb_exists. exists y. split; [destruct y; set_solver|].
    by rewrite Hx, Hy, eqb_reflx.
Qed.
Lemma best_of1 (f : bool -> bool) (op : dns -> dns) :
  (forall a v, may (op a) v = existsb (fun x => may a x && eqb v (f x)) [true; false]) -> (forall a, op a <> sZ) -> forall a, best_state (image1 f a) (op a).
Proof.
  intros H Hz a. split; [done|]. intros v. rewrite H, existsb_exists. split.
  - intros (x & _ & Hx). rewrite !andb_true_iff, eqb_true_iff in Hx. destruct Hx as [? ->]. by exists x.
  - intros (x & Hx & ->). exists x. split; [destruct x; set_solver|]. by rewrite Hx, eqb_reflx.
Qed.

(** The arithmetic models, input by input. *)
Definition is_binary (s : dns) : bool := dns_eqb s sL || dns_eqb s sH.
Lemma is_binary_spec l : Forall binary l <-> forallb is_binary l = true.
Proof.
  unfold binary. rewrite forallb_forall, Forall_forall. split; intros H x Hx; specialize (H x ltac:(by apply list_elem_of_In)); destruct x; try done; auto; by destruct H.
Qed.
Lemma arithmetic_of xs ys (eq : Prop) :
  (if forallb is_binary xs then forallb is_binary ys = true /\ eq else forallb (fun y => dns_eqb y sX) ys = true) -> arithmetic xs ys eq.
Proof.
  intros H. unfold arithmetic. rewrite !is_binary_spec. destruct (forallb is_binary xs); [by split|]. split; [done|]. intros _.
  apply Forall_forall. intros y Hy. rewrite forallb_forall in H. apply dns_eqb_spec, H. by apply list_elem_of_In.
Qed.

Ltac unfold_pins H := cbv [device_pins AND.generate_pin_view_define OR.generate_pin_view_define XOR.generate_pin_view_define NAND.generate_pin_view_define
  NOR.generate_pin_view_define XNOR.generate_pin_view_define IMP.generate_pin_view_define NIMP.generate_pin_view_define NOT.generate_pin_view_define
  YES.generate_pin_view_define CASE_EQ.generate_pin_view_define IS_UNKNOWN.generate_pin_view_define RESOLVE2.generate_pin_view_define
  HALF_ADDER.generate_pin_view_define FULL_ADDER.generate_pin_view_define HALF_SUB.generate_pin_view_define FULL_SUB.generate_pin_view_define
  MUL2.generate_pin_view_define] in H.
Ltac all_states := repeat match goal with x : digital_node_statement_t |- _ => destruct x end.
Ltac gate_table := match goal with
  | |- best_state (image2 ?f ?a ?b) ?y => revert a b; apply (best_of2 f); [intros [] [] []; reflexivity|intros [] []; discriminate]
  | |- best_state (image1 ?f ?a) ?y => revert a; apply (best_of1 f); [intros [] []; reflexivity|intros []; discriminate]
  end.
Ltac sum_table := all_states; apply arithmetic_of; vm_compute; first [reflexivity|split; reflexivity].

Lemma reaction_computes d meth ins outs xs : ports d = Some (length ins, length outs) -> wires (device_pins d) = Some (ins ++ outs) -> length xs = length ins ->
  computes d xs (snd (r_react device_reaction meth d xs)).
Proof.
  intros Hp Hw Hl. destruct d; try done; injection Hp as Hi Ho; rewrite <- Hi in Hl; split_list xs Hl;
    unfold_pins Hw; cbn [r_react device_reaction device_view v_rx v_val v_inj as_view]; cbv beta zeta;
    cbn [r_react gate2_reaction gate1_reaction CASE_EQ_reaction IS_UNKNOWN_reaction RESOLVE2_reaction arith2_reaction MUL2_reaction]; rewrite Hw;
    cbn [snd computes pair_of2 pair_of3 map MUL2_outputs]; try gate_table.
  - done.
  - by all_states.
  - unfold binary. all_states; split; intros H; try done; destruct H; auto; done.
  - by all_states.
  - sum_table.
  - sum_table.
  - sum_table.
  - sum_table.
  - split; [apply (MUL2_outputs_length [_; _; _; _])|]. sum_table.
Qed.

(** The wiring, the remembered outputs and the well-formedness of the contract. *)
Lemma reaction_ports d ins outs os : ports d = Some (length ins, length outs) -> wires (device_pins d) = Some (ins ++ outs) ->
  length os = length outs -> (forall l, last_driven d = Some l -> os = l) ->
  r_wf device_reaction d /\ r_ins device_reaction d = ins /\ r_outs device_reaction d = outs /\ r_agree device_reaction d os.
Proof.
  intros Hp Hw Hos Hl. destruct d; try done; injection Hp as Hi Ho; unfold_pins Hw;
    destruct (wired_split _ _ ins outs Hw eq_refl) as (E1 & E2 & E3); simpl in *; rewrite <- Hi in E1, E2; rewrite E1, E2, <- ?Hi, <- ?Ho in *;
    unfold all_wired; rewrite ?Hw; repeat split; auto; rewrite <- (Hl _ eq_refl); auto.
Qed.
Lemma agree_last d os l : is_Some (wires (device_pins d)) -> r_agree device_reaction d os -> last_driven d = Some l -> os = l.
Proof. intros [w Hw] Ha El. destruct d; try done; unfold_pins Hw; simpl in Ha, El; unfold all_wired in Ha; rewrite Hw in Ha; by injection El as <-. Qed.

(** C6: each of the eighteen combinational models computes its function.  When
    all pins of the model are connected to digital nodes, the inputs being
    in the states [xs], the output nodes are distinct, and they are still in the
    states that the model last drove (where it remembers them; the case
    comparison, the test for unknown and the resolution of two drivers do
    not), then its update, at any time and for any update method, succeeds
    without an analog request and: the outputs get the states that the model
    has to compute - the most precise state of the boolean function for the
    gates, the digits of the sum, difference and product for the arithmetic
    models (all [X] if an input is not binary), and the tables of the others;
    no other node changes; exactly the outputs that changed are scheduled;
    the pins stay, and the model remembers the outputs that it drove. *)
Theorem combinational_models_compute (d : device) t meth s ins outs xs os :
  ports d = Some (length ins, length outs) -> wires (device_pins d) = Some (ins ++ outs) ->
  digs (d_nodes s) ins xs -> digs (d_nodes s) outs os -> NoDup outs -> (forall l, last_driven d = Some l -> os = l) ->
  exists d' s' ys, device_update d t meth s = Some ((d', no_need), s') /\
    computes d xs ys /\ digs (d_nodes s') outs ys /\
    (forall n, n ∉ outs -> d_nodes s' !! n = d_nodes s !! n) /\
    (forall n, n ∈ d_tables s' <-> n ∈ d_tables s \/ exists i, outs !! i = Some n /\ os !! i <> ys !! i) /\
    device_pins d' = device_pins d /\ (forall l, last_driven d' = Some l -> l = ys).
Proof.
  intros Hp Hw Hi Ho Hn Hl. destruct (reaction_ports d ins outs os Hp Hw (eq_sym (digs_length _ _ _ Ho)) Hl) as (Hwf & Ei & Eo & Ha).
  destruct (r_react device_reaction meth d xs) as [d' ys] eqn:Hr. pose proof (digs_length _ _ _ Hi) as Hli.
  destruct (l_keep _ _ _ device_laws meth d xs d' ys) as (_ & Ep & _ & _ & Hly & Ha' & _); [done|by rewrite Ei|done|]. rewrite Eo in Hly.
  exists d', (put_all outs ys s), ys. split_and!.
  - rewrite <- Eo. eapply (l_run _ _ _ device_laws); [done|by rewrite Ei|by rewrite Eo|done|by rewrite Eo|done].
  - pose proof (reaction_computes d meth ins outs xs Hp Hw (eq_sym Hli)) as Hc. by rewrite Hr in Hc.
  - apply put_all_digs; [done|done|by eapply digs_is_Some].
  - intros n. apply put_all_frame.
  - intros n. by apply put_all_scheduled.
  - done.
  - intros l El. symmetry. eapply agree_last; [by rewrite Ep, Hw|exact Ha'|exact El].
Qed.

(** Concrete stores for the applications. *)
Definition state_of (l : list (node_ptr * dns)) : dstate :=
  {| d_nodes := list_to_map (map (fun x =>
       (x.1, {| node_information := dn x.2; pins := []; num_of_analog_node := 0; node_index := SIZE_MAX |})) l);
     d_tables := [] |}.
Definition pins_on (ns : list node_ptr) : list pin :=
  map (fun n => {| name := ""; nodes := Some n; model := None |}) ns.
Definition arith2_on (ns : list node_ptr) : arith2 :=
  {| ar_pins := pins_on ns; ar_Ll := d_zero; ar_Hl := d_five; last_0 := sX; last_1 := sX |}.
Definition five_nodes : dstate := state_of [(1%N, sH); (2%N, sL); (3%N, sH); (4%N, sX); (5%N, sX)].

Ltac concrete_state :=
  repeat split; try (vm_compute; repeat constructor; set_solver); try (eexists; reflexivity).

Lemma five_nodes_wired : wired_state five_nodes 3 (pins_on [1%N; 2%N; 3%N; 4%N; 5%N]) [sH; sL; sH] [sX; sX].
Proof. concrete_state. Qed.

Lemma four_nodes_wired : wired_state five_nodes 2 (pins_on [1%N; 2%N; 4%N; 5%N]) [sH; sL] [sX; sX].
Proof. concrete_state. Qed.

Lemma combinational_models_compute_witness :
  exists d' s' ys, device_update (m_FULL_ADDER (arith2_on [1%N; 2%N; 3%N; 4%N; 5%N])) d_zero update_table five_nodes =
      Some ((d', no_need), s') /\
    computes (m_FULL_ADDER (arith2_on [1%N; 2%N; 3%N; 4%N; 5%N])) [sH; sL; sH] ys /\ digs (d_nodes s') [4%N; 5%N] ys.
Proof.
  destruct (combinational_models_compute (m_FULL_ADDER (arith2_on [1%N; 2%N; 3%N; 4%N; 5%N])) d_zero update_table five_nodes
    [1%N; 2%N; 3%N] [4%N; 5%N] [sH; sL; sH] [sX; sX]) as (d' & s' & ys & E & Hc & Hd & _);
    [reflexivity|reflexivity|repeat constructor|repeat constructor|repeat constructor; set_solver|intros l [= <-]; reflexivity|].
  exists d', s', ys. split; [exact E|]. split; [exact Hc|exact Hd].
Defined.

Lemma full_adder_adds_witness :
  exists clip' s' vs vc, FULL_ADDER.update_digital_clk_define (arith2_on [1%N; 2%N; 3%N; 4%N; 5%N]) d_zero
      update_table five_nodes = Some ((clip', no_need), s') /\
    digs (d_nodes s') [4%N; 5%N] [vs; vc] /\ binary vs /\ binary vc /\ bit vs + 2 * bit vc = 2.
Proof.
  apply (full_adder_adds (arith2_on [1%N; 2%N; 3%N; 4%N; 5%N]) d_zero update_table five_nodes [sX; sX] sH sL sH);
    [reflexivity|exact five_nodes_wired|reflexivity|right; reflexivity|left; reflexivity|right; reflexivity].
Defined.

Lemma full_subtractor_subtracts_witness :
  exists clip' s' vd vb, FULL_SUB.update_digital_clk_define (arith2_on [1%N; 2%N; 3%N; 4%N; 5%N]) d_zero
      update_table five_nodes = Some ((clip', no_need), s') /\
    digs (d_nodes s') [4%N; 5%N] [vd; vb] /\ binary vd /\ binary vb /\ bit vd - 2 * bit vb = 0.
Proof.
  apply (full_subtractor_subtracts (arith2_on [1%N; 2%N; 3%N; 4%N; 5%N]) d_zero update_table five_nodes
    [sX; sX] sH sL sH);
    [reflexivity|exact five_nodes_wired|reflexivity|right; reflexivity|left; reflexivity|right; reflexivity].
Defined.

Lemma half_models_compute_witness :
  (exists clip' s' vs vc, HALF_ADDER.update_digital_clk_define (arith2_on [1%N; 2%N; 4%N; 5%N]) d_zero
      update_table five_nodes = Some ((clip', no_need), s') /\
    digs (d_nodes s') [4%N; 5%N] [vs; vc] /\ bit vs + 2 * bit vc = 1) /\
  (exists clip' s' vd vb, HALF_SUB.update_digital_clk_define (arith2_on [1%N; 2%N; 4%N; 5%N]) d_zero
      update_table five_nodes = Some ((clip', no_need), s') /\
    digs (d_nodes s') [4%N; 5%N] [vd; vb] /\ bit vd - 2 * bit vb = 1).
Proof.
  apply (half_models_compute (arith2_on [1%N; 2%N; 4%N; 5%N]) d_zero update_table five_nodes [sX; sX] sH sL);
    [reflexivity|exact four_nodes_wired|reflexivity|right; reflexivity|left; reflexivity].
Defined.

Definition eight_nodes : dstate :=
  state_of [(1%N, sH); (2%N, sH); (3%N, sL); (4%N, sH); (5%N, sX); (6%N, sX); (7%N, sX); (8%N, sX)].
Definition mul2_on : MUL2.t :=
  {| MUL2.m_pins := pins_on [1%N; 2%N; 3%N; 4%N; 5%N; 6%N; 7%N; 8%N]; MUL2.m_Ll := d_zero;
     MUL2.m_Hl := d_five; MUL2.last_p := [sX; sX; sX; sX] |}.

Lemma eight_nodes_wired :
  wired_state eight_nodes 4 (MUL2.m_pins mul2_on) [sH; sH; sL; sH] [sX; sX; sX; sX].
Proof. concrete_state. Qed.

Lemma mul2_multiplies_witness :
  exists clip' s' ps, MUL2.update_digital_clk_define mul2_on d_zero update_table eight_nodes =
      Some ((clip', no_need), s') /\
    digs (d_nodes s') [5%N; 6%N; 7%N; 8%N] ps /\ Forall binary ps /\ number ps = 6.
Proof.
  apply (mul2_multiplies mul2_on d_zero update_table eight_nodes [sX; sX; sX; sX] sH sH sL sH);
    [reflexivity|exact eight_nodes_wired|reflexivity|right; reflexivity|right; reflexivity|left; reflexivity
    |right; reflexivity].
Defined.

(** ** The counter and the shift register *)

(** [k] clock pulses: the clock goes low, then high. *)
Fixpoint pulses (k : nat) (en : dns) (clip : COUNTER4.t) : COUNTER4.t :=
  match k with
  | O => clip
  | S k' => pulses k' en (COUNTER4.next (COUNTER4.next clip sL en) sH en)
  end.

Lemma counter_pulse clip :
  COUNTER4.unknown clip = false -> 0 <= COUNTER4.value clip < 16 ->
  let c := COUNTER4.next (COUNTER4.next clip sL sH) sH sH in
  COUNTER4.unknown c = false /\ COUNTER4.value c = (COUNTER4.value clip + 1) mod 16.
Proof.
  intros Hu Hv. destruct clip as [ps l h v u c lv lu]. simpl in Hu, Hv. subst u.
  destruct c; (split; [reflexivity|]); change (u8_wrap (Z.land (v + 1) (Z.ones 4)) = (v + 1) mod 2 ^ 4);
    rewrite Z.land_ones by lia; apply u8_wrap_small; pose proof (Z.mod_pos_bound (v + 1) (2 ^ 4)); lia.
Qed.

(** A counter that is not in the unknown state advances by one, modulo
    sixteen, at every clock pulse with a high [en]; with a low [en] it holds. *)
Theorem counter_counts_pulses (clip : COUNTER4.t) (k : nat) :
  COUNTER4.unknown clip = false -> 0 <= COUNTER4.value clip < 16 ->
  COUNTER4.unknown (pulses k sH clip) = false /\
  COUNTER4.value (pulses k sH clip) = (COUNTER4.value clip + Z.of_nat k) mod 16 /\
  COUNTER4.value (pulses k sL clip) = COUNTER4.value clip.
Proof.
  intros Hu Hv. assert (HL : forall k c, COUNTER4.value (pulses k sL c) = COUNTER4.value c).
  { induction k0 as [|j IH]; intros c; simpl; [done|]. rewrite IH. by destruct c as [? ? ? ? ? [] ? ?]. }
  rewrite HL. revert clip Hu Hv. induction k as [|k IH]; intros clip Hu Hv.
  - simpl. rewrite Z.add_0_r, Z.mod_small by lia. done.
  - cbn [pulses]. destruct (counter_pulse clip Hu Hv) as [Hu' Hv'].
    destruct (IH _ Hu') as (E1 & E2 & _); [rewrite Hv'; apply Z.mod_pos_bound; lia|].
    split; [done|]. split; [|done]. rewrite E2, Hv', Zplus_mod_idemp_l. f_equal. lia.
Qed.

Lemma counter_counts_pulses_witness :
  COUNTER4.unknown (pulses 20 sH COUNTER4.default) = false /\
  COUNTER4.value (pulses 20 sH COUNTER4.default) = 4 /\ COUNTER4.value (pulses 20 sL COUNTER4.default) = 0.
Proof. apply (counter_counts_pulses COUNTER4.default 20); [reflexivity|vm_compute; split; congruence]. Defined.

(** [k] steps of the shift register. *)
Definition lfsr_iter (k : nat) (s : Z) : Z := Nat.iter k RANDOM_GENERATOR4.lfsr_step s.

(** The shift register of the random generator has one cycle of length 15
    through all the states but 15, entered by the reset state 0; the state 15
    is a fixed point, which no other state reaches. *)
Theorem lfsr_maximal_cycle :
  (forall s, 0 <= s < 15 -> exists k, (k < 15)%nat /\ lfsr_iter k 0 = s) /\
  lfsr_iter 15 0 = 0 /\
  (forall s, 0 <= s < 15 -> RANDOM_GENERATOR4.lfsr_step s <> 15) /\
  RANDOM_GENERATOR4.lfsr_step 15 = 15.
Proof.
  pose proof (below_cases 15 (fun s => existsb (fun k => lfsr_iter k 0 =? s) (seq 0 15))
    ltac:(vm_compute; reflexivity)) as Hr.
  pose proof (below_cases 15 (fun s => negb (RANDOM_GENERATOR4.lfsr_step s =? 15))
    ltac:(vm_compute; reflexivity)) as Hn.
  split; [|split; [reflexivity|split; [|reflexivity]]].
  - intros s Hs. specialize (Hr s Hs). apply existsb_exists in Hr as (k & Hk & E).
    exists k. apply in_seq in Hk. split; [lia|]. by apply Z.eqb_eq.
  - intros s Hs. specialize (Hn s Hs). apply negb_true_iff, Z.eqb_neq in Hn. done.
Qed.
