(* ===== verification/Traces.v ===== *)
(** * Traces: models over sequences of evaluations

    The delay line over ticks, the flip-flop over samples of its clock, and a
    byte sent from the eight-bit input to the eight-bit display. *)

From Stdlib Require Import ZArith Lia.
From stdpp Require Import base list gmap strings.
From S2P Require Import Prelude Store Logic4 Gates Devices Sequential Arith Model.
From S2P Require Import Reactive Reaction Reactions Functions.

Open Scope Z_scope.

(** ** The delay line *)

(** The states of the output node while the input node takes the states of
    [l], one tick each. *)
Fixpoint delay_run (m : TICK_DELAY.t) (s : dstate) (ni no : node_ptr) (l : list dns) : option (list dns) :=
  match l with
  | [] => Some []
  | x :: l' =>
      match TICK_DELAY.update_digital_clk_define m d_zero before_all_clk
              {| d_nodes := upd (d_nodes s) ni x; d_tables := d_tables s |} with
      | None => None
      | Some ((m', _), s') =>
          match dig (d_nodes s') no, delay_run m' s' ni no l' with
          | Some o, Some os => Some (o :: os)
          | _, _ => None
          end
      end
  end.

(** The same with the abstract step. *)
Fixpoint td_run (m : TICK_DELAY.t) (l : list dns) : list dns :=
  match l with
  | [] => []
  | x :: l' => let '(m', o) := td_step m x in o :: td_run m' l'
  end.

Lemma delay_run_td m s ni no l :
  td_node 0 m = Some ni -> td_node 1 m = Some no -> ni <> no -> r_wf TICK_DELAY_reaction m ->
  is_Some (dig (d_nodes s) ni) -> dig (d_nodes s) no = Some (TICK_DELAY.last_out m) ->
  delay_run m s ni no l = Some (td_run m l).
Proof.
  revert m s. induction l as [|x l IH]; intros m s H0 H1 Hne Hwf Hi Ho; simpl; [done|].
  set (s1 := {| d_nodes := upd (d_nodes s) ni x; d_tables := d_tables s |}).
  assert (Hi1 : dig (d_nodes s1) ni = Some x) by (simpl; rewrite dig_upd by done; by rewrite decide_True).
  assert (Ho1 : dig (d_nodes s1) no = Some (TICK_DELAY.last_out m)).
  { simpl. rewrite dig_upd by done. by rewrite decide_False. }
  destruct (td_step m x) as [m' o] eqn:Es.
  assert (Hr : r_react TICK_DELAY_reaction before_all_clk m [x] = (m', [o])).
  { simpl. rewrite H1. simpl. by rewrite Es. }
  rewrite (l_run _ _ _ TICK_DELAY_laws m d_zero before_all_clk s1 [x] [TICK_DELAY.last_out m] m' [o]);
    [|done|simpl; rewrite H0, H1; by repeat constructor|simpl; rewrite H1; by repeat constructor|done|
      simpl; rewrite H1; repeat constructor; set_solver|done].
  simpl. rewrite H1. simpl. rewrite dig_put_eq by eauto.
  destruct (td_step_wf m x m' o Es) as (Ep & Et & El & Hl).
  rewrite IH; [done|unfold td_node in *; by rewrite Ep|unfold td_node in *; by rewrite Ep|done|..].
  - destruct Hwf as [Hlen _]. split; [by rewrite Ep|]. rewrite Et.
    destruct (decide (TICK_DELAY.ticks m = 0%nat)); auto.
  - rewrite dig_put_ne by done. eauto.
  - rewrite dig_put_eq by eauto. by rewrite El.
Qed.

Lemma shift_down_spec i a p : (i < length (a :: p))%nat ->
  TICK_DELAY.shift_down i (a :: p) = a :: take i (a :: p) ++ drop (S i) (a :: p).
Proof.
  revert p. induction i as [|j IH]; intros p Hi; [done|]. simpl TICK_DELAY.shift_down.
  destruct (lookup_lt_is_Some_2 (a :: p) j) as [x Hx]; [lia|]. rewrite Hx.
  change (<[S j := x]> (a :: p)) with (a :: <[j := x]> p).
  rewrite IH by (simpl in *; rewrite length_insert; lia). f_equal.
  rewrite (take_S_r _ _ _ Hx), <-app_assoc. simpl drop. f_equal.
  - change (a :: <[j := x]> p) with (<[S j := x]> (a :: p)). by rewrite take_insert_ge by lia.
  - simpl in Hi. rewrite (drop_S (<[j:=x]> p) x j) by (apply list_lookup_insert_eq; lia).
    simpl. f_equal. by rewrite drop_insert_lt by lia.
Qed.

(** A full pipe is a queue: the last entry leaves, the input enters in front. *)
Lemma td_step_queue m q o x :
  TICK_DELAY.pipe m = q ++ [o] -> TICK_DELAY.ticks m = S (length q) ->
  td_step m x = (TICK_DELAY.set_pipe m (x :: q) o, o).
Proof.
  intros Hp Ht. unfold td_step. rewrite Hp, Ht. rewrite (bool_decide_eq_false_2 (S (length q) = 0%nat)) by done.
  rewrite (bool_decide_eq_true_2 (length (q ++ [o]) = S (length q))) by (rewrite length_app; simpl; lia).
  replace (S (length q) - 1)%nat with (length q) by lia. rewrite list_lookup_middle by done.
  destruct q as [|a q]; [done|]. rewrite (bool_decide_eq_true_2 (1 < S (length (a :: q)))%nat) by (simpl; lia).
  simpl app.
  rewrite shift_down_spec by (simpl; rewrite length_app; simpl; lia).
  change (a :: q ++ [o]) with ((a :: q) ++ [o]). rewrite take_app_length, drop_ge by (rewrite length_app; simpl; lia). by rewrite app_nil_r.
Qed.

Lemma td_run_queue l : forall m p,
  TICK_DELAY.pipe m = p -> TICK_DELAY.ticks m = length p -> p <> [] ->
  td_run m l = take (length l) (reverse p ++ l).
Proof.
  induction l as [|x l IH]; intros m p Hp Ht Hne; [done|].
  destruct p as [|o q _] using rev_ind; [done|]. rewrite length_app in Ht. simpl in Ht.
  simpl. rewrite (td_step_queue m q o x Hp) by lia. rewrite reverse_snoc. simpl. f_equal.
  rewrite (IH _ (x :: q)) by (simpl; done || lia). by rewrite reverse_cons, <-app_assoc.
Qed.

(** A delay line of [n] ticks with both pins on digital nodes delays its
    input by [n] ticks: over the inputs [l] its output node takes the first
    input for [n] ticks, then the inputs in order; with [n = 0] it follows. *)
Theorem tick_delay_delays (n : nat) (m : TICK_DELAY.t) s ni no l :
  td_node 0 m = Some ni -> td_node 1 m = Some no -> length (TICK_DELAY.d_pins m) = 2%nat -> ni <> no ->
  TICK_DELAY.ticks m = n -> TICK_DELAY.pipe m = [] -> TICK_DELAY.last_out m = sX ->
  is_Some (dig (d_nodes s) ni) -> dig (d_nodes s) no = Some sX ->
  delay_run m s ni no l = Some (take (length l) (replicate n (default sX (head l)) ++ l)).
Proof.
  intros H0 H1 Hlen Hne Ht Hp Hl Hi Ho.
  rewrite delay_run_td; auto; [|split; auto|by rewrite Hl]. f_equal.
  destruct n as [|n].
  - simpl. rewrite firstn_all. clear - Ht. revert m Ht. induction l as [|x l IH]; intros m Ht; [done|].
    simpl. unfold td_step. rewrite Ht. simpl. f_equal. by apply IH.
  - destruct l as [|x l]; [done|]. simpl head. simpl default.
    assert (Es : td_step m x = (TICK_DELAY.set_pipe m (replicate (S n) x) x, x)).
    { transitivity (td_step (TICK_DELAY.set_pipe m (replicate (S n) x) sX) x).
      - unfold td_step. simpl TICK_DELAY.ticks. simpl TICK_DELAY.pipe. rewrite Ht, Hp.
        by rewrite (bool_decide_eq_true_2 (length (replicate (S n) x) = S n)) by apply length_replicate.
      - rewrite (td_step_queue _ (replicate n x) x x); [done|by rewrite <-replicate_S_end|].
        simpl. by rewrite length_replicate. }
    simpl td_run. rewrite Es. rewrite (td_run_queue l _ (replicate (S n) x)); [|done|simpl; by rewrite Ht, length_replicate|done].
    rewrite reverse_replicate. replace (replicate (S n) x ++ x :: l) with (x :: replicate (S n) x ++ l); [done|].
    change (x :: l) with ([x] ++ l). by rewrite app_assoc, <-replicate_S_end.
Qed.

Definition delay3 : TICK_DELAY.t :=
  {| TICK_DELAY.d_pins := pins_on [1%N; 2%N]; TICK_DELAY.d_Ll := d_zero; TICK_DELAY.d_Hl := d_five;
     TICK_DELAY.ticks := 3; TICK_DELAY.pipe := []; TICK_DELAY.last_out := sX |}.

Lemma tick_delay_delays_witness :
  delay_run delay3 (state_of [(1%N, sX); (2%N, sX)]) 1%N 2%N [sL; sH; sL; sL; sH; sH] =
  Some [sL; sL; sL; sL; sH; sL].
Proof.
  apply (tick_delay_delays 3 delay3 (state_of [(1%N, sX); (2%N, sX)]) 1%N 2%N [sL; sH; sL; sL; sH; sH]);
    try reflexivity; [discriminate|eexists; reflexivity].
Defined.

(** ** The flip-flop *)

(** The register after the samples [(D, CLK)] of [l], in order. *)
Definition dff_run (m : DFF.t) (l : list (dns * dns)) : DFF.t :=
  fold_left (fun m x => DFF.next m (z_to_x x.1) (z_to_x x.2)) l m.

Definition known (s : dns) : bool := dns_eqb s sL || dns_eqb s sH.

(** The last known level of the clock. *)
Definition last_level (c0 : dns) (l : list (dns * dns)) : dns :=
  List.last (List.filter known (map snd l)) c0.

(** The data at the rising edges: the samples with a high clock whose last
    known level before was low. *)
Definition captures (c0 : dns) (l : list (dns * dns)) : list dns :=
  omap (fun i => match l !! i with
                 | Some (D, CLK) =>
                     if dns_eqb (last_level c0 (take i l)) sL && dns_eqb CLK sH then Some (z_to_x D) else None
                 | None => None
                 end) (seq 0 (length l)).

Lemma last_level_snoc c0 l x :
  last_level c0 (l ++ [x]) = if known x.2 then x.2 else last_level c0 l.
Proof.
  unfold last_level. rewrite map_app, List.filter_app. simpl. destruct (known x.2); simpl.
  - by rewrite List.last_last.
  - by rewrite app_nil_r.
Qed.

Lemma captures_snoc c0 l x :
  captures c0 (l ++ [x]) =
  captures c0 l ++ (if dns_eqb (last_level c0 l) sL && dns_eqb x.2 sH then [z_to_x x.1] else []).
Proof.
  unfold captures. rewrite length_app, seq_app, omap_app. f_equal.
  - apply list_omap_ext. apply Forall_Forall2_diag, list.Forall_forall. intros i Hi. apply elem_of_seq in Hi.
    rewrite lookup_app_l, take_app_le by lia. done.
  - simpl. rewrite list_lookup_middle, take_app_length by done. destruct x as [D C]; simpl.
    by destruct (_ && _).
Qed.

Lemma dff_run_state m l :
  known (DFF.last_clk m) = true ->
  DFF.last_clk (dff_run m l) = last_level (DFF.last_clk m) l /\
  DFF.q (dff_run m l) = List.last (captures (DFF.last_clk m) l) (DFF.q m).
Proof.
  intros Hk. induction l as [|x l IH] using rev_ind; [done|]. destruct IH as [IH1 IH2].
  unfold dff_run in *. rewrite fold_left_app. simpl. rewrite IH1, IH2, last_level_snoc, captures_snoc.
  split.
  - unfold clk_history, known. by destruct (x.2).
  - unfold rising. replace (dns_eqb (z_to_x x.2) sH) with (dns_eqb x.2 sH) by (by destruct (x.2)).
    destruct (_ && _); [by rewrite List.last_last|by rewrite app_nil_r].
Qed.

(** Over any sequence of samples the D flip-flop holds the data of the last
    rising edge (a high clock after a last known level that was low), and its
    initial value before the first one; levels that are unknown or floating
    neither capture nor count as an edge. *)
Theorem dff_holds_last_capture (m : DFF.t) (l : list (dns * dns)) :
  known (DFF.last_clk m) = true ->
  DFF.q (dff_run m l) = List.last (captures (DFF.last_clk m) l) (DFF.q m).
Proof. intros Hk. by apply dff_run_state. Qed.

Lemma dff_holds_last_capture_witness :
  DFF.q (dff_run DFF.default [(sH, sL); (sH, sX); (sH, sH); (sL, sX); (sL, sH)]) = sH.
Proof. apply (dff_holds_last_capture DFF.default). reflexivity. Defined.

(** ** A byte from the input to the display *)

Lemma wires_conn ps l : wires ps = Some l -> conn ps = l.
Proof.
  unfold wires. rewrite mapM_Some. induction 1 as [|p n ps l Hp _ IH]; [done|].
  rewrite conn_cons, Hp, IH. done.
Qed.

(** The bits of a value on eight connected pins, read back. *)
Lemma wires_vals f i ps l : wires ps = Some l -> conn_vals f i ps = map f (seq i (length ps)).
Proof.
  unfold wires. rewrite mapM_Some. intros HF. revert i. induction HF as [|p n ps l Hp _ IH]; intros i; [done|].
  simpl. by rewrite Hp, IH.
Qed.

Fixpoint read_back (i : nat) (xs : list dns) (acc : Z * Z) : Z * Z :=
  match xs with [] => acc | x :: xs' => read_back (S i) xs' (display_bit i x acc) end.

Lemma wires_display i ps l xs acc :
  wires ps = Some l -> length xs = length ps -> display_bits i ps xs acc = read_back i xs acc.
Proof.
  unfold wires. rewrite mapM_Some. intros HF. revert i xs acc.
  induction HF as [|p n ps l Hp _ IH]; intros i [|x xs] acc Hlen; try done.
  simpl in *. rewrite Hp. apply IH. lia.
Qed.

Lemma bits_read_back v : 0 <= v < 256 ->
  read_back 0 (map (fun i => EIGHT_BIT_INPUT.bit_state v (7 - Z.of_nat i)) (seq 0 8)) (0, 0) = (v, 0).
Proof.
  intros Hv. pose proof (below_cases 256 (fun v =>
     let r := read_back 0 (map (fun i => EIGHT_BIT_INPUT.bit_state v (7 - Z.of_nat i)) (seq 0 8)) (0, 0) in
     (fst r =? v) && (snd r =? 0)) ltac:(vm_compute; reflexivity) v Hv) as Hall.
  apply andb_true_iff in Hall as [H1 H2]. apply Z.eqb_eq in H1, H2. destruct (read_back _ _ _); simpl in *; congruence.
Qed.

(** A byte set on the eight-bit input arrives at an eight-bit display on
    the same eight nodes: after the input has been evaluated with a new value,
    the display reads that value with no unknown bit. *)
Theorem byte_reaches_display (i : EIGHT_BIT_INPUT.t) (y : EIGHT_BIT_DISPLAY.t) t s ns os :
  length ns = 8%nat -> NoDup ns -> wires (EIGHT_BIT_INPUT.b_pins i) = Some ns ->
  wires (EIGHT_BIT_DISPLAY.y_pins y) = Some ns -> digs (d_nodes s) ns os ->
  0 <= EIGHT_BIT_INPUT.value i < 256 -> EIGHT_BIT_INPUT.last_value i <> EIGHT_BIT_INPUT.value i ->
  exists i' y' s',
    EIGHT_BIT_INPUT.update_digital_clk_define i t before_all_clk s = Some ((i', no_need), s') /\
    EIGHT_BIT_DISPLAY.update_digital_clk_define y t update_table s' = Some ((y', no_need), s') /\
    EIGHT_BIT_DISPLAY.value y' = EIGHT_BIT_INPUT.value i /\ EIGHT_BIT_DISPLAY.unknown_mask y' = 0.
Proof.
  intros Hlen Hnd Hwi Hwy Hd Hv Hlast.
  pose proof (wires_length _ _ Hwi) as Hli. pose proof (wires_length _ _ Hwy) as Hly.
  assert (Hb : bits_of i = map (fun j => EIGHT_BIT_INPUT.bit_state (EIGHT_BIT_INPUT.value i) (7 - Z.of_nat j))
                             (seq 0 8)).
  { unfold bits_of. rewrite (wires_vals _ _ _ _ Hwi), <-Hli, Hlen. done. }
  assert (Hput : digs (d_nodes (put_all ns (bits_of i) s)) ns (bits_of i)).
  { apply put_all_digs; [done|by rewrite Hb, length_map, length_seq|by eapply digs_is_Some]. }
  destruct (r_react EIGHT_BIT_DISPLAY_reaction update_table y (bits_of i)) as [y' zs] eqn:Hr.
  do 3 eexists. split; [|split].
  - eapply (l_run _ _ _ EIGHT_BIT_INPUT_laws i t before_all_clk s [] os); simpl; try rewrite (wires_conn _ _ Hwi);
      [congruence|constructor|done|done|done|reflexivity].
  - rewrite (wires_conn _ _ Hwi : r_outs EIGHT_BIT_INPUT_reaction i = ns).
    eapply (l_run _ _ _ EIGHT_BIT_DISPLAY_laws y t update_table _ (bits_of i) []); simpl;
      try rewrite (wires_conn _ _ Hwy); [congruence|done|constructor|done|constructor|exact Hr].
  - cbn [r_react EIGHT_BIT_DISPLAY_reaction] in Hr.
    rewrite (wires_display _ _ _ _ _ Hwy) in Hr by (rewrite Hb, length_map, length_seq; congruence).
    rewrite Hb, bits_read_back in Hr by done. by simplify_eq.
Qed.

Definition byte_nodes : list node_ptr := [1%N; 2%N; 3%N; 4%N; 5%N; 6%N; 7%N; 8%N].
Definition byte_source : EIGHT_BIT_INPUT.t :=
  {| EIGHT_BIT_INPUT.b_pins := pins_on byte_nodes; EIGHT_BIT_INPUT.b_Ll := d_zero;
     EIGHT_BIT_INPUT.b_Hl := d_five; EIGHT_BIT_INPUT.value := 165; EIGHT_BIT_INPUT.last_value := 255 |}.
Definition byte_sink : EIGHT_BIT_DISPLAY.t :=
  {| EIGHT_BIT_DISPLAY.y_pins := pins_on byte_nodes; EIGHT_BIT_DISPLAY.y_Ll := d_zero;
     EIGHT_BIT_DISPLAY.y_Hl := d_five; EIGHT_BIT_DISPLAY.value := 0; EIGHT_BIT_DISPLAY.unknown_mask := 0 |}.

Lemma byte_reaches_display_witness :
  exists i' y' s',
    EIGHT_BIT_INPUT.update_digital_clk_define byte_source d_zero before_all_clk
      (state_of (map (fun n => (n, sX)) byte_nodes)) = Some ((i', no_need), s') /\
    EIGHT_BIT_DISPLAY.update_digital_clk_define byte_sink d_zero update_table s' = Some ((y', no_need), s') /\
    EIGHT_BIT_DISPLAY.value y' = 165 /\ EIGHT_BIT_DISPLAY.unknown_mask y' = 0.
Proof.
  apply (byte_reaches_display byte_source byte_sink d_zero (state_of (map (fun n => (n, sX)) byte_nodes))
    byte_nodes (replicate 8 sX)); try reflexivity; try (vm_compute; split; congruence); try discriminate.
  - repeat constructor; set_solver.
  - repeat constructor.
Defined.

(** An eight-bit input whose value is 255 from the start never drives its
    nodes, since 255 is also the initial "last value": its first evaluation
    leaves the store as it is. *)
Theorem byte_255_not_driven (i : EIGHT_BIT_INPUT.t) t meth s :
  length (EIGHT_BIT_INPUT.b_pins i) = 8%nat ->
  (forall n, n ∈ conn (EIGHT_BIT_INPUT.b_pins i) -> is_Some (dig (d_nodes s) n)) ->
  EIGHT_BIT_INPUT.last_value i = EIGHT_BIT_INPUT.last_value EIGHT_BIT_INPUT.default ->
  EIGHT_BIT_INPUT.value i = 255 ->
  EIGHT_BIT_INPUT.update_digital_clk_define i t meth s = Some ((i, no_need), s).
Proof.
  intros Hlen Hd Hlast Hv. unfold EIGHT_BIT_INPUT.update_digital_clk_define.
  pose proof (run_drive_bits i false (EIGHT_BIT_INPUT.b_pins i) [] s eq_refl Hd) as Hrun.
  rewrite Hlen in Hrun. rewrite Hlast, Hv. simpl Z.eqb. erewrite bind_run by exact Hrun.
  destruct i; simpl in *; by subst.
Qed.

Definition byte_source_255 : EIGHT_BIT_INPUT.t :=
  snd (EIGHT_BIT_INPUT.set_attribute_define byte_source 0 (v_ui8 255)).

Lemma byte_255_not_driven_witness :
  EIGHT_BIT_INPUT.update_digital_clk_define byte_source_255 d_zero before_all_clk
    (state_of (map (fun n => (n, sX)) byte_nodes)) =
  Some ((byte_source_255, no_need), state_of (map (fun n => (n, sX)) byte_nodes)).
Proof.
  apply byte_255_not_driven; try reflexivity. intros n Hn.
  apply (digs_is_Some _ byte_nodes (replicate 8 sX)); [repeat constructor|exact Hn].
Defined.
