(* ===== verification/Analog.v ===== *)
(** * Analog: the models at the boundary to analog nodes

    Sampling an analog input against the levels, the gates on stores that mix
    analog and digital nodes, the Schmitt trigger's hysteresis, the resolution
    of two drivers, and the attributes of the models. *)

From Stdlib Require Import ZArith Lia.
From stdpp Require Import base list gmap strings.
From S2P Require Import Prelude Store Logic4 Gates Devices Sequential Arith Model.
From S2P Require Import Reactive Reaction Reactions Functions.

Open Scope Z_scope.

(** ** Gates on any node *)

(** A node whose union member is the one its counter says. *)
Definition tagged (ns : gmap node_ptr node_t) (n : node_ptr) : Prop :=
  exists nd, ns !! n = Some nd /\
    match node_information nd with dn _ => num_of_analog_node nd = 0 | an _ => num_of_analog_node nd <> 0 end.

(** The channel's saved level is never [Z], so the inner [switch] never
    reaches [unreachable()]. *)
Definition channel_ok (c : channel) : Prop := USR c <> sZ.

Lemma sample_analog_ok lv t v c : channel_ok c -> exists c', sample_analog lv t v c = Some c' /\ channel_ok c'.
Proof.
  unfold channel_ok, sample_analog. destruct c as [i u d]; simpl.
  destruct i; destruct u; simpl; intros Hu; try done; eexists; (split; [reflexivity|]); repeat case_match; done.
Qed.

Lemma sample_input_ok lv t n c s :
  tagged (d_nodes s) n -> channel_ok c -> exists c', sample_input lv t n c s = Some (c', s) /\ channel_ok c'.
Proof.
  intros (nd & Hn & Ht) Hc. unfold sample_input.
  erewrite bind_run by (unfold get_num; erewrite bind_run by (unfold deref; by rewrite Hn); reflexivity).
  destruct (node_information nd) as [st|v] eqn:Ei.
  - rewrite Ht. simpl. erewrite bind_run by (unfold get_dn; erewrite bind_run by (unfold deref; by rewrite Hn);
      rewrite Ei; reflexivity). eexists. by split.
  - rewrite (proj2 (Z.eqb_neq _ _) Ht).
    erewrite bind_run by (unfold get_voltage; erewrite bind_run by (unfold deref; by rewrite Hn);
      rewrite Ei; reflexivity).
    destruct (sample_analog_ok lv t (re v) c Hc) as (c' & -> & ?). eauto.
Qed.

(** What a gate does at its output keeps every node tagged. *)
Lemma drive_output_ok lv n res ch s :
  tagged (d_nodes s) n ->
  exists r s', drive_output lv n res ch s = Some (r, s') /\
    (forall m, tagged (d_nodes s) m -> tagged (d_nodes s') m).
Proof.
  intros (nd & Hn & Ht). unfold drive_output.
  erewrite bind_run by (unfold get_num; erewrite bind_run by (unfold deref; by rewrite Hn); reflexivity).
  destruct (num_of_analog_node nd =? 0) eqn:E.
  - apply Z.eqb_eq in E. erewrite bind_run by (unfold set_dn; rewrite Hn; reflexivity).
    assert (Hup : forall m, tagged (d_nodes s) m -> tagged (<[n := set_information nd (dn res)]> (d_nodes s)) m).
    { intros m Hm. destruct (decide (m = n)) as [->|Hne].
      - exists (set_information nd (dn res)). rewrite lookup_insert_eq. by split.
      - destruct Hm as (md & ? & ?). exists md. by rewrite lookup_insert_ne. }
    destruct ch; simpl; do 2 eexists; (split; [reflexivity|]); simpl; auto.
  - destruct res; do 2 eexists; (split; [reflexivity|]); auto.
Qed.

(** A two-input gate never runs into undefined behaviour on nodes whose
    union member is the one their counters say, whether they are analog or
    digital, whatever voltages they have; and it keeps what it relies on: the
    nodes' members and the saved levels of its channels. *)
Theorem gate2_defined op (g : gate2) t s :
  length (g2_pins g) = 3%nat -> (forall p n, p ∈ g2_pins g -> nodes p = Some n -> tagged (d_nodes s) n) ->
  channel_ok (g2_A g) -> channel_ok (g2_B g) ->
  exists g' r s', gate2_update op g t s = Some ((g', r), s') /\ g2_pins g' = g2_pins g /\
    channel_ok (g2_A g') /\ channel_ok (g2_B g') /\ (forall m, tagged (d_nodes s) m -> tagged (d_nodes s') m).
Proof.
  intros Hlen Ht HA HB. destruct g as [ps lv A B last]; simpl in *. split_list ps Hlen.
  unfold gate2_update. do 3 run_head.
  set (g := {| g2_pins := [p; p0; p1]; g2_levels := lv; g2_A := A; g2_B := B; g2_last_outputA := last |}).
  assert (Hnone : exists g' r s', ret (g, no_need) s = Some ((g', r), s') /\ g2_pins g' = [p; p0; p1] /\
    channel_ok (g2_A g') /\ channel_ok (g2_B g') /\ (forall m, tagged (d_nodes s) m -> tagged (d_nodes s') m)).
  { exists g, no_need, s. repeat split; auto. }
  destruct (nodes p) as [ia|] eqn:Ea; [|exact Hnone].
  destruct (nodes p0) as [ib|] eqn:Eb; [|exact Hnone]. destruct (nodes p1) as [o|] eqn:Eo; [|exact Hnone].
  clear Hnone. subst g.
  cbn [g2_levels g2_A g2_B].
  destruct (sample_input_ok lv t ia A s) as (a & Ra & Ha); [eapply Ht; [|exact Ea]; set_solver|done|].
  erewrite bind_run by exact Ra.
  destruct (sample_input_ok lv t ib B s) as (b & Rb & Hb); [eapply Ht; [|exact Eb]; set_solver|done|].
  erewrite bind_run by exact Rb.
  destruct (drive_output_ok lv o (op (input a) (input b))
    (negb (dns_eqb last (op (input a) (input b)))) s) as (r & s' & Rd & Hs'); [eapply Ht; [|exact Eo]; set_solver|].
  cbn [g2_last_outputA]. erewrite bind_run by exact Rd. do 3 eexists. split; [reflexivity|]. simpl. auto.
Qed.

Definition mixed_store : dstate :=
  {| d_nodes := list_to_map
       [(1%N, {| node_information := an {| re := d_five; im := d_zero |}; pins := []; num_of_analog_node := 1;
                 node_index := 0 |});
        (2%N, {| node_information := dn sH; pins := []; num_of_analog_node := 0; node_index := SIZE_MAX |});
        (3%N, {| node_information := an c_zero; pins := []; num_of_analog_node := 2; node_index := 1 |})];
     d_tables := [] |}.
Definition mixed_gate : gate2 :=
  {| g2_pins := pins_on [1%N; 2%N; 3%N]; g2_levels := levels_default; g2_A := channel_default;
     g2_B := channel_default; g2_last_outputA := sX |}.

Lemma gate2_defined_witness :
  exists g' r s', gate2_update AND.output_res mixed_gate d_zero mixed_store = Some ((g', r), s') /\
    g2_pins g' = g2_pins mixed_gate /\ channel_ok (g2_A g') /\ channel_ok (g2_B g') /\
    (forall m, tagged (d_nodes mixed_store) m -> tagged (d_nodes s') m).
Proof.
  apply (gate2_defined AND.output_res mixed_gate d_zero mixed_store); [reflexivity| |discriminate|discriminate].
  intros p n Hp Hn. simpl in Hp. repeat (apply elem_of_cons in Hp as [->|Hp]; [simpl in Hn; injection Hn as <-;
    eexists; split; [reflexivity|vm_compute; congruence]|]). by apply not_elem_of_nil in Hp.
Defined.

(** ** The Schmitt trigger *)

(** The Schmitt trigger with a definite output has a hysteresis on a voltage:
    at or above the high threshold (and not at or below the low one) it goes
    high, at or below the low one (and not at or above the high one) it goes
    low, and between the two the output stays. *)
Theorem schmitt_hysteresis (m : SCHMITT_TRIGGER.t) (v : double) :
  binary (SCHMITT_TRIGGER.last_out m) ->
  (dge v (SCHMITT_TRIGGER.Vth_high m) = true -> dle v (SCHMITT_TRIGGER.Vth_low m) = false ->
     SCHMITT_TRIGGER.decide_from_voltage m v = sH) /\
  (dle v (SCHMITT_TRIGGER.Vth_low m) = true -> dge v (SCHMITT_TRIGGER.Vth_high m) = false ->
     SCHMITT_TRIGGER.decide_from_voltage m v = sL) /\
  (dge v (SCHMITT_TRIGGER.Vth_high m) = false -> dle v (SCHMITT_TRIGGER.Vth_low m) = false ->
     SCHMITT_TRIGGER.decide_from_voltage m v = SCHMITT_TRIGGER.last_out m).
Proof.
  unfold SCHMITT_TRIGGER.decide_from_voltage. intros [->| ->]; repeat split; intros E1 E2; by rewrite ?E1, ?E2.
Qed.

Lemma schmitt_hysteresis_witness :
  SCHMITT_TRIGGER.decide_from_voltage SCHMITT_TRIGGER.default d_five = sH /\
  SCHMITT_TRIGGER.decide_from_voltage SCHMITT_TRIGGER.default (of_decimal 25 1) = sL.
Proof.
  destruct (schmitt_hysteresis SCHMITT_TRIGGER.default d_five) as (H1 & _); [left; reflexivity|].
  destruct (schmitt_hysteresis SCHMITT_TRIGGER.default (of_decimal 25 1)) as (_ & _ & H3); [left; reflexivity|].
  split; [apply H1|apply H3]; vm_compute; reflexivity.
Defined.

(** ** Two drivers *)

(** The resolution of two drivers is commutative and associative with the
    floating state as its unit and [X] absorbing the driven states, so that
    the state of a node resolved by a chain of [RESOLVE2] does not depend on
    the order of the chain. *)
Theorem resolve_is_join (a b c : dns) :
  RESOLVE2.resolve a b = RESOLVE2.resolve b a /\
  RESOLVE2.resolve a (RESOLVE2.resolve b c) = RESOLVE2.resolve (RESOLVE2.resolve a b) c /\
  RESOLVE2.resolve sZ a = a /\ RESOLVE2.resolve a a = a /\ RESOLVE2.resolve sX a = sX.
Proof. by destruct a, b, c. Qed.

(** ** Unknown toggles *)

(** On a rising edge the T flip-flop with a high input makes a low output
    of an unknown one: the cast to [bool] takes [X] for true.  An unknown [t],
    in contrast, makes the output unknown. *)
Theorem tff_unknown_toggles_low (m : TFF.t) :
  TFF.last_clk m = sL -> TFF.q m = sX ->
  TFF.q (TFF.next m sH sH) = sL /\ TFF.q (TFF.next m sX sH) = sX.
Proof. intros E1 E2. unfold TFF.next. simpl. by rewrite E1, E2. Qed.

Lemma tff_unknown_toggles_low_witness :
  TFF.q (TFF.next {| TFF.f_pins := []; TFF.f_Ll := d_zero; TFF.f_Hl := d_five; TFF.q := sX; TFF.last_clk := sL |}
    sH sH) = sL.
Proof.
  apply (tff_unknown_toggles_low
    {| TFF.f_pins := []; TFF.f_Ll := d_zero; TFF.f_Hl := d_five; TFF.q := sX; TFF.last_clk := sL |}); reflexivity.
Defined.

(** ** Attributes *)

(** The value an attribute keeps: bytes are cut to the width of the register. *)
Definition kept_value (d : device) (v : variant) : variant :=
  match v with
  | v_ui8 x =>
      match d with
      | m_EIGHT_BIT_INPUT _ => v_ui8 (u8_wrap x)
      | _ => v_ui8 (u8_wrap (Z.land (u8_wrap (Z.land x 15)) 15))
      end
  | _ => v
  end.

(** An attribute that a model accepts is the one it then reports, for every
    model and index; a byte is reported as the register keeps it. *)
Theorem attribute_roundtrip (d d' : device) (n : Z) (v : variant) :
  device_set_attribute d n v = (true, d') -> device_get_attribute d' n = kept_value d v.
Proof.
  intros E. destruct d; simpl in E; try discriminate;
    unfold AND.set_attribute_define, OR.set_attribute_define, XOR.set_attribute_define, NAND.set_attribute_define,
      NOR.set_attribute_define, XNOR.set_attribute_define, IMP.set_attribute_define, NIMP.set_attribute_define,
      NOT.set_attribute_define, YES.set_attribute_define, INPUT.set_attribute_define, OUTPUT.set_attribute_define,
      CASE_EQ.set_attribute_define, IS_UNKNOWN.set_attribute_define, TRI.set_attribute_define,
      SCHMITT_TRIGGER.set_attribute_define, TICK_DELAY.set_attribute_define, EIGHT_BIT_INPUT.set_attribute_define,
      EIGHT_BIT_DISPLAY.set_attribute_define, COUNTER4.set_attribute_define, RANDOM_GENERATOR4.set_attribute_define,
      gate2_set_attribute, gate1_set_attribute, levels_set_attribute in E;
    destruct n as [|[[]|[]|]|]; try discriminate; destruct v; try discriminate; by injection E as <-.
Qed.

Lemma attribute_roundtrip_witness :
  device_get_attribute (snd (device_set_attribute (m_COUNTER4 COUNTER4.default) 0 (v_ui8 29))) 0 =
  kept_value (m_COUNTER4 COUNTER4.default) (v_ui8 29).
Proof. apply attribute_roundtrip. reflexivity. Defined.
