(* ===== verification/Prepare.v ===== *)
(** * Prepare: what [prepare()] establishes

    The numbering of the unknowns of the solution vector, the states of the
    digital nodes, and the nodes that are re-evaluated at every tick. *)

From Stdlib Require Import ZArith Lia.
From stdpp Require Import base list gmap strings.
From S2P Require Import Prelude Store Logic4 Gates Model Reactive Reaction Reactions.
From S2P Require Import Engine Settle Tick.

Open Scope Z_scope.

Section Prepare.
Context {impl : Type} `{ModelImpl impl}.
Abbreviation circ := (circult impl).

(** The state [prepare()] leaves a node in, given the number it may get. *)
Definition prepared_node (reprepare : bool) (nd : node_t) (idx : Z) : node_t :=
  if num_of_analog_node nd =? 0 then
    match pins nd with
    | [] => nd
    | _ :: _ => if reprepare then nd else set_information nd (dn sX)
    end
  else set_node_index nd idx.

(** One node: its state, and a row when it is analog. *)
Lemma prepare_node_spec (c : circ) n c' :
  prepare_node c n = Some c' ->
  exists nd, st_nodes c !! n = Some nd /\ has_prepare c' = has_prepare c /\
    st_nodes c' = <[n := prepared_node (has_prepare c) nd (node_counter c)]> (st_nodes c) /\
    (num_of_analog_node nd = 0 -> node_counter c' = node_counter c /\ size_t_to_node_p c' = size_t_to_node_p c /\
       digital_update_tables c' = digital_update_tables c) /\
    (num_of_analog_node nd <> 0 -> node_counter c' = u64_wrap (node_counter c + 1) /\
       size_t_to_node_p c' = size_t_to_node_p c ++ [nl_node n] /\
       always_tables (digital_update_tables c') =
         if num_of_analog_node nd =? Z.of_nat (length (pins nd)) then always_tables (digital_update_tables c)
         else oset_insert n (always_tables (digital_update_tables c))).
Proof.
  unfold prepare_node, prepared_node. destruct (st_nodes c !! n) as [nd|] eqn:En; [|done].
  destruct (Z.eqb_spec (num_of_analog_node nd) 0) as [E0|E0].
  - intros Hc. exists nd. split; [done|]. rewrite (proj2 (Z.eqb_eq _ _) E0).
    destruct (pins nd); [|destruct (has_prepare c) eqn:Ehp]; simplify_eq; simpl; rewrite ?insert_id by done;
      repeat split; intros; congruence.
  - intros Hc. exists nd. split; [done|]. rewrite (proj2 (Z.eqb_neq _ _) E0). simplify_eq.
    destruct (num_of_analog_node nd =? Z.of_nat (length (pins nd))); simpl; repeat split; intros; congruence.
Qed.

(** The rows so far are the analog nodes of [seen], in order. *)
Record numbered (c : circ) (seen : list node_ptr) : Prop := mk_numbered {
  nb_counter : node_counter c = Z.of_nat (length (size_t_to_node_p c));
  nb_length : (length (size_t_to_node_p c) <= length seen)%nat;
  nb_row : forall n nd, n ∈ seen -> st_nodes c !! n = Some nd -> num_of_analog_node nd <> 0 ->
    0 <= node_index nd < node_counter c /\
    size_t_to_node_p c !! Z.to_nat (node_index nd) = Some (nl_node n)
}.

Lemma num_prepared b nd i : num_of_analog_node (prepared_node b nd i) = num_of_analog_node nd.
Proof. unfold prepared_node. by repeat case_match. Qed.

Lemma prepare_node_numbered (c : circ) n c' seen :
  numbered c seen -> n ∉ seen -> Z.of_nat (S (length seen)) < 2 ^ 64 -> prepare_node c n = Some c' ->
  numbered c' (n :: seen).
Proof.
  intros [Hc Hl Hr] Hn Hb Hp. apply prepare_node_spec in Hp as (nd & En & _ & Es & Hd & Ha).
  destruct (decide (num_of_analog_node nd = 0)) as [E0|E0].
  - destruct (Hd E0) as (E1 & E2 & _). split; rewrite ?E1, ?E2; simpl; [done|lia|].
    intros m md Hm. rewrite Es. intros Hlk Hnz.
    destruct (decide (m = n)) as [->|Hne].
    + rewrite lookup_insert_eq in Hlk. simplify_eq. by rewrite num_prepared in Hnz.
    + rewrite lookup_insert_ne in Hlk by done. apply Hr; [set_solver|done..].
  - destruct (Ha E0) as (E1 & E2 & _).
    assert (Ec : node_counter c' = node_counter c + 1) by (rewrite E1, u64_wrap_small; lia).
    split; rewrite ?E2, ?length_app; simpl; [lia..|].
    intros m md Hm. rewrite Es. intros Hlk Hnz. destruct (decide (m = n)) as [->|Hne].
    + rewrite lookup_insert_eq in Hlk. simplify_eq. unfold prepared_node.
      rewrite (proj2 (Z.eqb_neq _ _) E0). simpl. rewrite Hc, Nat2Z.id. split; [lia|].
      by apply list_lookup_middle.
    + rewrite lookup_insert_ne in Hlk by done. destruct (Hr m md) as [H1 H2]; [set_solver|done..|].
      split; [lia|]. by apply lookup_app_l_Some.
Qed.

Lemma prepare_nodes_numbered ns : forall (c : circ) c' seen,
  numbered c seen -> NoDup ns -> (forall n, n ∈ ns -> n ∉ seen) ->
  Z.of_nat (length ns + length seen) < 2 ^ 64 -> prepare_nodes c ns = Some c' ->
  numbered c' (reverse ns ++ seen).
Proof.
  induction ns as [|n ns IH]; intros c c' seen Hnb Hnd Hdis Hb Hp; simpl in Hp; [by simplify_eq|].
  destruct (prepare_node c n) as [c1|] eqn:E; [|done]. inversion Hnd; subst.
  rewrite reverse_cons, <-app_assoc. simpl in Hb. eapply (IH c1); eauto.
  - eapply prepare_node_numbered; [done| | |done]; [apply Hdis; set_solver|lia].
  - intros m Hm. specialize (Hdis m). set_solver.
  - simpl. lia.
Qed.

(** What happens to the nodes, as long as each occurs once. *)
Lemma prepare_nodes_states ns : forall (c : circ) c' n nd,
  NoDup ns -> prepare_nodes c ns = Some c' -> st_nodes c !! n = Some nd ->
  has_prepare c' = has_prepare c /\
  exists idx, st_nodes c' !! n = Some (if decide (n ∈ ns) then prepared_node (has_prepare c) nd idx else nd).
Proof.
  induction ns as [|m ns IH]; intros c c' n nd Hnd Hp Hn; simpl in Hp.
  { simplify_eq. split; [done|]. exists 0. by rewrite decide_False by set_solver. }
  destruct (prepare_node c m) as [c1|] eqn:E; [|done]. inversion Hnd as [|? ? Hm Hnd']; subst.
  apply prepare_node_spec in E as (md & Em & Eh & Es & _). destruct (decide (n = m)) as [->|Hne].
  - destruct (IH c1 c' m (prepared_node (has_prepare c) md (node_counter c)) Hnd' Hp) as (Eh' & idx & Ei).
    { by rewrite Es, lookup_insert_eq. }
    split; [congruence|]. exists (node_counter c). rewrite Ei, decide_False by done.
    rewrite decide_True by set_solver. congruence.
  - destruct (IH c1 c' n nd Hnd' Hp) as (Eh' & idx & Ei); [by rewrite Es, lookup_insert_ne|].
    split; [congruence|]. exists idx. rewrite Ei, Eh.
    destruct (decide (n ∈ ns)), (decide (n ∈ m :: ns)); try done; set_solver.
Qed.

End Prepare.

(** [prepare()] numbers the analog nodes of the netlist without gaps and
    without clashes: the counter is the number of rows, the index of an analog
    node is below it, and the row at that index is the node. *)
Theorem prepare_numbers_nodes (c c' : circult device) (ns : list node_ptr) :
  NoDup ns -> Z.of_nat (length ns) < 2 ^ 64 -> prepare_nodes (prepare_clear c) ns = Some c' ->
  node_counter c' = Z.of_nat (length (size_t_to_node_p c')) /\
  forall n nd, n ∈ ns -> st_nodes c' !! n = Some nd -> num_of_analog_node nd <> 0 ->
    0 <= node_index nd < node_counter c' /\ size_t_to_node_p c' !! Z.to_nat (node_index nd) = Some (nl_node n).
Proof.
  intros Hnd Hb Hp.
  assert (H0 : numbered (prepare_clear c) []) by (split; simpl; [done|lia|set_solver]).
  destruct (prepare_nodes_numbered ns (prepare_clear c) c' [] H0 Hnd) as [Hc _ Hr]; [set_solver|simpl; lia|done|].
  split; [done|]. intros n nd Hn. apply Hr. rewrite app_nil_r. by rewrite elem_of_reverse.
Qed.

(** The first [prepare()] makes every connected digital node unknown; a
    later one keeps the states of the digital nodes. *)
Theorem prepare_digital_states (c c' : circult device) (ns : list node_ptr) n nd :
  NoDup ns -> prepare_nodes (prepare_clear c) ns = Some c' -> n ∈ ns -> st_nodes c !! n = Some nd ->
  num_of_analog_node nd = 0 ->
  exists nd', st_nodes c' !! n = Some nd' /\
    node_information nd' =
      if has_prepare c then node_information nd
      else match pins nd with [] => node_information nd | _ :: _ => dn sX end.
Proof.
  intros Hnd Hp Hn Hlk H0. destruct (prepare_nodes_states ns (prepare_clear c) c' n nd Hnd Hp Hlk) as (_ & idx & E).
  rewrite decide_True in E by done. eexists. split; [exact E|]. unfold prepared_node. rewrite H0. simpl.
  destruct (pins nd), (has_prepare c); done.
Qed.

(** A circuit with two analog nodes and a digital one. *)
Definition mixed_circuit : circult device :=
  let c := circuit_of [(1%N, []); (2%N, [(10%N, 0%N)]); (3%N, [])] [(10%N, place (input_of sH) [2%N])] in
  set_digital c (<[1%N := {| node_information := an c_zero; pins := [(50%N, 0%N)]; num_of_analog_node := 1;
                             node_index := SIZE_MAX |}]>
                 (<[3%N := {| node_information := an c_zero; pins := [(50%N, 1%N); (10%N, 1%N)];
                              num_of_analog_node := 1; node_index := SIZE_MAX |}]> (st_nodes c)))
    (st_impls c) (digital_update_tables c) [].
Definition mixed_prepared : circult device :=
  match prepare_nodes (prepare_clear mixed_circuit) [1%N; 2%N; 3%N] with Some c => c | None => mixed_circuit end.

Lemma prepare_numbers_nodes_witness :
  node_counter mixed_prepared = 2 /\
  forall n nd, n ∈ [1%N; 2%N; 3%N] -> st_nodes mixed_prepared !! n = Some nd -> num_of_analog_node nd <> 0 ->
    0 <= node_index nd < node_counter mixed_prepared /\
    size_t_to_node_p mixed_prepared !! Z.to_nat (node_index nd) = Some (nl_node n).
Proof.
  apply (prepare_numbers_nodes mixed_circuit mixed_prepared [1%N; 2%N; 3%N]);
    [repeat constructor; set_solver|vm_compute; reflexivity|vm_compute; reflexivity].
Defined.

Lemma prepare_digital_states_witness :
  exists nd', st_nodes mixed_prepared !! 2%N = Some nd' /\ node_information nd' = dn sX.
Proof.
  apply (prepare_digital_states mixed_circuit mixed_prepared [1%N; 2%N; 3%N] 2%N
    {| node_information := dn sL; pins := [(10%N, 0%N)]; num_of_analog_node := 0; node_index := SIZE_MAX |});
    [repeat constructor; set_solver|vm_compute; reflexivity|set_solver|vm_compute; reflexivity|reflexivity].
Defined.
