(* ===== verification/Codec.v ===== *)
(** * Codec: the byte encodings of [pe_nl_fileformat/codec.h]

    Variable-length integers, strings, doubles and vectors of fixed-size
    values.  A byte is a [Z] in [0, 256), a string of bytes a list of them; a
    reader takes the whole input and an offset and returns the status, the new
    offset and the value, as the code does through its references. *)

From Stdlib Require Import ZArith Lia.
From stdpp Require Import base list strings.
From S2P Require Import Prelude.

Open Scope Z_scope.

(** [enum class errc] and [struct status] of [status.h]. *)
Inductive errc : Set :=
| errc_ok | invalid_argument | io_error | db_error | corrupt | unsupported | not_found.
#[export] Instance errc_eq_dec : EqDecision errc.
Proof. solve_decision. Defined.

Record status : Type := mk_status { code : errc; message : string }.
Definition status_success : status := {| code := errc_ok; message := "" |}.
Definition status_ok (s : status) : bool := bool_decide (code s = errc_ok).

Abbreviation bytes := (list Z).

Definition append_bytes (out b : bytes) : bytes := out ++ b.
Definition append_u8 (out : bytes) (v : Z) : bytes := out ++ [u8_wrap v].

(** [append_uleb128]: the [while] loop; ten iterations are enough for 64 bits. *)
Fixpoint append_uleb128_loop (fuel : nat) (out : bytes) (v : Z) : bytes :=
  match fuel with
  | O => out
  | S fuel' =>
      if 128 <=? v then append_uleb128_loop fuel' (append_u8 out (Z.lor (u8_wrap v) 128)) (Z.shiftr v 7)
      else append_u8 out (u8_wrap v)
  end.
Definition append_uleb128 (out : bytes) (v : Z) : bytes := append_uleb128_loop 10 out v.

(** [read_uleb128]: the [for(;;)] loop; [shift >= 64] ends it after ten bytes. *)
Fixpoint read_uleb128_loop (fuel : nat) (inp : bytes) (off v shift : Z) : status * Z * Z :=
  match fuel with
  | O => ({| code := corrupt; message := "" |}, off, v)
  | S fuel' =>
      if Z.of_nat (length inp) <=? off
      then ({| code := corrupt; message := "unexpected EOF while reading varint" |}, off, v)
      else
        let b := u8_wrap (nth (Z.to_nat off) inp 0) in
        let off := u64_wrap (off + 1) in
        let v := Z.lor v (u64_wrap (Z.shiftl (Z.land b 127) shift)) in
        if Z.land b 128 =? 0 then (status_success, off, v)
        else
          let shift := shift + 7 in
          if 64 <=? shift then ({| code := corrupt; message := "varint overflow" |}, off, v)
          else read_uleb128_loop fuel' inp off v shift
  end.
Definition read_uleb128 (inp : bytes) (off : Z) : status * Z * Z := read_uleb128_loop 10 inp off 0 0.

(** The bytes [in.data() + off, in.data() + off + n]. *)
Definition sub_bytes (inp : bytes) (off n : Z) : bytes := take (Z.to_nat n) (drop (Z.to_nat off) inp).

(** [read_trivial<T>] with [sizeof(T) = size]; the value is its bytes. *)
Definition read_trivial (size : Z) (inp : bytes) (off : Z) : status * Z * option bytes :=
  if u64_wrap (Z.of_nat (length inp) - off) <? size
  then ({| code := corrupt; message := "unexpected EOF while reading fixed-size value" |}, off, None)
  else (status_success, u64_wrap (off + size), Some (sub_bytes inp off size)).

(** The object representation of a 64-bit integer in the two byte orders. *)
Definition le_bytes (u : Z) : bytes := map (fun i => Z.land (Z.shiftr u (8 * Z.of_nat i)) 255) (seq 0 8).
Definition native_bytes (little : bool) (u : Z) : bytes := if little then le_bytes u else rev (le_bytes u).
Definition of_le_bytes (b : bytes) : Z := fold_right (fun x acc => Z.lor x (Z.shiftl acc 8)) 0 b.
Definition of_native_bytes (little : bool) (b : bytes) : Z := of_le_bytes (if little then b else rev b).

(** [for (i = 0; i < 8; ++i) r = (r << 8) | ((u >> (8 * i)) & 0xff);] *)
Definition swap_bytes (u : Z) : Z :=
  fold_left (fun r i => Z.lor (u64_wrap (Z.shiftl r 8)) (Z.land (Z.shiftr u (8 * Z.of_nat i)) 255)) (seq 0 8) 0.

(** [append_f64] and [read_f64] on a machine of either byte order; a double is
    its 64-bit representation [u]. *)
Definition append_f64 (little : bool) (out : bytes) (u : Z) : bytes :=
  append_bytes out (native_bytes little (if little then u else swap_bytes u)).

Definition read_f64 (little : bool) (inp : bytes) (off : Z) : status * Z * option Z :=
  let '(st, off', v) := read_trivial 8 inp off in
  match v with
  | None => (st, off', None)
  | Some b =>
      let u := of_native_bytes little b in
      (status_success, off', Some (if little then u else swap_bytes u))
  end.

Definition append_string (out s : bytes) : bytes :=
  append_bytes (append_uleb128 out (Z.of_nat (length s))) s.

Definition read_string (inp : bytes) (off : Z) : status * Z * option bytes :=
  let '(st, off1, n) := read_uleb128 inp off in
  if status_ok st then
    if u64_wrap (Z.of_nat (length inp) - off1) <? n
    then ({| code := corrupt; message := "invalid string length" |}, off1, None)
    else (status_success, u64_wrap (off1 + n), Some (sub_bytes inp off1 n))
  else (st, off1, None).

(** [append_trivial_vector<T>] and [read_trivial_vector<T>] with
    [sizeof(T) = size]: the elements as their bytes, one after the other. *)
Definition append_trivial_vector (out : bytes) (v : list bytes) : bytes :=
  let out := append_uleb128 out (Z.of_nat (length v)) in
  match v with [] => out | _ :: _ => append_bytes out (concat v) end.

Fixpoint split_every (size : nat) (n : nat) (b : bytes) : list bytes :=
  match n with O => [] | S n' => take size b :: split_every size n' (drop size b) end.

Definition read_trivial_vector (size : Z) (inp : bytes) (off : Z) : status * Z * option (list bytes) :=
  let '(st, off1, n) := read_uleb128 inp off in
  if status_ok st then
    if SIZE_MAX / size <? n then ({| code := corrupt; message := "vector length overflow" |}, off1, None)
    else
      let nbytes := u64_wrap (n * size) in
      if u64_wrap (Z.of_nat (length inp) - off1) <? nbytes
      then ({| code := corrupt; message := "unexpected EOF while reading vector" |}, off1, None)
      else (status_success, u64_wrap (off1 + nbytes),
            Some (split_every (Z.to_nat size) (Z.to_nat n) (sub_bytes inp off1 nbytes)))
  else (st, off1, None).

(** ** The encoding of an integer *)

Fixpoint uleb (fuel : nat) (v : Z) : bytes :=
  match fuel with
  | O => []
  | S fuel' => if 128 <=? v then u8_wrap (Z.lor (u8_wrap v) 128) :: uleb fuel' (Z.shiftr v 7)
               else [u8_wrap (u8_wrap v)]
  end.

Lemma append_uleb128_app fuel out v : append_uleb128_loop fuel out v = out ++ uleb fuel v.
Proof.
  revert out v. induction fuel as [|f IH]; intros out v; simpl; [by rewrite app_nil_r|].
  destruct (128 <=? v); unfold append_u8; [|done]. by rewrite IH, <-app_assoc.
Qed.

(** The continuation byte has seven bits of the value and the flag, the last
    byte has the value. *)
Lemma cont_byte v :
  let b := u8_wrap (u8_wrap (Z.lor (u8_wrap v) 128)) in Z.land b 127 = v mod 128 /\ (Z.land b 128 =? 0) = false.
Proof.
  pose proof (below_cases 256 (fun w =>
    let b := u8_wrap (u8_wrap (Z.lor w 128)) in (Z.land b 127 =? w mod 128) && negb (Z.land b 128 =? 0))
    ltac:(vm_compute; reflexivity) (u8_wrap v) (u8_wrap_range v)) as Hb.
  simpl in *. apply andb_true_iff in Hb as [H1 H2]. apply Z.eqb_eq in H1. apply negb_true_iff in H2.
  rewrite H1, H2. split; [|done]. unfold u8_wrap. change (2 ^ 8) with (128 * 2).
  rewrite Z.rem_mul_r, Z.mul_comm, Z.mod_add, Z.mod_mod by lia. done.
Qed.

Lemma last_byte v : 0 <= v < 128 ->
  let b := u8_wrap (u8_wrap (u8_wrap v)) in Z.land b 127 = v /\ (Z.land b 128 =? 0) = true.
Proof.
  intros Hv. pose proof (below_cases 128 (fun w =>
    let b := u8_wrap (u8_wrap (u8_wrap w)) in (Z.land b 127 =? w) && (Z.land b 128 =? 0))
    ltac:(vm_compute; reflexivity) v ltac:(lia)) as Hb.
  simpl in *. apply andb_true_iff in Hb as [H1 H2]. by apply Z.eqb_eq in H1.
Qed.

(** A number as its low seven bits and the rest, shifted. *)
Lemma shiftl_split v shift : 0 <= v -> 0 <= shift ->
  Z.lor (Z.shiftl (v mod 128) shift) (Z.shiftl (Z.shiftr v 7) (shift + 7)) = Z.shiftl v shift.
Proof.
  intros Hv Hs. rewrite (Z.add_comm shift 7), <-Z.shiftl_shiftl by lia. rewrite <-Z.shiftl_lor. f_equal.
  change 128 with (2 ^ 7). rewrite <-Z.land_ones by lia. rewrite <-Z.ldiff_ones_r by lia.
  rewrite Z.lor_comm. apply Z.lor_ldiff_and.
Qed.

Lemma shiftl_bound v shift : 0 <= shift <= 64 -> 0 <= v < 2 ^ (64 - shift) -> 0 <= Z.shiftl v shift < 2 ^ 64.
Proof.
  intros Hs Hv. rewrite Z.shiftl_mul_pow2 by lia. pose proof (Z.pow_pos_nonneg 2 shift).
  replace (2 ^ 64) with (2 ^ (64 - shift) * 2 ^ shift) by (rewrite <-Z.pow_add_r by lia; f_equal; lia). nia.
Qed.

(** What is left of a value after a continuation byte. *)
Lemma rest_bound v shift : 0 <= shift < 64 -> 128 <= v < 2 ^ (64 - shift) ->
  7 < 64 - shift /\ 0 <= Z.shiftr v 7 < 2 ^ (64 - (shift + 7)).
Proof.
  intros Hs Hv. assert (H7 : 7 < 64 - shift).
  { destruct (Z.le_gt_cases (64 - shift) 7) as [Hle|]; [|lia].
    pose proof (Z.pow_le_mono_r 2 (64 - shift) 7 ltac:(lia) Hle). change (2 ^ 7) with 128 in *. lia. }
  split; [done|]. rewrite Z.shiftr_div_pow2 by lia. split; [apply Z.div_pos; lia|].
  apply Z.div_lt_upper_bound; [lia|]. rewrite <-Z.pow_add_r by lia.
  replace (7 + (64 - (shift + 7))) with (64 - shift) by lia. lia.
Qed.

(** Reading an encoding back, from the middle of it. *)
Lemma read_uleb_loop fuel : forall pre post v acc shift,
  0 <= shift -> 0 <= v < 2 ^ (64 - shift) -> shift < 64 -> 64 - shift <= 7 * Z.of_nat fuel ->
  Z.of_nat (length (pre ++ uleb fuel v ++ post)) < 2 ^ 64 ->
  read_uleb128_loop fuel (pre ++ uleb fuel v ++ post) (Z.of_nat (length pre)) acc shift =
  (status_success, Z.of_nat (length (pre ++ uleb fuel v)), Z.lor acc (Z.shiftl v shift)).
Proof.
  induction fuel as [|f IH]; intros pre post v acc shift Hs Hv Hs64 Hf Hlen; [lia|].
  cbn [read_uleb128_loop uleb] in *.
  assert (Hwrap : forall x, 0 <= x <= v -> u64_wrap (Z.shiftl x shift) = Z.shiftl x shift).
  { intros x Hx. apply u64_wrap_small, shiftl_bound; lia. }
  destruct (Z.leb_spec 128 v) as [H128|H128].
  - set (b := u8_wrap (Z.lor (u8_wrap v) 128)) in *. simpl app in *.
    rewrite (proj2 (Z.leb_gt _ _)) by (rewrite length_app; simpl; lia).
    rewrite Nat2Z.id, nth_middle. destruct (cont_byte v) as [E1 E2]. fold b in E1, E2. rewrite E1, E2.
    destruct (rest_bound v shift ltac:(lia) ltac:(lia)) as [H7 Hrest].
    rewrite (proj2 (Z.leb_gt 64 (shift + 7))) by lia.
    rewrite u64_wrap_small by (rewrite length_app in Hlen; simpl in Hlen; lia).
    replace (Z.of_nat (length pre) + 1) with (Z.of_nat (length (pre ++ [b]))) by (rewrite length_app; simpl; lia).
    replace (pre ++ b :: uleb f (Z.shiftr v 7) ++ post) with ((pre ++ [b]) ++ uleb f (Z.shiftr v 7) ++ post)
      in * by (by rewrite <-app_assoc).
    rewrite Hwrap by (pose proof (Z.mod_pos_bound v 128); pose proof (Z.mod_le v 128); lia).
    rewrite IH; [|lia|exact Hrest|lia|lia|done].
    rewrite <-app_assoc. simpl. f_equal. rewrite <-Z.lor_assoc. by rewrite shiftl_split by lia.
  - simpl app in *. rewrite (proj2 (Z.leb_gt _ _)) by (rewrite length_app; simpl; lia).
    rewrite Nat2Z.id, nth_middle. destruct (last_byte v) as [-> ->]; [lia|].
    rewrite Hwrap by lia. rewrite u64_wrap_small by (rewrite length_app in Hlen; simpl in Hlen; lia).
    by rewrite length_app, Nat2Z.inj_add.
Qed.

Lemma uleb128_read pre post v :
  0 <= v < 2 ^ 64 -> Z.of_nat (length (append_uleb128 pre v ++ post)) < 2 ^ 64 ->
  read_uleb128 (append_uleb128 pre v ++ post) (Z.of_nat (length pre)) =
  (status_success, Z.of_nat (length (append_uleb128 pre v)), v).
Proof.
  intros Hv Hlen. unfold append_uleb128, read_uleb128 in *. rewrite append_uleb128_app, <-app_assoc in *.
  rewrite (read_uleb_loop 10 pre post v 0 0); [by rewrite Z.lor_0_l, Z.shiftl_0_r|lia..|exact Hlen].
Qed.

(** ** Arbitrary inputs *)

Lemma lor_range a b : 0 <= a < 2 ^ 64 -> 0 <= b < 2 ^ 64 -> 0 <= Z.lor a b < 2 ^ 64.
Proof.
  intros Ha Hb. split; [apply Z.lor_nonneg; lia|].
  rewrite <-(Z.mod_small a (2 ^ 64)), <-(Z.mod_small b (2 ^ 64)) by lia.
  rewrite <-!Z.land_ones, <-Z.land_lor_distr_l, Z.land_ones by lia. apply Z.mod_pos_bound. lia.
Qed.

Lemma read_uleb_range fuel : forall inp off v shift st off' v',
  0 <= off <= Z.of_nat (length inp) -> Z.of_nat (length inp) < 2 ^ 64 -> 0 <= v < 2 ^ 64 ->
  read_uleb128_loop fuel inp off v shift = (st, off', v') ->
  off <= off' <= Z.of_nat (length inp) /\ off' <= off + Z.of_nat fuel /\ 0 <= v' < 2 ^ 64.
Proof.
  induction fuel as [|f IH]; intros inp off v shift st off' v' Ho Hl Hv; cbn [read_uleb128_loop].
  { intros [= <- <- <-]. lia. }
  destruct (Z.leb_spec (Z.of_nat (length inp)) off) as [?|Hlt]; [intros [= <- <- <-]; lia|].
  rewrite (u64_wrap_small (off + 1)) by lia.
  set (w := Z.lor v _).
  assert (Hw : 0 <= w < 2 ^ 64) by (apply lor_range; [done|apply u64_wrap_range]).
  destruct (_ =? 0); [intros [= <- <- <-]; lia|]. destruct (64 <=? shift + 7); [intros [= <- <- <-]; lia|].
  intros Hr. apply IH in Hr; lia.
Qed.

(** More fuel than ten bytes is never used. *)
Lemma read_uleb_fuel fuel k : forall inp off v shift,
  64 - shift <= 7 * Z.of_nat fuel -> shift < 64 ->
  read_uleb128_loop (fuel + k) inp off v shift = read_uleb128_loop fuel inp off v shift.
Proof.
  induction fuel as [|f IH]; intros inp off v shift Hf Hs; [lia|]. cbn [read_uleb128_loop Nat.add].
  destruct (_ <=? off); [done|]. destruct (_ =? 0); [done|].
  destruct (Z.leb_spec 64 (shift + 7)); [done|]. apply IH; lia.
Qed.

(** A strict prefix of an encoding ends the loop at the end of the input. *)
Lemma read_uleb_prefix fuel : forall pre v acc shift k,
  0 <= shift -> 0 <= v < 2 ^ (64 - shift) -> shift < 64 -> 64 - shift <= 7 * Z.of_nat fuel ->
  (k < length (uleb fuel v))%nat -> Z.of_nat (length (pre ++ uleb fuel v)) < 2 ^ 64 ->
  exists v', read_uleb128_loop fuel (pre ++ take k (uleb fuel v)) (Z.of_nat (length pre)) acc shift =
    ({| code := corrupt; message := "unexpected EOF while reading varint" |}, Z.of_nat (length pre + k), v').
Proof.
  induction fuel as [|f IH]; intros pre v acc shift k Hs Hv Hs64 Hf Hk Hlen; [lia|].
  cbn [read_uleb128_loop uleb] in *. destruct k as [|k].
  { simpl. rewrite app_nil_r, Z.leb_refl, Nat.add_0_r. eauto. }
  destruct (Z.leb_spec 128 v) as [H128|H128]; [|simpl in Hk; lia].
  set (b := u8_wrap (Z.lor (u8_wrap v) 128)) in *. simpl in Hk. simpl take.
  rewrite (proj2 (Z.leb_gt _ _)) by (rewrite length_app; simpl; lia).
  rewrite Nat2Z.id, nth_middle. destruct (cont_byte v) as [E1 E2]. fold b in E1, E2. rewrite E1, E2.
  destruct (rest_bound v shift ltac:(lia) ltac:(lia)) as [H7 Hrest].
  rewrite (proj2 (Z.leb_gt 64 (shift + 7))) by lia.
  rewrite length_app in Hlen. simpl in Hlen. rewrite u64_wrap_small by lia.
  replace (Z.of_nat (length pre) + 1) with (Z.of_nat (length (pre ++ [b]))) by (rewrite length_app; simpl; lia).
  replace (pre ++ b :: take k (uleb f (Z.shiftr v 7))) with ((pre ++ [b]) ++ take k (uleb f (Z.shiftr v 7)))
    by (by rewrite <-app_assoc).
  match goal with |- context [read_uleb128_loop f _ _ ?a _] =>
    destruct (IH (pre ++ [b]) (Z.shiftr v 7) a (shift + 7) k) as (v' & ->)
  end; [lia|exact Hrest|lia|lia|lia|rewrite !length_app; simpl; lia|].
  exists v'. rewrite length_app. simpl. by replace (length pre + 1 + k)%nat with (length pre + S k)%nat by lia.
Qed.

(** ** Byte orders *)

Definition byte_list (l : bytes) : Prop := Forall (fun b => 0 <= b < 256) l.

Fixpoint le_gen (n : nat) (u : Z) : bytes :=
  match n with O => [] | S n' => Z.land u 255 :: le_gen n' (Z.shiftr u 8) end.

Lemma le_gen_spec n u s :
  le_gen n (Z.shiftr u (8 * Z.of_nat s)) = map (fun i => Z.land (Z.shiftr u (8 * Z.of_nat i)) 255) (seq s n).
Proof.
  revert s. induction n as [|n IH]; intros s; [done|]. simpl. f_equal. rewrite <-IH. f_equal.
  rewrite Z.shiftr_shiftr by lia. f_equal. lia.
Qed.

Lemma le_bytes_gen u : le_bytes u = le_gen 8 u.
Proof. unfold le_bytes. rewrite <-le_gen_spec. by rewrite Z.shiftr_0_r. Qed.

Lemma le_gen_bytes n u : byte_list (le_gen n u).
Proof.
  revert u. induction n as [|n IH]; intros u; constructor; [|apply IH].
  change 255 with (Z.ones 8). rewrite Z.land_ones by lia. apply Z.mod_pos_bound. lia.
Qed.

Lemma le_gen_length n u : length (le_gen n u) = n.
Proof. revert u. induction n as [|n IH]; intros u; simpl; [done|]. by rewrite IH. Qed.

Lemma of_le_nonneg l : byte_list l -> 0 <= of_le_bytes l.
Proof.
  induction 1 as [|b l Hb _ IH]; simpl; [lia|]. apply Z.lor_nonneg. split; [lia|]. by apply Z.shiftl_nonneg.
Qed.

Lemma land_small a b : 0 <= a < 2 ^ b -> 0 <= b -> Z.land a (Z.ones b) = a.
Proof. intros Ha Hb. rewrite Z.land_ones by done. by apply Z.mod_small. Qed.

Lemma of_le_head b l : 0 <= b < 256 ->
  Z.land (of_le_bytes (b :: l)) 255 = b /\ Z.shiftr (of_le_bytes (b :: l)) 8 = of_le_bytes l.
Proof.
  intros Hb. simpl. change 255 with (Z.ones 8). split.
  - rewrite Z.land_lor_distr_l, land_small by (change (2 ^ 8) with 256; lia).
    rewrite Z.land_ones, Z.shiftl_mul_pow2, Z_mod_mult by lia. apply Z.lor_0_r.
  - rewrite Z.shiftr_lor, Z.shiftr_shiftl_l by lia. rewrite Z.sub_diag, Z.shiftl_0_r.
    rewrite Z.shiftr_div_pow2, Z.div_small by (change (2 ^ 8) with 256; lia). apply Z.lor_0_l.
Qed.

Lemma le_gen_of_le l : byte_list l -> le_gen (length l) (of_le_bytes l) = l.
Proof.
  induction 1 as [|b l Hb Hl IH]; [done|]. cbn [length le_gen].
  destruct (of_le_head b l Hb) as [-> ->]. by rewrite IH.
Qed.

Lemma of_le_le_gen n u : 0 <= u < 2 ^ (8 * Z.of_nat n) -> of_le_bytes (le_gen n u) = u.
Proof.
  revert u. induction n as [|n IH]; intros u Hu; [simpl in *; lia|]. cbn [le_gen of_le_bytes fold_right].
  change (fold_right _ 0 (le_gen n (Z.shiftr u 8))) with (of_le_bytes (le_gen n (Z.shiftr u 8))).
  rewrite IH.
  - change 255 with (Z.ones 8). rewrite <-Z.ldiff_ones_r, Z.lor_comm by lia. apply Z.lor_ldiff_and.
  - rewrite Z.shiftr_div_pow2 by lia. split; [apply Z.div_pos; lia|]. apply Z.div_lt_upper_bound; [lia|].
    rewrite <-Z.pow_add_r by lia. replace (8 + 8 * Z.of_nat n) with (8 * Z.of_nat (S n)) by lia. lia.
Qed.

Lemma of_le_bound l : byte_list l -> of_le_bytes l < 2 ^ (8 * Z.of_nat (length l)).
Proof.
  induction 1 as [|b l Hb Hl IH]; [done|]. pose proof (of_le_nonneg l Hl).
  replace (8 * Z.of_nat (length (b :: l))) with (8 + 8 * Z.of_nat (length l)) by (simpl; lia).
  rewrite Z.pow_add_r by lia. destruct (of_le_head b l Hb) as [_ E2].
  rewrite Z.shiftr_div_pow2 in E2 by lia. set (w := of_le_bytes (b :: l)) in *.
  pose proof (Z.div_mod w (2 ^ 8) ltac:(lia)). pose proof (Z.mod_pos_bound w (2 ^ 8) ltac:(lia)).
  rewrite E2 in *. change (2 ^ 8) with 256 in *. lia.
Qed.

(** The loop that swaps the bytes reads them in the other order. *)
Lemma swap_loop l : byte_list l -> (length l <= 8)%nat ->
  fold_left (fun r b => Z.lor (u64_wrap (Z.shiftl r 8)) b) l 0 = of_le_bytes (rev l).
Proof.
  induction l as [|b l IH] using rev_ind; intros Hl Hlen; [done|].
  apply Forall_app in Hl as [Hl Hb]. rewrite length_app in Hlen. simpl in Hlen.
  rewrite fold_left_app, rev_app_distr. simpl. rewrite IH by (done || lia). rewrite Z.lor_comm. f_equal.
  apply u64_wrap_small. assert (Hr : byte_list (rev l)) by (by apply Forall_rev).
  pose proof (of_le_nonneg _ Hr). pose proof (of_le_bound _ Hr) as Hbd. rewrite length_rev in Hbd.
  rewrite Z.shiftl_mul_pow2 by lia. split; [lia|].
  assert (2 ^ (8 * Z.of_nat (length l)) <= 2 ^ 56) by (apply Z.pow_le_mono_r; lia). lia.
Qed.

Lemma fold_left_map {A B C} (f : A -> B -> A) (g : C -> B) l a :
  fold_left f (map g l) a = fold_left (fun r i => f r (g i)) l a.
Proof. revert a. induction l as [|x l IH]; intros a; simpl; auto. Qed.

Lemma swap_bytes_spec u : swap_bytes u = of_le_bytes (rev (le_bytes u)).
Proof.
  rewrite <-swap_loop.
  - unfold le_bytes. by rewrite fold_left_map.
  - rewrite le_bytes_gen. apply le_gen_bytes.
  - by rewrite le_bytes_gen, le_gen_length.
Qed.

Lemma le_bytes_of_le b : byte_list b -> length b = 8%nat -> le_bytes (of_le_bytes b) = b.
Proof. intros Hb Hl. rewrite le_bytes_gen, <-Hl. by apply le_gen_of_le. Qed.

(** The file holds the bytes of a double low byte first on every machine. *)
Lemma append_f64_bytes little out u : append_f64 little out u = out ++ le_bytes u.
Proof.
  unfold append_f64, native_bytes, append_bytes. destruct little; [done|]. f_equal.
  rewrite swap_bytes_spec, le_bytes_of_le, rev_involutive; [done|..].
  - apply Forall_rev. rewrite le_bytes_gen. apply le_gen_bytes.
  - by rewrite length_rev, le_bytes_gen, le_gen_length.
Qed.

Lemma read_back_order little b : byte_list b -> length b = 8%nat ->
  (let u := of_native_bytes little b in if little then u else swap_bytes u) = of_le_bytes b.
Proof.
  intros Hb Hl. unfold of_native_bytes. destruct little; [done|]. simpl.
  rewrite swap_bytes_spec, le_bytes_of_le, rev_involutive; [done|by apply Forall_rev|by rewrite length_rev].
Qed.

Lemma read_trivial_at pre b post size :
  Z.of_nat (length b) = size -> Z.of_nat (length (pre ++ b ++ post)) < 2 ^ 64 ->
  read_trivial size (pre ++ b ++ post) (Z.of_nat (length pre)) =
  (status_success, Z.of_nat (length (pre ++ b)), Some b).
Proof.
  intros Hs Hl. unfold read_trivial, sub_bytes. rewrite !length_app in *.
  rewrite u64_wrap_small, (proj2 (Z.ltb_ge _ _)) by lia. rewrite u64_wrap_small by lia.
  rewrite Nat2Z.id, drop_app_length, take_app_length' by lia. f_equal. f_equal. lia.
Qed.

(** ** Theorems *)

(** C32: every 64-bit integer is read back from its variable-length encoding,
    wherever it stands in the input and whatever follows it, and the offset
    ends after the encoding. *)
Theorem uleb128_roundtrip pre post v :
  0 <= v < 2 ^ 64 -> Z.of_nat (length (append_uleb128 pre v ++ post)) < 2 ^ 64 ->
  read_uleb128 (append_uleb128 pre v ++ post) (Z.of_nat (length pre)) =
  (status_success, Z.of_nat (length (append_uleb128 pre v)), v).
Proof. apply uleb128_read. Qed.

Lemma uleb128_roundtrip_witness :
  read_uleb128 (append_uleb128 [7] (2 ^ 64 - 1) ++ [9]) 1 = (status_success, 11, 2 ^ 64 - 1).
Proof. apply (uleb128_roundtrip [7] [9] (2 ^ 64 - 1)); vm_compute; try split; congruence. Defined.

(** Reading a variable-length integer is safe on every input: it ends after
    at most ten bytes, never passes the end of the input, and yields a 64-bit
    value; and the bound of ten loop iterations of the model is never the
    reason it ends. *)
Theorem read_uleb128_safe inp off st off' v k :
  0 <= off <= Z.of_nat (length inp) -> Z.of_nat (length inp) < 2 ^ 64 -> read_uleb128 inp off = (st, off', v) ->
  off <= off' <= Z.of_nat (length inp) /\ off' <= off + 10 /\ 0 <= v < 2 ^ 64 /\
  read_uleb128_loop (10 + k) inp off 0 0 = (st, off', v).
Proof.
  intros Ho Hl Hr. pose proof (read_uleb_range 10 inp off 0 0 st off' v Ho Hl ltac:(lia) Hr) as (H1 & H2 & H3).
  rewrite read_uleb_fuel by lia. repeat split; try lia. exact Hr.
Qed.

Lemma read_uleb128_safe_witness :
  2 <= 2 <= 4 /\ 2 <= 0 + 10 /\ 0 <= 300 < 2 ^ 64 /\
  read_uleb128_loop (10 + 5) [172; 2; 0; 255] 0 0 0 = (status_success, 2, 300).
Proof.
  destruct (read_uleb128_safe [172; 2; 0; 255] 0 status_success 2 300 5) as (H1 & H2 & H3 & H4);
    [vm_compute; split; congruence|vm_compute; reflexivity|vm_compute; reflexivity|].
  split; [lia|]. split; [exact H2|]. split; [exact H3|]. exact H4.
Defined.

(** An input that ends inside an encoding is reported as corrupt, with the
    offset at the end of the input. *)
Theorem uleb128_truncated pre v k :
  0 <= v < 2 ^ 64 -> (length pre <= k < length (append_uleb128 pre v))%nat ->
  Z.of_nat (length (append_uleb128 pre v)) < 2 ^ 64 ->
  exists v', read_uleb128 (take k (append_uleb128 pre v)) (Z.of_nat (length pre)) =
    ({| code := corrupt; message := "unexpected EOF while reading varint" |}, Z.of_nat k, v').
Proof.
  intros Hv Hk Hl. unfold append_uleb128, read_uleb128 in *. rewrite append_uleb128_app in *.
  rewrite take_app_ge by lia. rewrite length_app in Hk.
  destruct (read_uleb_prefix 10 pre v 0 0 (k - length pre)) as (v' & E); [lia..|done|].
  exists v'. rewrite E. by replace (length pre + (k - length pre))%nat with k by lia.
Qed.

Lemma uleb128_truncated_witness :
  exists v', read_uleb128 (take 2 (append_uleb128 [7] 300)) 1 =
    ({| code := corrupt; message := "unexpected EOF while reading varint" |}, 2, v').
Proof. apply (uleb128_truncated [7] 300 2); vm_compute; try split; try congruence; lia. Defined.

(** The number that a sequence of bytes encodes, of any length. *)
Definition uleb_value (l : bytes) : Z := fold_right (fun b acc => b mod 128 + 128 * acc) 0 l.

Lemma uleb_value_nonneg l : 0 <= uleb_value l.
Proof. induction l as [|b l IH]; simpl; [lia|]. pose proof (Z.mod_pos_bound b 128). lia. Qed.
Lemma uleb_value_last l b : 0 <= b < 128 -> b * 128 ^ Z.of_nat (length l) <= uleb_value (l ++ [b]).
Proof.
  intros Hb. induction l as [|c l IH]; simpl app; simpl uleb_value; [rewrite Z.mod_small; simpl; lia|].
  pose proof (Z.mod_pos_bound c 128). simpl length. rewrite Nat2Z.inj_succ, Z.pow_succ_r by lia. unfold uleb_value in *. nia.
Qed.

Lemma byte_bits b : 0 <= b < 256 -> u8_wrap b = b /\ Z.land b 127 = b mod 128 /\ (Z.land b 128 =? 0) = (b <? 128).
Proof.
  intros Hb. pose proof (below_cases 256 (fun w => (Z.land w 127 =? w mod 128) && Bool.eqb (Z.land w 128 =? 0) (w <? 128))
    ltac:(vm_compute; reflexivity) b Hb) as H. simpl in H. apply andb_true_iff in H as [H1%Z.eqb_eq H2%eqb_prop].
  split_and!; [by apply u8_wrap_small|done..].
Qed.

(** What the loop gathers of an encoding that it accepts. *)
Lemma read_uleb_any cs : forall fuel pre post b acc shift, Forall (fun c => 128 <= c < 256) cs -> 0 <= b < 128 ->
  (length cs < fuel)%nat -> 0 <= shift -> shift + 7 * Z.of_nat (length cs) < 64 -> Z.of_nat (length (pre ++ cs ++ b :: post)) < 2 ^ 64 ->
  read_uleb128_loop fuel (pre ++ cs ++ b :: post) (Z.of_nat (length pre)) acc shift =
  (status_success, Z.of_nat (length pre + length cs + 1), Z.lor acc (u64_wrap (Z.shiftl (uleb_value (cs ++ [b])) shift))).
Proof.
  induction cs as [|c cs IH]; intros [|fuel] pre post b acc shift Hc Hb Hf Hs Hn Hl; try (simpl in Hf; lia); cbn [read_uleb128_loop app] in *;
    rewrite (proj2 (Z.leb_gt _ _)) by (rewrite length_app; simpl; lia); rewrite Nat2Z.id, nth_middle;
    rewrite (u64_wrap_small (_ + 1)) by (rewrite length_app in Hl; simpl in Hl; lia).
  - destruct (byte_bits b ltac:(lia)) as (-> & -> & ->). rewrite (proj2 (Z.ltb_lt _ _)) by lia. cbn [length uleb_value fold_right]. rewrite Z.add_0_r.
    do 2 f_equal. lia.
  - apply Forall_cons in Hc as [Hc Hcs]. destruct (byte_bits c ltac:(lia)) as (-> & -> & ->). rewrite (proj2 (Z.ltb_ge _ _)) by lia. cbn [length] in *.
    rewrite (proj2 (Z.leb_gt 64 (shift + 7))) by lia.
    replace (Z.of_nat (length pre) + 1) with (Z.of_nat (length (pre ++ [c]))) by (rewrite length_app; simpl; lia).
    replace (pre ++ c :: cs ++ b :: post) with ((pre ++ [c]) ++ cs ++ b :: post) in * by (by rewrite <- app_assoc).
    rewrite IH by (done || lia). rewrite length_app, <- Z.lor_assoc. cbn [length app]. f_equal; [f_equal; lia|]. f_equal.
    set (V := uleb_value (cs ++ [b])). change (uleb_value (c :: cs ++ [b])) with (c mod 128 + 128 * V).
    pose proof (uleb_value_nonneg (cs ++ [b])) as HV. fold V in HV. pose proof (Z.mod_pos_bound c 128 ltac:(lia)) as Hm.
    rewrite <- (shiftl_split (c mod 128 + 128 * V) shift) by lia. unfold u64_wrap.
    rewrite <- !Z.land_ones, <- Z.land_lor_distr_l by lia. f_equal. f_equal; f_equal.
    + by rewrite (Z.mul_comm 128 V), Z.mod_add, Z.mod_mod by lia.
    + rewrite Z.shiftr_div_pow2 by lia. change (2 ^ 7) with 128. rewrite (Z.mul_comm 128 V), Z.div_add, Z.div_small by lia. lia.
Qed.

(** C40: a reader that meets nine bytes with the continuation bit and a tenth
    byte from 2 to 127, anywhere in an input shorter than 2^64 bytes, reports
    success and consumes the ten bytes, although the number they encode does
    not fit in 64 bits: it returns that number modulo 2^64, because the upper
    bits are shifted out before the overflow test, which only the
    continuation bit of the tenth byte reaches. *)
Theorem uleb128_overflow_accepted pre cs b post :
  length cs = 9%nat -> Forall (fun c => 128 <= c < 256) cs -> 2 <= b < 128 -> Z.of_nat (length (pre ++ cs ++ b :: post)) < 2 ^ 64 ->
  read_uleb128 (pre ++ cs ++ b :: post) (Z.of_nat (length pre)) =
    (status_success, Z.of_nat (length pre + 10), uleb_value (cs ++ [b]) mod 2 ^ 64) /\
  2 ^ 64 <= uleb_value (cs ++ [b]).
Proof.
  intros Hn Hc Hb Hl. split.
  - unfold read_uleb128. rewrite read_uleb_any by (done || lia). rewrite Hn, Z.lor_0_l, Z.shiftl_0_r, <- Nat.add_assoc. done.
  - etrans; [|apply uleb_value_last; lia]. rewrite Hn. change (Z.of_nat 9) with 9. lia.
Qed.

Lemma uleb128_overflow_accepted_witness :
  read_uleb128 ([7] ++ replicate 9 255 ++ 127 :: [1]) 1 = (status_success, 11, 2 ^ 64 - 1) /\ uleb_value (replicate 9 255 ++ [127]) = 2 ^ 70 - 1.
Proof.
  destruct (uleb128_overflow_accepted [7] (replicate 9 255) 127 [1]) as [H _]; [reflexivity|repeat constructor; lia|lia|simpl; lia|].
  split; [exact H|reflexivity].
Defined.

(** A string of bytes is read back from its length-prefixed encoding,
    wherever it stands in the input. *)
Theorem string_roundtrip pre post s :
  Z.of_nat (length (append_string pre s ++ post)) < 2 ^ 64 ->
  read_string (append_string pre s ++ post) (Z.of_nat (length pre)) =
  (status_success, Z.of_nat (length (append_string pre s)), Some s).
Proof.
  unfold append_string, append_bytes, read_string. rewrite <-app_assoc. intros Hl.
  assert (Hs : Z.of_nat (length s) < 2 ^ 64) by (rewrite !length_app in Hl; lia).
  rewrite (uleb128_read pre (s ++ post)) by (lia || done). unfold status_ok. simpl bool_decide. cbv iota.
  set (e := append_uleb128 pre (Z.of_nat (length s))) in *. rewrite !length_app in *.
  rewrite u64_wrap_small, (proj2 (Z.ltb_ge _ _)) by lia. rewrite u64_wrap_small by lia.
  unfold sub_bytes. rewrite !Nat2Z.id, drop_app_length, take_app_length.
  by replace (Z.of_nat (length e) + Z.of_nat (length s)) with (Z.of_nat (length e + length s)) by lia.
Qed.

Lemma string_roundtrip_witness :
  read_string (append_string [1; 2] [104; 105] ++ [3]) 2 = (status_success, 5, Some [104; 105]).
Proof. apply (string_roundtrip [1; 2] [3] [104; 105]). vm_compute. reflexivity. Defined.

(** A double written on a machine of one byte order is read back with the
    same bits on a machine of either byte order: the file holds its bytes low
    byte first on both. *)
Theorem f64_portable w r pre post u :
  0 <= u < 2 ^ 64 -> Z.of_nat (length (append_f64 w pre u ++ post)) < 2 ^ 64 ->
  append_f64 w pre u = append_f64 true pre u /\
  read_f64 r (append_f64 w pre u ++ post) (Z.of_nat (length pre)) =
  (status_success, Z.of_nat (length (append_f64 w pre u)), Some u).
Proof.
  intros Hu Hl. rewrite !append_f64_bytes in *. split; [done|]. rewrite <-app_assoc in *.
  unfold read_f64. rewrite read_trivial_at; [|by rewrite le_bytes_gen, le_gen_length|done].
  rewrite (read_back_order r); [|rewrite le_bytes_gen; apply le_gen_bytes|by rewrite le_bytes_gen, le_gen_length].
  rewrite le_bytes_gen, of_le_le_gen by done. done.
Qed.

Lemma f64_portable_witness :
  append_f64 false [1] 4607182418800017408 = append_f64 true [1] 4607182418800017408 /\
  read_f64 true (append_f64 false [1] 4607182418800017408 ++ [2]) 1 =
    (status_success, 9, Some 4607182418800017408).
Proof. apply (f64_portable false true [1] [2] 4607182418800017408); vm_compute; try split; congruence. Defined.

Lemma split_concat size v :
  Forall (fun b => length b = size) v -> split_every size (length v) (concat v) = v.
Proof.
  induction 1 as [|b v Hb _ IH]; [done|]. simpl. rewrite <-Hb, take_app_length, drop_app_length, Hb. by rewrite IH.
Qed.

Lemma concat_length size (v : list bytes) :
  Forall (fun b => length b = size) v -> length (concat v) = (length v * size)%nat.
Proof. induction 1 as [|b v Hb _ IH]; [done|]. simpl. rewrite length_app. lia. Qed.

(** A vector of fixed-size values is read back from its encoding, wherever
    it stands in the input. *)
Theorem vector_roundtrip size pre post v :
  (0 < size)%nat -> Forall (fun b => length b = size) v ->
  Z.of_nat (length (append_trivial_vector pre v ++ post)) < 2 ^ 64 ->
  read_trivial_vector (Z.of_nat size) (append_trivial_vector pre v ++ post) (Z.of_nat (length pre)) =
  (status_success, Z.of_nat (length (append_trivial_vector pre v)), Some v).
Proof.
  intros Hsz Hv. set (e := append_uleb128 pre (Z.of_nat (length v))).
  assert (Ea : append_trivial_vector pre v = e ++ concat v).
  { unfold append_trivial_vector. fold e. destruct v; [by rewrite app_nil_r|done]. }
  rewrite Ea, <-app_assoc. intros Hl. pose proof (concat_length size v Hv) as Hc.
  rewrite !length_app in Hl. assert (Hn : Z.of_nat (length v) < 2 ^ 64) by nia.
  unfold read_trivial_vector.
  pose proof (uleb128_read pre (concat v ++ post) (Z.of_nat (length v)) ltac:(lia)) as Hr. fold e in Hr.
  rewrite Hr by (rewrite !length_app; lia). unfold status_ok. simpl bool_decide. cbv iota.
  assert (Hm : Z.of_nat (length v) * Z.of_nat size = Z.of_nat (length (concat v))) by lia.
  rewrite (proj2 (Z.ltb_ge _ _)) by (unfold SIZE_MAX; apply Z.div_le_lower_bound; lia).
  rewrite Hm, !length_app. rewrite (u64_wrap_small (Z.of_nat (length (concat v)))) by lia.
  rewrite u64_wrap_small, (proj2 (Z.ltb_ge _ _)) by lia. rewrite u64_wrap_small by lia.
  unfold sub_bytes. rewrite !Nat2Z.id, drop_app_length, take_app_length, split_concat by done.
  by replace (Z.of_nat (length e) + Z.of_nat (length (concat v)))
    with (Z.of_nat (length e + length (concat v))) by lia.
Qed.

Lemma vector_roundtrip_witness :
  read_trivial_vector 2 (append_trivial_vector [1] [[5; 6]; [7; 8]] ++ [9]) 1 =
  (status_success, 6, Some [[5; 6]; [7; 8]]).
Proof.
  apply (vector_roundtrip 2 [1] [9] [[5; 6]; [7; 8]]); [lia|repeat constructor|vm_compute; reflexivity].
Defined.
