(* ===== verification/FloatingSubnet.v ===== *)
(** * FloatingSubnet: [circuits/floating_subnet/detect.h]

    The search for the parts of a netlist that are not connected to the ground
    node.  Two nodes are neighbours when a model has pins on both; [detect]
    marks what the ground node reaches, then collects the other connected
    parts, one list of nodes each. *)

From Stdlib Require Import ZArith Lia.
From stdpp Require Import base list gmap strings.
From S2P Require Import Prelude Store Logic4 Gates Model Reactive Reaction Engine.
From S2P Require Import Tick.

Open Scope nat_scope.

Section Detect.
Context {impl : Type} `{PinViews impl}.
Abbreviation circ := (circult impl).

(** The body of [ensure_pin_model_ptr]'s loop over the models. *)
Definition ensure_model (c : circ) (mp : model_ptr) : option circ :=
  match st_models c !! mp with
  | None => None
  | Some mb =>
      if negb (bool_decide (type mb = normal)) then Some c
      else match ptr mb with
      | None => Some c
      | Some ip =>
          match st_impls c !! ip with
          | None => None
          | Some d => Some (set_impl c ip (set_pin_view d (map (pin_set_model mp) (generate_pin_view d))))
          end
      end
  end.

Fixpoint ensure_models (c : circ) (ms : list model_ptr) : option circ :=
  match ms with
  | [] => Some c
  | m :: ms' => match ensure_model c m with None => None | Some c' => ensure_models c' ms' end
  end.

Definition ensure_pin_model_ptr (c : circ) : option circ := ensure_models c (concat (nl_models c)).

(** The nodes the pin view of the model of a pin leads to, in order. *)
Definition pin_others (c : circ) (p : pin_ptr) : option (list node_ptr) :=
  match st_impls c !! p.1 with
  | None => None
  | Some d0 =>
      match generate_pin_view d0 !! N.to_nat p.2 with
      | None => None
      | Some pn =>
          match model pn with
          | None => Some []
          | Some mp =>
              match st_models c !! mp with
              | None => None
              | Some mb =>
                  if negb (bool_decide (type mb = normal)) then Some []
                  else match ptr mb with
                  | None => Some []
                  | Some ip =>
                      match st_impls c !! ip with
                      | None => None
                      | Some d => Some (omap nodes (generate_pin_view d))
                      end
                  end
              end
          end
      end
  end.

Definition others_of (c : circ) (n : node_ptr) : option (list node_ptr) :=
  match st_nodes c !! n with
  | None => None
  | Some nd => match mapM (pin_others c) (pins nd) with None => None | Some ls => Some (concat ls) end
  end.

(** [if (processed.insert(other).second) stack.push_back(other)] for the others
    that are not skipped; the top of the stack is the head of the list. *)
Fixpoint push_others (skip : node_ptr -> bool) (others processed stack : list node_ptr)
    : list node_ptr * list node_ptr :=
  match others with
  | [] => (processed, stack)
  | o :: os =>
      if skip o then push_others skip os processed stack
      else if bool_decide (o ∈ processed) then push_others skip os processed stack
      else push_others skip os (oset_insert o processed) (o :: stack)
  end.

(** [while (!stack.empty())]; [subnet] collects the nodes taken from the stack. *)
Fixpoint search (fuel : nat) (c : circ) (skip : node_ptr -> bool) (processed stack subnet : list node_ptr)
    : option (list node_ptr * list node_ptr) :=
  match stack with
  | [] => Some (processed, subnet)
  | node :: rest =>
      match fuel with
      | O => None
      | S fuel' =>
          match others_of c node with
          | None => None
          | Some os =>
              let '(processed', stack') := push_others skip os processed rest in
              search fuel' c skip processed' stack' (subnet ++ [node])
          end
      end
  end.

(** The second loop: [for (auto* const start: nodes)]. *)
Fixpoint collect (fuel : nat) (c : circ) (starts processed : list node_ptr) (floating : list (list node_ptr))
    : option (list (list node_ptr)) :=
  match starts with
  | [] => Some floating
  | start :: starts' =>
      if bool_decide (start ∈ processed) then collect fuel c starts' processed floating
      else
        match search fuel c (fun o => bool_decide (o = ground_node c)) (oset_insert start processed) [start] [] with
        | None => None
        | Some (processed', subnet) => collect fuel c starts' processed' (floating ++ [subnet])
        end
  end.

(** Nodes with pins. *)
Definition has_pins (c : circ) (n : node_ptr) : bool :=
  match st_nodes c !! n with Some nd => match pins nd with [] => false | _ :: _ => true end | None => false end.

(** Each node is put on the stack at most once, so the number of nodes is
    enough fuel. *)
Definition detect (c : circ) : option (circ * list (list node_ptr)) :=
  match ensure_pin_model_ptr c with
  | None => None
  | Some c1 =>
      let nodes := List.filter (has_pins c1) (concat (nl_nodes c1)) in
      match nodes with
      | [] => Some (c1, [])
      | _ :: _ =>
          let fuel := S (length (concat (nl_nodes c1))) in
          match search fuel c1 (fun _ => false) [ground_node c1] [ground_node c1] [] with
          | None => None
          | Some (processed, _) =>
              match collect fuel c1 nodes processed [] with
              | None => None
              | Some floating => Some (c1, floating)
              end
          end
      end
  end.

End Detect.

(** ** Searching a graph *)

Section Graph.
Context {impl : Type} `{ModelImpl impl} (c : circult impl).
(** The nodes of the netlist and their neighbours. *)
Context (V : list node_ptr) (adj : node_ptr -> list node_ptr).
Hypothesis (Hadj : forall n, n ∈ V -> others_of c n = Some (adj n)).
Hypothesis (HV : forall n m, n ∈ V -> m ∈ adj n -> m ∈ V).

Inductive reach (n : node_ptr) : node_ptr -> Prop :=
| reach_refl : reach n n
| reach_step m k : reach n m -> k ∈ adj m -> reach n k.

Lemma reach_trans a b d : reach a b -> reach b d -> reach a d.
Proof. intros Hab. induction 1 as [|m k _ IH Hk]; [done|]. by econstructor. Qed.

Definition closed (X : list node_ptr) : Prop := forall n m, n ∈ X -> m ∈ adj n -> m ∈ X.

Lemma closed_reach X n m : closed X -> n ∈ X -> reach n m -> m ∈ X.
Proof. intros HX Hn. induction 1 as [|m k _ IH Hk]; [done|]. by eapply HX. Qed.

Lemma push_others_spec skip os : forall processed stack p' s',
  push_others skip os processed stack = (p', s') -> (forall o, skip o = true -> o ∈ processed) ->
  exists new, s' = new ++ stack /\ NoDup new /\ (forall x, x ∈ new <-> x ∈ os /\ x ∉ processed) /\
    (forall x, x ∈ p' <-> x ∈ processed \/ x ∈ os).
Proof using Type.
  clear Hadj HV adj. induction os as [|o os IH]; intros processed stack p' s' Hp Hsk; simpl in Hp.
  { simplify_eq. exists []. split; [done|]. split; [constructor|].
    split; intros x; rewrite elem_of_nil; naive_solver. }
  assert (Hkeep : o ∈ processed -> push_others skip os processed stack = (p', s') ->
    exists new, s' = new ++ stack /\ NoDup new /\ (forall x, x ∈ new <-> x ∈ o :: os /\ x ∉ processed) /\
      (forall x, x ∈ p' <-> x ∈ processed \/ x ∈ o :: os)).
  { intros Ho E. apply IH in E as (new & -> & Hnd & Hn & Hpr); [|done]. exists new. split; [done|]. split; [done|].
    split; intros x; rewrite ?Hn, ?Hpr, elem_of_cons; naive_solver. }
  destruct (skip o) eqn:Es; [by apply Hkeep; [apply Hsk|]|].
  case_bool_decide as Ho; [by apply Hkeep|]. clear Hkeep.
  apply IH in Hp; [|intros x Hx; apply elem_of_oset_insert; right; auto].
  destruct Hp as (new & -> & Hnd & Hn & Hpr). exists (new ++ [o]). rewrite <-app_assoc. split; [done|].
  split; [|split].
  - apply NoDup_app. split; [done|]. split; [|apply NoDup_singleton].
    intros x Hx. apply Hn in Hx as [_ Hx]. rewrite elem_of_oset_insert in Hx.
    rewrite list_elem_of_singleton. naive_solver.
  - intros x. rewrite elem_of_app, Hn, elem_of_oset_insert, list_elem_of_singleton, elem_of_cons.
    destruct (decide (x = o)); naive_solver.
  - intros x. rewrite Hpr, elem_of_oset_insert, elem_of_cons. naive_solver.
Qed.

(** What is left to search: the stack and the nodes not processed yet. *)
Definition todo (processed stack : list node_ptr) : nat :=
  length stack + length (filter (fun n => n ∉ processed) V).

Lemma todo_decreases (processed p' new rest : list node_ptr) (n : node_ptr) :
  NoDup new -> (forall x, x ∈ new -> x ∈ V /\ (x ∉ processed) /\ x ∈ p') -> (forall x, x ∈ processed -> x ∈ p') ->
  S (todo p' (new ++ rest)) <= todo processed (n :: rest).
Proof using Type.
  clear Hadj HV adj. intros Hnd Hnew Hsub. unfold todo. rewrite length_app. simpl.
  assert (Hle : length new + length (filter (fun n => n ∉ p') V) <= length (filter (fun n => n ∉ processed) V)).
  { assert (Hdec : forall (W : list node_ptr) (nw : list node_ptr), NoDup nw -> (forall x, x ∈ nw -> x ∈ W /\ (x ∉ processed) /\ x ∈ p') ->
      length nw + length (filter (fun n => n ∉ p') W) <= length (filter (fun n => n ∉ processed) W)); [|by apply Hdec].
    clear Hnd Hnew. induction W as [|w W IH]; intros nw Hnd Hnw.
    - destruct nw as [|x nw]; [done|]. destruct (Hnw x) as [? _]; set_solver.
    - rewrite !filter_cons. destruct (decide (w ∈ nw)) as [Hw|Hw].
      + destruct (Hnw w Hw) as (_ & Hwp & Hwp'). rewrite decide_False by (by intros ?).
        rewrite decide_True by done. simpl.
        apply list_elem_of_split in Hw as (l1 & l2 & ->). rewrite length_app. simpl.
        apply NoDup_app in Hnd as (Hn1 & Hn2 & Hn3). apply NoDup_cons in Hn3 as [Hn4 Hn5].
        specialize (IH (l1 ++ l2)). rewrite length_app in IH.
        assert (length l1 + length l2 + length (filter (fun n => n ∉ p') W) <=
                length (filter (fun n => n ∉ processed) W)); [apply IH|lia].
        * apply NoDup_app. split; [done|]. split; [set_solver|done].
        * intros x Hx. destruct (Hnw x) as (Hx1 & ?); [set_solver|]. split; [|done].
          apply elem_of_cons in Hx1 as [->|]; [|done]. exfalso. set_solver.
      + assert (length nw + length (filter (fun n => n ∉ p') W) <= length (filter (fun n => n ∉ processed) W)).
        { apply IH; [done|]. intros x Hx. destruct (Hnw x Hx) as (Hx1 & ?). split; [set_solver|done]. }
        destruct (decide (w ∉ p')) as [H1|H1]; destruct (decide (w ∉ processed)) as [H2|H2]; simpl; try lia.
        exfalso. apply H2. intros Hx. apply H1. auto. }
  lia.
Qed.

(** The search ends with a closed set: what was processed and what the stack
    reaches. *)
Lemma search_spec skip fuel : forall processed stack subnet,
  (forall o, skip o = true -> o ∈ processed) -> todo processed stack <= fuel ->
  (forall n, n ∈ stack -> n ∈ processed /\ n ∈ V) ->
  (forall n m, n ∈ processed -> n ∉ stack -> m ∈ adj n -> m ∈ processed) ->
  exists p' popped, search fuel c skip processed stack subnet = Some (p', subnet ++ popped) /\ closed p' /\
    (forall x, x ∈ processed -> x ∈ p') /\
    (forall x, x ∈ popped <-> x ∈ stack \/ (x ∈ p' /\ x ∉ processed)) /\
    (forall x, x ∈ popped -> exists s, s ∈ stack /\ reach s x).
Proof.
  induction fuel as [|fuel IH]; intros processed stack subnet Hsk Hf Hst Hinv.
  all: destruct stack as [|n rest]; simpl.
  1,3: exists processed, []; rewrite app_nil_r; split; [done|]; split;
    [intros x m Hx; apply Hinv; [done|apply not_elem_of_nil]|]; split; [done|]; split;
    [intros x; rewrite elem_of_nil; naive_solver|by intros x Hx%elem_of_nil].
  { unfold todo in Hf. simpl in Hf. lia. }
  destruct (Hst n) as [Hnp HnV]; [apply elem_of_cons; by left|]. rewrite (Hadj n HnV).
  destruct (push_others skip (adj n) processed rest) as [p1 s1] eqn:Ep.
  apply push_others_spec in Ep as (new & -> & Hnd & Hnew & Hp1); [|done].
  destruct (IH p1 (new ++ rest) (subnet ++ [n])) as (p' & popped & -> & Hcl & Hsub & Hpop & Hre).
  - intros o Ho. apply Hp1. auto.
  - assert (S (todo p1 (new ++ rest)) <= todo processed (n :: rest)); [|lia].
    apply todo_decreases; [done|..].
    + intros x Hx. apply Hnew in Hx as [Hx1 Hx2]. split; [by eapply HV|]. split; [done|]. apply Hp1. auto.
    + intros x Hx. apply Hp1. auto.
  - intros x Hx. apply elem_of_app in Hx as [Hx|Hx].
    + apply Hnew in Hx as [Hx1 Hx2]. split; [apply Hp1; auto|by eapply HV].
    + destruct (Hst x); [apply elem_of_cons; by right|]. split; [apply Hp1; auto|done].
  - intros x m Hx Hnx Hm. apply Hp1. apply Hp1 in Hx as [Hx|Hx].
    + destruct (decide (x = n)) as [->|Hne]; [by right|]. left. apply (Hinv x); [done| |done].
      rewrite elem_of_cons. intros [?|?]; [done|]. apply Hnx, elem_of_app. by right.
    + destruct (decide (x ∈ processed)) as [Hxp|Hxp].
      * destruct (decide (x = n)) as [->|Hne]; [by right|]. left. apply (Hinv x); [done| |done].
        rewrite elem_of_cons. intros [?|?]; [done|]. apply Hnx, elem_of_app. by right.
      * exfalso. apply Hnx, elem_of_app. left. by apply Hnew.
  - exists p', (n :: popped). rewrite <-app_assoc. split; [done|]. split; [done|]. split; [|split].
    + intros x Hx. apply Hsub, Hp1. auto.
    + intros x. rewrite !elem_of_cons, Hpop, elem_of_app, Hnew, Hp1. split; [|].
      * intros [->|[[[Hx1 Hx2]|Hx]|[Hx1 Hx2]]]; auto.
        -- right. split; [|done]. apply Hsub, Hp1. auto.
        -- right. split; [done|]. intros Hx. apply Hx2. auto.
      * intros [[->|Hx]|[Hx1 Hx2]]; auto. right.
        destruct (decide (x ∈ adj n)); [auto|]. right. split; [done|]. intros [?|?]; done.
    + intros x Hx. apply elem_of_cons in Hx as [->|Hx]; [exists n; split; [apply elem_of_cons; by left|constructor]|].
      destruct (Hre x Hx) as (s & Hs & Hr).
      apply elem_of_app in Hs as [Hs|Hs]; [|exists s; split; [apply elem_of_cons; by right|done]].
      exists n. split; [apply elem_of_cons; by left|]. apply Hnew in Hs as [Hs _].
      eapply reach_trans; [|exact Hr]. econstructor; [constructor|done].
Qed.

(** From here on neighbours are mutual. *)
Hypothesis (Hsym : forall n m, n ∈ V -> m ∈ adj n -> n ∈ adj m).

Lemma reach_V n m : n ∈ V -> reach n m -> m ∈ V.
Proof using HV. intros Hn. induction 1 as [|m k _ IH Hk]; [done|]. by eapply HV. Qed.

Lemma reach_sym n m : n ∈ V -> reach n m -> reach m n.
Proof using HV Hsym.
  intros Hn. induction 1 as [|m k Hm IH Hk]; [constructor|].
  eapply reach_trans; [|exact IH]. econstructor; [constructor|]. apply Hsym; [by eapply reach_V|done].
Qed.

(** A part outside a closed set stays outside. *)
Lemma reach_outside X n m : closed X -> n ∈ V -> n ∉ X -> reach n m -> m ∉ X.
Proof using HV Hsym. intros HX Hn Hx Hr Hm. apply Hx. eapply closed_reach; [done|exact Hm|by apply reach_sym]. Qed.

(** One floating subnet. *)
Lemma search_component fuel processed start :
  closed processed -> start ∈ V -> start ∉ processed -> length V <= fuel -> ground_node c ∈ processed ->
  exists p' subnet,
    search fuel c (fun o => bool_decide (o = ground_node c)) (oset_insert start processed) [start] [] =
      Some (p', subnet) /\
    closed p' /\ (forall x, x ∈ p' <-> x ∈ processed \/ x ∈ subnet) /\ (forall x, x ∈ subnet <-> reach start x).
Proof using Hadj HV Hsym.
  intros Hcl HsV Hsp Hf Hg. set (P := oset_insert start processed).
  assert (HP : forall x, x ∈ P <-> x = start \/ x ∈ processed) by (intros x; apply elem_of_oset_insert).
  destruct (search_spec (fun o => bool_decide (o = ground_node c)) fuel P [start] [])
    as (p' & subnet & E & Hcl' & Hsub & Hpop & Hre).
  - intros o Ho. apply bool_decide_eq_true in Ho as ->. apply HP. by right.
  - unfold todo. simpl. assert (length (filter (fun n => n ∉ P) V) < length V); [|lia].
    apply (length_filter_lt _ V start); [done|]. intros Hn. apply Hn, HP. by left.
  - intros n Hn. apply list_elem_of_singleton in Hn as ->. split; [apply HP; by left|done].
  - intros n m Hn Hns Hm. rewrite list_elem_of_singleton in Hns. apply HP in Hn as [?|Hn]; [done|].
    apply HP. right. by eapply Hcl.
  - assert (Hsr : forall x, x ∈ subnet <-> reach start x).
    { intros x. split.
      - intros Hx. destruct (Hre x Hx) as (s & Hs & Hr). by apply list_elem_of_singleton in Hs as ->.
      - intros Hr. apply Hpop. rewrite list_elem_of_singleton. destruct (decide (x = start)); [by left|right].
        split; [eapply closed_reach; [done| |done]; apply Hsub, HP; by left|].
        rewrite HP. intros [?|Hx]; [done|]. by eapply (reach_outside processed start). }
    exists p', subnet. split; [done|]. split; [done|]. split; [|done]. intros x. split.
    + intros Hx. destruct (decide (x ∈ processed)); [by left|right]. apply Hpop. rewrite list_elem_of_singleton.
      destruct (decide (x = start)); [by left|right]. split; [done|]. rewrite HP. naive_solver.
    + intros [Hx|Hx]; [apply Hsub, HP; by right|]. apply Hpop in Hx as [Hx|[Hx _]]; [|done].
      apply list_elem_of_singleton in Hx as ->. apply Hsub, HP. by left.
Qed.

(** All of them. *)
Lemma collect_spec fuel starts : forall processed floating,
  length V <= fuel -> closed processed -> ground_node c ∈ processed -> (forall n, n ∈ starts -> n ∈ V) ->
  exists found, collect fuel c starts processed floating = Some (floating ++ found) /\
    (forall sub, sub ∈ found -> exists start, start ∈ starts /\ (start ∉ processed) /\
       forall x, x ∈ sub <-> reach start x) /\
    (forall n, n ∈ starts -> n ∉ processed -> exists sub, sub ∈ found /\ n ∈ sub) /\
    (forall i j s1 s2 x, found !! i = Some s1 -> found !! j = Some s2 -> x ∈ s1 -> x ∈ s2 -> i = j) /\
    (forall sub x, sub ∈ found -> x ∈ sub -> x ∉ processed).
Proof using Hadj HV Hsym.
  induction starts as [|start starts IH]; intros processed floating Hf Hcl Hg HsV; simpl.
  { exists []. rewrite app_nil_r. split; [done|]. split; [by intros ? ?%elem_of_nil|].
    split; [by intros ? ?%elem_of_nil|]. split; [by intros i j s1 s2 x E; rewrite lookup_nil in E|].
    by intros ? ? ?%elem_of_nil. }
  assert (HsV' : forall n, n ∈ starts -> n ∈ V) by (intros n Hn; apply HsV, elem_of_cons; by right).
  case_bool_decide as Hsp.
  { destruct (IH processed floating Hf Hcl Hg HsV') as (found & E & H1 & H2 & H3 & H4). exists found.
    split; [done|]. split; [|split; [|split]].
    - intros sub Hs. destruct (H1 sub Hs) as (s & ? & ?). exists s. split; [apply elem_of_cons; by right|done].
    - intros n Hn Hnp. apply elem_of_cons in Hn as [->|Hn]; [done|auto].
    - done.
    - done. }
  destruct (search_component fuel processed start) as (p' & sub & E & Hcl' & Hp' & Hsr);
    [done|apply HsV, elem_of_cons; by left|done|done|done|]. rewrite E.
  destruct (IH p' (floating ++ [sub]) Hf Hcl') as (found & E' & H1 & H2 & H3 & H4);
    [apply Hp'; by left|done|].
  exists (sub :: found). rewrite E', <-app_assoc. split; [done|]. split; [|split; [|split]].
  - intros s Hs. apply elem_of_cons in Hs as [->|Hs].
    + exists start. split; [apply elem_of_cons; by left|done].
    + destruct (H1 s Hs) as (st & Hst & Hnp & Hr). exists st. split; [apply elem_of_cons; by right|].
      split; [|done]. intros Hx. apply Hnp, Hp'. by left.
  - intros n Hn Hnp. destruct (decide (n ∈ sub)) as [Hns|Hns]; [exists sub; split; [apply elem_of_cons; by left|done]|].
    apply elem_of_cons in Hn as [->|Hn]; [exfalso; apply Hns, Hsr; constructor|].
    destruct (H2 n Hn) as (s & ? & ?); [rewrite Hp'; naive_solver|].
    exists s. split; [apply elem_of_cons; by right|done].
  - intros [|i] [|j] s1 s2 x E1 E2 Hx1 Hx2; simpl in *; simplify_eq.
    + done.
    + exfalso. apply list_elem_of_lookup_2 in E2. apply (H4 s2 x E2 Hx2), Hp'. by right.
    + exfalso. apply list_elem_of_lookup_2 in E1. apply (H4 s1 x E1 Hx1), Hp'. by right.
    + f_equal. by eapply H3.
  - intros s x Hs Hx Hxp. apply elem_of_cons in Hs as [->|Hs].
    + apply Hsr in Hx. eapply (reach_outside processed start); [done|apply HsV, elem_of_cons; by left|done..].
    + apply (H4 s x Hs Hx), Hp'. by left.
Qed.

End Graph.

(** ** Linked netlists *)

Section Linked.
Context {impl : Type} `{PinViews impl}.
Abbreviation circ := (circult impl).

Definition all_nodes (c : circ) : list node_ptr := ground_node c :: concat (nl_nodes c).

(** A listed model that is in use and owns the object at [ip]. *)
Definition owner (c : circ) (ip : impl_ptr) (mp : model_ptr) : Prop :=
  exists mb, st_models c !! mp = Some mb /\ type mb = normal /\ ptr mb = Some ip.

(** Pins and nodes point at each other, and belong to the netlist. *)
Record linked (c : circ) : Prop := mk_linked {
  lk_node : forall n, n ∈ all_nodes c -> is_Some (st_nodes c !! n);
  lk_pin : forall n nd p, n ∈ all_nodes c -> st_nodes c !! n = Some nd -> p ∈ pins nd ->
    exists mp d pn, mp ∈ concat (nl_models c) /\ owner c p.1 mp /\ st_impls c !! p.1 = Some d /\
      generate_pin_view d !! N.to_nat p.2 = Some pn /\ nodes pn = Some n;
  lk_model : forall mp, mp ∈ concat (nl_models c) -> is_Some (st_models c !! mp);
  lk_impl : forall mp ip, mp ∈ concat (nl_models c) -> owner c ip mp ->
    exists d, st_impls c !! ip = Some d /\
      forall i pn n, generate_pin_view d !! i = Some pn -> nodes pn = Some n ->
        n ∈ all_nodes c /\ exists nd, st_nodes c !! n = Some nd /\ (ip, N.of_nat i) ∈ pins nd
}.

(** The nodes that share a model with [n]. *)
Definition neighbours (c : circ) (n : node_ptr) : list node_ptr :=
  match st_nodes c !! n with
  | None => []
  | Some nd =>
      concat (map (fun p => match st_impls c !! p.1 with Some d => omap nodes (generate_pin_view d) | None => [] end)
                (pins nd))
  end.

Lemma elem_neighbours c n m :
  m ∈ neighbours c n <-> exists nd p d pn, st_nodes c !! n = Some nd /\ p ∈ pins nd /\
    st_impls c !! p.1 = Some d /\ pn ∈ generate_pin_view d /\ nodes pn = Some m.
Proof.
  unfold neighbours. split.
  - destruct (st_nodes c !! n) as [nd|]; [|by intros ?%elem_of_nil].
    intros Hm. apply elem_of_concat in Hm as (l & Hm & Hl). apply list_elem_of_fmap in Hl as (p & -> & Hp).
    destruct (st_impls c !! p.1) as [d|] eqn:Ed; [|by apply elem_of_nil in Hm].
    apply list_elem_of_omap in Hm as (pn & ? & ?). eauto 10.
  - intros (nd & p & d & pn & -> & Hp & Hd & Hpn & Hm). apply elem_of_concat.
    exists (omap nodes (generate_pin_view d)). split; [apply list_elem_of_omap; eauto|].
    apply list_elem_of_fmap. exists p. by rewrite Hd.
Qed.

Lemma neighbours_V c n m : linked c -> n ∈ all_nodes c -> m ∈ neighbours c n -> m ∈ all_nodes c.
Proof.
  intros L Hn Hm. apply elem_neighbours in Hm as (nd & p & d & pn & En & Hp & Hd & Hpn & Hm).
  destruct (lk_pin c L n nd p Hn En Hp) as (mp & _ & _ & Hmp & Ho & _).
  destruct (lk_impl c L mp p.1 Hmp Ho) as (d' & Hd' & Hall). simplify_eq.
  apply list_elem_of_lookup in Hpn as [i Hi]. by destruct (Hall i pn m Hi Hm).
Qed.

Lemma neighbours_sym c n m : linked c -> n ∈ all_nodes c -> m ∈ neighbours c n -> n ∈ neighbours c m.
Proof.
  intros L Hn Hm. apply elem_neighbours in Hm as (nd & p & d & pn & En & Hp & Hd & Hpn & Hm).
  destruct (lk_pin c L n nd p Hn En Hp) as (mp & d' & qn & Hmp & Ho & Hd' & Hq & Hqn).
  assert (d' = d) as -> by congruence. destruct (lk_impl c L mp p.1 Hmp Ho) as (d' & Hd'' & Hall).
  assert (d' = d) as -> by congruence.
  apply list_elem_of_lookup in Hpn as [i Hi]. destruct (Hall i pn m Hi Hm) as (_ & md & Em & Hin).
  apply elem_neighbours. exists md, (p.1, N.of_nat i), d, qn. split; [done|]. split; [done|]. split; [done|].
  split; [by eapply list_elem_of_lookup_2|done].
Qed.

(** [ensure_pin_model_ptr] changes nothing but the model of each pin, and
    afterwards the pins of every owned object lead to an owner of it. *)
Definition same_netlist (c c1 : circ) : Prop :=
  st_nodes c1 = st_nodes c /\ st_models c1 = st_models c /\ nl_nodes c1 = nl_nodes c /\
  nl_models c1 = nl_models c /\ ground_node c1 = ground_node c /\
  forall ip, (fun d => map nodes (generate_pin_view d)) <$> st_impls c1 !! ip =
             (fun d => map nodes (generate_pin_view d)) <$> st_impls c !! ip.

Definition attributed (c : circ) (ip : impl_ptr) : Prop :=
  forall d pn, st_impls c !! ip = Some d -> pn ∈ generate_pin_view d ->
    exists mp, model pn = Some mp /\ owner c ip mp.

Lemma nodes_set_model mp ps : map nodes (map (pin_set_model mp) ps) = map nodes ps.
Proof. induction ps as [|p ps IH]; simpl; [done|]. by rewrite IH. Qed.

Lemma ensure_model_spec c mp :
  is_Some (st_models c !! mp) -> (forall ip, owner c ip mp -> is_Some (st_impls c !! ip)) ->
  exists c1, ensure_model c mp = Some c1 /\ same_netlist c c1 /\
    (forall ip, owner c ip mp -> attributed c1 ip) /\ (forall ip, attributed c ip -> attributed c1 ip).
Proof.
  intros [mb Hmb] Hi. unfold ensure_model. rewrite Hmb.
  assert (Hsame : (forall ip, ~ owner c ip mp) -> exists c1, Some c = Some c1 /\ same_netlist c c1 /\
    (forall ip, owner c ip mp -> attributed c1 ip) /\ (forall ip, attributed c ip -> attributed c1 ip)).
  { intros Hno. exists c. split; [done|]. split; [by repeat split|]. split; [|done]. intros ip Ho. by destruct (Hno ip). }
  destruct (bool_decide (type mb = normal)) eqn:Et; simpl.
  2:{ apply bool_decide_eq_false in Et. apply Hsame. intros ip (mb' & ? & ? & ?). by simplify_eq. }
  apply bool_decide_eq_true in Et. destruct (ptr mb) as [ip|] eqn:Ep.
  2:{ apply Hsame. intros ip (mb' & ? & ? & ?). by simplify_eq. }
  assert (Ho : owner c ip mp) by (by exists mb). destruct (Hi ip Ho) as [d Hd]. rewrite Hd.
  set (ps := map (pin_set_model mp) (generate_pin_view d)).
  assert (Hv : generate_pin_view (set_pin_view d ps) = ps) by (apply pin_view_set; apply length_map).
  assert (Hmine : attributed (set_impl c ip (set_pin_view d ps)) ip).
  { intros d' pn. unfold set_impl; simpl. rewrite lookup_insert_eq. intros [= <-]. rewrite Hv. intros Hpn.
    apply list_elem_of_fmap in Hpn as (p & -> & _). by exists mp. }
  eexists. split; [done|]. split; [|split].
  - repeat split. intros ip2. unfold set_impl; simpl. destruct (decide (ip2 = ip)) as [->|Hne].
    + rewrite lookup_insert_eq, Hd. simpl. rewrite Hv. unfold ps. by rewrite nodes_set_model.
    + by rewrite lookup_insert_ne.
  - intros ip2 (mb' & ? & ? & ?). by simplify_eq.
  - intros ip2 Ha. destruct (decide (ip2 = ip)) as [->|Hne]; [done|].
    intros d' pn. unfold set_impl; simpl. rewrite lookup_insert_ne by done. apply Ha.
Qed.

Lemma same_netlist_trans a b d : same_netlist a b -> same_netlist b d -> same_netlist a d.
Proof.
  intros (A1 & A2 & A3 & A4 & A5 & A6) (B1 & B2 & B3 & B4 & B5 & B6).
  do 5 (split; [congruence|]). intros ip. by rewrite B6.
Qed.

Lemma owner_same a b ip mp : same_netlist a b -> owner a ip mp <-> owner b ip mp.
Proof. intros (_ & E & _). unfold owner. by rewrite E. Qed.

Lemma ensure_models_spec ms : forall c,
  (forall mp, mp ∈ ms -> is_Some (st_models c !! mp)) ->
  (forall mp ip, mp ∈ ms -> owner c ip mp -> is_Some (st_impls c !! ip)) ->
  exists c1, ensure_models c ms = Some c1 /\ same_netlist c c1 /\
    (forall mp ip, mp ∈ ms -> owner c ip mp -> attributed c1 ip) /\
    (forall ip, attributed c ip -> attributed c1 ip).
Proof.
  induction ms as [|m ms IH]; intros c Hm Hi; simpl.
  { exists c. split; [done|]. split; [by repeat split|]. split; [by intros ? ? ?%elem_of_nil|done]. }
  destruct (ensure_model_spec c m) as (c1 & -> & Hs & H1 & H2).
  { apply Hm, elem_of_cons; by left. }
  { intros ip. apply Hi, elem_of_cons; by left. }
  pose proof Hs as (S1 & S2 & _ & _ & _ & S6).
  destruct (IH c1) as (c2 & -> & Hs2 & H3 & H4).
  - intros mp Hmp. rewrite S2. apply Hm, elem_of_cons. by right.
  - intros mp ip Hmp Ho. apply (owner_same c c1) in Ho; [|done].
    destruct (Hi mp ip) as [d Hd]; [apply elem_of_cons; by right|done|]. specialize (S6 ip). rewrite Hd in S6.
    destruct (st_impls c1 !! ip); [eauto|done].
  - exists c2. split; [done|]. split; [by eapply same_netlist_trans|]. split; [|auto].
    intros mp ip Hmp Ho. apply elem_of_cons in Hmp as [->|Hmp]; [auto|].
    apply (H3 mp ip Hmp). by apply (owner_same c c1).
Qed.

Lemma omap_nodes ps : omap nodes ps = omap id (map nodes ps).
Proof. induction ps as [|p ps IH]; [done|]. cbn. destruct (nodes p); cbn; [f_equal|]; exact IH. Qed.

(** In the attributed netlist the others of a node are its neighbours. *)
Lemma others_neighbours c c1 n :
  linked c -> same_netlist c c1 -> (forall mp ip, mp ∈ concat (nl_models c) -> owner c ip mp -> attributed c1 ip) ->
  n ∈ all_nodes c -> others_of c1 n = Some (neighbours c n).
Proof.
  intros L Hs Hat Hn. pose proof Hs as (S1 & S2 & _ & _ & _ & S6). unfold others_of, neighbours. rewrite S1.
  destruct (lk_node c L n Hn) as [nd En]. rewrite En.
  assert (HF : forall ps, (forall p, p ∈ ps -> p ∈ pins nd) ->
    mapM (pin_others c1) ps = Some (map (fun p => match st_impls c !! p.1 with
      Some d => omap nodes (generate_pin_view d) | None => [] end) ps)).
  { induction ps as [|p ps IH]; intros Hsub; [done|].
    destruct (lk_pin c L n nd p Hn En) as (mp & d & pn & Hmp & Ho & Hd & Hpn & Hnp); [apply Hsub, elem_of_cons; by left|].
    assert (Hd1 : exists d1, st_impls c1 !! p.1 = Some d1 /\
      map nodes (generate_pin_view d1) = map nodes (generate_pin_view d)).
    { specialize (S6 p.1). rewrite Hd in S6. destruct (st_impls c1 !! p.1) as [d1|]; [|done].
      exists d1. split; [done|]. simpl in S6. congruence. }
    destruct Hd1 as (d1 & Hd1 & Ev).
    assert (Hp1 : exists qn, generate_pin_view d1 !! N.to_nat p.2 = Some qn).
    { apply lookup_lt_is_Some. rewrite <-(length_map nodes), Ev, length_map. by eapply lookup_lt_Some. }
    destruct Hp1 as (qn & Hq). destruct (Hat mp p.1 Hmp Ho d1 qn Hd1) as (mp2 & Hm2 & mb2 & Hmb2 & Ht2 & Hpt2).
    { by eapply list_elem_of_lookup_2. }
    assert (Ep : pin_others c1 p = Some (omap nodes (generate_pin_view d))).
    { unfold pin_others. rewrite Hd1, Hq, Hm2, Hmb2, Hpt2, Hd1. rewrite bool_decide_eq_true_2 by done. simpl.
      by rewrite omap_nodes, Ev, <-omap_nodes. }
    cbn [mapM]. rewrite Ep. cbn [mbind option_bind]. rewrite IH by (intros q Hq'; apply Hsub, elem_of_cons; by right).
    simpl. by rewrite Hd. }
  by rewrite HF.
Qed.

(** What [detect] computes. *)
Lemma detect_spec c :
  linked c ->
  exists c1 floating, detect c = Some (c1, floating) /\ same_netlist c c1 /\
    (forall sub, sub ∈ floating -> exists start, start ∈ concat (nl_nodes c) /\ has_pins c start = true /\
       (~ reach (neighbours c) (ground_node c) start) /\ forall x, x ∈ sub <-> reach (neighbours c) start x) /\
    (forall n, n ∈ concat (nl_nodes c) -> has_pins c n = true -> ~ reach (neighbours c) (ground_node c) n ->
       exists sub, sub ∈ floating /\ n ∈ sub) /\
    (forall i j s1 s2 x, floating !! i = Some s1 -> floating !! j = Some s2 -> x ∈ s1 -> x ∈ s2 -> i = j).
Proof.
  intros L. unfold detect, ensure_pin_model_ptr.
  destruct (ensure_models_spec (concat (nl_models c)) c) as (c1 & -> & Hs & Hat & _).
  { apply lk_model. done. }
  { intros mp ip Hmp Ho. destruct (lk_impl c L mp ip Hmp Ho) as (d & ? & _). eauto. }
  pose proof Hs as (S1 & S2 & S3 & S4 & S5 & S6). rewrite S3, S5.
  assert (Hadj : forall n, n ∈ all_nodes c -> others_of c1 n = Some (neighbours c n))
    by (intros n Hn; by eapply others_neighbours).
  assert (HV : forall n m, n ∈ all_nodes c -> m ∈ neighbours c n -> m ∈ all_nodes c)
    by (intros n m; by apply neighbours_V).
  assert (Hsym : forall n m, n ∈ all_nodes c -> m ∈ neighbours c n -> n ∈ neighbours c m)
    by (intros n m; by apply neighbours_sym).
  assert (Hhas : forall n, has_pins c1 n = has_pins c n) by (intros n; unfold has_pins; by rewrite S1).
  assert (Hst : forall n, n ∈ List.filter (has_pins c1) (concat (nl_nodes c)) <->
    n ∈ concat (nl_nodes c) /\ has_pins c n = true).
  { intros n. by rewrite !list_elem_of_In, filter_In, Hhas. }
  destruct (List.filter (has_pins c1) (concat (nl_nodes c))) as [|n0 l0] eqn:Ef.
  { exists c1, []. split; [done|]. split; [done|]. split; [by intros ? ?%elem_of_nil|]. split.
    - intros n Hn Hp _. assert (Hnil : n ∈ []) by (by apply Hst). by apply elem_of_nil in Hnil.
    - intros i j s1 s2 x E. by rewrite lookup_nil in E. }
  rewrite <-Ef in *. clear Ef n0 l0.
  destruct (search_spec c1 (all_nodes c) (neighbours c) Hadj HV (fun _ => false)
    (S (length (concat (nl_nodes c)))) [ground_node c] [ground_node c] [])
    as (p' & popped & -> & Hcl & Hsub & Hpop & Hre).
  - done.
  - unfold todo.
    assert (Hlt : length (filter (fun n => n ∉ [ground_node c]) (all_nodes c)) < length (all_nodes c)).
    { apply (length_filter_lt _ _ (ground_node c)); [apply elem_of_cons; by left|].
      intros Hn. apply Hn, list_elem_of_singleton. done. }
    simpl length in *. lia.
  - intros n Hn. apply list_elem_of_singleton in Hn as ->. split; [by apply list_elem_of_singleton|].
    apply elem_of_cons. by left.
  - intros n m Hn Hns. done.
  - assert (Hpr : forall x, x ∈ p' <-> reach (neighbours c) (ground_node c) x).
    { intros x. split.
      - intros Hx. destruct (Hre x) as (s & Hs' & Hr).
        + apply Hpop. destruct (decide (x ∈ [ground_node c])); auto.
        + by apply list_elem_of_singleton in Hs' as ->.
      - intros Hr. eapply (closed_reach (neighbours c)); [exact Hcl| |exact Hr].
        apply Hsub, list_elem_of_singleton. done. }
    destruct (collect_spec c1 (all_nodes c) (neighbours c) Hadj HV Hsym (S (length (concat (nl_nodes c))))
      (List.filter (has_pins c1) (concat (nl_nodes c))) p' []) as (found & -> & H1 & H2 & H3 & H4).
    + done.
    + done.
    + rewrite S5. apply Hsub, list_elem_of_singleton. done.
    + intros n Hn. apply Hst in Hn as [Hn _]. apply elem_of_cons. by right.
    + exists c1, found. split; [done|]. split; [done|]. split; [|split; [|done]].
      * intros sub Hsu. destruct (H1 sub Hsu) as (start & Hin & Hnp & Hr). apply Hst in Hin as [Hin Hp].
        exists start. rewrite <-Hpr. auto.
      * intros n Hn Hp Hnr. apply H2; [by apply Hst|by rewrite Hpr].
Qed.

End Linked.

(** C20: on a netlist whose pins and nodes point at each other, [detect] returns
    (within the number of steps the model allows), and its subnets are exactly
    the connected parts that the ground node does not reach: a connected node
    is in a subnet iff the ground node does not reach it, two nodes are in the
    same subnet iff they are connected, and the subnets are disjoint. *)
Theorem detect_finds_floating (c : circult device) :
  linked c ->
  exists c1 floating, detect c = Some (c1, floating) /\ same_netlist c c1 /\
    (forall n, n ∈ concat (nl_nodes c) -> has_pins c n = true ->
       (exists sub, sub ∈ floating /\ n ∈ sub) <-> ~ reach (neighbours c) (ground_node c) n) /\
    (forall sub a b, sub ∈ floating -> a ∈ sub -> (b ∈ sub <-> reach (neighbours c) a b)) /\
    (forall i j s1 s2 x, floating !! i = Some s1 -> floating !! j = Some s2 -> x ∈ s1 -> x ∈ s2 -> i = j).
Proof.
  intros L. destruct (detect_spec c L) as (c1 & fl & E & Hs & H1 & H2 & H3). exists c1, fl.
  assert (HV : forall n m, n ∈ all_nodes c -> m ∈ neighbours c n -> m ∈ all_nodes c)
    by (intros n m; by apply neighbours_V).
  assert (Hsym : forall n m, n ∈ all_nodes c -> m ∈ neighbours c n -> n ∈ neighbours c m)
    by (intros n m; by apply neighbours_sym).
  assert (Hin : forall n, n ∈ concat (nl_nodes c) -> n ∈ all_nodes c) by (intros n Hn; apply elem_of_cons; by right).
  split; [done|]. split; [done|]. split; [|split; [|done]].
  - intros n Hn Hp. split; [|by apply H2]. intros (sub & Hsub & Hns) Hr.
    destruct (H1 sub Hsub) as (start & Hst & _ & Hnr & Hx). apply Hnr.
    eapply reach_trans; [exact Hr|]. apply (reach_sym (all_nodes c) _ HV Hsym); [auto|by apply Hx].
  - intros sub a b Hsub Ha. destruct (H1 sub Hsub) as (start & Hst & _ & _ & Hx). rewrite Hx. apply Hx in Ha.
    assert (Hra : reach (neighbours c) a start) by (apply (reach_sym (all_nodes c) _ HV Hsym); auto).
    split; intros Hr; eapply reach_trans; eassumption.
Qed.

(** A buffer from the ground node to node 1, and an inverter from 2 to 3. *)
Definition island_circuit : circult device :=
  let c := circuit_of [(1%N, [(10%N, 1%N)]); (2%N, [(11%N, 0%N)]); (3%N, [(11%N, 1%N)])]
    [(10%N, place (m_YES YES.default) [0%N; 1%N]); (11%N, place (m_NOT NOT.default) [2%N; 3%N])] in
  set_digital c (<[0%N := plain_node [(10%N, 0%N)]]> (st_nodes c)) (st_impls c) (digital_update_tables c) [].

Lemma island_linked : linked island_circuit.
Proof.
  split.
  - intros n Hn. vm_compute in Hn. in_list Hn; eexists; vm_compute; reflexivity.
  - assert (Hown : forall p n d pn mp, mp ∈ concat (nl_models island_circuit) -> owner island_circuit p.1 mp ->
      st_impls island_circuit !! p.1 = Some d -> generate_pin_view d !! N.to_nat p.2 = Some pn ->
      nodes pn = Some n -> exists mp d pn, mp ∈ concat (nl_models island_circuit) /\ owner island_circuit p.1 mp /\
        st_impls island_circuit !! p.1 = Some d /\ generate_pin_view d !! N.to_nat p.2 = Some pn /\
        nodes pn = Some n) by eauto 10.
    intros n nd p Hn En Hp. in_map En; simpl in Hp; in_list Hp;
      first [solve [eapply (Hown _ _ _ _ 110%N); [vm_compute; set_solver|eexists; repeat split; reflexivity|
               vm_compute; reflexivity|vm_compute; reflexivity|reflexivity]]
            |solve [eapply (Hown _ _ _ _ 111%N); [vm_compute; set_solver|eexists; repeat split; reflexivity|
               vm_compute; reflexivity|vm_compute; reflexivity|reflexivity]]].
  - intros mp Hm. vm_compute in Hm. in_list Hm; eexists; vm_compute; reflexivity.
  - intros mp ip Hm (mb & Emb & _ & Ep). vm_compute in Hm. in_list Hm; vm_compute in Emb; injection Emb as <-;
      simpl in Ep; injection Ep as <-; eexists; (split; [vm_compute; reflexivity|]); intros i pn n Hi Hn;
      (destruct i as [|[|i]]; simpl in Hi; simplify_eq; simpl in Hn; simplify_eq);
      (split; [vm_compute; set_solver|]); eexists; (split; [vm_compute; reflexivity|set_solver]).
Qed.

Lemma detect_finds_floating_witness :
  exists c1 floating, detect island_circuit = Some (c1, floating) /\ same_netlist island_circuit c1 /\
    (forall n, n ∈ [1%N; 2%N; 3%N] -> has_pins island_circuit n = true ->
       (exists sub, sub ∈ floating /\ n ∈ sub) <-> ~ reach (neighbours island_circuit) 0%N n) /\
    (forall sub a b, sub ∈ floating -> a ∈ sub -> (b ∈ sub <-> reach (neighbours island_circuit) a b)) /\
    (forall i j s1 s2 x, floating !! i = Some s1 -> floating !! j = Some s2 -> x ∈ s1 -> x ∈ s2 -> i = j).
Proof. apply (detect_finds_floating island_circuit island_linked). Defined.

(** The example has one subnet: the inverter's nodes. *)
Example island_subnets : snd <$> detect island_circuit = Some [[2%N; 3%N]].
Proof. vm_compute. reflexivity. Qed.
