(* ===== verification/Netlist.v ===== *)
(** * Netlist: [netlist/operation.h], and the parts of [netlist.h] and
    [model_refs/base.h] it uses

    A netlist owns chunks of model slots and chunks of nodes, and the ground
    node.  The operations add and delete models and nodes and connect pins to
    nodes; each connection is recorded on both sides, and a node counts its
    connections to models that are not digital. *)

From Stdlib Require Import ZArith Lia.
From stdpp Require Import base list gmap strings.
From S2P Require Import Prelude Store Logic4 Gates Model.

Open Scope Z_scope.

(** [netlist_model_base_block]: the slots [begin, curr) and the number of
    deleted ones. *)
Record model_block : Type := mk_block { slots : list model_base; num_of_null_model : Z }.

(** [struct netlist], with the nodes and the model objects it points to; the
    [fresh] fields are addresses that were never given out. *)
Record netlist (impl : Type) : Type := mk_netlist {
  s_nodes : gmap node_ptr node_t;
  s_impls : gmap impl_ptr impl;
  models : list model_block;
  node_blocks : list (list node_ptr);
  nl_ground : node_ptr;
  fresh_node : node_ptr;
  fresh_impl : impl_ptr
}.
Arguments s_nodes {impl}. Arguments s_impls {impl}. Arguments models {impl}. Arguments node_blocks {impl}.
Arguments nl_ground {impl}. Arguments fresh_node {impl}. Arguments fresh_impl {impl}. Arguments mk_netlist {impl}.

(** [struct model_pos]. *)
Record model_pos : Type := mk_pos { vec_pos : Z; chunk_pos : Z }.

Definition block_size (b : model_block) : Z := Z.of_nat (length (slots b)).
Definition block_num_of_model (b : model_block) : Z := u64_wrap (block_size b - num_of_null_model b).

(** [model_base(mod&&)] and a cleared [model_base]. *)
Definition new_model_base (ip : impl_ptr) : model_base :=
  {| type := normal; ptr := Some ip; identification := 0; mb_name := ""; describe := ""; has_init := false |}.
Definition cleared_model_base : model_base :=
  {| type := null; ptr := None; identification := 0; mb_name := ""; describe := ""; has_init := false |}.

Section Netlist.
Context {impl : Type} `{PinViews impl}.
(** [chunk_module_size] of the two kinds of chunks: [4096 / sizeof]. *)
Context (chunk_models chunk_nodes : nat).
Abbreviation netlist := (netlist impl).

Definition set_graph (nl : netlist) (ns : gmap node_ptr node_t) (ims : gmap impl_ptr impl) : netlist :=
  mk_netlist ns ims (models nl) (node_blocks nl) (nl_ground nl) (fresh_node nl) (fresh_impl nl).
Definition set_models (nl : netlist) (ms : list model_block) : netlist :=
  mk_netlist (s_nodes nl) (s_impls nl) ms (node_blocks nl) (nl_ground nl) (fresh_node nl) (fresh_impl nl).

(** [get_num_of_model<check>]. *)
Definition is_used (mb : model_base) : bool := negb (bool_decide (type mb = null)).
Definition get_num_of_model (check : bool) (nl : netlist) : Z :=
  if check then
    fold_left (fun res b => fold_left (fun r mb => if is_used mb then u64_wrap (r + 1) else r) (slots b) res)
      (models nl) 0
  else fold_left (fun res b => u64_wrap (res + block_num_of_model b)) (models nl) 0.

(** Appending to the last chunk, or to a new one. *)
Definition push_slot (bs : list model_block) (mb : model_base) : list model_block :=
  match rev bs with
  | [] => [{| slots := [mb]; num_of_null_model := 0 |}]
  | b :: rest =>
      if bool_decide (length (slots b) = chunk_models)
      then bs ++ [{| slots := [mb]; num_of_null_model := 0 |}]
      else rev ({| slots := slots b ++ [mb]; num_of_null_model := num_of_null_model b |} :: rest)
  end.

(** [add_model]: the new netlist, the model's object and its position. *)
Definition add_model (nl : netlist) (m : impl) : netlist * impl_ptr * model_pos :=
  let ip := fresh_impl nl in
  let bs := push_slot (models nl) (new_model_base ip) in
  let nl' := mk_netlist (s_nodes nl) (<[ip := m]> (s_impls nl)) bs (node_blocks nl) (nl_ground nl)
               (fresh_node nl) (ip + 1)%N in
  let pos :=
    match rev (models nl) with
    | [] => {| vec_pos := 0; chunk_pos := 0 |}
    | b :: _ =>
        if bool_decide (length (slots b) = chunk_models)
        then {| vec_pos := 0; chunk_pos := Z.of_nat (length bs) - 1 |}
        else {| vec_pos := block_size b; chunk_pos := Z.of_nat (length bs) - 1 |}
    end in
  (nl', ip, pos).

(** [get_model]: the slot at a position. *)
Definition get_model (nl : netlist) (pos : model_pos) : option model_base :=
  if Z.of_nat (length (models nl)) <=? chunk_pos pos then None
  else match models nl !! Z.to_nat (chunk_pos pos) with
       | None => None
       | Some b => if block_size b <=? vec_pos pos then None else slots b !! Z.to_nat (vec_pos pos)
       end.

(** [create_node]: a default node in the last chunk, or in a new one. *)
Definition push_node_slot (bs : list (list node_ptr)) (n : node_ptr) : list (list node_ptr) :=
  match rev bs with
  | [] => [[n]]
  | b :: rest => if bool_decide (length b = chunk_nodes) then bs ++ [[n]] else rev ((b ++ [n]) :: rest)
  end.

Definition create_node (nl : netlist) : netlist * node_ptr :=
  let n := fresh_node nl in
  (mk_netlist (<[n := node_t_default]> (s_nodes nl)) (s_impls nl) (models nl)
     (push_node_slot (node_blocks nl) n) (nl_ground nl) (n + 1)%N (fresh_impl nl), n).

(** ** Pins *)

Definition set_pin_nodes (d : impl) (i : nat) (n : option node_ptr) : impl :=
  set_pin_view d (alter (fun p => {| name := name p; nodes := n; model := model p |}) i (generate_pin_view d)).

Definition set_links (nd : node_t) (ps : list pin_ptr) (k : Z) : node_t :=
  {| node_information := node_information nd; pins := ps; num_of_analog_node := k; node_index := node_index nd |}.

Definition is_analog (d : impl) : bool := negb (bool_decide (get_device_type d = digital)).

(** [add_to_node]: the model is given by its object; [None] is a null or
    dangling pointer. *)
Definition add_to_node (nl : netlist) (mb : model_base) (n1 : Z) (node : node_ptr) : option (bool * netlist) :=
  match ptr mb with
  | None => None
  | Some ip =>
      match s_impls nl !! ip with
      | None => None
      | Some d =>
          if Z.of_nat (length (generate_pin_view d)) <=? n1 then Some (false, nl)
          else match s_nodes nl !! node with
               | None => None
               | Some nd =>
                   let i := Z.to_nat n1 in
                   let k := if is_analog d then u64_wrap (num_of_analog_node nd + 1) else num_of_analog_node nd in
                   let nd' := set_links nd (oset_insert (ip, N.of_nat i) (pins nd)) k in
                   Some (true, set_graph nl (<[node := nd']> (s_nodes nl))
                                 (<[ip := set_pin_nodes d i (Some node)]> (s_impls nl)))
               end
      end
  end.

Definition remove_from_node (nl : netlist) (mb : model_base) (n1 : Z) (node : node_ptr) : option (bool * netlist) :=
  match ptr mb with
  | None => None
  | Some ip =>
      match s_impls nl !! ip with
      | None => None
      | Some d =>
          if Z.of_nat (length (generate_pin_view d)) <=? n1 then Some (false, nl)
          else match s_nodes nl !! node with
               | None => None
               | Some nd =>
                   let i := Z.to_nat n1 in
                   let k := if is_analog d then u64_wrap (num_of_analog_node nd - 1) else num_of_analog_node nd in
                   let nd' := set_links nd (oset_erase (ip, N.of_nat i) (pins nd)) k in
                   Some (true, set_graph nl (<[node := nd']> (s_nodes nl))
                                 (<[ip := set_pin_nodes d i None]> (s_impls nl)))
               end
      end
  end.

(** The overloads that take a position. *)
Definition add_to_node_at (nl : netlist) (mp1 : model_pos) (n1 : Z) (node : node_ptr) : option (bool * netlist) :=
  match get_model nl mp1 with None => Some (false, nl) | Some mb => add_to_node nl mb n1 node end.
Definition remove_from_node_at (nl : netlist) (mp1 : model_pos) (n1 : Z) (node : node_ptr)
    : option (bool * netlist) :=
  match get_model nl mp1 with None => Some (false, nl) | Some mb => remove_from_node nl mb n1 node end.

(** ** Deleting a model *)

(** One pin of [model_base::remove_from_node]. *)
Definition detach_pin (nl : netlist) (ip : impl_ptr) (i : nat) : option netlist :=
  match s_impls nl !! ip with
  | None => None
  | Some d =>
      match generate_pin_view d !! i with
      | None => None
      | Some pn =>
          match nodes pn with
          | None => Some nl
          | Some n =>
              match s_nodes nl !! n with
              | None => None
              | Some nd =>
                  let k := if is_analog d then u64_wrap (num_of_analog_node nd - 1) else num_of_analog_node nd in
                  let nd' := set_links nd (oset_erase (ip, N.of_nat i) (pins nd)) k in
                  Some (set_graph nl (<[n := nd']> (s_nodes nl)) (<[ip := set_pin_nodes d i None]> (s_impls nl)))
              end
          end
      end
  end.

Fixpoint detach_pins (nl : netlist) (ip : impl_ptr) (is_ : list nat) : option netlist :=
  match is_ with
  | [] => Some nl
  | i :: is' => match detach_pin nl ip i with None => None | Some nl' => detach_pins nl' ip is' end
  end.

(** [model_base::remove_from_node] and [model_base::clear]. *)
Definition model_remove_from_node (nl : netlist) (mb : model_base) : option netlist :=
  match ptr mb with
  | None => Some nl
  | Some ip =>
      match s_impls nl !! ip with
      | None => None
      | Some d =>
          if bool_decide (type mb = normal) then detach_pins nl ip (seq 0 (length (generate_pin_view d))) else Some nl
      end
  end.

Definition model_clear (nl : netlist) (mb : model_base) : option netlist :=
  match model_remove_from_node nl mb with
  | None => None
  | Some nl1 =>
      Some (match ptr mb with
            | None => nl1
            | Some ip => set_graph nl1 (s_nodes nl1) (delete ip (s_impls nl1))
            end)
  end.

Definition set_block (nl : netlist) (c : nat) (b : model_block) : netlist :=
  set_models nl (<[c := b]> (models nl)).

Definition delete_model (nl : netlist) (pos : model_pos) : option (bool * netlist) :=
  let c := Z.to_nat (chunk_pos pos) in
  if Z.of_nat (length (models nl)) <=? chunk_pos pos then Some (false, nl)
  else match models nl !! c with
  | None => None
  | Some b =>
      if block_size b <=? vec_pos pos then Some (false, nl)
      else match slots b !! Z.to_nat (vec_pos pos) with
      | None => None
      | Some mb =>
          if vec_pos pos =? block_size b - 1 then
            match model_clear nl mb with
            | None => None
            | Some nl1 =>
                let sl := take (length (slots b) - 1) (slots b) in
                if bool_decide (type mb = null)
                then Some (false, set_block nl1 c {| slots := sl;
                                   num_of_null_model := u64_wrap (num_of_null_model b - 1) |})
                else Some (true, set_block nl1 c {| slots := sl; num_of_null_model := num_of_null_model b |})
            end
          else if bool_decide (type mb = null) then Some (false, nl)
          else
            match model_clear nl mb with
            | None => None
            | Some nl1 =>
                Some (true, set_block nl1 c
                  {| slots := <[Z.to_nat (vec_pos pos) := cleared_model_base]> (slots b);
                     num_of_null_model := u64_wrap (num_of_null_model b + 1) |})
            end
      end
  end.

(** ** Nodes *)

(** [for (auto i: pins) i->nodes = n]: a pin on the list must be there. *)
Definition point_pin (n : option node_ptr) (ims : gmap impl_ptr impl) (p : pin_ptr) : option (gmap impl_ptr impl) :=
  match ims !! p.1 with
  | None => None
  | Some d =>
      match generate_pin_view d !! N.to_nat p.2 with
      | None => None
      | Some _ => Some (<[p.1 := set_pin_nodes d (N.to_nat p.2) n]> ims)
      end
  end.

Fixpoint point_pins (n : option node_ptr) (ims : gmap impl_ptr impl) (ps : list pin_ptr)
    : option (gmap impl_ptr impl) :=
  match ps with
  | [] => Some ims
  | p :: ps' => match point_pin n ims p with None => None | Some ims' => point_pins n ims' ps' end
  end.

(** [delete_node]: [node_t::clear]. *)
Definition delete_node (nl : netlist) (node : node_ptr) : option netlist :=
  match s_nodes nl !! node with
  | None => None
  | Some nd =>
      match point_pins None (s_impls nl) (pins nd) with
      | None => None
      | Some ims => Some (set_graph nl (<[node := set_information (node_t_destroy nd) (dn sL)]> (s_nodes nl)) ims)
      end
  end.

(** [merge_node]. *)
Definition merge_node (nl : netlist) (node other : node_ptr) : option netlist :=
  match s_nodes nl !! node, s_nodes nl !! other with
  | Some nd, Some od =>
      match point_pins (Some node) (s_impls nl) (pins od) with
      | None => None
      | Some ims =>
          let nd' := set_links nd (oset_insert_all (pins od) (pins nd)) (num_of_analog_node nd) in
          let ns1 := <[node := nd']> (s_nodes nl) in
          match ns1 !! other with
          | None => None
          | Some od' => Some (set_graph nl (<[other := node_t_destroy od']> ns1) ims)
          end
      end
  | _, _ => None
  end.

End Netlist.
