(* ===== verification/NetlistInv.v ===== *)
(** * NetlistInv: the invariant of [netlist.h] and its preservation

    The connections of a netlist are kept twice: a pin points to its node and
    the node lists the pin.  [graph_inv] says that the two agree and that a
    node's counter of pins of models that are not digital is right; [nl_inv]
    adds the ownership of the model objects by the slots of the chunks.  Every
    operation of [operation.h] keeps it, under the conditions each states. *)

From Stdlib Require Import ZArith Lia.
From stdpp Require Import base list gmap strings.
From S2P Require Import Prelude Store Logic4 Gates Model Netlist.

Open Scope Z_scope.

Section Graph.
Context {impl : Type} `{PinViews impl}.

(** The node a pin points to: [None] when there is no such pin. *)
Definition pin_node (ims : gmap impl_ptr impl) (p : pin_ptr) : option (option node_ptr) :=
  match ims !! p.1 with
  | None => None
  | Some d => nodes <$> generate_pin_view d !! N.to_nat p.2
  end.

Definition analog_pin (ims : gmap impl_ptr impl) (p : pin_ptr) : bool :=
  match ims !! p.1 with Some d => is_analog d | None => false end.

Record graph_inv (ns : gmap node_ptr node_t) (ims : gmap impl_ptr impl) : Prop := mk_graph_inv {
  gi_link : forall p n, pin_node ims p = Some (Some n) <-> exists nd, ns !! n = Some nd /\ p ∈ pins nd;
  gi_sorted : forall n nd, ns !! n = Some nd -> osorted (pins nd);
  gi_count : forall n nd, ns !! n = Some nd ->
    num_of_analog_node nd = u64_wrap (Z.of_nat (count (analog_pin ims) (pins nd)))
}.

(** ** Pointing one pin elsewhere *)

Lemma view_set_pin (d : impl) i x j :
  generate_pin_view (set_pin_nodes d i x) !! j =
  if decide (i = j) then (fun p => {| name := name p; nodes := x; model := model p |}) <$> generate_pin_view d !! j
  else generate_pin_view d !! j.
Proof.
  unfold set_pin_nodes. rewrite pin_view_set by apply length_alter. case_decide as E.
  - subst. apply list_lookup_alter_eq.
  - by apply list_lookup_alter_ne.
Qed.

Lemma is_analog_set_pin (d : impl) i x : is_analog (set_pin_nodes d i x) = is_analog d.
Proof. unfold is_analog, set_pin_nodes. by rewrite pin_view_type. Qed.

Lemma analog_pin_set (ims : gmap impl_ptr impl) ip d i x p :
  ims !! ip = Some d -> analog_pin (<[ip := set_pin_nodes d i x]> ims) p = analog_pin ims p.
Proof.
  intros Hd. unfold analog_pin. destruct (decide (p.1 = ip)) as [E|E].
  - rewrite E, lookup_insert_eq, Hd. apply is_analog_set_pin.
  - by rewrite lookup_insert_ne.
Qed.

Lemma analog_pin_at (ims : gmap impl_ptr impl) ip d k : ims !! ip = Some d -> analog_pin ims (ip, k) = is_analog d.
Proof. intros Hd. unfold analog_pin. simpl. by rewrite Hd. Qed.

Lemma pin_node_at (ims : gmap impl_ptr impl) ip d i pn :
  ims !! ip = Some d -> generate_pin_view d !! i = Some pn -> pin_node ims (ip, N.of_nat i) = Some (nodes pn).
Proof. intros Hd Hi. unfold pin_node. simpl. by rewrite Hd, Nat2N.id, Hi. Qed.

Lemma pin_node_set (ims : gmap impl_ptr impl) ip d i pn x q :
  ims !! ip = Some d -> generate_pin_view d !! i = Some pn ->
  pin_node (<[ip := set_pin_nodes d i x]> ims) q =
  if decide (q = (ip, N.of_nat i)) then Some x else pin_node ims q.
Proof.
  intros Hd Hi. case_decide as E.
  - subst. unfold pin_node. simpl. by rewrite lookup_insert_eq, Nat2N.id, view_set_pin, decide_True, Hi by done.
  - unfold pin_node. destruct (decide (q.1 = ip)) as [Eq|Eq]; [|by rewrite lookup_insert_ne].
    rewrite Eq, lookup_insert_eq, Hd, view_set_pin, decide_False; [done|].
    intros ->. apply E. destruct q as [a b]; simpl in *. by rewrite Eq, N2Nat.id.
Qed.

Lemma graph_link ns (ims : gmap impl_ptr impl) ip d i pn n nd :
  graph_inv ns ims -> ims !! ip = Some d -> generate_pin_view d !! i = Some pn -> nodes pn = None ->
  ns !! n = Some nd ->
  graph_inv (<[n := set_links nd (oset_insert (ip, N.of_nat i) (pins nd))
       (if is_analog d then u64_wrap (num_of_analog_node nd + 1) else num_of_analog_node nd)]> ns)
    (<[ip := set_pin_nodes d i (Some n)]> ims).
Proof.
  intros [G1 G3 G4] Hd Hpn Hnone Hn. pose proof (pin_node_at ims ip d i pn Hd Hpn) as Hat.
  assert (Hnew : forall m md, ns !! m = Some md -> (ip, N.of_nat i) ∉ pins md).
  { intros m md Hm Hin. assert (E := proj2 (G1 (ip, N.of_nat i) m) (ex_intro _ md (conj Hm Hin))). congruence. }
  split.
  - intros p m. rewrite (pin_node_set _ _ _ _ pn) by done. destruct (decide (m = n)) as [->|Hmn].
    + rewrite lookup_insert_eq. setoid_rewrite (inj_iff Some). case_decide as E.
      * split; [|done]. intros _. eexists. split; [done|]. apply elem_of_oset_insert. by left.
      * rewrite G1. split.
        -- intros (md & Hmd & Hp). eexists. split; [done|]. apply elem_of_oset_insert. right. by simplify_eq.
        -- intros (md & <- & Hp). apply elem_of_oset_insert in Hp as [?|?]; [done|eauto].
    + rewrite lookup_insert_ne by done. case_decide as E; [|apply G1]. subst. split; [congruence|].
      intros (md & Hmd & Hp). destruct (Hnew m md Hmd Hp).
  - intros m md Hm. destruct (decide (m = n)) as [->|Hmn].
    + rewrite lookup_insert_eq in Hm. simplify_eq. simpl. apply oset_insert_sorted. eauto.
    + rewrite lookup_insert_ne in Hm by done. eauto.
  - intros m md Hm. rewrite (count_ext _ (analog_pin ims)) by (intros x _; by apply analog_pin_set).
    destruct (decide (m = n)) as [->|Hmn].
    + rewrite lookup_insert_eq in Hm. simplify_eq. simpl. rewrite count_insert by eauto.
      rewrite (G4 n nd Hn), (analog_pin_at _ _ d _ Hd). destruct (is_analog d); [|done].
      rewrite u64_wrap_add. f_equal. lia.
    + rewrite lookup_insert_ne in Hm by done. eauto.
Qed.

Lemma graph_unlink ns (ims : gmap impl_ptr impl) ip d i pn n nd :
  graph_inv ns ims -> ims !! ip = Some d -> generate_pin_view d !! i = Some pn -> nodes pn = Some n ->
  ns !! n = Some nd ->
  graph_inv (<[n := set_links nd (oset_erase (ip, N.of_nat i) (pins nd))
       (if is_analog d then u64_wrap (num_of_analog_node nd - 1) else num_of_analog_node nd)]> ns)
    (<[ip := set_pin_nodes d i None]> ims).
Proof.
  intros [G1 G3 G4] Hd Hpn Hsome Hn. pose proof (G3 n nd Hn) as Hso.
  pose proof (pin_node_at ims ip d i pn Hd Hpn) as Hat.
  assert (Hold : (ip, N.of_nat i) ∈ pins nd).
  { destruct (proj1 (G1 (ip, N.of_nat i) n)) as (md & ? & ?); [congruence|]. by simplify_eq. }
  split.
  - intros p m. rewrite (pin_node_set _ _ _ _ pn) by done. destruct (decide (m = n)) as [->|Hmn].
    + rewrite lookup_insert_eq. setoid_rewrite (inj_iff Some). case_decide as E.
      * split; [done|]. intros (md & <- & Hp). apply elem_of_oset_erase in Hp as [_ ?]; done.
      * rewrite G1. split.
        -- intros (md & Hmd & Hp). eexists. split; [done|]. apply elem_of_oset_erase; [done|]. by simplify_eq.
        -- intros (md & <- & Hp). apply elem_of_oset_erase in Hp as [? _]; eauto.
    + rewrite lookup_insert_ne by done. case_decide as E; [|apply G1]. subst. split; [done|].
      intros He. apply G1 in He. congruence.
  - intros m md Hm. destruct (decide (m = n)) as [->|Hmn].
    + rewrite lookup_insert_eq in Hm. simplify_eq. simpl. by apply oset_erase_sorted.
    + rewrite lookup_insert_ne in Hm by done. eauto.
  - intros m md Hm. rewrite (count_ext _ (analog_pin ims)) by (intros x _; by apply analog_pin_set).
    destruct (decide (m = n)) as [->|Hmn].
    + rewrite lookup_insert_eq in Hm. simplify_eq. simpl. rewrite (G4 n nd Hn).
      pose proof (count_erase (analog_pin ims) _ _ Hold) as Hc.
      rewrite (analog_pin_at _ _ d _ Hd) in Hc. destruct (is_analog d).
      * rewrite u64_wrap_sub. f_equal. lia.
      * f_equal. lia.
    + rewrite lookup_insert_ne in Hm by done. eauto.
Qed.

(** ** New and freed objects, new nodes *)

(** Objects that agree on the connected pins and the devices' kinds. *)
Lemma graph_impls ns (ims ims' : gmap impl_ptr impl) :
  graph_inv ns ims ->
  (forall p n, pin_node ims' p = Some (Some n) <-> pin_node ims p = Some (Some n)) ->
  (forall p n, pin_node ims p = Some (Some n) -> analog_pin ims' p = analog_pin ims p) ->
  graph_inv ns ims'.
Proof.
  intros [G1 G3 G4] Hp Ha. split; [|done|].
  - intros p n. by rewrite Hp.
  - intros n nd Hn. rewrite (G4 n nd Hn). do 2 f_equal. apply count_ext. intros p Hin. symmetry. apply (Ha p n), G1. eauto.
Qed.

Definition unconnected (d : impl) : Prop := forall i pn, generate_pin_view d !! i = Some pn -> nodes pn = None.

Lemma graph_free ns (ims : gmap impl_ptr impl) ip d :
  graph_inv ns ims -> ims !! ip = Some d -> unconnected d -> graph_inv ns (delete ip ims).
Proof.
  intros G Hd Hnone.
  assert (Ho : forall p n, pin_node ims p = Some (Some n) -> delete ip ims !! p.1 = ims !! p.1).
  { intros p n Hp. rewrite lookup_delete_ne; [done|]. intros E. unfold pin_node in Hp. rewrite <- E, Hd in Hp.
    destruct (generate_pin_view d !! N.to_nat p.2) eqn:Ei; [|done]. apply Hnone in Ei. simpl in Hp. congruence. }
  apply (graph_impls ns ims); [done|..].
  - intros p n. split; intros Hp.
    + unfold pin_node in *. destruct (delete ip ims !! p.1) eqn:E; [|done].
      apply lookup_delete_Some in E as [_ E]. by rewrite E.
    + unfold pin_node in *. by rewrite (Ho p n Hp).
  - intros p n Hp. unfold analog_pin. by rewrite (Ho p n Hp).
Qed.

Lemma graph_new_impl ns (ims : gmap impl_ptr impl) ip d :
  graph_inv ns ims -> ims !! ip = None -> unconnected d -> graph_inv ns (<[ip := d]> ims).
Proof.
  intros G Hfr Hnone.
  assert (Ho : forall p n, pin_node ims p = Some (Some n) -> <[ip := d]> ims !! p.1 = ims !! p.1).
  { intros p n Hp. rewrite lookup_insert_ne; [done|]. intros E. unfold pin_node in Hp. by rewrite <- E, Hfr in Hp. }
  apply (graph_impls ns ims); [done|..].
  - intros p n. split; intros Hp.
    + unfold pin_node in *. destruct (decide (ip = p.1)) as [E|Hne]; [|by rewrite lookup_insert_ne in Hp].
      rewrite <- E, lookup_insert_eq in Hp. destruct (generate_pin_view d !! N.to_nat p.2) eqn:Ei; [|done].
      apply Hnone in Ei. simpl in Hp. congruence.
    + unfold pin_node in *. by rewrite (Ho p n Hp).
  - intros p n Hp. unfold analog_pin. by rewrite (Ho p n Hp).
Qed.

Lemma graph_new_node ns (ims : gmap impl_ptr impl) n :
  graph_inv ns ims -> ns !! n = None -> graph_inv (<[n := node_t_default]> ns) ims.
Proof.
  intros [G1 G3 G4] Hfr. split.
  - intros p m. destruct (decide (m = n)) as [->|Hne]; [|by rewrite lookup_insert_ne].
    rewrite lookup_insert_eq, G1, Hfr. split; [by intros (? & ? & _)|].
    intros (nd & ? & Hp). simplify_eq. by apply elem_of_nil in Hp.
  - intros m nd Hm. destruct (decide (m = n)) as [->|Hne].
    + rewrite lookup_insert_eq in Hm. simplify_eq. constructor.
    + rewrite lookup_insert_ne in Hm by done. eauto.
  - intros m nd Hm. destruct (decide (m = n)) as [->|Hne].
    + rewrite lookup_insert_eq in Hm. by simplify_eq.
    + rewrite lookup_insert_ne in Hm by done. eauto.
Qed.

End Graph.

(** ** Clearing and merging nodes *)
Section Nodes.
Context {impl : Type} `{PinViews impl}.

Lemma point_pins_spec (x : option node_ptr) ps (ims : gmap impl_ptr impl) :
  (forall p, p ∈ ps -> is_Some (pin_node ims p)) ->
  exists ims', point_pins x ims ps = Some ims' /\
    (forall q, pin_node ims' q = if decide (q ∈ ps) then Some x else pin_node ims q) /\
    (forall q, analog_pin ims' q = analog_pin ims q) /\ dom ims' = dom ims.
Proof.
  revert ims. induction ps as [|p ps IH]; intros ims Hp; simpl.
  { exists ims. done. }
  destruct (Hp p) as [y Hy]; [apply elem_of_cons; by left|]. pose proof Hy as Hy'. unfold point_pin. unfold pin_node in Hy.
  destruct (ims !! p.1) as [d|] eqn:Hd; [|done].
  destruct (generate_pin_view d !! N.to_nat p.2) as [pn|] eqn:Hi; [|done].
  assert (Hset : forall q, pin_node (<[p.1 := set_pin_nodes d (N.to_nat p.2) x]> ims) q =
      if decide (q = p) then Some x else pin_node ims q).
  { intros q. rewrite (pin_node_set _ _ _ _ pn) by done. rewrite N2Nat.id. by destruct p. }
  destruct (IH (<[p.1 := set_pin_nodes d (N.to_nat p.2) x]> ims)) as (ims' & -> & Hq & Ha & Hdom).
  { intros q Hin. rewrite Hset. case_decide; [done|]. apply Hp, elem_of_cons. by right. }
  exists ims'. split; [done|]. split; [|split].
  - intros q. rewrite Hq, Hset. destruct (decide (q ∈ ps)) as [E|E].
    + rewrite decide_True; [done|]. apply elem_of_cons. by right.
    + case_decide as E2; [rewrite decide_True; [done|]; apply elem_of_cons; by left|].
      rewrite decide_False; [done|]. intros [?|?]%elem_of_cons; contradiction.
  - intros q. rewrite Ha. by apply analog_pin_set.
  - rewrite Hdom. apply dom_insert_lookup_L. eauto.
Qed.

(** The pins a node lists are there. *)
Lemma listed_pins ns (ims : gmap impl_ptr impl) n nd p :
  graph_inv ns ims -> ns !! n = Some nd -> p ∈ pins nd -> pin_node ims p = Some (Some n).
Proof. intros G Hn Hp. apply (gi_link _ _ G). eauto. Qed.

Lemma graph_clear_node ns (ims ims' : gmap impl_ptr impl) n nd nd' :
  graph_inv ns ims -> ns !! n = Some nd -> pins nd' = [] -> num_of_analog_node nd' = 0 ->
  (forall q, pin_node ims' q = if decide (q ∈ pins nd) then Some None else pin_node ims q) ->
  (forall q, analog_pin ims' q = analog_pin ims q) ->
  graph_inv (<[n := nd']> ns) ims'.
Proof.
  intros G Hn E1 E2 Hq Ha. split.
  - intros p m. rewrite Hq. destruct (decide (m = n)) as [->|Hmn].
    + rewrite lookup_insert_eq. split.
      * case_decide as E; [done|]. intros Hp. apply (gi_link _ _ G) in Hp as (md & ? & ?). by simplify_eq.
      * intros (md & ? & Hp). simplify_eq. rewrite E1 in Hp. by apply elem_of_nil in Hp.
    + rewrite lookup_insert_ne by done. case_decide as E; [|apply G]. split; [done|].
      intros (md & Hm & Hp). assert (X := listed_pins _ _ _ _ _ G Hm Hp).
      rewrite (listed_pins _ _ _ _ _ G Hn E) in X. congruence.
  - intros m md Hm. destruct (decide (m = n)) as [->|Hmn].
    + rewrite lookup_insert_eq in Hm. simplify_eq. rewrite E1. constructor.
    + rewrite lookup_insert_ne in Hm by done. eapply gi_sorted; eauto.
  - intros m md Hm. rewrite (count_ext _ (analog_pin ims)) by auto. destruct (decide (m = n)) as [->|Hmn].
    + rewrite lookup_insert_eq in Hm. simplify_eq. by rewrite E1, E2.
    + rewrite lookup_insert_ne in Hm by done. by apply (gi_count _ _ G m).
Qed.

(** The counter of the merged node is right only if the other one counts
    nothing: the code does not add the counters. *)
Lemma graph_merge_nodes ns (ims ims' : gmap impl_ptr impl) n o nd od od' :
  graph_inv ns ims -> ns !! n = Some nd -> ns !! o = Some od -> n <> o ->
  (forall p, p ∈ pins od -> analog_pin ims p = false) ->
  pins od' = [] -> num_of_analog_node od' = 0 ->
  (forall q, pin_node ims' q = if decide (q ∈ pins od) then Some (Some n) else pin_node ims q) ->
  (forall q, analog_pin ims' q = analog_pin ims q) ->
  graph_inv (<[o := od']> (<[n := set_links nd (oset_insert_all (pins od) (pins nd)) (num_of_analog_node nd)]> ns)) ims'.
Proof.
  intros G Hn Ho Hno Hdig E1 E2 Hq Ha. split.
  - intros p m. rewrite Hq. destruct (decide (m = o)) as [->|Hmo].
    + rewrite lookup_insert_eq. split.
      * case_decide as E; [congruence|]. intros Hp. apply (gi_link _ _ G) in Hp as (md & ? & ?). by simplify_eq.
      * intros (md & ? & Hp). simplify_eq. rewrite E1 in Hp. by apply elem_of_nil in Hp.
    + rewrite lookup_insert_ne by done. destruct (decide (m = n)) as [->|Hmn].
      * rewrite lookup_insert_eq. setoid_rewrite (inj_iff Some). case_decide as E.
        -- split; [|done]. intros _. eexists. split; [done|]. apply elem_of_oset_insert_all. by left.
        -- rewrite (gi_link _ _ G). split.
           ++ intros (md & ? & Hp). simplify_eq. eexists. split; [done|]. apply elem_of_oset_insert_all. by right.
           ++ intros (md & <- & Hp). apply elem_of_oset_insert_all in Hp as [?|?]; [done|eauto].
      * rewrite lookup_insert_ne by done. case_decide as E; [|apply G]. split; [congruence|].
        intros (md & Hm & Hp). assert (X := listed_pins _ _ _ _ _ G Hm Hp).
        rewrite (listed_pins _ _ _ _ _ G Ho E) in X. congruence.
  - intros m md Hm. destruct (decide (m = o)) as [->|Hmo].
    { rewrite lookup_insert_eq in Hm. simplify_eq. rewrite E1. constructor. }
    rewrite lookup_insert_ne in Hm by done. destruct (decide (m = n)) as [->|Hmn].
    + rewrite lookup_insert_eq in Hm. simplify_eq. apply oset_insert_all_sorted. by eapply gi_sorted.
    + rewrite lookup_insert_ne in Hm by done. eapply gi_sorted; eauto.
  - intros m md Hm. rewrite (count_ext _ (analog_pin ims)) by auto. destruct (decide (m = o)) as [->|Hmo].
    { rewrite lookup_insert_eq in Hm. simplify_eq. by rewrite E1, E2. }
    rewrite lookup_insert_ne in Hm by done. destruct (decide (m = n)) as [->|Hmn].
    + rewrite lookup_insert_eq in Hm. simplify_eq. simpl.
      rewrite count_insert_all_false; [by apply (gi_count _ _ G n)|by eapply gi_sorted|done].
    + rewrite lookup_insert_ne in Hm by done. by apply (gi_count _ _ G m).
Qed.

End Nodes.
