(* ===== verification/NetlistOps.v ===== *)
(** * NetlistOps: the operations of [netlist/operation.h] keep the invariant *)

From Stdlib Require Import ZArith Lia.
From stdpp Require Import base list gmap strings relations.
From S2P Require Import Prelude Store Logic4 Gates Model Netlist NetlistInv.

Open Scope Z_scope.

(** ** The slots of the chunks *)

Definition all_slots (bs : list model_block) : list model_base := concat (map slots bs).
Definition owned (bs : list model_block) : list impl_ptr := omap ptr (all_slots bs).
Definition nulls (l : list model_base) : nat := length (List.filter (fun mb => negb (is_used mb)) l).

Lemma all_slots_app bs cs : all_slots (bs ++ cs) = all_slots bs ++ all_slots cs.
Proof. unfold all_slots. by rewrite map_app, concat_app. Qed.

Lemma all_slots_one b : all_slots [b] = slots b.
Proof. unfold all_slots. simpl. by rewrite app_nil_r. Qed.

Lemma all_slots_cons b bs : all_slots (b :: bs) = slots b ++ all_slots bs.
Proof. done. Qed.

Lemma all_slots_insert bs c b : bs !! c = Some b ->
  exists l r, all_slots bs = l ++ slots b ++ r /\ (forall b', all_slots (<[c := b']> bs) = l ++ slots b' ++ r).
Proof.
  intros Hc. exists (all_slots (take c bs)), (all_slots (drop (S c) bs)). split.
  - rewrite <- (take_drop_middle bs c b Hc) at 1. by rewrite all_slots_app, all_slots_cons.
  - intros b'. rewrite insert_take_drop by (by apply lookup_lt_Some in Hc).
    by rewrite all_slots_app, all_slots_cons.
Qed.

Lemma omap_insert_slot (l : list model_base) v mb mb' : l !! v = Some mb -> ptr mb' = None ->
  exists a c, omap ptr l = a ++ option_list (ptr mb) ++ c /\ omap ptr (<[v := mb']> l) = a ++ c.
Proof.
  intros Hv Hn. exists (omap ptr (take v l)), (omap ptr (drop (S v) l)). split.
  - rewrite <- (take_drop_middle l v mb Hv) at 1. rewrite omap_app. simpl. by destruct (ptr mb).
  - rewrite insert_take_drop by (by apply lookup_lt_Some in Hv). rewrite omap_app. simpl. by rewrite Hn.
Qed.

Lemma take_last_slot (l : list model_base) v mb : l !! v = Some mb -> v = (length l - 1)%nat -> l = take v l ++ [mb].
Proof.
  intros Hv ->. rewrite <- (take_drop_middle l _ mb Hv) at 1. apply lookup_lt_Some in Hv.
  rewrite (drop_ge l) by lia. done.
Qed.

Lemma nulls_app l1 l2 : nulls (l1 ++ l2) = (nulls l1 + nulls l2)%nat.
Proof. unfold nulls. by rewrite List.filter_app, length_app. Qed.

Lemma nulls_insert l v mb mb' : l !! v = Some mb ->
  (nulls (<[v := mb']> l) + (if is_used mb then 0 else 1) = nulls l + (if is_used mb' then 0 else 1))%nat.
Proof.
  intros Hv. rewrite insert_take_drop by (by apply lookup_lt_Some in Hv).
  rewrite <- (take_drop_middle l v mb Hv) at 3. rewrite !nulls_app. unfold nulls. simpl.
  destruct (is_used mb), (is_used mb'); simpl; lia.
Qed.

Lemma nulls_le l : (nulls l <= length l)%nat.
Proof. unfold nulls. apply List.filter_length_le. Qed.

(** What a chunk promises: its slots fit, and its counter counts the deleted
    ones. *)
Definition block_ok (chunk_models : nat) (b : model_block) : Prop :=
  (length (slots b) <= chunk_models)%nat /\ num_of_null_model b = Z.of_nat (nulls (slots b)).

Definition slot_ok (mb : model_base) : Prop :=
  (type mb = null /\ ptr mb = None) \/ (type mb = normal /\ is_Some (ptr mb)).

Lemma slot_used mb : slot_ok mb -> is_used mb = bool_decide (is_Some (ptr mb)).
Proof.
  unfold is_used. intros [[E1 E2]|[E1 [ip E2]]]; by rewrite E1, E2.
Qed.

Section Push.
Context (chunk_models : nat) (Hchunk : (0 < chunk_models)%nat).

Lemma push_slot_cases bs mb :
  (push_slot chunk_models bs mb = bs ++ [{| slots := [mb]; num_of_null_model := 0 |}]) \/
  (exists init b, bs = init ++ [b] /\ length (slots b) <> chunk_models /\
     push_slot chunk_models bs mb = init ++ [{| slots := slots b ++ [mb]; num_of_null_model := num_of_null_model b |}]).
Proof.
  unfold push_slot. destruct bs as [|b0 bs0] using rev_ind; [by left|].
  rewrite rev_app_distr. simpl. case_bool_decide as E; [by left|]. right. exists bs0, b0. by rewrite rev_involutive.
Qed.

Lemma all_slots_push bs mb : all_slots (push_slot chunk_models bs mb) = all_slots bs ++ [mb].
Proof.
  destruct (push_slot_cases bs mb) as [->|(i & b & -> & _ & ->)]; rewrite !all_slots_app, !all_slots_one; simpl; [done|].
  by rewrite app_assoc.
Qed.

Lemma block_ok_push bs mb : is_used mb = true ->
  (forall b, b ∈ bs -> block_ok chunk_models b) -> forall b, b ∈ push_slot chunk_models bs mb -> block_ok chunk_models b.
Proof using Hchunk.
  intros Hu Hbs b Hb. destruct (push_slot_cases bs mb) as [E|(i & b0 & -> & Hl & E)]; rewrite E in Hb.
  - apply elem_of_app in Hb as [?|Eb]; [auto|]. apply list_elem_of_singleton in Eb as ->. unfold block_ok, nulls. simpl. rewrite Hu.
    simpl. split; [lia|done].
  - apply elem_of_app in Hb as [?|Eb]; [apply Hbs, elem_of_app; by left|]. apply list_elem_of_singleton in Eb as ->.
    destruct (Hbs b0) as [Ha Hn]; [apply elem_of_app; right; apply list_elem_of_singleton; done|].
    unfold block_ok. simpl. rewrite length_app, nulls_app. unfold nulls at 2. simpl. rewrite Hu. simpl. split; lia.
Qed.

End Push.

(** A chunk after its last slot is destroyed, and after a slot in the middle is
    cleared. *)
Lemma block_pop chunk_models b v mb : (chunk_models <= 4096)%nat -> block_ok chunk_models b ->
  slots b !! v = Some mb -> v = (length (slots b) - 1)%nat ->
  block_ok chunk_models {| slots := take v (slots b); num_of_null_model :=
    if is_used mb then num_of_null_model b else u64_wrap (num_of_null_model b - 1) |}.
Proof.
  intros Hc [Hl Hn] Hv Ev. pose proof (take_last_slot _ _ _ Hv Ev) as E. pose proof (nulls_le (slots b)) as Hle.
  assert (Hs : nulls (slots b) = (nulls (take v (slots b)) + (if is_used mb then 0 else 1))%nat).
  { rewrite E at 1. rewrite nulls_app. unfold nulls at 2. simpl. by destruct (is_used mb). }
  split; simpl; [rewrite length_take; lia|]. rewrite Hn. destruct (is_used mb); [lia|].
  unfold u64_wrap. rewrite Z.mod_small; lia.
Qed.

Lemma block_clear chunk_models b v mb : (chunk_models <= 4096)%nat -> block_ok chunk_models b ->
  slots b !! v = Some mb -> is_used mb = true ->
  block_ok chunk_models {| slots := <[v := cleared_model_base]> (slots b);
    num_of_null_model := u64_wrap (num_of_null_model b + 1) |}.
Proof.
  intros Hc [Hl Hn] Hv Hu. pose proof (nulls_insert _ _ _ cleared_model_base Hv) as E. rewrite Hu in E. simpl in E.
  split; simpl; [by rewrite length_insert|]. pose proof (nulls_le (slots b)) as Hle. rewrite Hn.
  unfold u64_wrap. rewrite Z.mod_small; lia.
Qed.

(** ** The invariant *)
Section Ops.
Context {impl : Type} `{PinViews impl}.
Context (chunk_models chunk_nodes : nat).
Abbreviation netlist := (netlist impl).

Record nl_inv (nl : netlist) : Prop := mk_nl_inv {
  ni_graph : graph_inv (s_nodes nl) (s_impls nl);
  ni_fresh_node : forall n, (fresh_node nl <= n)%N -> s_nodes nl !! n = None;
  ni_fresh_impl : forall ip, (fresh_impl nl <= ip)%N -> s_impls nl !! ip = None;
  ni_slot : forall mb, mb ∈ all_slots (models nl) -> slot_ok mb;
  ni_unique : NoDup (owned (models nl));
  ni_owned : forall ip, ip ∈ owned (models nl) <-> is_Some (s_impls nl !! ip);
  ni_block : forall b, b ∈ models nl -> block_ok chunk_models b
}.

(** Changing the connections only. *)
Lemma inv_set_graph nl ns (ims : gmap impl_ptr impl) :
  nl_inv nl -> graph_inv ns ims -> dom ns = dom (s_nodes nl) -> dom ims = dom (s_impls nl) ->
  nl_inv (set_graph nl ns ims).
Proof.
  intros I G En Ei. split; simpl; [done| | |apply I|apply I| |apply I].
  - intros n Hn. apply not_elem_of_dom. rewrite En. by apply not_elem_of_dom, I.
  - intros n Hn. apply not_elem_of_dom. rewrite Ei. by apply not_elem_of_dom, I.
  - intros ip. by rewrite (ni_owned _ I), <- !elem_of_dom, Ei.
Qed.

Lemma inv_create_node nl : nl_inv nl -> nl_inv (create_node chunk_nodes nl).1.
Proof.
  intros I. pose proof (ni_fresh_node _ I (fresh_node nl) (N.le_refl _)) as Hfr.
  split; simpl; [| |apply I..].
  - apply graph_new_node; [apply I|done].
  - intros n Hn. rewrite lookup_insert_ne by lia. apply I. lia.
Qed.

Lemma dom_insert_same {A} (m : gmap N A) k x y : m !! k = Some x -> dom (<[k := y]> m) = dom m.
Proof. intros Hk. apply dom_insert_lookup_L. eauto. Qed.

(** ** Connecting pins *)

Lemma inv_add_to_node nl mb n1 node r nl' ip :
  nl_inv nl -> 0 <= n1 -> ptr mb = Some ip ->
  (forall x, pin_node (s_impls nl) (ip, Z.to_N n1) = Some x -> x = None) ->
  add_to_node nl mb n1 node = Some (r, nl') -> nl_inv nl'.
Proof.
  intros I Hn1 Hp Hfree. unfold add_to_node. rewrite Hp. destruct (s_impls nl !! ip) as [d|] eqn:Hd; [|done].
  destruct (_ <=? n1) eqn:Hle; [by intros [= _ <-]|]. destruct (s_nodes nl !! node) as [nd|] eqn:Hn; [|done].
  intros [= _ <-]. destruct (lookup_lt_is_Some_2 (generate_pin_view d) (Z.to_nat n1)) as [pn Hpn]; [lia|].
  apply inv_set_graph; [done|..].
  - eapply graph_link; [apply I|done|done|..|done]. apply Hfree.
    replace (Z.to_N n1) with (N.of_nat (Z.to_nat n1)) by lia. by eapply pin_node_at.
  - by eapply dom_insert_same.
  - by eapply dom_insert_same.
Qed.

Lemma inv_remove_from_node nl mb n1 node r nl' ip :
  nl_inv nl -> 0 <= n1 -> ptr mb = Some ip ->
  (forall x, pin_node (s_impls nl) (ip, Z.to_N n1) = Some x -> x = Some node) ->
  remove_from_node nl mb n1 node = Some (r, nl') -> nl_inv nl'.
Proof.
  intros I Hn1 Hp Hon. unfold remove_from_node. rewrite Hp. destruct (s_impls nl !! ip) as [d|] eqn:Hd; [|done].
  destruct (_ <=? n1) eqn:Hle; [by intros [= _ <-]|]. destruct (s_nodes nl !! node) as [nd|] eqn:Hn; [|done].
  intros [= _ <-]. destruct (lookup_lt_is_Some_2 (generate_pin_view d) (Z.to_nat n1)) as [pn Hpn]; [lia|].
  apply inv_set_graph; [done|..].
  - eapply graph_unlink; [apply I|done|done|..|done]. apply Hon.
    replace (Z.to_N n1) with (N.of_nat (Z.to_nat n1)) by lia. by eapply pin_node_at.
  - by eapply dom_insert_same.
  - by eapply dom_insert_same.
Qed.

(** ** Nodes *)

Lemma delete_node_spec nl node nd : nl_inv nl -> s_nodes nl !! node = Some nd ->
  exists nl', delete_node nl node = Some nl' /\ nl_inv nl' /\
    (forall q, pin_node (s_impls nl') q = if decide (q ∈ pins nd) then Some None else pin_node (s_impls nl) q).
Proof.
  intros I Hn. unfold delete_node. rewrite Hn.
  destruct (point_pins_spec None (pins nd) (s_impls nl)) as (ims & -> & Hq & Ha & Hdom).
  { intros p Hp. eexists. by eapply listed_pins; [apply I|..]. }
  eexists. split; [done|]. split; [|done]. apply inv_set_graph; [done|..|by eapply dom_insert_same|done].
  by eapply graph_clear_node; [apply I|..].
Qed.

Lemma merge_node_spec nl node other nd od : nl_inv nl ->
  s_nodes nl !! node = Some nd -> s_nodes nl !! other = Some od -> node <> other ->
  (forall p, p ∈ pins od -> analog_pin (s_impls nl) p = false) ->
  exists nl', merge_node nl node other = Some nl' /\ nl_inv nl' /\
    (forall q, pin_node (s_impls nl') q = if decide (q ∈ pins od) then Some (Some node) else pin_node (s_impls nl) q).
Proof.
  intros I Hn Ho Hno Hdig. unfold merge_node. rewrite Hn, Ho.
  destruct (point_pins_spec (Some node) (pins od) (s_impls nl)) as (ims & -> & Hq & Ha & Hdom).
  { intros p Hp. eexists. by eapply listed_pins; [apply I|..]. }
  rewrite lookup_insert_ne, Ho by done. eexists. split; [done|]. split; [|done].
  apply inv_set_graph; [done|..|done].
  - by eapply graph_merge_nodes; [apply I|..].
  - rewrite (dom_insert_same _ _ od), (dom_insert_same _ _ nd); [done|done|]. by rewrite lookup_insert_ne.
Qed.

(** ** Deleting a model *)

(** What disconnecting the pins of one model leaves alone. *)
Definition same_but_links (nl nl' : netlist) : Prop :=
  exists ns ims, nl' = set_graph nl ns ims /\ dom ns = dom (s_nodes nl) /\ dom ims = dom (s_impls nl).

Lemma detach_pin_spec nl ip d i : graph_inv (s_nodes nl) (s_impls nl) ->
  s_impls nl !! ip = Some d -> (i < length (generate_pin_view d))%nat ->
  exists nl' d', detach_pin nl ip i = Some nl' /\ same_but_links nl nl' /\ graph_inv (s_nodes nl') (s_impls nl') /\
    s_impls nl' !! ip = Some d' /\ length (generate_pin_view d') = length (generate_pin_view d) /\
    (forall j pn, generate_pin_view d' !! j = Some pn ->
       nodes pn = None \/ (j <> i /\ generate_pin_view d !! j = Some pn)).
Proof.
  intros G Hd Hi. unfold detach_pin. rewrite Hd.
  destruct (lookup_lt_is_Some_2 (generate_pin_view d) i Hi) as [pn Hpn]. rewrite Hpn.
  destruct (nodes pn) as [n|] eqn:En.
  - destruct (proj1 (gi_link _ _ G (ip, N.of_nat i) n)) as (nd & Hn & Hin).
    { rewrite <- En. by eapply pin_node_at. }
    rewrite Hn. do 2 eexists. split; [done|]. split; [|split; [by eapply graph_unlink|]].
    { do 2 eexists. split; [done|]. split; by eapply dom_insert_same. }
    simpl. rewrite lookup_insert_eq. split; [done|]. split.
    + unfold set_pin_nodes. rewrite pin_view_set by apply length_alter. apply length_alter.
    + intros j qn. rewrite view_set_pin. case_decide as E; [|by right]. subst. rewrite Hpn. intros [= <-]. by left.
  - exists nl, d. split; [done|]. split; [exists (s_nodes nl), (s_impls nl); by destruct nl|]. do 3 (split; [done|]).
    intros j qn Hj. destruct (decide (j = i)) as [->|]; [|by right]. left. congruence.
Qed.

Lemma same_but_links_trans a b c : same_but_links a b -> same_but_links b c -> same_but_links a c.
Proof.
  intros (n1 & i1 & -> & E1 & E2) (n2 & i2 & -> & E3 & E4). exists n2, i2. split; [done|]. simpl in *. by rewrite E3, E4.
Qed.

Lemma detach_pins_spec is_ nl ip d : graph_inv (s_nodes nl) (s_impls nl) ->
  s_impls nl !! ip = Some d -> (forall i, i ∈ is_ -> (i < length (generate_pin_view d))%nat) ->
  exists nl' d', detach_pins nl ip is_ = Some nl' /\ same_but_links nl nl' /\ graph_inv (s_nodes nl') (s_impls nl') /\
    s_impls nl' !! ip = Some d' /\ length (generate_pin_view d') = length (generate_pin_view d) /\
    (forall j pn, generate_pin_view d' !! j = Some pn ->
       nodes pn = None \/ ((j ∉ is_) /\ generate_pin_view d !! j = Some pn)).
Proof.
  revert nl d. induction is_ as [|i is_ IH]; intros nl d G Hd Hb; simpl.
  { exists nl, d. split; [done|]. split; [exists (s_nodes nl), (s_impls nl); by destruct nl|]. do 3 (split; [done|]).
    intros j pn Hj. right. split; [apply not_elem_of_nil|done]. }
  destruct (detach_pin_spec nl ip d i G Hd) as (nl1 & d1 & -> & F1 & G1 & Hd1 & L1 & V1).
  { apply Hb, elem_of_cons. by left. }
  destruct (IH nl1 d1 G1 Hd1) as (nl2 & d2 & -> & F2 & G2 & Hd2 & L2 & V2).
  { intros j Hj. rewrite L1. apply Hb, elem_of_cons. by right. }
  exists nl2, d2. split; [done|]. split; [by eapply same_but_links_trans|]. do 2 (split; [done|]). split; [congruence|].
  intros j pn Hj. destruct (V2 j pn Hj) as [?|[Hj2 Hv]]; [by left|]. destruct (V1 j pn Hv) as [?|[Hj1 Hv1]]; [by left|].
  right. split; [|done]. by apply not_elem_of_cons.
Qed.

(** Clearing a slot in use: the object is freed and no node refers to it. *)
Lemma model_clear_spec nl mb ip : nl_inv nl -> type mb = normal -> ptr mb = Some ip -> is_Some (s_impls nl !! ip) ->
  exists ns ims, model_clear nl mb = Some (set_graph nl ns ims) /\ graph_inv ns ims /\
    dom ns = dom (s_nodes nl) /\ dom ims = dom (s_impls nl) ∖ {[ip]}.
Proof.
  intros I Ht Hp [d Hd]. unfold model_clear, model_remove_from_node. rewrite Hp, Hd, bool_decide_eq_true_2 by done.
  destruct (detach_pins_spec (seq 0 (length (generate_pin_view d))) nl ip d) as (nl1 & d1 & -> & F & G1 & Hd1 & L1 & V1);
    [apply I|done| |].
  { intros i Hi. apply elem_of_seq in Hi. lia. }
  destruct F as (ns & ims & -> & E1 & E2). simpl in *. exists ns, (delete ip ims). split; [done|].
  split; [|split; [done|by rewrite dom_delete_L, E2]]. eapply graph_free; [done..|].
  intros j pn Hj. destruct (V1 j pn Hj) as [?|[Hj2 _]]; [done|]. destruct Hj2. apply elem_of_seq.
  apply lookup_lt_Some in Hj. lia.
Qed.

(** The slots after a deletion: the objects' pointers are gone from them. *)
Lemma inv_drop_slot nl ns (ims : gmap impl_ptr impl) c b b' ips l r :
  nl_inv nl -> models nl !! c = Some b -> graph_inv ns ims ->
  dom ns = dom (s_nodes nl) -> dom ims = dom (s_impls nl) ∖ list_to_set ips ->
  omap ptr (slots b) = l ++ ips ++ r -> omap ptr (slots b') = l ++ r ->
  (forall mb, mb ∈ slots b' -> mb ∈ slots b \/ mb = cleared_model_base) -> block_ok chunk_models b' ->
  nl_inv (set_block (set_graph nl ns ims) c b').
Proof.
  intros I Hc G En Ei Hb Hb' Hmb Hok. destruct (all_slots_insert _ _ _ Hc) as (u & v & Eu & Ev).
  assert (Eo : owned (models nl) ≡ₚ ips ++ (omap ptr u ++ l) ++ (r ++ omap ptr v)).
  { unfold owned. rewrite Eu, !omap_app, Hb. solve_Permutation. }
  assert (Eo' : owned (<[c := b']> (models nl)) = (omap ptr u ++ l) ++ (r ++ omap ptr v)).
  { unfold owned. rewrite Ev, !omap_app, Hb'. by rewrite <- !app_assoc. }
  pose proof (ni_unique _ I) as Hnd. rewrite Eo in Hnd. apply NoDup_app in Hnd as (_ & Hips & Hnd).
  split; simpl.
  - done.
  - intros n Hn. apply not_elem_of_dom. rewrite En. by apply not_elem_of_dom, I.
  - intros n Hn. apply not_elem_of_dom. rewrite Ei. intros [Hin _]%elem_of_difference.
    apply elem_of_dom in Hin as [? Hin]. rewrite (ni_fresh_impl _ I) in Hin; done.
  - intros mb Hin. rewrite Ev in Hin. pose proof (ni_slot _ I) as Hs. rewrite Eu in Hs. setoid_rewrite elem_of_app in Hs.
    setoid_rewrite elem_of_app in Hs. rewrite !elem_of_app in Hin. destruct Hin as [?|[Hin|?]]; [eauto| |eauto].
    destruct (Hmb mb Hin) as [?| ->]; [eauto|]. by left.
  - by rewrite Eo'.
  - intros ip. rewrite Eo', <- elem_of_dom, Ei, elem_of_difference, elem_of_dom, <- (ni_owned _ I), Eo.
    rewrite elem_of_list_to_set, (elem_of_app ips). split.
    + intros Hin. split; [by right|]. intros Hi. by apply (Hips ip).
    + intros [[?|?] ?]; done.
  - intros b0 Hb0. apply list_elem_of_lookup_1 in Hb0 as [k Hk].
    destruct (decide (c = k)) as [->|Hne].
    + rewrite list_lookup_insert_eq in Hk by (by apply lookup_lt_Some in Hc). by simplify_eq.
    + rewrite list_lookup_insert_ne in Hk by done. apply (ni_block _ I). by eapply list_elem_of_lookup_2.
Qed.

Lemma get_model_spec (nl : netlist) pos mb : 0 <= chunk_pos pos -> 0 <= vec_pos pos ->
  get_model nl pos = Some mb <->
  exists b, models nl !! Z.to_nat (chunk_pos pos) = Some b /\ slots b !! Z.to_nat (vec_pos pos) = Some mb.
Proof.
  intros Hc Hv. unfold get_model, block_size. split.
  - destruct (_ <=? chunk_pos pos); [done|]. destruct (models nl !! _) as [b|]; [|done].
    destruct (_ <=? vec_pos pos); [done|]. eauto.
  - intros (b & Eb & Em). rewrite Eb. pose proof (lookup_lt_Some _ _ _ Eb). pose proof (lookup_lt_Some _ _ _ Em).
    rewrite !(proj2 (Z.leb_gt _ _)) by lia. done.
Qed.

Lemma delete_nothing (nl : netlist) pos : 0 <= chunk_pos pos -> 0 <= vec_pos pos -> get_model nl pos = None ->
  delete_model nl pos = Some (false, nl).
Proof.
  intros Hc Hv. unfold get_model, delete_model. destruct (_ <=? chunk_pos pos) eqn:E1; [done|].
  destruct (lookup_lt_is_Some_2 (models nl) (Z.to_nat (chunk_pos pos))) as [b Eb]; [lia|]. rewrite Eb.
  destruct (_ <=? vec_pos pos) eqn:E2; [done|]. unfold block_size in E2.
  destruct (lookup_lt_is_Some_2 (slots b) (Z.to_nat (vec_pos pos))) as [mb Em]; [lia|]. by rewrite Em.
Qed.

(** The last slot of a chunk is popped, another one is cleared. *)
Lemma delete_model_cases (nl : netlist) pos b mb : 0 <= chunk_pos pos -> 0 <= vec_pos pos ->
  models nl !! Z.to_nat (chunk_pos pos) = Some b -> slots b !! Z.to_nat (vec_pos pos) = Some mb ->
  delete_model nl pos =
  (let c := Z.to_nat (chunk_pos pos) in
   let v := Z.to_nat (vec_pos pos) in
   if decide (v = length (slots b) - 1)%nat then
     match model_clear nl mb with
     | None => None
     | Some nl1 => Some (is_used mb, set_block nl1 c {| slots := take v (slots b); num_of_null_model :=
         if is_used mb then num_of_null_model b else u64_wrap (num_of_null_model b - 1) |})
     end
   else if is_used mb then
     match model_clear nl mb with
     | None => None
     | Some nl1 => Some (true, set_block nl1 c {| slots := <[v := cleared_model_base]> (slots b);
         num_of_null_model := u64_wrap (num_of_null_model b + 1) |})
     end
   else Some (false, nl)).
Proof.
  intros Hc Hv Eb Em. unfold delete_model, block_size, is_used. rewrite Eb.
  pose proof (lookup_lt_Some _ _ _ Eb). pose proof (lookup_lt_Some _ _ _ Em).
  rewrite !(proj2 (Z.leb_gt _ _)) by lia. rewrite Em. cbv zeta. case_decide as E.
  - rewrite (proj2 (Z.eqb_eq _ _)), <- E by lia. destruct (model_clear nl mb); [|done]. by case_bool_decide.
  - rewrite (proj2 (Z.eqb_neq _ _)) by lia. by case_bool_decide.
Qed.

Lemma slot_of_block nl c v b mb : nl_inv nl -> models nl !! c = Some b -> slots b !! v = Some mb -> slot_ok mb.
Proof.
  intros I Eb Em. apply I. unfold all_slots. apply elem_of_concat.
  exists (slots b). split; [by eapply list_elem_of_lookup_2|]. apply list_elem_of_fmap. exists b. split; [done|].
  by eapply list_elem_of_lookup_2.
Qed.

(** The pointers in a chunk's slots before and after. *)
Lemma omap_pop (l : list model_base) v mb : l !! v = Some mb -> v = (length l - 1)%nat ->
  omap ptr l = omap ptr (take v l) ++ option_list (ptr mb) ++ [].
Proof.
  intros Hv E. rewrite (take_last_slot l v mb Hv E) at 1. rewrite omap_app, app_nil_r. simpl. by destruct (ptr mb).
Qed.

Lemma slots_popped (l : list model_base) v mb : mb ∈ take v l -> mb ∈ l \/ mb = cleared_model_base.
Proof. intros Hin. left. rewrite <- (take_drop v l). apply elem_of_app. by left. Qed.

Lemma slots_cleared (l : list model_base) v mb :
  mb ∈ <[v := cleared_model_base]> l -> mb ∈ l \/ mb = cleared_model_base.
Proof.
  intros Hin. apply list_elem_of_lookup_1 in Hin as [k Hk]. apply list_lookup_insert_Some in Hk as [(-> & <- & _)|(_ & Hk)].
  - by right.
  - left. by eapply list_elem_of_lookup_2.
Qed.

Context (Hchunk : (0 < chunk_models <= 4096)%nat).

Lemma inv_add_model nl m : nl_inv nl -> unconnected m -> nl_inv (add_model chunk_models nl m).1.1.
Proof using Hchunk H0.
  intros I Hm. pose proof (ni_fresh_impl _ I (fresh_impl nl) (N.le_refl _)) as Hfr.
  assert (Hno : fresh_impl nl ∉ owned (models nl)).
  { intros Hin. apply (ni_owned _ I) in Hin as [? ?]. congruence. }
  split; simpl; try rewrite all_slots_push.
  - apply graph_new_impl; [apply I|done..].
  - apply I.
  - intros ip Hip. rewrite lookup_insert_ne by lia. apply I. lia.
  - intros mb [?|Eb]%elem_of_app; [by apply I|]. apply list_elem_of_singleton in Eb as ->. right. by split; [|eexists].
  - unfold owned. rewrite all_slots_push, omap_app. simpl. apply NoDup_app. split; [apply I|]. split; [|apply NoDup_singleton].
    intros x Hx Ex. apply list_elem_of_singleton in Ex as ->. done.
  - intros ip. unfold owned. rewrite all_slots_push, omap_app, elem_of_app. simpl. rewrite list_elem_of_singleton.
    fold (owned (models nl)). rewrite (ni_owned _ I). destruct (decide (ip = fresh_impl nl)) as [->|Hne].
    + rewrite lookup_insert_eq. split; [eauto|]. intros _. by right.
    + rewrite lookup_insert_ne by done. split; [intros [?|?]; done|by left].
  - apply block_ok_push; [lia|done|apply I].
Qed.

Lemma delete_model_spec nl pos mb : nl_inv nl -> 0 <= chunk_pos pos -> 0 <= vec_pos pos ->
  get_model nl pos = Some mb ->
  exists nl', delete_model nl pos = Some (is_used mb, nl') /\ nl_inv nl' /\
    dom (s_nodes nl') = dom (s_nodes nl) /\
    dom (s_impls nl') = dom (s_impls nl) ∖ list_to_set (option_list (ptr mb)).
Proof using Hchunk H0.
  intros I Hc Hv Hg. apply get_model_spec in Hg as (b & Eb & Em); [|done..].
  rewrite (delete_model_cases nl pos b mb) by done. cbv zeta. pose proof (slot_of_block _ _ _ _ _ I Eb Em) as Hs.
  assert (Hb : block_ok chunk_models b) by (apply I; by eapply list_elem_of_lookup_2).
  assert (Hclear : exists ns ims, model_clear nl mb = Some (set_graph nl ns ims) /\ graph_inv ns ims /\
    dom ns = dom (s_nodes nl) /\ dom ims = dom (s_impls nl) ∖ list_to_set (option_list (ptr mb))).
  { destruct Hs as [[Et Ep]|[Et [ip Ep]]].
    - exists (s_nodes nl), (s_impls nl). unfold model_clear, model_remove_from_node. rewrite Ep. simpl.
      split; [by destruct nl|]. split; [apply I|]. split; [done|]. by rewrite difference_empty_L.
    - rewrite Ep. simpl. rewrite union_empty_r_L. apply model_clear_spec; [done..|]. apply I. unfold owned.
      apply list_elem_of_omap. exists mb. split; [|done]. apply elem_of_concat. exists (slots b).
      split; [by eapply list_elem_of_lookup_2|]. apply list_elem_of_fmap. exists b. split; [done|].
      by eapply list_elem_of_lookup_2. }
  destruct Hclear as (ns & ims & -> & G & En & Ei). case_decide as Elast.
  - eexists. split; [done|]. split; [|done].
    eapply inv_drop_slot; [done|done|done|done|done|by apply omap_pop|simpl; by rewrite app_nil_r|apply slots_popped|].
    apply block_pop; [lia|done..].
  - destruct (is_used mb) eqn:Eu.
    + eexists. split; [done|]. split; [|done].
      destruct (omap_insert_slot _ _ _ cleared_model_base Em eq_refl) as (l & r & E1 & E2).
      eapply inv_drop_slot; [done|done|done|done|done|exact E1|exact E2|apply slots_cleared|].
      eapply block_clear; [lia|done..].
    + exists nl. split; [done|]. split; [done|]. split; [done|]. rewrite (slot_used _ Hs) in Eu.
      apply bool_decide_eq_false in Eu. destruct (ptr mb); [by destruct Eu|]. simpl. by rewrite difference_empty_L.
Qed.

(** ** Sequences of operations *)

(** The operations a client performs: pins are connected when they are free and
    disconnected from the node they are on, and only nodes without analog
    connections are merged into another. *)
Inductive nl_step (nl : netlist) : netlist -> Prop :=
| step_add_model m : unconnected m -> nl_step nl (add_model chunk_models nl m).1.1
| step_create_node : nl_step nl (create_node chunk_nodes nl).1
| step_delete_model pos r nl' : 0 <= chunk_pos pos -> 0 <= vec_pos pos ->
    delete_model nl pos = Some (r, nl') -> nl_step nl nl'
| step_add_to_node pos mb ip n1 node r nl' : 0 <= n1 -> get_model nl pos = Some mb -> ptr mb = Some ip ->
    (forall x, pin_node (s_impls nl) (ip, Z.to_N n1) = Some x -> x = None) ->
    add_to_node_at nl pos n1 node = Some (r, nl') -> nl_step nl nl'
| step_remove_from_node pos mb ip n1 node r nl' : 0 <= n1 -> get_model nl pos = Some mb -> ptr mb = Some ip ->
    (forall x, pin_node (s_impls nl) (ip, Z.to_N n1) = Some x -> x = Some node) ->
    remove_from_node_at nl pos n1 node = Some (r, nl') -> nl_step nl nl'
| step_delete_node node nl' : delete_node nl node = Some nl' -> nl_step nl nl'
| step_merge_node node other od nl' : node <> other -> s_nodes nl !! other = Some od ->
    (forall p, p ∈ pins od -> analog_pin (s_impls nl) p = false) ->
    merge_node nl node other = Some nl' -> nl_step nl nl'.

Lemma step_inv nl nl' : nl_inv nl -> nl_step nl nl' -> nl_inv nl'.
Proof using Hchunk H0.
  intros I Hst. destruct Hst as [m Hm| |pos r nl' Hc Hv E|pos mb ip n1 node r nl' Hn Hg Hp Hx E|
    pos mb ip n1 node r nl' Hn Hg Hp Hx E|node nl' E|node other od nl' Hno Ho Hd E].
  - by apply inv_add_model.
  - by apply inv_create_node.
  - destruct (get_model nl pos) as [mb|] eqn:Eg.
    + destruct (delete_model_spec nl pos mb) as (nl2 & E2 & I2 & _); [done..|]. congruence.
    + rewrite delete_nothing in E by done. congruence.
  - unfold add_to_node_at in E. rewrite Hg in E. by eapply inv_add_to_node.
  - unfold remove_from_node_at in E. rewrite Hg in E. by eapply inv_remove_from_node.
  - destruct (s_nodes nl !! node) as [nd|] eqn:En; [|unfold delete_node in E; by rewrite En in E].
    destruct (delete_node_spec nl node nd I En) as (nl2 & E2 & I2 & _). congruence.
  - destruct (s_nodes nl !! node) as [nd|] eqn:En; [|unfold merge_node in E; by rewrite En in E].
    destruct (merge_node_spec nl node other nd od I En Ho Hno Hd) as (nl2 & E2 & I2 & _). congruence.
Qed.

(** An empty netlist: the ground node only. *)
Definition netlist_empty : netlist := mk_netlist {[0%N := node_t_default]} ∅ [] [] 0%N 1%N 0%N.

Lemma empty_inv : nl_inv netlist_empty.
Proof.
  split; simpl.
  - rewrite <- insert_empty. apply graph_new_node; [|done]. split.
    + intros p n. split; [done|]. by intros (nd & ? & _).
    + done.
    + done.
  - intros n Hn. rewrite lookup_singleton_ne by lia. done.
  - done.
  - intros mb Hmb. by apply elem_of_nil in Hmb.
  - constructor.
  - intros ip. split; [by intros ?%elem_of_nil|]. by intros [? ?].
  - intros b Hb. by apply elem_of_nil in Hb.
Qed.

Lemma steps_inv a b : rtc nl_step a b -> nl_inv a -> nl_inv b.
Proof using Hchunk H0. induction 1; eauto using step_inv. Qed.
End Ops.
