(* ===== verification/NetlistClaims.v ===== *)
(** * NetlistClaims: theorems about [netlist/operation.h]

    The invariant of every netlist a client builds, what deleting a model
    leaves behind, the two ways to count models, and the round trips of adding
    a model and of connecting a pin, each applied to a small netlist. *)

From Stdlib Require Import ZArith Lia.
From stdpp Require Import base list gmap strings relations.
From S2P Require Import Prelude Store Logic4 Gates Devices Model Netlist NetlistInv.
From S2P Require Import NetlistOps.

Open Scope Z_scope.

(** A netlist with one gate connected to a node, and the same without it;
    chunks of two models and two nodes. *)
Definition some_gate : device := m_AND AND.default.
Definition nl_one : netlist device := (add_model 2 netlist_empty some_gate).1.1.
Definition nl_noded : netlist device := (create_node 2 nl_one).1.
Definition pos0 : model_pos := {| vec_pos := 0; chunk_pos := 0 |}.
Definition nl_connected : netlist device :=
  match add_to_node_at nl_noded pos0 2 1%N with Some (_, nl) => nl | None => nl_noded end.

Lemma some_gate_unconnected : unconnected some_gate.
Proof. intros i pn Hi. do 3 (destruct i; [by injection Hi as <-|]). done. Qed.

Lemma nl_connected_reachable : rtc (nl_step 2 2) netlist_empty nl_connected.
Proof.
  eapply rtc_l; [apply (step_add_model 2 2 netlist_empty some_gate some_gate_unconnected)|].
  eapply rtc_l; [apply (step_create_node 2 2 nl_one)|]. apply rtc_once.
  eapply (step_add_to_node 2 2 nl_noded pos0 (new_model_base 0%N) 0%N 2 1%N true); [done|done|done| |done].
  intros x Hx. vm_compute in Hx. congruence.
Qed.

Section Claims.
Context {impl : Type} `{PinViews impl}.
Context (chunk_models chunk_nodes : nat).

(** ** Counting models *)

Definition used (l : list model_base) : nat := length (List.filter is_used l).

Lemma used_nulls l : (used l + nulls l = length l)%nat.
Proof. unfold used, nulls. induction l as [|mb l IH]; simpl; [done|]. destruct (is_used mb); simpl; lia. Qed.

Lemma count_checked l res : fold_left (fun r mb => if is_used mb then u64_wrap (r + 1) else r) l (u64_wrap res) =
  u64_wrap (res + Z.of_nat (used l)).
Proof.
  revert res. unfold used. induction l as [|mb l IH]; intros res; simpl; [f_equal; lia|].
  destruct (is_used mb); [|by rewrite IH]. rewrite u64_wrap_add, IH. f_equal. simpl. lia.
Qed.

Lemma counts_agree bs res : (forall b, b ∈ bs -> block_ok chunk_models b) ->
  fold_left (fun res b => fold_left (fun r mb => if is_used mb then u64_wrap (r + 1) else r) (slots b) res) bs (u64_wrap res) =
  fold_left (fun res b => u64_wrap (res + block_num_of_model b)) bs (u64_wrap res) /\
  fold_left (fun res b => u64_wrap (res + block_num_of_model b)) bs (u64_wrap res) =
  u64_wrap (res + Z.of_nat (used (all_slots bs))).
Proof.
  revert res. induction bs as [|b bs IH]; intros res Hb; simpl.
  { split; [done|]. f_equal. unfold used. simpl. lia. }
  destruct (Hb b) as [_ Hn]; [apply elem_of_cons; by left|]. rewrite count_checked.
  assert (E : u64_wrap (u64_wrap res + block_num_of_model b) = u64_wrap (res + Z.of_nat (used (slots b)))).
  { unfold block_num_of_model, block_size. rewrite Hn. pose proof (used_nulls (slots b)).
    replace (Z.of_nat (length (slots b)) - Z.of_nat (nulls (slots b))) with (Z.of_nat (used (slots b))) by lia.
    rewrite u64_wrap_add, Z.add_comm, u64_wrap_add. f_equal. lia. }
  rewrite E. destruct (IH (res + Z.of_nat (used (slots b)))) as [-> ->]; [intros; apply Hb, elem_of_cons; by right|].
  split; [done|]. unfold used. rewrite all_slots_cons, List.filter_app, length_app. f_equal. lia.
Qed.

(** ** Looking a model up after another one was added *)

Lemma get_pushed (nl : netlist impl) m pos mb : 0 <= chunk_pos pos -> 0 <= vec_pos pos ->
  get_model nl pos = Some mb -> get_model (add_model chunk_models nl m).1.1 pos = Some mb.
Proof.
  intros Hc Hv. rewrite !get_model_spec by done. intros (b & Eb & Em). simpl.
  destruct (push_slot_cases chunk_models (models nl) (new_model_base (fresh_impl nl))) as [->|(i & b0 & E & _ & ->)].
  - exists b. split; [|done]. by apply lookup_app_l_Some.
  - rewrite E in Eb. apply lookup_app_Some in Eb as [Eb|[Hle Eb]].
    + exists b. split; [|done]. by apply lookup_app_l_Some.
    + apply list_lookup_singleton_Some in Eb as [E0 ->].
      eexists. split; [rewrite lookup_app_r by done; by rewrite E0|]. simpl. by apply lookup_app_l_Some.
Qed.

Lemma get_new (nl : netlist impl) m :
  get_model (add_model chunk_models nl m).1.1 (add_model chunk_models nl m).2 = Some (new_model_base (fresh_impl nl)).
Proof.
  unfold add_model, push_slot. destruct nl as [ns ims bs nb g fn fi]. simpl.
  destruct bs as [|b bs _] using rev_ind; [done|]. rewrite rev_app_distr. simpl. case_bool_decide as E; simpl.
  - rewrite get_model_spec by (simpl; rewrite ?length_app; simpl; lia). simpl. exists {| slots := [new_model_base fi]; num_of_null_model := 0 |}.
    split; [|done]. rewrite !length_app, lookup_app_r by (rewrite length_app; simpl; lia). rewrite length_app. simpl.
    by replace (Z.to_nat (Z.of_nat (length bs + 1 + 1) - 1) - (length bs + 1))%nat with 0%nat by lia.
  - rewrite get_model_spec by (simpl; rewrite ?length_app; unfold block_size; simpl; lia). simpl. rewrite rev_involutive. eexists.
    rewrite length_app, lookup_app_r by (simpl; lia). simpl.
    replace (Z.to_nat (Z.of_nat (length bs + 1) - 1) - length bs)%nat with 0%nat by lia. split; [done|]. simpl.
    unfold block_size. rewrite Nat2Z.id, lookup_app_r, Nat.sub_diag by lia. done.
Qed.

(** ** Connecting and disconnecting *)

Lemma relink_count nd : 0 <= num_of_analog_node nd < 2 ^ 64 ->
  u64_wrap (u64_wrap (num_of_analog_node nd + 1) - 1) = num_of_analog_node nd.
Proof. intros Hr. rewrite u64_wrap_sub, Z.add_simpl_r. by apply u64_wrap_small. Qed.

Lemma set_links_id nd ps k : set_links (set_links nd ps k) (pins nd) (num_of_analog_node nd) = nd.
Proof. by destruct nd. Qed.

Lemma free_pin_not_listed ns (ims : gmap impl_ptr impl) p n nd :
  graph_inv ns ims -> pin_node ims p = Some None -> ns !! n = Some nd -> p ∉ pins nd.
Proof. intros G Hp Hn Hin. rewrite (listed_pins _ _ _ _ _ G Hn Hin) in Hp. done. Qed.

(** ** The theorems *)

(** C19: in every netlist built from an empty one by adding and deleting models
    and nodes, connecting free pins, disconnecting connected ones and merging
    away nodes without analog connections, a pin points to a node exactly if
    the node lists the pin, every node's analog counter is the number of its
    pins of models that are not digital, every used slot owns one live object
    which no other slot owns, and every chunk's null counter is right. *)
Theorem reachable_netlist_invariant (nl : netlist impl) :
  (0 < chunk_models <= 4096)%nat -> rtc (nl_step chunk_models chunk_nodes) netlist_empty nl -> nl_inv chunk_models nl.
Proof. intros Hc Hr. eapply steps_inv; [done..|]. by apply empty_inv. Qed.

(** C35: deleting a model is defined at every position; it returns true exactly
    when the position holds a model in use, and then the model's object is
    freed and no node of the netlist refers to a pin of it any more. *)
Theorem delete_model_leaves_no_pins nl pos :
  (0 < chunk_models <= 4096)%nat -> nl_inv chunk_models nl -> 0 <= chunk_pos pos -> 0 <= vec_pos pos ->
  exists r nl', delete_model nl pos = Some (r, nl') /\ nl_inv chunk_models nl' /\
    (r = true <-> exists mb, get_model nl pos = Some mb /\ type mb <> null) /\
    (forall mb ip, get_model nl pos = Some mb -> ptr mb = Some ip ->
       s_impls nl' !! ip = None /\ forall n nd p, s_nodes nl' !! n = Some nd -> p ∈ pins nd -> p.1 <> ip).
Proof.
  intros Hc I Hcp Hvp. destruct (get_model nl pos) as [mb|] eqn:Hg.
  2:{ rewrite delete_nothing by done. exists false, nl. do 2 (split; [done|]). split; [|done].
      split; [done|]. by intros (? & ? & _). }
  destruct (delete_model_spec chunk_models Hc nl pos mb I Hcp Hvp Hg) as (nl' & -> & I' & _ & Ed).
  exists (is_used mb), nl'. do 2 (split; [done|]). split.
  - unfold is_used. rewrite negb_true_iff, bool_decide_eq_false. naive_solver.
  - intros mb' ip [= <-] Hp.
    assert (Hno : s_impls nl' !! ip = None) by (apply not_elem_of_dom; rewrite Ed, Hp; set_solver).
    split; [done|]. intros n nd p Hn Hin E. assert (X := listed_pins _ _ _ _ _ (ni_graph _ _ I') Hn Hin).
    unfold pin_node in X. by rewrite E, Hno in X.
Qed.

(** Counting the models by inspecting every slot and summing the chunks'
    counters give the same number. *)
Theorem num_of_model_checked_agrees nl :
  nl_inv chunk_models nl -> get_num_of_model true nl = get_num_of_model false nl.
Proof.
  intros I. unfold get_num_of_model. change 0 with (u64_wrap 0). by apply (counts_agree (models nl) 0), I.
Qed.

(** A model that was added is found at the position returned for it, in a
    slot that owns the new object; every position that held a model before
    still holds it; and the object is the one that was passed. *)
Theorem added_model_is_found (nl : netlist impl) (m : impl) :
  let '(nl', ip, pos) := add_model chunk_models nl m in
  get_model nl' pos = Some (new_model_base ip) /\ s_impls nl' !! ip = Some m /\
  (forall p mb, 0 <= chunk_pos p -> 0 <= vec_pos p -> get_model nl p = Some mb -> get_model nl' p = Some mb).
Proof.
  pose proof (get_new nl m) as Hn. pose proof (get_pushed nl m) as Hp. destruct (add_model chunk_models nl m) as [[nl' ip] pos] eqn:E.
  assert (Ei : ip = fresh_impl nl) by (unfold add_model in E; congruence).
  assert (El : s_impls nl' = <[ip := m]> (s_impls nl)) by (unfold add_model in E; injection E as <- <- _; done).
  simpl in Hn, Hp. subst ip. rewrite El, lookup_insert_eq. split; [done|]. split; [done|]. auto.
Qed.

(** Connecting a free pin to a node and disconnecting it again succeeds
    and restores every node of the netlist and what every pin points to. *)
Theorem connect_disconnect_restores nl mb ip n1 node nl1 :
  nl_inv chunk_models nl -> 0 <= n1 -> ptr mb = Some ip ->
  pin_node (s_impls nl) (ip, Z.to_N n1) = Some None ->
  add_to_node nl mb n1 node = Some (true, nl1) ->
  exists nl2, remove_from_node nl1 mb n1 node = Some (true, nl2) /\ s_nodes nl2 = s_nodes nl /\
    forall q, pin_node (s_impls nl2) q = pin_node (s_impls nl) q.
Proof.
  intros I Hn1 Hp Hfree. replace (Z.to_N n1) with (N.of_nat (Z.to_nat n1)) in Hfree by lia.
  unfold add_to_node, remove_from_node. rewrite Hp. destruct (s_impls nl !! ip) as [d|] eqn:Hd; [|done].
  destruct (_ <=? n1) eqn:Hle; [done|]. destruct (s_nodes nl !! node) as [nd|] eqn:Hn; [|done].
  intros [= <-]. simpl. rewrite !lookup_insert_eq.
  destruct (lookup_lt_is_Some_2 (generate_pin_view d) (Z.to_nat n1)) as [pn Hpn]; [lia|].
  assert (Hl : length (generate_pin_view (set_pin_nodes d (Z.to_nat n1) (Some node))) = length (generate_pin_view d)).
  { unfold set_pin_nodes. rewrite pin_view_set by apply length_alter. apply length_alter. }
  assert (Hpn' : exists pn', generate_pin_view (set_pin_nodes d (Z.to_nat n1) (Some node)) !! Z.to_nat n1 = Some pn').
  { rewrite view_set_pin, decide_True, Hpn by done. by eexists. }
  destruct Hpn' as [pn' Hpn']. rewrite Hl, Hle. eexists. split; [done|]. simpl. split.
  - rewrite insert_insert_eq, is_analog_set_pin.
    rewrite oset_erase_insert by (by eapply free_pin_not_listed; [apply I|..]).
    rewrite <- (insert_id (s_nodes nl) node nd Hn) at 2. f_equal.
    etransitivity; [|apply (set_links_id nd (oset_insert (ip, N.of_nat (Z.to_nat n1)) (pins nd))
      (if is_analog d then u64_wrap (num_of_analog_node nd + 1) else num_of_analog_node nd))].
    f_equal. destruct (is_analog d); [|done]. apply relink_count. rewrite (gi_count _ _ (ni_graph _ _ I) _ _ Hn).
    apply u64_wrap_range.
  - intros q. rewrite (pin_node_set _ _ _ _ pn') by (rewrite ?lookup_insert_eq; done).
    rewrite (pin_node_set _ _ _ _ pn) by done. case_decide as E; [subst; done|done].
Qed.
End Claims.

Lemma reachable_netlist_invariant_witness : nl_inv 2 nl_connected.
Proof. apply (reachable_netlist_invariant 2 2 nl_connected); [lia|exact nl_connected_reachable]. Defined.

Lemma nl_connected_inv : nl_inv 2 nl_connected.
Proof. refine (steps_inv 2 2 _ _ _ nl_connected_reachable _); [lia|apply empty_inv; lia]. Qed.

(** Deleting the connected gate leaves node 1 empty. *)
Lemma delete_model_leaves_no_pins_witness :
  (exists nd, s_nodes nl_connected !! 1%N = Some nd /\ pins nd = [(0%N, 2%N)]) /\
  exists r nl', delete_model nl_connected pos0 = Some (r, nl') /\ nl_inv 2 nl' /\
    (r = true <-> exists mb, get_model nl_connected pos0 = Some mb /\ type mb <> null) /\
    (forall mb ip, get_model nl_connected pos0 = Some mb -> ptr mb = Some ip ->
       s_impls nl' !! ip = None /\ forall n nd p, s_nodes nl' !! n = Some nd -> p ∈ pins nd -> p.1 <> ip).
Proof.
  split; [eexists; split; vm_compute; reflexivity|].
  apply (delete_model_leaves_no_pins 2 nl_connected pos0); [lia|exact nl_connected_inv|simpl; lia..].
Defined.

Lemma num_of_model_checked_agrees_witness :
  get_num_of_model true nl_connected = 1 /\ get_num_of_model true nl_connected = get_num_of_model false nl_connected.
Proof.
  split; [vm_compute; reflexivity|]. apply (num_of_model_checked_agrees 2 nl_connected). exact nl_connected_inv.
Defined.

Lemma nl_noded_inv : nl_inv 2 nl_noded.
Proof.
  apply inv_create_node. eapply inv_add_model; [lia|apply empty_inv; lia|apply some_gate_unconnected].
Qed.

Lemma connect_disconnect_restores_witness :
  exists nl2, remove_from_node nl_connected (new_model_base 0%N) 2 1%N = Some (true, nl2) /\
    s_nodes nl2 = s_nodes nl_noded /\ forall q, pin_node (s_impls nl2) q = pin_node (s_impls nl_noded) q.
Proof.
  apply (connect_disconnect_restores 2 nl_noded (new_model_base 0%N) 0%N 2 1%N nl_connected);
    [exact nl_noded_inv|lia|reflexivity|vm_compute; reflexivity|vm_compute; reflexivity].
Defined.
