(* ===== verification/Mna.v ===== *)
(** * Mna: the matrix of the modified nodal analysis ([circuits/MNA/mna.h])

    The system [A x = Z] of the analog solution: the rows and columns below
    [node_size] belong to nodes, the following [branch_size] to branches.  The
    accessors return a reference to an entry, or to the scratch variable
    [d_temp] when an index is [SIZE_MAX] (the ground node).  An entry that is
    not stored is inserted with the value zero by the access. *)

From Stdlib Require Import ZArith Lia SpecFloat.
From stdpp Require Import base list gmap.
From S2P Require Import Prelude Store.

Open Scope Z_scope.

(** [std::complex<double>] arithmetic used by the stamps. *)
Definition dneg (x : double) : double := SFopp x.
Definition c_of (x : double) : complex := {| re := x; im := d_zero |}.
Definition c_neg (x : complex) : complex := {| re := dneg (re x); im := dneg (im x) |}.

(** The assignments to an entry: [=], [+=] and [-=] with a [double] or a
    complex on the right.  [+=] with a [double] leaves the imaginary part. *)
Inductive update : Type :=
| set_d (x : double) | add_d (x : double) | sub_d (x : double)
| set_c (x : complex) | add_c (x : complex) | sub_c (x : complex).

Definition apply_update (u : update) (v : complex) : complex :=
  match u with
  | set_d x => c_of x
  | add_d x => {| re := dadd (re v) x; im := im v |}
  | sub_d x => {| re := dsub (re v) x; im := im v |}
  | set_c x => x
  | add_c x => {| re := dadd (re v) (re x); im := dadd (im v) (im x) |}
  | sub_c x => {| re := dsub (re v) (re x); im := dsub (im v) (im x) |}
  end.

Record MNA : Type := mk_mna {
  A : list (gmap Z complex);
  Zv : gmap Z complex;
  node_size : Z;
  branch_size : Z;
  r_open : double;
  d_temp : complex
}.

Definition MNA_default : MNA :=
  {| A := []; Zv := ∅; node_size := 0; branch_size := 0; r_open := of_decimal 1000000000000 0; d_temp := c_zero |}.

(** [A.resize(n)]. *)
Definition resize_rows (n : nat) (rows : list (gmap Z complex)) : list (gmap Z complex) :=
  take n rows ++ replicate (n - length rows) ∅.

Definition MNA_resize (m : MNA) (ns bs : Z) : MNA :=
  {| A := resize_rows (Z.to_nat (u64_wrap (ns + bs))) (A m); Zv := Zv m; node_size := ns; branch_size := bs;
     r_open := r_open m; d_temp := d_temp m |}.

Definition set_entries (m : MNA) (a : list (gmap Z complex)) (z : gmap Z complex) : MNA :=
  {| A := a; Zv := z; node_size := node_size m; branch_size := branch_size m; r_open := r_open m; d_temp := d_temp m |}.

Definition MNA_clear (m : MNA) : MNA := set_entries m (map (fun _ => ∅) (A m)) ∅.
Definition clear_values_keep_pattern (m : MNA) : MNA :=
  set_entries m (map (fun row : gmap Z complex => (fun _ => c_zero) <$> row) (A m)) ∅.

(** ** References *)

Inductive ref : Type := at_temp | at_A (rox col : Z) | at_Z (rox : Z).
#[export] Instance ref_eq_dec : EqDecision ref.
Proof. solve_decision. Defined.

Definition A_ref (m : MNA) (rox col : Z) : ref :=
  if (rox =? SIZE_MAX) || (col =? SIZE_MAX) then at_temp else at_A rox col.
Definition G_ref (m : MNA) (rox col : Z) : ref :=
  if (rox =? SIZE_MAX) || (col =? SIZE_MAX) then at_temp else at_A rox col.
Definition B_ref (m : MNA) (rox col : Z) : ref :=
  if (rox =? SIZE_MAX) || (col =? SIZE_MAX) then at_temp else at_A rox (u64_wrap (col + node_size m)).
Definition C_ref (m : MNA) (rox col : Z) : ref :=
  if (rox =? SIZE_MAX) || (col =? SIZE_MAX) then at_temp else at_A (u64_wrap (rox + node_size m)) col.
Definition D_ref (m : MNA) (rox col : Z) : ref :=
  if (rox =? SIZE_MAX) || (col =? SIZE_MAX) then at_temp
  else at_A (u64_wrap (rox + node_size m)) (u64_wrap (col + node_size m)).
Definition Z_ref (m : MNA) (rox : Z) : ref := if rox =? SIZE_MAX then at_temp else at_Z rox.
Definition I_ref (m : MNA) (rox : Z) : ref := if rox =? SIZE_MAX then at_temp else at_Z rox.
Definition E_ref (m : MNA) (rox : Z) : ref := if rox =? SIZE_MAX then at_temp else at_Z (u64_wrap (rox + node_size m)).

(** The value of an entry; one that is not stored counts as zero. *)
Definition value (m : MNA) (r : ref) : complex :=
  match r with
  | at_temp => d_temp m
  | at_A i j => match A m !! Z.to_nat i with Some row => default c_zero (row !! j) | None => c_zero end
  | at_Z i => default c_zero (Zv m !! i)
  end.

(** An assignment through a reference; [None] is a row outside the matrix. *)
Definition assign (m : MNA) (r : ref) (u : update) : option MNA :=
  match r with
  | at_temp =>
      Some {| A := A m; Zv := Zv m; node_size := node_size m; branch_size := branch_size m; r_open := r_open m;
              d_temp := apply_update u (d_temp m) |}
  | at_A i j =>
      match A m !! Z.to_nat i with
      | None => None
      | Some row =>
          Some (set_entries m (<[Z.to_nat i := <[j := apply_update u (default c_zero (row !! j))]> row]> (A m)) (Zv m))
      end
  | at_Z i => Some (set_entries m (A m) (<[i := apply_update u (default c_zero (Zv m !! i))]> (Zv m)))
  end.

(** A sequence of assignments; each statement computes its reference from the
    matrix it finds. *)
Definition stmt : Type := (MNA -> ref) * update.

Fixpoint exec (m : MNA) (ss : list stmt) : option MNA :=
  match ss with
  | [] => Some m
  | (r, u) :: ss' => match assign m (r m) u with None => None | Some m' => exec m' ss' end
  end.

Declare Scope stamp_scope.
Notation "r <- x" := ((r, set_d x) : stmt) (at level 70, x at next level) : stamp_scope.
Notation "r += x" := ((r, add_d x) : stmt) (at level 70, x at next level) : stamp_scope.
Notation "r -= x" := ((r, sub_d x) : stmt) (at level 70, x at next level) : stamp_scope.
Notation "r <-c x" := ((r, set_c x) : stmt) (at level 70, x at next level) : stamp_scope.
Notation "r +=c x" := ((r, add_c x) : stmt) (at level 70, x at next level) : stamp_scope.
Notation "r -=c x" := ((r, sub_c x) : stmt) (at level 70, x at next level) : stamp_scope.
Notation "'G[' i , j ]" := (fun m : MNA => G_ref m i j) (at level 0) : stamp_scope.
Notation "'B[' i , j ]" := (fun m : MNA => B_ref m i j) (at level 0) : stamp_scope.
Notation "'C[' i , j ]" := (fun m : MNA => C_ref m i j) (at level 0) : stamp_scope.
Notation "'D[' i , j ]" := (fun m : MNA => D_ref m i j) (at level 0) : stamp_scope.
Notation "'I[' i ]" := (fun m : MNA => I_ref m i) (at level 0) : stamp_scope.
Notation "'E[' i ]" := (fun m : MNA => E_ref m i) (at level 0) : stamp_scope.

(** ** What a sequence of assignments does to an entry *)

(** The accessors depend on the sizes only. *)
Definition same_sizes (m1 m2 : MNA) : Prop :=
  node_size m1 = node_size m2 /\ branch_size m1 = branch_size m2 /\ r_open m1 = r_open m2 /\ length (A m1) = length (A m2).
Definition stable (s : stmt) : Prop := forall m1 m2, node_size m1 = node_size m2 -> s.1 m1 = s.1 m2.

(** Rows are unsigned; a row in range is stored. *)
Definition ref_nonneg (r : ref) : Prop := match r with at_A i _ => 0 <= i | _ => True end.
Definition ref_in (m : MNA) (r : ref) : Prop := match r with at_A i _ => 0 <= i < Z.of_nat (length (A m)) | _ => True end.

Lemma ref_in_nonneg m r : ref_in m r -> ref_nonneg r.
Proof. destruct r; simpl; lia. Qed.

Lemma assign_sizes m r u m' : assign m r u = Some m' -> same_sizes m m'.
Proof.
  unfold assign, same_sizes. destruct r as [|i j|i]; [by intros [= <-]| |by intros [= <-]].
  destruct (A m !! Z.to_nat i); [|done]. intros [= <-]. simpl. by rewrite length_insert.
Qed.

Lemma same_sizes_trans a b c : same_sizes a b -> same_sizes b c -> same_sizes a c.
Proof. unfold same_sizes. intuition congruence. Qed.

Lemma assign_value m r u m' q : ref_nonneg r -> ref_nonneg q -> assign m r u = Some m' ->
  value m' q = if decide (q = r) then apply_update u (value m r) else value m q.
Proof.
  unfold assign. destruct r as [|i j|i]; intros Hr Hq E.
  - injection E as <-. destruct q as [| |]; by case_decide.
  - destruct (A m !! Z.to_nat i) as [row|] eqn:Er; [|done]. injection E as <-.
    destruct q as [|i2 j2|]; [by case_decide| |by case_decide]. simpl in *. destruct (decide (i2 = i)) as [->|Hi].
    + rewrite list_lookup_insert_eq by (by apply lookup_lt_Some in Er). rewrite Er.
      destruct (decide (j2 = j)) as [->|Hj].
      * rewrite decide_True by done. by rewrite lookup_insert_eq.
      * rewrite decide_False by congruence. by rewrite lookup_insert_ne.
    + rewrite decide_False by congruence. rewrite list_lookup_insert_ne by lia. done.
  - injection E as <-. destruct q as [| |i2]; [by case_decide..|]. simpl. destruct (decide (i2 = i)) as [->|Hi].
    + rewrite decide_True by done. by rewrite lookup_insert_eq.
    + rewrite decide_False by congruence. by rewrite lookup_insert_ne.
Qed.

Lemma assign_defined m r u : ref_in m r -> exists m', assign m r u = Some m'.
Proof.
  unfold assign. destruct r as [|i j|i]; intros Hr; [by eexists| |by eexists]. simpl in Hr.
  destruct (lookup_lt_is_Some_2 (A m) (Z.to_nat i)) as [row ->]; [lia|]. by eexists.
Qed.

(** The updates of one entry, in order. *)
Fixpoint updates_at (m : MNA) (q : ref) (ss : list stmt) : list update :=
  match ss with
  | [] => []
  | s :: ss' => if decide (q = s.1 m) then s.2 :: updates_at m q ss' else updates_at m q ss'
  end.
Definition apply_updates (us : list update) (v : complex) : complex := fold_left (fun v u => apply_update u v) us v.

Lemma updates_at_sizes m1 m2 q ss : Forall stable ss -> node_size m1 = node_size m2 ->
  updates_at m1 q ss = updates_at m2 q ss.
Proof.
  intros Hs E. induction Hs as [|s ss Hst Hs IH]; simpl; [done|].
  by rewrite (Hst m1 m2 E), IH.
Qed.

Lemma exec_sizes ss : forall m m', exec m ss = Some m' -> same_sizes m m'.
Proof.
  induction ss as [|[r u] ss IH]; intros m m' E; simpl in E; [injection E as <-; by repeat split|].
  destruct (assign m (r m) u) as [m1|] eqn:E1; [|done]. eapply same_sizes_trans; [by eapply assign_sizes|eauto].
Qed.

Lemma exec_value ss : forall m m' q, Forall stable ss -> (forall s, s ∈ ss -> ref_nonneg (s.1 m)) -> ref_nonneg q ->
  exec m ss = Some m' -> value m' q = apply_updates (updates_at m q ss) (value m q).
Proof.
  induction ss as [|[r u] ss IH]; intros m m' q Hst Hnn Hq E; simpl in E; [by injection E as <-|].
  apply Forall_cons in Hst as [Hs1 Hst]. destruct (assign m (r m) u) as [m1|] eqn:E1; [|done].
  pose proof (assign_sizes _ _ _ _ E1) as (Hn & _).
  rewrite (IH m1 m' q Hst); [|intros s Hs|done|done].
  - rewrite (updates_at_sizes m1 m) by done. rewrite (assign_value m (r m) u m1 q); [|apply (Hnn (r, u)), elem_of_cons; by left|done|done].
    simpl. case_decide as Eq; [|done]. by subst q.
  - rewrite Forall_forall in Hst. rewrite <- (Hst s Hs m m1 Hn). apply Hnn, elem_of_cons. by right.
Qed.

Lemma exec_defined ss : forall m, Forall stable ss -> (forall s, s ∈ ss -> ref_in m (s.1 m)) -> exists m', exec m ss = Some m'.
Proof.
  induction ss as [|[r u] ss IH]; intros m Hst Hin; simpl; [by eexists|].
  apply Forall_cons in Hst as [Hs1 Hst].
  destruct (assign_defined m (r m) u) as [m1 E1]; [apply (Hin (r, u)), elem_of_cons; by left|]. rewrite E1.
  pose proof (assign_sizes _ _ _ _ E1) as (Hn & _ & _ & Hl). apply IH; [done|]. intros s Hs.
  rewrite Forall_forall in Hst. rewrite <- (Hst s Hs m m1 Hn). specialize (Hin s ltac:(apply elem_of_cons; by right)).
  destruct (s.1 m); simpl in *; [done|lia|done].
Qed.

Lemma exec_app ss1 ss2 m : exec m (ss1 ++ ss2) = match exec m ss1 with Some m1 => exec m1 ss2 | None => None end.
Proof. revert m. induction ss1 as [|[r u] ss1 IH]; intros m; simpl; [done|]. by destruct (assign m (r m) u). Qed.

(** ** Matrices with the same values

    Two matrices may differ in which zeros they store. *)
Definition mna_equiv (m1 m2 : MNA) : Prop :=
  same_sizes m1 m2 /\ forall q, ref_nonneg q -> value m1 q = value m2 q.
#[export] Instance mna_equivalence : Equivalence mna_equiv.
Proof.
  split.
  - intros m. by repeat split.
  - intros a b [(H1 & H2 & H3 & H4) H5]. split; [by repeat split|]. intros q Hq. by rewrite H5.
  - intros a b c [S1 V1] [S2 V2]. split; [by eapply same_sizes_trans|]. intros q Hq. by rewrite V1, V2.
Qed.

Lemma assign_equiv m1 m2 r u m1' : same_sizes m1 m2 -> assign m1 r u = Some m1' -> exists m2', assign m2 r u = Some m2'.
Proof.
  intros (_ & _ & _ & Hl). unfold assign. destruct r as [|i j|i]; [by eexists| |by eexists].
  destruct (A m1 !! Z.to_nat i) as [row|] eqn:E; [|done]. apply lookup_lt_Some in E.
  destruct (lookup_lt_is_Some_2 (A m2) (Z.to_nat i)) as [row2 ->]; [lia|]. by eexists.
Qed.

(** Running the same statements on matrices with the same values. *)
Lemma exec_equiv ss : forall m1 m2 m1', Forall stable ss -> (forall s, s ∈ ss -> ref_nonneg (s.1 m1)) ->
  mna_equiv m1 m2 -> exec m1 ss = Some m1' -> exists m2', exec m2 ss = Some m2' /\ mna_equiv m1' m2'.
Proof.
  induction ss as [|[r u] ss IH]; intros m1 m2 m1' Hst Hnn E He; simpl in *; [injection He as <-; eauto|].
  apply Forall_cons in Hst as [Hs1 Hst]. pose proof E as [Hsz Hv]. pose proof Hsz as (Hn & _).
  rewrite <- (Hs1 m1 m2 Hn : r m1 = r m2). destruct (assign m1 (r m1) u) as [a1|] eqn:E1; [|done].
  destruct (assign_equiv m1 m2 (r m1) u a1 Hsz E1) as [a2 E2]. rewrite E2.
  pose proof (assign_sizes _ _ _ _ E1) as S1. pose proof (assign_sizes _ _ _ _ E2) as S2.
  assert (Hr : ref_nonneg (r m1)) by (apply (Hnn (r, u)), elem_of_cons; by left).
  apply (IH a1 a2); [done| | |done].
  - intros s Hs. rewrite Forall_forall in Hst. rewrite <- (Hst s Hs m1 a1 (proj1 S1)). apply Hnn, elem_of_cons. by right.
  - split.
    + unfold same_sizes in *. intuition congruence.
    + intros q Hq. rewrite (assign_value _ _ _ _ q Hr Hq E1), (assign_value _ _ _ _ q Hr Hq E2).
      case_decide; [by rewrite Hv|by apply Hv].
Qed.

Lemma clear_keeps_values m : mna_equiv (MNA_clear m) (clear_values_keep_pattern m).
Proof.
  split.
  - repeat split; simpl. by rewrite !length_map.
  - intros [|i j|i] _; simpl; [done| |done]. rewrite !list_lookup_fmap.
    destruct (A m !! Z.to_nat i) as [row|]; simpl; [|done]. rewrite lookup_fmap, lookup_empty. by destruct (row !! j).
Qed.

Lemma clear_values m q : q <> at_temp -> value (MNA_clear m) q = c_zero.
Proof.
  destruct q as [|i j|i]; simpl; [done| |done]. intros _. rewrite list_lookup_fmap.
  by destruct (A m !! Z.to_nat i).
Qed.
