(* ===== verification/Linear.v ===== *)
(** * Linear: the linear models of [model/models/linear/]

    Each model has a Module with its [struct], its attributes and the stamps
    [iterate_*_define] it puts into the matrix; the models with memory also
    have [step_changed_tr_define].  [sin] and [cos] of the standard library are
    parameters of the two models that use them. *)

From Stdlib Require Import ZArith SpecFloat.
From stdpp Require Import base list gmap strings.
From S2P Require Import Prelude Store Logic4 Gates Model Mna.

Open Scope Z_scope.
Open Scope stamp_scope.

Definition d_one : double := of_decimal 1 0.
Definition d_two : double := of_decimal 2 0.
Definition d_180 : double := of_decimal 180 0.
Definition d_pi : double := of_decimal 31415926535897932384626433832795 31.
Definition deqb (x y : double) : bool := SFeqb x y.
Definition dsqrt (x : double) : double := SFsqrt d_prec d_emax x.

(** ** Reaching the nodes of a model *)

(** [if(node_0 && node_1 && ...)], then the [node_index] of each: [Some None]
    when a pin is not connected, [None] for a dangling pointer. *)
Fixpoint pin_indices (ns : gmap node_ptr node_t) (ps : list pin) : option (option (list Z)) :=
  match ps with
  | [] => Some (Some [])
  | p :: ps' =>
      match nodes p with
      | None => Some None
      | Some n =>
          match pin_indices ns ps' with
          | Some (Some l) => match ns !! n with Some nd => Some (Some (node_index nd :: l)) | None => None end
          | r => r
          end
      end
  end.

(** The whole of an [iterate_*_define] that returns true: the statements of
    [body] when every pin is connected. *)
Definition stamp (ns : gmap node_ptr node_t) (ps : list pin) (m : MNA) (body : list Z -> list stmt)
    : option (bool * MNA) :=
  match pin_indices ns ps with
  | None => None
  | Some None => Some (true, m)
  | Some (Some idx) => match exec m (body idx) with None => None | Some m' => Some (true, m') end
  end.

(** [node->node_information.an.voltage.real()]. *)
Definition voltage_of (ns : gmap node_ptr node_t) (n : node_ptr) : option double :=
  match ns !! n with
  | Some nd => match node_information nd with an v => Some (re v) | dn _ => None end
  | None => None
  end.

(** The voltage between two pins: [Some None] when one is not connected. *)
Definition voltage_between (ns : gmap node_ptr node_t) (p q : option pin) : option (option double) :=
  match p, q with
  | Some p, Some q =>
      match nodes p, nodes q with
      | Some a, Some b =>
          match voltage_of ns a, voltage_of ns b with
          | Some va, Some vb => Some (Some (dsub va vb))
          | _, _ => None
          end
      | _, _ => Some None
      end
  | _, _ => None
  end.

(** ** Resistance *)
Module resistance.

Record t : Type := mk { pins_ : list pin; r : double }.
Definition default : t := {| r := of_decimal 10 0; pins_ := map pin_of_name ["A"; "B"]%string |}.

Definition set_attribute_define (clip : t) (n : Z) (vi : variant) : bool * t :=
  match n, vi with 0, v_d x => (true, {| pins_ := pins_ clip; r := x |}) | _, _ => (false, clip) end.
Definition get_attribute_define (clip : t) (n : Z) : variant :=
  match n with 0 => v_d (r clip) | _ => v_invalid end.

Definition stamps (g : double) (idx : list Z) : list stmt :=
  match idx with
  | [n0; n1] =>
      if (n0 =? SIZE_MAX) && (n1 =? SIZE_MAX) then []
      else if n0 =? SIZE_MAX then [G[n1, n1] += g]
      else if n1 =? SIZE_MAX then [G[n0, n0] += g]
      else [G[n0, n0] += g; G[n0, n1] -= g; G[n1, n0] -= g; G[n1, n1] += g]
  | _ => []
  end.

Definition iterate_dc_define (ns : gmap node_ptr node_t) (clip : t) (m : MNA) : option (bool * MNA) :=
  stamp ns (pins_ clip) m (stamps (ddiv d_one (r clip))).

End resistance.

(** ** Ideal voltage source *)
Module VDC.

Record t : Type := mk { V : double; pins_ : list pin; branchs : branch }.
Definition default : t :=
  {| V := d_five; pins_ := map pin_of_name ["+"; "-"]%string; branchs := {| index := 0; current := c_zero |} |}.

Definition set_attribute_define (clip : t) (n : Z) (vi : variant) : bool * t :=
  match n, vi with
  | 0, v_d x => (true, {| V := x; pins_ := pins_ clip; branchs := branchs clip |})
  | _, _ => (false, clip)
  end.
Definition get_attribute_define (clip : t) (n : Z) : variant :=
  match n with | 0 => v_d (V clip) | _ => v_invalid end.

(** The four entries that connect a branch to its two nodes. *)
Definition iterate_dc_define (ns : gmap node_ptr node_t) (clip : t) (m : MNA) : option (bool * MNA) :=
  stamp ns (pins_ clip) m (fun idx => let k := index (branchs clip) in
    match idx with
    | [nA; nB] => [B[nA, k] <- d_one; B[nB, k] <- dneg d_one; C[k, nA] <- d_one; C[k, nB] <- dneg d_one;
                   E[k] <- V clip]
    | _ => []
    end).

Definition iterate_ac_define (ns : gmap node_ptr node_t) (clip : t) (m : MNA) (omega : double) : option (bool * MNA) :=
  stamp ns (pins_ clip) m (fun idx => let k := index (branchs clip) in
    match idx with
    | [nA; nB] => [B[nA, k] <- d_one; B[nB, k] <- dneg d_one; C[k, nA] <- d_one; C[k, nB] <- dneg d_one]
    | _ => []
    end).

End VDC.

(** ** Ideal current source *)
Module IDC.

Record t : Type := mk { I : double; pins_ : list pin; m_I : complex }.
Definition default : t :=
  {| I := of_decimal 2 1; pins_ := map pin_of_name ["+"; "-"]%string; m_I := c_zero |}.

Definition set_attribute_define (clip : t) (n : Z) (vi : variant) : bool * t :=
  match n, vi with
  | 0, v_d x => (true, {| I := x; pins_ := pins_ clip; m_I := m_I clip |})
  | _, _ => (false, clip)
  end.
Definition get_attribute_define (clip : t) (n : Z) : variant :=
  match n with | 0 => v_d (I clip) | _ => v_invalid end.

Definition iterate_dc_define (ns : gmap node_ptr node_t) (clip : t) (m : MNA) : option (bool * MNA) :=
  stamp ns (pins_ clip) m (fun idx =>
    match idx with [nA; nB] => [I[nA] -= I clip; I[nB] += I clip] | _ => [] end).

Definition iterate_ac_define (ns : gmap node_ptr node_t) (clip : t) (m : MNA) (omega : double) : option (bool * MNA) := Some (true, m).

End IDC.

(** ** Voltage-controlled current source *)
Module VCCS.

Record t : Type := mk { m_g : double; pins_ : list pin }.
Definition default : t :=
  {| m_g := d_one; pins_ := map pin_of_name ["S"; "T"; "P"; "Q"]%string |}.

Definition set_attribute_define (clip : t) (n : Z) (vi : variant) : bool * t :=
  match n, vi with
  | 0, v_d x => (true, {| m_g := x; pins_ := pins_ clip |})
  | _, _ => (false, clip)
  end.
Definition get_attribute_define (clip : t) (n : Z) : variant :=
  match n with | 0 => v_d (m_g clip) | _ => v_invalid end.

Definition iterate_dc_define (ns : gmap node_ptr node_t) (clip : t) (m : MNA) : option (bool * MNA) :=
  stamp ns (pins_ clip) m (fun idx =>
    match idx with
    | [nS; nT; nP; nQ] => [G[nS, nP] += m_g clip; G[nS, nQ] -= m_g clip; G[nT, nP] -= m_g clip; G[nT, nQ] += m_g clip]
    | _ => []
    end).

End VCCS.

(** ** Voltage-controlled voltage source *)
Module VCVS.

Record t : Type := mk { m_mu : double; pins_ : list pin; branches : branch }.
Definition default : t :=
  {| m_mu := d_one; pins_ := map pin_of_name ["S"; "T"; "P"; "Q"]%string; branches := {| index := 0; current := c_zero |} |}.

Definition set_attribute_define (clip : t) (n : Z) (vi : variant) : bool * t :=
  match n, vi with
  | 0, v_d x => (true, {| m_mu := x; pins_ := pins_ clip; branches := branches clip |})
  | _, _ => (false, clip)
  end.
Definition get_attribute_define (clip : t) (n : Z) : variant :=
  match n with | 0 => v_d (m_mu clip) | _ => v_invalid end.

Definition stamps (k : Z) (mu : double) (idx : list Z) : list stmt :=
  match idx with
  | [nS; nT; nP; nQ] => [B[nS, k] <- d_one; B[nT, k] <- dneg d_one; C[k, nS] <- d_one; C[k, nT] <- dneg d_one;
                         C[k, nP] <- dneg mu; C[k, nQ] <- mu]
  | _ => []
  end.

Definition iterate_dc_define (ns : gmap node_ptr node_t) (clip : t) (m : MNA) : option (bool * MNA) :=
  stamp ns (pins_ clip) m (stamps (index (branches clip)) (m_mu clip)).

End VCVS.

(** ** Current-controlled current source *)
Module CCCS.

Record t : Type := mk { m_alpha : double; pins_ : list pin; branches : branch }.
Definition default : t :=
  {| m_alpha := of_decimal 10 0; pins_ := map pin_of_name ["S"; "T"; "P"; "Q"]%string; branches := {| index := 0; current := c_zero |} |}.

Definition set_attribute_define (clip : t) (n : Z) (vi : variant) : bool * t :=
  match n, vi with
  | 0, v_d x => (true, {| m_alpha := x; pins_ := pins_ clip; branches := branches clip |})
  | _, _ => (false, clip)
  end.
Definition get_attribute_define (clip : t) (n : Z) : variant :=
  match n with | 0 => v_d (m_alpha clip) | _ => v_invalid end.

Definition iterate_dc_define (ns : gmap node_ptr node_t) (clip : t) (m : MNA) : option (bool * MNA) :=
  stamp ns (pins_ clip) m (fun idx => let c := index (branches clip) in
    match idx with
    | [nS; nT; nP; nQ] => [B[nS, c] <- m_alpha clip; B[nT, c] <- dneg (m_alpha clip); B[nP, c] <- d_one;
                           B[nQ, c] <- dneg d_one; C[c, nP] <- d_one; C[c, nQ] <- dneg d_one]
    | _ => []
    end).

End CCCS.

(** ** Current-controlled voltage source *)
Module CCVS.

Record t : Type := mk { m_r : double; pins_ : list pin; branch0 : branch; branch1 : branch }.
Definition default : t :=
  {| m_r := of_decimal 10 0; pins_ := map pin_of_name ["S"; "T"; "P"; "Q"]%string; branch0 := {| index := 0; current := c_zero |}; branch1 := {| index := 0; current := c_zero |} |}.

Definition set_attribute_define (clip : t) (n : Z) (vi : variant) : bool * t :=
  match n, vi with
  | 0, v_d x => (true, {| m_r := x; pins_ := pins_ clip; branch0 := branch0 clip; branch1 := branch1 clip |})
  | _, _ => (false, clip)
  end.
Definition get_attribute_define (clip : t) (n : Z) : variant :=
  match n with | 0 => v_d (m_r clip) | _ => v_invalid end.

Definition iterate_dc_define (ns : gmap node_ptr node_t) (clip : t) (m : MNA) : option (bool * MNA) :=
  stamp ns (pins_ clip) m (fun idx => let k := index (branch0 clip) in let c := index (branch1 clip) in
    match idx with
    | [nS; nT; nP; nQ] => [B[nS, k] <- d_one; B[nT, k] <- dneg d_one; B[nP, c] <- d_one; B[nQ, c] <- dneg d_one;
                           C[k, nS] <- d_one; C[k, nT] <- dneg d_one; C[c, nP] <- d_one; C[c, nQ] <- dneg d_one;
                           D[k, c] <- dneg (m_r clip)]
    | _ => []
    end).

End CCVS.

(** ** Operational amplifier *)
Module op_amp.

Record t : Type := mk { mu : double; pins_ : list pin; branches : branch }.
Definition default : t :=
  {| mu := of_decimal 100000 0; pins_ := map pin_of_name ["+"; "-"; "OUT+"; "OUT-"]%string; branches := {| index := 0; current := c_zero |} |}.

Definition set_attribute_define (clip : t) (n : Z) (vi : variant) : bool * t :=
  match n, vi with
  | 0, v_d x => (true, {| mu := x; pins_ := pins_ clip; branches := branches clip |})
  | _, _ => (false, clip)
  end.
Definition get_attribute_define (clip : t) (n : Z) : variant :=
  match n with | 0 => v_d (mu clip) | _ => v_invalid end.

Definition iterate_dc_define (ns : gmap node_ptr node_t) (clip : t) (m : MNA) : option (bool * MNA) :=
  stamp ns (pins_ clip) m (fun idx => let k := index (branches clip) in
    match idx with
    | [nS; nT; nP; nQ] => [B[nP, k] <- d_one; B[nQ, k] <- dneg d_one; C[k, nP] <- d_one; C[k, nQ] <- dneg d_one;
                           C[k, nS] -= mu clip; C[k, nT] += mu clip]
    | _ => []
    end).

End op_amp.

(** ** Ideal transformer *)
Module transformer.

Record t : Type := mk { n_ratio : double; pins_ : list pin; branch0 : branch; branch1 : branch }.
Definition default : t :=
  {| n_ratio := d_one; pins_ := map pin_of_name ["P"; "Q"; "S"; "T"]%string; branch0 := {| index := 0; current := c_zero |}; branch1 := {| index := 0; current := c_zero |} |}.

Definition set_attribute_define (clip : t) (n : Z) (vi : variant) : bool * t :=
  match n, vi with
  | 0, v_d x => (true, {| n_ratio := x; pins_ := pins_ clip; branch0 := branch0 clip; branch1 := branch1 clip |})
  | _, _ => (false, clip)
  end.
Definition get_attribute_define (clip : t) (n : Z) : variant :=
  match n with | 0 => v_d (n_ratio clip) | _ => v_invalid end.

Definition iterate_dc_define (ns : gmap node_ptr node_t) (clip : t) (m : MNA) : option (bool * MNA) :=
  stamp ns (pins_ clip) m (fun idx => let kP := index (branch0 clip) in let kS := index (branch1 clip) in
    match idx with
    | [nP; nQ; nS; nT] => [B[nP, kP] <- d_one; B[nQ, kP] <- dneg d_one; C[kP, nP] <- d_one; C[kP, nQ] <- dneg d_one;
                           B[nS, kS] <- d_one; B[nT, kS] <- dneg d_one;
                           C[kP, nS] -= n_ratio clip; C[kP, nT] += n_ratio clip;
                           D[kS, kS] <- d_one; D[kS, kP] <- n_ratio clip]
    | _ => []
    end).

End transformer.

(** ** Transformer with a center tap *)
Module transformer_center_tap.

Record t : Type := mk { n_total : double; n_half : double; pins_ : list pin; branch0 : branch; branch1 : branch; branch2 : branch }.
Definition default : t :=
  {| n_total := d_one; n_half := d_zero; pins_ := map pin_of_name ["P"; "Q"; "S1"; "CT"; "S2"]%string; branch0 := {| index := 0; current := c_zero |}; branch1 := {| index := 0; current := c_zero |}; branch2 := {| index := 0; current := c_zero |} |}.

Definition set_attribute_define (clip : t) (n : Z) (vi : variant) : bool * t :=
  match n, vi with
  | 0, v_d x => (true, {| n_total := x; n_half := n_half clip; pins_ := pins_ clip; branch0 := branch0 clip; branch1 := branch1 clip; branch2 := branch2 clip |})
  | _, _ => (false, clip)
  end.
Definition get_attribute_define (clip : t) (n : Z) : variant :=
  match n with | 0 => v_d (n_total clip) | _ => v_invalid end.

Definition prepare_foundation_define (clip : t) : bool * t :=
  (true, {| n_total := n_total clip; n_half := dmul d_two (n_total clip); pins_ := pins_ clip;
            branch0 := branch0 clip; branch1 := branch1 clip; branch2 := branch2 clip |}).

Definition iterate_dc_define (ns : gmap node_ptr node_t) (clip : t) (m : MNA) : option (bool * MNA) :=
  stamp ns (pins_ clip) m (fun idx =>
    let kP := index (branch0 clip) in let kH1 := index (branch1 clip) in let kH2 := index (branch2 clip) in
    let nonzero := negb (deqb (n_half clip) d_zero) in
    let invnh := ddiv d_one (n_half clip) in
    match idx with
    | [nP; nQ; nS1; nCT; nS2] =>
        [B[nP, kP] <- d_one; B[nQ, kP] <- dneg d_one; B[nS1, kH1] <- d_one; B[nCT, kH1] <- dneg d_one;
         B[nCT, kH2] <- d_one; B[nS2, kH2] <- dneg d_one;
         C[kH1, nS1] <- d_one; C[kH1, nCT] <- dneg d_one] ++
        (if nonzero then [C[kH1, nP] -= invnh; C[kH1, nQ] += invnh] else []) ++
        [C[kH2, nCT] <- d_one; C[kH2, nS2] <- dneg d_one] ++
        (if nonzero then [C[kH2, nP] -= invnh; C[kH2, nQ] += invnh] else []) ++
        (if nonzero then [D[kP, kP] <- d_one; D[kP, kH1] <- invnh; D[kP, kH2] <- invnh] else [])
    | _ => []
    end).

End transformer_center_tap.

(** ** Sinusoidal voltage source *)
Module VAC.

Record t : Type := mk { m_Vp : double; m_omega : double; m_phase : double; pins_ : list pin; branches : branch; m_E : complex }.
Definition default : t :=
  {| m_Vp := d_five; m_omega := of_decimal 50 0; m_phase := d_zero; pins_ := map pin_of_name ["+"; "-"]%string; branches := {| index := 0; current := c_zero |}; m_E := c_zero |}.

Definition set_attribute_define (clip : t) (n : Z) (vi : variant) : bool * t :=
  match n, vi with
  | 0, v_d x => (true, {| m_Vp := x; m_omega := m_omega clip; m_phase := m_phase clip; pins_ := pins_ clip; branches := branches clip; m_E := m_E clip |})
  | 1, v_d x => (true, {| m_Vp := m_Vp clip; m_omega := dmul x (dmul d_two d_pi); m_phase := m_phase clip; pins_ := pins_ clip; branches := branches clip; m_E := m_E clip |})
  | 2, v_d x => (true, {| m_Vp := m_Vp clip; m_omega := m_omega clip; m_phase := dmul x (ddiv d_pi d_180); pins_ := pins_ clip; branches := branches clip; m_E := m_E clip |})
  | _, _ => (false, clip)
  end.
Definition get_attribute_define (clip : t) (n : Z) : variant :=
  match n with | 0 => v_d (m_Vp clip) | 1 => v_d (ddiv (m_omega clip) (dmul d_two d_pi)) | 2 => v_d (ddiv (m_phase clip) (ddiv d_pi d_180)) | _ => v_invalid end.

Definition prepare_foundation_define (cos sin : double -> double) (clip : t) : bool * t :=
  (true, {| m_Vp := m_Vp clip; m_omega := m_omega clip; m_phase := m_phase clip; pins_ := pins_ clip; branches := branches clip; m_E := {| re := dmul (m_Vp clip) (cos (m_phase clip)); im := dmul (m_Vp clip) (sin (m_phase clip)) |} |}).

Definition connect (k : Z) (idx : list Z) : list stmt :=
  match idx with
  | [nA; nB] => [B[nA, k] <- d_one; B[nB, k] <- dneg d_one; C[k, nA] <- d_one; C[k, nB] <- dneg d_one]
  | _ => []
  end.

Definition iterate_dc_define (ns : gmap node_ptr node_t) (clip : t) (m : MNA) : option (bool * MNA) :=
  stamp ns (pins_ clip) m (connect (index (branches clip))).
Definition iterate_ac_define (ns : gmap node_ptr node_t) (clip : t) (m : MNA) (omega : double) : option (bool * MNA) :=
  let k := index (branches clip) in stamp ns (pins_ clip) m (fun idx => connect k idx ++ [E[k] <-c m_E clip]).
Definition iterate_tr_define (sin : double -> double) (ns : gmap node_ptr node_t) (clip : t) (m : MNA) (t_time : double) : option (bool * MNA) :=
  let k := index (branches clip) in
  stamp ns (pins_ clip) m (fun idx => connect k idx ++
    [E[k] <- dmul (m_Vp clip) (sin (dadd (dmul (m_omega clip) t_time) (m_phase clip)))]).

End VAC.

(** ** Sinusoidal current source *)
Module IAC.

Record t : Type := mk { m_Ip : double; m_omega : double; m_phase : double; pins_ : list pin; m_I : complex }.
Definition default : t :=
  {| m_Ip := of_decimal 2 1; m_omega := of_decimal 50 0; m_phase := d_zero; pins_ := map pin_of_name ["+"; "-"]%string; m_I := c_zero |}.

Definition set_attribute_define (clip : t) (n : Z) (vi : variant) : bool * t :=
  match n, vi with
  | 0, v_d x => (true, {| m_Ip := x; m_omega := m_omega clip; m_phase := m_phase clip; pins_ := pins_ clip; m_I := m_I clip |})
  | 1, v_d x => (true, {| m_Ip := m_Ip clip; m_omega := dmul x (dmul d_two d_pi); m_phase := m_phase clip; pins_ := pins_ clip; m_I := m_I clip |})
  | 2, v_d x => (true, {| m_Ip := m_Ip clip; m_omega := m_omega clip; m_phase := dmul x (ddiv d_pi d_180); pins_ := pins_ clip; m_I := m_I clip |})
  | _, _ => (false, clip)
  end.
Definition get_attribute_define (clip : t) (n : Z) : variant :=
  match n with | 0 => v_d (m_Ip clip) | 1 => v_d (ddiv (m_omega clip) (dmul d_two d_pi)) | 2 => v_d (ddiv (m_phase clip) (ddiv d_pi d_180)) | _ => v_invalid end.

Definition prepare_foundation_define (cos sin : double -> double) (clip : t) : bool * t :=
  (true, {| m_Ip := m_Ip clip; m_omega := m_omega clip; m_phase := m_phase clip; pins_ := pins_ clip; m_I := {| re := dmul (m_Ip clip) (cos (m_phase clip)); im := dmul (m_Ip clip) (sin (m_phase clip)) |} |}).

Definition iterate_dc_define (ns : gmap node_ptr node_t) (clip : t) (m : MNA) : option (bool * MNA) := Some (true, m).
Definition iterate_ac_define (ns : gmap node_ptr node_t) (clip : t) (m : MNA) (omega : double) : option (bool * MNA) :=
  stamp ns (pins_ clip) m (fun idx =>
    match idx with [nA; nB] => [I[nA] -=c m_I clip; I[nB] +=c m_I clip] | _ => [] end).
Definition iterate_tr_define (sin : double -> double) (ns : gmap node_ptr node_t) (clip : t) (m : MNA) (t_time : double) : option (bool * MNA) :=
  let I := dmul (m_Ip clip) (sin (dadd (dmul (m_omega clip) t_time) (m_phase clip))) in
  stamp ns (pins_ clip) m (fun idx => match idx with [nA; nB] => [I[nA] -= I; I[nB] += I] | _ => [] end).

End IAC.

(** ** Capacitor *)
Module capacitor.

Record t : Type := mk { m_kZimag : double; m_tr_hist_current : double; m_tr_prev_g : double; m_tr_step : double; pins_ : list pin }.
Definition default : t :=
  {| m_kZimag := of_decimal 1 5; m_tr_hist_current := d_zero; m_tr_prev_g := d_zero; m_tr_step := d_zero; pins_ := map pin_of_name ["A"; "B"]%string |}.

Definition set_attribute_define (clip : t) (n : Z) (vi : variant) : bool * t :=
  match n, vi with
  | 0, v_d x => (true, {| m_kZimag := x; m_tr_hist_current := m_tr_hist_current clip; m_tr_prev_g := m_tr_prev_g clip; m_tr_step := m_tr_step clip; pins_ := pins_ clip |})
  | _, _ => (false, clip)
  end.
Definition get_attribute_define (clip : t) (n : Z) : variant :=
  match n with | 0 => v_d (m_kZimag clip) | _ => v_invalid end.

Definition iterate_ac_define (ns : gmap node_ptr node_t) (clip : t) (m : MNA) (omega : double) : option (bool * MNA) :=
  let z := {| re := d_zero; im := dmul (m_kZimag clip) omega |} in
  stamp ns (pins_ clip) m (fun idx =>
    match idx with [n0; n1] => [G[n0, n0] +=c z; G[n0, n1] -=c z; G[n1, n0] -=c z; G[n1, n1] +=c z] | _ => [] end).

(** The trapezoidal companion model for the step [nstep]. *)
Definition step_changed_tr_define (ns : gmap node_ptr node_t) (clip : t) (nlaststep nstep : double) : option (bool * t) :=
  let c1 := {| m_kZimag := m_kZimag clip; m_tr_hist_current := m_tr_hist_current clip; m_tr_prev_g := m_tr_prev_g clip; m_tr_step := nstep; pins_ := pins_ clip |} in
  if dle nstep d_zero then Some (true, c1)
  else match voltage_between ns (pins_ clip !! 0%nat) (pins_ clip !! 1%nat) with
       | None => None
       | Some None => Some (true, c1)
       | Some (Some v_prev) =>
           let g_new := ddiv (dmul d_two (m_kZimag clip)) nstep in
           let hist := dsub (dmul (dneg (dadd g_new (m_tr_prev_g clip))) v_prev) (m_tr_hist_current clip) in
           Some (true, {| m_kZimag := m_kZimag clip; m_tr_hist_current := hist; m_tr_prev_g := g_new; m_tr_step := nstep; pins_ := pins_ clip |})
       end.

Definition iterate_tr_define (ns : gmap node_ptr node_t) (clip : t) (m : MNA) (t_time : double) : option (bool * MNA) :=
  let geq := m_tr_prev_g clip in
  let Ieq := m_tr_hist_current clip in
  stamp ns (pins_ clip) m (fun idx =>
    match idx with
    | [n0; n1] => [G[n0, n0] += geq; G[n0, n1] -= geq; G[n1, n0] -= geq; G[n1, n1] += geq; I[n0] -= Ieq; I[n1] += Ieq]
    | _ => []
    end).
Definition iterate_trop_define (ns : gmap node_ptr node_t) (clip : t) (m : MNA) : option (bool * MNA) := Some (true, m).

End capacitor.

(** ** Inductor *)
Module inductor.

Record t : Type := mk { m_kZimag : double; m_tr_step : double; m_tr_req : double; m_tr_Ueq : double; pins_ : list pin; branches : branch }.
Definition default : t :=
  {| m_kZimag := of_decimal 1 5; m_tr_step := d_zero; m_tr_req := d_zero; m_tr_Ueq := d_zero; pins_ := map pin_of_name ["A"; "B"]%string; branches := {| index := 0; current := c_zero |} |}.

Definition set_attribute_define (clip : t) (n : Z) (vi : variant) : bool * t :=
  match n, vi with
  | 0, v_d x => (true, {| m_kZimag := x; m_tr_step := m_tr_step clip; m_tr_req := m_tr_req clip; m_tr_Ueq := m_tr_Ueq clip; pins_ := pins_ clip; branches := branches clip |})
  | _, _ => (false, clip)
  end.
Definition get_attribute_define (clip : t) (n : Z) : variant :=
  match n with | 0 => v_d (m_kZimag clip) | _ => v_invalid end.

Definition connect (k : Z) (idx : list Z) : list stmt :=
  match idx with
  | [n0; n1] => [B[n0, k] <- d_one; B[n1, k] <- dneg d_one; C[k, n0] <- d_one; C[k, n1] <- dneg d_one]
  | _ => []
  end.

Definition iterate_dc_define (ns : gmap node_ptr node_t) (clip : t) (m : MNA) : option (bool * MNA) :=
  stamp ns (pins_ clip) m (connect (index (branches clip))).
Definition iterate_ac_define (ns : gmap node_ptr node_t) (clip : t) (m : MNA) (omega : double) : option (bool * MNA) :=
  let k := index (branches clip) in
  stamp ns (pins_ clip) m (fun idx => connect k idx ++
    (if deqb (m_kZimag clip) d_zero || deqb omega d_zero then []
     else [D[k, k] <-c {| re := d_zero; im := dmul (dneg omega) (m_kZimag clip) |}])).

Definition step_changed_tr_define (ns : gmap node_ptr node_t) (clip : t) (nlaststep nstep : double) : option (bool * t) :=
  let c1 := {| m_kZimag := m_kZimag clip; m_tr_step := nstep; m_tr_req := d_zero; m_tr_Ueq := d_zero; pins_ := pins_ clip; branches := branches clip |} in
  if dle nstep d_zero then Some (true, c1)
  else match voltage_between ns (pins_ clip !! 0%nat) (pins_ clip !! 1%nat) with
       | None => None
       | Some None => Some (true, c1)
       | Some (Some v_prev) =>
           let i_prev := re (current (branches clip)) in
           let req := ddiv (dmul d_two (m_kZimag clip)) nstep in
           Some (true, {| m_kZimag := m_kZimag clip; m_tr_step := nstep; m_tr_req := req; m_tr_Ueq := dsub (dneg v_prev) (dmul req i_prev); pins_ := pins_ clip; branches := branches clip |})
       end.

Definition iterate_tr_define (ns : gmap node_ptr node_t) (clip : t) (m : MNA) (t_time : double) : option (bool * MNA) :=
  let k := index (branches clip) in
  stamp ns (pins_ clip) m (fun idx => connect k idx ++
    (if dle (m_tr_step clip) d_zero then [] else [D[k, k] <- dneg (m_tr_req clip); E[k] <- m_tr_Ueq clip])).
Definition iterate_trop_define (ns : gmap node_ptr node_t) (clip : t) (m : MNA) : option (bool * MNA) :=
  stamp ns (pins_ clip) m (connect (index (branches clip))).

End inductor.

(** ** Coupled inductors *)
Module coupled_inductors.

Record t : Type := mk { L1 : double; L2 : double; k : double; m_tr_step : double; m_tr_req11 : double; m_tr_req12 : double; m_tr_req22 : double; m_tr_Ueq1 : double; m_tr_Ueq2 : double; pins_ : list pin; branch0 : branch; branch1 : branch }.
Definition default : t :=
  {| L1 := of_decimal 1 3; L2 := of_decimal 1 3; k := of_decimal 99 2; m_tr_step := d_zero; m_tr_req11 := d_zero; m_tr_req12 := d_zero; m_tr_req22 := d_zero; m_tr_Ueq1 := d_zero; m_tr_Ueq2 := d_zero; pins_ := map pin_of_name ["P1"; "P2"; "S1"; "S2"]%string; branch0 := {| index := 0; current := c_zero |}; branch1 := {| index := 0; current := c_zero |} |}.

Definition set_attribute_define (clip : t) (n : Z) (vi : variant) : bool * t :=
  match n, vi with
  | 0, v_d x => (true, {| L1 := x; L2 := L2 clip; k := k clip; m_tr_step := m_tr_step clip; m_tr_req11 := m_tr_req11 clip; m_tr_req12 := m_tr_req12 clip; m_tr_req22 := m_tr_req22 clip; m_tr_Ueq1 := m_tr_Ueq1 clip; m_tr_Ueq2 := m_tr_Ueq2 clip; pins_ := pins_ clip; branch0 := branch0 clip; branch1 := branch1 clip |})
  | 1, v_d x => (true, {| L1 := L1 clip; L2 := x; k := k clip; m_tr_step := m_tr_step clip; m_tr_req11 := m_tr_req11 clip; m_tr_req12 := m_tr_req12 clip; m_tr_req22 := m_tr_req22 clip; m_tr_Ueq1 := m_tr_Ueq1 clip; m_tr_Ueq2 := m_tr_Ueq2 clip; pins_ := pins_ clip; branch0 := branch0 clip; branch1 := branch1 clip |})
  | 2, v_d x => (true, {| L1 := L1 clip; L2 := L2 clip; k := x; m_tr_step := m_tr_step clip; m_tr_req11 := m_tr_req11 clip; m_tr_req12 := m_tr_req12 clip; m_tr_req22 := m_tr_req22 clip; m_tr_Ueq1 := m_tr_Ueq1 clip; m_tr_Ueq2 := m_tr_Ueq2 clip; pins_ := pins_ clip; branch0 := branch0 clip; branch1 := branch1 clip |})
  | _, _ => (false, clip)
  end.
Definition get_attribute_define (clip : t) (n : Z) : variant :=
  match n with | 0 => v_d (L1 clip) | 1 => v_d (L2 clip) | 2 => v_d (k clip) | _ => v_invalid end.

Definition mutual (clip : t) : double := dmul (k clip) (dsqrt (dmul (L1 clip) (L2 clip))).

Definition iterate_dc_define (ns : gmap node_ptr node_t) (clip : t) (m : MNA) : option (bool * MNA) :=
  stamp ns (pins_ clip) m (fun idx => let k1 := index (branch0 clip) in let k2 := index (branch1 clip) in
    match idx with
    | [p1; p2; s1; s2] => [B[p1, k1] <- d_one; B[p2, k1] <- dneg d_one; C[k1, p1] <- d_one; C[k1, p2] <- dneg d_one;
                           B[s1, k2] <- d_one; B[s2, k2] <- dneg d_one; C[k2, s1] <- d_one; C[k2, s2] <- dneg d_one]
    | _ => []
    end).

Definition connect (k1 k2 : Z) (idx : list Z) : list stmt :=
  match idx with
  | [p1; p2; s1; s2] => [B[p1, k1] <- d_one; B[p2, k1] <- dneg d_one; B[s1, k2] <- d_one; B[s2, k2] <- dneg d_one;
                         C[k1, p1] <- d_one; C[k1, p2] <- dneg d_one; C[k2, s1] <- d_one; C[k2, s2] <- dneg d_one]
  | _ => []
  end.

Definition iterate_ac_define (ns : gmap node_ptr node_t) (clip : t) (m : MNA) (omega : double) : option (bool * MNA) :=
  let k1 := index (branch0 clip) in let k2 := index (branch1 clip) in
  let jw x := c_neg {| re := d_zero; im := dmul omega x |} in
  stamp ns (pins_ clip) m (fun idx => connect k1 k2 idx ++
    [D[k1, k1] <-c jw (L1 clip); D[k1, k2] <-c jw (mutual clip); D[k2, k1] <-c jw (mutual clip);
     D[k2, k2] <-c jw (L2 clip)]).

Definition step_changed_tr_define (ns : gmap node_ptr node_t) (clip : t) (nlaststep nstep : double) : option (bool * t) :=
  let with_tr r11 r12 r22 u1 u2 := {| L1 := L1 clip; L2 := L2 clip; k := k clip; m_tr_step := nstep; m_tr_req11 := r11; m_tr_req12 := r12; m_tr_req22 := r22; m_tr_Ueq1 := u1; m_tr_Ueq2 := u2; pins_ := pins_ clip; branch0 := branch0 clip; branch1 := branch1 clip |} in
  let c1 := with_tr d_zero d_zero d_zero d_zero d_zero in
  if dle nstep d_zero then Some (true, c1)
  else match pin_indices ns (pins_ clip) with
       | None => None
       | Some None => Some (true, c1)
       | Some (Some _) =>
           match voltage_between ns (pins_ clip !! 0%nat) (pins_ clip !! 1%nat),
                 voltage_between ns (pins_ clip !! 2%nat) (pins_ clip !! 3%nat) with
           | Some (Some v1_prev), Some (Some v2_prev) =>
               let req_scale := ddiv d_two nstep in
               let r11 := dmul req_scale (L1 clip) in
               let r12 := dmul req_scale (mutual clip) in
               let r22 := dmul req_scale (L2 clip) in
               let i1_prev := re (current (branch0 clip)) in
               let i2_prev := re (current (branch1 clip)) in
               Some (true, with_tr r11 r12 r22
                 (dsub (dneg v1_prev) (dadd (dmul r11 i1_prev) (dmul r12 i2_prev)))
                 (dsub (dneg v2_prev) (dadd (dmul r12 i1_prev) (dmul r22 i2_prev))))
           | _, _ => None
           end
       end.

Definition iterate_tr_define (ns : gmap node_ptr node_t) (clip : t) (m : MNA) (t_time : double) : option (bool * MNA) :=
  if dle (m_tr_step clip) d_zero then iterate_dc_define ns clip m
  else
    let k1 := index (branch0 clip) in let k2 := index (branch1 clip) in
    stamp ns (pins_ clip) m (fun idx => connect k1 k2 idx ++
      [D[k1, k1] <- dneg (m_tr_req11 clip); D[k1, k2] <- dneg (m_tr_req12 clip); D[k2, k1] <- dneg (m_tr_req12 clip);
       D[k2, k2] <- dneg (m_tr_req22 clip); E[k1] <- m_tr_Ueq1 clip; E[k2] <- m_tr_Ueq2 clip]).
Definition iterate_trop_define (ns : gmap node_ptr node_t) (clip : t) (m : MNA) : option (bool * MNA) := iterate_dc_define ns clip m.

End coupled_inductors.

(** ** The interface [iterate_*] of [model_derv_impl]

    A model without a definition for an analysis falls back as [base.h] does:
    an operating point and a transient analysis to [iterate_dc_define], a
    transient operating point to the transient one at time zero. *)
Inductive linear : Type :=
| l_resistance (clip : resistance.t)
| l_VDC (clip : VDC.t)
| l_IDC (clip : IDC.t)
| l_VCCS (clip : VCCS.t)
| l_VCVS (clip : VCVS.t)
| l_CCCS (clip : CCCS.t)
| l_CCVS (clip : CCVS.t)
| l_op_amp (clip : op_amp.t)
| l_transformer (clip : transformer.t)
| l_transformer_center_tap (clip : transformer_center_tap.t)
| l_VAC (clip : VAC.t)
| l_IAC (clip : IAC.t)
| l_capacitor (clip : capacitor.t)
| l_inductor (clip : inductor.t)
| l_coupled_inductors (clip : coupled_inductors.t).

Definition linear_pins (d : linear) : list pin :=
  match d with
  | l_resistance c => resistance.pins_ c
  | l_VDC c => VDC.pins_ c
  | l_IDC c => IDC.pins_ c
  | l_VCCS c => VCCS.pins_ c
  | l_VCVS c => VCVS.pins_ c
  | l_CCCS c => CCCS.pins_ c
  | l_CCVS c => CCVS.pins_ c
  | l_op_amp c => op_amp.pins_ c
  | l_transformer c => transformer.pins_ c
  | l_transformer_center_tap c => transformer_center_tap.pins_ c
  | l_VAC c => VAC.pins_ c
  | l_IAC c => IAC.pins_ c
  | l_capacitor c => capacitor.pins_ c
  | l_inductor c => inductor.pins_ c
  | l_coupled_inductors c => coupled_inductors.pins_ c
  end.

Definition linear_branches (d : linear) : list branch :=
  match d with
  | l_VDC c => [VDC.branchs c]
  | l_VCVS c => [VCVS.branches c]
  | l_CCCS c => [CCCS.branches c]
  | l_CCVS c => [CCVS.branch0 c; CCVS.branch1 c]
  | l_op_amp c => [op_amp.branches c]
  | l_transformer c => [transformer.branch0 c; transformer.branch1 c]
  | l_transformer_center_tap c =>
      [transformer_center_tap.branch0 c; transformer_center_tap.branch1 c; transformer_center_tap.branch2 c]
  | l_VAC c => [VAC.branches c]
  | l_inductor c => [inductor.branches c]
  | l_coupled_inductors c => [coupled_inductors.branch0 c; coupled_inductors.branch1 c]
  | _ => []
  end.

Section Iterate.
Context (sin : double -> double).

Definition iterate_dc (ns : gmap node_ptr node_t) (d : linear) (m : MNA) : option (bool * MNA) :=
  match d with
  | l_resistance c => resistance.iterate_dc_define ns c m
  | l_VDC c => VDC.iterate_dc_define ns c m
  | l_IDC c => IDC.iterate_dc_define ns c m
  | l_VCCS c => VCCS.iterate_dc_define ns c m
  | l_VCVS c => VCVS.iterate_dc_define ns c m
  | l_CCCS c => CCCS.iterate_dc_define ns c m
  | l_CCVS c => CCVS.iterate_dc_define ns c m
  | l_op_amp c => op_amp.iterate_dc_define ns c m
  | l_transformer c => transformer.iterate_dc_define ns c m
  | l_transformer_center_tap c => transformer_center_tap.iterate_dc_define ns c m
  | l_VAC c => VAC.iterate_dc_define ns c m
  | l_IAC c => IAC.iterate_dc_define ns c m
  | l_capacitor c => Some (true, m)
  | l_inductor c => inductor.iterate_dc_define ns c m
  | l_coupled_inductors c => coupled_inductors.iterate_dc_define ns c m
  end.

Definition iterate_ac (ns : gmap node_ptr node_t) (d : linear) (m : MNA) (omega : double) : option (bool * MNA) :=
  match d with
  | l_VDC c => VDC.iterate_ac_define ns c m omega
  | l_IDC c => IDC.iterate_ac_define ns c m omega
  | l_VAC c => VAC.iterate_ac_define ns c m omega
  | l_IAC c => IAC.iterate_ac_define ns c m omega
  | l_capacitor c => capacitor.iterate_ac_define ns c m omega
  | l_inductor c => inductor.iterate_ac_define ns c m omega
  | l_coupled_inductors c => coupled_inductors.iterate_ac_define ns c m omega
  | d => iterate_dc ns d m
  end.

Definition iterate_tr (ns : gmap node_ptr node_t) (d : linear) (m : MNA) (tTime : double) : option (bool * MNA) :=
  match d with
  | l_VAC c => VAC.iterate_tr_define sin ns c m tTime
  | l_IAC c => IAC.iterate_tr_define sin ns c m tTime
  | l_capacitor c => capacitor.iterate_tr_define ns c m tTime
  | l_inductor c => inductor.iterate_tr_define ns c m tTime
  | l_coupled_inductors c => coupled_inductors.iterate_tr_define ns c m tTime
  | d => iterate_dc ns d m
  end.

Definition iterate_op (ns : gmap node_ptr node_t) (d : linear) (m : MNA) : option (bool * MNA) := iterate_dc ns d m.

Definition iterate_trop (ns : gmap node_ptr node_t) (d : linear) (m : MNA) : option (bool * MNA) :=
  match d with
  | l_capacitor c => capacitor.iterate_trop_define ns c m
  | l_inductor c => inductor.iterate_trop_define ns c m
  | l_coupled_inductors c => coupled_inductors.iterate_trop_define ns c m
  | d => iterate_tr ns d m d_zero
  end.

End Iterate.
