(* ===== verification/Assemble.v ===== *)
(** * Assemble: the system of equations that [circult::solve_once] sets up

    The first half of [solve_once] ([circuits/circuit.h]): the matrix of the
    previous solution is cleared, or only its values when the sizes are the
    same; the digital outputs and the models put their stamps; the optional
    [g_min] is added to the diagonal.  The second half hands the matrix to a
    solver. *)

From Stdlib Require Import ZArith Lia SpecFloat.
From stdpp Require Import base list gmap strings.
From S2P Require Import Prelude Logic4 Store Gates Model Engine Mna Linear.

Open Scope Z_scope.
Open Scope stamp_scope.

(** The fields [solve_once] reads; [models_] are the objects of the slots of
    type [normal], in the order of the netlist. *)
Record setup : Type := mk_setup {
  su_nodes : gmap node_ptr node_t;
  su_models : list linear;
  su_at : analyze_type;
  su_out : list need_operate_analog_node_t;
  su_node_counter : Z;
  su_branch_counter : Z;
  su_tr_duration : double;
  su_omega : double;
  env_r_open : double;
  env_g_min : double
}.

Section Assemble.
Context (sin : double -> double).

(** [mna_reuse_enabled && mna_keep_pattern_ready && ...]. *)
Definition can_reuse_mna (enabled ready : bool) (s : setup) (m : MNA) : bool :=
  enabled && ready && (node_size m =? su_node_counter s) && (branch_size m =? su_branch_counter s).

Definition d_1e12 : double := of_decimal 1000000000000 0.

Definition start (enabled ready : bool) (s : setup) (m : MNA) : MNA :=
  let m1 := if can_reuse_mna enabled ready s m then clear_values_keep_pattern m else MNA_clear m in
  let m2 := MNA_resize m1 (su_node_counter s) (su_branch_counter s) in
  {| A := A m2; Zv := Zv m2; node_size := node_size m2; branch_size := branch_size m2;
     r_open := if dgt (env_r_open s) d_zero then env_r_open s else d_1e12; d_temp := d_temp m2 |}.

(** [for(auto const [v, n]: digital_out)], with the branch counter [k]. *)
Fixpoint digital_branches (ns : gmap node_ptr node_t) (k : Z) (outs : list need_operate_analog_node_t) (m : MNA)
    : option MNA :=
  match outs with
  | [] => Some m
  | o :: outs' =>
      match need_to_operate_analog_node o with
      | None => None
      | Some n =>
          match ns !! n with
          | None => None
          | Some nd =>
              let i := node_index nd in
              match exec m [B[i, k] <- d_one; C[k, i] <- d_one; E[k] <- voltage o] with
              | None => None
              | Some m' => digital_branches ns (u64_wrap (k + 1)) outs' m'
              end
          end
      end
  end.

(** One model of the loop; a model that returns false terminates the process. *)
Definition iterate (s : setup) (d : linear) (m : MNA) : option (bool * MNA) :=
  match su_at s with
  | OP => iterate_op (su_nodes s) d m
  | DC => iterate_dc (su_nodes s) d m
  | ACOP | AC => iterate_ac (su_nodes s) d m (su_omega s)
  | TR => iterate_tr sin (su_nodes s) d m (su_tr_duration s)
  | TROP => iterate_trop sin (su_nodes s) d m
  end.

Fixpoint iterate_all (s : setup) (ds : list linear) (m : MNA) : outcome MNA :=
  match ds with
  | [] => done_ok m
  | d :: ds' =>
      match iterate s d m with
      | None => undefined
      | Some (false, _) => terminated
      | Some (true, m') => iterate_all s ds' m'
      end
  end.

(** [for(n = 0; n < node_counter; ++n) mna.G_ref(n, n) += env.g_min]. *)
Definition gmin_stmts (s : setup) : list stmt :=
  map (fun i => let n := Z.of_nat i in G[n, n] += env_g_min s) (seq 0 (Z.to_nat (su_node_counter s))).

Definition assemble (enabled ready : bool) (s : setup) (m : MNA) : outcome MNA :=
  match digital_branches (su_nodes s) 0 (su_out s) (start enabled ready s m) with
  | None => undefined
  | Some m1 =>
      match iterate_all s (su_models s) m1 with
      | done_ok m2 =>
          if deqb (env_g_min s) d_zero then done_ok m2
          else match exec m2 (gmin_stmts s) with Some m3 => done_ok m3 | None => undefined end
      | r => r
      end
  end.

End Assemble.

(** ** The stamps stay in the matrix and do not see its pattern *)

Open Scope Z_scope.
Open Scope stamp_scope.

Lemma stable_ref (f : MNA -> ref) u : (forall m1 m2, node_size m1 = node_size m2 -> f m1 = f m2) -> stable (f, u).
Proof. by intros H m1 m2 E; apply H. Qed.

Ltac stable_stmts :=
  repeat first [apply Forall_nil; exact I | apply Forall_cons; split | apply Forall_app; split];
  try (let Es := fresh in intros ? ? Es; unfold G_ref, B_ref, C_ref, D_ref, I_ref, E_ref; cbn -[u64_wrap]; by rewrite ?Es).

(** An index of a node: the ground's, or below the number of nodes. *)
Definition node_ix (ns i : Z) : Prop := i = SIZE_MAX \/ 0 <= i < ns.

(** A statement of a stamp: its references are in the matrix when the indices
    of nodes ([idx]) and of branches ([ks]) are in range. *)
Definition in_range (nsz bsz : Z) (f : MNA -> ref) : Prop :=
  forall m, node_size m = nsz -> Z.of_nat (length (A m)) = nsz + bsz -> ref_in m (f m).

Section Range.
Context (nsz bsz : Z) (Hn : 0 <= nsz) (Hb : 0 <= bsz) (Hmax : nsz + bsz <= SIZE_MAX).

Lemma branch_row k : 0 <= k < bsz -> u64_wrap (k + nsz) = k + nsz.
Proof using Hn Hmax. intros Hk. apply u64_wrap_small. unfold SIZE_MAX in *. lia. Qed.

Lemma ix_ground i : node_ix nsz i -> (i =? SIZE_MAX) = false -> 0 <= i < nsz.
Proof using Type. intros [->|?] E; [by rewrite Z.eqb_refl in E|done]. Qed.

Lemma range_G i j : node_ix nsz i -> node_ix nsz j -> in_range nsz bsz (fun m => G_ref m i j).
Proof using Hn Hb.
  intros Hi Hj m E L. unfold G_ref. destruct (i =? SIZE_MAX) eqn:Ei; [done|]. destruct (j =? SIZE_MAX); [done|].
  apply ix_ground in Ei; [|done]. simpl. lia.
Qed.

Lemma range_B i k : node_ix nsz i -> 0 <= k < bsz -> in_range nsz bsz (fun m => B_ref m i k).
Proof using Hn Hb.
  intros Hi Hj m E L. unfold B_ref. destruct (i =? SIZE_MAX) eqn:Ei; [done|]. destruct (k =? SIZE_MAX); [done|].
  apply ix_ground in Ei; [|done]. simpl. lia.
Qed.

Lemma range_C i k : node_ix nsz i -> 0 <= k < bsz -> in_range nsz bsz (fun m => C_ref m k i).
Proof using Hn Hb Hmax.
  intros Hi Hk m E L. unfold C_ref. destruct (k =? SIZE_MAX); [done|]. destruct (i =? SIZE_MAX); [done|]. simpl.
  rewrite E, branch_row by done. lia.
Qed.

Lemma range_D k l : 0 <= k < bsz -> 0 <= l < bsz -> in_range nsz bsz (fun m => D_ref m k l).
Proof using Hn Hb Hmax.
  intros Hk Hl m E L. unfold D_ref. destruct (k =? SIZE_MAX); [done|]. destruct (l =? SIZE_MAX); [done|]. simpl.
  rewrite E, branch_row by done. lia.
Qed.

Lemma range_I i : in_range nsz bsz (fun m => I_ref m i).
Proof using Type. intros m E L. unfold I_ref. by destruct (i =? SIZE_MAX). Qed.

Lemma range_E i : in_range nsz bsz (fun m => E_ref m i).
Proof using Type. intros m E L. unfold E_ref. by destruct (i =? SIZE_MAX). Qed.

Lemma exec_in_range ss m : Forall stable ss -> (forall s, s ∈ ss -> in_range nsz bsz s.1) ->
  node_size m = nsz -> Z.of_nat (length (A m)) = nsz + bsz -> exists m', exec m ss = Some m'.
Proof using Type. intros Hs Hr E L. apply exec_defined; [done|]. intros s Hin. by apply Hr. Qed.

End Range.

(** What a model contributes: statements over the indices of its pins. *)
Record contribution (ns : gmap node_ptr node_t) (f : MNA -> option (bool * MNA)) (ps : list pin) (ks : list Z)
    (body : list Z -> list stmt) : Prop := mk_contribution {
  co_stamp : forall m, f m = stamp ns ps m body;
  co_stable : forall idx, Forall stable (body idx);
  co_range : forall nsz bsz idx s, 0 <= nsz -> 0 <= bsz -> nsz + bsz <= SIZE_MAX ->
    Forall (node_ix nsz) idx -> Forall (fun k => 0 <= k < bsz) ks -> s ∈ body idx -> in_range nsz bsz s.1;
  co_nonneg : forall idx m s, Forall (Z.le 0) idx -> s ∈ body idx -> ref_nonneg (s.1 m)
}.

Lemma contribution_none ns f ks : (forall m, f m = Some (true, m)) -> contribution ns f [] ks (fun _ => []).
Proof.
  intros H. split; [done|by constructor| |].
  - intros nsz bsz idx s _ _ _ _ _ Hs. by apply elem_of_nil in Hs.
  - intros idx m s _ Hs. by apply elem_of_nil in Hs.
Qed.

(** Rows are not negative, whatever the branches. *)
Lemma nonneg_G m i j : 0 <= i -> ref_nonneg (G_ref m i j).
Proof. intros Hi. unfold G_ref. by destruct (_ || _). Qed.
Lemma nonneg_B m i k : 0 <= i -> ref_nonneg (B_ref m i k).
Proof. intros Hi. unfold B_ref. by destruct (_ || _). Qed.
Lemma nonneg_C m k i : ref_nonneg (C_ref m k i).
Proof. unfold C_ref. destruct (_ || _); [done|]. apply u64_wrap_range. Qed.
Lemma nonneg_D m k l : ref_nonneg (D_ref m k l).
Proof. unfold D_ref. destruct (_ || _); [done|]. apply u64_wrap_range. Qed.
Lemma nonneg_I m i : ref_nonneg (I_ref m i).
Proof. unfold I_ref. by destruct (i =? SIZE_MAX). Qed.
Lemma nonneg_E m i : ref_nonneg (E_ref m i).
Proof. unfold E_ref. by destruct (i =? SIZE_MAX). Qed.
#[export] Hint Resolve nonneg_G nonneg_B nonneg_C nonneg_D nonneg_I nonneg_E : phy.

#[export] Hint Resolve range_G range_B range_C range_D range_I range_E : phy.

(** Splits the index list of a stamp and the membership in its statements. *)
Ltac split_idx := repeat match goal with |- context [match ?l with [] => _ | _ :: _ => _ end] => is_var l; destruct l end.
Ltac in_stmts H :=
  repeat match type of H with
  | _ ∈ (if ?b then _ else _) => destruct b
  | _ ∈ (if ?b then _ else _) ++ _ => destruct b
  | _ ∈ [] => by apply elem_of_nil in H
  | _ ∈ _ ++ _ => apply elem_of_app in H as [H|H]
  | _ ∈ _ :: _ => apply elem_of_cons in H as [->|H]
  end.
Ltac contribute_stable := intros idx; unfold resistance.stamps, VCVS.stamps, VAC.connect, inductor.connect, coupled_inductors.connect; cbn;
  repeat (case_match; cbn); stable_stmts.
Ltac contribute_range :=
  intros nsz bsz idx s Hn Hb Hm Hi Hk Hs; unfold resistance.stamps, VCVS.stamps, VAC.connect, inductor.connect, coupled_inductors.connect in Hs; cbn in Hs;
  repeat match type of Hs with context [match ?l with [] => _ | _ :: _ => _ end] => is_var l; destruct l; cbn in Hs end;
  repeat match goal with H : Forall _ (_ :: _) |- _ => apply Forall_cons in H as [? ?] end;
  in_stmts Hs; eauto with phy.
Ltac contribute_nonneg :=
  intros idx m s Hi Hs; unfold resistance.stamps, VCVS.stamps, VAC.connect, inductor.connect, coupled_inductors.connect in Hs; cbn in Hs;
  repeat match type of Hs with context [match ?l with [] => _ | _ :: _ => _ end] => is_var l; destruct l; cbn in Hs end;
  repeat match goal with H : Forall _ (_ :: _) |- _ => apply Forall_cons in H as [? ?] end;
  in_stmts Hs; cbn [fst]; eauto with phy.
Ltac contribute := split; [done|contribute_stable|contribute_range|contribute_nonneg].

Definition indices (d : linear) : list Z := map index (linear_branches d).

Lemma dc_contributes ns d : exists ps body, (ps = [] \/ ps = linear_pins d) /\ contribution ns (iterate_dc ns d) ps (indices d) body.
Proof.
  destruct d as [c|c|c|c|c|c|c|c|c|c|c|c|c|c|c]; try (by eexists _, _; split; [left; reflexivity|apply contribution_none]).
  all: eexists _, _; (split; [right; reflexivity|]); unfold indices; cbn; contribute.
Qed.

Lemma ac_contributes ns d omega : exists ps body, (ps = [] \/ ps = linear_pins d) /\ contribution ns (fun m => iterate_ac ns d m omega) ps (indices d) body.
Proof.
  destruct d as [c|c|c|c|c|c|c|c|c|c|c|c|c|c|c]; try apply dc_contributes; try (by eexists _, _; split; [left; reflexivity|apply contribution_none]).
  all: eexists _, _; (split; [right; reflexivity|]); unfold indices; cbn; contribute.
Qed.

Lemma tr_contributes sin ns d t : exists ps body, (ps = [] \/ ps = linear_pins d) /\ contribution ns (fun m => iterate_tr sin ns d m t) ps (indices d) body.
Proof.
  destruct d as [c|c|c|c|c|c|c|c|c|c|c|c|c|c|c]; try apply dc_contributes.
  5: { cbn. unfold coupled_inductors.iterate_tr_define. destruct (dle (coupled_inductors.m_tr_step c) d_zero).
       - apply (dc_contributes ns (l_coupled_inductors c)).
       - eexists _, _; (split; [right; reflexivity|]); unfold indices; cbn; contribute. }
  all: eexists _, _; (split; [right; reflexivity|]); unfold indices; cbn; contribute.
Qed.

Lemma trop_contributes sin ns d : exists ps body, (ps = [] \/ ps = linear_pins d) /\ contribution ns (fun m => iterate_trop sin ns d m) ps (indices d) body.
Proof.
  destruct d as [c|c|c|c|c|c|c|c|c|c|c|c|c|c|c]; try apply tr_contributes.
  - by eexists _, _; split; [left; reflexivity|apply contribution_none].
  - eexists _, _; (split; [right; reflexivity|]); unfold indices; cbn; contribute.
  - apply (dc_contributes ns (l_coupled_inductors c)).
Qed.

Lemma iterate_contributes sin s d : exists ps body, (ps = [] \/ ps = linear_pins d) /\ contribution (su_nodes s) (iterate sin s d) ps (indices d) body.
Proof.
  unfold iterate. destruct (su_at s); [apply dc_contributes|apply dc_contributes|apply ac_contributes|
    apply ac_contributes|apply tr_contributes|apply trop_contributes].
Qed.

(** ** Nodes and their indices *)

(** The [node_index] of every node is an unsigned number. *)
Definition unsigned (ns : gmap node_ptr node_t) : Prop := forall n nd, ns !! n = Some nd -> 0 <= node_index nd.

Lemma pin_indices_all (P : Z -> Prop) ns ps idx : (forall n nd, ns !! n = Some nd -> P (node_index nd)) ->
  pin_indices ns ps = Some (Some idx) -> Forall P idx.
Proof.
  intros HP. revert idx. induction ps as [|p ps IH]; intros idx E; simpl in E; [injection E as <-; by constructor|].
  destruct (nodes p) as [n|]; [|done]. destruct (pin_indices ns ps) as [[l|]|]; [|done|done].
  destruct (ns !! n) as [nd|] eqn:En; [|done]. injection E as <-. constructor; eauto.
Qed.

Lemma pin_indices_defined ns ps : (forall p n, p ∈ ps -> nodes p = Some n -> is_Some (ns !! n)) -> is_Some (pin_indices ns ps).
Proof.
  induction ps as [|p ps IH]; intros Hp; simpl; [done|]. destruct (nodes p) as [n|] eqn:En; [|done].
  destruct IH as [r ->]; [intros q n' Hq; apply Hp, elem_of_cons; by right|]. destruct r; [|done].
  destruct (Hp p n) as [nd ->]; [apply elem_of_cons; by left|done|done].
Qed.

(** ** One model *)

Lemma stamp_equiv ns f ps ks body m1 m2 m1' b : contribution ns f ps ks body -> unsigned ns -> mna_equiv m1 m2 ->
  f m1 = Some (b, m1') -> exists m2', f m2 = Some (b, m2') /\ mna_equiv m1' m2'.
Proof.
  intros C Hu E. rewrite !(co_stamp _ _ _ _ _ C). unfold stamp. destruct (pin_indices ns ps) as [[idx|]|] eqn:Ei; [| |done].
  - destruct (exec m1 (body idx)) as [m'|] eqn:Ex; [|done]. intros [= <- <-].
    destruct (exec_equiv (body idx) m1 m2 m') as (m2' & -> & E'); [apply C| |done|done|eauto].
    intros s Hs. eapply co_nonneg; [done| |done]. by eapply pin_indices_all.
  - intros [= <- <-]. eauto.
Qed.

Lemma iterate_equiv sin s d m1 m2 m1' b : unsigned (su_nodes s) -> mna_equiv m1 m2 -> iterate sin s d m1 = Some (b, m1') ->
  exists m2', iterate sin s d m2 = Some (b, m2') /\ mna_equiv m1' m2'.
Proof. destruct (iterate_contributes sin s d) as (ps & body & _ & C). intros Hu E. by apply (stamp_equiv _ _ _ _ _ _ _ _ _ C). Qed.

Lemma iterate_all_equiv sin s ds : forall m1 m2 m1', unsigned (su_nodes s) -> mna_equiv m1 m2 ->
  iterate_all sin s ds m1 = done_ok m1' -> exists m2', iterate_all sin s ds m2 = done_ok m2' /\ mna_equiv m1' m2'.
Proof.
  induction ds as [|d ds IH]; intros m1 m2 m1' Hu E He; simpl in *; [injection He as <-; eauto|].
  destruct (iterate sin s d m1) as [[[] a1]|] eqn:E1; [|done|done].
  destruct (iterate_equiv sin s d m1 m2 a1 true Hu E E1) as (a2 & -> & E2). by apply (IH a1).
Qed.

(** ** The start and the digital outputs *)

Lemma resize_lookup n rows i : (i < n)%nat ->
  resize_rows n rows !! i = Some (match rows !! i with Some row => row | None => ∅ end).
Proof.
  intros Hi. unfold resize_rows. destruct (decide (i < length rows)%nat) as [Hl|Hl].
  - rewrite lookup_app_l by (rewrite length_take; lia). rewrite lookup_take_lt by done.
    by destruct (lookup_lt_is_Some_2 rows i Hl) as [row ->].
  - rewrite lookup_app_r by (rewrite length_take; lia). rewrite length_take, lookup_replicate_2 by lia.
    by rewrite (lookup_ge_None_2 rows i) by lia.
Qed.

Lemma resize_length n rows : length (resize_rows n rows) = n.
Proof. unfold resize_rows. rewrite length_app, length_take, length_replicate. lia. Qed.

Lemma resize_equiv m1 m2 ns bs : mna_equiv m1 m2 -> mna_equiv (MNA_resize m1 ns bs) (MNA_resize m2 ns bs).
Proof.
  intros [(_ & _ & Hr & Hl) Hv]. split; [repeat split; simpl; [done|by rewrite !resize_length]|].
  intros [|i j|i] Hq; simpl.
  - apply (Hv at_temp). done.
  - destruct (decide (Z.to_nat i < Z.to_nat (u64_wrap (ns + bs)))%nat) as [Hi|Hi].
    + rewrite !resize_lookup by done. specialize (Hv (at_A i j) Hq). simpl in Hv.
      destruct (A m1 !! Z.to_nat i), (A m2 !! Z.to_nat i); simpl; rewrite ?lookup_empty; simpl; congruence.
    + by rewrite !(lookup_ge_None_2 (resize_rows _ _)) by (rewrite resize_length; lia).
  - apply (Hv (at_Z i)). done.
Qed.

Lemma start_equiv b1 b2 r1 r2 s m : mna_equiv (start b1 r1 s m) (start b2 r2 s m).
Proof.
  assert (H : forall b r, mna_equiv (start b r s m) (start false false s m)).
  { intros b r. unfold start. simpl. set (keep := can_reuse_mna b r s m). destruct keep; [|done].
    destruct (resize_equiv (clear_values_keep_pattern m) (MNA_clear m) (su_node_counter s) (su_branch_counter s)) as [(S1 & S2 & S3 & S4) V].
    { symmetry. apply clear_keeps_values. }
    split; [by repeat split|]. intros q Hq. specialize (V q Hq). by destruct q. }
  rewrite (H b1 r1), (H b2 r2). done.
Qed.

Lemma digital_equiv ns outs : forall k m1 m2 m1', unsigned ns -> mna_equiv m1 m2 -> digital_branches ns k outs m1 = Some m1' ->
  exists m2', digital_branches ns k outs m2 = Some m2' /\ mna_equiv m1' m2'.
Proof.
  induction outs as [|o outs IH]; intros k m1 m2 m1' Hu E He; cbn [digital_branches] in *; [injection He as <-; eauto|].
  destruct (need_to_operate_analog_node o) as [n|]; [|done]. destruct (ns !! n) as [nd|] eqn:En; [|done].
  match type of He with context [exec m1 ?l] => destruct (exec m1 l) as [a1|] eqn:E1; [|done]; set (ss := l) in * end.
  destruct (exec_equiv ss m1 m2 a1) as (a2 & -> & E2); [unfold ss; stable_stmts| |done|done|eauto].
  pose proof (Hu n nd En). intros s Hs. unfold ss in Hs. in_stmts Hs; cbn [fst]; eauto with phy.
Qed.

Lemma gmin_stable s : Forall stable (gmin_stmts s).
Proof. apply Forall_forall. intros x Hx. apply list_elem_of_fmap in Hx as (i & -> & _). by intros m1 m2 E. Qed.

Lemma assemble_equiv sin b1 b2 r1 r2 s m a : unsigned (su_nodes s) -> assemble sin b1 r1 s m = done_ok a ->
  exists a', assemble sin b2 r2 s m = done_ok a' /\ mna_equiv a a'.
Proof.
  intros Hu. unfold assemble. pose proof (start_equiv b1 b2 r1 r2 s m) as Es.
  destruct (digital_branches _ _ _ (start b1 r1 s m)) as [m1|] eqn:E1; [|done].
  destruct (digital_equiv _ _ _ _ _ _ Hu Es E1) as (m1' & -> & Em).
  destruct (iterate_all sin s (su_models s) m1) as [m2| |] eqn:E2; [|done|done].
  destruct (iterate_all_equiv _ _ _ _ _ _ Hu Em E2) as (m2' & -> & Em2).
  destruct (deqb (env_g_min s) d_zero); [intros [= <-]; eauto|].
  destruct (exec m2 (gmin_stmts s)) as [m3|] eqn:E3; [|done]. intros [= <-].
  destruct (exec_equiv (gmin_stmts s) m2 m2' m3) as (m3' & -> & Em3); [apply gmin_stable| |done|done|eauto].
  intros x Hx. apply list_elem_of_fmap in Hx as (i & -> & _). apply nonneg_G. lia.
Qed.

(** ** Stamps stay in the matrix *)

Record setup_ok (s : setup) : Prop := mk_setup_ok {
  so_nodes : 0 <= su_node_counter s;
  so_branches : 0 <= su_branch_counter s;
  so_max : su_node_counter s + su_branch_counter s <= SIZE_MAX;
  so_index : forall n nd, su_nodes s !! n = Some nd -> node_ix (su_node_counter s) (node_index nd);
  so_pins : forall d p n, d ∈ su_models s -> p ∈ linear_pins d -> nodes p = Some n -> is_Some (su_nodes s !! n);
  so_own : forall d k, d ∈ su_models s -> k ∈ indices d -> 0 <= k < su_branch_counter s;
  so_out : forall o, o ∈ su_out s -> exists n, need_to_operate_analog_node o = Some n /\ is_Some (su_nodes s !! n);
  so_outs : Z.of_nat (length (su_out s)) <= su_branch_counter s
}.

Definition sized (s : setup) (m : MNA) : Prop :=
  node_size m = su_node_counter s /\ branch_size m = su_branch_counter s /\
  Z.of_nat (length (A m)) = su_node_counter s + su_branch_counter s.

Lemma exec_sized s ss m : setup_ok s -> Forall stable ss ->
  (forall x, x ∈ ss -> in_range (su_node_counter s) (su_branch_counter s) x.1) -> sized s m ->
  exists m', exec m ss = Some m' /\ sized s m'.
Proof.
  intros Hs Hst Hr (S1 & S2 & S3). destruct (exec_in_range _ _ ss m Hst Hr S1 S3) as [m' E]. exists m'. split; [done|].
  destruct (exec_sizes _ _ _ E) as (E1 & E2 & _ & E4). repeat split; congruence.
Qed.

Lemma start_sized b r s m : setup_ok s -> sized s (start b r s m).
Proof.
  intros [H1 H2 H3 _ _ _ _ _]. repeat split. simpl. rewrite resize_length, u64_wrap_small; unfold SIZE_MAX in *; lia.
Qed.

Lemma digital_sized s outs : forall k m, setup_ok s -> sized s m -> 0 <= k ->
  k + Z.of_nat (length outs) <= su_branch_counter s ->
  (forall o, o ∈ outs -> exists n, need_to_operate_analog_node o = Some n /\ is_Some (su_nodes s !! n)) ->
  exists m', digital_branches (su_nodes s) k outs m = Some m' /\ sized s m'.
Proof.
  induction outs as [|o outs IH]; intros k m Hs Hm Hk Hl Ho; cbn [digital_branches]; [by eexists|].
  destruct (Ho o) as (n & -> & nd & En); [apply elem_of_cons; by left|]. rewrite En.
  pose proof (so_index _ Hs n nd En) as Hix. pose proof Hs as [H1 H2 H3 _ _ _ _ _]. cbn [length] in Hl.
  match goal with |- context [exec m ?l] => destruct (exec_sized s l m Hs) as (m1 & -> & Hm1); [stable_stmts| |done|] end.
  { intros x Hx. in_stmts Hx; cbn [fst]; (apply range_B || apply range_C || apply range_E); done || lia. }
  assert (Hw : u64_wrap (k + 1) = k + 1) by (apply u64_wrap_small; unfold SIZE_MAX in *; lia). rewrite Hw.
  apply IH; [done|done|lia|lia|]. intros o' Ho'. apply Ho, elem_of_cons. by right.
Qed.

Lemma iterate_sized sin s d m : setup_ok s -> d ∈ su_models s -> sized s m ->
  exists m', iterate sin s d m = Some (true, m') /\ sized s m'.
Proof.
  intros Hs Hd Hm. destruct (iterate_contributes sin s d) as (ps & body & Hps & C).
  rewrite (co_stamp _ _ _ _ _ C). unfold stamp.
  destruct (pin_indices_defined (su_nodes s) ps) as [r Er].
  { intros p n Hp Hn. destruct Hps as [->| ->]; [by apply elem_of_nil in Hp|]. by eapply so_pins. }
  rewrite Er. destruct r as [idx|]; [|eauto]. pose proof Hs as [H1 H2 H3 H4 _ H6 _ _].
  destruct (exec_sized s (body idx) m Hs) as (m' & -> & Hm'); [apply C| |done|eauto].
  intros x Hx. eapply co_range; [done|done|done|done|by eapply pin_indices_all| |done].
  apply Forall_forall. intros k Hk. by apply (H6 d).
Qed.

Lemma iterate_all_sized sin s ds : forall m, setup_ok s -> ds ⊆ su_models s -> sized s m ->
  exists m', iterate_all sin s ds m = done_ok m' /\ sized s m'.
Proof.
  induction ds as [|d ds IH]; intros m Hs Hds Hm; simpl; [by eexists|].
  destruct (iterate_sized sin s d m Hs) as (m1 & -> & Hm1); [apply Hds, elem_of_cons; by left|done|].
  apply IH; [done| |done]. intros x Hx. apply Hds, elem_of_cons. by right.
Qed.

Lemma assemble_sized sin b r s m : setup_ok s -> exists a, assemble sin b r s m = done_ok a /\ sized s a.
Proof.
  intros Hs. unfold assemble.
  destruct (digital_sized s (su_out s) 0 (start b r s m)) as (m1 & -> & Hm1);
    [done|by apply start_sized|lia|apply Hs|apply Hs|].
  destruct (iterate_all_sized sin s (su_models s) m1) as (m2 & -> & Hm2); [done|done|done|].
  destruct (deqb (env_g_min s) d_zero); [eauto|].
  destruct (exec_sized s (gmin_stmts s) m2 Hs) as (m3 & -> & Hm3); [apply gmin_stable| |done|eauto].
  intros x Hx. apply list_elem_of_fmap in Hx as (i & -> & Hi). apply elem_of_seq in Hi. pose proof Hs as [H1 H2 H3 _ _ _ _ _].
  apply range_G; [done|done|right; lia..].
Qed.
