(* ===== verification/AssembleClaims.v ===== *)
(** * AssembleClaims: theorems about the assembled system *)

From Stdlib Require Import ZArith Lia SpecFloat.
From stdpp Require Import base list gmap strings.
From S2P Require Import Prelude Store Logic4 Gates Model Mna Linear Engine Assemble.
From S2P Require Import Assemble.

Open Scope Z_scope.
Open Scope stamp_scope.

(** ** Which statements reach an entry *)

Definition hit (q : ref) (f : MNA -> ref) (m : MNA) : bool := bool_decide (q = f m).

Lemma updates_cons m q f u ss :
  updates_at m q ((f, u) :: ss) = (if hit q f m then [u] else []) ++ updates_at m q ss.
Proof. simpl. unfold hit. case_decide; [by rewrite bool_decide_eq_true_2|by rewrite bool_decide_eq_false_2]. Qed.

Lemma updates_app m q s1 s2 : updates_at m q (s1 ++ s2) = updates_at m q s1 ++ updates_at m q s2.
Proof. induction s1 as [|[f u] s1 IH]; [done|]. rewrite <- app_comm_cons, !updates_cons, IH. by rewrite app_assoc. Qed.

Lemma hit_swap_G m a b i j : hit (at_A j i) (fun m => G_ref m a b) m = hit (at_A i j) (fun m => G_ref m b a) m.
Proof.
  unfold hit, G_ref. rewrite (orb_comm (b =? SIZE_MAX)). destruct (_ || _); [done|].
  apply bool_decide_ext. split; congruence.
Qed.
Lemma hit_swap_B m n k i j : hit (at_A j i) (fun m => B_ref m n k) m = hit (at_A i j) (fun m => C_ref m k n) m.
Proof.
  unfold hit, B_ref, C_ref. rewrite (orb_comm (k =? SIZE_MAX)). destruct (_ || _); [done|].
  apply bool_decide_ext. split; congruence.
Qed.
Lemma hit_swap_C m n k i j : hit (at_A j i) (fun m => C_ref m k n) m = hit (at_A i j) (fun m => B_ref m n k) m.
Proof. symmetry. apply hit_swap_B. Qed.
Lemma hit_swap_D m a b i j : hit (at_A j i) (fun m => D_ref m a b) m = hit (at_A i j) (fun m => D_ref m b a) m.
Proof.
  unfold hit, D_ref. rewrite (orb_comm (b =? SIZE_MAX)). destruct (_ || _); [done|].
  apply bool_decide_ext. split; congruence.
Qed.
Lemma hit_I m i j n : hit (at_A i j) (fun m => I_ref m n) m = false.
Proof. apply bool_decide_eq_false_2. unfold I_ref. by destruct (n =? SIZE_MAX). Qed.
Lemma hit_E m i j n : hit (at_A i j) (fun m => E_ref m n) m = false.
Proof. apply bool_decide_eq_false_2. unfold E_ref. by destruct (n =? SIZE_MAX). Qed.

(** The blocks do not overlap: a row of a node or a column of a branch is
    reached by [B], a row of a branch or a column of a node by [C]. *)
Section Blocks.
Context (nsz bsz : Z) (Hn : 0 <= nsz) (Hb : 0 <= bsz) (Hmax : nsz + bsz <= SIZE_MAX).
Context (m : MNA) (Hm : node_size m = nsz).

Lemma hit_C_node n k i j : 0 <= k < bsz -> i < nsz -> hit (at_A i j) (fun m => C_ref m k n) m = false.
Proof using Hn Hmax Hm.
  intros Hk Hi. apply bool_decide_eq_false_2. unfold C_ref. destruct (_ || _); [done|].
  rewrite Hm, (branch_row nsz bsz) by done. intros [= ? ?]. lia.
Qed.
Lemma hit_B_branch n k i j : node_ix nsz n -> nsz <= i -> hit (at_A i j) (fun m => B_ref m n k) m = false.
Proof using Type.
  intros Hx Hi. apply bool_decide_eq_false_2. unfold B_ref. destruct (n =? SIZE_MAX) eqn:E; [done|].
  apply (ix_ground nsz) in E; [|done]. destruct (_ || _); [done|]. intros [= ? ?]. lia.
Qed.

End Blocks.

(** Statements that reach an entry as they reach its mirror image. *)
Definition mirrored (nsz bsz : Z) (ss : list stmt) : Prop :=
  forall m i j, node_size m = nsz -> updates_at m (at_A j i) ss = updates_at m (at_A i j) ss.

Ltac mirror m i j :=
  repeat rewrite updates_cons; cbn [updates_at];
  rewrite ?(hit_swap_G m _ _ i j), ?(hit_swap_B m _ _ i j), ?(hit_swap_C m _ _ i j), ?(hit_swap_D m _ _ i j), ?hit_I, ?hit_E.

Lemma mirrored_app nsz bsz s1 s2 : mirrored nsz bsz s1 -> mirrored nsz bsz s2 -> mirrored nsz bsz (s1 ++ s2).
Proof. intros H1 H2 m i j E. by rewrite !updates_app, (H1 m i j E), (H2 m i j E). Qed.

Lemma mirrored_nil nsz bsz : mirrored nsz bsz [].
Proof. done. Qed.

(** A conductance, with any update and its opposite. *)
Lemma mirrored_conductance nsz bsz a b u v :
  mirrored nsz bsz [(G[a, a], u); (G[a, b], v); (G[b, a], v); (G[b, b], u)].
Proof.
  intros m i j E. mirror m i j. destruct (hit _ (fun m => G_ref m a b) m), (hit _ (fun m => G_ref m b a) m); done.
Qed.

(** The connection of a branch to its nodes. *)
Lemma mirrored_branch nsz bsz a b k u v : 0 <= nsz -> 0 <= bsz -> nsz + bsz <= SIZE_MAX ->
  node_ix nsz a -> node_ix nsz b -> 0 <= k < bsz ->
  mirrored nsz bsz [(B[a, k], u); (B[b, k], v); (C[k, a], u); (C[k, b], v)].
Proof.
  intros Hn Hb Hmax Ha Hb' Hk m i j E. mirror m i j. destruct (decide (i < nsz)) as [Hi|Hi].
  - rewrite !(hit_C_node nsz bsz) by done. simpl. by rewrite !app_nil_r.
  - rewrite !(hit_B_branch nsz) by (done || lia). simpl. by rewrite !app_nil_r.
Qed.

Lemma mirrored_source nsz bsz ss n u : mirrored nsz bsz ss -> mirrored nsz bsz (ss ++ [(E[n], u)]).
Proof. intros H. apply mirrored_app; [done|]. intros m i j E. mirror m i j. done. Qed.

Lemma mirrored_currents nsz bsz a b u v : mirrored nsz bsz [(I[a], u); (I[b], v)].
Proof. intros m i j E. mirror m i j. done. Qed.

Lemma mirrored_diagonal nsz bsz k u : mirrored nsz bsz [(D[k, k], u)].
Proof. intros m i j E. mirror m i j. done. Qed.

(** Two windings with a symmetric matrix between them. *)
Lemma mirrored_windings nsz bsz k l u v w :
  mirrored nsz bsz [(D[k, k], u); (D[k, l], v); (D[l, k], v); (D[l, l], w)].
Proof.
  intros m i j E. mirror m i j. destruct (hit _ (fun m => D_ref m k l) m), (hit _ (fun m => D_ref m l k) m); done.
Qed.

Lemma mirrored_two_branches nsz bsz a b k c d l u v : 0 <= nsz -> 0 <= bsz -> nsz + bsz <= SIZE_MAX ->
  node_ix nsz a -> node_ix nsz b -> node_ix nsz c -> node_ix nsz d -> 0 <= k < bsz -> 0 <= l < bsz ->
  mirrored nsz bsz [(B[a, k], u); (B[b, k], v); (B[c, l], u); (B[d, l], v);
                    (C[k, a], u); (C[k, b], v); (C[l, c], u); (C[l, d], v)].
Proof.
  intros Hn Hb Hmax Ha Hb' Hc Hd Hk Hl m i j E. mirror m i j. destruct (decide (i < nsz)) as [Hi|Hi].
  - rewrite !(hit_C_node nsz bsz) by done. simpl. by rewrite !app_nil_r.
  - rewrite !(hit_B_branch nsz) by (done || lia). simpl. by rewrite !app_nil_r.
Qed.

(** ** Reciprocal models *)

Definition reciprocal (d : linear) : Prop :=
  match d with
  | l_resistance _ | l_VDC _ | l_IDC _ | l_VAC _ | l_IAC _ | l_capacitor _ | l_inductor _ | l_coupled_inductors _ => True
  | _ => False
  end.

Definition mirrors (ks : list Z) (body : list Z -> list stmt) : Prop :=
  forall nsz bsz idx, 0 <= nsz -> 0 <= bsz -> nsz + bsz <= SIZE_MAX -> Forall (node_ix nsz) idx ->
    Forall (fun k => 0 <= k < bsz) ks -> mirrored nsz bsz (body idx).

Definition contributes_mirrored (ns : gmap node_ptr node_t) (f : MNA -> option (bool * MNA)) (ks : list Z) : Prop :=
  exists ps body, contribution ns f ps ks body /\ mirrors ks body.

Lemma mirrors_none ns f ks : (forall m, f m = Some (true, m)) -> contributes_mirrored ns f ks.
Proof. intros H. exists [], (fun _ => []). split; [by apply contribution_none|]. intros ? ? ? _ _ _ _ _. apply mirrored_nil. Qed.

Create HintDb mirrored.
#[export] Hint Resolve mirrored_app mirrored_nil mirrored_conductance mirrored_branch mirrored_two_branches
  mirrored_source mirrored_currents mirrored_diagonal mirrored_windings : mirrored.

(** Splits the indices of a mirrored stamp into the nodes and branches. *)
Ltac mirrors_split :=
  intros nsz bsz idx Hn Hb Hm Hi Hk;
  repeat match goal with |- context [match ?l with [] => _ | _ :: _ => _ end] => is_var l; destruct l; cbn end;
  repeat match goal with H : Forall _ (_ :: _) |- _ => apply Forall_cons in H as [? ?] end; eauto with mirrored.

Lemma mirrors_resistance g : mirrors [] (resistance.stamps g).
Proof.
  unfold resistance.stamps. mirrors_split. repeat case_match; auto with mirrored; intros m i j E; by mirror m i j.
Qed.

Lemma mirrors_connect k : mirrors [k] (inductor.connect k).
Proof. unfold inductor.connect. mirrors_split. Qed.

Lemma mirrors_connect2 k l : mirrors [k; l] (coupled_inductors.connect k l).
Proof. unfold coupled_inductors.connect. mirrors_split. Qed.

Lemma mirrors_app ks b1 b2 : mirrors ks b1 -> mirrors ks b2 -> mirrors ks (fun idx => b1 idx ++ b2 idx).
Proof. intros H1 H2 nsz bsz idx ? ? ? ? ?. apply mirrored_app; auto. Qed.

Lemma mirrors_const ks ss : (forall nsz bsz, mirrored nsz bsz ss) -> mirrors ks (fun _ => ss).
Proof. intros H nsz bsz idx _ _ _ _ _. apply H. Qed.

Ltac contributes := eexists _, _; split; [unfold indices; cbn; contribute|unfold indices; cbn].
Ltac plain_mirror := intros ? ? m i j E; by mirror m i j.

Lemma dc_mirrored ns d : reciprocal d -> contributes_mirrored ns (iterate_dc ns d) (indices d).
Proof.
  destruct d as [c|c|c|c|c|c|c|c|c|c|c|c|c|c|c]; intros Hr; try destruct Hr; try (by apply mirrors_none).
  - contributes. apply mirrors_resistance.
  - contributes. mirrors_split. by apply (mirrored_source _ _ [_; _; _; _]), mirrored_branch.
  - contributes. mirrors_split.
  - contributes. apply mirrors_connect.
  - contributes. apply mirrors_connect.
  - contributes. mirrors_split. by apply (mirrored_app _ _ [_; _; _; _] [_; _; _; _]); apply mirrored_branch.
Qed.

Lemma ac_mirrored ns d omega : reciprocal d -> contributes_mirrored ns (fun m => iterate_ac ns d m omega) (indices d).
Proof.
  destruct d as [c|c|c|c|c|c|c|c|c|c|c|c|c|c|c]; intros Hr; try destruct Hr; try (by apply mirrors_none).
  - by apply (dc_mirrored ns (l_resistance c)).
  - contributes. mirrors_split.
  - contributes. apply mirrors_app; [apply mirrors_connect|apply mirrors_const; plain_mirror].
  - contributes. mirrors_split.
  - contributes. mirrors_split.
  - contributes. apply mirrors_app; [apply mirrors_connect|]. destruct (_ || _); apply mirrors_const; plain_mirror.
  - contributes. apply mirrors_app; [apply mirrors_connect2|]. apply mirrors_const. auto with mirrored.
Qed.

Lemma tr_mirrored sin ns d t : reciprocal d -> contributes_mirrored ns (fun m => iterate_tr sin ns d m t) (indices d).
Proof.
  destruct d as [c|c|c|c|c|c|c|c|c|c|c|c|c|c|c]; intros Hr; try destruct Hr.
  - by apply (dc_mirrored ns (l_resistance c)).
  - by apply (dc_mirrored ns (l_VDC c)).
  - by apply (dc_mirrored ns (l_IDC c)).
  - contributes. apply mirrors_app; [apply mirrors_connect|apply mirrors_const; plain_mirror].
  - contributes. mirrors_split.
  - contributes. mirrors_split. by apply (mirrored_app _ _ [_; _; _; _] [_; _]); auto with mirrored.
  - contributes. apply mirrors_app; [apply mirrors_connect|]. destruct (dle _ _); apply mirrors_const; plain_mirror.
  - cbn. unfold coupled_inductors.iterate_tr_define. destruct (dle (coupled_inductors.m_tr_step c) d_zero).
    + by apply (dc_mirrored ns (l_coupled_inductors c)).
    + contributes. apply mirrors_app; [apply mirrors_connect2|]. apply mirrors_const. intros nsz bsz.
      apply (mirrored_app _ _ [_; _; _; _] [_; _]); [auto with mirrored|]. intros m i j E. by mirror m i j.
Qed.

Lemma trop_mirrored sin ns d : reciprocal d -> contributes_mirrored ns (fun m => iterate_trop sin ns d m) (indices d).
Proof.
  destruct d as [c|c|c|c|c|c|c|c|c|c|c|c|c|c|c]; intros Hr; try destruct Hr; try (by apply mirrors_none).
  - by apply (dc_mirrored ns (l_resistance c)).
  - by apply (dc_mirrored ns (l_VDC c)).
  - by apply (dc_mirrored ns (l_IDC c)).
  - by apply (tr_mirrored sin ns (l_VAC c) d_zero).
  - by apply (tr_mirrored sin ns (l_IAC c) d_zero).
  - contributes. apply mirrors_connect.
  - by apply (dc_mirrored ns (l_coupled_inductors c)).
Qed.

(** ** A symmetric matrix *)

Definition symmetric (m : MNA) : Prop := forall i j, 0 <= i -> 0 <= j -> value m (at_A i j) = value m (at_A j i).

Lemma exec_symmetric nsz bsz ss m m' : mirrored nsz bsz ss -> Forall stable ss -> (forall s, s ∈ ss -> ref_nonneg (s.1 m)) ->
  node_size m = nsz -> symmetric m -> exec m ss = Some m' -> symmetric m'.
Proof.
  intros Hm Hst Hnn E Hs Ex i j Hi Hj.
  rewrite (exec_value ss m m' (at_A i j)), (exec_value ss m m' (at_A j i)) by done.
  by rewrite (Hm m j i E), (Hs i j Hi Hj).
Qed.

Lemma iterate_symmetric sin s d m m' b : setup_ok s -> d ∈ su_models s -> reciprocal d -> sized s m -> symmetric m ->
  iterate sin s d m = Some (b, m') -> symmetric m'.
Proof.
  intros Hs Hd Hr (Hsz & _) Hm. assert (Hc : contributes_mirrored (su_nodes s) (iterate sin s d) (indices d)).
  { unfold iterate. destruct (su_at s); [by apply dc_mirrored|by apply dc_mirrored|by apply ac_mirrored|by apply ac_mirrored|
      by apply tr_mirrored|by apply trop_mirrored]. }
  destruct Hc as (ps & body & C & Hmir). rewrite (co_stamp _ _ _ _ _ C). unfold stamp.
  destruct (pin_indices (su_nodes s) ps) as [[idx|]|] eqn:Ei; [|by intros [= _ <-]|done].
  destruct (exec m (body idx)) as [m1|] eqn:Ex; [|done]. intros [= _ <-]. pose proof Hs as [H1 H2 H3 H4 _ H6 _ _].
  assert (Hix : Forall (node_ix (su_node_counter s)) idx) by (by eapply pin_indices_all).
  eapply (exec_symmetric (su_node_counter s) (su_branch_counter s)); [|apply C| |done|done|exact Ex].
  - apply Hmir; [done..|]. apply Forall_forall. intros k Hk. by apply (H6 d).
  - intros x Hx. eapply co_nonneg; [done| |done]. eapply Forall_impl; [exact Hix|].
    intros z [->|?]; [unfold SIZE_MAX; lia|lia].
Qed.

Lemma iterate_all_symmetric sin s ds : forall m m', setup_ok s -> ds ⊆ su_models s -> Forall reciprocal ds -> sized s m ->
  symmetric m -> iterate_all sin s ds m = done_ok m' -> symmetric m'.
Proof.
  induction ds as [|d ds IH]; intros m m' Hs Hds Hr Hm Hsym E; simpl in E; [by injection E as <-|].
  apply Forall_cons in Hr as [Hd Hr]. assert (Hin : d ∈ su_models s) by (apply Hds, elem_of_cons; by left).
  destruct (iterate_sized sin s d m Hs Hin Hm) as (m1 & E1 & Hm1). rewrite E1 in E.
  eapply (IH m1); [done| |done|done| |done]; [intros x Hx; apply Hds, elem_of_cons; by right|].
  by apply (iterate_symmetric sin s d m m1 true).
Qed.

Lemma digital_symmetric s outs : forall k m m', setup_ok s -> sized s m -> symmetric m -> 0 <= k ->
  k + Z.of_nat (length outs) <= su_branch_counter s ->
  digital_branches (su_nodes s) k outs m = Some m' -> symmetric m'.
Proof.
  induction outs as [|o outs IH]; intros k m m' Hs Hm Hsym Hk Hl E; cbn [digital_branches] in E; [by injection E as <-|].
  destruct (need_to_operate_analog_node o) as [n|]; [|done]. destruct (su_nodes s !! n) as [nd|] eqn:En; [|done].
  pose proof (so_index _ Hs n nd En) as Hix. pose proof Hs as [H1 H2 H3 _ _ _ _ _]. cbn [length] in Hl.
  match type of E with context [exec m ?l] => destruct (exec m l) as [m1|] eqn:E1; [|done]; set (ss := l) in * end.
  destruct Hm as (S1 & S2 & S3). destruct (exec_sizes _ _ _ E1) as (T1 & T2 & _ & T4).
  assert (Hw : u64_wrap (k + 1) = k + 1) by (apply u64_wrap_small; unfold SIZE_MAX in *; lia). rewrite Hw in E.
  eapply (IH (k + 1) m1); [done|repeat split; congruence| |lia|lia|done].
  eapply (exec_symmetric (su_node_counter s) (su_branch_counter s) ss m); [|unfold ss; stable_stmts| |done|done|done].
  - intros m0 i j E0. unfold ss. mirror m0 i j. destruct (decide (i < su_node_counter s)) as [Hi|Hi].
    + rewrite !(hit_C_node (su_node_counter s) (su_branch_counter s)) by (done || lia). simpl. done.
    + rewrite !(hit_B_branch (su_node_counter s)) by (done || lia). simpl. done.
  - intros x Hx. unfold ss in Hx. in_stmts Hx; cbn [fst]; auto with phy. apply nonneg_B.
    destruct Hix as [->|?]; [unfold SIZE_MAX; lia|lia].
Qed.

Lemma start_symmetric b r s m : symmetric (start b r s m).
Proof.
  intros i j Hi Hj. destruct (start_equiv b false r false s m) as [_ Hv]. rewrite !Hv by done.
  assert (Hz : forall a c, value (start false false s m) (at_A a c) = c_zero).
  { intros a c. cbn. destruct (decide (Z.to_nat a < Z.to_nat (u64_wrap (su_node_counter s + su_branch_counter s)))%nat) as [Ha|Ha].
    - rewrite resize_lookup by done. rewrite list_lookup_fmap. by destruct (A m !! Z.to_nat a).
    - by rewrite (lookup_ge_None_2 (resize_rows _ _)) by (rewrite resize_length; lia). }
  by rewrite !Hz.
Qed.

Lemma gmin_mirrored nsz bsz s : mirrored nsz bsz (gmin_stmts s).
Proof.
  unfold gmin_stmts. induction (seq 0 (Z.to_nat (su_node_counter s))) as [|i l IH]; [done|]. cbn [map].
  intros m a b E. rewrite !updates_cons, (hit_swap_G m _ _ a b). f_equal. by apply IH.
Qed.

(** ** The theorems *)

(** C23: reusing the sparsity pattern of the previous matrix does not change
    the system: whether reuse is enabled and ready or not, the assembly
    succeeds in both cases or in neither, and where it succeeds the matrices
    and right-hand sides have the same values at every entry. *)
Theorem reuse_assembles_same sin s m b1 b2 r1 r2 :
  unsigned (su_nodes s) ->
  match assemble sin b1 r1 s m, assemble sin b2 r2 s m with
  | done_ok a1, done_ok a2 => mna_equiv a1 a2
  | done_ok _, _ | _, done_ok _ => False
  | _, _ => True
  end.
Proof.
  intros Hu. destruct (assemble sin b1 r1 s m) as [a1| |] eqn:E1.
  - destruct (assemble_equiv sin b1 b2 r1 r2 s m a1 Hu E1) as (a2 & -> & E). done.
  - destruct (assemble sin b2 r2 s m) as [a2| |] eqn:E2; [|done|done].
    destruct (assemble_equiv sin b2 b1 r2 r1 s m a2 Hu E2) as (a1 & E & _). congruence.
  - destruct (assemble sin b2 r2 s m) as [a2| |] eqn:E2; [|done|done].
    destruct (assemble_equiv sin b2 b1 r2 r1 s m a2 Hu E2) as (a1 & E & _). congruence.
Qed.

(** C22: when the indices of nodes and branches are in range and the pins point
    to nodes that exist, every analysis assembles the system without leaving
    the matrix and without terminating, and the matrix has one row for every
    node and every branch. *)
Theorem assembly_in_bounds sin s m b r :
  setup_ok s ->
  exists a, assemble sin b r s m = done_ok a /\ node_size a = su_node_counter s /\ branch_size a = su_branch_counter s /\
    Z.of_nat (length (A a)) = su_node_counter s + su_branch_counter s.
Proof. intros Hs. destruct (assemble_sized sin b r s m Hs) as (a & E & Hz). eauto. Qed.

Lemma assemble_symmetric sin s m b r a :
  setup_ok s -> Forall reciprocal (su_models s) -> assemble sin b r s m = done_ok a -> symmetric a.
Proof.
  intros Hs Hr. unfold assemble.
  destruct (digital_sized s (su_out s) 0 (start b r s m)) as (m1 & E1 & Hm1);
    [done|by apply start_sized|lia|apply Hs|apply Hs|]. rewrite E1.
  assert (Hs1 : symmetric m1).
  { eapply digital_symmetric; [done|by apply start_sized|apply start_symmetric| | |done]; [lia|apply Hs]. }
  destruct (iterate_all_sized sin s (su_models s) m1) as (m2 & E2 & Hm2); [done|done|done|]. rewrite E2.
  assert (Hs2 : symmetric m2) by (by eapply (iterate_all_symmetric sin s (su_models s) m1)).
  destruct (deqb (env_g_min s) d_zero); [intros [= <-]; done|].
  destruct (exec m2 (gmin_stmts s)) as [m3|] eqn:E3; [|done]. intros [= <-].
  eapply (exec_symmetric (su_node_counter s) (su_branch_counter s));
    [apply gmin_mirrored|apply gmin_stable| |apply Hm2|done|done].
  intros x Hx. apply list_elem_of_fmap in Hx as (i & -> & _). apply nonneg_G. lia.
Qed.

(** C24: a network of resistors, capacitors, inductors, coupled inductors and
    independent sources, with any digital outputs, is assembled in every
    analysis into a symmetric matrix, also in floating-point arithmetic. *)
Theorem reciprocal_matrix_symmetric sin s m b r :
  setup_ok s -> Forall reciprocal (su_models s) ->
  exists a, assemble sin b r s m = done_ok a /\
    forall i j, 0 <= i -> 0 <= j -> value a (at_A i j) = value a (at_A j i).
Proof.
  intros Hs Hr. destruct (assemble_sized sin b r s m Hs) as (a & E & _). exists a. split; [done|].
  by apply (assemble_symmetric sin s m b r a).
Qed.

(** ** Entries of single stamps *)

Lemma hit_G m a b i j : 0 <= a < SIZE_MAX -> 0 <= b < SIZE_MAX ->
  hit (at_A i j) (fun m => G_ref m a b) m = bool_decide (i = a /\ j = b).
Proof.
  intros Ha Hb. unfold hit, G_ref. rewrite !(proj2 (Z.eqb_neq _ _)) by lia. apply bool_decide_ext. simpl. split.
  - intros [= -> ->]. done.
  - intros [-> ->]. done.
Qed.

Lemma hit_branch_C m a k i j : 0 <= a < SIZE_MAX -> 0 <= k < SIZE_MAX -> u64_wrap (k + node_size m) = i ->
  hit (at_A i j) (fun m => C_ref m k a) m = bool_decide (j = a).
Proof.
  intros Ha Hk Hi. unfold hit, C_ref. rewrite !(proj2 (Z.eqb_neq _ _)) by lia. apply bool_decide_ext. simpl. rewrite Hi. split.
  - by intros [= ->].
  - by intros ->.
Qed.

Ltac entry_cases :=
  repeat match goal with
  | |- context [bool_decide ?P] => destruct (bool_decide_reflect P)
  | |- context [decide ?P] => destruct (decide P)
  end; simplify_eq; try done; try tauto; try lia.

Lemma row_in m i j : node_ix (Z.of_nat (length (A m))) i -> ref_in m (G_ref m i j).
Proof.
  intros Hi. unfold G_ref. destruct (i =? SIZE_MAX) eqn:E; [done|]. destruct (j =? SIZE_MAX); [done|]. simpl.
  by apply (ix_ground (Z.of_nat (length (A m)))).
Qed.

(** A resistor between two different nodes adds its conductance to the two
    diagonal entries of its nodes and subtracts it from the two entries that
    connect them, and changes no other entry; a pin on the ground node adds
    nothing to the row and column of the ground, which are not in the matrix. *)
Theorem resistor_stamps_conductance ns (c : resistance.t) m n0 n1 :
  pin_indices ns (resistance.pins_ c) = Some (Some [n0; n1]) -> Z.of_nat (length (A m)) <= SIZE_MAX ->
  node_ix (Z.of_nat (length (A m))) n0 -> node_ix (Z.of_nat (length (A m))) n1 -> n0 <> n1 ->
  exists m', resistance.iterate_dc_define ns c m = Some (true, m') /\
  forall i j, 0 <= i < SIZE_MAX -> 0 <= j < SIZE_MAX ->
  value m' (at_A i j) =
    (let v := value m (at_A i j) in
     let g := ddiv d_one (resistance.r c) in
     if decide (i = j /\ (i = n0 \/ i = n1)) then {| re := dadd (re v) g; im := im v |}
     else if decide ((i = n0 /\ j = n1) \/ (i = n1 /\ j = n0)) then {| re := dsub (re v) g; im := im v |}
     else v).
Proof.
  intros Ei Hl H0 H1 Hne. unfold resistance.iterate_dc_define, stamp. rewrite Ei.
  set (ss := resistance.stamps (ddiv d_one (resistance.r c)) [n0; n1]).
  assert (Hst : Forall stable ss) by (unfold ss, resistance.stamps; repeat case_match; stable_stmts).
  assert (Hin : forall s, s ∈ ss -> ref_in m (s.1 m)).
  { intros s Hs. unfold ss, resistance.stamps in Hs. in_stmts Hs; cbn [fst]; by apply row_in. }
  destruct (exec_defined ss m Hst Hin) as [m1 Ex]. rewrite Ex. exists m1. split; [done|]. intros i j Hi Hj.
  rewrite (exec_value ss m m1); [|done|intros s Hs; eapply ref_in_nonneg, Hin, Hs|simpl; lia|done].
  unfold ss, resistance.stamps. unfold node_ix in *. clear Ex Ei ss Hst Hin.
  destruct (n0 =? SIZE_MAX) eqn:E0, (n1 =? SIZE_MAX) eqn:E1; cbn [andb];
    rewrite ?Z.eqb_eq, ?Z.eqb_neq in *; repeat rewrite updates_cons; cbn [updates_at];
    rewrite ?hit_G by lia.
  all: entry_cases.
Qed.

Lemma hit_row_B m n k i j : node_ix (node_size m) n -> node_size m <= i -> hit (at_A i j) (fun m => B_ref m n k) m = false.
Proof. intros Hn Hi. by apply (hit_B_branch (node_size m)). Qed.

Lemma hit_row_C m n k j : 0 <= k -> 0 <= node_size m -> k + node_size m < SIZE_MAX -> node_ix (node_size m) n ->
  0 <= j < node_size m -> hit (at_A (k + node_size m) j) (fun m => C_ref m k n) m = bool_decide (j = n).
Proof.
  intros Hk Hz Hm [->|Hn] Hj.
  - rewrite bool_decide_eq_false_2 by lia. apply bool_decide_eq_false_2. unfold C_ref. by rewrite Z.eqb_refl, orb_true_r.
  - apply hit_branch_C; [lia|lia|]. apply u64_wrap_small. unfold SIZE_MAX in *. lia.
Qed.

(** After the stamp of a voltage-controlled voltage source, the row of its
    branch has 1, -1, -Mu and Mu in the columns of its pins S, T, P and Q, and
    the other columns of nodes as before; the entries are assigned and not
    added, so where pins share a node the last of the assignments remains. *)
Theorem vcvs_branch_row ns (c : VCVS.t) m nS nT nP nQ :
  let k := index (VCVS.branches c) in
  let mu := VCVS.m_mu c in
  pin_indices ns (VCVS.pins_ c) = Some (Some [nS; nT; nP; nQ]) ->
  0 <= k < branch_size m -> 0 <= node_size m ->
  node_size m + branch_size m <= SIZE_MAX -> Z.of_nat (length (A m)) = node_size m + branch_size m ->
  Forall (node_ix (node_size m)) [nS; nT; nP; nQ] ->
  exists m', VCVS.iterate_dc_define ns c m = Some (true, m') /\
  forall j, 0 <= j < node_size m ->
  value m' (at_A (k + node_size m) j) =
    if decide (j = nQ) then c_of mu
    else if decide (j = nP) then c_of (dneg mu)
    else if decide (j = nT) then c_of (dneg d_one)
    else if decide (j = nS) then c_of d_one
    else value m (at_A (k + node_size m) j).
Proof.
  intros k mu Ei Hk Hn Hm Hl Hix. unfold VCVS.iterate_dc_define, stamp. rewrite Ei. fold k mu.
  rewrite !Forall_cons in Hix. destruct Hix as (HS & HT & HP & HQ & _). unfold VCVS.stamps.
  match goal with |- context [exec m ?l] => set (ss := l) end.
  assert (Hst : Forall stable ss) by (unfold ss; stable_stmts).
  assert (Hin : forall s, s ∈ ss -> ref_in m (s.1 m)).
  { intros s Hs. unfold ss in Hs. in_stmts Hs; cbn [fst];
      (eapply (range_B (node_size m) (branch_size m)) || eapply (range_C (node_size m) (branch_size m))); done || lia. }
  destruct (exec_defined ss m Hst Hin) as [m1 Ex]. rewrite Ex. exists m1. split; [done|]. intros j Hj.
  rewrite (exec_value ss m m1); [|done|intros s Hs; eapply ref_in_nonneg, Hin, Hs|simpl; lia|done].
  clear Ex Hin Hst. unfold ss. repeat rewrite updates_cons. cbn [updates_at].
  rewrite !hit_row_B by (done || lia). rewrite !hit_row_C by (done || lia). cbn [app].
  entry_cases.
Qed.

(** ** A concrete circuit

    A source of five volts drives, through a resistor, a node with a second
    resistor to the ground and a digital output. *)
Definition example_node (i : Z) : node_t :=
  {| node_information := an c_zero; pins := []; num_of_analog_node := 2; node_index := i |}.
Definition example_pin (n : node_ptr) : pin := {| name := ""%string; nodes := Some n; model := None |}.
Definition example_resistor (a b : node_ptr) : resistance.t :=
  {| resistance.pins_ := [example_pin a; example_pin b]; resistance.r := of_decimal 10 0 |}.
Definition example_source : VDC.t :=
  {| VDC.V := d_five; VDC.pins_ := [example_pin 1; example_pin 0]; VDC.branchs := {| index := 1; current := c_zero |} |}.
Definition example_nodes : gmap node_ptr node_t :=
  <[0%N := example_node SIZE_MAX]> (<[1%N := example_node 0]> (<[2%N := example_node 1]> ∅)).
Definition example_setup : setup :=
  {| su_nodes := example_nodes;
     su_models := [l_VDC example_source; l_resistance (example_resistor 1 2); l_resistance (example_resistor 2 0)];
     su_at := DC; su_out := [need d_five 2]; su_node_counter := 2; su_branch_counter := 2; su_tr_duration := d_zero;
     su_omega := d_zero; env_r_open := d_1e12; env_g_min := of_decimal 1 12 |}.
Definition example_matrix : MNA := MNA_resize MNA_default 2 2.
Definition example_vcvs : VCVS.t :=
  {| VCVS.m_mu := d_two; VCVS.pins_ := [example_pin 1; example_pin 0; example_pin 1; example_pin 2];
     VCVS.branches := {| index := 0; current := c_zero |} |}.

Lemma example_lookup n nd : example_nodes !! n = Some nd ->
  nd = example_node SIZE_MAX \/ nd = example_node 0 \/ nd = example_node 1.
Proof.
  unfold example_nodes. rewrite !lookup_insert_Some, lookup_empty. intros [[? <-]|[? [[? <-]|[? [[? <-]|[? ?]]]]]]; auto. done.
Qed.

Lemma example_ok : setup_ok example_setup.
Proof.
  split; [done|done|done| | | | |done].
  - intros n nd H. apply example_lookup in H as [->|[->| ->]]; [by left|right..]; cbn; lia.
  - intros d p n Hd Hp Hn. unfold example_setup in Hd. cbn [su_models] in Hd.
    rewrite !elem_of_cons, elem_of_nil in Hd.
    destruct Hd as [->|[->|[->|[]]]]; cbn in Hp; rewrite !elem_of_cons, elem_of_nil in Hp;
      destruct Hp as [->|[->|[]]]; cbn in Hn; injection Hn as <-; vm_compute; by eexists.
  - intros d k Hd Hk. unfold example_setup in Hd. cbn [su_models] in Hd.
    rewrite !elem_of_cons, elem_of_nil in Hd.
    destruct Hd as [->|[->|[->|[]]]]; cbn in Hk; rewrite ?elem_of_cons, elem_of_nil in Hk;
      [destruct Hk as [->|[]]; cbn; lia|done|done].
  - intros o Ho. unfold example_setup in Ho. cbn [su_out] in Ho. rewrite elem_of_cons, elem_of_nil in Ho.
    destruct Ho as [->|[]]. exists 2%N. split; [done|]. vm_compute. by eexists.
Qed.

Lemma example_unsigned : unsigned example_nodes.
Proof. intros n nd H. apply example_lookup in H as [->|[->| ->]]; cbn; unfold SIZE_MAX; lia. Qed.

(** The assembly of the example, with and without reuse of the pattern. *)
Lemma reuse_assembles_same_witness :
  unsigned (su_nodes example_setup) /\ can_reuse_mna true true example_setup example_matrix = true /\
  match assemble id true true example_setup example_matrix, assemble id false false example_setup example_matrix with
  | done_ok a1, done_ok a2 => mna_equiv a1 a2
  | done_ok _, _ | _, done_ok _ => False
  | _, _ => True
  end.
Proof.
  split; [exact example_unsigned|]. split; [reflexivity|].
  exact (reuse_assembles_same id example_setup example_matrix true false true false example_unsigned).
Defined.

Lemma assembly_in_bounds_witness :
  setup_ok example_setup /\
  exists a, assemble id true false example_setup MNA_default = done_ok a /\ node_size a = 2 /\ branch_size a = 2 /\
    Z.of_nat (length (A a)) = 4.
Proof. split; [exact example_ok|]. exact (assembly_in_bounds id example_setup MNA_default true false example_ok). Defined.

Lemma reciprocal_matrix_symmetric_witness :
  Forall reciprocal (su_models example_setup) /\
  exists a, assemble id true false example_setup MNA_default = done_ok a /\
    forall i j, 0 <= i -> 0 <= j -> value a (at_A i j) = value a (at_A j i).
Proof.
  assert (H : Forall reciprocal (su_models example_setup)) by (repeat constructor).
  split; [exact H|]. exact (reciprocal_matrix_symmetric id example_setup MNA_default true false example_ok H).
Defined.

(** The two diagonal entries and the coupling of the resistor of 10 ohms. *)
Lemma resistor_stamps_conductance_witness :
  pin_indices example_nodes (resistance.pins_ (example_resistor 1 2)) = Some (Some [0; 1]) /\
  exists m', resistance.iterate_dc_define example_nodes (example_resistor 1 2) example_matrix = Some (true, m') /\
    value m' (at_A 0 0) = c_of (of_decimal 1 1) /\ value m' (at_A 0 1) = c_of (dneg (of_decimal 1 1)).
Proof.
  split; [reflexivity|].
  destruct (resistor_stamps_conductance example_nodes (example_resistor 1 2) example_matrix 0 1) as (m' & E & H);
    [reflexivity|done|by right|by right|done|].
  exists m'. split; [exact E|]. split; (rewrite H; [vm_compute; reflexivity|unfold SIZE_MAX; lia..]).
Defined.

(** The pins S and P of the source share the first node: its entry is -Mu. *)
Lemma vcvs_branch_row_witness :
  pin_indices example_nodes (VCVS.pins_ example_vcvs) = Some (Some [0; SIZE_MAX; 0; 1]) /\
  exists m', VCVS.iterate_dc_define example_nodes example_vcvs example_matrix = Some (true, m') /\
    value m' (at_A 2 0) = c_of (dneg d_two) /\ value m' (at_A 2 1) = c_of d_two.
Proof.
  split; [reflexivity|].
  destruct (vcvs_branch_row example_nodes example_vcvs example_matrix 0 SIZE_MAX 0 1) as (m' & E & H);
    [reflexivity|cbn; lia|cbn; lia|done|reflexivity| |].
  { rewrite !Forall_cons. repeat split; [right; cbn; lia|by left|right; cbn; lia..|by apply Forall_nil]. }
  exists m'. split; [exact E|]. split; [apply (H 0)|apply (H 1)]; cbn; lia.
Defined.
