(* ===== verification/VData.v ===== *)
(** * VData: the compiled form of a Verilog module

    The data of [verilog/digital/digital.h] that the compiler produces and the
    simulator runs: the four-state operators on bits, the arena of expression
    nodes, the arena of statements, modules and instances.  Indices are
    [std::size_t] with [SIZE_MAX] for "none"; an access outside a vector with
    [index_unchecked] is undefined, written [None]. *)

From Stdlib Require Import ZArith Lia.
From stdpp Require Import base list gmap strings countable.
From S2P Require Import Prelude Logic4.

Open Scope Z_scope.

(** ** Vectors indexed by machine integers *)

(** [v[i]]; the bound is tested first, so that evaluation is fast. *)
Definition vat {A} (l : list A) (i : Z) : option A :=
  if (0 <=? i) && (i <? Z.of_nat (length l)) then l !! Z.to_nat i else None.
Definition vset {A} (l : list A) (i : Z) (x : A) : list A :=
  if (0 <=? i) && (i <? Z.of_nat (length l)) then <[Z.to_nat i := x]> l else l.
Definition vsize {A} (l : list A) : Z := Z.of_nat (length l).
(** [v.resize(n, x)] when it only grows. *)
Definition vgrow {A} (l : list A) (n : Z) (x : A) : list A := l ++ replicate (Z.to_nat n - length l) x.

Lemma vat_Some {A} (l : list A) i x : vat l i = Some x <-> 0 <= i < vsize l /\ l !! Z.to_nat i = Some x.
Proof.
  unfold vat, vsize. destruct (0 <=? i) eqn:E1, (i <? _) eqn:E2; simpl; (split; [intros H|intros [??]]); try done; try lia.
  split; [lia|done].
Qed.

Lemma vat_lookup {A} (l : list A) i : 0 <= i < vsize l -> vat l i = l !! Z.to_nat i.
Proof.
  unfold vat, vsize. intros [H1 H2]. by rewrite (proj2 (Z.leb_le _ _) H1), (proj2 (Z.ltb_lt _ _) H2).
Qed.

Lemma vat_is_Some {A} (l : list A) i : is_Some (vat l i) <-> 0 <= i < vsize l.
Proof.
  split.
  - intros [x H]. by apply vat_Some in H as [? _].
  - intros H. rewrite vat_lookup by done. apply lookup_lt_is_Some_2. unfold vsize in H. lia.
Qed.

Lemma vat_None {A} (l : list A) i : vat l i = None <-> ~ 0 <= i < vsize l.
Proof. rewrite <- vat_is_Some, <- not_eq_None_Some. destruct (vat l i); naive_solver. Qed.

Lemma vat_app_l {A} (l l' : list A) i : 0 <= i < vsize l -> vat (l ++ l') i = vat l i.
Proof.
  intros H. unfold vsize in *. rewrite !vat_lookup by (unfold vsize; rewrite ?length_app; lia).
  apply lookup_app_l. lia.
Qed.

Lemma vat_app_r {A} (l : list A) x : vat (l ++ [x]) (vsize l) = Some x.
Proof.
  apply vat_Some. unfold vsize. rewrite length_app. simpl. split; [lia|]. rewrite Nat2Z.id. by apply list_lookup_middle.
Qed.

Lemma vsize_vset {A} (l : list A) i x : vsize (vset l i x) = vsize l.
Proof. unfold vset, vsize. destruct (_ && _); [by rewrite length_insert|done]. Qed.
Lemma length_vset {A} (l : list A) i x : length (vset l i x) = length l.
Proof. unfold vset. destruct (_ && _); [by rewrite length_insert|done]. Qed.
Lemma vsize_nonneg {A} (l : list A) : 0 <= vsize l.
Proof. unfold vsize. lia. Qed.
Lemma vsize_app {A} (l l' : list A) : vsize (l ++ l') = vsize l + vsize l'.
Proof. unfold vsize. rewrite length_app. lia. Qed.
Lemma vsize_vgrow {A} (l : list A) n x : vsize l <= n -> vsize (vgrow l n x) = n.
Proof. unfold vsize, vgrow. rewrite length_app, length_replicate. lia. Qed.

Lemma vat_vset {A} (l : list A) i x : 0 <= i < vsize l -> vat (vset l i x) i = Some x.
Proof.
  intros H. apply vat_Some. rewrite vsize_vset. split; [done|]. unfold vset, vsize in *.
  rewrite (proj2 (Z.leb_le _ _)), (proj2 (Z.ltb_lt _ _)) by lia. simpl. apply list_lookup_insert_eq. lia.
Qed.

Lemma vat_vset_ne {A} (l : list A) i j x : i <> j -> vat (vset l i x) j = vat l j.
Proof.
  intros H. unfold vset. destruct ((0 <=? i) && (i <? Z.of_nat (length l))) eqn:E; [|done].
  apply andb_true_iff in E as [E1 E2]. rewrite Z.leb_le in E1. unfold vat. rewrite length_insert.
  destruct ((0 <=? j) && _) eqn:E3; [|done]. apply andb_true_iff in E3 as [E3 _]. rewrite Z.leb_le in E3.
  apply list_lookup_insert_ne. lia.
Qed.

Lemma vset_same {A} (l : list A) i x : vat l i = Some x -> vset l i x = l.
Proof.
  intros H. apply vat_Some in H as [H1 H2]. unfold vset, vsize in *.
  rewrite (proj2 (Z.leb_le _ _)), (proj2 (Z.ltb_lt _ _)) by lia. simpl. by apply list_insert_id.
Qed.

Lemma vat_vgrow {A} (l : list A) n x i : 0 <= i < vsize l -> vat (vgrow l n x) i = vat l i.
Proof. apply vat_app_l. Qed.

Lemma vat_vgrow_new {A} (l : list A) n x i y : vat (vgrow l n x) i = Some y -> vat l i = Some y \/ (vsize l <= i /\ y = x).
Proof.
  intros H. destruct (decide (i < vsize l)) as [Hi|Hi].
  - left. apply vat_Some in H as [H1 H2]. rewrite <- (vat_vgrow l n x) by lia. by apply vat_Some.
  - right. split; [lia|]. apply vat_Some in H as [[H0 _] H2]. unfold vgrow, vsize in *.
    rewrite lookup_app_r in H2 by lia. by apply lookup_replicate in H2 as [-> _].
Qed.

Lemma rev_replicate {A} n (x : A) : rev (replicate n x) = replicate n x.
Proof. rewrite rev_alt. change (reverse (replicate n x) = replicate n x). apply reverse_replicate. Qed.

(** ** Four-state operators of the compiled code *)

Abbreviation logic_t := digital_node_statement_t.

Definition normalize_z_to_x (v : logic_t) : logic_t := if dns_eqb v sZ then sX else v.
Definition is_unknown (v : logic_t) : bool := dns_eqb (normalize_z_to_x v) sX.

Definition logic_not (a : logic_t) : logic_t :=
  match normalize_z_to_x a with sL => sH | sH => sL | _ => sX end.
Definition logic_and (a b : logic_t) : logic_t :=
  let a := normalize_z_to_x a in let b := normalize_z_to_x b in
  if dns_eqb a sL || dns_eqb b sL then sL
  else if is_unknown a || is_unknown b then sX else sH.
Definition logic_or (a b : logic_t) : logic_t :=
  let a := normalize_z_to_x a in let b := normalize_z_to_x b in
  if dns_eqb a sH || dns_eqb b sH then sH
  else if is_unknown a || is_unknown b then sX else sL.
Definition logic_xor (a b : logic_t) : logic_t :=
  let a := normalize_z_to_x a in let b := normalize_z_to_x b in
  if is_unknown a || is_unknown b then sX else dns_of_bool (xorb (dns_to_bool a) (dns_to_bool b)).

(** ** Expressions *)

Inductive expr_kind : Set :=
| ek_literal | ek_signal | ek_is_unknown | ek_unary_not | ek_binary_and | ek_binary_or | ek_binary_xor
| ek_binary_eq | ek_binary_neq | ek_binary_case_eq.

Record expr_node : Set := mk_node_e {
  en_kind : expr_kind;
  en_literal : logic_t;
  en_a : Z;
  en_b : Z;
  en_signal : Z
}.

#[export] Instance expr_kind_eq_dec : EqDecision expr_kind.
Proof. solve_decision. Defined.
#[export] Instance expr_node_eq_dec : EqDecision expr_node.
Proof. solve_decision. Defined.

(** The members not given by an initializer. *)
Definition node_literal (v : logic_t) : expr_node :=
  {| en_kind := ek_literal; en_literal := v; en_a := SIZE_MAX; en_b := SIZE_MAX; en_signal := SIZE_MAX |}.
Definition node_signal (s : Z) : expr_node :=
  {| en_kind := ek_signal; en_literal := sX; en_a := SIZE_MAX; en_b := SIZE_MAX; en_signal := s |}.
Definition node_unary (k : expr_kind) (a : Z) : expr_node :=
  {| en_kind := k; en_literal := sX; en_a := a; en_b := SIZE_MAX; en_signal := SIZE_MAX |}.
Definition node_binary (k : expr_kind) (a b : Z) : expr_node :=
  {| en_kind := k; en_literal := sX; en_a := a; en_b := b; en_signal := SIZE_MAX |}.

(** [expr_node_key] has the members of [expr_node]; the table of interned
    nodes is a map whose keys are the nodes. *)
Definition kind_num (k : expr_kind) : nat :=
  match k with
  | ek_literal => 0 | ek_signal => 1 | ek_is_unknown => 2 | ek_unary_not => 3 | ek_binary_and => 4
  | ek_binary_or => 5 | ek_binary_xor => 6 | ek_binary_eq => 7 | ek_binary_neq => 8 | ek_binary_case_eq => 9
  end.
Definition num_kind (n : nat) : expr_kind :=
  match n with
  | 0 => ek_literal | 1 => ek_signal | 2 => ek_is_unknown | 3 => ek_unary_not | 4 => ek_binary_and
  | 5 => ek_binary_or | 6 => ek_binary_xor | 7 => ek_binary_eq | 8 => ek_binary_neq | _ => ek_binary_case_eq
  end%nat.
Definition num_logic (n : nat) : logic_t := match n with 0 => sL | 1 => sH | 2 => sX | _ => sZ end%nat.

#[export] Instance expr_node_countable : Countable expr_node.
Proof.
  refine (inj_countable'
    (fun n => (kind_num (en_kind n), Z.to_nat (dns_value (en_literal n)), en_a n, en_b n, en_signal n))
    (fun '(k, l, a, b, s) => {| en_kind := num_kind k; en_literal := num_logic l; en_a := a; en_b := b; en_signal := s |}) _).
  intros [[] [] a b s]; reflexivity.
Defined.

(** ** Statements *)

Record continuous_assign : Type := mk_assign {
  ca_lhs_signal : Z;
  ca_expr_root : Z;
  ca_guard_root : Z
}.

Record case_item : Type := mk_case_item {
  ci_is_default : bool;
  ci_match_roots : list Z;
  ci_stmts : list Z
}.

Inductive stmt_kind : Set :=
| sk_empty | sk_block | sk_subprogram_block | sk_blocking_assign | sk_blocking_assign_vec | sk_nonblocking_assign
| sk_nonblocking_assign_vec | sk_if_stmt | sk_case_stmt | sk_for_stmt | sk_while_stmt | sk_do_while_stmt
| sk_return_stmt | sk_break_stmt | sk_continue_stmt.
Inductive case_kind : Set := ck_normal | ck_casez | ck_casex.

Record stmt_node : Type := mk_stmt {
  sn_k : stmt_kind;
  sn_ck : case_kind;
  sn_delay_ticks : Z;
  sn_lhs_signal : Z;
  sn_expr_root : Z;
  sn_lhs_signals : list Z;
  sn_rhs_roots : list Z;
  sn_stmts : list Z;
  sn_else_stmts : list Z;
  sn_case_expr_roots : list Z;
  sn_case_items : list case_item;
  sn_init_stmt : Z;
  sn_step_stmt : Z;
  sn_body_stmt : Z
}.

Definition stmt_default : stmt_node :=
  {| sn_k := sk_empty; sn_ck := ck_normal; sn_delay_ticks := 0; sn_lhs_signal := SIZE_MAX; sn_expr_root := SIZE_MAX;
     sn_lhs_signals := []; sn_rhs_roots := []; sn_stmts := []; sn_else_stmts := []; sn_case_expr_roots := [];
     sn_case_items := []; sn_init_stmt := SIZE_MAX; sn_step_stmt := SIZE_MAX; sn_body_stmt := SIZE_MAX |}.

Inductive event_kind : Set := ev_level | ev_posedge | ev_negedge.
Record sensitivity_event : Type := mk_event { se_k : event_kind; se_signal : Z }.

Record always_ff : Type := mk_ff {
  ff_events : list sensitivity_event;
  ff_stmt_nodes : list stmt_node;
  ff_roots : list Z
}.
Record always_comb : Type := mk_comb {
  ac_is_star : bool;
  ac_sens_signals : list Z;
  ac_stmt_nodes : list stmt_node;
  ac_roots : list Z
}.
Record initial_block : Type := mk_initial { ib_stmt_nodes : list stmt_node; ib_roots : list Z }.

(** ** Ports, connections and modules *)

Inductive port_dir : Set := pd_unknown | pd_input | pd_output | pd_inout.
#[export] Instance port_dir_eq_dec : EqDecision port_dir.
Proof. solve_decision. Defined.

Record port_decl : Type := mk_port_decl {
  pdl_dir : port_dir;
  pdl_has_range : bool;
  pdl_msb : Z;
  pdl_lsb : Z;
  pdl_is_reg : bool;
  pdl_is_signed : bool
}.
Definition port_decl_default : port_decl :=
  {| pdl_dir := pd_unknown; pdl_has_range := false; pdl_msb := 0; pdl_lsb := 0; pdl_is_reg := false; pdl_is_signed := false |}.

(** [bits] is in the order of the declaration: the first is the [msb]. *)
Record vector_desc : Type := mk_vector_desc {
  vd_msb : Z;
  vd_lsb : Z;
  vd_is_reg : bool;
  vd_is_signed : bool;
  vd_bits : list Z
}.

Record connection_bit : Type := mk_connection_bit { cb_is_literal : bool; cb_signal : Z; cb_literal : logic_t }.

(** The members that [connection_kind] makes meaningful are the arguments of
    its constructor. *)
Inductive connection_kind : Type :=
| cn_unconnected
| cn_scalar (scalar_signal : Z)
| cn_vector (vector_base : string)
| cn_literal (literal : logic_t)
| cn_literal_vector (literal_bits : list logic_t)
| cn_bit_list (bit_list : list connection_bit)
| cn_expr (expr_roots : list Z).
Record connection_ref : Type := mk_connection_ref { cr_kind : connection_kind; cr_is_signed : bool }.
Definition connection_ref_default : connection_ref := {| cr_kind := cn_unconnected; cr_is_signed := false |}.

Record instance_connection : Type := mk_ic { ic_port_name : string; ic_ref : connection_ref }.

(** [param_named_values] is in the order of its keys, the order in which the
    tree iterates. *)
Record instance : Type := mk_instance {
  in_module_name : string;
  in_instance_name : string;
  in_param_positional_values : list Z;
  in_param_named_values : list (string * Z);
  in_connections : list instance_connection
}.

Record port : Type := mk_port { po_name : string; po_dir : port_dir; po_signal : Z }.

(** [struct compiled_module], without the members that only the parser uses
    ([expr_intern], [functions], [tasks]). *)
Record compiled_module : Type := mk_module {
  cm_name : string;
  cm_ports : list port;
  cm_port_order : list string;
  cm_port_decls : gmap string port_decl;
  cm_vectors : gmap string vector_desc;
  cm_signal_names : list string;
  cm_signal_is_reg : list bool;
  cm_signal_is_signed : list bool;
  cm_signal_is_const : list bool;
  cm_signal_is_const_foldable : list bool;
  cm_signal_const_value : list logic_t;
  cm_signal_index : gmap string Z;
  cm_param_order : list string;
  cm_param_default_values : gmap string Z;
  cm_param_is_local : gmap string bool;
  cm_expr_nodes : list expr_node;
  cm_assigns : list continuous_assign;
  cm_always_ffs : list always_ff;
  cm_always_combs : list always_comb;
  cm_initials : list initial_block;
  cm_instances : list instance;
  cm_inline_counter : Z
}.

Definition module_default : compiled_module :=
  {| cm_name := ""; cm_ports := []; cm_port_order := []; cm_port_decls := ∅; cm_vectors := ∅; cm_signal_names := [];
     cm_signal_is_reg := []; cm_signal_is_signed := []; cm_signal_is_const := []; cm_signal_is_const_foldable := [];
     cm_signal_const_value := []; cm_signal_index := ∅; cm_param_order := []; cm_param_default_values := ∅; cm_param_is_local := ∅;
     cm_expr_nodes := []; cm_assigns := []; cm_always_ffs := []; cm_always_combs := []; cm_initials := [];
     cm_instances := []; cm_inline_counter := 0 |}.
