(* ===== verification/VExpr.v ===== *)
(** * VExpr: evaluation of compiled Verilog expressions

    [eval_expr] and [eval_expr_cached] of [verilog/digital/digital.h], with the
    state of a running module.  An arena of nodes is a straight-line program:
    [node_values] runs it once from the first node to the last, and is the
    reference both evaluators are proved against. *)

From Stdlib Require Import ZArith Lia.
From stdpp Require Import base list gmap strings.
From S2P Require Import Prelude Logic4 VData.

Open Scope Z_scope.

(** ** The operation of a node *)

Definition op_is_unknown (a : logic_t) : logic_t := if is_unknown (normalize_z_to_x a) then sH else sL.
Definition op_eq (a b : logic_t) : logic_t :=
  let a := normalize_z_to_x a in let b := normalize_z_to_x b in
  if is_unknown a || is_unknown b then sX else if dns_eqb a b then sH else sL.
Definition op_neq (a b : logic_t) : logic_t :=
  let a := normalize_z_to_x a in let b := normalize_z_to_x b in
  if is_unknown a || is_unknown b then sX else if dns_eqb a b then sL else sH.
Definition op_case_eq (a b : logic_t) : logic_t := if dns_eqb a b then sH else sL.

Definition unary_op (k : expr_kind) : option (logic_t -> logic_t) :=
  match k with ek_is_unknown => Some op_is_unknown | ek_unary_not => Some logic_not | _ => None end.
Definition binary_op (k : expr_kind) : option (logic_t -> logic_t -> logic_t) :=
  match k with
  | ek_binary_and => Some logic_and
  | ek_binary_or => Some logic_or
  | ek_binary_xor => Some logic_xor
  | ek_binary_eq => Some op_eq
  | ek_binary_neq => Some op_neq
  | ek_binary_case_eq => Some op_case_eq
  | _ => None
  end.

(** [n.signal >= values.size() ? X : values[n.signal]]. *)
Definition read_signal (values : list logic_t) (s : Z) : logic_t := default sX (vat values s).

(** ** The recursive evaluator

    Each call descends one edge; [None] is an access outside the arena, or
    the end of the fuel. *)
Fixpoint eval_expr (fuel : nat) (nodes : list expr_node) (root : Z) (values : list logic_t) : option logic_t :=
  match fuel with
  | O => None
  | S fuel' =>
      match vat nodes root with
      | None => None
      | Some n =>
          match en_kind n with
          | ek_literal => Some (en_literal n)
          | ek_signal => Some (read_signal values (en_signal n))
          | k =>
              match unary_op k with
              | Some f => match eval_expr fuel' nodes (en_a n) values with Some a => Some (f a) | None => None end
              | None =>
                  match binary_op k with
                  | Some f =>
                      match eval_expr fuel' nodes (en_a n) values with
                      | Some a => match eval_expr fuel' nodes (en_b n) values with Some b => Some (f a b) | None => None end
                      | None => None
                      end
                  | None => Some sX
                  end
              end
          end
      end
  end.

(** ** The state of a module *)

Record scheduled_event : Type := mk_scheduled {
  sv_due_tick : Z;
  sv_nonblocking : bool;
  sv_lhs_signal : Z;
  sv_expr_root : Z;
  sv_is_vector : bool;
  sv_lhs_signals : list Z;
  sv_expr_roots : list Z
}.

Record module_state : Type := mk_mstate {
  ms_mod : option compiled_module;
  ms_values : list logic_t;
  ms_prev_values : list logic_t;
  ms_comb_prev_values : list logic_t;
  ms_comb_initialized : bool;
  ms_initial_ran : bool;
  ms_initial_base_tick : Z;
  ms_events : list scheduled_event;
  ms_nba_queue : list (Z * logic_t);
  ms_next_net_values : list logic_t;
  ms_change_mark : list Z;
  ms_changed_signals : list Z;
  ms_change_token : Z;
  ms_expr_eval_cache : list logic_t;
  ms_expr_eval_mark : list Z;
  ms_expr_eval_token : Z
}.

Definition module_state_default : module_state :=
  {| ms_mod := None; ms_values := []; ms_prev_values := []; ms_comb_prev_values := []; ms_comb_initialized := false;
     ms_initial_ran := false; ms_initial_base_tick := 0; ms_events := []; ms_nba_queue := []; ms_next_net_values := [];
     ms_change_mark := []; ms_changed_signals := []; ms_change_token := 1; ms_expr_eval_cache := [];
     ms_expr_eval_mark := []; ms_expr_eval_token := 1 |}.

(** The loop of [init_state] over the constant signals: [i] stays below the
    sizes of the three vectors. *)
Fixpoint init_consts (is_const : list bool) (value vs : list logic_t) : list logic_t :=
  match is_const, value, vs with
  | c :: cs, v :: vs', x :: xs => (if c then v else x) :: init_consts cs vs' xs
  | _, _, _ => vs
  end.

Definition init_state (m : compiled_module) : module_state :=
  let x := replicate (length (cm_signal_names m)) sX in
  let v := init_consts (cm_signal_is_const m) (cm_signal_const_value m) x in
  {| ms_mod := Some m; ms_values := v; ms_prev_values := v; ms_comb_prev_values := v; ms_comb_initialized := false;
     ms_initial_ran := false; ms_initial_base_tick := 0; ms_events := []; ms_nba_queue := []; ms_next_net_values := [];
     ms_change_mark := []; ms_changed_signals := []; ms_change_token := 1; ms_expr_eval_cache := [];
     ms_expr_eval_mark := []; ms_expr_eval_token := 1 |}.

Lemma init_consts_length is_const vals vs : length (init_consts is_const vals vs) = length vs.
Proof. revert vals vs. induction is_const as [|c cs IH]; intros [|v vals] [|x vs]; simpl; try done. by rewrite IH. Qed.

(** ** The evaluator with a cache *)

Definition memo : Type := list logic_t * list Z.

(** The lambda [eval]: [expr_eval_mark[r] == token] says that the cache has
    the value of [r].  The arguments of a binary operator are evaluated from
    left to right. *)
Fixpoint eval_memo (fuel : nat) (nodes : list expr_node) (values : list logic_t) (token : Z) (r : Z) (c : memo)
    : option (logic_t * memo) :=
  match fuel with
  | O => None
  | S fuel' =>
      if vsize nodes <=? r then Some (sX, c)
      else
        match vat nodes r, vat c.2 r, vat c.1 r with
        | Some n, Some mk, Some cached =>
            if mk =? token then Some (cached, c)
            else
              let c1 : memo := (c.1, vset c.2 r token) in
              let res :=
                match en_kind n with
                | ek_literal => Some (en_literal n, c1)
                | ek_signal => Some (read_signal values (en_signal n), c1)
                | k =>
                    match unary_op k with
                    | Some f =>
                        match eval_memo fuel' nodes values token (en_a n) c1 with
                        | Some (a, c2) => Some (f a, c2)
                        | None => None
                        end
                    | None =>
                        match binary_op k with
                        | Some f =>
                            match eval_memo fuel' nodes values token (en_a n) c1 with
                            | Some (a, c2) =>
                                match eval_memo fuel' nodes values token (en_b n) c2 with
                                | Some (b, c3) => Some (f a b, c3)
                                | None => None
                                end
                            | None => None
                            end
                        | None => Some (sX, c1)
                        end
                    end
                end in
              match res with
              | Some (v, c2) => Some (v, (vset c2.1 r v, c2.2))
              | None => None
              end
        | _, _, _ => None
        end
  end.

Definition u32_wrap (z : Z) : Z := z mod 2 ^ 32.

Definition set_memo (st : module_state) (c : memo) (token : Z) : module_state :=
  {| ms_mod := ms_mod st; ms_values := ms_values st; ms_prev_values := ms_prev_values st;
     ms_comb_prev_values := ms_comb_prev_values st; ms_comb_initialized := ms_comb_initialized st;
     ms_initial_ran := ms_initial_ran st; ms_initial_base_tick := ms_initial_base_tick st; ms_events := ms_events st;
     ms_nba_queue := ms_nba_queue st; ms_next_net_values := ms_next_net_values st; ms_change_mark := ms_change_mark st;
     ms_changed_signals := ms_changed_signals st; ms_change_token := ms_change_token st;
     ms_expr_eval_cache := c.1; ms_expr_eval_mark := c.2; ms_expr_eval_token := token |}.

(** The growth of the two vectors and the next token. *)
Definition memo_start (n_nodes : Z) (st : module_state) : memo * Z :=
  let c : memo :=
    if vsize (ms_expr_eval_cache st) <? n_nodes
    then (vgrow (ms_expr_eval_cache st) n_nodes sL, vgrow (ms_expr_eval_mark st) n_nodes 0)
    else (ms_expr_eval_cache st, ms_expr_eval_mark st) in
  let token := u32_wrap (ms_expr_eval_token st + 1) in
  if token =? 0 then ((c.1, map (fun _ => 0) c.2), 1) else (c, token).

Definition eval_expr_cached (m : compiled_module) (root : Z) (st : module_state) : option (logic_t * module_state) :=
  let nodes := cm_expr_nodes m in
  if vsize nodes <=? root then Some (sX, st)
  else
    let '(c, token) := memo_start (vsize nodes) st in
    match eval_memo (S (length nodes)) nodes (ms_values st) token root c with
    | Some (v, c') => Some (v, set_memo st c' token)
    | None => None
    end.

(** ** Arenas as straight-line programs *)

Definition node_value (values : list logic_t) (look : Z -> logic_t) (n : expr_node) : logic_t :=
  match en_kind n with
  | ek_literal => en_literal n
  | ek_signal => read_signal values (en_signal n)
  | k =>
      match unary_op k with
      | Some f => f (look (en_a n))
      | None => match binary_op k with Some f => f (look (en_a n)) (look (en_b n)) | None => sX end
      end
  end.

Definition look_in (l : list logic_t) (r : Z) : logic_t := default sX (vat l r).

Definition node_values (nodes : list expr_node) (values : list logic_t) : list logic_t :=
  fold_left (fun acc n => acc ++ [node_value values (look_in acc) n]) nodes [].

(** The value of a root; a root outside the arena is unknown. *)
Definition den (nodes : list expr_node) (values : list logic_t) (r : Z) : logic_t := look_in (node_values nodes values) r.

(** The operands of a node are earlier nodes, or none. *)
Definition operand_ok (i c : Z) : Prop := 0 <= c < i \/ c = SIZE_MAX.
Definition node_ok (i : Z) (n : expr_node) : Prop :=
  (is_Some (unary_op (en_kind n)) \/ is_Some (binary_op (en_kind n)) -> operand_ok i (en_a n)) /\
  (is_Some (binary_op (en_kind n)) -> operand_ok i (en_b n)).
Definition arena_ok (nodes : list expr_node) : Prop :=
  vsize nodes <= SIZE_MAX /\ forall i n, vat nodes i = Some n -> node_ok i n.

Lemma node_values_snoc nodes n values :
  node_values (nodes ++ [n]) values = node_values nodes values ++ [node_value values (den nodes values) n].
Proof. unfold node_values, den. by rewrite fold_left_app. Qed.

Lemma node_values_length nodes values : length (node_values nodes values) = length nodes.
Proof.
  induction nodes as [|n nodes IH] using rev_ind; [done|]. rewrite node_values_snoc, !length_app. simpl. lia.
Qed.

Lemma node_values_size nodes values : vsize (node_values nodes values) = vsize nodes.
Proof. unfold vsize. by rewrite node_values_length. Qed.

Lemma node_values_app nodes l values : exists vs, node_values (nodes ++ l) values = node_values nodes values ++ vs.
Proof.
  induction l as [|n l IH] using rev_ind; [exists []; by rewrite !app_nil_r|]. destruct IH as [vs E].
  rewrite (app_assoc nodes l), node_values_snoc, E. eexists. by rewrite <- app_assoc.
Qed.

Lemma den_app nodes l values r : 0 <= r < vsize nodes -> den (nodes ++ l) values r = den nodes values r.
Proof.
  intros Hr. unfold den, look_in. destruct (node_values_app nodes l values) as [vs ->].
  by rewrite vat_app_l by (by rewrite node_values_size).
Qed.

Lemma den_outside nodes values r : vsize nodes <= r -> den nodes values r = sX.
Proof.
  intros Hr. unfold den, look_in. rewrite (proj2 (vat_None _ _)); [done|]. rewrite node_values_size. lia.
Qed.

Lemma den_snoc nodes n values : den (nodes ++ [n]) values (vsize nodes) = node_value values (den nodes values) n.
Proof.
  unfold den at 1, look_in. rewrite node_values_snoc. rewrite <- (node_values_size nodes values) at 1. by rewrite vat_app_r.
Qed.

(** The equation of [den]: an operand is looked up in the whole arena. *)
Lemma node_value_ext values f g i n : node_ok i n -> (forall c, operand_ok i c -> f c = g c) ->
  node_value values f n = node_value values g n.
Proof.
  unfold node_ok, node_value. intros [Ha Hb] E. destruct (en_kind n); try done; cbn [unary_op binary_op] in *;
    (rewrite (E (en_a n)) by (apply Ha; eauto)); try done; by rewrite (E (en_b n)) by (apply Hb; eauto).
Qed.

Lemma den_eq nodes values i n : arena_ok nodes -> vat nodes i = Some n ->
  den nodes values i = node_value values (den nodes values) n.
Proof.
  intros [Hmax Hok] Hn. pose proof (Hok i n Hn) as Hni. apply vat_Some in Hn as [Hi Hn].
  pose proof (take_drop_middle nodes (Z.to_nat i) n Hn) as E.
  set (l := take (Z.to_nat i) nodes) in *. set (rest := drop (S (Z.to_nat i)) nodes) in *.
  assert (Hl : vsize l = i) by (unfold l, vsize in *; rewrite length_take; lia).
  assert (E2 : nodes = (l ++ [n]) ++ rest) by (by rewrite <- app_assoc).
  rewrite E2 at 1. rewrite den_app by (rewrite vsize_app; unfold vsize at 2; simpl; lia).
  rewrite <- Hl, den_snoc. apply (node_value_ext values _ _ i); [done|]. intros c [Hc| ->].
  - rewrite E2, <- app_assoc. rewrite den_app by lia. done.
  - rewrite !den_outside; lia || done.
Qed.

(** ** The recursive evaluator computes the reference *)

(** No operand is missing below [root]. *)
Definition operands_present (nodes : list expr_node) : Prop :=
  forall i n, vat nodes i = Some n ->
    (is_Some (unary_op (en_kind n)) \/ is_Some (binary_op (en_kind n)) -> 0 <= en_a n < i) /\
    (is_Some (binary_op (en_kind n)) -> 0 <= en_b n < i).

Lemma operands_present_ok nodes : vsize nodes <= SIZE_MAX -> operands_present nodes -> arena_ok nodes.
Proof.
  intros Hs Hp. split; [done|]. intros i n Hn. destruct (Hp i n Hn) as [Ha Hb]. split; intros H; left; eauto.
Qed.

Lemma eval_expr_den nodes values : vsize nodes <= SIZE_MAX -> operands_present nodes ->
  forall fuel r, 0 <= r < vsize nodes -> (Z.to_nat r < fuel)%nat -> eval_expr fuel nodes r values = Some (den nodes values r).
Proof.
  intros Hs Hp. induction fuel as [|fuel IH]; intros r Hr Hf; [lia|]. simpl.
  destruct (vat nodes r) as [n|] eqn:En; [|by apply vat_None in En].
  rewrite (den_eq nodes values r n) by eauto using operands_present_ok. destruct (Hp r n En) as [Ha Hb].
  unfold node_value. destruct (en_kind n); cbn [unary_op binary_op] in *; try done;
    (specialize (Ha ltac:(eauto)); rewrite (IH (en_a n)) by lia); try done;
    (specialize (Hb ltac:(eauto)); rewrite (IH (en_b n)) by lia); done.
Qed.
