(* ===== verification/VCache.v ===== *)
(** * VCache: the cached evaluator agrees with the reference

    [eval_expr_cached] returns on every arena, evaluates every node at most
    once, and on an arena whose operands come first it returns the value of
    the reference, whatever earlier evaluations left in the cache. *)

From Stdlib Require Import ZArith Lia.
From stdpp Require Import base list gmap strings.
From S2P Require Import Prelude Logic4 VData VExpr.

Open Scope Z_scope.

(** ** Sizes *)

Definition memo_sized (n : Z) (c : memo) : Prop := n <= vsize c.1 /\ n <= vsize c.2.

(** The two entries of a node. *)
Definition mark_at (c : memo) (i : Z) : Z := default 0 (vat c.2 i).
Definition cached_at (c : memo) (i : Z) : logic_t := default sX (vat c.1 i).

Lemma memo_lookup n c r : memo_sized n c -> 0 <= r < n ->
  vat c.2 r = Some (mark_at c r) /\ vat c.1 r = Some (cached_at c r).
Proof.
  intros [H1 H2] Hr. unfold mark_at, cached_at.
  destruct (proj2 (vat_is_Some c.2 r)) as [x ->]; [lia|]. destruct (proj2 (vat_is_Some c.1 r)) as [y ->]; [lia|]. done.
Qed.

Lemma memo_sized_set n c r t v : memo_sized n c -> memo_sized n (vset c.1 r v, vset c.2 r t).
Proof. unfold memo_sized. simpl. by rewrite !vsize_vset. Qed.

(** ** Termination on every graph

    Every call that recurs marks a node that was not marked, and no call
    removes a mark; so the depth is at most the number of nodes. *)
Definition unmarked (token : Z) (n : nat) (marks : list Z) : nat := length (filter (fun k => k <> token) (take n marks)).

Lemma filter_insert_mark token (l : list Z) i k : l !! i = Some k -> k <> token ->
  (S (length (filter (fun k => k <> token) (<[i := token]> l))) = length (filter (fun k => k <> token) l))%nat.
Proof.
  revert i. induction l as [|x l IH]; intros [|i] H Hk; try done.
  - simpl in H. injection H as ->. simpl. rewrite !filter_cons. rewrite decide_False by naive_solver.
    by rewrite decide_True.
  - simpl. rewrite !filter_cons. destruct (decide (x <> token)); simpl; by rewrite (IH i).
Qed.

Lemma unmarked_set token n marks r k : vat marks r = Some k -> k <> token -> r < Z.of_nat n ->
  (S (unmarked token n (vset marks r token)) = unmarked token n marks)%nat.
Proof.
  intros H Hk Hn. apply vat_Some in H as [Hr H]. unfold vset, vsize in *.
  rewrite (proj2 (Z.leb_le _ _)), (proj2 (Z.ltb_lt _ _)) by lia. simpl. unfold unmarked.
  rewrite take_insert_lt by lia. apply (filter_insert_mark token _ _ k); [|done]. by rewrite lookup_take_lt by lia.
Qed.

Definition operands_nonneg (nodes : list expr_node) : Prop := forall i n, vat nodes i = Some n -> 0 <= en_a n /\ 0 <= en_b n.

(** How an evaluation changes the vectors: sizes stay, a mark is kept or
    becomes the token. *)
Definition memo_step (token : Z) (c c' : memo) : Prop :=
  length c'.1 = length c.1 /\ length c'.2 = length c.2 /\
  forall i k, vat c'.2 i = Some k -> k = token \/ vat c.2 i = Some k.

Lemma memo_step_refl token c : memo_step token c c.
Proof. split_and!; auto. Qed.
Lemma memo_step_trans token c1 c2 c3 : memo_step token c1 c2 -> memo_step token c2 c3 -> memo_step token c1 c3.
Proof.
  intros (A1 & A2 & A3) (B1 & B2 & B3). split_and!; [congruence..|]. intros i k H. destruct (B3 i k H); auto.
Qed.
Lemma memo_step_mark token c r : memo_step token c (c.1, vset c.2 r token).
Proof.
  split_and!; [done|pose proof (vsize_vset c.2 r token); unfold vsize in *; simpl; lia|]. simpl. intros i k H.
  destruct (decide (r = i)) as [->|Hne]; [|rewrite vat_vset_ne in H by done; auto].
  destruct (decide (0 <= i < vsize c.2)) as [Hi|Hi]; [rewrite vat_vset in H by done; left; congruence|].
  apply vat_Some in H as [H _]. by rewrite vsize_vset in H.
Qed.
Lemma memo_step_store token c r v : memo_step token c (vset c.1 r v, c.2).
Proof. split_and!; [pose proof (vsize_vset c.1 r v); unfold vsize in *; simpl; lia|done|auto]. Qed.
Lemma memo_step_sized token n c c' : memo_step token c c' -> memo_sized n c -> memo_sized n c'.
Proof. intros (H1 & H2 & _) [S1 S2]. unfold memo_sized, vsize in *. lia. Qed.

Lemma eval_memo_total nodes values token : operands_nonneg nodes ->
  forall fuel r c, 0 <= r -> memo_sized (vsize nodes) c -> (unmarked token (length nodes) c.2 < fuel)%nat ->
  exists v c', eval_memo fuel nodes values token r c = Some (v, c') /\ memo_step token c c' /\
    (unmarked token (length nodes) c'.2 <= unmarked token (length nodes) c.2)%nat.
Proof.
  intros Hnn. induction fuel as [|fuel IH]; intros r c Hr Hc Hf; [lia|]. cbn [eval_memo].
  destruct (vsize nodes <=? r) eqn:Er; [eexists _, _; split_and!; [done|apply memo_step_refl|done]|]. apply Z.leb_gt in Er.
  destruct (memo_lookup _ c r Hc) as [Hm Hv]; [lia|]. rewrite Hm, Hv.
  destruct (proj2 (vat_is_Some nodes r)) as [n En]; [lia|]. rewrite En.
  destruct (mark_at c r =? token) eqn:Em; [eexists _, _; split_and!; [done|apply memo_step_refl|done]|]. apply Z.eqb_neq in Em.
  pose proof (Hnn r n En) as [Ha Hb].
  pose proof (unmarked_set token (length nodes) c.2 r _ Hm Em Er) as Hu.
  pose proof (memo_step_mark token c r) as Hs. set (c1 := (c.1, vset c.2 r token) : memo) in *.
  change (vset c.2 r token) with c1.2 in Hu. clearbody c1. pose proof (memo_step_sized _ _ _ _ Hs Hc) as Hc1.
  assert (Hdone : forall v c2, memo_step token c1 c2 -> (unmarked token (length nodes) c2.2 <= unmarked token (length nodes) c1.2)%nat ->
    exists v' c', Some (v, (vset c2.1 r v, c2.2)) = Some (v', c') /\ memo_step token c c' /\
      (unmarked token (length nodes) c'.2 <= unmarked token (length nodes) c.2)%nat).
  { intros v c2 H2 H3. eexists _, _. split; [done|]. split; [|simpl; lia].
    eapply memo_step_trans; [done|]. eapply memo_step_trans; [done|]. apply memo_step_store. }
  destruct (en_kind n); cbn [unary_op binary_op]; try (apply Hdone; [apply memo_step_refl|lia]);
    (destruct (IH (en_a n) c1) as (a & c2 & -> & H2 & H3); [done|done|lia|]); try (apply Hdone; done || lia);
    (destruct (IH (en_b n) c2) as (b & c3 & -> & H4 & H5); [done|by eapply memo_step_sized|lia|]);
    (apply Hdone; [by eapply memo_step_trans|lia]).
Qed.

(** ** Agreement on an arena in order *)

Section Agree.
Context (nodes : list expr_node) (values : list logic_t) (token : Z).
Context (Hok : arena_ok nodes).

Definition sound_at (c : memo) (i : Z) : Prop := mark_at c i = token -> cached_at c i = den nodes values i.
Definition same_at (c c' : memo) (i : Z) : Prop := mark_at c' i = mark_at c i /\ cached_at c' i = cached_at c i.

(** What evaluating [r] does: it returns the value of [r], keeps the entries
    above [r], and leaves the entries up to [r] sound. *)
Definition evaluates (r : Z) (res : option (logic_t * memo)) (c : memo) : Prop :=
  exists c', res = Some (den nodes values r, c') /\ memo_sized (vsize nodes) c' /\
    (forall i, i <= r -> sound_at c' i) /\ (forall i, r < i -> same_at c c' i).

Lemma same_sound c c' i : same_at c c' i -> sound_at c i -> sound_at c' i.
Proof using Type. intros [E1 E2] H. unfold sound_at. by rewrite E1, E2. Qed.

Lemma same_trans c1 c2 c3 i : same_at c1 c2 i -> same_at c2 c3 i -> same_at c1 c3 i.
Proof using Type. unfold same_at. intuition congruence. Qed.

(** An operand of [r]: an earlier node, or a missing one. *)
Lemma evaluates_operand fuel r a c :
  (forall r c, 0 <= r < vsize nodes -> (S (Z.to_nat r) < fuel)%nat -> memo_sized (vsize nodes) c ->
     (forall i, i <= r -> sound_at c i) -> evaluates r (eval_memo fuel nodes values token r c) c) ->
  0 <= r < vsize nodes -> (S (Z.to_nat r) <= fuel)%nat -> operand_ok r a -> memo_sized (vsize nodes) c ->
  (forall i, i < r -> sound_at c i) ->
  exists c', eval_memo fuel nodes values token a c = Some (den nodes values a, c') /\ memo_sized (vsize nodes) c' /\
    (forall i, i < r -> sound_at c' i) /\ (forall i, r <= i -> same_at c c' i).
Proof using Hok.
  intros IH Hr Hf [Ha| ->] Hc Hs.
  - destruct (IH a c) as (c' & E & H1 & H2 & H3); [lia|lia|done|intros i Hi; apply Hs; lia|].
    exists c'. split_and!; [done|done| |].
    + intros i Hi. destruct (decide (i <= a)); [by apply H2|]. apply (same_sound c); [apply H3; lia|by apply Hs].
    + intros i Hi. apply H3. lia.
  - exists c. destruct Hok as [Hmax _]. split_and!; [|done|done|done].
    destruct fuel; [lia|]. cbn [eval_memo]. rewrite (proj2 (Z.leb_le _ _)) by lia. by rewrite den_outside by lia.
Qed.

Lemma same_set_mark c r i : i <> r -> same_at c (c.1, vset c.2 r token) i.
Proof using Type. intros H. split; [|done]. unfold mark_at. simpl. by rewrite vat_vset_ne by done. Qed.

Lemma evaluates_store c c1 c2 r : 0 <= r < vsize nodes -> memo_sized (vsize nodes) c2 ->
  (forall i, i < r -> sound_at c2 i) -> (forall i, r <= i -> same_at c1 c2 i) -> (forall i, r < i -> same_at c c1 i) ->
  evaluates r (Some (den nodes values r, (vset c2.1 r (den nodes values r), c2.2))) c.
Proof using Type.
  intros Hr Hc2 Hs H12 H1. eexists. split; [done|].
  assert (Hsame : forall i, i <> r -> same_at c2 (vset c2.1 r (den nodes values r), c2.2) i).
  { intros i Hi. split; [done|]. unfold cached_at. simpl. by rewrite vat_vset_ne by done. }
  split_and!.
  - unfold memo_sized in *. simpl. by rewrite vsize_vset.
  - intros i Hi. destruct (decide (i = r)) as [->|Hne].
    + intros _. unfold cached_at. simpl. rewrite vat_vset; [done|]. destruct Hc2. lia.
    + apply (same_sound c2); [by apply Hsame|apply Hs; lia].
  - intros i Hi. apply (same_trans _ c1); [by apply H1|]. apply (same_trans _ c2); [apply H12; lia|apply Hsame; lia].
Qed.

Lemma eval_memo_agrees fuel : forall r c, 0 <= r < vsize nodes -> (S (Z.to_nat r) < fuel)%nat -> memo_sized (vsize nodes) c ->
  (forall i, i <= r -> sound_at c i) -> evaluates r (eval_memo fuel nodes values token r c) c.
Proof using Hok.
  induction fuel as [|fuel IH]; intros r c Hr Hf Hc Hs; [lia|]. cbn [eval_memo].
  rewrite (proj2 (Z.leb_gt _ _)) by lia. destruct (memo_lookup _ c r Hc Hr) as [-> ->].
  destruct (proj2 (vat_is_Some nodes r) Hr) as [n En]. rewrite En. destruct (mark_at c r =? token) eqn:Em.
  { apply Z.eqb_eq in Em. rewrite (Hs r ltac:(lia) Em). exists c. by split_and!. }
  pose proof (proj2 Hok r n En) as [Ha Hb]. set (c1 := (c.1, vset c.2 r token) : memo).
  assert (Hc1 : memo_sized (vsize nodes) c1) by (unfold memo_sized, c1 in *; simpl; by rewrite vsize_vset).
  assert (H1 : forall i, i <> r -> same_at c c1 i) by (intros i Hi; by apply same_set_mark).
  assert (Hs1 : forall i, i < r -> sound_at c1 i).
  { intros i Hi. apply (same_sound c); [apply H1; lia|apply Hs; lia]. }
  clearbody c1. pose proof (den_eq nodes values r n Hok En) as Hd.
  assert (Hst : forall c2, memo_sized (vsize nodes) c2 -> (forall i, i < r -> sound_at c2 i) -> (forall i, r <= i -> same_at c1 c2 i) ->
    evaluates r (Some (den nodes values r, (vset c2.1 r (den nodes values r), c2.2))) c).
  { intros c2 H2 H3 H4. apply (evaluates_store c c1 c2); [done|done|done|done|]. intros i Hi. apply H1. lia. }
  unfold node_value in Hd. destruct (en_kind n); cbn [unary_op binary_op] in *; try (rewrite <- Hd; by apply Hst);
    (destruct (evaluates_operand fuel r (en_a n) c1) as (c2 & -> & Hc2 & Hs2 & H2); [done|done|lia|by eauto|done|done|]);
    try (rewrite <- Hd; by apply Hst);
    (destruct (evaluates_operand fuel r (en_b n) c2) as (c3 & -> & Hc3 & Hs3 & H3); [done|done|lia|by eauto|done|done|]);
    rewrite <- Hd; apply Hst; try done; intros i Hi; by eapply same_trans; [apply H2|apply H3].
Qed.

End Agree.

(** ** The whole evaluator *)

(** The state of the cache between evaluations. *)
Definition memo_inv (st : module_state) : Prop :=
  length (ms_expr_eval_cache st) = length (ms_expr_eval_mark st) /\
  0 < ms_expr_eval_token st < 2 ^ 32 /\
  forall i k, vat (ms_expr_eval_mark st) i = Some k -> 0 <= k <= ms_expr_eval_token st.

Lemma init_memo_inv m : memo_inv (init_state m).
Proof. split_and!; [done|done|done|]. intros i k H. apply vat_Some in H as [[? H] _]. unfold vsize in H. simpl in H. lia. Qed.

(** The start of an evaluation: vectors that cover the nodes, and a token that
    marks none of them. *)
Lemma memo_start_spec n st c token : memo_inv st -> 0 <= n -> memo_start n st = (c, token) ->
  memo_sized n c /\ length c.1 = length c.2 /\ 0 < token < 2 ^ 32 /\ (forall i k, vat c.2 i = Some k -> 0 <= k < token).
Proof.
  intros (Hl & Ht & Hm) Hn. unfold memo_start.
  set (c0 := if _ <? n then _ else _). intros E.
  assert (H0 : memo_sized n c0 /\ length c0.1 = length c0.2 /\ forall i k, vat c0.2 i = Some k -> 0 <= k <= ms_expr_eval_token st).
  { unfold c0, memo_sized. destruct (vsize (ms_expr_eval_cache st) <? n) eqn:E0.
    - apply Z.ltb_lt in E0. simpl. assert (vsize (ms_expr_eval_mark st) < n) by (unfold vsize in *; lia).
      rewrite !vsize_vgrow by lia. split_and!; [lia|lia| |].
      + unfold vgrow. rewrite !length_app, !length_replicate. lia.
      + intros i k H1. apply vat_vgrow_new in H1 as [H1|[_ ->]]; [by apply (Hm i)|lia].
    - apply Z.ltb_ge in E0. simpl. split_and!; [lia|unfold vsize in *; lia|done|done]. }
  clearbody c0. destruct H0 as (S0 & L0 & M0). destruct (u32_wrap (ms_expr_eval_token st + 1) =? 0) eqn:Et.
  - injection E as <- <-. split_and!; simpl.
    + destruct S0. split; simpl; [lia|]. unfold vsize in *. rewrite length_map. lia.
    + by rewrite length_map.
    + lia.
    + lia.
    + intros i k H. apply vat_Some in H as [_ H]. rewrite list_lookup_fmap in H. destruct (c0.2 !! _); [|done].
      injection H as <-. lia.
  - injection E as <- <-. apply Z.eqb_neq in Et. unfold u32_wrap in *.
    assert (ms_expr_eval_token st + 1 <> 2 ^ 32) by (intros Ex; by rewrite Ex in Et).
    rewrite Z.mod_small in * by lia. split_and!; [done|done|lia|lia|]. intros i k H1. specialize (M0 i k H1). lia.
Qed.

(** Everything but the cache. *)
Definition same_but_memo (st st' : module_state) : Prop := exists c t, st' = set_memo st c t.

Lemma unmarked_le token n l : (unmarked token n l <= n)%nat.
Proof.
  unfold unmarked. etransitivity; [apply length_filter|]. rewrite length_take. lia.
Qed.

(** The cached evaluator returns on every arena, cyclic ones included,
    changes nothing but the cache, and leaves the cache ready for the next
    evaluation. *)
Theorem cached_evaluation_returns m root st :
  operands_nonneg (cm_expr_nodes m) -> 0 <= root -> memo_inv st ->
  exists v st', eval_expr_cached m root st = Some (v, st') /\ same_but_memo st st' /\ memo_inv st'.
Proof.
  intros Hnn Hr Hi. unfold eval_expr_cached. destruct (vsize (cm_expr_nodes m) <=? root) eqn:Er.
  { eexists _, _. split_and!; [done| |done]. exists (ms_expr_eval_cache st, ms_expr_eval_mark st), (ms_expr_eval_token st).
    by destruct st. }
  destruct (memo_start _ st) as [c token] eqn:Es.
  destruct (memo_start_spec _ _ _ _ Hi (vsize_nonneg _) Es) as (Hc & Hl & Ht & Hm).
  destruct (eval_memo_total (cm_expr_nodes m) (ms_values st) token Hnn (S (length (cm_expr_nodes m))) root c Hr Hc) as
    (v & c' & -> & (S1 & S2 & S3) & _).
  { pose proof (unmarked_le token (length (cm_expr_nodes m)) c.2). lia. }
  eexists _, _. split; [done|]. split; [by eexists _, _|]. split_and!; simpl; [congruence|lia|lia|].
  intros i k H. destruct (S3 i k H) as [->|H']; [lia|]. specialize (Hm i k H'). lia.
Qed.

Lemma eval_memo_step nodes values token fuel : forall r c v c', eval_memo fuel nodes values token r c = Some (v, c') ->
  memo_step token c c'.
Proof.
  induction fuel as [|fuel IH]; intros r c v c' E; [done|]. cbn [eval_memo] in E.
  destruct (vsize nodes <=? r); [injection E as <- <-; apply memo_step_refl|].
  destruct (vat nodes r) as [n|]; [|done]. destruct (vat c.2 r) as [mk|]; [|done]. destruct (vat c.1 r) as [x|]; [|done].
  destruct (mk =? token); [injection E as <- <-; apply memo_step_refl|].
  pose proof (memo_step_mark token c r) as Hs. set (c1 := (c.1, vset c.2 r token) : memo) in *. clearbody c1.
  match type of E with match ?res with _ => _ end = _ => destruct res as [[w c2]|] eqn:Er; [|done] end.
  injection E as <- <-. eapply memo_step_trans; [done|]. eapply memo_step_trans; [|apply memo_step_store].
  destruct (en_kind n); cbn [unary_op binary_op] in Er; try (injection Er as <- <-; apply memo_step_refl);
    (destruct (eval_memo fuel nodes values token (en_a n) c1) as [[a ca]|] eqn:Ea; [|done]); apply IH in Ea;
    try (by injection Er as <- <-);
    (destruct (eval_memo fuel nodes values token (en_b n) ca) as [[b cb]|] eqn:Eb; [|done]); apply IH in Eb;
    injection Er as <- <-; by eapply memo_step_trans.
Qed.

(** An evaluation of an arena in order: the value of the reference, and a
    cache ready for the next evaluation. *)
Lemma cached_agrees m root st : arena_ok (cm_expr_nodes m) -> 0 <= root -> memo_inv st ->
  exists c t, eval_expr_cached m root st = Some (den (cm_expr_nodes m) (ms_values st) root, set_memo st c t) /\
    memo_inv (set_memo st c t).
Proof.
  intros Hok Hr Hi. unfold eval_expr_cached. destruct (vsize (cm_expr_nodes m) <=? root) eqn:Er.
  { apply Z.leb_le in Er. exists (ms_expr_eval_cache st, ms_expr_eval_mark st), (ms_expr_eval_token st).
    rewrite den_outside by done. by destruct st. }
  apply Z.leb_gt in Er. destruct (memo_start _ st) as [c token] eqn:Es.
  destruct (memo_start_spec _ _ _ _ Hi (vsize_nonneg _) Es) as (Hc & Hl & Ht & Hm).
  destruct (eval_memo_agrees (cm_expr_nodes m) (ms_values st) token Hok (S (length (cm_expr_nodes m))) root c) as
    (c' & E & _); [lia|unfold vsize in *; lia|done| |].
  { intros i _ Hmk. destruct (vat c.2 i) as [k|] eqn:Ek; unfold mark_at in Hmk; rewrite Ek in Hmk; simpl in Hmk; [|lia].
    specialize (Hm i k Ek). lia. }
  pose proof (eval_memo_step _ _ _ _ _ _ _ _ E) as (S1 & S2 & S3). rewrite E. exists c', token. split; [done|].
  split_and!; simpl; [congruence|lia|lia|]. intros i k H. destruct (S3 i k H) as [->|H']; [lia|]. specialize (Hm i k H'). lia.
Qed.

(** C21: the cached evaluator, which visits a shared subexpression once, returns
    what the recursive evaluator [eval_expr] returns, whatever earlier
    evaluations with other values left in the cache. *)
Theorem cached_evaluation_agrees m root st :
  vsize (cm_expr_nodes m) <= SIZE_MAX -> operands_present (cm_expr_nodes m) -> memo_inv st ->
  0 <= root < vsize (cm_expr_nodes m) ->
  exists v st', eval_expr_cached m root st = Some (v, st') /\ same_but_memo st st' /\
    eval_expr (length (cm_expr_nodes m)) (cm_expr_nodes m) root (ms_values st) = Some v.
Proof.
  intros Hs Hp Hi Hr. destruct (cached_agrees m root st) as (c & t & E & _); [by apply operands_present_ok|lia|done|].
  eexists _, _. split_and!; [done|by eexists _, _|]. apply eval_expr_den; [done|done|done|unfold vsize in *; lia].
Qed.
