(* ===== verification/VBuild.v ===== *)
(** * VBuild: construction of expression nodes

    [expr_parser::add_node] of [verilog/digital/digital.h] and the small
    constructors on it.  The parser adds nodes to the arena of the module,
    folds constants and shares equal nodes through a table.  The state of a
    construction is the arena, the table and the list of errors; the constants
    of the module and the position of the next token do not change during it.

    The specification of a constructor says what the new root evaluates to
    ([has]), for every valuation of the signals that agrees with the folded
    constants, when no error was reported. *)

From Stdlib Require Import ZArith Lia.
From stdpp Require Import base list gmap strings.
From S2P Require Import Prelude Logic4 VData VExpr.

Open Scope Z_scope.

Record compile_error : Type := mk_error {
  ce_message : string;
  ce_offset : Z;
  ce_line : Z;
  ce_column : Z
}.

Record bstate : Type := mk_bstate {
  b_nodes : list expr_node;
  b_intern : gmap expr_node Z;
  b_errors : list compile_error
}.

Definition B (A : Type) : Type := bstate -> A * bstate.
#[export] Instance B_ret : MRet B := fun A x b => (x, b).
#[export] Instance B_bind : MBind B := fun A C f c b => let '(x, b') := c b in f x b'.

(** A loop that fills a vector from its first entry to its last. *)
Fixpoint bmap {A C} (f : A -> B C) (l : list A) : B (list C) :=
  match l with
  | [] => mret []
  | x :: l' => y ← f x; ys ← bmap f l'; mret (y :: ys)
  end.
Fixpoint bmap2 {A C D} (f : A -> C -> B D) (l : list A) (k : list C) : B (list D) :=
  match l, k with
  | x :: l', y :: k' => z ← f x y; zs ← bmap2 f l' k'; mret (z :: zs)
  | _, _ => mret []
  end.
(** A loop that accumulates. *)
Fixpoint bfold {A S} (f : S -> A -> B S) (s : S) (l : list A) : B S :=
  match l with
  | [] => mret s
  | x :: l' => s' ← f s x; bfold f s' l'
  end.

Definition max_expr_nodes : Z := 100000.

Section Build.
Context (m : compiled_module) (here : Z * Z).

(** [p->err(p->peek(), msg)]. *)
Definition err (msg : string) : B unit := fun b =>
  (tt, {| b_nodes := b_nodes b; b_intern := b_intern b;
          b_errors := b_errors b ++ [{| ce_message := msg; ce_offset := 0; ce_line := here.1; ce_column := here.2 |}] |}).

(** [signal_is_const[s]] and [signal_is_const_foldable[s]], both in range. *)
Definition folded_const (s : Z) : option logic_t :=
  match vat (cm_signal_is_const m) s, vat (cm_signal_is_const_foldable m) s with
  | Some true, Some true => vat (cm_signal_const_value m) s
  | _, _ => None
  end.

Definition propagate_const (n : expr_node) : expr_node :=
  match en_kind n with
  | ek_signal =>
      if en_signal n =? SIZE_MAX then n
      else match folded_const (en_signal n) with Some v => node_literal v | None => n end
  | _ => n
  end.

Definition try_get_literal (nodes : list expr_node) (root : Z) : option logic_t :=
  match vat nodes root with
  | Some n => match en_kind n with ek_literal => Some (en_literal n) | _ => None end
  | None => None
  end.

(** The value of an operator whose operands are literals. *)
Definition fold_constants (nodes : list expr_node) (n : expr_node) : option logic_t :=
  match unary_op (en_kind n) with
  | Some f => match try_get_literal nodes (en_a n) with Some a => Some (f a) | None => None end
  | None =>
      match binary_op (en_kind n) with
      | Some f =>
          match try_get_literal nodes (en_a n), try_get_literal nodes (en_b n) with
          | Some a, Some b => Some (f a b)
          | _, _ => None
          end
      | None => None
      end
  end.

(** The end of [add_node]: the table, the limit, the new node. *)
Definition intern_node (n : expr_node) : B Z := fun b =>
  match b_intern b !! n with
  | Some i => (i, b)
  | None =>
      if max_expr_nodes <=? vsize (b_nodes b)
      then (SIZE_MAX, (err "expression too large (node limit exceeded)" b).2)
      else
        let idx := vsize (b_nodes b) in
        (idx, {| b_nodes := b_nodes b ++ [n]; b_intern := <[n := idx]> (b_intern b); b_errors := b_errors b |})
  end.

(** The recursive calls of [add_node] are on literals, for which it is
    [intern_node]. *)
Definition add_node (n : expr_node) : B Z := fun b =>
  let n1 := propagate_const n in
  match fold_constants (b_nodes b) n1 with
  | Some v => intern_node (node_literal v) b
  | None => intern_node n1 b
  end.

Definition make_literal (v : logic_t) : B Z := add_node (node_literal v).
Definition make_signal_root (s : Z) : B Z := add_node (node_signal s).
Definition make_not (a : Z) : B Z := add_node (node_unary ek_unary_not a).
Definition make_is_unknown (a : Z) : B Z := add_node (node_unary ek_is_unknown a).
Definition make_and (a b : Z) : B Z := add_node (node_binary ek_binary_and a b).
Definition make_or (a b : Z) : B Z := add_node (node_binary ek_binary_or a b).
Definition make_xor (a b : Z) : B Z := add_node (node_binary ek_binary_xor a b).
Definition make_mux (sel t f : Z) : B Z :=
  nsel ← make_not sel; a ← make_and sel t; b ← make_and nsel f; make_or a b.

(** ** Every construction only adds *)

Definition ext (b b' : bstate) : Prop := b_nodes b `prefix_of` b_nodes b' /\ b_errors b `prefix_of` b_errors b'.

End Build.

#[export] Instance ext_preorder : PreOrder ext.
Proof. split; [by split|]. intros a b c [H1 H2] [H3 H4]. split; by etrans. Qed.

Class Grows {A} (c : B A) : Prop := grows : forall b, ext b (c b).2.

#[export] Instance grows_ret {A} (x : A) : Grows (mret x : B A).
Proof. intros b. done. Qed.
#[export] Instance grows_bind {A C} (c : B A) (f : A -> B C) : Grows c -> (forall x, Grows (f x)) -> Grows (c ≫= f).
Proof.
  intros Hc Hf b. unfold mbind, B_bind. specialize (Hc b). destruct (c b) as [x b1]. etrans; [exact Hc|apply Hf].
Qed.
#[export] Instance grows_if {A} (t : bool) (c d : B A) : Grows c -> Grows d -> Grows (if t then c else d).
Proof. by destruct t. Qed.
#[export] Instance grows_map {A C} (f : A -> B C) l : (forall x, Grows (f x)) -> Grows (bmap f l).
Proof. intros Hf. induction l; simpl; apply _. Qed.
#[export] Instance grows_map2 {A C D} (f : A -> C -> B D) l k : (forall x y, Grows (f x y)) -> Grows (bmap2 f l k).
Proof. intros Hf. revert k. induction l; intros [|y k]; simpl; apply _. Qed.
#[export] Instance grows_fold {A S} (f : S -> A -> B S) s l : (forall s x, Grows (f s x)) -> Grows (bfold f s l).
Proof. intros Hf. revert s. induction l; intros s; simpl; apply _. Qed.

#[export] Instance grows_err here msg : Grows (err here msg).
Proof. intros b. split; simpl; [done|by apply prefix_app_r]. Qed.
#[export] Instance grows_intern here n : Grows (intern_node here n).
Proof.
  intros b. unfold intern_node. destruct (b_intern b !! n); [done|]. destruct (_ <=? _); [apply grows_err|].
  split; simpl; [by apply prefix_app_r|done].
Qed.
#[export] Instance grows_add m here n : Grows (add_node m here n).
Proof. intros b. unfold add_node. destruct (fold_constants _ _); apply grows_intern. Qed.
#[export] Instance grows_literal m here v : Grows (make_literal m here v).
Proof. apply grows_add. Qed.
#[export] Instance grows_signal m here s : Grows (make_signal_root m here s).
Proof. apply grows_add. Qed.
#[export] Instance grows_not m here a : Grows (make_not m here a).
Proof. apply grows_add. Qed.
#[export] Instance grows_is_unknown m here a : Grows (make_is_unknown m here a).
Proof. apply grows_add. Qed.
#[export] Instance grows_and m here a b : Grows (make_and m here a b).
Proof. apply grows_add. Qed.
#[export] Instance grows_or m here a b : Grows (make_or m here a b).
Proof. apply grows_add. Qed.
#[export] Instance grows_xor m here a b : Grows (make_xor m here a b).
Proof. apply grows_add. Qed.
#[export] Instance grows_mux m here s t f : Grows (make_mux m here s t f).
Proof. unfold make_mux. apply _. Qed.
#[export] Hint Opaque err intern_node add_node make_literal make_signal_root make_not make_is_unknown make_and make_or
  make_xor make_mux bmap bmap2 bfold : typeclass_instances.

(** ** Specifications *)

Section Spec.
Context (m : compiled_module) (here : Z * Z) (values : list logic_t) (E0 : list compile_error).

(** The valuation gives the folded constants their values. *)
Definition consts_agree : Prop := forall s v, folded_const m s = Some v -> vat values s = Some v.

(** A state without errors since [E0]. *)
Record binv (b : bstate) : Prop := mk_binv {
  bi_limit : vsize (b_nodes b) <= max_expr_nodes;
  bi_arena : arena_ok (b_nodes b);
  bi_intern : forall n i, b_intern b !! n = Some i -> vat (b_nodes b) i = Some n;
  bi_errors : b_errors b = E0
}.

(** The root [r] has the value [v]. *)
Definition has (b : bstate) (r : Z) (v : logic_t) : Prop := 0 <= r < vsize (b_nodes b) /\ den (b_nodes b) values r = v.

(** When the computation reports no error, it keeps the invariant, only adds,
    and its result satisfies [Q]. *)
Definition builds {A} (c : B A) (b : bstate) (Q : A -> bstate -> Prop) : Prop :=
  b_errors (c b).2 = E0 -> binv (c b).2 /\ ext b (c b).2 /\ Q (c b).1 (c b).2.

#[local] Set Default Proof Using "Type".

Lemma has_ext b b' r v : ext b b' -> has b r v -> has b' r v.
Proof.
  intros [[l Hn] _] [H1 H2]. unfold has. rewrite Hn, vsize_app, den_app by done. pose proof (vsize_nonneg l). split; [lia|done].
Qed.

Lemma hasl_ext b b' rs vs : ext b b' -> Forall2 (has b) rs vs -> Forall2 (has b') rs vs.
Proof. intros He H. eapply Forall2_impl; [exact H|]. intros r v. by apply has_ext. Qed.

Lemma builds_ret {A} (x : A) b (Q : A -> bstate -> Prop) : binv b -> Q x b -> builds (mret x) b Q.
Proof. intros Hb HQ _. by split_and!. Qed.

Lemma builds_bind {A C} (c : B A) (f : A -> B C) b Q R : Grows c -> (forall x, Grows (f x)) -> binv b ->
  builds c b Q -> (forall x b1, binv b1 -> ext b b1 -> Q x b1 -> builds (f x) b1 R) -> builds (c ≫= f) b R.
Proof.
  intros Gc Gf Hb Hc Hf. unfold builds, mbind, B_bind in *. specialize (Gc b). destruct (c b) as [x b1]. simpl in *. intros E.
  assert (E1 : b_errors b1 = E0).
  { destruct Gc as [_ [l1 H1]], (Gf x b1) as [_ [l2 H2]]. rewrite E, H1, (bi_errors _ Hb), <- app_assoc in H2.
    apply (f_equal length) in H2. rewrite !length_app in H2. destruct l1; [|simpl in H2; lia].
    by rewrite H1, app_nil_r, (bi_errors _ Hb). }
  destruct (Hc E1) as (H1 & H2 & H3). destruct (Hf x b1 H1 H2 H3 E) as (H4 & H5 & H6). split_and!; [done|by etrans|done].
Qed.

Lemma builds_mono {A} (c : B A) b (Q R : A -> bstate -> Prop) :
  builds c b Q -> (forall x b', binv b' -> ext b b' -> Q x b' -> R x b') -> builds c b R.
Proof. intros H HQ E. destruct (H E) as (H1 & H2 & H3). split_and!; auto. Qed.

(** ** Adding a node *)

Lemma literal_value b r v : arena_ok (b_nodes b) -> try_get_literal (b_nodes b) r = Some v -> den (b_nodes b) values r = v.
Proof.
  unfold try_get_literal. intros Ha E. destruct (vat (b_nodes b) r) as [n|] eqn:En; [|done].
  rewrite (den_eq _ values r n) by done. unfold node_value. destruct (en_kind n); try done. by injection E as ->.
Qed.

Lemma err_builds msg b Q : binv b -> builds (err here msg) b Q.
Proof.
  intros Hb E. simpl in E. rewrite (bi_errors _ Hb) in E. apply (f_equal length) in E. rewrite length_app in E. simpl in E. lia.
Qed.

Lemma has_node b r n : binv b -> vat (b_nodes b) r = Some n -> has b r (node_value values (den (b_nodes b) values) n).
Proof.
  intros Hb Hn. split; [by apply vat_is_Some; rewrite Hn|]. apply den_eq; [apply Hb|done].
Qed.

Lemma intern_builds n b : binv b -> node_ok (vsize (b_nodes b)) n ->
  builds (intern_node here n) b (fun r b' => has b' r (node_value values (den (b_nodes b) values) n)).
Proof.
  intros Hb Hn. unfold builds, intern_node. pose proof Hb as [H1 H2 H3 H4].
  destruct (b_intern b !! n) as [i|] eqn:Ei; [intros _; split_and!; [done|done|by apply has_node; auto]|].
  destruct (max_expr_nodes <=? vsize (b_nodes b)) eqn:El.
  { intros E. by destruct (err_builds "expression too large (node limit exceeded)" b (fun _ _ => False) Hb E) as (_ & _ & []). }
  apply Z.leb_gt in El. cbn [fst snd]. set (b' := mk_bstate _ _ _). intros _. pose proof (vsize_nonneg (b_nodes b)).
  assert (Hs : vsize (b_nodes b ++ [n]) = vsize (b_nodes b) + 1) by (rewrite vsize_app; done).
  split_and!; [|split; [by apply prefix_app_r|done]|split; simpl; [lia|by rewrite den_snoc]].
  split; simpl; [lia| | |done].
  - split; [unfold max_expr_nodes, SIZE_MAX in *; lia|]. intros i k Hk. pose proof Hk as Hk'. apply vat_Some in Hk' as [Hi _].
    destruct (decide (i = vsize (b_nodes b))) as [->|Hne].
    + rewrite vat_app_r in Hk. injection Hk as <-. done.
    + rewrite vat_app_l in Hk by lia. by apply H2.
  - intros k i Hk. rewrite lookup_insert_Some in Hk. destruct Hk as [[<- <-]|[_ Hk]]; [apply vat_app_r|].
    pose proof (H3 k i Hk) as Hv. rewrite vat_app_l; [done|]. apply vat_is_Some. by rewrite Hv.
Qed.

Context (Hagree : consts_agree).

Lemma propagate_value look n : node_value values look (propagate_const m n) = node_value values look n.
Proof using Hagree.
  unfold propagate_const. destruct (en_kind n) eqn:Ek; try done. destruct (en_signal n =? SIZE_MAX); [done|].
  destruct (folded_const m (en_signal n)) as [v|] eqn:Ev; [|done]. unfold node_value. rewrite Ek. simpl.
  unfold read_signal. by rewrite (Hagree _ v Ev).
Qed.

Lemma propagate_ok i n : node_ok i n -> node_ok i (propagate_const m n).
Proof.
  intros H. unfold propagate_const. destruct (en_kind n) eqn:Ek; try done. destruct (_ =? _); [done|].
  destruct (folded_const _ _); [|done]. split; simpl; intros [[]|[]] || intros []; done.
Qed.

Lemma literal_ok i v : node_ok i (node_literal v).
Proof. split; simpl; intros H; [destruct H as [[]|[]]|destruct H]; done. Qed.

Lemma fold_value b n v : binv b -> fold_constants (b_nodes b) n = Some v ->
  node_value values (den (b_nodes b) values) n = v.
Proof.
  intros Hb. unfold fold_constants, node_value. pose proof (bi_arena _ Hb) as Ha.
  destruct (en_kind n); cbn [unary_op binary_op]; intros E; try done;
    (destruct (try_get_literal (b_nodes b) (en_a n)) as [x|] eqn:Ex; [|done]); apply literal_value in Ex; try done; subst x;
    try (by injection E);
    (destruct (try_get_literal (b_nodes b) (en_b n)) as [y|] eqn:Ey; [|done]); apply literal_value in Ey; try done; subst y;
    by injection E.
Qed.

Lemma add_node_builds n b : binv b -> node_ok (vsize (b_nodes b)) n ->
  builds (add_node m here n) b (fun r b' => has b' r (node_value values (den (b_nodes b) values) n)).
Proof using Hagree.
  intros Hb Hn. unfold builds, add_node. rewrite <- (propagate_value _ n). apply propagate_ok in Hn.
  destruct (fold_constants (b_nodes b) (propagate_const m n)) as [v|] eqn:Ef.
  - apply fold_value in Ef; [|done]. rewrite Ef. by apply (intern_builds (node_literal v)); [|apply literal_ok].
  - by apply intern_builds.
Qed.

(** ** The constructors *)

Lemma literal_builds v b : binv b -> builds (make_literal m here v) b (fun r b' => has b' r v).
Proof using Hagree. intros Hb. apply (add_node_builds (node_literal v)); [done|apply literal_ok]. Qed.

Lemma signal_builds s b : binv b -> builds (make_signal_root m here s) b (fun r b' => has b' r (read_signal values s)).
Proof using Hagree.
  intros Hb. apply (add_node_builds (node_signal s)); [done|]. split; simpl; intros H; [destruct H as [[]|[]]|destruct H]; done.
Qed.

Lemma unary_builds k f a va b : unary_op k = Some f -> binv b -> has b a va ->
  builds (add_node m here (node_unary k a)) b (fun r b' => has b' r (f va)).
Proof using Hagree.
  intros Hk Hb [Ra <-]. eapply builds_mono; [apply add_node_builds; [done|]|].
  - split; simpl; [by left|]. intros H. by destruct k; try done; destruct H.
  - intros r b' _ _. unfold node_value. simpl. destruct k; simpl in Hk |- *; try done; by injection Hk as <-.
Qed.

Lemma binary_builds k f x y vx vy b : binary_op k = Some f -> binv b -> has b x vx -> has b y vy ->
  builds (add_node m here (node_binary k x y)) b (fun r b' => has b' r (f vx vy)).
Proof using Hagree.
  intros Hk Hb [Rx <-] [Ry <-]. eapply builds_mono; [apply add_node_builds; [done|split; simpl; by left]|].
  intros r b' _ _. unfold node_value. simpl. destruct k; simpl in Hk |- *; try done; by injection Hk as <-.
Qed.

Lemma not_builds a va b : binv b -> has b a va -> builds (make_not m here a) b (fun r b' => has b' r (logic_not va)).
Proof using Hagree. by apply unary_builds. Qed.
Lemma is_unknown_builds a va b : binv b -> has b a va ->
  builds (make_is_unknown m here a) b (fun r b' => has b' r (op_is_unknown va)).
Proof using Hagree. by apply unary_builds. Qed.
Lemma and_builds x y vx vy b : binv b -> has b x vx -> has b y vy ->
  builds (make_and m here x y) b (fun r b' => has b' r (logic_and vx vy)).
Proof using Hagree. by apply binary_builds. Qed.
Lemma or_builds x y vx vy b : binv b -> has b x vx -> has b y vy ->
  builds (make_or m here x y) b (fun r b' => has b' r (logic_or vx vy)).
Proof using Hagree. by apply binary_builds. Qed.
Lemma xor_builds x y vx vy b : binv b -> has b x vx -> has b y vy ->
  builds (make_xor m here x y) b (fun r b' => has b' r (logic_xor vx vy)).
Proof using Hagree. by apply binary_builds. Qed.

End Spec.

(** One step of a construction: the specification [L] of the first
    computation is applied, and what is known of the older roots is moved to
    the new state. *)
Ltac lift_roots E :=
  cbv beta in *;
  repeat match type of E with ext ?b ?b' =>
    match goal with
    | H : has _ b _ _ |- _ => apply (has_ext _ _ _ _ _ E) in H
    | H : Forall2 (has _ b) _ _ |- _ => apply (hasl_ext _ _ _ _ _ E) in H
    end end.
Ltac bstep L :=
  eapply builds_bind; [apply _|intros ?; apply _|eassumption|eapply L; eassumption || reflexivity|];
  let x := fresh "r" in let b := fresh "b" in let Hb := fresh "Hb" in let He := fresh "He" in let Hx := fresh "Hr" in
  intros x b Hb He Hx; lift_roots He; clear He.
