(* ===== verification/VBits.v ===== *)
(** * VBits: words of four-state bits and the numbers they stand for

    The functions on bits that the circuits built by the expression parser
    compute, and their meaning on known bits: addition, subtraction,
    multiplication and comparison of integers modulo the width.  Words are
    handled with the least significant bit first; the compiler stores them
    the other way round. *)

From Stdlib Require Import ZArith Lia.
From stdpp Require Import base list.
From S2P Require Import Prelude Logic4 VData VExpr.

Open Scope Z_scope.

(** ** Numbers and their bits *)

Fixpoint lsbs (w : nat) (n : Z) : list bool :=
  match w with O => [] | S w' => Z.odd n :: lsbs w' (n / 2) end.

Fixpoint num_of (bs : list bool) : Z :=
  match bs with [] => 0 | b :: bs' => Z.b2z b + 2 * num_of bs' end.

(** Two's complement: the last bit has the weight of the sign. *)
Fixpoint int_of (bs : list bool) : Z :=
  match bs with
  | [] => 0
  | [b] => - Z.b2z b
  | b :: bs' => Z.b2z b + 2 * int_of bs'
  end.

Lemma lsbs_length w n : length (lsbs w n) = w.
Proof. revert n. induction w as [|w IH]; intros n; simpl; [done|]. by rewrite IH. Qed.

Lemma b2z_double_odd b n : Z.odd (Z.b2z b + 2 * n) = b.
Proof. rewrite Z.add_comm, Z.odd_add_mul_2 || rewrite Z.odd_add, Z.odd_mul. by destruct b. Qed.

Lemma b2z_double_half b n : (Z.b2z b + 2 * n) / 2 = n.
Proof. rewrite Z.mul_comm, Z.div_add by lia. by destruct b. Qed.

Lemma lsbs_cons w b n : lsbs (S w) (Z.b2z b + 2 * n) = b :: lsbs w n.
Proof. simpl. by rewrite b2z_double_odd, b2z_double_half. Qed.

Lemma odd_half n : n = Z.b2z (Z.odd n) + 2 * (n / 2).
Proof. rewrite <- Z.div2_div. pose proof (Z.div2_odd n). lia. Qed.

Lemma lsbs_num bs : lsbs (length bs) (num_of bs) = bs.
Proof. induction bs as [|b bs IH]; [done|]. cbn [length num_of]. by rewrite lsbs_cons, IH. Qed.

Lemma num_of_range bs : 0 <= num_of bs < 2 ^ Z.of_nat (length bs).
Proof.
  induction bs as [|b bs IH]; cbn [length num_of]; [done|]. rewrite Nat2Z.inj_succ, Z.pow_succ_r by lia.
  destruct b; simpl; lia.
Qed.

Lemma num_of_lsbs w n : num_of (lsbs w n) = n mod 2 ^ Z.of_nat w.
Proof.
  revert n. induction w as [|w IH]; intros n; simpl lsbs; simpl num_of; [by rewrite Z.mod_1_r|]. rewrite IH.
  rewrite Nat2Z.inj_succ, Z.pow_succ_r by lia. set (p := 2 ^ Z.of_nat w). assert (0 < p) by (apply Z.pow_pos_nonneg; lia).
  rewrite (odd_half n) at 3. rewrite (Z.rem_mul_r _ 2 p) by lia.
  rewrite (Z.mul_comm 2 (n / 2)), Z.mod_add, Z.div_add by lia.
  replace (Z.b2z (Z.odd n) mod 2) with (Z.b2z (Z.odd n)) by (by destruct (Z.odd n)).
  replace (Z.b2z (Z.odd n) / 2) with 0 by (by destruct (Z.odd n)). by rewrite Z.add_0_l.
Qed.

(** The bits depend on the number modulo the width. *)
Lemma lsbs_mod w n k : n mod 2 ^ Z.of_nat w = k mod 2 ^ Z.of_nat w -> lsbs w n = lsbs w k.
Proof.
  intros H. rewrite <- (lsbs_num (lsbs w n)), <- (lsbs_num (lsbs w k)), !lsbs_length, !num_of_lsbs. by rewrite H.
Qed.

Lemma lsbs_take w v n : (w <= v)%nat -> take w (lsbs v n) = lsbs w n.
Proof.
  revert v n. induction w as [|w IH]; intros [|v] n H; try done; [lia|]. simpl. by rewrite IH by lia.
Qed.

Lemma lsbs_lookup w n i : (i < w)%nat -> lsbs w n !! i = Some (Z.testbit n (Z.of_nat i)).
Proof.
  revert n i. induction w as [|w IH]; intros n [|i] H; try lia; simpl lsbs; simpl lookup; [by rewrite <- Z.bit0_odd|].
  rewrite IH by lia. f_equal. rewrite <- Z.div2_div, Z.div2_spec, Z.shiftr_spec by lia. f_equal. lia.
Qed.

(** ** Extension and truncation *)

(** [resize_to_vector] on the bits. *)
Definition resize_bits {A} (zero : A) (sign : bool) (w : nat) (bs : list A) : list A :=
  take w bs ++ replicate (w - length bs) (if sign then List.last bs zero else zero).

Lemma lsbs_zero w : lsbs w 0 = replicate w false.
Proof. induction w as [|w IH]; [done|]. cbn [lsbs replicate]. change (0 / 2) with 0. by rewrite IH. Qed.
Lemma lsbs_ones w : lsbs w (-1) = replicate w true.
Proof. induction w as [|w IH]; [done|]. cbn [lsbs replicate]. change (-1 / 2) with (-1). by rewrite IH. Qed.

Lemma lsbs_num_ext w bs : lsbs w (num_of bs) = take w bs ++ replicate (w - length bs) false.
Proof.
  revert w. induction bs as [|b bs IH]; intros [|w]; try done; [by rewrite lsbs_zero|].
  cbn [num_of]. rewrite lsbs_cons, IH. done.
Qed.

Lemma lsbs_int_ext w bs : lsbs w (int_of bs) = take w bs ++ replicate (w - length bs) (List.last bs false).
Proof.
  revert w. induction bs as [|b bs IH]; intros [|w]; try done; [by rewrite lsbs_zero|].
  destruct bs as [|b' bs].
  - change (int_of [b]) with (- Z.b2z b). cbn [take length List.last]. rewrite take_nil.
    replace (S w - 1)%nat with w by lia. destruct b; [apply (lsbs_ones (S w))|apply (lsbs_zero (S w))].
  - change (int_of (b :: b' :: bs)) with (Z.b2z b + 2 * int_of (b' :: bs)). rewrite lsbs_cons, IH. done.
Qed.

(** The number a word stands for when it is extended with its sign or not. *)
Definition number (sign : bool) (bs : list bool) : Z := if sign then int_of bs else num_of bs.

Lemma resize_known sign w bs : resize_bits false sign w bs = lsbs w (number sign bs).
Proof. unfold resize_bits, number. destruct sign; [by rewrite lsbs_int_ext|by rewrite lsbs_num_ext]. Qed.

Lemma int_of_range b bs : - 2 ^ Z.of_nat (length bs) <= int_of (b :: bs) < 2 ^ Z.of_nat (length bs).
Proof.
  revert b. induction bs as [|b' bs IH]; intros b; [by destruct b|].
  change (int_of (b :: b' :: bs)) with (Z.b2z b + 2 * int_of (b' :: bs)). specialize (IH b').
  cbn [length]. rewrite Nat2Z.inj_succ, Z.pow_succ_r by lia. destruct b; simpl Z.b2z; lia.
Qed.

(** ** The ripple adder *)

Definition maj (a b c : bool) : bool := (a && b) || (a && c) || (b && c).

Fixpoint ripple (l k : list bool) (c : bool) : list bool :=
  match l, k with
  | x :: l', y :: k' => xorb (xorb x y) c :: ripple l' k' (maj x y c)
  | _, _ => []
  end.

Lemma ripple_adds w n k c : ripple (lsbs w n) (lsbs w k) c = lsbs w (n + k + Z.b2z c).
Proof.
  revert n k c. induction w as [|w IH]; intros n k c; [done|].
  assert (E : n + k + Z.b2z c = Z.b2z (xorb (xorb (Z.odd n) (Z.odd k)) c) + 2 * (n / 2 + k / 2 + Z.b2z (maj (Z.odd n) (Z.odd k) c))).
  { pose proof (odd_half n). pose proof (odd_half k). destruct (Z.odd n), (Z.odd k), c; simpl in *; lia. }
  rewrite E, lsbs_cons, <- IH. done.
Qed.

Lemma lsbs_not w n : map negb (lsbs w n) = lsbs w (- n - 1).
Proof.
  revert n. induction w as [|w IH]; intros n; [done|].
  assert (E : - n - 1 = Z.b2z (negb (Z.odd n)) + 2 * (- (n / 2) - 1)).
  { pose proof (odd_half n). destruct (Z.odd n); simpl in *; lia. }
  rewrite E, lsbs_cons, <- IH. done.
Qed.

(** ** Comparison *)

(** [compare_lt]: from the most significant bit, [lt] and [eq_prefix]. *)
Fixpoint lt_msb (l k : list bool) (eqp lt : bool) : bool :=
  match l, k with
  | x :: l', y :: k' => lt_msb l' k' (eqp && eqb x y) (lt || (eqp && (negb x && y)))
  | _, _ => lt
  end.

Definition msb_num (l : list bool) : Z := fold_left (fun n b => 2 * n + Z.b2z b) l 0.

Lemma msb_fold l n : fold_left (fun n b => 2 * n + Z.b2z b) l n = n * 2 ^ Z.of_nat (length l) + msb_num l.
Proof.
  unfold msb_num. revert n. induction l as [|b l IH]; intros n; cbn [fold_left]; [simpl; lia|].
  rewrite (IH (2 * n + _)), (IH (2 * 0 + _)). cbn [length]. rewrite Nat2Z.inj_succ, Z.pow_succ_r by lia. lia.
Qed.

Lemma msb_cons b l : msb_num (b :: l) = Z.b2z b * 2 ^ Z.of_nat (length l) + msb_num l.
Proof. unfold msb_num at 1. cbn [fold_left]. rewrite msb_fold. f_equal. Qed.

Lemma msb_range l : 0 <= msb_num l < 2 ^ Z.of_nat (length l).
Proof.
  induction l as [|b l IH]; [done|]. rewrite msb_cons. cbn [length]. rewrite Nat2Z.inj_succ, Z.pow_succ_r by lia.
  destruct b; simpl; lia.
Qed.

Lemma msb_rev l : msb_num (rev l) = num_of l.
Proof.
  unfold msb_num. induction l as [|b l IH]; [done|]. simpl rev. rewrite fold_left_app. simpl. rewrite IH. lia.
Qed.

Lemma lt_msb_spec l k eqp lt : length l = length k ->
  lt_msb l k eqp lt = lt || (eqp && (msb_num l <? msb_num k)).
Proof.
  revert k eqp lt. induction l as [|x l IH]; intros [|y k] eqp lt H; try done; [simpl; by rewrite andb_false_r, orb_false_r|].
  simpl in H. injection H as H. cbn [lt_msb]. rewrite IH, !msb_cons by done. rewrite H.
  pose proof (msb_range l) as Hl. pose proof (msb_range k) as Hk. rewrite H in Hl.
  destruct eqp; simpl; [|by rewrite !orb_false_r]. destruct lt; simpl; [done|].
  destruct x, y; simpl Z.b2z; simpl negb; simpl andb; simpl orb;
    destruct (msb_num l <? msb_num k) eqn:E; rewrite ?Z.ltb_lt, ?Z.ltb_ge in E; symmetry; rewrite ?Z.ltb_lt, ?Z.ltb_ge; lia.
Qed.

(** With two's complement, the sign decides unless it is the same. *)
Definition lt_signed (l k : list bool) : bool :=
  match l, k with
  | x :: l', y :: k' => if xorb x y then x && negb y else lt_msb l' k' true false
  | _, _ => false
  end.

Lemma int_of_rev b l : int_of (rev (b :: l)) = msb_num l - Z.b2z b * 2 ^ Z.of_nat (length l).
Proof.
  simpl rev. rewrite <- (rev_involutive l) at 2 3. rewrite msb_rev, length_rev. generalize (rev l). clear l.
  induction l as [|x l IH]; [simpl; lia|]. cbn [app length]. rewrite Nat2Z.inj_succ, Z.pow_succ_r by lia.
  transitivity (Z.b2z x + 2 * int_of (l ++ [b])); [by destruct l|]. rewrite IH. cbn [num_of]. lia.
Qed.

Lemma lt_signed_spec l k : length l = length k -> l <> [] -> lt_signed l k = (int_of (rev l) <? int_of (rev k)).
Proof.
  destruct l as [|x l], k as [|y k]; intros H Hne; try done. simpl in H. injection H as H.
  rewrite !int_of_rev, H. pose proof (msb_range l) as Hl. pose proof (msb_range k) as Hk. rewrite H in Hl.
  unfold lt_signed. destruct x, y; simpl xorb; simpl Z.b2z; simpl andb; simpl negb; cbn iota;
    rewrite ?(lt_msb_spec l k true false H); simpl orb; simpl andb; symmetry;
    destruct (msb_num l <? msb_num k) eqn:E; rewrite ?Z.ltb_lt, ?Z.ltb_ge in *; lia.
Qed.

(** ** Known bits *)

Definition bit (b : bool) : logic_t := dns_of_bool b.
Definition bits (bs : list bool) : list logic_t := map bit bs.

(** A word as the compiler stores it: the most significant bit first. *)
Definition word (w : nat) (n : Z) : list logic_t := bits (rev (lsbs w n)).

Lemma and_bit a b : logic_and (bit a) (bit b) = bit (a && b).
Proof. by destruct a, b. Qed.
Lemma or_bit a b : logic_or (bit a) (bit b) = bit (a || b).
Proof. by destruct a, b. Qed.
Lemma xor_bit a b : logic_xor (bit a) (bit b) = bit (xorb a b).
Proof. by destruct a, b. Qed.
Lemma not_bit a : logic_not (bit a) = bit (negb a).
Proof. by destruct a. Qed.
Lemma eq_bit a b : op_eq (bit a) (bit b) = bit (eqb a b).
Proof. by destruct a, b. Qed.
Lemma is_unknown_bit a : op_is_unknown (bit a) = bit false.
Proof. by destruct a. Qed.
Lemma is_unknown_bool v : op_is_unknown v = bit (is_unknown v).
Proof. by destruct v. Qed.

Definition mux (s t f : logic_t) : logic_t := logic_or (logic_and s t) (logic_and (logic_not s) f).
Lemma mux_bit s t f : mux (bit s) (bit t) (bit f) = bit (if s then t else f).
Proof. by destruct s, t, f. Qed.
Lemma mux_known s t f : mux (bit s) t f = normalize_z_to_x (if s then t else f).
Proof. by destruct s, t, f. Qed.
Lemma mux_unknown f : mux (bit true) sX f = sX.
Proof. by destruct f. Qed.

Lemma word_length w n : length (word w n) = w.
Proof. unfold word, bits. by rewrite length_map, length_rev, lsbs_length. Qed.

Create Rewrite HintDb bits.
#[export] Hint Rewrite and_bit or_bit xor_bit not_bit eq_bit is_unknown_bit mux_bit : bits.
