(* ===== verification/VWord.v ===== *)
(** * VWord: lowering of word operators to bits

    The operators of [expr_parser] in [verilog/digital/digital.h]: resizing,
    bitwise and logical operators, arithmetic, shifts, comparisons, the
    conditional and selections, as constructions of nodes.  Roots are stored
    with the most significant bit first.  The loops fill vectors whose sizes
    are the widths computed before, and are written on lists.  Where C++ leaves
    the order of two arguments open, the left one is evaluated first. *)

From Stdlib Require Import ZArith Lia.
From stdpp Require Import base list gmap strings.
From S2P Require Import Prelude Logic4 VData VExpr VBuild VBits.

Open Scope Z_scope.

Record expr_value : Type := mk_ev {
  ev_is_vector : bool;
  ev_is_signed : bool;
  ev_scalar_root : Z;
  ev_vector_roots : list Z;
  ev_msb : Z;
  ev_lsb : Z
}.

Definition max_concat_bits : nat := Z.to_nat 4096.
Definition INT_MAX : Z := 2 ^ 31 - 1.
Definition INT64_MAX : Z := 2 ^ 63 - 1.

(** The roots of a value, as the functions below copy them. *)
Definition roots_of (v : expr_value) : list Z := if ev_is_vector v then ev_vector_roots v else [ev_scalar_root v].
Definition width (v : expr_value) : nat := if ev_is_vector v then length (ev_vector_roots v) else 1.
(** [front_unchecked()] and [back_unchecked()] of a vector that is not empty. *)
Definition front (l : list Z) : Z := hd SIZE_MAX l.
Definition back (l : list Z) : Z := List.last l SIZE_MAX.

Definition make_scalar (root msb lsb : Z) (is_signed : bool) : expr_value :=
  {| ev_is_vector := false; ev_is_signed := is_signed; ev_scalar_root := root; ev_vector_roots := []; ev_msb := msb; ev_lsb := lsb |}.
Definition scalar (root : Z) : expr_value := make_scalar root 0 0 false.

(** ** Constants

    The value of a root when the constant signals, parameters included, have
    their values and the others are unknown. *)
Definition const_values (m : compiled_module) : list logic_t :=
  zip_with (fun (c : bool) v => if c then v else sX) (cm_signal_is_const m) (cm_signal_const_value m).

(** [ready] holds 1 for true; the cache is shared by the bits of a word. *)
Definition eval_const_root_cached (m : compiled_module) (nodes : list expr_node) (root : Z) (c : memo) : option (logic_t * memo) :=
  eval_memo (S (length nodes)) nodes (const_values m) 1 root c.

Definition const_memo (nodes : list expr_node) : memo := (replicate (length nodes) sL, replicate (length nodes) 0).

(** The loop over the bits, from the least significant one; [Some None] is
    [return false]. *)
Fixpoint const_bits (m : compiled_module) (nodes : list expr_node) (roots : list Z) (k : Z) (value : Z) (c : memo)
    : option (option Z) :=
  match roots with
  | [] => Some (Some value)
  | r :: rs =>
      match eval_const_root_cached m nodes r c with
      | None => None
      | Some (v, c') =>
          let b := normalize_z_to_x v in
          if is_unknown b then Some None
          else if 64 <=? k then if dns_eqb b sH then Some None else const_bits m nodes rs (k + 1) value c'
          else const_bits m nodes rs (k + 1) (if dns_eqb b sH then Z.lor value (Z.shiftl 1 k) else value) c'
      end
  end.

Definition try_eval_const_uint64 (m : compiled_module) (nodes : list expr_node) (v : expr_value) : option (option Z) :=
  match roots_of v with [] => Some None | rs => const_bits m nodes (rev rs) 0 0 (const_memo nodes) end.

Definition try_eval_const_int (m : compiled_module) (nodes : list expr_node) (v : expr_value) : option (option Z) :=
  match try_eval_const_uint64 m nodes v with
  | Some (Some u) => Some (if INT_MAX <? u then None else Some u)
  | r => r
  end.

(** The loop of [try_eval_const_int64]. *)
Fixpoint const_bits_signed (m : compiled_module) (nodes : list expr_node) (sgn sign_bit : bool) (roots : list Z) (k : Z) (value : Z)
    (c : memo) : option (option Z) :=
  match roots with
  | [] => Some (Some value)
  | r :: rs =>
      match eval_const_root_cached m nodes r c with
      | None => None
      | Some (v, c') =>
          let b := normalize_z_to_x v in
          if is_unknown b then Some None
          else
            let one := dns_eqb b sH in
            if 64 <=? k then
              if (if sgn then negb (Bool.eqb one sign_bit) else one) then Some None
              else const_bits_signed m nodes sgn sign_bit rs (k + 1) value c'
            else const_bits_signed m nodes sgn sign_bit rs (k + 1) (if one then Z.lor value (Z.shiftl 1 k) else value) c'
      end
  end.

(** [static_cast<std::int64_t>(v)]. *)
Definition int64_of (v : Z) : Z := if INT64_MAX <? v then v - 2 ^ 64 else v.

Definition try_eval_const_int64 (m : compiled_module) (nodes : list expr_node) (v : expr_value) (sgn : bool) : option (option Z) :=
  match roots_of v with
  | [] => Some None
  | r0 :: _ as rs =>
      match eval_const_root_cached m nodes r0 (const_memo nodes) with
      | None => None
      | Some (v0, c) =>
          let msb_raw := normalize_z_to_x v0 in
          if is_unknown msb_raw then Some None
          else
            let sign_bit := dns_eqb msb_raw sH in
            match const_bits_signed m nodes sgn sign_bit (rev rs) 0 0 c with
            | Some (Some value) =>
                let w := vsize rs in
                if sgn then
                  if 64 <? w then
                    if Bool.eqb (Z.testbit value 63) sign_bit then Some (Some (int64_of value)) else Some None
                  else
                    let value' := if (w <? 64) && sign_bit then Z.lor value (u64_wrap (Z.shiftl (2 ^ 64 - 1) w)) else value in
                    Some (Some (int64_of value'))
                else if INT64_MAX <? value then Some None else Some (Some (int64_of value))
            | r => r
            end
      end
  end.

Section Word.
Context (m : compiled_module) (here : Z * Z).

#[local] Abbreviation make_literal := (make_literal m here).
#[local] Abbreviation make_not := (make_not m here).
#[local] Abbreviation make_is_unknown := (make_is_unknown m here).
#[local] Abbreviation make_and := (make_and m here).
#[local] Abbreviation make_or := (make_or m here).
#[local] Abbreviation make_xor := (make_xor m here).
#[local] Abbreviation make_mux := (make_mux m here).
#[local] Abbreviation add_node := (add_node m here).
#[local] Abbreviation err := (err here).

Definition make_vector_with_range (roots : list Z) (msb lsb : Z) (is_signed : bool) : B expr_value :=
  match roots with
  | [] => x ← make_literal sX; mret (make_scalar x 0 0 is_signed)
  | [r] => mret (make_scalar r msb lsb is_signed)
  | _ => mret {| ev_is_vector := true; ev_is_signed := is_signed; ev_scalar_root := SIZE_MAX; ev_vector_roots := roots;
                 ev_msb := msb; ev_lsb := lsb |}
  end.

Definition make_vector (roots : list Z) (is_signed : bool) : B expr_value :=
  roots' ← (if (max_concat_bits <? length roots)%nat
            then _ ← err "vector expression too wide (limit exceeded)"; mret (take max_concat_bits roots)
            else mret roots);
  match roots' with
  | [] => x ← make_literal sX; mret (make_scalar x 0 0 is_signed)
  | _ => make_vector_with_range roots' (Z.of_nat (length roots') - 1) 0 is_signed
  end.

(** The source copies the low bits, or writes the fill and then the bits. *)
Definition resize_to_vector (v : expr_value) (w : nat) (sign_extend : bool) : B (list Z) :=
  let src := roots_of v in
  if (w <=? 1)%nat then mret [back src]
  else if (length src =? w)%nat then mret src
  else if (w <? length src)%nat then mret (drop (length src - w) src)
  else
    z ← make_literal sL;
    mret (replicate (w - length src) (if sign_extend then hd z src else z) ++ src).

Definition resize (v : expr_value) (w : nat) (sign_extend : bool) : B expr_value :=
  if (w <=? 1)%nat then vv ← resize_to_vector v 1 sign_extend; mret (make_scalar (front vv) 0 0 (ev_is_signed v))
  else vv ← resize_to_vector v w sign_extend; make_vector vv (ev_is_signed v).

Definition to_bool_root (v : expr_value) : B Z :=
  if ev_is_vector v then
    match ev_vector_roots v with
    | [] => make_literal sX
    | r :: rs => bfold make_or r rs
    end
  else mret (ev_scalar_root v).

(** The loop of [compare_eq] and [compare_case_eq], after the first bit. *)
Fixpoint all_equal (k : expr_kind) (r : Z) (av bv : list Z) : B Z :=
  match av, bv with
  | a :: av', b :: bv' => bi ← add_node (node_binary k a b); r' ← make_and r bi; all_equal k r' av' bv'
  | _, _ => mret r
  end.

Definition compare_bits (k : expr_kind) (a b : expr_value) : B Z :=
  let w := Nat.max (width a) (width b) in
  let signed_op := ev_is_signed a && ev_is_signed b in
  av ← resize_to_vector a w signed_op;
  bv ← resize_to_vector b w signed_op;
  r ← add_node (node_binary k (front av) (front bv));
  all_equal k r (tail av) (tail bv).
Definition compare_eq : expr_value -> expr_value -> B Z := compare_bits ek_binary_eq.
Definition compare_case_eq : expr_value -> expr_value -> B Z := compare_bits ek_binary_case_eq.

Definition bitwise_unary (a : expr_value) (k : expr_kind) : B expr_value :=
  if ev_is_vector a then
    out ← bmap (fun r => add_node (node_unary k r)) (ev_vector_roots a);
    make_vector out (ev_is_signed a)
  else r ← add_node (node_unary k (ev_scalar_root a)); mret (make_scalar r 0 0 (ev_is_signed a)).

Definition bitwise_binary (a b : expr_value) (k : expr_kind) : B expr_value :=
  let w := Nat.max (width a) (width b) in
  let signed_op := ev_is_signed a && ev_is_signed b in
  av ← resize_to_vector a w signed_op;
  bv ← resize_to_vector b w signed_op;
  if (w =? 1)%nat then r ← add_node (node_binary k (front av) (front bv)); mret (make_scalar r 0 0 signed_op)
  else out ← bmap2 (fun x y => add_node (node_binary k x y)) av bv; make_vector out signed_op.

(** Bit [i] of a literal: [value >> i], and [high] from bit 64 on. *)
Definition literal_bits (value : Z) (high : bool) (w : nat) : list logic_t :=
  map (fun i => dns_of_bool (if Z.of_nat i <? 64 then Z.testbit value (Z.of_nat i) else high)) (seq 0 w).

(** The loop goes from the least significant bit to the most significant. *)
Definition make_uint_literal (value : Z) (w : nat) : B expr_value :=
  if (w <=? 1)%nat then r ← make_literal (dns_of_bool (Z.testbit value 0)); mret (scalar r)
  else roots ← bmap make_literal (literal_bits value false w); make_vector (rev roots) false.

Definition make_int_literal (value : Z) (w : nat) : B expr_value :=
  let raw := u64_wrap value in
  if (w <=? 1)%nat then r ← make_literal (dns_of_bool (Z.testbit raw 0)); mret (scalar r)
  else roots ← bmap make_literal (literal_bits raw (value <? 0) w); make_vector (rev roots) true.

Definition any_unknown_root (v : expr_value) : B Z :=
  if ev_is_vector v then
    match ev_vector_roots v with
    | [] => make_literal sH
    | _ => r ← make_literal sL; bfold (fun r bit => u ← make_is_unknown bit; make_or r u) r (ev_vector_roots v)
    end
  else make_is_unknown (ev_scalar_root v).

Definition make_unknown_vector (w : nat) (is_signed : bool) : B expr_value :=
  if (w <=? 1)%nat then x ← make_literal sX; mret (make_scalar x 0 0 is_signed)
  else x ← make_literal sX; make_vector (replicate w x) is_signed.

Definition unknown_operands (a b : expr_value) : B Z :=
  ua ← any_unknown_root a; ub ← any_unknown_root b; make_or ua ub.

(** [out[i] = make_mux(unknown_sel, x, out[i])] for every bit. *)
Definition mask_unknown (unknown_sel x : Z) (out : list Z) : B (list Z) := bmap (fun r => make_mux unknown_sel x r) out.

(** ** Addition and subtraction *)

(** The carry chain, from the least significant bit. *)
Fixpoint add_loop (invert : bool) (av bv : list Z) (carry : Z) : B (list Z) :=
  match av, bv with
  | ai :: av', b0 :: bv' =>
      bi ← (if invert then make_not b0 else mret b0);
      axb ← make_xor ai bi;
      o ← make_xor axb carry;
      t1 ← make_and ai bi; t2 ← make_and ai carry; t3 ← make_and bi carry;
      t12 ← make_or t1 t2; carry' ← make_or t12 t3;
      rest ← add_loop invert av' bv' carry';
      mret (o :: rest)
  | _, _ => mret []
  end.

Definition add_sub (invert : bool) (msg : string) (a b : expr_value) : B expr_value :=
  let signed_op := ev_is_signed a && ev_is_signed b in
  let w0 := Nat.max (width a) (width b) in
  w ← (if (max_concat_bits <? w0)%nat then _ ← err msg; mret max_concat_bits else mret w0);
  unknown_sel ← unknown_operands a b;
  if (w <=? 1)%nat then
    av ← resize_to_vector a 1 signed_op;
    bv ← resize_to_vector b 1 signed_op;
    r ← make_xor (front av) (front bv);
    x ← make_literal sX;
    o ← make_mux unknown_sel x r;
    mret (make_scalar o 0 0 signed_op)
  else
    av ← resize_to_vector a w signed_op;
    bv ← resize_to_vector b w signed_op;
    carry ← make_literal (dns_of_bool invert);
    out ← add_loop invert (rev av) (rev bv) carry;
    x ← make_literal sX;
    out' ← mask_unknown unknown_sel x (rev out);
    make_vector out' signed_op.
Definition arith_add : expr_value -> expr_value -> B expr_value :=
  add_sub false "addition result too wide (limit exceeded)".
Definition arith_sub : expr_value -> expr_value -> B expr_value :=
  add_sub true "subtraction result too wide (limit exceeded)".

(** ** Multiplication *)

(** The products by 2 bits, most significant bit first. *)
Definition mul2_tile (a0 a1 b0 b1 : Z) : B (list Z) :=
  p0 ← make_and a0 b0; t1 ← make_and a0 b1; t2 ← make_and a1 b0; p1 ← make_xor t1 t2; c1 ← make_and t1 t2;
  t3 ← make_and a1 b1; p2 ← make_xor t3 c1; p3 ← make_and t3 c1;
  mret [p3; p2; p1; p0].

(** Bit [k] from the least significant end, or zero. *)
Definition bit_from_lsb {A} (z : A) (v : list A) (k : nat) : A := default z (rev v !! k).

(** The product of a tile, [shift] places up in a word of [w] bits. *)
Definition place {A} (z : A) (w shift : nat) (prod : list A) : list A :=
  rev (take w (replicate shift z ++ rev prod ++ replicate (w - shift - 4) z)).

(** [acc = arith_add(acc, make_vector(row, is_signed))]. *)
Definition add_partial (is_signed : bool) (acc : expr_value) (row : list Z) : B expr_value :=
  partial ← make_vector row is_signed; arith_add acc partial.

Definition mul8_step (z : Z) (av bv : list Z) (acc : expr_value) (ij : nat * nat) : B expr_value :=
  let '(ai, bi) := ij in
  prod ← mul2_tile (bit_from_lsb z av (2 * ai)) (bit_from_lsb z av (2 * ai + 1))
                   (bit_from_lsb z bv (2 * bi)) (bit_from_lsb z bv (2 * bi + 1));
  add_partial false acc (place z 16 (2 * (ai + bi)) prod).

(** The two nested loops, [ai] outside. *)
Definition tiles : list (nat * nat) := [(0,0); (0,1); (0,2); (0,3); (1,0); (1,1); (1,2); (1,3); (2,0); (2,1); (2,2); (2,3); (3,0); (3,1); (3,2); (3,3)]%nat.

(** One row of the product: the first operand shifted by [k] and masked. *)
Definition partial_row (z : Z) (av : list Z) (k : nat) (bbit : Z) : B (list Z) :=
  row ← bmap (fun r => make_and r bbit) (drop k av);
  mret (row ++ replicate (Nat.min k (length av)) z).

Fixpoint mul_loop (z : Z) (av : list Z) (signed_op : bool) (k : nat) (bv : list Z) (acc : expr_value) : B expr_value :=
  match bv with
  | [] => mret acc
  | bbit :: bv' =>
      row ← partial_row z av k bbit;
      acc' ← add_partial signed_op acc row;
      mul_loop z av signed_op (S k) bv' acc'
  end.

Definition set_roots (v : expr_value) (roots : list Z) (is_signed : bool) : expr_value :=
  {| ev_is_vector := ev_is_vector v; ev_is_signed := is_signed; ev_scalar_root := ev_scalar_root v; ev_vector_roots := roots;
     ev_msb := ev_msb v; ev_lsb := ev_lsb v |}.

Definition arith_mul (a b : expr_value) : B expr_value :=
  let signed_op := ev_is_signed a && ev_is_signed b in
  let wa := width a in let wb := width b in
  let w0 := (wa + wb)%nat in
  w ← (if (max_concat_bits <? w0)%nat
       then _ ← err "multiplication result too wide (limit exceeded)"; mret max_concat_bits else mret w0);
  unknown_sel ← unknown_operands a b;
  if negb signed_op && (wa =? 8)%nat && (wb =? 8)%nat && (w =? 16)%nat then
    av ← resize_to_vector a wa false;
    bv ← resize_to_vector b wb false;
    z ← make_literal sL;
    acc0 ← make_uint_literal 0 w;
    acc ← bfold (mul8_step z av bv) acc0 tiles;
    if ev_is_vector acc then
      x ← make_literal sX;
      out ← mask_unknown unknown_sel x (ev_vector_roots acc);
      mret (set_roots acc out false)
    else mret (set_roots acc (ev_vector_roots acc) false)
  else if (w <=? 1)%nat then
    av ← resize_to_vector a 1 signed_op;
    bv ← resize_to_vector b 1 signed_op;
    r ← make_and (front av) (front bv);
    x ← make_literal sX;
    o ← make_mux unknown_sel x r;
    mret (make_scalar o 0 0 signed_op)
  else
    av ← resize_to_vector a w signed_op;
    bv ← resize_to_vector b w signed_op;
    acc0 ← (if signed_op then make_int_literal 0 w else make_uint_literal 0 w);
    z ← make_literal sL;
    acc ← mul_loop z av signed_op 0 (rev bv) acc0;
    if ev_is_vector acc then
      x ← make_literal sX;
      out ← mask_unknown unknown_sel x (ev_vector_roots acc);
      mret (set_roots acc out signed_op)
    else mret acc.

(** ** Shifts *)

(** [while((1 << nbits) < w && nbits < 64) ++nbits]. *)
Fixpoint count_bits (fuel nbits : nat) (w : nat) : nat :=
  match fuel with
  | O => nbits
  | S f => if (Z.shiftl 1 (Z.of_nat nbits) <? Z.of_nat w) then count_bits f (S nbits) w else nbits
  end.
Definition nbits_for (w : nat) : nat := count_bits 64 0 w.

(** The words shifted by [s]: the most significant bit comes first. *)
Definition shifted_left {A} (z : A) (s : nat) (l : list A) : list A := drop s l ++ replicate (Nat.min s (length l)) z.
Definition shifted_right {A} (z : A) (s : nat) (l : list A) : list A := replicate (Nat.min s (length l)) z ++ take (length l - s) l.

(** The stages of the barrel shifter; the selects come least significant
    first, and stage [k] shifts by [2^k]. *)
Fixpoint shift_stages (shifted : nat -> list Z -> list Z) (k : nat) (sels : list Z) (cur : list Z) : B (list Z) :=
  match sels with
  | [] => mret cur
  | sel :: sels' =>
      cur' ← bmap2 (fun s c => make_mux sel s c) (shifted (2 ^ k)%nat cur) cur;
      shift_stages shifted (S k) sels' cur'
  end.

(** [Some n] when the expression is a constant that fits an [int]; reading
    the arena is defined on it by [const_value_defined]. *)
Definition const_int (v : expr_value) : B (option Z) := fun b =>
  (match try_eval_const_int m (b_nodes b) v with Some r => r | None => None end, b).

Definition shift (shifted : Z -> nat -> list Z -> list Z) (v sh : expr_value) : B expr_value :=
  let w := width v in
  if (w <=? 1)%nat then resize v 1 false
  else
    unknown_sel ← any_unknown_root sh;
    sh_const ← const_int sh;
    match sh_const with
    | Some s =>
        cur ← resize_to_vector v w false;
        z ← make_literal sL;
        x ← make_literal sX;
        out ← mask_unknown unknown_sel x (shifted z (Z.to_nat (Z.min s (Z.of_nat w))) cur);
        make_vector out (ev_is_signed v)
    | None =>
        let nbits := nbits_for w in
        if (nbits =? 0)%nat then resize v w false
        else
          cur ← resize_to_vector v w false;
          shv ← resize_to_vector sh nbits false;
          z ← make_literal sL;
          cur' ← shift_stages (shifted z) 0 (rev shv) cur;
          x ← make_literal sX;
          out ← mask_unknown unknown_sel x cur';
          make_vector out (ev_is_signed v)
    end.
Definition shift_left : expr_value -> expr_value -> B expr_value := shift shifted_left.
Definition shift_right : expr_value -> expr_value -> B expr_value := shift shifted_right.

(** ** Comparisons *)

Fixpoint lt_loop (av bv : list Z) (eq_prefix lt : Z) : B Z :=
  match av, bv with
  | ai :: av', bi :: bv' =>
      eq_bit ← add_node (node_binary ek_binary_eq ai bi);
      nai ← make_not ai;
      lt_bit ← make_and nai bi;
      t ← make_and eq_prefix lt_bit;
      lt' ← make_or lt t;
      eq_prefix' ← make_and eq_prefix eq_bit;
      lt_loop av' bv' eq_prefix' lt'
  | _, _ => mret lt
  end.

Definition compare_lt (a b : expr_value) : B Z :=
  let w := Nat.max (width a) (width b) in
  let signed_op := ev_is_signed a && ev_is_signed b in
  av ← resize_to_vector a w signed_op;
  bv ← resize_to_vector b w signed_op;
  if signed_op then
    if (w <=? 1)%nat then nb ← make_not (front bv); make_and (front av) nb
    else
      diff ← make_xor (front av) (front bv);
      nsb ← make_not (front bv);
      lt_sign ← make_and (front av) nsb;
      eq_prefix ← make_literal sH;
      lt ← make_literal sL;
      lt_mag ← lt_loop (tail av) (tail bv) eq_prefix lt;
      make_mux diff lt_sign lt_mag
  else
    eq_prefix ← make_literal sH;
    lt ← make_literal sL;
    lt_loop av bv eq_prefix lt.
Definition compare_le (a b : expr_value) : B Z := lt ← compare_lt a b; eq ← compare_eq a b; make_or lt eq.
Definition compare_gt (a b : expr_value) : B Z := compare_lt b a.
Definition compare_ge (a b : expr_value) : B Z := gt ← compare_lt b a; eq ← compare_eq a b; make_or gt eq.

(** ** The conditional, reductions and selections *)

Definition make_conditional (cond t f : expr_value) : B expr_value :=
  sel ← to_bool_root cond;
  let w := Nat.max (width t) (width f) in
  let signed_op := ev_is_signed t && ev_is_signed f in
  if (w <=? 1)%nat then
    tv ← resize_to_vector t 1 signed_op;
    fv ← resize_to_vector f 1 signed_op;
    o ← make_mux sel (front tv) (front fv);
    mret (make_scalar o 0 0 signed_op)
  else
    tv ← resize_to_vector t w signed_op;
    fv ← resize_to_vector f w signed_op;
    out ← bmap2 (fun x y => make_mux sel x y) tv fv;
    make_vector out signed_op.

Definition reduce_root (init : logic_t) (make : Z -> Z -> B Z) (a : expr_value) : B Z :=
  if ev_is_vector a then r ← make_literal init; bfold make r (ev_vector_roots a) else mret (ev_scalar_root a).
Definition reduce_and_root : expr_value -> B Z := reduce_root sH make_and.
Definition reduce_or_root : expr_value -> B Z := reduce_root sL make_or.
Definition reduce_xor_root : expr_value -> B Z := reduce_root sL make_xor.

(** [vector_pos] of a range; [SIZE_MAX] when the index is outside. *)
Definition vector_pos (msb lsb idx : Z) : Z :=
  if lsb <=? msb then if (idx <=? msb) && (lsb <=? idx) then msb - idx else SIZE_MAX
  else if (msb <=? idx) && (idx <=? lsb) then idx - msb else SIZE_MAX.
Definition vector_index_at (msb lsb pos : Z) : Z := if lsb <=? msb then msb - pos else msb + pos.

(** [need_bits] of the largest index. *)
Fixpoint need_bits_loop (fuel : nat) (need_bits : nat) (base_max : Z) : nat :=
  match fuel with
  | O => need_bits
  | S f => if Z.shiftl 1 (Z.of_nat need_bits) <=? base_max then need_bits_loop f (S need_bits) base_max else need_bits
  end.
Definition need_bits (base_max : Z) : nat := need_bits_loop 63 1 base_max.

(** The comparisons with every index, from the first bit to the last. *)
Fixpoint select_loop (idx_norm : expr_value) (cmp_w : nat) (msb lsb pos : Z) (bits : list Z) (out : Z) : B Z :=
  match bits with
  | [] => mret out
  | bt :: bits' =>
      idx_lit ← make_uint_literal (u64_wrap (vector_index_at msb lsb pos)) cmp_w;
      cond ← compare_eq idx_norm idx_lit;
      out' ← make_mux cond bt out;
      select_loop idx_norm cmp_w msb lsb (pos + 1) bits' out'
  end.

Definition apply_bit_select (base idx_expr : expr_value) : B expr_value :=
  let msb := ev_msb base in let lsb := ev_lsb base in
  let base_bits := roots_of base in
  idx_const ← const_int idx_expr;
  match idx_const with
  | Some idx =>
      let pos := vector_pos msb lsb idx in
      if pos =? SIZE_MAX then x ← make_literal sX; mret (make_scalar x 0 0 (ev_is_signed base))
      else mret (make_scalar (default SIZE_MAX (vat base_bits pos)) idx idx (ev_is_signed base))
  | None =>
      let base_max := u64_wrap (if lsb <=? msb then msb else lsb) in
      let cmp_w := Nat.max (width idx_expr) (need_bits base_max) in
      idx_norm ← resize idx_expr cmp_w false;
      out ← make_literal sX;
      out' ← select_loop idx_norm cmp_w msb lsb 0 base_bits out;
      mret (make_scalar out' 0 0 (ev_is_signed base))
  end.

(** A part select with constant bounds. *)
Definition part_indices (sel_msb sel_lsb : Z) : list Z :=
  if sel_lsb <=? sel_msb then map (fun i => sel_msb - Z.of_nat i) (seq 0 (Z.to_nat (sel_msb - sel_lsb + 1)))
  else map (fun i => sel_msb + Z.of_nat i) (seq 0 (Z.to_nat (sel_lsb - sel_msb + 1))).

Definition apply_part_select (base msb_expr lsb_expr : expr_value) : B expr_value :=
  c1 ← const_int msb_expr;
  c2 ← const_int lsb_expr;
  match c1, c2 with
  | Some sel_msb, Some sel_lsb =>
      bits ← bmap (fun idx =>
                let pos := vector_pos (ev_msb base) (ev_lsb base) idx in
                if pos =? SIZE_MAX then make_literal sX else mret (default SIZE_MAX (vat (roots_of base) pos)))
              (part_indices sel_msb sel_lsb);
      make_vector_with_range bits sel_msb sel_lsb (ev_is_signed base)
  | _, _ =>
      _ ← err "part-select indices must be constant integer expressions in this subset";
      x ← make_literal sX; mret (make_scalar x 0 0 (ev_is_signed base))
  end.

(** ** Division, remainder and power of constants *)

Definition const_u64 (v : expr_value) : B (option Z) := fun b =>
  (match try_eval_const_uint64 m (b_nodes b) v with Some r => r | None => None end, b).
Definition const_i64 (v : expr_value) (sgn : bool) : B (option Z) := fun b =>
  (match try_eval_const_int64 m (b_nodes b) v sgn with Some r => r | None => None end, b).

(** [signed_div] and [unsigned_div] are the division of [arith_div], the
    remainder of [arith_mod]. *)
Definition const_division (signed_div unsigned_div : Z -> Z -> Z) (a b : expr_value) : B expr_value :=
  let signed_op := ev_is_signed a && ev_is_signed b in
  let w := Nat.max (width a) (width b) in
  avv ← resize a w signed_op;
  bvv ← resize b w signed_op;
  if signed_op then
    av ← const_i64 avv true;
    bv ← const_i64 bvv true;
    match av, bv with
    | Some av, Some bv => if bv =? 0 then make_unknown_vector w true else make_int_literal (signed_div av bv) w
    | _, _ => make_unknown_vector w true
    end
  else
    av ← const_u64 avv;
    bv ← const_u64 bvv;
    match av, bv with
    | Some av, Some bv => if bv =? 0 then make_unknown_vector w false else make_uint_literal (unsigned_div av bv) w
    | _, _ => make_unknown_vector w false
    end.
(** C++ divides towards zero; the quotient [INT64_MIN / -1], undefined there,
    is taken modulo [2^64] by [make_int_literal]. *)
Definition arith_div : expr_value -> expr_value -> B expr_value := const_division Z.quot Z.div.
Definition arith_mod : expr_value -> expr_value -> B expr_value := const_division Z.rem Z.modulo.

(** The product of [w] bits: wrapped by the type, or masked. *)
Definition pow_mul (w : nat) (mask x y : Z) : Z := if (w =? 64)%nat then u64_wrap (x * y) else Z.land (x * y) mask.

(** [while(exp != 0)], with its [break]; 64 rounds are enough for 64 bits. *)
Fixpoint pow_loop (fuel w : nat) (mask base exp result : Z) : Z :=
  match fuel with
  | O => result
  | S f =>
      if exp =? 0 then result
      else
        let result' := if Z.odd exp then pow_mul w mask result base else result in
        let exp' := Z.shiftr exp 1 in
        if exp' =? 0 then result' else pow_loop f w mask (pow_mul w mask base base) exp' result'
  end.

Definition pow_mask (w : nat) : Z := if (w =? 64)%nat then 2 ^ 64 - 1 else Z.shiftl 1 (Z.of_nat w) - 1.
Definition pow_bits (w : nat) (base exp : Z) : Z :=
  let mask := pow_mask w in pow_loop 64 w mask (Z.land base mask) exp (Z.land 1 mask).

Definition arith_pow (a b : expr_value) : B expr_value :=
  let signed_op := ev_is_signed a && ev_is_signed b in
  let w := Nat.max (width a) (width b) in
  if (64 <? w)%nat then make_unknown_vector w signed_op
  else
    avv ← resize a w signed_op;
    bvv ← resize b w false;
    exp_i ← const_i64 bvv (ev_is_signed b);
    match exp_i with
    | None => make_unknown_vector w signed_op
    | Some exp =>
        if exp <? 0 then make_unknown_vector w signed_op
        else
          base ← const_u64 avv;
          match base with
          | None => make_unknown_vector w signed_op
          | Some base =>
              let result := pow_bits w base exp in
              if signed_op then make_int_literal (int64_of result) w else make_uint_literal result w
          end
    end.

End Word.

#[export] Hint Opaque make_vector_with_range make_vector resize_to_vector resize to_bool_root all_equal compare_bits
  make_uint_literal make_int_literal any_unknown_root unknown_operands mask_unknown add_loop add_sub add_partial mul2_tile mul8_step
  partial_row mul_loop arith_mul shift_stages const_int const_u64 const_i64 make_unknown_vector shift lt_loop compare_lt select_loop : typeclass_instances.
