(* ===== verification/VWordSpec.v ===== *)
(** * VWordSpec: what the lowered operators evaluate to

    For every operator: when no error is reported, the roots it returns
    evaluate to the given function of the values of its operands. *)

From Stdlib Require Import ZArith Lia.
From stdpp Require Import base list gmap strings.
From S2P Require Import Prelude Logic4 VData VExpr VBuild VBits VWord.

Open Scope Z_scope.

(** ** The constructions only add *)

Ltac grows :=
  cbv zeta;
  lazymatch goal with
  | |- Grows (_ ≫= _) => apply grows_bind; [grows|intros ?; grows]
  | |- Grows (match ?x with _ => _ end) => destruct x; grows
  | |- _ => apply _
  end.

#[export] Instance grows_vector_range m here roots msb lsb sg : Grows (make_vector_with_range m here roots msb lsb sg).
Proof. unfold make_vector_with_range. destruct roots as [|r [|r' rs]]; apply _. Qed.
#[export] Instance grows_vector m here roots sg : Grows (make_vector m here roots sg).
Proof. unfold make_vector. apply grows_bind; [apply _|]. intros [|r rs]; apply _. Qed.
#[export] Instance grows_resize_to m here v w sg : Grows (resize_to_vector m here v w sg).
Proof. unfold resize_to_vector. apply _. Qed.
#[export] Instance grows_resize m here v w sg : Grows (resize m here v w sg).
Proof. unfold resize. apply _. Qed.
#[export] Instance grows_to_bool m here v : Grows (to_bool_root m here v).
Proof. unfold to_bool_root. apply grows_if; [|apply _]. destruct (ev_vector_roots v); apply _. Qed.
#[export] Instance grows_all_equal m here k r av bv : Grows (all_equal m here k r av bv).
Proof. revert r bv. induction av; intros r [|y bv]; simpl; apply _. Qed.
#[export] Instance grows_compare_bits m here k a b : Grows (compare_bits m here k a b).
Proof. unfold compare_bits. apply _. Qed.
#[export] Instance grows_uint m here n w : Grows (make_uint_literal m here n w).
Proof. unfold make_uint_literal. apply _. Qed.
#[export] Instance grows_int m here n w : Grows (make_int_literal m here n w).
Proof. unfold make_int_literal. apply _. Qed.
#[export] Instance grows_any_unknown m here v : Grows (any_unknown_root m here v).
Proof. unfold any_unknown_root. apply grows_if; [|apply _]. destruct (ev_vector_roots v); apply _. Qed.
#[export] Instance grows_unknown_operands m here a b : Grows (unknown_operands m here a b).
Proof. unfold unknown_operands. apply _. Qed.
#[export] Instance grows_mask m here s x l : Grows (mask_unknown m here s x l).
Proof. unfold mask_unknown. apply _. Qed.
#[export] Instance grows_add_loop m here i av bv c : Grows (add_loop m here i av bv c).
Proof. revert bv c. induction av; intros [|y bv] c; simpl; apply _. Qed.
#[export] Instance grows_add_sub m here i msg a b : Grows (add_sub m here i msg a b).
Proof. unfold add_sub. grows. Qed.
#[export] Instance grows_tile m here a b c d : Grows (mul2_tile m here a b c d).
Proof. unfold mul2_tile. apply _. Qed.
#[export] Instance grows_partial m here sg acc row : Grows (add_partial m here sg acc row).
Proof. unfold add_partial. apply _. Qed.
#[export] Instance grows_mul8 m here z av bv acc ij : Grows (mul8_step m here z av bv acc ij).
Proof. unfold mul8_step. destruct ij. apply _. Qed.
#[export] Instance grows_row m here z av k b : Grows (partial_row m here z av k b).
Proof. unfold partial_row. apply _. Qed.
#[export] Instance grows_mul_loop m here z av sg k bv acc : Grows (mul_loop m here z av sg k bv acc).
Proof. revert k acc. induction bv; intros k acc; simpl; apply _. Qed.
#[export] Instance grows_mul m here a b : Grows (arith_mul m here a b).
Proof. unfold arith_mul. grows. Qed.
#[export] Instance grows_stages m here f k sels cur : Grows (shift_stages m here f k sels cur).
Proof. revert k cur. induction sels; intros k cur; simpl; apply _. Qed.
#[export] Instance grows_const_int m v : Grows (const_int m v).
Proof. intros b. done. Qed.
#[export] Instance grows_shift m here f v sh : Grows (shift m here f v sh).
Proof. unfold shift. grows. Qed.
#[export] Instance grows_lt_loop m here av bv e l : Grows (lt_loop m here av bv e l).
Proof. revert bv e l. induction av; intros [|y bv] e l; simpl; apply _. Qed.
#[export] Instance grows_lt m here a b : Grows (compare_lt m here a b).
Proof. unfold compare_lt. grows. Qed.
#[export] Instance grows_select m here i w msb lsb pos bits out : Grows (select_loop m here i w msb lsb pos bits out).
Proof. revert pos out. induction bits; intros pos out; simpl; apply _. Qed.

(** ** Loops *)

Section Spec.
Context (m : compiled_module) (here : Z * Z) (values : list logic_t) (E0 : list compile_error).
Context (Hagree : consts_agree m values).

Abbreviation has := (has values).
Abbreviation binv := (binv E0).
Abbreviation builds := (builds E0).
Abbreviation hasl b := (Forall2 (has b)).

#[local] Set Default Proof Using "Type*".

Lemma map_builds (f : Z -> B Z) (g : logic_t -> logic_t) (P : bstate -> Prop) :
  (forall x, Grows (f x)) -> (forall b b', P b -> ext b b' -> P b') ->
  (forall b x v, binv b -> P b -> has b x v -> builds (f x) b (fun r b' => has b' r (g v))) ->
  forall l vs b, binv b -> P b -> hasl b l vs -> builds (bmap f l) b (fun rs b' => hasl b' rs (map g vs)).
Proof.
  intros Gf HP Hf l vs b Hb Pb Hl. revert b Hb Pb Hl. revert vs. induction l as [|x l IH]; intros vs b Hb Pb Hl.
  - apply Forall2_nil_inv_l in Hl as ->. apply builds_ret; [done|]. simpl; done || constructor.
  - apply Forall2_cons_inv_l in Hl as (v & vs' & Hv & Hl & ->). simpl.
    eapply builds_bind; [apply _|intros ?; apply _|done|by apply Hf|]. intros r b1 Hb1 He Hr. lift_roots He.
    eapply builds_bind; [apply _|intros ?; apply _|done|apply (IH vs'); [done|by eapply HP|done]|].
    intros rs b2 Hb2 He2 Hrs. lift_roots He2. apply builds_ret; [done|]. by constructor.
Qed.

Lemma map2_builds (f : Z -> Z -> B Z) (g : logic_t -> logic_t -> logic_t) (P : bstate -> Prop) :
  (forall x y, Grows (f x y)) -> (forall b b', P b -> ext b b' -> P b') ->
  (forall b x y v w, binv b -> P b -> has b x v -> has b y w -> builds (f x y) b (fun r b' => has b' r (g v w))) ->
  forall l k vs ws b, binv b -> P b -> hasl b l vs -> hasl b k ws ->
  builds (bmap2 f l k) b (fun rs b' => hasl b' rs (zip_with g vs ws)).
Proof.
  intros Gf HP Hf l k vs ws b Hb Pb Hl. revert k vs ws b Hb Pb Hl.
  induction l as [|x l IH]; intros k vs ws b Hb Pb Hl Hk.
  - apply Forall2_nil_inv_l in Hl as ->. apply builds_ret; [done|]. simpl; done || constructor.
  - apply Forall2_cons_inv_l in Hl as (v & vs' & Hv & Hl & ->). destruct k as [|y k].
    { apply Forall2_nil_inv_l in Hk as ->. apply builds_ret; [done|]. simpl; done || constructor. }
    apply Forall2_cons_inv_l in Hk as (w & ws' & Hw & Hk & ->). simpl.
    eapply builds_bind; [apply _|intros ?; apply _|done|by apply Hf|]. intros r b1 Hb1 He Hr. lift_roots He.
    eapply builds_bind; [apply _|intros ?; apply _|done|apply (IH k vs' ws'); [done|by eapply HP|done|done]|].
    intros rs b2 Hb2 He2 Hrs. lift_roots He2. apply builds_ret; [done|]. by constructor.
Qed.

Lemma fold_builds (f : Z -> Z -> B Z) (g : logic_t -> logic_t -> logic_t) :
  (forall x y, Grows (f x y)) ->
  (forall b x y v w, binv b -> has b x v -> has b y w -> builds (f x y) b (fun r b' => has b' r (g v w))) ->
  forall l vs s v b, binv b -> has b s v -> hasl b l vs -> builds (bfold f s l) b (fun r b' => has b' r (fold_left g vs v)).
Proof.
  intros Gf Hf l. induction l as [|x l IH]; intros vs s v b Hb Hs Hl.
  - apply Forall2_nil_inv_l in Hl as ->. apply builds_ret; [done|]. simpl; done || constructor.
  - apply Forall2_cons_inv_l in Hl as (w & vs' & Hw & Hl & ->). simpl.
    eapply builds_bind; [apply _|intros ?; apply _|done|by apply Hf|]. intros r b1 Hb1 He Hr. lift_roots He. by apply IH.
Qed.

Lemma mux_builds s t f vs vt vf b : binv b -> has b s vs -> has b t vt -> has b f vf ->
  builds (make_mux m here s t f) b (fun r b' => has b' r (mux vs vt vf)).
Proof.
  intros Hb Hs Ht Hf. unfold make_mux. bstep (not_builds m here values E0 Hagree).
  bstep (and_builds m here values E0 Hagree). bstep (and_builds m here values E0 Hagree).
  by apply or_builds.
Qed.

(** ** Values of words *)

(** [resize_to_vector] on values. *)
Definition resize_list {A} (d z : A) (sg : bool) (w : nat) (src : list A) : list A :=
  if (w <=? 1)%nat then [List.last src d]
  else if (length src =? w)%nat then src
  else if (w <? length src)%nat then drop (length src - w) src
  else replicate (w - length src) (if sg then hd z src else z) ++ src.
Definition resized (sg : bool) (w : nat) (vs : list logic_t) : list logic_t := resize_list sX sL sg w vs.

(** The value of an expression: the values of its roots. *)
Definition ev_has (b : bstate) (v : expr_value) (vs : list logic_t) : Prop := hasl b (roots_of v) vs /\ vs <> [].

Lemma ev_has_ext b b' v vs : ext b b' -> ev_has b v vs -> ev_has b' v vs.
Proof using values. intros E [H1 H2]. split; [|done]. by apply (hasl_ext _ _ _ _ _ E). Qed.

Lemma ev_width b v vs : ev_has b v vs -> width v = length vs.
Proof using values. intros [H _]. rewrite <- (Forall2_length _ _ _ H). unfold width, roots_of. by destruct (ev_is_vector v). Qed.

Lemma Forall2_last {A C} (R : A -> C -> Prop) l k d e : Forall2 R l k -> k <> [] -> R (List.last l d) (List.last k e).
Proof. intros H. induction H as [|x y l k Hxy H IH]; [done|]. intros _. destruct H; [done|]. by apply IH. Qed.
Lemma Forall2_hd {A C} (R : A -> C -> Prop) l k d e : Forall2 R l k -> k <> [] -> R (hd d l) (hd e k).
Proof. by intros []. Qed.

Lemma Forall2_resize {A C} (R : A -> C -> Prop) sg w l k d e z z' : Forall2 R l k -> k <> [] -> R z z' ->
  Forall2 R (resize_list d z sg w l) (resize_list e z' sg w k).
Proof.
  intros H Hne Hz. unfold resize_list. rewrite (Forall2_length _ _ _ H). destruct (w <=? 1)%nat.
  { constructor; [by apply Forall2_last|constructor]. }
  destruct (_ =? _)%nat; [done|]. destruct (_ <? _)%nat; [by apply Forall2_drop|].
  apply Forall2_app; [|done]. apply Forall2_replicate. destruct sg; [by apply Forall2_hd|done].
Qed.

Lemma resize_to_builds v vs w sg b : binv b -> ev_has b v vs ->
  builds (resize_to_vector m here v w sg) b (fun rs b' => hasl b' rs (resized sg w vs)).
Proof.
  intros Hb [Hv Hne]. pose proof (Forall2_length _ _ _ Hv) as El. unfold resize_to_vector, resized, resize_list. rewrite El.
  destruct (w <=? 1)%nat; [apply builds_ret; [done|]; constructor; [by apply Forall2_last|constructor]|].
  destruct (_ =? _)%nat; [by apply builds_ret|]. destruct (_ <? _)%nat; [apply builds_ret; [done|by apply Forall2_drop]|].
  bstep (literal_builds m here values E0 Hagree). apply builds_ret; [done|]. apply Forall2_app; [|done].
  apply Forall2_replicate. destruct sg; [by apply Forall2_hd|done].
Qed.

Lemma vector_range_builds rs vs msb lsb sg b : binv b -> hasl b rs vs -> vs <> [] ->
  builds (make_vector_with_range m here rs msb lsb sg) b
    (fun v b' => ev_has b' v vs /\ ev_is_signed v = sg /\ roots_of v = rs /\ b' = b).
Proof.
  intros Hb H Hne. unfold make_vector_with_range. destruct H as [|r v rs vs Hr H]; [done|].
  destruct H as [|r' v' rs vs Hr' H]; (apply builds_ret; [done|]); split_and!; try done; split; try done; cbn;
    repeat (constructor; try done).
Qed.

Lemma vector_builds rs vs sg b : binv b -> hasl b rs vs -> vs <> [] ->
  builds (make_vector m here rs sg) b (fun v b' => ev_has b' v vs /\ ev_is_signed v = sg /\ roots_of v = rs).
Proof.
  intros Hb H Hne. unfold make_vector. destruct (_ <? _)%nat.
  - eapply builds_bind; [apply _|intros ?; grows|done| |intros ? ? ? ? HF; exact (False_ind _ HF)].
    eapply builds_bind; [apply _|intros ?; apply _|done|by apply (err_builds _ _ _ _ (fun _ _ => False))|]. done.
  - eapply (builds_bind _ _ _ _ (fun rs' b' => rs' = rs /\ b' = b)); [apply _|intros ?; grows|done|by apply builds_ret|].
    intros rs' b' Hb' _ [-> ->]. destruct rs as [|r rs]; [by apply Forall2_nil_inv_l in H|].
    eapply builds_mono; [by apply vector_range_builds|]. intros v b2 _ _ (H1 & H2 & H3 & _). done.
Qed.

Lemma scalar_has b r v msb lsb sg : has b r v -> ev_has b (make_scalar r msb lsb sg) [v].
Proof using values. intros H. split; [|done]. by constructor. Qed.

Lemma resize_nonempty sg w vs : vs <> [] -> resized sg w vs <> [].
Proof.
  unfold resized, resize_list. intros H. destruct (w <=? 1)%nat eqn:E; [done|]. apply Nat.leb_gt in E.
  destruct (_ =? _)%nat; [done|]. destruct (_ <? _)%nat eqn:El.
  - apply Nat.ltb_lt in El. intros Ed. apply (f_equal length) in Ed. rewrite length_drop in Ed. simpl in Ed. lia.
  - intros Ed. apply app_nil in Ed as [_ ->]. done.
Qed.

Lemma resize_builds v vs w sg b : binv b -> ev_has b v vs ->
  builds (resize m here v w sg) b (fun v' b' => ev_has b' v' (resized sg w vs) /\ ev_is_signed v' = ev_is_signed v).
Proof.
  intros Hb Hv. unfold resize. pose proof (resize_nonempty sg w vs (proj2 Hv)) as Hne. destruct (w <=? 1)%nat eqn:E.
  - eapply builds_bind; [apply _|intros ?; apply _|done|by apply (resize_to_builds v vs 1)|].
    intros rs b1 Hb1 _ Hrs. apply builds_ret; [done|]. split; [|done]. unfold resized, resize_list in *. rewrite E.
    simpl in Hrs. apply Forall2_cons_inv_r in Hrs as (r & l & Hr & _ & ->). by apply scalar_has.
  - eapply builds_bind; [apply _|intros ?; apply _|done|by apply (resize_to_builds v vs w)|].
    intros rs b1 Hb1 _ Hrs. eapply builds_mono; [eapply vector_builds; [done|exact Hrs|done]|]. intros v' b' _ _ (H1 & H2 & _). done.
Qed.

(** ** Unknown operands *)

Definition any_unknown (vs : list logic_t) : bool := existsb is_unknown vs.

Lemma fold_unknown vs u : fold_left (fun r v => logic_or r (op_is_unknown v)) vs (bit u) = bit (u || any_unknown vs).
Proof.
  revert u. induction vs as [|v vs IH]; intros u; simpl; [by rewrite orb_false_r|].
  rewrite is_unknown_bool, or_bit, IH. by rewrite orb_assoc.
Qed.

Lemma any_unknown_builds v vs b : binv b -> ev_has b v vs ->
  builds (any_unknown_root m here v) b (fun r b' => has b' r (bit (any_unknown vs))).
Proof.
  intros Hb [Hv Hne]. unfold any_unknown_root, roots_of in *. destruct (ev_is_vector v).
  - destruct (ev_vector_roots v) as [|r rs] eqn:Er; [by apply Forall2_nil_inv_l in Hv|]. rewrite <- Er in Hv |- *. clear Er r rs.
    bstep (literal_builds m here values E0 Hagree).
    eapply builds_mono; [eapply (fold_builds _ (fun r v => logic_or r (op_is_unknown v))); [intros ? ?; apply _| |done|exact Hr|exact Hv]|].
    + intros b1 x y vx vy Hb1 Hx Hy. bstep (is_unknown_builds m here values E0 Hagree). by apply or_builds.
    + intros r' b' _ _. change sL with (bit false). by rewrite fold_unknown.
  - apply Forall2_cons_inv_l in Hv as (x & l & Hx & Hl & ->). apply Forall2_nil_inv_l in Hl as ->.
    eapply builds_mono; [by eapply is_unknown_builds|]. intros r b' _ _. by rewrite is_unknown_bool; simpl; rewrite orb_false_r.
Qed.

Ltac lift_ev E :=
  lift_roots E;
  repeat match type of E with ext ?b ?b' => match goal with H : ev_has b _ _ |- _ => apply (ev_has_ext _ _ _ _ E) in H end end.
Ltac step L :=
  eapply builds_bind; [apply _|intros ?; grows|eassumption|eapply L; eassumption || reflexivity|];
  let x := fresh "r" in let b := fresh "b" in let Hb := fresh "Hb" in let He := fresh "He" in let Hx := fresh "Hr" in
  intros x b Hb He Hx; lift_ev He; clear He.

Lemma unknown_operands_builds a c va vc b : binv b -> ev_has b a va -> ev_has b c vc ->
  builds (unknown_operands m here a c) b (fun r b' => has b' r (bit (any_unknown va || any_unknown vc))).
Proof.
  intros Hb Ha Hc. unfold unknown_operands. step any_unknown_builds. step (any_unknown_builds c).
  eapply builds_mono; [by apply or_builds|]. intros ? ? _ _. by rewrite or_bit.
Qed.

Lemma mask_builds u x l vu vs b : binv b -> has b u vu -> has b x sX -> hasl b l vs ->
  builds (mask_unknown m here u x l) b (fun rs b' => hasl b' rs (map (mux vu sX) vs)).
Proof.
  intros Hb Hu Hx Hl. unfold mask_unknown.
  apply (map_builds _ _ (fun b => has b u vu /\ has b x sX)); [intros ?; apply _| | |done|done|done].
  - intros b1 b2 [H1 H2] E. lift_roots E. done.
  - intros b1 y v Hb1 [H1 H2] Hy. by apply mux_builds.
Qed.

(** ** Addition and subtraction *)

Fixpoint ripple4 (invert : bool) (av bv : list logic_t) (c : logic_t) : list logic_t :=
  match av, bv with
  | a :: av', b0 :: bv' =>
      let b := if invert then logic_not b0 else b0 in
      logic_xor (logic_xor a b) c ::
      ripple4 invert av' bv' (logic_or (logic_or (logic_and a b) (logic_and a c)) (logic_and b c))
  | _, _ => []
  end.

Lemma add_loop_builds invert av : forall bv c va vb vc b, binv b -> hasl b av va -> hasl b bv vb -> has b c vc ->
  builds (add_loop m here invert av bv c) b (fun rs b' => hasl b' rs (ripple4 invert va vb vc)).
Proof.
  induction av as [|a av IH]; intros bv c va vb vc b Hb Ha Hv Hc.
  { apply Forall2_nil_inv_l in Ha as ->. by apply builds_ret. }
  apply Forall2_cons_inv_l in Ha as (xa & va' & Hxa & Ha & ->). destruct bv as [|b0 bv].
  { apply Forall2_nil_inv_l in Hv as ->. by apply builds_ret. }
  apply Forall2_cons_inv_l in Hv as (xb & vb' & Hxb & Hv & ->). cbn [add_loop ripple4].
  eapply (builds_bind _ _ _ _ (fun bi b' => has b' bi (if invert then logic_not xb else xb)));
    [apply _|intros ?; grows|done|destruct invert; [by apply not_builds|by apply builds_ret]|].
  intros bi b1 Hb1 He Hbi. lift_roots He. clear He. set (vbi := if invert then _ else _) in *. clearbody vbi.
  step (xor_builds m here values E0 Hagree a bi). step (xor_builds m here values E0 Hagree r c).
  step (and_builds m here values E0 Hagree a bi). step (and_builds m here values E0 Hagree a c).
  step (and_builds m here values E0 Hagree bi c). step (or_builds m here values E0 Hagree r1 r2).
  step (or_builds m here values E0 Hagree r4 r3). step IH. apply builds_ret; [done|]. by constructor.
Qed.

Lemma hasl_rev b rs vs : hasl b rs vs -> hasl b (rev rs) (rev vs).
Proof using values. intros H. rewrite !rev_alt. by apply Forall2_reverse. Qed.

Lemma one_root b rs sg vs : hasl b rs (resized sg 1 vs) -> has b (front rs) (List.last vs sX).
Proof using values. intros H. apply Forall2_cons_inv_r in H as (r & l & Hr & _ & ->). done. Qed.

Lemma ripple4_length invert va vb c : length (ripple4 invert va vb c) = Nat.min (length va) (length vb).
Proof. revert vb c. induction va as [|a va IH]; intros [|x vb] c; simpl; try done. by rewrite IH. Qed.

Lemma resized_length sg w vs : (1 <= w)%nat -> length (resized sg w vs) = w.
Proof.
  intros Hw. unfold resized, resize_list. destruct (w <=? 1)%nat eqn:E1; [apply Nat.leb_le in E1; simpl; lia|].
  destruct (length vs =? w)%nat eqn:E2; [by apply Nat.eqb_eq|]. apply Nat.eqb_neq in E2.
  destruct (w <? length vs)%nat eqn:E3; [apply Nat.ltb_lt in E3; rewrite length_drop; lia|].
  apply Nat.ltb_ge in E3. rewrite length_app, length_replicate. lia.
Qed.

(** What [arith_add] and [arith_sub] compute on the values. *)
Definition sum_value (invert sg : bool) (va vb : list logic_t) : list logic_t :=
  let w := Nat.max (length va) (length vb) in
  let u := bit (any_unknown va || any_unknown vb) in
  if (w <=? 1)%nat then [mux u sX (logic_xor (List.last va sX) (List.last vb sX))]
  else map (mux u sX) (rev (ripple4 invert (rev (resized sg w va)) (rev (resized sg w vb)) (bit invert))).

Lemma sum_builds invert msg a c va vc b : binv b -> ev_has b a va -> ev_has b c vc ->
  builds (add_sub m here invert msg a c) b (fun v b' =>
    ev_has b' v (sum_value invert (ev_is_signed a && ev_is_signed c) va vc) /\ ev_is_signed v = ev_is_signed a && ev_is_signed c).
Proof.
  intros Hb Ha Hc. unfold add_sub, sum_value. rewrite (ev_width _ _ _ Ha), (ev_width _ _ _ Hc).
  set (w := Nat.max (length va) (length vc)). set (sg := ev_is_signed a && ev_is_signed c).
  destruct (max_concat_bits <? w)%nat.
  { eapply builds_bind; [apply _|intros ?; grows|done| |intros ? ? ? ? HF; exact (False_ind _ HF)].
    eapply builds_bind; [apply _|intros ?; apply _|done|by apply (err_builds _ _ _ _ (fun _ _ => False))|]. done. }
  eapply (builds_bind _ _ _ _ (fun w' b' => w' = w /\ b' = b)); [apply _|intros ?; grows|done|by apply builds_ret|].
  intros w' b' _ _ [-> ->]. step unknown_operands_builds. destruct (w <=? 1)%nat eqn:Ew.
  - step (resize_to_builds a va 1). step (resize_to_builds c vc 1). apply one_root in Hr0, Hr1.
    step (xor_builds m here values E0 Hagree). step (literal_builds m here values E0 Hagree).
    step mux_builds. apply builds_ret; [done|]. split; [by apply scalar_has|done].
  - step (resize_to_builds a va w). step (resize_to_builds c vc w). step (literal_builds m here values E0 Hagree (dns_of_bool invert)).
    apply hasl_rev in Hr0, Hr1. step add_loop_builds. apply hasl_rev in Hr3.
    step (literal_builds m here values E0 Hagree sX). step mask_builds.
    eapply builds_mono; [eapply vector_builds; [done|exact Hr5|]|by intros ? ? _ _ (? & ? & _)].
    apply Nat.leb_gt in Ew. intros En. apply (f_equal length) in En.
    rewrite length_map, length_rev, ripple4_length, !length_rev, !resized_length, Nat.min_id in En by lia. simpl in En. lia.
Qed.

(** ** Bitwise operators and comparisons *)

Lemma max_width_pos a c va vc b : ev_has b a va -> ev_has b c vc -> (1 <= Nat.max (length va) (length vc))%nat.
Proof. intros [_ H] _. destruct va; [done|]. simpl. lia. Qed.

Definition bitwise_value (op : logic_t -> logic_t -> logic_t) (sg : bool) (va vb : list logic_t) : list logic_t :=
  let w := Nat.max (length va) (length vb) in zip_with op (resized sg w va) (resized sg w vb).

Lemma bitwise_value_length op sg va vb : (1 <= Nat.max (length va) (length vb))%nat ->
  length (bitwise_value op sg va vb) = Nat.max (length va) (length vb).
Proof. intros H. unfold bitwise_value. rewrite length_zip_with, !resized_length by done. apply Nat.min_id. Qed.

Lemma bitwise_binary_builds k op a c va vc b : binary_op k = Some op -> binv b -> ev_has b a va -> ev_has b c vc ->
  builds (bitwise_binary m here a c k) b (fun v b' =>
    ev_has b' v (bitwise_value op (ev_is_signed a && ev_is_signed c) va vc) /\ ev_is_signed v = ev_is_signed a && ev_is_signed c).
Proof.
  intros Hk Hb Ha Hc. pose proof (max_width_pos _ _ _ _ _ Ha Hc) as Hw. unfold bitwise_binary.
  rewrite (ev_width _ _ _ Ha), (ev_width _ _ _ Hc). set (sg := ev_is_signed a && ev_is_signed c).
  pose proof (bitwise_value_length op sg va vc Hw) as Hl. unfold bitwise_value in *.
  set (w := Nat.max (length va) (length vc)) in *.
  step (resize_to_builds a va w sg). step (resize_to_builds c vc w sg). destruct (w =? 1)%nat eqn:Ew.
  - apply Nat.eqb_eq in Ew. rewrite Ew in *. apply one_root in Hr, Hr0.
    eapply builds_bind; [apply _|intros ?; grows|done|by eapply binary_builds|].
    intros o b' Hb' He Ho. cbv beta in Ho. apply builds_ret; [done|]. split; [|done].
    unfold resized, resize_list. simpl. by apply scalar_has.
  - eapply builds_bind; [apply _|intros ?; grows|done| |].
    { apply (map2_builds _ op (fun _ => True)); [intros ? ?; apply _|done| |done|done|exact Hr|exact Hr0].
      intros. by eapply binary_builds. }
    intros out b' Hb' He Ho. cbv beta in Ho.
    eapply builds_mono; [eapply vector_builds; [done|exact Ho|]|by intros ? ? _ _ (? & ? & _)].
    intros En. apply (f_equal length) in En. simpl in En. lia.
Qed.

(** The conjunction of the comparisons of the bits. *)
Definition conj_value (l : list logic_t) : logic_t := fold_left logic_and (tail l) (hd sX l).
Definition cmp_value (op : logic_t -> logic_t -> logic_t) (sg : bool) (va vb : list logic_t) : logic_t :=
  conj_value (bitwise_value op sg va vb).

Lemma all_equal_builds k op av : binary_op k = Some op -> forall bv r va vb v b, binv b -> hasl b av va -> hasl b bv vb -> has b r v ->
  builds (all_equal m here k r av bv) b (fun r' b' => has b' r' (fold_left logic_and (zip_with op va vb) v)).
Proof.
  intros Hk. induction av as [|a av IH]; intros bv r va vb v b Hb Ha Hv Hr.
  { apply Forall2_nil_inv_l in Ha as ->. by apply builds_ret. }
  apply Forall2_cons_inv_l in Ha as (xa & va' & Hxa & Ha & ->). destruct bv as [|b0 bv].
  { apply Forall2_nil_inv_l in Hv as ->. by apply builds_ret. }
  apply Forall2_cons_inv_l in Hv as (xb & vb' & Hxb & Hv & ->). cbn [all_equal zip_with fold_left].
  eapply builds_bind; [apply _|intros ?; grows|done|by eapply binary_builds|].
  intros o b' Hb' He Ho. lift_ev He. clear He. step (and_builds m here values E0 Hagree r o). by apply IH.
Qed.

Lemma compare_builds k op a c va vc b : binary_op k = Some op -> binv b -> ev_has b a va -> ev_has b c vc ->
  builds (compare_bits m here k a c) b (fun r b' => has b' r (cmp_value op (ev_is_signed a && ev_is_signed c) va vc)).
Proof.
  intros Hk Hb Ha Hc. pose proof (max_width_pos _ _ _ _ _ Ha Hc) as Hw. unfold compare_bits.
  rewrite (ev_width _ _ _ Ha), (ev_width _ _ _ Hc). set (sg := ev_is_signed a && ev_is_signed c).
  unfold cmp_value, bitwise_value. set (w := Nat.max (length va) (length vc)) in *.
  step (resize_to_builds a va w sg). step (resize_to_builds c vc w sg).
  pose proof (resized_length sg w va Hw) as La. pose proof (resized_length sg w vc Hw) as Lc.
  destruct Hr as [|x vx rs vs Hx Hrs]; [simpl in La; lia|]. destruct Hr0 as [|y vy rs' vs' Hy Hrs']; [simpl in Lc; lia|].
  cbn [front hd tail zip_with conj_value].
  eapply builds_bind; [apply _|intros ?; grows|done|by eapply binary_builds|].
  intros o b' Hb' He Ho. lift_ev He. clear He. by apply all_equal_builds.
Qed.

Fixpoint lt4 (va vb : list logic_t) (e l : logic_t) : logic_t :=
  match va, vb with
  | a :: va', c :: vb' => lt4 va' vb' (logic_and e (op_eq a c)) (logic_or l (logic_and e (logic_and (logic_not a) c)))
  | _, _ => l
  end.

Lemma lt_loop_builds av : forall bv e l va vb ve vl b, binv b -> hasl b av va -> hasl b bv vb -> has b e ve -> has b l vl ->
  builds (lt_loop m here av bv e l) b (fun r b' => has b' r (lt4 va vb ve vl)).
Proof.
  induction av as [|a av IH]; intros bv e l va vb ve vl b Hb Ha Hv He Hl.
  { apply Forall2_nil_inv_l in Ha as ->. by apply builds_ret. }
  apply Forall2_cons_inv_l in Ha as (xa & va' & Hxa & Ha & ->). destruct bv as [|b0 bv].
  { apply Forall2_nil_inv_l in Hv as ->. by apply builds_ret. }
  apply Forall2_cons_inv_l in Hv as (xb & vb' & Hxb & Hv & ->). cbn [lt_loop lt4].
  eapply builds_bind; [apply _|intros ?; grows|done|by apply (binary_builds m here values E0 Hagree ek_binary_eq op_eq a b0 xa xb)|].
  intros q b' Hb' Hx Hq. lift_ev Hx. clear Hx.
  step (not_builds m here values E0 Hagree a). step (and_builds m here values E0 Hagree r b0).
  step (and_builds m here values E0 Hagree e r0). step (or_builds m here values E0 Hagree l r1).
  step (and_builds m here values E0 Hagree e q). by apply IH.
Qed.

Definition lt_value (sg : bool) (va vb : list logic_t) : logic_t :=
  let w := Nat.max (length va) (length vb) in
  let ra := resized sg w va in let rb := resized sg w vb in
  if sg then
    if (w <=? 1)%nat then logic_and (hd sX ra) (logic_not (hd sX rb))
    else mux (logic_xor (hd sX ra) (hd sX rb)) (logic_and (hd sX ra) (logic_not (hd sX rb))) (lt4 (tail ra) (tail rb) sH sL)
  else lt4 ra rb sH sL.

Lemma hasl_front b rs vs : hasl b rs vs -> vs <> [] -> has b (front rs) (hd sX vs).
Proof. by intros []. Qed.
Lemma hasl_tail b rs vs : hasl b rs vs -> hasl b (tail rs) (tail vs).
Proof. intros []; [constructor|done]. Qed.

Lemma lt_builds a c va vc b : binv b -> ev_has b a va -> ev_has b c vc ->
  builds (compare_lt m here a c) b (fun r b' => has b' r (lt_value (ev_is_signed a && ev_is_signed c) va vc)).
Proof.
  intros Hb Ha Hc. unfold compare_lt, lt_value.
  rewrite (ev_width _ _ _ Ha), (ev_width _ _ _ Hc). set (sg := ev_is_signed a && ev_is_signed c).
  set (w := Nat.max (length va) (length vc)) in *.
  pose proof (resize_nonempty sg w va (proj2 Ha)) as Na. pose proof (resize_nonempty sg w vc (proj2 Hc)) as Nc.
  step (resize_to_builds a va w sg). step (resize_to_builds c vc w sg).
  pose proof (hasl_front _ _ _ Hr Na) as Fa. pose proof (hasl_front _ _ _ Hr0 Nc) as Fc.
  pose proof (hasl_tail _ _ _ Hr) as Ta. pose proof (hasl_tail _ _ _ Hr0) as Tc.
  destruct sg; [destruct (w <=? 1)%nat|].
  - step (not_builds m here values E0 Hagree (front r0)). by apply and_builds.
  - step (xor_builds m here values E0 Hagree (front r)). step (not_builds m here values E0 Hagree (front r0)).
    step (and_builds m here values E0 Hagree (front r) r2).
    step (literal_builds m here values E0 Hagree sH). step (literal_builds m here values E0 Hagree sL).
    step (lt_loop_builds (tail r)). by apply mux_builds.
  - step (literal_builds m here values E0 Hagree sH). step (literal_builds m here values E0 Hagree sL).
    by apply lt_loop_builds.
Qed.

(** ** The conditional *)

Lemma to_bool_builds v vs b : binv b -> ev_has b v vs ->
  builds (to_bool_root m here v) b (fun r b' => has b' r (fold_left logic_or (tail vs) (hd sX vs))).
Proof.
  intros Hb [Hv Hne]. unfold to_bool_root, roots_of in *. destruct (ev_is_vector v).
  - destruct Hv as [|r x rs vs Hr Hv]; [done|]. apply (fold_builds _ logic_or); [intros ? ?; apply _| |done|done|done].
    intros. by apply or_builds.
  - apply Forall2_cons_inv_l in Hv as (x & l & Hx & Hl & ->). apply Forall2_nil_inv_l in Hl as ->. by apply builds_ret.
Qed.

Definition cond_value (sg : bool) (sel : logic_t) (vt vf : list logic_t) : list logic_t := bitwise_value (mux sel) sg vt vf.

Lemma conditional_builds c t f vc vt vf b : binv b -> ev_has b c vc -> ev_has b t vt -> ev_has b f vf ->
  builds (make_conditional m here c t f) b (fun v b' =>
    ev_has b' v (cond_value (ev_is_signed t && ev_is_signed f) (fold_left logic_or (tail vc) (hd sX vc)) vt vf)).
Proof.
  intros Hb Hc Ht Hf. pose proof (max_width_pos _ _ _ _ _ Ht Hf) as Hw. unfold make_conditional.
  rewrite (ev_width _ _ _ Ht), (ev_width _ _ _ Hf). step (to_bool_builds c). cbv zeta.
  set (sg := ev_is_signed t && ev_is_signed f). set (sel := fold_left _ _ _) in *.
  pose proof (bitwise_value_length (mux sel) sg vt vf Hw) as Hl. unfold cond_value, bitwise_value in *.
  set (w := Nat.max (length vt) (length vf)) in *. destruct (w <=? 1)%nat eqn:Ew.
  - apply Nat.leb_le in Ew. assert (E1 : w = 1%nat) by lia. rewrite E1 in *.
    step (resize_to_builds t vt 1). step (resize_to_builds f vf 1). apply one_root in Hr0, Hr1.
    step mux_builds. apply builds_ret; [done|]. unfold resized, resize_list. simpl. by apply scalar_has.
  - step (resize_to_builds t vt w). step (resize_to_builds f vf w).
    eapply builds_bind; [apply _|intros ?; grows|done| |].
    { apply (map2_builds _ (mux sel) (fun b => has b r sel)); [intros ? ?; apply _| | |done|done|exact Hr0|exact Hr1].
      - intros ? ? ? Hx. by apply (has_ext _ _ _ _ _ Hx).
      - intros. by apply mux_builds. }
    intros out b' Hb' He Ho. cbv beta in Ho.
    eapply builds_mono; [eapply vector_builds; [done|exact Ho|]|by intros ? ? _ _ (? & ? & _)].
    intros En. apply (f_equal length) in En. simpl in En. lia.
Qed.

(** ** Literals *)

Lemma literals_builds l : forall b, binv b -> builds (bmap (make_literal m here) l) b (fun rs b' => hasl b' rs l).
Proof.
  induction l as [|v l IH]; intros b Hb; [by apply builds_ret|]. cbn [bmap].
  step (literal_builds m here values E0 Hagree v). step IH. apply builds_ret; [done|]. by constructor.
Qed.

Lemma literal_bits_word n w : 0 <= n < 2 ^ 64 -> literal_bits n false w = bits (lsbs w n).
Proof.
  intros Hn. apply list_eq. intros i. unfold literal_bits, bits. rewrite !list_lookup_fmap.
  destruct (decide (i < w)%nat) as [Hi|Hi].
  - rewrite (lookup_seq_lt _ _ _ Hi), lsbs_lookup by done. simpl. f_equal. unfold bit. f_equal.
    destruct (Z.of_nat i <? 64) eqn:E; [done|]. apply Z.ltb_ge in E. symmetry. destruct (decide (n = 0)) as [->|Hne]; [apply Z.bits_0|].
    apply Z.bits_above_log2; [lia|]. enough (Z.log2 n < 64) by lia. apply Z.log2_lt_pow2; lia.
  - rewrite !lookup_ge_None_2; [done|rewrite lsbs_length; lia|rewrite length_seq; lia].
Qed.

Lemma uint_builds n w b : 0 <= n < 2 ^ 64 -> (1 <= w)%nat -> binv b ->
  builds (make_uint_literal m here n w) b (fun v b' => ev_has b' v (word w n) /\ ev_is_signed v = false).
Proof.
  intros Hn Hw Hb. unfold make_uint_literal. destruct (w <=? 1)%nat eqn:Ew.
  - apply Nat.leb_le in Ew. assert (E1 : w = 1%nat) by lia. rewrite E1. step (literal_builds m here values E0 Hagree).
    apply builds_ret; [done|]. split; [|done]. rewrite Z.bit0_odd in Hr. by apply scalar_has.
  - step literals_builds. rewrite literal_bits_word in Hr by done. apply hasl_rev in Hr.
    eapply builds_mono; [eapply vector_builds; [done|exact Hr|]|].
    + intros En. apply (f_equal length) in En. unfold bits in En. rewrite length_rev, length_map, lsbs_length in En. simpl in En. lia.
    + intros v b' _ _ (H1 & H2 & _). split; [|done]. unfold word, bits in *. by rewrite map_rev.
Qed.
End Spec.

(** The same tactics outside of the section. *)
Ltac lift_words E :=
  lift_roots E;
  repeat match type of E with ext ?b ?b' => match goal with H : ev_has _ b _ _ |- _ => apply (ev_has_ext _ _ _ _ _ E) in H end end.
Ltac wstep L :=
  eapply builds_bind; [apply _|intros ?; grows|eassumption|eapply L; eassumption || reflexivity|];
  let x := fresh "r" in let b := fresh "b" in let Hb := fresh "Hb" in let He := fresh "He" in let Hx := fresh "Hr" in
  intros x b Hb He Hx; lift_words He; clear He.
