(* ===== verification/VMul.v ===== *)
(** * VMul: multiplication

    [arith_mul] builds rows of partial products, or for two words of 8 bits
    the products of pairs of bits, and adds them up; the specifications of the
    loops say what the sums are. *)

From Stdlib Require Import ZArith Lia.
From stdpp Require Import base list gmap strings.
From S2P Require Import Prelude Logic4 VData VExpr VBuild VBits VWord VWordSpec.

(** ** The lowered operators on known words

    On words without unknown bits, the functions of the specifications of the
    operators are arithmetic modulo the width of the result; an unknown bit of
    an operand makes every bit of a sum unknown. *)

Open Scope Z_scope.

Lemma any_unknown_bits bs : any_unknown (bits bs) = false.
Proof. induction bs as [|b bs IH]; [done|]. simpl. rewrite IH. by destruct b. Qed.

Lemma known_bits vs : any_unknown vs = false -> exists bs, vs = bits bs.
Proof.
  induction vs as [|v vs IH]; simpl; [by exists []|]. intros [Hv H]%orb_false_iff. destruct (IH H) as [bs ->].
  destruct v; try done; [by exists (false :: bs)|by exists (true :: bs)].
Qed.

(** The bits of a value, the least significant one first, and its number. *)
Definition bools (vs : list logic_t) : list bool := rev (map (fun v => dns_eqb v sH) vs).
Definition value_num (sg : bool) (vs : list logic_t) : Z := number sg (bools vs).

Lemma known_bools vs : any_unknown vs = false -> vs = bits (rev (bools vs)).
Proof.
  intros [bs ->]%known_bits. unfold bools. rewrite rev_involutive. f_equal. unfold bits. rewrite map_map.
  rewrite <- (map_id bs) at 1. apply map_ext. by intros [].
Qed.
Lemma bools_length vs : length (bools vs) = length vs.
Proof. unfold bools. by rewrite length_rev, length_map. Qed.
Lemma bools_nonempty vs : vs <> [] -> bools vs <> [].
Proof. intros H E. apply (f_equal length) in E. rewrite bools_length in E. by destruct vs. Qed.

Lemma mask_known vs : any_unknown vs = false -> map (mux (bit false) sX) vs = vs.
Proof.
  intros [bs ->]%known_bits. unfold bits. rewrite map_map. apply map_ext. by intros [].
Qed.
Lemma mask_unknowns vs : map (mux (bit true) sX) vs = replicate (length vs) sX.
Proof. induction vs as [|v vs IH]; [done|]. cbn [map length replicate]. by rewrite IH, mux_unknown. Qed.

Lemma bits_length bs : length (bits bs) = length bs.
Proof. apply length_map. Qed.
Lemma bits_rev bs : bits (rev bs) = rev (bits bs).
Proof. apply map_rev. Qed.
Lemma bits_app l k : bits (l ++ k) = bits l ++ bits k.
Proof. apply map_app. Qed.
Lemma bits_replicate n b : bits (replicate n b) = replicate n (bit b).
Proof. apply fmap_replicate. Qed.
Lemma bits_drop n l : bits (drop n l) = drop n (bits l).
Proof. unfold bits. change (bit <$> drop n l = drop n (bit <$> l)). apply fmap_drop. Qed.
Lemma bits_take n l : bits (take n l) = take n (bits l).
Proof. unfold bits. change (bit <$> take n l = take n (bit <$> l)). apply fmap_take. Qed.
Lemma bits_last l : l <> [] -> List.last (bits l) sX = bit (List.last l false).
Proof. induction l as [|b l IH]; [done|]. intros _. destruct l; [done|]. by apply IH. Qed.

Lemma word_known w n : any_unknown (word w n) = false.
Proof. apply any_unknown_bits. Qed.

(** ** Resizing *)

Lemma last_rev {A} (l : list A) d : List.last (rev l) d = hd d l.
Proof. destruct l as [|x l]; [done|]. simpl rev. by rewrite last_last. Qed.
Lemma hd_rev {A} (l : list A) d : hd d (rev l) = List.last l d.
Proof. rewrite <- (rev_involutive l) at 2. by rewrite last_rev. Qed.

Lemma resized_same sg w vs : (2 <= w)%nat -> length vs = w -> resized sg w vs = vs.
Proof.
  intros Hw Hl. unfold resized, resize_list. rewrite Hl, Nat.eqb_refl. destruct (w <=? 1)%nat eqn:E; [|done].
  apply Nat.leb_le in E. lia.
Qed.

Lemma resized_word sg w bs : (1 <= w)%nat -> bs <> [] -> resized sg w (bits (rev bs)) = word w (number sg bs).
Proof.
  intros Hw Hne. unfold word. rewrite <- resize_known. unfold resized, resize_list, resize_bits.
  rewrite bits_length, length_rev. assert (Hl : (1 <= length bs)%nat) by (destruct bs; [done|simpl; lia]).
  destruct (w <=? 1)%nat eqn:E1.
  { apply Nat.leb_le in E1. assert (w = 1%nat) as -> by lia. rewrite bits_last.
    - rewrite last_rev. destruct bs as [|b bs]; [done|]. done.
    - intros E. apply (f_equal length) in E. rewrite length_rev in E. simpl in E. lia. }
  destruct (length bs =? w)%nat eqn:E2.
  { apply Nat.eqb_eq in E2. rewrite <- E2, Nat.sub_diag. by rewrite take_ge, app_nil_r by done. }
  apply Nat.eqb_neq in E2. destruct (w <? length bs)%nat eqn:E3.
  - apply Nat.ltb_lt in E3. replace (w - length bs)%nat with 0%nat by lia. rewrite app_nil_r, <- bits_drop. f_equal.
    assert (Er : rev bs = rev (drop w bs) ++ rev (take w bs)) by (by rewrite <- rev_app_distr, take_drop).
    rewrite Er, drop_app_length'; [done|]. by rewrite length_rev, length_drop.
  - apply Nat.ltb_ge in E3. rewrite take_ge, rev_app_distr, bits_app by lia. f_equal.
    rewrite rev_replicate, bits_replicate. f_equal. destruct sg; [|done].
    rewrite <- hd_rev. destruct (rev bs) eqn:Er; [|done]. apply (f_equal length) in Er. rewrite length_rev in Er. simpl in Er. lia.
Qed.

(** ** Sums *)

Lemma ripple4_bits invert l k c :
  ripple4 invert (bits l) (bits k) (bit c) = bits (ripple l (if invert then map negb k else k) c).
Proof.
  revert k c. induction l as [|x l IH]; intros [|y k] c; try by destruct invert.
  cbn [bits map ripple4]. change (map bit l) with (bits l). change (map bit k) with (bits k).
  destruct invert; cbn [map ripple]; rewrite ?not_bit, !and_bit, !xor_bit, !or_bit, IH; done.
Qed.

Lemma ripple_words (invert : bool) w n k :
  ripple (lsbs w n) (if invert then map negb (lsbs w k) else lsbs w k) invert = lsbs w (if invert then n - k else n + k).
Proof. destruct invert; rewrite ?lsbs_not, ripple_adds; f_equal; simpl; lia. Qed.

(** A sum or difference of known operands. *)
Lemma sum_known (invert sg : bool) l k : l <> [] -> k <> [] ->
  let n := number sg l in let o := number sg k in
  sum_value invert sg (bits (rev l)) (bits (rev k)) =
  word (Nat.max (length l) (length k)) (if invert then n - o else n + o).
Proof.
  intros Hl Hk n o. unfold sum_value. rewrite !any_unknown_bits, !bits_length, !length_rev. simpl orb.
  assert (1 <= length l)%nat by (destruct l; [done|simpl; lia]). set (w := Nat.max _ _). destruct (w <=? 1)%nat eqn:Ew.
  - apply Nat.leb_le in Ew. assert (Ew1 : w = 1%nat) by lia. rewrite Ew1. destruct l as [|x [|]], k as [|y [|]]; simpl in *; try lia; try done.
    destruct invert, sg, x, y; reflexivity.
  - apply Nat.leb_gt in Ew. rewrite !resized_word by (lia || done). fold n o. unfold word at 1 2.
    rewrite <- !bits_rev, !rev_involutive, ripple4_bits, ripple_words, <- bits_rev, mask_known by apply any_unknown_bits. done.
Qed.

Lemma sum_unknown invert sg va vb : any_unknown va || any_unknown vb = true ->
  sum_value invert sg va vb = replicate (Nat.max (length va) (length vb)) sX.
Proof.
  intros H. unfold sum_value. rewrite H.
  assert (1 <= Nat.max (length va) (length vb))%nat by (destruct va, vb; simpl in *; try done; lia).
  destruct (_ <=? 1)%nat eqn:Ew.
  - apply Nat.leb_le in Ew. assert (Nat.max (length va) (length vb) = 1%nat) as -> by lia. by rewrite mux_unknown.
  - apply Nat.leb_gt in Ew. rewrite mask_unknowns, length_rev, ripple4_length, !length_rev, !resized_length by lia. f_equal. lia.
Qed.

Lemma sum_length invert sg va vb : va <> [] -> length (sum_value invert sg va vb) = Nat.max (length va) (length vb).
Proof.
  intros H. assert (1 <= length va)%nat by (destruct va; [done|simpl; lia]). unfold sum_value.
  destruct (_ <=? 1)%nat eqn:Ew; [apply Nat.leb_le in Ew; simpl; lia|]. apply Nat.leb_gt in Ew.
  rewrite length_map, length_rev, ripple4_length, !length_rev, !resized_length by lia. lia.
Qed.

(** Words of the same width, signed or not. *)
Lemma number_lsbs sg w n : (1 <= w)%nat -> lsbs w (number sg (lsbs w n)) = lsbs w n.
Proof.
  intros Hw. rewrite <- resize_known. unfold resize_bits. by rewrite lsbs_length, Nat.sub_diag, take_ge, app_nil_r by (rewrite lsbs_length; lia).
Qed.
Lemma lsbs_eq_mod w n k : lsbs w n = lsbs w k -> n mod 2 ^ Z.of_nat w = k mod 2 ^ Z.of_nat w.
Proof. intros H. by rewrite <- !num_of_lsbs, H. Qed.
Lemma word_mod w n k : n mod 2 ^ Z.of_nat w = k mod 2 ^ Z.of_nat w -> word w n = word w k.
Proof. intros H. unfold word. by rewrite (lsbs_mod w n k H). Qed.
Lemma lsbs_nonempty w n : (1 <= w)%nat -> lsbs w n <> [].
Proof. destruct w; [lia|done]. Qed.

Lemma sum_words (invert sg : bool) w n k : (1 <= w)%nat ->
  sum_value invert sg (word w n) (word w k) = word w (if invert then n - k else n + k).
Proof.
  intros Hw. unfold word at 1 2. rewrite sum_known by (by apply lsbs_nonempty). rewrite !lsbs_length, Nat.max_id.
  apply word_mod. pose proof (lsbs_eq_mod _ _ _ (number_lsbs sg w n Hw)) as H1.
  pose proof (lsbs_eq_mod _ _ _ (number_lsbs sg w k Hw)) as H2.
  destruct invert; rewrite ?(Zminus_mod _ (number _ _)), ?(Zplus_mod _ (number _ _)), H1, H2, <- ?Zminus_mod, <- ?Zplus_mod; done.
Qed.

(** ** Comparisons *)

Lemma lt4_bits l k e lt : lt4 (bits l) (bits k) (bit e) (bit lt) = bit (lt_msb l k e lt).
Proof.
  revert k e lt. induction l as [|x l IH]; intros [|y k] e lt; try done. cbn [bits map lt4 lt_msb].
  change (map bit l) with (bits l). change (map bit k) with (bits k). by rewrite eq_bit, not_bit, !and_bit, or_bit, IH.
Qed.

Lemma bits_hd l : l <> [] -> hd sX (bits l) = bit (hd false l).
Proof. by destruct l. Qed.
Lemma bits_tail l : tail (bits l) = bits (tail l).
Proof. by destruct l. Qed.

Lemma int_of_cons b l : l <> [] -> int_of (b :: l) = Z.b2z b + 2 * int_of l.
Proof. by destruct l. Qed.

Lemma int_of_ext bs n : bs <> [] -> int_of (bs ++ replicate n (List.last bs false)) = int_of bs.
Proof.
  induction bs as [|b bs IH]; [done|]. intros _. destruct bs as [|b' bs].
  - simpl List.last. clear IH. induction n as [|n IH]; [done|]. cbn [app replicate] in *. rewrite int_of_cons by done.
    rewrite IH. by destruct b.
  - change (List.last (b :: b' :: bs) false) with (List.last (b' :: bs) false). rewrite <- app_comm_cons, !int_of_cons by done.
    by rewrite IH.
Qed.

Lemma number_lsbs_id sg w bs : (length bs <= w)%nat -> bs <> [] -> number sg (lsbs w (number sg bs)) = number sg bs.
Proof.
  intros Hw Hne. destruct sg; simpl.
  - rewrite lsbs_int_ext, take_ge by done. by apply int_of_ext.
  - rewrite num_of_lsbs. apply Z.mod_small. pose proof (num_of_range bs). split; [lia|].
    eapply Z.lt_le_trans; [apply H|]. apply Z.pow_le_mono_r; lia.
Qed.

(** [compare_lt] of known operands. *)
Lemma lt_known sg l k : l <> [] -> k <> [] -> lt_value sg (bits (rev l)) (bits (rev k)) = bit (number sg l <? number sg k).
Proof.
  intros Hl Hk. unfold lt_value. rewrite !bits_length, !length_rev.
  assert (1 <= length l)%nat by (destruct l; [done|simpl; lia]). set (w := Nat.max _ _).
  rewrite !resized_word by (lia || done). rewrite <- (number_lsbs_id sg w l), <- (number_lsbs_id sg w k) by (lia || done).
  unfold word. rewrite !number_lsbs by lia. pose proof (lsbs_length w (number sg l)) as Wl. pose proof (lsbs_length w (number sg k)) as Wk.
  set (p := lsbs w (number sg l)) in *. set (q := lsbs w (number sg k)) in *. clearbody p q.
  rewrite <- (rev_involutive p) in *. rewrite <- (rev_involutive q) in *. rewrite length_rev in Wl, Wk.
  set (p' := rev p) in *. set (q' := rev q) in *. clearbody p' q'. clear p q. rewrite !rev_involutive.
  assert (Hne : p' <> []) by (intros ->; simpl in *; lia). assert (Hlen : length p' = length q') by lia.
  destruct sg; simpl number.
  - rewrite <- lt_signed_spec by done. destruct p' as [|x p], q' as [|y q]; try done. cbn [bits map hd tail lt_signed].
    destruct (w <=? 1)%nat eqn:Ew.
    + apply Nat.leb_le in Ew. destruct p, q; simpl in *; try lia. by destruct x, y.
    + change (lt4 (map bit p) (map bit q) sH sL) with (lt4 (bits p) (bits q) (bit true) (bit false)).
      by rewrite lt4_bits, xor_bit, not_bit, and_bit, mux_bit.
  - change (lt4 (bits p') (bits q') sH sL) with (lt4 (bits p') (bits q') (bit true) (bit false)).
    rewrite lt4_bits, lt_msb_spec by done. by rewrite <- !msb_rev, !rev_involutive.
Qed.

Lemma conj_bits l : l <> [] -> conj_value (bits l) = bit (forallb id l).
Proof.
  destruct l as [|x l]; [done|]. intros _. unfold conj_value. cbn [bits map hd tail forallb]. change (map bit l) with (bits l).
  change (id x) with x. revert x. induction l as [|y l IH]; intros x; [simpl; by rewrite andb_true_r|].
  cbn [bits map fold_left forallb]. rewrite and_bit. change (map bit l) with (bits l). rewrite IH. f_equal. by rewrite andb_assoc.
Qed.

Lemma zip_eq_bits l k : zip_with op_eq (bits l) (bits k) = bits (zip_with eqb l k).
Proof.
  revert k. induction l as [|x l IH]; intros [|y k]; try done. cbn [bits map zip_with]. rewrite eq_bit. f_equal. apply IH.
Qed.

Lemma forallb_eqb l k : length l = length k -> forallb id (zip_with eqb l k) = bool_decide (l = k).
Proof.
  revert k. induction l as [|x l IH]; intros [|y k] H; try done; simpl in *. rewrite IH by lia.
  destruct x, y; simpl; try done; apply bool_decide_ext; split; congruence.
Qed.

(** [compare_eq] of known operands. *)
Lemma eq_known sg l k : l <> [] -> k <> [] -> cmp_value op_eq sg (bits (rev l)) (bits (rev k)) = bit (number sg l =? number sg k).
Proof.
  intros Hl Hk. unfold cmp_value, bitwise_value. rewrite !bits_length, !length_rev.
  assert (1 <= length l)%nat by (destruct l; [done|simpl; lia]). set (w := Nat.max _ _).
  rewrite !resized_word by (lia || done). unfold word. rewrite zip_eq_bits, conj_bits.
  - rewrite forallb_eqb by (by rewrite !length_rev, !lsbs_length). f_equal.
    destruct (Z.eqb_spec (number sg l) (number sg k)) as [->|Hn]; [by apply bool_decide_eq_true|].
    apply bool_decide_eq_false. intros E. apply Hn. apply (f_equal (@rev bool)) in E. rewrite !rev_involutive in E.
    rewrite <- (number_lsbs_id sg w l), <- (number_lsbs_id sg w k) by (lia || done). by rewrite E.
  - intros E. apply (f_equal length) in E. rewrite length_zip_with, !length_rev, !lsbs_length in E. simpl in E. lia.
Qed.

Open Scope Z_scope.

(** ** Shifted words *)

Lemma lsbs_shift k w n : lsbs w (n * 2 ^ Z.of_nat k) = replicate (Nat.min k w) false ++ lsbs (w - k) n.
Proof.
  revert w. induction k as [|k IH]; intros w; [by rewrite Z.mul_1_r, Nat.sub_0_r|].
  destruct w as [|w]; [done|]. rewrite Nat2Z.inj_succ, Z.pow_succ_r by lia.
  replace (n * (2 * 2 ^ Z.of_nat k)) with (Z.b2z false + 2 * (n * 2 ^ Z.of_nat k)) by (simpl; lia).
  rewrite lsbs_cons, IH. done.
Qed.

Lemma drop_rev {A} k (l : list A) : drop k (rev l) = rev (take (length l - k) l).
Proof.
  assert (E : rev l = rev (drop (length l - k) l) ++ rev (take (length l - k) l)) by (by rewrite <- rev_app_distr, take_drop).
  destruct (decide (k <= length l)%nat) as [H|H].
  - rewrite E, drop_app_length'; [done|]. rewrite length_rev, length_drop. lia.
  - rewrite drop_ge by (rewrite length_rev; lia). replace (length l - k)%nat with 0%nat by lia. done.
Qed.

Lemma word_shifted k w n : word w (n * 2 ^ Z.of_nat k) = shifted_left sL k (word w n).
Proof.
  unfold word, shifted_left. rewrite lsbs_shift, rev_app_distr, bits_app, rev_replicate, bits_replicate, bits_length, length_rev, lsbs_length.
  f_equal. rewrite <- bits_drop, drop_rev, lsbs_length. by rewrite lsbs_take by lia.
Qed.

Lemma row_word k w n b :
  map (fun v => logic_and v (bit b)) (drop k (word w n)) ++ replicate (Nat.min k w) sL = word w (n * 2 ^ Z.of_nat k * Z.b2z b).
Proof.
  destruct b; simpl Z.b2z.
  - rewrite Z.mul_1_r, word_shifted. unfold shifted_left. rewrite word_length. f_equal.
    unfold word. rewrite <- bits_drop. generalize (drop k (rev (lsbs w n))). induction l as [|x l IH]; [done|].
    cbn [bits map]. f_equal; [by destruct x|exact IH].
  - rewrite Z.mul_0_r. unfold word. rewrite lsbs_zero, rev_replicate, bits_replicate, <- bits_drop.
    pose proof (length_drop (rev (lsbs w n)) k) as E. rewrite length_rev, lsbs_length in E. revert E.
    generalize (drop k (rev (lsbs w n))) as l. intros l E.
    assert (E' : map (fun v => logic_and v (bit false)) (bits l) = replicate (length l) sL).
    { clear E. induction l as [|x l IH]; [done|]. cbn [bits map length replicate]. f_equal; [by destruct x|exact IH]. }
    rewrite E', <- replicate_add. f_equal. lia.
Qed.

Section Mul.
Context (m : compiled_module) (here : Z * Z) (values : list logic_t) (E0 : list compile_error).
Context (Hagree : consts_agree m values).

Abbreviation has := (has values).
Abbreviation binv := (binv E0).
Abbreviation builds := (builds E0).
Abbreviation hasl b := (Forall2 (has b)).
Abbreviation ev_has := (ev_has values).

#[local] Set Default Proof Using "Type*".

(** ** Rows *)

Lemma row_builds z av k r va v b : binv b -> has b z sL -> hasl b av va -> has b r v ->
  builds (partial_row m here z av k r) b (fun rs b' =>
    hasl b' rs (map (fun x => logic_and x v) (drop k va) ++ replicate (Nat.min k (length va)) sL)).
Proof.
  intros Hb Hz Ha Hr. unfold partial_row. rewrite (Forall2_length _ _ _ Ha).
  eapply builds_bind; [apply _|intros ?; grows|done| |].
  { apply (map_builds m values E0 Hagree _ (fun x => logic_and x v) (fun b => has b r v)).
    1: intros ?; apply _. 1: intros ? ? ? Hx; by apply (has_ext _ _ _ _ _ Hx).
    { intros. by apply and_builds. } { done. } { done. } by apply Forall2_drop. }
  intros rs b' Hb' He Hrs. lift_words He. apply builds_ret; [done|]. apply Forall2_app; [done|]. by apply Forall2_replicate.
Qed.

(** One addition of the accumulation. *)
Lemma accumulate_builds w sg acc row vacc vrow b : binv b -> (2 <= w)%nat -> ev_has b acc vacc -> hasl b row vrow ->
  length vacc = w -> length vrow = w -> ev_is_signed acc = sg ->
  builds (add_partial m here sg acc row) b (fun v b' =>
    ev_has b' v (sum_value false sg vacc vrow) /\ ev_is_signed v = sg).
Proof.
  intros Hb Hw Ha Hr La Lr Hs. unfold add_partial.
  eapply builds_bind; [apply _|intros ?; apply _|done|apply (vector_builds m here values E0 Hagree); [done|exact Hr|intros ->; simpl in *; lia]|].
  intros p b1 Hb1 He (Hp & Hps & _). lift_words He.
  eapply builds_mono; [by apply (sum_builds m here values E0 Hagree)|]. intros v b' _ _. cbv beta. by rewrite Hs, Hps, andb_diag.
Qed.

(** The value of an accumulator: its width, and its number when the operands
    are known. *)
Definition accumulated (w : nat) (sg : bool) (K : Prop) (n : Z) (b : bstate) (v : expr_value) : Prop :=
  exists vs, ev_has b v vs /\ length vs = w /\ ev_is_signed v = sg /\ (K -> vs = word w n).

Lemma accumulated_ext w sg K n b b' v : ext b b' -> accumulated w sg K n b v -> accumulated w sg K n b' v.
Proof. intros E (vs & H & ? & ? & ?). exists vs. by split_and!; [apply (ev_has_ext _ _ _ _ _ E)|..]. Qed.

Lemma accumulated_step w sg (K : Prop) n k row vrow acc b : binv b -> (2 <= w)%nat -> accumulated w sg K n b acc ->
  hasl b row vrow -> length vrow = w -> (K -> vrow = word w k) ->
  builds (add_partial m here sg acc row) b (fun v b' => accumulated w sg K (n + k) b' v).
Proof.
  intros Hb Hw (va & Ha & La & Hs & HK) Hr Lr Hk. eapply builds_mono; [by eapply (accumulate_builds w sg)|].
  intros v b' _ _ [Hv Hsv]. exists (sum_value false sg va vrow). split_and!; [done| |done|].
  - rewrite sum_length by (intros ->; simpl in *; lia). lia.
  - intros HK'. rewrite (HK HK'), (Hk HK'). apply sum_words. lia.
Qed.

Lemma mul_loop_builds z av va sg w (K : Prop) n bv : (2 <= w)%nat -> length va = w -> (K -> va = word w n) ->
  forall vb bs k acc s b, binv b -> hasl b av va -> hasl b bv vb -> has b z sL -> (K -> vb = bits bs) -> length vb = length bs ->
  accumulated w sg K s b acc ->
  builds (mul_loop m here z av sg k bv acc) b (fun v b' => accumulated w sg K (s + n * 2 ^ Z.of_nat k * num_of bs) b' v).
Proof.
  intros Hw Lv Kv. induction bv as [|r bv IH]; intros vb bs k acc s b Hb Ha Hv Hz HK Lb Hacc.
  - apply Forall2_nil_inv_l in Hv as ->. destruct bs; [|done]. apply builds_ret; [done|]. simpl num_of.
    by rewrite Z.mul_0_r, Z.add_0_r.
  - apply Forall2_cons_inv_l in Hv as (v & vs & Hr & Hv & ->). destruct bs as [|x bs]; [done|]. cbn [mul_loop].
    assert (Kr : K -> v = bit x /\ vs = bits bs) by (intros HK'; specialize (HK HK'); by injection HK).
    assert (Lr : length (map (fun y => logic_and y v) (drop k va) ++ replicate (Nat.min k (length va)) sL) = w).
    { rewrite length_app, length_map, length_drop, length_replicate. lia. }
    eapply builds_bind; [apply _|intros ?; grows|done|by apply (row_builds z av k r va v)|].
    intros row b1 Hb1 He Hrow. cbv beta in Hrow. apply (accumulated_ext _ _ _ _ _ _ _ He) in Hacc. lift_words He. clear He.
    eapply builds_bind; [apply _|intros ?; grows|done|eapply (accumulated_step w sg K s (n * 2 ^ Z.of_nat k * Z.b2z x)); try done|].
    { intros HK'. destruct (Kr HK') as [-> _]. rewrite (Kv HK'), word_length. apply row_word. }
    intros acc' b2 Hb2 He Hacc'. cbv beta in Hacc'. lift_words He. clear He.
    eapply builds_mono; [apply (IH vs bs); try done|].
    + intros HK'. by destruct (Kr HK').
    + by injection Lb.
    + intros v' b' _ _. cbv beta. replace (_ + _) with (s + n * 2 ^ Z.of_nat k * num_of (x :: bs)); [done|].
      rewrite Nat2Z.inj_succ, Z.pow_succ_r by lia. simpl num_of. lia.
Qed.

(** ** Tiles of two bits *)

Definition tile_value (a0 a1 b0 b1 : logic_t) : list logic_t :=
  let t1 := logic_and a0 b1 in let t2 := logic_and a1 b0 in let t3 := logic_and a1 b1 in let c1 := logic_and t1 t2 in
  [logic_and t3 c1; logic_xor t3 c1; logic_xor t1 t2; logic_and a0 b0].

Lemma tile_builds a0 a1 b0 b1 v0 v1 w0 w1 b : binv b -> has b a0 v0 -> has b a1 v1 -> has b b0 w0 -> has b b1 w1 ->
  builds (mul2_tile m here a0 a1 b0 b1) b (fun rs b' => hasl b' rs (tile_value v0 v1 w0 w1)).
Proof.
  intros Hb H1 H2 H3 H4. unfold mul2_tile. wstep (and_builds m here values E0 Hagree a0 b0).
  wstep (and_builds m here values E0 Hagree a0 b1). wstep (and_builds m here values E0 Hagree a1 b0).
  wstep (xor_builds m here values E0 Hagree r0 r1). wstep (and_builds m here values E0 Hagree r0 r1).
  wstep (and_builds m here values E0 Hagree a1 b1). wstep (xor_builds m here values E0 Hagree r4 r3).
  wstep (and_builds m here values E0 Hagree r4 r3). apply builds_ret; [done|]. do 4 (constructor; [done|]). constructor.
Qed.

Lemma Forall2_place {A C} (R : A -> C -> Prop) z z' w s l k : Forall2 R l k -> R z z' ->
  Forall2 R (place z w s l) (place z' w s k).
Proof using.
  intros H Hz. unfold place. rewrite !rev_alt. apply Forall2_reverse, Forall2_take, Forall2_app; [by apply Forall2_replicate|].
  apply Forall2_app; [by apply Forall2_reverse|by apply Forall2_replicate].
Qed.

Lemma tile_bits x0 x1 y0 y1 :
  tile_value (bit x0) (bit x1) (bit y0) (bit y1) = word 4 ((Z.b2z x0 + 2 * Z.b2z x1) * (Z.b2z y0 + 2 * Z.b2z y1)).
Proof using. by destruct x0, x1, y0, y1. Qed.

Lemma place_word s n : (s <= 12)%nat -> 0 <= n < 2 ^ 4 -> place sL 16 s (word 4 n) = word 16 (n * 2 ^ Z.of_nat s).
Proof using.
  intros Hs Hn. unfold place, word. rewrite bits_rev, rev_involutive. change sL with (bit false).
  rewrite <- !bits_replicate, <- !bits_app, <- bits_take, <- bits_rev, lsbs_shift. do 2 f_equal.
  assert (En : n = num_of (lsbs 4 n)) by (rewrite num_of_lsbs; symmetry; by apply Z.mod_small). rewrite En at 2.
  rewrite lsbs_num_ext, lsbs_length, (take_ge (lsbs 4 n)) by (rewrite lsbs_length; lia).
  rewrite take_ge by (rewrite !length_app, !length_replicate, lsbs_length; lia). by rewrite Nat.min_l by lia.
Qed.

Definition pair_of (l : list bool) (i : nat) : Z :=
  Z.b2z (default false (l !! (2 * i)%nat)) + 2 * Z.b2z (default false (l !! (2 * i + 1)%nat)).
Lemma pair_range l i : 0 <= pair_of l i < 4.
Proof using. unfold pair_of. destruct (default _ _), (default _ _); simpl; lia. Qed.

Lemma bit_from_has z v vs k b : has b z sL -> hasl b v vs -> has b (bit_from_lsb z v k) (bit_from_lsb sL vs k).
Proof.
  intros Hz H. unfold bit_from_lsb. apply (hasl_rev values) in H. destruct (rev v !! k) as [r|] eqn:E.
  - destruct (Forall2_lookup_l _ _ _ _ _ H E) as (x & -> & Hx). done.
  - apply lookup_ge_None in E. rewrite (Forall2_length _ _ _ H) in E. by rewrite lookup_ge_None_2.
Qed.

Lemma bit_from_bits l k : bit_from_lsb sL (bits (rev l)) k = bit (default false (l !! k)).
Proof using. unfold bit_from_lsb. rewrite <- bits_rev, rev_involutive. unfold bits. rewrite list_lookup_fmap. by destruct (l !! k). Qed.

Lemma mul8_step_builds (K : Prop) z av bv va vb la lb acc n i j b : (i + j <= 6)%nat -> binv b ->
  has b z sL -> hasl b av va -> hasl b bv vb -> (K -> va = bits (rev la) /\ vb = bits (rev lb)) -> accumulated 16 false K n b acc ->
  builds (mul8_step m here z av bv acc (i, j)) b (fun v b' =>
    accumulated 16 false K (n + pair_of la i * pair_of lb j * 2 ^ Z.of_nat (2 * (i + j))) b' v).
Proof.
  intros Hij Hb Hz Ha Hv HK Hacc. unfold mul8_step.
  eapply builds_bind; [apply _|intros ?; grows|done|apply tile_builds; [done|by apply bit_from_has..]|].
  intros prod b1 Hb1 He Hp. cbv beta in Hp. apply (accumulated_ext _ _ _ _ _ _ _ He) in Hacc. lift_words He. clear He.
  eapply (accumulated_step 16 false K); [done|lia|done|by apply Forall2_place| |].
  - unfold place. rewrite length_rev, length_take, !length_app, !length_replicate, length_rev. simpl length. lia.
  - intros HK'. destruct (HK HK') as [-> ->]. rewrite !bit_from_bits, tile_bits. pose proof (pair_range la i). pose proof (pair_range lb j).
    unfold pair_of in *. apply place_word; [lia|nia].
Qed.

Lemma tiles_builds (K : Prop) z av bv va vb la lb l : Forall (fun ij => ij.1 + ij.2 <= 6)%nat l ->
  forall acc n b, binv b -> has b z sL -> hasl b av va -> hasl b bv vb -> (K -> va = bits (rev la) /\ vb = bits (rev lb)) ->
  accumulated 16 false K n b acc ->
  builds (bfold (mul8_step m here z av bv) acc l) b (fun v b' =>
    accumulated 16 false K (fold_left (fun n ij => n + pair_of la ij.1 * pair_of lb ij.2 * 2 ^ Z.of_nat (2 * (ij.1 + ij.2))) l n) b' v).
Proof.
  induction 1 as [|[i j] l Hij Hl IH]; intros acc n b Hb Hz Ha Hv HK Hacc; [by apply builds_ret|]. cbn [bfold fold_left fst snd].
  eapply builds_bind; [apply _|intros ?; grows|done|by apply (mul8_step_builds K z av bv va vb la lb)|].
  intros acc' b1 Hb1 He Hacc'. cbv beta in Hacc'. lift_words He. by apply IH.
Qed.

Lemma tiles_product la lb : length la = 8%nat -> length lb = 8%nat ->
  fold_left (fun n ij => n + pair_of la ij.1 * pair_of lb ij.2 * 2 ^ Z.of_nat (2 * (ij.1 + ij.2))) tiles 0 = num_of la * num_of lb.
Proof using.
  intros Ha Hb. do 9 (destruct la as [|? la]; [try done|]); [|done]. do 9 (destruct lb as [|? lb]; [try done|]); [|done].
  unfold tiles, pair_of. cbn -[Z.add Z.mul Z.b2z Z.pow].
  repeat match goal with |- context [Z.of_nat ?n] => let z := eval compute in (Z.of_nat n) in change (Z.of_nat n) with z end. ring.
Qed.

(** ** The whole multiplication *)

Lemma accumulated_vector w sg K n b v : (2 <= w)%nat -> accumulated w sg K n b v -> ev_is_vector v = true.
Proof.
  intros Hw (vs & [H _] & Hl & _). apply Forall2_length in H. unfold roots_of in H. destruct (ev_is_vector v); [done|].
  simpl in H. lia.
Qed.

(** The bits of the accumulator, masked. *)
Definition product_of (w : nat) (sg u : bool) (n : Z) (b : bstate) (v : expr_value) : Prop :=
  ev_has b v (if u then replicate w sX else word w n) /\ ev_is_signed v = sg.

Lemma finish_builds w sg (u : bool) n r acc b : (2 <= w)%nat -> binv b -> has b r (bit u) -> accumulated w sg (u = false) n b acc ->
  builds (x ← make_literal m here sX; out ← mask_unknown m here r x (ev_vector_roots acc); mret (set_roots acc out sg)) b
    (fun v b' => product_of w sg u n b' v).
Proof.
  intros Hw Hb Hr Hacc. pose proof (accumulated_vector _ _ _ _ _ _ Hw Hacc) as Hv. destruct Hacc as (vs & [Hvs Hne] & Hl & Hs & HK).
  unfold roots_of in Hvs. rewrite Hv in Hvs. wstep (literal_builds m here values E0 Hagree sX). wstep (mask_builds m here values E0 Hagree).
  apply builds_ret; [done|]. split; [|done]. unfold set_roots, VWordSpec.ev_has, roots_of. cbn [ev_is_vector ev_vector_roots]. rewrite Hv.
  assert (Ev : map (mux (bit u) sX) vs = if u then replicate w sX else word w n).
  { destruct u; [by rewrite mask_unknowns, Hl|]. rewrite (HK eq_refl). apply mask_known, word_known. }
  rewrite Ev in *. split; [done|]. intros En. apply (f_equal length) in En. destruct u; [rewrite length_replicate in En|rewrite word_length in En]; simpl in En; lia.
Qed.

Lemma zero_builds w (sg : bool) b : (2 <= w)%nat -> binv b ->
  builds (if sg then make_int_literal m here 0 w else make_uint_literal m here 0 w) b (fun v b' =>
    ev_has b' v (word w 0) /\ ev_is_signed v = sg).
Proof.
  intros Hw Hb. destruct sg; [|by apply uint_builds; [..|lia|]; lia || done].
  unfold make_int_literal. destruct (w <=? 1)%nat eqn:E; [apply Nat.leb_le in E; lia|].
  change (u64_wrap 0) with 0. change (0 <? 0) with false. wstep (literals_builds m here values E0 Hagree).
  rewrite literal_bits_word in Hr by done. apply (hasl_rev values) in Hr.
  eapply builds_mono; [eapply (vector_builds m here values E0 Hagree); [done|exact Hr|]|].
  - intros En. apply (f_equal length) in En. rewrite length_rev, bits_length, lsbs_length in En. simpl in En. lia.
  - intros v b' _ _ (H1 & H2 & _). split; [|done]. unfold word. by rewrite bits_rev.
Qed.

Lemma product_mod w sg l n k : (1 <= w)%nat -> number sg l = k -> word w (0 + n * 2 ^ Z.of_nat 0 * num_of (lsbs w k)) = word w (n * k).
Proof using.
  intros Hw <-. apply word_mod. rewrite num_of_lsbs, Z.add_0_l, Z.mul_1_r. apply Zmult_mod_idemp_r.
Qed.

Lemma zero_accumulated w sg K b v : ev_has b v (word w 0) /\ ev_is_signed v = sg -> accumulated w sg K 0 b v.
Proof using. intros [H1 H2]. exists (word w 0). split_and!; [done|apply word_length|done|done]. Qed.

Lemma mul_builds a c va vc b : binv b -> ev_has b a va -> ev_has b c vc ->
  let sg := ev_is_signed a && ev_is_signed c in
  builds (arith_mul m here a c) b (fun v b' =>
    product_of (length va + length vc) sg (any_unknown va || any_unknown vc) (value_num sg va * value_num sg vc) b' v).
Proof.
  intros Hb Ha Hc sg. unfold arith_mul. fold sg. rewrite (ev_width _ _ _ _ Ha), (ev_width _ _ _ _ Hc).
  set (u := any_unknown va || any_unknown vc).
  assert (Hw : (2 <= length va + length vc)%nat) by (pose proof (proj2 Ha); pose proof (proj2 Hc); destruct va, vc; simpl; done || lia).
  assert (HK : u = false -> va = bits (rev (bools va)) /\ vc = bits (rev (bools vc))).
  { intros [Ua Uc]%orb_false_iff. split; by apply known_bools. }
  set (w := (length va + length vc)%nat) in *. destruct (max_concat_bits <? w)%nat.
  { eapply builds_bind; [apply _|intros ?; grows|done| |intros ? ? ? ? HF; exact (False_ind _ HF)].
    eapply builds_bind; [apply _|intros ?; apply _|done|by apply (err_builds _ _ _ _ (fun _ _ => False))|]. done. }
  eapply (builds_bind _ _ _ _ (fun w' b' => w' = w /\ b' = b)); [apply _|intros ?; grows|done|by apply builds_ret|].
  intros w' b' _ _ [-> ->]. wstep (unknown_operands_builds m here values E0 Hagree a c). fold u in Hr.
  destruct (negb sg && _ && _ && _) eqn:E8.
  - rewrite !andb_true_iff, negb_true_iff, !Nat.eqb_eq in E8. destruct E8 as [[[Es Wa] Wc] Ew].
    wstep (resize_to_builds m here values E0 Hagree a va (length va) false).
    wstep (resize_to_builds m here values E0 Hagree c vc (length vc) false).
    rewrite resized_same in Hr0, Hr1 by lia. wstep (literal_builds m here values E0 Hagree sL). rewrite Ew.
    assert (H16 : (2 <= 16)%nat) by lia. wstep (zero_builds 16 false). apply (zero_accumulated 16 false (u = false)) in Hr3.
    eapply builds_bind; [apply _|intros ?; grows|done|by apply (tiles_builds (u = false) r2 r0 r1 va vc (bools va) (bools vc) tiles); [repeat constructor; simpl; lia|..]|].
    intros acc b9 Hb9 He Hacc. cbv beta in Hacc. rewrite tiles_product in Hacc by (by rewrite bools_length). lift_words He.
    rewrite (accumulated_vector 16 false _ _ _ _ ltac:(lia) Hacc), Es. apply (finish_builds 16 false); [lia|done|done|exact Hacc].
  - destruct (w <=? 1)%nat eqn:Ew; [apply Nat.leb_le in Ew; lia|].
    wstep (resize_to_builds m here values E0 Hagree a va w sg). wstep (resize_to_builds m here values E0 Hagree c vc w sg).
    wstep (zero_builds w sg). destruct Hr2 as [Hz Hzs]. wstep (literal_builds m here values E0 Hagree sL).
    pose proof (zero_accumulated w sg (u = false) _ _ (conj Hz Hzs)) as Hacc0. apply hasl_rev in Hr1.
    assert (Wa : u = false -> resized sg w va = word w (value_num sg va)).
    { intros HU. destruct (HK HU) as [Ea _]. rewrite Ea at 1. apply resized_word; [lia|]. apply bools_nonempty, Ha. }
    assert (Wc : u = false -> rev (resized sg w vc) = bits (lsbs w (value_num sg vc))).
    { intros HU. destruct (HK HU) as [_ Ec]. rewrite Ec at 1. rewrite resized_word; [|lia|apply bools_nonempty, Hc].
      unfold word. by rewrite bits_rev, rev_involutive. }
    eapply builds_bind; [apply _|intros ?; grows|done| |].
    { eapply (mul_loop_builds r3 r0 _ sg w (u = false) (value_num sg va) (rev r1)); try done; [apply resized_length; lia|].
      rewrite length_rev, lsbs_length. apply resized_length. lia. }
    intros acc b9 Hb9 He Hacc. cbv beta in Hacc. lift_words He.
    rewrite (accumulated_vector w sg _ _ _ _ ltac:(lia) Hacc). eapply builds_mono; [by apply (finish_builds w sg u)|].
    intros v b' _ _. unfold product_of. rewrite (product_mod w sg (bools vc)) by (lia || done). done.
Qed.
End Mul.
