(* ===== verification/VSelect.v ===== *)
(** * VSelect: selections and powers

    A selection of a bit by an expression is a chain of comparisons with the
    indices of the base; with a known index it is the bit of that index. *)

From Stdlib Require Import ZArith Lia.
From stdpp Require Import base list gmap strings.
From S2P Require Import Prelude Logic4 VData VExpr VBuild VBits VWord VWordSpec.
From S2P Require Import VMul.

(** ** Shifts

    A shift by a constant rearranges the bits, a shift by an expression is a
    barrel shifter of as many stages as the width needs.  Both directions are
    proved at once from the laws of a shifter. *)

Open Scope Z_scope.

(** ** Shifters *)

Class Shifter (f : forall A, A -> nat -> list A -> list A) : Prop := {
  shifter_length : forall A (z : A) s l, length (f A z s l) = length l;
  shifter_zero : forall A (z : A) l, f A z 0%nat l = l;
  shifter_add : forall A (z : A) s t l, f A z s (f A z t l) = f A z (t + s)%nat l;
  shifter_map : forall A C (g : A -> C) z s l, map g (f A z s l) = f C (g z) s (map g l);
  shifter_rel : forall A C (R : A -> C -> Prop) z z' s l k, R z z' -> Forall2 R l k -> Forall2 R (f A z s l) (f C z' s k)
}.

Lemma replicate_comm_app {A} n k (x : A) : replicate n x ++ replicate k x = replicate k x ++ replicate n x.
Proof. rewrite <- !replicate_add. f_equal. lia. Qed.

#[export] Instance left_shifter : Shifter (@shifted_left).
Proof.
  split.
  - intros A z s l. unfold shifted_left. rewrite length_app, length_drop, length_replicate. lia.
  - intros A z l. unfold shifted_left. by rewrite drop_0, Nat.min_0_l, app_nil_r.
  - intros A z s t l. unfold shifted_left. rewrite length_app, length_drop, length_replicate.
    destruct (decide (s + t <= length l)%nat) as [H|H].
    + rewrite drop_app_le, drop_drop by (rewrite length_drop; lia). rewrite <- app_assoc, <- replicate_add. do 2 f_equal; lia.
    + rewrite drop_app_ge by (rewrite length_drop; lia). rewrite drop_replicate, (drop_ge l (t + s)) by lia. simpl.
      rewrite <- replicate_add, length_drop. f_equal. lia.
  - intros A C g z s l. unfold shifted_left. rewrite map_app, length_map. f_equal; [apply (fmap_drop g)|apply (fmap_replicate g)].
  - intros A C R z z' s l k Hz H. unfold shifted_left. rewrite (Forall2_length _ _ _ H).
    apply Forall2_app; [by apply Forall2_drop|by apply Forall2_replicate].
Qed.

#[export] Instance right_shifter : Shifter (@shifted_right).
Proof.
  split.
  - intros A z s l. unfold shifted_right. rewrite length_app, length_take, length_replicate. lia.
  - intros A z l. unfold shifted_right. by rewrite Nat.min_0_l, Nat.sub_0_r, take_ge by lia.
  - intros A z s t l. unfold shifted_right. rewrite length_app, length_take, length_replicate.
    destruct (decide (s + t <= length l)%nat) as [H|H].
    + rewrite take_app_ge, take_take by (rewrite length_replicate; lia). rewrite length_replicate, app_assoc, <- replicate_add.
      f_equal; f_equal; lia.
    + rewrite take_app_le, take_replicate by (rewrite length_replicate; lia). rewrite <- replicate_add.
      replace (length l - (t + s))%nat with 0%nat by lia. rewrite take_0, app_nil_r. f_equal. lia.
  - intros A C g z s l. unfold shifted_right. rewrite map_app, length_map. f_equal; [apply (fmap_replicate g)|apply (fmap_take g)].
  - intros A C R z z' s l k Hz H. unfold shifted_right. rewrite (Forall2_length _ _ _ H).
    apply Forall2_app; [by apply Forall2_replicate|by apply Forall2_take].
Qed.

(** ** Numbers *)

Lemma word_shifted_right k w n : shifted_right sL k (word w n) = word w ((n mod 2 ^ Z.of_nat w) / 2 ^ Z.of_nat k).
Proof.
  unfold shifted_right, word. rewrite bits_length, length_rev, lsbs_length. change sL with (bit false).
  rewrite <- bits_replicate, <- bits_take, <- bits_app. f_equal.
  rewrite <- (rev_involutive (take _ _)), <- (rev_replicate (Nat.min k w)), <- rev_app_distr. f_equal.
  transitivity (drop k (lsbs w n) ++ replicate (Nat.min k w) false).
  { f_equal. rewrite <- (rev_involutive (lsbs w n)) at 2. rewrite drop_rev, length_rev, lsbs_length. done. }
  rewrite <- num_of_lsbs. generalize (lsbs_length w n). generalize (lsbs w n) as l. clear n. intros l Hl. subst w.
  revert l. induction k as [|k IH]; intros l.
  - rewrite Z.div_1_r, lsbs_num, drop_0, app_nil_r. done.
  - destruct l as [|x l]; [by rewrite lsbs_zero || done|]. cbn [drop length num_of]. rewrite Nat2Z.inj_succ, Z.pow_succ_r by lia.
    rewrite <- Z.div_div by lia. rewrite b2z_double_half. change (Nat.min (S k) (S (length l))) with (S (Nat.min k (length l))).
    rewrite replicate_S_end, app_assoc, IH. change (S (length l)) with (1 + length l)%nat. rewrite Nat.add_comm.
    pose proof (num_of_range l) as Hn. set (q := num_of l / 2 ^ Z.of_nat k).
    assert (Hq : 0 <= q < 2 ^ Z.of_nat (length l)).
    { subst q. split; [apply Z.div_pos; lia|]. eapply Z.le_lt_trans; [|apply Hn]. apply Z.div_le_upper_bound; nia. }
    rewrite <- (Z.mod_small q (2 ^ Z.of_nat (length l))), <- num_of_lsbs by done.
    rewrite (lsbs_num_ext (length l + 1)), num_of_lsbs, Z.mod_small, lsbs_length by done.
    rewrite take_ge by (rewrite lsbs_length; lia). replace (length l + 1 - length l)%nat with 1%nat by lia. done.
Qed.

Lemma count_bits_pos fuel n w : (n <= count_bits fuel n w)%nat.
Proof. revert n. induction fuel as [|f IH]; intros n; simpl; [done|]. destruct (_ <? _); [|done]. specialize (IH (S n)). lia. Qed.
Lemma nbits_pos w : (2 <= w)%nat -> (1 <= nbits_for w)%nat.
Proof.
  intros H. unfold nbits_for. simpl count_bits. change (Z.shiftl 1 (Z.of_nat 0)) with 1. destruct (1 <? Z.of_nat w) eqn:E; [|apply Z.ltb_ge in E; lia].
  pose proof (count_bits_pos 63 1 w). simpl in *. lia.
Qed.

Definition norm (vs : list logic_t) : list logic_t := map normalize_z_to_x vs.
Lemma norm_idem vs : norm (norm vs) = norm vs.
Proof. unfold norm. rewrite map_map. apply map_ext. by intros []. Qed.
Lemma norm_bits l : norm (bits l) = bits l.
Proof. unfold norm, bits. rewrite map_map. apply map_ext. by intros []. Qed.
Lemma mask_norm vs : map (mux (bit false) sX) vs = norm vs.
Proof. apply map_ext. by intros []. Qed.

Lemma zip_mux b l k : length l = length k -> zip_with (mux (bit b)) l k = norm (if b then l else k).
Proof.
  revert k. induction l as [|x l IH]; intros [|y k] H; try done; [by destruct b|]. injection H as H. cbn [zip_with].
  rewrite IH, mux_known by done. by destruct b.
Qed.

Section Shift.
Context (m : compiled_module) (here : Z * Z) (values : list logic_t) (E0 : list compile_error).
Context (Hagree : consts_agree m values) (f : forall A, A -> nat -> list A -> list A) `{!Shifter f}.

Abbreviation has := (has values).
Abbreviation binv := (binv E0).
Abbreviation builds := (builds E0).
Abbreviation hasl b := (Forall2 (has b)).
Abbreviation ev_has := (ev_has values).

#[local] Set Default Proof Using "Type*".

Lemma norm_shift s vs : norm (f _ sL s vs) = f _ sL s (norm vs).
Proof. unfold norm. by rewrite shifter_map. Qed.

Lemma stages_builds (K : Prop) z sels : forall vs bs k cur vc b, binv b -> has b z sL -> hasl b sels vs -> hasl b cur vc ->
  length vs = length bs -> (K -> vs = bits bs) ->
  builds (shift_stages m here (f Z z) k sels cur) b (fun rs b' => exists vr, hasl b' rs vr /\ length vr = length vc /\
    (K -> norm vr = norm (f _ sL (Z.to_nat (num_of bs) * 2 ^ k)%nat vc))).
Proof.
  induction sels as [|s sels IH]; intros vs bs k cur vc b Hb Hz Hs Hc Hl HK.
  { apply Forall2_nil_inv_l in Hs as ->. destruct bs; [|done]. apply builds_ret; [done|]. exists vc. split_and!; [done..|].
    intros _. simpl. by rewrite shifter_zero. }
  apply Forall2_cons_inv_l in Hs as (v & vs' & Hv & Hs & ->). destruct bs as [|x bs]; [done|]. injection Hl as Hl. cbn [shift_stages].
  eapply builds_bind; [apply _|intros ?; grows|done| |].
  { apply (map2_builds m values E0 Hagree _ (mux v) (fun b => has b s v)).
    1: intros ? ?; apply _. 1: intros ? ? ? Hx; by apply (has_ext _ _ _ _ _ Hx).
    { intros. by apply (mux_builds m here values E0 Hagree). } { done. } { done. } { by apply (shifter_rel _ _ _ z sL). } exact Hc. }
  intros cur' b1 Hb1 He Hcur. cbv beta in Hcur. lift_words He. clear He.
  assert (Lz : length (zip_with (mux v) (f _ sL (2 ^ k)%nat vc) vc) = length vc) by (rewrite length_zip_with, shifter_length; lia).
  assert (HK' : K -> v = bit x /\ vs' = bits bs) by (intros HK'; specialize (HK HK'); by injection HK).
  eapply builds_mono; [eapply (IH vs' bs (S k)); try done; intros HK''; by destruct (HK' HK'')|].
  intros rs b' _ _ (vr & Hrs & Hlr & HKr). exists vr. split_and!; [done|congruence|]. intros HK''. rewrite (HKr HK'').
  destruct (HK' HK'') as [-> _]. rewrite zip_mux by apply shifter_length. rewrite norm_shift, norm_idem, <- norm_shift. f_equal.
  pose proof (num_of_range bs). destruct x; cbn [num_of Z.b2z].
  - rewrite shifter_add. f_equal. rewrite Z2Nat.inj_add, Z2Nat.inj_mul by lia. simpl. lia.
  - f_equal. rewrite Z.add_0_l, Z2Nat.inj_mul by lia. simpl. lia.
Qed.

(** The amount of a shift: the constant, or the low bits of the operand. *)
Definition shift_amount (sh_const : option Z) (w : nat) (vsh : list logic_t) : nat :=
  match sh_const with
  | Some s => Z.to_nat (Z.min s (Z.of_nat w))
  | None => Z.to_nat (value_num false vsh mod 2 ^ Z.of_nat (nbits_for w))
  end.
(** What a shift evaluates to. *)
Definition shift_value (sh_const : option Z) (vv vsh : list logic_t) : list logic_t :=
  if (length vv <=? 1)%nat then vv
  else if any_unknown vsh then replicate (length vv) sX
  else norm (f _ sL (shift_amount sh_const (length vv) vsh) vv).

Lemma mask_shift (u : bool) vr vv : length vr = length vv -> (u = false -> norm vr = norm vv) ->
  map (mux (bit u) sX) vr = if u then replicate (length vv) sX else norm vv.
Proof. intros Hl H. destruct u; [by rewrite mask_unknowns, Hl|]. rewrite mask_norm. by apply H. Qed.

Lemma builds_state {A} (c : B A) b Q : builds c b Q -> builds c b (fun x b' => Q x b' /\ b' = (c b).2).
Proof using E0. intros H E. destruct (H E) as (H1 & H2 & H3). by split_and!. Qed.

Lemma finish_shift w u r x cur vc vv sg b : binv b -> has b r (bit u) -> has b x sX -> hasl b cur vc -> length vc = w -> length vv = w -> vv <> [] ->
  (u = false -> norm vc = norm vv) ->
  builds (out ← mask_unknown m here r x cur; make_vector m here out sg) b
    (fun v b' => ev_has b' v (if u then replicate w sX else norm vv)).
Proof.
  intros Hb Hr Hx Hc Hl <- Hne Hn. wstep (mask_builds m here values E0 Hagree). rewrite (mask_shift u vc vv) in Hr0 by done.
  eapply builds_mono; [eapply (vector_builds m here values E0 Hagree); [done|exact Hr0|]|by intros ? ? _ _ (? & _)].
  destruct vv; [done|]. by destruct u.
Qed.

Lemma shift_builds v sh vv vsh b : binv b -> ev_has b v vv -> ev_has b sh vsh ->
  let b1 := (any_unknown_root m here sh b).2 in
  builds (shift m here (f Z) v sh) b (fun v' b' => ev_has b' v' (shift_value (const_int m sh b1).1 vv vsh)).
Proof.
  intros Hb Hv Hsh b1. unfold shift, shift_value. rewrite (ev_width _ _ _ _ Hv). destruct (length vv <=? 1)%nat eqn:Ew.
  { eapply builds_mono; [by apply (resize_builds m here values E0 Hagree)|]. intros v' b' _ _ [H _]. apply Nat.leb_le in Ew.
    destruct vv as [|x [|]]; [by destruct Hv|done|simpl in Ew; lia]. }
  apply Nat.leb_gt in Ew. assert (Hne : vv <> []) by apply Hv. assert (Hw : (2 <= length vv)%nat) by lia.
  assert (Hwv : forall n, length (f _ sL n vv) = length vv) by (intros; apply shifter_length).
  assert (Hfv : forall n, f _ sL n vv <> []) by (intros n E; specialize (Hwv n); rewrite E in Hwv; simpl in Hwv; lia).
  eapply builds_bind; [apply _|intros ?; grows|done|apply builds_state; by apply (any_unknown_builds m here values E0 Hagree sh vsh)|].
  intros r b1' Hb1 He [Hr ->]. fold b1 in He, Hr, Hb1 |- *. clearbody b1. lift_words He. clear He. set (u := any_unknown vsh) in *.
  eapply (builds_bind _ _ _ _ (fun c b' => c = (const_int m sh b1).1 /\ b' = b1)); [apply _|intros ?; grows|done|intros _; by split_and!|].
  intros c b2 _ _ [-> ->]. destruct ((const_int m sh b1).1) as [s|].
  - wstep (resize_to_builds m here values E0 Hagree v vv (length vv) false). rewrite resized_same in Hr0 by done.
    wstep (literal_builds m here values E0 Hagree sL). wstep (literal_builds m here values E0 Hagree sX).
    cbn [shift_amount].
    eapply finish_shift; [done|done|done|by apply (shifter_rel _ _ _ r1 sL)|done..].
  - pose proof (nbits_pos _ Hw) as Hn. destruct (_ =? 0)%nat eqn:En; [apply Nat.eqb_eq in En; lia|].
    wstep (resize_to_builds m here values E0 Hagree v vv (length vv) false). rewrite resized_same in Hr0 by done.
    wstep (resize_to_builds m here values E0 Hagree sh vsh (nbits_for (length vv)) false).
    wstep (literal_builds m here values E0 Hagree sL). apply hasl_rev in Hr1. set (n := value_num false vsh).
    eapply builds_bind; [apply _|intros ?; grows|done| |].
    { eapply (stages_builds (u = false) r2 _ _ (lsbs (nbits_for (length vv)) n) 0); try done.
      - by rewrite length_rev, lsbs_length, resized_length.
      - intros Hu. rewrite (known_bools vsh Hu), resized_word by (done || apply bools_nonempty, Hsh).
        unfold word. by rewrite bits_rev, rev_involutive. }
    intros cur b9 Hb9 He (vr & Hcur & Hlr & HKr). lift_words He. clear He. wstep (literal_builds m here values E0 Hagree sX).
    cbn [shift_amount]. fold n. rewrite <- num_of_lsbs, <- (Nat.mul_1_r (Z.to_nat _)). by eapply finish_shift.
Qed.
End Shift.

Open Scope Z_scope.

(** ** Indices *)

(** A range of a vector that holds [n] bits; the indices are not negative. *)
Definition range_ok (msb lsb : Z) (n : nat) : Prop :=
  0 <= msb <= INT_MAX /\ 0 <= lsb <= INT_MAX /\ Z.of_nat n = Z.abs (msb - lsb) + 1.

Lemma vector_pos_at msb lsb n pos : range_ok msb lsb n -> 0 <= pos < Z.of_nat n ->
  vector_pos msb lsb (vector_index_at msb lsb pos) = pos.
Proof.
  intros (H1 & H2 & H3) Hp. unfold vector_pos, vector_index_at. destruct (lsb <=? msb) eqn:E; rewrite ?Z.leb_le, ?Z.leb_gt in E.
  - replace (_ && _) with true; [lia|]. symmetry. rewrite andb_true_iff, !Z.leb_le. lia.
  - replace (_ && _) with true; [lia|]. symmetry. rewrite andb_true_iff, !Z.leb_le. lia.
Qed.

Lemma vector_at_pos msb lsb n idx : range_ok msb lsb n -> vector_pos msb lsb idx <> SIZE_MAX ->
  0 <= vector_pos msb lsb idx < Z.of_nat n /\ vector_index_at msb lsb (vector_pos msb lsb idx) = idx.
Proof.
  intros (H1 & H2 & H3) Hp. unfold vector_pos, vector_index_at in *. destruct (lsb <=? msb) eqn:E; rewrite ?Z.leb_le, ?Z.leb_gt in E.
  - destruct ((idx <=? msb) && (lsb <=? idx)) eqn:Ei; [|done]. rewrite andb_true_iff, !Z.leb_le in Ei. lia.
  - destruct ((msb <=? idx) && (idx <=? lsb)) eqn:Ei; [|done]. rewrite andb_true_iff, !Z.leb_le in Ei. lia.
Qed.

(** The value of the bit with an index: unknown outside of the range. *)
Definition select_value (msb lsb : Z) (vs : list logic_t) (idx : Z) : logic_t :=
  let pos := vector_pos msb lsb idx in if pos =? SIZE_MAX then sX else default sX (vat vs pos).

(** ** The chain of comparisons *)

Fixpoint chain_value (conds vs : list logic_t) (out : logic_t) : logic_t :=
  match conds, vs with
  | c :: conds', v :: vs' => chain_value conds' vs' (mux c v out)
  | _, _ => out
  end.

(** The comparisons of the index with those of the bits from [pos] on. *)
Definition index_conds (vidx : list logic_t) (w : nat) (msb lsb pos : Z) (n : nat) : list logic_t :=
  map (fun i => cmp_value op_eq false vidx (word w (vector_index_at msb lsb (pos + Z.of_nat i)))) (seq 0 n).

Lemma chain_hits msb lsb n idx vs : range_ok msb lsb n -> forall pos out, 0 <= pos -> pos + Z.of_nat (length vs) <= Z.of_nat n ->
  normalize_z_to_x out = out ->
  chain_value (map (fun i => bit (idx =? vector_index_at msb lsb (pos + Z.of_nat i))) (seq 0 (length vs))) vs out =
  if (pos <=? vector_pos msb lsb idx) && (vector_pos msb lsb idx <? pos + Z.of_nat (length vs))
  then normalize_z_to_x (default sX (vat vs (vector_pos msb lsb idx - pos))) else out.
Proof.
  intros Hr. induction vs as [|v vs IH]; intros pos out Hp Hl Ho.
  - simpl. destruct (_ && _) eqn:E; [|done]. rewrite andb_true_iff, Z.leb_le, Z.ltb_lt in E. simpl in E. lia.
  - cbn [length seq map chain_value] in *. rewrite <- seq_shift, map_map.
    rewrite (map_ext _ (fun i => bit (idx =? vector_index_at msb lsb (pos + 1 + Z.of_nat i)))) by (intros i; do 3 f_equal; lia).
    rewrite mux_known, IH by (try lia; destruct (_ =? _), v, out; done || by rewrite Nat2Z.inj_succ in Hl; lia).
    rewrite Z.add_0_r. destruct (idx =? vector_index_at msb lsb pos) eqn:Ei.
    + apply Z.eqb_eq in Ei. assert (Ep : vector_pos msb lsb idx = pos) by (rewrite Ei; eapply vector_pos_at; [done|lia]).
      rewrite Ep. replace (pos + 1 <=? pos) with false by (symmetry; apply Z.leb_gt; lia). cbn [andb].
      replace (_ && _) with true by (symmetry; rewrite andb_true_iff, Z.leb_le, Z.ltb_lt; lia). by rewrite Z.sub_diag.
    + apply Z.eqb_neq in Ei. rewrite Ho. pose proof (vector_at_pos msb lsb n idx Hr) as HP.
      set (p := vector_pos msb lsb idx) in *. clearbody p.
      assert (Hne : p <> pos).
      { intros ->. destruct HP as [_ Hx]; [unfold SIZE_MAX, range_ok, INT_MAX in *; lia|]. by apply Ei. }
      destruct (decide (pos + 1 <= p < pos + 1 + Z.of_nat (length vs))) as [Hin|Hout].
      * replace (_ && _) with true by (symmetry; rewrite andb_true_iff, Z.leb_le, Z.ltb_lt; lia).
        replace (_ && _) with true by (symmetry; rewrite andb_true_iff, Z.leb_le, Z.ltb_lt; lia).
        do 2 f_equal. rewrite !vat_lookup by (unfold vsize; simpl; lia). replace (Z.to_nat (p - pos)) with (S (Z.to_nat (p - (pos + 1)))) by lia. done.
      * replace (_ && _) with false by (symmetry; apply andb_false_iff; rewrite Z.leb_gt, Z.ltb_ge; lia).
        replace (_ && _) with false by (symmetry; apply andb_false_iff; rewrite Z.leb_gt, Z.ltb_ge; lia). done.
Qed.

Lemma mux_not_high c v : c <> sH -> mux c v sX = sX.
Proof. by destruct c, v. Qed.

Lemma chain_misses conds vs : Forall (fun c => c <> sH) conds -> chain_value conds vs sX = sX.
Proof.
  intros H. revert vs. induction H as [|c conds Hc H IH]; intros [|v vs]; try done. cbn [chain_value]. by rewrite mux_not_high.
Qed.

Lemma fold_and_high l v : fold_left logic_and l v = sH -> Forall (fun x => x = sH) (v :: l).
Proof.
  revert v. induction l as [|x l IH]; intros v; simpl; [intros ->; by constructor|]. intros H. apply IH in H.
  apply Forall_cons in H as [Hv Hl]. assert (v = sH /\ x = sH) as [-> ->] by (by destruct v, x). by repeat constructor.
Qed.

(** A comparison with an unknown bit is not true. *)
Lemma cmp_unknown_bit va vb : length va = length vb -> any_unknown va = true -> conj_value (zip_with op_eq va vb) <> sH.
Proof.
  intros Hl Hu H. unfold conj_value in H.
  assert (HF : Forall (fun x => x = sH) (zip_with op_eq va vb)).
  { destruct (zip_with op_eq va vb) as [|c cs]; [constructor|]. by apply fold_and_high. }
  clear H. revert vb Hl HF. induction va as [|a va IH]; intros [|y vb] Hl HF; try done. simpl in *.
  apply Forall_cons in HF as [Ha HF]. apply orb_true_iff in Hu as [Hu|Hu]; [by destruct a, y|]. by apply (IH Hu vb); [lia|].
Qed.

Lemma any_unknown_app l k : any_unknown (l ++ k) = any_unknown l || any_unknown k.
Proof. apply existsb_app. Qed.

Lemma resized_unknown w vs : vs <> [] -> (length vs <= w)%nat -> any_unknown (resized false w vs) = any_unknown vs.
Proof.
  intros Hne Hw. unfold resized, resize_list. destruct (w <=? 1)%nat eqn:E1.
  { apply Nat.leb_le in E1. destruct vs as [|v [|]]; [done|done|simpl in Hw; lia]. }
  destruct (_ =? _)%nat eqn:E2; [done|]. destruct (_ <? _)%nat eqn:E3; [apply Nat.ltb_lt in E3; lia|]. rewrite any_unknown_app.
  change sL with (bit false). by rewrite <- bits_replicate, any_unknown_bits.
Qed.

Lemma index_known vidx w i : vidx <> [] -> any_unknown vidx = false -> (length vidx <= w)%nat -> 0 <= i < 2 ^ Z.of_nat w ->
  cmp_value op_eq false (resized false w vidx) (word w i) = bit (value_num false vidx =? i).
Proof.
  intros Hne Hu Hw Hi. assert (1 <= w)%nat by (destruct vidx; [done|simpl in Hw; lia]).
  rewrite (known_bools vidx Hu) at 1. rewrite resized_word by (exact H || exact (bools_nonempty _ Hne)). unfold word.
  rewrite eq_known by (by apply lsbs_nonempty). f_equal. cbn [number]. rewrite !num_of_lsbs, (Z.mod_small i) by done.
  rewrite Z.mod_small; [done|]. pose proof (num_of_range (bools vidx)) as Hr. rewrite bools_length in Hr. split; [lia|].
  eapply Z.lt_le_trans; [apply Hr|]. apply Z.pow_le_mono_r; lia.
Qed.

(** ** [need_bits] is enough for the largest index *)

Lemma need_bits_loop_ok fuel n x : 0 <= x < 2 ^ Z.of_nat (n + fuel) -> x < 2 ^ Z.of_nat (need_bits_loop fuel n x).
Proof.
  revert n. induction fuel as [|f IH]; intros n H; simpl; [rewrite Nat.add_0_r in H; lia|].
  rewrite Z.shiftl_mul_pow2, Z.mul_1_l by lia. destruct (_ <=? x) eqn:E; [|by apply Z.leb_gt in E].
  apply IH. by replace (S n + f)%nat with (n + S f)%nat by lia.
Qed.
Lemma need_bits_ok x : 0 <= x < 2 ^ 64 -> x < 2 ^ Z.of_nat (need_bits x).
Proof. intros H. by apply need_bits_loop_ok. Qed.

Section Select.
Context (m : compiled_module) (here : Z * Z) (values : list logic_t) (E0 : list compile_error).
Context (Hagree : consts_agree m values).

Abbreviation has := (has values).
Abbreviation binv := (binv E0).
Abbreviation builds := (builds E0).
Abbreviation hasl b := (Forall2 (has b)).
Abbreviation ev_has := (ev_has values).

#[local] Set Default Proof Using "Type*".

Lemma select_loop_builds idx vidx w msb lsb n bts : (1 <= w)%nat -> range_ok msb lsb n ->
  forall vs pos out vo b, binv b -> ev_has b idx vidx -> hasl b bts vs -> has b out vo -> 0 <= pos -> pos + Z.of_nat (length vs) <= Z.of_nat n ->
  builds (select_loop m here idx w msb lsb pos bts out) b (fun r b' =>
    has b' r (chain_value (index_conds vidx w msb lsb pos (length vs)) vs vo)).
Proof.
  intros Hw Hr. induction bts as [|bt bts IH]; intros vs pos out vo b Hb Hi Hbs Ho Hp Hl.
  { apply Forall2_nil_inv_l in Hbs as ->. by apply builds_ret. }
  apply Forall2_cons_inv_l in Hbs as (v & vs' & Hv & Hbs & ->). cbn [select_loop length] in *.
  assert (Hin : 0 <= vector_index_at msb lsb pos < 2 ^ 64).
  { unfold vector_index_at. destruct Hr as (H1 & H2 & H3). unfold INT_MAX in *. destruct (lsb <=? msb) eqn:E; rewrite ?Z.leb_le, ?Z.leb_gt in E; lia. }
  rewrite u64_wrap_small by (unfold SIZE_MAX; lia).
  eapply builds_bind; [apply _|intros ?; grows|done|by apply (uint_builds m here values E0 Hagree)|].
  intros lit b1 Hb1 He [Hlit Hsl]. lift_words He. clear He.
  eapply builds_bind; [apply _|intros ?; grows|done|apply (compare_builds m here values E0 Hagree ek_binary_eq op_eq); [done|exact Hb1|exact Hi|exact Hlit]|].
  intros c b2 Hb2 He Hc. cbv beta in Hc. rewrite Hsl, andb_false_r in Hc. lift_words He. clear He.
  wstep (mux_builds m here values E0 Hagree c bt out).
  eapply builds_mono; [eapply (IH vs' (pos + 1)); try done; lia|]. intros r' b' _ _ Hres. cbv beta in Hres.
  unfold index_conds in *. cbn [seq map chain_value]. rewrite <- seq_shift, map_map, Z.add_0_r.
  rewrite (map_ext _ (fun i => cmp_value op_eq false vidx (word w (vector_index_at msb lsb (pos + 1 + Z.of_nat i))))); [done|].
  intros i. do 3 f_equal. lia.
Qed.

(** What a selection with an index that is not constant evaluates to. *)
Lemma bit_select_builds base idx vs vidx b : binv b -> ev_has b base vs -> ev_has b idx vidx ->
  range_ok (ev_msb base) (ev_lsb base) (length vs) -> (const_int m idx b).1 = None ->
  builds (apply_bit_select m here base idx) b (fun v b' => ev_has b' v
    [if any_unknown vidx then sX else normalize_z_to_x (select_value (ev_msb base) (ev_lsb base) vs (value_num false vidx))]).
Proof.
  intros Hb Hv Hi Hr Hc. unfold apply_bit_select. set (msb := ev_msb base) in *. set (lsb := ev_lsb base) in *.
  eapply (builds_bind _ _ _ _ (fun c b' => c = None /\ b' = b)); [apply _|intros ?; grows|done|intros _; by split_and!|].
  intros c b' _ _ [-> ->]. set (mx := if lsb <=? msb then msb else lsb).
  assert (Hm : 0 <= mx < 2 ^ 64) by (subst mx; destruct Hr as (?&?&_); unfold INT_MAX in *; destruct (_ <=? _); lia).
  rewrite (u64_wrap_small mx) by (unfold SIZE_MAX; lia). rewrite (ev_width _ _ _ _ Hi).
  pose proof (need_bits_ok mx Hm) as Hnb. set (w := Nat.max (length vidx) (need_bits mx)).
  assert (Hw : (1 <= w)%nat) by (pose proof (proj2 Hi); subst w; destruct vidx; [done|simpl; lia]).
  eapply builds_bind; [apply _|intros ?; grows|done|by apply (resize_builds m here values E0 Hagree idx vidx w false)|].
  intros idn b1 Hb1 He [Hidn _]. destruct Hv as [Hv Hne]. lift_words He. clear He. wstep (literal_builds m here values E0 Hagree sX).
  eapply builds_bind; [apply _|intros ?; grows|done|eapply (select_loop_builds idn (resized false w vidx) w msb lsb (length vs)); [done|done|done|done|exact Hv|done|lia|lia]|].
  intros out b3 Hb3 He Hout. cbv beta in Hout. apply builds_ret; [done|]. apply scalar_has. revert Hout.
  destruct (any_unknown vidx) eqn:Eu.
  - rewrite chain_misses; [done|]. unfold index_conds. apply Forall_forall. intros c [i [<- _]]%list_elem_of_In%in_map_iff.
    unfold cmp_value, bitwise_value. rewrite resized_length, word_length, Nat.max_id by done.
    apply cmp_unknown_bit; [by rewrite !resized_length by done|].
    destruct (decide (w = 1%nat)) as [E1|E1].
    + rewrite E1 in *. assert (length vidx = 1%nat) by (destruct vidx; [by destruct Hi|subst w; simpl in *; lia]).
      destruct vidx as [|x [|]]; done.
    + rewrite (resized_same false w (resized false w vidx)) by (rewrite ?resized_length; lia).
      rewrite resized_unknown; [done|apply Hi|lia].
  - unfold index_conds. rewrite (map_ext_in _ (fun i => bit (value_num false vidx =? vector_index_at msb lsb (0 + Z.of_nat i)))).
    + rewrite (chain_hits msb lsb (length vs)) by (done || lia). unfold select_value. set (pos := vector_pos msb lsb _).
      destruct (pos =? SIZE_MAX) eqn:Ep.
      * apply Z.eqb_eq in Ep. rewrite Ep. destruct Hr as (?&?&Hr). unfold INT_MAX in *.
        replace (_ && _) with false by (symmetry; apply andb_false_iff; right; apply Z.ltb_ge; unfold SIZE_MAX; lia). done.
      * apply Z.eqb_neq in Ep. destruct (vector_at_pos msb lsb (length vs) _ Hr Ep) as [Hpos _]. fold pos in Hpos.
        replace (_ && _) with true by (symmetry; rewrite andb_true_iff, Z.leb_le, Z.ltb_lt; lia). by rewrite Z.sub_0_r.
    + intros i Hin. apply in_seq in Hin. apply index_known; [apply Hi|done|lia|].
      unfold vector_index_at. destruct Hr as (Hr1 & Hr2 & Hr3). assert (Hx : mx < 2 ^ Z.of_nat w).
      { eapply Z.lt_le_trans; [exact Hnb|]. apply Z.pow_le_mono_r; lia. }
      subst mx. destruct (lsb <=? msb) eqn:E; rewrite ?Z.leb_le, ?Z.leb_gt in E; lia.
Qed.

Lemma vat_has b rs vs i : hasl b rs vs -> 0 <= i < vsize vs -> has b (default SIZE_MAX (vat rs i)) (default sX (vat vs i)).
Proof using values.
  intros H Hi. pose proof (Forall2_length _ _ _ H) as El. assert (Hr : is_Some (vat rs i)) by (apply vat_is_Some; unfold vsize in *; lia).
  destruct Hr as [r Hr]. pose proof Hr as Hr'. apply vat_Some in Hr' as [_ Hr'].
  destruct (Forall2_lookup_l _ _ _ _ _ H Hr') as (v & Hv & Hrv). rewrite Hr, vat_lookup, Hv by done. done.
Qed.

Lemma const_select_builds base idx i vs b : binv b -> ev_has b base vs ->
  range_ok (ev_msb base) (ev_lsb base) (length vs) -> (const_int m idx b).1 = Some i ->
  builds (apply_bit_select m here base idx) b (fun v b' => ev_has b' v [select_value (ev_msb base) (ev_lsb base) vs i]).
Proof.
  intros Hb Hv Hr Hc. unfold apply_bit_select, select_value.
  eapply (builds_bind _ _ _ _ (fun c b' => c = Some i /\ b' = b)); [apply _|intros ?; grows|done|intros _; by split_and!|].
  intros c b' _ _ [-> ->]. destruct (_ =? SIZE_MAX) eqn:E.
  - wstep (literal_builds m here values E0 Hagree sX). apply builds_ret; [done|]. by apply scalar_has.
  - apply Z.eqb_neq in E. destruct (vector_at_pos _ _ _ _ Hr E) as [Hp _]. apply builds_ret; [done|]. apply scalar_has.
    apply vat_has; [apply Hv|done].
Qed.

Lemma part_indices_nonempty a c : part_indices a c <> [].
Proof using.
  unfold part_indices. intros E. apply (f_equal length) in E. revert E.
  destruct (c <=? a) eqn:E; rewrite ?Z.leb_le, ?Z.leb_gt in E; rewrite length_map, length_seq; simpl; lia.
Qed.

Lemma part_loop_builds base vs l : range_ok (ev_msb base) (ev_lsb base) (length vs) -> forall b, binv b -> ev_has b base vs ->
  builds (bmap (fun idx =>
      let pos := vector_pos (ev_msb base) (ev_lsb base) idx in
      if pos =? SIZE_MAX then make_literal m here sX else mret (default SIZE_MAX (vat (roots_of base) pos))) l) b
    (fun rs b' => hasl b' rs (map (select_value (ev_msb base) (ev_lsb base) vs) l)).
Proof.
  intros Hr. induction l as [|i l IH]; intros b Hb Hv; [by apply builds_ret|]. cbn [bmap map].
  eapply (builds_bind _ _ _ _ (fun r b' => has b' r (select_value (ev_msb base) (ev_lsb base) vs i)));
    [apply _|intros ?; apply _|done| |].
  - unfold select_value. cbv zeta. destruct (_ =? SIZE_MAX) eqn:E; [by apply literal_builds|]. apply builds_ret; [done|].
    apply Z.eqb_neq in E. destruct (vector_at_pos _ _ _ _ Hr E) as [Hp _]. apply vat_has; [apply Hv|done].
  - intros r b1 Hb1 He Hx. lift_words He. clear He. wstep IH. apply builds_ret; [done|]. by constructor.
Qed.

Lemma part_select_builds base me le sm sl vs b : binv b -> ev_has b base vs ->
  range_ok (ev_msb base) (ev_lsb base) (length vs) -> (const_int m me b).1 = Some sm -> (const_int m le b).1 = Some sl ->
  builds (apply_part_select m here base me le) b (fun v b' =>
    ev_has b' v (map (select_value (ev_msb base) (ev_lsb base) vs) (part_indices sm sl))).
Proof.
  intros Hb Hv Hr H1 H2. unfold apply_part_select.
  eapply (builds_bind _ _ _ _ (fun c b' => c = Some sm /\ b' = b)); [apply _|intros ?; grows|done|intros _; by split_and!|].
  intros c b' _ _ [-> ->].
  eapply (builds_bind _ _ _ _ (fun c b' => c = Some sl /\ b' = b)); [apply _|intros ?; grows|done|intros _; by split_and!|].
  intros c b' _ _ [-> ->]. eapply builds_bind; [apply _|intros ?; grows|done|by apply (part_loop_builds base vs)|].
  intros rs b1 Hb1 He Hrs. cbv beta in Hrs. eapply builds_mono; [eapply (vector_range_builds m here values E0 Hagree); [done|exact Hrs|]|].
  - intros E. apply map_eq_nil in E. by apply (part_indices_nonempty sm sl).
  - by intros v b' _ _ (Hv' & _).
Qed.
End Select.

(** ** Powers *)

Lemma pow_mul_mod w x y : (1 <= w <= 64)%nat -> 0 <= x * y -> pow_mul w (pow_mask w) x y = (x * y) mod 2 ^ Z.of_nat w.
Proof.
  intros Hw Hxy. unfold pow_mul, pow_mask. destruct (w =? 64)%nat eqn:E; [apply Nat.eqb_eq in E as ->; done|].
  rewrite Z.shiftl_mul_pow2, Z.mul_1_l, Z.sub_1_r, <- Z.ones_equiv by lia. apply Z.land_ones. lia.
Qed.

Lemma mul_mod_l a c n : (a mod n * c) mod n = (a * c) mod n.
Proof. destruct (decide (n = 0)) as [->|H]; [by rewrite !Z.mod_0_r|]. apply Zmult_mod_idemp_l. Qed.

Lemma pow_mod_base a e n : 0 <= e -> ((a mod n) ^ e) mod n = (a ^ e) mod n.
Proof.
  intros He. revert e He. apply natlike_ind; [done|]. intros e He IH. rewrite !Z.pow_succ_r by lia.
  rewrite <- Zmult_mod_idemp_r, IH, Zmult_mod_idemp_r, mul_mod_l. done.
Qed.

Lemma pow_loop_spec w fuel base exp result : (1 <= w <= 64)%nat -> 0 <= exp < 2 ^ Z.of_nat fuel -> 0 <= base -> 0 <= result < 2 ^ Z.of_nat w ->
  pow_loop fuel w (pow_mask w) base exp result = (result * base ^ exp) mod 2 ^ Z.of_nat w.
Proof.
  intros Hw. set (M := 2 ^ Z.of_nat w). revert base exp result. induction fuel as [|f IH]; intros base exp result He Hb Hr.
  { assert (exp = 0) as -> by (simpl in He; lia). simpl. by rewrite Z.mul_1_r, Z.mod_small. }
  cbn [pow_loop]. destruct (exp =? 0) eqn:E0; [apply Z.eqb_eq in E0 as ->; by rewrite Z.mul_1_r, Z.mod_small|].
  apply Z.eqb_neq in E0. assert (HM : 0 < M) by (apply Z.pow_pos_nonneg; lia).
  rewrite !pow_mul_mod by (try done; nia). fold M. set (r' := if Z.odd exp then _ else _).
  assert (Hr' : 0 <= r' < M) by (subst r'; destruct (Z.odd exp); [by apply Z.mod_pos_bound|done]).
  rewrite <- Z.div2_spec, Z.div2_div. pose proof (odd_half exp) as Ho. rewrite Nat2Z.inj_succ, Z.pow_succ_r in He by lia.
  assert (Hq : 0 <= exp / 2 < 2 ^ Z.of_nat f) by (destruct (Z.odd exp); simpl in Ho; lia).
  assert (Hmain : (r' * (base * base) ^ (exp / 2)) mod M = (result * base ^ exp) mod M).
  { rewrite Ho at 2. rewrite Z.pow_add_r, Z.pow_mul_r, Z.pow_2_r by (destruct (Z.odd exp); simpl; lia). subst r'.
    destruct (Z.odd exp); simpl Z.b2z; [rewrite mul_mod_l, Z.pow_1_r|rewrite Z.pow_0_r]; f_equal; ring. }
  destruct (exp / 2 =? 0) eqn:E1.
  - apply Z.eqb_eq in E1. rewrite E1, Z.pow_0_r, Z.mul_1_r, Z.mod_small in Hmain by done. done.
  - rewrite IH; [|done|apply Z.mod_pos_bound; lia|done]. rewrite <- Hmain.
    rewrite <- Zmult_mod_idemp_r, pow_mod_base, Zmult_mod_idemp_r by lia. done.
Qed.

(** The loop of [arith_pow] computes the power modulo the width. *)
Lemma pow_bits_spec w base exp : (1 <= w <= 64)%nat -> 0 <= base -> 0 <= exp < 2 ^ 63 ->
  pow_bits w base exp = base ^ exp mod 2 ^ Z.of_nat w.
Proof.
  intros Hw Hb He. unfold pow_bits.
  assert (Em : forall x, Z.land x (pow_mask w) = x mod 2 ^ Z.of_nat w).
  { intros x. unfold pow_mask. destruct (w =? 64)%nat eqn:E; [apply Nat.eqb_eq in E as ->; apply (Z.land_ones x 64); lia|].
    rewrite Z.shiftl_mul_pow2, Z.mul_1_l, Z.sub_1_r, <- Z.ones_equiv by lia. apply Z.land_ones. lia. }
  rewrite !Em, pow_loop_spec; [|done|lia|apply Z.mod_pos_bound; lia|apply Z.mod_pos_bound; lia].
  rewrite mul_mod_l, Z.mul_1_l. apply pow_mod_base. lia.
Qed.
