(* ===== verification/VWordClaims.v ===== *)
(** * VWordClaims: the operators of expressions are arithmetic

    What the trees of nodes that the parser builds for the operators evaluate
    to, for every module and every valuation of its signals: addition,
    subtraction, multiplication and comparison of integers modulo the width,
    shifts, selections and powers.  A hypothesis that no error is reported
    excludes expressions over the limits of the arena and of the width. *)

From Stdlib Require Import ZArith Lia.
From stdpp Require Import base list gmap strings.
From S2P Require Import Prelude Logic4 VData VExpr VBuild VBits VWord VWordSpec VMul.
From S2P Require Import VMul VSelect.

Open Scope Z_scope.

(** The construction reports no error. *)
Definition accepted {A} (c : B A) (b : bstate) : Prop := b_errors (c b).2 = b_errors b.

(** The value of the expression that a construction returns. *)
Definition yields (values : list logic_t) (c : B expr_value) (b : bstate) (vs : list logic_t) : Prop :=
  ev_has values (c b).2 (c b).1 vs.
Definition yields_bit (values : list logic_t) (c : B Z) (b : bstate) (v : logic_t) : Prop := has values (c b).2 (c b).1 v.

(** All unknown when an operand has an unknown bit, the given number else. *)
Definition exact (w : nat) (va vc : list logic_t) (n : Z) : list logic_t :=
  if any_unknown va || any_unknown vc then replicate w sX else word w n.

Lemma max_nonempty (va vc : list logic_t) : va <> [] -> (1 <= Nat.max (length va) (length vc))%nat.
Proof. destruct va; [done|]. simpl. lia. Qed.

Lemma sum_exact (invert sg : bool) va vc : va <> [] -> vc <> [] ->
  sum_value invert sg va vc = exact (Nat.max (length va) (length vc)) va vc
    (if invert then value_num sg va - value_num sg vc else value_num sg va + value_num sg vc).
Proof.
  intros Ha Hc. unfold exact. destruct (any_unknown va || any_unknown vc) eqn:E; [by apply sum_unknown|].
  apply orb_false_iff in E as [Ua Uc]. rewrite (known_bools va Ua), (known_bools vc Uc) at 1.
  rewrite sum_known by (by apply bools_nonempty). by rewrite !bools_length.
Qed.

Section Operators.
Context (m : compiled_module) (here : Z * Z) (values : list logic_t) (b : bstate) (a c : expr_value) (va vc : list logic_t).
Context (Hagree : consts_agree m values) (Hb : binv (b_errors b) b) (Ha : ev_has values b a va) (Hc : ev_has values b c vc).

#[local] Set Default Proof Using "Type*".

(** C7: the trees built for [a + b] and [a - b] evaluate to the sum and the
    difference modulo the larger width, sign-extended when both operands are
    signed, and to unknown bits when an operand has one. *)
Theorem sums_are_modular :
  let w := Nat.max (length va) (length vc) in
  let sg := ev_is_signed a && ev_is_signed c in
  (accepted (arith_add m here a c) b ->
   yields values (arith_add m here a c) b (exact w va vc (value_num sg va + value_num sg vc))) /\
  (accepted (arith_sub m here a c) b ->
   yields values (arith_sub m here a c) b (exact w va vc (value_num sg va - value_num sg vc))).
Proof.
  intros w sg. split; intros E.
  - destruct (sum_builds m here values (b_errors b) Hagree false _ a c va vc b Hb Ha Hc E) as (_ & _ & H & _).
    by rewrite sum_exact in H by (apply Ha || apply Hc).
  - destruct (sum_builds m here values (b_errors b) Hagree true _ a c va vc b Hb Ha Hc E) as (_ & _ & H & _).
    by rewrite sum_exact in H by (apply Ha || apply Hc).
Qed.

(** C9: the tree built for [a * b], rows of partial products or tiles of two
    bits for two bytes, evaluates to the product; the result is as wide as
    both operands together. *)
Theorem product_is_exact :
  let sg := ev_is_signed a && ev_is_signed c in
  accepted (arith_mul m here a c) b ->
  yields values (arith_mul m here a c) b (exact (length va + length vc) va vc (value_num sg va * value_num sg vc)).
Proof. intros sg E. by destruct (mul_builds m here values (b_errors b) Hagree a c va vc b Hb Ha Hc E) as (_ & _ & H & _). Qed.

(** The trees built for [<], [>] and [==] on operands without unknown bits
    compare the integers they stand for, in two's complement when both are
    signed. *)
Theorem comparisons_compare :
  let sg := ev_is_signed a && ev_is_signed c in
  let x := value_num sg va in let y := value_num sg vc in
  any_unknown va = false -> any_unknown vc = false ->
  (accepted (compare_lt m here a c) b -> yields_bit values (compare_lt m here a c) b (bit (x <? y))) /\
  (accepted (compare_gt m here a c) b -> yields_bit values (compare_gt m here a c) b (bit (y <? x))) /\
  (accepted (compare_eq m here a c) b -> yields_bit values (compare_eq m here a c) b (bit (x =? y))).
Proof.
  intros sg x y Ua Uc. assert (Na : bools va <> []) by apply bools_nonempty, Ha. assert (Nc : bools vc <> []) by apply bools_nonempty, Hc.
  split_and!; intros E.
  - destruct (lt_builds m here values (b_errors b) Hagree a c va vc b Hb Ha Hc E) as (_ & _ & H).
    rewrite (known_bools va Ua), (known_bools vc Uc), lt_known in H by done. exact H.
  - destruct (lt_builds m here values (b_errors b) Hagree c a vc va b Hb Hc Ha E) as (_ & _ & H). rewrite andb_comm in H.
    rewrite (known_bools va Ua), (known_bools vc Uc), lt_known in H by done. exact H.
  - destruct (compare_builds m here values (b_errors b) Hagree ek_binary_eq op_eq a c va vc b eq_refl Hb Ha Hc E) as (_ & _ & H).
    rewrite (known_bools va Ua), (known_bools vc Uc), eq_known in H by done. exact H.
Qed.

(** [a << b] and [a >> b] by an expression that is not constant: an
    unknown bit of the amount makes the result unknown; a known amount is
    taken modulo the power of two that covers the width, and the vacant
    positions are zero. *)
Theorem shifts_shift : (2 <= length va)%nat ->
  (const_int m c (any_unknown_root m here c b).2).1 = None ->
  let s := Z.to_nat (value_num false vc mod 2 ^ Z.of_nat (nbits_for (length va))) in
  let result sh := if any_unknown vc then replicate (length va) sX else norm (sh s va) in
  (accepted (shift_left m here a c) b -> yields values (shift_left m here a c) b (result (shifted_left sL))) /\
  (accepted (shift_right m here a c) b -> yields values (shift_right m here a c) b (result (shifted_right sL))).
Proof.
  intros Hw Hk s result. assert (Ew : (length va <=? 1)%nat = false) by (apply Nat.leb_gt; lia). split; intros E.
  - destruct (shift_builds m here values (b_errors b) Hagree (@shifted_left) a c va vc b Hb Ha Hc E) as (_ & _ & H).
    unfold shift_value in H. by rewrite Ew, Hk in H.
  - destruct (shift_builds m here values (b_errors b) Hagree (@shifted_right) a c va vc b Hb Ha Hc E) as (_ & _ & H).
    unfold shift_value in H. by rewrite Ew, Hk in H.
Qed.

(** Selecting a bit with an expression: an unknown index, or one outside
    of the declared range, gives unknown, a known one the bit of that index,
    for ranges in both directions. *)
Theorem selection_selects : range_ok (ev_msb a) (ev_lsb a) (length va) -> (const_int m c b).1 = None ->
  accepted (apply_bit_select m here a c) b ->
  yields values (apply_bit_select m here a c) b
    [if any_unknown vc then sX else normalize_z_to_x (select_value (ev_msb a) (ev_lsb a) va (value_num false vc))].
Proof.
  intros Hr Hk E. by destruct (bit_select_builds m here values (b_errors b) Hagree a c va vc b Hb Ha Hc Hr Hk E) as (_ & _ & H).
Qed.

End Operators.

(** ** Examples *)

(** A module without constants, two words of four signals, and values that
    make them 11 and 6. *)
Definition sample_values : list logic_t := word 4 11 ++ word 4 6.
Definition sample : list Z * bstate :=
  bmap (make_signal_root module_default (0, 0)) [0; 1; 2; 3; 4; 5; 6; 7] (mk_bstate [] ∅ []).
Definition sample_word (k : nat) (is_signed : bool) : expr_value :=
  {| ev_is_vector := true; ev_is_signed := is_signed; ev_scalar_root := SIZE_MAX;
     ev_vector_roots := take 4 (drop k sample.1); ev_msb := 3; ev_lsb := 0 |}.

Lemma no_consts values : consts_agree module_default values.
Proof. intros s v H. unfold folded_const, module_default, vat in H. simpl in H. by destruct (_ && _). Qed.

Lemma empty_binv : binv [] (mk_bstate [] ∅ []).
Proof.
  split; simpl; [done| |intros n i; by rewrite lookup_empty|done]. split; [done|]. intros i n H. apply vat_Some in H as [Hi _]. unfold vsize in Hi. simpl in Hi. lia.
Qed.

Lemma signals_builds m here values E0 l : consts_agree m values -> forall b, binv E0 b ->
  builds E0 (bmap (make_signal_root m here) l) b (fun rs b' => Forall2 (has values b') rs (map (read_signal values) l)).
Proof.
  intros Hagree. induction l as [|s l IH]; intros b Hb; [by apply builds_ret|]. cbn [bmap map].
  wstep (signal_builds m here values E0 Hagree s). wstep IH. apply builds_ret; [done|]. by constructor.
Qed.

Lemma sample_ok sg : consts_agree module_default sample_values /\ binv (b_errors sample.2) sample.2 /\
  ev_has sample_values sample.2 (sample_word 0 sg) (word 4 11) /\ ev_has sample_values sample.2 (sample_word 4 sg) (word 4 6).
Proof.
  destruct (signals_builds module_default (0, 0) sample_values [] [0; 1; 2; 3; 4; 5; 6; 7] (no_consts _) _ empty_binv) as (H1 & _ & H2);
    [vm_compute; reflexivity|].
  change (b_errors sample.2) with (@nil compile_error). split_and!; [apply no_consts|exact H1| |].
  - split; [|done]. apply (Forall2_take _ _ _ 4) in H2. exact H2.
  - split; [|done]. apply (Forall2_drop _ _ _ 4) in H2.
    assert (Er : roots_of (sample_word 4 sg) = drop 4 sample.1) by (vm_compute; reflexivity). rewrite Er.
    assert (Ev : word 4 6 = drop 4 (map (read_signal sample_values) [0; 1; 2; 3; 4; 5; 6; 7])) by (vm_compute; reflexivity). rewrite Ev.
    exact H2.
Qed.

#[local] Abbreviation on_sample op sg := (op module_default (0, 0) (sample_word 0 sg) (sample_word 4 sg)).

(** 11 + 6 in four bits; as signed words -5 - 6 = 5. *)
Lemma sums_are_modular_witness :
  yields sample_values (on_sample arith_add false) sample.2 (word 4 1) /\
  yields sample_values (on_sample arith_sub true) sample.2 (word 4 5).
Proof.
  split.
  - destruct (sample_ok false) as (H1 & H2 & H3 & H4).
    apply (proj1 (sums_are_modular module_default (0, 0) sample_values sample.2 _ _ _ _ H1 H2 H3 H4)). vm_compute. reflexivity.
  - destruct (sample_ok true) as (H1 & H2 & H3 & H4).
    apply (proj2 (sums_are_modular module_default (0, 0) sample_values sample.2 _ _ _ _ H1 H2 H3 H4)). vm_compute. reflexivity.
Defined.

(** 11 * 6, and -5 * 6 as signed words. *)
Lemma product_is_exact_witness :
  yields sample_values (on_sample arith_mul false) sample.2 (word 8 66) /\
  yields sample_values (on_sample arith_mul true) sample.2 (word 8 (-30)).
Proof.
  split.
  - destruct (sample_ok false) as (H1 & H2 & H3 & H4).
    apply (product_is_exact module_default (0, 0) sample_values sample.2 _ _ _ _ H1 H2 H3 H4). vm_compute. reflexivity.
  - destruct (sample_ok true) as (H1 & H2 & H3 & H4).
    apply (product_is_exact module_default (0, 0) sample_values sample.2 _ _ _ _ H1 H2 H3 H4). vm_compute. reflexivity.
Defined.

(** 6 < 11, but as signed words -5 < 6. *)
Lemma comparisons_compare_witness :
  yields_bit sample_values (on_sample compare_gt false) sample.2 sH /\
  yields_bit sample_values (on_sample compare_lt true) sample.2 sH.
Proof.
  split.
  - destruct (sample_ok false) as (H1 & H2 & H3 & H4).
    apply (comparisons_compare module_default (0, 0) sample_values sample.2 _ _ _ _ H1 H2 H3 H4); vm_compute; reflexivity.
  - destruct (sample_ok true) as (H1 & H2 & H3 & H4).
    apply (comparisons_compare module_default (0, 0) sample_values sample.2 _ _ _ _ H1 H2 H3 H4); vm_compute; reflexivity.
Defined.

(** The amount 6 is taken modulo 4. *)
Lemma shifts_shift_witness :
  yields sample_values (on_sample shift_left false) sample.2 (word 4 12) /\
  yields sample_values (on_sample shift_right false) sample.2 (word 4 2).
Proof.
  destruct (sample_ok false) as (H1 & H2 & H3 & H4).
  assert (Hw : (2 <= length (word 4 11))%nat) by (vm_compute; lia).
  destruct (shifts_shift module_default (0, 0) sample_values sample.2 _ _ _ _ H1 H2 H3 H4 Hw) as [HL HR]; [vm_compute; reflexivity|].
  split; [apply HL|apply HR]; vm_compute; reflexivity.
Defined.

(** Bit 6 of four bits is unknown. *)
Lemma selection_selects_witness : yields sample_values (on_sample apply_bit_select false) sample.2 [sX].
Proof.
  destruct (sample_ok false) as (H1 & H2 & H3 & H4).
  apply (selection_selects module_default (0, 0) sample_values sample.2 _ _ _ _ H1 H2 H3 H4);
    [unfold range_ok, INT_MAX; simpl; lia|vm_compute; reflexivity|vm_compute; reflexivity].
Defined.
