(* ===== verification/VStmt.v ===== *)
(** * VStmt: execution of statements

    The functions of [runtime_details] in [verilog/digital/digital.h] that
    change one module: [begin_change_epoch], [assign_signal], [exec_stmt],
    [process_due_events] and [apply_nba].  A computation takes the state to a
    result and a new state, or to [None] where C++ is undefined or the fuel of
    [exec_stmt] is used up; the flow of a subprogram ([flow_state*], [None] for
    the null pointer) is part of the state of a statement. *)

From Stdlib Require Import ZArith Lia.
From stdpp Require Import base list gmap strings.
From S2P Require Import Prelude Logic4 VData VExpr VCache.

Open Scope Z_scope.

(** ** Computations on a state *)

Definition St (S A : Type) : Type := S -> option (A * S).
#[export] Instance St_ret {S} : MRet (St S) := fun A x s => Some (x, s).
#[export] Instance St_bind {S} : MBind (St S) := fun A C f c s =>
  match c s with Some (x, s') => f x s' | None => None end.

Section Monad.
Context {S : Type}.
Definition get : St S S := fun s => Some (s, s).
Definition put (s : S) : St S unit := fun _ => Some (tt, s).
Definition undefined {A} : St S A := fun _ => None.

(** A loop that collects results, and one that collects a flag: the
    [changed = f(x) || changed] of the source. *)
Fixpoint smap {A C} (f : A -> St S C) (l : list A) : St S (list C) :=
  match l with
  | [] => mret []
  | x :: l' => y ← f x; ys ← smap f l'; mret (y :: ys)
  end.
Fixpoint sor {A} (f : A -> St S bool) (l : list A) : St S bool :=
  match l with
  | [] => mret false
  | x :: l' => c ← f x; cs ← sor f l'; mret (cs || c)
  end.
Fixpoint seach {A} (f : A -> St S unit) (l : list A) : St S unit :=
  match l with
  | [] => mret tt
  | x :: l' => _ ← f x; seach f l'
  end.
End Monad.

Abbreviation R := (St module_state).

(** ** Updates of the members of [module_state] *)

Definition with_values (st : module_state) (vs : list logic_t) : module_state :=
  {| ms_mod := ms_mod st; ms_values := vs; ms_prev_values := ms_prev_values st;
     ms_comb_prev_values := ms_comb_prev_values st; ms_comb_initialized := ms_comb_initialized st;
     ms_initial_ran := ms_initial_ran st; ms_initial_base_tick := ms_initial_base_tick st; ms_events := ms_events st;
     ms_nba_queue := ms_nba_queue st; ms_next_net_values := ms_next_net_values st; ms_change_mark := ms_change_mark st;
     ms_changed_signals := ms_changed_signals st; ms_change_token := ms_change_token st;
     ms_expr_eval_cache := ms_expr_eval_cache st; ms_expr_eval_mark := ms_expr_eval_mark st;
     ms_expr_eval_token := ms_expr_eval_token st |}.
Definition with_changes (st : module_state) (mark changed : list Z) (token : Z) : module_state :=
  {| ms_mod := ms_mod st; ms_values := ms_values st; ms_prev_values := ms_prev_values st;
     ms_comb_prev_values := ms_comb_prev_values st; ms_comb_initialized := ms_comb_initialized st;
     ms_initial_ran := ms_initial_ran st; ms_initial_base_tick := ms_initial_base_tick st; ms_events := ms_events st;
     ms_nba_queue := ms_nba_queue st; ms_next_net_values := ms_next_net_values st; ms_change_mark := mark;
     ms_changed_signals := changed; ms_change_token := token;
     ms_expr_eval_cache := ms_expr_eval_cache st; ms_expr_eval_mark := ms_expr_eval_mark st;
     ms_expr_eval_token := ms_expr_eval_token st |}.
Definition with_queues (st : module_state) (events : list scheduled_event) (nba : list (Z * logic_t)) : module_state :=
  {| ms_mod := ms_mod st; ms_values := ms_values st; ms_prev_values := ms_prev_values st;
     ms_comb_prev_values := ms_comb_prev_values st; ms_comb_initialized := ms_comb_initialized st;
     ms_initial_ran := ms_initial_ran st; ms_initial_base_tick := ms_initial_base_tick st; ms_events := events;
     ms_nba_queue := nba; ms_next_net_values := ms_next_net_values st; ms_change_mark := ms_change_mark st;
     ms_changed_signals := ms_changed_signals st; ms_change_token := ms_change_token st;
     ms_expr_eval_cache := ms_expr_eval_cache st; ms_expr_eval_mark := ms_expr_eval_mark st;
     ms_expr_eval_token := ms_expr_eval_token st |}.

Definition push_event (ev : scheduled_event) : R unit := fun st =>
  Some (tt, with_queues st (ms_events st ++ [ev]) (ms_nba_queue st)).
Definition push_nba (sig : Z) (v : logic_t) : R unit := fun st =>
  Some (tt, with_queues st (ms_events st) (ms_nba_queue st ++ [(sig, v)])).

(** ** Changes *)

(** [if(change_mark.size() < values.size()) { change_mark.resize(...); }]. *)
Definition grown_mark (st : module_state) : list Z :=
  if vsize (ms_change_mark st) <? vsize (ms_values st) then vgrow (ms_change_mark st) (vsize (ms_values st)) 0
  else ms_change_mark st.

Definition begin_change_epoch : R Z := fun st =>
  let t := u32_wrap (ms_change_token st + 1) in
  let st1 :=
    if t =? 0 then with_changes st (map (fun _ => 0) (ms_change_mark st)) [] 1
    else with_changes st (ms_change_mark st) [] t in
  let st2 := with_changes st1 (grown_mark st1) (ms_changed_signals st1) (ms_change_token st1) in
  Some (ms_change_token st2, st2).

Definition assign_signal (sig : Z) (v : logic_t) : R bool := fun st =>
  if vsize (ms_values st) <=? sig then Some (false, st)
  else
    match vat (ms_values st) sig with
    | None => None
    | Some dst =>
        if dns_eqb dst v then Some (false, st)
        else
          let st1 := with_values st (vset (ms_values st) sig v) in
          let mark := grown_mark st1 in
          match vat mark sig with
          | None => None
          | Some mk =>
              if mk =? ms_change_token st1 then Some (true, with_changes st1 mark (ms_changed_signals st1) (ms_change_token st1))
              else Some (true, with_changes st1 (vset mark sig (ms_change_token st1)) (ms_changed_signals st1 ++ [sig])
                                 (ms_change_token st1))
          end
    end.

(** ** Statements *)

Inductive flow_kind : Set := fl_none | fl_ret | fl_brk | fl_cont.

Definition X : Type -> Type := St (module_state * option flow_kind).
Definition lift {A} (c : R A) : X A := fun s =>
  match c s.1 with Some (x, st) => Some (x, (st, s.2)) | None => None end.
(** [fs ? fs->k : none], and [if(fs) { fs->k = k; }]. *)
Definition get_flow : X flow_kind := fun s => Some (default fl_none s.2, s).
Definition set_flow (k : flow_kind) : X unit := fun s =>
  Some (tt, (s.1, match s.2 with Some _ => Some k | None => None end)).

Definition event_scalar (due : Z) (nonblocking : bool) (lhs root : Z) : scheduled_event :=
  {| sv_due_tick := due; sv_nonblocking := nonblocking; sv_lhs_signal := lhs; sv_expr_root := root; sv_is_vector := false;
     sv_lhs_signals := []; sv_expr_roots := [] |}.
Definition event_vector (due : Z) (nonblocking : bool) (lhs roots : list Z) : scheduled_event :=
  {| sv_due_tick := due; sv_nonblocking := nonblocking; sv_lhs_signal := SIZE_MAX; sv_expr_root := SIZE_MAX;
     sv_is_vector := true; sv_lhs_signals := lhs; sv_expr_roots := roots |}.

Definition in_range (sig : Z) : R bool := fun st => Some (sig <? vsize (ms_values st), st).

(** The sampled values are assigned, the signals outside are skipped. *)
Definition assign_sampled (sigs : list Z) (sampled : list logic_t) : R bool :=
  sor (fun '(sig, v) => ok ← in_range sig; if (ok : bool) then assign_signal sig v else mret false) (zip sigs sampled).
Definition queue_sampled (sigs : list Z) (sampled : list logic_t) : R unit :=
  seach (fun '(sig, v) => ok ← in_range sig; if (ok : bool) then push_nba sig v else mret tt) (zip sigs sampled).

Section Statements.
Context (m : compiled_module).
Definition eval (root : Z) : R logic_t := eval_expr_cached m root.

Definition assign_scalar (tick : Z) (n : stmt_node) : R bool :=
  if negb (sn_delay_ticks n =? 0) then
    _ ← push_event (event_scalar (u64_wrap (tick + sn_delay_ticks n)) false (sn_lhs_signal n) (sn_expr_root n)); mret false
  else v ← eval (sn_expr_root n); assign_signal (sn_lhs_signal n) v.

Definition assign_vec (tick : Z) (n : stmt_node) : R bool :=
  if negb (sn_delay_ticks n =? 0) then
    _ ← push_event (event_vector (u64_wrap (tick + sn_delay_ticks n)) false (sn_lhs_signals n) (sn_rhs_roots n)); mret false
  else sampled ← smap eval (sn_rhs_roots n); assign_sampled (sn_lhs_signals n) sampled.

(** The two sizes are equal and not zero. *)
Definition vec_ok (n : stmt_node) : bool :=
  (length (sn_lhs_signals n) =? length (sn_rhs_roots n))%nat && negb (length (sn_lhs_signals n) =? 0)%nat.

(** The loop of the vector case evaluates a root and queues it, signal by
    signal. *)
Definition queue_vec (n : stmt_node) : R unit :=
  seach (fun '(sig, root) => ok ← in_range sig; if (ok : bool) then v ← eval root; push_nba sig v else mret tt)
        (zip (sn_lhs_signals n) (sn_rhs_roots n)).

Definition bit_matches (ck : case_kind) (a b : logic_t) : bool :=
  match ck with
  | ck_normal => dns_eqb a b
  | ck_casez => dns_eqb a sZ || dns_eqb b sZ || dns_eqb a b
  | ck_casex => is_unknown (normalize_z_to_x a) || is_unknown (normalize_z_to_x b) || dns_eqb a b
  end.

(** The bits of an item, up to the first that does not match. *)
Fixpoint item_matches (ck : case_kind) (key : list logic_t) (roots : list Z) : R bool :=
  match key, roots with
  | a :: key', r :: roots' => mb ← eval r; if bit_matches ck a mb then item_matches ck key' roots' else mret false
  | _, _ => mret true
  end.

(** [chosen]: the first item that matches, or the last default before it. *)
Fixpoint choose_item (ck : case_kind) (key : list logic_t) (items : list case_item) (def : option case_item) : R (option case_item) :=
  match items with
  | [] => mret def
  | ci :: items' =>
      if ci_is_default ci then choose_item ck key items' (Some ci)
      else if negb (length (ci_match_roots ci) =? length key)%nat then choose_item ck key items' def
      else ok ← item_matches ck key (ci_match_roots ci);
           if (ok : bool) then mret (Some ci) else choose_item ck key items' def
  end.

Definition case_key (roots : list Z) : R (list logic_t) := match roots with [] => mret [sX] | _ => smap eval roots end.

Definition max_iter : nat := Z.to_nat 4096.

Section Node.
(** [run] executes a statement of the arena. *)
Context (run : Z -> X bool).

(** [for(auto const sub: list)] that stops when the flow is not [none]. *)
Fixpoint exec_list (l : list Z) : X bool :=
  match l with
  | [] => mret false
  | sub :: l' =>
      k ← get_flow;
      match k with
      | fl_none => c ← run sub; cs ← exec_list l'; mret (cs || c)
      | _ => mret false
      end
  end.

Definition run_opt (i : Z) : X bool := if i =? SIZE_MAX then mret false else run i.
Definition condition (n : stmt_node) : X bool := c ← lift (eval (sn_expr_root n)); mret (dns_eqb (normalize_z_to_x c) sH).

(** What follows the body in a loop: [true] when the loop goes on. *)
Definition after_body : X bool :=
  k ← get_flow;
  match k with
  | fl_ret => mret false
  | fl_brk => _ ← set_flow fl_none; mret false
  | fl_cont => _ ← set_flow fl_none; mret true
  | fl_none => mret true
  end.

Fixpoint for_loop (n : stmt_node) (iter : nat) : X bool :=
  match iter with
  | O => mret false
  | S iter' =>
      k ← get_flow;
      match k with
      | fl_ret => mret false
      | fl_brk => _ ← set_flow fl_none; mret false
      | fl_cont => _ ← set_flow fl_none; c ← run_opt (sn_step_stmt n); cs ← for_loop n iter'; mret (cs || c)
      | fl_none =>
          t ← condition n;
          if (t : bool) then
            c1 ← run_opt (sn_body_stmt n);
            go ← after_body;
            if (go : bool) then c2 ← run_opt (sn_step_stmt n); cs ← for_loop n iter'; mret (cs || (c2 || c1))
            else mret c1
          else mret false
      end
  end.

Fixpoint while_loop (n : stmt_node) (iter : nat) : X bool :=
  match iter with
  | O => mret false
  | S iter' =>
      go ← after_body;
      if (go : bool) then
        t ← condition n;
        if (t : bool) then
          c ← run_opt (sn_body_stmt n);
          go' ← after_body;
          if (go' : bool) then cs ← while_loop n iter'; mret (cs || c) else mret c
        else mret false
      else mret false
  end.

Fixpoint do_while_loop (n : stmt_node) (iter : nat) : X bool :=
  match iter with
  | O => mret false
  | S iter' =>
      go ← after_body;
      if (go : bool) then
        c ← run_opt (sn_body_stmt n);
        go' ← after_body;
        if (go' : bool) then
          t ← condition n;
          if (t : bool) then cs ← do_while_loop n iter'; mret (cs || c) else mret c
        else mret c
      else mret false
  end.

(** The statements of a subprogram run with a flow of their own; [break] and
    [continue] go to the flow outside. *)
Definition subprogram (l : list Z) : X bool := fun s =>
  match exec_list l (s.1, Some fl_none) with
  | Some (c, (st, local)) =>
      let fs := match local with
                | Some fl_brk => match s.2 with Some _ => Some fl_brk | None => None end
                | Some fl_cont => match s.2 with Some _ => Some fl_cont | None => None end
                | _ => s.2
                end in
      Some (c, (st, fs))
  | None => None
  end.

Definition exec_node (tick : Z) (treat_nonblocking_as_blocking : bool) (n : stmt_node) : X bool :=
  match sn_k n with
  | sk_empty => mret false
  | sk_block => exec_list (sn_stmts n)
  | sk_subprogram_block => subprogram (sn_stmts n)
  | sk_blocking_assign =>
      ok ← lift (in_range (sn_lhs_signal n)); if (ok : bool) then lift (assign_scalar tick n) else mret false
  | sk_blocking_assign_vec => if vec_ok n then lift (assign_vec tick n) else mret false
  | sk_nonblocking_assign =>
      ok ← lift (in_range (sn_lhs_signal n));
      if (ok : bool) then
        if treat_nonblocking_as_blocking then lift (assign_scalar tick n)
        else if negb (sn_delay_ticks n =? 0) then
          _ ← lift (push_event (event_scalar (u64_wrap (tick + sn_delay_ticks n)) true (sn_lhs_signal n) (sn_expr_root n)));
          mret false
        else v ← lift (eval (sn_expr_root n)); _ ← lift (push_nba (sn_lhs_signal n) v); mret false
      else mret false
  | sk_nonblocking_assign_vec =>
      if vec_ok n then
        if treat_nonblocking_as_blocking then lift (assign_vec tick n)
        else if negb (sn_delay_ticks n =? 0) then
          _ ← lift (push_event (event_vector (u64_wrap (tick + sn_delay_ticks n)) true (sn_lhs_signals n) (sn_rhs_roots n)));
          mret false
        else _ ← lift (queue_vec n); mret false
      else mret false
  | sk_if_stmt => t ← condition n; exec_list (if (t : bool) then sn_stmts n else sn_else_stmts n)
  | sk_case_stmt =>
      key ← lift (case_key (sn_case_expr_roots n));
      chosen ← lift (choose_item (sn_ck n) key (sn_case_items n) None);
      match chosen with Some ci => exec_list (ci_stmts ci) | None => mret false end
  | sk_for_stmt => c ← run_opt (sn_init_stmt n); cs ← for_loop n max_iter; mret (cs || c)
  | sk_while_stmt => while_loop n max_iter
  | sk_do_while_stmt => do_while_loop n max_iter
  | sk_return_stmt => _ ← set_flow fl_ret; mret false
  | sk_break_stmt => _ ← set_flow fl_brk; mret false
  | sk_continue_stmt => _ ← set_flow fl_cont; mret false
  end.
End Node.

(** The fuel bounds the nesting of statements. *)
Fixpoint exec_stmt (fuel : nat) (arena : list stmt_node) (tick : Z) (treat_nonblocking_as_blocking : bool) (stmt_idx : Z) : X bool :=
  match fuel with
  | O => undefined
  | S fuel' =>
      if vsize arena <=? stmt_idx then mret false
      else
        match vat arena stmt_idx with
        | Some n => exec_node (exec_stmt fuel' arena tick treat_nonblocking_as_blocking) tick treat_nonblocking_as_blocking n
        | None => undefined
        end
  end.

(** [flow_state fs{}; exec_stmt(..., root, st, tick, false, &fs)]: the arena
    is deeper than any statement in it. *)
Definition exec_root (arena : list stmt_node) (tick : Z) (root : Z) : R bool := fun st =>
  match exec_stmt (S (length arena)) arena tick false root (st, Some fl_none) with
  | Some (c, (st', _)) => Some (c, st')
  | None => None
  end.

(** ** Scheduled events *)

Definition run_event (ev : scheduled_event) : R unit :=
  if sv_is_vector ev then
    if (length (sv_lhs_signals ev) =? length (sv_expr_roots ev))%nat && negb (length (sv_lhs_signals ev) =? 0)%nat then
      sampled ← smap eval (sv_expr_roots ev);
      if sv_nonblocking ev then queue_sampled (sv_lhs_signals ev) sampled
      else _ ← assign_sampled (sv_lhs_signals ev) sampled; mret tt
    else mret tt
  else
    ok ← in_range (sv_lhs_signal ev);
    if (ok : bool) then
      v ← eval (sv_expr_root ev);
      if sv_nonblocking ev then push_nba (sv_lhs_signal ev) v
      else _ ← assign_signal (sv_lhs_signal ev) v; mret tt
    else mret tt.

(** The events that run and the events that are kept, in their order. *)
Definition run_due (tick : Z) (evs : list scheduled_event) : R unit :=
  seach (fun ev => if tick <? sv_due_tick ev then mret tt else run_event ev) evs.
End Statements.

Definition process_due_events (tick : Z) : R unit := fun st =>
  match ms_mod st with
  | None => Some (tt, st)
  | Some m =>
      let evs := ms_events st in
      match run_due m tick evs st with
      | Some (_, st') => Some (tt, with_queues st' (filter (fun ev => tick < sv_due_tick ev) evs) (ms_nba_queue st'))
      | None => None
      end
  end.

Definition apply_nba : R bool := fun st =>
  match sor (fun '(lhs, v) => assign_signal lhs v) (ms_nba_queue st) st with
  | Some (changed, st') => Some (changed, with_queues st' (ms_events st') [])
  | None => None
  end.
