(* ===== verification/VStmtInv.v ===== *)
(** * VStmtInv: statements return and keep the state in shape

    One predicate, [Good], says of a computation that returns a flag that it
    is defined, keeps the invariant of the module, and leaves the values as
    they were when the flag is false.  It is closed under the constructions of
    [exec_stmt], so the theorem about whole statements is an induction on
    their nesting. *)

From Stdlib Require Import ZArith Lia.
From stdpp Require Import base list gmap strings.
From S2P Require Import Prelude Logic4 VData VExpr VCache VStmt.

Open Scope Z_scope.

(** ** Results of computations *)

Definition wp {S A} (c : St S A) (s : S) (Q : A -> S -> Prop) : Prop :=
  match c s with Some (x, s') => Q x s' | None => False end.

Lemma wp_bind {S A C} (c : St S A) (f : A -> St S C) s Q : wp c s (fun x s' => wp (f x) s' Q) -> wp (c ≫= f) s Q.
Proof. unfold wp, mbind, St_bind. by destruct (c s) as [[]|]. Qed.
Lemma wp_bind_inv {S A C} (c : St S A) (f : A -> St S C) s Q : wp (c ≫= f) s Q -> wp c s (fun x s' => wp (f x) s' Q).
Proof. unfold wp, mbind, St_bind. by destruct (c s) as [[]|]. Qed.
Lemma wp_ret {S A} (x : A) (s : S) (Q : A -> S -> Prop) : Q x s -> wp (mret x) s Q.
Proof. done. Qed.
Lemma wp_mono {S A} (c : St S A) s (P Q : A -> S -> Prop) : wp c s P -> (forall x s', P x s' -> Q x s') -> wp c s Q.
Proof. unfold wp. destruct (c s) as [[]|]; auto. Qed.
Lemma wp_result {S A} (c : St S A) s Q : wp c s Q -> exists x s', c s = Some (x, s') /\ Q x s'.
Proof. unfold wp. destruct (c s) as [[x s']|]; [|done]. eauto. Qed.

(** ** The invariant *)

Definition event_sane (ev : scheduled_event) : Prop :=
  0 <= sv_lhs_signal ev /\ 0 <= sv_expr_root ev /\ Forall (Z.le 0) (sv_lhs_signals ev) /\ Forall (Z.le 0) (sv_expr_roots ev).

Record sane (st : module_state) : Prop := mk_sane {
  sane_memo : memo_inv st;
  sane_nba : Forall (fun e => 0 <= e.1) (ms_nba_queue st);
  sane_events : Forall event_sane (ms_events st)
}.

(** What no statement changes. *)
Record frame (st st' : module_state) : Prop := mk_frame {
  fr_mod : ms_mod st' = ms_mod st;
  fr_size : length (ms_values st') = length (ms_values st);
  fr_prev : ms_prev_values st' = ms_prev_values st;
  fr_comb_prev : ms_comb_prev_values st' = ms_comb_prev_values st;
  fr_comb_init : ms_comb_initialized st' = ms_comb_initialized st;
  fr_initial : ms_initial_ran st' = ms_initial_ran st;
  fr_base : ms_initial_base_tick st' = ms_initial_base_tick st;
  fr_next : ms_next_net_values st' = ms_next_net_values st;
  fr_token : ms_change_token st' = ms_change_token st
}.
#[export] Instance frame_preorder : PreOrder frame.
Proof. split; [by split|]. intros a b c [] []. split; congruence. Qed.

(** The values change only when the flag is set. *)
Definition steps (changed : bool) (st st' : module_state) : Prop :=
  frame st st' /\ (changed = false -> ms_values st' = ms_values st).

Lemma steps_refl b st : steps b st st.
Proof. by split. Qed.
Lemma steps_trans b c st st1 st2 : steps b st st1 -> steps c st1 st2 -> steps (c || b) st st2.
Proof. intros [F1 V1] [F2 V2]. split; [by etrans|]. intros [-> ->]%orb_false_iff. rewrite V2, V1 by done. done. Qed.
Lemma steps_weaken b c st st' : steps b st st' -> implb b c -> steps c st st'.
Proof. intros [F V] H. split; [done|]. intros ->. by destruct b; [|apply V]. Qed.

(** The state of a module inside the state of a computation. *)
Class View (S : Type) := view : S -> module_state.
#[export] Instance view_module : View module_state := fun s => s.
#[export] Instance view_flow : View (module_state * option flow_kind) := fst.

Section Good.
Context {S : Type} `{!View S}.

Definition quiet {A} (c : St S A) : Prop := forall s, sane (view s) ->
  wp c s (fun _ s' => sane (view s') /\ steps false (view s) (view s')).
(** From a state reached with the flag [b0], the flag returned accounts for
    all the changes. *)
Definition good (b0 : bool) (c : St S bool) : Prop := forall st0 s, sane (view s) -> steps b0 st0 (view s) ->
  wp c s (fun b s' => sane (view s') /\ steps b st0 (view s')).

Lemma good_ret b0 b : implb b0 b -> good b0 (mret b).
Proof. intros H st0 s Hs Ht. split; [done|]. by eapply steps_weaken. Qed.
Lemma quiet_ret {A} (x : A) : quiet (mret x).
Proof. intros s Hs. split; [done|apply steps_refl]. Qed.
Lemma good_bind b0 c f : good false c -> (forall b, good (b || b0) (f b)) -> good b0 (c ≫= f).
Proof.
  intros Hc Hf st0 s Hs Ht. apply wp_bind. eapply wp_mono; [apply (Hc (view s)); [done|apply steps_refl]|].
  intros b s' [Hs' Ht']. apply Hf; [done|]. by eapply steps_trans.
Qed.
Lemma quiet_bind {A C} (c : St S A) (f : A -> St S C) : quiet c -> (forall x, quiet (f x)) -> quiet (c ≫= f).
Proof.
  intros Hc Hf s Hs. apply wp_bind. eapply wp_mono; [by apply Hc|]. intros x s' [Hs' Ht]. eapply wp_mono; [by apply Hf|].
  intros y s2 [Hs2 Ht2]. split; [done|]. apply (steps_trans _ _ _ _ _ Ht Ht2).
Qed.
Lemma good_quiet {A} b0 (c : St S A) f : quiet c -> (forall x, good b0 (f x)) -> good b0 (c ≫= f).
Proof.
  intros Hc Hf st0 s Hs Ht. apply wp_bind. eapply wp_mono; [by apply Hc|]. intros x s' [Hs' Ht']. apply Hf; [done|].
  apply (steps_trans _ _ _ _ _ Ht Ht').
Qed.
Lemma good_weaken b0 c : good false c -> implb b0 true -> good b0 (b ← c; mret (b || b0)).
Proof. intros Hc _. apply good_bind; [done|]. intros b. apply good_ret. by destruct b, b0. Qed.

Lemma quiet_smap {A C} (f : A -> St S C) l : Forall (fun x => quiet (f x)) l -> quiet (smap f l).
Proof.
  induction 1 as [|x l Hx Hl IH]; simpl; [apply quiet_ret|]. apply quiet_bind; [done|]. intros y. apply quiet_bind; [done|].
  intros ys. apply quiet_ret.
Qed.
Lemma quiet_seach {A} (f : A -> St S unit) l : Forall (fun x => quiet (f x)) l -> quiet (seach f l).
Proof. induction 1 as [|x l Hx Hl IH]; simpl; [apply quiet_ret|]. by apply quiet_bind. Qed.
Lemma good_sor {A} (f : A -> St S bool) l : Forall (fun x => good false (f x)) l -> good false (sor f l).
Proof.
  induction 1 as [|x l Hx Hl IH]; simpl; [by apply good_ret|]. apply good_bind; [done|]. intros b.
  apply good_bind; [done|]. intros b'. apply good_ret. by destruct b, b'.
Qed.
End Good.

(** ** The operations on a module *)

Lemma memo_inv_same st st' : ms_expr_eval_cache st' = ms_expr_eval_cache st -> ms_expr_eval_mark st' = ms_expr_eval_mark st ->
  ms_expr_eval_token st' = ms_expr_eval_token st -> memo_inv st -> memo_inv st'.
Proof. unfold memo_inv. by intros -> -> ->. Qed.

Lemma quiet_in_range sig : quiet (in_range sig).
Proof. intros s Hs. split; [done|apply steps_refl]. Qed.

Lemma quiet_push_event ev : event_sane ev -> quiet (push_event ev).
Proof.
  intros He s [H1 H2 H3]. split; [|by repeat split]. split; simpl; [by eapply memo_inv_same|done|].
  apply Forall_app. auto.
Qed.
Lemma quiet_push_nba sig v : 0 <= sig -> quiet (push_nba sig v).
Proof.
  intros He s [H1 H2 H3]. split; [|by repeat split]. split; simpl; [by eapply memo_inv_same| |done].
  apply Forall_app. auto.
Qed.

Lemma grown_mark_size st : vsize (ms_values st) <= vsize (grown_mark st).
Proof.
  unfold grown_mark. destruct (_ <? _) eqn:E; [|by apply Z.ltb_ge in E]. apply Z.ltb_lt in E. rewrite vsize_vgrow; lia.
Qed.

(** What an assignment does: nothing outside, else the value is stored, and
    the flag says whether it is another one. *)
Lemma assign_spec sig v st : 0 <= sig -> wp (assign_signal sig v) st (fun b st' =>
  ms_values st' = (if sig <? vsize (ms_values st) then vset (ms_values st) sig v else ms_values st) /\
  (b = false -> ms_values st' = ms_values st) /\ (b = true -> ms_values st' <> ms_values st) /\
  ms_events st' = ms_events st /\ ms_nba_queue st' = ms_nba_queue st /\ frame st st' /\ (memo_inv st -> memo_inv st')).
Proof.
  intros Hs. unfold wp, assign_signal. destruct (vsize (ms_values st) <=? sig) eqn:E.
  { apply Z.leb_le in E. rewrite (proj2 (Z.ltb_ge _ _)) by done. split_and!; done || reflexivity. }
  apply Z.leb_gt in E. rewrite (proj2 (Z.ltb_lt _ _)) by done. destruct (proj2 (vat_is_Some (ms_values st) sig)) as [d Hd]; [lia|].
  rewrite Hd. destruct (dns_eqb d v) eqn:Ed.
  { assert (d = v) as -> by (by destruct d, v). rewrite vset_same by done. split_and!; done || reflexivity. }
  pose proof (grown_mark_size (with_values st (vset (ms_values st) sig v))) as Hg. simpl in Hg. rewrite vsize_vset in Hg.
  destruct (proj2 (vat_is_Some (grown_mark (with_values st (vset (ms_values st) sig v))) sig)) as [k Hk]; [lia|]. rewrite Hk.
  assert (Hne : vset (ms_values st) sig v <> ms_values st).
  { intros En. rewrite <- En, vat_vset in Hd by lia. injection Hd as ->. by destruct d. }
  assert (Hl : length (vset (ms_values st) sig v) = length (ms_values st)) by (pose proof (vsize_vset (ms_values st) sig v); unfold vsize in *; lia).
  destruct (k =? _); split_and!; try done; by split.
Qed.

Lemma good_assign sig v : 0 <= sig -> good false (assign_signal sig v).
Proof.
  intros Hs st0 s [S1 S2 S3] Ht. unfold view, view_module in *. eapply wp_mono; [by apply assign_spec|].
  intros b st' (_ & Hv & _ & He & Hn & Hf & Hm). split.
  - split; [by apply Hm|by rewrite Hn|by rewrite He].
  - replace b with (b || false) by apply orb_false_r. eapply steps_trans; [exact Ht|]. by split.
Qed.

Lemma lift_quiet {A} (c : R A) : quiet c -> quiet (lift c).
Proof. intros H [st fs] Hs. unfold wp, lift. specialize (H st Hs). unfold wp in H. simpl. by destruct (c st) as [[]|]. Qed.
Lemma lift_good b0 c : good b0 c -> good b0 (lift c).
Proof. intros H st0 [st fs] Hs Ht. unfold wp, lift. specialize (H st0 st Hs Ht). unfold wp in H. simpl. by destruct (c st) as [[]|]. Qed.
Lemma quiet_get_flow : quiet get_flow.
Proof. intros s Hs. split; [done|apply steps_refl]. Qed.
Lemma quiet_set_flow k : quiet (set_flow k).
Proof. intros s Hs. split; [done|apply steps_refl]. Qed.

(** The constructions of [exec_stmt]. *)
Create HintDb stmts.
#[export] Hint Resolve quiet_in_range quiet_push_event quiet_push_nba good_assign lift_quiet lift_good quiet_get_flow quiet_set_flow
  quiet_ret quiet_smap quiet_seach good_sor : stmts.

Ltac good :=
  lazymatch goal with
  | |- good _ (mret _) => apply good_ret; repeat match goal with b : bool |- _ => destruct b end; done
  | |- quiet (mret _) => apply quiet_ret
  | |- quiet (_ ≫= _) => apply quiet_bind; [good|intros ?; good]
  | |- quiet (match ?x with _ => _ end) => destruct x; good
  | |- good _ (match ?x with _ => _ end) => destruct x; good
  | |- good _ (?c ≫= _) =>
      first [apply good_quiet; [solve [good]|intros ?; good] | apply good_bind; [good|intros ?; good]]
  | |- _ => eauto 6 with stmts lia
  end.

(** ** Statements in order

    The parser adds a statement after its parts, so the parts have smaller
    indices; the missing part of a loop is [SIZE_MAX]. *)

Definition children (n : stmt_node) : list Z :=
  sn_stmts n ++ sn_else_stmts n ++ concat (map ci_stmts (sn_case_items n)) ++ [sn_init_stmt n; sn_step_stmt n; sn_body_stmt n].
Definition roots_used (n : stmt_node) : list Z :=
  [sn_lhs_signal n; sn_expr_root n] ++ sn_lhs_signals n ++ sn_rhs_roots n ++ sn_case_expr_roots n ++
  concat (map ci_match_roots (sn_case_items n)).

Definition stmt_ok (size i : Z) (n : stmt_node) : bool :=
  forallb (fun c => (0 <=? c) && ((c <? i) || (size <=? c))) (children n) && forallb (Z.leb 0) (roots_used n).
Definition stmts_ok (arena : list stmt_node) : bool :=
  forallb (fun '(i, n) => stmt_ok (vsize arena) (Z.of_nat i) n) (zip (seq 0 (length arena)) arena).

Lemma stmts_ok_at arena i n : stmts_ok arena -> vat arena i = Some n -> stmt_ok (vsize arena) i n.
Proof.
  unfold stmts_ok. intros H Hn. apply vat_Some in Hn as [Hi Hn]. apply Is_true_true in H. rewrite forallb_forall in H.
  apply Is_true_true. specialize (H (Z.to_nat i, n)). simpl in H. rewrite Z2Nat.id in H by lia. apply H.
  apply list_elem_of_In. apply (list_elem_of_lookup_2 _ (Z.to_nat i)). rewrite lookup_zip_with. unfold vsize in Hi.
  rewrite lookup_seq_lt by lia. rewrite Hn. done.
Qed.

Lemma forallb_Forall {A} (f : A -> bool) (P : A -> Prop) l : (forall x, f x = true -> P x) -> forallb f l = true -> Forall P l.
Proof. intros H Hl. apply Forall_forall. intros x Hx. rewrite forallb_forall in Hl. apply H, Hl. by apply list_elem_of_In. Qed.

Section Exec.
Context (m : compiled_module) (Hm : arena_ok (cm_expr_nodes m)).
#[local] Set Default Proof Using "Type*".

Lemma quiet_eval root : 0 <= root -> quiet (eval m root).
Proof.
  intros Hr st [S1 S2 S3]. unfold wp, eval. destruct (cached_agrees m root st Hm Hr S1) as (c & t & -> & Hi).
  split; [by split|]. by repeat split.
Qed.
#[local] Hint Resolve quiet_eval : stmts.

Lemma quiet_samples roots : Forall (Z.le 0) roots -> quiet (smap (eval m) roots).
Proof. intros H. apply quiet_smap. eapply Forall_impl; [exact H|]. eauto using quiet_eval. Qed.

Lemma zip_nonneg {C} sigs (l : list C) : Forall (Z.le 0) sigs -> Forall (fun p => 0 <= p.1) (zip sigs l).
Proof using Type. intros H. revert l. induction H as [|s sigs Hs H IH]; intros [|y l]; constructor; auto. Qed.

Lemma good_assign_sampled sigs sampled : Forall (Z.le 0) sigs -> good false (assign_sampled sigs sampled).
Proof.
  intros H. apply good_sor. eapply Forall_impl; [by apply zip_nonneg|]. intros [sig v] Hs. simpl in Hs. good.
Qed.
Lemma quiet_queue_sampled sigs sampled : Forall (Z.le 0) sigs -> quiet (queue_sampled sigs sampled).
Proof.
  intros H. apply quiet_seach. eapply Forall_impl; [by apply zip_nonneg|]. intros [sig v] Hs. simpl in Hs. good.
Qed.

(** The parts of a statement that are in order. *)
Record stmt_sane (n : stmt_node) : Prop := mk_stmt_sane {
  ss_lhs : 0 <= sn_lhs_signal n;
  ss_root : 0 <= sn_expr_root n;
  ss_lhss : Forall (Z.le 0) (sn_lhs_signals n);
  ss_roots : Forall (Z.le 0) (sn_rhs_roots n);
  ss_case : Forall (Z.le 0) (sn_case_expr_roots n);
  ss_items : Forall (fun ci => Forall (Z.le 0) (ci_match_roots ci)) (sn_case_items n)
}.

Lemma Forall_concat_map {A} (f : A -> list Z) (P : Z -> Prop) l : Forall P (concat (map f l)) -> Forall (fun x => Forall P (f x)) l.
Proof using Type. induction l as [|x l IH]; simpl; [constructor|]. intros [H1 H2]%Forall_app. constructor; auto. Qed.

Lemma stmt_ok_sane size i n : stmt_ok size i n -> stmt_sane n /\ Forall (fun c => 0 <= c /\ (c < i \/ size <= c)) (children n).
Proof using Type.
  unfold stmt_ok. intros [H1 H2]%Is_true_true%andb_true_iff. split.
  - apply (forallb_Forall _ (Z.le 0)) in H2; [|intros x; apply Z.leb_le]. unfold roots_used in H2. rewrite !Forall_app, !Forall_cons in H2.
    destruct H2 as ((? & ? & _) & ? & ? & ? & H). apply Forall_concat_map in H. by split.
  - eapply forallb_Forall; [|exact H1]. intros x. cbv beta. rewrite andb_true_iff, orb_true_iff, !Z.leb_le, Z.ltb_lt. lia.
Qed.

Lemma good_assign_scalar tick n : stmt_sane n -> good false (assign_scalar m tick n).
Proof.
  intros []. unfold assign_scalar. destruct (negb _); [|good]. apply good_quiet; [|intros ?; good].
  apply quiet_push_event. by repeat split; [..|constructor|constructor].
Qed.
Lemma good_assign_vec tick n : stmt_sane n -> good false (assign_vec m tick n).
Proof.
  intros []. unfold assign_vec. destruct (negb _).
  - apply good_quiet; [|intros ?; good]. apply quiet_push_event. by repeat split.
  - apply good_quiet; [by apply quiet_samples|]. intros l. by apply good_assign_sampled.
Qed.
Lemma quiet_queue_vec n : stmt_sane n -> quiet (queue_vec m n).
Proof.
  intros []. unfold queue_vec. apply quiet_seach.
  assert (H : Forall (fun p => 0 <= p.1 /\ 0 <= p.2) (zip (sn_lhs_signals n) (sn_rhs_roots n))).
  { revert ss_roots0. generalize (sn_rhs_roots n). induction ss_lhss0 as [|s sigs Hs H IH]; intros [|y l] Hl; constructor; inversion Hl; subst; simpl; auto. }
  eapply Forall_impl; [exact H|]. intros [sig r] [H1 H2]. simpl in *. good.
Qed.

Lemma quiet_item_matches ck key roots : Forall (Z.le 0) roots -> quiet (item_matches m ck key roots).
Proof.
  intros H. revert key. induction H as [|r roots Hr H IH]; intros [|a key]; simpl; try apply quiet_ret.
  apply quiet_bind; [by apply quiet_eval|]. intros v. destruct (bit_matches ck a v); [apply IH|apply quiet_ret].
Qed.
Lemma quiet_case_key roots : Forall (Z.le 0) roots -> quiet (case_key m roots).
Proof. intros H. destruct roots; [apply quiet_ret|]. by apply quiet_samples. Qed.

(** The item chosen is one of the statement. *)
Lemma choose_item_spec ck key items : Forall (fun ci => Forall (Z.le 0) (ci_match_roots ci)) items ->
  forall (P : case_item -> Prop) def s, Forall P items -> (forall ci, def = Some ci -> P ci) -> sane (view s) ->
  wp (choose_item m ck key items def) s (fun r s' => sane (view s') /\ steps false (view s) (view s') /\ forall ci, r = Some ci -> P ci).
Proof.
  induction 1 as [|ci items Hci Hi IH]; intros P def s HP Hd Hs; [by apply wp_ret; split_and!; [|apply steps_refl|]|].
  inversion HP as [|? ? Pci Pi]; subst. cbn [choose_item]. destruct (ci_is_default ci).
  { apply IH; [done| |done]. intros ? [= <-]. done. }
  destruct (negb _); [by apply IH|]. apply wp_bind. eapply wp_mono; [by apply (quiet_item_matches ck key (ci_match_roots ci))|].
  intros ok s1 [Hs1 Ht1]. destruct ok; [apply wp_ret; split_and!; [done|done|]; intros ? [= <-]; done|].
  eapply wp_mono; [by apply (IH P def s1)|]. intros r s2 (Hs2 & Ht2 & Hr). split_and!; [done| |done].
  apply (steps_trans _ _ _ _ _ Ht1 Ht2).
Qed.

Section Node.
Context (run : Z -> X bool) (ok : Z -> Prop) (Hrun : forall i, ok i -> good false (run i)).

Lemma good_exec_list l : Forall ok l -> good false (exec_list run l).
Proof.
  induction 1 as [|x l Hx Hl IH]; cbn [exec_list]; [good|]. good.
Qed.
Lemma good_run_opt i : ok i \/ i = SIZE_MAX -> good false (run_opt run i).
Proof. intros H. unfold run_opt. destruct (i =? SIZE_MAX) eqn:E; [good|]. apply Z.eqb_neq in E. apply Hrun. by destruct H. Qed.
Lemma quiet_condition n : stmt_sane n -> quiet (condition m n).
Proof. intros []. unfold condition. apply quiet_bind; [apply lift_quiet; by apply quiet_eval|]. intros ?. good. Qed.
Lemma quiet_after_body : quiet after_body.
Proof using Type. unfold after_body. good. Qed.

Lemma good_for_loop n iter : stmt_sane n -> ok (sn_step_stmt n) -> ok (sn_body_stmt n) -> good false (for_loop m run n iter).
Proof.
  intros Hn H1 H2. induction iter as [|iter IH]; cbn [for_loop]; [good|].
  pose proof (good_run_opt _ (or_introl H1)). pose proof (good_run_opt _ (or_introl H2)). pose proof (quiet_condition n Hn). pose proof quiet_after_body. good.
Qed.
Lemma good_while_loop n iter : stmt_sane n -> ok (sn_body_stmt n) -> good false (while_loop m run n iter).
Proof.
  intros Hn H1. induction iter as [|iter IH]; cbn [while_loop]; [good|].
  pose proof (good_run_opt _ (or_introl H1)). pose proof (quiet_condition n Hn). pose proof quiet_after_body. good.
Qed.
Lemma good_do_while_loop n iter : stmt_sane n -> ok (sn_body_stmt n) -> good false (do_while_loop m run n iter).
Proof.
  intros Hn H1. induction iter as [|iter IH]; cbn [do_while_loop]; [good|].
  pose proof (good_run_opt _ (or_introl H1)). pose proof (quiet_condition n Hn). pose proof quiet_after_body. good.
Qed.
Lemma good_subprogram l : Forall ok l -> good false (subprogram run l).
Proof.
  intros H st0 [st fs] Hs Ht. unfold wp, subprogram. simpl. pose proof (good_exec_list l H st0 (st, Some fl_none) Hs Ht) as Hw.
  unfold wp in Hw. by destruct (exec_list run l (st, Some fl_none)) as [[c [st' local]]|].
Qed.
Lemma good_exec_node tick treat n : stmt_sane n -> Forall ok (children n) -> good false (exec_node m run tick treat n).
Proof.
  intros Hn Hc. unfold children in Hc. rewrite !Forall_app, !Forall_cons in Hc. destruct Hc as (C1 & C2 & C3 & C4 & C5 & C6 & _).
  pose proof (good_exec_list _ C1). pose proof (good_exec_list _ C2). pose proof (good_assign_scalar tick n Hn).
  pose proof (good_assign_vec tick n Hn). pose proof (quiet_queue_vec n Hn). pose proof (quiet_condition n Hn).
  pose proof (lift_quiet _ (quiet_eval _ (ss_root n Hn))) as He.
  unfold exec_node. destruct (sn_k n); try (by good); try (by apply good_subprogram).
  - apply good_quiet; [good|]. intros [|]; [|good]. destruct treat; [good|]. destruct (negb _).
    + apply good_quiet; [|intros ?; good]. apply lift_quiet, quiet_push_event. destruct Hn. by repeat split; [..|constructor|constructor].
    + apply good_quiet; [exact He|]. intros v. apply good_quiet; [apply lift_quiet, quiet_push_nba, Hn|]. intros ?. good.
  - destruct (vec_ok n); [|good]. destruct treat; [good|]. destruct (negb _); [|good].
    apply good_quiet; [|intros ?; good]. apply lift_quiet, quiet_push_event. destruct Hn. by repeat split.
  - apply good_quiet; [done|]. by intros [].
  - apply good_quiet; [apply lift_quiet, quiet_case_key, Hn|]. intros key st0 [st fs] Hs Ht. apply wp_bind.
    apply Forall_concat_map in C3.
    pose proof (choose_item_spec (sn_ck n) key _ (ss_items n Hn) _ None st C3 ltac:(done) Hs) as Hw. unfold wp, lift in Hw |- *. simpl.
    destruct (choose_item m (sn_ck n) key (sn_case_items n) None st) as [[chosen st1]|]; [|done]. destruct Hw as (Hs1 & Ht1 & Hch).
    pose proof (steps_trans _ _ _ _ _ Ht Ht1) as Ht2. destruct chosen as [ci|]; [|by apply (good_ret false false)].
    by apply (good_exec_list (ci_stmts ci) (Hch ci eq_refl) st0 (st1, fs)).
  - apply good_bind; [apply good_run_opt; by left|]. intros b. apply good_bind; [by apply good_for_loop|]. intros b'. good.
  - by apply good_while_loop.
  - by apply good_do_while_loop.
Qed.
End Node.

(** Statements in order are executed to the end. *)
Lemma good_exec_stmt arena tick treat : stmts_ok arena ->
  forall fuel i, 0 <= i -> (S (Z.to_nat i) < fuel)%nat \/ (vsize arena <= i /\ (0 < fuel)%nat) -> good false (exec_stmt m fuel arena tick treat i).
Proof.
  intros Ha. induction fuel as [|fuel IH]; intros i Hi Hf; [lia|]. cbn [exec_stmt].
  destruct (vsize arena <=? i) eqn:E; [good|]. apply Z.leb_gt in E. destruct (proj2 (vat_is_Some arena i)) as [n Hn]; [lia|]. rewrite Hn.
  destruct (stmt_ok_sane _ _ _ (stmts_ok_at _ _ _ Ha Hn)) as [Hs Hc].
  apply (good_exec_node _ (fun c => 0 <= c /\ (c < i \/ vsize arena <= c))); [|done|done].
  intros c [Hc0 Hc1]. apply IH; lia.
Qed.

Lemma good_exec_root arena tick root : stmts_ok arena -> 0 <= root -> good false (exec_root m arena tick root).
Proof.
  intros Ha Hr st0 st Hs Ht. unfold wp, exec_root.
  assert (Hw := good_exec_stmt arena tick false Ha (S (length arena)) root Hr). unfold vsize in Hw.
  specialize (Hw ltac:(lia) st0 (st, Some fl_none) Hs Ht). unfold wp in Hw.
  by destruct (exec_stmt m _ arena tick false root _) as [[c [st' fs]]|].
Qed.
End Exec.

(** ** Computations without a flag *)

Section Safe.
Context {S : Type} `{!View S}.
Definition safe {A} (c : St S A) : Prop := forall s, sane (view s) -> wp c s (fun _ s' => sane (view s') /\ frame (view s) (view s')).

Lemma safe_quiet {A} (c : St S A) : quiet c -> safe c.
Proof. intros H s Hs. eapply wp_mono; [by apply H|]. by intros x s' [Hs' [Hf _]]. Qed.
Lemma safe_good c : good false c -> safe c.
Proof. intros H s Hs. eapply wp_mono; [apply (H (view s)); [done|apply steps_refl]|]. by intros x s' [Hs' [Hf _]]. Qed.
Lemma safe_bind {A C} (c : St S A) (f : A -> St S C) : safe c -> (forall x, safe (f x)) -> safe (c ≫= f).
Proof.
  intros Hc Hf s Hs. apply wp_bind. eapply wp_mono; [by apply Hc|]. intros x s' [Hs' Ht]. eapply wp_mono; [by apply Hf|].
  intros y s2 [Hs2 Ht2]. split; [done|by etrans].
Qed.
Lemma safe_seach {A} (f : A -> St S unit) l : Forall (fun x => safe (f x)) l -> safe (seach f l).
Proof. induction 1 as [|x l Hx Hl IH]; simpl; [apply safe_quiet, quiet_ret|]. by apply safe_bind. Qed.
End Safe.

Section Events.
Context (m : compiled_module) (Hm : arena_ok (cm_expr_nodes m)).
#[local] Set Default Proof Using "Type*".

Lemma safe_run_event ev : event_sane ev -> safe (run_event m ev).
Proof.
  intros (H1 & H2 & H3 & H4). unfold run_event. destruct (sv_is_vector ev).
  - destruct (_ && _); [|apply safe_quiet, quiet_ret]. apply safe_bind; [by apply safe_quiet, quiet_samples|]. intros l.
    destruct (sv_nonblocking ev); [by apply safe_quiet, quiet_queue_sampled|]. apply safe_bind; [by apply safe_good, good_assign_sampled|].
    intros ?. apply safe_quiet, quiet_ret.
  - apply safe_bind; [apply safe_quiet, quiet_in_range|]. intros [|]; [|apply safe_quiet, quiet_ret].
    apply safe_bind; [by apply safe_quiet, quiet_eval|]. intros v. destruct (sv_nonblocking ev); [by apply safe_quiet, quiet_push_nba|].
    apply safe_bind; [by apply safe_good, good_assign|]. intros ?. apply safe_quiet, quiet_ret.
Qed.

Lemma safe_run_due tick evs : Forall event_sane evs -> safe (run_due m tick evs).
Proof.
  intros H. apply safe_seach. eapply Forall_impl; [exact H|]. intros ev Hev. cbv beta.
  destruct (tick <? sv_due_tick ev); [apply safe_quiet, quiet_ret|by apply safe_run_event].
Qed.

Lemma safe_process_due tick st : sane st -> (forall m', ms_mod st = Some m' -> m' = m) ->
  wp (process_due_events tick) st (fun _ st' => sane st' /\ frame st st').
Proof.
  intros Hs Hmod. unfold wp, process_due_events. destruct (ms_mod st) as [m'|] eqn:E; [|by split].
  rewrite (Hmod m' eq_refl). pose proof (safe_run_due tick (ms_events st) (sane_events _ Hs) st Hs) as Hw. unfold wp in Hw.
  destruct (run_due m tick (ms_events st) st) as [[u st']|]; [|done]. destruct Hw as [[S1 S2 S3] F]. split.
  - split; simpl; [by eapply memo_inv_same|done|]. apply Forall_forall. intros ev [_ Hev]%list_elem_of_filter. pose proof (sane_events _ Hs) as He.
    rewrite Forall_forall in He. auto.
  - etrans; [exact F|]. by split.
Qed.
End Events.

Lemma good_apply_nba : good false apply_nba.
Proof.
  intros st0 st Hs Ht. unfold wp, apply_nba. unfold view, view_module in *.
  assert (Hg : good false (sor (fun '(lhs, v) => assign_signal lhs v) (ms_nba_queue st))).
  { apply good_sor. eapply Forall_impl; [apply Hs|]. intros [lhs v] H. by apply good_assign. }
  specialize (Hg st0 st Hs Ht). unfold wp in Hg. destruct (sor _ _ st) as [[c st']|]; [|done]. destruct Hg as [[S1 S2 S3] [F V]].
  split; [split; [by eapply memo_inv_same|constructor|done]|]. split; [|done]. etrans; [exact F|]. by split.
Qed.
