(* ===== verification/VStmtClaims.v ===== *)
(** * VStmtClaims: statements, nonblocking assignments and scheduled events

    A statement of the parser's shape is executed to its end within the bounds
    of its loops; a block of nonblocking assignments reads every right side
    before it writes; the events that are due run in their order, and the
    others wait. *)

From Stdlib Require Import ZArith Lia.
From stdpp Require Import base list gmap strings.
From S2P Require Import Prelude Logic4 VData VExpr VCache VStmt VStmtInv.

Open Scope Z_scope.

(** ** The values and the queues of a module *)

(** What a computation does to the values, the queue of nonblocking
    assignments and the events; the caches and the marks are left out. *)
Definition visible (st : module_state) : list logic_t * list (Z * logic_t) * list scheduled_event :=
  (ms_values st, ms_nba_queue st, ms_events st).

Definition store (vs : list logic_t) (p : Z * logic_t) : list logic_t := vset vs p.1 p.2.

Lemma vset_outside {A} (l : list A) i x : vsize l <= i -> vset l i x = l.
Proof. intros H. unfold vset. unfold vsize in H. by rewrite (proj2 (Z.ltb_ge _ _)), andb_false_r by done. Qed.

Section Effects.
Context (m : compiled_module) (Hm : arena_ok (cm_expr_nodes m)).
#[local] Set Default Proof Using "Type*".
Abbreviation value := (den (cm_expr_nodes m)).

Lemma eval_spec root st : 0 <= root -> sane st ->
  wp (eval m root) st (fun v st' => v = value (ms_values st) root /\ visible st' = visible st /\ sane st').
Proof.
  intros Hr [S1 S2 S3]. unfold wp, eval. destruct (cached_agrees m root st Hm Hr S1) as (c & t & -> & Hi). split_and!; [done|done|by split].
Qed.

Lemma samples_spec roots : Forall (Z.le 0) roots -> forall st, sane st ->
  wp (smap (eval m) roots) st (fun vs st' => vs = map (value (ms_values st)) roots /\ visible st' = visible st /\ sane st').
Proof.
  induction 1 as [|r roots Hr H IH]; intros st Hs; [by apply wp_ret|]. cbn [smap]. apply wp_bind.
  eapply wp_mono; [by apply eval_spec|]. intros v s1 (-> & E1 & S1). apply wp_bind. eapply wp_mono; [by apply IH|].
  intros vs s2 (-> & E2 & S2). apply wp_ret. split_and!; [|congruence|done]. injection E1 as E1 _ _. by rewrite E1.
Qed.

Lemma assign_visible sig v st : 0 <= sig -> sane st -> wp (assign_signal sig v) st (fun _ st' =>
  visible st' = (vset (ms_values st) sig v, ms_nba_queue st, ms_events st) /\ sane st').
Proof using Type.
  intros H Hs. eapply wp_mono; [by apply assign_spec|]. intros b st' (Ev & _ & _ & E1 & E2 & _ & E4). unfold visible.
  rewrite Ev, E1, E2. split; [|split; [apply E4, Hs|rewrite E2; apply Hs|rewrite E1; apply Hs]]. do 2 f_equal.
  destruct (_ <? _) eqn:E; [done|]. apply Z.ltb_ge in E. by rewrite vset_outside.
Qed.

Lemma assigns_visible (f : Z * logic_t -> R bool) l :
  (forall p st, 0 <= p.1 -> sane st -> wp (f p) st (fun _ st' => visible st' = (store (ms_values st) p, ms_nba_queue st, ms_events st) /\ sane st')) ->
  Forall (fun p => 0 <= p.1) l -> forall st, sane st ->
  wp (sor f l) st (fun _ st' => visible st' = (fold_left store l (ms_values st), ms_nba_queue st, ms_events st) /\ sane st').
Proof using Type.
  intros Hf. induction 1 as [|p l Hp H IH]; intros st Hs; [by apply wp_ret|]. cbn [sor fold_left]. apply wp_bind.
  eapply wp_mono; [by apply Hf|]. intros b s1 [E1 S1]. apply wp_bind. eapply wp_mono; [by apply IH|].
  intros b' s2 [E2 S2]. apply wp_ret. split; [|done]. injection E1 as E1 E1' E1''. by rewrite E2, E1, E1', E1''.
Qed.

Lemma in_range_vset sig v st : 0 <= sig -> sane st ->
  wp (ok ← in_range sig; if (ok : bool) then assign_signal sig v else mret false) st (fun _ st' =>
    visible st' = (store (ms_values st) (sig, v), ms_nba_queue st, ms_events st) /\ sane st').
Proof using Type.
  intros H Hs. apply wp_bind. unfold wp at 1, in_range. destruct (_ <? _) eqn:E; [by apply assign_visible|].
  apply wp_ret. split; [|done]. apply Z.ltb_ge in E. unfold visible, store. by rewrite vset_outside.
Qed.

Lemma assign_sampled_visible sigs vs st : Forall (Z.le 0) sigs -> sane st -> wp (assign_sampled sigs vs) st (fun _ st' =>
  visible st' = (fold_left store (zip sigs vs) (ms_values st), ms_nba_queue st, ms_events st) /\ sane st').
Proof using Type.
  intros H Hs. apply assigns_visible; [|by apply zip_nonneg|done]. intros [sig v] s Hp Hss. by apply in_range_vset.
Qed.

Lemma queue_sampled_visible sigs vs : Forall (Z.le 0) sigs -> forall st, sane st -> wp (queue_sampled sigs vs) st (fun _ st' =>
  visible st' = (ms_values st, ms_nba_queue st ++ filter (fun p => p.1 < vsize (ms_values st)) (zip sigs vs), ms_events st) /\ sane st').
Proof using Type.
  intros H. apply (zip_nonneg sigs vs) in H. unfold queue_sampled. induction H as [|[sig v] l Hp H IH]; intros st Hs.
  { apply wp_ret. unfold visible. by rewrite app_nil_r. }
  cbn [seach]. apply wp_bind, wp_bind. unfold wp at 1, in_range. rewrite filter_cons. simpl fst in *. destruct (_ <? _) eqn:E.
  - apply Z.ltb_lt in E. rewrite decide_True by done. pose proof (quiet_push_nba sig v Hp st Hs) as Hq. unfold wp in Hq |- *. simpl in Hq |- *.
    destruct Hq as [Hs' _]. specialize (IH _ Hs'). unfold wp in IH. simpl in IH. destruct (seach _ l _) as [[u s2]|]; [|done].
    by rewrite <- app_assoc in IH.
  - apply Z.ltb_ge in E. rewrite decide_False by lia. unfold wp. by apply IH.
Qed.

(** ** Events *)

(** The effect of an event on the values and the queue. *)
Definition event_effect (s : list logic_t * list (Z * logic_t)) (ev : scheduled_event) : list logic_t * list (Z * logic_t) :=
  let '(vs, q) := s in
  let assignments :=
    if sv_is_vector ev then
      if (length (sv_lhs_signals ev) =? length (sv_expr_roots ev))%nat then zip (sv_lhs_signals ev) (map (value vs) (sv_expr_roots ev)) else []
    else [(sv_lhs_signal ev, value vs (sv_expr_root ev))] in
  if sv_nonblocking ev then (vs, q ++ filter (fun p => p.1 < vsize vs) assignments) else (fold_left store assignments vs, q).

Lemma run_event_spec ev st : event_sane ev -> sane st -> wp (run_event m ev) st (fun _ st' =>
  visible st' = (event_effect (ms_values st, ms_nba_queue st) ev, ms_events st) /\ sane st').
Proof.
  intros (H1 & H2 & H3 & H4) Hs. unfold run_event, event_effect. destruct (sv_is_vector ev).
  - destruct (_ =? _)%nat eqn:El; [|apply wp_ret; unfold visible; simpl; by destruct (sv_nonblocking ev); rewrite ?app_nil_r].
    destruct (length (sv_lhs_signals ev) =? 0)%nat eqn:E0; simpl andb.
    { apply Nat.eqb_eq in E0. destruct (sv_lhs_signals ev); [|done]. apply wp_ret. unfold visible. by destruct (sv_nonblocking ev); rewrite ?app_nil_r. }
    apply wp_bind. eapply wp_mono; [by apply samples_spec|]. intros vs s1 (-> & E1 & S1). injection E1 as V1 Q1 X1. destruct (sv_nonblocking ev).
    + eapply wp_mono; [by apply queue_sampled_visible|]. intros u s2 [E2 S2]. by rewrite E2, V1, Q1, X1.
    + apply wp_bind. eapply wp_mono; [by apply assign_sampled_visible|]. intros b s2 [E2 S2]. apply wp_ret. by rewrite E2, V1, Q1, X1.
  - apply wp_bind. unfold wp at 1, in_range. destruct (_ <? _) eqn:E.
    + apply wp_bind. eapply wp_mono; [by apply eval_spec|]. intros v s1 (-> & E1 & S1). injection E1 as V1 Q1 X1. apply Z.ltb_lt in E.
      destruct (sv_nonblocking ev).
      * pose proof (quiet_push_nba (sv_lhs_signal ev) (value (ms_values st) (sv_expr_root ev)) H1 s1 S1) as Hq. unfold wp in Hq |- *. simpl in Hq |- *.
        destruct Hq as [Hs' _]. split; [|done]. unfold visible. simpl. rewrite V1, Q1, X1, filter_cons, decide_True by done. done.
      * apply wp_bind. eapply wp_mono; [by apply assign_visible|]. intros b s2 [E2 S2]. apply wp_ret. by rewrite E2, V1, Q1, X1.
    + apply wp_ret. split; [|done]. apply Z.ltb_ge in E. unfold visible. destruct (sv_nonblocking ev).
      * rewrite filter_cons, decide_False by (simpl; lia). by rewrite app_nil_r.
      * simpl. unfold store. by rewrite vset_outside.
Qed.

Lemma run_due_spec tick evs : Forall event_sane evs -> forall st, sane st -> wp (run_due m tick evs) st (fun _ st' =>
  visible st' = (fold_left event_effect (filter (fun ev => sv_due_tick ev <= tick) evs) (ms_values st, ms_nba_queue st), ms_events st) /\ sane st').
Proof.
  unfold run_due. induction 1 as [|ev evs Hev H IH]; intros st Hs; [by apply wp_ret|]. cbn [seach]. apply wp_bind. rewrite filter_cons.
  destruct (tick <? sv_due_tick ev) eqn:E.
  - apply Z.ltb_lt in E. rewrite decide_False by lia. apply wp_ret. by apply IH.
  - apply Z.ltb_ge in E. rewrite decide_True by lia. cbn [fold_left]. eapply wp_mono; [by apply run_event_spec|].
    intros u s1 [E1 S1]. eapply wp_mono; [by apply IH|]. intros u' s2 [E2 S2]. split; [|done]. unfold visible in E1.
    destruct (event_effect _ ev) as [vs q]. injection E1 as V1 Q1 X1. by rewrite E2, V1, Q1, X1.
Qed.
End Effects.

(** ** Nonblocking assignments *)

Section Nonblocking.
Context (m : compiled_module) (Hm : arena_ok (cm_expr_nodes m)).
#[local] Set Default Proof Using "Type*".
Abbreviation value := (den (cm_expr_nodes m)).

(** Statement [i] of the arena is [lhs <= root], without a delay. *)
Definition is_nonblocking (arena : list stmt_node) (i lhs root : Z) : Prop :=
  exists n, vat arena i = Some n /\ sn_k n = sk_nonblocking_assign /\ sn_delay_ticks n = 0 /\ sn_lhs_signal n = lhs /\ sn_expr_root n = root.

Lemma exec_nonblocking fuel arena tick i lhs root st : is_nonblocking arena i lhs root -> 0 <= lhs < vsize (ms_values st) -> 0 <= root ->
  sane st -> wp (exec_stmt m (S fuel) arena tick false i) (st, Some fl_none) (fun _ s' => s'.2 = Some fl_none /\ sane s'.1 /\
    visible s'.1 = (ms_values st, ms_nba_queue st ++ [(lhs, value (ms_values st) root)], ms_events st)).
Proof.
  intros (n & Hn & Hk & Hd & <- & <-) Hl Hr Hs. pose proof (proj1 (vat_Some _ _ _) Hn) as [Hi _]. unfold wp. cbn [exec_stmt].
  rewrite (proj2 (Z.leb_gt _ _)), Hn by lia. unfold exec_node. rewrite Hk, Hd. unfold mbind, St_bind, lift, in_range. simpl.
  rewrite (proj2 (Z.ltb_lt _ _)) by lia. pose proof (eval_spec m Hm (sn_expr_root n) st Hr Hs) as He. unfold wp in He.
  destruct (eval m (sn_expr_root n) st) as [[v s1]|] eqn:Ev; [|done]. destruct He as (-> & E1 & [S1 S2 S3]). injection E1 as V1 Q1 X1. simpl. rewrite Ev. simpl.
  split_and!; [done| |unfold visible; simpl; by rewrite V1, Q1, X1]. split; simpl; [by eapply memo_inv_same| |done].
  apply Forall_app. split; [done|]. constructor; [simpl; lia|done].
Qed.

Lemma exec_nonblocking_list fuel arena tick stmts pairs : Forall2 (fun i p => is_nonblocking arena i p.1 p.2 /\ 0 <= p.1 /\ 0 <= p.2) stmts pairs ->
  forall st, Forall (fun p => p.1 < vsize (ms_values st)) pairs -> sane st ->
  wp (exec_list (exec_stmt m (S fuel) arena tick false) stmts) (st, Some fl_none) (fun _ s' => sane s'.1 /\
    visible s'.1 = (ms_values st, ms_nba_queue st ++ map (fun p => (p.1, value (ms_values st) p.2)) pairs, ms_events st)).
Proof.
  induction 1 as [|i [lhs root] stmts pairs (Hi & Hl & Hr) H IH]; intros st Hp Hs.
  { apply wp_ret. split; [done|]. unfold visible. by rewrite app_nil_r. }
  inversion Hp as [|? ? Hp1 Hp2]; subst. cbn [exec_list]. apply wp_bind. unfold wp at 1, get_flow. cbn [snd default]. apply wp_bind.
  eapply wp_mono; [by apply (exec_nonblocking fuel arena tick i lhs root st)|]. intros b [s1 f1] (F1 & S1 & E1). simpl in F1, S1, E1.
  subst f1. injection E1 as V1 Q1 X1. apply wp_bind. eapply wp_mono; [apply IH; [by rewrite V1|done]|].
  intros b' s2 [S2 E2]. apply wp_ret. split; [done|]. rewrite E2, V1, Q1, X1. by rewrite <- app_assoc.
Qed.

(** C8: a block of nonblocking assignments without delay, to signals of the
    module and started with an empty queue, is simultaneous: after the block
    and the update that follows, every left side has the value that its right
    side had before the block (the last assignment to a signal wins), and no
    other value and no event has changed. *)
Theorem nonblocking_is_simultaneous arena tick i blk pairs st :
  vat arena i = Some blk -> sn_k blk = sk_block ->
  Forall2 (fun j p => is_nonblocking arena j p.1 p.2 /\ 0 <= p.1 /\ 0 <= p.2) (sn_stmts blk) pairs ->
  Forall (fun p => p.1 < vsize (ms_values st)) pairs -> sane st -> ms_nba_queue st = [] ->
  exists b st1, exec_root m arena tick i st = Some (b, st1) /\ ms_values st1 = ms_values st /\
  exists b2 st2, apply_nba st1 = Some (b2, st2) /\ ms_nba_queue st2 = [] /\ ms_events st2 = ms_events st /\
    ms_values st2 = fold_left store (map (fun p => (p.1, value (ms_values st) p.2)) pairs) (ms_values st).
Proof.
  intros Hb Hk Hstmts Hp Hs Hq. pose proof (proj1 (vat_Some _ _ _) Hb) as [Hi _]. unfold exec_root. cbn [exec_stmt].
  rewrite (proj2 (Z.leb_gt _ _)), Hb by lia. unfold exec_node. rewrite Hk.
  assert (Hlen : exists k, length arena = S k) by (destruct arena as [|? a]; [unfold vsize in Hi; simpl in Hi; lia|by exists (length a)]).
  destruct Hlen as [k ->]. pose proof (exec_nonblocking_list k arena tick _ _ Hstmts st Hp Hs) as Hw. apply wp_result in Hw as (b & [st1 fs] & -> & S1 & E1).
  simpl in S1, E1. rewrite Hq in E1. injection E1 as V1 Q1 X1. eexists _, _. split_and!; [done|done|].
  assert (Ha : wp (sor (fun '(lhs, v) => assign_signal lhs v) (ms_nba_queue st1)) st1 (fun _ st2 =>
    visible st2 = (fold_left store (ms_nba_queue st1) (ms_values st1), ms_nba_queue st1, ms_events st1) /\ sane st2)).
  { apply assigns_visible; [|apply S1|done]. intros [sig v] s Hsig Hss. by apply assign_visible. }
  apply wp_result in Ha as (b2 & st2 & E2 & V2 & _). unfold apply_nba. rewrite E2. eexists _, _. split; [done|]. injection V2 as V2 Q2 X2.
  split_and!; [done|by rewrite <- X1|]. simpl. by rewrite V2, Q1, V1.
Qed.
End Nonblocking.

(** C31: every statement whose parts come before it is executed to the end,
    whatever its loops do, within fuel given by the size of the arena; the
    invariant and the shape of the state are kept, and a statement that reports
    no change leaves every signal as it was. *)
Theorem statements_return m arena tick root st :
  arena_ok (cm_expr_nodes m) -> stmts_ok arena -> 0 <= root -> sane st ->
  exists changed st', exec_root m arena tick root st = Some (changed, st') /\ sane st' /\ frame st st' /\
    (changed = false -> ms_values st' = ms_values st).
Proof.
  intros Hm Ha Hr Hs. pose proof (good_exec_root m Hm arena tick root Ha Hr st st Hs (steps_refl _ _)) as Hw.
  apply wp_result in Hw as (b & st' & E & S1 & [F V]). by exists b, st'.
Qed.

(** The events that are due at a tick take effect in their order, each on
    the values that the ones before it left, and are removed; the others stay,
    in their order. *)
Theorem due_events_run_in_order m tick st : arena_ok (cm_expr_nodes m) -> sane st -> ms_mod st = Some m ->
  exists st', process_due_events tick st = Some (tt, st') /\ sane st' /\
    (ms_values st', ms_nba_queue st') =
      fold_left (event_effect m) (filter (fun ev => sv_due_tick ev <= tick) (ms_events st)) (ms_values st, ms_nba_queue st) /\
    ms_events st' = filter (fun ev => tick < sv_due_tick ev) (ms_events st).
Proof.
  intros Hm Hs Hmod. pose proof (run_due_spec m Hm tick _ (sane_events _ Hs) st Hs) as Hw. apply wp_result in Hw as ([] & st1 & E1 & V1 & S1).
  unfold process_due_events. rewrite Hmod, E1. eexists. split; [done|].
  pose proof (safe_process_due m Hm tick st Hs ltac:(congruence)) as Hw. unfold wp, process_due_events in Hw. rewrite Hmod, E1 in Hw.
  destruct Hw as [S2 _]. split_and!; [done| |done]. unfold visible in V1. simpl. by injection V1.
Qed.

(** ** Examples *)

(** Two registers that are swapped. *)
Definition swap_module : compiled_module :=
  {| cm_name := "swap"; cm_ports := []; cm_port_order := []; cm_port_decls := ∅; cm_vectors := ∅; cm_signal_names := ["a"; "b"];
     cm_signal_is_reg := [true; true]; cm_signal_is_signed := [false; false]; cm_signal_is_const := [false; false];
     cm_signal_is_const_foldable := [false; false]; cm_signal_const_value := [sX; sX]; cm_signal_index := ∅; cm_param_order := [];
     cm_param_default_values := ∅; cm_param_is_local := ∅; cm_expr_nodes := [node_signal 0; node_signal 1]; cm_assigns := []; cm_always_ffs := []; cm_always_combs := [];
     cm_initials := []; cm_instances := []; cm_inline_counter := 0 |}.
Definition nonblocking (lhs root : Z) : stmt_node :=
  {| sn_k := sk_nonblocking_assign; sn_ck := ck_normal; sn_delay_ticks := 0; sn_lhs_signal := lhs; sn_expr_root := root;
     sn_lhs_signals := []; sn_rhs_roots := []; sn_stmts := []; sn_else_stmts := []; sn_case_expr_roots := [];
     sn_case_items := []; sn_init_stmt := SIZE_MAX; sn_step_stmt := SIZE_MAX; sn_body_stmt := SIZE_MAX |}.
Definition block (stmts : list Z) : stmt_node :=
  {| sn_k := sk_block; sn_ck := ck_normal; sn_delay_ticks := 0; sn_lhs_signal := SIZE_MAX; sn_expr_root := SIZE_MAX;
     sn_lhs_signals := []; sn_rhs_roots := []; sn_stmts := stmts; sn_else_stmts := []; sn_case_expr_roots := [];
     sn_case_items := []; sn_init_stmt := SIZE_MAX; sn_step_stmt := SIZE_MAX; sn_body_stmt := SIZE_MAX |}.
Definition swap_arena : list stmt_node := [nonblocking 0 1; nonblocking 1 0; block [0; 1]].
Definition swap_state : module_state :=
  with_queues (with_values (init_state swap_module) [sL; sH]) [event_scalar 5 false 0 1; event_scalar 9 false 1 0] [].

Lemma swap_arena_ok : arena_ok (cm_expr_nodes swap_module).
Proof.
  split; [done|]. intros i n H. apply vat_Some in H as [Hi H]. unfold vsize in Hi. simpl in Hi.
  assert (i = 0 \/ i = 1) as [->| ->] by lia; simpl in H; injection H as <-; split; intros [[]|[]] || intros []; done.
Qed.
Lemma swap_sane : sane swap_state.
Proof.
  split; [by apply (memo_inv_same (init_state swap_module)), init_memo_inv|constructor|].
  repeat (constructor; [repeat split; simpl; lia || constructor|]). constructor.
Qed.

Lemma nonblocking_is_simultaneous_witness :
  exists b st1 b2 st2, exec_root swap_module swap_arena 0 2 swap_state = Some (b, st1) /\ apply_nba st1 = Some (b2, st2) /\
    ms_values st2 = [sH; sL].
Proof.
  destruct (nonblocking_is_simultaneous swap_module swap_arena_ok swap_arena 0 2 (block [0; 1]) [(0, 1); (1, 0)] swap_state)
    as (b & st1 & E1 & _ & b2 & st2 & E2 & _ & _ & V2).
  - reflexivity.
  - reflexivity.
  - repeat constructor; simpl; try lia; eexists; split; try reflexivity; repeat split; reflexivity.
  - repeat constructor; simpl; unfold vsize; simpl; lia.
  - exact swap_sane.
  - reflexivity.
  - exists b, st1, b2, st2. split; [exact E1|]. split; [exact E2|]. exact V2.
Defined.

Lemma statements_return_witness : exists changed st', exec_root swap_module swap_arena 3 2 swap_state = Some (changed, st') /\ sane st'.
Proof.
  destruct (statements_return swap_module swap_arena 3 2 swap_state swap_arena_ok) as (c & st' & E & S1 & _);
    [vm_compute; exact I|lia|exact swap_sane|]. exists c, st'. split; [exact E|exact S1].
Defined.

Lemma due_events_run_in_order_witness : exists st', process_due_events 7 swap_state = Some (tt, st') /\
  ms_values st' = [sH; sH] /\ ms_events st' = [event_scalar 9 false 1 0].
Proof.
  destruct (due_events_run_in_order swap_module 7 swap_state swap_arena_ok swap_sane eq_refl) as (st' & E & _ & V & X).
  exists st'. split; [exact E|]. split; [exact (f_equal fst V)|exact X].
Defined.
