(* ===== verification/VRuntime.v ===== *)
(** * VRuntime: simulation of a hierarchy of modules

    [instance_state] and the rest of [runtime_details] in
    [verilog/digital/digital.h], up to [simulate]: the drivers of nets, the
    clocked blocks, the combinational blocks and continuous assignments, the
    ports between an instance and its children, and the passes over the tree.
    The pointers to the children are never null and are modelled by the
    instances; the recursion over the tree takes its depth as fuel. *)

From Stdlib Require Import ZArith Lia.
From stdpp Require Import base list gmap strings.
From S2P Require Import Prelude Logic4 VData VExpr VCache VStmt.

Open Scope Z_scope.
#[export] Set Warnings "-register-all".

Inductive binding_kind : Set := bk_unconnected | bk_parent_signal | bk_literal | bk_parent_expr_root.
Record port_binding : Type := mk_binding {
  pb_k : binding_kind;
  pb_parent_signal : Z;
  pb_parent_expr_root : Z;
  pb_literal : logic_t
}.
Definition port_binding_default : port_binding :=
  {| pb_k := bk_unconnected; pb_parent_signal := SIZE_MAX; pb_parent_expr_root := SIZE_MAX; pb_literal := sX |}.

Record port_drive : Type := mk_drive {
  pv_parent_signal : Z;
  pv_src_is_literal : bool;
  pv_child_signal : Z;
  pv_literal : logic_t
}.

Inductive instance_state : Type := mk_inst {
  is_mod : option compiled_module;
  is_instance_name : string;
  is_state : module_state;
  is_driven_nets : list bool;
  is_bindings : list port_binding;
  is_output_drives : list port_drive;
  is_children : list instance_state
}.

Definition with_state (i : instance_state) (st : module_state) : instance_state :=
  mk_inst (is_mod i) (is_instance_name i) st (is_driven_nets i) (is_bindings i) (is_output_drives i) (is_children i).
Definition with_driven (i : instance_state) (d : list bool) : instance_state :=
  mk_inst (is_mod i) (is_instance_name i) (is_state i) d (is_bindings i) (is_output_drives i) (is_children i).
Definition with_children (i : instance_state) (cs : list instance_state) : instance_state :=
  mk_inst (is_mod i) (is_instance_name i) (is_state i) (is_driven_nets i) (is_bindings i) (is_output_drives i) cs.

(** The levels of the tree. *)
Fixpoint depth (i : instance_state) : nat := S (list_max (map depth (is_children i))).

Definition with_next (st : module_state) (next : list logic_t) : module_state :=
  {| ms_mod := ms_mod st; ms_values := ms_values st; ms_prev_values := ms_prev_values st;
     ms_comb_prev_values := ms_comb_prev_values st; ms_comb_initialized := ms_comb_initialized st;
     ms_initial_ran := ms_initial_ran st; ms_initial_base_tick := ms_initial_base_tick st; ms_events := ms_events st;
     ms_nba_queue := ms_nba_queue st; ms_next_net_values := next; ms_change_mark := ms_change_mark st;
     ms_changed_signals := ms_changed_signals st; ms_change_token := ms_change_token st;
     ms_expr_eval_cache := ms_expr_eval_cache st; ms_expr_eval_mark := ms_expr_eval_mark st;
     ms_expr_eval_token := ms_expr_eval_token st |}.
Definition with_prev (st : module_state) (prev comb_prev : list logic_t) : module_state :=
  {| ms_mod := ms_mod st; ms_values := ms_values st; ms_prev_values := prev;
     ms_comb_prev_values := comb_prev; ms_comb_initialized := ms_comb_initialized st;
     ms_initial_ran := ms_initial_ran st; ms_initial_base_tick := ms_initial_base_tick st; ms_events := ms_events st;
     ms_nba_queue := ms_nba_queue st; ms_next_net_values := ms_next_net_values st; ms_change_mark := ms_change_mark st;
     ms_changed_signals := ms_changed_signals st; ms_change_token := ms_change_token st;
     ms_expr_eval_cache := ms_expr_eval_cache st; ms_expr_eval_mark := ms_expr_eval_mark st;
     ms_expr_eval_token := ms_expr_eval_token st |}.
Definition with_flags (st : module_state) (comb_initialized initial_ran : bool) (base_tick : Z) : module_state :=
  {| ms_mod := ms_mod st; ms_values := ms_values st; ms_prev_values := ms_prev_values st;
     ms_comb_prev_values := ms_comb_prev_values st; ms_comb_initialized := comb_initialized;
     ms_initial_ran := initial_ran; ms_initial_base_tick := base_tick; ms_events := ms_events st;
     ms_nba_queue := ms_nba_queue st; ms_next_net_values := ms_next_net_values st; ms_change_mark := ms_change_mark st;
     ms_changed_signals := ms_changed_signals st; ms_change_token := ms_change_token st;
     ms_expr_eval_cache := ms_expr_eval_cache st; ms_expr_eval_mark := ms_expr_eval_mark st;
     ms_expr_eval_token := ms_expr_eval_token st |}.

Abbreviation I := (St instance_state).
Definition on_state {A} (c : R A) : I A := fun i =>
  match c (is_state i) with Some (x, st) => Some (x, with_state i st) | None => None end.

(** [i < v.size() && v[i]] of a vector of flags. *)
Definition flag (l : list bool) (i : Z) : bool := default false (vat l i).

(** ** Drivers of nets *)

Definition resolve_net_drivers (a b : logic_t) : logic_t :=
  if dns_eqb b sZ then a
  else if dns_eqb a sZ then b
  else
    let a := normalize_z_to_x a in let b := normalize_z_to_x b in
    if is_unknown a || is_unknown b then sX else if dns_eqb a b then a else sX.

Definition init_driven_nets_from_assigns (i : instance_state) : instance_state :=
  match is_mod i with
  | None => i
  | Some m =>
      with_driven i (fold_left (fun d a =>
          if flag (cm_signal_is_reg m) (ca_lhs_signal a) then d else vset d (ca_lhs_signal a) true)
        (cm_assigns m) (replicate (length (cm_signal_names m)) false))
  end.

(** The vectors grow to the number of signals, and the driven nets start from
    high impedance. *)
Definition prepare_net_drives : I unit := fun i =>
  match is_mod i with
  | None => Some (tt, i)
  | Some _ =>
      let st := is_state i in
      let n := vsize (ms_values st) in
      let next := if vsize (ms_next_net_values st) <? n then vgrow (ms_next_net_values st) n sZ else ms_next_net_values st in
      let driven := if vsize (is_driven_nets i) <? n then vgrow (is_driven_nets i) n false else is_driven_nets i in
      let reset := imap (fun k v => if (Z.of_nat k <? n) && flag driven (Z.of_nat k) then sZ else v) next in
      Some (tt, with_driven (with_state i (with_next st reset)) driven)
  end.

Definition drive_signal_next (sig : Z) (v : logic_t) : I unit := fun i =>
  match is_mod i with
  | None => Some (tt, i)
  | Some m =>
      let st := is_state i in
      if vsize (ms_values st) <=? sig then Some (tt, i)
      else if flag (cm_signal_is_reg m) sig || negb (flag (is_driven_nets i) sig) then
        (_ ← on_state (assign_signal sig v); mret tt) i
      else
        let next := if vsize (ms_next_net_values st) <? vsize (ms_values st)
                    then vgrow (ms_next_net_values st) (vsize (ms_values st)) sZ else ms_next_net_values st in
        match vat next sig with
        | Some dst => Some (tt, with_state i (with_next st (vset next sig (resolve_net_drivers dst v))))
        | None => None
        end
  end.

(** The loop over the signals [k ..]. *)
Definition apply_net (m : compiled_module) (driven : list bool) (next : list logic_t) (k : Z) : R bool :=
  if negb (flag driven k) then mret false
  else if flag (cm_signal_is_reg m) k then mret false
  else match vat next k with Some v => assign_signal k v | None => undefined end.

Definition apply_net_drives : I bool := fun i =>
  match is_mod i with
  | None => Some (false, i)
  | Some m =>
      let st := is_state i in
      let n := vsize (ms_values st) in
      if (vsize (ms_next_net_values st) <? n) || (vsize (is_driven_nets i) <? n) then Some (false, i)
      else on_state (sor (fun k => apply_net m (is_driven_nets i) (ms_next_net_values st) (Z.of_nat k)) (seq 0 (length (ms_values st)))) i
  end.

(** ** Clocked blocks *)

Definition find_sig (m : compiled_module) (nm : string) : Z := default SIZE_MAX (cm_signal_index m !! nm).

Definition set_bus (bits : list Z) (v : logic_t) (vs : list logic_t) : list logic_t := fold_left (fun vs sig => vset vs sig v) bits vs.

(** The state of the generator, or [None] when a bit of it is not known. *)
Fixpoint bus_state (bits : list Z) (vs : list logic_t) (acc : Z) : option Z :=
  match bits with
  | [] => Some acc
  | sig :: bits' =>
      match vat vs sig with
      | None => None
      | Some v0 =>
          let v := normalize_z_to_x v0 in
          if is_unknown v then None
          else bus_state bits' vs (2 * acc + (if dns_eqb v sH then 1 else 0))
      end
  end.

Definition lfsr_next (state_u : Z) : Z :=
  let feedback := xorb (xorb (Z.testbit state_u 3) (Z.testbit state_u 2)) true in
  Z.lor (Z.land (Z.shiftl state_u 1) 14) (Z.b2z feedback).

Definition write_bus (bits : list Z) (u : Z) (vs : list logic_t) : list logic_t :=
  fold_left (fun vs '(i, sig) => vset vs sig (dns_of_bool (Z.testbit u (3 - Z.of_nat i)))) (imap pair bits) vs.

Definition posedge (prev now : logic_t) : bool := dns_eqb (normalize_z_to_x prev) sL && dns_eqb (normalize_z_to_x now) sH.
Definition negedge (prev now : logic_t) : bool := dns_eqb (normalize_z_to_x prev) sH && dns_eqb (normalize_z_to_x now) sL.

(** The generator behind [$urandom], four bits that shift on the clock. *)
Definition urandom_step (m : compiled_module) (prev vs : list logic_t) : list logic_t :=
  match cm_vectors m !! "$urandom"%string with
  | None => vs
  | Some vd =>
      if negb (length (vd_bits vd) =? 4)%nat then vs
      else
        let clk_sig := find_sig m "clk" in
        let rst_sig0 := find_sig m "rst_n" in
        let rst_sig := if negb (rst_sig0 =? SIZE_MAX) then rst_sig0 else find_sig m "reset_n" in
        let rstn0 :=
          if negb (rst_sig =? SIZE_MAX) && (rst_sig <? vsize vs) then
            match vat vs rst_sig with Some v => if dns_eqb v sZ then sH else v | None => sH end
          else sH in
        let rstn := normalize_z_to_x rstn0 in
        if dns_eqb rstn sL then set_bus (vd_bits vd) sL vs
        else if is_unknown rstn then set_bus (vd_bits vd) sX vs
        else
          match vat prev clk_sig, vat vs clk_sig with
          | Some a, Some b =>
              if posedge a b then
                match bus_state (vd_bits vd) vs 0 with
                | None => set_bus (vd_bits vd) sX vs
                | Some u => write_bus (vd_bits vd) (lfsr_next u) vs
                end
              else vs
          | _, _ => vs
          end
  end.

Definition event_fires (prev vs : list logic_t) (ev : sensitivity_event) : bool :=
  match vat prev (se_signal ev), vat vs (se_signal ev) with
  | Some p, Some n =>
      match se_k ev with
      | ev_posedge => posedge p n
      | ev_negedge => negedge p n
      | ev_level => negb (dns_eqb p n)
      end
  | _, _ => false
  end.

Definition run_ff (m : compiled_module) (tick : Z) (ff : always_ff) : R unit := fun st =>
  if existsb (event_fires (ms_prev_values st) (ms_values st)) (ff_events ff) then
    seach (fun root => _ ← exec_root m (ff_stmt_nodes ff) tick root; mret tt) (ff_roots ff) st
  else Some (tt, st).

Definition run_sequential (tick : Z) : I unit := fun i =>
  match is_mod i with
  | None => Some (tt, i)
  | Some m =>
      let st := is_state i in
      on_state (seach (run_ff m tick) (cm_always_ffs m))
        (with_state i (with_values st (urandom_step m (ms_prev_values st) (ms_values st))))
  end.

(** ** Combinational logic *)

Definition comb_triggered (ac : always_comb) (trigger_token : Z) (any_triggered : bool) (mark : list Z) : bool :=
  if ac_is_star ac then any_triggered
  else existsb (fun sig => match vat mark sig with Some k => k =? trigger_token | None => false end) (ac_sens_signals ac).

Definition run_comb (m : compiled_module) (tick trigger_token : Z) (any_triggered : bool) (ac : always_comb) : R bool := fun st =>
  if comb_triggered ac trigger_token any_triggered (ms_change_mark st) then
    sor (exec_root m (ac_stmt_nodes ac) tick) (ac_roots ac) st
  else Some (false, st).

Definition guard_holds (m : compiled_module) (a : continuous_assign) : R bool :=
  if ca_guard_root a =? SIZE_MAX then mret true
  else c ← eval m (ca_guard_root a); mret (dns_eqb (normalize_z_to_x c) sH).

Definition run_assign (m : compiled_module) (a : continuous_assign) : I unit :=
  go ← on_state (guard_holds m a);
  if (go : bool) then v ← on_state (eval m (ca_expr_root a)); drive_signal_next (ca_lhs_signal a) v else mret tt.

Definition run_comb_local (tick trigger_token : Z) (any_triggered : bool) : I bool := fun i =>
  match is_mod i with
  | None => Some (false, i)
  | Some m =>
      (changed ← on_state (sor (run_comb m tick trigger_token any_triggered) (cm_always_combs m));
       _ ← seach (run_assign m) (cm_assigns m);
       mret changed) i
  end.

(** ** Ports *)

Definition P2 : Type -> Type := St (instance_state * instance_state).
Definition on_parent {A} (c : I A) : P2 A := fun p => match c p.1 with Some (x, i) => Some (x, (i, p.2)) | None => None end.
Definition on_child {A} (c : I A) : P2 A := fun p => match c p.2 with Some (x, i) => Some (x, (p.1, i)) | None => None end.

Definition binding_value (b : port_binding) : I logic_t := fun parent =>
  match pb_k b with
  | bk_parent_signal => Some (default sX (vat (ms_values (is_state parent)) (pb_parent_signal b)), parent)
  | bk_literal => Some (pb_literal b, parent)
  | bk_parent_expr_root =>
      match is_mod parent with
      | Some pm => if pb_parent_expr_root b =? SIZE_MAX then Some (sX, parent) else on_state (eval pm (pb_parent_expr_root b)) parent
      | None => Some (sX, parent)
      end
  | bk_unconnected => Some (sX, parent)
  end.

Definition propagate_port (pb : port * port_binding) : P2 bool :=
  let '(p, b) := pb in
  if decide (po_dir p = pd_output) then mret false
  else v ← on_parent (binding_value b); on_child (on_state (assign_signal (po_signal p) v)).

Definition propagate_parent_to_child : P2 bool := fun p =>
  match is_mod p.2 with
  | None => Some (false, p)
  | Some cm =>
      if (length (is_bindings p.2) <? length (cm_ports cm))%nat then Some (false, p)
      else sor propagate_port (zip (cm_ports cm) (is_bindings p.2)) p
  end.

Definition propagate_drive (child : instance_state) (d : port_drive) : I unit :=
  if pv_parent_signal d =? SIZE_MAX then mret tt
  else if pv_src_is_literal d then drive_signal_next (pv_parent_signal d) (pv_literal d)
  else
    let vs := ms_values (is_state child) in
    if vsize vs <=? pv_child_signal d then mret tt
    else match vat vs (pv_child_signal d) with
         | Some v => drive_signal_next (pv_parent_signal d) v
         | None => undefined
         end.

Definition propagate_child_to_parent (child : instance_state) : I unit :=
  match is_mod child with
  | None => mret tt
  | Some _ => seach (propagate_drive child) (is_output_drives child)
  end.

(** A loop over the children that may change the parent too. *)
Fixpoint children_loop (f : P2 bool) (parent : instance_state) (cs : list instance_state)
    : option (bool * (instance_state * list instance_state)) :=
  match cs with
  | [] => Some (false, (parent, []))
  | c :: cs' =>
      match f (parent, c) with
      | Some (b, (parent1, c1)) =>
          match children_loop f parent1 cs' with
          | Some (b', (parent2, cs2)) => Some (b' || b, (parent2, c1 :: cs2))
          | None => None
          end
      | None => None
      end
  end.
Definition for_children (f : P2 bool) : I bool := fun i =>
  match children_loop f i (is_children i) with
  | Some (b, (i', cs)) => Some (b, with_children i' cs)
  | None => None
  end.

(** ** The sequential pass *)

(** [try_schedule_linear]: the assignments of an initial block without control
    flow become events; [cursor] adds up the delays.  The fuel bounds the
    nesting; the events scheduled before a failure stay. *)
Fixpoint try_schedule_linear (fuel : nat) (arena : list stmt_node) (root : Z) : St (module_state * Z) bool := fun s =>
  match fuel with
  | O => None
  | S fuel' =>
      if vsize arena <=? root then Some (false, s)
      else
        match vat arena root with
        | None => None
        | Some n =>
            let '(st, cursor) := s in
            let cursor' := u64_wrap (cursor + sn_delay_ticks n) in
            let due := u64_wrap (ms_initial_base_tick st + cursor') in
            let schedule ev := Some (true, (with_queues st (ms_events st ++ [ev]) (ms_nba_queue st), cursor')) in
            match sn_k n with
            | sk_empty => Some (true, s)
            | sk_block | sk_subprogram_block =>
                (fix each (l : list Z) : St (module_state * Z) bool := fun s =>
                   match l with
                   | [] => Some (true, s)
                   | sub :: l' =>
                       match try_schedule_linear fuel' arena sub s with
                       | Some (true, s') => each l' s'
                       | r => r
                       end
                   end) (sn_stmts n) s
            | sk_blocking_assign => schedule (event_scalar due false (sn_lhs_signal n) (sn_expr_root n))
            | sk_blocking_assign_vec => schedule (event_vector due false (sn_lhs_signals n) (sn_rhs_roots n))
            | sk_nonblocking_assign => schedule (event_scalar due true (sn_lhs_signal n) (sn_expr_root n))
            | sk_nonblocking_assign_vec => schedule (event_vector due true (sn_lhs_signals n) (sn_rhs_roots n))
            | _ => Some (false, s)
            end
        end
  end.

(** The loop over the roots of a block: [linear] is the result of the last
    call, false when there is no root. *)
Fixpoint schedule_roots (arena : list stmt_node) (roots : list Z) (linear : bool) : St (module_state * Z) bool := fun s =>
  match roots with
  | [] => Some (linear, s)
  | root :: roots' =>
      match try_schedule_linear (S (length arena)) arena root s with
      | Some (true, s') => schedule_roots arena roots' true s'
      | r => r
      end
  end.

Definition run_initial (m : compiled_module) (ib : initial_block) : R unit := fun st =>
  match schedule_roots (ib_stmt_nodes ib) (ib_roots ib) false (st, 0) with
  | None => None
  | Some (linear, (st1, _)) =>
      if (linear : bool) then Some (tt, st1)
      else seach (fun root => _ ← exec_root m (ib_stmt_nodes ib) (ms_initial_base_tick st1) root; mret tt) (ib_roots ib) st1
  end.

(** The start of [sequential_pass]: the queue is cleared, and the initial
    blocks run once. *)
Definition run_initials (tick : Z) : I unit := fun i =>
  let st := with_queues (is_state i) (ms_events (is_state i)) [] in
  match is_mod i, ms_mod st with
  | Some m, Some _ =>
      if ms_initial_ran st then Some (tt, with_state i st)
      else on_state (seach (run_initial m) (cm_initials m)) (with_state i (with_flags st (ms_comb_initialized st) true tick))
  | _, _ => Some (tt, with_state i st)
  end.

Fixpoint sequential_pass (fuel : nat) (tick : Z) (process_sequential : bool) : I unit :=
  match fuel with
  | O => undefined
  | S fuel' =>
      _ ← run_initials tick;
      _ ← on_state (process_due_events tick);
      _ ← (if process_sequential then run_sequential tick else mret tt);
      _ ← for_children (_ ← propagate_parent_to_child; _ ← on_child (sequential_pass fuel' tick process_sequential); mret false);
      mret tt
  end.

(** ** The combinational resolution *)

(** The marks of the signals that changed since the last resolution. *)
Definition mark_changed (token : Z) (values comb_prev : list logic_t) (mark : list Z) : list Z :=
  imap (fun k mk =>
    match values !! k, comb_prev !! k with
    | Some v, Some p => if dns_eqb v p then mk else token
    | _, _ => mk
    end) mark.
Definition any_differs (values comb_prev : list logic_t) : bool :=
  existsb (fun '(v, p) => negb (dns_eqb v p)) (zip values comb_prev).

Definition comb_start : R (Z * bool) := fun st =>
  let st1 := if vsize (ms_comb_prev_values st) =? vsize (ms_values st) then st else with_prev st (ms_prev_values st) (ms_prev_values st) in
  let st2 := with_changes st1 (grown_mark st1) (ms_changed_signals st1) (ms_change_token st1) in
  match begin_change_epoch st2 with
  | None => None
  | Some (token, st3) =>
      let st4 := with_changes st3 (mark_changed token (ms_values st3) (ms_comb_prev_values st3) (ms_change_mark st3))
                   (ms_changed_signals st3) (ms_change_token st3) in
      let any := any_differs (ms_values st3) (ms_comb_prev_values st3) in
      if ms_comb_initialized st4 then Some ((token, any), st4)
      else Some ((token, true), with_flags st4 true (ms_initial_ran st4) (ms_initial_base_tick st4))
  end.

Section Comb.
(** [resolve] is [comb_resolve] of the children. *)
Context (resolve : I bool) (tick : Z).

(** One delta: the flag and the token of its changes. *)
Definition comb_delta (trigger_token : Z) (any_triggered : bool) : I (bool * Z) :=
  record_token ← on_state begin_change_epoch;
  _ ← prepare_net_drives;
  c1 ← for_children propagate_parent_to_child;
  c2 ← for_children (on_child resolve);
  _ ← for_children (fun p => (_ ← on_parent (propagate_child_to_parent p.2); mret false) p);
  c3 ← run_comb_local tick trigger_token any_triggered;
  c4 ← apply_net_drives;
  c5 ← on_state apply_nba;
  mret (c5 || (c4 || (c3 || (c2 || c1))), record_token).

Fixpoint comb_loop (iter : nat) (trigger_token : Z) (any_triggered : bool) : I bool :=
  match iter with
  | O => mret false
  | S iter' =>
      r ← comb_delta trigger_token any_triggered;
      if (r.1 : bool) then
        i ← get;
        _ ← comb_loop iter' r.2 (negb (length (ms_changed_signals (is_state i)) =? 0)%nat);
        mret true
      else mret false
  end.
End Comb.

Definition max_deltas : nat := 64.

Fixpoint comb_resolve (fuel : nat) (tick : Z) : I bool := fun i =>
  match fuel with
  | O => None
  | S fuel' =>
      match is_mod i with
      | None => Some (false, i)
      | Some _ =>
          (start ← on_state comb_start;
           any_changed ← comb_loop (comb_resolve fuel' tick) tick max_deltas start.1 start.2;
           _ ← on_state (fun st => Some (tt, with_prev st (ms_prev_values st) (ms_values st)));
           mret any_changed) i
      end
  end.

(** ** A simulation step *)

Fixpoint update_prev_recursive (i : instance_state) : instance_state :=
  mk_inst (is_mod i) (is_instance_name i) (with_prev (is_state i) (ms_values (is_state i)) (ms_values (is_state i)))
    (is_driven_nets i) (is_bindings i) (is_output_drives i) (map update_prev_recursive (is_children i)).

Definition simulate (top : instance_state) (tick : Z) (process_sequential : bool) : option instance_state :=
  match (_ ← sequential_pass (depth top) tick process_sequential; comb_resolve (depth top) tick) top with
  | Some (_, top') => Some (update_prev_recursive top')
  | None => None
  end.
