(* ===== verification/VRuntimeInv.v ===== *)
(** * VRuntimeInv: a simulation step returns and keeps the tree

    Every operation of the runtime is defined on a tree of instances in order,
    and keeps it in order; the tree, its modules, ports and numbers of signals
    stay the same. *)

From Stdlib Require Import ZArith Lia.
From stdpp Require Import base list gmap strings.
From S2P Require Import Prelude Logic4 VData VExpr VCache VStmt VStmtInv VRuntime.

Open Scope Z_scope.

(** ** Modules and instances in order *)

Definition block_ok (arena : list stmt_node) (roots : list Z) : Prop := stmts_ok arena /\ Forall (Z.le 0) roots.

(** The indices are those of [size_t], operands and parts come first. *)
Record module_ok (m : compiled_module) : Prop := mk_module_ok {
  mo_nodes : arena_ok (cm_expr_nodes m);
  mo_ffs : Forall (fun ff => block_ok (ff_stmt_nodes ff) (ff_roots ff)) (cm_always_ffs m);
  mo_combs : Forall (fun ac => block_ok (ac_stmt_nodes ac) (ac_roots ac)) (cm_always_combs m);
  mo_initials : Forall (fun ib => block_ok (ib_stmt_nodes ib) (ib_roots ib)) (cm_initials m);
  mo_assigns : Forall (fun a => 0 <= ca_lhs_signal a /\ 0 <= ca_expr_root a /\ 0 <= ca_guard_root a) (cm_assigns m);
  mo_ports : Forall (fun p => 0 <= po_signal p) (cm_ports m)
}.

Record local_ok (i : instance_state) : Prop := mk_local_ok {
  lo_module : forall m, is_mod i = Some m -> module_ok m;
  lo_mod : ms_mod (is_state i) = is_mod i;
  lo_sane : sane (is_state i);
  lo_bindings : Forall (fun b => 0 <= pb_parent_expr_root b) (is_bindings i);
  lo_drives : Forall (fun d => 0 <= pv_parent_signal d /\ 0 <= pv_child_signal d) (is_output_drives i)
}.
Inductive tree_ok (i : instance_state) : Prop := tree_ok_intro : local_ok i -> Forall tree_ok (is_children i) -> tree_ok i.

Lemma tree_local i : tree_ok i -> local_ok i.
Proof. by intros []. Qed.
Lemma tree_children i : tree_ok i -> Forall tree_ok (is_children i).
Proof. by intros []. Qed.

(** ** What stays the same *)

Definition same_local (i i' : instance_state) : Prop :=
  is_mod i' = is_mod i /\ is_instance_name i' = is_instance_name i /\ is_bindings i' = is_bindings i /\
  is_output_drives i' = is_output_drives i /\ ms_mod (is_state i') = ms_mod (is_state i) /\
  length (ms_values (is_state i')) = length (ms_values (is_state i)).
Inductive same_tree (i i' : instance_state) : Prop :=
  same_tree_intro : same_local i i' -> Forall2 same_tree (is_children i) (is_children i') -> same_tree i i'.

#[export] Instance same_local_preorder : PreOrder same_local.
Proof. split; [by repeat split|]. intros a b c (?&?&?&?&?&?) (?&?&?&?&?&?). unfold same_local. split_and!; congruence. Qed.

(** Induction on a tree. *)
Lemma instance_ind' (P : instance_state -> Prop) : (forall i, Forall P (is_children i) -> P i) -> forall i, P i.
Proof.
  intros H. fix IH 1. intros i. apply H. destruct i as [? ? ? ? ? ? cs]. simpl. induction cs as [|c cs IHcs]; constructor; [apply IH|apply IHcs].
Qed.

Lemma same_tree_refl i : same_tree i i.
Proof. induction i as [i IH] using instance_ind'. split; [reflexivity|]. induction IH; constructor; auto. Qed.
Lemma same_tree_trans i j k : same_tree i j -> same_tree j k -> same_tree i k.
Proof.
  revert j k. induction i as [i IH] using instance_ind'. intros j k [L1 C1] [L2 C2]. split; [by etrans|]. revert C2. generalize (is_children k).
  revert IH. induction C1 as [|x y xs ys Hxy H IHl]; intros IH l C2; inversion C2; subst; constructor; inversion IH; subst; eauto.
Qed.

Lemma same_tree_depth i j : same_tree i j -> depth j = depth i.
Proof.
  revert j. induction i as [i IH] using instance_ind'. intros j [_ C]. destruct i as [? ? ? ? ? ? cs], j as [? ? ? ? ? ? cs']. simpl in *. do 2 f_equal.
  revert IH. induction C as [|x y xs ys Hxy H IHl]; intros IH; [done|]. inversion IH; subst. simpl. f_equal; auto.
Qed.

Lemma depth_child c i n : c ∈ is_children i -> (depth i <= S n)%nat -> (depth c <= n)%nat.
Proof.
  intros Hc Hd. destruct i as [? ? ? ? ? ? cs]. simpl in *. apply le_S_n in Hd. rewrite list_max_le in Hd. rewrite Forall_forall in Hd.
  apply Hd. apply list_elem_of_fmap. eauto.
Qed.

(** ** Operations on one instance *)

Definition lkeeps {A} (c : I A) : Prop := forall i, local_ok i ->
  wp c i (fun _ i' => local_ok i' /\ same_local i i' /\ is_children i' = is_children i).

Lemma lkeeps_ret {A} (x : A) : lkeeps (mret x).
Proof. intros i Hi. by split_and!. Qed.
Lemma lkeeps_bind {A C} (c : I A) (f : A -> I C) : lkeeps c -> (forall x, lkeeps (f x)) -> lkeeps (c ≫= f).
Proof.
  intros Hc Hf i Hi. apply wp_bind. eapply wp_mono; [by apply Hc|]. intros x i1 (H1 & S1 & C1). eapply wp_mono; [by apply Hf|].
  intros y i2 (H2 & S2 & C2). split_and!; [done|by etrans|congruence].
Qed.
Lemma lkeeps_seach {A} (f : A -> I unit) l : Forall (fun x => lkeeps (f x)) l -> lkeeps (seach f l).
Proof. induction 1 as [|x l Hx Hl IH]; simpl; [apply lkeeps_ret|]. by apply lkeeps_bind. Qed.

(** A new state of the module. *)
Lemma local_with_state i st : local_ok i -> sane st -> ms_mod st = ms_mod (is_state i) ->
  length (ms_values st) = length (ms_values (is_state i)) -> local_ok (with_state i st) /\ same_local i (with_state i st).
Proof.
  intros [H1 H2 H3 H4 H5] Hs Hm Hl. split; [|by repeat split]. split; simpl; [done|congruence|done..].
Qed.

Definition keeps_state {A} (c : R A) : Prop := forall st, sane st ->
  wp c st (fun _ st' => sane st' /\ ms_mod st' = ms_mod st /\ length (ms_values st') = length (ms_values st)).
Lemma safe_keeps {A} (c : R A) : safe c -> keeps_state c.
Proof. intros H st Hs. eapply wp_mono; [by apply H|]. intros x st' [Hs' []]. by split_and!. Qed.
Lemma keeps_on_state {A} (c : R A) : keeps_state c -> lkeeps (on_state c).
Proof.
  intros H i Hi. unfold wp, on_state. specialize (H _ (lo_sane _ Hi)). unfold wp in H. destruct (c (is_state i)) as [[x st]|]; [|done].
  destruct H as (Hs & Hm & Hl). destruct (local_with_state i st Hi Hs Hm Hl). by split_and!.
Qed.

Lemma sane_same st st' : ms_expr_eval_cache st' = ms_expr_eval_cache st -> ms_expr_eval_mark st' = ms_expr_eval_mark st ->
  ms_expr_eval_token st' = ms_expr_eval_token st -> ms_nba_queue st' = ms_nba_queue st -> ms_events st' = ms_events st -> sane st -> sane st'.
Proof. intros E1 E2 E3 E4 E5 [H1 H2 H3]. split; [by apply (memo_inv_same st)|by rewrite E4|by rewrite E5]. Qed.

Lemma begin_epoch_keeps : keeps_state begin_change_epoch.
Proof.
  intros st Hs. unfold wp, begin_change_epoch. cbv zeta. destruct (_ =? 0); (split_and!; [by apply (sane_same st)|done|done]).
Qed.

Lemma prepare_keeps : lkeeps prepare_net_drives.
Proof.
  intros i Hi. unfold wp, prepare_net_drives. destruct (is_mod i) eqn:E; [|by split_and!]. cbv zeta.
  set (st := with_next _ _). destruct (local_with_state i st) as [H1 H2]; [done|by apply (sane_same (is_state i)), Hi|done|done|].
  split_and!; [by split; apply H1|done|done].
Qed.

Lemma drive_keeps sig v : 0 <= sig -> lkeeps (drive_signal_next sig v).
Proof.
  intros Hs i Hi. unfold wp, drive_signal_next. destruct (is_mod i) as [m|] eqn:E; [|by split_and!].
  destruct (vsize (ms_values (is_state i)) <=? sig) eqn:El; [by split_and!|]. apply Z.leb_gt in El. destruct (_ || _).
  - apply (lkeeps_bind (on_state (assign_signal sig v)) (fun _ => mret tt)); [|intros ?; apply lkeeps_ret|done].
    apply keeps_on_state, safe_keeps, safe_good. by apply good_assign.
  - set (next := if _ <? _ then _ else _). assert (Hn : vsize (ms_values (is_state i)) <= vsize next).
    { subst next. destruct (vsize (ms_next_net_values (is_state i)) <? vsize (ms_values (is_state i))) eqn:En; [apply Z.ltb_lt in En; rewrite vsize_vgrow; lia|].
      apply Z.ltb_ge in En. lia. }
    destruct (proj2 (vat_is_Some next sig)) as [d ->]; [lia|]. set (st := with_next _ _).
    destruct (local_with_state i st) as [H1 H2]; [done|by apply (sane_same (is_state i)), Hi|done|done|]. by split_and!.
Qed.

Lemma apply_drives_keeps : lkeeps apply_net_drives.
Proof.
  intros i Hi. unfold wp, apply_net_drives. destruct (is_mod i) as [m|] eqn:E; [|by split_and!].
  destruct (_ || _) eqn:El; [by split_and!|]. apply orb_false_iff in El as [E1 E2]. apply Z.ltb_ge in E1, E2.
  apply keeps_on_state; [|done]. apply safe_keeps, safe_good, good_sor. apply Forall_forall. intros k Hk. apply elem_of_seq in Hk.
  unfold apply_net. destruct (negb _); [by apply good_ret|]. destruct (flag (cm_signal_is_reg m) _); [by apply good_ret|].
  destruct (proj2 (vat_is_Some (ms_next_net_values (is_state i)) (Z.of_nat k))) as [v ->]; [unfold vsize in *; lia|]. apply good_assign. lia.
Qed.

Lemma keeps_bind {A C} (c : R A) (f : A -> R C) : keeps_state c -> (forall x, keeps_state (f x)) -> keeps_state (c ≫= f).
Proof.
  intros Hc Hf st Hs. apply wp_bind. eapply wp_mono; [by apply Hc|]. intros x s1 (H1 & M1 & L1). eapply wp_mono; [by apply Hf|].
  intros y s2 (H2 & M2 & L2). split_and!; congruence.
Qed.
Lemma keeps_ret {A} (x : A) : keeps_state (mret x).
Proof. intros st Hs. by split_and!. Qed.
Lemma keeps_seach {A} (f : A -> R unit) l : Forall (fun x => keeps_state (f x)) l -> keeps_state (seach f l).
Proof. induction 1 as [|x l Hx Hl IH]; simpl; [apply keeps_ret|]. by apply keeps_bind. Qed.
Lemma keeps_sor {A} (f : A -> R bool) l : Forall (fun x => keeps_state (f x)) l -> keeps_state (sor f l).
Proof.
  induction 1 as [|x l Hx Hl IH]; simpl; [apply keeps_ret|]. apply keeps_bind; [done|]. intros b. apply keeps_bind; [done|]. intros ?. apply keeps_ret.
Qed.

(** ** Blocks, assignments and ports *)

Section Module.
Context (m : compiled_module) (Hm : module_ok m).
#[local] Set Default Proof Using "Type*".

Lemma eval_keeps root : 0 <= root -> keeps_state (eval m root).
Proof. intros H. apply safe_keeps, safe_quiet, quiet_eval; [apply Hm|done]. Qed.

Lemma root_keeps arena tick root : stmts_ok arena -> 0 <= root -> keeps_state (exec_root m arena tick root).
Proof. intros H1 H2. apply safe_keeps, safe_good, good_exec_root; [apply Hm|done|done]. Qed.

Lemma roots_keep arena tick roots : block_ok arena roots -> keeps_state (seach (fun root => _ ← exec_root m arena tick root; mret tt) roots).
Proof.
  intros [H1 H2]. apply keeps_seach. eapply Forall_impl; [exact H2|]. intros r Hr. apply keeps_bind; [by apply root_keeps|].
  intros ?. apply keeps_ret.
Qed.

Lemma run_ff_keeps tick ff : block_ok (ff_stmt_nodes ff) (ff_roots ff) -> keeps_state (run_ff m tick ff).
Proof. intros H st Hs. unfold wp, run_ff. destruct (existsb _ _); [by apply roots_keep|by split_and!]. Qed.

Lemma run_comb_keeps tick token any ac : block_ok (ac_stmt_nodes ac) (ac_roots ac) -> keeps_state (run_comb m tick token any ac).
Proof.
  intros [H1 H2] st Hs. unfold wp, run_comb. destruct (comb_triggered _ _ _ _); [|by split_and!]. apply keeps_sor; [|done].
  eapply Forall_impl; [exact H2|]. intros r Hr. by apply root_keeps.
Qed.

Lemma guard_keeps a : 0 <= ca_guard_root a -> keeps_state (guard_holds m a).
Proof.
  intros H. unfold guard_holds. destruct (_ =? _); [apply keeps_ret|]. apply keeps_bind; [by apply eval_keeps|]. intros ?. apply keeps_ret.
Qed.
Lemma run_assign_keeps a : 0 <= ca_lhs_signal a /\ 0 <= ca_expr_root a /\ 0 <= ca_guard_root a -> lkeeps (run_assign m a).
Proof.
  intros (H1 & H2 & H3). unfold run_assign. apply lkeeps_bind; [by apply keeps_on_state, guard_keeps|]. intros [|]; [|apply lkeeps_ret].
  apply lkeeps_bind; [by apply keeps_on_state, eval_keeps|]. intros v. by apply drive_keeps.
Qed.
End Module.

Lemma set_bus_length bits v vs : length (set_bus bits v vs) = length vs.
Proof.
  unfold set_bus. revert vs. induction bits as [|s bits IH]; intros vs; [done|]. simpl. rewrite IH.
  pose proof (vsize_vset vs s v). unfold vsize in *. lia.
Qed.
Lemma write_bus_length bits u vs : length (write_bus bits u vs) = length vs.
Proof.
  unfold write_bus. generalize (imap pair bits) as l. intros l. revert vs. induction l as [|[k s] l IH]; intros vs; [done|]. simpl. rewrite IH.
  match goal with |- length (vset ?vs ?s ?v) = _ => pose proof (vsize_vset vs s v) end. unfold vsize in *. lia.
Qed.
Lemma urandom_length m prev vs : length (urandom_step m prev vs) = length vs.
Proof.
  unfold urandom_step. cbv zeta. repeat case_match; auto using set_bus_length, write_bus_length.
Qed.

Lemma run_sequential_keeps tick : lkeeps (run_sequential tick).
Proof.
  intros i Hi. unfold run_sequential, wp. destruct (is_mod i) as [m|] eqn:E; [|by split_and!]. pose proof (lo_module _ Hi m E) as Hm.
  set (st := with_values _ _). destruct (local_with_state i st) as [H1 H2]; [done|by apply (sane_same (is_state i)), Hi|done|apply urandom_length|].
  assert (Hk : lkeeps (on_state (seach (run_ff m tick) (cm_always_ffs m)))).
  { apply keeps_on_state, keeps_seach. eapply Forall_impl; [apply Hm|]. intros ff Hff. by apply run_ff_keeps. }
  specialize (Hk _ H1). eapply wp_mono; [exact Hk|]. intros _ i' (H3 & H4 & H5). split_and!; [done|by etrans|done].
Qed.

Lemma run_comb_local_keeps tick token any : lkeeps (run_comb_local tick token any).
Proof.
  intros i Hi. unfold run_comb_local, wp. destruct (is_mod i) as [m|] eqn:E; [|by split_and!]. pose proof (lo_module _ Hi m E) as Hm.
  apply (lkeeps_bind (on_state (sor (run_comb m tick token any) (cm_always_combs m))) (fun changed => _ ← seach (run_assign m) (cm_assigns m); mret changed)); [| |done].
  - apply keeps_on_state, keeps_sor. eapply Forall_impl; [apply Hm|]. intros ac Hac. by apply run_comb_keeps.
  - intros b. apply lkeeps_bind; [|intros ?; apply lkeeps_ret]. apply lkeeps_seach. eapply Forall_impl; [apply Hm|]. intros a Ha. by apply run_assign_keeps.
Qed.

Lemma process_keeps tick : lkeeps (on_state (process_due_events tick)).
Proof.
  intros i Hi. unfold wp, on_state. pose proof (lo_mod _ Hi) as Em. destruct (is_mod i) as [m|] eqn:E.
  - pose proof (lo_module _ Hi m E) as Hm.
    pose proof (safe_process_due m (mo_nodes _ Hm) tick (is_state i) (lo_sane _ Hi) ltac:(congruence)) as Hw. unfold wp in Hw.
    destruct (process_due_events tick (is_state i)) as [[u st]|]; [|done]. destruct Hw as [Hs []].
    destruct (local_with_state i st) as [H1 H2]; [done..|]. by split_and!.
  - unfold process_due_events. rewrite Em. destruct (local_with_state i (is_state i)) as [H1 H2]; [done|apply Hi|done|done|]. by split_and!.
Qed.

(** ** Initial blocks *)

Lemma schedule_keeps arena : stmts_ok arena -> forall fuel root st cursor, 0 <= root ->
  (S (Z.to_nat root) < fuel)%nat \/ (vsize arena <= root /\ (0 < fuel)%nat) -> sane st ->
  wp (try_schedule_linear fuel arena root) (st, cursor) (fun _ s' => sane s'.1 /\ frame st s'.1).
Proof.
  intros Ha. induction fuel as [|fuel IH]; intros root st cursor Hr Hf Hs; [lia|]. unfold wp. cbn [try_schedule_linear].
  destruct (vsize arena <=? root) eqn:E; [by split|]. apply Z.leb_gt in E. destruct (proj2 (vat_is_Some arena root)) as [n Hn]; [lia|]. rewrite Hn.
  destruct (stmt_ok_sane _ _ _ (stmts_ok_at _ _ _ Ha Hn)) as [Hsn Hc]. unfold children in Hc. rewrite Forall_app in Hc. destruct Hc as [Hc _].
  set (cursor' := u64_wrap _). set (due := u64_wrap (_ + _)).
  assert (Hev : forall ev, event_sane ev -> sane (with_queues st (ms_events st ++ [ev]) (ms_nba_queue st)) /\ frame st (with_queues st (ms_events st ++ [ev]) (ms_nba_queue st))).
  { intros ev Hev. destruct (quiet_push_event ev Hev st Hs) as [H1 [H2 _]]. done. }
  assert (Heach : forall l st cursor, Forall (fun c => 0 <= c /\ (c < root \/ vsize arena <= c)) l -> sane st ->
    wp ((fix each (l : list Z) : St (module_state * Z) bool := fun s => match l with [] => Some (true, s) | sub :: l' =>
         match try_schedule_linear fuel arena sub s with Some (true, s') => each l' s' | r => r end end) l) (st, cursor)
      (fun _ s' => sane s'.1 /\ frame st s'.1)).
  { clear st cursor Hs cursor' due Hev. induction l as [|c l IHl]; intros st cursor Hl Hs; [by split|]. inversion Hl as [|? ? [Hc0 Hc1] Hl']; subst.
    unfold wp. pose proof (IH c st cursor Hc0 ltac:(lia) Hs) as Hw. unfold wp in Hw.
    destruct (try_schedule_linear fuel arena c (st, cursor)) as [[b [st1 cur1]]|]; [|done]. simpl in Hw. destruct Hw as [S1 F1]. destruct b; [|done].
    eapply wp_mono; [by apply IHl|]. intros b s' [S2 F2]. split; [done|by etrans]. }
  destruct Hsn. destruct (sn_k n); try done; try (by apply Heach); apply Hev; by repeat split; try constructor.
Qed.

Lemma schedule_roots_keep arena roots : stmts_ok arena -> Forall (Z.le 0) roots -> forall linear st cursor, sane st ->
  wp (schedule_roots arena roots linear) (st, cursor) (fun _ s' => sane s'.1 /\ frame st s'.1).
Proof.
  intros Ha. induction 1 as [|r roots Hr H IH]; intros linear st cursor Hs; [by split|]. unfold wp. cbn [schedule_roots].
  pose proof (schedule_keeps arena Ha (S (length arena)) r st cursor Hr ltac:(unfold vsize; lia) Hs) as Hw. unfold wp in Hw.
  destruct (try_schedule_linear _ arena r (st, cursor)) as [[b [st1 cur1]]|]; [|done]. destruct Hw as [S1 F1]. simpl in S1, F1. destruct b; [|done].
  eapply wp_mono; [by apply IH|]. intros b s' [S2 F2]. split; [done|by etrans].
Qed.

Lemma run_initial_keeps m ib : module_ok m -> block_ok (ib_stmt_nodes ib) (ib_roots ib) -> keeps_state (run_initial m ib).
Proof.
  intros Hm [H1 H2] st Hs. unfold wp, run_initial. pose proof (schedule_roots_keep _ _ H1 H2 false st 0 Hs) as Hw. unfold wp in Hw.
  destruct (schedule_roots _ _ false (st, 0)) as [[linear [st1 cur]]|]; [|done]. destruct Hw as [S1 []]. simpl in *. destruct linear; [by split_and!|].
  eapply wp_mono; [by apply (roots_keep m Hm (ib_stmt_nodes ib) (ms_initial_base_tick st1) (ib_roots ib))|]. intros _ st2 (S2 & M2 & L2). split_and!; congruence.
Qed.

Lemma run_initials_keeps tick : lkeeps (run_initials tick).
Proof.
  intros i Hi. unfold run_initials, wp. cbv zeta. set (st := with_queues _ _ _).
  assert (Hs : sane st) by (destruct (lo_sane _ Hi); split; [by eapply memo_inv_same|constructor|done]).
  destruct (local_with_state i st) as [H1 H2]; [done|done|done|done|]. destruct (is_mod i) as [m|] eqn:E; [|by split_and!].
  destruct (ms_mod st) as [m'|] eqn:E'; [|by split_and!]. destruct (ms_initial_ran st); [by split_and!|].
  set (st' := with_flags _ _ _ _). destruct (local_with_state i st') as [H3 H4]; [done|by apply (sane_same st)|done|done|].
  pose proof (lo_module _ Hi m E) as Hm. assert (Hk : lkeeps (on_state (seach (run_initial m) (cm_initials m)))).
  { apply keeps_on_state, keeps_seach. eapply Forall_impl; [apply Hm|]. intros ib Hib. by apply run_initial_keeps. }
  eapply wp_mono; [by apply (Hk _ H3)|]. intros _ i' (H5 & H6 & H7). split_and!; [done|by etrans|done].
Qed.

(** ** A parent and a child *)

(** The parent is in order as an instance, its list of children is not looked
    at; the child is in order as a tree no deeper than [n]. *)
Definition keeps2 {A} (n : nat) (f : P2 A) : Prop := forall p c, local_ok p -> tree_ok c -> (depth c <= n)%nat ->
  wp f (p, c) (fun _ q => local_ok q.1 /\ same_local p q.1 /\ is_children q.1 = is_children p /\ tree_ok q.2 /\ same_tree c q.2).

Lemma keeps2_ret {A} n (x : A) : keeps2 n (mret x).
Proof. intros p c Hp Hc Hd. split_and!; [done|reflexivity|done|done|apply same_tree_refl]. Qed.
Lemma keeps2_bind {A C} n (f : P2 A) (g : A -> P2 C) : keeps2 n f -> (forall x, keeps2 n (g x)) -> keeps2 n (f ≫= g).
Proof.
  intros Hf Hg p c Hp Hc Hd. apply wp_bind. eapply wp_mono; [by apply Hf|]. intros x [p1 c1] (H1 & S1 & C1 & T1 & E1). simpl in *.
  eapply wp_mono; [apply Hg; [done|done|]|]. { by rewrite (same_tree_depth _ _ E1). }
  intros y [p2 c2] (H2 & S2 & C2 & T2 & E2). simpl in *. split_and!; [done|by etrans|congruence|done|by eapply same_tree_trans].
Qed.
Lemma keeps2_sor {A} n (f : A -> P2 bool) l : Forall (fun x => keeps2 n (f x)) l -> keeps2 n (sor f l).
Proof.
  induction 1 as [|x l Hx Hl IH]; simpl; [apply keeps2_ret|]. apply keeps2_bind; [done|]. intros b. apply keeps2_bind; [done|]. intros ?. apply keeps2_ret.
Qed.
Lemma keeps2_parent {A} n (c : I A) : lkeeps c -> keeps2 n (on_parent c).
Proof.
  intros H p ch Hp Hc Hd. unfold wp, on_parent. simpl. specialize (H p Hp). unfold wp in H. destruct (c p) as [[x p']|]; [|done].
  destruct H as (H1 & H2 & H3). split_and!; [done..|apply same_tree_refl].
Qed.
Lemma tree_local_op {A} (c : I A) i : lkeeps c -> tree_ok i -> wp c i (fun _ i' => tree_ok i' /\ same_tree i i').
Proof.
  intros H [L C]. eapply wp_mono; [by apply H|]. intros x i' (L' & S' & C'). split; split; [done|by rewrite C'|done|rewrite C'].
  clear. induction (is_children i); constructor; [apply same_tree_refl|done].
Qed.
Definition tkeeps {A} (n : nat) (c : I A) : Prop := forall i, tree_ok i -> (depth i <= n)%nat -> wp c i (fun _ i' => tree_ok i' /\ same_tree i i').
Lemma tkeeps_local {A} n (c : I A) : lkeeps c -> tkeeps n c.
Proof. intros H i Hi _. by apply tree_local_op. Qed.
Lemma keeps2_child {A} n (c : I A) : tkeeps n c -> keeps2 n (on_child c).
Proof.
  intros H p ch Hp Hc Hd. unfold wp, on_child. simpl. specialize (H ch Hc Hd). unfold wp in H. destruct (c ch) as [[x c']|]; [|done].
  destruct H as [H1 H2]. by split_and!.
Qed.
Lemma tkeeps_ret {A} n (x : A) : tkeeps n (mret x).
Proof. intros i Hi _. split; [done|apply same_tree_refl]. Qed.
Lemma tkeeps_bind {A C} n (c : I A) (f : A -> I C) : tkeeps n c -> (forall x, tkeeps n (f x)) -> tkeeps n (c ≫= f).
Proof.
  intros Hc Hf i Hi Hd. apply wp_bind. eapply wp_mono; [by apply Hc|]. intros x i1 [T1 E1].
  eapply wp_mono; [apply Hf; [done|by rewrite (same_tree_depth _ _ E1)]|]. intros y i2 [T2 E2]. split; [done|by eapply same_tree_trans].
Qed.

Lemma children_loop_keeps n f : keeps2 n f -> forall cs p, local_ok p -> Forall tree_ok cs -> Forall (fun c => depth c <= n)%nat cs ->
  match children_loop f p cs with
  | Some (_, (p', cs')) => local_ok p' /\ same_local p p' /\ is_children p' = is_children p /\ Forall tree_ok cs' /\ Forall2 same_tree cs cs'
  | None => False
  end.
Proof.
  intros Hf. induction cs as [|c cs IH]; intros p Hp Ht Hd; cbn [children_loop]; [split_and!; [done|reflexivity|done|constructor|constructor]|].
  inversion Ht; subst. inversion Hd; subst. pose proof (Hf p c Hp ltac:(done) ltac:(done)) as Hw. unfold wp in Hw.
  destruct (f (p, c)) as [[b [p1 c1]]|]; [|done]. simpl in Hw. destruct Hw as (H5 & S5 & C5 & T5 & E5).
  specialize (IH p1 H5 ltac:(done) ltac:(done)). destruct (children_loop f p1 cs) as [[b' [p2 cs2]]|]; [|done]. destruct IH as (H6 & S6 & C6 & T6 & E6).
  split_and!; [done|by etrans|congruence|by constructor|by constructor].
Qed.

Lemma for_children_keeps n f : keeps2 n f -> tkeeps (S n) (for_children f).
Proof.
  intros Hf i [L C] Hd. unfold wp, for_children.
  assert (HC : Forall (fun c => depth c <= n)%nat (is_children i)).
  { apply Forall_forall. intros c Hc. by apply (depth_child c i). }
  pose proof (children_loop_keeps n f Hf (is_children i) i L C HC) as Hw. destruct (children_loop f i (is_children i)) as [[b [i' cs]]|]; [|done].
  destruct Hw as (H1 & S1 & C1 & T1 & E1). split; split; [by destruct H1|done|done|done].
Qed.

Lemma binding_keeps b : 0 <= pb_parent_expr_root b -> lkeeps (binding_value b).
Proof.
  intros H i Hi. unfold wp, binding_value. destruct (pb_k b); try by split_and!. destruct (is_mod i) as [m|] eqn:E; [|by split_and!].
  destruct (_ =? _); [by split_and!|]. apply keeps_on_state; [|done]. apply eval_keeps; [by apply (lo_module i)|done].
Qed.

Lemma propagate_down_keeps n : keeps2 n propagate_parent_to_child.
Proof.
  intros p c Hp Hc Hd. unfold wp, propagate_parent_to_child. simpl. destruct (is_mod c) as [cm|] eqn:E.
  2: { split_and!; [done|reflexivity|done|done|apply same_tree_refl]. }
  destruct (_ <? _)%nat; [split_and!; [done|reflexivity|done|done|apply same_tree_refl]|].
  apply (keeps2_sor n); [|done|done|done]. pose proof (tree_local _ Hc) as HL. pose proof (mo_ports _ (lo_module _ HL cm E)) as Hpo.
  pose proof (lo_bindings _ HL) as Hb. revert Hb. generalize (is_bindings c). induction Hpo as [|q ports Hq H IH]; intros [|b bs] Hb; constructor.
  - simpl. inversion Hb; subst. destruct (decide _); [apply keeps2_ret|]. apply keeps2_bind; [by apply keeps2_parent, binding_keeps|].
    intros v. apply keeps2_child, tkeeps_local, keeps_on_state, safe_keeps, safe_good. by apply good_assign.
  - inversion Hb; subst. by apply IH.
Qed.

Lemma propagate_up_keeps c : local_ok c -> lkeeps (propagate_child_to_parent c).
Proof.
  intros Hc. unfold propagate_child_to_parent. destruct (is_mod c); [|apply lkeeps_ret]. apply lkeeps_seach. eapply Forall_impl; [apply Hc|].
  intros d [H1 H2]. unfold propagate_drive. destruct (_ =? _); [apply lkeeps_ret|]. destruct (pv_src_is_literal d); [by apply drive_keeps|]. cbv zeta.
  destruct (_ <=? _) eqn:E; [apply lkeeps_ret|]. apply Z.leb_gt in E.
  destruct (proj2 (vat_is_Some (ms_values (is_state c)) (pv_child_signal d))) as [v ->]; [lia|]. by apply drive_keeps.
Qed.

(** ** The passes *)

Lemma sequential_pass_keeps tick seq : forall n, tkeeps n (sequential_pass n tick seq).
Proof.
  induction n as [|n IH].
  { intros i _ Hd. destruct i. simpl in Hd. lia. }
  cbn [sequential_pass]. apply tkeeps_bind; [apply tkeeps_local, run_initials_keeps|]. intros _.
  apply tkeeps_bind; [apply tkeeps_local, process_keeps|]. intros _.
  apply tkeeps_bind; [destruct seq; [apply tkeeps_local, run_sequential_keeps|apply tkeeps_ret]|]. intros _.
  apply tkeeps_bind; [|intros ?; apply tkeeps_ret]. apply for_children_keeps. apply keeps2_bind; [apply propagate_down_keeps|].
  intros _. apply keeps2_bind; [by apply keeps2_child|]. intros _. apply keeps2_ret.
Qed.

Lemma comb_start_keeps : keeps_state comb_start.
Proof.
  intros st Hs. unfold wp, comb_start. cbv zeta. set (st1 := if _ =? _ then _ else _).
  assert (H1 : sane st1 /\ ms_mod st1 = ms_mod st /\ length (ms_values st1) = length (ms_values st)).
  { subst st1. destruct (_ =? _); split_and!; try done. by apply (sane_same st). }
  clearbody st1. destruct H1 as (S1 & M1 & L1). set (st2 := with_changes st1 _ _ _).
  pose proof (begin_epoch_keeps st2 ltac:(by apply (sane_same st1))) as Hw. unfold wp in Hw. destruct (begin_change_epoch st2) as [[token st3]|]; [|done].
  destruct Hw as (S3 & M3 & L3). simpl in M3, L3. set (st4 := with_changes st3 _ _ _). assert (S4 : sane st4) by (by apply (sane_same st3)).
  destruct (ms_comb_initialized st4); (split_and!; [by apply (sane_same st4)|simpl; congruence|simpl; congruence]).
Qed.

Section Comb.
Context (n : nat) (resolve : I bool) (tick : Z) (Hres : tkeeps n resolve).

Lemma up_all_keeps : keeps2 n (fun p => (_ ← on_parent (propagate_child_to_parent p.2); mret false) p).
Proof.
  intros p c Hp Hc Hd. apply (keeps2_bind n (on_parent (propagate_child_to_parent c)) (fun _ => mret false)); [|intros ?; apply keeps2_ret|done|done|done].
  apply keeps2_parent, propagate_up_keeps, tree_local, Hc.
Qed.

Lemma comb_delta_keeps token any : tkeeps (S n) (comb_delta resolve tick token any).
Proof using Hres.
  unfold comb_delta. apply tkeeps_bind; [apply tkeeps_local, keeps_on_state, begin_epoch_keeps|]. intros rt.
  apply tkeeps_bind; [apply tkeeps_local, prepare_keeps|]. intros _. apply tkeeps_bind; [apply for_children_keeps, propagate_down_keeps|]. intros c1.
  apply tkeeps_bind; [by apply for_children_keeps, keeps2_child|]. intros c2. apply tkeeps_bind; [apply for_children_keeps, up_all_keeps|]. intros _.
  apply tkeeps_bind; [apply tkeeps_local, run_comb_local_keeps|]. intros c3. apply tkeeps_bind; [apply tkeeps_local, apply_drives_keeps|]. intros c4.
  apply tkeeps_bind; [apply tkeeps_local, keeps_on_state, safe_keeps, safe_good, good_apply_nba|]. intros c5. apply tkeeps_ret.
Qed.

Lemma comb_loop_keeps iter : forall token any, tkeeps (S n) (comb_loop resolve tick iter token any).
Proof using Hres.
  induction iter as [|iter IH]; intros token any; cbn [comb_loop]; [apply tkeeps_ret|]. apply tkeeps_bind; [apply comb_delta_keeps|]. intros [[|] rt]; [|apply tkeeps_ret].
  apply tkeeps_bind; [apply tkeeps_local; intros i Hi; by split_and!|]. intros i. apply tkeeps_bind; [apply IH|]. intros _. apply tkeeps_ret.
Qed.
End Comb.

Lemma comb_resolve_keeps tick : forall n, tkeeps n (comb_resolve n tick).
Proof.
  induction n as [|n IH]; intros i Hi Hd.
  { destruct i. simpl in Hd. lia. }
  unfold wp. cbn [comb_resolve]. destruct (is_mod i) as [m|] eqn:E; [|split; [done|apply same_tree_refl]].
  apply (tkeeps_bind (S n) (on_state comb_start)); [apply tkeeps_local, keeps_on_state, comb_start_keeps| |done|done]. intros start.
  apply tkeeps_bind; [by apply comb_loop_keeps|]. intros c. apply tkeeps_bind; [|intros ?; apply tkeeps_ret].
  apply tkeeps_local, keeps_on_state. intros st Hs. split_and!; [by apply (sane_same st)|done|done].
Qed.
