(* ===== verification/VSettle.v ===== *)
(** * VSettle: continuous assignments settle

    For a module that is only nets and continuous assignments: one delta of
    [comb_resolve] gives every driven net the resolution of its drivers, and
    when the nets have levels the loop ends in a state where every net agrees
    with its drivers. *)

From Stdlib Require Import ZArith Lia.
From stdpp Require Import base list gmap strings.
From S2P Require Import Prelude Logic4 VData VExpr VCache VStmt VStmtInv VStmtClaims VRuntime.
From S2P Require Import VRuntimeInv.

Open Scope Z_scope.

Lemma wp_and {S A} (c : St S A) s (P Q : A -> S -> Prop) : wp c s P -> wp c s Q -> wp c s (fun x s' => P x s' /\ Q x s').
Proof. unfold wp. destruct (c s) as [[]|]; auto. Qed.

(** ** The value of a net *)

Section Nets.
Context (m : compiled_module).
Abbreviation value := (den (cm_expr_nodes m)).

Definition drives_now (vs : list logic_t) (a : continuous_assign) : bool :=
  (ca_guard_root a =? SIZE_MAX) || dns_eqb (normalize_z_to_x (value vs (ca_guard_root a))) sH.

(** The resolution of the assignments to [k] whose guards hold. *)
Definition drivers (vs : list logic_t) (k : Z) (l : list continuous_assign) : list logic_t :=
  map (fun a => value vs (ca_expr_root a)) (filter (fun a => (ca_lhs_signal a =? k) && drives_now vs a) l).
Definition net_value (vs : list logic_t) (k : Z) : logic_t := fold_left resolve_net_drivers (drivers vs k (cm_assigns m)) sZ.

(** One delta. *)
Definition step_nets (driven : list bool) (vs : list logic_t) : list logic_t :=
  imap (fun k v => if flag driven (Z.of_nat k) then net_value vs (Z.of_nat k) else v) vs.

(** A module of nets: no children, no blocks, every assignment is to a driven
    net. *)
Record leaf_ok (i : instance_state) : Prop := mk_leaf_ok {
  lf_mod : is_mod i = Some m;
  lf_children : is_children i = [];
  lf_combs : cm_always_combs m = [];
  lf_local : local_ok i;
  lf_driven : length (is_driven_nets i) = length (ms_values (is_state i));
  lf_nets : forall k, flag (is_driven_nets i) k -> flag (cm_signal_is_reg m) k = false;
  lf_assigns : Forall (fun a => flag (is_driven_nets i) (ca_lhs_signal a)) (cm_assigns m);
  lf_nba : ms_nba_queue (is_state i) = []
}.

(** The drivers collected by the loop over the assignments. *)
Definition collect (vs : list logic_t) (next : list logic_t) (a : continuous_assign) : list logic_t :=
  if drives_now vs a then vset next (ca_lhs_signal a) (resolve_net_drivers (default sZ (vat next (ca_lhs_signal a))) (value vs (ca_expr_root a)))
  else next.

Lemma flag_range l k : flag l k -> 0 <= k < vsize l.
Proof using Type. unfold flag. intros H. apply vat_is_Some. destruct (vat l k); [by eexists|done]. Qed.

Lemma collect_size vs next a : vsize (collect vs next a) = vsize next.
Proof using Type. unfold collect. destruct (drives_now vs a); [apply vsize_vset|done]. Qed.

Lemma collect_at vs l : forall next k, 0 <= k < vsize next ->
  vat (fold_left (collect vs) l next) k = Some (fold_left resolve_net_drivers (drivers vs k l) (default sZ (vat next k))).
Proof using Type.
  unfold drivers. induction l as [|a l IH]; intros next k Hk; cbn [fold_left filter map].
  { destruct (proj2 (vat_is_Some next k) Hk) as [v ->]. done. }
  rewrite IH by (by rewrite collect_size). unfold collect. rewrite filter_cons. destruct (drives_now vs a) eqn:Ed.
  - rewrite andb_true_r. destruct (ca_lhs_signal a =? k) eqn:Ek.
    + apply Z.eqb_eq in Ek. rewrite Ek. rewrite decide_True by done. by rewrite vat_vset by done.
    + apply Z.eqb_neq in Ek. rewrite decide_False by naive_solver. by rewrite vat_vset_ne by done.
  - rewrite andb_false_r, decide_False by naive_solver. done.
Qed.
End Nets.

(** ** One delta of a module of nets *)

Section Delta.
Context (m : compiled_module).

(** Everything of an instance but the caches and the marks. *)
Definition same_nets (i i' : instance_state) (next : list logic_t) : Prop :=
  ms_values (is_state i') = ms_values (is_state i) /\ ms_nba_queue (is_state i') = ms_nba_queue (is_state i) /\
  ms_next_net_values (is_state i') = next /\ is_driven_nets i' = is_driven_nets i /\ is_mod i' = is_mod i /\
  is_children i' = is_children i /\ local_ok i'.

Lemma eval_instance root i : is_mod i = Some m -> local_ok i -> 0 <= root ->
  wp (on_state (eval m root)) i (fun v i' => v = den (cm_expr_nodes m) (ms_values (is_state i)) root /\ same_nets i i' (ms_next_net_values (is_state i))).
Proof.
  intros Hm Hi Hr. pose proof (mo_nodes _ (lo_module _ Hi m Hm)) as Ha.
  pose proof (keeps_on_state _ (eval_keeps m (lo_module _ Hi m Hm) root Hr) i Hi) as Hk. unfold wp, on_state, eval in *.
  destruct (cached_agrees m root (is_state i) Ha Hr (sane_memo _ (lo_sane _ Hi))) as (c & t & E & _). rewrite E in *. destruct Hk as (Hk & _ & _).
  unfold same_nets. split_and!; done || exact Hk.
Qed.

Lemma guard_instance a i : is_mod i = Some m -> local_ok i -> 0 <= ca_guard_root a ->
  wp (on_state (guard_holds m a)) i (fun b i' => b = drives_now m (ms_values (is_state i)) a /\ same_nets i i' (ms_next_net_values (is_state i))).
Proof.
  intros Hm Hi Hr. unfold guard_holds, drives_now. destruct (ca_guard_root a =? SIZE_MAX).
  - unfold wp, on_state. simpl. destruct (local_with_state i (is_state i)) as [H1 _]; [done|apply Hi|done|done|]. unfold same_nets. split_and!; done || exact H1.
  - pose proof (eval_instance _ i Hm Hi Hr) as Hw. unfold wp, on_state, mbind, St_bind in *. destruct (eval m (ca_guard_root a) (is_state i)) as [[v st]|]; [|done].
    simpl in *. destruct Hw as [-> Hs]. done.
Qed.

Lemma run_assign_instance a i : is_mod i = Some m -> local_ok i -> (0 <= ca_lhs_signal a /\ 0 <= ca_expr_root a /\ 0 <= ca_guard_root a) ->
  flag (is_driven_nets i) (ca_lhs_signal a) -> flag (cm_signal_is_reg m) (ca_lhs_signal a) = false ->
  ca_lhs_signal a < vsize (ms_values (is_state i)) -> vsize (ms_values (is_state i)) <= vsize (ms_next_net_values (is_state i)) ->
  wp (run_assign m a) i (fun _ i' => same_nets i i' (collect m (ms_values (is_state i)) (ms_next_net_values (is_state i)) a)).
Proof.
  intros Hm Hi (H1 & H2 & H3) Hd Hreg Hl Hn. unfold run_assign. apply wp_bind. eapply wp_mono; [by apply guard_instance|].
  intros b i1 (-> & V1 & Q1 & N1 & D1 & M1 & C1 & L1). unfold collect. destruct (drives_now m _ a).
  - apply wp_bind. eapply wp_mono; [by apply eval_instance; [congruence|..]|]. intros v i2 (-> & V2 & Q2 & N2 & D2 & M2 & C2 & L2).
    pose proof (drive_keeps (ca_lhs_signal a) (den (cm_expr_nodes m) (ms_values (is_state i1)) (ca_expr_root a)) H1 i2 L2) as Hk.
    unfold wp, drive_signal_next in *. rewrite M2, M1, Hm in *. rewrite V2, V1 in *. rewrite (proj2 (Z.leb_gt _ _)) in * by done.
    rewrite D2, D1 in *. destruct (flag (is_driven_nets i) (ca_lhs_signal a)); [|done]. rewrite Hreg in *. cbn [orb negb] in *.
    rewrite N2, N1 in *. rewrite (proj2 (Z.ltb_ge _ _)) in * by done.
    destruct (proj2 (vat_is_Some (ms_next_net_values (is_state i)) (ca_lhs_signal a))) as [d Hd']; [lia|]. rewrite Hd' in *. destruct Hk as (Hk & _ & _).
    unfold same_nets. simpl. split_and!; congruence || exact Hk.
  - apply wp_ret. unfold same_nets. split_and!; congruence || exact L1.
Qed.

Lemma run_assigns_instance l : forall i, is_mod i = Some m -> local_ok i ->
  Forall (fun a => (0 <= ca_lhs_signal a /\ 0 <= ca_expr_root a /\ 0 <= ca_guard_root a) /\ flag (is_driven_nets i) (ca_lhs_signal a) /\
    flag (cm_signal_is_reg m) (ca_lhs_signal a) = false /\ ca_lhs_signal a < vsize (ms_values (is_state i))) l ->
  vsize (ms_values (is_state i)) <= vsize (ms_next_net_values (is_state i)) ->
  wp (seach (run_assign m) l) i (fun _ i' => same_nets i i' (fold_left (collect m (ms_values (is_state i))) l (ms_next_net_values (is_state i)))).
Proof.
  induction l as [|a l IH]; intros i Hm Hi Hl Hn; cbn [seach fold_left]; [apply wp_ret; by unfold same_nets; split_and!|].
  inversion Hl as [|? ? (H1 & H2 & H3 & H4) Hl']; subst. apply wp_bind. eapply wp_mono; [by apply run_assign_instance|].
  intros _ i1 (V1 & Q1 & N1 & D1 & M1 & C1 & L1). eapply wp_mono; [apply IH|].
  - congruence.
  - done.
  - by rewrite D1, V1.
  - by rewrite V1, N1, collect_size.
  - intros _ i2 (V2 & Q2 & N2 & D2 & M2 & C2 & L2). unfold same_nets. rewrite V1, N1 in N2. split_and!; congruence || exact L2.
Qed.

(** The loop of [apply_net_drives]. *)
Lemma apply_nets_spec driven next n : forall j st, sane st -> Z.of_nat (j + n) <= vsize (ms_values st) ->
  vsize (ms_values st) <= vsize next -> (forall k, flag driven k -> flag (cm_signal_is_reg m) k = false) ->
  wp (sor (fun k => apply_net m driven next (Z.of_nat k)) (seq j n)) st (fun _ st' => ms_nba_queue st' = ms_nba_queue st /\
    length (ms_values st') = length (ms_values st) /\ sane st' /\
    forall k v, ms_values st !! k = Some v ->
      ms_values st' !! k = Some (if (j <=? k)%nat && (k <? j + n)%nat && flag driven (Z.of_nat k) then default sX (next !! k) else v)).
Proof.
  induction n as [|n IH]; intros j st Hs Hj Hn Hd; cbn [seq sor].
  { apply wp_ret. split_and!; [done..|]. intros k v Hk. rewrite Hk. destruct (j <=? k)%nat eqn:E1; [|done].
    destruct (k <? j + 0)%nat eqn:E2; [|done]. apply Nat.leb_le in E1. apply Nat.ltb_lt in E2. lia. }
  apply wp_bind.
  assert (H1 : wp (apply_net m driven next (Z.of_nat j)) st (fun _ st1 => ms_nba_queue st1 = ms_nba_queue st /\ sane st1 /\
    length (ms_values st1) = length (ms_values st) /\
    forall k v, ms_values st !! k = Some v -> ms_values st1 !! k = Some (if (k =? j)%nat && flag driven (Z.of_nat k) then default sX (next !! k) else v))).
  { unfold apply_net. destruct (flag driven (Z.of_nat j)) eqn:Ef; cbn [negb].
    - rewrite Hd by (by rewrite Ef). assert (Hv : vat next (Z.of_nat j) = next !! j) by (rewrite vat_lookup, Nat2Z.id by lia; done).
      rewrite Hv. destruct (lookup_lt_is_Some_2 next j) as [x Hx]; [unfold vsize in *; lia|]. rewrite Hx.
      eapply wp_mono; [apply wp_and; [by apply (assign_visible (Z.of_nat j) x st); [lia|]|apply (assign_spec (Z.of_nat j) x st); lia]|].
      intros b st1 [[Hvis Hs1] (_ & _ & _ & _ & _ & [_ Hl1 _ _ _ _ _ _ _] & _)]. unfold visible in Hvis. injection Hvis as V1 Q1 X1. split_and!; [done|done|done|].
      intros k v Hk. rewrite V1. unfold vset, vsize in *. rewrite (proj2 (Z.leb_le _ _)), (proj2 (Z.ltb_lt _ _)), Nat2Z.id by lia. simpl.
      destruct (k =? j)%nat eqn:Ek.
      + apply Nat.eqb_eq in Ek as ->. rewrite list_lookup_insert_eq by lia. by rewrite Ef, Hx.
      + apply Nat.eqb_neq in Ek. by rewrite list_lookup_insert_ne.
    - apply wp_ret. split_and!; [done..|]. intros k v Hk. rewrite Hk. destruct (k =? j)%nat eqn:Ek; [|done]. apply Nat.eqb_eq in Ek as ->. by rewrite Ef. }
  eapply wp_mono; [exact H1|]. intros b st1 (Q1 & S1 & L1 & V1). apply wp_bind. eapply wp_mono; [apply (IH (S j) st1 S1)|].
  - unfold vsize in *. lia.
  - unfold vsize in *. lia.
  - done.
  - intros b' st2 (Q2 & L2 & S2 & V2). apply wp_ret. split_and!; [congruence|congruence|done|]. intros k v Hk. rewrite (V2 k _ (V1 k v Hk)). f_equal.
    destruct (decide (k = j)) as [->|Hne].
    + rewrite Nat.eqb_refl, Nat.leb_refl. replace (S j <=? j)%nat with false by (symmetry; apply Nat.leb_gt; lia).
      replace (j <? j + S n)%nat with true by (symmetry; apply Nat.ltb_lt; lia). done.
    + replace (k =? j)%nat with false by (symmetry; by apply Nat.eqb_neq). cbn [andb].
      replace (S j <=? k)%nat with (j <=? k)%nat by (destruct (decide (j <= k)%nat); [rewrite !(proj2 (Nat.leb_le _ _)) by lia; done|rewrite !(proj2 (Nat.leb_gt _ _)) by lia; done]).
      by replace (S j + n)%nat with (j + S n)%nat by lia.
Qed.

Lemma for_children_none f i : is_children i = [] -> for_children f i = Some (false, i).
Proof. unfold for_children. intros E. rewrite E. simpl. destruct i. simpl in *. by subst. Qed.

(** What [prepare_net_drives] leaves: the driven nets at high impedance. *)
Lemma prepare_spec i : leaf_ok m i -> wp prepare_net_drives i (fun _ i' => exists next, same_nets i i' next /\
  vsize (ms_values (is_state i)) <= vsize next /\ forall k, flag (is_driven_nets i) k -> vat next k = Some sZ).
Proof.
  intros H. pose proof (prepare_keeps i (lf_local _ _ H)) as Hk. unfold wp, prepare_net_drives in *. rewrite (lf_mod _ _ H) in *. cbv zeta in *.
  pose proof (lf_driven _ _ H) as Hd. set (n := vsize (ms_values (is_state i))) in *.
  assert (En : (vsize (is_driven_nets i) <? n) = false) by (apply Z.ltb_ge; unfold n, vsize; lia). rewrite En in *.
  set (next := if vsize (ms_next_net_values (is_state i)) <? n then _ else _) in *.
  assert (Hn : n <= vsize next).
  { subst next. destruct (_ <? n) eqn:E; [apply Z.ltb_lt in E; rewrite vsize_vgrow; lia|by apply Z.ltb_ge in E]. }
  clearbody next. destruct Hk as (Hk & _ & _). eexists. split; [unfold same_nets; split_and!; done || exact Hk|]. split.
  - simpl. unfold vsize in *. rewrite length_imap. exact Hn.
  - intros k Hf. pose proof (flag_range _ _ Hf) as Hr. unfold vsize in Hr. rewrite Hd in Hr. fold (vsize (ms_values (is_state i))) in Hr. simpl.
    rewrite vat_lookup by (unfold vsize; rewrite length_imap; unfold vsize in *; lia). rewrite list_lookup_imap, Z2Nat.id by lia.
    destruct (lookup_lt_is_Some_2 next (Z.to_nat k)) as [v ->]; [unfold vsize in *; lia|]. simpl. rewrite (proj2 (Z.ltb_lt _ _)) by (unfold n; lia).
    simpl. by destruct (flag (is_driven_nets i) k).
Qed.

Lemma nba_empty st : ms_nba_queue st = [] -> exists st', apply_nba st = Some (false, st') /\ ms_values st' = ms_values st /\ ms_nba_queue st' = [].
Proof. intros E. unfold apply_nba. rewrite E. simpl. by eexists. Qed.

Lemma leaf_same i i' : leaf_ok m i -> is_mod i' = is_mod i -> is_children i' = is_children i -> is_driven_nets i' = is_driven_nets i ->
  length (ms_values (is_state i')) = length (ms_values (is_state i)) -> local_ok i' -> ms_nba_queue (is_state i') = [] -> leaf_ok m i'.
Proof. intros [] E1 E2 E3 E4 HL HQ. split; try congruence. all: by rewrite E3. Qed.

Lemma apply_drives_spec i next : leaf_ok m i -> ms_next_net_values (is_state i) = next -> vsize (ms_values (is_state i)) <= vsize next ->
  wp apply_net_drives i (fun b i' => leaf_ok m i' /\ is_driven_nets i' = is_driven_nets i /\ (b = false -> ms_values (is_state i') = ms_values (is_state i)) /\
    ms_values (is_state i') = imap (fun k v => if flag (is_driven_nets i) (Z.of_nat k) then default sX (next !! k) else v) (ms_values (is_state i))).
Proof.
  intros H <- Hn. pose proof (apply_drives_keeps i (lf_local _ _ H)) as Hk.
  pose proof (apply_nets_spec (is_driven_nets i) (ms_next_net_values (is_state i)) (length (ms_values (is_state i))) 0 (is_state i)
    (lo_sane _ (lf_local _ _ H)) ltac:(unfold vsize; lia) Hn (lf_nets _ _ H)) as Hw.
  assert (Hg : good false (sor (fun k => apply_net m (is_driven_nets i) (ms_next_net_values (is_state i)) (Z.of_nat k)) (seq 0 (length (ms_values (is_state i)))))).
  { apply good_sor, Forall_forall. intros k Hin. apply elem_of_seq in Hin. unfold apply_net. destruct (negb _); [by apply good_ret|].
    destruct (flag (cm_signal_is_reg m) _); [by apply good_ret|].
    destruct (proj2 (vat_is_Some (ms_next_net_values (is_state i)) (Z.of_nat k))) as [v ->]; [unfold vsize in *; lia|]. apply good_assign. lia. }
  specialize (Hg (is_state i) (is_state i) (lo_sane _ (lf_local _ _ H)) (steps_refl _ _)).
  unfold wp, apply_net_drives in *. rewrite (lf_mod _ _ H) in *. pose proof (lf_driven _ _ H) as Hd.
  assert (E2 : (vsize (is_driven_nets i) <? vsize (ms_values (is_state i))) = false) by (apply Z.ltb_ge; unfold vsize; lia).
  rewrite (proj2 (Z.ltb_ge _ _)), E2 in * by done. cbn [orb] in *. unfold on_state in *.
  destruct (sor _ _ (is_state i)) as [[b st]|]; [|done]. destruct Hw as (Q & L & S & V), Hg as [_ [_ Vf]], Hk as (Hk & _ & _). split_and!; [|done|done|].
  - apply (leaf_same i); try done. simpl. rewrite Q. apply H.
  - simpl. apply list_eq. intros k. rewrite list_lookup_imap. destruct (ms_values (is_state i) !! k) as [v|] eqn:Ek.
    + rewrite (V k v Ek). simpl. do 2 f_equal. apply lookup_lt_Some in Ek. by rewrite (proj2 (Nat.ltb_lt _ _)) by done.
    + apply lookup_ge_None in Ek. rewrite lookup_ge_None_2; [done|lia].
Qed.

Lemma run_local_spec tick token any i next : leaf_ok m i -> ms_next_net_values (is_state i) = next -> vsize (ms_values (is_state i)) <= vsize next ->
  wp (run_comb_local tick token any) i (fun b i' => b = false /\
    same_nets i i' (fold_left (collect m (ms_values (is_state i))) (cm_assigns m) next)).
Proof.
  intros H <- Hn. unfold wp, run_comb_local. rewrite (lf_mod _ _ H), (lf_combs _ _ H).
  change (wp (changed ← on_state (mret false); _ ← seach (run_assign m) (cm_assigns m); mret changed) i (fun b i' => b = false /\
    same_nets i i' (fold_left (collect m (ms_values (is_state i))) (cm_assigns m) (ms_next_net_values (is_state i))))).
  apply wp_bind. unfold wp at 1, on_state. simpl. replace (with_state i (is_state i)) with i by (by destruct i). apply wp_bind.
  eapply wp_mono; [apply run_assigns_instance|].
  - apply H.
  - apply H.
  - pose proof (mo_assigns _ (lo_module _ (lf_local _ _ H) m (lf_mod _ _ H))) as Ha. pose proof (lf_assigns _ _ H) as Hf.
    rewrite Forall_forall in *. intros a Hin. split_and!; [apply Ha..| | |]; try done; [by apply Hf|by apply (lf_nets _ _ H), Hf|].
    pose proof (flag_range _ _ (Hf a Hin)) as Hr. unfold vsize in *. rewrite (lf_driven _ _ H) in Hr. lia.
  - done.
  - intros ? i' Hs. by apply wp_ret.
Qed.

(** One delta of a module of nets. *)
Lemma delta_spec resolve tick token any i : leaf_ok m i -> wp (comb_delta resolve tick token any) i (fun r i' =>
  leaf_ok m i' /\ is_driven_nets i' = is_driven_nets i /\ ms_values (is_state i') = step_nets m (is_driven_nets i) (ms_values (is_state i)) /\
  (r.1 = false -> ms_values (is_state i') = ms_values (is_state i))).
Proof.
  intros H. unfold comb_delta. apply wp_bind.
  assert (H1 : wp (on_state begin_change_epoch) i (fun _ i1 => leaf_ok m i1 /\ is_driven_nets i1 = is_driven_nets i /\ ms_values (is_state i1) = ms_values (is_state i))).
  { pose proof (keeps_on_state _ begin_epoch_keeps i (lf_local _ _ H)) as Hk. unfold wp, on_state, begin_change_epoch in *. cbv zeta in *.
    destruct Hk as (Hk & _ & _). split_and!; [|done|by destruct (_ =? 0)]. apply (leaf_same i); try done; destruct (_ =? 0); try done; apply H. }
  eapply wp_mono; [exact H1|]. intros rt i1 (L1 & D1 & V1). rewrite <- D1, <- V1. clear H H1 D1 V1 i. apply wp_bind.
  eapply wp_mono; [by apply prepare_spec|]. intros _ i2 (next & (V2 & Q2 & N2 & D2 & M2 & C2 & O2) & Hn & Hz). rewrite <- V2, <- D2 in *.
  assert (L2 : leaf_ok m i2) by (apply (leaf_same i1); try done; [by rewrite V2|rewrite Q2; apply L1]). clear L1 V2 D2 C2 M2 O2 Q2 i1.
  apply wp_bind. unfold wp at 1. rewrite for_children_none by apply L2. apply wp_bind. unfold wp at 1. rewrite for_children_none by apply L2.
  apply wp_bind. unfold wp at 1. rewrite for_children_none by apply L2. apply wp_bind. eapply wp_mono; [by apply (run_local_spec _ _ _ i2 next)|].
  intros b i3 (-> & V3 & Q3 & N3 & D3 & M3 & C3 & O3). set (next' := fold_left _ _ next) in *.
  assert (L3 : leaf_ok m i3) by (apply (leaf_same i2); try done; [by rewrite V3|rewrite Q3; apply L2]).
  assert (Hn' : vsize next' = vsize next).
  { subst next'. clear. generalize (cm_assigns m) as l. intros l. revert next. induction l as [|a l IH]; intros next; [done|]. simpl. by rewrite IH, collect_size. }
  apply wp_bind. eapply wp_mono; [apply (apply_drives_spec i3 next'); [done|done|rewrite V3; lia]|]. intros c4 i4 (L4 & D4 & F4 & V4). apply wp_bind.
  destruct (nba_empty _ (lf_nba _ _ L4)) as (st5 & E5 & V5 & Q5).
  pose proof (keeps_on_state _ (safe_keeps _ (safe_good _ good_apply_nba)) i4 (lf_local _ _ L4)) as Hk. unfold wp, on_state in Hk. unfold wp at 1, on_state. rewrite E5 in *.
  destruct Hk as (Hk & _ & _). apply wp_ret. cbn [fst orb]. simpl. split_and!.
  - apply (leaf_same i4); try done. simpl. by rewrite V5.
  - congruence.
  - rewrite V5, V4, D3, V3. unfold step_nets. apply list_eq. intros k. rewrite !list_lookup_imap.
    destruct (ms_values (is_state i2) !! k) as [v|] eqn:Ek; [|done]. simpl. f_equal. destruct (flag (is_driven_nets i2) (Z.of_nat k)) eqn:Ef; [|done].
    apply lookup_lt_Some in Ek. assert (Hk' : vat next' (Z.of_nat k) = next' !! k) by (rewrite vat_lookup, Nat2Z.id by (unfold vsize in *; lia); done).
    subst next'. rewrite collect_at in Hk' by (unfold vsize in *; lia). rewrite Hz in Hk' by (by rewrite Ef). by rewrite <- Hk'.
  - intros Hc. rewrite V5. rewrite F4, V3; [done|]. by destruct c4.
Qed.

(** ** Levels *)

(** The level of an expression: the largest level of a signal it reads. *)
Definition node_level (lev : Z -> nat) (look : Z -> nat) (n : expr_node) : nat :=
  match en_kind n with
  | ek_literal => 0
  | ek_signal => lev (en_signal n)
  | _ => Nat.max (look (en_a n)) (look (en_b n))
  end.
Definition level_in (l : list nat) (r : Z) : nat := default 0%nat (vat l r).
Definition node_levels (lev : Z -> nat) (nodes : list expr_node) : list nat :=
  fold_left (fun acc n => acc ++ [node_level lev (level_in acc) n]) nodes [].
Definition expr_level (lev : Z -> nat) (nodes : list expr_node) (r : Z) : nat := level_in (node_levels lev nodes) r.

(** Two valuations that agree on the signals up to a level. *)
Definition agree_upto (lev : Z -> nat) (n : nat) (vs vs' : list logic_t) : Prop := forall s, (lev s <= n)%nat -> read_signal vs s = read_signal vs' s.

Lemma node_levels_snoc lev nodes n : node_levels lev (nodes ++ [n]) = node_levels lev nodes ++ [node_level lev (expr_level lev nodes) n].
Proof. unfold node_levels, expr_level. by rewrite fold_left_app. Qed.
Lemma node_levels_length lev nodes : length (node_levels lev nodes) = length nodes.
Proof. induction nodes as [|n nodes IH] using rev_ind; [done|]. rewrite node_levels_snoc, !length_app, IH. done. Qed.

Lemma expr_level_app lev nodes n r : 0 <= r < vsize nodes -> expr_level lev (nodes ++ [n]) r = expr_level lev nodes r.
Proof.
  intros Hr. unfold expr_level at 1, level_in. rewrite node_levels_snoc, vat_app_l; [done|]. unfold vsize. rewrite node_levels_length. apply Hr.
Qed.
Lemma expr_level_last lev nodes n : expr_level lev (nodes ++ [n]) (vsize nodes) = node_level lev (expr_level lev nodes) n.
Proof.
  unfold expr_level at 1, level_in. rewrite node_levels_snoc. replace (vsize nodes) with (vsize (node_levels lev nodes)) by (unfold vsize; by rewrite node_levels_length).
  by rewrite vat_app_r.
Qed.

Lemma den_agree lev n vs vs' nodes : agree_upto lev n vs vs' -> forall r, (expr_level lev nodes r <= n)%nat -> den nodes vs r = den nodes vs' r.
Proof.
  intros Ha. induction nodes as [|nd nodes IH] using rev_ind; intros r Hl; [done|].
  destruct (decide (0 <= r < vsize nodes)) as [Hr|Hr].
  { rewrite !den_app by done. apply IH. by rewrite expr_level_app in Hl. }
  destruct (decide (r = vsize nodes)) as [->|Hne].
  - rewrite !den_snoc. rewrite expr_level_last in Hl. unfold node_value, node_level in *.
    destruct (en_kind nd); cbn [unary_op binary_op] in *; try done; try (by apply Ha);
      rewrite (IH (en_a nd)) by lia; try done; by rewrite (IH (en_b nd)) by lia.
  - assert (Ho : forall l, length l = length (nodes ++ [nd]) -> vat (A := logic_t) l r = None).
    { intros l El. apply vat_None. intros Hx. unfold vsize in *. rewrite El, length_app in Hx. simpl in Hx. lia. }
    unfold den, look_in. rewrite !Ho by apply node_values_length. done.
Qed.

(** Every assignment is to a level above what it reads. *)
Definition levelled (lev : Z -> nat) (driven : list bool) : Prop :=
  (forall s, flag driven s = false <-> lev s = 0%nat) /\
  Forall (fun a => (expr_level lev (cm_expr_nodes m) (ca_expr_root a) < lev (ca_lhs_signal a))%nat /\
                   (expr_level lev (cm_expr_nodes m) (ca_guard_root a) < lev (ca_lhs_signal a))%nat) (cm_assigns m) /\
  forall s, (lev s <= max_deltas)%nat.

Lemma net_value_agree lev driven n vs vs' k : levelled lev driven -> (lev k <= S n)%nat -> agree_upto lev n vs vs' -> net_value m vs k = net_value m vs' k.
Proof.
  intros (_ & Ha & _) Hk Hag. unfold net_value. f_equal. unfold drivers. revert Ha. generalize (cm_assigns m) as l. intros l Ha.
  induction Ha as [|a l [H1 H2] H IH]; [done|]. rewrite !filter_cons. destruct (ca_lhs_signal a =? k) eqn:E; [|by rewrite !decide_False by (by intros [])].
  apply Z.eqb_eq in E. rewrite E in H1, H2. assert (Ed : drives_now m vs a = drives_now m vs' a).
  { unfold drives_now. by rewrite (den_agree lev n vs vs') by (done || lia). }
  rewrite Ed. destruct (drives_now m vs' a); simpl andb.
  - rewrite !decide_True by done. cbn [map]. rewrite IH. f_equal. apply (den_agree lev n); [done|lia].
  - by rewrite !decide_False by (by intros []).
Qed.

Lemma step_length driven vs : length (step_nets m driven vs) = length vs.
Proof. apply length_imap. Qed.

Lemma step_at driven vs s : read_signal (step_nets m driven vs) s =
  if (0 <=? s) && (s <? vsize vs) && flag driven s then net_value m vs s else read_signal vs s.
Proof.
  unfold read_signal. destruct (decide (0 <= s < vsize vs)) as [Hs|Hs].
  - rewrite !vat_lookup by (unfold vsize in *; rewrite ?step_length; lia). unfold step_nets. rewrite list_lookup_imap, Z2Nat.id by lia.
    rewrite (proj2 (Z.leb_le _ _)), (proj2 (Z.ltb_lt _ _)) by lia. simpl. destruct (lookup_lt_is_Some_2 vs (Z.to_nat s)) as [v ->]; [unfold vsize in *; lia|].
    simpl. by destruct (flag driven s).
  - rewrite !(proj2 (vat_None _ _)); [|done|unfold vsize in *; rewrite step_length; lia].
    replace (_ && _) with false; [done|]. symmetry. rewrite !andb_false_iff, Z.leb_gt, Z.ltb_ge. lia.
Qed.

(** After [t] deltas the nets up to level [t] do not change any more. *)
Lemma steps_agree lev driven vs t : levelled lev driven ->
  agree_upto lev t (Nat.iter (S t) (step_nets m driven) vs) (Nat.iter t (step_nets m driven) vs).
Proof.
  intros Hl. induction t as [|t IH]; intros s Hs.
  - simpl. rewrite step_at. destruct (flag driven s) eqn:Ef; [|by rewrite andb_false_r]. assert (E0 : lev s = 0%nat) by lia.
    apply (proj1 Hl) in E0. congruence.
  - change (Nat.iter (S (S t)) (step_nets m driven) vs) with (step_nets m driven (Nat.iter (S t) (step_nets m driven) vs)).
    change (Nat.iter (S t) (step_nets m driven) vs) with (step_nets m driven (Nat.iter t (step_nets m driven) vs)) at 2.
    rewrite !step_at. assert (Ev : vsize (Nat.iter (S t) (step_nets m driven) vs) = vsize (Nat.iter t (step_nets m driven) vs)).
    { unfold vsize. simpl. by rewrite step_length. }
    rewrite Ev. destruct ((0 <=? s) && (s <? vsize (Nat.iter t (step_nets m driven) vs))) eqn:Er; cbn [andb].
    + destruct (flag driven s) eqn:Ef; [by apply (net_value_agree lev driven t)|]. apply IH. apply (proj1 Hl) in Ef. lia.
    + rewrite andb_false_iff, Z.leb_gt, Z.ltb_ge in Er. unfold read_signal. by rewrite !(proj2 (vat_None _ _)) by (rewrite ?Ev; lia).
Qed.

(** A valuation that agrees with the next one everywhere is a solution. *)
Lemma solution_of_agree driven vs : (forall s, read_signal (step_nets m driven vs) s = read_signal vs s) -> step_nets m driven vs = vs.
Proof.
  intros H. apply list_eq. intros k. specialize (H (Z.of_nat k)). unfold read_signal in H.
  destruct (decide (k < length vs)%nat) as [Hk|Hk].
  - rewrite !vat_lookup, !Nat2Z.id in H by (unfold vsize; rewrite ?step_length; lia).
    destruct (lookup_lt_is_Some_2 vs k Hk) as [x Hx]. destruct (lookup_lt_is_Some_2 (step_nets m driven vs) k) as [y Hy]; [by rewrite step_length|].
    rewrite Hx, Hy in *. simpl in H. by subst.
  - rewrite !lookup_ge_None_2; rewrite ?step_length; lia || done.
Qed.

(** The loop reaches a solution. *)
Lemma comb_loop_spec resolve tick iter : forall token any i, leaf_ok m i -> wp (comb_loop resolve tick iter token any) i (fun _ i' =>
  leaf_ok m i' /\ is_driven_nets i' = is_driven_nets i /\ exists t, (t <= iter)%nat /\
    ms_values (is_state i') = Nat.iter t (step_nets m (is_driven_nets i)) (ms_values (is_state i)) /\
    (t = iter \/ step_nets m (is_driven_nets i) (ms_values (is_state i')) = ms_values (is_state i'))).
Proof.
  induction iter as [|iter IH]; intros token any i Hi; cbn [comb_loop].
  { apply wp_ret. split_and!; [done|done|]. exists 0%nat. split_and!; [lia|done|by left]. }
  apply wp_bind. eapply wp_mono; [by apply delta_spec|]. intros [[|] rt] i1 (L1 & D1 & V1 & F1); simpl in F1.
  - apply wp_bind. unfold wp at 1, get. apply wp_bind. eapply wp_mono; [by apply IH|]. intros b i2 (L2 & D2 & t & Ht & V2 & E2). apply wp_ret.
    rewrite D1, V1 in *. split_and!; [done|done|]. exists (S t). rewrite Nat.iter_succ_r. split_and!; [lia|done|]. destruct E2; [left; lia|by right].
  - apply wp_ret. split_and!; [done|done|]. exists 0%nat. rewrite (F1 eq_refl) in *. split_and!; [lia|done|by right].
Qed.
End Delta.
