(* ===== verification/VRuntimeClaims.v ===== *)
(** * VRuntimeClaims: simulation steps

    A step returns on every tree of instances in order, keeps the tree and
    ends with the snapshots that the next step compares with; combinational
    nets end in agreement with their drivers.  The examples at the end record
    where the runtime does not do what its comments say. *)

From Stdlib Require Import ZArith Lia.
From stdpp Require Import base list gmap strings.
From S2P Require Import Prelude Logic4 VData VExpr VCache VStmt VStmtInv VStmtClaims VRuntime.
From S2P Require Import VRuntimeInv VSettle.

Open Scope Z_scope.

(** ** A whole step *)

(** The snapshots of every instance are its values. *)
Inductive snapshots (i : instance_state) : Prop := snapshots_intro :
  ms_prev_values (is_state i) = ms_values (is_state i) -> ms_comb_prev_values (is_state i) = ms_values (is_state i) ->
  Forall snapshots (is_children i) -> snapshots i.

Lemma update_prev_snapshots i : snapshots (update_prev_recursive i).
Proof.
  induction i as [i IH] using instance_ind'. destruct i as [? ? ? ? ? ? cs]. split; [done|done|]. simpl in *. induction IH; constructor; auto.
Qed.

Lemma update_prev_keeps i : tree_ok i -> tree_ok (update_prev_recursive i) /\ same_tree i (update_prev_recursive i).
Proof.
  induction i as [i IH] using instance_ind'. intros [L C]. destruct i as [md nm st dr bs ds cs]. simpl in *.
  set (st' := with_prev st (ms_values st) (ms_values st)).
  assert (L' : local_ok (mk_inst md nm st' dr bs ds (map update_prev_recursive cs))).
  { destruct L as [L1 L2 L3 L4 L5]. split; simpl in *; [done|done|by apply (sane_same st)|done|done]. }
  split; split; simpl; [done| |by repeat split|].
  - clear L L'. induction IH as [|c cs Hc H IHl]; constructor; inversion C; subst; [by apply Hc|by apply IHl].
  - clear L L'. induction IH as [|c cs Hc H IHl]; constructor; inversion C; subst; [by apply Hc|by apply IHl].
Qed.

Lemma simulate_ok top tick process_sequential : tree_ok top ->
  exists top', simulate top tick process_sequential = Some top' /\ tree_ok top' /\ same_tree top top' /\ snapshots top'.
Proof.
  intros Ht. unfold simulate.
  pose proof (tkeeps_bind (depth top) _ (fun _ => comb_resolve (depth top) tick) (sequential_pass_keeps tick process_sequential (depth top))
    (fun _ => comb_resolve_keeps tick (depth top)) top Ht (Nat.le_refl _)) as Hw.
  apply wp_result in Hw as (b & top1 & -> & T1 & E1). destruct (update_prev_keeps top1 T1) as [T2 E2]. eexists. split_and!; [done|done|by eapply same_tree_trans|].
  apply update_prev_snapshots.
Qed.

(** C4: a simulation step returns on every tree of instances in order, whatever
    its blocks, loops and nets do; the modules, ports and sizes stay, the tree
    is in order again, and the values are the snapshots for the next edges. *)
Theorem simulation_returns top tick process_sequential : tree_ok top ->
  exists top', simulate top tick process_sequential = Some top' /\ tree_ok top' /\ same_tree top top' /\ snapshots top'.
Proof. apply simulate_ok. Qed.

(** ** Combinational logic *)

Lemma step_undriven m driven vs k : flag driven k = false -> vat (step_nets m driven vs) k = vat vs k.
Proof.
  intros Hf. destruct (decide (0 <= k < vsize vs)) as [Hk|Hk].
  - rewrite !vat_lookup by (unfold vsize in *; rewrite ?step_length; lia). unfold step_nets. rewrite list_lookup_imap, Z2Nat.id by lia.
    destruct (vs !! Z.to_nat k); [|done]. simpl. by rewrite Hf.
  - rewrite !(proj2 (vat_None _ _)); unfold vsize in *; rewrite ?step_length; done.
Qed.

Lemma comb_start_leaf m i : leaf_ok m i -> wp (on_state comb_start) i (fun _ i' =>
  leaf_ok m i' /\ is_driven_nets i' = is_driven_nets i /\ ms_values (is_state i') = ms_values (is_state i)).
Proof.
  intros H. pose proof (keeps_on_state _ comb_start_keeps i (lf_local _ _ H)) as Hk. unfold wp, on_state, comb_start, begin_change_epoch in *. cbv zeta in *.
  assert (HQ := lf_nba _ _ H).
  destruct (vsize (ms_comb_prev_values (is_state i)) =? vsize (ms_values (is_state i))), (u32_wrap _ =? 0), (ms_comb_initialized _);
    destruct Hk as (Hk & _ & _); (split_and!; [by apply (leaf_same m i)|done|done]).
Qed.

(** C2: in a module of nets and guarded continuous assignments whose nets have
    levels, at most one for every delta, the resolution ends in a solution:
    every driven net has the resolution of the drivers whose guards hold,
    evaluated on the final values, and no other signal changes. *)
Theorem combinational_logic_settles m lev fuel tick i : leaf_ok m i -> levelled m lev (is_driven_nets i) -> (0 < fuel)%nat ->
  exists b i', comb_resolve fuel tick i = Some (b, i') /\ leaf_ok m i' /\
    (forall k, flag (is_driven_nets i) k -> vat (ms_values (is_state i')) k = Some (net_value m (ms_values (is_state i')) k)) /\
    (forall k, flag (is_driven_nets i) k = false -> vat (ms_values (is_state i')) k = vat (ms_values (is_state i)) k).
Proof.
  intros Hi Hl Hf. destruct fuel as [|fuel]; [lia|]. cbn [comb_resolve]. rewrite (lf_mod _ _ Hi).
  match goal with |- exists b i', ?c i = _ /\ _ => enough (Hw : wp c i (fun _ i' => leaf_ok m i' /\
    (forall k, flag (is_driven_nets i) k -> vat (ms_values (is_state i')) k = Some (net_value m (ms_values (is_state i')) k)) /\
    (forall k, flag (is_driven_nets i) k = false -> vat (ms_values (is_state i')) k = vat (ms_values (is_state i)) k))) by (by apply wp_result in Hw as (b & i' & E & H); exists b, i') end.
  apply wp_bind. eapply wp_mono; [by apply comb_start_leaf|]. intros [token any] i1 (L1 & D1 & V1). rewrite <- D1, <- V1 in *. clear Hi D1 V1 i.
  apply wp_bind. eapply wp_mono; [by apply comb_loop_spec|]. intros b i2 (L2 & D2 & t & Ht & V2 & E2).
  assert (Hsol : step_nets m (is_driven_nets i1) (ms_values (is_state i2)) = ms_values (is_state i2)).
  { destruct E2 as [Et|E2]; [|done]. apply solution_of_agree. intros s. rewrite V2.
    pose proof (proj2 (proj2 Hl) s) as Hs. rewrite <- Et in Hs. clear Et.
    pose proof (steps_agree m lev (is_driven_nets i1) (ms_values (is_state i1)) t Hl s Hs) as Ha. by rewrite Nat.iter_succ in Ha. }
  apply wp_bind. pose proof (keeps_on_state (fun st => Some (tt, with_prev st (ms_prev_values st) (ms_values st)))) as Hk.
  specialize (Hk ltac:(intros st Hs; split_and!; [by apply (sane_same st)|done|done]) i2 (lf_local _ _ L2)). unfold wp, on_state in Hk |- *. simpl in Hk |- *.
  destruct Hk as (Hk & _ & _). split_and!; [by apply (leaf_same m i2); try done; apply L2| |].
  - intros k Hd. pose proof (flag_range _ _ Hd) as Hr. rewrite <- D2 in Hr. unfold vsize in Hr. rewrite (lf_driven _ _ L2) in Hr.
    rewrite <- Hsol at 1. rewrite vat_lookup by (unfold vsize; rewrite step_length; lia). unfold step_nets. rewrite list_lookup_imap, Z2Nat.id by lia.
    destruct (lookup_lt_is_Some_2 (ms_values (is_state i2)) (Z.to_nat k)) as [v ->]; [lia|]. simpl. by destruct (flag (is_driven_nets i1) k).
  - intros k Hd. rewrite V2. clear -Hd. induction t as [|t IH]; [done|]. simpl. by rewrite step_undriven.
Qed.

(** ** Examples *)

(** A decidable form of the order of an arena. *)
Definition operand_okb (i c : Z) : bool := ((0 <=? c) && (c <? i)) || (c =? SIZE_MAX).
Definition node_okb (i : Z) (n : expr_node) : bool :=
  match unary_op (en_kind n), binary_op (en_kind n) with
  | None, None => true
  | Some _, None => operand_okb i (en_a n)
  | _, Some _ => operand_okb i (en_a n) && operand_okb i (en_b n)
  end.
Definition arena_okb (nodes : list expr_node) : bool :=
  (vsize nodes <=? SIZE_MAX) && forallb (fun '(i, n) => node_okb (Z.of_nat i) n) (zip (seq 0 (length nodes)) nodes).

Lemma operand_okb_ok i c : operand_okb i c = true -> operand_ok i c.
Proof. unfold operand_okb, operand_ok. rewrite orb_true_iff, andb_true_iff, Z.leb_le, Z.ltb_lt, Z.eqb_eq. done. Qed.

Lemma arena_okb_ok nodes : arena_okb nodes = true -> arena_ok nodes.
Proof.
  unfold arena_okb. rewrite andb_true_iff, Z.leb_le, forallb_forall. intros [Hs H]. split; [done|]. intros i n Hn. apply vat_Some in Hn as [Hi Hn].
  specialize (H (Z.to_nat i, n)). cbv beta iota in H. rewrite Z2Nat.id in H by lia.
  assert (Hin : In (Z.to_nat i, n) (zip (seq 0 (length nodes)) nodes)).
  { apply list_elem_of_In, (list_elem_of_lookup_2 _ (Z.to_nat i)). rewrite lookup_zip_with. unfold vsize in Hi. rewrite lookup_seq_lt by lia. by rewrite Hn. }
  specialize (H Hin). unfold node_okb in H. split.
  - intros Hk. apply operand_okb_ok. destruct (unary_op (en_kind n)), (binary_op (en_kind n)); try (by apply andb_true_iff in H as []); try done.
    by destruct Hk as [[]|[]].
  - intros Hk. apply operand_okb_ok. destruct (unary_op (en_kind n)), (binary_op (en_kind n)); try (by apply andb_true_iff in H as []); by destruct Hk.
Qed.

Definition plain_module (name : string) (signals : list string) (is_reg : list bool) (nodes : list expr_node) (assigns : list continuous_assign)
    (ffs : list always_ff) (initials : list initial_block) : compiled_module :=
  {| cm_name := name; cm_ports := []; cm_port_order := []; cm_port_decls := ∅; cm_vectors := ∅; cm_signal_names := signals;
     cm_signal_is_reg := is_reg; cm_signal_is_signed := []; cm_signal_is_const := []; cm_signal_is_const_foldable := [];
     cm_signal_const_value := []; cm_signal_index := ∅; cm_param_order := []; cm_param_default_values := ∅; cm_param_is_local := ∅; cm_expr_nodes := nodes;
     cm_assigns := assigns; cm_always_ffs := ffs; cm_always_combs := []; cm_initials := initials; cm_instances := []; cm_inline_counter := 0 |}.
Definition plain_instance (m : compiled_module) (vs : list logic_t) : instance_state :=
  init_driven_nets_from_assigns (mk_inst (Some m) (cm_name m) (with_values (init_state m) vs) [] [] [] []).
Definition assign_net (lhs root : Z) : continuous_assign := {| ca_lhs_signal := lhs; ca_expr_root := root; ca_guard_root := SIZE_MAX |}.

(** [assign y = ~w; assign w = a & b;]. *)
Definition nand_module : compiled_module :=
  plain_module "nand" ["a"; "b"; "w"; "y"] [false; false; false; false]
    [node_signal 0; node_signal 1; node_binary ek_binary_and 0 1; node_signal 2; node_unary ek_unary_not 3]
    [assign_net 3 4; assign_net 2 2] [] [].
Definition nand_instance : instance_state := plain_instance nand_module [sH; sL; sX; sX].
Definition nand_level (s : Z) : nat := if s =? 2 then 1 else if s =? 3 then 2 else 0.

Lemma nand_ok : leaf_ok nand_module nand_instance.
Proof.
  split; try reflexivity.
  - split; simpl.
    + intros m [= <-]. split; simpl; [apply arena_okb_ok; reflexivity|constructor|constructor|constructor| |constructor].
      repeat (constructor; [simpl; unfold SIZE_MAX; lia|]). constructor.
    + reflexivity.
    + split; [by apply (memo_inv_same (init_state nand_module)), init_memo_inv|constructor|constructor].
    + constructor.
    + constructor.
  - intros k _. unfold flag, vat. simpl. destruct (_ && _); [|done]. by destruct (Z.to_nat k) as [|[|[|[|?]]]].
  - repeat constructor.
Qed.

Lemma combinational_logic_settles_witness : exists b i', comb_resolve 1 0 nand_instance = Some (b, i') /\
  ms_values (is_state i') = [sH; sL; sL; sH] /\ vat (ms_values (is_state i')) 3 = Some (net_value nand_module (ms_values (is_state i')) 3).
Proof.
  destruct (combinational_logic_settles nand_module nand_level 1 0 nand_instance nand_ok) as (b & i' & E & _ & H1 & _).
  - split.
    + intros s. unfold flag, vat, nand_level. simpl.
      destruct (decide (s = 2)) as [->|H2]; [by split|]. destruct (decide (s = 3)) as [->|H3]; [by split|].
      rewrite (proj2 (Z.eqb_neq s 2)), (proj2 (Z.eqb_neq s 3)) by done. split; [done|]. intros _.
      match goal with |- context [if ?b then _ else _] => destruct b eqn:Er end; [|done]. apply andb_true_iff in Er as [E1 E2]. apply Z.leb_le in E1. apply Z.ltb_lt in E2.
      assert (s = 0 \/ s = 1) as [->| ->] by lia; reflexivity.
    + split; [repeat constructor; vm_compute; lia|]. intros s. unfold nand_level, max_deltas. destruct (s =? 2), (s =? 3); lia.
  - lia.
  - exists b, i'. split; [exact E|]. split; [|apply H1; exact Logic.I]. vm_compute in E. injection E as _ <-. reflexivity.
Defined.

Lemma simulation_returns_witness : exists top', simulate nand_instance 1 true = Some top' /\ snapshots top'.
Proof.
  destruct (simulation_returns nand_instance 1 true) as (top' & E & _ & _ & Hs).
  - split; [apply nand_ok|constructor].
  - exists top'. split; [exact E|exact Hs].
Defined.

(** The evaluation of the cached evaluator on the nets of [nand_module], after
    an evaluation with other values. *)
Lemma nand_operands : operands_present (cm_expr_nodes nand_module).
Proof.
  intros i n Hn. apply vat_Some in Hn as [Hi Hn]. unfold vsize in Hi. simpl in Hi.
  assert (i = 0 \/ i = 1 \/ i = 2 \/ i = 3 \/ i = 4) as [-> | [-> | [-> | [-> | ->]]]] by lia; injection Hn as <-;
    (split; [intros [H|H]|intros H]); simpl in *; try lia; by destruct H.
Qed.
Definition used_state : module_state :=
  match eval_expr_cached nand_module 2 (with_values (init_state nand_module) [sL; sL; sL; sL]) with
  | Some (_, st) => with_values st [sH; sH; sX; sX]
  | None => init_state nand_module
  end.
Lemma used_memo_inv : memo_inv used_state.
Proof.
  split_and!; [reflexivity|reflexivity|reflexivity|]. intros i k H. apply vat_Some in H as [Hi H].
  apply (list_elem_of_lookup_2 _ (Z.to_nat i)) in H. vm_compute in H. repeat (apply elem_of_cons in H as [->|H]; [done|]). by apply elem_of_nil in H.
Qed.

Lemma cached_evaluation_returns_witness : exists v st', eval_expr_cached nand_module 2 used_state = Some (v, st') /\ memo_inv st'.
Proof.
  destruct (cached_evaluation_returns nand_module 2 used_state) as (v & st' & E & _ & Hi).
  - intros i n Hn. destruct (vat_Some (cm_expr_nodes nand_module) i n) as [H _]. destruct (H Hn) as [_ Hl].
    apply (list_elem_of_lookup_2 _ (Z.to_nat i)) in Hl. vm_compute in Hl. repeat (apply elem_of_cons in Hl as [->|Hl]; [done|]). by apply elem_of_nil in Hl.
  - lia.
  - apply used_memo_inv.
  - exists v, st'. split; [exact E|exact Hi].
Defined.
Lemma cached_evaluation_agrees_witness : exists st', eval_expr_cached nand_module 2 used_state = Some (sH, st').
Proof.
  destruct (cached_evaluation_agrees nand_module 2 used_state) as (v & st' & E & _ & Ev).
  - vm_compute. discriminate.
  - apply nand_operands.
  - apply used_memo_inv.
  - split; [lia|reflexivity].
  - exists st'. rewrite E. vm_compute in Ev. injection Ev as <-. reflexivity.
Defined.

(** ** Where the runtime differs from its intent *)

Definition values_after (i : option instance_state) : option (list logic_t) :=
  match i with Some i => Some (ms_values (is_state i)) | None => None end.

(** [assign w = r; assign r = a;] with [r] a [reg]: the change of [r] is not
    reported, and the resolution ends with [w] different from [r]. *)
Definition reg_assign_module : compiled_module :=
  plain_module "stale" ["a"; "r"; "w"] [false; true; false] [node_signal 0; node_signal 1] [assign_net 2 1; assign_net 1 0] [] [].
Example reg_assign_is_stale :
  values_after (simulate (plain_instance reg_assign_module [sH; sL; sL]) 1 true) = Some [sH; sH; sL].
Proof. vm_compute. reflexivity. Qed.

Definition stmt_blocking (lhs root : Z) : stmt_node :=
  {| sn_k := sk_blocking_assign; sn_ck := ck_normal; sn_delay_ticks := 0; sn_lhs_signal := lhs; sn_expr_root := root;
     sn_lhs_signals := []; sn_rhs_roots := []; sn_stmts := []; sn_else_stmts := []; sn_case_expr_roots := [];
     sn_case_items := []; sn_init_stmt := SIZE_MAX; sn_step_stmt := SIZE_MAX; sn_body_stmt := SIZE_MAX |}.
Definition stmt_if (cond : Z) (stmts : list Z) : stmt_node :=
  {| sn_k := sk_if_stmt; sn_ck := ck_normal; sn_delay_ticks := 0; sn_lhs_signal := SIZE_MAX; sn_expr_root := cond;
     sn_lhs_signals := []; sn_rhs_roots := []; sn_stmts := stmts; sn_else_stmts := []; sn_case_expr_roots := [];
     sn_case_items := []; sn_init_stmt := SIZE_MAX; sn_step_stmt := SIZE_MAX; sn_body_stmt := SIZE_MAX |}.

(** [initial begin a = 0; if(1) a = 1; end]: the first assignment is scheduled
    before the [if] is met, the whole block is executed, and then the scheduled
    assignment runs again. *)
Definition initial_module : compiled_module :=
  plain_module "init" ["a"] [true] [node_literal sL; node_literal sH] [] []
    [{| ib_stmt_nodes := [stmt_blocking 0 0; stmt_blocking 0 1; stmt_if 1 [1]; block [0; 2]]; ib_roots := [3] |}].
Example initial_assignment_runs_twice :
  values_after (simulate (plain_instance initial_module [sX]) 1 true) = Some [sL].
Proof. vm_compute. reflexivity. Qed.

(** [assign clk2 = clk; always @(posedge clk2) q <= 1;]: the edge of a net
    that the resolution makes is not seen by the next step. *)
Definition derived_clock_module : compiled_module :=
  plain_module "derived" ["clk"; "clk2"; "q"] [false; false; true] [node_signal 0; node_literal sH] [assign_net 1 0]
    [{| ff_events := [{| se_k := ev_posedge; se_signal := 1 |}]; ff_stmt_nodes := [nonblocking 2 1]; ff_roots := [0] |}] [].
Definition set_clock (v : logic_t) (i : instance_state) : instance_state :=
  with_state i (with_values (is_state i) (vset (ms_values (is_state i)) 0 v)).
Definition clock_step (i : option instance_state) (p : Z * logic_t) : option instance_state :=
  match i with Some i => simulate (set_clock p.2 i) p.1 true | None => None end.
Example derived_clock_is_not_seen :
  values_after (fold_left clock_step [(1, sL); (2, sH); (3, sH); (4, sL); (5, sH)] (Some (plain_instance derived_clock_module [sL; sL; sL]))) =
  Some [sH; sH; sL].
Proof. vm_compute. reflexivity. Qed.
