(* ===== verification/VElab.v ===== *)
(** * VElab: elaboration of a design

    [build_design], [find_module], [fill_bindings], [elaborate_children] and
    [elaborate] of [verilog/digital/digital.h]: the tree of instances of a
    module, the bindings of their ports and the nets they drive. *)

From Stdlib Require Import ZArith Lia.
From stdpp Require Import base list gmap strings.
From S2P Require Import Prelude Logic4 VData VExpr VCache VStmt VStmtInv VRuntime.
From S2P Require Import VRuntimeInv VRuntimeClaims.

Open Scope Z_scope.

Record compiled_design : Type := mk_design {
  cd_modules : list compiled_module;
  cd_module_index : gmap string Z
}.

(** The first module of a name is the one that is found. *)
Definition build_design (modules : list compiled_module) : compiled_design :=
  {| cd_modules := modules;
     cd_module_index :=
       fold_left (fun idx '(i, m) => match idx !! cm_name m with None => <[cm_name m := Z.of_nat i]> idx | Some _ => idx end)
         (imap pair modules) (∅ : gmap string Z) |}.

Definition find_module (d : compiled_design) (name : string) : option compiled_module :=
  match cd_module_index d !! name with Some i => vat (cd_modules d) i | None => None end.

(** ** Ports *)

Definition make_parent_signal (sig : Z) : port_binding :=
  {| pb_k := bk_parent_signal; pb_parent_signal := sig; pb_parent_expr_root := SIZE_MAX; pb_literal := sL |}.
Definition make_binding_literal (v : logic_t) : port_binding :=
  {| pb_k := bk_literal; pb_parent_signal := SIZE_MAX; pb_parent_expr_root := SIZE_MAX; pb_literal := v |}.
Definition make_expr_root (root : Z) : port_binding :=
  {| pb_k := bk_parent_expr_root; pb_parent_signal := SIZE_MAX; pb_parent_expr_root := root; pb_literal := sL |}.

(** The bits of a connection and whether they are signed. *)
Definition connection_bits (pm : compiled_module) (ref : connection_ref) : list port_binding * bool :=
  match cr_kind ref with
  | cn_unconnected => ([], cr_is_signed ref)
  | cn_scalar sig =>
      if sig =? SIZE_MAX then ([], cr_is_signed ref) else ([make_parent_signal sig], flag (cm_signal_is_signed pm) sig)
  | cn_vector base =>
      match cm_vectors pm !! base with
      | None => ([], cr_is_signed ref)
      | Some vd => (map make_parent_signal (vd_bits vd), vd_is_signed vd)
      end
  | cn_literal v => ([make_binding_literal v], cr_is_signed ref)
  | cn_literal_vector l => (map make_binding_literal l, cr_is_signed ref)
  | cn_bit_list l => (map (fun b => if cb_is_literal b then make_binding_literal (cb_literal b) else make_parent_signal (cb_signal b)) l, cr_is_signed ref)
  | cn_expr roots => (map make_expr_root roots, cr_is_signed ref)
  end.

(** [resize_bits] and [resize_rhs]: [x] stands for a bit that is not
    connected, [zero] fills an extension. *)
Definition resize_port {A} (x zero : A) (src : list A) (w : nat) (sign_extend : bool) : list A :=
  if (w =? 0)%nat then []
  else match src with
       | [] => replicate w x
       | s0 :: _ =>
           if (w =? 1)%nat then [List.last src x]
           else if (length src =? w)%nat then src
           else if (w <? length src)%nat then drop (length src - w) src
           else replicate (w - length src) (if sign_extend then s0 else zero) ++ src
       end.

Definition connection_dest_bits (pm : compiled_module) (ref : connection_ref) : list Z :=
  match cr_kind ref with
  | cn_scalar sig => if sig =? SIZE_MAX then [] else [sig]
  | cn_vector base => match cm_vectors pm !! base with Some vd => vd_bits vd | None => [] end
  | cn_bit_list l => map (fun b => if cb_is_literal b then SIZE_MAX else cb_signal b) l
  | _ => []
  end.

Record rhs_bit : Type := mk_rhs { rb_is_literal : bool; rb_child_signal : Z; rb_literal : logic_t }.
Definition rhs_literal (v : logic_t) : rhs_bit := {| rb_is_literal := true; rb_child_signal := SIZE_MAX; rb_literal := v |}.
Definition rhs_signal (s : Z) : rhs_bit := {| rb_is_literal := false; rb_child_signal := s; rb_literal := sL |}.

(** The drives of one port: the destinations and the bits of the child. *)
Definition port_drives (dst : list Z) (rhs : list rhs_bit) : list port_drive :=
  omap (fun '(d, s) =>
    if d =? SIZE_MAX then None
    else if negb (rb_is_literal s) && (rb_child_signal s =? SIZE_MAX) then None
    else Some {| pv_parent_signal := d; pv_src_is_literal := rb_is_literal s; pv_child_signal := rb_child_signal s; pv_literal := rb_literal s |})
    (zip dst rhs).

(** The width of a port.  The source computes it in [int].  The expansion of the
    ports at the end of [compile_module] has declared a vector for the same
    bounds, with the same subtraction and increment ([vector_width] of [VNames],
    [None] when they overflow), so that for a module that was compiled without
    undefined behaviour and without a redeclared range the bounds are such that
    the arithmetic of [int] and the one of [Z] agree; the overflow of other
    bounds is not modelled here. *)
Definition port_width (pd : port_decl) : nat :=
  if pdl_has_range pd then Z.to_nat (if 0 <=? pdl_msb pd - pdl_lsb pd then pdl_msb pd - pdl_lsb pd + 1 else pdl_lsb pd - pdl_msb pd + 1) else 1.

Definition is_input (d : port_dir) : bool := match d with pd_unknown | pd_input | pd_inout => true | pd_output => false end.
Definition is_output (d : port_dir) : bool := match d with pd_output | pd_inout => true | _ => false end.

(** [bindings[offset + pos] = resized[pos]], as far as the vector goes. *)
Fixpoint write_bindings (bindings : list port_binding) (offset : nat) (resized : list port_binding) : list port_binding :=
  match resized with
  | [] => bindings
  | b :: resized' => write_bindings (<[offset := b]> bindings) (S offset) resized'
  end.

Definition named_connections (cs : list instance_connection) : gmap string connection_ref :=
  fold_left (fun named c => if decide (ic_port_name c = EmptyString) then named else <[ic_port_name c := ic_ref c]> named) cs ∅.
Definition any_named (cs : list instance_connection) : bool := existsb (fun c => negb (bool_decide (ic_port_name c = EmptyString))) cs.

(** The connection of the [k]-th port of the order. *)
Definition port_connection (idef : instance) (k : nat) (base : string) : connection_ref :=
  if any_named (in_connections idef) then default connection_ref_default (named_connections (in_connections idef) !! base)
  else match in_connections idef !! k with Some c => ic_ref c | None => connection_ref_default end.

Definition fill_port (pm cm : compiled_module) (ref : connection_ref) (pd : port_decl) (offset : nat)
    (s : list port_binding * list port_drive) : list port_binding * list port_drive :=
  let w := port_width pd in
  let bindings :=
    if is_input (pdl_dir pd) then
      let '(src, signed_src) := connection_bits pm ref in
      write_bindings s.1 offset (resize_port port_binding_default (make_binding_literal sL) src w signed_src)
    else s.1 in
  let drives :=
    if is_output (pdl_dir pd) then
      let dst := connection_dest_bits pm ref in
      if negb (length dst =? 0)%nat && (offset + w <=? length (cm_ports cm))%nat then
        s.2 ++ port_drives dst (resize_port (rhs_literal sX) (rhs_literal sL)
                 (map (fun p => rhs_signal (po_signal p)) (take w (drop offset (cm_ports cm)))) (length dst) (pdl_is_signed pd))
      else s.2
    else s.2 in
  (bindings, drives).

Fixpoint fill_loop (pm cm : compiled_module) (idef : instance) (k offset : nat) (order : list string)
    (s : list port_binding * list port_drive) : list port_binding * list port_drive :=
  match order with
  | [] => s
  | base :: order' =>
      let pd := default port_decl_default (cm_port_decls cm !! base) in
      fill_loop pm cm idef (S k) (offset + port_width pd) order' (fill_port pm cm (port_connection idef k base) pd offset s)
  end.

Definition fill_bindings (pm cm : compiled_module) (idef : instance) (bindings : list port_binding) : list port_binding * list port_drive :=
  fill_loop pm cm idef 0 0 (cm_port_order cm) (bindings, []).

(** ** Parameters *)

(** [apply_param_value]: the 32 bits of a parameter, least significant first. *)
Definition apply_param_value (cm : compiled_module) (st : module_state) (pname : string) (value : Z) : module_state :=
  match cm_vectors cm !! pname with
  | None => st
  | Some vd =>
      if negb (length (vd_bits vd) =? 32)%nat then st
      else
        fold_left (fun st '(k, sig) =>
            if vsize (ms_values st) <=? sig then st
            else
              let lv := dns_of_bool (Z.testbit value (Z.of_nat k)) in
              with_prev (with_values st (vset (ms_values st) sig lv)) (vset (ms_prev_values st) sig lv) (ms_comb_prev_values st))
          (imap pair (rev (vd_bits vd))) st
  end.

Definition is_local_param (cm : compiled_module) (pname : string) : bool := default false (cm_param_is_local cm !! pname).
Definition override (cm : compiled_module) (st : module_state) (p : string * Z) : module_state :=
  if is_local_param cm p.1 then st else apply_param_value cm st p.1 p.2.

Definition apply_overrides (cm : compiled_module) (idef : instance) (st : module_state) : module_state :=
  fold_left (override cm) (in_param_named_values idef)
    (fold_left (override cm) (zip (cm_param_order cm) (in_param_positional_values idef)) st).

(** ** The tree *)

Definition mark_driven (pm : compiled_module) (driven : list bool) (d : port_drive) : list bool :=
  if pv_parent_signal d =? SIZE_MAX then driven
  else if flag (cm_signal_is_reg pm) (pv_parent_signal d) then driven
  else vset driven (pv_parent_signal d) true.

(** The child of one instantiation, without children of its own. *)
Definition make_child (pm cm : compiled_module) (idef : instance) : instance_state :=
  let child := init_driven_nets_from_assigns (mk_inst (Some cm) (in_instance_name idef) (init_state cm) [] [] [] []) in
  let st := apply_overrides cm idef (is_state child) in
  let '(bindings, drives) := fill_bindings pm cm idef (replicate (length (cm_ports cm)) port_binding_default) in
  mk_inst (is_mod child) (is_instance_name child) st (is_driven_nets child) bindings drives [].

(** [depth] counts up to 64; the fuel is what is left of it. *)
Fixpoint elaborate_children (fuel : nat) (d : compiled_design) (parent : instance_state) : instance_state :=
  match fuel with
  | O => parent
  | S fuel' =>
      match is_mod parent with
      | None => parent
      | Some pm =>
          fold_left (fun parent idef =>
              match find_module d (in_module_name idef) with
              | None => parent
              | Some cm =>
                  let child := make_child pm cm idef in
                  let parent1 := if (length (is_driven_nets parent) =? 0)%nat then init_driven_nets_from_assigns parent else parent in
                  let driven := fold_left (mark_driven pm) (is_output_drives child) (is_driven_nets parent1) in
                  with_children (with_driven parent1 driven) (is_children parent1 ++ [elaborate_children fuel' d child])
              end)
            (cm_instances pm) parent
      end
  end.

Definition max_depth : nat := 65.

Definition elaborate (d : compiled_design) (top : compiled_module) : instance_state :=
  elaborate_children max_depth d
    (init_driven_nets_from_assigns (mk_inst (Some top) (cm_name top) (init_state top) [] [] [] [])).

(** ** Elaborated designs are in order

    What [elaborate] builds satisfies the invariant of the runtime, so every
    sequence of steps of an elaborated design returns; every net that an
    assignment or a child drives is marked as driven; names are resolved to
    the first module, and the bits of a port are aligned at the least
    significant one. *)

Open Scope Z_scope.

(** ** Designs in order *)

(** The indices in connections are those of [size_t]. *)
Definition ref_ok (r : connection_ref) : Prop :=
  match cr_kind r with
  | cn_scalar s => 0 <= s
  | cn_bit_list l => Forall (fun b => 0 <= cb_signal b) l
  | cn_expr roots => Forall (Z.le 0) roots
  | _ => True
  end.
Record links_ok (m : compiled_module) : Prop := mk_links_ok {
  li_vectors : forall nm vd, cm_vectors m !! nm = Some vd -> Forall (Z.le 0) (vd_bits vd);
  li_instances : Forall (fun idef => Forall (fun c => ref_ok (ic_ref c)) (in_connections idef)) (cm_instances m)
}.
Definition design_ok (d : compiled_design) : Prop := Forall (fun m => module_ok m /\ links_ok m) (cd_modules d).

Lemma find_module_ok d nm m : design_ok d -> find_module d nm = Some m -> module_ok m /\ links_ok m.
Proof.
  unfold find_module, design_ok. intros H E. destruct (cd_module_index d !! nm) as [i|]; [|done]. apply vat_Some in E as [_ E].
  by apply (Forall_lookup_1 _ _ _ _ H E).
Qed.

(** ** Bindings and drives *)

Lemma resize_port_Forall {A} (P : A -> Prop) x z src w sg : P x -> P z -> Forall P src -> Forall P (resize_port x z src w sg).
Proof.
  intros Hx Hz Hs. unfold resize_port. destruct (w =? 0)%nat; [constructor|]. destruct src as [|s0 src]; [by apply Forall_replicate|].
  inversion Hs; subst. destruct (w =? 1)%nat.
  { constructor; [|constructor]. apply Forall_forall with (s0 :: src); [done|]. apply list_elem_of_In. rewrite (app_removelast_last x (l := s0 :: src)) at 2 by done. apply in_or_app. right. by left. }
  destruct (_ =? w)%nat; [done|]. destruct (w <? _)%nat; [by apply Forall_drop|]. apply Forall_app. split; [|done]. apply Forall_replicate. by destruct sg.
Qed.

Definition binding_ok (b : port_binding) : Prop := 0 <= pb_parent_expr_root b.
Lemma connection_bits_ok pm r : ref_ok r -> Forall binding_ok (connection_bits pm r).1.
Proof.
  unfold connection_bits, ref_ok. destruct (cr_kind r) as [|s|b|v|l|l|roots]; intros H; simpl; try constructor; try done.
  - destruct (_ =? _); [constructor|]. constructor; [done|constructor].
  - destruct (cm_vectors pm !! b); [|constructor]. apply Forall_map, Forall_true. done.
  - apply Forall_map, Forall_true. done.
  - apply Forall_map, Forall_true. intros x. by destruct (cb_is_literal x).
  - apply Forall_map. eapply Forall_impl; [exact H|]. done.
Qed.

Lemma write_bindings_ok bs off l : Forall binding_ok bs -> Forall binding_ok l -> Forall binding_ok (write_bindings bs off l).
Proof.
  intros Hb Hl. revert bs off Hb. induction Hl as [|b l Hbk Hl IH]; intros bs off Hb; [done|]. simpl. apply IH. by apply Forall_insert.
Qed.

Definition drive_ok (d : port_drive) : Prop := 0 <= pv_parent_signal d /\ 0 <= pv_child_signal d.
Lemma port_drives_ok dst rhs : Forall (Z.le 0) dst -> Forall (fun b => 0 <= rb_child_signal b) rhs -> Forall drive_ok (port_drives dst rhs).
Proof.
  intros Hd. unfold port_drives. revert rhs. induction Hd as [|x dst Hx Hd IH]; intros rhs Hr; [by constructor|]. destruct Hr as [|b rhs Hb Hr]; [constructor|].
  cbn [zip zip_with omap list_omap]. specialize (IH rhs Hr). destruct (x =? SIZE_MAX); [exact IH|]. destruct (_ && _); [exact IH|]. by constructor.
Qed.

Lemma dest_ok pm r : links_ok pm -> ref_ok r -> Forall (Z.le 0) (connection_dest_bits pm r).
Proof.
  intros Hp H. unfold connection_dest_bits, ref_ok in *. destruct (cr_kind r) as [|s|b|v|l|l|roots]; try constructor.
  - destruct (_ =? _); by constructor.
  - destruct (cm_vectors pm !! b) as [vd|] eqn:E; [|constructor]. by apply (li_vectors _ Hp b).
  - apply Forall_map. eapply Forall_impl; [exact H|]. intros x Hx. simpl. by destruct (cb_is_literal x).
Qed.

Lemma port_connection_ok idef k base : Forall (fun c => ref_ok (ic_ref c)) (in_connections idef) -> ref_ok (port_connection idef k base).
Proof.
  intros H. unfold port_connection. destruct (any_named _).
  - enough (Hn : forall r, named_connections (in_connections idef) !! base = Some r -> ref_ok r) by (destruct (_ !! base) eqn:E; [by apply Hn|done]).
    unfold named_connections. assert (Hg : forall r, (∅ : gmap string connection_ref) !! base = Some r -> ref_ok r) by done. revert Hg.
    generalize (∅ : gmap string connection_ref) as g. induction H as [|c cs Hc H IH]; intros g Hg; [done|]. simpl. apply IH. intros r.
    destruct (decide _); [apply Hg|]. rewrite lookup_insert_Some. intros [[_ <-]|[_ Hr]]; [done|by apply Hg].
  - destruct (in_connections idef !! k) eqn:E; [|done]. by apply (Forall_lookup_1 _ _ _ _ H E).
Qed.

Lemma fill_port_ok pm cm ref pd off s : links_ok pm -> module_ok cm -> ref_ok ref ->
  Forall binding_ok s.1 /\ Forall drive_ok s.2 -> Forall binding_ok (fill_port pm cm ref pd off s).1 /\ Forall drive_ok (fill_port pm cm ref pd off s).2.
Proof.
  intros Hp Hm Hr [H1 H2]. unfold fill_port. simpl. split.
  - destruct (is_input _); [|done]. pose proof (connection_bits_ok pm ref Hr) as Hc. destruct (connection_bits pm ref) as [src sg]. simpl in Hc.
    apply write_bindings_ok; [done|]. by apply resize_port_Forall.
  - destruct (is_output _); [|done]. destruct (_ && _); [|done]. apply Forall_app. split; [done|]. apply port_drives_ok; [by apply dest_ok|].
    apply resize_port_Forall; [done|done|]. apply Forall_map. apply Forall_take, Forall_drop. eapply Forall_impl; [apply Hm|]. done.
Qed.

Lemma fill_loop_ok pm cm idef order : links_ok pm -> module_ok cm -> Forall (fun c => ref_ok (ic_ref c)) (in_connections idef) ->
  forall k off s, Forall binding_ok s.1 /\ Forall drive_ok s.2 ->
  Forall binding_ok (fill_loop pm cm idef k off order s).1 /\ Forall drive_ok (fill_loop pm cm idef k off order s).2.
Proof.
  intros Hp Hm Hc. induction order as [|base order IH]; intros k off s H; [done|]. cbn [fill_loop]. apply IH.
  apply fill_port_ok; [done|done|by apply port_connection_ok|done].
Qed.

(** ** The state of a child *)

Lemma init_values_length m : length (ms_values (init_state m)) = length (cm_signal_names m).
Proof. simpl. by rewrite init_consts_length, length_replicate. Qed.
Lemma init_sane m : sane (init_state m).
Proof. split; [apply init_memo_inv|constructor|constructor]. Qed.

(** What an override keeps. *)
Definition same_kind (st st' : module_state) : Prop := (sane st -> sane st') /\ ms_mod st' = ms_mod st /\ length (ms_values st') = length (ms_values st).
#[export] Instance same_kind_preorder : PreOrder same_kind.
Proof. split; [by intros st; unfold same_kind; split_and!|]. intros a b c (?&?&?) (?&?&?). unfold same_kind. split_and!; [auto|congruence|congruence]. Qed.

Lemma fold_same_kind {A} (f : module_state -> A -> module_state) l : (forall st x, same_kind st (f st x)) -> forall st, same_kind st (fold_left f l st).
Proof. intros H. induction l as [|x l IH]; intros st; [reflexivity|]. simpl. etrans; [apply H|apply IH]. Qed.

Lemma apply_param_kind cm st nm v : same_kind st (apply_param_value cm st nm v).
Proof.
  unfold apply_param_value. destruct (cm_vectors cm !! nm); [|reflexivity]. destruct (negb _); [reflexivity|]. apply fold_same_kind. intros st' [k sig].
  destruct (_ <=? _); [reflexivity|]. split_and!; [intros H; by apply (sane_same st')|done|]. simpl. pose proof (vsize_vset (ms_values st') sig). unfold vsize in *.
  specialize (H (dns_of_bool (Z.testbit v (Z.of_nat k)))). lia.
Qed.
Lemma overrides_kind cm idef st : same_kind st (apply_overrides cm idef st).
Proof.
  unfold apply_overrides. etrans; [|apply fold_same_kind]; [apply fold_same_kind|]; intros st' p; unfold override; destruct (is_local_param _ _); try reflexivity;
    apply apply_param_kind.
Qed.

(** ** The tree *)

(** Every net with a driver is marked, and only nets are. *)
Record marks_ok (i : instance_state) : Prop := mk_marks_ok {
  mk_length : forall m, is_mod i = Some m -> length (is_driven_nets i) = length (cm_signal_names m) /\ length (ms_values (is_state i)) = length (cm_signal_names m);
  mk_nets : forall m k, is_mod i = Some m -> flag (is_driven_nets i) k -> flag (cm_signal_is_reg m) k = false;
  mk_assigns : forall m, is_mod i = Some m -> Forall (fun a => 0 <= ca_lhs_signal a < Z.of_nat (length (cm_signal_names m)) ->
    flag (cm_signal_is_reg m) (ca_lhs_signal a) = false -> flag (is_driven_nets i) (ca_lhs_signal a)) (cm_assigns m);
  mk_drives : forall m, is_mod i = Some m -> Forall (fun c => Forall (fun d => pv_parent_signal d < Z.of_nat (length (cm_signal_names m)) ->
    flag (cm_signal_is_reg m) (pv_parent_signal d) = false -> flag (is_driven_nets i) (pv_parent_signal d)) (is_output_drives c)) (is_children i)
}.
Inductive marked (i : instance_state) : Prop := marked_intro : marks_ok i -> Forall marked (is_children i) -> marked i.

Lemma flag_vset l k j : flag (vset l k true) j = if (j =? k) && (0 <=? k) && (k <? vsize l) then true else flag l j.
Proof.
  unfold flag. destruct (decide (j = k)) as [->|Hne].
  - rewrite Z.eqb_refl. cbn [andb]. destruct ((0 <=? k) && (k <? vsize l)) eqn:E.
    + rewrite andb_true_iff, Z.leb_le, Z.ltb_lt in E. by rewrite vat_vset by lia.
    + unfold vset. unfold vsize in E. by rewrite E.
  - rewrite (proj2 (Z.eqb_neq _ _)) by done. cbn [andb]. by rewrite vat_vset_ne by done.
Qed.

(** Marking keeps the earlier marks and their number. *)
Definition marks_more (m : compiled_module) (l l' : list bool) : Prop :=
  length l' = length l /\ (forall k, flag l k -> flag l' k) /\ (forall k, flag l' k -> flag l k \/ flag (cm_signal_is_reg m) k = false).
#[export] Instance marks_more_preorder m : PreOrder (marks_more m).
Proof.
  split; [intros l; unfold marks_more; split_and!; auto|]. intros a b c (L1 & K1 & N1) (L2 & K2 & N2). split_and!; [congruence|auto|]. intros k Hk. destruct (N2 k Hk); auto.
Qed.
Lemma vset_marks m l k : flag (cm_signal_is_reg m) k = false -> marks_more m l (vset l k true).
Proof.
  intros Hr. split_and!.
  - pose proof (vsize_vset l k true). unfold vsize in *. lia.
  - intros j Hj. rewrite flag_vset. by destruct (_ && _).
  - intros j. rewrite flag_vset. destruct (j =? k) eqn:E; [|by left]. apply Z.eqb_eq in E as ->. by right.
Qed.

(** A fold of marks, and the marks that it makes. *)
Lemma marks_fold {A} m (f : list bool -> A -> list bool) (key : A -> Z) l n : Z.of_nat n <= SIZE_MAX ->
  (forall d x, marks_more m d (f d x)) ->
  (forall d x, 0 <= key x < vsize d -> vsize d <= SIZE_MAX -> flag (cm_signal_is_reg m) (key x) = false -> flag (f d x) (key x)) ->
  forall d, length d = n -> marks_more m d (fold_left f l d) /\
    Forall (fun x => 0 <= key x < Z.of_nat n -> flag (cm_signal_is_reg m) (key x) = false -> flag (fold_left f l d) (key x)) l.
Proof.
  intros Hn Hm Hk. induction l as [|x l IH]; intros d Hd; simpl; [split; [reflexivity|constructor]|].
  pose proof (Hm d x) as M1. destruct (IH (f d x)) as [M2 F2]; [destruct M1; congruence|]. split; [by etrans|]. constructor; [|done].
  intros Hx Hr. apply (proj1 (proj2 M2)). apply Hk; unfold vsize; rewrite ?Hd; try done.
Qed.

Lemma init_driven_marks i m : is_mod i = Some m -> Z.of_nat (length (cm_signal_names m)) <= SIZE_MAX ->
  let i' := init_driven_nets_from_assigns i in
  length (is_driven_nets i') = length (cm_signal_names m) /\ (forall k, flag (is_driven_nets i') k -> flag (cm_signal_is_reg m) k = false) /\
  Forall (fun a => 0 <= ca_lhs_signal a < Z.of_nat (length (cm_signal_names m)) ->
    flag (cm_signal_is_reg m) (ca_lhs_signal a) = false -> flag (is_driven_nets i') (ca_lhs_signal a)) (cm_assigns m).
Proof.
  intros Hm Hn i'. unfold i', init_driven_nets_from_assigns. rewrite Hm. simpl. set (f := fun d a => _).
  destruct (marks_fold m f ca_lhs_signal (cm_assigns m) (length (cm_signal_names m)) Hn) with (d := replicate (length (cm_signal_names m)) false)
    as [(L & K & N) F].
  - intros d a. unfold f. destruct (flag _ _) eqn:E; [reflexivity|by apply vset_marks].
  - intros d a Hk _ Hr. unfold f. rewrite Hr, flag_vset, Z.eqb_refl, (proj2 (Z.leb_le _ _)), (proj2 (Z.ltb_lt _ _)) by lia. done.
  - apply length_replicate.
  - split_and!; [by rewrite L, length_replicate| |done]. intros k Hk. destruct (N k Hk) as [Hf|Hf]; [|done]. exfalso. clear -Hf. unfold flag in Hf.
    destruct (vat _ k) as [b|] eqn:E; [|done]. apply vat_Some in E as [_ E]. apply lookup_replicate in E as [-> _]. done.
Qed.

Definition sized (d : compiled_design) : Prop := Forall (fun m => Z.of_nat (length (cm_signal_names m)) <= SIZE_MAX) (cd_modules d).

Lemma find_module_sized d nm m : sized d -> find_module d nm = Some m -> Z.of_nat (length (cm_signal_names m)) <= SIZE_MAX.
Proof.
  unfold find_module, sized. intros H E. destruct (cd_module_index d !! nm) as [i|]; [|done]. apply vat_Some in E as [_ E].
  by apply (Forall_lookup_1 _ _ _ _ H E).
Qed.

(** One instance in order, as elaboration makes it. *)
Lemma make_child_ok pm cm idef : links_ok pm -> module_ok cm -> Z.of_nat (length (cm_signal_names cm)) <= SIZE_MAX ->
  Forall (fun c => ref_ok (ic_ref c)) (in_connections idef) ->
  local_ok (make_child pm cm idef) /\ marks_ok (make_child pm cm idef) /\ is_mod (make_child pm cm idef) = Some cm /\ is_children (make_child pm cm idef) = [].
Proof.
  intros Hp Hm Hn Hc. unfold make_child. set (child := init_driven_nets_from_assigns _).
  destruct (init_driven_marks (mk_inst (Some cm) (in_instance_name idef) (init_state cm) [] [] [] []) cm eq_refl Hn) as (L & N & A). fold child in L, N, A.
  pose proof (overrides_kind cm idef (init_state cm)) as (K1 & K2 & K3).
  destruct (fill_loop_ok pm cm idef (cm_port_order cm) Hp Hm Hc 0 0 (replicate (length (cm_ports cm)) port_binding_default, [])) as [B D].
  { split; [apply Forall_replicate; unfold binding_ok, port_binding_default; simpl; unfold SIZE_MAX; lia|constructor]. }
  unfold fill_bindings. destruct (fill_loop pm cm idef 0 0 (cm_port_order cm) _) as [bs ds]. simpl in B, D.
  change (is_mod child) with (Some cm). change (is_state child) with (init_state cm). split_and!; [..|done|done].
  - split; simpl; [by intros m [= <-]|by rewrite K2|apply K1, init_sane|done|done].
  - split; simpl; [|by intros m k [= <-]; apply N|by intros m [= <-]|by intros; constructor].
    intros m [= <-]. split; [done|]. by rewrite K3, init_values_length.
Qed.

Lemma mark_driven_more pm d p : marks_more pm d (mark_driven pm d p).
Proof. unfold mark_driven. destruct (_ =? SIZE_MAX); [reflexivity|]. destruct (flag _ _) eqn:E; [reflexivity|by apply vset_marks]. Qed.

(** A child is added to a parent in order. *)
Lemma add_child_ok pm parent child : local_ok parent -> marks_ok parent -> is_mod parent = Some pm -> Z.of_nat (length (cm_signal_names pm)) <= SIZE_MAX ->
  Forall drive_ok (is_output_drives child) -> forall child', is_output_drives child' = is_output_drives child ->
  let driven := fold_left (mark_driven pm) (is_output_drives child) (is_driven_nets parent) in
  let parent' := with_children (with_driven parent driven) (is_children parent ++ [child']) in
  local_ok parent' /\ marks_ok parent'.
Proof.
  intros [] [M1 M2 M3 M4] Hm Hn Hd child' Ed driven parent'. split; [by split|].
  destruct (M1 pm Hm) as [L1 L2].
  destruct (marks_fold pm (mark_driven pm) pv_parent_signal (is_output_drives child) (length (cm_signal_names pm)) Hn) with (d := is_driven_nets parent)
    as [(L & K & N) F]; [apply mark_driven_more| |done|].
  { intros d p Hk Hs Hr. unfold mark_driven. rewrite (proj2 (Z.eqb_neq _ _)) by lia. rewrite Hr, flag_vset, Z.eqb_refl, (proj2 (Z.leb_le _ _)), (proj2 (Z.ltb_lt _ _)) by lia. done. }
  fold driven in L, K, N, F. split; simpl; intros m; [intros Em|intros k Em|intros Em|intros Em]; assert (m = pm) as -> by congruence.
  - split; congruence.
  - intros Hk. destruct (N k Hk); [by apply (M2 pm)|done].
  - eapply Forall_impl; [by apply M3|]. intros a Ha H1 H2. apply K. by apply Ha.
  - apply Forall_app. split.
    + eapply Forall_impl; [by apply M4|]. intros c Hc. eapply Forall_impl; [exact Hc|]. intros d H1 H2 H3. apply K. by apply H1.
    + constructor; [|constructor]. rewrite Ed. rewrite Forall_forall in *. intros d Hin H1 H2. apply F; [done|split; [by apply Hd|done]|done].
Qed.

Lemma init_driven_again parent pm : marks_ok parent -> is_mod parent = Some pm -> Z.of_nat (length (cm_signal_names pm)) <= SIZE_MAX ->
  (if (length (is_driven_nets parent) =? 0)%nat then init_driven_nets_from_assigns parent else parent) = parent.
Proof.
  intros [M1 _ _ _] Hm Hn. destruct (_ =? 0)%nat eqn:E; [|done]. apply Nat.eqb_eq in E. destruct (M1 pm Hm) as [L1 _].
  destruct (init_driven_marks parent pm Hm Hn) as (L & _ & _). rewrite <- L1, E in L. destruct (is_driven_nets parent) eqn:Ed; [|done].
  unfold init_driven_nets_from_assigns in *. rewrite Hm in *. simpl in L. destruct (fold_left _ _ _); [|done]. destruct parent. simpl in *. by subst.
Qed.

Lemma elaborate_children_ok d : design_ok d -> sized d -> forall fuel parent pm, is_mod parent = Some pm -> links_ok pm ->
  Z.of_nat (length (cm_signal_names pm)) <= SIZE_MAX -> tree_ok parent -> marked parent -> is_children parent = [] ->
  let r := elaborate_children fuel d parent in
  tree_ok r /\ marked r /\ (depth r <= S fuel)%nat /\ is_mod r = is_mod parent /\ is_output_drives r = is_output_drives parent.
Proof.
  intros Hd Hs. induction fuel as [|fuel IH]; intros parent pm Hm Hp Hn Ht Hk Hc; cbn [elaborate_children].
  { split_and!; [done..| |done|done]. destruct parent. simpl in *. by subst. }
  rewrite Hm. set (f := fun parent idef => _).
  enough (Hg : forall l parent, Forall (fun idef => Forall (fun c => ref_ok (ic_ref c)) (in_connections idef)) l -> is_mod parent = Some pm -> tree_ok parent -> marked parent ->
    Forall (fun c => depth c <= S fuel)%nat (is_children parent) ->
    let r := fold_left f l parent in tree_ok r /\ marked r /\ Forall (fun c => depth c <= S fuel)%nat (is_children r) /\ is_mod r = Some pm /\ is_output_drives r = is_output_drives parent).
  { destruct (Hg (cm_instances pm) parent (li_instances _ Hp) Hm Ht Hk) as (G1 & G2 & G3 & G4 & G5); [rewrite Hc; constructor|]. split_and!; [done|done| |congruence|done].
    destruct (fold_left f _ _) as [? ? ? ? ? ? cs]. simpl in *. apply le_n_S, list_max_le, Forall_map. done. }
  clear parent Hm Ht Hk Hc. induction l as [|idef l IHl]; intros parent Hl Hm Ht Hk Hc; [by split_and!|]. inversion Hl as [|? ? Hi Hl']; subst. cbn [fold_left].
  assert (Hf : tree_ok (f parent idef) /\ marked (f parent idef) /\ Forall (fun c => depth c <= S fuel)%nat (is_children (f parent idef)) /\ is_mod (f parent idef) = Some pm /\
    is_output_drives (f parent idef) = is_output_drives parent).
  { unfold f. destruct (find_module d (in_module_name idef)) as [cm|] eqn:Ef; [|by split_and!]. destruct (find_module_ok _ _ _ Hd Ef) as [Hcm Hlk].
    pose proof (find_module_sized _ _ _ Hs Ef) as Hcs. destruct (make_child_ok pm cm idef Hp Hcm Hcs Hi) as (C1 & C2 & C3 & C4). set (child := make_child pm cm idef) in *.
    destruct (IH child cm C3 Hlk Hcs) as (R1 & R2 & R3 & R4 & R5); [split; [done|rewrite C4; constructor]|split; [done|rewrite C4; constructor]|done|].
    destruct Ht as [T1 T2], Hk as [K1 K2]. rewrite (init_driven_again parent pm K1 Hm Hn).
    destruct (add_child_ok pm parent child T1 K1 Hm Hn (lo_drives _ C1) _ R5) as [A1 A2].
    split_and!; [split; [done|]|split; [done|]| |done|done]; simpl; apply Forall_app; (split; [done|by constructor]). }
  destruct Hf as (F1 & F2 & F3 & F4 & F5). destruct (IHl (f parent idef) Hl' F4 F1 F2 F3) as (G1 & G2 & G3 & G4 & G5). split_and!; congruence || done.
Qed.

Lemma elaborate_ok d top : design_ok d -> sized d -> module_ok top -> links_ok top -> Z.of_nat (length (cm_signal_names top)) <= SIZE_MAX ->
  tree_ok (elaborate d top) /\ marked (elaborate d top) /\ (depth (elaborate d top) <= S max_depth)%nat.
Proof.
  intros Hd Hs Hm Hl Hn. unfold elaborate. set (root := init_driven_nets_from_assigns _).
  destruct (init_driven_marks (mk_inst (Some top) (cm_name top) (init_state top) [] [] [] []) top eq_refl Hn) as (L & N & A). fold root in L, N, A.
  destruct (elaborate_children_ok d Hd Hs max_depth root top) as (R1 & R2 & R3 & _ & _); try done.
  - split; [|constructor]. split; simpl; [by intros m [= <-]|done|apply init_sane|constructor|constructor].
  - split; [|constructor]. split; simpl; [intros m [= <-]; split; [done|apply (init_values_length top)]|intros m k [= <-]; apply N|by intros m [= <-]|by intros; constructor].
Qed.

(** ** The claims *)

(** One step per element: a tick and whether clocked blocks run. *)
Fixpoint simulate_all (i : instance_state) (ticks : list (Z * bool)) : option instance_state :=
  match ticks with
  | [] => Some i
  | (t, seq) :: ticks' => match simulate i t seq with Some i' => simulate_all i' ticks' | None => None end
  end.

Lemma simulate_all_ok ticks : forall i, tree_ok i -> exists i', simulate_all i ticks = Some i' /\ tree_ok i' /\ same_tree i i'.
Proof.
  induction ticks as [|[t seq] ticks IH]; intros i Hi; [exists i; split_and!; [done|done|apply same_tree_refl]|]. cbn [simulate_all].
  unfold simulate. pose proof (tkeeps_bind (depth i) _ (fun _ => comb_resolve (depth i) t) (sequential_pass_keeps t seq (depth i))
    (fun _ => comb_resolve_keeps t (depth i)) i Hi (Nat.le_refl _)) as Hw.
  apply wp_result in Hw as (b & i1 & -> & T1 & E1). destruct (update_prev_keeps i1 T1) as [T2 E2]. destruct (IH _ T2) as (i' & E & T' & S'). exists i'. split_and!; [done|done|].
  eapply same_tree_trans; [exact E1|]. by eapply same_tree_trans.
Qed.

(** C30: an elaborated design runs: whatever modules instantiate whatever
    others, recursively or not, elaboration ends in a tree of at most 66
    levels on which every sequence of simulation steps is defined, and the
    steps keep the tree. *)
Theorem elaborated_designs_run d top ticks : design_ok d -> sized d -> module_ok top -> links_ok top ->
  Z.of_nat (length (cm_signal_names top)) <= SIZE_MAX ->
  (depth (elaborate d top) <= 66)%nat /\ exists i', simulate_all (elaborate d top) ticks = Some i' /\ tree_ok i' /\ same_tree (elaborate d top) i'.
Proof.
  intros Hd Hs Hm Hl Hn. destruct (elaborate_ok d top Hd Hs Hm Hl Hn) as (T & _ & D). split; [exact D|]. by apply simulate_all_ok.
Qed.

(** In the whole elaborated tree, every net that a continuous assignment or
    an output of a child drives is marked as driven, so that the resolution
    of drivers reaches it, and no register is marked. *)
Theorem elaboration_marks_drivers d top : design_ok d -> sized d -> module_ok top -> links_ok top ->
  Z.of_nat (length (cm_signal_names top)) <= SIZE_MAX -> marked (elaborate d top).
Proof. intros Hd Hs Hm Hl Hn. by destruct (elaborate_ok d top Hd Hs Hm Hl Hn) as (_ & M & _). Qed.

(** ** Names *)

Fixpoint first_named (name : string) (ms : list compiled_module) : option compiled_module :=
  match ms with [] => None | m :: ms' => if decide (cm_name m = name) then Some m else first_named name ms' end.

Definition index_step (idx : gmap string Z) (p : nat * compiled_module) : gmap string Z :=
  match idx !! cm_name p.2 with None => <[cm_name p.2 := Z.of_nat p.1]> idx | Some _ => idx end.

Lemma build_index_at name ms : forall k idx,
  fold_left index_step (imap (fun i m => ((k + i)%nat, m)) ms) idx !! name =
  match idx !! name with
  | Some i => Some i
  | None => (fun p : nat * compiled_module => Z.of_nat (k + p.1)%nat) <$> list_find (fun m => cm_name m = name) ms
  end.
Proof.
  induction ms as [|m ms IH]; intros k idx; [simpl; by destruct (idx !! name)|]. cbn [imap fold_left].
  rewrite (imap_ext _ (fun i m => ((S k + i)%nat, m))) by (intros; simpl; f_equal; lia). rewrite IH. cbn [list_find]. unfold index_step at 1. simpl fst. simpl snd.
  destruct (decide (cm_name m = name)) as [<-|Hne].
  - destruct (idx !! cm_name m) as [i|] eqn:E; [by rewrite E|]. rewrite lookup_insert_eq. simpl. do 2 f_equal; lia.
  - assert (Hx : (match idx !! cm_name m with None => <[cm_name m := Z.of_nat (k + 0)%nat]> idx | Some _ => idx end) !! name = idx !! name).
    { destruct (idx !! cm_name m); [done|]. by rewrite lookup_insert_ne. }
    rewrite Hx. destruct (idx !! name); [done|]. destruct (list_find _ ms) as [[j x]|]; [|done]. simpl. do 2 f_equal; lia.
Qed.

(** A name is resolved to the first module of that name, or to none. *)
Theorem modules_found_first ms name : find_module (build_design ms) name = first_named name ms.
Proof.
  unfold find_module, build_design. cbn [cd_module_index cd_modules].
  assert (E : fold_left (fun idx '(i, m) => match idx !! cm_name m with None => <[cm_name m := Z.of_nat i]> idx | Some _ => idx end) (imap pair ms) (∅ : gmap string Z) =
    fold_left index_step (imap (fun i m => ((0 + i)%nat, m)) ms) ∅).
  { change (imap (fun i m => ((0 + i)%nat, m)) ms) with (imap pair ms). generalize (imap pair ms) as l. intros l. generalize (∅ : gmap string Z) as g.
    induction l as [|[i m] l IH]; intros g; [done|]. simpl. apply IH. }
  rewrite E, build_index_at, lookup_empty. clear E.
  assert (H : forall k, match (fun p : nat * compiled_module => Z.of_nat (k + p.1)%nat) <$> list_find (fun m => cm_name m = name) ms with
    | Some i => ms !! (Z.to_nat i - k)%nat | None => None end = first_named name ms).
  { induction ms as [|m ms IH]; intros k; [done|]. cbn [list_find first_named]. destruct (decide (cm_name m = name)); simpl.
    - by rewrite Nat2Z.id, Nat.add_0_r, Nat.sub_diag.
    - rewrite <- (IH (S k)). destruct (list_find _ ms) as [[j x]|]; [|done]. simpl. by replace (Z.to_nat (Z.of_nat (k + S j)) - k)%nat with (S (Z.to_nat (Z.of_nat (S k + j)) - S k))%nat by lia. }
  rewrite <- (H 0%nat). destruct (list_find (fun m => cm_name m = name) ms) as [[j x]|] eqn:El; [|done]. simpl. apply list_find_Some in El as (El & _ & _).
  rewrite vat_lookup, Nat.sub_0_r; [done|]. unfold vsize. apply lookup_lt_Some in El. lia.
Qed.

(** ** Widths *)

(** The bits of a connection are aligned at the least significant bit: a
    wider source loses its high bits, a narrower one is extended with its sign
    or zero, and a missing one leaves the port unconnected. *)
Theorem port_bits_align {A} (x zero : A) src w sign_extend k : (k < w)%nat ->
  length (resize_port x zero src w sign_extend) = w /\
  rev (resize_port x zero src w sign_extend) !! k =
    Some (match src with [] => x | s0 :: _ => default (if sign_extend then s0 else zero) (rev src !! k) end).
Proof.
  intros Hk. unfold resize_port. destruct (w =? 0)%nat eqn:E0; [apply Nat.eqb_eq in E0; lia|]. destruct src as [|s0 src].
  { split; [apply length_replicate|]. rewrite rev_replicate. by apply lookup_replicate_2. }
  set (l := s0 :: src). assert (Hl : (1 <= length l)%nat) by (simpl; lia). destruct (w =? 1)%nat eqn:E1.
  { apply Nat.eqb_eq in E1 as ->. split; [done|]. assert (k = 0%nat) as -> by lia. 
    assert (Er : rev l = List.last l x :: rev (removelast l)).
    { rewrite (app_removelast_last (l := l) x) at 1 by done. by rewrite rev_app_distr. }
    by rewrite Er. }
  destruct (length l =? w)%nat eqn:E2.
  { apply Nat.eqb_eq in E2. split; [done|]. destruct (lookup_lt_is_Some_2 (rev l) k) as [y ->]; [rewrite length_rev; lia|done]. }
  apply Nat.eqb_neq in E2. destruct (w <? length l)%nat eqn:E3.
  - apply Nat.ltb_lt in E3. split; [rewrite length_drop; lia|].
    assert (Er : rev l = rev (drop (length l - w) l) ++ rev (take (length l - w) l)) by (by rewrite <- rev_app_distr, take_drop).
    rewrite Er, lookup_app_l by (rewrite length_rev, length_drop; lia).
    destruct (lookup_lt_is_Some_2 (rev (drop (length l - w) l)) k) as [y ->]; [rewrite length_rev, length_drop; lia|done].
  - apply Nat.ltb_ge in E3. split; [rewrite length_app, length_replicate; lia|]. rewrite rev_app_distr.
    destruct (decide (k < length l)%nat) as [Hlt|Hge].
    + rewrite lookup_app_l by (rewrite length_rev; lia). destruct (lookup_lt_is_Some_2 (rev l) k) as [y ->]; [rewrite length_rev; lia|done].
    + rewrite lookup_app_r, (lookup_ge_None_2 (rev l)) by (rewrite length_rev; lia). rewrite rev_replicate.
      apply lookup_replicate_2. rewrite length_rev. lia.
Qed.

(** ** Examples *)

(** An inverter, a module with two of them in a row, and a module that
    instantiates itself. *)
Definition sub_module (name : string) (ports : list port) (order : list string) (decls : gmap string port_decl) (signals : list string)
    (nodes : list expr_node) (assigns : list continuous_assign) (instances : list instance) : compiled_module :=
  {| cm_name := name; cm_ports := ports; cm_port_order := order; cm_port_decls := decls; cm_vectors := ∅; cm_signal_names := signals;
     cm_signal_is_reg := []; cm_signal_is_signed := []; cm_signal_is_const := []; cm_signal_is_const_foldable := [];
     cm_signal_const_value := []; cm_signal_index := ∅; cm_param_order := []; cm_param_default_values := ∅; cm_param_is_local := ∅; cm_expr_nodes := nodes;
     cm_assigns := assigns; cm_always_ffs := []; cm_always_combs := []; cm_initials := []; cm_instances := instances; cm_inline_counter := 0 |}.
Definition decl (d : port_dir) : port_decl :=
  {| pdl_dir := d; pdl_has_range := false; pdl_msb := 0; pdl_lsb := 0; pdl_is_reg := false; pdl_is_signed := false |}.
Definition inst_of (m name : string) (args : list Z) : instance :=
  {| in_module_name := m; in_instance_name := name; in_param_positional_values := []; in_param_named_values := [];
     in_connections := map (fun s => {| ic_port_name := ""; ic_ref := {| cr_kind := cn_scalar s; cr_is_signed := false |} |}) args |}.
Definition inv_module : compiled_module :=
  sub_module "inv" [mk_port "a" pd_input 0; mk_port "y" pd_output 1] ["a"; "y"] (<["a" := decl pd_input]> {["y" := decl pd_output]}) ["a"; "y"]
    [node_signal 0; node_unary ek_unary_not 0] [assign_net 1 1] [].
Definition buf_module : compiled_module :=
  sub_module "buf" [] [] ∅ ["x"; "w"; "z"] [node_literal sH] [assign_net 0 0] [inst_of "inv" "u1" [0; 1]; inst_of "inv" "u2" [1; 2]].
Definition loop_module : compiled_module := sub_module "loop" [] [] ∅ [] [] [] [inst_of "loop" "u" []].
Definition example_design : compiled_design := build_design [inv_module; buf_module; loop_module].

Lemma sub_module_ok name ports order decls signals nodes assigns instances : arena_okb nodes = true ->
  Forall (fun a => 0 <= ca_lhs_signal a /\ 0 <= ca_expr_root a /\ 0 <= ca_guard_root a) assigns -> Forall (fun p => 0 <= po_signal p) ports ->
  Forall (fun idef => Forall (fun c => ref_ok (ic_ref c)) (in_connections idef)) instances ->
  module_ok (sub_module name ports order decls signals nodes assigns instances) /\ links_ok (sub_module name ports order decls signals nodes assigns instances).
Proof.
  intros Hn Ha Hp Hi. split; split; simpl; try done; try by constructor. by apply arena_okb_ok.
Qed.

Ltac check_all := repeat (constructor; [simpl; unfold SIZE_MAX, ref_ok; simpl; repeat split; lia|]); try constructor.

Lemma inv_module_ok : module_ok inv_module /\ links_ok inv_module.
Proof. apply sub_module_ok; [reflexivity|check_all|check_all|constructor]. Qed.
Lemma buf_module_ok : module_ok buf_module /\ links_ok buf_module.
Proof. apply sub_module_ok; [reflexivity|check_all|constructor|]. repeat (constructor; [check_all|]). constructor. Qed.
Lemma loop_module_ok : module_ok loop_module /\ links_ok loop_module.
Proof. apply sub_module_ok; [reflexivity|constructor|constructor|]. repeat (constructor; [check_all|]). constructor. Qed.
Lemma example_design_ok : design_ok example_design /\ sized example_design.
Proof.
  split; [repeat (constructor; [auto using inv_module_ok, buf_module_ok, loop_module_ok|]); constructor|].
  repeat (constructor; [vm_compute; discriminate|]). constructor.
Qed.

Lemma elaborated_designs_run_witness :
  (depth (elaborate example_design loop_module) <= 66)%nat /\
  exists i', simulate_all (elaborate example_design buf_module) [(1, true)] = Some i' /\ ms_values (is_state i') = [sH; sL; sH].
Proof.
  split.
  - destruct (elaborated_designs_run example_design loop_module []) as [H _];
      [apply example_design_ok|apply example_design_ok|apply loop_module_ok|apply loop_module_ok|vm_compute; discriminate|exact H].
  - destruct (elaborated_designs_run example_design buf_module [(1, true)]) as [_ (i' & E & _)];
      [apply example_design_ok|apply example_design_ok|apply buf_module_ok|apply buf_module_ok|vm_compute; discriminate|].
    exists i'. split; [exact E|]. vm_compute in E. injection E as <-. reflexivity.
Defined.

Lemma elaboration_marks_drivers_witness : marked (elaborate example_design buf_module) /\
  is_driven_nets (elaborate example_design buf_module) = [true; true; true].
Proof.
  split; [|reflexivity]. apply elaboration_marks_drivers;
    [apply example_design_ok|apply example_design_ok|apply buf_module_ok|apply buf_module_ok|vm_compute; discriminate].
Defined.

(** Three bits into five, signed: 101 is extended to 11101. *)
Lemma port_bits_align_witness : length (resize_port sX sL [sH; sL; sH] 5 true) = 5%nat /\ rev (resize_port sX sL [sH; sL; sH] 5 true) !! 4%nat = Some sH.
Proof. apply (port_bits_align sX sL [sH; sL; sH] 5 true 4). lia. Defined.
