(* ===== verification/VModule.v ===== *)
(** * VModule: the Verilog module as a model of the circuit

    [VERILOG_MODULE] of [model/models/digital/verilog_module.h]: its copies,
    its attributes and pins, and the update that samples the input nodes,
    simulates one step and drives the output nodes.  The compiler of the source
    text is not part of it: [make_verilog_module] takes the modules that it
    returns. *)

From Stdlib Require Import ZArith Lia.
From stdpp Require Import base list gmap strings.
From S2P Require Import Prelude Logic4 Store Devices VData VExpr VCache VStmt.
From S2P Require Import VStmtInv VStmtClaims VRuntime VRuntimeInv VRuntimeClaims VElab.

Open Scope Z_scope.

Definition instance_default : instance_state := mk_inst None "" module_state_default [] [] [] [].

(** [deep_copy_module_state]: [comb_initialized], [initial_ran] and
    [initial_base_tick] are those of the destination. *)
Definition deep_copy_module_state (dst src : module_state) : module_state :=
  {| ms_mod := ms_mod src; ms_values := ms_values src; ms_prev_values := ms_prev_values src;
     ms_comb_prev_values := ms_comb_prev_values src; ms_comb_initialized := ms_comb_initialized dst;
     ms_initial_ran := ms_initial_ran dst; ms_initial_base_tick := ms_initial_base_tick dst; ms_events := ms_events src;
     ms_nba_queue := ms_nba_queue src; ms_next_net_values := ms_next_net_values src; ms_change_mark := ms_change_mark src;
     ms_changed_signals := ms_changed_signals src; ms_change_token := ms_change_token src;
     ms_expr_eval_cache := ms_expr_eval_cache src; ms_expr_eval_mark := ms_expr_eval_mark src;
     ms_expr_eval_token := ms_expr_eval_token src |}.

(** The children are copied into new objects. *)
Fixpoint deep_copy_into (dst : module_state) (src : instance_state) : instance_state :=
  mk_inst (is_mod src) (is_instance_name src) (deep_copy_module_state dst (is_state src)) (is_driven_nets src) (is_bindings src)
    (is_output_drives src) (map (deep_copy_into module_state_default) (is_children src)).
Definition deep_copy_instance_state (dst src : instance_state) : instance_state := deep_copy_into (is_state dst) src.

Module VERILOG_MODULE.

Record t : Type := mk {
  v_Ll : double;
  v_Hl : double;
  v_source : string;
  v_top : string;
  v_design : option compiled_design;
  v_top_instance : instance_state;
  v_tick : Z;
  v_pins : list pin;
  v_analog_emit_cursor : Z
}.

Definition digital_update_method : digital_update_method_t := before_all_clk.
Definition default : t :=
  {| v_Ll := d_zero; v_Hl := d_five; v_source := ""; v_top := ""; v_design := None; v_top_instance := instance_default; v_tick := 0;
     v_pins := []; v_analog_emit_cursor := 0 |}.

(** The pins of the ports of the top module, not connected. *)
Definition port_pins (i : instance_state) : list pin :=
  match is_mod i with Some m => map (fun p => pin_of_name (po_name p)) (cm_ports m) | None => [] end.

(** The assignment to an object whose instance is [this]; the constructor
    copies to a new one. *)
Definition copy_assign (this : instance_state) (other : t) : t :=
  let i := deep_copy_instance_state this (v_top_instance other) in
  {| v_Ll := v_Ll other; v_Hl := v_Hl other; v_source := v_source other; v_top := v_top other; v_design := v_design other;
     v_top_instance := i; v_tick := v_tick other; v_pins := port_pins i; v_analog_emit_cursor := v_analog_emit_cursor other |}.
Definition copy (other : t) : t := copy_assign instance_default other.

Definition with_levels (m : t) (Ll Hl : double) : t :=
  {| v_Ll := Ll; v_Hl := Hl; v_source := v_source m; v_top := v_top m; v_design := v_design m; v_top_instance := v_top_instance m;
     v_tick := v_tick m; v_pins := v_pins m; v_analog_emit_cursor := v_analog_emit_cursor m |}.
Definition with_run (m : t) (i : instance_state) (tick : Z) : t :=
  {| v_Ll := v_Ll m; v_Hl := v_Hl m; v_source := v_source m; v_top := v_top m; v_design := v_design m; v_top_instance := i;
     v_tick := tick; v_pins := v_pins m; v_analog_emit_cursor := v_analog_emit_cursor m |}.
Definition with_cursor (m : t) (c : Z) : t :=
  {| v_Ll := v_Ll m; v_Hl := v_Hl m; v_source := v_source m; v_top := v_top m; v_design := v_design m; v_top_instance := v_top_instance m;
     v_tick := v_tick m; v_pins := v_pins m; v_analog_emit_cursor := c |}.

Definition set_attribute_define (m : t) (idx : Z) (vi : variant) : bool * t :=
  match idx, vi with
  | 0, v_d x => (true, with_levels m x (v_Hl m))
  | 1, v_d x => (true, with_levels m (v_Ll m) x)
  | _, _ => (false, m)
  end.
Definition get_attribute_define (m : t) (idx : Z) : variant :=
  match idx with 0 => v_d (v_Ll m) | 1 => v_d (v_Hl m) | _ => v_invalid end.
Definition get_attribute_name_define (idx : Z) : string := match idx with 0 => "Ll" | 1 => "Hl" | _ => "" end.
Definition generate_pin_view_define (m : t) : list pin := v_pins m.

(** The loop that samples the inputs. *)
Fixpoint sample_inputs (Ll Hl : double) (pp : list (port * pin)) (vs : list logic_t) : M (list logic_t) :=
  match pp with
  | [] => ret vs
  | (p, pn) :: pp' =>
      if is_input (po_dir p) then
        match nodes pn with
        | None => sample_inputs Ll Hl pp' vs
        | Some n =>
            if po_signal p <? vsize vs then
              let* v := read_dn Ll Hl n in sample_inputs Ll Hl pp' (vset vs (po_signal p) v)
            else sample_inputs Ll Hl pp' vs
        end
      else sample_inputs Ll Hl pp' vs
  end.

(** The loop that drives the outputs on digital nodes. *)
Fixpoint drive_outputs (pp : list (port * pin)) (vs : list logic_t) : M unit :=
  match pp with
  | [] => ret tt
  | (p, pn) :: pp' =>
      match nodes pn, vat vs (po_signal p) with
      | Some n, Some v =>
          if is_output (po_dir p) then
            let* k := get_num n in
            do* (if k =? 0 then update_dn n v else ret tt) in
            drive_outputs pp' vs
          else drive_outputs pp' vs
      | _, _ => drive_outputs pp' vs
      end
  end.

(** The loop of the analog drive over the ports from the cursor on; [ks] are
    the offsets left. *)
Fixpoint emit (m : t) (ports : list port) (vs : list logic_t) (ks : list nat) : M (t * need_operate_analog_node_t) :=
  match ks with
  | [] => ret (m, no_need)
  | k :: ks' =>
      let nports := Z.of_nat (length ports) in
      let i := (v_analog_emit_cursor m + Z.of_nat k) mod nports in
      match vat ports i, vat (v_pins m) i with
      | Some p, pn =>
          if is_output (po_dir p) then
            match pn with
            | None => ub
            | Some pn =>
                match nodes pn with
                | None => emit m ports vs ks'
                | Some n =>
                    let* k := get_num n in
                    if k =? 0 then emit m ports vs ks'
                    else match vat vs (po_signal p) with
                         | None => emit m ports vs ks'
                         | Some v =>
                             if dns_eqb v sZ then emit m ports vs ks'
                             else ret (with_cursor m ((i + 1) mod nports), need (level_of (v_Ll m) (v_Hl m) v) n)
                         end
                end
            end
          else emit m ports vs ks'
      | None, _ => ub
      end
  end.

Definition update_digital_clk_define (m : t) (tr_duration : double) (method : digital_update_method_t)
    : M (t * need_operate_analog_node_t) :=
  match v_design m, is_mod (v_top_instance m) with
  | Some _, Some cm =>
      let clk := match method with before_all_clk => true | _ => false end in
      let tick := if clk then u64_wrap (v_tick m + 1) else v_tick m in
      let i := v_top_instance m in
      let* vs := sample_inputs (v_Ll m) (v_Hl m) (zip (cm_ports cm) (v_pins m)) (ms_values (is_state i)) in
      match simulate (with_state i (with_values (is_state i) vs)) tick clk with
      | None => ub
      | Some i' =>
          let m' := with_run m i' tick in
          let vs' := ms_values (is_state i') in
          do* drive_outputs (zip (cm_ports cm) (v_pins m)) vs' in
          emit m' (cm_ports cm) vs' (seq 0 (length (cm_ports cm)))
      end
  | _, _ => ret (m, no_need)
  end.

(** [modules] are the modules of the compiled source. *)
Definition make_verilog_module (source top_name : string) (modules : list compiled_module) : t :=
  let m := {| v_Ll := d_zero; v_Hl := d_five; v_source := source; v_top := top_name; v_design := None;
              v_top_instance := instance_default; v_tick := 0; v_pins := []; v_analog_emit_cursor := 0 |} in
  match modules with
  | [] => m
  | first :: _ =>
      let d := build_design modules in
      let chosen := match find_module d top_name with Some c => c | None => first end in
      let i := elaborate d chosen in
      {| v_Ll := d_zero; v_Hl := d_five; v_source := source; v_top := top_name; v_design := Some d; v_top_instance := i; v_tick := 0;
         v_pins := port_pins i; v_analog_emit_cursor := 0 |}
  end.

End VERILOG_MODULE.

(** ** The Verilog module in the circuit

    A module that has not run is copied exactly; an update with readable nodes
    is defined, leaves on every digital output node the value of its signal,
    and records the nodes it changed.  A module that has run is not copied
    exactly: its initial blocks run again. *)

Open Scope Z_scope.

(** ** Copies *)

(** The flags that a copy does not keep are those of a new object. *)
Inductive fresh (i : instance_state) : Prop := fresh_intro :
  ms_comb_initialized (is_state i) = false -> ms_initial_ran (is_state i) = false -> ms_initial_base_tick (is_state i) = 0 ->
  Forall fresh (is_children i) -> fresh i.

Lemma deep_copy_fresh i : fresh i -> deep_copy_into module_state_default i = i.
Proof.
  induction i as [i IH] using instance_ind'. intros [F1 F2 F3 FC]. destruct i as [md nm st dr bs ds cs]. simpl in *. f_equal.
  - destruct st. simpl in *. unfold deep_copy_module_state. simpl. by subst.
  - clear -IH FC. induction IH as [|c cs Hc H IHl]; [done|]. inversion FC; subst. simpl. f_equal; auto.
Qed.

(** What an override keeps of the flags. *)
Definition same_flags (st st' : module_state) : Prop := ms_comb_initialized st' = ms_comb_initialized st /\ ms_initial_ran st' = ms_initial_ran st /\
  ms_initial_base_tick st' = ms_initial_base_tick st.
Lemma fold_same_flags {A} (f : module_state -> A -> module_state) l : (forall st x, same_flags st (f st x)) -> forall st, same_flags st (fold_left f l st).
Proof.
  intros H. induction l as [|x l IH]; intros st; [by repeat split|]. simpl. destruct (H st x) as (H1 & H2 & H3), (IH (f st x)) as (H4 & H5 & H6).
  unfold same_flags. split_and!; congruence.
Qed.
Lemma override_flags cm st p : same_flags st (override cm st p).
Proof.
  unfold override, apply_param_value. destruct (is_local_param _ _); [by repeat split|]. destruct (cm_vectors cm !! _); [|by repeat split].
  destruct (negb _); [by repeat split|]. apply fold_same_flags. intros st' [k sig]. destruct (_ <=? _); by repeat split.
Qed.

Lemma make_child_fresh pm cm idef : fresh (make_child pm cm idef).
Proof.
  unfold make_child. destruct (fill_bindings _ _ _ _) as [bs ds]. set (st := is_state _).
  assert (Hf : same_flags st (apply_overrides cm idef st)).
  { unfold apply_overrides. destruct (fold_same_flags (override cm) (in_param_named_values idef) (override_flags cm)
      (fold_left (override cm) (zip (cm_param_order cm) (in_param_positional_values idef)) st)) as (A1 & A2 & A3).
    destruct (fold_same_flags (override cm) (zip (cm_param_order cm) (in_param_positional_values idef)) (override_flags cm) st) as (B1 & B2 & B3).
    unfold same_flags. split_and!; congruence. }
  destruct Hf as (F1 & F2 & F3). split; simpl; [by rewrite F1|by rewrite F2|by rewrite F3|constructor].
Qed.

Lemma elaborate_children_fresh d : forall fuel parent, fresh parent -> fresh (elaborate_children fuel d parent).
Proof.
  induction fuel as [|fuel IH]; intros parent Hp; [done|]. cbn [elaborate_children]. destruct (is_mod parent) as [pm|]; [|done].
  generalize (cm_instances pm) as l. intros l. revert parent Hp. induction l as [|idef l IHl]; intros parent Hp; [done|]. cbn [fold_left]. apply IHl.
  destruct (find_module d (in_module_name idef)) as [cm|]; [|done]. pose proof (IH _ (make_child_fresh pm cm idef)) as Hc.
  assert (H1 : fresh (if (length (is_driven_nets parent) =? 0)%nat then init_driven_nets_from_assigns parent else parent)).
  { destruct (_ =? 0)%nat; [|done]. unfold init_driven_nets_from_assigns. destruct (is_mod parent); [|done]. destruct Hp. by split. }
  destruct H1 as [F1 F2 F3 F4]. split; simpl; [done..|]. apply Forall_app. split; [done|]. by constructor.
Qed.

Lemma elaborate_fresh d top : fresh (elaborate d top).
Proof. apply elaborate_children_fresh. split; simpl; done || constructor. Qed.

(** A module made from compiled sources is copied exactly, whatever its
    hierarchy: a copy and the original are the same model. *)
Theorem new_module_copies_exactly source top_name modules :
  VERILOG_MODULE.copy (VERILOG_MODULE.make_verilog_module source top_name modules) = VERILOG_MODULE.make_verilog_module source top_name modules.
Proof.
  unfold VERILOG_MODULE.make_verilog_module. destruct modules as [|first rest]; [done|]. set (chosen := match find_module _ _ with Some c => c | None => _ end).
  unfold VERILOG_MODULE.copy, VERILOG_MODULE.copy_assign, deep_copy_instance_state. simpl. by rewrite deep_copy_fresh by apply elaborate_fresh.
Qed.

(** [initial a = 0; always @(posedge clk) a <= ~a;], run for one step and then
    changed to 1: the copy goes back to 0. *)
Definition counter_module : compiled_module :=
  plain_module "t" ["a"] [true] [node_literal sL] [] [] [{| ib_stmt_nodes := [stmt_blocking 0 0]; ib_roots := [0] |}].
Definition running_module : VERILOG_MODULE.t :=
  let m := VERILOG_MODULE.make_verilog_module "" "t" [counter_module] in
  match simulate (VERILOG_MODULE.v_top_instance m) 1 true with
  | Some i => VERILOG_MODULE.with_run m (with_state i (with_values (is_state i) [sH])) 1
  | None => m
  end.
Example copy_runs_initial_blocks_again :
  values_after (simulate (VERILOG_MODULE.v_top_instance running_module) 2 true) = Some [sH] /\
  values_after (simulate (VERILOG_MODULE.v_top_instance (VERILOG_MODULE.copy running_module)) 2 true) = Some [sL].
Proof. vm_compute. split; reflexivity. Qed.

(** A name that no module has gives the first module of the source. *)
Example unknown_top_uses_first :
  is_mod (VERILOG_MODULE.v_top_instance (VERILOG_MODULE.make_verilog_module "" "absent" [inv_module; buf_module])) = Some inv_module.
Proof. reflexivity. Qed.

(** ** Updates *)

(** The node can be read: a digital node as digital, the others as analog. *)
Definition node_readable (s : dstate) (n : node_ptr) : Prop :=
  exists nd, d_nodes s !! n = Some nd /\
    (if num_of_analog_node nd =? 0 then exists v, node_information nd = dn v else exists v, node_information nd = an v).
Definition pins_readable (s : dstate) (ps : list pin) : Prop := Forall (fun p => forall n, nodes p = Some n -> node_readable s n) ps.

(** What a module sees of a node: the state of a digital node, the level of
    the voltage of an analog one. *)
Definition seen (Ll Hl : double) (nd : node_t) : logic_t :=
  match node_information nd with
  | dn st => st
  | an v => if dge (re v) Hl then sH else if dle (re v) Ll then sL else sX
  end.

(** The node of the last connected input port of a signal. *)
Definition input_node (pp : list (port * pin)) (sig : Z) : option node_ptr :=
  last (omap (fun q : port * pin => if is_input (po_dir q.1) && (po_signal q.1 =? sig) then nodes q.2 else None) pp).

(** The values with the inputs sampled: a signal with an input port has what is
    seen of its node, the others keep their value. *)
Definition sampled (Ll Hl : double) (s : dstate) (pp : list (port * pin)) (vs vs' : list logic_t) : Prop :=
  length vs' = length vs /\
  forall sig v, vat vs sig = Some v ->
    vat vs' sig = match input_node pp sig with Some n => seen Ll Hl <$> d_nodes s !! n | None => Some v end.

Lemma read_readable Ll Hl n s : node_readable s n -> exists nd, d_nodes s !! n = Some nd /\ read_dn Ll Hl n s = Some (seen Ll Hl nd, s).
Proof.
  intros (nd & E & H). exists nd. split; [done|]. unfold read_dn, get_num, get_dn, get_voltage, deref, bind, ret, seen. rewrite E. destruct (_ =? 0).
  - destruct H as [v Hv]. by rewrite E, Hv.
  - destruct H as [v Hv]. by rewrite E, Hv.
Qed.

Lemma input_node_cons p pn pp sig : input_node ((p, pn) :: pp) sig =
  match input_node pp sig with Some n => Some n | None => if is_input (po_dir p) && (po_signal p =? sig) then nodes pn else None end.
Proof.
  unfold input_node. cbn [omap list_omap fst snd]. destruct (if is_input (po_dir p) && (po_signal p =? sig) then nodes pn else None) as [n|]; [|by destruct (last _)]. rewrite last_cons. by destruct (last _).
Qed.

Lemma sample_returns Ll Hl pp s : Forall (fun q => forall n, nodes q.2 = Some n -> node_readable s n) pp ->
  forall vs, exists vs', VERILOG_MODULE.sample_inputs Ll Hl pp vs s = Some (vs', s) /\ sampled Ll Hl s pp vs vs'.
Proof.
  induction 1 as [|[p pn] pp Hp H IH]; intros vs; [exists vs; by split|]. cbn [VERILOG_MODULE.sample_inputs].
  assert (Hskip : (forall sig v, vat vs sig = Some v -> is_input (po_dir p) && (po_signal p =? sig) = true -> nodes pn = None) ->
    exists vs', VERILOG_MODULE.sample_inputs Ll Hl pp vs s = Some (vs', s) /\ sampled Ll Hl s ((p, pn) :: pp) vs vs').
  { intros Hno. destruct (IH vs) as (vs' & E & L & Hv). exists vs'. split; [done|]. split; [done|]. intros sig v Ev. rewrite (Hv sig v Ev), input_node_cons.
    destruct (input_node pp sig); [done|]. destruct (_ && _) eqn:Ei; [by rewrite (Hno sig v Ev Ei)|done]. }
  destruct (is_input (po_dir p)) eqn:Ei; [|by apply Hskip]. destruct (nodes pn) as [n|] eqn:En; [|by apply Hskip].
  destruct (po_signal p <? vsize vs) eqn:El; [|apply Hskip; intros sig v Ev Es; apply vat_Some in Ev as [Hr _]; lia].
  destruct (read_readable Ll Hl n s (Hp n En)) as (nd & Ed & Ev). unfold bind. rewrite Ev.
  destruct (IH (vset vs (po_signal p) (seen Ll Hl nd))) as (vs' & E & L & Hv). exists vs'. split; [done|]. split; [by rewrite L, length_vset|].
  intros sig v Es. rewrite input_node_cons, Ei, En. simpl. pose proof (proj1 (proj1 (vat_Some _ _ _) Es)) as Hr. destruct (Z.eqb_spec (po_signal p) sig) as [<-|Hne].
  - rewrite (Hv _ (seen Ll Hl nd)) by (by apply vat_vset). destruct (input_node pp _); [done|]. by rewrite Ed.
  - rewrite (Hv sig v) by (by rewrite vat_vset_ne). by destruct (input_node pp sig).
Qed.

(** The digital nodes driven and their values, in the order of the loop. *)
Definition driven_outputs (s : dstate) (pp : list (port * pin)) (vs : list logic_t) : list (node_ptr * logic_t) :=
  omap (fun '(p, pn) =>
    match nodes pn, vat vs (po_signal p) with
    | Some n, Some v =>
        if is_output (po_dir p) then
          match d_nodes s !! n with Some nd => if num_of_analog_node nd =? 0 then Some (n, v) else None | None => None end
        else None
    | _, _ => None
    end) pp.

(** What driving does to the store: the digital output nodes get their values,
    the others keep theirs, and the changed ones are in the table. *)
Definition drives_to (s s' : dstate) (outs : list (node_ptr * logic_t)) : Prop :=
  (forall n v, (n, v) ∈ outs -> exists nd, d_nodes s !! n = Some nd /\ d_nodes s' !! n = Some (set_information nd (dn v))) /\
  (forall n, n ∉ outs.*1 -> d_nodes s' !! n = d_nodes s !! n) /\
  (forall n, n ∉ d_tables s' -> d_nodes s' !! n = d_nodes s !! n) /\ (forall n, n ∈ d_tables s -> n ∈ d_tables s').

Lemma update_dn_spec n v s nd st : d_nodes s !! n = Some nd -> node_information nd = dn st ->
  exists s', update_dn n v s = Some (tt, s') /\ d_nodes s' !! n = Some (set_information nd (dn v)) /\
    (forall k, k <> n -> d_nodes s' !! k = d_nodes s !! k) /\ (n ∉ d_tables s' -> d_nodes s' !! n = d_nodes s !! n) /\
    (forall k, k ∈ d_tables s -> k ∈ d_tables s').
Proof.
  intros E Ei. unfold update_dn, get_dn, deref, set_dn, insert_table, bind, ret. rewrite E, Ei. destruct (dns_eqb st v) eqn:Ev.
  - assert (st = v) as -> by (by destruct st, v). eexists. split_and!; [done| |done|done|done]. rewrite E. f_equal. destruct nd. simpl in *. by subst.
  - rewrite E. eexists. split_and!; [done|..]; cbn [d_nodes d_tables]; [by rewrite lookup_insert_eq|intros k Hk; by rewrite lookup_insert_ne| |]; intros; rewrite elem_of_oset_insert in *; [exfalso|]; auto.
Qed.

(** An output is a digital node connected to an output port. *)
Definition output_nodes (pp : list (port * pin)) : list node_ptr :=
  omap (fun q => nodes q.2) (filter (fun q => is_output (po_dir q.1)) pp).

(** The two stores agree but for the state of the node. *)
Definition updated (n : node_ptr) (v : logic_t) (s s' : dstate) : Prop :=
  exists nd, d_nodes s !! n = Some nd /\ num_of_analog_node nd = 0 /\ d_nodes s' !! n = Some (set_information nd (dn v)) /\
    (forall k, k <> n -> d_nodes s' !! k = d_nodes s !! k).

Lemma updated_readable n v s s' k : updated n v s s' -> node_readable s k -> node_readable s' k.
Proof.
  intros (nd & E & E0 & E' & Hk) (kd & Ek & Hr). destruct (decide (k = n)) as [->|Hne].
  - exists (set_information nd (dn v)). split; [done|]. destruct nd. simpl in *. rewrite E0. by exists v.
  - exists kd. by rewrite Hk.
Qed.

Lemma updated_outputs n v s s' pp vs : updated n v s s' -> driven_outputs s' pp vs = driven_outputs s pp vs.
Proof.
  intros (nd & E & E0 & E' & Hk). induction pp as [|[p pn] pp IH]; [done|]. unfold driven_outputs in *. cbn [omap list_omap]. rewrite IH.
  destruct (nodes pn) as [k|]; [|done]. destruct (vat vs _); [|done]. destruct (is_output _); [|done].
  destruct (decide (k = n)) as [->|Hne]; [|by rewrite Hk]. rewrite E, E'. by destruct nd.
Qed.

Lemma driven_subset s pp vs n : n ∈ (driven_outputs s pp vs).*1 -> n ∈ output_nodes pp.
Proof.
  induction pp as [|[p pn] pp IH]; [done|]. unfold driven_outputs, output_nodes in *. cbn [omap list_omap]. rewrite filter_cons. simpl. intros H.
  assert (Hs : n ∈ omap (fun q => nodes q.2) (filter (fun q => is_output (po_dir q.1)) pp) ->
    n ∈ omap (fun q : port * pin => nodes q.2) (if decide (is_output (po_dir p)) then (p, pn) :: filter (fun q => is_output (po_dir q.1)) pp
      else filter (fun q => is_output (po_dir q.1)) pp)).
  { destruct (decide _); [|done]. cbn [omap list_omap]. simpl. destruct (nodes pn); [by intros; apply elem_of_cons; right|done]. }
  destruct (nodes pn) as [k|] eqn:Ek; [|by apply Hs, IH]. destruct (vat vs (po_signal p)) as [v|]; [|by apply Hs, IH].
  destruct (is_output (po_dir p)); [|by apply Hs, IH]. destruct (d_nodes s !! k) as [kd|]; [|by apply Hs, IH].
  destruct (num_of_analog_node kd =? 0); [|by apply Hs, IH]. apply elem_of_cons in H as [->|H]; [|by apply Hs, IH].
  rewrite decide_True by done. cbn [omap list_omap]. simpl. rewrite Ek. apply elem_of_cons. by left.
Qed.

Lemma drives_step s s1 s' n v outs : updated n v s s1 -> n ∉ outs.*1 -> (n ∉ d_tables s1 -> d_nodes s1 !! n = d_nodes s !! n) ->
  (forall k, k ∈ d_tables s -> k ∈ d_tables s1) -> drives_to s1 s' outs -> drives_to s s' ((n, v) :: outs).
Proof.
  intros (nd & E & _ & E1 & Hk) Hn Ht Hk1 (D1 & D2 & D3 & D4). split_and!.
  - intros k w [[= -> ->]|Hin]%elem_of_cons; [exists nd; by rewrite D2|]. destruct (D1 k w Hin) as (kd & Ekd & Es). exists kd.
    rewrite <- Hk; [done|]. intros ->. apply Hn. by apply (list_elem_of_fmap_2 fst) in Hin.
  - intros k Hin. simpl in Hin. rewrite not_elem_of_cons in Hin. destruct Hin as [Hne Hin]. by rewrite D2, Hk.
  - intros k Hc. assert (Hc1 : k ∉ d_tables s1) by auto. rewrite D3 by done. destruct (decide (k = n)) as [->|Hne]; auto.
  - intros k Hin. by apply D4, Hk1.
Qed.

Lemma drive_returns pp vs : NoDup (output_nodes pp) ->
  forall s, Forall (fun q => forall n, nodes q.2 = Some n -> node_readable s n) pp ->
  exists s', VERILOG_MODULE.drive_outputs pp vs s = Some (tt, s') /\ drives_to s s' (driven_outputs s pp vs).
Proof.
  unfold output_nodes. intros Hnd. induction pp as [|[p pn] pp IH]; intros s Hr.
  { exists s. split; [done|]. split_and!; [by intros n v Hin; inversion Hin|done|done|done]. }
  inversion Hr as [|? ? Hp Hr']; subst. cbn [VERILOG_MODULE.drive_outputs driven_outputs omap list_omap]. rewrite filter_cons in Hnd. simpl in Hp, Hnd.
  assert (Hskip : exists s', VERILOG_MODULE.drive_outputs pp vs s = Some (tt, s') /\ drives_to s s' (driven_outputs s pp vs)).
  { apply IH; [|done]. destruct (decide _); [|done]. cbn [omap list_omap] in Hnd. destruct (nodes _); [by apply NoDup_cons in Hnd as []|done]. }
  simpl. destruct (nodes pn) as [n|] eqn:En; [|exact Hskip]. destruct (vat vs (po_signal p)) as [v|] eqn:Ev; [|exact Hskip].
  destruct (is_output (po_dir p)) eqn:Eo; [|exact Hskip]. destruct (Hp n eq_refl) as (nd & E & Hi).
  unfold bind at 1, get_num, deref, bind, ret. rewrite E. destruct (num_of_analog_node nd =? 0) eqn:Ek; [|exact Hskip]. destruct Hi as [st Ei].
  destruct (update_dn_spec n v s nd st E Ei) as (s1 & -> & U1 & U2 & U3 & U4). clear Hskip.
  rewrite decide_True in Hnd by done. cbn [omap list_omap] in Hnd. simpl in Hnd. rewrite En in Hnd. apply NoDup_cons in Hnd as [Hn Hnd].
  assert (HU : updated n v s s1). { exists nd. split_and!; [done|lia|done|done]. }
  destruct (IH Hnd s1) as (s' & Es & Hd).
  { eapply Forall_impl; [exact Hr'|]. intros q Hq k Hk. eapply updated_readable; [done|]. by apply Hq. }
  exists s'. split; [done|]. rewrite (updated_outputs n v s s1) in Hd by done. apply (drives_step s s1); [done| |done|done|done].
  intros Hin. apply Hn. by apply driven_subset in Hin.
Qed.

(** The drive of analog nodes changes nothing of the store and returns when
    the pins are those of the ports. *)
Lemma emit_returns m ports vs s : length (VERILOG_MODULE.v_pins m) = length ports -> pins_readable s (VERILOG_MODULE.v_pins m) ->
  forall ks, (ks <> [] -> ports <> []) ->
  exists m' r, VERILOG_MODULE.emit m ports vs ks s = Some ((m', r), s) /\ exists c, m' = VERILOG_MODULE.with_cursor m c.
Proof.
  intros Hl Hr. assert (H0 : m = VERILOG_MODULE.with_cursor m (VERILOG_MODULE.v_analog_emit_cursor m)) by (by destruct m).
  induction ks as [|k ks IH]; intros Hne; [by exists m, no_need; split; [done|eexists]|]. cbn [VERILOG_MODULE.emit]. specialize (Hne ltac:(done)).
  specialize (IH ltac:(done)). set (i := _ mod _). assert (Hi : 0 <= i < vsize ports).
  { unfold vsize, i. apply Z.mod_pos_bound. destruct ports; [done|]. simpl. lia. }
  destruct (proj2 (vat_is_Some ports i) Hi) as [p Ep]. rewrite Ep. destruct (is_output _); [|exact IH].
  assert (Hi' : 0 <= i < vsize (VERILOG_MODULE.v_pins m)) by (unfold vsize in *; lia).
  destruct (proj2 (vat_is_Some (VERILOG_MODULE.v_pins m) i) Hi') as [pn Epn]. rewrite Epn. destruct (nodes pn) as [n|] eqn:En; [|exact IH].
  apply vat_Some in Epn as [_ Epn]. destruct (Forall_lookup_1 _ _ _ _ Hr Epn n En) as (nd & Ed & _). unfold get_num, deref, bind, ret. rewrite Ed.
  destruct (_ =? 0); [exact IH|]. destruct (vat vs _); [|exact IH]. destruct (dns_eqb _ _); [exact IH|]. eexists _, _. split; [done|by eexists].
Qed.

(** A store in which the driven nodes are digital nodes is as readable. *)
Lemma drives_readable s s' pp vs n : drives_to s s' (driven_outputs s pp vs) -> node_readable s n -> node_readable s' n.
Proof.
  intros (D1 & D2 & _) Hr. destruct (decide (n ∈ (driven_outputs s pp vs).*1)) as [Hin|Hin].
  - apply list_elem_of_fmap_1 in Hin as ([k v] & -> & Hin). destruct (D1 k v Hin) as (nd & E & E'). exists (set_information nd (dn v)). split; [done|].
    apply list_elem_of_omap in Hin as ([p pn] & _ & H). destruct (nodes pn) as [k'|]; [|done]. destruct (vat _ _); [|done]. destruct (is_output _); [|done].
    destruct (d_nodes s !! k') as [kd|] eqn:Ek; [|done]. destruct (num_of_analog_node kd =? 0) eqn:E0; [|done]. injection H as -> ->.
    assert (kd = nd) as -> by congruence. destruct nd. simpl in *. rewrite E0. by eexists.
  - destruct Hr as (nd & E & H). exists nd. by rewrite D2.
Qed.

Lemma with_values_tree i vs : tree_ok i -> length vs = length (ms_values (is_state i)) ->
  tree_ok (with_state i (with_values (is_state i) vs)) /\ same_tree i (with_state i (with_values (is_state i) vs)).
Proof.
  intros [L C] Hl. destruct (local_with_state i (with_values (is_state i) vs) L) as [L' S']; [by apply (sane_same (is_state i)), L|done|done|].
  split; split; [done|done|done|]. simpl. clear. induction (is_children i); constructor; [apply same_tree_refl|done].
Qed.

(** C29: an update of a well-formed module, with as many pins as ports, whose
    connected nodes are readable (a digital node holds a state, an analog one a
    voltage) and whose output ports are connected to distinct nodes, is
    defined.  The values of the top instance are first sampled: each signal
    with a connected input port gets the state of the node of its last such
    port, or the level of its voltage, and the others keep their values.
    The new instance is what [simulate] makes of the sampled one at the
    tick, which the clock phase alone advances.  It is well-formed; every
    digital output node gets the new value of its signal; no other node
    changes, and every node that changed is in the table. *)
Theorem module_update_drives_outputs m cm tr_duration method s :
  is_Some (VERILOG_MODULE.v_design m) -> is_mod (VERILOG_MODULE.v_top_instance m) = Some cm -> tree_ok (VERILOG_MODULE.v_top_instance m) ->
  length (VERILOG_MODULE.v_pins m) = length (cm_ports cm) -> pins_readable s (VERILOG_MODULE.v_pins m) ->
  NoDup (output_nodes (zip (cm_ports cm) (VERILOG_MODULE.v_pins m))) ->
  exists m' r s', VERILOG_MODULE.update_digital_clk_define m tr_duration method s = Some ((m', r), s') /\
    tree_ok (VERILOG_MODULE.v_top_instance m') /\ is_mod (VERILOG_MODULE.v_top_instance m') = Some cm /\
    VERILOG_MODULE.v_pins m' = VERILOG_MODULE.v_pins m /\
    VERILOG_MODULE.v_tick m' = (match method with before_all_clk => u64_wrap (VERILOG_MODULE.v_tick m + 1) | _ => VERILOG_MODULE.v_tick m end) /\
    (let i := VERILOG_MODULE.v_top_instance m in
     exists vs, sampled (VERILOG_MODULE.v_Ll m) (VERILOG_MODULE.v_Hl m) s (zip (cm_ports cm) (VERILOG_MODULE.v_pins m)) (ms_values (is_state i)) vs /\
       simulate (with_state i (with_values (is_state i) vs)) (VERILOG_MODULE.v_tick m') (match method with before_all_clk => true | _ => false end) =
       Some (VERILOG_MODULE.v_top_instance m')) /\
    drives_to s s' (driven_outputs s (zip (cm_ports cm) (VERILOG_MODULE.v_pins m)) (ms_values (is_state (VERILOG_MODULE.v_top_instance m')))).
Proof.
  intros [d Ed] Em Ht Hl Hr Hn. unfold VERILOG_MODULE.update_digital_clk_define. rewrite Ed, Em. cbv zeta.
  set (i := VERILOG_MODULE.v_top_instance m) in *. set (pp := zip (cm_ports cm) (VERILOG_MODULE.v_pins m)) in *.
  assert (Hpp : Forall (fun q => forall n, nodes q.2 = Some n -> node_readable s n) pp).
  { apply Forall_forall. intros [p pn] Hin n En. apply elem_of_zip_r in Hin. simpl in En. by eapply (proj1 (Forall_forall _ _) Hr). }
  destruct (sample_returns (VERILOG_MODULE.v_Ll m) (VERILOG_MODULE.v_Hl m) pp s Hpp (ms_values (is_state i))) as (vs & Es & Hs).
  unfold bind. rewrite Es. destruct (with_values_tree i vs Ht (proj1 Hs)) as [T1 S1].
  set (tick := if match method with before_all_clk => true | _ => false end then _ else _).
  destruct (simulate_ok _ tick (match method with before_all_clk => true | _ => false end) T1) as (i' & Esim & T2 & S2 & _). rewrite Esim.
  destruct (drive_returns pp (ms_values (is_state i')) Hn s Hpp) as (s' & -> & Hd).
  destruct (emit_returns (VERILOG_MODULE.with_run m i' tick) (cm_ports cm) (ms_values (is_state i')) s') with (ks := seq 0 (length (cm_ports cm)))
    as (m' & r & -> & c & ->); [done| |by destruct (cm_ports cm)|].
  { eapply Forall_impl; [exact Hr|]. intros pn Hp n En. eapply drives_readable; [exact Hd|by apply Hp]. }
  eexists _, _, _. split; [done|]. simpl. split_and!; [done| |done|by destruct method|by exists vs|done].
  pose proof (same_tree_trans _ _ _ S1 S2) as [(-> & _) _]. exact Em.
Qed.

(** An inverter between two digital nodes. *)
Definition inverter : VERILOG_MODULE.t :=
  let m := VERILOG_MODULE.make_verilog_module "" "inv" [inv_module; buf_module; loop_module] in
  {| VERILOG_MODULE.v_Ll := VERILOG_MODULE.v_Ll m; VERILOG_MODULE.v_Hl := VERILOG_MODULE.v_Hl m; VERILOG_MODULE.v_source := ""; VERILOG_MODULE.v_top := "inv";
     VERILOG_MODULE.v_design := VERILOG_MODULE.v_design m; VERILOG_MODULE.v_top_instance := VERILOG_MODULE.v_top_instance m;
     VERILOG_MODULE.v_tick := 0; VERILOG_MODULE.v_pins := [mk_pin "a" (Some 1%N) None; mk_pin "y" (Some 2%N) None];
     VERILOG_MODULE.v_analog_emit_cursor := 0 |}.
Definition digital_node (v : logic_t) : node_t := mk_node (dn v) [] 0 0.
Definition inverter_store : dstate := mk_dstate (<[1%N := digital_node sH]> {[2%N := digital_node sX]}) [].

Lemma module_update_drives_outputs_witness :
  exists m' r s', VERILOG_MODULE.update_digital_clk_define inverter d_zero before_all_clk inverter_store = Some ((m', r), s') /\
    tree_ok (VERILOG_MODULE.v_top_instance m') /\ VERILOG_MODULE.v_tick m' = 1 /\ d_nodes s' !! 2%N = Some (digital_node sL) /\ d_tables s' = [2%N].
Proof.
  destruct (module_update_drives_outputs inverter inv_module d_zero before_all_clk inverter_store) as (m' & r & s' & E & T & _ & _ & K & _).
  - eexists. reflexivity.
  - vm_compute. reflexivity.
  - apply (elaborate_ok example_design inv_module); [apply example_design_ok|apply example_design_ok|apply inv_module_ok|apply inv_module_ok|vm_compute; discriminate].
  - reflexivity.
  - repeat (constructor; [intros n [= <-]; eexists; split; [vm_compute; reflexivity|by eexists]|]). constructor.
  - vm_compute. repeat constructor. by intros H%elem_of_nil.
  - exists m', r, s'. split_and!; [exact E|exact T|exact K| |]; vm_compute in E; injection E as <- <- <-; reflexivity.
Defined.
