(* ===== verification/VLex.v ===== *)
(** * VLex: the lexer

    [lex] of [verilog/digital/digital.h].  A source text is a list of
    characters.  Every loop of the source bumps the line and the column for
    each character that it passes; the model of a loop counts the characters
    it passes, [scan] gives the next item of the text and its length, and
    [lex_loop] bumps over them.  [None] means that the loop did not end within
    the fuel, which is the length of the text. *)

From Stdlib Require Import ZArith Lia Ascii.
From stdpp Require Import base list strings.
From S2P Require Import Prelude VBuild.

Open Scope Z_scope.

Definition text : Type := list ascii.
Definition chars (s : string) : text := String.list_ascii_of_string s.

Inductive token_kind : Type := tk_eof | tk_identifier | tk_number | tk_symbol.

Record token : Type := mk_token {
  tok_kind : token_kind;
  tok_text : text;
  tok_line : Z;
  tok_column : Z
}.

Record lex_result : Type := mk_lex {
  lr_tokens : list token;
  lr_errors : list compile_error
}.

(** ** Characters *)

Definition char_eq (a b : ascii) : bool := Ascii.eqb a b.
Infix "=c" := char_eq (at level 70).
Definition code (c : ascii) : Z := Z.of_N (N_of_ascii c).
Definition between (a b c : ascii) : bool := (code a <=? code c) && (code c <=? code b).

Definition newline : ascii := "010"%char.
Definition quote : ascii := "034"%char.
Definition apostrophe : ascii := "039"%char.
Definition backslash : ascii := "092"%char.

Definition is_space (c : ascii) : bool :=
  (c =c " "%char) || (c =c "009"%char) || (c =c newline) || (c =c "013"%char) || (c =c "012"%char) || (c =c "011"%char).
Definition is_digit (c : ascii) : bool := between "0" "9" c.
Definition is_alpha (c : ascii) : bool := between "a" "z" c || between "A" "Z" c || (c =c "_"%char).
Definition is_ident_continue (c : ascii) : bool := is_alpha c || is_digit c || (c =c "$"%char).

(** A letter in either case. *)
Definition letter (lower upper c : ascii) : bool := (c =c lower) || (c =c upper).

(** ** Positions *)

Definition bump (lc : Z * Z) (c : ascii) : Z * Z := if c =c newline then (lc.1 + 1, 1) else (lc.1, lc.2 + 1).
Definition bumps (lc : Z * Z) (l : text) : Z * Z := fold_left bump l lc.

(** The map gives the position of every character before preprocessing. *)
Definition remap_line_col (smap : option (list (Z * Z))) (off : nat) (lc : Z * Z) : Z * Z :=
  match smap with
  | None => lc
  | Some m => match m !! off with Some sp => sp | None => lc end
  end.

(** ** The loops *)

(** [while(p < e && ok) { step; bump; ++p; }], as the number of the
    characters it passes; [s] holds the variables that [step] changes. *)
Fixpoint count_while {S} (ok : S -> ascii -> bool) (step : S -> ascii -> S) (s : S) (p : text) : nat :=
  match p with
  | c :: p' => if ok s c then Datatypes.S (count_while ok step (step s c) p') else 0
  | [] => 0
  end.
Definition count_all (ok : ascii -> bool) (p : text) : nat := count_while (fun _ => ok) (fun s _ => s) tt p.

Definition line_comment (p : text) : nat := count_all (fun c => negb (c =c newline)) p.

(** After the opening characters, up to and with the closing ones. *)
Fixpoint block_comment (p : text) : nat :=
  match p with
  | [] => 0
  | c :: p' =>
      if (c =c "*"%char) && (match p' with n :: _ => n =c "/"%char | [] => false end) then 2
      else S (block_comment p')
  end.

(** After the opening quote; the boolean is [closed]. *)
Fixpoint string_body (p : text) : nat * bool :=
  match p with
  | [] => (0%nat, false)
  | c :: p' =>
      if c =c backslash then
        match p' with
        | [] => (1%nat, false)
        | _ :: p'' => let '(n, closed) := string_body p'' in (S (S n), closed)
        end
      else if c =c quote then (1%nat, true)
      else let '(n, closed) := string_body p' in (S n, closed)
  end.

Definition ident_body (p : text) : nat := count_all is_ident_continue p.

Definition is_base (c : ascii) : bool := letter "b" "B" c || letter "o" "O" c || letter "d" "D" c || letter "h" "H" c.

(** The digits of a literal without a width, after the apostrophe. *)
Definition based_ok (base prev nc : ascii) : bool :=
  is_alpha nc || is_digit nc || (nc =c "_"%char) || ((nc =c "-"%char) && letter "d" "D" base && (prev =c base)).
Definition based_body (base prev : ascii) (p : text) : nat := count_while (based_ok base) (fun _ nc => nc) prev p.

(** The variables of the loop over a number. *)
Record num_state : Type := mk_num { after_apos : bool; after_base : bool; allow_minus : bool; num_base : ascii; num_prev : ascii }.
Definition num_start (c : ascii) : num_state := mk_num false false false zero c.
Definition num_step (s : num_state) (nc : ascii) : num_state :=
  if nc =c apostrophe then mk_num true false false zero nc
  else if after_apos s && negb (after_base s) then
    if letter "s" "S" nc then mk_num (after_apos s) (after_base s) (allow_minus s) (num_base s) nc
    else mk_num (after_apos s) true (letter "d" "D" nc) nc nc
  else mk_num (after_apos s) (after_base s) (allow_minus s) (num_base s) nc.
Definition num_ok (s : num_state) (nc : ascii) : bool :=
  is_digit nc || is_alpha nc || (nc =c apostrophe) || (nc =c "_"%char) ||
  ((nc =c "-"%char) && allow_minus s && (num_prev s =c num_base s)).
Definition number_body (s : num_state) (p : text) : nat := count_while num_ok num_step s p.

(** The character at an offset, when it is before the end. *)
Definition at_is (p : text) (i : nat) (c : ascii) : bool := match p !! i with Some x => x =c c | None => false end.

(** The symbols of two characters, in the order of the tests. *)
Definition two_char (p : text) (c : ascii) : bool :=
  ((c =c "*"%char) && at_is p 1 "*"%char) ||
  ((c =c "~"%char) && (at_is p 1 "&"%char || at_is p 1 "|"%char || at_is p 1 "^"%char)) ||
  ((c =c "^"%char) && at_is p 1 "~"%char) ||
  ((c =c "="%char) && at_is p 1 "="%char) ||
  ((c =c "!"%char) && at_is p 1 "="%char) ||
  ((c =c "&"%char) && at_is p 1 "&"%char) ||
  ((c =c "|"%char) && at_is p 1 "|"%char) ||
  (((c =c "<"%char) || (c =c ">"%char)) && at_is p 1 "="%char) ||
  ((c =c "<"%char) && at_is p 1 "<"%char) ||
  ((c =c ">"%char) && at_is p 1 ">"%char) ||
  ((c =c "+"%char) && at_is p 1 ":"%char) ||
  ((c =c "-"%char) && at_is p 1 ":"%char).
Definition symbol_length (p : text) (c : ascii) : nat :=
  if ((c =c "="%char) || (c =c "!"%char)) && at_is p 1 "="%char && at_is p 2 "="%char then 3
  else if two_char p c then 2 else 1.

Inductive item : Type := it_skip (n : nat) | it_token (k : token_kind) (n : nat) | it_string (n : nat) (closed : bool).

Definition is_fill (v : ascii) : bool := (v =c "0"%char) || (v =c "1"%char) || letter "x" "X" v || letter "z" "Z" v.

(** The literal that starts with an apostrophe, if there is one. *)
Definition based_literal (p : text) : option nat :=
  match p !! 1%nat with
  | None => None
  | Some v0 =>
      if is_fill v0 then Some 2%nat
      else
        let q := if letter "s" "S" v0 then 2%nat else 1%nat in
        match p !! q with
        | Some base => if is_base base then Some (S (based_body base apostrophe (tail p))) else None
        | None => None
        end
  end.

(** The item at the start of a text that starts with [c]. *)
Definition scan (p : text) (c : ascii) : item :=
  if is_space c then it_skip 1
  else if (c =c "/"%char) && at_is p 1 "/"%char then it_skip (line_comment p)
  else if (c =c "/"%char) && at_is p 1 "*"%char then it_skip (2 + block_comment (drop 2 p))
  else if c =c quote then let '(n, closed) := string_body (tail p) in it_string (S n) closed
  else if is_alpha c || (c =c "$"%char) then it_token tk_identifier (S (ident_body (tail p)))
  else
    match (if c =c apostrophe then based_literal p else None) with
    | Some n => it_token tk_number n
    | None =>
        if is_digit c then it_token tk_number (S (number_body (num_start c) (tail p)))
        else it_token tk_symbol (symbol_length p c)
    end.

Definition make_tok (smap : option (list (Z * Z))) (off : nat) (lc : Z * Z) (k : token_kind) (t : text) : token :=
  let rc := remap_line_col smap off lc in mk_token k t rc.1 rc.2.
Definition add_tok (t : token) (r : lex_result) : lex_result := mk_lex (t :: lr_tokens r) (lr_errors r).
Definition unterminated (smap : option (list (Z * Z))) (off : nat) (lc : Z * Z) : compile_error :=
  let rc := remap_line_col smap off lc in mk_error "unterminated string literal" (Z.of_nat off) rc.1 rc.2.
Definition add_errors (es : list compile_error) (r : lex_result) : lex_result := mk_lex (lr_tokens r) (es ++ lr_errors r).

Fixpoint lex_loop (fuel : nat) (smap : option (list (Z * Z))) (p : text) (off : nat) (lc : Z * Z) : option lex_result :=
  match p with
  | [] => Some (mk_lex [mk_token tk_eof [] lc.1 lc.2] [])
  | c :: _ =>
      match fuel with
      | O => None
      | S fuel' =>
          let next n := lex_loop fuel' smap (drop n p) (off + n)%nat (bumps lc (take n p)) in
          match scan p c with
          | it_skip n => next n
          | it_token k n => add_tok (make_tok smap off lc k (take n p)) <$> next n
          | it_string n closed =>
              (fun r => add_errors (if closed then [] else [unterminated smap off lc])
                          (add_tok (make_tok smap off lc tk_symbol (take n p)) r)) <$> next n
          end
      end
  end.

Definition lex (src : text) (smap : option (list (Z * Z))) : option lex_result := lex_loop (length src) smap src 0 (1, 1).

(** ** The lexer cuts a source into its tokens

    Every source is cut into gaps, which are white space and comments, and
    tokens, in order and without a rest; the position of a token is the line
    and column of its first character.  Printing the tokens of a source with
    spaces between them and lexing again gives the same tokens. *)

Open Scope Z_scope.

Lemma char_eq_true a b : (a =c b) = true <-> a = b.
Proof. apply Ascii.eqb_eq. Qed.
Lemma char_eq_refl a : (a =c a) = true.
Proof. apply Ascii.eqb_refl. Qed.

(** ** Counting loops *)

Section Count.
Context {S : Type} (ok : S -> ascii -> bool) (step : S -> ascii -> S).

Lemma count_le s p : (count_while ok step s p <= length p)%nat.
Proof. revert s. induction p as [|c p IH]; intros s; simpl; [lia|]. destruct (ok s c); [specialize (IH (step s c))|]; lia. Qed.

(** The loop passes the same characters when a character that always ends it
    follows them. *)
Lemma count_again stop s p rest : (forall s', ok s' stop = false) ->
  count_while ok step s (take (count_while ok step s p) p ++ stop :: rest) = count_while ok step s p.
Proof.
  intros Hs. revert s. induction p as [|c p IH]; intros s; simpl; [by rewrite Hs|].
  destruct (ok s c) eqn:E; simpl; [by rewrite E, IH|by rewrite Hs].
Qed.
End Count.

Lemma count_all_cons ok c p : count_all ok (c :: p) = if ok c then Datatypes.S (count_all ok p) else 0%nat.
Proof. done. Qed.

(** ** Layout *)

(** The line and the column of the character that follows a text. *)
Fixpoint column_after (l : text) (col : Z) : Z :=
  match l with [] => col | c :: l' => column_after l' (if c =c newline then 1 else col + 1) end.
Definition position (pre : text) : Z * Z := (1 + Z.of_nat (length (List.filter (fun c => c =c newline) pre)), column_after pre 1).

Lemma bumps_app lc l l' : bumps lc (l ++ l') = bumps (bumps lc l) l'.
Proof. apply fold_left_app. Qed.
Lemma bumps_position l : forall lc, bumps lc l = (lc.1 + Z.of_nat (length (List.filter (fun c => c =c newline) l)), column_after l lc.2).
Proof.
  unfold bumps. induction l as [|c l IH]; intros [ln cl]; simpl; [f_equal; lia|]. rewrite IH. unfold bump. simpl.
  destruct (c =c newline); simpl; f_equal; lia.
Qed.

Lemma position_bumps l : position l = bumps (1, 1) l.
Proof. by rewrite bumps_position. Qed.

(** ** The lexical grammar

    What a piece of a source is, in terms of its characters alone: classes of
    characters, the list of operators, and the longest match. *)

Definition blanks : text := [" "%char; "009"%char; "010"%char; "011"%char; "012"%char; "013"%char].
Definition digits : text := chars "0123456789".
Definition letters : text := chars "abcdefghijklmnopqrstuvwxyzABCDEFGHIJKLMNOPQRSTUVWXYZ_".
Definition operators : list text :=
  map chars ["==="; "!=="; "**"; "~&"; "~|"; "~^"; "^~"; "=="; "!="; "&&"; "||"; "<="; ">="; "<<"; ">>"; "+:"; "-:"]%string.

(** [body] is the longest text after [start] of which each character may
    follow the text before it; [rest] is what comes next. *)
Definition longest (may_follow : text -> ascii -> Prop) (start body rest : text) : Prop :=
  (forall pre x post, body = pre ++ x :: post -> may_follow (start ++ pre) x) /\
  match rest with x :: _ => ~ may_follow (start ++ body) x | [] => True end.

Definition in_line (_ : text) (x : ascii) : Prop := x <> newline.
Definition in_identifier (_ : text) (x : ascii) : Prop := x ∈ letters ++ digits ++ ["$"%char].

(** A number that ends with the letter of its decimal base: after the last
    apostrophe come signs and the base, and the last character is the base
    again. *)
Definition minus_after (pre : text) : Prop :=
  exists a sg b mid, pre = a ++ apostrophe :: sg ++ b :: mid /\ Forall (fun x => x ∈ chars "sS") sg /\ b ∈ chars "dD" /\
    apostrophe ∉ mid /\ last (b :: mid) = Some b.
Definition in_unsized (pre : text) (x : ascii) : Prop := x ∈ letters ++ digits \/ (x = "-"%char /\ minus_after pre).
Definition in_number (pre : text) (x : ascii) : Prop := x = apostrophe \/ in_unsized pre x.

(** Characters of a string: no quote and no backslash, or any after a
    backslash. *)
Inductive string_chars : text -> Prop :=
  | string_none : string_chars []
  | string_plain c l : c <> quote -> c <> backslash -> string_chars l -> string_chars (c :: l)
  | string_escape c l : string_chars l -> string_chars (backslash :: c :: l).

(** The body of a comment has no closing mark before its end; an open one has
    none at all. *)
Definition no_close (body : text) : Prop := forall a b, body ++ ["*"%char] <> a ++ "*"%char :: "/"%char :: b.
Definition never_closed (body : text) : Prop := forall a b, body <> a ++ "*"%char :: "/"%char :: b.

(** A gap before [rest]: a blank, a comment up to the end of the line, or a
    comment up to the first closing mark or, without one, the end of the text. *)
Inductive gap : text -> text -> Prop :=
  | gap_blank c rest : c ∈ blanks -> gap [c] rest
  | gap_line body rest : longest in_line (chars "//") body rest -> gap (chars "//" ++ body) rest
  | gap_block body rest : no_close body -> gap (chars "/*" ++ body ++ chars "*/") rest
  | gap_open body : never_closed body -> gap (chars "/*" ++ body) [].

(** The text of a token of a kind, before [rest]. *)
Inductive form : token_kind -> text -> text -> Prop :=
  | form_identifier c body rest : c ∈ letters ++ ["$"%char] -> longest in_identifier [c] body rest -> form tk_identifier (c :: body) rest
  | form_fill c rest : c ∈ chars "01xXzZ" -> form tk_number [apostrophe; c] rest
  | form_unsized sg b body rest : sg ∈ map chars [""; "s"; "S"]%string -> b ∈ chars "bodhBODH" ->
      longest in_unsized (apostrophe :: sg ++ [b]) body rest -> form tk_number ((apostrophe :: sg ++ [b]) ++ body) rest
  | form_number c body rest : c ∈ digits -> longest in_number [c] body rest -> form tk_number (c :: body) rest
  | form_string body rest : string_chars body -> form tk_symbol (quote :: body ++ [quote]) rest
  | form_operator t rest : t ∈ operators -> (forall o, o ∈ operators -> o `prefix_of` t ++ rest -> (length o <= length t)%nat) ->
      form tk_symbol t rest.

(** A string that the text ends in, perhaps after a backslash. *)
Inductive open_string : text -> Prop :=
  | open_plain body : string_chars body -> open_string (quote :: body)
  | open_escape body : string_chars body -> open_string (quote :: body ++ [backslash]).

(** A character at which none of the above starts is a symbol of its own. *)
Definition alone (c : ascii) (rest : text) : Prop :=
  (forall t r, t ++ r = c :: rest -> ~ gap t r /\ forall k, ~ form k t r) /\ ~ open_string (c :: rest).

(** Where the character after [pre] stands: its line and column, or what the
    map says. *)
Definition located (smap : option (list (Z * Z))) (pre : text) : Z * Z := default (position pre) (smap ≫= (.!! length pre)).
Definition token_at (smap : option (list (Z * Z))) (pre : text) (k : token_kind) (t : text) : token :=
  mk_token k t (located smap pre).1 (located smap pre).2.
Definition open_error (smap : option (list (Z * Z))) (pre : text) : compile_error :=
  mk_error "unterminated string literal" (Z.of_nat (length pre)) (located smap pre).1 (located smap pre).2.

(** [lexes smap pre rest ts es]: after [pre], the text [rest] has the tokens
    [ts] and the errors [es]. *)
Inductive lexes (smap : option (list (Z * Z))) : text -> text -> list token -> list compile_error -> Prop :=
  | lexes_end pre : lexes smap pre [] [mk_token tk_eof [] (position pre).1 (position pre).2] []
  | lexes_gap pre g rest ts es : gap g rest -> lexes smap (pre ++ g) rest ts es -> lexes smap pre (g ++ rest) ts es
  | lexes_token pre k t rest ts es : form k t rest -> lexes smap (pre ++ t) rest ts es ->
      lexes smap pre (t ++ rest) (token_at smap pre k t :: ts) es
  | lexes_alone pre c rest ts es : alone c rest -> lexes smap (pre ++ [c]) rest ts es ->
      lexes smap pre (c :: rest) (token_at smap pre tk_symbol [c] :: ts) es
  | lexes_open pre t ts es : open_string t -> lexes smap (pre ++ t) [] ts es ->
      lexes smap pre t (token_at smap pre tk_symbol t :: ts) (open_error smap pre :: es).

(** ** Comments and strings *)

Lemma not_closing c p : (c =c "*"%char) && match p with n :: _ => n =c "/"%char | [] => false end = false ->
  forall b, c :: p <> "*"%char :: "/"%char :: b.
Proof. intros E b [= -> ->]. done. Qed.

Lemma block_comment_closed body rest : no_close body -> block_comment (body ++ "*"%char :: "/"%char :: rest) = (length body + 2)%nat.
Proof.
  induction body as [|c body IH]; intros H; [done|]. cbn [block_comment app length].
  destruct ((c =c "*"%char) && _) eqn:E.
  - exfalso. apply andb_true_iff in E as [E1 E2]. apply char_eq_true in E1 as ->. destruct body as [|d body]; [done|]. simpl in E2.
    apply char_eq_true in E2 as ->. by apply (H [] (body ++ ["*"%char])).
  - rewrite IH; [done|]. intros a b Ha. apply (H (c :: a) b). simpl. by rewrite Ha.
Qed.
Lemma block_comment_open body : never_closed body -> block_comment body = length body.
Proof.
  induction body as [|c body IH]; intros H; [done|]. cbn [block_comment length]. destruct ((c =c "*"%char) && _) eqn:E.
  - exfalso. apply andb_true_iff in E as [E1 E2]. apply char_eq_true in E1 as ->. destruct body as [|d body]; [done|].
    apply char_eq_true in E2 as ->. by apply (H [] body).
  - rewrite IH; [done|]. intros a b Ha. apply (H (c :: a) b). simpl. by rewrite Ha.
Qed.
Lemma block_comment_cases p :
  (exists body rest, p = body ++ "*"%char :: "/"%char :: rest /\ no_close body) \/ never_closed p.
Proof.
  induction p as [|c p IH]; [right; by intros [] ?|].
  destruct ((c =c "*"%char) && match p with n :: _ => n =c "/"%char | [] => false end) eqn:E.
  - left. apply andb_true_iff in E as [E1 E2]. apply char_eq_true in E1 as ->. destruct p as [|n p]; [done|]. apply char_eq_true in E2 as ->.
    exists [], p. split; [done|]. intros [|x [|y a]] b H; simplify_eq/=.
  - pose proof (not_closing c p E) as Hc. destruct IH as [(body & rest & -> & Hn)|Hn].
    + left. exists (c :: body), rest. split; [done|]. intros [|x a] b H; simpl in H; [|injection H as -> H; by apply Hn in H].
      injection H as -> H. destruct body as [|y body]; simpl in H; [done|]. injection H as -> _. by apply (Hc (body ++ "*"%char :: "/"%char :: rest)).
    + right. intros [|x a] b H; simpl in H; [by apply Hc in H|injection H as -> H; by apply Hn in H].
Qed.
Lemma block_comment_le p : (block_comment p <= length p)%nat.
Proof.
  destruct (block_comment_cases p) as [(body & rest & -> & Hn)|Hn]; [rewrite block_comment_closed by done; rewrite length_app; simpl; lia|].
  by rewrite block_comment_open.
Qed.

Lemma string_body_closed body rest : string_chars body -> string_body (body ++ quote :: rest) = (S (length body), true).
Proof.
  induction 1 as [|c l Hq Hb _ IH|c l _ IH]; [done| |]; cbn [string_body app length].
  - destruct (c =c backslash) eqn:Eb; [by apply char_eq_true in Eb|]. destruct (c =c quote) eqn:Eq; [by apply char_eq_true in Eq|]. by rewrite IH.
  - rewrite char_eq_refl. by rewrite IH.
Qed.
Lemma string_body_open body : string_chars body -> string_body body = (length body, false) /\ string_body (body ++ [backslash]) = (S (length body), false).
Proof.
  induction 1 as [|c l Hq Hb _ [IH1 IH2]|c l _ [IH1 IH2]]; [done| |]; cbn [string_body app length].
  - destruct (c =c backslash) eqn:Eb; [by apply char_eq_true in Eb|]. destruct (c =c quote) eqn:Eq; [by apply char_eq_true in Eq|]. by rewrite IH1, IH2.
  - rewrite char_eq_refl. by rewrite IH1, IH2.
Qed.
Lemma string_body_cases n : forall p, (length p <= n)%nat -> exists body, string_chars body /\
  ((exists rest, p = body ++ quote :: rest) \/ p = body \/ p = body ++ [backslash]).
Proof.
  induction n as [|n IH]; intros [|c p] Hl; simpl in Hl; try lia; try (by exists []; split; [constructor|auto]).
  destruct (decide (c = quote)) as [->|Hq]; [exists []; split; [constructor|left; by exists p]|]. destruct (decide (c = backslash)) as [->|Hb].
  - destruct p as [|d p]; [exists []; split; [constructor|auto]|]. simpl in Hl. destruct (IH p ltac:(lia)) as (body & Hs & Hp).
    exists (backslash :: d :: body). split; [by constructor|]. destruct Hp as [[rest ->]|[->| ->]]; eauto.
  - destruct (IH p ltac:(lia)) as (body & Hs & Hp). exists (c :: body). split; [by constructor|]. destruct Hp as [[rest ->]|[->| ->]]; eauto.
Qed.
Lemma string_body_le p : ((string_body p).1 <= length p)%nat.
Proof.
  destruct (string_body_cases _ p (Nat.le_refl _)) as (body & Hs & [[rest ->]|[->| ->]]).
  - rewrite string_body_closed by done. rewrite length_app. simpl. lia.
  - by rewrite (proj1 (string_body_open _ Hs)).
  - rewrite (proj2 (string_body_open _ Hs)), length_app. simpl. lia.
Qed.

(** ** Items *)

Lemma count_all_le ok p : (count_all ok p <= length p)%nat.
Proof. apply count_le. Qed.

Lemma symbol_length_bounds p c : (1 <= symbol_length p c <= 3)%nat.
Proof. unfold symbol_length. destruct (_ && _); [lia|]. destruct (two_char _ _); lia. Qed.

Lemma at_is_length p i c : at_is p i c = true -> (i < length p)%nat.
Proof. unfold at_is. destruct (p !! i) eqn:E; [|done]. intros _. by eapply lookup_lt_Some. Qed.

Lemma two_char_length p c : two_char p c = true -> (1 < length p)%nat.
Proof. unfold two_char. rewrite !orb_true_iff, !andb_true_iff, !orb_true_iff. intros H. destruct_or?; destruct_and?; destruct_or?; by eapply at_is_length. Qed.

Lemma symbol_length_le p c : p <> [] -> (symbol_length p c <= length p)%nat.
Proof.
  intros Hp. unfold symbol_length. destruct (_ && at_is p 2 _) eqn:E; [apply andb_true_iff in E as [_ E]; apply at_is_length in E; lia|].
  destruct (two_char p c) eqn:E2; [by apply two_char_length in E2|]. destruct p; [done|simpl; lia].
Qed.

Lemma based_literal_bounds p n : based_literal p = Some n -> (1 <= n <= length p)%nat.
Proof.
  unfold based_literal. destruct p as [|c [|v r]]; [done..|]. cbn [lookup list_lookup]. destruct (is_fill v); [intros [= <-]; simpl; lia|].
  simpl. destruct (letter "s" "S" v).
  - destruct r as [|b r]; [done|]. cbn [lookup list_lookup]. destruct (is_base b); [|done]. intros [= <-]. pose proof (count_le (based_ok b) (fun _ nc => nc) apostrophe (v :: b :: r)).
    unfold based_body. simpl in *. lia.
  - cbn [lookup list_lookup]. destruct (is_base v); [|done]. intros [= <-]. pose proof (count_le (based_ok v) (fun _ nc => nc) apostrophe (v :: r)). unfold based_body. simpl in *. lia.
Qed.

Definition item_length (i : item) : nat := match i with it_skip n => n | it_token _ n => n | it_string n _ => n end.

Lemma scan_bounds c r : (1 <= item_length (scan (c :: r) c) <= length (c :: r))%nat.
Proof.
  unfold scan. destruct (is_space c); [simpl; lia|]. destruct ((c =c "/"%char) && at_is (c :: r) 1 "/"%char) eqn:E1.
  { apply andb_true_iff in E1 as [E1 _]. apply char_eq_true in E1 as ->. pose proof (count_all_le (fun c => negb (c =c newline)) r) as H.
    unfold line_comment, count_all in *. simpl in *. lia. }
  destruct ((c =c "/"%char) && at_is (c :: r) 1 "*"%char) eqn:E2.
  { apply andb_true_iff in E2 as [_ E2]. apply at_is_length in E2. simpl in *. pose proof (block_comment_le (drop 1 r)). rewrite length_drop in *. lia. }
  destruct (c =c quote); [pose proof (string_body_le r) as H; simpl; destruct (string_body r); simpl in *; lia|].
  destruct (_ || _); [pose proof (count_all_le is_ident_continue r); unfold ident_body in *; simpl; lia|].
  destruct (if c =c apostrophe then based_literal (c :: r) else None) as [n|] eqn:Eb.
  { destruct (c =c apostrophe); [|done]. by apply based_literal_bounds in Eb. }
  destruct (is_digit c); [pose proof (count_le num_ok num_step (num_start c) r); unfold number_body in *; simpl; lia|].
  pose proof (symbol_length_bounds (c :: r) c). pose proof (symbol_length_le (c :: r) c ltac:(done)). simpl in *. lia.
Qed.

(** ** The classes of characters *)

(** Membership of a known character in a class is computed. *)
Ltac is_among := apply (bool_decide_eq_true_1 _); vm_compute; reflexivity.
Ltac not_among := apply (bool_decide_eq_false_1 _); vm_compute; reflexivity.
Ltac cases_among H :=
  cbv [operators map chars String.list_ascii_of_string] in H; rewrite ?elem_of_cons, ?elem_of_nil in H; destruct_or? H; simplify_eq; try done.
Ltac among_absurd H := exfalso; revert H; not_among.

Lemma is_space_blanks c : is_space c = bool_decide (c ∈ blanks).
Proof. by destruct c as [[][][][][][][][]]. Qed.
Lemma is_alpha_letters c : is_alpha c = bool_decide (c ∈ letters).
Proof. by destruct c as [[][][][][][][][]]. Qed.
Lemma is_digit_digits c : is_digit c = bool_decide (c ∈ digits).
Proof. by destruct c as [[][][][][][][][]]. Qed.
Lemma is_ident_continue_spec c : is_ident_continue c = bool_decide (c ∈ letters ++ digits ++ ["$"%char]).
Proof. by destruct c as [[][][][][][][][]]. Qed.
Lemma is_ident_start_spec c : is_alpha c || (c =c "$"%char) = bool_decide (c ∈ letters ++ ["$"%char]).
Proof. by destruct c as [[][][][][][][][]]. Qed.
Lemma is_fill_spec c : is_fill c = bool_decide (c ∈ chars "01xXzZ").
Proof. by destruct c as [[][][][][][][][]]. Qed.
Lemma is_base_spec c : is_base c = bool_decide (c ∈ chars "bodhBODH").
Proof. by destruct c as [[][][][][][][][]]. Qed.
Lemma is_sign_spec c : letter "s" "S" c = bool_decide (c ∈ chars "sS").
Proof. by destruct c as [[][][][][][][][]]. Qed.
Lemma is_decimal_spec c : letter "d" "D" c = bool_decide (c ∈ chars "dD").
Proof. by destruct c as [[][][][][][][][]]. Qed.

(** ** The longest match *)

Lemma longest_cons P start x body rest : longest P start (x :: body) rest <-> P start x /\ longest P (start ++ [x]) body rest.
Proof.
  unfold longest. rewrite <- !app_assoc. split.
  - intros [H1 H2]. split_and!; [by rewrite <- (app_nil_r start); apply (H1 [] x body)| |done].
    intros pre y post ->. rewrite <- app_assoc. by apply (H1 (x :: pre) y post).
  - intros (Hx & H1 & H2). split; [|done]. intros [|y pre] z post [= -> ->]; [by rewrite app_nil_r|].
    specialize (H1 pre z post eq_refl). by rewrite <- app_assoc in H1.
Qed.
Lemma longest_nil P start rest : longest P start [] rest <-> match rest with x :: _ => ~ P start x | [] => True end.
Proof. unfold longest. rewrite app_nil_r. split; [by intros [_ H]|]. intros H. split; [|done]. by intros []. Qed.

Lemma longest_inj P start body rest body' rest' : longest P start body rest -> longest P start body' rest' ->
  body ++ rest = body' ++ rest' -> body = body'.
Proof.
  revert start body'. induction body as [|x body IH]; intros start [|y body'].
  - done.
  - rewrite longest_nil, longest_cons. simpl. by intros H [H' _] ->.
  - rewrite longest_nil, longest_cons. simpl. by intros [H' _] H <-.
  - rewrite !longest_cons. intros [_ H] [_ H'] [= -> E]. f_equal. by eapply IH.
Qed.

Lemma count_longest {S} (ok : S -> ascii -> bool) step (P : text -> ascii -> Prop) (I : text -> S -> Prop) :
  (forall start s c, I start s -> ok s c = true <-> P start c) ->
  (forall start s c, I start s -> ok s c = true -> I (start ++ [c]) (step s c)) ->
  forall p start s, I start s -> longest P start (take (count_while ok step s p) p) (drop (count_while ok step s p) p).
Proof.
  intros Hok Hstep p. induction p as [|c p IH]; intros start s Hs; simpl; [by apply longest_nil|].
  destruct (ok s c) eqn:E; simpl; [|apply longest_nil; by rewrite <- (Hok start s c Hs), E].
  apply longest_cons. split; [by apply (Hok start s c)|]. apply IH. by apply Hstep.
Qed.

Lemma count_all_longest ok P : (forall start c, ok c = true <-> P start c) ->
  forall start p, longest P start (take (count_all ok p) p) (drop (count_all ok p) p).
Proof. intros H start p. by apply (count_longest (fun _ => ok) (fun s _ => s) P (fun _ _ => True)). Qed.

Lemma line_longest start p : longest in_line start (take (line_comment p) p) (drop (line_comment p) p).
Proof. apply count_all_longest. intros ? c. unfold in_line. by rewrite negb_true_iff, <- not_true_iff_false, char_eq_true. Qed.
Lemma ident_longest start p : longest in_identifier start (take (ident_body p) p) (drop (ident_body p) p).
Proof. apply count_all_longest. intros ? c. by rewrite is_ident_continue_spec, bool_decide_eq_true. Qed.

(** ** The base of a number *)

Lemma apostrophe_last (a a' t t' : text) : apostrophe ∉ t -> apostrophe ∉ t' -> a ++ apostrophe :: t = a' ++ apostrophe :: t' -> t = t'.
Proof.
  revert a'. induction a as [|x a IH]; intros [|y a'] Ht Ht' E; simplify_eq/=; [done| | |by eapply IH].
  - destruct Ht. rewrite elem_of_app, elem_of_cons. auto.
  - destruct Ht'. rewrite elem_of_app, elem_of_cons. auto.
Qed.
Lemma signs_inj sg sg' b b' (mid mid' : text) : Forall (fun x => x ∈ chars "sS") sg -> Forall (fun x => x ∈ chars "sS") sg' ->
  b ∉ chars "sS" -> b' ∉ chars "sS" -> sg ++ b :: mid = sg' ++ b' :: mid' -> b = b' /\ mid = mid'.
Proof.
  intros H. revert sg'. induction H as [|x sg Hx H IH]; intros [|y sg'] H' Hb Hb' E; simplify_eq/=; [done| | |].
  - by apply Forall_cons in H' as [? _].
  - done.
  - apply Forall_cons in H' as [_ H']. by eapply IH.
Qed.
Lemma signs_no_apostrophe (sg : text) : Forall (fun x => x ∈ chars "sS") sg -> apostrophe ∉ sg.
Proof. intros H Ha. eapply Forall_forall in H; [|done]. among_absurd H. Qed.
Lemma decimal_no_sign b : b ∈ chars "dD" -> b ∉ chars "sS" /\ b <> apostrophe.
Proof. intros H. cases_among H; (split; [|done]); not_among. Qed.

(** What has been read of a number: no apostrophe, signs after the last one,
    or a base after them. *)
Inductive read_so_far : text -> num_state -> Prop :=
  | read_size start prev : apostrophe ∉ start -> read_so_far start (mk_num false false false zero prev)
  | read_signs a sg prev : Forall (fun x => x ∈ chars "sS") sg -> read_so_far (a ++ apostrophe :: sg) (mk_num true false false zero prev)
  | read_base a sg b mid prev : Forall (fun x => x ∈ chars "sS") sg -> b ∉ chars "sS" -> apostrophe ∉ b :: mid -> last (b :: mid) = Some prev ->
      read_so_far (a ++ apostrophe :: sg ++ b :: mid) (mk_num true true (letter "d" "D" b) b prev).

Lemma minus_after_read start s : read_so_far start s -> minus_after start <-> allow_minus s && (num_prev s =c num_base s) = true.
Proof.
  intros [st prev Ha|a sg prev Hs|a sg b mid prev Hs Hb Hm Hl]; simpl.
  - split; [|done]. intros (a & sg & b & mid & -> & _). destruct Ha. rewrite elem_of_app, elem_of_cons. auto.
  - split; [|done]. intros (a' & sg' & b & mid & E & Hs' & Hd & Hm & _). apply decimal_no_sign in Hd as [Hd Hb]. exfalso.
    apply apostrophe_last in E as ->; [apply Forall_app in Hs as [_ Hs]; by apply Forall_cons in Hs as [? _]|by apply signs_no_apostrophe|].
    rewrite elem_of_app, elem_of_cons. intros [Hi|[Hi|Hi]]; [by apply signs_no_apostrophe in Hs'|done|done].
  - rewrite is_decimal_spec, andb_true_iff, bool_decide_eq_true, char_eq_true. split.
    + intros (a' & sg' & b' & mid' & E & Hs' & Hd & Hm' & Hl'). destruct (decimal_no_sign b' Hd) as [Hns Hna].
      apply apostrophe_last in E.
      * apply signs_inj in E as [-> ->]; [|done..]. split; [done|congruence].
      * rewrite elem_of_app. intros [Hi|Hi]; [by apply signs_no_apostrophe in Hs|done].
      * rewrite elem_of_app, elem_of_cons. intros [Hi|[Hi|Hi]]; [by apply signs_no_apostrophe in Hs'|done|done].
    + intros [Hd ->]. exists a, sg, b, mid. apply not_elem_of_cons in Hm as [_ Hm]. done.
Qed.

Lemma number_longest c p : is_digit c = true ->
  longest in_number [c] (take (number_body (num_start c) p) p) (drop (number_body (num_start c) p) p).
Proof.
  intros Hc. apply (count_longest num_ok num_step in_number read_so_far).
  - intros start s x Hs. unfold num_ok, in_number, in_unsized. rewrite (minus_after_read start s Hs), elem_of_app.
    rewrite is_digit_digits, is_alpha_letters, !orb_true_iff, !bool_decide_eq_true, <- andb_assoc, (andb_true_iff (x =c _)), !char_eq_true.
    assert (x = "_"%char -> x ∈ letters) by (intros ->; is_among). tauto.
  - intros start s x Hs Hx. unfold num_step. destruct (x =c apostrophe) eqn:Ea; [apply char_eq_true in Ea as ->; by apply (read_signs start [])|].
    apply Ascii.eqb_neq in Ea. destruct Hs as [st prev Hn|a sg prev Hs|a sg b mid prev Hs Hb Hm Hl]; simpl.
    + constructor. rewrite elem_of_app, list_elem_of_singleton. intros [?|?]; [done|congruence].
    + rewrite is_sign_spec. case_bool_decide as Hsg; rewrite <- app_assoc; simpl.
      * constructor. apply Forall_app. split; [done|]. by apply Forall_singleton.
      * apply read_base; [done..| |done]. apply not_elem_of_cons. split; [congruence|apply not_elem_of_nil].
    + rewrite <- app_assoc. simpl. rewrite <- app_assoc. simpl. apply read_base; [done..| |by rewrite app_comm_cons, last_snoc].
      rewrite app_comm_cons, elem_of_app, list_elem_of_singleton. intros [?|?]; [done|congruence].
  - apply read_size. rewrite list_elem_of_singleton. intros <-. by vm_compute in Hc.
Qed.

Lemma unsized_longest sg b p : sg ∈ map chars [""; "s"; "S"]%string -> b ∈ chars "bodhBODH" ->
  longest in_unsized (apostrophe :: sg ++ [b]) (take (based_body b b p) p) (drop (based_body b b p) p).
Proof.
  intros Hsg Hb. assert (Hs : Forall (fun x => x ∈ chars "sS") sg).
  { cases_among Hsg; [constructor|..]; apply Forall_singleton; is_among. }
  assert (Hn : b ∉ chars "sS" /\ b <> apostrophe).
  { cases_among Hb; (split; [|done]); not_among. }
  apply (count_longest (based_ok b) (fun _ nc => nc) in_unsized (fun start prev => exists mid, start = apostrophe :: sg ++ b :: mid /\ apostrophe ∉ mid /\ last (b :: mid) = Some prev)).
  - intros start prev x (mid & -> & Hm & Hl).
    pose proof (minus_after_read (apostrophe :: sg ++ b :: mid) _ (read_base [] sg b mid prev Hs (proj1 Hn) ltac:(apply not_elem_of_cons; split; [apply not_eq_sym, Hn|done]) Hl)) as Hma.
    unfold based_ok, in_unsized. rewrite Hma, elem_of_app. simpl.
    rewrite is_digit_digits, is_alpha_letters, !orb_true_iff, !bool_decide_eq_true, <- andb_assoc, (andb_true_iff (x =c _)), !char_eq_true.
    assert (x = "_"%char -> x ∈ letters) by (intros ->; is_among). tauto.
  - intros start prev x (mid & -> & Hm & Hl) Hx. exists (mid ++ [x]). split_and!; [simpl; by rewrite <- app_assoc| |by rewrite app_comm_cons, last_snoc].
    rewrite elem_of_app, list_elem_of_singleton. intros [?|<-]; [done|]. unfold based_ok in Hx. by vm_compute in Hx.
  - exists []. split_and!; [done|apply not_elem_of_nil|done].
Qed.

(** ** The lexer follows the grammar *)

(** The characters that start a form are no blanks, slashes or quotes. *)
Definition plain_start (c : ascii) : bool := negb (is_space c) && negb (c =c "/"%char) && negb (c =c quote).
Lemma scan_plain c r : plain_start c = true -> scan (c :: r) c =
  if is_alpha c || (c =c "$"%char) then it_token tk_identifier (S (ident_body r))
  else match (if c =c apostrophe then based_literal (c :: r) else None) with
       | Some n => it_token tk_number n
       | None => if is_digit c then it_token tk_number (S (number_body (num_start c) r)) else it_token tk_symbol (symbol_length (c :: r) c)
       end.
Proof.
  unfold plain_start. rewrite !andb_true_iff, !negb_true_iff. intros [[H1 H2] H3]. unfold scan. by rewrite H1, H2, H3.
Qed.

Lemma two_char_spec c d r : two_char (c :: d :: r) c = true <-> [c; d] ∈ operators.
Proof.
  unfold two_char, at_is. cbn [lookup list_lookup]. split.
  - rewrite !orb_true_iff, !andb_true_iff, !orb_true_iff, !char_eq_true. intros H. destruct_or?; destruct_and?; destruct_or?; subst; is_among.
  - intros H. cases_among H.
Qed.
Lemma operator_length o : o ∈ operators -> length o = 2%nat \/ o = chars "===" \/ o = chars "!==".
Proof. intros H. cases_among H; auto. Qed.

(** [symbol_length] is the length of the longest operator at the start, or 1. *)
Lemma symbol_length_spec c r : let n := symbol_length (c :: r) c in
  (forall o, o ∈ operators -> o `prefix_of` c :: r -> (length o <= n)%nat) /\ (n = 1%nat \/ take n (c :: r) ∈ operators /\ length (take n (c :: r)) = n).
Proof.
  assert (H2 : forall o, o ∈ operators -> o `prefix_of` c :: r -> length o = 2%nat -> two_char (c :: r) c = true).
  { intros [|x [|y [|z o]]] Ho [k E] Hl; simplify_eq/=. by apply two_char_spec. }
  assert (H3 : forall o, o = chars "===" \/ o = chars "!==" -> o `prefix_of` c :: r ->
    ((c =c "="%char) || (c =c "!"%char)) && at_is (c :: r) 1 "="%char && at_is (c :: r) 2 "="%char = true).
  { intros o [->| ->] [k E]; by simplify_eq/=. }
  unfold symbol_length. destruct (((c =c "="%char) || (c =c "!"%char)) && at_is (c :: r) 1 "="%char && at_is (c :: r) 2 "="%char) eqn:E3; cbv zeta.
  - split; [intros o Ho _; destruct (operator_length o Ho) as [?|[->| ->]]; simpl; lia|]. right.
    apply andb_true_iff in E3 as [E3 Ec]. apply andb_true_iff in E3 as [Ea Eb]. destruct r as [|d [|e r]]; [done..|]. unfold at_is in Eb, Ec. cbn [lookup list_lookup] in Eb, Ec.
    apply char_eq_true in Eb as ->. apply char_eq_true in Ec as ->. apply orb_true_iff in Ea as [->%char_eq_true| ->%char_eq_true]; (split; [is_among|done]).
  - assert (Hl : forall o, o ∈ operators -> o `prefix_of` c :: r -> length o = 2%nat).
    { intros o Ho Hp. destruct (operator_length o Ho) as [?|Hv]; [done|]. by specialize (H3 o Hv Hp). }
    destruct (two_char (c :: r) c) eqn:E2.
    + split; [intros o Ho Hp; rewrite (Hl o Ho Hp); lia|]. right. pose proof (two_char_length _ _ E2) as Hn. destruct r as [|d r]; [simpl in Hn; lia|].
      by apply two_char_spec in E2.
    + split; [|by left]. intros o Ho Hp. by specialize (H2 o Ho Hp (Hl o Ho Hp)).
Qed.

Lemma operator_start c t : c :: t ∈ operators -> plain_start c = true /\ is_alpha c || (c =c "$"%char) = false /\ (c =c apostrophe) = false /\ is_digit c = false.
Proof. intros H. cases_among H. Qed.
Lemma ident_start c : is_alpha c || (c =c "$"%char) = true -> plain_start c = true.
Proof. destruct c as [[][][][][][][][]]; done. Qed.
Lemma digit_start c : is_digit c = true -> plain_start c = true /\ is_alpha c || (c =c "$"%char) = false /\ (c =c apostrophe) = false.
Proof. destruct c as [[][][][][][][][]]; done. Qed.

Lemma based_head base prev v r : is_alpha v = true -> based_body base prev (v :: r) = S (based_body base v r).
Proof. intros Ha. unfold based_body. cbn [count_while]. unfold based_ok at 1. by rewrite Ha. Qed.
Lemma base_alpha b : is_base b = true -> is_alpha b = true /\ letter "s" "S" b = false /\ is_fill b = false.
Proof. destruct b as [[][][][][][][][]]; done. Qed.
Lemma sign_alpha b : letter "s" "S" b = true -> is_alpha b = true /\ is_fill b = false /\ is_base b = false.
Proof. destruct b as [[][][][][][][][]]; done. Qed.

(** A literal without a width: its sign, its base and the digits. *)
Lemma based_literal_unsized sg b r : sg ∈ map chars [""; "s"; "S"]%string -> is_base b = true ->
  based_literal ((apostrophe :: sg ++ [b]) ++ r) = Some (length (apostrophe :: sg ++ [b]) + based_body b b r)%nat.
Proof.
  intros Hsg Hb. destruct (base_alpha b Hb) as (Ha & Hs & Hf). unfold based_literal.
  cases_among Hsg; cbn [map chars String.list_ascii_of_string app lookup list_lookup tail length].
  - rewrite Hf, Hs. cbn [lookup list_lookup]. rewrite Hb. by rewrite based_head.
  - cbn [is_fill letter char_eq Ascii.eqb Bool.eqb orb lookup list_lookup]. rewrite Hb. by rewrite !based_head.
  - cbn [is_fill letter char_eq Ascii.eqb Bool.eqb orb lookup list_lookup]. rewrite Hb. by rewrite !based_head.
Qed.
Lemma based_literal_cases r n : based_literal (apostrophe :: r) = Some n ->
  (exists c r', r = c :: r' /\ is_fill c = true /\ n = 2%nat) \/
  (exists sg b r', apostrophe :: r = (apostrophe :: sg ++ [b]) ++ r' /\ sg ∈ map chars [""; "s"; "S"]%string /\ is_base b = true).
Proof.
  unfold based_literal. destruct r as [|v r]; [done|]. cbn [lookup list_lookup]. destruct (is_fill v) eqn:Ef; [intros [= <-]; left; eauto|].
  intros H. right. destruct (letter "s" "S" v) eqn:Es.
  - destruct r as [|b r]; [done|]. cbn [lookup list_lookup] in H. destruct (is_base b) eqn:Eb; [|done]. exists [v], b, r. split_and!; [done| |done].
    unfold letter in Es. rewrite orb_true_iff, !char_eq_true in Es. destruct Es; subst; is_among.
  - cbn [lookup list_lookup] in H. destruct (is_base v) eqn:Eb; [|done]. exists [], v, r. split_and!; [done| |done]. is_among.
Qed.

Lemma take_drop_app {A} (l k : list A) n : n = length l -> take n (l ++ k) = l /\ drop n (l ++ k) = k.
Proof. intros ->. by rewrite take_app_length, drop_app_length. Qed.
Lemma longest_length P start body rest p n : longest P start body rest -> p = body ++ rest -> (n <= length p)%nat ->
  longest P start (take n p) (drop n p) -> n = length body.
Proof.
  intros H -> Hn H'. pose proof (longest_inj P start _ _ _ _ H H' ltac:(by rewrite take_drop)) as ->. rewrite length_take. lia.
Qed.

(** Every piece of the grammar is what [scan] finds. *)
Lemma gap_scan g rest : gap g rest -> exists c g', g = c :: g' /\ scan (g ++ rest) c = it_skip (length g).
Proof.
  intros [c r Hc|body r Hl|body r Hn|body Hn].
  - exists c, []. split; [done|]. unfold scan. by rewrite is_space_blanks, bool_decide_eq_true_2.
  - eexists _, _. split; [done|]. change (scan (chars "//" ++ body ++ r) "/"%char = it_skip (length (chars "//" ++ body))).
    cbn [chars String.list_ascii_of_string app length]. unfold scan. change (is_space "/"%char) with false. cbv iota.
    change (("/"%char =c "/"%char) && at_is ("/"%char :: "/"%char :: body ++ r) 1 "/"%char) with true. cbv iota.
    unfold line_comment. rewrite !count_all_cons. change (negb ("/"%char =c newline)) with true. cbv iota. do 3 f_equal.
    change (line_comment (body ++ r) = length body). eapply longest_length; [exact Hl|done|apply count_all_le|apply line_longest].
  - eexists _, _. split; [done|]. cbn [chars String.list_ascii_of_string app]. rewrite <- app_assoc. cbn [app]. unfold scan. change (is_space "/"%char) with false. cbv iota.
    change (("/"%char =c "/"%char) && at_is ("/"%char :: "*"%char :: body ++ "*"%char :: "/"%char :: r) 1 "/"%char) with false. cbv iota.
    change (("/"%char =c "/"%char) && at_is ("/"%char :: "*"%char :: body ++ "*"%char :: "/"%char :: r) 1 "*"%char) with true. cbv iota.
    cbn [drop]. rewrite drop_0, block_comment_closed by done. cbn [length]. rewrite length_app. simpl. f_equal; lia.
  - eexists _, _. split; [done|]. rewrite app_nil_r. cbn [chars String.list_ascii_of_string app]. unfold scan. change (is_space "/"%char) with false. cbv iota.
    change (("/"%char =c "/"%char) && at_is ("/"%char :: "*"%char :: body) 1 "/"%char) with false. cbv iota.
    change (("/"%char =c "/"%char) && at_is ("/"%char :: "*"%char :: body) 1 "*"%char) with true. cbv iota.
    cbn [drop]. by rewrite drop_0, block_comment_open.
Qed.

Lemma scan_quote r : scan (quote :: r) quote = let '(n, closed) := string_body r in it_string (S n) closed.
Proof. done. Qed.

(** A string has an item of its own. *)
Lemma form_scan k t rest : form k t rest -> exists c t', t = c :: t' /\ (scan (t ++ rest) c = it_token k (length t) \/
  scan (t ++ rest) c = it_string (length t) true /\ k = tk_symbol).
Proof.
  intros [c body r Hc Hl|c r Hc|sg b body r Hsg Hb Hl|c body r Hc Hl|body r Hs|t' r Ht Hmax].
  - exists c, body. split; [done|]. assert (Ha : is_alpha c || (c =c "$"%char) = true) by (by rewrite is_ident_start_spec, bool_decide_eq_true).
    left. cbn [app length]. rewrite scan_plain, Ha by (by apply ident_start). do 2 f_equal.
    eapply longest_length; [exact Hl|done|apply count_all_le|apply ident_longest].
  - eexists _, _. split; [done|]. left. cbn [app]. rewrite scan_plain by done.
    change (is_alpha apostrophe || (apostrophe =c "$"%char)) with false. rewrite char_eq_refl. unfold based_literal. cbn [lookup list_lookup].
    by rewrite is_fill_spec, bool_decide_eq_true_2.
  - eexists _, _. split; [done|]. rewrite <- app_assoc.
    assert (Hp : forall x, scan (apostrophe :: x) apostrophe = match based_literal (apostrophe :: x) with
      | Some n => it_token tk_number n | None => it_token tk_symbol (symbol_length (apostrophe :: x) apostrophe) end) by (intros x; by rewrite scan_plain).
    pose proof (based_literal_unsized sg b (body ++ r) Hsg ltac:(by rewrite is_base_spec, bool_decide_eq_true)) as E.
    left. cbn [app] in *. rewrite Hp, E. f_equal. cbn [length]. rewrite !length_app. simpl. do 2 f_equal.
    eapply longest_length; [exact Hl|done|apply count_le|by apply unsized_longest].
  - exists c, body. split; [done|]. assert (Hd : is_digit c = true) by (by rewrite is_digit_digits, bool_decide_eq_true).
    destruct (digit_start c Hd) as (Hp & Ha & Hq). left. cbn [app length]. rewrite scan_plain, Ha, Hq, Hd by done. do 2 f_equal.
    eapply longest_length; [exact Hl|done|apply count_le|by apply number_longest].
  - eexists _, _. split; [done|]. cbn [app]. rewrite scan_quote, <- app_assoc. cbn [app]. rewrite string_body_closed by done. right. split; [|done]. cbn [length].
    rewrite length_app. simpl. repeat f_equal; lia.
  - destruct t' as [|c t']; [among_absurd Ht|]. exists c, t'. split; [done|]. destruct (operator_start c t' Ht) as (Hp & Ha & Hq & Hd).
    left. cbn [app length]. rewrite scan_plain, Ha, Hq, Hd by done. f_equal.
    destruct (symbol_length_spec c (t' ++ r)) as [H1 H2]. specialize (H1 (c :: t') Ht ltac:(by exists r)). simpl in H1.
    destruct H2 as [H2|[H2 H3]].
    + destruct (operator_length _ Ht) as [Ho|[Ho|Ho]]; rewrite ?Ho in H1; simpl in *; simplify_eq/=; lia.
    + specialize (Hmax _ H2 ltac:(apply prefix_take)). rewrite H3 in Hmax. simpl in Hmax. lia.
Qed.

Lemma open_scan t : open_string t -> exists t', t = quote :: t' /\ scan t quote = it_string (length t) false.
Proof.
  intros [body Hs|body Hs]; eexists; (split; [done|]); rewrite scan_quote; destruct (string_body_open body Hs) as [E1 E2]; [by rewrite E1|].
  rewrite E2. cbn [length]. rewrite length_app. simpl. repeat f_equal; lia.
Qed.

(** What [scan] finds is a piece of the grammar. *)
Definition piece (i : item) (c : ascii) (p : text) : Prop :=
  let t := take (item_length i) p in let rest := drop (item_length i) p in
  match i with
  | it_skip _ => gap t rest
  | it_token k _ => form k t rest \/ (k = tk_symbol /\ t = [c] /\ alone c rest)
  | it_string _ true => form tk_symbol t rest
  | it_string _ false => open_string t /\ rest = []
  end.

Lemma piece_slash r : at_is ("/"%char :: r) 1 "/"%char || at_is ("/"%char :: r) 1 "*"%char = true -> piece (scan ("/"%char :: r) "/"%char) "/"%char ("/"%char :: r).
Proof.
  intros H. assert (Hg : exists g rest, gap g rest /\ "/"%char :: r = g ++ rest).
  { apply orb_true_iff in H as [H|H]; (destruct r as [|d r]; [done|]); apply char_eq_true in H as ->.
    - eexists _, _. split; [apply gap_line, line_longest|]. rewrite <- app_assoc. by rewrite take_drop.
    - destruct (block_comment_cases r) as [(body & rest & -> & Hn)|Hn].
      + eexists _, _. split; [by apply (gap_block body rest)|]. by rewrite <- !app_assoc.
      + eexists _, _. split; [by apply (gap_open r)|]. by rewrite app_nil_r. }
  destruct Hg as (g & rest & Hg & E). rewrite E. destruct (gap_scan _ _ Hg) as (c & g' & -> & Es). injection E as <- _. rewrite Es. unfold piece. cbn [item_length].
  by rewrite take_app_length, drop_app_length.
Qed.

(** A form that starts here is the piece that [scan] finds. *)
Lemma form_piece k t rest c p : form k t rest -> c :: p = t ++ rest -> piece (scan (c :: p) c) c (c :: p).
Proof.
  intros Hf E. destruct (form_scan k t rest Hf) as (c' & t' & -> & [Es|[Es ->]]); rewrite E; injection E as -> ->; rewrite Es; unfold piece; cbn [item_length];
    rewrite take_app_length, drop_app_length; [by left|done].
Qed.

Lemma piece_string r : piece (scan (quote :: r) quote) quote (quote :: r).
Proof.
  destruct (string_body_cases _ r (Nat.le_refl _)) as (body & Hs & Hr).
  assert (Ho : forall t, open_string t -> t = quote :: r -> piece (scan (quote :: r) quote) quote (quote :: r)).
  { intros t Ht <-. destruct (open_scan t Ht) as (t' & _ & Es). rewrite Es. unfold piece. cbn [item_length]. rewrite take_ge, drop_ge by lia. done. }
  destruct Hr as [[rest ->]|[->| ->]].
  - eapply form_piece; [by apply (form_string body rest)|]. cbn [app]. by rewrite <- app_assoc.
  - eapply Ho; [by apply open_plain|done].
  - eapply Ho; [by apply open_escape|done].
Qed.

(** Nothing starts where [scan] finds a symbol of one character. *)
Lemma scan_alone c r : scan (c :: r) c = it_token tk_symbol 1 -> alone c r.
Proof.
  intros Es. split.
  - intros t r' E. split.
    + intros Hg. destruct (gap_scan t r' Hg) as (c' & t' & -> & Eg). rewrite E in Eg. injection E as -> _. congruence.
    + intros k Hf. destruct (form_scan k t r' Hf) as (c' & t' & -> & Eg). rewrite E in Eg. injection E as -> _. rewrite Es in Eg.
      destruct Eg as [Eg|[Eg _]]; [|done]. injection Eg as <- El. destruct t'; [|done]. inversion Hf as [| | | |body ? Hsc Hk Hbody|? ? Ht]; subst.
      * by destruct body.
      * destruct (operator_length _ Ht) as [Ho|[Ho|Ho]]; simplify_eq/=.
  - intros Ho. destruct (open_scan _ Ho) as (t' & [= -> ->] & Eg). congruence.
Qed.

Lemma scan_piece c r : piece (scan (c :: r) c) c (c :: r).
Proof.
  destruct (is_space c) eqn:Esp.
  { unfold scan. rewrite Esp. unfold piece. cbn. rewrite take_0, drop_0. constructor. by rewrite is_space_blanks, bool_decide_eq_true in Esp. }
  destruct ((c =c "/"%char) && (at_is (c :: r) 1 "/"%char || at_is (c :: r) 1 "*"%char)) eqn:Esl.
  { apply andb_true_iff in Esl as [->%char_eq_true H]. by apply piece_slash. }
  destruct (c =c quote) eqn:Eq; [apply char_eq_true in Eq as ->; apply piece_string|].
  destruct (is_alpha c || (c =c "$"%char)) eqn:Ea.
  { eapply form_piece; [apply (form_identifier c (take (ident_body r) r) (drop (ident_body r) r)); [by rewrite is_ident_start_spec, bool_decide_eq_true in Ea|apply ident_longest]|].
    cbn [app]. by rewrite take_drop. }
  destruct (is_digit c) eqn:Ed.
  { eapply form_piece; [apply (form_number c (take (number_body (num_start c) r) r) (drop (number_body (num_start c) r) r));
      [by rewrite is_digit_digits, bool_decide_eq_true in Ed|by apply number_longest]|]. cbn [app]. by rewrite take_drop. }
  destruct (if c =c apostrophe then based_literal (c :: r) else None) as [n|] eqn:Eb.
  { destruct (c =c apostrophe) eqn:Eap; [|done]. apply char_eq_true in Eap as ->. apply based_literal_cases in Eb as [(v & r' & -> & Hv & _)|(sg & b & r' & E & Hsg & Hb)].
    - eapply form_piece; [apply (form_fill v r'); by rewrite is_fill_spec, bool_decide_eq_true in Hv|done].
    - rewrite is_base_spec, bool_decide_eq_true in Hb. eapply form_piece; [apply (form_unsized sg b (take (based_body b b r') r') (drop (based_body b b r') r') Hsg Hb); by apply unsized_longest|].
      by rewrite <- app_assoc, take_drop. }
  assert (Es : scan (c :: r) c = it_token tk_symbol (symbol_length (c :: r) c)).
  { unfold scan. rewrite andb_orb_distrib_r in Esl. apply orb_false_iff in Esl as [-> ->]. cbn [tail]. by rewrite Esp, Eq, Ea, Eb, Ed. }
  destruct (symbol_length_spec c r) as [H1 [H2|[H2 H3]]].
  - rewrite Es, H2. unfold piece. cbn. rewrite take_0, drop_0. right. split_and!; [done..|]. apply scan_alone. by rewrite Es, H2.
  - eapply form_piece; [|symmetry; apply take_drop]. apply form_operator; [exact H2|]. rewrite take_drop, H3. exact H1.
Qed.

Lemma make_tok_at smap pre k t : make_tok smap (length pre) (position pre) k t = token_at smap pre k t.
Proof. unfold make_tok, token_at, located, remap_line_col. destruct smap as [m|]; [|done]. simpl. by destruct (m !! length pre). Qed.
Lemma unterminated_at smap pre : unterminated smap (length pre) (position pre) = open_error smap pre.
Proof. unfold unterminated, open_error, located, remap_line_col. destruct smap as [m|]; [|done]. simpl. by destruct (m !! length pre). Qed.

Lemma lex_loop_lexes smap : forall fuel pre rest, (length rest <= fuel)%nat ->
  exists r, lex_loop fuel smap rest (length pre) (position pre) = Some r /\ lexes smap pre rest (lr_tokens r) (lr_errors r).
Proof.
  induction fuel as [|fuel IH]; intros pre rest Hf; (destruct rest as [|c r]; [eexists; split; [done|constructor]|]); [simpl in Hf; lia|].
  cbn [lex_loop]. pose proof (scan_bounds c r) as Hb. pose proof (scan_piece c r) as Hp. set (p := c :: r) in *.
  assert (Hn : forall n, (1 <= n <= length p)%nat -> exists r', lex_loop fuel smap (drop n p) (length pre + n) (bumps (position pre) (take n p)) = Some r' /\
    lexes smap (pre ++ take n p) (drop n p) (lr_tokens r') (lr_errors r')).
  { intros n Hn. destruct (IH (pre ++ take n p) (drop n p)) as (r' & E & Hl); [rewrite length_drop; lia|]. exists r'. split; [|done].
    rewrite length_app, length_take, Nat.min_l in E by lia. by rewrite position_bumps, bumps_app, <- position_bumps in E. }
  destruct (scan p c) as [n|k n|n cl] eqn:Es; unfold piece in Hp; cbn [item_length] in Hb, Hp; destruct (Hn n Hb) as (r' & -> & Hl); eexists; (split; [done|]);
    simpl; rewrite ?make_tok_at, ?unterminated_at, <- (take_drop n p) at 1.
  - by apply lexes_gap.
  - destruct Hp as [Hp|(-> & Ht & Ha)]; [by apply lexes_token|]. rewrite Ht in *. by apply lexes_alone.
  - destruct cl; [by apply lexes_token|]. destruct Hp as [Hp Hd]. rewrite Hd in *. rewrite app_nil_r. by apply lexes_open.
Qed.

(** The loop on a piece whose item is known. *)
Lemma lex_piece fuel smap pre c t rest i : scan (c :: t ++ rest) c = i -> item_length i = length (c :: t) ->
  lex_loop (S fuel) smap (c :: t ++ rest) (length pre) (position pre) =
  let next := lex_loop fuel smap rest (length (pre ++ c :: t)) (position (pre ++ c :: t)) in
  match i with
  | it_skip _ => next
  | it_token k _ => add_tok (token_at smap pre k (c :: t)) <$> next
  | it_string _ closed => (fun r => add_errors (if closed then [] else [open_error smap pre]) (add_tok (token_at smap pre tk_symbol (c :: t)) r)) <$> next
  end.
Proof.
  intros Es Hi. rewrite app_length, (position_bumps (pre ++ _)), bumps_app, <- position_bumps. cbn [lex_loop]. rewrite Es.
  destruct (take_drop_app (c :: t) rest (length (c :: t)) eq_refl) as [Et Ed]. cbn [app] in Et, Ed.
  destruct i as [n|k n|n cl]; cbn [item_length] in Hi; subst n; cbv zeta; by rewrite Et, Ed, ?make_tok_at, ?unterminated_at.
Qed.

(** A cutting of the source is the one that the loop finds. *)
Lemma lexes_lex_loop smap pre rest ts es : lexes smap pre rest ts es ->
  forall fuel, (length rest <= fuel)%nat -> lex_loop fuel smap rest (length pre) (position pre) = Some (mk_lex ts es).
Proof.
  induction 1 as [pre|pre g rest ts es Hg _ IH|pre k t rest ts es Hf _ IH|pre c rest ts es Ha _ IH|pre t ts es Ho _ IH]; intros fuel Hl.
  - by destruct fuel.
  - destruct (gap_scan g rest Hg) as (c & g' & -> & Es). rewrite length_app in Hl. simpl in Hl. destruct fuel as [|fuel]; [lia|]. cbn [app] in *.
    rewrite (lex_piece _ _ _ _ _ _ _ Es) by done. cbv zeta. apply IH. lia.
  - destruct (form_scan k t rest Hf) as (c & t' & -> & Es). rewrite length_app in Hl. simpl in Hl. destruct fuel as [|fuel]; [lia|]. cbn [app] in *.
    destruct Es as [Es|[Es ->]]; rewrite (lex_piece _ _ _ _ _ _ _ Es) by done; cbv zeta; rewrite IH by lia; done.
  - assert (Es : scan (c :: [] ++ rest) c = it_token tk_symbol 1).
    { destruct Ha as [Hno Hop]. pose proof (scan_piece c rest) as Hp. pose proof (take_drop (item_length (scan (c :: rest) c)) (c :: rest)) as Htd. unfold piece in Hp. cbn [app].
      destruct (Hno _ _ Htd) as [Hng Hnf]. pose proof (scan_bounds c rest) as Hb. destruct (scan (c :: rest) c) as [n|k n|n [|]] eqn:E; cbn [item_length] in *.
      - done.
      - destruct Hp as [Hp|(-> & Ht & _)]; [by apply Hnf in Hp|]. f_equal. apply (f_equal length) in Ht. rewrite length_take in Ht. simpl in *. lia.
      - by apply Hnf in Hp.
      - destruct Hp as [Hp Hr]. rewrite Hr, app_nil_r in Htd. by rewrite Htd in Hp. }
    simpl in Hl. destruct fuel as [|fuel]; [lia|]. change (c :: rest) with (c :: [] ++ rest). rewrite (lex_piece _ _ _ _ _ _ _ Es) by done. cbv zeta. rewrite IH by lia. done.
  - destruct (open_scan t Ho) as (t' & -> & Es). simpl in Hl. destruct fuel as [|fuel]; [lia|]. rewrite <- (app_nil_r t') in Es |- * at 1.
    rewrite (lex_piece _ _ _ _ _ _ _ Es) by (simpl; by rewrite app_nil_r). cbv zeta. rewrite IH by (simpl; lia). done.
Qed.

(** C37: the lexer returns on every source, and the tokens and errors it gives
    are the only ones that the lexical grammar allows.  The grammar cuts the
    text in order and without a rest into: blanks; line comments up to the
    newline; block comments up to the first closing mark, or to the end of the
    text without one; identifiers (a letter, an underscore or a dollar sign
    and the longest run of letters, digits and dollar signs); fill literals
    (an apostrophe and one of 0 1 x z); literals without a width (an
    apostrophe, perhaps a sign, a base and the longest run of letters and
    digits); numbers (a digit and the longest run of letters, digits and
    apostrophes), where a minus belongs to the run directly after the letter
    of the decimal base; strings up to the first quote that no backslash
    escapes; the longest of the seventeen operators of two or three
    characters; and any other character as a symbol of its own.  A token has
    the line and column of its first character, or what the map of the
    preprocessor says for it; a string without an end is the last symbol and
    the one error. *)
Theorem lexing_partitions src smap : exists r, lex src smap = Some r /\
  lexes smap [] src (lr_tokens r) (lr_errors r) /\
  forall ts es, lexes smap [] src ts es -> ts = lr_tokens r /\ es = lr_errors r.
Proof.
  destruct (lex_loop_lexes smap (length src) [] src (Nat.le_refl _)) as (r & E & Hl). exists r. split_and!; [exact E|exact Hl|].
  intros ts es H. apply lexes_lex_loop with (fuel := length src) in H; [|done]. rewrite E in H. by injection H as ->.
Qed.

(** ** Lexing again *)

Definition space : ascii := " "%char.

Lemma symbol_again c r n rest : symbol_length (c :: r) c = n -> is_space c = false -> symbol_length (take n (c :: r) ++ space :: rest) c = n.
Proof.
  unfold symbol_length. destruct (((c =c "="%char) || (c =c "!"%char)) && at_is (c :: r) 1 "="%char && at_is (c :: r) 2 "="%char) eqn:E3.
  { intros <- _. apply andb_true_iff in E3 as [E3 Ec]. destruct r as [|d [|e r]]; [done..|]. change (take 3 (c :: d :: e :: r) ++ space :: rest) with (c :: d :: e :: space :: rest).
    unfold at_is in *. cbn [lookup list_lookup] in *. by rewrite E3, Ec. }
  destruct (two_char (c :: r) c) eqn:E2; intros <- _.
  - pose proof (two_char_length _ _ E2) as Hl. destruct r as [|d r]; [simpl in Hl; lia|]. change (take 2 (c :: d :: r) ++ space :: rest) with (c :: d :: space :: rest).
    assert (Et : two_char (c :: d :: space :: rest) c = two_char (c :: d :: r) c) by done. rewrite Et, E2. unfold at_is. cbn [lookup list_lookup]. by rewrite andb_false_r.
  - change (take 1 (c :: r) ++ space :: rest) with (c :: space :: rest). unfold two_char, at_is. cbn [lookup list_lookup].
    change (space =c "="%char) with false. repeat (rewrite andb_false_r; simpl). done.
Qed.

Lemma based_again r n rest : based_literal (apostrophe :: r) = Some n -> based_literal (take n (apostrophe :: r) ++ space :: rest) = Some n.
Proof.
  intros E. destruct (based_literal_cases r n E) as [(c & r' & -> & Hc & ->)|(sg & b & r' & Er & Hsg & Hb)].
  - unfold based_literal. cbn [take app lookup list_lookup]. by rewrite Hc.
  - rewrite Er in E |- *. rewrite based_literal_unsized in E by done. apply (inj Some) in E as <-. rewrite take_app_add, <- app_assoc, based_literal_unsized by done.
    do 2 f_equal. apply count_again. intros s'. unfold based_ok. by vm_compute.
Qed.

Lemma scan_again c r k n rest : scan (c :: r) c = it_token k n -> scan (take n (c :: r) ++ space :: rest) c = it_token k n.
Proof.
  pose proof (scan_bounds c r) as Hb. intros Hs. rewrite Hs in Hb. cbn [item_length] in Hb. destruct n as [|n]; [lia|]. revert Hs. unfold scan. destruct (is_space c) eqn:Esp; [done|].
  destruct ((c =c "/"%char) && at_is (c :: r) 1 "/"%char) eqn:E1; [done|]. destruct ((c =c "/"%char) && at_is (c :: r) 1 "*"%char) eqn:E2; [done|].
  destruct (c =c quote); [by destruct (string_body _)|]. 
  assert (Hslash : forall d, d <> space -> (c =c "/"%char) && at_is (c :: r) 1 d = false -> (c =c "/"%char) && at_is (take (S n) (c :: r) ++ space :: rest) 1 d = false).
  { intros d Hd. destruct (c =c "/"%char); [|done]. simpl. unfold at_is. destruct n as [|n]; [|by destruct r; [simpl in Hb; lia|]]. cbn. intros _. apply Ascii.eqb_neq. congruence. }
  rewrite (Hslash "/"%char), (Hslash "*"%char) by done. destruct (is_alpha c || (c =c "$"%char)) eqn:Ea.
  { intros [= <- En]. cbn [take app tail]. do 2 f_equal. rewrite <- En. by apply count_again. }
  destruct (c =c apostrophe) eqn:Eap.
  - apply char_eq_true in Eap as ->. destruct (based_literal (apostrophe :: r)) as [j|] eqn:Eb.
    + intros [= <- ->]. by rewrite based_again.
    + intros [= <- En]. assert (n = 0%nat) as -> by (by vm_compute in En). done.
  - destruct (is_digit c) eqn:Ed; intros [= <- En].
    + cbn [take app tail]. do 2 f_equal. rewrite <- En. apply count_again. intros s'. unfold num_ok. by vm_compute.
    + f_equal. by apply symbol_again.
Qed.

Lemma scan_string c r n cl : scan (c :: r) c = it_string n cl -> c = quote.
Proof.
  destruct (c =c quote) eqn:Eq; [by apply char_eq_true in Eq|]. unfold scan. rewrite Eq. intros H. exfalso. revert H. destruct (is_space c); [done|].
  destruct (_ && at_is _ 1 "/"%char); [done|]. destruct (_ && at_is _ 1 "*"%char); [done|]. destruct (_ || _); [done|].
  destruct (if c =c apostrophe then _ else _); [done|]. by destruct (is_digit c).
Qed.
Lemma string_again c r n rest : scan (c :: r) c = it_string n true -> scan (take n (c :: r) ++ space :: rest) c = it_string n true.
Proof.
  intros Es. pose proof (scan_string _ _ _ _ Es) as ->. rewrite scan_quote in Es. destruct (string_body_cases _ r (Nat.le_refl _)) as (body & Hs & [[r' ->]|[->| ->]]).
  - rewrite string_body_closed in Es by done. injection Es as <-. cbn [take]. rewrite take_app_ge by lia. replace (S (length body) - length body)%nat with 1%nat by lia.
    cbn [take]. rewrite take_0. cbn [app]. rewrite scan_quote, <- app_assoc. cbn [app]. by rewrite string_body_closed.
  - by rewrite (proj1 (string_body_open _ Hs)) in Es.
  - by rewrite (proj2 (string_body_open _ Hs)) in Es.
Qed.

(** A text that starts with the text of a token and a space. *)
Definition unlex (ts : list token) : text := concat (map (fun t => tok_text t ++ [space]) ts).
Definition view (t : token) : token_kind * text := (tok_kind t, tok_text t).

Lemma unlex_cons t ts : unlex (t :: ts) = tok_text t ++ space :: unlex ts.
Proof. unfold unlex. simpl. by rewrite <- app_assoc. Qed.

Lemma lex_step fuel smap c q off lc : lex_loop (S fuel) smap (c :: q) off lc =
  let next n := lex_loop fuel smap (drop n (c :: q)) (off + n)%nat (bumps lc (take n (c :: q))) in
  match scan (c :: q) c with
  | it_skip n => next n
  | it_token k n => add_tok (make_tok smap off lc k (take n (c :: q))) <$> next n
  | it_string n closed => (fun r => add_errors (if closed then [] else [unterminated smap off lc])
                             (add_tok (make_tok smap off lc tk_symbol (take n (c :: q))) r)) <$> next n
  end.
Proof. done. Qed.

Definition kind_of (i : item) : token_kind := match i with it_token k _ => k | _ => tk_symbol end.
Definition complete (i : item) : Prop := match i with it_skip _ => False | it_token _ _ => True | it_string _ cl => cl = true end.

Lemma scan_item_again c r rest : complete (scan (c :: r) c) ->
  scan (take (item_length (scan (c :: r) c)) (c :: r) ++ space :: rest) c = scan (c :: r) c.
Proof. destruct (scan (c :: r) c) as [n|k n|n cl] eqn:E; simpl; [done|intros _; by apply scan_again|intros ->; by apply string_again]. Qed.

(** The text of a token and a space, before a text. *)
Lemma lex_loop_token fuel c r rest off lc : complete (scan (c :: r) c) ->
  let t := take (item_length (scan (c :: r) c)) (c :: r) in
  exists off' lc', lex_loop (S (S fuel)) None (t ++ space :: rest) off lc =
    add_tok (make_tok None off lc (kind_of (scan (c :: r) c)) t) <$> lex_loop fuel None rest off' lc'.
Proof.
  intros Hc t. pose proof (scan_bounds c r) as Hb. pose proof (scan_item_again c r rest Hc) as Ha. fold t in Ha. revert Hc t Hb Ha. generalize (scan (c :: r) c) as i.
  intros i Hc t Hb Ha. assert (Hl : length t = item_length i) by (unfold t; rewrite length_take; lia).
  destruct (item_length i) as [|n] eqn:En; [lia|]. assert (Et : exists t', t = c :: t') by (by eexists). destruct Et as [t' Et]. clearbody t. rewrite Et in *.
  cbn [app] in *. rewrite lex_step, Ha. cbv zeta.
  assert (Hd : drop (S n) (c :: t' ++ space :: rest) = space :: rest) by (rewrite app_comm_cons; by rewrite drop_app_length').
  assert (Hk : take (S n) (c :: t' ++ space :: rest) = c :: t') by (rewrite app_comm_cons; by rewrite take_app_length').
  destruct i as [m|k m|m cl]; [done| |simpl in Hc; subst cl]; cbn [item_length] in En; subst m; rewrite Hd, Hk, lex_step;
    change (scan (space :: rest) space) with (it_skip 1); cbv zeta; cbn [drop]; rewrite drop_0; eexists _, _; [done|].
  by rewrite option_fmap_ext with (g := add_tok (make_tok None off lc tk_symbol (c :: t'))) by done.
Qed.

Lemma lex_loop_again smap : forall fuel p off lc r, lex_loop fuel smap p off lc = Some r -> lr_errors r = [] ->
  forall fuel' off' lc', (length (unlex (lr_tokens r)) <= fuel')%nat ->
  exists r', lex_loop fuel' None (unlex (lr_tokens r)) off' lc' = Some r' /\ view <$> lr_tokens r' = view <$> lr_tokens r /\ lr_errors r' = [].
Proof.
  induction fuel as [|fuel IH]; intros [|c p] off lc r E He fuel' off' lc' Hf; simplify_eq/=;
    try (destruct fuel' as [|fuel']; [simpl in Hf; lia|]; eexists; split_and!; [by destruct fuel'|done|done]).
  pose proof (scan_bounds c p) as Hb.
  assert (Htok : forall r0, complete (scan (c :: p) c) ->
    lex_loop fuel smap (drop (item_length (scan (c :: p) c)) (c :: p)) (off + item_length (scan (c :: p) c)) (bumps lc (take (item_length (scan (c :: p) c)) (c :: p))) = Some r0 ->
    r = add_tok (make_tok smap off lc (kind_of (scan (c :: p) c)) (take (item_length (scan (c :: p) c)) (c :: p))) r0 ->
    exists r', lex_loop fuel' None (unlex (lr_tokens r)) off' lc' = Some r' /\ view <$> lr_tokens r' = view <$> lr_tokens r /\ lr_errors r' = []).
  { intros r0 Hc E0 ->. cbn [add_tok lr_tokens lr_errors] in He, Hf |- *. rewrite unlex_cons in Hf |- *. cbn [make_tok tok_text] in Hf |- *.
    rewrite length_app, length_take in Hf. cbn [length] in Hf, Hb.
    destruct fuel' as [|[|fuel']]; [lia..|]. destruct (lex_loop_token fuel' c p (unlex (lr_tokens r0)) off' lc' Hc) as (o & l & ->).
    destruct (IH _ _ _ r0 E0 He fuel' o l) as (r' & -> & Hv & He'); [lia|]. eexists. split_and!; [done| |done]. cbn [add_tok lr_tokens]. rewrite !fmap_cons. by f_equal. }
  destruct (scan (c :: p) c) as [n|k n|n cl] eqn:Es; cbn [item_length] in *.
  - by apply (IH _ _ _ r E He).
  - destruct (lex_loop fuel smap _ _ _) as [r0|] eqn:E0; [|done]. injection E as <-. by apply (Htok r0).
  - destruct (lex_loop fuel smap _ _ _) as [r0|] eqn:E0; [|done]. injection E as <-. destruct cl; [|done]. by apply (Htok r0).
Qed.

(** The tokens of a source without errors, printed with a space after each,
    are lexed to the same kinds and texts again. *)
Theorem lexing_is_stable src smap r : lex src smap = Some r -> lr_errors r = [] ->
  exists r', lex (unlex (lr_tokens r)) None = Some r' /\ view <$> lr_tokens r' = view <$> lr_tokens r /\ lr_errors r' = [].
Proof. intros E He. by eapply lex_loop_again. Qed.

(** [a<=8'hF // sum] and [+b] on a second line. *)
Definition sample_source : text := chars "a<=8'hF // sum" ++ newline :: chars "+b".
Lemma lexing_is_stable_witness : exists r', lex (chars "a <= 8'hF + b  ") None = Some r' /\ length (lr_tokens r') = 6%nat /\ lr_errors r' = [].
Proof.
  destruct (lexing_is_stable sample_source None (mk_lex
    [mk_token tk_identifier ["a"%char] 1 1; mk_token tk_symbol (chars "<=") 1 2; mk_token tk_number (chars "8'hF") 1 4;
     mk_token tk_symbol ["+"%char] 2 1; mk_token tk_identifier ["b"%char] 2 2; mk_token tk_eof [] 2 3] []))
    as (r' & E & Hv & He); [reflexivity|reflexivity|]. exists r'. split; [exact E|]. split; [|exact He]. rewrite <- (length_fmap view), Hv. reflexivity.
Defined.
