(* ===== verification/VLiteral.v ===== *)
(** * VLiteral: numbers in the source

    The functions of [verilog/digital/digital.h] that read decimal numbers and
    literals: [parse_dec_uint64], [parse_dec_int64], [parse_dec_int],
    [parse_1bit_literal] and [parse_literal_bits].  [None] is [return false]
    in the functions that are always defined; [parse_dec_int64] negates a
    value that may be [INT64_MIN], so it and its caller return [None] for the
    undefined negation and [Some None] for [return false]. *)

From Stdlib Require Import ZArith Lia Ascii.
From stdpp Require Import base list strings.
From S2P Require Import Prelude Logic4 VData VBits VMul VLex.

Open Scope Z_scope.

Definition U64_MAX : Z := 2 ^ 64 - 1.
Definition I64_MAX : Z := 2 ^ 63 - 1.
Definition I32_MAX : Z := 2 ^ 31 - 1.

Definition digit_of (c : ascii) : Z := code c - code "0"%char.

(** The loop over the digits of a 64-bit number. *)
Fixpoint dec_loop (v : Z) (t : text) : option Z :=
  match t with
  | [] => Some v
  | c :: t' =>
      if c =c "_"%char then dec_loop v t'
      else if negb (is_digit c) then None
      else if (U64_MAX - digit_of c) / 10 <? v then None
      else dec_loop (v * 10 + digit_of c) t'
  end.

Definition parse_dec_uint64 (t : text) : option Z := match t with [] => None | _ => dec_loop 0 t end.

Definition parse_dec_int64 (t : text) : option (option Z) :=
  match t with
  | [] => Some None
  | c :: t' =>
      if c =c "-"%char then
        match t' with
        | [] => Some None
        | _ =>
            match dec_loop 0 t' with
            | None => Some None
            | Some v => if I64_MAX + 1 <? v then Some None else if v =? 2 ^ 63 then None else Some (Some (- v))
            end
        end
      else
        match dec_loop 0 t with
        | None => Some None
        | Some v => if I64_MAX <? v then Some None else Some (Some v)
        end
  end.

(** The loop of [parse_dec_int] bounds the value by [INT_MAX]. *)
Fixpoint dec_int_loop (value : Z) (t : text) : option Z :=
  match t with
  | [] => Some value
  | c :: t' =>
      if c =c "_"%char then dec_int_loop value t'
      else if negb (is_digit c) then None
      else let value' := value * 10 + digit_of c in
           if I32_MAX <? value' then None else dec_int_loop value' t'
  end.
Definition parse_dec_int (t : text) : option Z :=
  match t with
  | [] => None
  | c :: t' => if c =c "-"%char then Z.opp <$> dec_int_loop 0 t' else dec_int_loop 0 t
  end.

(** ** Literals *)

Definition bit_char (v : ascii) : option logic_t :=
  if v =c "0"%char then Some sL
  else if v =c "1"%char then Some sH
  else if letter "x" "X" v then Some sX
  else if letter "z" "Z" v then Some sZ
  else None.

Definition parse_1bit_literal (t : text) : logic_t :=
  match t with
  | [c] => if c =c "0"%char then sL else if c =c "1"%char then sH else sX
  | [a; v] => if a =c apostrophe then default sX (bit_char v) else sX
  | _ :: a :: b :: _ :: _ => if (a =c apostrophe) && letter "b" "B" b then default sX (bit_char (List.last t zero)) else sX
  | _ => sX
  end.

Definition hex_digit_value (c : ascii) : Z :=
  if is_digit c then code c - code "0"%char
  else if between "a" "f" c then 10 + (code c - code "a"%char)
  else if between "A" "F" c then 10 + (code c - code "A"%char)
  else -1.

(** The bits of a value, the least significant one first. *)
Definition low_bits (k : nat) (v : Z) : list logic_t := map (fun i => dns_of_bool (Z.testbit v (Z.of_nat i))) (seq 0 k).

(** The bits that a digit writes, the least significant one first. *)
Definition bin_digit (c : ascii) : option (list logic_t) := (fun b => [b]) <$> bit_char c.
Definition hex_digit (c : ascii) : option (list logic_t) :=
  if letter "x" "X" c then Some (replicate 4 sX)
  else if letter "z" "Z" c then Some (replicate 4 sZ)
  else if hex_digit_value c <? 0 then None
  else Some (low_bits 4 (hex_digit_value c)).
Definition oct_digit (c : ascii) : option (list logic_t) :=
  if letter "x" "X" c then Some (replicate 3 sX)
  else if letter "z" "Z" c then Some (replicate 3 sZ)
  else if negb (between "0" "7" c) then None
  else Some (low_bits 3 (digit_of c)).

(** [write_bit] of a bit: [acc] are the bits written so far, the least
    significant one first; when all [w] bits are written it does nothing. *)
Definition write_bit (w : nat) (acc : list logic_t) (v : logic_t) : list logic_t :=
  if (length acc <? w)%nat then acc ++ [v] else acc.

(** The loop over the digits, from the last one to the first. *)
Fixpoint digit_loop (digit : ascii -> option (list logic_t)) (w : nat) (ds : text) (acc : list logic_t) : option (list logic_t) :=
  match ds with
  | [] => Some acc
  | c :: ds' =>
      if c =c "_"%char then digit_loop digit w ds' acc
      else match digit c with
           | None => None
           | Some bs => digit_loop digit w ds' (fold_left (write_bit w) bs acc)
           end
  end.

(** [bits_out], most significant bit first; the bits that were not written
    are zero. *)
Definition bits_out (w : nat) (acc : list logic_t) : list logic_t := rev (acc ++ replicate (w - length acc) sL).

(** The bits of a decimal value: [high] from bit 64 on. *)
Definition dec_bits (w : nat) (raw : Z) (high : bool) : list logic_t :=
  rev (map (fun i => dns_of_bool (if Z.of_nat i <? 64 then Z.testbit raw (Z.of_nat i) else high)) (seq 0 w)).

Fixpoint find_apostrophe (t : text) : option nat :=
  match t with
  | [] => None
  | c :: t' => if c =c apostrophe then Some 0%nat else S <$> find_apostrophe t'
  end.

Definition literal_width (t : text) (apos : nat) : option Z :=
  match apos with
  | O => Some 32
  | _ => match parse_dec_uint64 (take apos t) with
         | Some w => if (w =? 0) || (I32_MAX <? w) then None else Some w
         | None => None
         end
  end.

(** The digits after the base. *)
Definition based_bits (base : ascii) (digits : text) (w : nat) (signed_lit : bool) : option (option (list logic_t)) :=
  if letter "b" "B" base then Some (bits_out w <$> digit_loop bin_digit w (rev digits) [])
  else if letter "h" "H" base then Some (bits_out w <$> digit_loop hex_digit w (rev digits) [])
  else if letter "o" "O" base then Some (bits_out w <$> digit_loop oct_digit w (rev digits) [])
  else if letter "d" "D" base then
    if at_is digits 0 "-"%char then
      if negb signed_lit then Some None
      else match parse_dec_int64 digits with
           | None => None
           | Some None => Some None
           | Some (Some iv) => Some (Some (dec_bits w (u64_wrap iv) (iv <? 0)))
           end
    else match parse_dec_uint64 digits with
         | None => Some None
         | Some value => Some (Some (dec_bits w value false))
         end
  else Some None.

(** The bits and [is_signed_out]; [want] says that the pointer is not null.
    First the part after the fill literals. *)
Definition parse_sized_bits (t : text) (want : bool) : option (option (list logic_t * bool)) :=
  match find_apostrophe t with
  | Some apos =>
      if (length t <? apos + 2)%nat then Some None
      else
        match literal_width t apos, t !! S apos with
        | Some width, Some base0 =>
            let sgn := letter "s" "S" base0 in
            let base_pos := if sgn then S (S apos) else S apos in
            match t !! base_pos with
            | None => Some None
            | Some base =>
                match based_bits base (drop (S base_pos) t) (Z.to_nat width) (want && sgn) with
                | None => None
                | Some None => Some None
                | Some (Some bs) => Some (Some (bs, want && sgn))
                end
            end
        | _, _ => Some None
        end
  | None =>
      match parse_dec_uint64 t with
      | None => Some None
      | Some value => Some (Some (dec_bits 32 value false, want))
      end
  end.
Definition parse_literal_bits (t : text) (want : bool) : option (option (list logic_t * bool)) :=
  match t with
  | [] => Some None
  | [a; v] => if a =c apostrophe then Some ((fun fill => ([fill], want)) <$> bit_char v) else parse_sized_bits t want
  | _ => parse_sized_bits t want
  end.

(** ** Literals denote numbers

    A decimal number is accepted exactly when its digits denote a value of 64
    bits, and its value is that number; a literal of any base and width has the
    bits of its number modulo the width. *)

Open Scope Z_scope.

Example literal_hex : parse_literal_bits (chars "8'hA_5") true = Some (Some ([sH; sL; sH; sL; sL; sH; sL; sH], false)).
Proof. reflexivity. Qed.
Example literal_signed : parse_literal_bits (chars "4'sd-3") true = Some (Some ([sH; sH; sL; sH], true)).
Proof. reflexivity. Qed.
Example literal_undefined : parse_literal_bits (chars "64'sd-9223372036854775808") true = None.
Proof. reflexivity. Qed.

(** ** Decimal numbers *)

(** The number that digits denote; underscores are skipped. *)
Definition digit_in (radix : Z) (c : ascii) : bool := (0 <=? hex_digit_value c) && (hex_digit_value c <? radix).
Definition well_formed (radix : Z) (t : text) : bool := forallb (fun c => (c =c "_"%char) || digit_in radix c) t.
Definition digits_from (radix : Z) (v : Z) (t : text) : Z :=
  fold_left (fun v c => if c =c "_"%char then v else v * radix + hex_digit_value c) t v.
Definition digits_value (radix : Z) (t : text) : Z := digits_from radix 0 t.

Lemma hex_of_digit c : is_digit c = true -> hex_digit_value c = digit_of c /\ 0 <= digit_of c < 10.
Proof.
  intros H. unfold hex_digit_value, digit_of. rewrite H. split; [done|]. unfold is_digit, between in H. apply andb_true_iff in H as [H1 H2].
  apply Z.leb_le in H1. apply Z.leb_le in H2. change (code "0") with 48 in *. change (code "9") with 57 in *. lia.
Qed.
Lemma digit_in_10 c : digit_in 10 c = is_digit c.
Proof.
  destruct (is_digit c) eqn:E; unfold digit_in.
  - destruct (hex_of_digit c E) as [-> H]. apply andb_true_iff. rewrite Z.leb_le, Z.ltb_lt. lia.
  - unfold hex_digit_value. rewrite E. destruct (between "a" "f" c) eqn:E1; [|destruct (between "A" "F" c) eqn:E2; [|done]].
    + unfold between in E1. apply andb_true_iff in E1 as [E1 _]. apply Z.leb_le in E1. apply andb_false_iff. right. apply Z.ltb_ge. lia.
    + unfold between in E2. apply andb_true_iff in E2 as [E2 _]. apply Z.leb_le in E2. apply andb_false_iff. right. apply Z.ltb_ge. lia.
Qed.

Lemma digits_mono t : forall v, well_formed 10 t = true -> 0 <= v -> v <= digits_from 10 v t.
Proof.
  induction t as [|c t IH]; intros v Hw Hv; [unfold digits_from; simpl; lia|]. simpl in Hw. apply andb_true_iff in Hw as [Hc Hw]. unfold digits_from. simpl.
  destruct (c =c "_"%char); [by apply IH|]. rewrite digit_in_10 in Hc. destruct (hex_of_digit c Hc) as [-> Hd]. etrans; [|apply IH; [done|lia]]. lia.
Qed.

Lemma dec_loop_spec t : forall v, 0 <= v <= U64_MAX ->
  dec_loop v t = if well_formed 10 t && (digits_from 10 v t <=? U64_MAX) then Some (digits_from 10 v t) else None.
Proof.
  induction t as [|c t IH]; intros v Hv.
  { simpl. unfold digits_from. simpl. destruct (Z.leb_spec v U64_MAX); [done|lia]. }
  cbn [dec_loop well_formed forallb]. unfold digits_from. cbn [fold_left]. destruct (c =c "_"%char) eqn:Eu; [by apply IH|]. simpl.
  rewrite digit_in_10. destruct (is_digit c) eqn:Ed; [|done]. simpl. destruct (hex_of_digit c Ed) as [-> Hd].
  destruct (Z.ltb_spec ((U64_MAX - digit_of c) / 10) v) as [Hlt|Hge].
  - destruct (forallb _ t) eqn:Ew; [|done]. simpl. assert (U64_MAX < v * 10 + digit_of c).
    { pose proof (Z.div_lt_upper_bound (U64_MAX - digit_of c) 10 v). pose proof (Z.mul_succ_div_gt (U64_MAX - digit_of c) 10 ltac:(lia)). lia. }
    pose proof (digits_mono t (v * 10 + digit_of c) Ew ltac:(lia)) as Hm. unfold digits_from in Hm. destruct (Z.leb_spec (fold_left (fun v c => if c =c "_"%char then v else v * 10 + hex_digit_value c) t (v * 10 + digit_of c)) U64_MAX); [lia|done].
  - apply IH. pose proof (Z.mul_div_le (U64_MAX - digit_of c) 10 ltac:(lia)). lia.
Qed.

(** The overflow test of the decimal reader is exact: a text is accepted if
    and only if it is not empty, has digits and underscores only, and its
    number is below [2^64], and the result is that number. *)
Theorem decimal_exact t v : parse_dec_uint64 t = Some v <->
  t <> [] /\ well_formed 10 t = true /\ v = digits_value 10 t /\ v < 2 ^ 64.
Proof.
  unfold parse_dec_uint64. destruct t as [|c t]; [by split; [|intros []]|]. rewrite dec_loop_spec by (unfold U64_MAX; lia).
  fold (digits_value 10 (c :: t)). destruct (well_formed 10 (c :: t)); simpl; [|by split; [|intros (_ & ? & _)]].
  destruct (Z.leb_spec (digits_value 10 (c :: t)) U64_MAX); unfold U64_MAX in *.
  - split; [intros [= <-]; split_and!; try done; lia|by intros (_ & _ & -> & _)].
  - split; [done|]. intros (_ & _ & -> & ?). lia.
Qed.

(** ** Bits of digits *)

Lemma num_of_app l k : num_of (l ++ k) = num_of l + 2 ^ Z.of_nat (length l) * num_of k.
Proof. induction l as [|b l IH]; [simpl; lia|]. cbn [app num_of length]. rewrite IH, Nat2Z.inj_succ, Z.pow_succ_r by lia. ring. Qed.

Lemma write_bits_take w bs : forall l, fold_left (write_bit w) bs (take w l) = take w (l ++ bs).
Proof.
  induction bs as [|b bs IH]; intros l; simpl; [by rewrite app_nil_r|]. replace (l ++ b :: bs) with ((l ++ [b]) ++ bs) by (by rewrite <- app_assoc).
  rewrite <- IH. f_equal. unfold write_bit. rewrite length_take. destruct (Nat.ltb_spec (Nat.min w (length l)) w).
  - rewrite !take_ge by (rewrite ?length_app; simpl; lia). done.
  - by rewrite take_app_le by lia.
Qed.

Section Digits.
Context (digit : ascii -> option (list logic_t)) (k : nat).
Context (Hd : forall c, digit_in (2 ^ Z.of_nat k) c = true -> digit c = Some (bits (lsbs k (hex_digit_value c)))).

Lemma digit_loop_spec w t : well_formed (2 ^ Z.of_nat k) t = true -> forall l,
  exists bs, digit_loop digit w (rev t) (take w (bits l)) = Some (take w (bits (l ++ bs))) /\ num_of bs = digits_value (2 ^ Z.of_nat k) t.
Proof using Hd.
  induction t as [|c t IH] using rev_ind; intros Hw l; [exists []; by rewrite app_nil_r|]. unfold well_formed in Hw. rewrite forallb_app in Hw. simpl in Hw.
  apply andb_true_iff in Hw as [Hw Hc]. rewrite andb_true_r in Hc. rewrite rev_app_distr. cbn [rev app digit_loop]. unfold digits_value, digits_from in *. rewrite fold_left_app. cbn [fold_left].
  destruct (c =c "_"%char); [by apply IH|]. simpl in Hc. rewrite (Hd c Hc), write_bits_take, <- bits_app.
  destruct (IH Hw (l ++ lsbs k (hex_digit_value c))) as (bs & E & Hn). exists (lsbs k (hex_digit_value c) ++ bs). rewrite E. split; [by rewrite app_assoc|].
  rewrite num_of_app, num_of_lsbs, lsbs_length, Hn. unfold digit_in in Hc. apply andb_true_iff in Hc as [H1 H2]. apply Z.leb_le in H1. apply Z.ltb_lt in H2.
  rewrite Z.mod_small by lia. lia.
Qed.

Lemma digit_bits w t : well_formed (2 ^ Z.of_nat k) t = true ->
  bits_out w <$> digit_loop digit w (rev t) [] = Some (word w (digits_value (2 ^ Z.of_nat k) t)).
Proof using Hd.
  intros Hw. destruct (digit_loop_spec w t Hw []) as (bs & E & Hn). simpl in E. rewrite take_nil in E. rewrite E, <- Hn. simpl. f_equal.
  unfold bits_out, word. rewrite lsbs_num_ext, bits_rev, bits_app, bits_replicate, bits_take, length_take, bits_length. do 2 f_equal. apply (f_equal (fun n => replicate n sL)). lia.
Qed.
End Digits.

Ltac all_chars c := destruct c as [[] [] [] [] [] [] [] []]; vm_compute; congruence.
Lemma bin_digit_ok c : digit_in (2 ^ Z.of_nat 1) c = true -> bin_digit c = Some (bits (lsbs 1 (hex_digit_value c))).
Proof. all_chars c. Qed.
Lemma oct_digit_ok c : digit_in (2 ^ Z.of_nat 3) c = true -> oct_digit c = Some (bits (lsbs 3 (hex_digit_value c))).
Proof. all_chars c. Qed.
Lemma hex_digit_ok c : digit_in (2 ^ Z.of_nat 4) c = true -> hex_digit c = Some (bits (lsbs 4 (hex_digit_value c))).
Proof. all_chars c. Qed.

Lemma dec_bits_word w v : - 2 ^ 63 <= v < 2 ^ 64 -> dec_bits w (u64_wrap v) (v <? 0) = word w v.
Proof.
  intros Hv. unfold dec_bits, word. rewrite bits_rev. f_equal. apply list_eq. intros i. unfold bits. rewrite !list_lookup_fmap.
  destruct (decide (i < w)%nat) as [Hi|Hi]; [|by rewrite !lookup_ge_None_2 by (rewrite ?length_seq, ?lsbs_length; lia)].
  rewrite lookup_seq_lt, lsbs_lookup by done. simpl. do 2 f_equal. destruct (Z.ltb_spec (Z.of_nat i) 64).
  - unfold u64_wrap. by rewrite Z.mod_pow2_bits_low by lia.
  - symmetry. destruct (Z.ltb_spec v 0).
    + apply Z.bits_iff_neg; [|lia]. apply Z.log2_lt_pow2; [lia|].
      apply Z.lt_le_trans with (2 ^ 64); [lia|]. apply Z.pow_le_mono_r; lia.
    + apply Z.bits_above_log2; [lia|]. destruct (decide (v = 0)) as [->|]; [simpl; lia|]. apply Z.log2_lt_pow2; [lia|]. apply Z.lt_le_trans with (2 ^ 64); [lia|].
      apply Z.pow_le_mono_r; lia.
Qed.

(** ** Literals *)

Definition base_radix (b : ascii) : option Z :=
  if letter "b" "B" b then Some 2 else if letter "h" "H" b then Some 16 else if letter "o" "O" b then Some 8 else if letter "d" "D" b then Some 10 else None.
(** The text of a width; without one it is 32. *)
Definition width_text (wt : text) (w : nat) : Prop :=
  (wt = [] /\ w = 32%nat) \/ (wt <> [] /\ well_formed 10 wt = true /\ 1 <= digits_value 10 wt <= I32_MAX /\ w = Z.to_nat (digits_value 10 wt)).
Definition sign_text (st : text) (sgn : bool) : Prop :=
  (st = [] /\ sgn = false) \/ (exists c, st = [c] /\ letter "s" "S" c = true /\ sgn = true).

Inductive denotes : text -> list logic_t -> bool -> Prop :=
  | denotes_fill v b : bit_char v = Some b -> denotes [apostrophe; v] [b] true
  | denotes_decimal t : t <> [] -> well_formed 10 t = true -> digits_value 10 t < 2 ^ 64 -> denotes t (word 32 (digits_value 10 t)) true
  | denotes_based wt w st sgn b radix t : width_text wt w -> sign_text st sgn -> base_radix b = Some radix -> t <> [] -> well_formed radix t = true ->
      (radix = 10 -> digits_value 10 t < 2 ^ 64) -> denotes (wt ++ apostrophe :: st ++ b :: t) (word w (digits_value radix t)) sgn
  | denotes_negative wt w c b t : width_text wt w -> letter "s" "S" c = true -> base_radix b = Some 10 -> t <> [] -> well_formed 10 t = true ->
      digits_value 10 t < 2 ^ 63 -> denotes (wt ++ apostrophe :: c :: b :: "-"%char :: t) (word w (- digits_value 10 t)) true.

Lemma digits_nonneg t : well_formed 10 t = true -> 0 <= digits_value 10 t.
Proof. intros H. by apply digits_mono. Qed.

Lemma dec_uint_ok t : t <> [] -> well_formed 10 t = true -> digits_value 10 t < 2 ^ 64 -> parse_dec_uint64 t = Some (digits_value 10 t).
Proof.
  intros Hn Hw Hv. unfold parse_dec_uint64. destruct t; [done|]. rewrite dec_loop_spec, Hw by (unfold U64_MAX; lia). fold (digits_value 10 (a :: t)).
  destruct (Z.leb_spec (digits_value 10 (a :: t)) U64_MAX); [done|]. unfold U64_MAX in *. lia.
Qed.

Lemma well_formed_no_apostrophe t : well_formed 10 t = true -> find_apostrophe t = None.
Proof.
  induction t as [|c t IH]; [done|]. simpl. intros [Hc Hw]%andb_true_iff. destruct (c =c apostrophe) eqn:E; [|by rewrite IH]. apply char_eq_true in E as ->. done.
Qed.
Lemma find_apostrophe_app t r : find_apostrophe t = None -> find_apostrophe (t ++ apostrophe :: r) = Some (length t).
Proof. induction t as [|c t IH]; [done|]. simpl. destruct (c =c apostrophe); [done|]. destruct (find_apostrophe t); [done|]. intros _. by rewrite IH. Qed.

Lemma width_text_ok wt w r : width_text wt w -> find_apostrophe (wt ++ apostrophe :: r) = Some (length wt) /\
  Z.to_nat <$> literal_width (wt ++ apostrophe :: r) (length wt) = Some w.
Proof.
  intros [[-> ->]|(Hn & Hw & Hv & ->)]; [done|]. split; [by apply find_apostrophe_app, well_formed_no_apostrophe|]. unfold literal_width.
  rewrite take_app_length. destruct wt as [|c wt]; [done|]. cbn [length]. rewrite dec_uint_ok by (done || unfold I32_MAX in *; lia).
  destruct (Z.eqb_spec (digits_value 10 (c :: wt)) 0); [lia|]. destruct (Z.ltb_spec I32_MAX (digits_value 10 (c :: wt))); [lia|]. done.
Qed.

Lemma base_not_sign b radix : base_radix b = Some radix -> letter "s" "S" b = false.
Proof. revert radix. destruct b as [[] [] [] [] [] [] [] []]; intros radix; vm_compute; congruence. Qed.

Lemma lookup_after {A} (wt : list A) x (r : list A) i : (wt ++ x :: r) !! (S (length wt) + i)%nat = r !! i.
Proof. rewrite lookup_app_r by lia. by replace (S (length wt) + i - length wt)%nat with (S i) by lia. Qed.
Lemma drop_after {A} (wt : list A) x r i : drop (S (length wt) + i) (wt ++ x :: r) = drop i r.
Proof. rewrite drop_app_ge by lia. by replace (S (length wt) + i - length wt)%nat with (S i) by lia. Qed.

Lemma sized_bits_ok wt w st sgn b radix t bs : width_text wt w -> sign_text st sgn -> base_radix b = Some radix ->
  based_bits b t w sgn = Some (Some bs) -> parse_sized_bits (wt ++ apostrophe :: st ++ b :: t) true = Some (Some (bs, sgn)).
Proof.
  intros Hw Hs Hb Ht. destruct (width_text_ok wt w (st ++ b :: t) Hw) as [E1 E2]. unfold parse_sized_bits. rewrite E1.
  destruct (Nat.ltb_spec (length (wt ++ apostrophe :: st ++ b :: t)) (length wt + 2)) as [Hl|_].
  { rewrite length_app in Hl. simpl in Hl. rewrite length_app in Hl. simpl in Hl. lia. }
  destruct (literal_width _ _) as [width|]; [|done]. injection E2 as E2. rewrite E2. unfold text in *.
  pose proof (lookup_after wt apostrophe (st ++ b :: t)) as Hl. pose proof (drop_after wt apostrophe (st ++ b :: t)) as Hd.
  pose proof (Hl 0%nat) as Hl0. rewrite Nat.add_0_r in Hl0. rewrite Hl0. destruct Hs as [[-> ->]|(c & -> & Hc & ->)]; cbn [app lookup list_lookup].
  - cbn [lookup list_lookup app] in Hl0, Hd |- *. rewrite (base_not_sign _ _ Hb), Hl0. specialize (Hd 1%nat).
    replace (S (length wt) + 1)%nat with (S (S (length wt))) in Hd by lia. rewrite Hd. cbn [drop]. rewrite drop_0. simpl. by rewrite Ht.
  - cbv zeta. cbn [lookup list_lookup app]. rewrite Hc. specialize (Hl 1%nat). specialize (Hd 2%nat).
    replace (S (length wt) + 1)%nat with (S (S (length wt))) in Hl by lia. replace (S (length wt) + 2)%nat with (S (S (S (length wt)))) in Hd by lia.
    cbn [app] in Hl, Hd. rewrite Hl, Hd. cbn [lookup list_lookup drop]. rewrite drop_0. simpl. by rewrite Ht.
Qed.

Lemma parse_literal_sized t want : length t <> 2%nat -> t <> [] -> parse_literal_bits t want = parse_sized_bits t want.
Proof. intros H1 H2. unfold parse_literal_bits. by destruct t as [|a [|b [|c t]]]. Qed.
Lemma parse_literal_head c t want : (c =c apostrophe) = false -> parse_literal_bits (c :: t) want = parse_sized_bits (c :: t) want.
Proof. intros H. unfold parse_literal_bits. destruct t as [|b [|d t]]; try done. by rewrite H. Qed.

Lemma width_head wt w r : width_text wt w -> wt <> [] -> parse_literal_bits (wt ++ r) true = parse_sized_bits (wt ++ r) true.
Proof.
  intros [[-> _]|(_ & Hw & _)] Hn; [done|]. destruct wt as [|c wt]; [done|]. apply parse_literal_head. simpl in Hw. apply andb_true_iff in Hw as [Hc _].
  destruct (c =c apostrophe) eqn:E; [|done]. by apply char_eq_true in E as ->.
Qed.

Lemma based_bits_ok b radix t w sgn : base_radix b = Some radix -> t <> [] -> well_formed radix t = true -> (radix = 10 -> digits_value 10 t < 2 ^ 64) ->
  based_bits b t w sgn = Some (Some (word w (digits_value radix t))).
Proof.
  unfold base_radix, based_bits. intros Hb Hn Hw Hv. destruct (letter "b" "B" b); [injection Hb as <-; by rewrite (digit_bits bin_digit 1 bin_digit_ok)|].
  destruct (letter "h" "H" b); [injection Hb as <-; by rewrite (digit_bits hex_digit 4 hex_digit_ok)|].
  destruct (letter "o" "O" b); [injection Hb as <-; by rewrite (digit_bits oct_digit 3 oct_digit_ok)|].
  destruct (letter "d" "D" b); [|done]. injection Hb as <-. assert (Hm : at_is t 0 "-"%char = false).
  { destruct t as [|c t]; [done|]. simpl in Hw. apply andb_true_iff in Hw as [Hc _]. unfold at_is. cbn. destruct (c =c "-"%char) eqn:E; [|done]. by apply char_eq_true in E as ->. }
  rewrite Hm, dec_uint_ok by auto. pose proof (digits_nonneg t Hw) as H0. specialize (Hv eq_refl). rewrite <- (dec_bits_word w (digits_value 10 t)) by lia.
  unfold u64_wrap. rewrite Z.mod_small by lia. destruct (Z.ltb_spec (digits_value 10 t) 0); [lia|done].
Qed.

Lemma negative_bits_ok b t w : base_radix b = Some 10 -> t <> [] -> well_formed 10 t = true -> digits_value 10 t < 2 ^ 63 ->
  based_bits b ("-"%char :: t) w true = Some (Some (word w (- digits_value 10 t))).
Proof.
  unfold base_radix, based_bits. intros Hb Hn Hw Hv. destruct (letter "b" "B" b); [done|]. destruct (letter "h" "H" b); [done|]. destruct (letter "o" "O" b); [done|].
  destruct (letter "d" "D" b); [|done]. pose proof (digits_nonneg t Hw) as H0. pose proof (dec_uint_ok t Hn Hw ltac:(lia)) as Ed.
  unfold parse_dec_uint64 in Ed. cbn [at_is lookup list_lookup negb]. cbn. destruct t as [|c t]; [done|]. rewrite Ed.
  destruct (Z.ltb_spec (I64_MAX + 1) (digits_value 10 (c :: t))); [unfold I64_MAX in *; lia|].
  destruct (Z.eqb_spec (digits_value 10 (c :: t)) (2 ^ 63)); [lia|]. by rewrite dec_bits_word by lia.
Qed.

Lemma sized_literal wt w r : width_text wt w -> (2 <= length r)%nat ->
  parse_literal_bits (wt ++ apostrophe :: r) true = parse_sized_bits (wt ++ apostrophe :: r) true.
Proof.
  intros Hw Hr. destruct wt as [|c wt]; [apply parse_literal_sized; [simpl; lia|done]|by apply (width_head _ w)].
Qed.

(** C38: a literal is read as the bits of its number modulo its width, most
    significant bit first: fill literals, plain decimal numbers below [2^64]
    (of 32 bits), literals with an optional width, an optional sign and a base
    (decimal ones below [2^64]), and negative decimal literals above
    [- 2^63]. *)
Theorem literals_denote t bs sgn : denotes t bs sgn -> parse_literal_bits t true = Some (Some (bs, sgn)).
Proof.
  intros H. destruct H as [v b Hv|t Hn Hw Hv|wt w st sgn b radix t Hwt Hst Hb Hn Hw Hv|wt w c b t Hwt Hc Hb Hn Hw Hv].
  - simpl. by rewrite Hv.
  - assert (Hh : parse_literal_bits t true = parse_sized_bits t true).
    { destruct t as [|c t]; [done|]. apply parse_literal_head. pose proof (well_formed_no_apostrophe _ Hw) as Hf. simpl in Hf. by destruct (c =c apostrophe). }
    rewrite Hh. unfold parse_sized_bits. rewrite well_formed_no_apostrophe, dec_uint_ok by done. pose proof (digits_nonneg t Hw).
    rewrite <- (dec_bits_word 32 (digits_value 10 t)) by lia. unfold u64_wrap. rewrite Z.mod_small by lia. destruct (Z.ltb_spec (digits_value 10 t) 0); [lia|done].
  - rewrite <- (sized_bits_ok wt w st sgn b radix t) by (done || by apply based_bits_ok). apply (sized_literal wt w); [done|].
    destruct t; [done|]. rewrite length_app. simpl. lia.
  - rewrite <- (sized_bits_ok wt w [c] true b 10 ("-"%char :: t)) by (done || by apply negative_bits_ok || (right; by eexists)). apply (sized_literal wt w); [done|].
    simpl. lia.
Qed.

(** [-6] in five bits, and a hexadecimal literal without a width. *)
Lemma literals_denote_witness : parse_literal_bits (chars "5'sd-6") true = Some (Some ([sH; sH; sL; sH; sL], true)) /\
  parse_literal_bits (chars "'h1_F") true = Some (Some (word 32 31, false)).
Proof.
  split.
  - apply literals_denote. apply (denotes_negative (chars "5") 5 "s"%char "d"%char (chars "6")); try reflexivity; [|discriminate].
    right. split_and!; [discriminate|reflexivity|discriminate|discriminate|reflexivity].
  - apply literals_denote. apply (denotes_based [] 32 [] false "h"%char 16 (chars "1_F")); try reflexivity; try discriminate; left; split; reflexivity.
Defined.
