(* ===== verification/VNames.v ===== *)
(** * VNames: signals, vectors, parameters and scopes

    The tables of a module while it is parsed ([verilog/digital/digital.h]):
    [get_or_create_signal], [declare_vector_range], [get_or_create_vector_bit],
    [ensure_port_decl], [set_const_signal], [define_param], and the scopes of
    local names, [proc_scope].  [here] is the position of the next token, for
    the errors.  The numbers of [std::to_chars] are those of [pretty].  A
    range whose width is not an [int] makes the subtraction of the source
    undefined: the result is then [None]. *)

From Stdlib Require Import ZArith Lia Ascii.
From stdpp Require Import base list gmap strings pretty relations.
From S2P Require Import Prelude Logic4 VData VExpr VBuild VBits VWord VMul.
From S2P Require Import VElab.

Open Scope Z_scope.

(** ** Signals *)

Definition with_signals (m : compiled_module) (names : list string) (is_reg is_signed is_const is_const_foldable : list bool) (values : list logic_t)
    (index : gmap string Z) : compiled_module :=
  {| cm_name := cm_name m; cm_ports := cm_ports m; cm_port_order := cm_port_order m; cm_port_decls := cm_port_decls m; cm_vectors := cm_vectors m;
     cm_signal_names := names; cm_signal_is_reg := is_reg; cm_signal_is_signed := is_signed; cm_signal_is_const := is_const;
     cm_signal_is_const_foldable := is_const_foldable; cm_signal_const_value := values; cm_signal_index := index; cm_param_order := cm_param_order m;
     cm_param_default_values := cm_param_default_values m; cm_param_is_local := cm_param_is_local m; cm_expr_nodes := cm_expr_nodes m;
     cm_assigns := cm_assigns m; cm_always_ffs := cm_always_ffs m; cm_always_combs := cm_always_combs m; cm_initials := cm_initials m;
     cm_instances := cm_instances m; cm_inline_counter := cm_inline_counter m |}.
Definition with_tables (m : compiled_module) (order : list string) (decls : gmap string port_decl) (vectors : gmap string vector_desc)
    (param_order : list string) (defaults : gmap string Z) (is_local : gmap string bool) (counter : Z) : compiled_module :=
  {| cm_name := cm_name m; cm_ports := cm_ports m; cm_port_order := order; cm_port_decls := decls; cm_vectors := vectors;
     cm_signal_names := cm_signal_names m; cm_signal_is_reg := cm_signal_is_reg m; cm_signal_is_signed := cm_signal_is_signed m;
     cm_signal_is_const := cm_signal_is_const m; cm_signal_is_const_foldable := cm_signal_is_const_foldable m;
     cm_signal_const_value := cm_signal_const_value m; cm_signal_index := cm_signal_index m; cm_param_order := param_order;
     cm_param_default_values := defaults; cm_param_is_local := is_local; cm_expr_nodes := cm_expr_nodes m; cm_assigns := cm_assigns m;
     cm_always_ffs := cm_always_ffs m; cm_always_combs := cm_always_combs m; cm_initials := cm_initials m; cm_instances := cm_instances m;
     cm_inline_counter := counter |}.
Definition with_vectors (m : compiled_module) (vectors : gmap string vector_desc) : compiled_module :=
  with_tables m (cm_port_order m) (cm_port_decls m) vectors (cm_param_order m) (cm_param_default_values m) (cm_param_is_local m) (cm_inline_counter m).

Definition get_or_create_signal (m : compiled_module) (name : string) : Z * compiled_module :=
  match cm_signal_index m !! name with
  | Some i => (i, m)
  | None =>
      let idx := vsize (cm_signal_names m) in
      (idx, with_signals m (cm_signal_names m ++ [name]) (cm_signal_is_reg m ++ [false]) (cm_signal_is_signed m ++ [false])
              (cm_signal_is_const m ++ [false]) (cm_signal_is_const_foldable m ++ [false]) (cm_signal_const_value m ++ [sX])
              (<[name := idx]> (cm_signal_index m)))
  end.

(** [signal_is_reg[sig] = true] and [signal_is_signed[sig] = true]. *)
Definition set_reg (m : compiled_module) (sig : Z) : compiled_module :=
  with_signals m (cm_signal_names m) (vset (cm_signal_is_reg m) sig true) (cm_signal_is_signed m) (cm_signal_is_const m)
    (cm_signal_is_const_foldable m) (cm_signal_const_value m) (cm_signal_index m).
Definition set_signed (m : compiled_module) (sig : Z) : compiled_module :=
  with_signals m (cm_signal_names m) (cm_signal_is_reg m) (vset (cm_signal_is_signed m) sig true) (cm_signal_is_const m)
    (cm_signal_is_const_foldable m) (cm_signal_const_value m) (cm_signal_index m).
Definition set_foldable (m : compiled_module) (sig : Z) (b : bool) : compiled_module :=
  with_signals m (cm_signal_names m) (cm_signal_is_reg m) (cm_signal_is_signed m) (cm_signal_is_const m)
    (vset (cm_signal_is_const_foldable m) sig b) (cm_signal_const_value m) (cm_signal_index m).

Definition make_scoped_local_name (m : compiled_module) (visible : string) : string * compiled_module :=
  ("$blk" +:+ pretty (cm_inline_counter m) +:+ "__" +:+ visible,
   with_tables m (cm_port_order m) (cm_port_decls m) (cm_vectors m) (cm_param_order m) (cm_param_default_values m) (cm_param_is_local m)
     (u64_wrap (cm_inline_counter m + 1))).

(** ** Vectors *)

Definition make_bit_name (base : string) (idx : Z) : string := base +:+ "[" +:+ pretty idx +:+ "]".

(** [msb - lsb], and the negation and increment of [vector_width]. *)
Definition vector_width (msb lsb : Z) : option nat :=
  let w := Z.abs (msb - lsb) + 1 in if INT_MAX <? w then None else Some (Z.to_nat w).

(** The loop over the bits of a new vector; [positions] are those left. *)
Fixpoint declare_bits (m : compiled_module) (base : string) (msb lsb : Z) (is_reg is_signed : bool) (positions : list nat) : list Z * compiled_module :=
  match positions with
  | [] => ([], m)
  | pos :: rest =>
      let '(sig, m1) := get_or_create_signal m (make_bit_name base (vector_index_at msb lsb (Z.of_nat pos))) in
      let m2 := if is_reg then set_reg m1 sig else m1 in
      let m3 := if is_signed then set_signed m2 sig else m2 in
      let '(bits, m4) := declare_bits m3 base msb lsb is_reg is_signed rest in
      (sig :: bits, m4)
  end.

Definition error_at (here : Z * Z) (msg : string) : compile_error := mk_error msg 0 here.1 here.2.

Definition declare_vector_range (here : Z * Z) (m : compiled_module) (base : string) (msb lsb : Z) (is_reg is_signed : bool)
    : option (vector_desc * compiled_module * list compile_error) :=
  match cm_vectors m !! base with
  | Some vd =>
      let errs := if negb (vd_msb vd =? msb) || negb (vd_lsb vd =? lsb)
                  then [error_at here "redeclared vector with a different range is not supported"] else [] in
      let vd1 := if is_signed then {| vd_msb := vd_msb vd; vd_lsb := vd_lsb vd; vd_is_reg := vd_is_reg vd; vd_is_signed := true; vd_bits := vd_bits vd |} else vd in
      if is_reg && negb (vd_is_reg vd) then
        let vd2 := {| vd_msb := vd_msb vd1; vd_lsb := vd_lsb vd1; vd_is_reg := true; vd_is_signed := vd_is_signed vd1; vd_bits := vd_bits vd1 |} in
        Some (vd2, fold_left set_reg (vd_bits vd2) (with_vectors m (<[base := vd2]> (cm_vectors m))), errs)
      else Some (vd1, with_vectors m (<[base := vd1]> (cm_vectors m)), errs)
  | None =>
      match vector_width msb lsb with
      | None => None
      | Some w =>
          let '(bits, m1) := declare_bits m base msb lsb is_reg is_signed (seq 0 w) in
          let vd := {| vd_msb := msb; vd_lsb := lsb; vd_is_reg := is_reg; vd_is_signed := is_signed; vd_bits := bits |} in
          Some (vd, with_vectors m1 (<[base := vd]> (cm_vectors m1)), [])
      end
  end.

Definition get_or_create_vector_bit (m : compiled_module) (base : string) (idx : Z) (is_reg : bool) : option (Z * compiled_module) :=
  let create :=
    let '(sig, m1) := get_or_create_signal m (make_bit_name base idx) in Some (sig, if is_reg then set_reg m1 sig else m1) in
  match cm_vectors m !! base with
  | Some vd =>
      let pos := vector_pos (vd_msb vd) (vd_lsb vd) idx in
      if pos =? SIZE_MAX then create else (fun sig => (sig, m)) <$> vat (vd_bits vd) pos
  | None => create
  end.

Definition ensure_port_decl (m : compiled_module) (base : string) : port_decl * compiled_module :=
  match cm_port_decls m !! base with
  | Some pd => (pd, m)
  | None =>
      (port_decl_default,
       with_tables m (cm_port_order m ++ [base]) (<[base := port_decl_default]> (cm_port_decls m)) (cm_vectors m) (cm_param_order m)
         (cm_param_default_values m) (cm_param_is_local m) (cm_inline_counter m))
  end.

(** ** Parameters *)

Definition set_const_signal (m : compiled_module) (sig : Z) (v : logic_t) : compiled_module :=
  let n := vsize (cm_signal_names m) in
  if n <=? sig then m
  else
    let grow := vsize (cm_signal_is_const m) <? n in
    let is_const := if grow then vgrow (cm_signal_is_const m) n false else cm_signal_is_const m in
    let foldable := if grow then vgrow (cm_signal_is_const_foldable m) n false else cm_signal_is_const_foldable m in
    let value := if grow then vgrow (cm_signal_const_value m) n sL else cm_signal_const_value m in
    with_signals m (cm_signal_names m) (cm_signal_is_reg m) (cm_signal_is_signed m) (vset is_const sig true) foldable (vset value sig v) (cm_signal_index m).

(** One bit of a parameter. *)
Definition set_param_bit (is_local : bool) (m : compiled_module) (bit : Z * logic_t) : compiled_module :=
  let m1 := set_const_signal m bit.1 bit.2 in
  if bit.1 <? vsize (cm_signal_is_const_foldable m1) then set_foldable m1 bit.1 is_local else m1.

(** The bits and their values, from the least significant bit. *)
Definition param_bits (bits : list Z) (value : Z) : list (Z * logic_t) :=
  imap (fun k sig => (sig, dns_of_bool (Z.testbit value (Z.of_nat k)))) (rev bits).

Definition define_param (here : Z * Z) (m : compiled_module) (name : string) (value : Z) (is_local : bool) : option (compiled_module * list compile_error) :=
  if decide (name = "") then Some (m, [])
  else
    match cm_param_default_values m !! name with
    | Some _ => Some (m, [error_at here "redeclared parameter/localparam is not supported"])
    | None =>
        match declare_vector_range here m name 31 0 false false with
        | None => None
        | Some (vd, m1, errs) =>
            let bits := if (length (vd_bits vd) =? 32)%nat then param_bits (vd_bits vd) value else map (fun sig => (sig, sX)) (vd_bits vd) in
            let m2 := fold_left (set_param_bit is_local) bits m1 in
            Some (with_tables m2 (cm_port_order m2) (cm_port_decls m2) (cm_vectors m2)
                    (if is_local then cm_param_order m2 else cm_param_order m2 ++ [name]) (<[name := value]> (cm_param_default_values m2))
                    (match cm_param_is_local m2 !! name with Some _ => cm_param_is_local m2 | None => <[name := is_local]> (cm_param_is_local m2) end)
                    (cm_inline_counter m2), errs)
        end
    end.

(** ** Scopes *)

Record undo_entry : Type := mk_undo { un_name : string; un_alias : option string; un_subst : option expr_value }.

Record proc_scope : Type := mk_scope {
  sc_aliases : gmap string string;
  sc_subst : gmap string expr_value;
  sc_undo_stack : list undo_entry;
  sc_frame_marks : list nat
}.
Definition scope_default : proc_scope := mk_scope ∅ ∅ [] [].

Definition push_frame (s : proc_scope) : proc_scope :=
  mk_scope (sc_aliases s) (sc_subst s) (sc_undo_stack s) (sc_frame_marks s ++ [length (sc_undo_stack s)]).

(** [insert_or_assign] of the previous entry, or [erase]. *)
Definition restore {A} (k : string) (prev : option A) (m : gmap string A) : gmap string A :=
  match prev with Some x => <[k := x]> m | None => delete k m end.
Definition undo (s : proc_scope) (u : undo_entry) : proc_scope :=
  mk_scope (restore (un_name u) (un_alias u) (sc_aliases s)) (restore (un_name u) (un_subst u) (sc_subst s)) (sc_undo_stack s) (sc_frame_marks s).

(** [while(undo_stack.size() > mark)]: the entries above the mark, from the
    last one. *)
Definition pop_frame (s : proc_scope) : proc_scope :=
  match last (sc_frame_marks s) with
  | None => s
  | Some mark =>
      let s' := fold_left undo (rev (drop mark (sc_undo_stack s))) s in
      mk_scope (sc_aliases s') (sc_subst s') (take mark (sc_undo_stack s)) (removelast (sc_frame_marks s))
  end.

Definition bind_name (s : proc_scope) (visible internal : string) (ev : expr_value) : proc_scope :=
  mk_scope (<[visible := internal]> (sc_aliases s)) (<[visible := ev]> (sc_subst s))
    (sc_undo_stack s ++ [mk_undo visible (sc_aliases s !! visible) (sc_subst s !! visible)]) (sc_frame_marks s).

(** ** The tables of a module

    The signals of a module and their index are inverse to each other and the
    bits of a vector are the signals of its indices, after any sequence of
    declarations; the bits of different vectors are different signals; a
    parameter has its value in a new instance, and the overriding value in an
    instance that overrides it; leaving a scope restores the names. *)

Open Scope Z_scope.

(** ** Scopes *)

Lemma restore_insert {A} k (m : gmap string A) x : restore k (m !! k) (<[k := x]> m) = m.
Proof. unfold restore. destruct (m !! k) as [y|] eqn:E; [by rewrite insert_insert_eq, insert_id|]. by rewrite delete_insert_eq, delete_id. Qed.

Inductive scope_op : Type := op_push | op_pop | op_bind (visible internal : string) (ev : expr_value).
Definition run_op (s : proc_scope) (o : scope_op) : proc_scope :=
  match o with op_push => push_frame s | op_pop => pop_frame s | op_bind v i e => bind_name s v i e end.
Definition run_ops (ops : list scope_op) (s : proc_scope) : proc_scope := fold_left run_op ops s.

(** The operations inside a block: every frame that is entered is left. *)
Inductive balanced : list scope_op -> Prop :=
  | balanced_nil : balanced []
  | balanced_bind v i e ops : balanced ops -> balanced (op_bind v i e :: ops)
  | balanced_frame ops ops' : balanced ops -> balanced ops' -> balanced (op_push :: ops ++ op_pop :: ops').

Lemma run_ops_app ops ops' s : run_ops (ops ++ ops') s = run_ops ops' (run_ops ops s).
Proof. apply fold_left_app. Qed.

(** What the operations of a block leave: names that the undo entries above
    the old ones restore. *)
Definition undoes (s s' : proc_scope) : Prop :=
  sc_frame_marks s' = sc_frame_marks s /\
  exists us, sc_undo_stack s' = sc_undo_stack s ++ us /\
    sc_aliases (fold_left undo (rev us) s') = sc_aliases s /\ sc_subst (fold_left undo (rev us) s') = sc_subst s.

Lemma undo_maps us : forall s s', sc_aliases s = sc_aliases s' -> sc_subst s = sc_subst s' ->
  sc_aliases (fold_left undo us s) = sc_aliases (fold_left undo us s') /\ sc_subst (fold_left undo us s) = sc_subst (fold_left undo us s').
Proof. induction us as [|u us IH]; intros s s' H1 H2; [done|]. simpl. apply IH; simpl; by rewrite ?H1, ?H2. Qed.

Lemma undoes_trans s1 s2 s3 : undoes s1 s2 -> undoes s2 s3 -> undoes s1 s3.
Proof.
  intros (F1 & us1 & U1 & A1 & S1) (F2 & us2 & U2 & A2 & S2). split; [congruence|]. exists (us1 ++ us2). split; [by rewrite U2, U1, app_assoc|].
  rewrite rev_app_distr, fold_left_app. destruct (undo_maps (rev us1) _ _ A2 S2) as [-> ->]. done.
Qed.

Lemma undoes_bind s v i e : undoes s (bind_name s v i e).
Proof. split; [done|]. eexists [_]. split; [done|]. simpl. by rewrite !restore_insert. Qed.

Lemma pop_push s s' : undoes (push_frame s) s' -> pop_frame s' = s.
Proof.
  intros (F & us & U & A & S). unfold pop_frame. rewrite F. simpl. rewrite last_snoc, U. simpl. rewrite drop_app_length, take_app_length, removelast_last.
  destruct s as [al su un fm]. simpl in *. by rewrite A, S.
Qed.

Lemma balanced_undoes ops : balanced ops -> forall s, undoes s (run_ops ops s).
Proof.
  induction 1 as [|v i e ops H IH|ops ops' H IH H' IH']; intros s.
  - split; [done|]. exists []. by rewrite app_nil_r.
  - simpl. eapply undoes_trans; [apply undoes_bind|apply IH].
  - simpl. rewrite run_ops_app. simpl. rewrite (pop_push s) by apply IH. apply IH'.
Qed.

(** Leaving a scope restores all names: whatever blocks and declarations a
    block contains, after it the aliases, the substitutions and the stacks
    are what they were before it. *)
Theorem scopes_restore ops s : balanced ops -> pop_frame (run_ops ops (push_frame s)) = s.
Proof. intros H. by apply pop_push, balanced_undoes. Qed.

Lemma scopes_restore_witness :
  let e := make_scalar 0 0 0 false in
  pop_frame (run_ops [op_bind "a" "$blk0__a" e; op_push; op_bind "a" "$blk1__a" e; op_bind "b" "$blk2__b" e; op_pop; op_bind "a" "$blk3__a" e]
    (push_frame (bind_name scope_default "a" "x" e))) = bind_name scope_default "a" "x" e.
Proof.
  intros e. apply scopes_restore. apply balanced_bind. apply (balanced_frame [op_bind "a" "$blk1__a" e; op_bind "b" "$blk2__b" e]); repeat constructor.
Defined.

(** ** The invariant of the tables *)

(** The bits are the signals of the indices of the range, in its order. *)
Record vector_ok (names : list string) (base : string) (vd : vector_desc) : Prop := mk_vector_ok {
  vo_width : Z.of_nat (length (vd_bits vd)) = Z.abs (vd_msb vd - vd_lsb vd) + 1;
  vo_bits : forall pos sig, vd_bits vd !! pos = Some sig -> vat names sig = Some (make_bit_name base (vector_index_at (vd_msb vd) (vd_lsb vd) (Z.of_nat pos)))
}.

Record names_ok (m : compiled_module) : Prop := mk_names_ok {
  no_reg : length (cm_signal_is_reg m) = length (cm_signal_names m);
  no_signed : length (cm_signal_is_signed m) = length (cm_signal_names m);
  no_const : length (cm_signal_is_const m) = length (cm_signal_names m);
  no_foldable : length (cm_signal_is_const_foldable m) = length (cm_signal_names m);
  no_value : length (cm_signal_const_value m) = length (cm_signal_names m);
  no_index : forall n i, cm_signal_index m !! n = Some i <-> vat (cm_signal_names m) i = Some n;
  no_vectors : forall base vd, cm_vectors m !! base = Some vd -> vector_ok (cm_signal_names m) base vd
}.

(** Declarations only add signals. *)
Definition extends (m m' : compiled_module) : Prop := cm_signal_names m `prefix_of` cm_signal_names m'.
Definition keeps_names (m m' : compiled_module) : Prop := names_ok m' /\ extends m m'.
#[export] Instance extends_preorder : PreOrder extends.
Proof. unfold extends. split; [by intros m|]. intros a b c H1 H2. by etrans. Qed.

Lemma vat_prefix {A} (l l' : list A) i x : l `prefix_of` l' -> vat l i = Some x -> vat l' i = Some x.
Proof. intros [k ->] H. rewrite vat_app_l; [done|]. by apply vat_Some in H as []. Qed.
Lemma vector_ok_prefix names names' base vd : names `prefix_of` names' -> vector_ok names base vd -> vector_ok names' base vd.
Proof. intros Hp [H1 H2]. split; [done|]. intros pos sig Hs. by eapply vat_prefix, H2. Qed.

Lemma names_ok_nodup m : names_ok m -> NoDup (cm_signal_names m).
Proof.
  intros H. apply NoDup_alt. intros i j x Hi Hj.
  assert (Hat : forall k, cm_signal_names m !! k = Some x -> cm_signal_index m !! x = Some (Z.of_nat k)).
  { intros k Hk. apply (no_index _ H), vat_Some. rewrite Nat2Z.id. split; [|done]. apply lookup_lt_Some in Hk. unfold vsize. lia. }
  apply Hat in Hi. apply Hat in Hj. rewrite Hi in Hj. injection Hj as Hj. lia.
Qed.

(** A change of the flags, the constants or the other tables. *)
Lemma names_ok_flags m m' : names_ok m -> cm_signal_names m' = cm_signal_names m -> cm_signal_index m' = cm_signal_index m -> cm_vectors m' = cm_vectors m ->
  length (cm_signal_is_reg m') = length (cm_signal_is_reg m) -> length (cm_signal_is_signed m') = length (cm_signal_is_signed m) ->
  length (cm_signal_is_const m') = length (cm_signal_is_const m) -> length (cm_signal_is_const_foldable m') = length (cm_signal_is_const_foldable m) ->
  length (cm_signal_const_value m') = length (cm_signal_const_value m) -> keeps_names m m'.
Proof. intros [H1 H2 H3 H4 H5 H6 H7] En Ei Ev L1 L2 L3 L4 L5. split; [split; rewrite ?En, ?Ei, ?Ev; first [done|congruence]|]. by unfold extends; rewrite En. Qed.

Lemma length_vgrow_same {A} (l : list A) n x : n = vsize l -> length (vgrow l n x) = length l.
Proof. intros ->. unfold vgrow, vsize. rewrite length_app, length_replicate, Nat2Z.id. lia. Qed.

Lemma set_reg_keeps m sig : names_ok m -> keeps_names m (set_reg m sig).
Proof. intros H. apply names_ok_flags; simpl; rewrite ?length_vset; done. Qed.
Lemma set_signed_keeps m sig : names_ok m -> keeps_names m (set_signed m sig).
Proof. intros H. apply names_ok_flags; simpl; rewrite ?length_vset; done. Qed.
Lemma set_foldable_keeps m sig b : names_ok m -> keeps_names m (set_foldable m sig b).
Proof. intros H. apply names_ok_flags; simpl; rewrite ?length_vset; done. Qed.
Lemma set_const_keeps m sig v : names_ok m -> keeps_names m (set_const_signal m sig v).
Proof.
  intros H. unfold set_const_signal. destruct (_ <=? sig); [by split|]. assert (Hg : (vsize (cm_signal_is_const m) <? vsize (cm_signal_names m)) = false).
  { apply Z.ltb_ge. unfold vsize. rewrite (no_const _ H). lia. }
  rewrite Hg. apply names_ok_flags; simpl; rewrite ?length_vset; done.
Qed.

Lemma get_or_create_keeps m n : names_ok m -> keeps_names m (get_or_create_signal m n).2 /\
  vat (cm_signal_names (get_or_create_signal m n).2) (get_or_create_signal m n).1 = Some n /\ cm_vectors (get_or_create_signal m n).2 = cm_vectors m.
Proof.
  intros H. unfold get_or_create_signal. destruct (cm_signal_index m !! n) as [i|] eqn:Ei; [split_and!; [by split|by apply (no_index _ H)|done]|]. simpl.
  assert (Hp : cm_signal_names m `prefix_of` cm_signal_names m ++ [n]) by (by apply prefix_app_r).
  assert (Hnew : vat (cm_signal_names m ++ [n]) (vsize (cm_signal_names m)) = Some n) by apply vat_app_r.
  split_and!; [split; [|done]|done|done]. destruct H as [H1 H2 H3 H4 H5 H6 H7]. split; simpl; rewrite ?length_app; simpl; try congruence.
  - intros k i. destruct (decide (k = n)) as [->|Hne].
    + rewrite lookup_insert_eq. split; [by intros [= <-]|]. intros Hv. apply vat_Some in Hv as [Hr Hv]. unfold vsize in Hr. rewrite length_app in Hr. simpl in Hr.
      destruct (decide (i = vsize (cm_signal_names m))) as [->|Hi]; [done|]. exfalso. unfold vsize in Hi.
      rewrite lookup_app_l in Hv by lia. assert (Hv' : vat (cm_signal_names m) i = Some n) by (apply vat_Some; unfold vsize; split; [lia|done]).
      apply H6 in Hv'. congruence.
    + rewrite lookup_insert_ne by done. rewrite H6. split; [by apply vat_prefix|]. intros Hv. apply vat_Some in Hv as [Hr Hv]. unfold vsize in Hr. rewrite length_app in Hr. simpl in Hr.
      apply vat_Some. destruct (decide (i = vsize (cm_signal_names m))) as [->|Hi].
      * rewrite vat_app_r in Hnew. unfold vsize in Hv. rewrite Nat2Z.id, list_lookup_middle in Hv by done. congruence.
      * unfold vsize in *. rewrite lookup_app_l in Hv by lia. split; [lia|done].
  - intros base vd Hb. eapply vector_ok_prefix; [done|]. by apply H7.
Qed.

Lemma keeps_trans m m1 m2 : keeps_names m m1 -> (names_ok m1 -> keeps_names m1 m2) -> keeps_names m m2.
Proof. intros [H1 E1] H. destruct (H H1) as [H2 E2]. split; [done|by etrans]. Qed.
Lemma fold_keeps {A} (f : compiled_module -> A -> compiled_module) l : (forall m x, names_ok m -> keeps_names m (f m x)) ->
  forall m, names_ok m -> keeps_names m (fold_left f l m).
Proof. intros Hf. induction l as [|x l IH]; intros m H; [by split|]. simpl. eapply keeps_trans; [by apply Hf|by apply IH]. Qed.

Lemma set_reg_vectors m sig : cm_vectors (set_reg m sig) = cm_vectors m.
Proof. done. Qed.
Lemma set_signed_vectors m sig : cm_vectors (set_signed m sig) = cm_vectors m.
Proof. done. Qed.

Lemma declare_bits_keeps base msb lsb is_reg is_signed ps : forall m, names_ok m ->
  let '(bits, m') := declare_bits m base msb lsb is_reg is_signed ps in
  keeps_names m m' /\ cm_vectors m' = cm_vectors m /\
  Forall2 (fun pos sig => vat (cm_signal_names m') sig = Some (make_bit_name base (vector_index_at msb lsb (Z.of_nat pos)))) ps bits.
Proof.
  induction ps as [|pos ps IH]; intros m H; simpl; [by split_and!|].
  destruct (get_or_create_keeps m (make_bit_name base (vector_index_at msb lsb (Z.of_nat pos))) H) as (K1 & Hs & V1).
  destruct (get_or_create_signal m _) as [sig m1]. simpl in K1, Hs, V1. set (m2 := if is_reg then set_reg m1 sig else m1).
  set (m3 := if is_signed then set_signed m2 sig else m2).
  assert (K3 : keeps_names m1 m3).
  { apply (keeps_trans _ m2); [unfold m2; destruct is_reg; [by apply set_reg_keeps, K1|by split; [apply K1|]]|]. intros H2.
    unfold m3. destruct is_signed; [by apply set_signed_keeps|by split]. }
  assert (V3 : cm_vectors m3 = cm_vectors m) by (rewrite <- V1; unfold m3, m2; by destruct is_signed, is_reg).
  specialize (IH m3 (proj1 K3)). destruct (declare_bits m3 _ _ _ _ _ ps) as [bits m4]. destruct IH as (K4 & V4 & F4).
  split_and!; [by eapply keeps_trans; [exact K1|intros _; eapply keeps_trans; [exact K3|done]]|by rewrite V4|]. constructor; [|done].
  eapply vat_prefix; [|exact Hs]. etrans; [apply K3|apply K4].
Qed.

Lemma with_vectors_keeps m base vd : names_ok m -> vector_ok (cm_signal_names m) base vd -> keeps_names m (with_vectors m (<[base := vd]> (cm_vectors m))).
Proof.
  intros [H1 H2 H3 H4 H5 H6 H7] Hv. split; [|by unfold extends]. split; simpl; try done. intros b v. destruct (decide (b = base)) as [->|Hne].
  - rewrite lookup_insert_eq. by intros [= <-].
  - rewrite lookup_insert_ne by done. apply H7.
Qed.

Lemma declare_range_keeps here m base msb lsb is_reg is_signed vd m' es : names_ok m -> declare_vector_range here m base msb lsb is_reg is_signed = Some (vd, m', es) ->
  keeps_names m m' /\ vector_ok (cm_signal_names m') base vd /\ cm_vectors m' !! base = Some vd /\ (cm_vectors m !! base = None -> vd_msb vd = msb /\ vd_lsb vd = lsb /\ es = []).
Proof.
  intros H. unfold declare_vector_range. destruct (cm_vectors m !! base) as [vd0|] eqn:Eb.
  - pose proof (no_vectors _ H base vd0 Eb) as [W0 B0]. cbv zeta.
    set (vd1 := if is_signed then _ else vd0). assert (Hv1 : vector_ok (cm_signal_names m) base vd1) by (unfold vd1; destruct is_signed; by split).
    destruct (is_reg && negb (vd_is_reg vd0)); intros [= <- <- _].
    + set (vd2 := {| vd_msb := _; vd_lsb := _; vd_is_reg := true; vd_is_signed := _; vd_bits := _ |}).
      assert (Hv2 : vector_ok (cm_signal_names m) base vd2) by (destruct Hv1; by split). pose proof (with_vectors_keeps m base vd2 H Hv2) as K1.
      pose proof (fold_keeps set_reg (vd_bits vd2) set_reg_keeps _ (proj1 K1)) as K2.
      assert (Ev : forall l n, cm_vectors (fold_left set_reg l n) = cm_vectors n) by (induction l; intros n; [done|]; simpl; by rewrite IHl).
      split_and!; [by eapply keeps_trans; [exact K1|]|by eapply vector_ok_prefix; [apply K2|]| |done]. rewrite Ev. simpl. by rewrite lookup_insert_eq.
    + split_and!; [by apply with_vectors_keeps|done|simpl; by rewrite lookup_insert_eq|done].
  - destruct (vector_width msb lsb) as [w|] eqn:Ew; [|done]. pose proof (declare_bits_keeps base msb lsb is_reg is_signed (seq 0 w) m H) as Hd.
    destruct (declare_bits m _ _ _ _ _ _) as [bits m1]. destruct Hd as (K1 & V1 & F1). intros [= <- <- <-].
    assert (Hv : vector_ok (cm_signal_names m1) base {| vd_msb := msb; vd_lsb := lsb; vd_is_reg := is_reg; vd_is_signed := is_signed; vd_bits := bits |}).
    { split; simpl.
      - pose proof (Forall2_length _ _ _ F1) as Hl. rewrite length_seq in Hl. unfold vector_width in Ew. destruct (INT_MAX <? _); [done|]. injection Ew as Ew. lia.
      - intros pos sig Hp. pose proof (Forall2_length _ _ _ F1) as Hl. rewrite length_seq in Hl. pose proof (lookup_lt_Some _ _ _ Hp) as Hlt.
        pose proof (Forall2_lookup_lr _ _ _ pos pos sig F1) as Hf. apply Hf; [|done]. apply lookup_seq_lt. lia. }
    split_and!; [eapply keeps_trans; [exact K1|]; intros H1; by apply with_vectors_keeps|done|simpl; by rewrite lookup_insert_eq|done].
Qed.

Lemma set_param_bit_keeps l m b : names_ok m -> keeps_names m (set_param_bit l m b).
Proof.
  intros H. unfold set_param_bit. destruct (_ <? _); [|by apply set_const_keeps]. eapply keeps_trans; [by apply set_const_keeps|]. intros H1. by apply set_foldable_keeps.
Qed.

Lemma other_tables_keeps m order decls po pd pl c : names_ok m -> keeps_names m (with_tables m order decls (cm_vectors m) po pd pl c).
Proof. intros H. by apply names_ok_flags. Qed.

Lemma define_param_keeps here m name value is_local m' es : names_ok m -> define_param here m name value is_local = Some (m', es) -> keeps_names m m'.
Proof.
  intros H. unfold define_param. destruct (decide (name = "")); [intros [= <- _]; by split|]. destruct (cm_param_default_values m !! name); [intros [= <- _]; by split|].
  destruct (declare_vector_range _ _ _ _ _ _ _) as [[[vd m1] es1]|] eqn:Ed; [|done]. cbv zeta. intros [= <- _].
  destruct (declare_range_keeps _ _ _ _ _ _ _ _ _ _ H Ed) as (K1 & _). eapply keeps_trans; [exact K1|]. intros H1.
  eapply keeps_trans; [apply (fold_keeps (set_param_bit is_local)); [intros; by apply set_param_bit_keeps|done]|]. intros H2. by apply other_tables_keeps.
Qed.

Lemma vector_pos_inside msb lsb idx : vector_pos msb lsb idx <> SIZE_MAX ->
  0 <= vector_pos msb lsb idx < Z.abs (msb - lsb) + 1 /\ vector_index_at msb lsb (vector_pos msb lsb idx) = idx.
Proof.
  unfold vector_pos, vector_index_at. destruct (lsb <=? msb) eqn:E; rewrite ?Z.leb_le, ?Z.leb_gt in E;
    (destruct (_ && _) eqn:Ei; [|done]); rewrite andb_true_iff, !Z.leb_le in Ei; lia.
Qed.
(** The bit of a vector is the signal with its name. *)
Lemma vector_bit_keeps m base idx is_reg : names_ok m -> exists sig m', get_or_create_vector_bit m base idx is_reg = Some (sig, m') /\
  keeps_names m m' /\ vat (cm_signal_names m') sig = Some (make_bit_name base idx).
Proof.
  intros H. unfold get_or_create_vector_bit. destruct (get_or_create_keeps m (make_bit_name base idx) H) as (K & Hs & _).
  destruct (get_or_create_signal m _) as [sig m1]. simpl in K, Hs. assert (Kc : keeps_names m (if is_reg then set_reg m1 sig else m1)).
  { destruct is_reg; [|done]. eapply keeps_trans; [exact K|]. intros H1. by apply set_reg_keeps. }
  assert (Hc : exists s m', Some (sig, if is_reg then set_reg m1 sig else m1) = Some (s, m') /\ keeps_names m m' /\ vat (cm_signal_names m') s = Some (make_bit_name base idx))
    by (eexists _, _; split_and!; [done|done|by destruct is_reg]).
  destruct (cm_vectors m !! base) as [vd|] eqn:Eb; [|done]. destruct (Z.eqb_spec (vector_pos (vd_msb vd) (vd_lsb vd) idx) SIZE_MAX) as [|Hne]; [done|].
  apply vector_pos_inside in Hne as [Hr Hi]. destruct (no_vectors m H base vd Eb) as [Hw Hb].
  destruct (lookup_lt_is_Some_2 (vd_bits vd) (Z.to_nat (vector_pos (vd_msb vd) (vd_lsb vd) idx))) as [s Es]; [lia|].
  exists s, m. assert (Hv : vat (vd_bits vd) (vector_pos (vd_msb vd) (vd_lsb vd) idx) = Some s) by (apply vat_Some; unfold vsize; split; [lia|done]).
  rewrite Hv. split_and!; [done|by split|]. rewrite (Hb _ _ Es), Z2Nat.id by lia. by rewrite Hi.
Qed.

(** The declarations of a module. *)
Inductive names_step : compiled_module -> compiled_module -> Prop :=
  | step_signal m n : names_step m (get_or_create_signal m n).2
  | step_vector here m base msb lsb is_reg is_signed vd m' es :
      declare_vector_range here m base msb lsb is_reg is_signed = Some (vd, m', es) -> names_step m m'
  | step_vector_bit m base idx is_reg sig m' : get_or_create_vector_bit m base idx is_reg = Some (sig, m') -> names_step m m'
  | step_port m base : names_step m (ensure_port_decl m base).2
  | step_const m sig v : names_step m (set_const_signal m sig v)
  | step_param here m name value is_local m' es : define_param here m name value is_local = Some (m', es) -> names_step m m'
  | step_local m visible : names_step m (make_scoped_local_name m visible).2.

Lemma names_step_keeps m m' : names_step m m' -> names_ok m -> keeps_names m m'.
Proof.
  intros Hs H. destruct Hs as [m n|here m base msb lsb r s vd m' es E|m base idx r sig m' E|m base|m sig v|here m name v l m' es E|m visible].
  - by apply get_or_create_keeps.
  - by eapply declare_range_keeps.
  - destruct (vector_bit_keeps m base idx r H) as (? & ? & E' & K & _). by simplify_eq.
  - unfold ensure_port_decl. destruct (cm_port_decls m !! base); [by split|]. by apply other_tables_keeps.
  - by apply set_const_keeps.
  - by eapply define_param_keeps.
  - by apply other_tables_keeps.
Qed.

Lemma names_ok_default : names_ok module_default.
Proof. split; try done. intros n i. simpl. rewrite lookup_empty. split; [done|]. intros H. by apply vat_Some in H as [_ H]. Qed.

Lemma steps_keep m m' : rtc names_step m m' -> names_ok m -> keeps_names m m'.
Proof. induction 1 as [m|m m1 m' Hs Hr IH]; intros H; [by split|]. eapply keeps_trans; [by apply names_step_keeps|done]. Qed.

(** C39: after any sequence of declarations the names of the signals are
    distinct, the index is their inverse, every table has an entry for every
    signal, the bits of a vector are the signals of its indices, and the
    numbers of the signals declared before have not changed. *)
Theorem declarations_stay_consistent m m' : rtc names_step module_default m -> rtc names_step m m' ->
  names_ok m' /\ NoDup (cm_signal_names m') /\ cm_signal_names m `prefix_of` cm_signal_names m' /\
  forall base idx is_reg, exists sig m'', get_or_create_vector_bit m' base idx is_reg = Some (sig, m'') /\
    vat (cm_signal_names m'') sig = Some (make_bit_name base idx).
Proof.
  intros H1 H2. destruct (steps_keep _ _ H1 names_ok_default) as [H _]. destruct (steps_keep _ _ H2 H) as [H' He].
  split_and!; [done|by apply names_ok_nodup|done|]. intros base idx r. destruct (vector_bit_keeps m' base idx r H') as (sig & m'' & E & _ & Hs). eauto.
Qed.

(** ** The names of bits *)

Fixpoint bracket_free (s : string) : bool := match s with EmptyString => true | String c s' => negb (Ascii.eqb c "["%char) && bracket_free s' end.

Lemma app_last_inj (c : Ascii.ascii) s1 : forall s2, s1 +:+ String c "" = s2 +:+ String c "" -> s1 = s2.
Proof.
  induction s1 as [|a s1 IH]; intros [|b s2] H; simpl in H; [done|..].
  - injection H as _ H. by destruct s2.
  - injection H as _ H. by destruct s1.
  - injection H as -> H. f_equal. by apply IH.
Qed.

Lemma make_bit_name_inj b1 : forall b2 i1 i2, bracket_free b1 = true -> bracket_free b2 = true -> make_bit_name b1 i1 = make_bit_name b2 i2 -> b1 = b2 /\ i1 = i2.
Proof.
  unfold make_bit_name. induction b1 as [|c b1 IH]; intros [|d b2] i1 i2 H1 H2 H; simpl in H, H1, H2.
  - injection H as H. apply app_last_inj in H. split; [done|]. by apply (inj pretty).
  - injection H as <- _. done.
  - injection H as -> _. done.
  - apply andb_true_iff in H1 as [_ H1]. apply andb_true_iff in H2 as [_ H2]. injection H as -> H. destruct (IH b2 i1 i2 H1 H2 H) as [-> ->]. done.
Qed.

Lemma vector_index_inj msb lsb p1 p2 : vector_index_at msb lsb p1 = vector_index_at msb lsb p2 -> p1 = p2.
Proof. unfold vector_index_at. destruct (lsb <=? msb); lia. Qed.

(** The vectors of a module do not overlap: a signal is a bit of one vector
    only, at one position, for the names that the lexer accepts. *)
Theorem vectors_do_not_overlap m b1 vd1 p1 b2 vd2 p2 sig : rtc names_step module_default m -> bracket_free b1 = true -> bracket_free b2 = true ->
  cm_vectors m !! b1 = Some vd1 -> cm_vectors m !! b2 = Some vd2 -> vd_bits vd1 !! p1 = Some sig -> vd_bits vd2 !! p2 = Some sig -> b1 = b2 /\ p1 = p2.
Proof.
  intros Hr F1 F2 V1 V2 L1 L2. destruct (steps_keep _ _ Hr names_ok_default) as [H _].
  pose proof (vo_bits _ _ _ (no_vectors _ H b1 vd1 V1) p1 sig L1) as N1. pose proof (vo_bits _ _ _ (no_vectors _ H b2 vd2 V2) p2 sig L2) as N2.
  rewrite N1 in N2. injection N2 as N2. destruct (make_bit_name_inj _ _ _ _ F1 F2 N2) as [-> Hi]. split; [done|]. rewrite V1 in V2. injection V2 as ->.
  apply vector_index_inj in Hi. lia.
Qed.

(** ** Parameters *)

Definition writes {A} (l : list (Z * A)) (vs : list A) : list A := fold_left (fun vs p => vset vs p.1 p.2) l vs.

Lemma writes_other {A} (l : list (Z * A)) s : forall vs, s ∉ l.*1 -> vat (writes l vs) s = vat vs s.
Proof.
  induction l as [|[k v] l IH]; intros vs Hs; [done|]. apply not_elem_of_cons in Hs as [Hne Hs]. change (writes ((k, v) :: l) vs) with (writes l (vset vs k v)).
  rewrite IH by done. by apply vat_vset_ne.
Qed.
Lemma writes_lookup {A} (l : list (Z * A)) s v : forall vs, NoDup l.*1 -> (s, v) ∈ l -> 0 <= s < vsize vs -> vat (writes l vs) s = Some v.
Proof.
  induction l as [|[k x] l IH]; intros vs Hn Hin Hs; [by apply elem_of_nil in Hin|]. change (writes ((k, x) :: l) vs) with (writes l (vset vs k x)).
  apply NoDup_cons in Hn as [Hk Hn].
  apply elem_of_cons in Hin as [[= <- <-]|Hin]; [|apply IH; [done|done|by rewrite vsize_vset]].
  rewrite (writes_other l s) by done. by apply vat_vset.
Qed.

(** The values of the bits of a vector. *)
Definition vector_value (vd : vector_desc) (vs : list logic_t) : list (option logic_t) := map (vat vs) (vd_bits vd).

Lemma lookup_rev {A} (l : list A) i : (i < length l)%nat -> rev l !! i = l !! (length l - S i)%nat.
Proof. intros H. rewrite rev_alt. by apply reverse_lookup. Qed.

Lemma word_lookup w n i : (i < w)%nat -> word w n !! i = Some (bit (Z.testbit n (Z.of_nat (w - S i)))).
Proof.
  intros Hi. unfold word. rewrite bits_rev, lookup_rev by (rewrite bits_length, lsbs_length; lia). unfold bits. rewrite length_map, list_lookup_fmap, lsbs_length.
  by rewrite lsbs_lookup by lia.
Qed.

Lemma param_bits_keys bs value : (param_bits bs value).*1 = rev bs.
Proof.
  unfold param_bits. generalize (rev bs) as l. intros l. apply list_eq. intros i. rewrite list_lookup_fmap, list_lookup_imap. by destruct (l !! i).
Qed.

Lemma map_lookup {A C} (f : A -> C) l i x : l !! i = Some x -> map f l !! i = Some (f x).
Proof. intros H. by rewrite (list_lookup_fmap f), H. Qed.

Lemma writes_value bs value vs : NoDup bs -> Forall (fun s => 0 <= s < vsize vs) bs ->
  map (vat (writes (param_bits bs value) vs)) bs = map Some (word (length bs) value).
Proof.
  intros Hn Hr. apply list_eq. intros i. destruct (decide (i < length bs)%nat) as [Hi|Hi].
  2:{ rewrite !lookup_ge_None_2; [done|rewrite length_map, word_length; lia|rewrite length_map; lia]. }
  destruct (lookup_lt_is_Some_2 bs i) as [s Hs]; [lia|]. rewrite (map_lookup _ _ _ _ Hs), (map_lookup Some _ _ _ (word_lookup _ value i Hi)). apply f_equal.
  apply writes_lookup; [rewrite param_bits_keys; by apply NoDup_ListNoDup, NoDup_rev, NoDup_ListNoDup| |by apply (Forall_lookup_1 _ _ _ _ Hr Hs)].
  apply (list_elem_of_lookup_2 _ (length bs - S i)%nat). unfold param_bits. rewrite list_lookup_imap, lookup_rev by lia.
  replace (length bs - S (length bs - S i))%nat with i by lia. by rewrite Hs.
Qed.

(** What the bits of a parameter change. *)
Record param_set (l : list (Z * logic_t)) (m m' : compiled_module) : Prop := mk_param_set {
  ps_names : cm_signal_names m' = cm_signal_names m;
  ps_vectors : cm_vectors m' = cm_vectors m;
  ps_locals : cm_param_is_local m' = cm_param_is_local m;
  ps_values : cm_signal_const_value m' = writes l (cm_signal_const_value m);
  ps_consts : cm_signal_is_const m' = writes (prod_map id (fun _ => true) <$> l) (cm_signal_is_const m)
}.

Lemma set_param_bits_spec is_local l : forall m, names_ok m -> Forall (fun p => 0 <= p.1 < vsize (cm_signal_names m)) l ->
  param_set l m (fold_left (set_param_bit is_local) l m).
Proof.
  induction l as [|[s v] l IH]; intros m H Hl; [done|]. inversion Hl as [|? ? Hs Hl']; subst. simpl in Hs. cbn [fold_left].
  destruct (set_param_bit_keeps is_local m (s, v) H) as [H1 _].
  assert (E : param_set [(s, v)] m (set_param_bit is_local m (s, v))).
  { unfold set_param_bit, set_const_signal. cbn [fst snd]. destruct (Z.leb_spec (vsize (cm_signal_names m)) s); [lia|].
    assert (Hg : (vsize (cm_signal_is_const m) <? vsize (cm_signal_names m)) = false) by (apply Z.ltb_ge; unfold vsize; rewrite (no_const _ H); lia).
    rewrite Hg. destruct (s <? _); done. }
  destruct (IH _ H1) as [P1 P2 P3 P4 P5]; [by rewrite (ps_names _ _ _ E)|]. destruct E as [E1 E2 E3 E4 E5].
  split; [by rewrite P1|by rewrite P2|by rewrite P3|by rewrite P4, E4|by rewrite P5, E5].
Qed.

Lemma init_consts_lookup cs vs xs s v : length cs = length xs -> length vs = length xs -> vat cs s = Some true -> vat vs s = Some v -> vat (init_consts cs vs xs) s = Some v.
Proof.
  intros L1 L2 Hc Hv. apply vat_Some in Hc as [Hr Hc]. apply vat_Some in Hv as [_ Hv]. apply vat_Some. unfold vsize in *.
  split; [rewrite init_consts_length; lia|]. revert vs xs Hc Hv L1 L2. clear Hr. generalize (Z.to_nat s) as i. induction cs as [|c cs IH]; intros i vs xs Hc Hv L1 L2; [done|].
  destruct vs as [|v0 vs], xs as [|x xs]; try done. destruct i as [|i]; simpl in *; [by simplify_eq|]. apply (IH i); auto.
Qed.

Lemma vector_ok_bits m base vd : names_ok m -> vector_ok (cm_signal_names m) base vd -> NoDup (vd_bits vd) /\ Forall (fun s => 0 <= s < vsize (cm_signal_names m)) (vd_bits vd).
Proof.
  intros H [W Bv]. split.
  - apply NoDup_alt. intros i j s Hi Hj. pose proof (Bv i s Hi) as E1. pose proof (Bv j s Hj) as E2. rewrite E1 in E2. injection E2 as E2.
    unfold make_bit_name in E2. apply (inj (String.append base)) in E2. simpl in E2. injection E2 as E2. apply app_last_inj in E2.
    apply (inj pretty) in E2. apply vector_index_inj in E2. lia.
  - apply Forall_lookup. intros i s Hi. apply Bv in Hi. by apply vat_Some in Hi as [].
Qed.

(** The state of a module after an override: the bits are written. *)
Lemma apply_param_writes cm st name value vd : cm_vectors cm !! name = Some vd -> length (vd_bits vd) = 32%nat ->
  ms_values (apply_param_value cm st name value) = writes (param_bits (vd_bits vd) value) (ms_values st).
Proof.
  intros Hv Hl. unfold apply_param_value. rewrite Hv, Hl. change (negb (32 =? 32)%nat) with false. cbv iota. unfold param_bits.
  assert (E : imap (fun k sig => (sig, dns_of_bool (Z.testbit value (Z.of_nat k)))) (rev (vd_bits vd)) =
    (fun p => (p.2, dns_of_bool (Z.testbit value (Z.of_nat p.1)))) <$> imap pair (rev (vd_bits vd))) by (by rewrite fmap_imap).
  rewrite E. clear. generalize (imap pair (rev (vd_bits vd))) as l. intros l. revert st. induction l as [|[k sig] l IH]; intros st; [done|]. cbn [fold_left]. rewrite IH.
  rewrite fmap_cons. cbn [fst snd]. destruct (Z.leb_spec (vsize (ms_values st)) sig) as [Hle|Hlt]; [|done].
  unfold writes. cbn [fold_left fst snd]. unfold vset. destruct (Z.ltb_spec sig (Z.of_nat (length (ms_values st)))); [unfold vsize in Hle; lia|]. by rewrite andb_false_r.
Qed.

Lemma declare_bits_locals base msb lsb is_reg is_signed ps : forall m, cm_param_is_local (declare_bits m base msb lsb is_reg is_signed ps).2 = cm_param_is_local m.
Proof.
  induction ps as [|pos ps IH]; intros m; [done|]. simpl. unfold get_or_create_signal. destruct (cm_signal_index m !! _);
    match goal with |- context [declare_bits ?n _ _ _ _ _ ps] => specialize (IH n); destruct (declare_bits n _ _ _ _ _ ps) end; simpl in *; rewrite IH; by destruct is_reg, is_signed.
Qed.
Lemma declare_range_locals here m base msb lsb vd m' es : cm_vectors m !! base = None -> declare_vector_range here m base msb lsb false false = Some (vd, m', es) ->
  cm_param_is_local m' = cm_param_is_local m.
Proof.
  intros Hv. unfold declare_vector_range. rewrite Hv. destruct (vector_width msb lsb); [|done]. pose proof (declare_bits_locals base msb lsb false false (seq 0 n) m) as Hb.
  destruct (declare_bits _ _ _ _ _ _ _) as [bs m1]. by intros [= <- <- <-].
Qed.

Lemma init_param m1 m2 bs value : names_ok m1 -> names_ok m2 -> NoDup bs -> Forall (fun s => 0 <= s < vsize (cm_signal_names m1)) bs ->
  param_set (param_bits bs value) m1 m2 -> map (vat (ms_values (init_state m2))) bs = map Some (word (length bs) value).
Proof.
  intros H1 H2 Nd Rg [P1 P2 P3 P4 P5]. rewrite <- (writes_value bs value (cm_signal_const_value m1)); [|done|unfold vsize in *; by rewrite (no_value _ H1)].
  assert (Nk : NoDup (param_bits bs value).*1) by (rewrite param_bits_keys; by apply NoDup_ListNoDup, NoDup_rev, NoDup_ListNoDup).
  apply map_ext_in. intros s Hs%list_elem_of_In. rewrite Forall_forall in Rg. pose proof (Rg s Hs) as Hr.
  assert (Hk : s ∈ (param_bits bs value).*1) by (rewrite param_bits_keys; by apply list_elem_of_In, in_rev; rewrite rev_involutive; apply list_elem_of_In).
  apply list_elem_of_fmap_1 in Hk as ([s' v] & -> & Hin). cbn [fst] in *. unfold vsize in Hr. transitivity (Some v).
  - apply init_consts_lookup; rewrite ?length_replicate; [by apply no_const|by apply no_value| |].
    + rewrite P5. apply writes_lookup; [by rewrite <- list_fmap_compose|by apply (list_elem_of_fmap_2 (prod_map id (fun _ => true))) in Hin|unfold vsize; by rewrite (no_const _ H1)].
    + rewrite P4. apply writes_lookup; [done|done|unfold vsize; by rewrite (no_value _ H1)].
  - symmetry. apply writes_lookup; [done|done|unfold vsize; by rewrite (no_value _ H1)].
Qed.

(** A parameter declared with a new name is a vector of 32 bits that has
    its value (modulo [2^32]) in every new instance of the module; an
    instance that overrides it has the overriding value, and the value of a
    [localparam] cannot be overridden. *)
Theorem parameters_have_values here m name value is_local m' es value' :
  rtc names_step module_default m -> name <> "" -> cm_vectors m !! name = None -> cm_param_default_values m !! name = None ->
  cm_param_is_local m !! name = None -> define_param here m name value is_local = Some (m', es) ->
  es = [] /\ exists vd, cm_vectors m' !! name = Some vd /\ length (vd_bits vd) = 32%nat /\
    vector_value vd (ms_values (init_state m')) = map Some (word 32 value) /\
    vector_value vd (ms_values (override m' (init_state m') (name, value'))) = map Some (word 32 (if is_local then value else value')).
Proof.
  intros Hr Hn Hv Hd Hl. destruct (steps_keep _ _ Hr names_ok_default) as [H _]. clear Hr. unfold define_param. rewrite decide_False, Hd by done.
  destruct (declare_vector_range _ _ _ _ _ _ _) as [[[vd m1] es1]|] eqn:Ed; [|done]. pose proof (declare_range_keeps _ _ _ _ _ _ _ _ _ _ H Ed) as ((H1 & _) & Vo & V1 & Hnew).
  destruct (Hnew Hv) as (Em & El & ->). destruct (vector_ok_bits _ _ _ H1 Vo) as [Nd Rg].
  assert (L32 : length (vd_bits vd) = 32%nat) by (pose proof (vo_width _ _ _ Vo) as Hw; rewrite Em, El in Hw; lia). rewrite L32, Nat.eqb_refl. cbv zeta.
  assert (Rp : Forall (fun p => 0 <= p.1 < vsize (cm_signal_names m1)) (param_bits (vd_bits vd) value)).
  { apply Forall_forall. intros p Hp. apply (list_elem_of_fmap_2 fst) in Hp. rewrite param_bits_keys in Hp. apply list_elem_of_In, in_rev, list_elem_of_In in Hp.
    rewrite Forall_forall in Rg. by apply Rg. }
  pose proof (proj1 (fold_keeps (set_param_bit is_local) (param_bits (vd_bits vd) value) (set_param_bit_keeps is_local) m1 H1)) as H2.
  pose proof (set_param_bits_spec is_local _ m1 H1 Rp) as HP. destruct HP as [P1 P2 P3 P4 P5] eqn:EP. set (m2 := fold_left _ _ m1) in *. intros [= <- <-]. split; [done|].
  set (mf := with_tables m2 _ _ _ _ _ _ _). assert (V2 : cm_vectors mf !! name = Some vd) by (simpl; by rewrite P2).
  assert (Hread : vector_value vd (ms_values (init_state mf)) = map Some (word 32 value)) by (rewrite <- L32; by apply (init_param m1 m2)).
  exists vd. split_and!; [done|done|done|]. unfold override, is_local_param. cbn [fst snd].
  assert (El' : cm_param_is_local mf !! name = Some is_local).
  { simpl. rewrite P3, (declare_range_locals _ _ _ _ _ _ _ _ Hv Ed), Hl. by rewrite lookup_insert_eq. }
  rewrite El'. change (default false (Some is_local)) with is_local. destruct is_local; [exact Hread|]. unfold vector_value.
  rewrite (apply_param_writes mf _ name value' vd V2 L32), <- L32. apply writes_value; [done|]. unfold vsize in *.
  assert (Ln : length (ms_values (init_state mf)) = length (cm_signal_names m1)) by (unfold init_state; cbn [ms_values]; rewrite init_consts_length, length_replicate; exact (f_equal length P1)).
  by rewrite Ln.
Qed.

(** ** Examples *)

(** [wire [1:0] a; wire clk;] *)
Definition after_vector : compiled_module :=
  match declare_vector_range (1, 1) module_default "a" 1 0 false false with Some (_, m, _) => m | None => module_default end.
Lemma after_vector_reachable : rtc names_step module_default after_vector.
Proof. eapply rtc_l; [|apply rtc_refl]. eapply (step_vector (1, 1) module_default "a" 1 0 false false). vm_compute. reflexivity. Qed.

Lemma declarations_stay_consistent_witness : names_ok (get_or_create_signal after_vector "clk").2 /\
  cm_signal_names (get_or_create_signal after_vector "clk").2 = ["a[1]"; "a[0]"; "clk"].
Proof.
  split; [|reflexivity]. apply (declarations_stay_consistent after_vector (get_or_create_signal after_vector "clk").2).
  - apply after_vector_reachable.
  - eapply rtc_l; [apply step_signal|apply rtc_refl].
Defined.

Lemma vectors_do_not_overlap_witness : exists vd, cm_vectors after_vector !! "a" = Some vd /\ (forall p, vd_bits vd !! p = Some 1 -> p = 1%nat).
Proof.
  eexists. split; [vm_compute; reflexivity|]. intros p Hp.
  destruct (vectors_do_not_overlap after_vector "a" _ p "a" _ 1 1 after_vector_reachable eq_refl eq_refl eq_refl eq_refl Hp eq_refl) as [_ E]. exact E.
Defined.

(** [parameter W = 5;], and an instance with [#(.W(9))]. *)
Definition with_param : compiled_module := match define_param (1, 1) module_default "W" 5 false with Some (m, _) => m | None => module_default end.
Lemma parameters_have_values_witness : exists vd, cm_vectors with_param !! "W" = Some vd /\
  vector_value vd (ms_values (init_state with_param)) = map Some (word 32 5) /\
  vector_value vd (ms_values (override with_param (init_state with_param) ("W", 9))) = map Some (word 32 9).
Proof.
  destruct (parameters_have_values (1, 1) module_default "W" 5 false with_param [] 9) as (_ & vd & E & _ & H1 & H2).
  - apply rtc_refl.
  - discriminate.
  - reflexivity.
  - reflexivity.
  - reflexivity.
  - vm_compute. reflexivity.
  - exists vd. split; [exact E|]. split; [exact H1|exact H2].
Defined.
