(* ===== verification/VParser.v ===== *)
(** * VParser: the cursor of the parser

    [struct parser] of [verilog/digital/digital.h]: the tokens, the position,
    the errors, with the operations that look at the next token and the
    functions that skip what the compiler does not support.  [None] is a read
    outside of the tokens; the loops have as much fuel as there are tokens,
    and running out of it is [None] too. *)

From Stdlib Require Import ZArith Lia Ascii.
From stdpp Require Import base list strings.
From S2P Require Import Prelude VBuild VStmt VLex.

Open Scope Z_scope.

Record parser : Type := mk_parser {
  pa_toks : list token;
  pa_pos : nat;
  pa_errors : list compile_error;
  pa_return_target : text  (** where [return] of an inlined function assigns *)
}.
Abbreviation Pa := (St parser).

Definition is_kw (t kw : text) : bool := bool_decide (t = kw).
Definition is_sym (t : text) (c : ascii) : bool := match t with [x] => x =c c | _ => false end.
Definition is_sym2 (t : text) (a b : ascii) : bool := match t with [x; y] => (x =c a) && (y =c b) | _ => false end.
Definition is_sym3 (t : text) (a b c : ascii) : bool := match t with [x; y; z] => (x =c a) && (y =c b) && (z =c c) | _ => false end.
Definition kind_eqb (a b : token_kind) : bool :=
  match a, b with tk_eof, tk_eof | tk_identifier, tk_identifier | tk_number, tk_number | tk_symbol, tk_symbol => true | _, _ => false end.

Definition peek : Pa token := fun p => match pa_toks p !! pa_pos p with Some t => Some (t, p) | None => None end.
Definition eof : Pa bool := t ← peek; mret (kind_eqb (tok_kind t) tk_eof).
Definition advance : Pa unit := fun p => Some (tt, mk_parser (pa_toks p) (S (pa_pos p)) (pa_errors p) (pa_return_target p)).
Definition consume : Pa token :=
  t ← peek;
  e ← eof;
  if (e : bool) then mret t else _ ← advance; mret t.
Definition err_at (t : token) (msg : string) : Pa unit := fun p =>
  Some (tt, mk_parser (pa_toks p) (pa_pos p) (pa_errors p ++ [mk_error msg 0 (tok_line t) (tok_column t)]) (pa_return_target p)).

(** [if(test) { consume(); return true; } return false;] *)
Definition accept (test : token -> bool) : Pa bool :=
  t ← peek; if test t then _ ← consume; mret true else mret false.
Definition sym_test (c : ascii) (t : token) : bool := kind_eqb (tok_kind t) tk_symbol && is_sym (tok_text t) c.
Definition kw_test (kw : text) (t : token) : bool := kind_eqb (tok_kind t) tk_identifier && is_kw (tok_text t) kw.
Definition accept_sym (c : ascii) : Pa bool := accept (sym_test c).
Definition accept_sym2 (a b : ascii) : Pa bool := accept (fun t => kind_eqb (tok_kind t) tk_symbol && is_sym2 (tok_text t) a b).
Definition accept_sym3 (a b c : ascii) : Pa bool := accept (fun t => kind_eqb (tok_kind t) tk_symbol && is_sym3 (tok_text t) a b c).
Definition accept_kw (kw : text) : Pa bool := accept (kw_test kw).

Definition expect_ident (what : string) : Pa text :=
  t ← peek;
  if negb (kind_eqb (tok_kind t) tk_identifier) then _ ← err_at t what; mret [] else _ ← consume; mret (tok_text t).

Fixpoint skip_until (fuel : nat) : Pa unit :=
  e ← eof;
  if (e : bool) then mret tt
  else match fuel with
       | O => undefined
       | S fuel' => a ← accept_sym ";"; if (a : bool) then mret tt else _ ← consume; skip_until fuel'
       end.
Definition with_fuel {A} (f : nat -> Pa A) : Pa A := fun p => f (length (pa_toks p)) p.
Definition skip_until_semicolon : Pa unit := with_fuel skip_until.

(** [while(!p.eof() && depth != 0)] over nested pairs. *)
Fixpoint skip_nested (opening closing : token -> bool) (fuel depth : nat) : Pa unit :=
  e ← eof;
  if (e : bool) then mret tt
  else match depth, fuel with
       | O, _ => mret tt
       | _, O => undefined
       | S depth', S fuel' =>
           o ← accept opening;
           if (o : bool) then skip_nested opening closing fuel' (S depth)
           else
             c ← accept closing;
             if (c : bool) then skip_nested opening closing fuel' depth'
             else _ ← consume; skip_nested opening closing fuel' depth
       end.

Definition skip_balanced_parens : Pa unit :=
  a ← accept_sym "("; if (a : bool) then with_fuel (fun n => skip_nested (sym_test "(") (sym_test ")") n 1) else mret tt.

Definition skip_label (what : string) : Pa unit :=
  a ← accept_sym ":"; if (a : bool) then _ ← expect_ident what; mret tt else mret tt.
Definition skip_generate_item : Pa unit :=
  b ← accept_kw (chars "begin");
  if (b : bool) then
    _ ← skip_label "expected generate block label";
    _ ← with_fuel (fun n => skip_nested (kw_test (chars "begin")) (kw_test (chars "end")) n 1);
    skip_label "expected generate block label after end"
  else skip_until_semicolon.
Definition skip_implicit_generate_for : Pa unit := _ ← skip_balanced_parens; skip_generate_item.
Definition skip_implicit_generate_if : Pa unit :=
  _ ← skip_balanced_parens; _ ← skip_generate_item;
  e ← accept_kw (chars "else"); if (e : bool) then skip_generate_item else mret tt.

Fixpoint skip_dims (fuel : nat) : Pa unit :=
  a ← accept_sym "[";
  if (a : bool) then
    match fuel with
    | O => undefined
    | S fuel' => _ ← with_fuel (fun n => skip_nested (sym_test "[") (sym_test "]") n 1); skip_dims fuel'
    end
  else mret tt.
Definition skip_unpacked_dims : Pa unit := with_fuel skip_dims.

(** The text of tokens [b] to [e], from which the body of a function is lexed
    again when the function is called. *)
Definition is_word (t : token) : bool := kind_eqb (tok_kind t) tk_identifier || kind_eqb (tok_kind t) tk_number.
Fixpoint text_of (toks : list token) (prev_word : bool) (s : text) : text :=
  match toks with
  | [] => s
  | t :: toks' =>
      if kind_eqb (tok_kind t) tk_eof then s
      else
        let s' := if negb (length s =? 0)%nat && prev_word && is_word t then s ++ [" "%char] else s in
        text_of toks' (is_word t) (s' ++ tok_text t)
  end.
Definition tokens_to_text (toks : list token) (b e : nat) : text := text_of (drop b (take e toks)) false [].

(** ** The cursor of the parser

    The tokens of a source end with the only [eof] token, so a cursor inside
    of them never leaves them; the skipping functions return and stop exactly
    after the semicolon or the bracket that closes what they skip. *)

Open Scope Z_scope.

(** Tokens of which the last one, and no other, is [eof]. *)
Inductive stream : list token -> Prop :=
  | stream_end t : tok_kind t = tk_eof -> stream [t]
  | stream_cons t ts : tok_kind t <> tk_eof -> stream ts -> stream (t :: ts).

Lemma lexes_stream smap pre src ts es : lexes smap pre src ts es -> stream ts.
Proof. induction 1 as [| |? ? ? ? ? ? Hf| |]; [by constructor|done|..]; (constructor; [|done]); [by destruct Hf|done..]. Qed.
Lemma stream_drop ts : stream ts -> forall n, (n < length ts)%nat -> stream (drop n ts).
Proof.
  induction 1 as [t E|t ts E H IH]; intros [|n] Hn; simpl in *; try (by constructor); [lia|]. apply IH. lia.
Qed.

Definition rest (p : parser) : list token := drop (pa_pos p) (pa_toks p).
Definition moved (n : nat) (p : parser) : parser := mk_parser (pa_toks p) (pa_pos p + n) (pa_errors p) (pa_return_target p).

Lemma rest_moved n p : rest (moved n p) = drop n (rest p).
Proof. unfold rest. simpl. by rewrite drop_drop. Qed.
Lemma moved_moved n k p : moved k (moved n p) = moved (n + k) p.
Proof. unfold moved. simpl. by rewrite Nat.add_assoc. Qed.
Lemma moved_0 p : moved 0 p = p.
Proof. unfold moved. rewrite Nat.add_0_r. by destruct p. Qed.

(** ** One token *)

Section Step.
Context (p : parser) (t : token) (ts : list token) (Hr : rest p = t :: ts).

Lemma peek_rest : peek p = Some (t, p).
Proof. unfold peek. replace (pa_toks p !! pa_pos p) with (Some t); [done|]. pose proof (lookup_drop (pa_toks p) (pa_pos p) 0) as H. unfold rest in Hr. rewrite Hr, Nat.add_0_r in H. done. Qed.
Lemma eof_rest : eof p = Some (kind_eqb (tok_kind t) tk_eof, p).
Proof. unfold eof, mbind, St_bind. by rewrite peek_rest. Qed.
Lemma consume_rest : tok_kind t <> tk_eof -> consume p = Some (t, moved 1 p).
Proof.
  intros Hk. unfold consume, mbind, St_bind. rewrite peek_rest, eof_rest. unfold advance, mret, St_ret, moved. rewrite Nat.add_1_r.
  by destruct (tok_kind t).
Qed.
Lemma accept_rest test : (test t = true -> tok_kind t <> tk_eof) -> accept test p = Some (test t, if test t then moved 1 p else p).
Proof.
  intros Hk. unfold accept, mbind, St_bind. rewrite peek_rest. destruct (test t); [|done]. by rewrite consume_rest by auto.
Qed.
Lemma rest_next : rest (moved 1 p) = ts.
Proof. by rewrite rest_moved, Hr. Qed.
End Step.

Lemma sym_test_kind c t : sym_test c t = true -> tok_kind t <> tk_eof.
Proof. unfold sym_test. by destruct (tok_kind t). Qed.
Lemma kw_test_kind kw t : kw_test kw t = true -> tok_kind t <> tk_eof.
Proof. unfold kw_test. by destruct (tok_kind t). Qed.
#[local] Hint Resolve sym_test_kind kw_test_kind : core.

(** ** Skipping *)

(** The cursor stops after the first token that passes the test, or at the
    end when there is none. *)
Definition stops_after (test : token -> bool) (ts : list token) (n : nat) : Prop :=
  (exists pre t post, ts = pre ++ t :: post /\ n = S (length pre) /\ test t = true /\ Forall (fun u => test u = false) pre) \/
  (S n = length ts /\ Forall (fun u => test u = false) ts).

Lemma skip_until_spec ts : stream ts -> forall fuel p, rest p = ts -> (length ts <= S fuel)%nat ->
  exists n, skip_until fuel p = Some (tt, moved n p) /\ stops_after (sym_test ";") ts n.
Proof.
  induction 1 as [t E|t ts E H IH]; intros fuel p Hr Hf.
  - exists 0%nat. split; [destruct fuel; cbn [skip_until]; unfold mbind, St_bind; rewrite (eof_rest p t [] Hr), E, moved_0; done|].
    right. split; [done|]. repeat constructor. unfold sym_test. by rewrite E.
  - assert (Hl : (1 <= length ts)%nat) by (destruct H; simpl; lia). simpl in Hf. destruct fuel as [|fuel]; [lia|].
    cbn [skip_until]. unfold mbind, St_bind. rewrite (eof_rest p t ts Hr). replace (kind_eqb (tok_kind t) tk_eof) with false by (by destruct (tok_kind t)).
    unfold accept_sym. rewrite (accept_rest p t ts Hr) by eauto. destruct (sym_test ";" t) eqn:Et.
    + exists 1%nat. split; [done|]. left. by exists [], t, ts.
    + rewrite (consume_rest p t ts Hr E). destruct (IH fuel (moved 1 p)) as (n & -> & Hn); [by apply (rest_next p t)|lia|].
      exists (S n). rewrite moved_moved. split; [done|]. destruct Hn as [(pre & u & post & -> & -> & Hu & Hp)|[Hn Hp]].
      * left. exists (t :: pre), u, post. split_and!; auto.
      * right. split; [simpl; lia|auto].
Qed.

Section Nested.
Context (opening closing : token -> bool).
Context (Ho : forall t, opening t = true -> tok_kind t <> tk_eof) (Hc : forall t, closing t = true -> tok_kind t <> tk_eof).

Definition depth_step (d : Z) (t : token) : Z := if opening t then d + 1 else if closing t then d - 1 else d.
Definition depth_after (d : Z) (ts : list token) : Z := fold_left depth_step ts d.

(** [n] tokens close [d] open brackets, and no fewer do; or nothing closes
    them and only [eof] is left after [n] tokens. *)
Definition closes (d : Z) (ts : list token) (n : nat) : Prop :=
  depth_after d (take n ts) = 0 /\ forall k, (k < n)%nat -> depth_after d (take k ts) <> 0.
Definition skips (d : Z) (ts : list token) (n : nat) : Prop :=
  (n < length ts)%nat /\ (closes d ts n \/ (S n = length ts /\ forall k, depth_after d (take k ts) <> 0)).

Lemma skips_next d t ts n : d <> 0 -> skips (depth_step d t) ts n -> skips d (t :: ts) (S n).
Proof.
  intros Hd [Hn [[H0 Hk]|[He Hk]]]; (split; [simpl; lia|]); [left; split; [done|]|right; split; [simpl; lia|]];
    intros [|k] *; try done; try (intros ?; apply Hk; lia). apply Hk.
Qed.

Lemma skip_nested_spec ts : stream ts -> forall fuel d p, rest p = ts -> (length ts <= S fuel)%nat ->
  exists n, skip_nested opening closing fuel d p = Some (tt, moved n p) /\ skips (Z.of_nat d) ts n.
Proof.
  induction 1 as [t E|t ts E H IH]; intros fuel d p Hr Hf.
  - exists 0%nat. split; [destruct fuel; cbn [skip_nested]; unfold mbind, St_bind; rewrite (eof_rest p t [] Hr), E, moved_0; done|].
    split; [simpl; lia|]. destruct d as [|d]; [left; split; [done|lia]|]. right. split; [done|]. intros [|k]; [done|]. cbn [take depth_after fold_left].
    rewrite take_nil. cbn [fold_left]. unfold depth_step.
    destruct (opening t) eqn:Eo; [by apply Ho in Eo|]. destruct (closing t) eqn:Ec; [by apply Hc in Ec|lia].
  - assert (Hl : (1 <= length ts)%nat) by (destruct H; simpl; lia). simpl in Hf. destruct fuel as [|fuel]; [lia|].
    cbn [skip_nested]. unfold mbind, St_bind. rewrite (eof_rest p t ts Hr). replace (kind_eqb (tok_kind t) tk_eof) with false by (by destruct (tok_kind t)).
    destruct d as [|d]; [exists 0%nat; rewrite moved_0; split; [done|]; split; [simpl; lia|]; left; split; [done|lia]|].
    assert (Hgo : forall d', depth_step (Z.of_nat (S d)) t = Z.of_nat d' ->
      exists n, skip_nested opening closing fuel d' (moved 1 p) = Some (tt, moved n p) /\ skips (Z.of_nat (S d)) (t :: ts) n).
    { intros d' Hd'. destruct (IH fuel d' (moved 1 p)) as (n & -> & Hn); [by apply (rest_next p t)|lia|].
      exists (S n). rewrite moved_moved. split; [done|]. apply skips_next; [lia|by rewrite Hd']. }
    unfold depth_step in Hgo. rewrite (accept_rest p t ts Hr opening) by auto. destruct (opening t); [apply Hgo; lia|].
    rewrite (accept_rest p t ts Hr closing) by auto. destruct (closing t); [apply Hgo; lia|]. rewrite (consume_rest p t ts Hr E). by apply Hgo.
Qed.
End Nested.

(** A parser over the tokens of a source, with the cursor inside of them. *)
Definition parsing (p : parser) : Prop :=
  (exists src smap r, lex src smap = Some r /\ pa_toks p = lr_tokens r) /\ (pa_pos p < length (pa_toks p))%nat.

Lemma parsing_stream p : parsing p -> stream (pa_toks p).
Proof.
  intros [(src & smap & r & E & ->) _]. destruct (lex_loop_lexes smap (length src) [] src (Nat.le_refl _)) as (r' & E' & Hl).
  change (lex src smap = Some r') in E'. simplify_eq. by apply lexes_stream in Hl.
Qed.
Lemma parsing_rest p : parsing p -> stream (rest p).
Proof. intros H. apply stream_drop; [by apply parsing_stream|apply H]. Qed.
Lemma rest_length p : (length (rest p) <= S (length (pa_toks p)))%nat.
Proof. unfold rest. rewrite length_drop. lia. Qed.
Lemma parsing_moved p n : parsing p -> (n < length (rest p))%nat -> parsing (moved n p).
Proof. unfold rest. rewrite length_drop. intros [H Hn] Hl. split; [done|]. simpl. lia. Qed.

Lemma rest_cons p : parsing p -> exists t ts, rest p = t :: ts.
Proof. intros H%parsing_rest. destruct H; eauto. Qed.
Lemma stops_inside test ts n : stream ts -> (forall t, test t = true -> tok_kind t <> tk_eof) -> stops_after test ts n -> (n < length ts)%nat.
Proof.
  intros Hs Ht [(pre & t & post & -> & -> & Hu & _)|[Hn _]]; [|lia]. rewrite length_app. simpl. destruct post; [|simpl; lia].
  exfalso. apply (Ht t Hu). clear -Hs. induction pre as [|u pre IH]; simpl in Hs; inversion Hs; subst; auto; [by inversion H2|by destruct pre].
Qed.
Lemma skip_group p opening closing : parsing p -> (forall t, opening t = true -> tok_kind t <> tk_eof) ->
  (forall t, closing t = true -> tok_kind t <> tk_eof) ->
  exists n, with_fuel (fun k => skip_nested opening closing k 1) p = Some (tt, moved n p) /\ parsing (moved n p) /\
    skips opening closing 1 (rest p) n.
Proof.
  intros Hp Ho Hc. destruct (skip_nested_spec opening closing Ho Hc (rest p) (parsing_rest p Hp) (length (pa_toks p)) 1 p eq_refl (rest_length p)) as (n & E & Hn).
  exists n. split_and!; [done| |done]. apply parsing_moved; [done|apply Hn].
Qed.

(** With the tokens of a source and the cursor inside of them, skipping to
    a semicolon returns with the cursor just after the next one, and skipping
    parentheses just after the one that closes the first; where there is none
    the cursor stops on the last token, and no error is added. *)
Theorem skips_are_exact p : parsing p ->
  (exists n, skip_until_semicolon p = Some (tt, moved n p) /\ parsing (moved n p) /\ stops_after (sym_test ";") (rest p) n) /\
  (exists n, skip_balanced_parens p = Some (tt, moved n p) /\ parsing (moved n p) /\
     match rest p with
     | t :: ts => if sym_test "(" t then exists k, n = S k /\ skips (sym_test "(") (sym_test ")") 1 ts k else n = 0%nat
     | [] => False
     end).
Proof.
  intros Hp. split.
  - destruct (skip_until_spec (rest p) (parsing_rest p Hp) (length (pa_toks p)) p eq_refl (rest_length p)) as (n & E & Hn).
    exists n. split_and!; [done| |done]. apply parsing_moved; [done|]. by apply (stops_inside (sym_test ";")); eauto using parsing_rest.
  - destruct (rest_cons p Hp) as (t & ts & Hr). unfold skip_balanced_parens, mbind, St_bind, accept_sym. rewrite Hr, (accept_rest p t ts Hr) by eauto.
    destruct (sym_test "(" t) eqn:Et; [|exists 0%nat; by rewrite moved_0].
    assert (Hm : parsing (moved 1 p)).
    { apply parsing_moved; [done|]. pose proof (parsing_rest p Hp) as Hs. rewrite Hr in *. inversion Hs as [? E|? ? E H]; subst; [by apply sym_test_kind in Et|]. destruct H; simpl; lia. }
    destruct (skip_group _ (sym_test "(") (sym_test ")") Hm) as (n & -> & Hn & Hk); eauto. rewrite (rest_next p t ts Hr) in Hk.
    exists (S n). rewrite moved_moved in *. eauto.
Qed.

Definition sample_parser : parser :=
  match lex (chars "(a + (b)) c; d") None with Some r => mk_parser (lr_tokens r) 0 [] [] | None => mk_parser [] 0 [] [] end.
Lemma skips_are_exact_witness : parsing sample_parser /\ (exists n, skip_balanced_parens sample_parser = Some (tt, moved n sample_parser)) /\
  skip_balanced_parens sample_parser = Some (tt, moved 7 sample_parser).
Proof.
  assert (H : parsing sample_parser). { split; [|vm_compute; lia]. by exists (chars "(a + (b)) c; d"), None, (mk_lex (pa_toks sample_parser) []). }
  split; [done|]. split; [|by vm_compute]. destruct (skips_are_exact _ H) as [_ (n & E & _)]. by exists n.
Defined.

(** ** Every operation of the cursor *)

(** The operation returns, inside of the tokens and not before where it was. *)
Definition forward {A} (c : Pa A) : Prop := forall p, parsing p -> exists x p', c p = Some (x, p') /\ parsing p' /\ (pa_pos p <= pa_pos p')%nat.

Lemma forward_ret {A} (x : A) : forward (mret x).
Proof. intros p Hp. by exists x, p. Qed.
Lemma forward_bind {A B} (c : Pa A) (f : A -> Pa B) : forward c -> (forall x, forward (f x)) -> forward (c ≫= f).
Proof.
  intros Hc Hf p Hp. destruct (Hc p Hp) as (x & p' & E & Hp' & Hle). destruct (Hf x p' Hp') as (y & p'' & E' & Hp'' & Hle').
  exists y, p''. unfold mbind, St_bind. rewrite E. split_and!; [done|done|lia].
Qed.
Lemma forward_if {A} (b : bool) (c d : Pa A) : forward c -> forward d -> forward (if b then c else d).
Proof. by destruct b. Qed.
Lemma forward_moved {A} (c : Pa A) : (forall p, parsing p -> exists x n, c p = Some (x, moved n p) /\ parsing (moved n p)) -> forward c.
Proof. intros H p Hp. destruct (H p Hp) as (x & n & E & Hn). exists x, (moved n p). split_and!; [done|done|simpl; lia]. Qed.
Lemma forward_peek : forward peek.
Proof. intros p Hp. destruct (rest_cons p Hp) as (t & ts & Hr). exists t, p. by rewrite (peek_rest p t ts Hr). Qed.
Lemma forward_consume : forward consume.
Proof.
  apply forward_moved. intros p Hp. destruct (rest_cons p Hp) as (t & ts & Hr). exists t. pose proof (parsing_rest p Hp) as Hs. rewrite Hr in Hs.
  inversion Hs as [? E|? ? E H]; subst.
  - exists 0%nat. rewrite moved_0. split; [|done]. unfold consume, mbind, St_bind. by rewrite (peek_rest p t [] Hr), (eof_rest p t [] Hr), E.
  - exists 1%nat. rewrite (consume_rest p t ts Hr E). split; [done|]. apply parsing_moved; [done|]. rewrite Hr. destruct H; simpl; lia.
Qed.
Lemma forward_err t msg : forward (err_at t msg).
Proof. intros p Hp. eexists tt, _. split; [done|]. split; [apply Hp|done]. Qed.
Lemma forward_group opening closing : (forall t, opening t = true -> tok_kind t <> tk_eof) -> (forall t, closing t = true -> tok_kind t <> tk_eof) ->
  forward (with_fuel (fun k => skip_nested opening closing k 1)).
Proof. intros Ho Hc. apply forward_moved. intros p Hp. destruct (skip_group p opening closing Hp Ho Hc) as (n & E & H & _). eauto. Qed.
Create HintDb cursor.
#[local] Hint Resolve forward_ret forward_peek forward_consume forward_err : cursor.
#[local] Hint Resolve sym_test_kind kw_test_kind : cursor.
Ltac walk := repeat first
  [solve [eauto 3 with cursor nocore]|apply forward_group; eauto with cursor|simple apply forward_bind; [|intros ?]|simple apply forward_if].

Lemma forward_accept test : forward (accept test).
Proof. unfold accept. walk. Qed.
Lemma forward_ident what : forward (expect_ident what).
Proof. unfold expect_ident. walk. Qed.
Lemma forward_semicolon : forward skip_until_semicolon.
Proof.
  apply forward_moved. intros p Hp. 
  destruct (skip_until_spec (rest p) (parsing_rest p Hp) (length (pa_toks p)) p eq_refl (rest_length p)) as (n & E & Hn).
  exists tt, n. split; [done|]. apply parsing_moved; [done|]. by apply (stops_inside (sym_test ";")); eauto using parsing_rest.
Qed.
#[local] Hint Resolve forward_accept forward_ident forward_semicolon : cursor.
Lemma forward_label what : forward (skip_label what).
Proof. unfold skip_label, accept_sym. walk. Qed.
Lemma forward_parens : forward skip_balanced_parens.
Proof. unfold skip_balanced_parens, accept_sym. walk. Qed.
#[local] Hint Resolve forward_label forward_parens : cursor.
Lemma forward_item : forward skip_generate_item.
Proof. unfold skip_generate_item, accept_kw. walk. Qed.
#[local] Hint Resolve forward_item : cursor.
Lemma forward_if_skip : forward skip_implicit_generate_if.
Proof. unfold skip_implicit_generate_if, accept_kw. walk. Qed.

Lemma skip_dims_forward fuel : forall p, parsing p -> (length (rest p) <= S fuel)%nat ->
  exists p', skip_dims fuel p = Some (tt, p') /\ parsing p' /\ (pa_pos p <= pa_pos p')%nat.
Proof.
  induction fuel as [|fuel IH]; intros p Hp Hf; destruct (rest_cons p Hp) as (t & ts & Hr); cbn [skip_dims]; unfold mbind, St_bind, accept_sym;
    rewrite (accept_rest p t ts Hr) by eauto; (destruct (sym_test "[" t) eqn:Et; [|by exists p]);
    (pose proof (parsing_rest p Hp) as Hs; rewrite Hr in Hs, Hf; inversion Hs as [? E|? ? E H]; subst; [by apply sym_test_kind in Et|]);
    (assert (Hl : (1 <= length ts)%nat) by (destruct H; simpl; lia)); simpl in Hf; [lia|].
  assert (Hm : parsing (moved 1 p)) by (apply parsing_moved; [done|]; rewrite Hr; simpl; lia).
  destruct (skip_group _ (sym_test "[") (sym_test "]") Hm) as (n & -> & Hn & Hk); eauto.
  destruct (IH (moved n (moved 1 p)) Hn) as (p' & -> & Hp' & Hle).
  { rewrite rest_moved, (rest_next p t ts Hr), length_drop. lia. }
  exists p'. split_and!; [done|done|]. simpl in Hle. lia.
Qed.
Lemma forward_dims : forward skip_unpacked_dims.
Proof. intros p Hp. destruct (skip_dims_forward (length (pa_toks p)) p Hp (rest_length p)) as (p' & E & H & Hle). by exists tt, p'. Qed.

(** No operation of the cursor reads outside of the tokens of a source or
    goes back, and every loop of them returns: looking at the next token,
    taking it, asking for an identifier, and skipping the conditional and
    repeated generate blocks and the dimensions of an array. *)
Theorem cursor_stays_inside (what : string) (kw : text) (c : ascii) :
  forward consume /\ forward (accept_sym c) /\ forward (accept_kw kw) /\ forward (expect_ident what) /\
  forward skip_implicit_generate_for /\ forward skip_implicit_generate_if /\ forward skip_unpacked_dims.
Proof.
  split_and!; auto using forward_consume, forward_ident, forward_if_skip, forward_dims; try apply forward_accept.
  unfold skip_implicit_generate_for. walk.
Qed.

(** The text kept for the body of a function joins symbols that stood apart:
    [a & &b], a conjunction with a reduction, is lexed again as [a&&b]. *)
Example text_joins_symbols :
  match lex (chars "a & &b") None with
  | Some r => map tok_text (lr_tokens r) = [chars "a"; chars "&"; chars "&"; chars "b"; []] /\
      match lex (tokens_to_text (lr_tokens r) 0 4) None with
      | Some r' => map tok_text (lr_tokens r') = [chars "a"; chars "&&"; chars "b"; []]
      | None => False
      end
  | None => False
  end.
Proof. by vm_compute. Qed.
