(* ===== verification/VExprParser.v ===== *)
(** * VExprParser: the parser of expressions

    The parsing functions of [expr_parser] of [verilog/digital/digital.h]:
    primaries with their selects, concatenations and literals, the unary
    operators, the levels of the binary ones and the conditional operator.
    They read tokens with the cursor of [VParser] and build nodes with the
    operations of [VBuild] and [VWord]; the state has the cursor, the module
    and the table of shared nodes.  The branch of [parse_primary] for
    identifiers, which also holds casts, system functions and calls of
    functions, is an argument ([identifier]); [plain_name] is its last case.
    [None] is undefined behaviour or the end of the fuel; [parse_expr] nests at
    most as deep as there are tokens, and no loop runs more often. *)

From Stdlib Require Import ZArith Lia Ascii.
From stdpp Require Import base list gmap strings.
From S2P Require Import Prelude Logic4 VData VBuild VWord VStmt VLex VLiteral VNames VParser.

Open Scope Z_scope.

(** ** The state *)

Record estate : Type := mk_es {
  es_parser : parser;
  es_module : compiled_module;
  es_intern : gmap expr_node Z
}.
Abbreviation E := (St estate).

Definition cursor {A} (c : Pa A) : E A := fun s =>
  match c (es_parser s) with
  | Some (x, p) => Some (x, mk_es p (es_module s) (es_intern s))
  | None => None
  end.

Definition with_nodes (m : compiled_module) (nodes : list expr_node) : compiled_module :=
  {| cm_name := cm_name m; cm_ports := cm_ports m; cm_port_order := cm_port_order m; cm_port_decls := cm_port_decls m; cm_vectors := cm_vectors m;
     cm_signal_names := cm_signal_names m; cm_signal_is_reg := cm_signal_is_reg m; cm_signal_is_signed := cm_signal_is_signed m;
     cm_signal_is_const := cm_signal_is_const m; cm_signal_is_const_foldable := cm_signal_is_const_foldable m;
     cm_signal_const_value := cm_signal_const_value m; cm_signal_index := cm_signal_index m; cm_param_order := cm_param_order m;
     cm_param_default_values := cm_param_default_values m; cm_param_is_local := cm_param_is_local m; cm_expr_nodes := nodes;
     cm_assigns := cm_assigns m; cm_always_ffs := cm_always_ffs m; cm_always_combs := cm_always_combs m; cm_initials := cm_initials m;
     cm_instances := cm_instances m; cm_inline_counter := cm_inline_counter m |}.

(** A construction of nodes; its errors are at the next token. *)
Definition act {A} (f : compiled_module -> Z * Z -> B A) : E A := fun s =>
  let p := es_parser s in
  match pa_toks p !! pa_pos p with
  | None => None
  | Some t =>
      let '(x, b) := f (es_module s) (tok_line t, tok_column t) (mk_bstate (cm_expr_nodes (es_module s)) (es_intern s) (pa_errors p)) in
      Some (x, mk_es (mk_parser (pa_toks p) (pa_pos p) (b_errors b) (pa_return_target p)) (with_nodes (es_module s) (b_nodes b)) (b_intern b))
  end.

(** [p->err(p->peek(), msg)], and the test that adds an error. *)
Definition complain (msg : string) : E unit := act (fun _ here => err here msg).
Definition demand (c : ascii) (msg : string) : E unit := a ← cursor (accept_sym c); if (a : bool) then mret tt else complain msg.
Definition with_tokens {A} (f : nat -> E A) : E A := fun s => f (length (pa_toks (es_parser s))) s.
Definition unknown_scalar : E expr_value := act (fun m here => x ← make_literal m here sX; mret (scalar x)).

(** ** Indexed part selects *)

(** The bounds that [compute_bounds] gives for a start. *)
Definition compute_bounds (desc plus : bool) (w start : Z) : Z * Z :=
  if plus then if desc then (start + (w - 1), start) else (start, start + (w - 1))
  else if desc then (start, start - (w - 1)) else (start - (w - 1), start).

Section Indexed.
Context (m : compiled_module) (here : Z * Z) (base : expr_value) (w : Z) (plus : bool).
#[local] Abbreviation desc := (ev_lsb base <=? ev_msb base).

Definition slice_bits_for_start (start : Z) : B (list Z) :=
  x ← make_literal m here sX;
  mret (map (fun idx => let pos := vector_pos (ev_msb base) (ev_lsb base) idx in
                        if pos =? SIZE_MAX then x else default SIZE_MAX (vat (roots_of base) pos))
          (part_indices (compute_bounds desc plus w start).1 (compute_bounds desc plus w start).2)).

(** One start of the chain of selections. *)
Definition select_start (idx_norm : expr_value) (cmp_w : nat) (out : list Z) (s : Z) : B (list Z) :=
  if s <? 0 then mret out
  else
    bits ← slice_bits_for_start s;
    if negb (length bits =? length out)%nat then mret out
    else
      idx_lit ← make_uint_literal m here (u64_wrap s) cmp_w;
      cond ← compare_eq m here idx_norm idx_lit;
      bmap2 (fun b o => make_mux m here cond b o) bits out.

Definition indexed_select (start_expr : expr_value) : B expr_value :=
  start_const ← const_int m start_expr;
  match start_const with
  | Some start =>
      bits ← slice_bits_for_start start;
      let bounds := compute_bounds desc plus w start in
      make_vector_with_range m here bits bounds.1 bounds.2 (ev_is_signed base)
  | None =>
      let min_idx := Z.min (ev_msb base) (ev_lsb base) in
      let max_idx := Z.max (ev_msb base) (ev_lsb base) in
      if max_idx <? 0 then make_unknown_vector m here (Z.to_nat w) false
      else
        let cmp_w := Nat.max (width start_expr) (need_bits max_idx) in
        idx_norm ← resize m here start_expr cmp_w false;
        x ← make_literal m here sX;
        out ← bfold (select_start idx_norm cmp_w) (replicate (Z.to_nat w) x)
                (map (fun i => min_idx + Z.of_nat i) (seq 0 (Z.to_nat (max_idx - min_idx + 1))));
        make_vector m here out (ev_is_signed base)
  end.
End Indexed.

(** The bounds and the counters of the loops are of type [int]: it is
    undefined when one of them does not fit. *)
Definition bounds_fit (base : expr_value) (plus : bool) (w : Z) (start : option Z) : bool :=
  let hi := match start with Some s => s | None => Z.max (ev_msb base) (ev_lsb base) end in
  let top := if plus then hi + (w - 1) else hi in
  (top <? INT_MAX) || ((top =? INT_MAX) && bool_decide (is_Some start) && ((ev_lsb base <=? ev_msb base) || (w =? 1))).

Definition apply_indexed_part_select (base start_expr width_expr : expr_value) (plus : bool) : E expr_value :=
  w ← act (fun m _ => const_int m width_expr);
  match w with
  | Some w =>
      if w <=? 0 then
        _ ← complain "indexed part-select width must be a positive constant integer expression in this subset";
        act (fun m here => x ← make_literal m here sX; mret (make_scalar x 0 0 (ev_is_signed base)))
      else
        start ← act (fun m _ => const_int m start_expr);
        if bounds_fit base plus w start then act (fun m here => indexed_select m here base w plus start_expr) else undefined
  | None =>
      _ ← complain "indexed part-select width must be a positive constant integer expression in this subset";
      act (fun m here => x ← make_literal m here sX; mret (make_scalar x 0 0 (ev_is_signed base)))
  end.

(** ** Primaries *)

(** A name that is a vector or a signal of the module. *)
Definition signal_roots (bits : list Z) : E (list Z) := act (fun m here => bmap (make_signal_root m here) bits).
Definition declare {A} (f : compiled_module -> A * compiled_module) : E A := fun s =>
  let '(x, m) := f (es_module s) in Some (x, mk_es (es_parser s) m (es_intern s)).
Definition scalar_name (name : string) : E expr_value :=
  sig ← declare (fun m => get_or_create_signal m name);
  act (fun m here => r ← make_signal_root m here sig; mret (make_scalar r 0 0 (default false (vat (cm_signal_is_signed m) sig)))).
Definition plain_name (name : string) : E expr_value :=
  m ← (fun s => Some (es_module s, s));
  match cm_vectors m !! name with
  | Some vd =>
      match vd_bits vd, vector_width (vd_msb vd) (vd_lsb vd) with
      | [], _ => scalar_name name
      | _ :: _, None => undefined
      | b0 :: _, Some w =>
          if (w <=? 1)%nat then r ← signal_roots [b0]; mret (make_scalar (front r) (vd_msb vd) (vd_lsb vd) (vd_is_signed vd))
          else roots ← signal_roots (vd_bits vd); act (fun m here => make_vector_with_range m here roots (vd_msb vd) (vd_lsb vd) (vd_is_signed vd))
      end
  | None => scalar_name name
  end.

(** A number, whose error is at the number itself. *)
Definition parse_number (t : token) : E expr_value :=
  match parse_literal_bits (tok_text t) true with
  | None => undefined
  | Some None => _ ← cursor (err_at t "invalid number literal"); _ ← cursor consume; unknown_scalar
  | Some (Some (bits, sgn)) =>
      _ ← cursor consume;
      match bits with
      | [] => act (fun m here => x ← make_literal m here sX; mret (make_scalar x 0 0 sgn))
      | [b] => act (fun m here => x ← make_literal m here b; mret (make_scalar x 0 0 sgn))
      | _ => act (fun m here => roots ← bmap (make_literal m here) bits; make_vector m here roots sgn)
      end
  end.

(** ** Operators of one level *)

Definition operator : Type := (token -> bool) * (expr_value -> expr_value -> E expr_value).
Definition sym2_test (a b : ascii) (t : token) : bool := kind_eqb (tok_kind t) tk_symbol && is_sym2 (tok_text t) a b.
Definition sym3_test (a b c : ascii) (t : token) : bool := kind_eqb (tok_kind t) tk_symbol && is_sym3 (tok_text t) a b c.

(** An operator that builds nodes, and one that gives a single bit. *)
Definition word_op (f : compiled_module -> Z * Z -> expr_value -> expr_value -> B expr_value) (a b : expr_value) : E expr_value :=
  act (fun m here => f m here a b).
Definition bit_op (f : compiled_module -> Z * Z -> expr_value -> expr_value -> B Z) (a b : expr_value) : E expr_value :=
  act (fun m here => r ← f m here a b; mret (scalar r)).

Definition mul_ops : list operator :=
  [(sym_test "*", word_op arith_mul); (sym_test "/", word_op arith_div); (sym_test "%", word_op arith_mod)].
Definition add_ops : list operator := [(sym_test "+", word_op arith_add); (sym_test "-", word_op arith_sub)].
Definition shift_ops : list operator := [(sym2_test "<" "<", word_op shift_left); (sym2_test ">" ">", word_op shift_right)].
Definition and_ops : list operator := [(sym_test "&", word_op (fun m here a b => bitwise_binary m here a b ek_binary_and))].
Definition xnor (m : compiled_module) (here : Z * Z) (a b : expr_value) : B expr_value :=
  x ← bitwise_binary m here a b ek_binary_xor; bitwise_unary m here x ek_unary_not.
Definition xor_ops : list operator :=
  [(sym_test "^", word_op (fun m here a b => bitwise_binary m here a b ek_binary_xor));
   (sym2_test "~" "^", word_op xnor); (sym2_test "^" "~", word_op xnor)].
Definition or_ops : list operator := [(sym_test "|", word_op (fun m here a b => bitwise_binary m here a b ek_binary_or))].
Definition rel_ops : list operator :=
  [(sym_test "<", bit_op compare_lt); (sym2_test "<" "=", bit_op compare_le);
   (sym_test ">", bit_op compare_gt); (sym2_test ">" "=", bit_op compare_ge)].
Definition negated (f : compiled_module -> Z * Z -> expr_value -> expr_value -> B Z) (m : compiled_module) (here : Z * Z) (a b : expr_value) : B Z :=
  r ← f m here a b; make_not m here r.
Definition eq_ops : list operator :=
  [(sym3_test "=" "=" "=", bit_op compare_case_eq); (sym3_test "!" "=" "=", bit_op (negated compare_case_eq));
   (sym2_test "=" "=", bit_op compare_eq); (sym2_test "!" "=", bit_op (negated compare_eq))].
Definition logical (make : compiled_module -> Z * Z -> Z -> Z -> B Z) (m : compiled_module) (here : Z * Z) (a b : expr_value) : B Z :=
  x ← to_bool_root m here a; y ← to_bool_root m here b; make m here x y.
Definition land_ops : list operator := [(sym2_test "&" "&", bit_op (logical make_and))].
Definition lor_ops : list operator := [(sym2_test "|" "|", bit_op (logical make_or))].

(** [if(accept) { rhs = ...; lhs = f(lhs, rhs); continue; }] for the operators
    of a level in their order, until none is next. *)
Fixpoint take_first {F} (ops : list ((token -> bool) * F)) : E (option F) :=
  match ops with
  | [] => mret None
  | (test, f) :: ops' => a ← cursor (accept test); if (a : bool) then mret (Some f) else take_first ops'
  end.
Fixpoint left_loop (sub : E expr_value) (ops : list operator) (fuel : nat) (lhs : expr_value) : E expr_value :=
  o ← take_first ops;
  match o, fuel with
  | None, _ => mret lhs
  | Some f, O => undefined
  | Some f, S fuel' => rhs ← sub; lhs' ← f lhs rhs; left_loop sub ops fuel' lhs'
  end.
Definition level (sub : E expr_value) (ops : list operator) : E expr_value := lhs ← sub; with_tokens (fun n => left_loop sub ops n lhs).

(** ** The unary operators *)

Definition unary_bit (f : compiled_module -> Z * Z -> expr_value -> B Z) (a : expr_value) : E expr_value :=
  act (fun m here => r ← f m here a; mret (scalar r)).
Definition not_of (f : compiled_module -> Z * Z -> expr_value -> B Z) (m : compiled_module) (here : Z * Z) (a : expr_value) : B Z :=
  r ← f m here a; make_not m here r.
Definition negate (a : expr_value) : E expr_value :=
  act (fun m here =>
    z ← (if ev_is_signed a then make_int_literal m here 0 (width a) else make_uint_literal m here 0 (width a));
    r ← arith_sub m here z a;
    resize m here r (width a) (ev_is_signed a)).
Definition unary_ops : list ((token -> bool) * (expr_value -> E expr_value)) :=
  [(sym_test "!", unary_bit (not_of to_bool_root)); (sym2_test "~" "&", unary_bit (not_of reduce_and_root));
   (sym2_test "~" "|", unary_bit (not_of reduce_or_root)); (sym2_test "~" "^", unary_bit (not_of reduce_xor_root));
   (sym2_test "^" "~", unary_bit (not_of reduce_xor_root)); (sym_test "&", unary_bit reduce_and_root);
   (sym_test "|", unary_bit reduce_or_root); (sym_test "^", unary_bit reduce_xor_root);
   (sym_test "+", fun a => mret a); (sym_test "-", negate);
   (sym_test "~", fun a => act (fun m here => bitwise_unary m here a ek_unary_not))].

(** ** The recursive functions *)

Definition is_string (t : token) : bool := kind_eqb (tok_kind t) tk_symbol && at_is (tok_text t) 0 quote.

Section Expr.
(** [identifier] parses a primary that starts with an identifier; the boolean
    says that the function returns without looking for selects. *)
Context (identifier : E expr_value -> E (expr_value * bool)) (parse_expr : E expr_value).

(** The items of a concatenation after the first [bits]. *)
Fixpoint concat_items (fuel : nat) (bits : list Z) : E (list Z) :=
  a ← cursor (accept_sym ",");
  match a, fuel with
  | false, _ => mret bits
  | true, O => undefined
  | true, S fuel' => e ← parse_expr; concat_items fuel' (bits ++ roots_of e)
  end.
Definition parse_concat_items_until_rbrace : E (list Z) :=
  empty ← cursor (accept_sym "}");
  if (empty : bool) then
    _ ← complain "empty concatenation is not supported";
    act (fun m here => x ← make_literal m here sX; mret [x])
  else
    e ← parse_expr;
    bits ← with_tokens (fun n => concat_items n (roots_of e));
    _ ← demand "}" "expected '}'";
    mret bits.

Definition streaming_concat : E expr_value :=
  a ← cursor (accept_sym "{");
  _ ← (if (a : bool) then mret tt else _ ← parse_expr; demand "{" "expected '{' in streaming concatenation");
  bits ← parse_concat_items_until_rbrace;
  _ ← demand "}" "expected '}'";
  match take max_concat_bits bits with
  | [] => unknown_scalar
  | [b] => mret (scalar b)
  | bits' => act (fun m here => make_vector m here bits' false)
  end.

Definition replication (first_expr : expr_value) : E expr_value :=
  c ← act (fun m _ => const_int m first_expr);
  rep_count ← (match c with
               | Some n => if n <? 0 then _ ← complain "expected non-negative constant integer replication count"; mret 0 else mret n
               | None => _ ← complain "expected non-negative constant integer replication count"; mret 0
               end);
  inner_bits ← parse_concat_items_until_rbrace;
  _ ← demand "}" "expected '}'";
  if (rep_count <=? 0) || (length inner_bits =? 0)%nat then unknown_scalar
  else if Z.of_nat max_concat_bits <? vsize inner_bits * rep_count then
    _ ← complain "concatenation/replication too wide (limit exceeded)";
    act (fun m here => make_unknown_vector m here max_concat_bits false)
  else act (fun m here => make_vector m here (concat (replicate (Z.to_nat rep_count) inner_bits)) false).

Definition concatenation : E expr_value :=
  empty ← cursor (accept_sym "}");
  if (empty : bool) then _ ← complain "empty concatenation is not supported"; unknown_scalar
  else
    l ← cursor (accept_sym2 "<" "<");
    r ← (if (l : bool) then mret true else cursor (accept_sym2 ">" ">"));
    if (r : bool) then streaming_concat
    else
      first_expr ← parse_expr;
      brace ← cursor (accept_sym "{");
      if (brace : bool) then replication first_expr
      else
        bits ← with_tokens (fun n => concat_items n (roots_of first_expr));
        _ ← demand "}" "expected '}'";
        bits' ← (if (max_concat_bits <? length bits)%nat
                 then _ ← complain "concatenation too wide (limit exceeded)"; mret (take max_concat_bits bits)
                 else mret bits);
        act (fun m here => make_vector m here bits' false).

(** The selects after a primary. *)
Definition parse_select (base : expr_value) : E expr_value :=
  first_e ← parse_expr;
  up ← cursor (accept_sym2 "+" ":");
  if (up : bool) then w_e ← parse_expr; _ ← demand "]" "expected ']'"; apply_indexed_part_select base first_e w_e true
  else
    down ← cursor (accept_sym2 "-" ":");
    if (down : bool) then w_e ← parse_expr; _ ← demand "]" "expected ']'"; apply_indexed_part_select base first_e w_e false
    else
      colon ← cursor (accept_sym ":");
      if (colon : bool) then
        lsb_e ← parse_expr; _ ← demand "]" "expected ']'"; act (fun m here => apply_part_select m here base first_e lsb_e)
      else _ ← demand "]" "expected ']'"; act (fun m here => apply_bit_select m here base first_e).
Fixpoint postfix_loop (fuel : nat) (base : expr_value) : E expr_value :=
  a ← cursor (accept_sym "[");
  match a, fuel with
  | false, _ => mret base
  | true, O => undefined
  | true, S fuel' => base' ← parse_select base; postfix_loop fuel' base'
  end.
Definition postfix (base : expr_value) : E expr_value := with_tokens (fun n => postfix_loop n base).

Definition parse_primary : E expr_value :=
  t0 ← cursor peek;
  match tok_kind t0 with
  | tk_identifier => r ← identifier parse_expr; if r.2 : bool then mret r.1 else postfix r.1
  | tk_number =>
      match parse_literal_bits (tok_text t0) true with
      | Some None => parse_number t0
      | _ => v ← parse_number t0; postfix v
      end
  | _ =>
      if is_string t0 then _ ← cursor consume; v ← unknown_scalar; postfix v
      else if sym_test "{" t0 then _ ← cursor consume; v ← concatenation; postfix v
      else if sym_test "(" t0 then _ ← cursor consume; v ← parse_expr; _ ← demand ")" "expected ')'"; postfix v
      else _ ← cursor (err_at t0 "expected expression"); _ ← cursor consume; v ← unknown_scalar; postfix v
  end.

Fixpoint power_loop (fuel : nat) : E expr_value :=
  lhs ← parse_primary;
  a ← cursor (accept_sym2 "*" "*");
  match a, fuel with
  | false, _ => mret lhs
  | true, O => undefined
  | true, S fuel' => rhs ← power_loop fuel'; word_op arith_pow lhs rhs
  end.
Definition parse_power : E expr_value := with_tokens power_loop.
Fixpoint unary_loop (fuel : nat) : E expr_value :=
  o ← take_first unary_ops;
  match o, fuel with
  | None, _ => parse_power
  | Some f, O => undefined
  | Some f, S fuel' => a ← unary_loop fuel'; f a
  end.
Definition parse_unary : E expr_value := with_tokens unary_loop.

Definition parse_mul : E expr_value := level parse_unary mul_ops.
Definition parse_add : E expr_value := level parse_mul add_ops.
Definition parse_shift : E expr_value := level parse_add shift_ops.
Definition parse_and : E expr_value := level parse_shift and_ops.
Definition parse_xor : E expr_value := level parse_and xor_ops.
Definition parse_or : E expr_value := level parse_xor or_ops.
Definition parse_rel : E expr_value := level parse_or rel_ops.
Definition parse_eq : E expr_value := level parse_rel eq_ops.
Definition parse_land : E expr_value := level parse_eq land_ops.
Definition parse_lor : E expr_value := level parse_land lor_ops.

(** [parse_cond], with the calls of itself through [parse_expr]. *)
Definition parse_cond : E expr_value :=
  cond ← parse_lor;
  q ← cursor (accept_sym "?");
  if negb q then mret cond
  else
    t ← parse_expr;
    _ ← demand ":" "expected ':' in conditional operator";
    f ← parse_expr;
    act (fun m here => make_conditional m here cond t f).
End Expr.

Fixpoint parse_expr (identifier : E expr_value -> E (expr_value * bool)) (fuel : nat) : E expr_value :=
  match fuel with
  | O => undefined
  | S fuel' => parse_cond identifier (parse_expr identifier fuel')
  end.

(** The last case of the branch for identifiers: a name alone. *)
Definition name_only (_ : E expr_value) : E (expr_value * bool) :=
  t ← cursor peek; _ ← cursor consume; v ← plain_name (String.string_of_list_ascii (tok_text t)); mret (v, false).
