(* ===== verification/VExprParserClaims.v ===== *)
(** * VExprParserClaims: the parser of expressions implements its grammar

    [gram] is the grammar of expressions with its levels and associativity:
    the binary operators of a level group to the left, the power to the right,
    a unary operator applies to what follows up to a power.  Every derivation
    says which nodes the source builds, in their order.  The parser, whose
    loops replace the left recursion, computes exactly what a derivation says. *)

From Stdlib Require Import ZArith Lia Ascii.
From stdpp Require Import base list gmap strings.
From S2P Require Import Prelude Logic4 VData VBuild VWord VStmt VLex VLiteral VNames VParser.
From S2P Require Import VExprParser.

Open Scope Z_scope.

(** ** The cursor *)

Definition at_token (s : estate) (t : token) : Prop := pa_toks (es_parser s) !! pa_pos (es_parser s) = Some t.
Definition adv (s : estate) : estate :=
  mk_es (mk_parser (pa_toks (es_parser s)) (S (pa_pos (es_parser s))) (pa_errors (es_parser s)) (pa_return_target (es_parser s))) (es_module s) (es_intern s).
Definition left_over (s : estate) : nat := length (pa_toks (es_parser s)) - pa_pos (es_parser s).

(** Same tokens and same position; same tokens and a later position. *)
Definition stays (s s' : estate) : Prop := pa_toks (es_parser s') = pa_toks (es_parser s) /\ pa_pos (es_parser s') = pa_pos (es_parser s).
Definition moves (s s' : estate) : Prop := pa_toks (es_parser s') = pa_toks (es_parser s) /\ (pa_pos (es_parser s) < pa_pos (es_parser s'))%nat.
Definition still {A} (c : E A) : Prop := forall s x s', c s = Some (x, s') -> stays s s'.

Lemma act_still {A} (f : compiled_module -> Z * Z -> B A) : still (act f).
Proof. intros s x s'. unfold act. destruct (pa_toks _ !! _) as [t|]; [|done]. destruct (f _ _ _) as [y b]. by intros [= <- <-]. Qed.

Lemma at_left_over s t : at_token s t -> (1 <= left_over s)%nat.
Proof. unfold at_token, left_over. intros H%lookup_lt_Some. lia. Qed.
Lemma at_stays s s' t : stays s s' -> at_token s' t <-> at_token s t.
Proof. unfold at_token. by intros [-> ->]. Qed.
Lemma moves_left_over s s' t : moves s s' -> at_token s t -> (S (left_over s') <= left_over s)%nat.
Proof. unfold moves, left_over, at_token. intros [-> H] Ht%lookup_lt_Some. lia. Qed.
Lemma moves_trans s s1 s2 : moves s s1 -> moves s1 s2 -> moves s s2.
Proof. intros [H1 H2] [H3 H4]. split; [congruence|lia]. Qed.
Lemma moves_stays s s1 s2 : moves s s1 -> stays s1 s2 -> moves s s2.
Proof. intros [H1 H2] [H3 H4]. split; [congruence|lia]. Qed.
Lemma adv_moves s : moves s (adv s).
Proof. split; [done|simpl; lia]. Qed.

Lemma peek_at s t : at_token s t -> cursor peek s = Some (t, s).
Proof. unfold at_token, cursor, peek. intros ->. by destruct s. Qed.
Lemma consume_at s t : at_token s t -> tok_kind t <> tk_eof -> cursor consume s = Some (t, adv s).
Proof.
  unfold at_token. intros H Hk. unfold cursor, consume, eof, mbind, St_bind, mret, St_ret. unfold peek. rewrite !H.
  by destruct (tok_kind t).
Qed.
Lemma accept_at s t test : at_token s t -> (test t = true -> tok_kind t <> tk_eof) ->
  cursor (accept test) s = Some (test t, if test t then adv s else s).
Proof.
  intros H Hk. pose proof (consume_at s t H) as Hc. unfold cursor, accept, mbind, St_bind in *. unfold at_token in H. unfold peek at 1. rewrite H.
  destruct (test t); [|by destruct s]. specialize (Hc (Hk eq_refl)). destruct (consume (es_parser s)) as [[x p]|]; [|done].
  unfold mret, St_ret. injection Hc as -> ->. done.
Qed.

(** ** Tests of symbols *)

Definition symbolic (test : token -> bool) : Prop := forall t, test t = true -> tok_kind t = tk_symbol.
Lemma sym_symbolic c : symbolic (sym_test c).
Proof. intros t. unfold sym_test. by destruct (tok_kind t). Qed.
Lemma sym2_symbolic a b : symbolic (sym2_test a b).
Proof. intros t. unfold sym2_test. by destruct (tok_kind t). Qed.
Lemma sym3_symbolic a b c : symbolic (sym3_test a b c).
Proof. intros t. unfold sym3_test. by destruct (tok_kind t). Qed.
#[local] Hint Resolve sym_symbolic sym2_symbolic sym3_symbolic : core.

Lemma is_sym_eq x c : is_sym x c = true -> x = [c].
Proof. destruct x as [|y [|]]; simpl; try done. intros H%Ascii.eqb_eq. by subst. Qed.
Lemma is_sym2_eq x a b : is_sym2 x a b = true -> x = [a; b].
Proof. destruct x as [|y [|z [|]]]; simpl; try done. intros [H%Ascii.eqb_eq H2%Ascii.eqb_eq]%andb_true_iff. by subst. Qed.
Lemma is_sym3_eq x a b c : is_sym3 x a b c = true -> x = [a; b; c].
Proof. destruct x as [|y [|z [|u [|]]]]; simpl; try done. intros [[H%Ascii.eqb_eq H2%Ascii.eqb_eq]%andb_true_iff H3%Ascii.eqb_eq]%andb_true_iff. by subst. Qed.
Lemma sym_view c t : sym_test c t = true -> tok_kind t = tk_symbol /\ tok_text t = [c].
Proof. unfold sym_test. destruct (tok_kind t); try done. by intros H%is_sym_eq. Qed.
Lemma sym2_view a b t : sym2_test a b t = true -> tok_kind t = tk_symbol /\ tok_text t = [a; b].
Proof. unfold sym2_test. destruct (tok_kind t); try done. by intros H%is_sym2_eq. Qed.
Lemma sym3_view a b c t : sym3_test a b c t = true -> tok_kind t = tk_symbol /\ tok_text t = [a; b; c].
Proof. unfold sym3_test. destruct (tok_kind t); try done. by intros H%is_sym3_eq. Qed.

Fixpoint first_match {F} (ops : list ((token -> bool) * F)) (t : token) : option F :=
  match ops with [] => None | (test, f) :: ops' => if test t then Some f else first_match ops' t end.
Lemma first_match_none {F} (ops : list ((token -> bool) * F)) t : Forall (fun o => o.1 t = false) ops -> first_match ops t = None.
Proof. induction 1 as [|[test f] ops E H IH]; simpl in *; [done|]. by rewrite E. Qed.
Lemma first_match_elem {F} (ops : list ((token -> bool) * F)) t f : first_match ops t = Some f -> exists test, (test, f) ∈ ops /\ test t = true.
Proof.
  induction ops as [|[test g] ops IH]; simpl; [done|]. destruct (test t) eqn:Et; [intros [= ->]; exists test; split; [by left|done]|].
  intros H. destruct (IH H) as (u & Hu & E). exists u. split; [by right|done].
Qed.
Lemma take_first_at {F} (ops : list ((token -> bool) * F)) s t : at_token s t -> Forall (fun o => symbolic o.1) ops ->
  take_first ops s = Some (first_match ops t, match first_match ops t with Some _ => adv s | None => s end).
Proof.
  intros H. induction 1 as [|[test f] ops Hs Ho IH]; [done|]. cbn [take_first first_match]. unfold mbind, St_bind. simpl in Hs.
  rewrite (accept_at s t test H) by (intros E%Hs; by rewrite E). by destruct (test t).
Qed.

(** ** The grammar *)

(** A symbol with a spelling. *)
Definition spelled (w : string) : token -> bool :=
  match chars w with [a] => sym_test a | [a; b] => sym2_test a b | [a; b; c] => sym3_test a b c | _ => fun _ => false end.

(** The binary operators with what they build, level by level from the
    tightest, and the unary ones. *)
Definition precedence : list (list (string * (expr_value -> expr_value -> E expr_value))) :=
  [ [("*", word_op arith_mul); ("/", word_op arith_div); ("%", word_op arith_mod)];
    [("+", word_op arith_add); ("-", word_op arith_sub)];
    [("<<", word_op shift_left); (">>", word_op shift_right)];
    [("&", word_op (fun m here a b => bitwise_binary m here a b ek_binary_and))];
    [("^", word_op (fun m here a b => bitwise_binary m here a b ek_binary_xor)); ("~^", word_op xnor); ("^~", word_op xnor)];
    [("|", word_op (fun m here a b => bitwise_binary m here a b ek_binary_or))];
    [("<", bit_op compare_lt); ("<=", bit_op compare_le); (">", bit_op compare_gt); (">=", bit_op compare_ge)];
    [("===", bit_op compare_case_eq); ("!==", bit_op (negated compare_case_eq)); ("==", bit_op compare_eq); ("!=", bit_op (negated compare_eq))];
    [("&&", bit_op (logical make_and))];
    [("||", bit_op (logical make_or))] ]%string.
Definition prefixes : list (string * (expr_value -> E expr_value)) :=
  [("!", unary_bit (not_of to_bool_root)); ("~&", unary_bit (not_of reduce_and_root)); ("~|", unary_bit (not_of reduce_or_root));
   ("~^", unary_bit (not_of reduce_xor_root)); ("^~", unary_bit (not_of reduce_xor_root)); ("&", unary_bit reduce_and_root);
   ("|", unary_bit reduce_or_root); ("^", unary_bit reduce_xor_root); ("+", fun a => mret a); ("-", negate);
   ("~", fun a => act (fun m here => bitwise_unary m here a ek_unary_not))]%string.
Definition tests {F} (l : list (string * F)) : list ((token -> bool) * F) := map (fun o => (spelled o.1, o.2)) l.
Definition chain : list (list operator) := map tests precedence.

Lemma chain_eq : chain = [mul_ops; add_ops; shift_ops; and_ops; xor_ops; or_ops; rel_ops; eq_ops; land_ops; lor_ops].
Proof. reflexivity. Qed.
Lemma prefixes_eq : tests prefixes = unary_ops.
Proof. reflexivity. Qed.

(** [r_binary 0] are the unary operators, [r_binary (S n)] the level [n]. *)
Inductive rank : Type := r_primary | r_power | r_binary (n : nat) | r_cond.

Definition eat (test : token -> bool) (s s' : estate) : Prop := exists t, at_token s t /\ test t = true /\ s' = adv s.
Definition eat_op {F} (ops : list ((token -> bool) * F)) (s : estate) (f : F) (s' : estate) : Prop :=
  exists t, at_token s t /\ first_match ops t = Some f /\ s' = adv s.

Section Grammar.
Context (identifier : E expr_value -> E (expr_value * bool)).

Inductive gram : rank -> estate -> expr_value -> estate -> Prop :=
  | g_number s t bits v s' : at_token s t -> tok_kind t = tk_number -> parse_literal_bits (tok_text t) true = Some (Some bits) ->
      parse_number t s = Some (v, s') -> gram r_primary s v s'
  | g_name s t v s' : at_token s t -> tok_kind t = tk_identifier -> (forall pe, identifier pe s = Some ((v, false), s')) -> moves s s' ->
      gram r_primary s v s'
  | g_paren s s1 v s2 s3 : eat (sym_test "(") s s1 -> gram r_cond s1 v s2 -> eat (sym_test ")") s2 s3 -> gram r_primary s v s3
  | g_bit s b s1 s2 i s3 s4 v s5 : gram r_primary s b s1 -> eat (sym_test "[") s1 s2 -> gram r_cond s2 i s3 -> eat (sym_test "]") s3 s4 ->
      act (fun m here => apply_bit_select m here b i) s4 = Some (v, s5) -> gram r_primary s v s5
  | g_part s b s1 s2 i s3 s4 j s5 s6 v s7 : gram r_primary s b s1 -> eat (sym_test "[") s1 s2 -> gram r_cond s2 i s3 -> eat (sym_test ":") s3 s4 ->
      gram r_cond s4 j s5 -> eat (sym_test "]") s5 s6 -> act (fun m here => apply_part_select m here b i j) s6 = Some (v, s7) -> gram r_primary s v s7
  | g_base s v s' : gram r_primary s v s' -> gram r_power s v s'
  | g_power s b s1 s2 e s3 v s4 : gram r_primary s b s1 -> eat (sym2_test "*" "*") s1 s2 -> gram r_power s2 e s3 ->
      word_op arith_pow b e s3 = Some (v, s4) -> gram r_power s v s4
  | g_plain s v s' : gram r_power s v s' -> gram (r_binary 0) s v s'
  | g_unary s f s1 a s2 v s3 : eat_op (tests prefixes) s f s1 -> gram (r_binary 0) s1 a s2 -> f a s2 = Some (v, s3) -> gram (r_binary 0) s v s3
  | g_operand n s v s' : (n < length chain)%nat -> gram (r_binary n) s v s' -> gram (r_binary (S n)) s v s'
  | g_binary n ops s a s1 f s2 b s3 v s4 : chain !! n = Some ops -> gram (r_binary (S n)) s a s1 -> eat_op ops s1 f s2 ->
      gram (r_binary n) s2 b s3 -> f a b s3 = Some (v, s4) -> gram (r_binary (S n)) s v s4
  | g_top s v s' : gram (r_binary (length chain)) s v s' -> gram r_cond s v s'
  | g_cond s c s1 s2 x s3 s4 y s5 v s6 : gram (r_binary (length chain)) s c s1 -> eat (sym_test "?") s1 s2 -> gram r_cond s2 x s3 ->
      eat (sym_test ":") s3 s4 -> gram r_cond s4 y s5 -> act (fun m here => make_conditional m here c x y) s5 = Some (v, s6) -> gram r_cond s v s6.

(** The tokens that would continue an expression of a rank. *)
Definition binary_tests (n : nat) : list (token -> bool) := concat (map (map fst) (take n chain)).
Definition stop_tests (r : rank) : list (token -> bool) :=
  match r with
  | r_primary => [sym_test "["]
  | r_power => [sym_test "["; sym2_test "*" "*"]
  | r_binary n => [sym_test "["; sym2_test "*" "*"] ++ binary_tests n
  | r_cond => [sym_test "["; sym2_test "*" "*"] ++ binary_tests (length chain) ++ [sym_test "?"]
  end.
Definition ends (r : rank) (s : estate) : Prop := exists t, at_token s t /\ Forall (fun test => test t = false) (stop_tests r).

(** ** The operators of the grammar *)

Definition tidy {F} (P : F -> Prop) (ops : list ((token -> bool) * F)) : Prop := Forall (fun o => symbolic o.1 /\ P o.2) ops.
Definition still2 (f : expr_value -> expr_value -> E expr_value) : Prop := forall a b, still (f a b).
Definition still1 (f : expr_value -> E expr_value) : Prop := forall a, still (f a).
Lemma chain_tidy n ops : chain !! n = Some ops -> tidy still2 ops.
Proof.
  intros H. apply list_elem_of_lookup_2 in H. rewrite chain_eq, !elem_of_cons, elem_of_nil in H.
  repeat destruct H as [->|H]; try done; unfold tidy; repeat (apply Forall_cons_2; [split; cbn [fst snd]; [auto|intros a b; apply act_still]|]); apply Forall_nil_2.
Qed.
Lemma unary_tidy : tidy still1 unary_ops.
Proof.
  unfold tidy. repeat (apply Forall_cons_2; [split; cbn [fst snd]; [auto|intros a; first [apply act_still|by intros s x s' [= <- <-]]]|]). apply Forall_nil_2.
Qed.
Lemma tidy_symbolic {F} (P : F -> Prop) ops : tidy P ops -> Forall (fun o => symbolic o.1) ops.
Proof. intros H. eapply Forall_impl; [exact H|]. by intros o []. Qed.
Lemma tidy_match {F} (P : F -> Prop) ops t f : tidy P ops -> first_match ops t = Some f -> tok_kind t = tk_symbol /\ P f.
Proof.
  intros H (test & He & Ht)%first_match_elem. unfold tidy in H. rewrite Forall_forall in H. destruct (H _ He) as [Hs Hp]. split; [by apply Hs|done].
Qed.

(** An operator of a level does not continue its operands. *)
Ltac view_token :=
  repeat match goal with
  | H : sym_test _ _ = true |- _ => apply sym_view in H as [??]
  | H : sym2_test _ _ _ = true |- _ => apply sym2_view in H as [??]
  | H : sym3_test _ _ _ _ = true |- _ => apply sym3_view in H as [??]
  end.
Ltac quiet_token := view_token; match goal with t : token |- _ => destruct t; simplify_eq/= end; repeat (constructor; [reflexivity|]); try constructor.

Lemma operator_ends n ops t f : chain !! n = Some ops -> first_match ops t = Some f -> Forall (fun test => test t = false) (stop_tests (r_binary n)).
Proof.
  rewrite chain_eq at 1. intros H (test & He & Ht)%first_match_elem. do 10 (destruct n as [|n]; [injection H as <-; unfold mul_ops, add_ops, shift_ops, and_ops, xor_ops, or_ops, rel_ops, eq_ops, land_ops, lor_ops in He; rewrite !elem_of_cons, elem_of_nil in He;
    repeat destruct He as [[= -> _]|He]; try done; quiet_token|]). done.
Qed.
Lemma closer_ends t : sym_test ")" t = true \/ sym_test "]" t = true \/ sym_test ":" t = true -> Forall (fun test => test t = false) (stop_tests r_cond).
Proof. intros [H|[H|H]]; quiet_token. Qed.
Lemma question_ends t : sym_test "?" t = true -> Forall (fun test => test t = false) (stop_tests (r_binary (length chain))).
Proof. intros H. quiet_token. Qed.

(** ** Derivations move the cursor *)

Lemma eat_moves test s s' : eat test s s' -> moves s s'.
Proof. intros (t & _ & _ & ->). apply adv_moves. Qed.
Lemma eat_op_moves {F} (ops : list ((token -> bool) * F)) s f s' : eat_op ops s f s' -> moves s s'.
Proof. intros (t & _ & _ & ->). apply adv_moves. Qed.
Lemma number_moves t s v s' : at_token s t -> tok_kind t = tk_number -> parse_number t s = Some (v, s') ->
  (exists r, parse_literal_bits (tok_text t) true = Some (Some r)) -> moves s s'.
Proof.
  intros Ht Hk Hp [[bits sgn] E]. unfold parse_number in Hp. rewrite E in Hp. unfold mbind at 1, St_bind at 1 in Hp.
  rewrite (consume_at s t Ht) in Hp by (by rewrite Hk). eapply moves_stays; [apply adv_moves|].
  destruct bits as [|b [|b' bits]]; by apply act_still in Hp.
Qed.
#[local] Hint Resolve eat_moves eat_op_moves moves_trans moves_stays : core.

Lemma op_still n ops s f s' a b s1 v s2 : chain !! n = Some ops -> eat_op ops s f s' -> f a b s1 = Some (v, s2) -> stays s1 s2.
Proof. intros Hc (t & _ & Hf & _). destruct (tidy_match still2 ops t f (chain_tidy n ops Hc) Hf) as [_ H]. apply H. Qed.
Lemma unary_still s f s' a s1 v s2 : eat_op unary_ops s f s' -> f a s1 = Some (v, s2) -> stays s1 s2.
Proof. intros (t & _ & Hf & _). destruct (tidy_match still1 _ t f unary_tidy Hf) as [_ H]. apply H. Qed.

Lemma gram_moves r s v s' : gram r s v s' -> moves s s'.
Proof.
  induction 1; try done; repeat match goal with
  | H : act _ _ = Some _ |- _ => apply act_still in H
  | H : word_op _ _ _ _ = Some _ |- _ => apply act_still in H
  | H : eat _ _ _ |- _ => apply eat_moves in H
  end.
  - eapply number_moves; eauto.
  - eauto.
  - eauto 6.
  - eauto 8.
  - eauto.
  - eapply unary_still in H1; eauto.
  - eapply op_still in H3; eauto.
  - eauto 8.
Qed.

(** The first token: a primary does not start with a unary operator. *)
Lemma gram_first r s v s' : gram r s v s' -> exists t, at_token s t /\
  match r with r_primary | r_power => first_match unary_ops t = None | _ => True end.
Proof.
  assert (Hn : forall t, tok_kind t = tk_number \/ tok_kind t = tk_identifier -> first_match unary_ops t = None).
  { intros t Hk. apply first_match_none. apply (Forall_impl _ _ _ (tidy_symbolic _ _ unary_tidy)). intros o Ho.
    destruct (o.1 t) eqn:E; [|done]. apply Ho in E. destruct Hk; congruence. }
  induction 1; try done; try (destruct IHgram as (t & Ht & Hq); exists t; split; [done|by try done]);
    try (destruct IHgram1 as (t & Ht & Hq); by exists t).
  - exists t. auto.
  - exists t. auto.
  - destruct H as (t & Ht & E & _). exists t. split; [done|]. apply sym_view in E as [E1 E2]. destruct t; simplify_eq/=. reflexivity.
  - destruct H as (t & Ht & _). by exists t.
Qed.

(** ** The parser follows the grammar *)

Fixpoint parse_at (pe : E expr_value) (n : nat) : E expr_value :=
  match n with
  | O => parse_unary identifier pe
  | S n' => level (parse_at pe n') (default [] (chain !! n'))
  end.
Lemma parse_lor_at pe : parse_lor identifier pe = parse_at pe (length chain).
Proof. reflexivity. Qed.

(** What the loops compute from the state in which a derivation ends. *)
Definition reaches (pe : E expr_value) (r : rank) (s : estate) (v : expr_value) (s' : estate) : Prop :=
  match r with
  | r_primary => exists k, (left_over s' <= k)%nat /\ parse_primary identifier pe s = postfix_loop pe k v s'
  | r_power => ends r_power s' -> forall k, (left_over s <= k)%nat -> power_loop identifier pe k s = Some (v, s')
  | r_binary O => ends r_power s' -> forall k, (left_over s <= k)%nat -> unary_loop identifier pe k s = Some (v, s')
  | r_binary (S n) => ends (r_binary n) s' ->
      exists k, (left_over s' <= k)%nat /\ parse_at pe (S n) s = left_loop (parse_at pe n) (default [] (chain !! n)) k v s'
  | r_cond => ends r_cond s' -> parse_cond identifier pe s = Some (v, s')
  end.

Lemma tokens_left s : (left_over s <= length (pa_toks (es_parser s)))%nat.
Proof. unfold left_over. lia. Qed.
Lemma ends_sub r r' s : incl (stop_tests r) (stop_tests r') -> ends r' s -> ends r s.
Proof. intros Hi (t & Ht & H). exists t. split; [done|]. rewrite List.Forall_forall in *. auto. Qed.
Lemma ends_binary n s : ends (r_binary (S n)) s -> ends (r_binary n) s.
Proof.
  apply ends_sub. unfold stop_tests. apply incl_app_app; [apply incl_refl|]. unfold binary_tests.
  destruct (decide (n < length chain)%nat) as [H|H].
  - destruct (lookup_lt_is_Some_2 chain n H) as [ops E]. rewrite (take_S_r _ _ _ E), map_app, concat_app. apply incl_appl, incl_refl.
  - rewrite !take_ge by lia. apply incl_refl.
Qed.
Lemma ends_power n s : ends (r_binary n) s -> ends r_power s.
Proof. apply ends_sub. apply incl_appl, incl_refl. Qed.
Lemma ends_primary s : ends r_power s -> ends r_primary s.
Proof. apply ends_sub. intros x [<-|[]]. by left. Qed.

Lemma accept_ends r s test : ends r s -> In test (stop_tests r) -> symbolic test -> cursor (accept test) s = Some (false, s).
Proof.
  intros (t & Ht & H) Hi Hs. rewrite List.Forall_forall in H. rewrite (accept_at s t test Ht) by (intros E%Hs; by rewrite E). by rewrite (H test Hi).
Qed.
Lemma accept_eat test s s' : eat test s s' -> symbolic test -> cursor (accept test) s = Some (true, s').
Proof. intros (t & Ht & E & ->) Hs. rewrite (accept_at s t test Ht) by (intros E'%Hs; by rewrite E'). by rewrite E. Qed.
Lemma demand_eat c msg s s' : eat (sym_test c) s s' -> demand c msg s = Some (tt, s').
Proof. intros H. unfold demand, mbind, St_bind, accept_sym. by rewrite (accept_eat _ _ _ H) by auto. Qed.
Lemma take_eat {F} (P : F -> Prop) (ops : list ((token -> bool) * F)) s f s' : tidy P ops -> eat_op ops s f s' -> take_first ops s = Some (Some f, s').
Proof. intros H (t & Ht & E & ->). rewrite (take_first_at ops s t Ht) by (by eapply tidy_symbolic). by rewrite E. Qed.
Lemma take_ends n (ops : list operator) s : chain !! n = Some ops -> ends (r_binary (S n)) s -> take_first ops s = Some (None, s).
Proof.
  intros Hc (t & Ht & H). rewrite (take_first_at ops s t Ht) by (eapply tidy_symbolic, chain_tidy; eauto). rewrite first_match_none; [done|].
  apply List.Forall_forall. intros o Ho. rewrite List.Forall_forall in H. apply H. unfold stop_tests. apply in_or_app. right. unfold binary_tests.
  rewrite (take_S_r _ _ _ Hc), map_app, concat_app. apply in_or_app. right. simpl. rewrite app_nil_r. by apply in_map.
Qed.

Lemma postfix_ends pe k v s : ends r_primary s -> postfix_loop pe k v s = Some (v, s).
Proof. intros H. destruct k; cbn [postfix_loop]; unfold mbind, St_bind, accept_sym; rewrite (accept_ends _ _ _ H) by (simpl; auto); done. Qed.
Lemma left_ends sub n (ops : list operator) k v s : chain !! n = Some ops -> ends (r_binary (S n)) s -> left_loop sub ops k v s = Some (v, s).
Proof. intros Hc H. destruct k; cbn [left_loop]; unfold mbind, St_bind; rewrite (take_ends n ops s Hc H); done. Qed.

(** At the end of an expression of a level its function returns. *)
Lemma reaches_at pe n s v s' : (n <= length chain)%nat -> reaches pe (r_binary n) s v s' -> ends (r_binary n) s' -> parse_at pe n s = Some (v, s').
Proof.
  intros Hn H He. destruct n as [|n].
  - apply H; [by apply ends_power in He|apply tokens_left].
  - destruct (lookup_lt_is_Some_2 chain n) as [ops Hc]; [lia|]. destruct (H (ends_binary _ _ He)) as (k & _ & ->). rewrite Hc. by apply (left_ends _ n).
Qed.
Lemma reaches_primary pe s v s' : reaches pe r_primary s v s' -> ends r_primary s' -> parse_primary identifier pe s = Some (v, s').
Proof. intros (k & _ & ->) H. by apply postfix_ends. Qed.

(** ** Every derivation *)

Lemma ends_stays r s s' : stays s s' -> ends r s' -> ends r s.
Proof. intros H (t & Ht & Hf). exists t. split; [by apply (at_stays s s')|done]. Qed.
Lemma ends_cond s : ends r_cond s -> ends (r_binary (length chain)) s.
Proof. apply ends_sub. unfold stop_tests. apply incl_app_app; [apply incl_refl|apply incl_appl, incl_refl]. Qed.
Lemma eat_closer c s s' : c = ")"%char \/ c = "]"%char \/ c = ":"%char -> eat (sym_test c) s s' -> ends r_cond s.
Proof. intros Hc (t & Ht & E & _). exists t. split; [done|]. apply closer_ends. destruct Hc as [->|[->| ->]]; auto. Qed.
Lemma accept_other c test s s' : eat (sym_test c) s s' -> symbolic test -> (forall t, tok_kind t = tk_symbol -> tok_text t = [c] -> test t = false) ->
  cursor (accept test) s = Some (false, s).
Proof.
  intros (t & Ht & E & _) Hs Ho. apply sym_view in E as [E1 E2]. rewrite (accept_at s t test Ht) by (intros _; by rewrite E1). by rewrite (Ho t E1 E2).
Qed.
Lemma moves_less s s' t k : at_token s t -> moves s s' -> (left_over s <= S k)%nat -> (left_over s' <= k)%nat.
Proof. intros Ht Hm Hk. pose proof (moves_left_over s s' t Hm Ht). lia. Qed.

Definition claim (r : rank) (s : estate) (v : expr_value) (s' : estate) : Prop :=
  forall fuel, (left_over s <= S fuel)%nat -> reaches (parse_expr identifier fuel) r s v s'.

Lemma nested s v s' t fuel : claim r_cond s v s' -> at_token s t -> ends r_cond s' -> (left_over s <= fuel)%nat ->
  parse_expr identifier fuel s = Some (v, s').
Proof. intros H Ht He Hf. pose proof (at_left_over s t Ht). destruct fuel as [|fuel]; [lia|]. by apply (H fuel). Qed.

Lemma claim_number s t bits v s' : at_token s t -> tok_kind t = tk_number -> parse_literal_bits (tok_text t) true = Some (Some bits) ->
  parse_number t s = Some (v, s') -> claim r_primary s v s'.
Proof.
  intros Ht Hk Hb Hp fuel _. exists (length (pa_toks (es_parser s'))). split; [apply tokens_left|].
  unfold parse_primary, mbind at 1, St_bind at 1. rewrite (peek_at s t Ht), Hk, Hb. unfold mbind, St_bind. by rewrite Hp.
Qed.
Lemma claim_name s t v s' : at_token s t -> tok_kind t = tk_identifier -> (forall pe, identifier pe s = Some ((v, false), s')) -> claim r_primary s v s'.
Proof.
  intros Ht Hk Hi fuel _. exists (length (pa_toks (es_parser s'))). split; [apply tokens_left|].
  unfold parse_primary, mbind at 1, St_bind at 1. rewrite (peek_at s t Ht), Hk. unfold mbind, St_bind. by rewrite Hi.
Qed.
Lemma claim_paren s s1 v s2 s3 t1 : eat (sym_test "(") s s1 -> at_token s1 t1 -> claim r_cond s1 v s2 -> eat (sym_test ")") s2 s3 -> claim r_primary s v s3.
Proof.
  intros Ho H1 Hc He fuel Hf. exists (length (pa_toks (es_parser s3))). split; [apply tokens_left|]. pose proof (eat_moves _ _ _ Ho) as Hm.
  destruct Ho as (t & Ht & E & ->). pose proof E as [E1 E2]%sym_view. unfold parse_primary, mbind at 1, St_bind at 1. rewrite (peek_at s t Ht), E1.
  assert (Hs : is_string t = false) by (unfold is_string; by rewrite E1, E2). assert (Hb : sym_test "{" t = false) by (unfold sym_test; by rewrite E1, E2).
  rewrite Hs, Hb, E. unfold mbind, St_bind. rewrite (consume_at s t Ht) by (by rewrite E1).
  rewrite (nested (adv s) v s2 t1 fuel Hc H1); [|eapply eat_closer; [|exact He]; auto|exact (moves_less s (adv s) t fuel Ht Hm Hf)].
  by rewrite (demand_eat _ _ _ _ He).
Qed.

Lemma accept_sym2_test a b : accept_sym2 a b = accept (sym2_test a b).
Proof. reflexivity. Qed.

(** The selects after a primary: one round of the loop. *)
Lemma claim_select s b s1 s2 s3 v t2 : gram r_primary s b s1 -> claim r_primary s b s1 -> eat (sym_test "[") s1 s2 -> moves s2 s3 -> at_token s2 t2 ->
  (forall fuel, (left_over s2 <= fuel)%nat -> parse_select (parse_expr identifier fuel) b s2 = Some (v, s3)) -> claim r_primary s v s3.
Proof.
  intros Hg Hc Ho Hm H2 Hp fuel Hf. destruct (Hc fuel Hf) as (k & Hk & Ek). unfold reaches. rewrite Ek. pose proof (eat_moves _ _ _ Ho) as Hm1. pose proof (gram_moves _ _ _ _ Hg) as Hm0.
  destruct (gram_first _ _ _ _ Hg) as (t0 & Ht0 & _). pose proof Ho as (t & Ht & _).
  pose proof (at_left_over s1 t Ht) as Hl. destruct k as [|k]; [lia|]. exists k. pose proof (moves_less s1 s2 t k Ht Hm1 Hk) as H2k.
  split; [pose proof (moves_left_over s2 s3 t2 Hm H2); lia|]. cbn [postfix_loop]. unfold mbind, St_bind, accept_sym. rewrite (accept_eat _ _ _ Ho) by auto.
  rewrite Hp; [done|]. pose proof (moves_left_over s s1 t0 Hm0 Ht0). pose proof (moves_left_over s1 s2 t Hm1 Ht). lia.
Qed.

Lemma claim_bit s b s1 s2 i s3 s4 v s5 : gram r_primary s b s1 -> claim r_primary s b s1 -> eat (sym_test "[") s1 s2 -> gram r_cond s2 i s3 ->
  claim r_cond s2 i s3 -> eat (sym_test "]") s3 s4 -> act (fun m here => apply_bit_select m here b i) s4 = Some (v, s5) -> claim r_primary s v s5.
Proof.
  intros Hg Hc Ho Hi Hci He Ha. destruct (gram_first _ _ _ _ Hi) as (t2 & Ht2 & _).
  assert (Hm : moves s2 s5) by (pose proof (act_still _ _ _ _ Ha); pose proof (gram_moves _ _ _ _ Hi); eauto).
  eapply claim_select; [exact Hg|exact Hc|exact Ho|exact Hm|exact Ht2|]. intros fuel Hf. unfold parse_select, mbind, St_bind, accept_sym. rewrite !accept_sym2_test.
  rewrite (nested s2 i s3 t2 fuel Hci Ht2); [|eapply eat_closer; [|exact He]; auto|done].
  do 3 (rewrite (accept_other "]" _ s3 s4 He) by (auto; intros t E1 E2; destruct t; simplify_eq/=; reflexivity)).
  by rewrite (demand_eat _ _ _ _ He).
Qed.
Lemma claim_part s b s1 s2 i s3 s4 j s5 s6 v s7 : gram r_primary s b s1 -> claim r_primary s b s1 -> eat (sym_test "[") s1 s2 -> gram r_cond s2 i s3 ->
  claim r_cond s2 i s3 -> eat (sym_test ":") s3 s4 -> gram r_cond s4 j s5 -> claim r_cond s4 j s5 -> eat (sym_test "]") s5 s6 ->
  act (fun m here => apply_part_select m here b i j) s6 = Some (v, s7) -> claim r_primary s v s7.
Proof.
  intros Hg Hc Ho Hi Hci Hn Hj Hcj He Ha. destruct (gram_first _ _ _ _ Hi) as (t2 & Ht2 & _). destruct (gram_first _ _ _ _ Hj) as (t4 & Ht4 & _).
  pose proof (gram_moves _ _ _ _ Hi) as Mi. pose proof (gram_moves _ _ _ _ Hj) as Mj. pose proof (eat_moves _ _ _ Hn) as Mn.
  assert (Hm : moves s2 s7) by (pose proof (act_still _ _ _ _ Ha); eauto 8).
  eapply claim_select; [exact Hg|exact Hc|exact Ho|exact Hm|exact Ht2|]. intros fuel Hf. unfold parse_select, mbind, St_bind, accept_sym. rewrite !accept_sym2_test.
  rewrite (nested s2 i s3 t2 fuel Hci Ht2); [|eapply eat_closer; [|exact Hn]; auto|done].
  do 2 (rewrite (accept_other ":" _ s3 s4 Hn) by (auto; intros t E1 E2; destruct t; simplify_eq/=; reflexivity)).
  rewrite (accept_eat _ _ _ Hn) by auto. rewrite (nested s4 j s5 t4 fuel Hcj Ht4); [|eapply eat_closer; [|exact He]; auto|].
  - by rewrite (demand_eat _ _ _ _ He).
  - pose proof (moves_left_over s2 s4 t2 (moves_trans _ _ _ Mi Mn) Ht2). lia.
Qed.

Lemma claim_base s v s' : claim r_primary s v s' -> claim r_power s v s'.
Proof.
  intros H fuel Hf He k _. destruct k; cbn [power_loop]; unfold mbind, St_bind; rewrite (reaches_primary _ _ _ _ (H fuel Hf) (ends_primary _ He));
    rewrite accept_sym2_test, (accept_ends _ _ _ He) by (simpl; auto); done.
Qed.
Lemma claim_power s b s1 s2 e s3 v s4 : gram r_primary s b s1 -> claim r_primary s b s1 -> eat (sym2_test "*" "*") s1 s2 -> claim r_power s2 e s3 ->
  word_op arith_pow b e s3 = Some (v, s4) -> claim r_power s v s4.
Proof.
  intros Hg Hc Ho Hp Ha fuel Hf He k Hk. pose proof (gram_moves _ _ _ _ Hg) as Hm0. pose proof (eat_moves _ _ _ Ho) as Hm1.
  destruct (gram_first _ _ _ _ Hg) as (t0 & Ht0 & _). pose proof Ho as (t & Ht & E & _).
  pose proof (moves_left_over s s2 t0 (moves_trans _ _ _ Hm0 Hm1) Ht0) as Hl. destruct k as [|k]; [lia|]. cbn [power_loop]. unfold mbind, St_bind.
  rewrite (reaches_primary _ _ _ _ (Hc fuel Hf)); [|exists t; split; [done|]; clear -E; quiet_token].
  rewrite accept_sym2_test, (accept_eat _ _ _ Ho) by auto. rewrite (Hp fuel); [exact Ha|lia| |lia].
  eapply ends_stays; [eapply act_still; exact Ha|done].
Qed.
Lemma claim_plain s v s' : gram r_power s v s' -> claim r_power s v s' -> claim (r_binary 0) s v s'.
Proof.
  intros Hg Hc fuel Hf He k _. destruct (gram_first _ _ _ _ Hg) as (t & Ht & Hq).
  assert (Hu : take_first unary_ops s = Some (None, s)) by (rewrite (take_first_at unary_ops s t Ht) by (eapply tidy_symbolic, unary_tidy); by rewrite Hq).
  destruct k; cbn [unary_loop]; unfold mbind, St_bind; rewrite Hu; exact (Hc fuel Hf He _ (tokens_left s)).
Qed.
Lemma claim_unary s f s1 a s2 v s3 : eat_op unary_ops s f s1 -> claim (r_binary 0) s1 a s2 -> f a s2 = Some (v, s3) -> claim (r_binary 0) s v s3.
Proof.
  intros Ho Hc Ha fuel Hf He k Hk. pose proof (eat_op_moves _ _ _ _ Ho) as Hm. pose proof Ho as (t & Ht & _). pose proof (moves_left_over s s1 t Hm Ht) as Hl.
  destruct k as [|k]; [lia|]. cbn [unary_loop]. unfold mbind, St_bind. rewrite (take_eat still1 _ _ _ _ unary_tidy Ho).
  rewrite (Hc fuel); [exact Ha|lia| |lia]. eapply ends_stays; [by eapply unary_still|done].
Qed.
Lemma claim_operand n s v s' : (n < length chain)%nat -> claim (r_binary n) s v s' -> claim (r_binary (S n)) s v s'.
Proof.
  intros Hn Hc fuel Hf He. exists (length (pa_toks (es_parser s'))). split; [apply tokens_left|]. cbn [parse_at]. unfold level, mbind, St_bind.
  rewrite (reaches_at _ n s v s'); [done|lia|by apply Hc|done].
Qed.
Lemma claim_binary n (ops : list operator) s a s1 f s2 b s3 v s4 : chain !! n = Some ops -> gram (r_binary (S n)) s a s1 -> claim (r_binary (S n)) s a s1 ->
  eat_op ops s1 f s2 -> gram (r_binary n) s2 b s3 -> claim (r_binary n) s2 b s3 -> f a b s3 = Some (v, s4) -> claim (r_binary (S n)) s v s4.
Proof.
  intros Hc Hg Hca Ho Hgb Hcb Ha fuel Hf He. pose proof (gram_moves _ _ _ _ Hg) as Hm0. pose proof (eat_op_moves _ _ _ _ Ho) as Hm1. pose proof (gram_moves _ _ _ _ Hgb) as Hm2.
  destruct (gram_first _ _ _ _ Hg) as (t0 & Ht0 & _). pose proof Ho as (t & Ht & E & _). pose proof (op_still n ops _ _ _ _ _ _ _ _ Hc Ho Ha) as Hs.
  destruct (Hca fuel Hf) as (k & Hk & Ek); [exists t; split; [done|]; by eapply operator_ends|]. pose proof (at_left_over s1 t Ht). destruct k as [|k]; [lia|].
  pose proof (moves_left_over s1 s4 t (moves_stays _ _ _ (moves_trans _ _ _ Hm1 Hm2) Hs) Ht). pose proof (moves_left_over s s2 t0 (moves_trans _ _ _ Hm0 Hm1) Ht0).
  exists k. split; [lia|]. rewrite Ek, Hc. change (default [] (Some ops)) with ops. cbn [left_loop]. unfold mbind, St_bind. rewrite (take_eat still2 ops s1 f s2 (chain_tidy n ops Hc) Ho).
  rewrite (reaches_at _ n s2 b s3); [by rewrite Ha| |apply Hcb; lia|by eapply ends_stays]. apply lookup_lt_Some in Hc. lia.
Qed.
Lemma claim_top s v s' : claim (r_binary (length chain)) s v s' -> claim r_cond s v s'.
Proof.
  intros Hc fuel Hf He. unfold reaches, parse_cond, mbind, St_bind, accept_sym. rewrite parse_lor_at.
  rewrite (reaches_at _ _ s v s' (Nat.le_refl _) (Hc fuel Hf) (ends_cond _ He)). rewrite (accept_ends _ _ _ He); [done| |auto].
  unfold stop_tests. do 2 (apply in_or_app; right). by left.
Qed.
Lemma claim_cond s c s1 s2 x s3 s4 y s5 v s6 : gram (r_binary (length chain)) s c s1 -> claim (r_binary (length chain)) s c s1 -> eat (sym_test "?") s1 s2 ->
  gram r_cond s2 x s3 -> claim r_cond s2 x s3 -> eat (sym_test ":") s3 s4 -> gram r_cond s4 y s5 -> claim r_cond s4 y s5 ->
  act (fun m here => make_conditional m here c x y) s5 = Some (v, s6) -> claim r_cond s v s6.
Proof.
  intros Hg Hc Hq Hgx Hx Hn Hgy Hy Ha fuel Hf He. pose proof Hq as (tq & Htq & Eq & _).
  destruct (gram_first _ _ _ _ Hg) as (t0 & Ht0 & _). destruct (gram_first _ _ _ _ Hgx) as (t2 & Ht2 & _). destruct (gram_first _ _ _ _ Hgy) as (t4 & Ht4 & _).
  pose proof (gram_moves _ _ _ _ Hg) as M0. pose proof (eat_moves _ _ _ Hq) as M1. pose proof (gram_moves _ _ _ _ Hgx) as M2. pose proof (eat_moves _ _ _ Hn) as M3.
  pose proof (moves_left_over s s2 t0 (moves_trans _ _ _ M0 M1) Ht0). pose proof (moves_left_over s2 s4 t2 (moves_trans _ _ _ M2 M3) Ht2).
  unfold reaches, parse_cond, mbind, St_bind, accept_sym. rewrite parse_lor_at.
  rewrite (reaches_at _ _ s c s1 (Nat.le_refl _) (Hc fuel Hf)); [|exists tq; split; [done|by apply question_ends]].
  rewrite (accept_eat _ _ _ Hq) by auto. cbn [negb]. rewrite (nested s2 x s3 t2 fuel Hx Ht2); [|eapply eat_closer; [|exact Hn]; auto|lia].
  rewrite (demand_eat _ _ _ _ Hn). rewrite (nested s4 y s5 t4 fuel Hy Ht4); [exact Ha| |lia]. eapply ends_stays; [eapply act_still; exact Ha|done].
Qed.

Lemma gram_claim r s v s' : gram r s v s' -> claim r s v s'.
Proof.
  induction 1; eauto using claim_number, claim_name, claim_bit, claim_part, claim_base, claim_power, claim_plain, claim_unary, claim_operand, claim_binary,
    claim_top, claim_cond. destruct (gram_first _ _ _ _ H0) as (t1 & Ht1 & _). by eapply claim_paren.
Qed.

(** C36: the parser of expressions implements its grammar: where a derivation
    of an expression ends before a token that does not continue it, the parser
    returns the value of the derivation, in the state of the derivation, with
    as much fuel as tokens are left. *)
Theorem parser_follows_grammar s v s' fuel : gram r_cond s v s' -> ends r_cond s' -> (left_over s <= fuel)%nat ->
  parse_expr identifier fuel s = Some (v, s').
Proof. intros Hg He Hf. destruct (gram_first _ _ _ _ Hg) as (t & Ht & _). exact (nested s v s' t fuel (gram_claim _ _ _ _ Hg) Ht He Hf). Qed.
End Grammar.

(** ** Examples *)

(** A parser at the start of a text, in an empty module. *)
Definition start_of (src : string) : estate :=
  match lex (chars src) None with
  | Some r => mk_es (mk_parser (lr_tokens r) 0 (lr_errors r) []) module_default ∅
  | None => mk_es (mk_parser [] 0 [] []) module_default ∅
  end.

(** The states of the derivation of [a+b], and what it builds. *)
Definition result {A} (c : E A) (d : A) (s : estate) : A * estate := match c s with Some r => r | None => (d, s) end.
Definition name_at (s : estate) : expr_value * estate :=
  let r := result (name_only undefined) (scalar 0, false) s in (r.1.1, r.2).
Definition sum_start : estate := start_of "a+b".
Definition sum_a : expr_value * estate := Eval vm_compute in name_at sum_start.
Definition sum_b : expr_value * estate := Eval vm_compute in name_at (adv sum_a.2).
Definition sum_end : expr_value * estate := Eval vm_compute in result (word_op arith_add sum_a.1 sum_b.1) (scalar 0) sum_b.2.

Lemma name_only_any pe pe' s : name_only pe s = name_only pe' s.
Proof. reflexivity. Qed.
Lemma sum_derivation : gram name_only r_cond sum_start sum_end.1 sum_end.2.
Proof.
  apply g_top. do 8 (apply g_operand; [simpl; lia|]).
  assert (Ha : gram name_only (r_binary 1) sum_start sum_a.1 sum_a.2).
  { apply g_operand; [simpl; lia|]. apply g_plain, g_base. apply (g_name _ _ (mk_token tk_identifier (chars "a") 1 1)); [vm_compute; reflexivity|reflexivity| |].
    - intros pe. rewrite (name_only_any pe undefined). vm_compute. reflexivity.
    - split; [reflexivity|simpl; lia]. }
  assert (Hb : gram name_only (r_binary 1) (adv sum_a.2) sum_b.1 sum_b.2).
  { apply g_operand; [simpl; lia|]. apply g_plain, g_base. apply (g_name _ _ (mk_token tk_identifier (chars "b") 1 3)); [vm_compute; reflexivity|reflexivity| |].
    - intros pe. rewrite (name_only_any pe undefined). vm_compute. reflexivity.
    - split; [reflexivity|simpl; lia]. }
  apply (g_binary _ 1 add_ops sum_start sum_a.1 sum_a.2 (word_op arith_add) (adv sum_a.2) sum_b.1 sum_b.2); [reflexivity| | |exact Hb|vm_compute; reflexivity].
  - apply g_operand; [simpl; lia|exact Ha].
  - exists (mk_token tk_symbol (chars "+") 1 2). split; [reflexivity|]. split; reflexivity.
Qed.
Lemma parser_follows_grammar_witness : parse_expr name_only 4 (start_of "a+b") = Some sum_end /\ pa_pos (es_parser sum_end.2) = 3%nat /\ length (cm_expr_nodes (es_module sum_end.2)) = 11%nat.
Proof.
  split.
  - apply (parser_follows_grammar name_only sum_start sum_end.1 sum_end.2 4).
    + exact sum_derivation.
    + exists (mk_token tk_eof [] 1 4). split; [vm_compute; reflexivity|]. repeat (constructor; [reflexivity|]). constructor.
    + vm_compute. lia.
  - split; vm_compute; reflexivity.
Defined.

(** The number that a constant expression denotes. *)
Definition constant_of (src : string) : option (option Z) :=
  let s := start_of src in
  match parse_expr name_only (left_over s) s with
  | Some (v, s') => try_eval_const_uint64 (es_module s') (cm_expr_nodes (es_module s')) v
  | None => None
  end.

Example products_bind_tighter : constant_of "1 + 2 * 3" = Some (Some 7) /\ constant_of "2 ** 3 ** 1 - 1 - 1" = Some (Some 6).
Proof. split; vm_compute; reflexivity. Qed.

(** [&], [^] and [|] bind tighter than the comparisons here, and a unary
    operator weaker than a power, unlike in Verilog, where [1 & 2 == 2] is 1
    and [-2 ** 2] is 4. *)
Example bitwise_binds_tighter : constant_of "1 & 2 == 2" = Some (Some 0) /\ constant_of "1 & (2 == 2)" = Some (Some 1) /\
  constant_of "-2 ** 2" = Some (Some (2 ^ 32 - 4)) /\ constant_of "(-2) ** 2" = Some (Some 4).
Proof. split_and!; vm_compute; reflexivity. Qed.
