(* ===== verification/SynthCube.v ===== *)
(** * SynthCube: cubes, covers and prime implicants

    The two-level part of the synthesizer ([verilog/digital/pe_synth.h]):
    [qm_implicant], the tests and costs of covers, and the prime implicants by
    the method of Quine and McCluskey.  Values and masks are 16-bit numbers; a
    set bit of the mask is a variable the cube does not depend on. *)

From Stdlib Require Import ZArith Lia.
From stdpp Require Import base list.
From S2P Require Import Prelude.

Open Scope Z_scope.

Record qm_implicant : Type := mk_imp { qm_value : Z; qm_mask : Z; qm_combined : bool }.
Definition minterm_cube (m : Z) : qm_implicant := mk_imp m 0 false.

Definition not16 (x : Z) : Z := Z.lxor x 65535.
Definition bit (x : Z) (v : nat) : bool := Z.testbit x (Z.of_nat v).
Definition popcount16 (x : Z) : nat := length (List.filter (bit x) (seq 0 16)).

Definition implicant_covers (imp : qm_implicant) (m : Z) : bool :=
  let keep := not16 (qm_mask imp) in Z.land m keep =? Z.land (qm_value imp) keep.

Definition ones (n : nat) : Z := Z.shiftl 1 (Z.of_nat n) - 1.
Definition implicant_literals (imp : qm_implicant) (var_count : nat) : nat :=
  popcount16 (Z.land (not16 (qm_mask imp)) (ones var_count)).

(** ** Words of 64 bits *)

(** [__builtin_ctzll], and the loop that visits the set bits of a word. *)
Definition ctzll (x : Z) : nat := Z.to_nat (Z.log2 (Z.land x (- x))).
Fixpoint set_bits_loop (fuel : nat) (x : Z) : list nat :=
  match fuel with
  | O => []
  | S fuel' => if x =? 0 then [] else ctzll x :: set_bits_loop fuel' (Z.land x (x - 1))
  end.
Definition set_bits (x : Z) : list nat := set_bits_loop 64 x.
Definition popcount64 (x : Z) : nat := length (List.filter (bit x) (seq 0 64)).

(** ** Prime implicants *)

Definition var_mask (var_count : nat) : Z := if (16 <=? var_count)%nat then 65535 else ones var_count.

(** The same value and mask. *)
Definition same_cube (a b : qm_implicant) : bool := (qm_value a =? qm_value b) && (qm_mask a =? qm_mask b).
Definition push_new (l : list qm_implicant) (c : qm_implicant) : list qm_implicant := if existsb (fun e => same_cube e c) l then l else l ++ [c].

(** The cube of two cubes that differ in one variable. *)
Definition combine_pair (vars : Z) (a b : qm_implicant) : option qm_implicant :=
  if negb (qm_mask a =? qm_mask b) then None
  else
    let diff := Z.land (Z.land (Z.lxor (qm_value a) (qm_value b)) (not16 (qm_mask a))) vars in
    if negb (popcount16 diff =? 1)%nat then None
    else Some (mk_imp (Z.land (qm_value a) (not16 diff)) (Z.lor (qm_mask a) diff) false).

Definition set_combined (x : qm_implicant) : qm_implicant := mk_imp (qm_value x) (qm_mask x) true.
Definition clear_combined (x : qm_implicant) : qm_implicant := mk_imp (qm_value x) (qm_mask x) false.

(** One pair [i], [j] of the two loops. *)
Definition combine_step (vars : Z) (st : list qm_implicant * list qm_implicant) (ij : nat * nat) : list qm_implicant * list qm_implicant :=
  let '(current, next) := st in
  match current !! ij.1, current !! ij.2 with
  | Some a, Some b =>
      match combine_pair vars a b with
      | Some c => (alter set_combined ij.2 (alter set_combined ij.1 current), push_new next c)
      | None => st
      end
  | _, _ => st
  end.
Definition pairs_of (n : nat) : list (nat * nat) := i ← seq 0 n; j ← seq (S i) (n - S i); [(i, j)].

Definition add_prime (primes : list qm_implicant) (a : qm_implicant) : list qm_implicant := if qm_combined a then primes else push_new primes a.

(** The rounds; a round without combinations is the last. *)
Fixpoint qm_rounds (fuel : nat) (vars : Z) (current primes : list qm_implicant) : option (list qm_implicant) :=
  match fuel with
  | O => None
  | S fuel' =>
      let '(current', next) := fold_left (combine_step vars) (pairs_of (length current)) (map clear_combined current, []) in
      let primes' := fold_left add_prime current' primes in
      match next with
      | [] => Some primes'
      | _ => qm_rounds fuel' vars next primes'
      end
  end.

(** Every round sets one more bit of the masks: seventeen rounds are enough. *)
Definition qm_prime_implicants (on dc : list Z) (var_count : nat) : option (list qm_implicant) :=
  qm_rounds 17 (var_mask var_count) (map minterm_cube on ++ map minterm_cube dc) [].

(** ** Costs *)

(** The options the costs depend on. *)
Record two_level_options : Type := mk_opts { literal_count : bool; not_w : Z; and_w : Z; or_w : Z }.

Definition cube_lits (var_count : nat) (imp : qm_implicant) : nat := length (List.filter (fun v => negb (bit (qm_mask imp) v)) (seq 0 var_count)).
Definition neg_used (cover : list qm_implicant) (v : nat) : bool :=
  existsb (fun imp => negb (bit (qm_mask imp) v) && negb (bit (qm_value imp) v)) cover.
Definition sum_of {A} (f : A -> Z) (l : list A) : Z := fold_left (fun s x => s + f x) l 0.

Definition two_level_cover_cost (cover : list qm_implicant) (var_count : nat) (opt : two_level_options) : Z :=
  if literal_count opt then sum_of (fun imp => Z.of_nat (implicant_literals imp var_count)) cover
  else
    let and_cost := sum_of (fun imp => Z.of_nat (cube_lits var_count imp - 1)) cover in
    let not_cost := Z.of_nat (length (List.filter (neg_used cover) (seq 0 var_count))) in
    let or_cost := Z.of_nat (length cover - 1) in
    not_w opt * not_cost + and_w opt * and_cost + or_w opt * or_cost.

(** The primes that are picked; an index out of range is skipped. *)
Definition picked_cubes (primes : list qm_implicant) (pick : list nat) : list qm_implicant :=
  omap (fun idx => primes !! idx) pick.
Definition qm_cover_cost (primes : list qm_implicant) (pick : list nat) (var_count : nat) (opt : two_level_options) : Z :=
  two_level_cover_cost (picked_cubes primes pick) var_count opt.

(** ** Tests of covers *)

Definition cover_hits (cover : list qm_implicant) (m : Z) : bool := existsb (fun c => implicant_covers c m) cover.
Definition two_level_cover_covers_all_on (cover : list qm_implicant) (on : list Z) : bool := forallb (cover_hits cover) on.
Definition two_level_cover_hits_off (cover : list qm_implicant) (is_on is_dc : list bool) : bool :=
  existsb (fun m => negb (nth m is_on false || nth m is_dc false) && cover_hits cover (Z.of_nat m)) (seq 0 (length is_on)).
