(* ===== verification/SynthPrimes.v ===== *)
(** * SynthPrimes: the method of Quine and McCluskey finds the prime implicants

    Bits of 16-bit numbers, cubes as sets of minterms, and the invariant of
    the rounds: the current list has exactly the implicants with a given
    number of free variables. *)

From Stdlib Require Import ZArith Lia.
From stdpp Require Import base list.
From S2P Require Import Prelude SynthCube.

Open Scope Z_scope.

(** ** Bits *)

Definition within (n : nat) (x : Z) : Prop := 0 <= x < 2 ^ Z.of_nat n.

Lemma bit_lor x y i : bit (Z.lor x y) i = bit x i || bit y i.
Proof. apply Z.lor_spec. Qed.
Lemma bit_land x y i : bit (Z.land x y) i = bit x i && bit y i.
Proof. apply Z.land_spec. Qed.
Lemma bit_lxor x y i : bit (Z.lxor x y) i = xorb (bit x i) (bit y i).
Proof. apply Z.lxor_spec. Qed.
Lemma bit_0 i : bit 0 i = false.
Proof. apply Z.testbit_0_l. Qed.
Lemma bit_pow d i : bit (2 ^ Z.of_nat d) i = bool_decide (i = d).
Proof.
  unfold bit. case_bool_decide as H; [subst; apply Z.pow2_bits_true; lia|]. apply Z.pow2_bits_false. lia.
Qed.
Lemma bit_ones n i : bit (2 ^ Z.of_nat n - 1) i = bool_decide (i < n)%nat.
Proof.
  unfold bit. replace (2 ^ Z.of_nat n - 1) with (Z.ones (Z.of_nat n)) by (rewrite Z.ones_equiv; lia).
  case_bool_decide; [apply Z.ones_spec_low; lia|apply Z.ones_spec_high; lia].
Qed.
Lemma bit_not16 x i : (i < 16)%nat -> bit (not16 x) i = negb (bit x i).
Proof.
  intros Hi. unfold not16. rewrite bit_lxor. change 65535 with (2 ^ Z.of_nat 16 - 1). rewrite bit_ones, bool_decide_true by done. apply xorb_true_r.
Qed.
Lemma bit_not16_high x i : (16 <= i)%nat -> bit (not16 x) i = bit x i.
Proof.
  intros Hi. unfold not16. rewrite bit_lxor. change 65535 with (2 ^ Z.of_nat 16 - 1). rewrite bit_ones, bool_decide_false by lia. apply xorb_false_r.
Qed.

Lemma within_high n x i : within n x -> (n <= i)%nat -> bit x i = false.
Proof.
  intros [H0 H] Hi. unfold bit. destruct (decide (x = 0)) as [->|Hx]; [apply Z.testbit_0_l|].
  apply Z.bits_above_log2; [done|]. apply Z.log2_lt_pow2; [lia|]. eapply Z.lt_le_trans; [exact H|]. apply Z.pow_le_mono_r; lia.
Qed.
Lemma within_bits n x : 0 <= x -> (forall i, (n <= i)%nat -> bit x i = false) -> within n x.
Proof.
  intros H0 H. split; [done|]. destruct (decide (x = 0)) as [->|Hx]; [apply Z.pow_pos_nonneg; lia|].
  apply Z.log2_lt_pow2; [lia|]. apply Z.nle_gt. intros Hl. pose proof (Z.bit_log2 x ltac:(lia)) as Hb. specialize (H (Z.to_nat (Z.log2 x))).
  unfold bit in H. rewrite Z2Nat.id in H by apply Z.log2_nonneg. rewrite H in Hb by lia. done.
Qed.
Lemma bits_eq n x y : within n x -> within n y -> (forall i, (i < n)%nat -> bit x i = bit y i) -> x = y.
Proof.
  intros Hx Hy H. apply Z.bits_inj'. intros k Hk. rewrite <- (Z2Nat.id k) by done. change (bit x (Z.to_nat k) = bit y (Z.to_nat k)).
  destruct (decide (Z.to_nat k < n)%nat); [by apply H|]. by rewrite (within_high n x), (within_high n y) by (done || lia).
Qed.
Lemma within_mono n k x : (n <= k)%nat -> within n x -> within k x.
Proof. intros H [H0 H1]. split; [done|]. eapply Z.lt_le_trans; [exact H1|]. apply Z.pow_le_mono_r; lia. Qed.
Lemma within_lor n x y : within n x -> within n y -> within n (Z.lor x y).
Proof. intros Hx Hy. apply within_bits; [apply Z.lor_nonneg; split; [apply Hx|apply Hy]|]. intros i Hi. rewrite bit_lor, !(within_high n) by done. done. Qed.
Lemma within_land n x y : within n x -> 0 <= y -> within n (Z.land x y).
Proof. intros Hx Hy. apply within_bits; [apply Z.land_nonneg; lia|]. intros i Hi. by rewrite bit_land, (within_high n x) by done. Qed.
Lemma within_lxor n x y : within n x -> within n y -> within n (Z.lxor x y).
Proof. intros Hx Hy. apply within_bits; [apply Z.lxor_nonneg; unfold within in *; lia|]. intros i Hi. by rewrite bit_lxor, !(within_high n) by done. Qed.
Lemma within_pow n d : (d < n)%nat -> within n (2 ^ Z.of_nat d).
Proof. intros H. split; [apply Z.pow_nonneg; lia|]. apply Z.pow_lt_mono_r; lia. Qed.
Lemma not16_nonneg x : 0 <= x -> 0 <= not16 x.
Proof. intros H. apply Z.lxor_nonneg. lia. Qed.
Lemma within_0 n : within n 0.
Proof. split; [lia|]. apply Z.pow_pos_nonneg; lia. Qed.

(** ** Counting bits *)

Lemma filter_length_ext {A} (f g : A -> bool) l : (forall x, x ∈ l -> f x = g x) -> length (List.filter f l) = length (List.filter g l).
Proof.
  induction l as [|x l IH]; intros H; [done|]. simpl. rewrite (H x) by (by left). assert (E : length (List.filter f l) = length (List.filter g l)) by (apply IH; intros y Hy; apply H; by right).
  destruct (g x); simpl; by rewrite E.
Qed.
Lemma filter_length_add (f g : nat -> bool) d l : NoDup l -> d ∈ l -> f d = false -> g d = true -> (forall i, i <> d -> f i = g i) ->
  length (List.filter g l) = S (length (List.filter f l)).
Proof.
  intros Hn. induction Hn as [|x l Hx Hn IH]; intros Hd Ef Eg Hi; [by apply elem_of_nil in Hd|]. simpl. apply elem_of_cons in Hd as [<-|Hd].
  - rewrite Ef, Eg. simpl. f_equal. apply filter_length_ext. intros y Hy. symmetry. apply Hi. by intros ->.
  - assert (Hxd : x <> d) by (by intros ->). rewrite (Hi x Hxd). specialize (IH Hd Ef Eg Hi). destruct (g x); simpl; lia.
Qed.
Lemma pop_set x d : (d < 16)%nat -> bit x d = false -> popcount16 (Z.lor x (2 ^ Z.of_nat d)) = S (popcount16 x).
Proof.
  intros Hd Hb. unfold popcount16. apply (filter_length_add _ _ d); [apply NoDup_seq|apply elem_of_seq; lia|done| |].
  - rewrite bit_lor, bit_pow, bool_decide_true by done. apply orb_true_r.
  - intros i Hi. rewrite bit_lor, bit_pow, bool_decide_false by done. by rewrite orb_false_r.
Qed.
Lemma pop_le n x : within n x -> (popcount16 x <= n)%nat.
Proof.
  intros H. unfold popcount16. rewrite <- (length_seq n 0). apply NoDup_incl_length; [apply List.NoDup_filter, List.seq_NoDup|].
  intros i [Hs Hb]%List.filter_In. apply in_seq. destruct (decide (i < n)%nat); [lia|]. by rewrite (within_high n) in Hb by (done || lia).
Qed.
Lemma pop_one x : popcount16 x = 1%nat -> exists d, (d < 16)%nat /\ bit x d = true /\ forall i, (i < 16)%nat -> bit x i = true -> i = d.
Proof.
  unfold popcount16. intros H. destruct (List.filter (bit x) (seq 0 16)) as [|d [|e l]] eqn:E; try done. exists d.
  assert (Hd : forall i, In i (List.filter (bit x) (seq 0 16)) <-> In i [d]) by (by rewrite E). clear H E.
  assert (Hin : In d (List.filter (bit x) (seq 0 16))) by (apply Hd; by left). apply List.filter_In in Hin as [Hs Hb]. apply in_seq in Hs.
  split_and!; [lia|done|]. intros i Hi Hbi. assert (Hin : In i [d]) by (apply Hd, List.filter_In; split; [apply in_seq; lia|done]). by destruct Hin as [<-|[]].
Qed.
Lemma pop_0 x : within 16 x -> popcount16 x = 0%nat -> x = 0.
Proof.
  intros Hx H. apply (bits_eq 16); [done|apply within_0|]. intros i Hi. rewrite bit_0. destruct (bit x i) eqn:E; [|done].
  unfold popcount16 in H. apply length_zero_iff_nil in H. assert (Hin : In i (List.filter (bit x) (seq 0 16))) by (apply List.filter_In; split; [apply in_seq; lia|done]).
  by rewrite H in Hin.
Qed.

(** ** Cubes as sets of minterms *)

Section Cubes.
Context (n : nat) (Hn : (n <= 16)%nat).

Record good (c : qm_implicant) : Prop := mk_good {
  good_value : within n (qm_value c);
  good_mask : within n (qm_mask c);
  good_clear : forall i, bit (qm_mask c) i = true -> bit (qm_value c) i = false
}.
Definition cov (c : qm_implicant) (m : Z) : Prop := forall i, (i < n)%nat -> bit (qm_mask c) i = false -> bit m i = bit (qm_value c) i.
Definition sub (c c' : qm_implicant) : Prop := forall m, within n m -> cov c m -> cov c' m.

Lemma covers_cov c m : good c -> within n m -> implicant_covers c m = true <-> cov c m.
Proof.
  intros [Gv Gm Gc] Hm. unfold implicant_covers. rewrite Z.eqb_eq. split.
  - intros E i Hi Hb. assert (Eb : bit (Z.land m (not16 (qm_mask c))) i = bit (Z.land (qm_value c) (not16 (qm_mask c))) i) by (by rewrite E).
    rewrite !bit_land, bit_not16, Hb in Eb by lia. by rewrite !andb_true_r in Eb.
  - intros H. assert (Hk : 0 <= not16 (qm_mask c)) by (apply not16_nonneg, Gm). apply (bits_eq n); [by apply within_land|by apply within_land|].
    intros i Hi. rewrite !bit_land, bit_not16 by lia. destruct (bit (qm_mask c) i) eqn:E; [by rewrite !andb_false_r|]. by rewrite (H i Hi E).
Qed.

Lemma cov_self c : cov c (qm_value c).
Proof. by intros i _ _. Qed.
Lemma sub_bits c c' : good c -> good c' -> sub c c' ->
  forall i, (i < n)%nat -> bit (qm_mask c') i = false -> bit (qm_mask c) i = false /\ bit (qm_value c) i = bit (qm_value c') i.
Proof.
  intros G G' H i Hi Hb. pose proof (H _ (good_value _ G) (cov_self c) i Hi Hb) as E1. split; [|done].
  destruct (bit (qm_mask c) i) eqn:E; [|done]. exfalso. pose proof (good_clear _ G i E) as Ev.
  assert (Hm : within n (Z.lor (qm_value c) (2 ^ Z.of_nat i))) by (apply within_lor; [apply G|by apply within_pow]).
  assert (Hc : cov c (Z.lor (qm_value c) (2 ^ Z.of_nat i))).
  { intros k Hk Hmk. rewrite bit_lor, bit_pow, bool_decide_false by (intros ->; congruence). by rewrite orb_false_r. }
  pose proof (H _ Hm Hc i Hi Hb) as E2. rewrite bit_lor, bit_pow, bool_decide_true, orb_true_r in E2 by done. congruence.
Qed.
Lemma good_eq c c' : good c -> good c' -> (forall i, (i < n)%nat -> bit (qm_mask c) i = bit (qm_mask c') i) ->
  (forall i, (i < n)%nat -> bit (qm_mask c) i = false -> bit (qm_value c) i = bit (qm_value c') i) -> qm_mask c = qm_mask c' /\ qm_value c = qm_value c'.
Proof.
  intros G G' Em Ev. assert (E : qm_mask c = qm_mask c') by (apply (bits_eq n); [apply G|apply G'|done]). split; [done|].
  apply (bits_eq n); [apply G|apply G'|]. intros i Hi. destruct (bit (qm_mask c) i) eqn:E1; [|by apply Ev].
  rewrite (good_clear _ G i E1). symmetry. apply (good_clear _ G'). by rewrite <- E.
Qed.

(** ** One variable less, one variable flipped *)

Definition drop_bit (x : Z) (d : nat) : Z := Z.land x (not16 (2 ^ Z.of_nat d)).
Lemma bit_drop x d i : (i < 16)%nat -> bit (drop_bit x d) i = bit x i && negb (bool_decide (i = d)).
Proof. intros Hi. unfold drop_bit. by rewrite bit_land, bit_not16, bit_pow. Qed.
Lemma within_drop x d : within n x -> within n (drop_bit x d).
Proof. intros H. apply within_land; [done|]. apply not16_nonneg, Z.pow_nonneg. lia. Qed.

Definition half (c : qm_implicant) (d : nat) (b : bool) : qm_implicant :=
  mk_imp (if b then Z.lor (qm_value c) (2 ^ Z.of_nat d) else qm_value c) (drop_bit (qm_mask c) d) false.
Definition flip (c : qm_implicant) (d : nat) : qm_implicant := mk_imp (Z.lxor (qm_value c) (2 ^ Z.of_nat d)) (qm_mask c) false.
Definition join (c : qm_implicant) (d : nat) : qm_implicant := mk_imp (drop_bit (qm_value c) d) (Z.lor (qm_mask c) (2 ^ Z.of_nat d)) false.

Lemma half_good c d b : good c -> (d < n)%nat -> good (half c d b).
Proof.
  intros [Gv Gm Gc] Hd. split; simpl.
  - destruct b; [apply within_lor; [done|by apply within_pow]|done].
  - by apply within_drop.
  - intros i Hi. assert (Hi16 : (i < 16)%nat).
    { destruct (decide (i < n)%nat); [lia|]. rewrite (within_high n) in Hi; [done|by apply within_drop|lia]. }
    rewrite bit_drop in Hi by done. apply andb_true_iff in Hi as [Hi Hne]. apply negb_true_iff, bool_decide_eq_false in Hne.
    destruct b; [|by apply Gc]. rewrite bit_lor, bit_pow, (Gc i Hi), bool_decide_false by done. done.
Qed.
Lemma flip_good c d : good c -> (d < n)%nat -> bit (qm_mask c) d = false -> good (flip c d).
Proof.
  intros [Gv Gm Gc] Hd Hb. split; simpl; [apply within_lxor; [done|by apply within_pow]|done|]. intros i Hi.
  rewrite bit_lxor, bit_pow, (Gc i Hi), bool_decide_false by (intros ->; congruence). done.
Qed.
Lemma join_good c d : good c -> (d < n)%nat -> good (join c d).
Proof.
  intros [Gv Gm Gc] Hd. split; simpl; [by apply within_drop|apply within_lor; [done|by apply within_pow]|]. intros i Hi.
  destruct (decide (i < 16)%nat); [|apply (within_high n); [by apply within_drop|lia]]. rewrite bit_drop by done. rewrite bit_lor, bit_pow in Hi.
  apply orb_true_iff in Hi as [Hi|Hi]; [by rewrite (Gc i Hi)|]. by rewrite Hi, andb_false_r.
Qed.

Lemma cov_half c d b m : good c -> bit (qm_mask c) d = true -> cov (half c d b) m -> cov c m.
Proof.
  intros G Hd H i Hi Hb. specialize (H i Hi). simpl in H. rewrite bit_drop, Hb in H by lia. rewrite (H eq_refl).
  destruct b; [|done]. rewrite bit_lor, bit_pow, bool_decide_false by (intros ->; congruence). by rewrite orb_false_r.
Qed.
Lemma cov_flip c c' d m : good c -> good c' -> sub c c' -> (d < n)%nat -> bit (qm_mask c') d = true -> cov (flip c d) m -> cov c' m.
Proof.
  intros G G' Hs Hd Hb H i Hi Hbi. destruct (sub_bits c c' G G' Hs i Hi Hbi) as [E1 E2]. rewrite (H i Hi E1). simpl.
  rewrite bit_lxor, bit_pow, bool_decide_false by (intros ->; congruence). by rewrite xorb_false_r.
Qed.
Lemma cov_join c d m : good c -> (d < n)%nat -> bit (qm_mask c) d = false -> cov (join c d) m -> cov c m \/ cov (flip c d) m.
Proof.
  intros G Hd Hb H. assert (Hi : forall i, (i < n)%nat -> bit (qm_mask c) i = false -> i <> d -> bit m i = bit (qm_value c) i).
  { intros i Hi Hm Hne. specialize (H i Hi). simpl in H. rewrite bit_lor, bit_pow, Hm, bit_drop, bool_decide_false in H by (done || lia).
    rewrite H by done. apply andb_true_r. }
  destruct (decide (bit m d = bit (qm_value c) d)) as [E|E]; [left|right]; intros i Hi' Hm; (destruct (decide (i = d)) as [->|Hne]; [|]); simpl; auto.
  - rewrite bit_lxor, bit_pow, bool_decide_true by done. destruct (bit m d), (bit (qm_value c) d); done.
  - rewrite bit_lxor, bit_pow, bool_decide_false, xorb_false_r by done. auto.
Qed.
Lemma sub_join c d : sub c (join c d).
Proof.
  intros m _ H i Hi Hb. simpl in *. rewrite bit_lor, bit_pow in Hb. apply orb_false_iff in Hb as [Hb Hd]. rewrite bit_drop, Hd by lia.
  rewrite (H i Hi Hb). by rewrite andb_true_r.
Qed.

(** ** Combining *)

Lemma var_mask_eq : var_mask n = 2 ^ Z.of_nat n - 1.
Proof.
  unfold var_mask, ones. destruct (Nat.leb_spec 16 n); [by replace n with 16%nat by lia|]. by rewrite Z.shiftl_mul_pow2, Z.mul_1_l by lia.
Qed.
Definition diff_of (a b : qm_implicant) : Z := Z.land (Z.land (Z.lxor (qm_value a) (qm_value b)) (not16 (qm_mask a))) (var_mask n).
Lemma diff_bits a b i : (i < 16)%nat ->
  bit (diff_of a b) i = xorb (bit (qm_value a) i) (bit (qm_value b) i) && negb (bit (qm_mask a) i) && bool_decide (i < n)%nat.
Proof. intros Hi. unfold diff_of. by rewrite var_mask_eq, !bit_land, bit_lxor, bit_not16, bit_ones. Qed.
Lemma diff_within a b : good a -> good b -> within 16 (diff_of a b).
Proof.
  intros Ga Gb. apply (within_mono n); [done|]. unfold diff_of. apply within_land; [apply within_land|].
  - apply within_lxor; [apply Ga|apply Gb].
  - apply not16_nonneg, Ga.
  - rewrite var_mask_eq. pose proof (Z.pow_pos_nonneg 2 (Z.of_nat n)). lia.
Qed.
Lemma combine_flip a b d : good a -> good b -> (d < n)%nat -> bit (qm_mask a) d = false -> qm_mask b = qm_mask a ->
  qm_value b = Z.lxor (qm_value a) (2 ^ Z.of_nat d) -> combine_pair (var_mask n) a b = Some (join a d).
Proof.
  intros Ga Gb Hd Hb Em Ev. assert (E : diff_of a b = 2 ^ Z.of_nat d).
  { apply (bits_eq 16); [by apply diff_within|apply within_pow; lia|]. intros i Hi. rewrite diff_bits, Ev, bit_lxor, !bit_pow by done.
    destruct (decide (i = d)) as [->|Hne].
    - rewrite Hb, !bool_decide_true by done. by destruct (bit (qm_value a) d).
    - rewrite (bool_decide_false (i = d)) by done. rewrite xorb_false_r, xorb_nilpotent. done. }
  unfold combine_pair. rewrite Em, Z.eqb_refl. cbn [negb]. unfold diff_of in E. rewrite E.
  assert (P : popcount16 (2 ^ Z.of_nat d) = 1%nat) by (rewrite <- (Z.lor_0_l (2 ^ Z.of_nat d)), pop_set by (lia || apply bit_0); done).
  rewrite P. done.
Qed.
Lemma combine_some a b c : good a -> good b -> combine_pair (var_mask n) a b = Some c ->
  exists d, (d < n)%nat /\ bit (qm_mask a) d = false /\ qm_mask b = qm_mask a /\ qm_value b = Z.lxor (qm_value a) (2 ^ Z.of_nat d) /\ c = join a d.
Proof.
  intros Ga Gb. unfold combine_pair. destruct (Z.eqb_spec (qm_mask a) (qm_mask b)) as [Em|]; [|done]. cbn [negb]. fold (diff_of a b).
  destruct (Nat.eqb_spec (popcount16 (diff_of a b)) 1) as [Ep|]; [|done]. cbn [negb]. intros [= <-].
  destruct (pop_one _ Ep) as (d & Hd & Eb & Hu). pose proof Eb as Eb'. rewrite diff_bits in Eb' by done.
  apply andb_true_iff in Eb' as [Eb' Hdn]. apply andb_true_iff in Eb' as [Ex Ebm]. apply bool_decide_eq_true in Hdn. apply negb_true_iff in Ebm.
  assert (E : diff_of a b = 2 ^ Z.of_nat d).
  { apply (bits_eq 16); [by apply diff_within|apply within_pow; lia|]. intros i Hi. rewrite bit_pow. destruct (bit (diff_of a b) i) eqn:Ei.
    - by rewrite (Hu i Hi Ei), bool_decide_true.
    - symmetry. apply bool_decide_eq_false. intros ->. congruence. }
  exists d. split_and!; [done|done|done| |by rewrite E]. apply (bits_eq n); [apply Gb|apply within_lxor; [apply Ga|by apply within_pow]|].
  intros i Hi. rewrite bit_lxor, bit_pow. assert (Ei : bit (diff_of a b) i = bool_decide (i = d)) by (by rewrite E, bit_pow).
  rewrite diff_bits, (bool_decide_true (i < n)%nat), andb_true_r in Ei by lia. rewrite <- Ei.
  destruct (bit (qm_mask a) i) eqn:Em'; [|by rewrite andb_true_r; destruct (bit (qm_value a) i), (bit (qm_value b) i)].
  rewrite (good_clear _ Ga i Em'), (good_clear _ Gb i) by (by rewrite <- Em). done.
Qed.
End Cubes.

(** ** One round *)

Definition same (a b : qm_implicant) : Prop := qm_value a = qm_value b /\ qm_mask a = qm_mask b.
Definition listed (l : list qm_implicant) (c : qm_implicant) : Prop := exists x, x ∈ l /\ same x c.
#[export] Instance same_equiv : Equivalence same.
Proof. split; [by intros []|by intros ?? []|]. intros ??? [] []. split; congruence. Qed.

Lemma same_cube_spec a b : same_cube a b = true <-> same a b.
Proof. unfold same_cube, same. by rewrite andb_true_iff, !Z.eqb_eq. Qed.
Lemma push_new_listed l c x : listed (push_new l c) x <-> listed l x \/ same c x.
Proof.
  unfold push_new. destruct (existsb _ l) eqn:E.
  - apply existsb_exists in E as (y & Hy & E). apply same_cube_spec in E. split; [by left|]. intros [H|H]; [done|]. exists y. split; [by apply list_elem_of_In|by etrans].
  - unfold listed. setoid_rewrite elem_of_app. setoid_rewrite list_elem_of_singleton. split.
    + intros (y & [Hy| ->] & H); [left|right]; eauto.
    + intros [(y & Hy & H)|H]; eauto.
Qed.
Definition distinct (l : list qm_implicant) : Prop := NoDup (map (fun c => (qm_value c, qm_mask c)) l).
Lemma push_new_distinct l c : distinct l -> distinct (push_new l c).
Proof.
  intros H. unfold push_new. destruct (existsb _ l) eqn:E; [done|]. unfold distinct in *. rewrite map_app. apply NoDup_app. split_and!; [done| |apply NoDup_singleton].
  intros x Hx Hs. simpl in Hs. apply list_elem_of_singleton in Hs as ->. apply list_elem_of_In, in_map_iff in Hx as (y & [= E1 E2] & Hy).
  assert (Ht : existsb (fun e => same_cube e c) l = true) by (apply existsb_exists; exists y; split; [done|by apply same_cube_spec]). congruence.
Qed.

Lemma pairs_of_spec N i j : (i, j) ∈ pairs_of N <-> (i < j < N)%nat.
Proof.
  unfold pairs_of. rewrite list_elem_of_bind. setoid_rewrite elem_of_seq. setoid_rewrite list_elem_of_bind. setoid_rewrite elem_of_seq.
  setoid_rewrite list_elem_of_singleton. split.
  - intros (i' & (j' & [= -> ->] & H1) & H2). lia.
  - intros H. exists i. split; [|lia]. exists j. split; [done|lia].
Qed.

Section Round.
Context (vars : Z) (cur0 : list qm_implicant).

Definition comb (ij : nat * nat) : option qm_implicant :=
  match cur0 !! ij.1, cur0 !! ij.2 with Some a, Some b => combine_pair vars a b | _, _ => None end.

Lemma combine_same a a' b b' : same a a' -> same b b' -> combine_pair vars a b = combine_pair vars a' b'.
Proof. intros [E1 E2] [E3 E4]. unfold combine_pair. by rewrite E1, E2, E3, E4. Qed.

(** What holds after the pairs [ps]. *)
Record round_inv (ps : list (nat * nat)) (st : list qm_implicant * list qm_implicant) : Prop := mk_round {
  ri_same : Forall2 same st.1 cur0;
  ri_flag : forall k x, st.1 !! k = Some x -> qm_combined x = true <-> exists ij, ij ∈ ps /\ (ij.1 = k \/ ij.2 = k) /\ is_Some (comb ij);
  ri_next : forall c, listed st.2 c <-> exists ij c', ij ∈ ps /\ comb ij = Some c' /\ same c' c
}.

Lemma comb_at st ij : Forall2 same st cur0 ->
  match st !! ij.1, st !! ij.2 with Some a, Some b => combine_pair vars a b | _, _ => None end = comb ij.
Proof.
  intros H. unfold comb. pose proof (proj1 (Forall2_lookup _ _ _) H ij.1) as H1. pose proof (proj1 (Forall2_lookup _ _ _) H ij.2) as H2.
  inversion H1 as [? ? S1 E1 E2|E1 E2]; inversion H2 as [? ? S2 E3 E4|E3 E4]; try done. by apply combine_same.
Qed.
Lemma alter_same st k : Forall2 same st cur0 -> Forall2 same (alter set_combined k st) cur0.
Proof.
  intros H. apply Forall2_same_length_lookup_2; [by rewrite length_alter; apply Forall2_length in H|]. intros i x y Hx Hy.
  destruct (decide (i = k)) as [->|Hne].
  - rewrite list_lookup_alter_eq in Hx. destruct (st !! k) as [z|] eqn:Ez; [|done]. simplify_eq/=. exact (Forall2_lookup_lr _ _ _ _ _ _ H Ez Hy).
  - rewrite list_lookup_alter_ne in Hx by done. exact (Forall2_lookup_lr _ _ _ _ _ _ H Hx Hy).
Qed.
Lemma alter_flag (st : list qm_implicant) k i x : alter set_combined k st !! i = Some x -> exists y, st !! i = Some y /\ (qm_combined x = true <-> i = k \/ qm_combined y = true).
Proof.
  destruct (decide (i = k)) as [->|Hne].
  - rewrite list_lookup_alter_eq. destruct (st !! k) as [z|]; [|done]. intros [= <-]. exists z. simpl. tauto.
  - rewrite list_lookup_alter_ne by done. intros ->. exists x. tauto.
Qed.

Lemma round_step ps st ij : round_inv ps st -> round_inv (ps ++ [ij]) (combine_step vars st ij).
Proof.
  intros [Hs Hf Hn]. destruct st as [cur next]. simpl in *. pose proof (comb_at cur ij Hs) as Hc.
  assert (Hin : forall x, x ∈ ps ++ [ij] <-> x ∈ ps \/ x = ij) by (intros x; by rewrite elem_of_app, list_elem_of_singleton).
  assert (Hno : comb ij = None -> round_inv (ps ++ [ij]) (cur, next)).
  { intros E. split; simpl; [done| |].
    - intros k x Hx. rewrite (Hf k x Hx). setoid_rewrite Hin. split; [intros (y & Hy & H); eauto|]. intros (y & [Hy| ->] & Ho & Hi); [eauto|]. rewrite E in Hi. by destruct Hi.
    - intros c. rewrite Hn. setoid_rewrite Hin. split; [intros (y & c' & Hy & H); eauto|]. intros (y & c' & [Hy| ->] & E' & Hi); [eauto|congruence]. }
  destruct (cur !! ij.1) as [a|]; [|by apply Hno]. destruct (cur !! ij.2) as [b|]; [|by apply Hno].
  destruct (combine_pair vars a b) as [c|]; [|by apply Hno]. symmetry in Hc. split; simpl.
  - by apply alter_same, alter_same.
  - intros k x Hx. apply alter_flag in Hx as (y & Hy & Ex). apply alter_flag in Hy as (z & Hz & Ey). rewrite Ex, Ey, (Hf k z Hz). setoid_rewrite Hin. split.
    + intros [->|[->|(u & Hu & Ho & Hi)]]; [| |eauto]; exists ij; (split_and!; [by right|tauto|by rewrite Hc]).
    + intros (u & [Hu| ->] & Ho & Hi); [right; right; eauto|]. destruct Ho as [<-|<-]; tauto.
  - intros c'. rewrite push_new_listed, Hn. setoid_rewrite Hin. split.
    + intros [(u & e & Hu & H)|H]; [eauto|]. exists ij, c. auto.
    + intros (u & e & [Hu| ->] & E & H); [left; eauto|]. right. by simplify_eq.
Qed.
Lemma round_fold ps : forall done st, round_inv done st -> round_inv (done ++ ps) (fold_left (combine_step vars) ps st).
Proof.
  induction ps as [|ij ps IH]; intros done st H; simpl; [by rewrite app_nil_r|]. replace (done ++ ij :: ps) with ((done ++ [ij]) ++ ps) by (by rewrite <- app_assoc).
  by apply IH, round_step.
Qed.
End Round.

Lemma add_prime_fold cur : forall primes, distinct primes ->
  distinct (fold_left add_prime cur primes) /\
  forall c, listed (fold_left add_prime cur primes) c <-> listed primes c \/ exists x, x ∈ cur /\ qm_combined x = false /\ same x c.
Proof.
  induction cur as [|x cur IH]; intros primes Hd; simpl.
  { split; [done|]. intros c. split; [by left|]. intros [H|(x & Hx & _)]; [done|by apply elem_of_nil in Hx]. }
  destruct (IH (add_prime primes x)) as [D L]; [unfold add_prime; destruct (qm_combined x); [done|by apply push_new_distinct]|]. split; [done|].
  intros c. rewrite L. unfold add_prime. setoid_rewrite elem_of_cons. destruct (qm_combined x) eqn:E.
  - split; [intros [H|(y & Hy & H)]; [by left|right; eauto]|]. intros [H|(y & [-> |Hy] & Hf & H)]; [by left|congruence|right; eauto].
  - rewrite push_new_listed. split; [intros [[H|H]|(y & Hy & H)]; [by left|right; exists x; auto|right; eauto]|].
    intros [H|(y & [-> |Hy] & Hf & H)]; [by left; left|by left; right|right; eauto].
Qed.
