(* ===== verification/SynthPrimesClaims.v ===== *)
(** * SynthPrimesClaims: the rounds and their result

    The current list of round [k] has exactly the implicants with [k] free
    variables; the cubes that combine with none are the prime implicants. *)

From Stdlib Require Import ZArith Lia.
From stdpp Require Import base list.
From S2P Require Import Prelude SynthCube SynthPrimes.

Open Scope Z_scope.

Section Levels.
Context (n : nat) (Hn : (n <= 16)%nat) (S0 : list Z).

(** A cube of minterms of the function, and one that no other contains. *)
Definition implicant (c : qm_implicant) : Prop := good n c /\ forall m, within n m -> cov n c m -> m ∈ S0.
Definition prime (c : qm_implicant) : Prop := implicant c /\ forall c', implicant c' -> sub n c c' -> same c' c.

Lemma implicant_same c c' : same c c' -> implicant c -> implicant c'.
Proof.
  intros [Ev Em] [[G1 G2 G3] H]. split; [split; rewrite <- ?Ev, <- ?Em; done|]. intros m Hm Hc. apply H; [done|]. unfold cov in *. by rewrite Ev, Em.
Qed.
Lemma sub_same c c' : same c c' -> sub n c c'.
Proof. intros [Ev Em] m _ H. unfold cov in *. by rewrite <- Ev, <- Em. Qed.
Lemma prime_same c c' : same c c' -> prime c -> prime c'.
Proof.
  intros Hs [Hi Hm]. split; [by eapply implicant_same|]. intros e He Hsub. rewrite <- Hs. apply Hm; [done|]. intros m Hw Hc. apply Hsub; [done|]. by apply (sub_same c c').
Qed.

Lemma half_implicant c d b : implicant c -> (d < n)%nat -> bit (qm_mask c) d = true -> implicant (half c d b).
Proof. intros [G H] Hd Hb. split; [by apply half_good|]. intros m Hm Hc. apply H; [done|]. by eapply cov_half. Qed.
Lemma half_mask c d b : good n c -> (d < n)%nat -> bit (qm_mask c) d = true -> Z.lor (qm_mask (half c d b)) (2 ^ Z.of_nat d) = qm_mask c.
Proof.
  intros G Hd Hb. apply (bits_eq n); [apply within_lor; [by apply (within_drop n Hn), G|by apply within_pow]|apply G|]. intros i Hi. simpl.
  rewrite bit_lor, bit_pow, bit_drop by lia. case_bool_decide; [subst; rewrite Hb; done|]. by rewrite andb_true_r, orb_false_r.
Qed.
Lemma half_pop c d b : good n c -> (d < n)%nat -> bit (qm_mask c) d = true -> popcount16 (qm_mask c) = S (popcount16 (qm_mask (half c d b))).
Proof.
  intros G Hd Hb. rewrite <- (half_mask c d b) at 1 by done. apply pop_set; [lia|]. simpl. rewrite bit_drop, bool_decide_true by (done || lia). apply andb_false_r.
Qed.
Lemma half_flip c d : good n c -> (d < n)%nat -> bit (qm_mask c) d = true ->
  qm_value (half c d true) = Z.lxor (qm_value (half c d false)) (2 ^ Z.of_nat d) /\ qm_value (half c d false) = Z.lxor (qm_value (half c d true)) (2 ^ Z.of_nat d).
Proof.
  intros G Hd Hb. pose proof (good_clear _ _ G d Hb) as Hv. pose proof (within_pow n d Hd) as Hw. pose proof (good_value _ _ G) as Gv.
  split; cbn [half qm_value]; (apply (bits_eq n); [by auto using within_lor, within_lxor|by auto using within_lor, within_lxor|]); intros i Hi; rewrite ?bit_lxor, ?bit_lor, ?bit_pow;
    (destruct (decide (i = d)) as [->|Hne]; [rewrite Hv, bool_decide_true by done; done|rewrite bool_decide_false by done; by destruct (bit (qm_value c) i)]).
Qed.
Lemma half_join c d b : good n c -> (d < n)%nat -> bit (qm_mask c) d = true -> same (join (half c d b) d) c.
Proof.
  intros G Hd Hb. split; simpl; [|by apply (half_mask c d b)]. pose proof (good_clear _ _ G d Hb) as Hv. pose proof (good_value _ _ G) as Gv.
  apply (bits_eq n); [apply (within_drop n Hn); destruct b; [apply within_lor; [done|by apply within_pow]|done]|done|]. intros i Hi. rewrite bit_drop by lia.
  destruct b; rewrite ?bit_lor, ?bit_pow; (case_bool_decide; [subst; by rewrite Hv, andb_false_r|by rewrite ?orb_false_r, andb_true_r]).
Qed.
Lemma mask_bit c k : good n c -> popcount16 (qm_mask c) = S k -> exists d, (d < n)%nat /\ bit (qm_mask c) d = true.
Proof.
  intros G Hp. unfold popcount16 in Hp. destruct (List.filter (bit (qm_mask c)) (seq 0 16)) as [|d l] eqn:E; [done|].
  assert (Hd : In d (List.filter (bit (qm_mask c)) (seq 0 16))) by (rewrite E; by left). apply List.filter_In in Hd as [_ Hd]. exists d. split; [|done].
  destruct (decide (d < n)%nat); [done|]. rewrite (within_high n) in Hd by (apply G || lia). done.
Qed.
Lemma join_implicant a b d : implicant a -> implicant b -> (d < n)%nat -> bit (qm_mask a) d = false -> qm_mask b = qm_mask a ->
  qm_value b = Z.lxor (qm_value a) (2 ^ Z.of_nat d) -> implicant (join a d).
Proof.
  intros [Ga Ha] [Gb Hb] Hd Hm Em Ev. split; [by apply join_good|]. intros m Hw Hc. apply (cov_join n Hn) in Hc as [Hc|Hc]; [by apply Ha| |done|done|done].
  apply Hb; [done|]. unfold cov in *. simpl in Hc. by rewrite Ev, Em.
Qed.

(** ** The level of a list *)

Definition level_list (k : nat) (l : list qm_implicant) : Prop := forall c, listed l c <-> implicant c /\ popcount16 (qm_mask c) = k.

Section Round.
Context (k : nat) (cur0 : list qm_implicant) (HL : level_list k cur0).

Lemma listed_at i x : cur0 !! i = Some x -> implicant x /\ popcount16 (qm_mask x) = k.
Proof. intros H. apply HL. exists x. split; [by apply list_elem_of_lookup_2 in H|done]. Qed.
Lemma comb_inv i j c : comb (var_mask n) cur0 (i, j) = Some c -> exists a b d, cur0 !! i = Some a /\ cur0 !! j = Some b /\ (d < n)%nat /\
  bit (qm_mask a) d = false /\ qm_mask b = qm_mask a /\ qm_value b = Z.lxor (qm_value a) (2 ^ Z.of_nat d) /\ c = join a d.
Proof.
  unfold comb. simpl. destruct (cur0 !! i) as [a|] eqn:Ea; [|done]. destruct (cur0 !! j) as [b|] eqn:Eb; [|done]. intros H.
  apply listed_at in Ea as [[Ga _] _]. apply listed_at in Eb as [[Gb _] _]. destruct (combine_some n Hn a b c Ga Gb H) as (d & Hd & H'). by exists a, b, d.
Qed.
(** Two cubes that differ in one variable combine, in either order. *)
Lemma comb_both i j x y d : cur0 !! i = Some x -> cur0 !! j = Some y -> (d < n)%nat -> bit (qm_mask x) d = false -> qm_mask y = qm_mask x ->
  qm_value y = Z.lxor (qm_value x) (2 ^ Z.of_nat d) ->
  i <> j /\ comb (var_mask n) cur0 (i, j) = Some (join x d) /\ comb (var_mask n) cur0 (j, i) = Some (join y d).
Proof.
  intros Hi Hj Hd Hb Em Ev. pose proof (listed_at _ _ Hi) as [[Gx _] _]. pose proof (listed_at _ _ Hj) as [[Gy _] _].
  assert (Ex : qm_value x = Z.lxor (qm_value y) (2 ^ Z.of_nat d)) by (rewrite Ev, Z.lxor_assoc, Z.lxor_nilpotent, Z.lxor_0_r; done).
  split_and!.
  - intros ->. assert (x = y) by congruence. subst y. assert (E : bit (qm_value x) d = bit (Z.lxor (qm_value x) (2 ^ Z.of_nat d)) d) by congruence.
    rewrite bit_lxor, bit_pow, bool_decide_true in E by done. by destruct (bit (qm_value x) d).
  - unfold comb. simpl. rewrite Hi, Hj. by apply (combine_flip n Hn).
  - unfold comb. simpl. rewrite Hi, Hj. apply (combine_flip n Hn); [done|done|done|by rewrite Em|done|done].
Qed.

Lemma pair_in i j x y : cur0 !! i = Some x -> cur0 !! j = Some y -> i <> j -> (i, j) ∈ pairs_of (length cur0) \/ (j, i) ∈ pairs_of (length cur0).
Proof. intros Hi%lookup_lt_Some Hj%lookup_lt_Some Hne. rewrite !pairs_of_spec. lia. Qed.

Context (st : list qm_implicant * list qm_implicant) (HR : round_inv (var_mask n) cur0 (pairs_of (length cur0)) st).

(** The next list has the implicants with one more free variable. *)
Lemma next_level : level_list (S k) st.2.
Proof.
  intros c. rewrite (ri_next _ _ _ _ HR). split.
  - intros ([i j] & c' & _ & Hc & Hs). apply comb_inv in Hc as (a & b & d & Ha & Hb & Hd & Hm & Em & Ev & ->).
    apply listed_at in Ha as [Ia Pa]. apply listed_at in Hb as [Ib _]. split; [eapply implicant_same; [exact Hs|]; by eapply join_implicant|].
    destruct Hs as [_ <-]. simpl. rewrite pop_set by (done || lia). by rewrite Pa.
  - intros [Ic Pc]. pose proof Ic as [Gc _]. destruct (mask_bit c k Gc Pc) as (d & Hd & Hb).
    assert (Hh : forall b, listed cur0 (half c d b)) by (intros b; apply HL; split; [by apply half_implicant|]; pose proof (half_pop c d b Gc Hd Hb); lia).
    assert (Hmb : bit (qm_mask (half c d false)) d = false) by (simpl; rewrite bit_drop, bool_decide_true by (done || lia); apply andb_false_r).
    destruct (Hh false) as (x & Hx & Sx), (Hh true) as (y & Hy & Sy). apply list_elem_of_lookup_1 in Hx as [i Hi]. apply list_elem_of_lookup_1 in Hy as [j Hj].
    destruct (half_flip c d Gc Hd Hb) as [Hf _]. destruct Sx as [Vx Mx] eqn:Ex, Sy as [Vy My] eqn:Ey.
    destruct (comb_both i j x y d Hi Hj Hd) as (Hne & C1 & C2); [by rewrite Mx|by rewrite Mx, My|by rewrite Vx, Vy|].
    assert (Hjoin : forall u v, same u (half c d v) -> same (join u d) c).
    { intros u v [E1 E2]. etrans; [|apply (half_join c d v Gc Hd Hb)]. unfold join. rewrite E1, E2. done. }
    destruct (pair_in i j x y Hi Hj Hne) as [Hp|Hp]; [exists (i, j), (join x d)|exists (j, i), (join y d)]; (split_and!; [done|done|]).
    + by apply (Hjoin x false).
    + by apply (Hjoin y true).
Qed.

(** A cube that combined with none is prime, and the others are not. *)
Lemma partner_not_prime x a d : same x a -> implicant (join a d) -> (d < n)%nat -> bit (qm_mask a) d = false -> ~ prime x.
Proof.
  intros Sxa Ij Hd Hb [_ Hp]. assert (Hs : sub n x (join a d)) by (intros m Hm Hc; apply (sub_join n Hn); [done|]; by apply (sub_same x a)).
  destruct (Hp _ Ij Hs) as [_ E]. simpl in E. destruct Sxa as [_ Em]. assert (E' : bit (Z.lor (qm_mask a) (2 ^ Z.of_nat d)) d = bit (qm_mask a) d) by congruence.
  rewrite bit_lor, bit_pow, bool_decide_true, orb_true_r in E' by done. congruence.
Qed.
Lemma unflagged_prime i x : st.1 !! i = Some x -> qm_combined x = false <-> prime x.
Proof.
  intros Hx. pose proof (ri_same _ _ _ _ HR) as HS. destruct (Forall2_lookup_l _ _ _ _ _ HS Hx) as (a & Ha & Sxa).
  pose proof (listed_at i a Ha) as [Ia Pa]. assert (Ix : implicant x) by (eapply implicant_same; [symmetry; exact Sxa|done]). pose proof Ix as [Gx _].
  rewrite <- not_true_iff_false, (ri_flag _ _ _ _ HR i x Hx). split.
  - intros Hno. split; [done|]. intros c' Ic' Hsub. pose proof Ic' as [Gc' _].
    assert (Hmask : forall d, (d < n)%nat -> bit (qm_mask c') d = bit (qm_mask x) d).
    { intros d Hd. destruct (bit (qm_mask c') d) eqn:E1; [|by destruct (sub_bits n x c' Gx Gc' Hsub d Hd E1) as [-> _]].
      destruct (bit (qm_mask x) d) eqn:E2; [done|]. exfalso. apply Hno. destruct Sxa as [Va Ma].
      assert (Lf : listed cur0 (flip x d)).
      { apply HL. split; [|simpl; by rewrite Ma]. split; [by apply flip_good|]. intros m Hm Hc. apply Ic'; [done|]. eapply (cov_flip n x c' d); eauto. }
      destruct Lf as (y & Hy & Vy & My). simpl in Vy, My. apply list_elem_of_lookup_1 in Hy as [j Hj].
      destruct (comb_both i j a y d Ha Hj Hd) as (Hne & C1 & C2); [by rewrite <- Ma|by rewrite My|by rewrite Vy, Va|].
      destruct (pair_in i j a y Ha Hj Hne) as [Hp|Hp]; [exists (i, j)|exists (j, i)]; (split_and!; [done|simpl; auto|eauto]). }
    destruct (good_eq n c' x Gc' Gx) as [E1 E2]; [done| |by split]. intros d Hd E. by destruct (sub_bits n x c' Gx Gc' Hsub d Hd E) as [_ ->].
  - intros Hp ([i0 j0] & Hin & Ho & [c Hc]). pose proof Hc as (a' & b' & d & Ha' & Hb' & Hd & Hm & Em & Ev & ->)%comb_inv.
    pose proof (listed_at _ _ Ha') as [Ia' _]. pose proof (listed_at _ _ Hb') as [Ib' _]. simpl in Ho. destruct Ho as [->| ->].
    + simplify_eq. apply (partner_not_prime x a d); [done| |done|done|done]. by eapply join_implicant.
    + simplify_eq. apply (partner_not_prime x a d); [done| |done|by rewrite Em|done]. eapply (join_implicant a a' d); [done|done|done|by rewrite Em|done|].
      by rewrite Ev, Z.lxor_assoc, Z.lxor_nilpotent, Z.lxor_0_r.
Qed.
End Round.

(** ** All rounds *)

Lemma clear_listed l c : listed (map clear_combined l) c <-> listed l c.
Proof.
  unfold listed. setoid_rewrite list_elem_of_fmap. split.
  - intros (x & (y & -> & Hy) & Hs). by exists y.
  - intros (x & Hx & Hs). exists (clear_combined x). split; [by exists x|done].
Qed.
Lemma round_start vars l : round_inv vars (map clear_combined l) [] (map clear_combined l, []).
Proof.
  split; simpl.
  - apply Forall_Forall2_diag. apply Forall_forall. done.
  - intros k x Hx. apply list_lookup_fmap_Some in Hx as (y & -> & _). simpl. split; [done|]. intros (ij & Hij & _). by apply elem_of_nil in Hij.
  - intros c. split; [intros (x & Hx & _); by apply elem_of_nil in Hx|]. intros (ij & c' & Hij & _). by apply elem_of_nil in Hij.
Qed.

(** Without implicants of a size there are none of a larger one. *)
Lemma implicant_smaller k j c : implicant c -> popcount16 (qm_mask c) = (k + j)%nat -> exists c', implicant c' /\ popcount16 (qm_mask c') = k.
Proof.
  revert c. induction j as [|j IH]; intros c Ic Pc; [exists c; split; [done|lia]|]. pose proof Ic as [Gc _].
  destruct (mask_bit c (k + j) Gc) as (d & Hd & Hb); [lia|]. apply (IH (half c d false)); [by apply half_implicant|].
  pose proof (half_pop c d false Gc Hd Hb). lia.
Qed.

Lemma rounds_primes fuel : forall k cur primes, level_list k cur -> (k <= n < k + fuel)%nat -> distinct primes ->
  (forall c, listed primes c <-> prime c /\ (popcount16 (qm_mask c) < k)%nat) ->
  exists ps, qm_rounds fuel (var_mask n) cur primes = Some ps /\ distinct ps /\ forall c, listed ps c <-> prime c.
Proof.
  induction fuel as [|fuel IH]; intros k cur primes HL Hf Hd HP.
  - lia.
  - cbn [qm_rounds]. pose proof (round_start (var_mask n) cur) as HR. apply (round_fold _ _ (pairs_of (length cur))) in HR. rewrite app_nil_l in HR.
    assert (HL' : level_list k (map clear_combined cur)) by (intros c; by rewrite clear_listed).
    destruct (fold_left (combine_step (var_mask n)) (pairs_of (length cur)) (map clear_combined cur, [])) as [cur' next].
    rewrite <- (length_map clear_combined cur) in HR.
    pose proof (next_level k _ HL' _ HR) as HN. simpl in HN. destruct (add_prime_fold cur' primes Hd) as [Hd' HP'].
    assert (HPk : forall c, listed (fold_left add_prime cur' primes) c <-> prime c /\ (popcount16 (qm_mask c) < S k)%nat).
    { intros c. rewrite HP', HP. split.
      - intros [[Hp Hk]|(x & Hx & Hf' & Hs)]; [split; [done|lia]|]. apply list_elem_of_lookup_1 in Hx as [i Hi].
        pose proof (proj1 (unflagged_prime k _ HL' _ HR i x Hi) Hf') as Hp. split; [by eapply prime_same|].
        destruct (Forall2_lookup_l _ _ _ _ _ (ri_same _ _ _ _ HR) Hi) as (a & Ha & Sa). destruct (listed_at k _ HL' i a Ha) as [_ Pa].
        destruct Hs as [_ <-]. destruct Sa as [_ ->]. lia.
      - intros [Hp Hk]. destruct (decide (popcount16 (qm_mask c) < k)%nat); [by left|]. right.
        assert (Hl : listed (map clear_combined cur) c) by (apply HL'; split; [apply Hp|lia]). destruct Hl as (a & Ha & Sa).
        apply list_elem_of_lookup_1 in Ha as [i Hi]. destruct (Forall2_lookup_r _ _ _ _ _ (ri_same _ _ _ _ HR) Hi) as (x & Hx & Sx). simpl in Hx.
        assert (Sxc : same x c) by (by etrans). exists x. split_and!; [by apply list_elem_of_lookup_2 in Hx| |done].
        apply (unflagged_prime k _ HL' _ HR i x Hx). by apply (prime_same c x); [symmetry|]. }
    destruct next as [|c0 next].
    + exists (fold_left add_prime cur' primes). split_and!; [done|done|]. intros c. rewrite HPk. split; [by intros []|]. intros Hp. split; [done|].
      destruct (decide (popcount16 (qm_mask c) < S k)%nat) as [|Hge]; [done|]. exfalso.
      destruct (implicant_smaller (S k) (popcount16 (qm_mask c) - S k) c) as (c' & Ic' & Pc'); [apply Hp|lia|].
      assert (Hl : listed [] c') by (by apply HN). destruct Hl as (x & Hx & _). by apply elem_of_nil in Hx.
    + apply (IH (S k)); [done| |done|done]. assert (Hl : listed (c0 :: next) c0) by (exists c0; split; [by left|done]).
      apply HN in Hl as [[[_ G _] _] Pc]. apply pop_le in G. lia.
Qed.

(** ** The minterms, and primes above every implicant *)

Context (HS : Forall (within n) S0).

Lemma minterm_implicant m : m ∈ S0 -> implicant (minterm_cube m).
Proof.
  intros Hm. rewrite Forall_forall in HS. split; [split; simpl; [by apply HS|apply within_0|by intros i; rewrite bit_0]|].
  intros m' Hw Hc. assert (m' = m) as ->; [|done]. apply (bits_eq n); [done|by apply HS|]. intros i Hi. apply (Hc i Hi). apply bit_0.
Qed.
Lemma minterm_level : level_list 0 (map minterm_cube S0).
Proof.
  intros c. unfold listed. setoid_rewrite list_elem_of_fmap. split.
  - intros (x & (m & -> & Hm) & Hs). split; [eapply implicant_same; [exact Hs|]; by apply minterm_implicant|]. destruct Hs as [_ <-]. reflexivity.
  - intros [[G H] Hp]. assert (Em : qm_mask c = 0) by (apply pop_0; [apply (within_mono n); [done|apply G]|done]).
    exists (minterm_cube (qm_value c)). split; [|split; simpl; congruence]. exists (qm_value c). split; [done|]. apply H; [apply G|]. apply cov_self.
Qed.
Lemma level_exists k : exists l, level_list k l.
Proof.
  induction k as [|k [l HL]]; [eexists; apply minterm_level|].
  pose proof (round_fold (var_mask n) (map clear_combined l) (pairs_of (length (map clear_combined l))) [] _ (round_start _ l)) as HR.
  eexists. eapply (next_level k (map clear_combined l)); [intros c; by rewrite clear_listed|exact HR].
Qed.
Lemma prime_or_larger c : implicant c -> prime c \/ exists c', implicant c' /\ sub n c c' /\ popcount16 (qm_mask c') = S (popcount16 (qm_mask c)).
Proof.
  intros Ic. destruct (level_exists (popcount16 (qm_mask c))) as [l HL0]. set (k := popcount16 (qm_mask c)) in *.
  assert (HL : level_list k (map clear_combined l)) by (intros x; by rewrite clear_listed).
  pose proof (round_fold (var_mask n) (map clear_combined l) (pairs_of (length (map clear_combined l))) [] _ (round_start _ l)) as HR. rewrite app_nil_l in HR.
  set (st := fold_left _ _ _) in HR. assert (Hl : listed (map clear_combined l) c) by (apply HL; split; done). destruct Hl as (a & Ha & Sa).
  apply list_elem_of_lookup_1 in Ha as [i Hi]. destruct (Forall2_lookup_r _ _ _ _ _ (ri_same _ _ _ _ HR) Hi) as (x & Hx & Sx).
  destruct (qm_combined x) eqn:Ef.
  - right. apply (ri_flag _ _ _ _ HR i x Hx) in Ef as ([i0 j0] & Hin & Ho & [e He]). pose proof He as (a' & b' & d & Ha' & Hb' & Hd & Hm & Em & Ev & ->)%(comb_inv k _ HL).
    destruct (listed_at k _ HL _ _ Ha') as [Ia' Pa']. destruct (listed_at k _ HL _ _ Hb') as [Ib' Pb'].
    assert (Hup : forall u v, implicant u -> implicant v -> bit (qm_mask u) d = false -> qm_mask v = qm_mask u -> qm_value v = Z.lxor (qm_value u) (2 ^ Z.of_nat d) -> u = a ->
      exists c', implicant c' /\ sub n c c' /\ popcount16 (qm_mask c') = S k).
    { intros u v Iu Iv Hu Emu Evu ->. exists (join a d). split_and!; [by eapply join_implicant| |].
      - intros m Hw Hc. apply (sub_join n Hn); [done|]. apply (sub_same c a); [by symmetry|done|done].
      - simpl. rewrite pop_set by (done || lia). f_equal. by apply (listed_at k _ HL i a). }
    simpl in Ho. destruct Ho as [->| ->]; simplify_eq.
    + by apply (Hup a b').
    + apply (Hup a a'); [done|done|by rewrite Em|done| |done]. by rewrite Ev, Z.lxor_assoc, Z.lxor_nilpotent, Z.lxor_0_r.
  - left. apply (prime_same x c); [by etrans|]. by apply (unflagged_prime k _ HL st HR i x Hx).
Qed.
Lemma prime_above c : implicant c -> exists p, prime p /\ sub n c p.
Proof.
  remember (n - popcount16 (qm_mask c))%nat as j eqn:Ej. revert c Ej. induction j as [j IH] using lt_wf_ind. intros c -> Ic.
  destruct (prime_or_larger c Ic) as [Hp|(c' & Ic' & Hs & Pc)]; [exists c; split; [done|by intros m]|].
  assert (Hle : (popcount16 (qm_mask c') <= n)%nat) by (apply pop_le; apply Ic').
  destruct (IH (n - popcount16 (qm_mask c'))%nat ltac:(lia) c' eq_refl Ic') as (p & Hp & Hs'). exists p. split; [done|]. intros m Hm Hc. auto.
Qed.
End Levels.

Lemma qm_primes_spec on dc n : (n <= 16)%nat -> Forall (within n) (on ++ dc) ->
  exists ps, qm_prime_implicants on dc n = Some ps /\ distinct ps /\ forall c, listed ps c <-> prime n (on ++ dc) c.
Proof.
  intros Hn HS. unfold qm_prime_implicants. rewrite <- map_app. apply (rounds_primes n Hn (on ++ dc) 17 0); [by apply minterm_level|lia|apply NoDup_nil_2|].
  intros c. split; [intros (x & Hx & _); by apply elem_of_nil in Hx|lia].
Qed.
(** The primes cover the function, and nothing else. *)
Lemma qm_primes_cover on dc n ps : (n <= 16)%nat -> Forall (within n) (on ++ dc) -> qm_prime_implicants on dc n = Some ps ->
  (forall m, m ∈ on ++ dc -> exists p, p ∈ ps /\ implicant_covers p m = true) /\
  (forall p m, p ∈ ps -> within n m -> implicant_covers p m = true -> m ∈ on ++ dc).
Proof.
  intros Hn HS E. destruct (qm_primes_spec on dc n Hn HS) as (ps' & E' & _ & H). simplify_eq. split.
  - intros m Hm. destruct (prime_above n Hn (on ++ dc) HS (minterm_cube m)) as (p & Hp & Hsub); [by apply minterm_implicant|].
    pose proof Hp as [[Gp _] _]. apply H in Hp as (x & Hx & Sx). exists x. split; [done|].
    assert (Hw : within n m) by (rewrite Forall_forall in HS; auto). assert (Gx : good n x) by (destruct Sx as [E1 E2], Gp; split; rewrite ?E1, ?E2; done).
    apply (covers_cov n Hn); [done|done|]. intros i Hi Hb. destruct Sx as [E1 E2]. rewrite E1. apply (Hsub m Hw); [|done|by rewrite <- E2]. by intros k _ _.
  - intros p m Hp Hw Hc. assert (Hl : listed ps p) by (exists p; split; done). apply H in Hl as [[Gp Ip] _]. apply Ip; [done|]. by apply (covers_cov n Hn).
Qed.

(** C27: for a function of at most sixteen variables the method of Quine and
    McCluskey returns, with the fuel of one round per variable of the sixteen
    and one more, exactly the prime implicants of the function, each once. *)
Theorem primes_are_prime_implicants on dc n : (n <= 16)%nat -> Forall (within n) (on ++ dc) ->
  exists ps, qm_prime_implicants on dc n = Some ps /\ distinct ps /\ forall c, listed ps c <-> prime n (on ++ dc) c.
Proof. apply qm_primes_spec. Qed.

(** The function with the ones 4, 8, 10, 11, 12, 15 and 9, 14 free. *)
Lemma primes_are_prime_implicants_witness :
  exists ps, qm_prime_implicants [4; 8; 10; 11; 12; 15] [9; 14] 4 = Some ps /\ length ps = 4%nat /\ prime 4 [4; 8; 10; 11; 12; 15; 9; 14] (mk_imp 10 5 false).
Proof.
  destruct (primes_are_prime_implicants [4; 8; 10; 11; 12; 15] [9; 14] 4) as (ps & E & _ & H).
  - lia.
  - repeat constructor; vm_compute; done.
  - exists ps. split; [exact E|]. vm_compute in E. injection E as <-. split; [reflexivity|]. apply H. exists (mk_imp 10 5 false). split; [|done].
    rewrite !elem_of_cons. tauto.
Defined.
