(* ===== verification/SynthCover.v ===== *)
(** * SynthCover: covers of a function by its prime implicants

    [qm_exact_minimum_cover], [qm_petrick_minimum_cover] and [qm_greedy_cover]
    of [verilog/digital/pe_synth.h], as they run without a CUDA device.  A cost
    of [SIZE_MAX] says that there is no solution. *)

From Stdlib Require Import ZArith Lia.
From stdpp Require Import base list sorting.
From S2P Require Import Prelude SynthCube SynthPrimes.

(** ** The loop over the set bits of a word

    [x & (x - 1)] clears the lowest set bit, which [__builtin_ctzll] finds, so
    the loop visits the set bits in order. *)

Open Scope Z_scope.

Lemma bit_odd x : bit x 0 = Z.odd x.
Proof. unfold bit. apply Z.bit0_odd. Qed.
Lemma bit_div x d j : bit (x / 2 ^ Z.of_nat d) j = bit x (d + j).
Proof. unfold bit. rewrite <-Z.shiftr_div_pow2 by lia. rewrite Z.shiftr_spec by lia. f_equal. lia. Qed.
Lemma low_zero_divides x d : (forall i, (i < d)%nat -> bit x i = false) -> x mod 2 ^ Z.of_nat d = 0.
Proof.
  intros H. apply Z.bits_inj_0. intros k. destruct (Z.neg_nonneg_cases k) as [Hk|Hk]; [by apply Z.testbit_neg_r|].
  destruct (Z.lt_ge_cases k (Z.of_nat d)); [|by apply Z.mod_pow2_bits_high; lia]. rewrite Z.mod_pow2_bits_low by lia.
  rewrite <-(Z2Nat.id k) by done. apply H. lia.
Qed.

Lemma land_odd a b : Z.land (2 * a + 1) (2 * b + 1) = 2 * Z.land a b + 1.
Proof.
  apply Z.bits_inj'. intros k Hk. rewrite Z.land_spec. destruct (decide (k = 0)) as [->|Hk0]; [by rewrite !Z.testbit_odd_0|].
  replace k with (Z.succ (k - 1)) by lia. by rewrite !Z.testbit_odd_succ, Z.land_spec by lia.
Qed.

(** A word with its lowest set bit at [d]. *)
Definition lowest (x : Z) (d : nat) : Prop := bit x d = true /\ forall i, (i < d)%nat -> bit x i = false.

Lemma lowest_form x d : lowest x d -> exists k, x = 2 ^ Z.of_nat d * (2 * k + 1).
Proof.
  intros [Hd Hl]. exists (x / 2 ^ Z.of_nat d / 2). pose proof (Z.div_mod x (2 ^ Z.of_nat d) ltac:(apply Z.pow_nonzero; lia)) as Hx.
  rewrite (low_zero_divides x d Hl) in Hx. rewrite <-(Nat.add_0_r d), <-bit_div, bit_odd in Hd.
  pose proof (Z.div_mod (x / 2 ^ Z.of_nat d) 2 ltac:(lia)) as Hq. rewrite Zmod_odd, Hd in Hq. lia.
Qed.

Lemma ctzll_lowest x d : lowest x d -> ctzll x = d.
Proof.
  intros [k ->]%lowest_form. unfold ctzll. replace (- (2 ^ Z.of_nat d * (2 * k + 1))) with ((2 * Z.lnot k + 1) * 2 ^ Z.of_nat d) by (unfold Z.lnot; lia).
  rewrite (Z.mul_comm (2 ^ _)), <-!Z.shiftl_mul_pow2, <-Z.shiftl_land, land_odd, Z.land_lnot_diag, Z.shiftl_mul_pow2 by lia.
  replace ((2 * 0 + 1) * 2 ^ Z.of_nat d) with (2 ^ Z.of_nat d) by lia. rewrite Z.log2_pow2 by lia. apply Nat2Z.id.
Qed.

Lemma clear_lowest x d : lowest x d -> forall i, bit (Z.land x (x - 1)) i = bit x i && negb (i =? d)%nat.
Proof.
  intros Hl i. rewrite bit_land. destruct (Nat.lt_ge_cases i d) as [Hi|Hi]; [by rewrite (proj2 Hl i Hi)|].
  destruct (lowest_form x d Hl) as [k Hx]. assert (Hp : 0 < 2 ^ Z.of_nat d) by (apply Z.pow_pos_nonneg; lia).
  replace i with (d + (i - d))%nat by lia. rewrite <-!bit_div.
  replace (x / 2 ^ Z.of_nat d) with (2 * k + 1) by (apply (Z.div_unique_pos _ _ _ 0); lia).
  replace ((x - 1) / 2 ^ Z.of_nat d) with (2 * k) by (apply (Z.div_unique_pos _ _ _ (2 ^ Z.of_nat d - 1)); lia).
  destruct (Nat.eqb_spec (d + (i - d)) d) as [He|He].
  - replace (i - d)%nat with O by lia. rewrite !bit_odd, Z.odd_mul. cbn. by rewrite !andb_false_r.
  - unfold bit. replace (Z.of_nat (i - d)) with (Z.succ (Z.of_nat (i - d) - 1)) by lia.
    rewrite Z.testbit_odd_succ, Z.testbit_even_succ by lia. by rewrite andb_true_r, andb_diag.
Qed.

Lemma filter_lowest x : forall n a d l, List.filter (bit x) (seq a n) = d :: l -> (forall i, (i < a)%nat -> bit x i = false) ->
  lowest x d /\ (a <= d < a + n)%nat /\ List.filter (fun i => bit x i && negb (i =? d)%nat) (seq a n) = l.
Proof.
  induction n as [|n IH]; intros a d l He Hlow; [done|]. cbn [seq List.filter] in *. destruct (bit x a) eqn:Ea; simplify_eq.
  - split; [done|]. split; [lia|]. rewrite Nat.eqb_refl. cbn [andb negb]. apply List.filter_ext_in. intros i Hi%in_seq.
    by rewrite (proj2 (Nat.eqb_neq i d)), andb_true_r by lia.
  - cbn [andb]. destruct (IH (S a) d l He) as (H1 & H2 & H3); [|split; [done|]; split; [lia|done]].
    intros i Hi. destruct (decide (i = a)) as [->|]; [done|]. apply Hlow. lia.
Qed.

Lemma set_bits_loop_spec fuel : forall x, within 64 x -> (length (List.filter (bit x) (seq 0 64)) <= fuel)%nat -> set_bits_loop fuel x = List.filter (bit x) (seq 0 64).
Proof.
  induction fuel as [|fuel IH]; intros x Hx Hf; cbn [set_bits_loop]; [symmetry; apply nil_length_inv; lia|].
  destruct (Z.eqb_spec x 0) as [->|H0].
  { symmetry. clear. generalize (seq 0 64). intros l. induction l as [|a l IHl]; [done|]. cbn [List.filter]. by rewrite bit_0. }
  destruct (List.filter (bit x) (seq 0 64)) as [|d l] eqn:El.
  { exfalso. apply H0. apply (bits_eq 64); [done|apply within_0|]. intros i Hi. rewrite bit_0. apply not_true_iff_false. intros Hb.
    assert (Hin : In i (List.filter (bit x) (seq 0 64))) by (apply filter_In; split; [apply in_seq; lia|done]). by rewrite El in Hin. }
  destruct (filter_lowest x 64 0 d l El) as (Hl & Hd & Hr); [lia|]. rewrite (ctzll_lowest x d Hl).
  assert (Hc : List.filter (bit (Z.land x (x - 1))) (seq 0 64) = l).
  { rewrite <-Hr. apply List.filter_ext. intros i. by apply clear_lowest. }
  rewrite IH; rewrite ?Hc; [done| |cbn in Hf; lia]. apply within_land; [done|]. destruct Hx. lia.
Qed.

Lemma set_bits_spec x : within 64 x -> set_bits x = List.filter (bit x) (seq 0 64).
Proof. intros Hx. apply set_bits_loop_spec; [done|]. rewrite <-(length_seq 64 0) at 2. clear. induction (seq 0 64) as [|a l IH]; cbn; [lia|]. destruct (bit x a); cbn; lia. Qed.

Lemma elem_set_bits x i : within 64 x -> i ∈ set_bits x <-> bit x i = true.
Proof.
  intros Hx. rewrite set_bits_spec, list_elem_of_In, filter_In, in_seq by done. split; [tauto|]. intros Hb. split; [|done].
  destruct (Nat.lt_ge_cases i 64); [lia|]. by rewrite (within_high 64 x i) in Hb.
Qed.

Open Scope Z_scope.

Record qm_solution : Type := mk_sol { qs_pick : list nat; qs_cost : Z }.
Definition no_solution : qm_solution := mk_sol [] SIZE_MAX.

Section Cover.
Context (primes : list qm_implicant) (on : list Z) (var_count : nat) (opt : two_level_options).

Definition covers_m (pi : nat) (m : Z) : bool := match primes !! pi with Some p => implicant_covers p m | None => false end.
Definition covers_of (m : Z) : list nat := List.filter (fun pi => covers_m pi m) (seq 0 (length primes)).
Definition cost_of (pick : list nat) : Z := qm_cover_cost primes pick var_count opt.

(** Mark the minterms that a prime covers. *)
Definition mark_covered (pi : nat) (covered : list bool) : list bool := zip_with (fun c m => c || covers_m pi m) covered on.

(** ** The exact cover *)

(** The candidates of a minterm: how many are left, and the last seen. *)
Fixpoint scan_candidates (picked cand : list nat) (alive last : nat) : nat * nat :=
  match cand with
  | [] => (alive, last)
  | pi :: cand' =>
      if bool_decide (pi ∈ picked) then (2%nat, last)
      else if (1 <? S alive)%nat then (S alive, pi)
      else scan_candidates picked cand' (S alive) pi
  end.

(** One minterm of the loop for essential primes. *)
Definition essential_step (st : list bool * list nat * bool) (mi : nat) : list bool * list nat * bool :=
  let '(covered, picked, changed) := st in
  match covered !! mi, on !! mi with
  | Some false, Some m =>
      let '(alive, last) := scan_candidates picked (covers_of m) 0 0 in
      if (alive =? 1)%nat then (mark_covered last covered, picked ++ [last], true) else st
  | _, _ => st
  end.
Fixpoint essential_loop (fuel : nat) (covered : list bool) (picked : list nat) : option (list bool * list nat) :=
  match fuel with
  | O => None
  | S fuel' =>
      let '(covered', picked', changed) := fold_left essential_step (seq 0 (length on)) (covered, picked, false) in
      if changed then essential_loop fuel' covered' picked' else Some (covered', picked')
  end.

(** The search, on an explicit stack. *)
Record frame : Type := mk_frame { fr_pick_mark : nat; fr_cov_mark : nat; fr_next_m : nat; fr_option_i : nat; fr_inited : bool }.
Record search : Type := mk_search {
  se_picked : list nat;
  se_selected : list bool;
  se_covered : list bool;
  se_trail : list nat;
  se_stack : list frame;  (** the top first *)
  se_best : qm_solution
}.

Definition undo_to (pick_mark cov_mark : nat) (s : search) : search :=
  mk_search (take pick_mark (se_picked s))
    (fold_left (fun sel pi => <[pi := false]> sel) (drop pick_mark (se_picked s)) (se_selected s))
    (fold_left (fun cov mj => <[mj := false]> cov) (drop cov_mark (se_trail s)) (se_covered s))
    (take cov_mark (se_trail s)) (se_stack s) (se_best s).
Definition pop_frame_of (f : frame) (s : search) : search :=
  let s' := undo_to (fr_pick_mark f) (fr_cov_mark f) s in
  mk_search (se_picked s') (se_selected s') (se_covered s') (se_trail s') (tail (se_stack s)) (se_best s').
Definition set_top (f : frame) (s : search) : search :=
  mk_search (se_picked s) (se_selected s) (se_covered s) (se_trail s) (f :: tail (se_stack s)) (se_best s).
Definition first_uncovered (covered : list bool) : option nat := fst <$> list_find (fun c => c = false) covered.

(** Entering a frame: the bound, then the next minterm, or a solution. *)
Definition enter_frame (f : frame) (s : search) : search :=
  let cost := cost_of (se_picked s) in
  if negb (qs_cost (se_best s) =? SIZE_MAX) && (qs_cost (se_best s) <=? cost) then pop_frame_of f s
  else
    match first_uncovered (se_covered s) with
    | None =>
        let best := if cost <? qs_cost (se_best s) then mk_sol (se_picked s) cost else se_best s in
        pop_frame_of f (mk_search (se_picked s) (se_selected s) (se_covered s) (se_trail s) (se_stack s) best)
    | Some m => set_top (mk_frame (fr_pick_mark f) (fr_cov_mark f) m 0 true) s
    end.

(** The newly covered minterms, in order. *)
Definition newly_covered (pi : nat) (covered : list bool) : list nat :=
  List.filter (fun mj => negb (nth mj covered true) && match on !! mj with Some m => covers_m pi m | None => false end) (seq 0 (length on)).

(** The next option of a frame. *)
Definition next_option (f : frame) (s : search) : search :=
  match on !! fr_next_m f ≫= fun m => covers_of m !! fr_option_i f with
  | None => pop_frame_of f s
  | Some pi =>
      let f' := mk_frame (fr_pick_mark f) (fr_cov_mark f) (fr_next_m f) (S (fr_option_i f)) true in
      let fresh := negb (nth pi (se_selected s) true) in
      mk_search (if fresh then se_picked s ++ [pi] else se_picked s) (if fresh then <[pi := true]> (se_selected s) else se_selected s)
        (mark_covered pi (se_covered s)) (se_trail s ++ newly_covered pi (se_covered s))
        (mk_frame (length (se_picked s)) (length (se_trail s)) 0 0 false :: f' :: tail (se_stack s)) (se_best s)
  end.
Fixpoint search_loop (fuel : nat) (s : search) : option search :=
  match se_stack s with
  | [] => Some s
  | f :: _ =>
      match fuel with
      | O => None
      | S fuel' => search_loop fuel' (if fr_inited f then next_option f s else enter_frame f s)
      end
  end.

Definition qm_exact_minimum_cover (fuel : nat) : option qm_solution :=
  match on with
  | [] => Some (mk_sol [] 0)
  | _ =>
      if existsb (fun m => (length (covers_of m) =? 0)%nat) on then Some no_solution
      else
        match essential_loop (S (length on)) (replicate (length on) false) [] with
        | None => None
        | Some (covered, picked) =>
            let best := mk_sol picked (cost_of picked) in
            if forallb id covered then Some best
            else
              let selected := fold_left (fun sel pi => <[pi := true]> sel) picked (replicate (length primes) false) in
              se_best <$> search_loop fuel (mk_search picked selected covered [] [mk_frame (length picked) 0 0 0 false] best)
        end
  end.

(** ** Petrick's method *)

(** How many primes cover a minterm, and the last seen; stops at two. *)
Fixpoint count_covers (m : Z) (pis : list nat) (cnt last : nat) : nat * nat :=
  match pis with
  | [] => (cnt, last)
  | pi :: pis' =>
      if negb (covers_m pi m) then count_covers m pis' cnt last
      else if (1 <? S cnt)%nat then (S cnt, pi)
      else count_covers m pis' (S cnt) pi
  end.

(** One minterm of the loop for essential primes: the picks of a failure, or
    the new state. *)
Definition petrick_step (st : list nat + list bool * list nat * bool) (mi : nat) : list nat + list bool * list nat * bool :=
  match st with
  | inl picks => inl picks
  | inr (covered, picks, changed) =>
      match covered !! mi, on !! mi with
      | Some false, Some m =>
          let '(cnt, last) := count_covers m (seq 0 (length primes)) 0 0 in
          if (cnt =? 0)%nat then inl picks
          else if (cnt =? 1)%nat then inr (mark_covered last covered, if bool_decide (last ∈ picks) then picks else picks ++ [last], true)
          else st
      | _, _ => st
      end
  end.
Fixpoint petrick_essentials (fuel : nat) (covered : list bool) (picks : list nat) : option (list nat + list bool * list nat) :=
  match fuel with
  | O => None
  | S fuel' =>
      match fold_left petrick_step (seq 0 (length on)) (inr (covered, picks, false)) with
      | inl picks' => Some (inl picks')
      | inr (covered', picks', true) => petrick_essentials fuel' covered' picks'
      | inr (covered', picks', false) => Some (inr (covered', picks'))
      end
  end.

Definition remaining_of (covered : list bool) : list Z := omap (fun cm : bool * Z => if cm.1 then None else Some cm.2) (zip covered on).

(** The picks of a term: the essential ones, then its bits. *)
Definition term_pick (picks : list nat) (bits : Z) : list nat := picks ++ List.filter (bit bits) (seq 0 (length primes)).
Definition bit_cost (picks : list nat) (bits : Z) : Z := cost_of (term_pick picks bits).

Definition clause_of (picks : list nat) (m : Z) : Z :=
  fold_left (fun clause pi => if bool_decide (pi ∈ picks) then clause else if covers_m pi m then Z.lor clause (Z.shiftl 1 (Z.of_nat pi)) else clause)
    (seq 0 (length primes)) 0.

Definition max_terms : Z := 16384.
Definition expand_terms (clause : Z) (terms : list Z) : list Z := t ← terms; (fun b => Z.lor t (Z.shiftl 1 (Z.of_nat b))) <$> set_bits clause.

(** [std::unique] *)
Fixpoint unique_from (x : Z) (l : list Z) : list Z :=
  match l with
  | [] => [x]
  | y :: l' => if x =? y then unique_from x l' else x :: unique_from y l'
  end.
Definition unique (l : list Z) : list Z := match l with [] => [] | x :: l' => unique_from x l' end.
Definition sort_unique (l : list Z) : list Z := unique (merge_sort Z.le l).

(** The terms [j] after [i]: drop [j], or drop [i] and leave the loop. *)
Fixpoint dominate (next cost : list Z) (i : nat) (js : list nat) (drop : list bool) : list bool :=
  match js with
  | [] => drop
  | j :: js' =>
      if nth j drop true then dominate next cost i js' drop
      else
        let a := nth i next 0 in let b := nth j next 0 in
        let ci := nth i cost 0 in let cj := nth j cost 0 in
        if Z.land a b =? a then dominate next cost i js' (if ci <=? cj then <[j := true]> drop else drop)
        else if Z.land a b =? b then (if cj <=? ci then <[i := true]> drop else dominate next cost i js' drop)
        else dominate next cost i js' drop
  end.
Definition dominate_step (next cost : list Z) (drop : list bool) (i : nat) : list bool :=
  if nth i drop true then drop else dominate next cost i (seq (S i) (length next - S i)) drop.
Definition dropped (picks : list nat) (next : list Z) : list bool :=
  fold_left (dominate_step next (map (bit_cost picks) next)) (seq 0 (length next)) (replicate (length next) false).
Definition prune_terms (picks : list nat) (next : list Z) : list Z :=
  omap (fun dt : bool * Z => if dt.1 then None else Some dt.2) (zip (dropped picks next) next).

(** The product of the clauses; [None] is the return with a cost of
    [SIZE_MAX]. *)
Fixpoint petrick_terms (picks : list nat) (remaining : list Z) (terms : list Z) : option (list Z) :=
  match remaining with
  | [] => Some terms
  | m :: remaining' =>
      let clause := clause_of picks m in
      if clause =? 0 then None
      else
        let next := expand_terms clause terms in
        if max_terms <? Z.of_nat (length next) then None
        else
          match prune_terms picks (sort_unique next) with
          | [] => None
          | pruned => petrick_terms picks remaining' pruned
          end
  end.

(** The cheapest term, the first of equals. *)
Definition best_term (picks : list nat) (terms : list Z) : Z * Z :=
  fold_left (fun best t => let c := bit_cost picks t in if c <? best.2 then (t, c) else best) terms (0, SIZE_MAX).

Definition qm_petrick_minimum_cover : option qm_solution :=
  match on with
  | [] => Some (mk_sol [] 0)
  | _ =>
      if (length primes =? 0)%nat || (64 <? length primes)%nat then Some no_solution
      else
        match petrick_essentials (S (length on)) (replicate (length on) false) [] with
        | None => None
        | Some (inl picks) => Some (mk_sol picks SIZE_MAX)
        | Some (inr (covered, picks)) =>
            match remaining_of covered with
            | [] => Some (mk_sol picks (cost_of picks))
            | remaining =>
                match petrick_terms picks remaining [0] with
                | None => Some (mk_sol picks SIZE_MAX)
                | Some terms =>
                    let '(best_bits, best_cost) := best_term picks terms in
                    if best_cost =? SIZE_MAX then Some (mk_sol picks SIZE_MAX)
                    else Some (mk_sol (term_pick picks best_bits) (cost_of (term_pick picks best_bits)))
                end
            end
        end
  end.

(** ** The greedy cover *)

(** The rows of the cover matrix: a bit per minterm, in blocks of 64. *)
Definition blocks : nat := Z.to_nat ((Z.of_nat (length on) + 63) / 64).
Definition block_of (mi : nat) : nat := Z.to_nat (Z.of_nat mi / 64).
Definition bit_of (mi : nat) : nat := Z.to_nat (Z.of_nat mi mod 64).
Definition set_block_bit (mi : nat) (row : list Z) : list Z := alter (fun w => Z.lor w (Z.shiftl 1 (Z.of_nat (bit_of mi)))) (block_of mi) row.
Definition block_bit (row : list Z) (mi : nat) : bool := bit (nth (block_of mi) row 0) (bit_of mi).
Definition cov_row (pi : nat) : list Z :=
  fold_left (fun row mi => if match on !! mi with Some m => covers_m pi m | None => false end then set_block_bit mi row else row)
    (seq 0 (length on)) (replicate blocks 0).
Definition prime_cost (pi : nat) : Z := cost_of [pi].

Definition not64 (x : Z) : Z := Z.lxor x (2 ^ 64 - 1).
Definition uncovered_init : list Z :=
  let full := replicate blocks (2 ^ 64 - 1) in
  let rem := Z.of_nat (length on) mod 64 in
  if rem =? 0 then full else <[(blocks - 1)%nat := Z.shiftl 1 rem - 1]> full.
Definition andnot (unc row : list Z) : list Z := zip_with (fun u r => Z.land u (not64 r)) unc row.
Definition gain_of (row unc : list Z) : nat := fold_left (fun g (ru : Z * Z) => (g + popcount64 (Z.land ru.1 ru.2))%nat) (zip row unc) 0%nat.

(** The minterms of a row, in the order in which the loops visit them. *)
Definition row_members (row : list Z) : list nat :=
  List.filter (fun mi => (mi <? length on)%nat)
    (bw ← zip (seq 0 (length row)) row; (fun b => (bw.1 * 64 + b)%nat) <$> set_bits bw.2).

(** [cover_count] and [last_prime] *)
Definition cover_counts : list (nat * option nat) :=
  fold_left (fun acc pi => fold_left (fun acc mi => alter (fun cl : nat * option nat => (S cl.1, Some pi)) mi acc) (row_members (cov_row pi)) acc)
    (seq 0 (length primes)) (replicate (length on) (0%nat, None)).

Record greedy : Type := mk_greedy { g_unc : list Z; g_picked : list bool; g_pick : list nat }.
Definition apply_pick (pi : nat) (g : greedy) : greedy :=
  if nth pi (g_picked g) true then g
  else mk_greedy (andnot (g_unc g) (cov_row pi)) (<[pi := true]> (g_picked g)) (g_pick g ++ [pi]).

Definition greedy_step (counts : list (nat * option nat)) (st : greedy * bool) (mi : nat) : greedy * bool :=
  if negb (block_bit (g_unc st.1) mi) then st
  else
    match counts !! mi with
    | Some (1%nat, Some pi) => (apply_pick pi st.1, true)
    | _ => st
    end.
Fixpoint greedy_essentials (fuel : nat) (counts : list (nat * option nat)) (g : greedy) : option greedy :=
  match fuel with
  | O => None
  | S fuel' =>
      let '(g', changed) := fold_left (greedy_step counts) (seq 0 (length on)) (g, false) in
      if changed then greedy_essentials fuel' counts g' else Some g'
  end.
Definition any_uncovered (unc : list Z) : bool := existsb (fun w => negb (w =? 0)) unc.

(** The candidates, and the best of them by score, gain and cost. *)
Record cand_t : Type := mk_cand { cd_pi : nat; cd_gain : nat; cd_cost : Z; cd_score : Z }.
Definition score_of (gain : nat) (pi : nat) : Z := Z.of_nat gain * 64 - prime_cost pi.
Definition better (a b : cand_t) : bool :=
  (cd_score b <? cd_score a) ||
  ((cd_score a =? cd_score b) && ((cd_gain b <? cd_gain a)%nat || ((cd_gain a =? cd_gain b)%nat && (cd_cost a <? cd_cost b)))).
Definition scan_prime (g : greedy) (st : list cand_t * option cand_t) (pi : nat) : list cand_t * option cand_t :=
  if nth pi (g_picked g) true then st
  else
    let gain := gain_of (cov_row pi) (g_unc g) in
    if (gain =? 0)%nat then st
    else
      let c := mk_cand pi gain (prime_cost pi) (score_of gain pi) in
      (if (length st.1 <? 64)%nat then st.1 ++ [c] else st.1,
       match st.2 with
       | None => Some c
       | Some b => if better c b then Some c else Some b
       end).

(** The best score of a second pick among the first candidates. *)
Definition next_score (cands : list cand_t) (p : nat) (tmp : list Z) : option Z :=
  fold_left (fun best q =>
      if (cd_pi q =? p)%nat then best
      else
        let g2 := gain_of (cov_row (cd_pi q)) tmp in
        if (g2 =? 0)%nat then best
        else
          let s2 := score_of g2 (cd_pi q) in
          match best with Some b => if b <? s2 then Some s2 else best | None => Some s2 end)
    cands None.
Definition lookahead_k : nat := 16.
Definition lookahead (sorted : list cand_t) (unc : list Z) (best_pi : nat) : nat :=
  let top := take lookahead_k sorted in
  fst (fold_left (fun (st : nat * option Z) c =>
      let combined := cd_score c + from_option id 0 (next_score top (cd_pi c) (andnot unc (cov_row (cd_pi c)))) in
      match st.2 with
      | Some b => if b <? combined then (cd_pi c, Some combined) else st
      | None => (cd_pi c, Some combined)
      end)
    top (best_pi, None)).

(** [std::sort] leaves the order of equal candidates open. *)
Context (sort_cands : list cand_t -> list cand_t).

Definition greedy_choice (g : greedy) : option nat :=
  let '(cands, best) := fold_left (scan_prime g) (seq 0 (length primes)) ([], None) in
  match best with
  | None => None
  | Some b => Some (if (2 <=? length cands)%nat then lookahead (sort_cands cands) (g_unc g) (cd_pi b) else cd_pi b)
  end.

(** The picks of a failure, or the state with nothing left to cover. *)
Fixpoint greedy_loop (fuel : nat) (g : greedy) : option (list nat + greedy) :=
  if any_uncovered (g_unc g) then
    match fuel with
    | O => None
    | S fuel' =>
        match greedy_choice g with
        | None => Some (inl (g_pick g))
        | Some pi => greedy_loop fuel' (apply_pick pi g)
        end
    end
  else Some (inr g).

(** The cleanup: how often each minterm is covered, up to the largest 16-bit
    number. *)
Definition add_counts (cnt : list Z) (pi : nat) : list Z :=
  fold_left (fun cnt mi => alter (fun v => if v =? 65535 then v else v + 1) mi cnt) (row_members (cov_row pi)) cnt.
Definition sub_counts (cnt : list Z) (pi : nat) : list Z :=
  fold_left (fun cnt mi => alter (fun v => if v =? 0 then v else v - 1) mi cnt) (row_members (cov_row pi)) cnt.
Definition redundant_row (cnt : list Z) (pi : nat) : bool := forallb (fun mi => 1 <? nth mi cnt 0) (row_members (cov_row pi)).
(** [sol.pick[i] = sol.pick.back(); sol.pick.pop_back();] *)
Definition swap_remove {A} (i : nat) (pick : list A) : list A :=
  match last pick with
  | Some x => take (length pick - 1) (<[i := x]> pick)
  | None => pick
  end.
Fixpoint cleanup (fuel : nat) (i : nat) (cnt : list Z) (pick : list nat) : option (list nat) :=
  match pick !! i with
  | None => Some pick
  | Some pi =>
      match fuel with
      | O => None
      | S fuel' => if redundant_row cnt pi then cleanup fuel' i (sub_counts cnt pi) (swap_remove i pick) else cleanup fuel' (S i) cnt pick
      end
  end.

Definition qm_greedy_cover : option qm_solution :=
  match on with
  | [] => Some (mk_sol [] 0)
  | _ =>
      match greedy_essentials (S (length on)) cover_counts (mk_greedy uncovered_init (replicate (length primes) false) []) with
      | None => None
      | Some g =>
          match greedy_loop (S (length primes)) g with
          | None => None
          | Some (inl pick) => Some (mk_sol pick SIZE_MAX)
          | Some (inr g') =>
              match cleanup (length (g_pick g')) 0 (fold_left add_counts (g_pick g') (replicate (length on) 0)) (g_pick g') with
              | None => None
              | Some pick => Some (mk_sol pick (cost_of pick))
              end
          end
      end
  end.
End Cover.
