(* ===== verification/SynthCoverClaims.v ===== *)
(** * SynthCoverClaims: the exact cover and Petrick's method

    What [qm_exact_minimum_cover] returns, and that [qm_petrick_minimum_cover]
    returns a cover of minimal cost. *)

From Stdlib Require Import ZArith Lia.
From stdpp Require Import base list sets sorting.
From S2P Require Import Prelude SynthCube SynthPrimes SynthPrimesClaims SynthCover.

(** ** Costs of covers and the essential primes

    The cost of a cover does not depend on its order and does not fall when
    cubes are added; the two loops that pick the essential primes end, and pick
    the primes that alone cover some minterm. *)

Open Scope Z_scope.

(** ** Costs *)

Lemma sum_of_acc {A} (f : A -> Z) l : forall a, fold_left (fun s x => s + f x) l a = a + sum_of f l.
Proof. unfold sum_of. induction l as [|x l IH]; intros a; cbn [fold_left]; [lia|]. rewrite (IH (a + f x)), (IH (0 + f x)). lia. Qed.
Lemma sum_of_cons {A} (f : A -> Z) x l : sum_of f (x :: l) = f x + sum_of f l.
Proof. unfold sum_of at 1. simpl. apply sum_of_acc. Qed.
Lemma sum_of_app {A} (f : A -> Z) l k : sum_of f (l ++ k) = sum_of f l + sum_of f k.
Proof. induction l as [|x l IH]; [reflexivity|]. rewrite <-app_comm_cons, !sum_of_cons, IH. lia. Qed.
Lemma sum_of_perm {A} (f : A -> Z) l k : l ≡ₚ k -> sum_of f l = sum_of f k.
Proof. induction 1; rewrite ?sum_of_cons; lia. Qed.
Lemma sum_of_bound {A} (f : A -> Z) l c : (forall x, 0 <= f x <= c) -> 0 <= sum_of f l <= c * Z.of_nat (length l).
Proof. intros Hf. induction l as [|x l IH]; [unfold sum_of; simpl; lia|]. rewrite sum_of_cons. cbn [length]. pose proof (Hf x). nia. Qed.

Lemma filter_length_le {A} (f : A -> bool) l : (length (List.filter f l) <= length l)%nat.
Proof. induction l as [|x l IH]; simpl; [lia|]. destruct (f x); simpl; lia. Qed.
Lemma filter_length_mono {A} (f g : A -> bool) l : (forall x, f x = true -> g x = true) -> (length (List.filter f l) <= length (List.filter g l))%nat.
Proof.
  intros Hfg. induction l as [|x l IH]; simpl; [lia|].
  destruct (f x) eqn:E; [rewrite (Hfg x E); simpl; lia|]. destruct (g x); simpl; lia.
Qed.

Definition weights_ok (opt : two_level_options) : Prop := 0 <= not_w opt < 65536 /\ 0 <= and_w opt < 65536 /\ 0 <= or_w opt < 65536.

Lemma neg_used_perm l k v : l ≡ₚ k -> neg_used l v = neg_used k v.
Proof. intros HP. apply eq_true_iff_eq. unfold neg_used. rewrite !existsb_exists. setoid_rewrite <-list_elem_of_In. by setoid_rewrite HP. Qed.

Lemma cover_cost_perm l k n opt : l ≡ₚ k -> two_level_cover_cost l n opt = two_level_cover_cost k n opt.
Proof.
  intros HP. unfold two_level_cover_cost. destruct (literal_count opt); [by apply sum_of_perm|].
  rewrite (sum_of_perm _ l k HP), (Permutation_length HP).
  by rewrite (List.filter_ext (neg_used l) (neg_used k) (fun v => neg_used_perm l k v HP)).
Qed.

Lemma cover_cost_app l k n opt : weights_ok opt -> two_level_cover_cost l n opt <= two_level_cover_cost (l ++ k) n opt.
Proof.
  intros (Hn & Ha & Ho). unfold two_level_cover_cost.
  assert (Hpos : forall f : qm_implicant -> nat, 0 <= sum_of (fun x => Z.of_nat (f x)) k).
  { intros f. clear. induction k as [|x k IH]; [done|]. rewrite sum_of_cons. lia. }
  destruct (literal_count opt); rewrite sum_of_app; [pose proof (Hpos (fun imp => implicant_literals imp n)); lia|].
  pose proof (Hpos (fun imp => (cube_lits n imp - 1)%nat)).
  assert (Hneg : (length (List.filter (neg_used l) (seq 0 n)) <= length (List.filter (neg_used (l ++ k)) (seq 0 n)))%nat).
  { apply filter_length_mono. intros v Hv. unfold neg_used in *. by rewrite existsb_app, Hv. }
  rewrite length_app. nia.
Qed.

Lemma cover_cost_bound l n opt : weights_ok opt -> (n <= 16)%nat -> 0 <= two_level_cover_cost l n opt <= 65536 * 48 * (1 + Z.of_nat (length l)).
Proof.
  intros (Hn & Ha & Ho) H16. unfold two_level_cover_cost.
  pose proof (sum_of_bound (fun imp => Z.of_nat (implicant_literals imp n)) l 16) as H1.
  pose proof (sum_of_bound (fun imp => Z.of_nat (cube_lits n imp - 1)) l 16) as H2.
  assert (Hs : (length (List.filter (neg_used l) (seq 0 n)) <= 16)%nat) by (pose proof (filter_length_le (neg_used l) (seq 0 n)); rewrite length_seq in *; lia).
  assert (0 <= sum_of (fun imp => Z.of_nat (implicant_literals imp n)) l <= 16 * Z.of_nat (length l)).
  { apply H1. intros x. unfold implicant_literals, popcount16. pose proof (filter_length_le (bit (Z.land (not16 (qm_mask x)) (ones n))) (seq 0 16)). rewrite length_seq in *. lia. }
  assert (0 <= sum_of (fun imp => Z.of_nat (cube_lits n imp - 1)) l <= 16 * Z.of_nat (length l)).
  { apply H2. intros x. unfold cube_lits. pose proof (filter_length_le (fun v => negb (bit (qm_mask x) v)) (seq 0 n)). rewrite length_seq in *. lia. }
  clear H1 H2. destruct (literal_count opt); [lia|].
  generalize dependent (sum_of (fun imp => Z.of_nat (cube_lits n imp - 1)) l). intros s Hs2.
  generalize dependent (length (List.filter (neg_used l) (seq 0 n))). intros q Hq.
  assert (not_w opt * Z.of_nat q <= 65536 * 16) by nia. assert (and_w opt * s <= 65536 * (16 * Z.of_nat (length l))) by nia.
  assert (or_w opt * Z.of_nat (length l - 1) <= 65536 * Z.of_nat (length l)) by nia.
  assert (0 <= not_w opt * Z.of_nat q /\ 0 <= and_w opt * s /\ 0 <= or_w opt * Z.of_nat (length l - 1)) by nia. lia.
Qed.

(** ** Picks *)

Section Picks.
Context (primes : list qm_implicant) (on : list Z) (n : nat) (opt : two_level_options).
#[local] Abbreviation covers_m := (covers_m primes).
#[local] Abbreviation covers_of := (covers_of primes).
#[local] Abbreviation cost_of := (cost_of primes n opt).
#[local] Abbreviation mark_covered := (mark_covered primes on).

(** Some pick covers the minterm. *)
Definition hit (pick : list nat) (m : Z) : bool := existsb (fun pi => covers_m pi m) pick.
Definition is_cover (pick : list nat) : Prop := forall m, m ∈ on -> hit pick m = true.
Definition essential (pi : nat) : Prop := exists m, m ∈ on /\ covers_of m = [pi].

Lemma hit_true pick m : hit pick m = true <-> exists pi, pi ∈ pick /\ covers_m pi m = true.
Proof. unfold hit. rewrite existsb_exists. by setoid_rewrite list_elem_of_In. Qed.
Lemma hit_false pick m : hit pick m = false <-> forall pi, pi ∈ pick -> covers_m pi m = false.
Proof.
  split.
  - intros Hh pi Hpi. apply not_true_iff_false. intros Hc. apply not_true_iff_false in Hh. apply Hh, hit_true. eauto.
  - intros Ha. apply not_true_iff_false. rewrite hit_true. intros (pi & Hpi & Hc). rewrite (Ha pi Hpi) in Hc. done.
Qed.
Lemma hit_app p q m : hit (p ++ q) m = hit p m || hit q m.
Proof. apply existsb_app. Qed.
Lemma covers_m_lt pi m : covers_m pi m = true -> (pi < length primes)%nat.
Proof. unfold SynthCover.covers_m. destruct (primes !! pi) eqn:E; [|done]. intros _. by apply lookup_lt_Some in E. Qed.
Lemma elem_covers_of pi m : pi ∈ covers_of m <-> covers_m pi m = true.
Proof.
  unfold SynthCover.covers_of. rewrite list_elem_of_In, filter_In, <-list_elem_of_In, elem_of_seq. split; [tauto|].
  intros Hc. split; [|done]. apply covers_m_lt in Hc. lia.
Qed.
Lemma covers_of_single pi m q : covers_of m = [pi] -> covers_m q m = true -> q = pi.
Proof. intros Hs Hq. apply elem_covers_of in Hq. rewrite Hs in Hq. by apply list_elem_of_singleton in Hq. Qed.
Lemma covers_of_single_covers pi m : covers_of m = [pi] -> covers_m pi m = true.
Proof. intros Hs. apply elem_covers_of. rewrite Hs. constructor. Qed.

Lemma cost_of_perm p q : p ≡ₚ q -> cost_of p = cost_of q.
Proof.
  intros HP. unfold SynthCover.cost_of, qm_cover_cost. apply cover_cost_perm. unfold picked_cubes.
  induction HP as [|x l l' _ IH|x y l|l l' l'' _ IH1 _ IH2]; cbn.
  - done.
  - destruct (primes !! x); [by constructor|done].
  - destruct (primes !! x), (primes !! y); try done. constructor.
  - by etrans.
Qed.
Lemma cost_of_app p q : weights_ok opt -> cost_of p <= cost_of (p ++ q).
Proof. intros Hw. unfold SynthCover.cost_of, qm_cover_cost, picked_cubes. rewrite omap_app. by apply cover_cost_app. Qed.
Lemma cost_of_submseteq p q : weights_ok opt -> p ⊆+ q -> cost_of p <= cost_of q.
Proof. intros Hw [k Hk]%submseteq_Permutation. rewrite (cost_of_perm q _ Hk). by apply cost_of_app. Qed.
Lemma essential_in_cover pi pick : essential pi -> is_cover pick -> pi ∈ pick.
Proof. intros (m & Hm & Hs) Hc. apply Hc, hit_true in Hm as (q & Hq & Hqm). by rewrite <-(covers_of_single _ _ _ Hs Hqm). Qed.
Lemma essentials_cost pick pick' : weights_ok opt -> NoDup pick -> Forall essential pick -> is_cover pick' -> cost_of pick <= cost_of pick'.
Proof.
  intros Hw Hnd Hes Hc. apply cost_of_submseteq; [done|]. apply NoDup_submseteq; [done|]. intros pi Hpi.
  rewrite Forall_forall in Hes. by apply essential_in_cover; [apply Hes|].
Qed.
Lemma cost_of_nil : cost_of [] = 0.
Proof.
  unfold SynthCover.cost_of, qm_cover_cost, two_level_cover_cost. cbn [picked_cubes omap list_omap length]. destruct (literal_count opt); [done|].
  assert (E : List.filter (neg_used []) (seq 0 n) = []) by (induction (seq 0 n) as [|v l IH]; [done|]; exact IH). rewrite E. cbn. lia.
Qed.
Lemma picked_cubes_length p : (length (picked_cubes primes p) <= length p)%nat.
Proof. unfold picked_cubes. induction p as [|x p IH]; cbn; [lia|]. destruct (primes !! x); cbn; lia. Qed.
Lemma cost_of_bound p : weights_ok opt -> (n <= 16)%nat -> Z.of_nat (length p) <= 2 ^ 40 -> 0 <= cost_of p < SIZE_MAX.
Proof.
  intros Hw Hn Hp. pose proof (cover_cost_bound (picked_cubes primes p) n opt Hw Hn) as Hb. pose proof (picked_cubes_length p).
  unfold SynthCover.cost_of, qm_cover_cost, SIZE_MAX. lia.
Qed.

(** ** The essential primes *)

Lemma scan_candidates_eq picked cand : scan_candidates picked cand 0 0 =
  match cand with
  | [] => (0, 0)
  | [p] => if bool_decide (p ∈ picked) then (2, 0) else (1, p)
  | p :: q :: _ => if bool_decide (p ∈ picked) then (2, 0) else if bool_decide (q ∈ picked) then (2, p) else (2, q)
  end%nat.
Proof. destruct cand as [|p [|q cand]]; cbn; [done| |]; destruct (bool_decide (p ∈ picked)); try done; by destruct (bool_decide (q ∈ picked)). Qed.

Lemma mark_covered_hit picked pi : mark_covered pi (map (hit picked) on) = map (hit (picked ++ [pi])) on.
Proof.
  unfold SynthCover.mark_covered. induction on as [|m l IH]; cbn [map zip_with]; [done|]. f_equal; [|done].
  rewrite hit_app. cbn. by rewrite orb_false_r.
Qed.

(** What the loop keeps of its picks. *)
Definition ess_inv (picked : list nat) : Prop := NoDup picked /\ Forall essential picked.

Lemma essential_step_eq picked changed mi m : on !! mi = Some m -> ess_inv picked ->
  essential_step primes on (map (hit picked) on, picked, changed) mi =
  match covers_of m with
  | [pi] => if bool_decide (pi ∈ picked) then (map (hit picked) on, picked, changed) else (map (hit (picked ++ [pi])) on, picked ++ [pi], true)
  | _ => (map (hit picked) on, picked, changed)
  end.
Proof.
  intros Hm [Hnd Hes]. unfold essential_step. rewrite list_lookup_fmap, Hm. cbn [fmap option_fmap option_map].
  rewrite scan_candidates_eq. destruct (hit picked m) eqn:Eh.
  - destruct (covers_of m) as [|pi [|q cs]] eqn:Ec; try done. apply hit_true in Eh as (p & Hp & Hc).
    rewrite (covers_of_single _ _ _ Ec Hc) in Hp. by rewrite bool_decide_true.
  - destruct (covers_of m) as [|pi [|q cs]] eqn:Ec; [done| |].
    + destruct (bool_decide (pi ∈ picked)); [done|]. cbn. by rewrite mark_covered_hit.
    + by repeat case_bool_decide.
Qed.

Lemma essential_step_inv picked changed mi m : on !! mi = Some m -> ess_inv picked ->
  exists picked' changed', essential_step primes on (map (hit picked) on, picked, changed) mi = (map (hit picked') on, picked', changed') /\
    ess_inv picked' /\ picked ⊆ picked' /\ (forall pi, covers_of m = [pi] -> pi ∈ picked').
Proof.
  intros Hm Hi. rewrite (essential_step_eq _ _ _ _ Hm Hi). destruct (covers_of m) as [|pi [|q cs]] eqn:Ec.
  1, 3: by exists picked, changed.
  case_bool_decide as Hp.
  - exists picked, changed. split; [done|]. split; [done|]. split; [done|]. by intros ? [= <-].
  - exists (picked ++ [pi]), true. split; [done|]. destruct Hi as [Hnd Hes]. split; [|split; [set_solver|intros ? [= <-]; set_solver]].
    split; [apply NoDup_app; split; [done|]; split; [intros x Hx [= ->]%list_elem_of_singleton; done|apply NoDup_singleton]|].
    apply Forall_app. split; [done|]. constructor; [|done]. exists m. split; [by eapply list_elem_of_lookup_2|done].
Qed.

Lemma essential_fold mis : forall picked changed, Forall (fun mi => (mi < length on)%nat) mis -> ess_inv picked ->
  exists picked' changed', fold_left (essential_step primes on) mis (map (hit picked) on, picked, changed) = (map (hit picked') on, picked', changed') /\
    ess_inv picked' /\ picked ⊆ picked' /\ (forall mi m pi, mi ∈ mis -> on !! mi = Some m -> covers_of m = [pi] -> pi ∈ picked').
Proof.
  induction mis as [|mi mis IH]; intros picked changed Hmis Hi; cbn [fold_left].
  - exists picked, changed. split; [done|]. split; [done|]. split; [done|]. intros ? ? ? Hin. by apply not_elem_of_nil in Hin.
  - apply Forall_cons in Hmis as [[m Hm]%lookup_lt_is_Some_2 Hmis].
    destruct (essential_step_inv picked changed mi m Hm Hi) as (p1 & c1 & -> & Hi1 & Hs1 & He1).
    destruct (IH p1 c1 Hmis Hi1) as (p2 & c2 & -> & Hi2 & Hs2 & He2). exists p2, c2. split; [done|]. split; [done|]. split; [set_solver|].
    intros mj m' pi [->|Hin]%elem_of_cons Hm' Hc; [|by eapply He2]. rewrite Hm in Hm'. simplify_eq. set_solver.
Qed.

Lemma essential_fold_idle picked mis : ess_inv picked -> (forall m pi, m ∈ on -> covers_of m = [pi] -> pi ∈ picked) -> Forall (fun mi => (mi < length on)%nat) mis ->
  fold_left (essential_step primes on) mis (map (hit picked) on, picked, false) = (map (hit picked) on, picked, false).
Proof.
  intros Hi Hall. induction 1 as [|mi mis Hmi _ IH]; cbn [fold_left]; [done|]. apply lookup_lt_is_Some_2 in Hmi as [m Hm].
  rewrite (essential_step_eq _ _ _ _ Hm Hi). apply list_elem_of_lookup_2 in Hm. specialize (Hall m).
  destruct (covers_of m) as [|pi [|q cs]]; try done. by rewrite bool_decide_true by (by apply Hall).
Qed.

Lemma all_in_range : Forall (fun mi => (mi < length on)%nat) (seq 0 (length on)).
Proof. apply Forall_forall. intros mi Hmi. apply elem_of_seq in Hmi. lia. Qed.

(** The loop ends with the essential primes, each picked once. *)
Lemma essential_loop_spec fuel : (2 <= fuel)%nat -> exists picked, essential_loop primes on fuel (replicate (length on) false) [] = Some (map (hit picked) on, picked) /\
  NoDup picked /\ (forall pi, pi ∈ picked <-> essential pi).
Proof.
  intros Hf. destruct fuel as [|[|fuel]]; [lia..|].
  assert (Hi0 : ess_inv []) by (split; [constructor|done]).
  assert (Hr : replicate (length on) false = map (hit []) on) by (clear; induction on; cbn; congruence).
  rewrite Hr. destruct (essential_fold _ [] false all_in_range Hi0) as (p & c & Hs & Hi & _ & He).
  assert (Hall : forall m pi, m ∈ on -> covers_of m = [pi] -> pi ∈ p).
  { intros m pi [mi Hm]%list_elem_of_lookup_1 Hc. eapply (He mi m); [|done|done]. apply elem_of_seq. apply lookup_lt_Some in Hm. lia. }
  exists p. split.
  - cbn [essential_loop]. rewrite Hs. destruct c; [|done]. by rewrite (essential_fold_idle p _ Hi Hall all_in_range).
  - destruct Hi as [Hnd Hes]. split; [done|]. intros pi. split; [by apply Forall_forall|]. intros (m & Hm & Hc). by eapply Hall.
Qed.
End Picks.

Open Scope Z_scope.

(** ** The exact cover *)

Section Exact.
Context (primes : list qm_implicant) (on : list Z) (n : nat) (opt : two_level_options).

(** A search whose best solution costs what its picks cost ends at once. *)
Lemma search_pruned fuel s f : se_stack s = [f] -> fr_inited f = false -> qs_cost (se_best s) <> SIZE_MAX ->
  qs_cost (se_best s) = cost_of primes n opt (se_picked s) -> se_best <$> search_loop primes on n opt (S fuel) s = Some (se_best s).
Proof.
  intros Hst Hf Hm Hc. cbn [search_loop]. rewrite Hst, Hf. unfold enter_frame. rewrite <-Hc, Z.leb_refl, (proj2 (Z.eqb_neq _ _) Hm). cbn [negb andb].
  unfold pop_frame_of. rewrite Hst. destruct fuel; done.
Qed.

Lemma exact_is_essentials fuel : on <> [] -> (forall m, m ∈ on -> covers_of primes m <> []) ->
  weights_ok opt -> (n <= 16)%nat -> Z.of_nat (length primes) <= 2 ^ 40 ->
  exists sol, qm_exact_minimum_cover primes on n opt (S fuel) = Some sol /\ NoDup (qs_pick sol) /\
    (forall pi, pi ∈ qs_pick sol <-> essential primes on pi) /\ qs_cost sol = cost_of primes n opt (qs_pick sol).
Proof.
  intros Hon Hcov Hw Hn Hlen. destruct (essential_loop_spec primes on (S (length on))) as (picked & Hl & Hnd & Hes).
  { destruct on; [done|]. cbn. lia. }
  exists (mk_sol picked (cost_of primes n opt picked)). split; [|done].
  unfold qm_exact_minimum_cover. destruct on as [|m0 on'] eqn:Eon; [done|]. rewrite <-Eon in *.
  replace (existsb _ on) with false.
  2: { symmetry. apply not_true_iff_false. rewrite existsb_exists. intros (m & Hm & He). apply list_elem_of_In in Hm.
       apply (Hcov m Hm). apply Nat.eqb_eq in He. by apply nil_length_inv. }
  rewrite Hl. destruct (forallb id _); [done|].
  assert (Hb : 0 <= cost_of primes n opt picked < SIZE_MAX).
  { apply cost_of_bound; [done..|]. etrans; [|exact Hlen]. apply Nat2Z.inj_le. rewrite <-(length_seq (length primes) 0).
    apply submseteq_length, NoDup_submseteq; [done|]. intros pi (m & Hm & Hs)%Hes. apply elem_of_seq.
    apply covers_of_single_covers, covers_m_lt in Hs. lia. }
  eapply (search_pruned fuel (mk_search _ _ _ _ _ _) (mk_frame _ _ _ _ false)); cbn; [done|done|lia|done].
Qed.
End Exact.

(** The exact cover that is used for up to six variables always returns
    the essential primes and nothing else: its branch and bound search starts
    with their cost as the best cost known, and so ends at its first frame.  When
    the essential primes cover the function the result is a cover of minimal cost. *)
Theorem exact_cover_is_essentials primes on n opt fuel : on <> [] -> (forall m, m ∈ on -> covers_of primes m <> []) ->
  weights_ok opt -> (n <= 16)%nat -> Z.of_nat (length primes) <= 2 ^ 40 -> (1 <= fuel)%nat ->
  exists sol, qm_exact_minimum_cover primes on n opt fuel = Some sol /\ NoDup (qs_pick sol) /\
    (forall pi, pi ∈ qs_pick sol <-> essential primes on pi) /\
    qs_cost sol = cost_of primes n opt (qs_pick sol) /\
    (forall pick, is_cover primes on pick -> qs_cost sol <= cost_of primes n opt pick).
Proof.
  intros Hon Hcov Hw Hn Hl Hf. destruct fuel as [|fuel]; [lia|].
  destruct (exact_is_essentials primes on n opt fuel Hon Hcov Hw Hn Hl) as (sol & Hs & Hnd & Hes & Hc). exists sol. do 4 (split; [done|]).
  intros pick Hp. rewrite Hc. apply (essentials_cost primes on); [done|done| |done]. apply Forall_forall. intros pi. apply Hes.
Qed.

(** Six primes on a cycle: each minterm has two, none is essential. *)
Definition cycle_on : list Z := [0; 1; 2; 5; 6; 7].
Definition cycle_primes : list qm_implicant := [mk_imp 0 1 false; mk_imp 0 2 false; mk_imp 1 4 false; mk_imp 2 4 false; mk_imp 5 2 false; mk_imp 6 1 false].
Definition unit_weights : two_level_options := mk_opts false 1 1 1.

Lemma exact_cover_is_essentials_witness : exists sol, qm_exact_minimum_cover cycle_primes cycle_on 3 unit_weights 1 = Some sol /\ NoDup (qs_pick sol).
Proof.
  edestruct (exact_cover_is_essentials cycle_primes cycle_on 3 unit_weights 1) as (sol & Hs & Hnd & _).
  - discriminate.
  - intros m Hm. repeat (apply elem_of_cons in Hm as [->|Hm]; [vm_compute; discriminate|]). by apply not_elem_of_nil in Hm.
  - repeat split; vm_compute; congruence.
  - lia.
  - vm_compute. congruence.
  - lia.
  - exists sol. split; assumption.
Defined.

(** The cycle: the primes of the function, and an exact cover that covers
    nothing at no cost. *)
Example exact_cover_of_cycle : qm_prime_implicants cycle_on [] 3 = Some cycle_primes /\
  qm_exact_minimum_cover cycle_primes cycle_on 3 unit_weights 1 = Some (mk_sol [] 0) /\
  two_level_cover_covers_all_on (picked_cubes cycle_primes []) cycle_on = false.
Proof. split; [|split]; vm_compute; reflexivity. Qed.
