(* ===== verification/SynthPetrick.v ===== *)
(** * SynthPetrick: Petrick's method finds a cover of minimal cost

    A term is the set of the picks in its bits.  The terms that are kept after
    some clauses all satisfy them, and every set that satisfies them contains a
    kept term; dropping the terms that contain another keeps both. *)

From Stdlib Require Import ZArith Lia.
From stdpp Require Import base list sets sorting.
From S2P Require Import Prelude SynthCube SynthPrimes SynthPrimesClaims SynthCover SynthCoverClaims.

Open Scope Z_scope.

(** ** Sets of bits *)

Definition subbits (a b : Z) : Prop := forall i, bit a i = true -> bit b i = true.

Lemma subbits_land a b n : within n a -> 0 <= b -> Z.land a b = a <-> subbits a b.
Proof.
  intros Ha Hb. split.
  - intros He i Hi. rewrite <-He, bit_land in Hi. by apply andb_true_iff in Hi as [_ ?].
  - intros Hs. apply (bits_eq n); [by apply within_land|done|]. intros i _. rewrite bit_land. specialize (Hs i). destruct (bit a i); [by rewrite Hs|done].
Qed.
Lemma subbits_trans a b c : subbits a b -> subbits b c -> subbits a c.
Proof. unfold subbits. eauto. Qed.
Lemma subbits_le n a b : within n a -> within n b -> subbits a b -> a <= b.
Proof.
  intros Ha Hb Hs. set (d := Z.land b (Z.lxor b a)).
  assert (Hd : within n d) by (apply within_land; [done|apply Z.lxor_nonneg; unfold within in *; lia]).
  assert (Hl : Z.lor a d = b /\ Z.land a d = 0).
  { split; apply (bits_eq n); [by apply within_lor|done| |apply within_land; [done|apply Hd]|apply within_0|]; intros i _; unfold d;
      rewrite ?bit_lor, ?bit_land, ?bit_lxor, ?bit_0; specialize (Hs i); destruct (bit a i), (bit b i); cbn in *; intuition congruence. }
  pose proof (Z.add_lor_land a d). destruct Hd. lia.
Qed.
Lemma bits_exist n (f : nat -> bool) : exists x, within n x /\ forall i, (i < n)%nat -> bit x i = f i.
Proof.
  induction n as [|n (x & Hx & Hf)]; [exists 0; split; [apply within_0|lia]|].
  exists (Z.lor x (if f n then 2 ^ Z.of_nat n else 0)). split.
  - apply within_lor; [by apply (within_mono n); [lia|]|]. destruct (f n); [apply within_pow; lia|apply within_0].
  - intros i Hi. rewrite bit_lor. destruct (decide (i = n)) as [->|Hne].
    + rewrite (within_high n x) by done. destruct (f n); [|apply bit_0]. by rewrite bit_pow, bool_decide_true.
    + rewrite Hf by lia. destruct (f n); [rewrite bit_pow, bool_decide_false by done|rewrite bit_0]; apply orb_false_r.
Qed.
Lemma shiftl_1 b : Z.shiftl 1 (Z.of_nat b) = 2 ^ Z.of_nat b.
Proof. rewrite Z.shiftl_mul_pow2 by lia. lia. Qed.
Lemma bit_set t b i : bit (Z.lor t (Z.shiftl 1 (Z.of_nat b))) i = bit t i || bool_decide (i = b).
Proof. by rewrite bit_lor, shiftl_1, bit_pow. Qed.
Lemma within_set n t b : within n t -> (b < n)%nat -> within n (Z.lor t (Z.shiftl 1 (Z.of_nat b))).
Proof. intros Ht Hb. apply within_lor; [done|]. rewrite shiftl_1. by apply within_pow. Qed.

(** ** Sorting *)

Lemma unique_from_spec l : forall x, StronglySorted Z.le (x :: l) -> StronglySorted Z.lt (unique_from x l) /\ forall y, y ∈ unique_from x l <-> y ∈ x :: l.
Proof.
  induction l as [|z l IH]; intros x Hs; cbn [unique_from]; [split; [repeat constructor|done]|].
  apply StronglySorted_inv in Hs as [Hs Hx]. apply Forall_cons in Hx as [Hxz Hx]. destruct (Z.eqb_spec x z) as [<-|Hne].
  - destruct (IH x Hs) as [H1 H2]. split; [done|]. intros y. rewrite H2. set_solver.
  - destruct (IH z Hs) as [H1 H2]. split; [|intros y; rewrite elem_of_cons, H2; set_solver].
    apply StronglySorted_inv in Hs as [_ Hz]. constructor; [done|]. apply Forall_forall. intros y Hy%H2.
    rewrite Forall_forall in Hz. apply elem_of_cons in Hy as [->|Hy%Hz]; lia.
Qed.
Lemma sort_unique_spec l : StronglySorted Z.lt (sort_unique l) /\ forall x, x ∈ sort_unique l <-> x ∈ l.
Proof.
  unfold sort_unique. assert (Hs : StronglySorted Z.le (merge_sort Z.le l)) by (apply StronglySorted_merge_sort; apply _).
  pose proof (merge_sort_Permutation Z.le l) as HP. destruct (merge_sort Z.le l) as [|x k] eqn:E.
  - apply Permutation_nil in HP. subst. split; [constructor|done].
  - destruct (unique_from_spec k x Hs) as [H1 H2]. split; [done|]. intros y. cbn [unique]. rewrite H2. by rewrite HP.
Qed.
Lemma sorted_NoDup l : StronglySorted Z.lt l -> NoDup l.
Proof.
  induction 1 as [|x l _ IH Hx]; [constructor|]. constructor; [|done]. intros Hin. rewrite Forall_forall in Hx. specialize (Hx x Hin). lia.
Qed.

Section Petrick.
Context (primes : list qm_implicant) (on : list Z) (n : nat) (opt : two_level_options).
#[local] Abbreviation covers_m := (covers_m primes).
#[local] Abbreviation covers_of := (covers_of primes).
#[local] Abbreviation cost_of := (cost_of primes n opt).
#[local] Abbreviation hit := (hit primes).

(** ** The essential primes *)

Lemma count_covers_one m pis : forall l, count_covers primes m pis 1 l = match List.filter (fun pi => covers_m pi m) pis with [] => (1%nat, l) | q :: _ => (2%nat, q) end.
Proof. induction pis as [|p pis IH]; intros l; cbn; [done|]. by destruct (covers_m p m); cbn. Qed.
Lemma count_covers_eq m pis : forall l, count_covers primes m pis 0 l =
  match List.filter (fun pi => covers_m pi m) pis with [] => (0%nat, l) | [p] => (1%nat, p) | _ :: q :: _ => (2%nat, q) end.
Proof.
  induction pis as [|p pis IH]; intros l; cbn; [done|]. destruct (covers_m p m); cbn; [|apply IH]. rewrite count_covers_one.
  by destruct (List.filter _ pis).
Qed.

Lemma petrick_step_eq picked changed mi m : on !! mi = Some m -> ess_inv primes on picked ->
  petrick_step primes on (inr (map (hit picked) on, picked, changed)) mi =
  match covers_of m with [] => inl picked | _ => inr (essential_step primes on (map (hit picked) on, picked, changed) mi) end.
Proof.
  intros Hm Hi. rewrite (essential_step_eq primes on _ _ _ _ Hm Hi). unfold petrick_step. rewrite list_lookup_fmap, Hm. cbn [fmap option_fmap option_map].
  rewrite count_covers_eq. fold (covers_of m). destruct (hit picked m) eqn:Eh.
  - apply hit_true in Eh as (p & Hp & Hc). destruct (covers_of m) as [|q [|r cs]] eqn:Ec; [| |done].
    + apply elem_covers_of in Hc. rewrite Ec in Hc. by apply not_elem_of_nil in Hc.
    + rewrite (covers_of_single _ _ _ _ Ec Hc) in Hp. by rewrite bool_decide_true.
  - destruct (covers_of m) as [|q [|r cs]] eqn:Ec; [done| |done]. cbn. case_bool_decide as Hq.
    + pose proof (proj1 (hit_false _ _ _) Eh q Hq) as Hf. by rewrite (covers_of_single_covers _ _ _ Ec) in Hf.
    + by rewrite mark_covered_hit.
Qed.

Lemma petrick_fold_ok mis : forall picked changed, (forall m, m ∈ on -> covers_of m <> []) -> Forall (fun mi => (mi < length on)%nat) mis -> ess_inv primes on picked ->
  fold_left (petrick_step primes on) mis (inr (map (hit picked) on, picked, changed)) = inr (fold_left (essential_step primes on) mis (map (hit picked) on, picked, changed)).
Proof.
  induction mis as [|mi mis IH]; intros picked changed Hc Hmis Hi; cbn [fold_left]; [done|].
  apply Forall_cons in Hmis as [[m Hm]%lookup_lt_is_Some_2 Hmis]. rewrite (petrick_step_eq _ _ _ _ Hm Hi).
  destruct (essential_step_inv primes on picked changed mi m Hm Hi) as (p1 & c1 & -> & Hi1 & _).
  specialize (Hc m (list_elem_of_lookup_2 _ _ _ Hm)) as Hm0. destruct (covers_of m); [done|]. by apply IH.
Qed.
Lemma petrick_fold_fails mis : forall picked changed, Exists (fun mi => exists m, on !! mi = Some m /\ covers_of m = []) mis ->
  Forall (fun mi => (mi < length on)%nat) mis -> ess_inv primes on picked ->
  exists p, fold_left (petrick_step primes on) mis (inr (map (hit picked) on, picked, changed)) = inl p.
Proof.
  assert (Hl : forall l p, fold_left (petrick_step primes on) l (inl p) = inl p) by (intros l p; by induction l).
  induction mis as [|mi mis IH]; intros picked changed He Hmis Hi; cbn [fold_left]; [by inversion He|].
  apply Forall_cons in Hmis as [[m Hm]%lookup_lt_is_Some_2 Hmis]. rewrite (petrick_step_eq _ _ _ _ Hm Hi).
  destruct (essential_step_inv primes on picked changed mi m Hm Hi) as (p1 & c1 & -> & Hi1 & _).
  destruct (covers_of m) eqn:Ec; [eexists; apply Hl|]. apply IH; [|done|done].
  apply Exists_cons in He as [(m' & Hm' & Hc')|He]; [|done]. congruence.
Qed.

Lemma replicate_hit : replicate (length on) false = map (hit []) on.
Proof. clear. induction on; cbn; congruence. Qed.
Lemma ess_inv_nil : ess_inv primes on [].
Proof. split; [constructor|done]. Qed.

Lemma petrick_essentials_ok fuel : forall picked, (forall m, m ∈ on -> covers_of m <> []) -> ess_inv primes on picked ->
  petrick_essentials primes on fuel (map (hit picked) on) picked = inr <$> essential_loop primes on fuel (map (hit picked) on) picked.
Proof.
  induction fuel as [|fuel IH]; intros picked Hc Hi; [done|]. cbn [petrick_essentials essential_loop].
  rewrite (petrick_fold_ok _ _ _ Hc (all_in_range on) Hi).
  destruct (essential_fold primes on _ picked false (all_in_range on) Hi) as (p & c & -> & Hi' & _). destruct c; [by apply IH|done].
Qed.
Lemma petrick_essentials_fails fuel : (exists m, m ∈ on /\ covers_of m = []) ->
  exists p, petrick_essentials primes on (S fuel) (replicate (length on) false) [] = Some (inl p).
Proof.
  intros (m & [mi Hm]%list_elem_of_lookup_1 & Hc). rewrite replicate_hit.
  destruct (petrick_fold_fails (seq 0 (length on)) [] false) as [p Hp]; [|apply all_in_range|apply ess_inv_nil|].
  - apply Exists_exists. exists mi. split; [apply elem_of_seq; apply lookup_lt_Some in Hm; lia|eauto].
  - exists p. cbn [petrick_essentials]. by rewrite Hp.
Qed.

Lemma remaining_hit picked : remaining_of on (map (hit picked) on) = List.filter (fun m => negb (hit picked m)) on.
Proof. clear. unfold remaining_of. induction on as [|m l IH]; [done|]. cbn [map zip_with omap list_omap List.filter fst snd]. destruct (hit picked m); cbn; [apply IH|]. f_equal. apply IH. Qed.

(** ** Clauses *)

Context (picks : list nat).

Lemma clause_fold m l : forall c, within 64 c -> Forall (fun pi => (pi < 64)%nat) l ->
  let c' := fold_left (fun clause pi => if bool_decide (pi ∈ picks) then clause else if covers_m pi m then Z.lor clause (Z.shiftl 1 (Z.of_nat pi)) else clause) l c in
  within 64 c' /\ forall i, bit c' i = true <-> bit c i = true \/ i ∈ l /\ (i ∉ picks) /\ covers_m i m = true.
Proof.
  induction l as [|p l IH]; intros c Hc Hl; cbn [fold_left]; [split; [done|]; intros i; set_solver|].
  apply Forall_cons in Hl as [Hp Hl]. case_bool_decide as Hin.
  - destruct (IH c Hc Hl) as [H1 H2]. split; [done|]. intros i. rewrite H2. set_solver.
  - destruct (covers_m p m) eqn:Ec.
    + destruct (IH _ (within_set 64 c p Hc Hp) Hl) as [H1 H2]. split; [done|]. intros i. rewrite H2, bit_set, orb_true_iff, bool_decide_eq_true. set_solver.
    + destruct (IH c Hc Hl) as [H1 H2]. split; [done|]. intros i. rewrite H2, elem_of_cons. split; [tauto|]. intros [?|([->|?] & ? & ?)]; [tauto|congruence|tauto].
Qed.
Lemma clause_spec m : (length primes <= 64)%nat ->
  within 64 (clause_of primes picks m) /\ forall i, bit (clause_of primes picks m) i = true <-> (i ∉ picks) /\ covers_m i m = true.
Proof.
  intros Hl. destruct (clause_fold m (seq 0 (length primes)) 0 (within_0 64)) as [H1 H2].
  { apply Forall_forall. intros i Hi%elem_of_seq. lia. }
  split; [exact H1|]. intros i. unfold clause_of. rewrite H2, bit_0, elem_of_seq. split; [intros [?|?]; [done|tauto]|].
  intros [Hi Hc]. right. split; [|done]. apply covers_m_lt in Hc. lia.
Qed.

(** ** Dominated terms *)

(** Every dropped term contains another term. *)
Definition drop_inv (next : list Z) (drop : list bool) : Prop :=
  length drop = length next /\ forall k, drop !! k = Some true -> exists i a b, i <> k /\ next !! i = Some a /\ next !! k = Some b /\ subbits a b.

Lemma drop_inv_insert next drop i j a b : drop_inv next drop -> i <> j -> next !! i = Some a -> next !! j = Some b -> subbits a b -> drop_inv next (<[j := true]> drop).
Proof.
  intros [Hl Hd] Hne Hi Hj Hs. split; [by rewrite length_insert|]. intros k Hk. destruct (decide (k = j)) as [->|Hkj]; [by exists i, a, b|].
  rewrite list_lookup_insert_ne in Hk by done. by apply Hd.
Qed.
Lemma dominate_inv next cost i a js : next !! i = Some a -> Forall (fun x => 0 <= x) next -> Forall (fun j => (i < j < length next)%nat) js ->
  forall drop, drop_inv next drop -> drop_inv next (dominate next cost i js drop).
Proof.
  intros Hi Hpos Hjs. induction Hjs as [|j js [Hij Hj] _ IH]; intros drop Hd; cbn [dominate]; [done|]. destruct (nth j drop true); [by apply IH|].
  apply lookup_lt_is_Some_2 in Hj as [b Hj]. rewrite (nth_lookup_Some next i 0 a Hi), (nth_lookup_Some next j 0 b Hj).
  assert (Ha : exists k, within k a /\ within k b).
  { rewrite Forall_forall in Hpos. exists (Z.to_nat (Z.max a b)). pose proof (Hpos a (list_elem_of_lookup_2 _ _ _ Hi)). pose proof (Hpos b (list_elem_of_lookup_2 _ _ _ Hj)).
    unfold within. pose proof (Z.pow_gt_lin_r 2 (Z.max a b) ltac:(lia) ltac:(lia)). rewrite Z2Nat.id by lia. lia. }
  destruct Ha as (k & Ha & Hb). destruct (Z.eqb_spec (Z.land a b) a) as [E|_].
  - apply IH. destruct (_ <=? _); [|done]. eapply drop_inv_insert; [done| |exact Hi|exact Hj|]; [lia|]. by apply (subbits_land a b k); [..|apply Hb|].
  - destruct (Z.eqb_spec (Z.land a b) b) as [E|_]; [|by apply IH]. destruct (_ <=? _); [|by apply IH].
    eapply drop_inv_insert; [done| |exact Hj|exact Hi|]; [lia|]. rewrite Z.land_comm in E. by apply (subbits_land b a k); [..|apply Ha|].
Qed.
Lemma dropped_inv next : Forall (fun x => 0 <= x) next -> drop_inv next (dropped primes n opt picks next).
Proof.
  intros Hpos. unfold dropped. generalize (map (bit_cost primes n opt picks) next). intros cost.
  assert (Hs : Forall (fun i => (i < length next)%nat) (seq 0 (length next))) by (apply Forall_forall; intros i Hi%elem_of_seq; lia).
  assert (H0 : drop_inv next (replicate (length next) false)).
  { split; [by rewrite length_replicate|]. intros k [Hk _]%lookup_replicate. done. }
  revert Hs H0. generalize (replicate (length next) false). induction (seq 0 (length next)) as [|i l IH]; intros drop Hs Hd; [done|].
  apply Forall_cons in Hs as [[a Hi]%lookup_lt_is_Some_2 Hs]. cbn [fold_left]. apply IH; [done|]. unfold dominate_step. destruct (nth i drop true); [done|].
  eapply dominate_inv; [done..| |done]. apply Forall_forall. intros j Hj%elem_of_seq. lia.
Qed.

Lemma elem_prune next x : x ∈ prune_terms primes n opt picks next <-> exists k, next !! k = Some x /\ dropped primes n opt picks next !! k = Some false.
Proof.
  unfold prune_terms. rewrite list_elem_of_omap. split.
  - intros ([d y] & Hin & He). cbn in He. destruct d; simplify_eq. apply list_elem_of_lookup_1 in Hin as [k Hk].
    apply lookup_zip_Some in Hk as [? ?]. by exists k.
  - intros (k & Hx & Hd). exists (false, x). split; [|done]. apply (list_elem_of_lookup_2 _ k). by apply lookup_zip_Some.
Qed.

Lemma prune_spec next k : NoDup next -> Forall (within k) next ->
  (forall x, x ∈ prune_terms primes n opt picks next -> x ∈ next) /\
  (forall x, x ∈ next -> exists y, y ∈ prune_terms primes n opt picks next /\ subbits y x).
Proof.
  intros Hnd Hw. assert (Hpos : Forall (fun x => 0 <= x) next) by (eapply Forall_impl; [exact Hw|]; intros x [? ?]; done).
  split; [intros x (j & Hx & _)%elem_prune; by eapply list_elem_of_lookup_2|].
  destruct (dropped_inv next Hpos) as [Hl Hd]. rewrite Forall_forall in Hw.
  intros x. pattern x. apply (well_founded_induction (Z.lt_wf 0)). clear x. intros x IH Hx. apply list_elem_of_lookup_1 in Hx as [j Hj].
  assert (Hjd : is_Some (dropped primes n opt picks next !! j)) by (apply lookup_lt_is_Some; rewrite Hl; by eapply lookup_lt_Some).
  destruct Hjd as [[|] Hjd]; [|exists x; split; [by apply elem_prune; eauto|by intros ?]].
  destruct (Hd j Hjd) as (i & a & b & Hne & Hi & Hb & Hs). rewrite Hj in Hb. simplify_eq.
  pose proof (Hw a (list_elem_of_lookup_2 _ _ _ Hi)) as Hwa. pose proof (Hw b (list_elem_of_lookup_2 _ _ _ Hj)) as Hwb.
  pose proof (subbits_le k a b Hwa Hwb Hs).
  assert (a <> b) by (intros ->; apply Hne; by eapply NoDup_lookup).
  destruct (IH a) as (y & Hy & Hya); [destruct Hwa; lia|by eapply list_elem_of_lookup_2|]. exists y. split; [done|]. by eapply subbits_trans.
Qed.

(** ** Terms *)

(** The terms after some minterms: each covers them, without the essential
    picks, and every set that does contains one. *)
Definition covers_done (done : list Z) (s : Z) : Prop := forall m, m ∈ done -> exists i, bit s i = true /\ (i ∉ picks) /\ covers_m i m = true.
Definition terms_ok (done terms : list Z) : Prop :=
  (forall t, t ∈ terms -> within (length primes) t /\ (forall i, bit t i = true -> i ∉ picks) /\ covers_done done t) /\
  (forall s, within (length primes) s -> covers_done done s -> exists t, t ∈ terms /\ subbits t s).

Lemma elem_expand clause terms x : within 64 clause ->
  x ∈ expand_terms clause terms <-> exists t b, t ∈ terms /\ bit clause b = true /\ x = Z.lor t (Z.shiftl 1 (Z.of_nat b)).
Proof.
  intros Hc. unfold expand_terms. rewrite list_elem_of_bind. setoid_rewrite list_elem_of_fmap. setoid_rewrite (elem_set_bits clause _ Hc). naive_solver.
Qed.

Lemma expand_ok done terms m : (length primes <= 64)%nat -> terms_ok done terms -> terms_ok (m :: done) (expand_terms (clause_of primes picks m) terms).
Proof.
  intros Hl [Ht Hs]. destruct (clause_spec m Hl) as [Hw Hb]. split.
  - intros x (t & b & Htin & [Hbp Hbm]%Hb & ->)%(elem_expand _ _ _ Hw). destruct (Ht t Htin) as (Htw & Htp & Htd).
    split; [apply within_set; [done|by eapply covers_m_lt]|]. split.
    + intros i. rewrite bit_set, orb_true_iff, bool_decide_eq_true. intros [Hi| ->]; [by apply Htp|done].
    + intros m' [->|Hm']%elem_of_cons.
      * exists b. rewrite bit_set, bool_decide_true, orb_true_r by done. done.
      * destruct (Htd m' Hm') as (i & Hi & ? & ?). exists i. rewrite bit_set, Hi. done.
  - intros s Hsw Hd. destruct (Hs s Hsw) as (t & Htin & Hts); [intros m' Hm'; apply Hd; by right|].
    destruct (Hd m) as (b & Hbs & Hbp & Hbm); [by left|]. exists (Z.lor t (Z.shiftl 1 (Z.of_nat b))). split.
    + apply elem_expand; [done|]. exists t, b. rewrite Hb. done.
    + intros i. rewrite bit_set, orb_true_iff, bool_decide_eq_true. intros [Hi| ->]; [by apply Hts|done].
Qed.
Lemma prune_ok done terms : terms_ok done terms -> terms_ok done (prune_terms primes n opt picks (sort_unique terms)).
Proof.
  intros [Ht Hs]. destruct (sort_unique_spec terms) as [Hsort He]. destruct (prune_spec (sort_unique terms) (length primes)) as [H1 H2].
  - by apply sorted_NoDup.
  - apply Forall_forall. intros x Hx%He. by apply Ht.
  - split; [intros t Hin%H1%He; by apply Ht|]. intros s Hsw Hd. destruct (Hs s Hsw Hd) as (t & Htin%He & Hts).
    destruct (H2 t Htin) as (y & Hy & Hyt). exists y. split; [done|]. by eapply subbits_trans.
Qed.
Lemma petrick_terms_ok remaining : forall done terms terms', (length primes <= 64)%nat -> terms_ok done terms ->
  petrick_terms primes n opt picks remaining terms = Some terms' -> terms_ok (rev remaining ++ done) terms'.
Proof.
  induction remaining as [|m remaining IH]; intros done terms terms' Hl Hok Ht; cbn [petrick_terms] in Ht; [by simplify_eq|].
  repeat case_match; simplify_eq. cbn [rev]. rewrite <-app_assoc. cbn [app].
  eapply IH; [done| |exact Ht]. match goal with H : prune_terms _ _ _ _ _ = _ |- _ => rewrite <-H end. by apply prune_ok, expand_ok.
Qed.
Lemma terms_ok_start : terms_ok [] [0].
Proof.
  split.
  - intros t ->%list_elem_of_singleton. split; [apply within_0|]. split; [intros i Hi; by rewrite bit_0 in Hi|]. intros m Hm. by apply not_elem_of_nil in Hm.
  - intros s _ _. exists 0. split; [constructor|]. intros i Hi. by rewrite bit_0 in Hi.
Qed.

Lemma best_term_spec terms : forall t0 c0, let r := fold_left (fun best t => let c := bit_cost primes n opt picks t in if c <? best.2 then (t, c) else best) terms (t0, c0) in
  (r = (t0, c0) \/ r.1 ∈ terms /\ r.2 = bit_cost primes n opt picks r.1) /\ r.2 <= c0 /\ forall t, t ∈ terms -> r.2 <= bit_cost primes n opt picks t.
Proof.
  cbv zeta. induction terms as [|t terms IH]; intros t0 c0; cbn [fold_left snd]; [split; [by left|]; split; [cbn; lia|]; intros t Ht; by apply not_elem_of_nil in Ht|].
  destruct (Z.ltb_spec (bit_cost primes n opt picks t) c0) as [Hc|Hc].
  - destruct (IH t (bit_cost primes n opt picks t)) as (H1 & H2 & H3). split; [|split; [lia|]].
    + right. destruct H1 as [->|[? ?]]; [split; [by left|done]|]. split; [by right|done].
    + intros t' [->|Ht']%elem_of_cons; [done|by apply H3].
  - destruct (IH t0 c0) as (H1 & H2 & H3). split; [|split; [done|]].
    + destruct H1 as [?|[? ?]]; [by left|]. right. split; [by right|done].
    + intros t' [->|Ht']%elem_of_cons; [lia|by apply H3].
Qed.

Lemma best_term_min terms : let r := best_term primes n opt picks terms in
  (r = (0, SIZE_MAX) \/ r.1 ∈ terms /\ r.2 = bit_cost primes n opt picks r.1) /\ forall t, t ∈ terms -> r.2 <= bit_cost primes n opt picks t.
Proof. intros r. pose proof (best_term_spec terms 0 SIZE_MAX) as (H1 & _ & H2). exact (conj H1 H2). Qed.

Lemma elem_term_pick t pi : within (length primes) t -> pi ∈ term_pick primes picks t <-> pi ∈ picks \/ bit t pi = true.
Proof.
  intros Hw. unfold term_pick. rewrite elem_of_app, (list_elem_of_In (List.filter _ _)), filter_In, in_seq. split; [tauto|].
  intros [?|Hb]; [by left|]. right. split; [|done]. destruct (Nat.lt_ge_cases pi (length primes)); [lia|]. by rewrite (within_high _ t pi Hw) in Hb.
Qed.
Lemma term_pick_NoDup t : NoDup picks -> (forall i, bit t i = true -> i ∉ picks) -> NoDup (term_pick primes picks t).
Proof.
  intros Hnd Hd. apply NoDup_app. split; [done|]. split.
  - intros i Hi Hin. apply list_elem_of_In, filter_In in Hin as [_ Hb]. by apply (Hd i Hb).
  - apply NoDup_ListNoDup, List.NoDup_filter, seq_NoDup.
Qed.

(** The picks of a kept term cover the function, and cost no more than those
    of a set of picks that contains it. *)
Lemma term_pick_cover remaining t : within (length primes) t -> covers_done remaining t -> (forall m, m ∈ on -> hit picks m = false -> m ∈ remaining) ->
  is_cover primes on (term_pick primes picks t).
Proof.
  intros Hw Hd Hr m Hm. apply hit_true. destruct (hit picks m) eqn:E.
  - apply hit_true in E as (pi & Hp & Hc). exists pi. split; [by apply elem_term_pick; [|left]|done].
  - destruct (Hd m (Hr m Hm E)) as (i & Hi & _ & Hc). exists i. split; [by apply elem_term_pick; [|right]|done].
Qed.
Lemma cover_as_term pick remaining : is_cover primes on pick -> (forall m, m ∈ remaining -> m ∈ on /\ hit picks m = false) ->
  exists s, within (length primes) s /\ covers_done remaining s /\ (forall i, bit s i = true -> i ∈ pick).
Proof.
  intros Hc Hr. destruct (bits_exist (length primes) (fun i => bool_decide (i ∈ pick))) as (s & Hw & Hs). exists s. split; [done|]. split.
  - intros m [Hm Hh]%Hr. apply Hc, hit_true in Hm as (i & Hi & Him). exists i. rewrite Hs, bool_decide_true by (done || by eapply covers_m_lt).
    split; [done|]. split; [|done]. intros Hip. by rewrite (proj1 (hit_false _ _ _) Hh i Hip) in Him.
  - intros i Hi. destruct (Nat.lt_ge_cases i (length primes)) as [Hlt|Hge]; [rewrite Hs in Hi by done; by apply bool_decide_eq_true in Hi|].
    by rewrite (within_high _ s i Hw) in Hi.
Qed.
Lemma term_cost t pick : weights_ok opt -> NoDup picks -> within (length primes) t -> (forall i, bit t i = true -> i ∉ picks) ->
  (forall i, i ∈ picks -> i ∈ pick) -> (forall i, bit t i = true -> i ∈ pick) -> bit_cost primes n opt picks t <= cost_of pick.
Proof.
  intros Hw Hnd Ht Hd Hp Hb. apply cost_of_submseteq; [done|]. apply NoDup_submseteq; [by apply term_pick_NoDup|].
  intros i [?|?]%(elem_term_pick _ _ Ht); auto.
Qed.

(** ** The limit on the number of terms *)

Lemma NoDup_within_length l k : NoDup l -> Forall (within k) l -> Z.of_nat (length l) <= 2 ^ Z.of_nat k.
Proof.
  intros Hnd Hw. rewrite Forall_forall in Hw. assert (Hp : 0 < 2 ^ Z.of_nat k) by (apply Z.pow_pos_nonneg; lia).
  assert (Hle : (length (Z.to_nat <$> l) <= length (seq 0 (Z.to_nat (2 ^ Z.of_nat k))))%nat).
  { apply submseteq_length, NoDup_submseteq.
    - apply NoDup_fmap_2_strong; [|done]. intros x y [Hx _]%Hw [Hy _]%Hw He. by apply Z2Nat.inj.
    - intros i (x & -> & [H0 H1]%Hw)%list_elem_of_fmap. apply elem_of_seq. lia. }
  rewrite length_fmap, length_seq in Hle. lia.
Qed.
Lemma clause_bits_length m : (length primes <= 64)%nat -> (length (set_bits (clause_of primes picks m)) <= length primes)%nat.
Proof.
  intros Hl. destruct (clause_spec m Hl) as [Hw Hb]. rewrite <-(length_seq (length primes) 0). apply submseteq_length, NoDup_submseteq.
  - rewrite (set_bits_spec _ Hw). apply NoDup_ListNoDup, List.NoDup_filter, seq_NoDup.
  - intros i [_ Hc]%(elem_set_bits _ _ Hw)%Hb. apply elem_of_seq. apply covers_m_lt in Hc. lia.
Qed.
Lemma expand_length clause terms : length (expand_terms clause terms) = (length terms * length (set_bits clause))%nat.
Proof. unfold expand_terms. induction terms as [|t terms IH]; [done|]. rewrite bind_cons, length_app, length_fmap, IH. cbn [length]. generalize (length (set_bits clause)). intros k. lia. Qed.
Lemma omap_length_le {A B} (f : A -> option B) l : (length (omap f l) <= length l)%nat.
Proof. induction l as [|x l IH]; cbn; [lia|]. destruct (f x); cbn; lia. Qed.

Lemma petrick_terms_some remaining : forall done terms, (length primes <= 10)%nat -> terms_ok done terms -> terms <> [] ->
  Z.of_nat (length terms) <= 2 ^ Z.of_nat (length primes) -> (forall m, m ∈ remaining -> exists i, (i ∉ picks) /\ covers_m i m = true) ->
  exists terms', petrick_terms primes n opt picks remaining terms = Some terms' /\ terms' <> [].
Proof.
  induction remaining as [|m remaining IH]; intros done terms Hl Hok Hne Hlen Hr; cbn [petrick_terms]; [by exists terms|].
  destruct (clause_spec m) as [Hw Hb]; [lia|]. destruct (Hr m) as (i & Hip & Him); [by left|].
  assert (Hbi : bit (clause_of primes picks m) i = true) by (by apply Hb). destruct (Z.eqb_spec (clause_of primes picks m) 0) as [E|_]; [by rewrite E, bit_0 in Hbi|].
  set (next := expand_terms _ terms). assert (Hok' : terms_ok (m :: done) next) by (apply expand_ok; [lia|done]).
  assert (Hn1 : Z.of_nat (length next) <= max_terms).
  { unfold next, max_terms. rewrite expand_length. pose proof (clause_bits_length m ltac:(lia)).
    assert (2 ^ Z.of_nat (length primes) <= 2 ^ 10) by (apply Z.pow_le_mono_r; lia). change (2 ^ 10) with 1024 in *. nia. }
  destruct (Z.ltb_spec max_terms (Z.of_nat (length next))) as [?|_]; [lia|].
  destruct (sort_unique_spec next) as [Hs He]. pose proof (prune_ok _ _ Hok') as Hp.
  destruct (prune_spec (sort_unique next) (length primes)) as [_ H2]; [by apply sorted_NoDup|by apply Forall_forall; intros x Hx%He; apply Hok'|].
  destruct (prune_terms primes n opt picks (sort_unique next)) as [|p pruned] eqn:Ep.
  - exfalso. destruct terms as [|t terms]; [done|]. destruct (H2 (Z.lor t (Z.shiftl 1 (Z.of_nat i)))) as (y & Hy & _); [|by apply not_elem_of_nil in Hy].
    apply He, elem_expand; [done|]. exists t, i. split; [by left|done].
  - rewrite <-Ep in *. eapply IH; [done|exact Hp|by rewrite Ep| |intros m' Hm'; apply Hr; by right].
    etrans; [|apply (NoDup_within_length (sort_unique next))]; [|by apply sorted_NoDup|by apply Forall_forall; intros x Hx%He; apply Hok'].
    apply Nat2Z.inj_le. etrans; [apply omap_length_le|]. rewrite length_zip_with. lia.
Qed.
End Petrick.

(** ** The minimum cover *)

Section Minimum.
Context (primes : list qm_implicant) (on : list Z) (n : nat) (opt : two_level_options).
Context (Hw : weights_ok opt) (Hn : (n <= 16)%nat).
#[local] Abbreviation cost_of := (cost_of primes n opt).

(** What a solution promises. *)
Definition minimum_cover (sol : qm_solution) : Prop :=
  is_cover primes on (qs_pick sol) /\ qs_cost sol = cost_of (qs_pick sol) /\ forall pick, is_cover primes on pick -> qs_cost sol <= cost_of pick.

Lemma valid_pick_cost pick : (length primes <= 64)%nat -> NoDup pick -> (forall pi, pi ∈ pick -> (pi < length primes)%nat) -> 0 <= cost_of pick < SIZE_MAX.
Proof.
  intros Hl Hnd Hp. apply cost_of_bound; [done..|]. assert (length pick <= length (seq 0 (length primes)))%nat; [|rewrite length_seq in *; lia].
  apply submseteq_length, NoDup_submseteq; [done|]. intros i Hi%Hp. apply elem_of_seq. lia.
Qed.

Section Essentials.
Context (picks : list nat) (Hl : (length primes <= 64)%nat) (Hnd : NoDup picks) (Hes : forall pi, pi ∈ picks <-> essential primes on pi).

Lemma essential_lt pi : pi ∈ picks -> (pi < length primes)%nat.
Proof. intros (m & _ & Hs)%Hes. by eapply covers_m_lt, covers_of_single_covers. Qed.
Lemma elem_remaining m : m ∈ remaining_of on (map (hit primes picks) on) <-> m ∈ on /\ hit primes picks m = false.
Proof. rewrite remaining_hit, list_elem_of_In, filter_In, <-list_elem_of_In, negb_true_iff. done. Qed.

Lemma essentials_alone : remaining_of on (map (hit primes picks) on) = [] -> minimum_cover (mk_sol picks (cost_of picks)).
Proof.
  intros Hr. split; [|split; [done|]].
  - intros m Hm. destruct (hit primes picks m) eqn:E; [done|]. exfalso. apply (not_elem_of_nil m). rewrite <-Hr. by apply elem_remaining.
  - intros pick Hc. apply (essentials_cost primes on); [done|done| |done]. apply Forall_forall. intros pi. apply Hes.
Qed.

Lemma best_term_minimum terms : petrick_terms primes n opt picks (remaining_of on (map (hit primes picks) on)) [0] = Some terms ->
  let r := best_term primes n opt picks terms in
  (r.2 <> SIZE_MAX -> minimum_cover (mk_sol (term_pick primes picks r.1) r.2)) /\ (terms <> [] -> r.2 < SIZE_MAX).
Proof.
  intros Ht. cbv zeta. destruct (petrick_terms_ok primes n opt picks _ _ _ _ Hl (terms_ok_start primes picks) Ht) as [Hok Hall]. rewrite app_nil_r in *.
  assert (Hin : forall t, t ∈ terms -> within (length primes) t /\ (forall i, bit t i = true -> i ∉ picks) /\ is_cover primes on (term_pick primes picks t)).
  { intros t (Htw & Htp & Htd)%Hok. split; [done|]. split; [done|]. eapply term_pick_cover; [done|exact Htd|]. intros m Hm Hh.
    rewrite list_elem_of_In, <-in_rev, <-list_elem_of_In. by apply elem_remaining. }
  destruct (best_term_min primes n opt picks terms) as (H1 & H3). split.
  - intros Hne. destruct H1 as [E|[Hr1 Hr2]]; [by rewrite E in Hne|]. destruct (Hin _ Hr1) as (Hrw & Hrp & Hrc). split; [done|]. split; [done|].
    intros pick Hc. destruct (cover_as_term primes on picks pick (rev (remaining_of on (map (hit primes picks) on))) Hc) as (s & Hsw & Hsd & Hsp).
    { intros m Hm. rewrite list_elem_of_In, <-in_rev, <-list_elem_of_In in Hm. by apply elem_remaining. }
    destruct (Hall s Hsw Hsd) as (t & Htin & Hts). destruct (Hin t Htin) as (Htw & Htp & _). cbn [qs_cost]. etrans; [by apply H3|].
    apply term_cost; [done|done|done|done| |auto]. intros i Hi%Hes. by eapply essential_in_cover.
  - intros Hne. destruct terms as [|t terms]; [done|]. destruct (Hin t) as (Htw & Htp & _); [by left|]. eapply Z.le_lt_trans; [apply (H3 t); by left|].
    apply valid_pick_cost; [done|by apply term_pick_NoDup|]. intros pi [Hp|Hb]%(elem_term_pick primes picks t pi Htw); [by apply essential_lt|].
    destruct (Nat.lt_ge_cases pi (length primes)); [done|]. by rewrite (within_high _ t pi Htw) in Hb.
Qed.

Lemma few_primes_terms : (length primes <= 10)%nat -> (forall m, m ∈ on -> covers_of primes m <> []) ->
  exists terms, petrick_terms primes n opt picks (remaining_of on (map (hit primes picks) on)) [0] = Some terms /\ terms <> [].
Proof.
  intros H10 Hc. apply (petrick_terms_some primes n opt picks _ []); [done|apply terms_ok_start|done| |].
  - cbn [length]. assert (0 < 2 ^ Z.of_nat (length primes)) by (apply Z.pow_pos_nonneg; lia). lia.
  - intros m [Hm Hh]%elem_remaining. destruct (covers_of primes m) as [|i cs] eqn:E; [by apply Hc in Hm|]. exists i.
    assert (Hi : SynthCover.covers_m primes i m = true) by (apply elem_covers_of; rewrite E; by left). split; [|done].
    intros Hip. by rewrite (proj1 (hit_false _ _ _) Hh i Hip) in Hi.
Qed.

(** The product of the clauses, from the essential picks on. *)
Definition after_essentials : qm_solution :=
  match remaining_of on (map (hit primes picks) on) with
  | [] => mk_sol picks (cost_of picks)
  | remaining =>
      match petrick_terms primes n opt picks remaining [0] with
      | None => mk_sol picks SIZE_MAX
      | Some terms =>
          let '(best_bits, best_cost) := best_term primes n opt picks terms in
          if best_cost =? SIZE_MAX then mk_sol picks SIZE_MAX
          else mk_sol (term_pick primes picks best_bits) (cost_of (term_pick primes picks best_bits))
      end
  end.

Lemma after_essentials_minimum : (qs_cost after_essentials <> SIZE_MAX -> minimum_cover after_essentials) /\
  ((length primes <= 10)%nat -> (forall m, m ∈ on -> covers_of primes m <> []) -> qs_cost after_essentials <> SIZE_MAX).
Proof.
  unfold after_essentials. destruct (remaining_of on (map (hit primes picks) on)) as [|r0 rs] eqn:Er.
  { split; [by intros _; apply essentials_alone|]. intros _ _. cbn [qs_cost]. apply Z.lt_neq, valid_pick_cost; [done|done|]. apply essential_lt. }
  rewrite <-Er. destruct (petrick_terms primes n opt picks (remaining_of on (map (hit primes picks) on)) [0]) as [terms|] eqn:Et.
  - destruct (best_term_minimum terms Et) as [H1 H2]. destruct (best_term primes n opt picks terms) as [bits c]. cbn [fst snd] in *.
    destruct (Z.eqb_spec c SIZE_MAX) as [->|Hne].
    + split; [done|]. intros H10 Hc. destruct (few_primes_terms H10 Hc) as (ts & Hts & Hne). rewrite Et in Hts. simplify_eq. specialize (H2 Hne). lia.
    + specialize (H1 Hne). assert (Hcost : c = cost_of (term_pick primes picks bits)) by apply H1. rewrite <-Hcost. done.
  - split; [done|]. intros H10 Hc. destruct (few_primes_terms H10 Hc) as (ts & Hts & Hne). by rewrite Et in Hts.
Qed.
End Essentials.

Lemma petrick_minimum : exists sol, qm_petrick_minimum_cover primes on n opt = Some sol /\
  (qs_cost sol <> SIZE_MAX -> minimum_cover sol) /\
  ((length primes <= 10)%nat -> (forall m, m ∈ on -> covers_of primes m <> []) -> qs_cost sol <> SIZE_MAX).
Proof.
  destruct (decide (on = [])) as [Eon|Eon].
  { exists (mk_sol [] 0). split; [unfold qm_petrick_minimum_cover; by rewrite Eon|]. split; [|done]. intros _.
    split; [rewrite Eon; by intros m Hm%not_elem_of_nil|]. split; [symmetry; apply cost_of_nil|]. intros pick _. cbn [qs_cost]. rewrite <-(cost_of_nil primes n opt).
    apply (cost_of_app primes n opt [] pick Hw). }
  assert (Hun : forall (A : Type) (x y : A), match on with [] => x | _ => y end = y) by (by destruct on). unfold qm_petrick_minimum_cover. rewrite Hun.
  destruct ((length primes =? 0)%nat || (64 <? length primes)%nat) eqn:El.
  { exists no_solution. split; [done|]. split; [done|]. intros H10 Hc. exfalso. apply orb_true_iff in El as [E|E]; [|apply Nat.ltb_lt in E; lia].
    apply Nat.eqb_eq in E. destruct on as [|m0 on']; [done|]. apply (Hc m0); [by left|]. unfold SynthCover.covers_of. by rewrite E. }
  apply orb_false_iff in El as [_ Hl%Nat.ltb_ge].
  destruct (Exists_dec (fun m => covers_of primes m = []) on) as [Hbad%Exists_exists|Hgood].
  { destruct (petrick_essentials_fails primes on (length on) Hbad) as [p ->]. exists (mk_sol p SIZE_MAX). split; [done|]. split; [done|].
    intros _ Hc. destruct Hbad as (m & Hm & E). by apply Hc in Hm. }
  assert (Hc : forall m, m ∈ on -> covers_of primes m <> []) by (intros m Hm E; apply Hgood, Exists_exists; eauto).
  rewrite (replicate_hit primes), (petrick_essentials_ok primes on _ [] Hc (ess_inv_nil primes on)), <-(replicate_hit primes).
  destruct (essential_loop_spec primes on (S (length on))) as (picks & -> & Hnd & Hes); [destruct on; [done|]; cbn; lia|]. cbn [fmap option_fmap option_map].
  exists (after_essentials picks). split; [|by apply after_essentials_minimum]. unfold after_essentials. by repeat case_match.
Qed.
End Minimum.

(** C26: Petrick's method returns [SIZE_MAX] as the cost, or a cover of the ON
    minterms whose cost is the least of all covers by the primes.  With
    at most ten primes that cover the function it never gives up. *)
Theorem petrick_minimum_cover primes on n opt : weights_ok opt -> (n <= 16)%nat ->
  exists sol, qm_petrick_minimum_cover primes on n opt = Some sol /\
    (qs_cost sol <> SIZE_MAX -> minimum_cover primes on n opt sol) /\
    ((length primes <= 10)%nat -> (forall m, m ∈ on -> covers_of primes m <> []) -> qs_cost sol <> SIZE_MAX).
Proof. intros Hw Hn. by apply petrick_minimum. Qed.

Lemma petrick_minimum_cover_witness : exists sol, qm_petrick_minimum_cover cycle_primes cycle_on 3 unit_weights = Some sol /\ minimum_cover cycle_primes cycle_on 3 unit_weights sol.
Proof.
  destruct (petrick_minimum_cover cycle_primes cycle_on 3 unit_weights) as (sol & Hs & Hm & Hc).
  - repeat split; vm_compute; congruence.
  - lia.
  - exists sol. split; [assumption|]. apply Hm, Hc; [vm_compute; lia|].
    intros m Hin. repeat (apply elem_of_cons in Hin as [->|Hin]; [vm_compute; discriminate|]). destruct (not_elem_of_nil _ Hin).
Defined.

Example petrick_of_cycle : qm_petrick_minimum_cover cycle_primes cycle_on 3 unit_weights = Some (mk_sol [0; 3; 4]%nat 8).
Proof. vm_compute. reflexivity. Qed.
