(* ===== verification/SynthGreedy.v ===== *)
(** * SynthGreedy: the greedy cover

    Rows of blocks as sets of minterms, the loops that pick primes until
    nothing is uncovered, and the cleanup that drops redundant picks. *)

From Stdlib Require Import ZArith Lia.
From stdpp Require Import base list sets sorting.
From S2P Require Import Prelude SynthCube SynthPrimes SynthPrimesClaims SynthCover SynthCoverClaims.
From S2P Require Import SynthPetrick.

Open Scope Z_scope.

(** ** Rows of blocks *)

Lemma block_bit_of mi : mi = (block_of mi * 64 + bit_of mi)%nat /\ (bit_of mi < 64)%nat.
Proof. unfold block_of, bit_of. pose proof (Z.div_mod (Z.of_nat mi) 64 ltac:(lia)). pose proof (Z.mod_pos_bound (Z.of_nat mi) 64 ltac:(lia)). lia. Qed.
Lemma block_of_eq b i : (i < 64)%nat -> block_of (b * 64 + i) = b /\ bit_of (b * 64 + i) = i.
Proof.
  intros Hi. unfold block_of, bit_of. replace (Z.of_nat (b * 64 + i)) with (Z.of_nat i + Z.of_nat b * 64) by lia.
  rewrite Z.div_add, Z.mod_add, Z.div_small, Z.mod_small by lia. lia.
Qed.

(** The blocks are words, as many as the minterms need. *)
Definition words (row : list Z) : Prop := Forall (within 64) row.

Lemma words_at row i w : words row -> row !! i = Some w -> within 64 w.
Proof. apply Forall_lookup_1. Qed.
Lemma nth_words row b : words row -> within 64 (nth b row 0).
Proof.
  intros Hw. destruct (row !! b) as [w|] eqn:E; [rewrite (nth_lookup_Some _ _ _ _ E); by eapply Forall_lookup_1|].
  rewrite nth_lookup, E. apply within_0.
Qed.
Lemma block_bit_lt row mi : block_bit row mi = true -> (block_of mi < length row)%nat.
Proof.
  unfold block_bit. intros Hb. destruct (Nat.lt_ge_cases (block_of mi) (length row)) as [|Hge]; [done|]. rewrite nth_overflow, bit_0 in Hb by done. done.
Qed.

Lemma set_block_bit_words mi row : words row -> words (set_block_bit mi row).
Proof.
  intros Hw. unfold set_block_bit, words. apply Forall_alter; [done|]. intros x _ Hx. apply within_set; [done|]. apply block_bit_of.
Qed.
Lemma set_block_bit_spec mi mj row : (block_of mi < length row)%nat -> block_bit (set_block_bit mi row) mj = block_bit row mj || bool_decide (mj = mi).
Proof.
  intros Hl. unfold block_bit, set_block_bit. rewrite !nth_lookup. destruct (decide (block_of mj = block_of mi)) as [E|E].
  - rewrite E, list_lookup_alter_eq. apply lookup_lt_is_Some_2 in Hl as [w ->]. cbn -[Z.lor Z.shiftl bit bit_of]. rewrite bit_set. f_equal.
    apply bool_decide_ext. pose proof (block_bit_of mi). pose proof (block_bit_of mj). split; [lia|by intros ->].
  - rewrite list_lookup_alter_ne by done. rewrite (bool_decide_false (mj = mi)) by (by intros ->). by rewrite orb_false_r.
Qed.

Lemma any_uncovered_true unc : words unc -> any_uncovered unc = true <-> exists mi, block_bit unc mi = true.
Proof.
  intros Hw. unfold any_uncovered. rewrite existsb_exists. split.
  - intros (w & Hin & Hne). apply list_elem_of_In, list_elem_of_lookup_1 in Hin as [b Hb]. apply negb_true_iff, Z.eqb_neq in Hne.
    assert (Hww : within 64 w) by (by eapply Forall_lookup_1). destruct (set_bits w) as [|i l] eqn:Es.
    + exfalso. apply Hne. apply (bits_eq 64); [done|apply within_0|]. intros i Hi. rewrite bit_0. apply not_true_iff_false.
      intros Hbi. apply (elem_set_bits w i Hww) in Hbi. rewrite Es in Hbi. by apply not_elem_of_nil in Hbi.
    + assert (Hi : bit w i = true) by (apply (elem_set_bits w i Hww); rewrite Es; by left). exists (b * 64 + i)%nat. unfold block_bit.
      assert (Hi64 : (i < 64)%nat) by (destruct (Nat.lt_ge_cases i 64); [done|]; by rewrite (within_high 64 w i Hww) in Hi).
      destruct (block_of_eq b i Hi64) as [-> ->]. by rewrite (nth_lookup_Some _ _ _ _ Hb).
  - intros [mi Hb]. pose proof (block_bit_lt _ _ Hb) as Hlt. unfold block_bit in Hb. exists (nth (block_of mi) unc 0). split; [by apply nth_In|].
    apply negb_true_iff, Z.eqb_neq. intros E. by rewrite E, bit_0 in Hb.
Qed.

Lemma not64_bit x i : (i < 64)%nat -> bit (not64 x) i = negb (bit x i).
Proof. intros Hi. unfold not64. rewrite bit_lxor. change (2 ^ 64 - 1) with (2 ^ Z.of_nat 64 - 1). rewrite bit_ones, bool_decide_true by done. apply xorb_true_r. Qed.
Lemma andnot_spec unc row mi : length unc = length row -> block_bit (andnot unc row) mi = block_bit unc mi && negb (block_bit row mi).
Proof.
  intros Hl. unfold block_bit, andnot. rewrite !nth_lookup, lookup_zip_with. destruct (unc !! block_of mi) as [u|] eqn:Eu.
  - assert (is_Some (row !! block_of mi)) as [r ->] by (apply lookup_lt_is_Some; rewrite <-Hl; by eapply lookup_lt_Some).
    cbn. rewrite bit_land, not64_bit by apply block_bit_of. done.
  - cbn. by rewrite bit_0.
Qed.
Lemma andnot_words unc row : words unc -> words row -> words (andnot unc row).
Proof.
  intros Hu Hr. apply Forall_lookup_2. intros i x (u & r & -> & Hui & Hri)%lookup_zip_with_Some. apply within_land; [exact (words_at _ _ _ Hu Hui)|].
  apply Z.lxor_nonneg. destruct (words_at _ _ _ Hr Hri). lia.
Qed.
Lemma andnot_length unc row : length unc = length row -> length (andnot unc row) = length unc.
Proof. intros Hl. unfold andnot. rewrite length_zip_with. lia. Qed.

(** The gain is positive when the row covers something uncovered. *)
Lemma popcount64_pos x : within 64 x -> (0 < popcount64 x)%nat <-> exists i, (i < 64)%nat /\ bit x i = true.
Proof.
  intros Hx. unfold popcount64. rewrite <-(set_bits_spec x Hx). split.
  - destruct (set_bits x) as [|i l] eqn:E; [cbn; lia|]. intros _. exists i. assert (Hi : bit x i = true) by (apply (elem_set_bits x i Hx); rewrite E; by left).
    split; [|done]. destruct (Nat.lt_ge_cases i 64); [done|]. by rewrite (within_high 64 x i Hx) in Hi.
  - intros (i & _ & Hi). apply (elem_set_bits x i Hx) in Hi. destruct (set_bits x); [by apply not_elem_of_nil in Hi|]. cbn. lia.
Qed.
Lemma count_acc {A} (f : A -> nat) l : forall g, fold_left (fun g x => (g + f x)%nat) l g = (g + fold_left (fun g x => (g + f x)%nat) l 0)%nat.
Proof. induction l as [|x l IH]; intros g; cbn [fold_left]; [lia|]. rewrite IH, (IH (0 + _)%nat). lia. Qed.
Lemma count_pos {A} (f : A -> nat) l : (0 < fold_left (fun g x => (g + f x)%nat) l 0)%nat <-> exists x, x ∈ l /\ (0 < f x)%nat.
Proof.
  induction l as [|x l IH]; cbn [fold_left]; [split; [lia|intros (? & H%not_elem_of_nil & _); done]|]. rewrite count_acc. split.
  - intros Hp. destruct (decide (0 < f x)%nat) as [Hx|Hx]; [exists x; split; [by left|done]|].
    destruct (proj1 IH) as (y & Hin & Hy); [lia|]. exists y. split; [by right|done].
  - intros (y & [->|Hin]%elem_of_cons & Hy); [lia|]. assert (0 < fold_left (fun g x => (g + f x)%nat) l 0)%nat by (apply IH; eauto). lia.
Qed.
Lemma gain_pos row unc : words row -> words unc -> (0 < gain_of row unc)%nat <-> exists mi, block_bit row mi = true /\ block_bit unc mi = true.
Proof.
  intros Hr Hu. unfold gain_of. rewrite (count_pos (fun ru : Z * Z => popcount64 (Z.land ru.1 ru.2))). split.
  - intros ([r u] & [b [Hb1 Hb2]%lookup_zip_Some]%list_elem_of_lookup_1 & Hp). cbn [fst snd] in *.
    pose proof (words_at _ _ _ Hr Hb1) as Hrw. pose proof (words_at _ _ _ Hu Hb2) as Huw.
    apply popcount64_pos in Hp as (i & Hi & Hbit); [|apply within_land; [done|apply Huw]]. rewrite bit_land in Hbit. apply andb_true_iff in Hbit as [? ?].
    exists (b * 64 + i)%nat. unfold block_bit. destruct (block_of_eq b i Hi) as [-> ->]. by rewrite (nth_lookup_Some _ _ _ _ Hb1), (nth_lookup_Some _ _ _ _ Hb2).
  - intros (mi & Hbr & Hbu). pose proof (block_bit_lt _ _ Hbr) as [r Er]%lookup_lt_is_Some_2. pose proof (block_bit_lt _ _ Hbu) as [u Eu]%lookup_lt_is_Some_2.
    unfold block_bit in *. rewrite (nth_lookup_Some _ _ _ _ Er) in Hbr. rewrite (nth_lookup_Some _ _ _ _ Eu) in Hbu. exists (r, u). split.
    + apply (list_elem_of_lookup_2 _ (block_of mi)). by apply lookup_zip_Some.
    + cbn [fst snd]. apply popcount64_pos; [apply within_land; [exact (words_at _ _ _ Hr Er)|apply (words_at _ _ _ Hu Eu)]|].
      exists (bit_of mi). split; [apply block_bit_of|]. by rewrite bit_land, Hbr, Hbu.
Qed.

(** ** The matrix *)

Section Greedy.
Context (primes : list qm_implicant) (on : list Z) (n : nat) (opt : two_level_options).
#[local] Abbreviation covers_m := (covers_m primes).
#[local] Abbreviation cov_row := (cov_row primes on).
#[local] Abbreviation hit := (hit primes).

(** The prime covers the minterm at a position of [on]. *)
Definition covers_at (pi mi : nat) : bool := match on !! mi with Some m => covers_m pi m | None => false end.

Lemma covers_at_true pi mi : covers_at pi mi = true <-> exists m, on !! mi = Some m /\ covers_m pi m = true.
Proof. unfold covers_at. destruct (on !! mi) as [m|]; [|naive_solver]. split; [eauto|]. by intros (? & [= <-] & ?). Qed.
Lemma covers_at_lt pi mi : covers_at pi mi = true -> (mi < length on)%nat /\ (pi < length primes)%nat.
Proof. intros (m & Hm & Hc)%covers_at_true. split; [by eapply lookup_lt_Some|by eapply covers_m_lt]. Qed.

Lemma block_in_range mi : (mi < length on)%nat -> (block_of mi < blocks on)%nat.
Proof.
  intros Hm. unfold block_of, blocks. apply Z2Nat.inj_lt; [apply Z.div_pos; lia..|].
  pose proof (Z.div_mod (Z.of_nat mi) 64 ltac:(lia)). pose proof (Z.mod_pos_bound (Z.of_nat mi) 64 ltac:(lia)).
  pose proof (Z.div_mod (Z.of_nat (length on) + 63) 64 ltac:(lia)). pose proof (Z.mod_pos_bound (Z.of_nat (length on) + 63) 64 ltac:(lia)). lia.
Qed.

Lemma cov_row_fold pi l : forall row, words row -> length row = blocks on -> Forall (fun mi => (mi < length on)%nat) l ->
  let row' := fold_left (fun row mi => if covers_at pi mi then set_block_bit mi row else row) l row in
  words row' /\ length row' = blocks on /\ forall mi, block_bit row' mi = true <-> block_bit row mi = true \/ mi ∈ l /\ covers_at pi mi = true.
Proof.
  cbv zeta. induction l as [|x l IH]; intros row Hw Hl Hr; cbn [fold_left]; [split; [done|]; split; [done|]; intros mi; set_solver|].
  apply Forall_cons in Hr as [Hx Hr]. destruct (covers_at pi x) eqn:E.
  - destruct (IH (set_block_bit x row)) as (H1 & H2 & H3); [by apply set_block_bit_words|by unfold set_block_bit; rewrite length_alter|done|]. split; [done|]. split; [done|].
    intros mi. rewrite H3, set_block_bit_spec, orb_true_iff, bool_decide_eq_true by (rewrite Hl; by apply block_in_range). set_solver.
  - destruct (IH row Hw Hl Hr) as (H1 & H2 & H3). split; [done|]. split; [done|]. intros mi. rewrite H3, elem_of_cons.
    split; [tauto|]. intros [?|[[->|?] ?]]; [tauto|congruence|tauto].
Qed.
Lemma zero_words k : words (replicate k 0).
Proof. apply Forall_replicate, within_0. Qed.
Lemma zero_block_bit k mi : block_bit (replicate k 0) mi = false.
Proof.
  unfold block_bit. replace (nth (block_of mi) (replicate k 0) 0) with 0; [apply bit_0|]. rewrite nth_lookup.
  destruct (replicate k 0 !! block_of mi) eqn:E; [|done]. by apply lookup_replicate in E as [-> _].
Qed.
Lemma cov_row_spec pi : words (cov_row pi) /\ length (cov_row pi) = blocks on /\ forall mi, block_bit (cov_row pi) mi = covers_at pi mi.
Proof.
  destruct (cov_row_fold pi (seq 0 (length on)) (replicate (blocks on) 0)) as (H1 & H2 & H3); [apply zero_words|apply length_replicate|apply all_in_range|].
  split; [exact H1|]. split; [exact H2|]. intros mi. apply eq_true_iff_eq. etrans; [apply H3|]. rewrite zero_block_bit, elem_of_seq. split; [naive_solver|].
  intros Hc. right. split; [|done]. apply covers_at_lt in Hc. lia.
Qed.
Lemma cov_row_bit pi mi : block_bit (cov_row pi) mi = covers_at pi mi.
Proof. apply cov_row_spec. Qed.
Lemma cov_row_words pi : words (cov_row pi).
Proof. apply cov_row_spec. Qed.

Lemma blocks_last : (length on <> 0)%nat -> Z.of_nat (length on) mod 64 <> 0 -> Z.of_nat (length on) = (Z.of_nat (blocks on) - 1) * 64 + Z.of_nat (length on) mod 64 /\ (0 < blocks on)%nat.
Proof.
  intros H0 Hr. unfold blocks. pose proof (Z.div_mod (Z.of_nat (length on)) 64 ltac:(lia)). pose proof (Z.mod_pos_bound (Z.of_nat (length on)) 64 ltac:(lia)).
  pose proof (Z.div_mod (Z.of_nat (length on) + 63) 64 ltac:(lia)). pose proof (Z.mod_pos_bound (Z.of_nat (length on) + 63) 64 ltac:(lia)). lia.
Qed.
Lemma blocks_whole : Z.of_nat (length on) mod 64 = 0 -> Z.of_nat (length on) = Z.of_nat (blocks on) * 64.
Proof.
  intros Hr. unfold blocks. pose proof (Z.div_mod (Z.of_nat (length on)) 64 ltac:(lia)).
  pose proof (Z.div_mod (Z.of_nat (length on) + 63) 64 ltac:(lia)). pose proof (Z.mod_pos_bound (Z.of_nat (length on) + 63) 64 ltac:(lia)). lia.
Qed.
Lemma full_word_bit i : bit (2 ^ 64 - 1) i = bool_decide (i < 64)%nat.
Proof. change (2 ^ 64 - 1) with (2 ^ Z.of_nat 64 - 1). apply bit_ones. Qed.
Lemma full_block_bit k mi : block_bit (replicate k (2 ^ 64 - 1)) mi = bool_decide (block_of mi < k)%nat.
Proof.
  unfold block_bit. rewrite nth_lookup. case_bool_decide as H.
  - rewrite lookup_replicate_2 by done. etrans; [apply full_word_bit|]. apply bool_decide_true, block_bit_of.
  - rewrite lookup_ge_None_2 by (rewrite length_replicate; lia). apply bit_0.
Qed.
Lemma ones_within k : (k <= 64)%nat -> within 64 (2 ^ Z.of_nat k - 1).
Proof.
  intros Hk. split; [assert (0 < 2 ^ Z.of_nat k) by (apply Z.pow_pos_nonneg; lia); lia|].
  assert (2 ^ Z.of_nat k <= 2 ^ Z.of_nat 64) by (apply Z.pow_le_mono_r; lia). lia.
Qed.
Lemma full_words k : words (replicate k (2 ^ 64 - 1)).
Proof. apply Forall_replicate. exact (ones_within 64 (le_n _)). Qed.

Lemma uncovered_init_spec : (length on <> 0)%nat -> words (uncovered_init on) /\ length (uncovered_init on) = blocks on /\
  forall mi, block_bit (uncovered_init on) mi = bool_decide (mi < length on)%nat.
Proof.
  intros H0. unfold uncovered_init. set (rem := Z.of_nat (length on) mod 64). destruct (Z.eqb_spec rem 0) as [Hr|Hr].
  - split; [apply full_words|]. split; [apply length_replicate|]. intros mi. rewrite full_block_bit. apply bool_decide_ext.
    pose proof (blocks_whole Hr). pose proof (block_bit_of mi). lia.
  - destruct (blocks_last H0 Hr) as [Hb Hb0]. fold rem in Hb. pose proof (Z.mod_pos_bound (Z.of_nat (length on)) 64 ltac:(lia)) as Hrem. fold rem in Hrem.
    assert (Hsh : Z.shiftl 1 rem - 1 = 2 ^ Z.of_nat (Z.to_nat rem) - 1) by (rewrite Z2Nat.id, Z.shiftl_mul_pow2 by lia; lia). rewrite Hsh.
    split; [apply Forall_insert; [apply full_words|apply ones_within; lia]|]. split; [by rewrite length_insert, length_replicate|].
    intros mi. pose proof (block_bit_of mi) as [Hmi Hlt]. destruct (decide (block_of mi = (blocks on - 1)%nat)) as [E|E].
    + unfold block_bit. rewrite nth_lookup, E, list_lookup_insert_eq by (rewrite length_replicate; lia). cbn [from_option default]. unfold default, id. rewrite bit_ones.
      apply bool_decide_ext. lia.
    + assert (Hfull : block_bit (<[(blocks on - 1)%nat := 2 ^ Z.of_nat (Z.to_nat rem) - 1]> (replicate (blocks on) (2 ^ 64 - 1))) mi = block_bit (replicate (blocks on) (2 ^ 64 - 1)) mi).
      { unfold block_bit. by rewrite !nth_lookup, list_lookup_insert_ne by done. }
      rewrite Hfull, full_block_bit. apply bool_decide_ext. lia.
Qed.

(** ** The minterms of a row *)

Lemma elem_row_blocks row mi : words row ->
  mi ∈ (bw ← zip (seq 0 (length row)) row; (fun b => (bw.1 * 64 + b)%nat) <$> set_bits bw.2) <-> block_bit row mi = true.
Proof.
  intros Hw. rewrite list_elem_of_bind. split.
  - intros ([k w] & (b & -> & Hb)%list_elem_of_fmap & [j [Hj1 Hj2]%lookup_zip_Some]%list_elem_of_lookup_1). cbn [fst snd] in *.
    apply lookup_seq in Hj1 as [-> _]. pose proof (words_at _ _ _ Hw Hj2) as Hww. apply (elem_set_bits w b Hww) in Hb.
    assert (Hb64 : (b < 64)%nat) by (destruct (Nat.lt_ge_cases b 64); [done|]; by rewrite (within_high 64 w b Hww) in Hb).
    unfold block_bit. destruct (block_of_eq j b Hb64) as [Hj Hb']. rewrite Nat.add_0_l, Hj, Hb'. by rewrite (nth_lookup_Some _ _ _ _ Hj2).
  - intros Hb. pose proof (block_bit_lt _ _ Hb) as Hlt. pose proof Hlt as [w Ew]%lookup_lt_is_Some_2. unfold block_bit in Hb. rewrite (nth_lookup_Some _ _ _ _ Ew) in Hb.
    exists (block_of mi, w). split.
    + apply list_elem_of_fmap. exists (bit_of mi). split; [apply block_bit_of|]. apply elem_set_bits; [exact (words_at _ _ _ Hw Ew)|done].
    + apply (list_elem_of_lookup_2 _ (block_of mi)). apply lookup_zip_Some. split; [|done]. apply lookup_seq. split; [done|done].
Qed.
Lemma elem_row_members row mi : words row -> mi ∈ row_members on row <-> (mi < length on)%nat /\ block_bit row mi = true.
Proof. intros Hw. unfold row_members. rewrite list_elem_of_In, filter_In, <-list_elem_of_In, elem_row_blocks, Nat.ltb_lt by done. tauto. Qed.
Lemma elem_members_row pi mi : mi ∈ row_members on (cov_row pi) <-> covers_at pi mi = true.
Proof.
  rewrite elem_row_members, cov_row_bit by apply cov_row_words. split; [tauto|]. intros Hc. split; [|done]. apply (covers_at_lt _ _ Hc).
Qed.
Lemma row_members_NoDup row : words row -> NoDup (row_members on row).
Proof.
  intros Hw. unfold row_members. apply NoDup_ListNoDup, List.NoDup_filter, NoDup_ListNoDup. apply NoDup_bind.
  - intros [k1 w1] [k2 w2] x H1 H2 Hx1 Hx2. apply list_elem_of_fmap in Hx1 as (b1 & -> & Hb1), Hx2 as (b2 & He & Hb2). cbn [fst snd] in *.
    apply list_elem_of_lookup_1 in H1 as [j1 [Hj1 Hw1]%lookup_zip_Some], H2 as [j2 [Hj2 Hw2]%lookup_zip_Some].
    apply lookup_seq in Hj1 as [-> _], Hj2 as [-> _]. assert (Hlt : forall j w b, row !! j = Some w -> b ∈ set_bits w -> (b < 64)%nat).
    { intros j w b Hjw Hb. pose proof (words_at _ _ _ Hw Hjw) as Hww. apply (elem_set_bits w b Hww) in Hb.
      destruct (Nat.lt_ge_cases b 64); [done|]. by rewrite (within_high 64 w b Hww) in Hb. }
    pose proof (Hlt _ _ _ Hw1 Hb1). pose proof (Hlt _ _ _ Hw2 Hb2). assert (j1 = j2) as -> by lia. congruence.
  - intros [k w] [j [_ Hj]%lookup_zip_Some]%list_elem_of_lookup_1. apply NoDup_fmap_2; [intros x y ?; lia|]. cbn [snd].
    rewrite set_bits_spec by exact (words_at _ _ _ Hw Hj). apply NoDup_ListNoDup, List.NoDup_filter, seq_NoDup.
  - apply (NoDup_fmap_1 fst). change (NoDup ((zip (seq 0 (length row)) row).*1)). rewrite fst_zip by (rewrite length_seq; lia). apply NoDup_seq.
Qed.
End Greedy.
