(* ===== verification/SynthGreedyClaims.v ===== *)
(** * SynthGreedyClaims: the greedy cover covers the function

    The loop ends with a cover when there is one, and the cleanup leaves
    picks that are all needed. *)

From Stdlib Require Import ZArith Lia.
From stdpp Require Import base list sets sorting.
From S2P Require Import Prelude SynthCube SynthPrimes SynthPrimesClaims SynthCover SynthCoverClaims.
From S2P Require Import SynthPetrick SynthGreedy.

Open Scope Z_scope.

Section Loops.
Context (primes : list qm_implicant) (on : list Z) (n : nat) (opt : two_level_options).
#[local] Abbreviation covers_m := (covers_m primes).
#[local] Abbreviation cov_row := (cov_row primes on).
#[local] Abbreviation covers_at := (covers_at primes on).
#[local] Abbreviation apply_pick := (apply_pick primes on).

(** ** Picking *)

(** The picks are marked and distinct, and the uncovered minterms are those
    that no pick covers. *)
Record greedy_inv (g : greedy) : Prop := {
  gi_words : words (g_unc g);
  gi_blocks : length (g_unc g) = blocks on;
  gi_picked_length : length (g_picked g) = length primes;
  gi_picked : forall pi, g_picked g !! pi = Some true <-> pi ∈ g_pick g;
  gi_nodup : NoDup (g_pick g);
  gi_uncovered : forall mi, block_bit (g_unc g) mi = true <-> (mi < length on)%nat /\ forall pi, pi ∈ g_pick g -> covers_at pi mi = false
}.

Lemma picked_true g pi : greedy_inv g -> (pi < length primes)%nat -> nth pi (g_picked g) true = true <-> pi ∈ g_pick g.
Proof.
  intros Hg Hpi. rewrite <-(gi_picked g Hg). rewrite <-(gi_picked_length g Hg) in Hpi. apply lookup_lt_is_Some_2 in Hpi as [b Hb].
  rewrite (nth_lookup_Some _ _ _ _ Hb), Hb. naive_solver.
Qed.
Lemma picked_lt g pi : greedy_inv g -> pi ∈ g_pick g -> (pi < length primes)%nat.
Proof. intros Hg Hp%(gi_picked g Hg). apply lookup_lt_Some in Hp. by rewrite (gi_picked_length g Hg) in Hp. Qed.
Lemma pick_length g : greedy_inv g -> (length (g_pick g) <= length primes)%nat.
Proof.
  intros Hg. rewrite <-(length_seq (length primes) 0). apply submseteq_length, NoDup_submseteq; [apply (gi_nodup g Hg)|].
  intros pi Hp%(picked_lt g _ Hg). apply elem_of_seq. lia.
Qed.

Lemma apply_pick_inv g pi : greedy_inv g -> (pi < length primes)%nat ->
  greedy_inv (apply_pick pi g) /\ g_pick (apply_pick pi g) = if bool_decide (pi ∈ g_pick g) then g_pick g else g_pick g ++ [pi].
Proof.
  intros Hg Hpi. unfold SynthCover.apply_pick. pose proof (picked_true g pi Hg Hpi) as Hp. destruct (nth pi (g_picked g) true).
  - split; [done|]. rewrite bool_decide_true by (by apply Hp). done.
  - assert (Hni : pi ∉ g_pick g) by (intros Hi; apply Hp in Hi; done). rewrite bool_decide_false by done. split; [|done].
    destruct (cov_row_spec primes on pi) as (Hrw & Hrl & Hrb). constructor; cbn [g_unc g_picked g_pick].
    + by apply andnot_words; [apply (gi_words g Hg)|].
    + rewrite andnot_length; [apply (gi_blocks g Hg)|]. by rewrite (gi_blocks g Hg).
    + by rewrite length_insert, (gi_picked_length g Hg).
    + intros q. rewrite list_lookup_insert_Some, elem_of_app, list_elem_of_singleton, (gi_picked g Hg), (gi_picked_length g Hg).
      destruct (decide (q = pi)) as [->|]; naive_solver.
    + apply NoDup_app. split; [apply (gi_nodup g Hg)|]. split; [intros x Hx ->%list_elem_of_singleton; done|apply NoDup_singleton].
    + intros mi. rewrite andnot_spec by (by rewrite (gi_blocks g Hg)). rewrite andb_true_iff, negb_true_iff, (gi_uncovered g Hg), Hrb.
      split; [intros [[? Ha] Hc]; split; [done|]; intros q; rewrite elem_of_app, list_elem_of_singleton; intros [?| ->]; auto|].
      intros [? Ha]. split; [split; [done|]|]; [intros q Hq|]; apply Ha, elem_of_app; [by left|right; by apply list_elem_of_singleton].
Qed.
Lemma apply_pick_elem g pi : greedy_inv g -> (pi < length primes)%nat -> pi ∈ g_pick (apply_pick pi g) /\ g_pick g ⊆ g_pick (apply_pick pi g).
Proof. intros Hg Hpi. destruct (apply_pick_inv g pi Hg Hpi) as [_ ->]. case_bool_decide; set_solver. Qed.

Lemma init_inv : on <> [] -> greedy_inv (mk_greedy (uncovered_init on) (replicate (length primes) false) []).
Proof.
  intros Hon. destruct (uncovered_init_spec on) as (H1 & H2 & H3); [by destruct on|]. constructor; cbn [g_unc g_picked g_pick]; [done|done| | |constructor|].
  - apply length_replicate.
  - intros pi. rewrite lookup_replicate. split; [intros [? _]; done|intros Hi; by apply not_elem_of_nil in Hi].
  - intros mi. rewrite H3, bool_decide_eq_true. split; [|tauto]. intros Hm. split; [done|]. intros pi Hi. by apply not_elem_of_nil in Hi.
Qed.

(** ** The essential primes *)

(** The last prime that is counted for a minterm covers it. *)
Definition counts_ok (counts : list (nat * option nat)) : Prop := forall mi c pi, counts !! mi = Some (c, Some pi) -> covers_at pi mi = true.

Lemma cover_counts_ok : counts_ok (cover_counts primes on).
Proof.
  unfold cover_counts. generalize (seq 0 (length primes)). intros pis.
  assert (H0 : counts_ok (replicate (length on) (0%nat, None))) by (intros mi c pi [? _]%lookup_replicate; done).
  revert H0. generalize (replicate (length on) (0%nat, @None nat)). induction pis as [|pi pis IH]; intros acc Hacc; [done|]. cbn [fold_left]. apply IH.
  assert (Hm : Forall (fun mi => covers_at pi mi = true) (row_members on (cov_row pi))) by (apply Forall_forall; intros mi; apply elem_members_row).
  revert acc Hacc Hm. generalize (row_members on (cov_row pi)). intros mis. induction mis as [|mi mis IH']; intros acc Hacc Hm; [done|].
  apply Forall_cons in Hm as [Hmi Hm]. cbn [fold_left]. apply IH'; [|done]. intros mj c q. rewrite list_lookup_alter. case_decide as E; [|apply Hacc].
  subst mj. intros ([c' l'] & _ & He)%fmap_Some. by simplify_eq.
Qed.

Definition settled (counts : list (nat * option nat)) (mi : nat) (g : greedy) : Prop := forall pi, counts !! mi = Some (1%nat, Some pi) -> pi ∈ g_pick g.

Lemma greedy_step_inv counts g changed mi : counts_ok counts -> greedy_inv g ->
  let st := greedy_step primes on counts (g, changed) mi in greedy_inv st.1 /\ g_pick g ⊆ g_pick st.1 /\
    (block_bit (g_unc g) mi = true -> settled counts mi st.1).
Proof.
  intros Hc Hg. cbv zeta. unfold greedy_step. cbn [fst]. destruct (block_bit (g_unc g) mi) eqn:Eb; cbn [negb]; [|done].
  destruct (counts !! mi) as [[[|[|c]] [pi|]]|] eqn:Ec; cbn [fst];
    try (split; [done|]; split; [done|]; intros _ q; rewrite Ec; intros [=]; done).
  destruct (covers_at_lt primes on pi mi) as [_ Hpi]; [by eapply Hc|]. destruct (apply_pick_elem g pi Hg Hpi) as [H1 H2].
  split; [by apply apply_pick_inv|]. split; [done|]. intros _ q. rewrite Ec. by intros [= <-].
Qed.
Lemma greedy_fold mis : forall counts g changed, counts_ok counts -> greedy_inv g ->
  let st := fold_left (greedy_step primes on counts) mis (g, changed) in greedy_inv st.1 /\ g_pick g ⊆ g_pick st.1 /\
    (forall mi, mi ∈ mis -> block_bit (g_unc st.1) mi = true -> settled counts mi st.1).
Proof.
  cbv zeta. induction mis as [|mi mis IH]; intros counts g changed Hc Hg; cbn [fold_left]; [split; [done|]; split; [done|]; intros ? Hi; by apply not_elem_of_nil in Hi|].
  destruct (greedy_step_inv counts g changed mi Hc Hg) as (H1 & H2 & H3). destruct (greedy_step primes on counts (g, changed) mi) as [g1 c1]. cbn [fst] in *.
  destruct (IH counts g1 c1 Hc H1) as (H4 & H5 & H6). split; [done|]. split; [set_solver|]. intros mj [->|Hj]%elem_of_cons Hb; [|by apply H6].
  intros pi Hpi. apply H5, H3; [|done]. apply (gi_uncovered g Hg). apply (gi_uncovered _ H4) in Hb as [? Hb]. split; [done|]. intros q Hq. apply Hb. set_solver.
Qed.
(** Nothing is left for a second pass. *)
Lemma greedy_fold_idle mis counts g : counts_ok counts -> greedy_inv g -> (forall mi, mi ∈ mis -> block_bit (g_unc g) mi = true -> settled counts mi g) ->
  fold_left (greedy_step primes on counts) mis (g, false) = (g, false).
Proof.
  intros Hc Hg. induction mis as [|mi mis IH]; intros Hs; [done|]. cbn [fold_left].
  replace (greedy_step primes on counts (g, false) mi) with (g, false); [apply IH; intros mj Hj; apply Hs; by right|].
  unfold greedy_step. cbn [fst]. destruct (block_bit (g_unc g) mi) eqn:Eb; [|done]. cbn [negb].
  destruct (counts !! mi) as [[[|[|c]] [pi|]]|] eqn:Ec; try done. exfalso.
  assert (Hin : pi ∈ g_pick g) by (apply (Hs mi); [by left|done|done]). apply (gi_uncovered g Hg) in Eb as [_ Hb].
  specialize (Hc _ _ _ Ec). by rewrite (Hb pi Hin) in Hc.
Qed.
Lemma greedy_essentials_inv fuel counts g : (2 <= fuel)%nat -> counts_ok counts -> greedy_inv g -> exists g', greedy_essentials primes on fuel counts g = Some g' /\ greedy_inv g'.
Proof.
  intros Hf Hc Hg. destruct fuel as [|[|fuel]]; [lia..|]. cbn [greedy_essentials].
  destruct (greedy_fold (seq 0 (length on)) counts g false Hc Hg) as (H1 & _ & H2). destruct (fold_left _ _ (g, false)) as [g1 [|]]; cbn [fst] in *; [|by exists g1].
  rewrite (greedy_fold_idle (seq 0 (length on)) counts g1 Hc H1 H2). by exists g1.
Qed.

(** ** The choice of a prime *)

Context (sort_cands : list cand_t -> list cand_t) (Hsort : forall l, sort_cands l ≡ₚ l).

(** A prime that covers something that is uncovered. *)
Definition useful (g : greedy) (pi : nat) : Prop := (pi < length primes)%nat /\ (pi ∉ g_pick g) /\ exists mi, covers_at pi mi = true /\ block_bit (g_unc g) mi = true.

Lemma gain_useful g pi : greedy_inv g -> (0 < gain_of (cov_row pi) (g_unc g))%nat <-> exists mi, covers_at pi mi = true /\ block_bit (g_unc g) mi = true.
Proof. intros Hg. rewrite gain_pos; [|apply cov_row_words|apply (gi_words g Hg)]. by setoid_rewrite cov_row_bit. Qed.

Lemma scan_fold pis : forall g st, greedy_inv g -> Forall (fun pi => (pi < length primes)%nat) pis ->
  Forall (fun c => useful g (cd_pi c)) st.1 -> (forall b, st.2 = Some b -> useful g (cd_pi b)) ->
  let st' := fold_left (scan_prime primes on n opt g) pis st in
  Forall (fun c => useful g (cd_pi c)) st'.1 /\ (forall b, st'.2 = Some b -> useful g (cd_pi b)) /\
  (st'.2 = None -> st.2 = None /\ forall pi, pi ∈ pis -> ~ useful g pi).
Proof.
  cbv zeta. induction pis as [|pi pis IH]; intros g st Hg Hpis H1 H2; cbn [fold_left].
  { split; [done|]. split; [done|]. intros E. split; [done|]. intros ? Hi. by apply not_elem_of_nil in Hi. }
  apply Forall_cons in Hpis as [Hpi Hpis].
  assert (Hst : let st1 := scan_prime primes on n opt g st pi in Forall (fun c => useful g (cd_pi c)) st1.1 /\ (forall b, st1.2 = Some b -> useful g (cd_pi b)) /\
    (st1.2 = None -> st.2 = None /\ ~ useful g pi)).
  { cbv zeta. unfold scan_prime. pose proof (picked_true g pi Hg Hpi) as Hp. destruct (nth pi (g_picked g) true).
    { split; [done|]. split; [done|]. intros E. split; [done|]. intros (_ & Hn & _). by apply Hn, Hp. }
    pose proof (gain_useful g pi Hg) as Hgain. destruct (Nat.eqb_spec (gain_of (cov_row pi) (g_unc g)) 0) as [E|E].
    { split; [done|]. split; [done|]. intros E'. split; [done|]. intros (_ & _ & Hu). apply Hgain in Hu. rewrite E in Hu. by apply Nat.nlt_0_r in Hu. }
    assert (Hu : useful g pi) by (split; [done|]; split; [intros Hi%Hp; done|]; apply Hgain; by apply Nat.neq_0_lt_0). cbn [fst snd]. split.
    { case_match; [|done]. apply Forall_app. split; [done|]. by constructor. }
    split; [|destruct st.2; [case_match; done|done]]. intros b. destruct (st.2) as [b0|] eqn:E0; [case_match|]; intros [= <-]; cbn [cd_pi]; auto. }
  destruct Hst as (H3 & H4 & H5). destruct (IH g _ Hg Hpis H3 H4) as (H6 & H7 & H8). split; [done|]. split; [done|].
  intros E. destruct (H8 E) as [E1 H9]. destruct (H5 E1) as [E2 H10]. split; [done|]. intros q [->|Hq]%elem_of_cons; auto.
Qed.

Lemma lookahead_in sorted unc best : lookahead primes on n opt sorted unc best = best \/ lookahead primes on n opt sorted unc best ∈ cd_pi <$> sorted.
Proof.
  unfold lookahead. set (top := take lookahead_k sorted). set (f := fun (st : nat * option Z) c => _).
  assert (Hgen : forall l p s, (fold_left f l (p, s)).1 = p \/ (fold_left f l (p, s)).1 ∈ cd_pi <$> l).
  { induction l as [|c l IH]; intros p s; cbn [fold_left]; [by left|]. unfold f at 2 4. cbn [snd].
    destruct s as [b|]; [case_match|]; (edestruct IH as [Hx|Hx]; [rewrite Hx|]); try (by left); right; rewrite fmap_cons; try (by left); right; exact Hx. }
  destruct (Hgen top best None) as [H|H]; [by left|right]. apply list_elem_of_fmap in H as (c & Hc & Hin). apply list_elem_of_fmap. exists c. split; [exact Hc|].
  apply list_elem_of_lookup_1 in Hin as [i Hi]. apply lookup_take_Some in Hi as [Hi _]. by eapply list_elem_of_lookup_2.
Qed.

Lemma greedy_choice_spec g : greedy_inv g ->
  match greedy_choice primes on n opt sort_cands g with
  | Some pi => useful g pi
  | None => forall pi, ~ useful g pi
  end.
Proof.
  intros Hg. unfold greedy_choice.
  destruct (scan_fold (seq 0 (length primes)) g ([], None) Hg) as (H1 & H2 & H3); [by apply Forall_forall; intros pi Hp%elem_of_seq; lia|done|done|].
  destruct (fold_left _ _ ([], None)) as [cands [b|]]; cbn [fst snd] in *.
  - specialize (H2 b eq_refl). case_match; [|done]. destruct (lookahead_in (sort_cands cands) (g_unc g) (cd_pi b)) as [->|Hin]; [done|].
    apply list_elem_of_fmap in Hin as (c & -> & Hc). rewrite Hsort in Hc. by eapply Forall_forall in H1.
  - destruct H3 as [_ H3]; [done|]. intros pi Hu. apply (H3 pi); [|done]. apply elem_of_seq. destruct Hu. lia.
Qed.

(** ** The loop *)

Lemma greedy_loop_spec fuel : forall g, greedy_inv g -> (length primes < length (g_pick g) + fuel)%nat ->
  exists r, greedy_loop primes on n opt sort_cands fuel g = Some r /\
    match r with
    | inl _ => exists m, m ∈ on /\ covers_of primes m = []
    | inr g' => greedy_inv g' /\ forall mi, block_bit (g_unc g') mi = false
    end.
Proof.
  induction fuel as [|fuel IH]; intros g Hg Hf; [pose proof (pick_length g Hg); lia|]. cbn [greedy_loop].
  destruct (any_uncovered (g_unc g)) eqn:Eu.
  2: { eexists. split; [done|]. split; [done|]. intros mi. apply not_true_iff_false. intros Hb. apply not_true_iff_false in Eu. apply Eu.
       apply any_uncovered_true; [apply (gi_words g Hg)|eauto]. }
  pose proof (greedy_choice_spec g Hg) as Hch. destruct (greedy_choice primes on n opt sort_cands g) as [pi|].
  - destruct Hch as (Hpi & Hni & _). destruct (apply_pick_inv g pi Hg Hpi) as [Hg' Hp']. apply IH; [done|]. rewrite Hp', bool_decide_false, length_app by done. cbn. lia.
  - eexists. split; [done|]. apply any_uncovered_true in Eu as [mi Hb]; [|apply (gi_words g Hg)].
    pose proof (proj1 (gi_uncovered g Hg mi) Hb) as [Hmi Hun]. apply lookup_lt_is_Some_2 in Hmi as [m Hm]. exists m. split; [by eapply list_elem_of_lookup_2|].
    destruct (covers_of primes m) as [|pi cs] eqn:Ec; [done|]. exfalso.
    assert (Hcm : covers_m pi m = true) by (apply elem_covers_of; rewrite Ec; by left). assert (Hca : covers_at pi mi = true) by (apply covers_at_true; eauto).
    apply (Hch pi). split; [by eapply covers_m_lt|]. split; [|eauto]. intros Hin. by rewrite (Hun pi Hin) in Hca.
Qed.
End Loops.

(** ** The cleanup *)

Lemma fold_alter {A} (f : A -> A) (l : list nat) : NoDup l -> forall (cnt : list A) (k : nat), fold_left (fun c mi => alter f mi c) l cnt !! k = if bool_decide (k ∈ l) then f <$> cnt !! k else cnt !! k.
Proof.
  induction 1 as [|x l Hx _ IH]; intros cnt k; cbn [fold_left]; [done|]. rewrite IH, list_lookup_alter.
  destruct (decide (x = k)) as [->|E]; [rewrite bool_decide_false, bool_decide_true by (done || by left); done|].
  by rewrite (bool_decide_ext (k ∈ x :: l) (k ∈ l)) by (rewrite elem_of_cons; naive_solver).
Qed.
Lemma fold_alter_length {A} (f : A -> A) (l : list nat) : forall cnt : list A, length (fold_left (fun c mi => alter f mi c) l cnt) = length cnt.
Proof. induction l as [|x l IH]; intros cnt; cbn [fold_left]; [done|]. by rewrite IH, length_alter. Qed.

Lemma swap_remove_spec {A} i (pick : list A) pi : pick !! i = Some pi ->
  pick ≡ₚ pi :: swap_remove i pick /\ length pick = S (length (swap_remove i pick)) /\ forall j, (j < i)%nat -> swap_remove i pick !! j = pick !! j.
Proof.
  intros Hi. unfold swap_remove. destruct (last pick) as [x|] eqn:El; [|apply last_None in El; by subst]. apply last_Some in El as [l ->].
  rewrite length_app. cbn [length]. replace (length l + 1 - 1)%nat with (length l) by lia. pose proof (lookup_lt_Some _ _ _ Hi) as Hlt. rewrite length_app in Hlt. cbn in Hlt.
  destruct (decide (i = length l)) as [->|Hne].
  - pose proof Hi as Hx. rewrite lookup_app_r, Nat.sub_diag in Hx by lia. cbn in Hx. simplify_eq. rewrite (list_insert_id _ _ _ Hi), take_app_length.
    split; [apply Permutation_app_comm|]. split; [lia|]. intros j Hj. by rewrite lookup_app_l.
  - rewrite lookup_app_l in Hi by lia. rewrite insert_app_l by lia. rewrite take_app_length' by (by rewrite length_insert). split; [|split; [rewrite length_insert; lia|]].
    + rewrite (insert_take_drop l i x) by lia. rewrite <-(take_drop_middle l i pi Hi) at 1. rewrite <-app_assoc, <-app_comm_cons. solve_Permutation.
    + intros j Hj. rewrite list_lookup_insert_ne, lookup_app_l by lia. done.
Qed.

Section Cleanup.
Context (primes : list qm_implicant) (on : list Z).
#[local] Abbreviation covers_at := (covers_at primes on).

(** How many of the picks cover a minterm. *)
Definition cover_number (pick : list nat) (mi : nat) : Z := Z.of_nat (length (List.filter (fun pi => covers_at pi mi) pick)).

Lemma cover_number_perm p q mi : p ≡ₚ q -> cover_number p mi = cover_number q mi.
Proof.
  intros HP. unfold cover_number. f_equal. induction HP as [|x l l' _ IH|x y l|l l' l'' _ IH1 _ IH2]; cbn; [done| | |congruence].
  - destruct (covers_at x mi); cbn; congruence.
  - by destruct (covers_at x mi), (covers_at y mi).
Qed.
Lemma cover_number_cons pi p mi : cover_number (pi :: p) mi = cover_number p mi + if covers_at pi mi then 1 else 0.
Proof. unfold cover_number. cbn [List.filter]. destruct (covers_at pi mi); cbn [length]; lia. Qed.
Lemma cover_number_bound p mi : 0 <= cover_number p mi <= Z.of_nat (length p).
Proof. unfold cover_number. pose proof (filter_length_le (fun pi => covers_at pi mi) p). lia. Qed.

(** The counts are never above the numbers, and exact when they do not
    reach the largest 16-bit number. *)
Definition counts_inv (exact : Prop) (pick : list nat) (cnt : list Z) : Prop :=
  length cnt = length on /\ forall mi v, cnt !! mi = Some v -> 0 <= v <= cover_number pick mi /\ (exact -> v = cover_number pick mi).

Lemma add_counts_inv (E : Prop) pick cnt pi : (E -> Z.of_nat (length pick) < 65535) -> counts_inv E pick cnt -> counts_inv E (pi :: pick) (add_counts primes on cnt pi).
Proof.
  intros HE [Hl Hc]. unfold add_counts. split; [by rewrite fold_alter_length|]. intros mi v. rewrite fold_alter by (apply row_members_NoDup, cov_row_words).
  rewrite (bool_decide_ext _ _ (elem_members_row primes on pi mi)), cover_number_cons. pose proof (cover_number_bound pick mi).
  case_bool_decide as Hm.
  - intros (w & Hw & ->)%fmap_Some. rewrite Hm. destruct (Hc mi w Hw) as [H1 H2]. destruct (Z.eqb_spec w 65535); (split; [lia|]); intros Hx; specialize (H2 Hx); specialize (HE Hx); lia.
  - intros Hw. apply not_true_iff_false in Hm. rewrite Hm. destruct (Hc mi v Hw) as [H1 H2]. split; [lia|]. intros Hx. specialize (H2 Hx). lia.
Qed.
Lemma add_all_counts (E : Prop) picks : forall pick cnt, (E -> Z.of_nat (length (pick ++ picks)) <= 65535) -> counts_inv E pick cnt ->
  counts_inv E (rev picks ++ pick) (fold_left (add_counts primes on) picks cnt).
Proof.
  induction picks as [|pi picks IH]; intros pick cnt HE Hc; cbn [fold_left rev]; [done|]. rewrite <-app_assoc. cbn [app]. rewrite length_app in HE. cbn [length] in HE. apply IH.
  - rewrite length_app. cbn [length]. intros Hx. specialize (HE Hx). lia.
  - apply add_counts_inv; [|done]. intros Hx. specialize (HE Hx). lia.
Qed.
Lemma initial_counts (E : Prop) pick : (E -> Z.of_nat (length pick) <= 65535) -> counts_inv E pick (fold_left (add_counts primes on) pick (replicate (length on) 0)).
Proof.
  intros HE. destruct (add_all_counts E pick [] (replicate (length on) 0)) as [H1 H2]; [done|split; [apply length_replicate|]|].
  { intros mi v [-> _]%lookup_replicate. done. }
  rewrite app_nil_r in H2. split; [done|]. intros mi v Hv. rewrite (cover_number_perm pick (rev pick)); [by apply H2|]. apply Permutation_rev.
Qed.
Lemma sub_counts_inv E pick pick' cnt pi : pick ≡ₚ pi :: pick' -> counts_inv E pick cnt -> counts_inv E pick' (sub_counts primes on cnt pi) /\
  forall mi v, cnt !! mi = Some v -> exists v', sub_counts primes on cnt pi !! mi = Some v' /\ v' <= v.
Proof.
  intros HP [Hl Hc]. unfold sub_counts.
  assert (Hlk : forall mi, fold_left (fun c mi => alter (fun v => if v =? 0 then v else v - 1) mi c) (row_members on (cov_row primes on pi)) cnt !! mi =
    if bool_decide (covers_at pi mi = true) then (fun v => if v =? 0 then v else v - 1) <$> cnt !! mi else cnt !! mi).
  { intros mi. rewrite fold_alter by (apply row_members_NoDup, cov_row_words). by rewrite (bool_decide_ext _ _ (elem_members_row primes on pi mi)). }
  split; [split; [by rewrite fold_alter_length|]|].
  - intros mi v. rewrite Hlk. assert (Hn : cover_number pick mi = cover_number pick' mi + if covers_at pi mi then 1 else 0) by (by rewrite (cover_number_perm _ _ _ HP), cover_number_cons).
    pose proof (cover_number_bound pick' mi). case_bool_decide as Hm.
    + intros (w & Hw & ->)%fmap_Some. rewrite Hm in Hn. destruct (Hc mi w Hw) as [H1 H2]. destruct (Z.eqb_spec w 0); (split; [lia|]); intros Hx; specialize (H2 Hx); lia.
    + intros Hw. apply not_true_iff_false in Hm. rewrite Hm in Hn. destruct (Hc mi v Hw) as [H1 H2]. split; [lia|]. intros Hx. specialize (H2 Hx). lia.
  - intros mi v Hv. rewrite Hlk, Hv. pose proof (proj1 (Hc mi v Hv)). case_bool_decide; [|exists v; split; [done|lia]]. cbn [fmap option_fmap option_map]. eexists. split; [done|]. cbn beta. destruct (Z.eqb_spec v 0); lia.
Qed.

(** A pick that is needed: one of its minterms has a count of at most one. *)
Definition needed (cnt : list Z) (pi : nat) : Prop := exists mi v, covers_at pi mi = true /\ cnt !! mi = Some v /\ v <= 1.

Lemma redundant_row_spec cnt pi : length cnt = length on ->
  if redundant_row primes on cnt pi then forall mi v, covers_at pi mi = true -> cnt !! mi = Some v -> 1 < v else needed cnt pi.
Proof.
  intros Hl. unfold redundant_row. destruct (forallb _ _) eqn:E.
  - rewrite forallb_forall in E. intros mi v Hc Hv. specialize (E mi). rewrite (nth_lookup_Some _ _ _ _ Hv) in E. apply Z.ltb_lt, E.
    apply list_elem_of_In. by apply elem_members_row.
  - apply not_true_iff_false in E. rewrite forallb_forall in E. destruct (Exists_dec (fun mi => nth mi cnt 0 <= 1) (row_members on (cov_row primes on pi))) as [He|He].
    + apply Exists_exists in He as (mi & Hin%elem_members_row & Hv). destruct (covers_at_lt _ _ _ _ Hin) as [Hmi _]. rewrite <-Hl in Hmi. apply lookup_lt_is_Some_2 in Hmi as [v Hmi].
      rewrite (nth_lookup_Some _ _ _ _ Hmi) in Hv. by exists mi, v.
    + exfalso. apply E. intros mi Hin%list_elem_of_In. apply Z.ltb_lt. destruct (Z.lt_ge_cases 1 (nth mi cnt 0)); [done|]. exfalso. apply He, Exists_exists. eauto.
Qed.

Lemma cleanup_spec E fuel : forall i cnt pick, (length pick <= i + fuel)%nat -> counts_inv E pick cnt ->
  (forall mi, (mi < length on)%nat -> 1 <= cover_number pick mi) -> (forall j pj, (j < i)%nat -> pick !! j = Some pj -> needed cnt pj) -> NoDup pick ->
  exists pick' cnt', cleanup primes on fuel i cnt pick = Some pick' /\ counts_inv E pick' cnt' /\ (forall mi, (mi < length on)%nat -> 1 <= cover_number pick' mi) /\
    (forall pi, pi ∈ pick' -> needed cnt' pi) /\ NoDup pick'.
Proof.
  induction fuel as [|fuel IH]; intros i cnt pick Hf Hc Hcov Hpre Hnd; cbn [cleanup]; destruct (pick !! i) as [pi|] eqn:Ei.
  - apply lookup_lt_Some in Ei. lia.
  - exists pick, cnt. do 3 (split; [done|]). split; [|done]. intros pi [j Hj]%list_elem_of_lookup_1. eapply Hpre; [|exact Hj]. apply lookup_ge_None in Ei. apply lookup_lt_Some in Hj. lia.
  - pose proof (redundant_row_spec cnt pi (proj1 Hc)) as Hr. destruct (redundant_row primes on cnt pi).
    + destruct (swap_remove_spec i pick pi Ei) as (HP & Hlen & Hlow). destruct (sub_counts_inv E pick _ cnt pi HP Hc) as [Hc' Hdec]. apply IH; [lia|done| | |].
      * intros mi Hmi. pose proof (Hcov mi Hmi) as Hm1. rewrite (cover_number_perm _ _ _ HP), cover_number_cons in Hm1. destruct (covers_at pi mi) eqn:Em; [|lia].
        assert (is_Some (cnt !! mi)) as [v Hv] by (apply lookup_lt_is_Some; by rewrite (proj1 Hc)). pose proof (Hr mi v Em Hv). pose proof (proj1 (proj2 Hc mi v Hv)) as Hb.
        rewrite (cover_number_perm _ _ _ HP), cover_number_cons, Em in Hb. lia.
      * intros j pj Hj. rewrite Hlow by done. intros Hpj. destruct (Hpre j pj Hj Hpj) as (mi & v & Hm & Hv & Hle). destruct (Hdec mi v Hv) as (v' & Hv' & ?).
        exists mi, v'. split; [done|]. split; [done|lia].
      * rewrite HP in Hnd. by apply NoDup_cons in Hnd as [_ ?].
    + apply IH; [lia|done|done| |done]. intros j pj Hj Hpj. destruct (decide (j = i)) as [->|]; [by simplify_eq|]. apply (Hpre j); [lia|done].
  - exists pick, cnt. do 3 (split; [done|]). split; [|done]. intros pi [j Hj]%list_elem_of_lookup_1. eapply Hpre; [|exact Hj]. apply lookup_ge_None in Ei. apply lookup_lt_Some in Hj. lia.
Qed.
End Cleanup.

(** ** The greedy cover *)

(** No pick can be left out: each covers a minterm that no other covers. *)
Definition irredundant (primes : list qm_implicant) (on : list Z) (pick : list nat) : Prop :=
  forall pi, pi ∈ pick -> exists m, m ∈ on /\ covers_m primes pi m = true /\ forall q, q ∈ pick -> covers_m primes q m = true -> q = pi.

Lemma covered_is_cover primes on pick : (forall mi, (mi < length on)%nat -> 1 <= cover_number primes on pick mi) <-> is_cover primes on pick.
Proof.
  split.
  - intros H m [mi Hm]%list_elem_of_lookup_1. apply hit_true. specialize (H mi (lookup_lt_Some _ _ _ Hm)). unfold cover_number in H.
    destruct (List.filter _ pick) as [|pi l] eqn:E; [cbn in H; lia|]. assert (Hin : In pi (List.filter (fun pi => covers_at primes on pi mi) pick)) by (rewrite E; by left).
    apply filter_In in Hin as [Hin%list_elem_of_In (m' & Hm' & Hc)%covers_at_true]. rewrite Hm in Hm'. simplify_eq. eauto.
  - intros H mi [m Hm]%lookup_lt_is_Some_2. destruct (proj1 (hit_true _ _ _) (H m (list_elem_of_lookup_2 _ _ _ Hm))) as (pi & Hp & Hc).
    assert (Hin : In pi (List.filter (fun pi => covers_at primes on pi mi) pick)) by (apply filter_In; split; [by apply list_elem_of_In|apply covers_at_true; eauto]).
    unfold cover_number. destruct (List.filter _ pick); [done|]. cbn [length]. lia.
Qed.
Lemma exact_needed primes on pick cnt : counts_inv primes on True pick cnt -> (forall pi, pi ∈ pick -> needed primes on cnt pi) -> irredundant primes on pick.
Proof.
  intros [_ Hc] Hn pi Hp. destruct (Hn pi Hp) as (mi & v & Hm & Hv & Hle). pose proof (proj2 (Hc mi v Hv) I) as Hx.
  pose proof Hm as (m & Hlm & Hcm)%covers_at_true. exists m. split; [by eapply list_elem_of_lookup_2|]. split; [done|]. intros q Hq Hqm.
  assert (Hf : forall x, x ∈ pick -> covers_m primes x m = true -> In x (List.filter (fun pi => covers_at primes on pi mi) pick)).
  { intros x Hxp Hxm. apply filter_In. split; [by apply list_elem_of_In|]. apply covers_at_true. eauto. }
  pose proof (Hf pi Hp Hcm) as H1. pose proof (Hf q Hq Hqm) as H2. unfold cover_number in Hx. destruct (List.filter _ pick) as [|a [|b l]]; [done| |cbn in Hx; lia].
  cbn in H1, H2. destruct H1 as [->|[]], H2 as [->|[]]. done.
Qed.

Section Result.
Context (primes : list qm_implicant) (on : list Z) (n : nat) (opt : two_level_options).
Context (sort_cands : list cand_t -> list cand_t) (Hsort : forall l, sort_cands l ≡ₚ l).

Lemma greedy_result : exists sol, qm_greedy_cover primes on n opt sort_cands = Some sol /\
  ((exists m, m ∈ on /\ covers_of primes m = []) \/ on = [] /\ sol = mk_sol [] 0 \/
   exists cnt, qs_cost sol = cost_of primes n opt (qs_pick sol) /\ NoDup (qs_pick sol) /\ is_cover primes on (qs_pick sol) /\
     counts_inv primes on (Z.of_nat (length primes) <= 65535) (qs_pick sol) cnt /\ forall pi, pi ∈ qs_pick sol -> needed primes on cnt pi).
Proof.
  destruct (decide (on = [])) as [Eon|Eon].
  { exists (mk_sol [] 0). split; [unfold qm_greedy_cover; by rewrite Eon|]. right. by left. }
  assert (Hun : forall (A : Type) (x y : A), match on with [] => x | _ => y end = y) by (by destruct on). unfold qm_greedy_cover. rewrite Hun.
  destruct (greedy_essentials_inv primes on (S (length on)) (cover_counts primes on) (mk_greedy (uncovered_init on) (replicate (length primes) false) [])) as (g & -> & Hg);
    [destruct on; [done|cbn; lia]|apply cover_counts_ok|by apply init_inv|].
  destruct (greedy_loop_spec primes on n opt sort_cands Hsort (S (length primes)) g Hg) as ([p|g'] & -> & Hr); [lia| |].
  { eexists. split; [done|]. by left. }
  destruct Hr as [Hg' Hall]. assert (Hcov : is_cover primes on (g_pick g')).
  { intros m [mi Hm]%list_elem_of_lookup_1. specialize (Hall mi). apply not_true_iff_false in Hall. destruct (hit primes (g_pick g') m) eqn:Eh; [done|]. exfalso. apply Hall.
    apply (gi_uncovered _ _ _ Hg'). split; [by eapply lookup_lt_Some|]. intros pi Hp. unfold covers_at. rewrite Hm. by apply (proj1 (hit_false _ _ _) Eh). }
  destruct (cleanup_spec primes on (Z.of_nat (length primes) <= 65535) (length (g_pick g')) 0 (fold_left (add_counts primes on) (g_pick g') (replicate (length on) 0)) (g_pick g'))
    as (pick' & cnt' & -> & Hc & Hcv & Hn & Hnd); [lia| |by apply covered_is_cover|lia|apply (gi_nodup _ _ _ Hg')|].
  { apply initial_counts. intros Hl. pose proof (pick_length primes on g' Hg'). lia. }
  eexists. split; [done|]. right. right. exists cnt'. split; [done|]. split; [done|]. split; [by apply covered_is_cover|]. done.
Qed.
End Result.

(** The greedy cover, whichever order its sort gives to equal candidates,
    ends; when the primes cover the function its picks are distinct, cover it
    and have the cost that is returned, and with at most 65535 primes none of
    the picks can be left out. *)
Theorem greedy_cover_irredundant primes on n opt sort_cands : (forall l, sort_cands l ≡ₚ l) ->
  exists sol, qm_greedy_cover primes on n opt sort_cands = Some sol /\
    ((forall m, m ∈ on -> covers_of primes m <> []) ->
     NoDup (qs_pick sol) /\ is_cover primes on (qs_pick sol) /\ qs_cost sol = cost_of primes n opt (qs_pick sol) /\
     (Z.of_nat (length primes) <= 65535 -> irredundant primes on (qs_pick sol))).
Proof.
  intros Hsort. destruct (greedy_result primes on n opt sort_cands Hsort) as (sol & Hs & Hr). exists sol. split; [done|]. intros Hc.
  destruct Hr as [(m & Hm & E)|[[-> ->]|(cnt & H1 & H2 & H3 & H4 & H5)]]; [by apply Hc in Hm| |].
  - split; [constructor|]. split; [by intros m Hm%not_elem_of_nil|]. split; [symmetry; apply cost_of_nil|intros _ pi Hp; by apply not_elem_of_nil in Hp].
  - do 3 (split; [done|]). intros Hl. apply (exact_needed primes on _ cnt); [|done]. destruct H4 as [H6 H7]. split; [done|]. intros mi v Hv. destruct (H7 mi v Hv) as [? H8]. split; [done|]. intros _. by apply H8.
Qed.

Lemma greedy_cover_irredundant_witness : exists sol, qm_greedy_cover cycle_primes cycle_on 3 unit_weights (fun l => l) = Some sol /\
  is_cover cycle_primes cycle_on (qs_pick sol) /\ irredundant cycle_primes cycle_on (qs_pick sol).
Proof.
  destruct (greedy_cover_irredundant cycle_primes cycle_on 3 unit_weights (fun l => l)) as (sol & Hs & Hc); [reflexivity|]. exists sol. split; [exact Hs|].
  destruct Hc as (_ & H2 & _ & H4).
  - intros m Hin. repeat (apply elem_of_cons in Hin as [->|Hin]; [vm_compute; discriminate|]). destruct (not_elem_of_nil _ Hin).
  - split; [exact H2|]. apply H4. vm_compute. discriminate.
Defined.
