(* ===== verification/SynthEspresso.v ===== *)
(** * SynthEspresso: the heuristic two-level minimizer

    [espresso_binate_var_order], [espresso_two_level_minimize_base] and
    [espresso_two_level_minimize] of [verilog/digital/pe_synth.h], as they run
    without a CUDA device.  Sets of minterms are bits in words of 64; the truth
    table of a variable in a word is a constant pattern. *)

From Stdlib Require Import ZArith Lia.
From stdpp Require Import base list sorting.
From S2P Require Import Prelude SynthCube SynthCover.

Open Scope Z_scope.

(** ** The order of the variables *)

Record var_stat : Type := mk_stat { vs_v : nat; vs_c0 : nat; vs_c1 : nat; vs_binate : bool }.
Definition stat_of (on dc : list Z) (v : nat) : var_stat :=
  let c1 := length (List.filter (fun m => bit m v) (on ++ dc)) in
  let c0 := length (List.filter (fun m => negb (bit m v)) (on ++ dc)) in
  mk_stat v c0 c1 (negb (c0 =? 0)%nat && negb (c1 =? 0)%nat).
Definition stat_less (a b : var_stat) : bool :=
  let amin := Nat.min (vs_c0 a) (vs_c1 a) in
  let bmin := Nat.min (vs_c0 b) (vs_c1 b) in
  let atot := (vs_c0 a + vs_c1 a)%nat in
  let btot := (vs_c0 b + vs_c1 b)%nat in
  if negb (Bool.eqb (vs_binate a) (vs_binate b)) then vs_binate a
  else if vs_binate a && negb (amin =? bmin)%nat then (bmin <? amin)%nat
  else if negb (atot =? btot)%nat then (btot <? atot)%nat
  else (vs_v a <? vs_v b)%nat.
Definition stat_le (a b : var_stat) : Prop := Is_true (negb (stat_less b a)).
#[global] Instance stat_le_dec : RelDecision stat_le.
Proof. intros a b. unfold stat_le. apply _. Defined.
Definition espresso_binate_var_order (on dc : list Z) (var_count : nat) : list nat :=
  map vs_v (merge_sort stat_le (map (stat_of on dc) (seq 0 var_count))).

(** ** Cubes in order *)

Definition cube_le (a b : qm_implicant) : Prop := qm_mask a < qm_mask b \/ qm_mask a = qm_mask b /\ qm_value a <= qm_value b.
#[global] Instance cube_le_dec : RelDecision cube_le.
Proof. intros a b. unfold cube_le. apply _. Defined.
Fixpoint unique_cubes_from (x : qm_implicant) (l : list qm_implicant) : list qm_implicant :=
  match l with
  | [] => [x]
  | y :: l' => if same_cube x y then unique_cubes_from x l' else x :: unique_cubes_from y l'
  end.
Definition unique_cubes (l : list qm_implicant) : list qm_implicant := match l with [] => [] | x :: l' => unique_cubes_from x l' end.
(** Cubes of a cover are never flagged, so that cubes with the same mask and
    value are equal, and the order after the sort is unique. *)
Definition dedupe (cover : list qm_implicant) : list qm_implicant := unique_cubes (merge_sort cube_le cover).

(** The table of a variable in a word of 64 minterms. *)
Definition leaf_pat : list Z :=
  [0xAAAAAAAAAAAAAAAA; 0xCCCCCCCCCCCCCCCC; 0xF0F0F0F0F0F0F0F0; 0xFF00FF00FF00FF00; 0xFFFF0000FFFF0000; 0xFFFFFFFF00000000].
Definition full_word : Z := 2 ^ 64 - 1.
Definition var_word (v word_idx : nat) : Z :=
  if (v <? 6)%nat then nth v leaf_pat 0 else if bit (Z.of_nat word_idx) (v - 6) then full_word else 0.

Section Espresso.
Context (on dc : list Z) (var_count : nat) (opt : two_level_options).

Definition universe : Z := Z.shiftl 1 (Z.of_nat var_count).
Definition blocksU : nat := Z.to_nat ((universe + 63) / 64).

(** The bit sets. *)
Definition clear_block_bit (mi : nat) (row : list Z) : list Z := alter (fun w => Z.land w (not64 (Z.shiftl 1 (Z.of_nat (bit_of mi))))) (block_of mi) row.
Definition last_mask : Z := Z.shiftl 1 (universe mod 64) - 1.
Definition mask_last (row : list Z) : list Z := if universe mod 64 =? 0 then row else alter (fun w => Z.land w last_mask) (blocksU - 1)%nat row.
Definition set_minterm (row : list Z) (m : Z) : list Z := if universe <=? m then row else set_block_bit (Z.to_nat m) row.
Definition clear_minterm (row : list Z) (m : Z) : list Z := if universe <=? m then row else clear_block_bit (Z.to_nat m) row.
Definition on_bits : list Z := mask_last (fold_left set_minterm on (replicate blocksU 0)).
Definition off_bits : list Z := mask_last (fold_left clear_minterm dc (fold_left clear_minterm on (replicate blocksU full_word))).
Definition on_word (w : nat) : Z := nth w on_bits 0.
Definition off_word (w : nat) : Z := nth w off_bits 0.

(** The minterms of a word that a cube covers. *)
Definition wmask (w : nat) : Z := if (w + 1 =? blocksU)%nat && negb (universe mod 64 =? 0) then last_mask else full_word.
Fixpoint cover_word_loop (c : qm_implicant) (w : nat) (vs : list nat) (r : Z) : Z :=
  match vs with
  | [] => r
  | v :: vs' =>
      if bit (qm_mask c) v then cover_word_loop c w vs' r
      else
        let pat := var_word v w in
        let r' := Z.land r (if bit (qm_value c) v then pat else not64 pat) in
        if r' =? 0 then r' else cover_word_loop c w vs' r'
  end.
Definition cube_cover_word (c : qm_implicant) (w : nat) : Z := Z.land (cover_word_loop c w (seq 0 var_count) (wmask w)) (wmask w).

Definition cube_hits_off_fast (c : qm_implicant) : bool := existsb (fun w => negb (Z.land (cube_cover_word c w) (off_word w) =? 0)) (seq 0 blocksU).
Definition cover_hits_off_fast (cov : list qm_implicant) : bool := existsb cube_hits_off_fast cov.
Definition row_word (c : qm_implicant) (w : nat) : Z := Z.land (cube_cover_word c w) (on_word w).
Definition or_rows (cov : list qm_implicant) (w : nat) : Z := fold_left (fun acc c => Z.lor acc (row_word c w)) cov 0.
Definition cover_covers_all_on_fast (cov : list qm_implicant) : bool :=
  match on with
  | [] => true
  | _ => forallb (fun w => or_rows cov w =? on_word w) (seq 0 blocksU)
  end.

(** ** EXPAND *)

Definition var_order : list nat := espresso_binate_var_order on dc var_count.

(** The candidates of a cube: one variable less, then two. *)
Definition relax (c : qm_implicant) (b : Z) : qm_implicant := mk_imp (Z.land (qm_value c) (not16 b)) (Z.lor (qm_mask c) b) (qm_combined c).
Definition free_bits (c : qm_implicant) : list Z := omap (fun v => if bit (qm_mask c) v then None else Some (Z.shiftl 1 (Z.of_nat v))) (take 12 var_order).
Fixpoint pair_bits (bits : list Z) : list Z := match bits with [] => [] | b :: bits' => map (Z.lor b) bits' ++ pair_bits bits' end.
Definition cube_cands (c : qm_implicant) : list (qm_implicant * nat) :=
  map (fun b => (relax c b, 1%nat)) (free_bits c) ++ map (fun b => (relax c b, 2%nat)) (pair_bits (free_bits c)).
(** The first safe candidate that drops the most. *)
Definition best_cand (c : qm_implicant) : option qm_implicant :=
  fst (fold_left (fun (best : option qm_implicant * nat) (cand : qm_implicant * nat) =>
      if cube_hits_off_fast cand.1 then best else if (best.2 <? cand.2)%nat then (Some cand.1, cand.2) else best)
    (cube_cands c) (None, 0%nat)).
Definition expand_cube (c : qm_implicant) : qm_implicant * bool :=
  match best_cand c with
  | Some cand => if same_cube cand c then (c, false) else (cand, true)
  | None => (c, false)
  end.
Fixpoint expand_rounds (rounds : nat) (cover : list qm_implicant) : list qm_implicant :=
  match rounds with
  | O => cover
  | S rounds' =>
      let next := map expand_cube cover in
      if existsb snd next then expand_rounds rounds' (map fst next) else cover
  end.
Definition expand_cover_batch (cover : list qm_implicant) : list qm_implicant := expand_rounds 3 cover.

(** ** IRREDUNDANT *)

(** A cube is redundant when the cubes before it that were kept and the cubes
    after it cover its minterms; a removal starts again from the first cube. *)
Definition redundant_cube (prefix : nat -> Z) (rest : list qm_implicant) (c : qm_implicant) : bool :=
  forallb (fun w => Z.land (row_word c w) (not64 (Z.lor (prefix w) (or_rows rest w))) =? 0) (seq 0 blocksU).
Fixpoint irredundant_loop (fuel i : nat) (prefix : nat -> Z) (cover : list qm_implicant) : option (list qm_implicant) :=
  match cover !! i with
  | None => Some cover
  | Some c =>
      match fuel with
      | O => None
      | S fuel' =>
          if redundant_cube prefix (drop (S i) cover) c then irredundant_loop fuel' 0 (fun _ => 0) (swap_remove i cover)
          else irredundant_loop fuel' (S i) (fun w => Z.lor (prefix w) (row_word c w)) cover
      end
  end.
Definition irredundant_cubes (cover : list qm_implicant) : option (list qm_implicant) :=
  irredundant_loop (S (length cover) * S (length cover))%nat 0 (fun _ => 0) cover.

(** ** REDUCE *)

Definition any_bits (row : list Z) : bool := existsb (fun w => negb (w =? 0)) row.
Definition anchored (anchor : list Z) (f : Z -> Z) (v : nat) : bool :=
  existsb (fun wa : nat * Z => negb (Z.land wa.2 (f (var_word v wa.1)) =? 0)) (zip (seq 0 (length anchor)) anchor).
Definition specialize_var (anchor : list Z) (c : qm_implicant) (v : nat) : qm_implicant :=
  if negb (bit (qm_mask c) v) then c
  else
    let any1 := anchored anchor id v in
    let any0 := anchored anchor not64 v in
    if Bool.eqb any0 any1 then c
    else
      let b := Z.shiftl 1 (Z.of_nat v) in
      mk_imp (if any1 then Z.lor (qm_value c) b else Z.land (qm_value c) (not16 b)) (Z.land (qm_mask c) (not16 b)) (qm_combined c).
Definition reduce_cube (before : list qm_implicant) (c : qm_implicant) (after : list qm_implicant) : qm_implicant :=
  let row := map (row_word c) (seq 0 blocksU) in
  let unique := map (fun w => Z.land (row_word c w) (not64 (Z.lor (or_rows before w) (or_rows after w)))) (seq 0 blocksU) in
  fold_left (specialize_var (if any_bits unique then unique else row)) var_order c.
Fixpoint reduce_from (before rest : list qm_implicant) : list qm_implicant :=
  match rest with
  | [] => []
  | c :: rest' => reduce_cube before c rest' :: reduce_from (before ++ [c]) rest'
  end.
Definition reduce_step (cover : list qm_implicant) : list qm_implicant := reduce_from [] cover.

(** ** The loop *)

(** [std::sort] leaves the order of cubes with equal counts open. *)
Context (sort_ranked : list (nat * qm_implicant) -> list (nat * qm_implicant)).

Definition on_count (c : qm_implicant) : nat := fold_left (fun cnt w => (cnt + popcount64 (Z.land (cube_cover_word c w) (on_word w)))%nat) (seq 0 blocksU) 0%nat.
Definition step_expand (cover : list qm_implicant) : option (list qm_implicant) :=
  let ranked := sort_ranked (map (fun c => (on_count c, c)) cover) in
  irredundant_cubes (dedupe (expand_cover_batch (map snd ranked))).
Definition step_reduce (cover : list qm_implicant) : option (list qm_implicant) := irredundant_cubes (dedupe (reduce_step cover)).

(** Keep a valid cover that is cheaper. *)
Definition keep_better (cover : list qm_implicant) (best : list qm_implicant * Z) : list qm_implicant * Z :=
  if cover_covers_all_on_fast cover && negb (cover_hits_off_fast cover) then
    let cst := two_level_cover_cost cover var_count opt in
    if cst <? best.2 then (cover, cst) else best
  else best.
Fixpoint main_loop (iters : nat) (cover : list qm_implicant) (best : list qm_implicant * Z) : option (list qm_implicant * Z) :=
  match iters with
  | O => Some best
  | S iters' =>
      cover1 ← step_expand cover;
      let best1 := keep_better cover1 best in
      cover2 ← step_reduce cover1;
      let best2 := keep_better cover2 best1 in
      if best.2 <=? best2.2 then Some best2 else main_loop iters' cover2 best2
  end.

Fixpoint rerun (k : nat) (cover : list qm_implicant) : option (list qm_implicant) :=
  match k with
  | O => Some cover
  | S k' => cover1 ← step_expand cover; cover2 ← step_reduce cover1; rerun k' cover2
  end.
Definition gasp (best : list qm_implicant * Z) (attempt : nat) : option (list qm_implicant * Z) :=
  match best.1 with
  | [] => Some best
  | cover =>
      let idx := Z.to_nat ((Z.of_nat attempt * 2654435761) mod Z.of_nat (length cover)) in
      match cover !! idx ≫= fun c => List.find (implicant_covers c) on with
      | None => Some best
      | Some anchor =>
          cover' ← rerun 4 (alter (fun c => mk_imp anchor 0 (qm_combined c)) idx cover);
          Some (keep_better cover' best)
      end
  end.
Fixpoint last_gasp (attempts : list nat) (best : list qm_implicant * Z) : option (list qm_implicant * Z) :=
  match attempts with
  | [] => Some best
  | attempt :: attempts' => best' ← gasp best attempt; last_gasp attempts' best'
  end.

Record espresso_solution : Type := mk_esp { es_cover : list qm_implicant; es_cost : Z; es_complemented : bool }.
Definition espresso_failed : espresso_solution := mk_esp [] SIZE_MAX false.

Definition espresso_two_level_minimize_base : option espresso_solution :=
  if (var_count =? 0)%nat then Some (mk_esp (match on with [] => [] | _ => [mk_imp 0 0 false] end) 0 false)
  else if (16 <? var_count)%nat then Some espresso_failed
  else
    let cover := map minterm_cube on in
    best ← main_loop 8 cover (cover, two_level_cover_cost cover var_count opt);
    best' ← last_gasp (seq 0 4) best;
    if negb (cover_covers_all_on_fast best'.1) then Some espresso_failed
    else if cover_hits_off_fast best'.1 then Some espresso_failed
    else Some (mk_esp best'.1 best'.2 false).
End Espresso.

(** The minterms that are neither ON nor DC. *)
Definition off_minterms (on dc : list Z) (var_count : nat) : list Z :=
  List.filter (fun m => negb (existsb (Z.eqb m) on || existsb (Z.eqb m) dc)) (map Z.of_nat (seq 0 (Z.to_nat (universe var_count)))).
Definition complement_penalty (opt : two_level_options) : Z := if literal_count opt then 1 else not_w opt.
Definition espresso_two_level_minimize (on dc : list Z) (var_count : nat) (opt : two_level_options)
  (sort_ranked : list (nat * qm_implicant) -> list (nat * qm_implicant)) : option espresso_solution :=
  best ← espresso_two_level_minimize_base on dc var_count opt sort_ranked;
  if es_cost best =? SIZE_MAX then Some best
  else if (var_count =? 0)%nat || (16 <? var_count)%nat then Some best
  else
    match off_minterms on dc var_count with
    | [] => Some best
    | off =>
        comp ← espresso_two_level_minimize_base off dc var_count opt sort_ranked;
        if es_cost comp =? SIZE_MAX then Some best
        else if es_cost comp + complement_penalty opt <? es_cost best then Some (mk_esp (es_cover comp) (es_cost comp + complement_penalty opt) true)
        else Some best
    end.
