(* ===== verification/SynthEspressoLemmas.v ===== *)
(** * SynthEspressoLemmas: bit-parallel covers

    The words of [SynthEspresso] as sets of minterms: the table of a
    variable, the minterms of a cube, the ON and OFF sets and the two tests of
    a cover. *)

From Stdlib Require Import ZArith Lia.
From stdpp Require Import base list sets sorting.
From S2P Require Import Prelude SynthCube SynthPrimes SynthPrimesClaims SynthCover SynthCoverClaims.
From S2P Require Import SynthPetrick SynthGreedy SynthGreedyClaims SynthEspresso.

Open Scope Z_scope.

(** ** The table of a variable *)

Lemma leaf_pat_bits : forallb (fun v => forallb (fun i => Bool.eqb (bit (nth v leaf_pat 0) i) (bit (Z.of_nat i) v)) (seq 0 64)) (seq 0 6) = true.
Proof. vm_compute. reflexivity. Qed.
Lemma leaf_pat_bit v i : (v < 6)%nat -> (i < 64)%nat -> bit (nth v leaf_pat 0) i = bit (Z.of_nat i) v.
Proof.
  intros Hv Hi. pose proof leaf_pat_bits as H. rewrite forallb_forall in H. specialize (H v ltac:(apply in_seq; lia)). rewrite forallb_forall in H.
  specialize (H i ltac:(apply in_seq; lia)). by apply eqb_prop in H.
Qed.
Lemma minterm_low w i v : (v < 6)%nat -> bit (Z.of_nat (w * 64 + i)) v = bit (Z.of_nat i) v.
Proof.
  intros Hv. unfold bit. rewrite <-(Z.mod_pow2_bits_low _ 6), <-(Z.mod_pow2_bits_low (Z.of_nat i) 6) by lia. f_equal. change (2 ^ 6) with 64.
  replace (Z.of_nat (w * 64 + i)) with (Z.of_nat i + Z.of_nat w * 64) by lia. by rewrite Z.mod_add.
Qed.
Lemma minterm_high w i v : (i < 64)%nat -> (6 <= v)%nat -> bit (Z.of_nat (w * 64 + i)) v = bit (Z.of_nat w) (v - 6).
Proof.
  intros Hi Hv. replace v with (6 + (v - 6))%nat at 1 by lia. rewrite <-bit_div. f_equal. change (2 ^ Z.of_nat 6) with 64.
  replace (Z.of_nat (w * 64 + i)) with (Z.of_nat i + Z.of_nat w * 64) by lia. rewrite Z.div_add, Z.div_small by lia. lia.
Qed.
Lemma var_word_bit v w i : (i < 64)%nat -> bit (var_word v w) i = bit (Z.of_nat (w * 64 + i)) v.
Proof.
  intros Hi. unfold var_word. destruct (Nat.ltb_spec v 6) as [Hv|Hv]; [by rewrite leaf_pat_bit, minterm_low|].
  rewrite minterm_high by done. destruct (bit (Z.of_nat w) (v - 6)); [|apply bit_0]. unfold full_word. rewrite full_word_bit. by apply bool_decide_true.
Qed.

Section Words.
Context (on dc : list Z) (n : nat) (Hn : (1 <= n <= 16)%nat).
#[local] Abbreviation blocksU := (blocksU n).
#[local] Abbreviation universe := (universe n).
#[local] Abbreviation cube_cover_word := (cube_cover_word n).

Lemma universe_pow : universe = 2 ^ Z.of_nat n.
Proof. apply shiftl_1. Qed.
Lemma universe_pos : 2 <= universe.
Proof. rewrite universe_pow. change 2 with (2 ^ 1) at 1. apply Z.pow_le_mono_r; lia. Qed.
Lemma universe_rem : universe mod 64 = 0 \/ universe mod 64 = universe /\ blocksU = 1%nat.
Proof.
  destruct (Nat.lt_ge_cases n 6) as [H|H].
  - right. assert (universe < 64) by (rewrite universe_pow; change 64 with (2 ^ 6); apply Z.pow_lt_mono_r; lia). pose proof universe_pos.
    split; [apply Z.mod_small; lia|]. unfold SynthEspresso.blocksU. replace ((universe + 63) / 64) with 1; [done|]. apply (Z.div_unique_pos _ _ _ (universe - 1)); lia.
  - left. rewrite universe_pow. replace (Z.of_nat n) with (6 + (Z.of_nat n - 6)) by lia. rewrite Z.pow_add_r by lia. change (2 ^ 6) with 64. rewrite Z.mul_comm. apply Z.mod_mul. lia.
Qed.
Lemma universe_blocks : universe mod 64 = 0 -> universe = Z.of_nat blocksU * 64.
Proof.
  intros Hr. pose proof universe_pos. unfold SynthEspresso.blocksU. pose proof (Z.div_mod universe 64 ltac:(lia)).
  pose proof (Z.div_mod (universe + 63) 64 ltac:(lia)). pose proof (Z.mod_pos_bound (universe + 63) 64 ltac:(lia)). lia.
Qed.
(** The minterm at a position of the words. *)
Lemma word_range w i : (w < blocksU)%nat -> (i < 64)%nat -> (Z.of_nat (w * 64 + i) < universe <-> universe mod 64 = 0 \/ Z.of_nat i < universe).
Proof.
  intros Hw Hi. destruct universe_rem as [H|[H Hb]]; [pose proof (universe_blocks H); split; [tauto|lia]|]. rewrite Hb in Hw. pose proof universe_pos.
  assert (w = 0)%nat as -> by lia. cbn [Nat.mul Nat.add]. rewrite H. lia.
Qed.
Lemma minterm_position m : within n m -> (block_of (Z.to_nat m) < blocksU)%nat.
Proof.
  intros [H0 H1]. rewrite <-universe_pow in H1. pose proof (block_bit_of (Z.to_nat m)). pose proof universe_pos. destruct universe_rem as [Hr|[Hr Hb]].
  - pose proof (universe_blocks Hr). lia.
  - rewrite Hb. assert (universe < 64) by (rewrite <-Hr; apply Z.mod_pos_bound; lia). lia.
Qed.

Lemma last_mask_bit i : universe mod 64 <> 0 -> bit (last_mask n) i = bool_decide (Z.of_nat i < universe).
Proof.
  intros Hr. destruct universe_rem as [|[H _]]; [done|]. unfold last_mask. rewrite H. pose proof universe_pos. rewrite Z.shiftl_mul_pow2 by lia.
  replace (1 * 2 ^ universe - 1) with (2 ^ Z.of_nat (Z.to_nat universe) - 1) by (rewrite Z2Nat.id; lia). rewrite bit_ones. apply bool_decide_ext. lia.
Qed.
Lemma last_mask_within : universe mod 64 <> 0 -> within 64 (last_mask n).
Proof.
  intros Hr. destruct universe_rem as [|[H _]]; [done|]. unfold last_mask. rewrite H. pose proof universe_pos.
  assert (universe < 64) by (rewrite <-H; apply Z.mod_pos_bound; lia). rewrite Z.shiftl_mul_pow2 by lia.
  replace (1 * 2 ^ universe - 1) with (2 ^ Z.of_nat (Z.to_nat universe) - 1) by (rewrite Z2Nat.id; lia). apply ones_within. lia.
Qed.
Lemma full_within : within 64 full_word.
Proof. exact (ones_within 64 (le_n _)). Qed.

Lemma wmask_bit w i : (w < blocksU)%nat -> (i < 64)%nat -> bit (wmask n w) i = bool_decide (Z.of_nat (w * 64 + i) < universe).
Proof.
  intros Hw Hi. rewrite (bool_decide_ext _ _ (word_range w i Hw Hi)). unfold wmask. destruct (Z.eqb_spec (universe mod 64) 0) as [H|H].
  - rewrite andb_false_r, bool_decide_true by tauto. unfold full_word. rewrite full_word_bit. by apply bool_decide_true.
  - rewrite andb_true_r. destruct universe_rem as [|[H1 Hb]]; [done|]. rewrite Hb in *. replace (w + 1 =? 1)%nat with true by (symmetry; apply Nat.eqb_eq; lia).
    rewrite last_mask_bit by done. apply bool_decide_ext. tauto.
Qed.
Lemma wmask_within w : within 64 (wmask n w).
Proof.
  unfold wmask. destruct (w + 1 =? blocksU)%nat, (Z.eqb_spec (universe mod 64) 0); cbn [andb negb]; try apply full_within. by apply last_mask_within.
Qed.

(** ** The minterms of a cube *)

(** The variables of a list agree with the cube. *)
Definition agree (c : qm_implicant) (vs : list nat) (m : Z) : bool := forallb (fun v => bit (qm_mask c) v || Bool.eqb (bit m v) (bit (qm_value c) v)) vs.

Lemma literal_bit c v w i : (i < 64)%nat -> bit (if bit (qm_value c) v then var_word v w else not64 (var_word v w)) i = Bool.eqb (bit (Z.of_nat (w * 64 + i)) v) (bit (qm_value c) v).
Proof.
  intros Hi. destruct (bit (qm_value c) v); [rewrite var_word_bit by done; by destruct (bit _ v)|].
  rewrite not64_bit, var_word_bit by done. by destruct (bit _ v).
Qed.
Lemma literal_nonneg c v w : 0 <= (if bit (qm_value c) v then var_word v w else not64 (var_word v w)).
Proof.
  assert (H : 0 <= var_word v w).
  { unfold var_word. destruct (Nat.ltb_spec v 6); [|destruct (bit _ _); [apply full_within|done]]. do 6 (destruct v as [|v]; [done|]). lia. }
  destruct (bit _ _); [done|]. apply Z.lxor_nonneg. lia.
Qed.
Lemma cover_word_loop_spec c w vs : forall r, within 64 r -> within 64 (cover_word_loop c w vs r) /\
  forall i, (i < 64)%nat -> bit (cover_word_loop c w vs r) i = bit r i && agree c vs (Z.of_nat (w * 64 + i)).
Proof.
  induction vs as [|v vs IH]; intros r Hr; cbn [cover_word_loop]; [split; [done|]; intros i _; cbn; by rewrite andb_true_r|].
  destruct (bit (qm_mask c) v) eqn:Em.
  - destruct (IH r Hr) as [H1 H2]. split; [done|]. intros i Hi. rewrite H2 by done. unfold agree. cbn [forallb]. by rewrite Em.
  - set (r' := Z.land r _). assert (Hr' : within 64 r') by (apply within_land; [done|apply literal_nonneg]).
    assert (Hbit : forall i, (i < 64)%nat -> bit r i && agree c (v :: vs) (Z.of_nat (w * 64 + i)) = bit r' i && agree c vs (Z.of_nat (w * 64 + i))).
    { intros i Hi. unfold r'. rewrite bit_land, literal_bit by done. unfold agree. cbn [forallb]. rewrite Em. cbn [orb]. by rewrite andb_assoc. }
    destruct (Z.eqb_spec r' 0) as [E|_].
    + split; [rewrite E; apply within_0|]. intros i Hi. rewrite Hbit, E, bit_0 by done. done.
    + destruct (IH r' Hr') as [H1 H2]. split; [done|]. intros i Hi. by rewrite H2, Hbit.
Qed.
Lemma cube_cover_word_bit c w i : (w < blocksU)%nat -> (i < 64)%nat ->
  bit (cube_cover_word c w) i = bool_decide (Z.of_nat (w * 64 + i) < universe) && agree c (seq 0 n) (Z.of_nat (w * 64 + i)).
Proof.
  intros Hw Hi. unfold SynthEspresso.cube_cover_word. rewrite bit_land, (proj2 (cover_word_loop_spec c w _ _ (wmask_within w)) i Hi), wmask_bit by done.
  destruct (bool_decide _); [|by rewrite andb_false_r]. by rewrite andb_true_l, andb_true_r.
Qed.
Lemma cube_cover_word_within c w : within 64 (cube_cover_word c w).
Proof. apply within_land; [apply cover_word_loop_spec, wmask_within|apply wmask_within]. Qed.
Lemma agree_cov c m : agree c (seq 0 n) m = true <-> cov n c m.
Proof.
  unfold agree, cov. rewrite forallb_forall. split.
  - intros H i Hi Hb. specialize (H i ltac:(apply in_seq; lia)). rewrite Hb in H. by apply eqb_prop in H.
  - intros H v Hv%in_seq. destruct (bit (qm_mask c) v) eqn:E; [done|]. rewrite (H v) by (done || lia). apply eqb_reflx.
Qed.
End Words.

(** The word that the minimizer computes for a cube, from constant bit
    patterns, has the bit of each minterm of the universe that the cube
    covers and no other: the bit-parallel test agrees with the test of a
    single minterm. *)
Theorem cube_cover_word_is_cover n c w i : (1 <= n <= 16)%nat -> good n c -> (w < blocksU n)%nat -> (i < 64)%nat ->
  bit (cube_cover_word n c w) i = bool_decide (Z.of_nat (w * 64 + i) < 2 ^ Z.of_nat n) && implicant_covers c (Z.of_nat (w * 64 + i)).
Proof.
  intros Hn Hg Hw Hi. rewrite cube_cover_word_bit, universe_pow by done. case_bool_decide as Hm; [|done]. cbn [andb]. apply eq_true_iff_eq.
  rewrite agree_cov by done. symmetry. apply covers_cov; [lia|done|]. split; [lia|done].
Qed.
Lemma cube_cover_word_is_cover_witness : bit (cube_cover_word 7 (mk_imp 64 7 false) 1) 5 = true.
Proof.
  rewrite (cube_cover_word_is_cover 7 (mk_imp 64 7 false) 1 5); [vm_compute; reflexivity|lia| |vm_compute; lia|lia].
  split; [split; vm_compute; congruence|split; vm_compute; congruence|]. intros i Hi. do 3 (destruct i as [|i]; [reflexivity|]).
  exfalso. revert Hi. unfold bit. cbn [qm_mask]. rewrite Z.bits_above_log2; [congruence|lia|]. change (Z.log2 7) with 2. lia.
Defined.

(** ** The ON and OFF sets *)

Lemma word_nonzero x : within 64 x -> x <> 0 <-> exists i, (i < 64)%nat /\ bit x i = true.
Proof.
  intros Hx. split.
  - intros H0. destruct (set_bits x) as [|i l] eqn:E.
    + exfalso. apply H0. apply (bits_eq 64); [done|apply within_0|]. intros i Hi. rewrite bit_0. apply not_true_iff_false. intros Hb.
      apply (elem_set_bits x i Hx) in Hb. rewrite E in Hb. by apply not_elem_of_nil in Hb.
    + exists i. assert (Hb : bit x i = true) by (apply (elem_set_bits x i Hx); rewrite E; by left). split; [|done].
      destruct (Nat.lt_ge_cases i 64); [done|]. by rewrite (within_high 64 x i Hx) in Hb.
  - intros (i & _ & Hb) ->. by rewrite bit_0 in Hb.
Qed.

Lemma clear_block_bit_words mi row : words row -> words (clear_block_bit mi row).
Proof.
  intros Hw. unfold clear_block_bit, words. apply Forall_alter; [done|]. intros x _ Hx. apply within_land; [done|].
  apply Z.lxor_nonneg. rewrite shiftl_1. assert (0 < 2 ^ Z.of_nat (bit_of mi)) by (apply Z.pow_pos_nonneg; lia). lia.
Qed.
Lemma alter_block_bit f k row mj : block_bit (alter f k row) mj = if decide (k = block_of mj) then bit (default 0 (f <$> row !! k)) (bit_of mj) else block_bit row mj.
Proof. unfold block_bit. rewrite !nth_lookup, list_lookup_alter. by case_decide. Qed.
Lemma clear_block_bit_spec mi mj row : block_bit (clear_block_bit mi row) mj = block_bit row mj && negb (bool_decide (mj = mi)).
Proof.
  unfold clear_block_bit. rewrite alter_block_bit. case_decide as E.
  - unfold block_bit. rewrite nth_lookup, E. destruct (row !! block_of mj) as [x|]; [|cbn; by rewrite bit_0].
    cbn -[Z.land not64 Z.shiftl bit bit_of]. rewrite bit_land, not64_bit, shiftl_1, bit_pow by apply block_bit_of. f_equal. f_equal. apply bool_decide_ext.
    pose proof (block_bit_of mi). pose proof (block_bit_of mj). split; [lia|by intros ->].
  - rewrite bool_decide_false by (intros ->; done). by rewrite andb_true_r.
Qed.

Section Sets.
Context (on dc : list Z) (n : nat) (Hn : (1 <= n <= 16)%nat).
#[local] Abbreviation blocksU := (blocksU n).
#[local] Abbreviation universe := (universe n).
Context (Hon : Forall (fun m => 0 <= m) on) (Hdc : Forall (fun m => 0 <= m) dc).

Lemma mask_last_spec row mj : length row = blocksU -> block_bit (mask_last n row) mj = block_bit row mj && (bool_decide (universe mod 64 = 0) || bool_decide (Z.of_nat mj < universe)).
Proof.
  intros Hl. unfold mask_last. destruct (Z.eqb_spec (universe mod 64) 0) as [H|H]; [by rewrite (bool_decide_true (universe mod 64 = 0)), andb_true_r|].
  rewrite (bool_decide_false (universe mod 64 = 0)) by done. cbn [orb]. destruct (universe_rem n Hn) as [|[Hr Hb]]; [done|]. rewrite Hb, alter_block_bit. cbn [Nat.sub].
  case_decide as E.
  - unfold block_bit. rewrite nth_lookup, <-E. destruct (row !! 0%nat) as [x|]; [|cbn; by rewrite bit_0]. cbn -[Z.land last_mask bit bit_of].
    rewrite bit_land, last_mask_bit by done. f_equal. apply bool_decide_ext. pose proof (block_bit_of mj). lia.
  - destruct (block_bit row mj) eqn:Eb; [|done]. apply block_bit_lt in Eb. lia.
Qed.
Lemma mask_last_words row : words row -> words (mask_last n row).
Proof.
  intros Hw. unfold mask_last. destruct (Z.eqb_spec (universe mod 64) 0) as [H|H]; [done|]. apply Forall_alter; [done|]. intros x _ Hx.
  apply within_land; [done|]. by apply last_mask_within.
Qed.

Lemma minterm_index m mj : 0 <= m -> mj = Z.to_nat m <-> Z.of_nat mj = m.
Proof. lia. Qed.
Lemma set_fold l : forall row, Forall (fun m => 0 <= m) l -> words row -> length row = blocksU ->
  words (fold_left (set_minterm n) l row) /\ length (fold_left (set_minterm n) l row) = blocksU /\
  forall mj, block_bit (fold_left (set_minterm n) l row) mj = true <-> block_bit row mj = true \/ Z.of_nat mj ∈ l /\ Z.of_nat mj < universe.
Proof.
  induction l as [|m l IH]; intros row Hl Hw Hlen; cbn [fold_left]; [split; [done|]; split; [done|]; intros mj; set_solver|].
  apply Forall_cons in Hl as [Hm Hl]. unfold set_minterm at 2 4 6. destruct (Z.leb_spec universe m) as [Hu|Hu].
  - destruct (IH row Hl Hw Hlen) as (H1 & H2 & H3). split; [done|]. split; [done|]. intros mj. rewrite H3, elem_of_cons. split; [tauto|]. intros [?|[[->|?] ?]]; [tauto|lia|tauto].
  - assert (Hwm : within n m) by (split; [done|]; by rewrite <-universe_pow). pose proof (minterm_position n Hn m Hwm) as Hp.
    destruct (IH (set_block_bit (Z.to_nat m) row) Hl) as (H1 & H2 & H3); [by apply set_block_bit_words|by unfold set_block_bit; rewrite length_alter|].
    split; [done|]. split; [done|]. intros mj. rewrite H3, set_block_bit_spec, orb_true_iff, bool_decide_eq_true, minterm_index, elem_of_cons by (done || by rewrite Hlen).
    split; [intros [[?|?]|?]; [tauto|right; split; [tauto|lia]|tauto]|intros [?|[[?|?] ?]]; tauto].
Qed.
Lemma clear_fold l : forall row, Forall (fun m => 0 <= m) l -> words row -> length row = blocksU ->
  words (fold_left (clear_minterm n) l row) /\ length (fold_left (clear_minterm n) l row) = blocksU /\
  forall mj, Z.of_nat mj < universe -> block_bit (fold_left (clear_minterm n) l row) mj = true <-> block_bit row mj = true /\ Z.of_nat mj ∉ l.
Proof.
  induction l as [|m l IH]; intros row Hl Hw Hlen; cbn [fold_left]; [split; [done|]; split; [done|]; intros mj _; set_solver|].
  apply Forall_cons in Hl as [Hm Hl]. unfold clear_minterm at 2 4 6. destruct (Z.leb_spec universe m) as [Hu|Hu].
  - destruct (IH row Hl Hw Hlen) as (H1 & H2 & H3). split; [done|]. split; [done|]. intros mj Hmj. rewrite H3, not_elem_of_cons by done. split; [|tauto]. intros [? ?]. split; [done|]. split; [lia|done].
  - destruct (IH (clear_block_bit (Z.to_nat m) row) Hl) as (H1 & H2 & H3); [by apply clear_block_bit_words|by unfold clear_block_bit; rewrite length_alter|].
    split; [done|]. split; [done|]. intros mj Hmj. rewrite H3, clear_block_bit_spec, andb_true_iff, negb_true_iff, bool_decide_eq_false, minterm_index, not_elem_of_cons by done. tauto.
Qed.

Lemma on_bits_spec : words (on_bits on n) /\ forall mj, block_bit (on_bits on n) mj = true <-> Z.of_nat mj ∈ on /\ Z.of_nat mj < universe.
Proof.
  destruct (set_fold on (replicate blocksU 0) Hon (zero_words _) (length_replicate _ _)) as (H1 & H2 & H3). split; [by apply mask_last_words|].
  intros mj. unfold on_bits. rewrite mask_last_spec by done. rewrite andb_true_iff, H3, zero_block_bit, orb_true_iff, !bool_decide_eq_true. split; [naive_solver|]. intros [? ?]. tauto.
Qed.
Lemma off_bits_spec : words (off_bits on dc n) /\ forall mj, block_bit (off_bits on dc n) mj = true <-> Z.of_nat mj < universe /\ (Z.of_nat mj ∉ on) /\ Z.of_nat mj ∉ dc.
Proof.
  destruct (clear_fold on (replicate blocksU full_word) Hon (full_words _) (length_replicate _ _)) as (H1 & H2 & H3).
  destruct (clear_fold dc _ Hdc H1 H2) as (H4 & H5 & H6). split; [by apply mask_last_words|]. intros mj. unfold off_bits. rewrite mask_last_spec by done.
  assert (Hfull : block_bit (replicate blocksU full_word) mj = bool_decide (block_of mj < blocksU)%nat) by apply full_block_bit.
  rewrite andb_true_iff, orb_true_iff, !bool_decide_eq_true. destruct (Z.lt_ge_cases (Z.of_nat mj) universe) as [Hu|Hu].
  - rewrite H6, H3, Hfull, bool_decide_eq_true by done.
    assert (block_of mj < blocksU)%nat by (rewrite <-(Nat2Z.id mj); apply minterm_position; [done|]; split; [lia|by rewrite <-universe_pow]). tauto.
  - split; [|lia]. intros [Hb [Hr|?]]; [|lia]. apply block_bit_lt in Hb. rewrite H5 in Hb. pose proof (universe_blocks n Hn Hr). pose proof (block_bit_of mj). lia.
Qed.
Lemma word_bit row w i : (i < 64)%nat -> bit (nth w row 0) i = block_bit row (w * 64 + i).
Proof. intros Hi. unfold block_bit. by destruct (block_of_eq w i Hi) as [-> ->]. Qed.

(** ** The tests *)

Definition hits_off (c : qm_implicant) : Prop := exists m, within n m /\ (m ∉ on) /\ (m ∉ dc) /\ cov n c m.
Definition covers_on (cov' : list qm_implicant) : Prop := forall m, m ∈ on -> within n m -> exists c, c ∈ cov' /\ cov n c m.

Lemma position_within w i : Z.of_nat (w * 64 + i) < universe -> within n (Z.of_nat (w * 64 + i)).
Proof. intros H. rewrite universe_pow in H. split; [lia|done]. Qed.
Lemma within_position m : within n m -> exists w i, (w < blocksU)%nat /\ (i < 64)%nat /\ m = Z.of_nat (w * 64 + i) /\ Z.of_nat (w * 64 + i) < universe.
Proof.
  intros Hm. exists (block_of (Z.to_nat m)), (bit_of (Z.to_nat m)). destruct (block_bit_of (Z.to_nat m)) as [He Hb]. split; [by apply minterm_position|]. split; [done|].
  rewrite <-He. destruct Hm as [H0 H1]. split; [lia|]. rewrite Z2Nat.id by done. by rewrite universe_pow.
Qed.

Lemma cube_hits_off_spec c : cube_hits_off_fast on dc n c = true <-> hits_off c.
Proof.
  unfold cube_hits_off_fast. rewrite existsb_exists. destruct off_bits_spec as [Hw Hoff].
  assert (Hwi : forall w, within 64 (Z.land (cube_cover_word n c w) (off_word on dc n w))) by (intros w; apply within_land; [by apply cube_cover_word_within|apply nth_words, Hw]).
  split.
  - intros (w & Hw1%in_seq & Hne). apply negb_true_iff, Z.eqb_neq in Hne. apply word_nonzero in Hne as (i & Hi & Hb); [|apply Hwi].
    rewrite bit_land, cube_cover_word_bit in Hb by (done || lia). unfold off_word in Hb. rewrite word_bit in Hb by done.
    apply andb_true_iff in Hb as [[Hu Ha]%andb_true_iff Ho]. apply bool_decide_eq_true in Hu. apply Hoff in Ho as (_ & ? & ?).
    exists (Z.of_nat (w * 64 + i)). split; [by apply position_within|]. split; [done|]. split; [done|]. by apply (agree_cov n Hn).
  - intros (m & Hm & Hmon & Hmdc & Hc). destruct (within_position m Hm) as (w & i & Hw1 & Hi & -> & Hu). exists w. split; [apply in_seq; lia|].
    apply negb_true_iff, Z.eqb_neq, word_nonzero; [apply Hwi|]. exists i. split; [done|]. rewrite bit_land, cube_cover_word_bit by done. unfold off_word. rewrite word_bit by done.
    rewrite bool_decide_true by done. cbn [andb]. apply andb_true_iff. split; [by apply (agree_cov n Hn)|]. by apply Hoff.
Qed.
Lemma cover_hits_off_spec cov' : cover_hits_off_fast on dc n cov' = true <-> exists c, c ∈ cov' /\ hits_off c.
Proof. unfold cover_hits_off_fast. rewrite existsb_exists. setoid_rewrite cube_hits_off_spec. by setoid_rewrite list_elem_of_In. Qed.

Lemma row_word_within c w : within 64 (row_word on n c w).
Proof. apply within_land; [by apply cube_cover_word_within|]. apply nth_words, on_bits_spec. Qed.
Lemma row_word_bit c w i : (w < blocksU)%nat -> (i < 64)%nat -> bit (row_word on n c w) i = true <->
  Z.of_nat (w * 64 + i) ∈ on /\ Z.of_nat (w * 64 + i) < universe /\ cov n c (Z.of_nat (w * 64 + i)).
Proof.
  intros Hw Hi. unfold row_word. rewrite bit_land, cube_cover_word_bit by done. unfold on_word. rewrite word_bit by done.
  rewrite !andb_true_iff, bool_decide_eq_true, (proj2 on_bits_spec), agree_cov by done. tauto.
Qed.
Lemma or_rows_acc l w : forall a, fold_left (fun acc c => Z.lor acc (row_word on n c w)) l a = Z.lor a (or_rows on n l w).
Proof.
  unfold or_rows. induction l as [|c l IH]; intros a; cbn [fold_left]; [by rewrite Z.lor_0_r|].
  rewrite IH, (IH (Z.lor 0 _)), Z.lor_0_l. by rewrite Z.lor_assoc.
Qed.
Lemma or_rows_cons c l w : or_rows on n (c :: l) w = Z.lor (row_word on n c w) (or_rows on n l w).
Proof. unfold or_rows at 1. cbn [fold_left]. by rewrite or_rows_acc, Z.lor_0_l. Qed.
Lemma or_rows_app l k w : or_rows on n (l ++ k) w = Z.lor (or_rows on n l w) (or_rows on n k w).
Proof. induction l as [|c l IH]; [by rewrite Z.lor_0_l|]. by rewrite <-app_comm_cons, !or_rows_cons, IH, Z.lor_assoc. Qed.
Lemma or_rows_within l w : within 64 (or_rows on n l w).
Proof. induction l as [|c l IH]; [apply within_0|]. rewrite or_rows_cons. apply within_lor; [apply row_word_within|done]. Qed.
Lemma or_rows_bit l w i : bit (or_rows on n l w) i = true <-> exists c, c ∈ l /\ bit (row_word on n c w) i = true.
Proof.
  induction l as [|c l IH]; [cbn; rewrite bit_0; split; [done|intros (? & H%not_elem_of_nil & _); done]|]. rewrite or_rows_cons, bit_lor, orb_true_iff, IH. set_solver.
Qed.

Lemma covers_all_on_spec cov' : cover_covers_all_on_fast on n cov' = true <-> covers_on cov'.
Proof.
  destruct (decide (on = [])) as [E|E].
  { unfold cover_covers_all_on_fast, covers_on. rewrite E. split; [|done]. intros _ m Hm. by apply not_elem_of_nil in Hm. }
  assert (Hun : cover_covers_all_on_fast on n cov' = forallb (fun w => or_rows on n cov' w =? on_word on n w) (seq 0 blocksU)) by (unfold cover_covers_all_on_fast; by destruct on).
  rewrite Hun, forallb_forall. destruct on_bits_spec as [Hw Hob]. split.
  - intros H m Hm Hwm. destruct (within_position m Hwm) as (w & i & Hw1 & Hi & -> & Hu). specialize (H w ltac:(apply in_seq; lia)). apply Z.eqb_eq in H.
    assert (Hb : bit (on_word on n w) i = true) by (unfold on_word; rewrite word_bit by done; by apply Hob). rewrite <-H in Hb.
    apply or_rows_bit in Hb as (c & Hc & Hb). apply row_word_bit in Hb as (_ & _ & Hcov); [|done..]. eauto.
  - intros H w Hw1%in_seq. apply Z.eqb_eq. apply (bits_eq 64); [apply or_rows_within|apply nth_words, Hw|]. intros i Hi. apply eq_true_iff_eq.
    rewrite or_rows_bit. unfold on_word. rewrite word_bit by done. rewrite Hob. split.
    + intros (c & _ & Hb). apply row_word_bit in Hb as (? & ? & _); [done|lia|done].
    + intros [Hm Hu]. destruct (H _ Hm (position_within _ _ Hu)) as (c & Hc & Hcov). exists c. split; [done|]. apply row_word_bit; [lia|done|done].
Qed.
End Sets.
