(* ===== verification/SynthEspressoClaims.v ===== *)
(** * SynthEspressoClaims: the minimizer keeps a valid cover

    EXPAND and IRREDUNDANT keep a cover valid, the loops end, and the result
    covers the ON minterms and no OFF minterm. *)

From Stdlib Require Import ZArith Lia.
From stdpp Require Import base list sets sorting.
From S2P Require Import Prelude SynthCube SynthPrimes SynthPrimesClaims SynthCover SynthCoverClaims.
From S2P Require Import SynthPetrick SynthGreedy SynthGreedyClaims SynthEspresso SynthEspressoLemmas.

Open Scope Z_scope.

(** ** Removing duplicates *)

Lemma same_cube_same a b : same_cube a b = true -> same a b.
Proof. unfold same_cube. intros [?%Z.eqb_eq ?%Z.eqb_eq]%andb_true_iff. done. Qed.
Lemma cov_same n a b m : same a b -> cov n a m -> cov n b m.
Proof. intros [Hv Hm] H i Hi. rewrite <-Hm, <-Hv. by apply H. Qed.

Lemma unique_cubes_from_spec l : forall x, (forall y, y ∈ unique_cubes_from x l -> y ∈ x :: l) /\ (forall y, y ∈ x :: l -> exists z, z ∈ unique_cubes_from x l /\ same z y).
Proof.
  induction l as [|z l IH]; intros x; cbn [unique_cubes_from]; [split; [done|]; intros y Hy; exists y; by split|].
  destruct (same_cube x z) eqn:E.
  - destruct (IH x) as [H1 H2]. apply same_cube_same in E. split; [intros y Hy%H1; set_solver|].
    intros y [->|[->|Hy]%elem_of_cons]%elem_of_cons; [apply H2; by left| |apply H2; by right].
    destruct (H2 x) as (u & Hu & Hs); [by left|]. exists u. split; [done|]. destruct E, Hs. split; congruence.
  - destruct (IH z) as [H1 H2]. split; [intros y [->|Hy%H1]%elem_of_cons; set_solver|].
    intros y [->|Hy]%elem_of_cons; [exists x; split; [by left|done]|]. destruct (H2 y Hy) as (u & Hu & Hs). exists u. split; [by right|done].
Qed.
Lemma dedupe_spec l : (forall y, y ∈ dedupe l -> y ∈ l) /\ (forall y, y ∈ l -> exists z, z ∈ dedupe l /\ same z y).
Proof.
  unfold dedupe. pose proof (merge_sort_Permutation cube_le l) as HP. destruct (merge_sort cube_le l) as [|x k]; cbn [unique_cubes].
  - apply Permutation_nil in HP. subst. split; [done|]. intros y Hy. by apply not_elem_of_nil in Hy.
  - destruct (unique_cubes_from_spec k x) as [H1 H2]. split; intros y; rewrite <-HP; [apply H1|apply H2].
Qed.

Section Steps.
Context (on dc : list Z) (n : nat) (opt : two_level_options) (Hn : (1 <= n <= 16)%nat).
Context (Hon : Forall (fun m => 0 <= m) on) (Hdc : Forall (fun m => 0 <= m) dc).
#[local] Abbreviation covers_on := (covers_on on n).
#[local] Abbreviation hits_off := (hits_off on dc n).
#[local] Abbreviation row_word := (row_word on n).
#[local] Abbreviation or_rows := (or_rows on n).
#[local] Abbreviation var_order := (var_order on dc n).
#[local] Abbreviation row_word_bit := (SynthEspressoLemmas.row_word_bit on dc n Hn Hon Hdc).
#[local] Abbreviation row_word_within := (SynthEspressoLemmas.row_word_within on dc n Hn Hon Hdc).
#[local] Abbreviation or_rows_bit := (SynthEspressoLemmas.or_rows_bit on dc n Hn Hon Hdc).
#[local] Abbreviation or_rows_within := (SynthEspressoLemmas.or_rows_within on dc n Hn Hon Hdc).
#[local] Abbreviation cube_hits_off_spec := (SynthEspressoLemmas.cube_hits_off_spec on dc n Hn Hon Hdc).
#[local] Abbreviation cover_hits_off_spec := (SynthEspressoLemmas.cover_hits_off_spec on dc n Hn Hon Hdc).
#[local] Abbreviation covers_all_on_spec := (SynthEspressoLemmas.covers_all_on_spec on dc n Hn Hon Hdc).

(** Cubes over the variables that hit no OFF minterm and cover the ON set. *)
Definition cubes_ok (cover : list qm_implicant) : Prop := Forall (good n) cover.
Definition valid (cover : list qm_implicant) : Prop := covers_on cover /\ forall c, c ∈ cover -> ~ hits_off c.

Lemma covers_on_mono l k : (forall c, c ∈ l -> exists c', c' ∈ k /\ sub n c c') -> covers_on l -> covers_on k.
Proof. intros H Hl m Hm Hw. destruct (Hl m Hm Hw) as (c & Hc & Hcov). destruct (H c Hc) as (c' & Hc' & Hs). exists c'. split; [done|by apply Hs]. Qed.

Lemma dedupe_ok cover : cubes_ok cover -> cubes_ok (dedupe cover).
Proof. intros H. unfold cubes_ok in *. rewrite Forall_forall in *. intros c Hc%(proj1 (dedupe_spec cover)). by apply H. Qed.
Lemma dedupe_valid cover : valid cover -> valid (dedupe cover).
Proof.
  intros [H1 H2]. destruct (dedupe_spec cover) as [H3 H4]. split; [|intros c Hc%H3; by apply H2].
  apply (covers_on_mono cover); [|done]. intros c Hc. destruct (H4 c Hc) as (z & Hz & Hs). exists z. split; [done|]. intros m _ Hm. eapply cov_same; [|done]. destruct Hs. by split.
Qed.

(** ** IRREDUNDANT *)

(** What the test of a cube says, with the cubes before and after it. *)
Lemma redundant_cube_spec before rest c : redundant_cube on n (fun w => or_rows before w) rest c = true <->
  (forall m, m ∈ on -> within n m -> cov n c m -> exists c', c' ∈ before ++ rest /\ cov n c' m).
Proof.
  assert (Hex : forall m, m ∈ on -> within n m -> (exists c', c' ∈ before ++ rest /\ cov n c' m) <->
    forall w i, (w < blocksU n)%nat -> (i < 64)%nat -> m = Z.of_nat (w * 64 + i) -> bit (Z.lor (or_rows before w) (or_rows rest w)) i = true).
  { intros m Hm Hw. split.
    - intros (c' & Hc' & Hcov) w i Hwb Hi ->. rewrite <-or_rows_app. apply or_rows_bit. exists c'. split; [done|]. apply row_word_bit; [done..|].
      split; [done|]. split; [|done]. rewrite universe_pow by done. apply Hw.
    - intros H. destruct (within_position n Hn m Hw) as (w & i & Hwb & Hi & -> & Hu). specialize (H w i Hwb Hi eq_refl). rewrite <-or_rows_app in H.
      apply or_rows_bit in H as (c' & Hc' & Hb). apply row_word_bit in Hb as (_ & _ & ?); [|done..]. eauto. }
  unfold redundant_cube. rewrite forallb_forall. split.
  - intros H m Hm Hw Hcov. apply Hex; [done..|]. intros w i Hwb Hi ->. specialize (H w ltac:(apply in_seq; lia)). apply Z.eqb_eq in H.
    assert (Hb : bit (Z.land (row_word c w) (not64 (Z.lor (or_rows before w) (or_rows rest w)))) i = false) by (rewrite H; apply bit_0).
    rewrite bit_land, not64_bit in Hb by done. assert (Hr : bit (row_word c w) i = true) by (apply row_word_bit; [done..|]; split; [done|]; split; [rewrite universe_pow by done; apply Hw|done]).
    rewrite Hr in Hb. cbn [andb] in Hb. by apply negb_false_iff in Hb.
  - intros H w Hwb%in_seq. apply Z.eqb_eq. destruct (Z.eq_dec (Z.land (row_word c w) (not64 (Z.lor (or_rows before w) (or_rows rest w)))) 0) as [|Hne]; [done|].
    exfalso. apply word_nonzero in Hne as (i & Hi & Hb).
    + rewrite bit_land, not64_bit in Hb by done. apply andb_true_iff in Hb as [Hr Hb]. apply row_word_bit in Hr as (Hm & Hu & Hcov); [|lia|done].
      apply negb_true_iff in Hb. pose proof (position_within n Hn w i Hu) as Hw. rewrite (proj1 (Hex _ Hm Hw) (H _ Hm Hw Hcov) w i) in Hb; [done|lia|done|done].
    + apply within_land; [by apply row_word_within|]. apply Z.lxor_nonneg.
      assert (within 64 (Z.lor (or_rows before w) (or_rows rest w))) as [? _] by (apply within_lor; by apply or_rows_within). lia.
Qed.

Lemma redundant_cube_ext p q rest c : (forall w, p w = q w) -> redundant_cube on n p rest c = redundant_cube on n q rest c.
Proof. intros H. unfold redundant_cube. induction (seq 0 (blocksU n)) as [|w l IH]; [done|]. cbn [forallb]. by rewrite IH, H. Qed.

(** Each cube covers an ON minterm that no other cube covers. *)
Definition needs_all (cover : list qm_implicant) : Prop := forall i c, cover !! i = Some c ->
  exists m, m ∈ on /\ within n m /\ cov n c m /\ forall j c', cover !! j = Some c' -> cov n c' m -> j = i.

Definition kept (before : list qm_implicant) (c : qm_implicant) (rest : list qm_implicant) : Prop :=
  exists m, m ∈ on /\ within n m /\ cov n c m /\ forall c', c' ∈ before ++ rest -> ~ cov n c' m.

Lemma not_redundant_kept before rest c : redundant_cube on n (fun w => or_rows before w) rest c = false -> kept before c rest.
Proof.
  intros H. apply not_true_iff_false in H. rewrite redundant_cube_spec in H.
  set (P := fun m => within n m /\ cov n c m /\ Forall (fun c' => ~ cov n c' m) (before ++ rest)).
  assert (Hdec : forall c m, Decision (cov n c m)).
  { intros c0 m. destruct (agree c0 (seq 0 n) m) eqn:E; [left; by apply (agree_cov n Hn)|right]. rewrite <-(agree_cov n Hn). congruence. }
  assert (HPdec : forall m, Decision (P m)) by (intros m; unfold P, within; apply _).
  destruct (Exists_dec P on) as [(m & Hm & Hw & Hc & Hf)%Exists_exists|He].
  - exists m. split; [done|]. split; [done|]. split; [done|]. intros c' Hc'. rewrite Forall_forall in Hf. by apply Hf.
  - exfalso. apply H. intros m Hm Hw Hcov. destruct (Exists_dec (fun c' => cov n c' m) (before ++ rest)) as [(c' & ? & ?)%Exists_exists|Hne]; [eauto|].
    exfalso. apply He, Exists_exists. exists m. split; [done|]. split; [done|]. split; [done|]. apply Forall_forall. intros c' Hc' Hcc. apply Hne, Exists_exists. eauto.
Qed.

Lemma kept_needs_all cover : (forall i c, cover !! i = Some c -> kept (take i cover) c (drop (S i) cover)) -> needs_all cover.
Proof.
  intros H i c Hi. destruct (H i c Hi) as (m & Hm & Hw & Hc & Hno). exists m. split; [done|]. split; [done|]. split; [done|]. intros j c' Hj Hcov.
  destruct (decide (j = i)) as [|Hne]; [done|]. exfalso. apply (Hno c'); [|done]. apply elem_of_app. destruct (Nat.lt_ge_cases j i) as [Hlt|Hge]; [left|right].
  - apply (list_elem_of_lookup_2 _ j). apply lookup_take_Some. done.
  - apply (list_elem_of_lookup_2 _ (j - S i)). rewrite lookup_drop. by replace (S i + (j - S i))%nat with j by lia.
Qed.

Lemma irredundant_loop_spec fuel : forall i prefix cover, (i <= length cover)%nat -> (length cover * S (length cover) <= fuel + i)%nat ->
  (forall w, prefix w = or_rows (take i cover) w) ->
  (forall j c, (j < i)%nat -> cover !! j = Some c -> kept (take j cover) c (drop (S j) cover)) ->
  exists cover', irredundant_loop on n fuel i prefix cover = Some cover' /\ (forall c, c ∈ cover' -> c ∈ cover) /\ (covers_on cover -> covers_on cover') /\ needs_all cover'.
Proof.
  induction fuel as [|fuel IH]; intros i prefix cover Hil Hf Hpre Hkept; cbn [irredundant_loop]; destruct (cover !! i) as [c|] eqn:Ei.
  - apply lookup_lt_Some in Ei. nia.
  - exists cover. split; [done|]. split; [done|]. split; [done|]. apply kept_needs_all. intros j c Hj. apply Hkept; [|done]. apply lookup_ge_None in Ei. apply lookup_lt_Some in Hj. lia.
  - rewrite (redundant_cube_ext _ _ _ _ Hpre). destruct (redundant_cube on n (fun w => or_rows (take i cover) w) (drop (S i) cover) c) eqn:Er.
    + destruct (swap_remove_spec i cover c Ei) as (HP & Hlen & _). pose proof (lookup_lt_Some _ _ _ Ei).
      destruct (IH 0%nat (fun _ => 0) (swap_remove i cover)) as (cover' & H1 & H2 & H3 & H4); [lia|nia|done|lia|].
      exists cover'. split; [done|]. split; [intros c' Hc'%H2; rewrite HP; by right|]. split; [|done]. intros Hcov. apply H3. intros m Hm Hw.
      destruct (Hcov m Hm Hw) as (c' & Hc' & Hcc). rewrite HP in Hc'. apply elem_of_cons in Hc' as [->|Hc']; [|eauto].
      rewrite redundant_cube_spec in Er. destruct (Er m Hm Hw Hcc) as (c' & Hc' & Hcc'). exists c'. split; [|done].
      assert (HP' : cover ≡ₚ c :: (take i cover ++ drop (S i) cover)) by (rewrite <-(take_drop_middle cover i c Ei) at 1; by rewrite <-Permutation_middle).
      apply (Permutation_trans (Permutation_sym HP)), Permutation_cons_inv in HP'. by rewrite HP'.
    + apply IH; [apply lookup_lt_Some in Ei; lia|lia| |].
      * intros w. rewrite Hpre. rewrite (take_S_r cover i c Ei), or_rows_app, or_rows_cons. unfold SynthEspresso.or_rows at 3. cbn [fold_left]. by rewrite Z.lor_0_r.
      * intros j c' Hj Hc'. destruct (decide (j = i)) as [->|]; [|apply Hkept; [lia|done]]. simplify_eq. by apply not_redundant_kept.
  - exists cover. split; [done|]. split; [done|]. split; [done|]. apply kept_needs_all. intros j c Hj. apply Hkept; [|done]. apply lookup_ge_None in Ei. apply lookup_lt_Some in Hj. lia.
Qed.
Lemma irredundant_cubes_spec cover : exists cover', irredundant_cubes on n cover = Some cover' /\ (forall c, c ∈ cover' -> c ∈ cover) /\ (covers_on cover -> covers_on cover') /\ needs_all cover'.
Proof. apply irredundant_loop_spec; [lia|lia|done|lia]. Qed.

(** ** EXPAND *)

Lemma var_order_lt v : v ∈ var_order -> (v < n)%nat.
Proof.
  unfold SynthEspresso.var_order, espresso_binate_var_order. intros (s & -> & Hs)%list_elem_of_fmap. rewrite merge_sort_Permutation in Hs.
  apply list_elem_of_fmap in Hs as (v & -> & Hv%elem_of_seq). cbn. lia.
Qed.

Lemma relax_spec c b : good n c -> within n b -> good n (relax c b) /\ sub n c (relax c b).
Proof.
  intros [Gv Gm Gc] Hb. assert (Hlow : forall x i, within n x -> bit x i = true -> (i < 16)%nat).
  { intros x i Hx Hi. destruct (Nat.lt_ge_cases i 16); [done|]. by rewrite (within_high n x) in Hi by (done || lia). }
  split; [constructor; cbn [relax qm_value qm_mask]|].
  - apply within_land; [done|]. apply not16_nonneg, Hb.
  - by apply within_lor.
  - intros i Hi. rewrite bit_lor in Hi. rewrite bit_land. destruct (bit (qm_value c) i) eqn:Ev; [|done]. cbn [andb].
    rewrite bit_not16 by (by apply (Hlow (qm_value c))). apply orb_true_iff in Hi as [Hi|Hi]; [|by rewrite Hi]. rewrite (Gc i Hi) in Ev. done.
  - intros m Hm Hc i Hi Hmask. cbn [relax qm_value qm_mask] in *. rewrite bit_lor in Hmask. apply orb_false_iff in Hmask as [H1 H2].
    rewrite (Hc i Hi H1), bit_land, bit_not16, H2 by lia. by rewrite andb_true_r.
Qed.
Lemma free_bits_within c b : b ∈ free_bits on dc n c -> within n b.
Proof.
  unfold free_bits. intros (v & Hv & He)%list_elem_of_omap. case_match; simplify_eq. rewrite shiftl_1. apply within_pow, var_order_lt.
  apply list_elem_of_lookup_1 in Hv as [i Hi]. apply lookup_take_Some in Hi as [Hi _]. by eapply list_elem_of_lookup_2.
Qed.
Lemma pair_bits_within l b : (forall x, x ∈ l -> within n x) -> b ∈ pair_bits l -> within n b.
Proof.
  induction l as [|x l IH]; intros Hl Hb; cbn [pair_bits] in Hb; [by apply not_elem_of_nil in Hb|]. apply elem_of_app in Hb as [Hb|Hb].
  - apply list_elem_of_fmap in Hb as (y & -> & Hy). apply within_lor; apply Hl; [by left|by right].
  - apply IH; [|done]. intros y Hy. apply Hl. by right.
Qed.
Lemma cube_cands_spec c cand : good n c -> cand ∈ cube_cands on dc n c -> good n cand.1 /\ sub n c cand.1.
Proof.
  intros Hg [Hc|Hc]%elem_of_app; apply list_elem_of_fmap in Hc as (b & -> & Hb); cbn [fst]; apply relax_spec; try done.
  - by eapply free_bits_within.
  - eapply pair_bits_within; [|done]. apply free_bits_within.
Qed.
Lemma best_cand_spec c cand : best_cand on dc n c = Some cand -> (exists d, (cand, d) ∈ cube_cands on dc n c) /\ ~ hits_off cand.
Proof.
  unfold best_cand. generalize (cube_cands on dc n c). intros cands.
  set (f := fun (best : option qm_implicant * nat) (cand : qm_implicant * nat) => _).
  assert (Hgen : forall l best, (forall x, best.1 = Some x -> (exists d, (x, d) ∈ cands) /\ ~ hits_off x) -> (forall x, x ∈ l -> x ∈ cands) ->
    forall x, (fold_left f l best).1 = Some x -> (exists d, (x, d) ∈ cands) /\ ~ hits_off x).
  { induction l as [|[y d] l IH]; intros best Hb Hl x Hx; [by apply Hb|]. cbn [fold_left] in Hx. eapply IH; [| |exact Hx]; [|intros z Hz; apply Hl; by right].
    intros z. unfold f. cbn [fst snd]. destruct (cube_hits_off_fast on dc n y) eqn:Eh; [by apply Hb|]. case_match; [|by apply Hb]. intros [= <-].
    split; [exists d; apply Hl; by left|]. rewrite <-cube_hits_off_spec. congruence. }
  intros Hx. eapply Hgen; [| |exact Hx]; [done|done].
Qed.
Lemma expand_cube_spec c : good n c -> good n (expand_cube on dc n c).1 /\ sub n c (expand_cube on dc n c).1 /\ (~ hits_off c -> ~ hits_off (expand_cube on dc n c).1).
Proof.
  intros Hg. assert (Hself : good n c /\ sub n c c /\ (~ hits_off c -> ~ hits_off c)) by (split; [done|]; split; [by intros m _|done]).
  unfold expand_cube. destruct (best_cand on dc n c) as [cand|] eqn:E; [|done]. destruct (same_cube cand c); [done|]. cbn [fst].
  apply best_cand_spec in E as [[d Hin] Hno]. destruct (cube_cands_spec c _ Hg Hin). done.
Qed.
Lemma expand_rounds_spec k : forall cover, cubes_ok cover -> cubes_ok (expand_rounds on dc n k cover) /\ (valid cover -> valid (expand_rounds on dc n k cover)).
Proof.
  induction k as [|k IH]; intros cover Hok; cbn [expand_rounds]; [done|]. case_match; [|done]. unfold cubes_ok in *. rewrite Forall_forall in *.
  assert (Hok' : forall c, c ∈ map fst (map (expand_cube on dc n) cover) -> exists c0, c0 ∈ cover /\ c = (expand_cube on dc n c0).1).
  { intros c (p & -> & (c0 & -> & Hc0)%list_elem_of_fmap)%list_elem_of_fmap. eauto. }
  destruct (IH (map fst (map (expand_cube on dc n) cover))) as [H1 H2].
  { apply Forall_forall. intros c (c0 & Hc0 & ->)%Hok'. by apply expand_cube_spec, Hok. }
  rewrite Forall_forall in H1. split; [done|]. intros [Hv1 Hv2]. apply H2. split.
  - apply (covers_on_mono cover); [|done]. intros c Hc. exists (expand_cube on dc n c).1. split; [|by apply expand_cube_spec, Hok].
    apply list_elem_of_fmap. eexists. split; [done|]. apply list_elem_of_fmap. eauto.
  - intros c (c0 & Hc0 & ->)%Hok'. apply expand_cube_spec; [by apply Hok|by apply Hv2].
Qed.

(** ** REDUCE *)

Lemma specialize_good anchor c v : good n c -> (v < n)%nat -> good n (specialize_var anchor c v).
Proof.
  intros Hg Hv. unfold specialize_var. destruct (bit (qm_mask c) v) eqn:Ev; [|done]. cbn [negb]. case_match; [done|]. rewrite shiftl_1.
  pose proof (half_good n (proj2 Hn) c v true Hg Hv) as [A1 A2 A3]. cbn [half qm_value qm_mask] in *. unfold drop_bit in *. pose proof (not16_nonneg (2 ^ Z.of_nat v) ltac:(apply Z.pow_nonneg; lia)).
  constructor; cbn [qm_value qm_mask]; [|done|].
  - case_match; [done|]. apply within_land; [apply Hg|done].
  - intros i Hi. case_match; [by apply A3|]. rewrite bit_land. destruct (bit (qm_value c) i) eqn:E1; [|done]. specialize (A3 i Hi). rewrite bit_lor, E1 in A3. done.
Qed.
Lemma reduce_good before c rest : good n c -> good n (reduce_cube on dc n before c rest).
Proof.
  intros Hg. unfold reduce_cube. generalize (if any_bits (map (fun w => Z.land (row_word c w) (not64 (Z.lor (or_rows before w) (or_rows rest w)))) (seq 0 (blocksU n))) then
    map (fun w => Z.land (row_word c w) (not64 (Z.lor (or_rows before w) (or_rows rest w)))) (seq 0 (blocksU n)) else map (row_word c) (seq 0 (blocksU n))).
  intros anchor. assert (Hv : Forall (fun v => (v < n)%nat) var_order) by (apply Forall_forall; apply var_order_lt). revert c Hg.
  induction Hv as [|v l Hv _ IH]; intros c Hg; [done|]. cbn [fold_left]. by apply IH, specialize_good.
Qed.
Lemma reduce_from_ok rest : forall before, cubes_ok rest -> cubes_ok (reduce_from on dc n before rest).
Proof.
  induction rest as [|c rest IH]; intros before Hok; cbn [reduce_from]; [done|]. apply Forall_cons in Hok as [Hc Hok]. constructor; [by apply reduce_good|by apply IH].
Qed.

(** ** The steps *)

Context (sort_ranked : list (nat * qm_implicant) -> list (nat * qm_implicant)) (Hsort : forall l, sort_ranked l ≡ₚ l).

Lemma step_expand_spec cover : cubes_ok cover -> exists cover', step_expand on dc n sort_ranked cover = Some cover' /\ cubes_ok cover' /\ (valid cover -> valid cover' /\ needs_all cover').
Proof.
  intros Hok. unfold step_expand. set (ranked := map snd (sort_ranked (map (fun c => (on_count on n c, c)) cover))).
  assert (HP : ranked ≡ₚ cover).
  { unfold ranked. rewrite Hsort, map_map. cbn [snd]. by rewrite map_id. }
  assert (Hrok : cubes_ok ranked) by (unfold cubes_ok; by rewrite HP). assert (Hrv : valid cover -> valid ranked).
  { intros [H1 H2]. split; [|intros c; rewrite HP; apply H2]. intros m Hm Hw. setoid_rewrite HP. by apply H1. }
  destruct (expand_rounds_spec 3 ranked Hrok) as [H1 H2]. fold (expand_cover_batch on dc n ranked) in H1, H2.
  destruct (irredundant_cubes_spec (dedupe (expand_cover_batch on dc n ranked))) as (cover' & -> & H3 & H4 & H5). exists cover'. split; [done|]. apply dedupe_ok in H1. split.
  - unfold cubes_ok in *. rewrite Forall_forall in *. auto.
  - intros Hv%Hrv%H2%dedupe_valid. split; [|done]. split; [apply H4, Hv|]. intros c Hc%H3. by apply Hv.
Qed.
Lemma step_reduce_spec cover : cubes_ok cover -> exists cover', step_reduce on dc n cover = Some cover' /\ cubes_ok cover'.
Proof.
  intros Hok. unfold step_reduce. destruct (irredundant_cubes_spec (dedupe (reduce_step on dc n cover))) as (cover' & -> & H3 & _ & _). exists cover'. split; [done|].
  assert (H1 : cubes_ok (dedupe (reduce_step on dc n cover))) by (apply dedupe_ok; by apply reduce_from_ok). unfold cubes_ok in *. rewrite Forall_forall in *. auto.
Qed.

(** ** The loops *)

Definition best_ok (best : list qm_implicant * Z) : Prop := cubes_ok best.1 /\ valid best.1 /\ best.2 = two_level_cover_cost best.1 n opt.

Lemma tests_valid cover : cover_covers_all_on_fast on n cover && negb (cover_hits_off_fast on dc n cover) = true <-> valid cover.
Proof.
  rewrite andb_true_iff, negb_true_iff, covers_all_on_spec. unfold valid. rewrite <-not_true_iff_false, cover_hits_off_spec. naive_solver.
Qed.
Lemma keep_better_ok cover best : cubes_ok cover -> best_ok best -> best_ok (keep_better on dc n opt cover best) /\ (keep_better on dc n opt cover best).2 <= best.2.
Proof.
  intros Hc Hb. unfold keep_better. pose proof (tests_valid cover) as Ht. destruct (_ && _); [|by split; [|lia]].
  destruct (Z.ltb_spec (two_level_cover_cost cover n opt) best.2); [|by split; [|lia]]. split; [|cbn; lia]. split; [done|]. split; [by apply Ht|done].
Qed.
Lemma main_loop_ok k : forall cover best, cubes_ok cover -> best_ok best -> exists best', main_loop on dc n opt sort_ranked k cover best = Some best' /\ best_ok best' /\ best'.2 <= best.2.
Proof.
  induction k as [|k IH]; intros cover best Hc Hb; cbn [main_loop]; [exists best; split; [done|]; split; [done|lia]|].
  destruct (step_expand_spec cover Hc) as (c1 & -> & Hc1 & _). cbn [mbind option_bind].
  destruct (step_reduce_spec c1 Hc1) as (c2 & -> & Hc2). cbn [mbind option_bind].
  destruct (keep_better_ok c1 best Hc1 Hb) as [Hb1 Hl1]. destruct (keep_better_ok c2 _ Hc2 Hb1) as [Hb2 Hl2].
  case_match; [eexists; split; [done|]; split; [done|lia]|]. destruct (IH c2 _ Hc2 Hb2) as (b' & -> & Hb' & Hl'). exists b'. split; [done|]. split; [done|lia].
Qed.
Lemma rerun_ok k : forall cover, cubes_ok cover -> exists cover', rerun on dc n sort_ranked k cover = Some cover' /\ cubes_ok cover'.
Proof.
  induction k as [|k IH]; intros cover Hc; cbn [rerun]; [by exists cover|].
  destruct (step_expand_spec cover Hc) as (c1 & -> & Hc1 & _). cbn [mbind option_bind].
  destruct (step_reduce_spec c1 Hc1) as (c2 & -> & Hc2). cbn [mbind option_bind]. by apply IH.
Qed.
Lemma minterm_good m b : within n m -> good n (mk_imp m 0 b).
Proof. intros Hm. constructor; cbn [qm_value qm_mask]; [done|apply within_0|]. intros i Hi. by rewrite bit_0 in Hi. Qed.
Context (Hwon : Forall (within n) on).
Lemma gasp_ok best attempt : best_ok best -> exists best', gasp on dc n opt sort_ranked best attempt = Some best' /\ best_ok best' /\ best'.2 <= best.2.
Proof.
  intros Hb. assert (Hself : exists best', Some best = Some best' /\ best_ok best' /\ best'.2 <= best.2) by (exists best; split; [done|]; split; [done|lia]).
  unfold gasp. destruct best.1 as [|c0 cs] eqn:E; [done|]. rewrite <-E. set (idx := Z.to_nat _). destruct (_ ≫= _) as [anchor|] eqn:Ea; [|done].
  assert (Hanchor : within n anchor).
  { apply bind_Some in Ea as (c & _ & Hf). apply find_some in Hf as [Hin%list_elem_of_In _]. rewrite Forall_forall in Hwon. by apply Hwon. }
  destruct (rerun_ok 4 (alter (fun c => mk_imp anchor 0 (qm_combined c)) idx best.1)) as (c1 & -> & Hc1).
  { apply Forall_alter; [apply Hb|]. intros c _ _. by apply minterm_good. }
  cbn [mbind option_bind]. eexists. split; [done|]. by apply keep_better_ok.
Qed.
Lemma last_gasp_ok l : forall best, best_ok best -> exists best', last_gasp on dc n opt sort_ranked l best = Some best' /\ best_ok best' /\ best'.2 <= best.2.
Proof.
  induction l as [|a l IH]; intros best Hb; cbn [last_gasp]; [exists best; split; [done|]; split; [done|lia]|].
  destruct (gasp_ok best a Hb) as (b1 & -> & Hb1 & Hl1). cbn [mbind option_bind]. destruct (IH b1 Hb1) as (b2 & -> & Hb2 & Hl2). exists b2. split; [done|]. split; [done|lia].
Qed.

Lemma minterms_ok : best_ok (map minterm_cube on, two_level_cover_cost (map minterm_cube on) n opt).
Proof.
  rewrite Forall_forall in Hwon. split; [|split; [|done]]; cbn [fst].
  - apply Forall_forall. intros c (m & -> & Hm)%list_elem_of_fmap. by apply minterm_good, Hwon.
  - split.
    + intros m Hm Hw. exists (minterm_cube m). split; [apply list_elem_of_fmap; eauto|]. by intros i _ _.
    + intros c (m & -> & Hm)%list_elem_of_fmap (m' & Hw' & Hno & _ & Hcov). apply Hno. replace m' with m; [done|].
      apply (bits_eq n); [by apply Hwon|done|]. intros i Hi. symmetry. apply (Hcov i Hi). apply bit_0.
Qed.
Lemma espresso_base_ok : exists sol, espresso_two_level_minimize_base on dc n opt sort_ranked = Some sol /\ es_complemented sol = false /\
  best_ok (es_cover sol, es_cost sol) /\ es_cost sol <= two_level_cover_cost (map minterm_cube on) n opt.
Proof.
  unfold espresso_two_level_minimize_base. rewrite (proj2 (Nat.eqb_neq n 0)), (proj2 (Nat.ltb_ge 16 n)) by lia.
  destruct (main_loop_ok 8 (map minterm_cube on) _ (proj1 minterms_ok) minterms_ok) as (b1 & -> & Hb1 & Hl1). cbn [mbind option_bind].
  destruct (last_gasp_ok (seq 0 4) b1 Hb1) as (b2 & -> & Hb2 & Hl2). cbn [mbind option_bind].
  pose proof (proj2 (tests_valid b2.1) (proj1 (proj2 Hb2))) as [-> Hoff]%andb_true_iff. cbn [negb]. apply negb_true_iff in Hoff. rewrite Hoff.
  eexists. split; [done|]. split; [done|]. cbn [es_cover es_cost]. split; [by destruct b2|]. cbn [snd] in Hl1. lia.
Qed.
End Steps.

(** What a valid cover is, minterm by minterm. *)
Lemma cover_hits_cov n cover m : (n <= 16)%nat -> cubes_ok n cover -> within n m -> cover_hits cover m = true <-> exists c, c ∈ cover /\ cov n c m.
Proof.
  intros Hn Hok Hm. unfold cover_hits. rewrite existsb_exists. unfold cubes_ok in Hok. rewrite Forall_forall in Hok. split.
  - intros (c & Hin%list_elem_of_In & Hc). exists c. split; [done|]. apply (covers_cov n Hn c m); auto.
  - intros (c & Hin & Hc). exists c. split; [by apply list_elem_of_In|]. apply (covers_cov n Hn c m); auto.
Qed.
Definition realizes (on dc : list Z) (n : nat) (f : Z -> bool) : Prop :=
  forall m, within n m -> (m ∉ dc) -> f m = bool_decide (m ∈ on).
Lemma valid_hits on dc n cover : (n <= 16)%nat -> Forall (within n) on -> cubes_ok n cover -> valid on dc n cover ->
  two_level_cover_covers_all_on cover on = true /\ realizes on dc n (cover_hits cover).
Proof.
  intros Hn Hw Hok [H1 H2]. rewrite Forall_forall in Hw.
  assert (Hall : forall m, m ∈ on -> cover_hits cover m = true) by (intros m Hm; apply (cover_hits_cov n); [done|done|by apply Hw|]; apply H1; auto).
  split; [unfold two_level_cover_covers_all_on; apply forallb_forall; intros m Hm%list_elem_of_In; by apply Hall|].
  intros m Hm Hdc. case_bool_decide as Hon; [by apply Hall|]. apply not_true_iff_false. rewrite (cover_hits_cov n) by done. intros (c & Hc & Hcov). apply (H2 c Hc). by exists m.
Qed.

(** C28: the minimizer always returns a cover, whichever order its sort gives
    to equal cubes: it covers every ON minterm, covers no minterm that is
    neither ON nor a don't care, costs what is returned, and costs no more
    than one cube per minterm. *)
Theorem espresso_valid_cover on dc n opt sort_ranked : (1 <= n <= 16)%nat -> Forall (within n) on -> Forall (fun m => 0 <= m) dc -> (forall l, sort_ranked l ≡ₚ l) ->
  exists sol, espresso_two_level_minimize_base on dc n opt sort_ranked = Some sol /\
    two_level_cover_covers_all_on (es_cover sol) on = true /\ realizes on dc n (cover_hits (es_cover sol)) /\
    es_cost sol = two_level_cover_cost (es_cover sol) n opt /\ es_cost sol <= two_level_cover_cost (map minterm_cube on) n opt.
Proof.
  intros Hn Hon Hdc Hsort. assert (Hon0 : Forall (fun m => 0 <= m) on) by (eapply Forall_impl; [exact Hon|]; by intros m [? _]).
  destruct (espresso_base_ok on dc n opt Hn Hon0 Hdc sort_ranked Hsort Hon) as (sol & Hs & _ & (Hok & Hv & Hc) & Hl). exists sol. split; [done|].
  destruct (valid_hits on dc n (es_cover sol)) as [H1 H2]; [lia|done|done|done|]. done.
Qed.
Lemma espresso_valid_cover_witness : exists sol, espresso_two_level_minimize_base cycle_on [3] 3 unit_weights (fun l => l) = Some sol /\ realizes cycle_on [3] 3 (cover_hits (es_cover sol)).
Proof.
  destruct (espresso_valid_cover cycle_on [3] 3 unit_weights (fun l => l)) as (sol & H1 & _ & H2 & _).
  - lia.
  - repeat constructor; vm_compute; congruence.
  - repeat constructor; vm_compute; congruence.
  - reflexivity.
  - exists sol. split; [exact H1|exact H2].
Defined.

(** A valid cover stays valid through EXPAND and IRREDUNDANT, and each cube
    that is left covers an ON minterm of its own. *)
Theorem expand_keeps_valid on dc n sort_ranked cover : (1 <= n <= 16)%nat -> Forall (fun m => 0 <= m) on -> Forall (fun m => 0 <= m) dc -> (forall l, sort_ranked l ≡ₚ l) ->
  cubes_ok n cover -> valid on dc n cover -> exists cover', step_expand on dc n sort_ranked cover = Some cover' /\ cubes_ok n cover' /\ valid on dc n cover' /\ needs_all on n cover'.
Proof.
  intros Hn Hon Hdc Hsort Hok Hv. destruct (step_expand_spec on dc n Hn Hon Hdc sort_ranked Hsort cover Hok) as (cover' & H1 & H2 & H3). exists cover'. destruct (H3 Hv). done.
Qed.
