(* ===== verification/SynthSelect.v ===== *)
(** * SynthSelect: the cover that is used

    [best_single_cover] of [optimize_qm_two_level_minimize_in_pe_netlist]
    ([verilog/digital/pe_synth.h]): prime implicants, a cover by them, and the
    heuristic minimizer when it is cheaper; and the complemented form of the
    minimizer.  Both realize the function. *)

From Stdlib Require Import ZArith Lia.
From stdpp Require Import base list sets sorting.
From S2P Require Import Prelude SynthCube SynthPrimes SynthPrimesClaims SynthCover SynthCoverClaims.
From S2P Require Import SynthPetrick SynthGreedy SynthGreedyClaims SynthEspresso SynthEspressoLemmas SynthEspressoClaims.

Open Scope Z_scope.

Definition exact_vars : nat := 6.

Section Select.
Context (on dc : list Z) (var_count : nat) (opt : two_level_options).
Context (sort_cands : list cand_t -> list cand_t) (sort_ranked : list (nat * qm_implicant) -> list (nat * qm_implicant)) (fuel : nat).

(** The cover by primes. *)
Definition better_petrick (pet sol : qm_solution) : bool :=
  negb (qs_cost pet =? SIZE_MAX) && ((qs_cost sol =? SIZE_MAX) || (qs_cost pet <? qs_cost sol)).
Definition qm_cover_solution (primes : list qm_implicant) : option qm_solution :=
  if (var_count <=? exact_vars)%nat then qm_exact_minimum_cover primes on var_count opt fuel
  else
    sol ← qm_greedy_cover primes on var_count opt sort_cands;
    if (length primes <=? 64)%nat && (length on <=? 64)%nat then
      pet ← qm_petrick_minimum_cover primes on var_count opt;
      Some (if better_petrick pet sol then pet else sol)
    else Some sol.

Definition best_single_cover : option (list qm_implicant) :=
  match on with
  | [] => Some []
  | _ =>
      if Z.of_nat (length on) =? Z.shiftl 1 (Z.of_nat var_count) then Some [mk_imp 0 (var_mask var_count) false]
      else
        primes ← qm_prime_implicants on dc var_count;
        match primes with
        | [] => Some []
        | _ =>
            qm_sol ← qm_cover_solution primes;
            if qs_cost qm_sol =? SIZE_MAX then Some []
            else
              let qm_cover := picked_cubes primes (qs_pick qm_sol) in
              let qm_cost := two_level_cover_cost qm_cover var_count opt in
              if (exact_vars <? var_count)%nat then
                esp ← espresso_two_level_minimize_base on dc var_count opt sort_ranked;
                Some (if negb (es_cost esp =? SIZE_MAX) && (es_cost esp <? qm_cost) then es_cover esp else qm_cover)
              else Some qm_cover
        end
  end.
End Select.

(** ** The cover by primes *)

Section Correct.
Context (on dc : list Z) (n : nat) (opt : two_level_options) (Hn : (1 <= n <= 16)%nat) (Hw : weights_ok opt).
Context (Hon : Forall (within n) on) (Hdc : Forall (within n) dc).
Context (sort_cands : list cand_t -> list cand_t) (sort_ranked : list (nat * qm_implicant) -> list (nat * qm_implicant)).
Context (Hsc : forall l, sort_cands l ≡ₚ l) (Hsr : forall l, sort_ranked l ≡ₚ l).

Lemma both_within : Forall (within n) (on ++ dc).
Proof. apply Forall_app. done. Qed.

Lemma primes_facts : exists primes, qm_prime_implicants on dc n = Some primes /\ cubes_ok n primes /\ Z.of_nat (length primes) <= 2 ^ 40 /\
  (forall m, m ∈ on -> covers_of primes m <> []) /\ (forall p m, p ∈ primes -> within n m -> implicant_covers p m = true -> m ∈ on \/ m ∈ dc).
Proof.
  destruct (qm_primes_spec on dc n) as (ps & Eps & Hd & Hl); [lia|apply both_within|]. exists ps. split; [done|].
  assert (Hok : cubes_ok n ps).
  { apply Forall_forall. intros c Hc. assert (Hlc : listed ps c) by (exists c; by split). apply Hl in Hlc as [[Hg _] _]. done. }
  split; [done|]. destruct (qm_primes_cover on dc n ps) as [Hc1 Hc2]; [lia|apply both_within|done|]. split; [|split].
  - unfold distinct in Hd. set (f := fun c => qm_value c * 2 ^ 16 + qm_mask c).
    assert (Hf : forall c, c ∈ ps -> 0 <= qm_value c < 2 ^ 16 /\ 0 <= qm_mask c < 2 ^ 16).
    { intros c Hc. unfold cubes_ok in Hok. rewrite Forall_forall in Hok. destruct (Hok c Hc) as [Gv Gm _].
      split; apply (within_mono n 16); (lia || done). }
    rewrite <-(length_fmap f ps). etrans; [apply (NoDup_within_length (f <$> ps) 32)|vm_compute; congruence].
    + apply NoDup_fmap_1 in Hd as Hnd. apply NoDup_fmap_2_strong; [|done]. intros a b Ha Hb He. pose proof (Hf a Ha). pose proof (Hf b Hb). unfold f in He. change (2 ^ 16) with 65536 in *.
      assert (qm_value a = qm_value b /\ qm_mask a = qm_mask b) as [Ev Em] by lia.
      apply list_elem_of_lookup_1 in Ha as [i Hi], Hb as [j Hj]. assert (i = j) as ->; [|congruence].
      eapply (NoDup_lookup _ _ _ (qm_value a, qm_mask a) Hd); rewrite list_lookup_fmap, ?Hi, ?Hj; cbn; congruence.
    + apply Forall_forall. intros x (c & -> & Hc)%list_elem_of_fmap. pose proof (Hf c Hc). unfold f, within. change (2 ^ 16) with 65536 in *. change (2 ^ Z.of_nat 32) with (65536 * 65536). lia.
  - intros m Hm E. destruct (Hc1 m) as (p & [pi Hp]%list_elem_of_lookup_1 & Hpm); [set_solver|].
    assert (Hin : pi ∈ covers_of ps m) by (apply elem_covers_of; unfold covers_m; by rewrite Hp). rewrite E in Hin. by apply not_elem_of_nil in Hin.
  - intros p m Hp Hm Hpm. apply elem_of_app. by eapply Hc2.
Qed.

Lemma picked_valid primes pick : cubes_ok n primes -> (forall p m, p ∈ primes -> within n m -> implicant_covers p m = true -> m ∈ on \/ m ∈ dc) -> is_cover primes on pick ->
  realizes on dc n (cover_hits (picked_cubes primes pick)).
Proof.
  intros Hok Hno Hc m Hm Hmdc. unfold cover_hits. case_bool_decide as Hmon.
  - apply Hc, hit_true in Hmon as (pi & Hpi & Hpm). unfold covers_m in Hpm. destruct (primes !! pi) as [p|] eqn:Ep; [|done].
    apply existsb_exists. exists p. split; [|done]. apply list_elem_of_In. apply list_elem_of_omap. eauto.
  - apply not_true_iff_false. intros (p & (pi & Hpi & Hp)%list_elem_of_In%list_elem_of_omap & Hpm)%existsb_exists.
    destruct (Hno p m) as [?|?]; [by eapply list_elem_of_lookup_2|done|done|done|done].
Qed.

(** Every essential prime is picked by the exact cover; it is a cover when
    they are enough. *)
Definition essentials_cover (primes : list qm_implicant) : Prop := forall m, m ∈ on -> exists pi, essential primes on pi /\ covers_m primes pi m = true.

Lemma solution_cover primes fuel : on <> [] -> (1 <= fuel)%nat -> (forall m, m ∈ on -> covers_of primes m <> []) -> Z.of_nat (length primes) <= 2 ^ 40 ->
  ((n <= exact_vars)%nat -> essentials_cover primes) ->
  exists sol, qm_cover_solution on n opt sort_cands fuel primes = Some sol /\ qs_cost sol <> SIZE_MAX /\ is_cover primes on (qs_pick sol).
Proof.
  intros Hne Hf Hcov Hlen Hess. unfold qm_cover_solution. assert (Hlt : forall pick, NoDup pick -> (forall pi, pi ∈ pick -> (pi < length primes)%nat) -> cost_of primes n opt pick <> SIZE_MAX).
  { intros pick Hnd Hr. apply Z.lt_neq, cost_of_bound; [done|lia|]. etrans; [|exact Hlen]. apply Nat2Z.inj_le. rewrite <-(length_seq (length primes) 0).
    apply submseteq_length, NoDup_submseteq; [done|]. intros pi Hpi%Hr. apply elem_of_seq. lia. }
  destruct (Nat.leb_spec n exact_vars) as [Hx|Hx].
  - destruct fuel as [|fuel]; [lia|]. destruct (exact_is_essentials primes on n opt fuel) as (sol & -> & Hnd & Hes & Hc); [done|done|done|lia|done|].
    exists sol. split; [done|]. split.
    + rewrite Hc. apply Hlt; [done|]. intros pi (m & _ & Hs)%Hes. by eapply covers_m_lt, covers_of_single_covers.
    + intros m Hm. destruct (Hess Hx m Hm) as (pi & Hpi%Hes & Hpm). apply hit_true. eauto.
  - destruct (greedy_result primes on n opt sort_cands Hsc) as (sol & -> & Hr). cbn [mbind option_bind].
    destruct Hr as [(m & Hm & E)|[[E _]|(cnt & Hc & Hnd & Hcv & Hci & Hnd2)]]; [by apply Hcov in Hm|done|].
    assert (Hsol : qs_cost sol <> SIZE_MAX).
    { rewrite Hc. apply Hlt; [done|]. intros pi Hpi. destruct (Hnd2 pi Hpi) as (mi & v & Hm & _). apply (covers_at_lt _ _ _ _ Hm). }
    case_match; [|by exists sol]. destruct (petrick_minimum primes on n opt Hw ltac:(lia)) as (pet & -> & Hmin & _). cbn [mbind option_bind].
    destruct (better_petrick pet sol) eqn:Eb; [|by exists sol]. exists pet. split; [done|]. unfold better_petrick in Eb. apply andb_true_iff in Eb as [Eb _].
    apply negb_true_iff, Z.eqb_neq in Eb. split; [done|]. by apply Hmin.
Qed.

Lemma full_cover : NoDup on -> Z.of_nat (length on) = 2 ^ Z.of_nat n -> realizes on dc n (cover_hits [mk_imp 0 (var_mask n) false]).
Proof.
  intros Hnd Hlen m Hm _.
  assert (Hin : m ∈ on).
  { destruct (decide (m ∈ on)) as [|Hno]; [done|]. exfalso. assert (Hc : NoDup (m :: on)) by (by constructor).
    pose proof (NoDup_within_length (m :: on) n Hc) as Hb. cbn [length] in Hb. rewrite Nat2Z.inj_succ in Hb. specialize (Hb ltac:(by constructor)). lia. }
  rewrite bool_decide_true by done. unfold cover_hits. cbn [existsb]. rewrite orb_false_r.
  assert (Hmask : var_mask n = 2 ^ Z.of_nat n - 1).
  { unfold var_mask. destruct (Nat.leb_spec 16 n); [replace n with 16%nat by lia; done|]. unfold ones. by rewrite shiftl_1. }
  assert (Hp : 0 < 2 ^ Z.of_nat n) by (apply Z.pow_pos_nonneg; lia).
  apply (covers_cov n (proj2 Hn)); [|done|].
  - constructor; cbn [qm_value qm_mask]; [apply within_0|rewrite Hmask; split; lia|]. intros i _. apply bit_0.
  - intros i Hi Hb. cbn [qm_mask] in Hb. rewrite Hmask, bit_ones, bool_decide_true in Hb by done. done.
Qed.

Lemma best_single_cover_ok fuel : NoDup on -> (1 <= fuel)%nat ->
  (forall primes, qm_prime_implicants on dc n = Some primes -> (n <= exact_vars)%nat -> essentials_cover primes) ->
  exists cover, best_single_cover on dc n opt sort_cands sort_ranked fuel = Some cover /\ realizes on dc n (cover_hits cover).
Proof.
  intros Hnd Hf Hess. destruct (decide (on = [])) as [E|E].
  { exists []. unfold best_single_cover. rewrite E. split; [done|]. intros m _ _. by rewrite bool_decide_false by apply not_elem_of_nil. }
  assert (Hun : forall (A : Type) (x y : A), match on with [] => x | _ => y end = y) by (by destruct on). unfold best_single_cover. rewrite Hun, shiftl_1.
  destruct (Z.eqb_spec (Z.of_nat (length on)) (2 ^ Z.of_nat n)) as [El|_]; [eexists; split; [done|]; by apply full_cover|].
  destruct primes_facts as (primes & Ep & Hok & Hlen & Hcov & Hno). rewrite Ep. cbn [mbind option_bind].
  assert (Hpn : forall (A : Type) (x y : A), match primes with [] => x | _ => y end = y).
  { intros A x y. destruct primes; [|done]. exfalso. destruct on as [|m l]; [done|]. apply (Hcov m); [by left|done]. }
  rewrite Hpn. destruct (solution_cover primes fuel E Hf Hcov Hlen (Hess primes Ep)) as (sol & -> & Hc & Hcv). cbn [mbind option_bind].
  rewrite (proj2 (Z.eqb_neq _ _) Hc). pose proof (picked_valid primes (qs_pick sol) Hok Hno Hcv) as Hr.
  destruct (Nat.ltb_spec exact_vars n) as [Hx|Hx]; [|by eexists].
  assert (H0 : forall l, Forall (within n) l -> Forall (fun m => 0 <= m) l) by (intros l H; eapply Forall_impl; [exact H|]; by intros m [? _]).
  destruct (espresso_base_ok on dc n opt Hn (H0 on Hon) (H0 dc Hdc) sort_ranked Hsr Hon) as (esp & -> & _ & (Heok & Hev & _) & _). cbn [mbind option_bind].
  destruct (negb _ && _); [|by eexists]. eexists. split; [done|]. by apply (valid_hits on dc n (es_cover esp)); [lia|..].
Qed.

(** ** The complement *)

Lemma elem_off m : m ∈ off_minterms on dc n <-> within n m /\ (m ∉ on) /\ m ∉ dc.
Proof.
  assert (Hex : forall l, existsb (Z.eqb m) l = true <-> m ∈ l) by (intros l; rewrite existsb_exists; setoid_rewrite <-list_elem_of_In; setoid_rewrite Z.eqb_eq; naive_solver).
  unfold off_minterms. rewrite list_elem_of_In, filter_In, negb_true_iff, <-not_true_iff_false, orb_true_iff, !Hex, <-list_elem_of_In.
  assert (Hm : m ∈ map Z.of_nat (seq 0 (Z.to_nat (universe n))) <-> within n m); [|rewrite Hm; tauto].
  unfold within. rewrite <-universe_pow by done. pose proof (universe_pos n Hn). split.
  - intros (i & -> & Hi%elem_of_seq)%list_elem_of_fmap. lia.
  - intros [? ?]. apply list_elem_of_fmap. exists (Z.to_nat m). rewrite Z2Nat.id by done. split; [done|]. apply elem_of_seq. lia.
Qed.
Lemma off_within : Forall (within n) (off_minterms on dc n).
Proof. apply Forall_forall. by intros m [? _]%elem_off. Qed.

Lemma espresso_complement_ok : exists sol, espresso_two_level_minimize on dc n opt sort_ranked = Some sol /\
  realizes on dc n (fun m => xorb (es_complemented sol) (cover_hits (es_cover sol) m)).
Proof.
  assert (H0 : forall l, Forall (within n) l -> Forall (fun m => 0 <= m) l) by (intros l H; eapply Forall_impl; [exact H|]; by intros m [? _]).
  unfold espresso_two_level_minimize. destruct (espresso_base_ok on dc n opt Hn (H0 on Hon) (H0 dc Hdc) sort_ranked Hsr Hon) as (best & -> & Hcb & (Hok & Hv & _) & _). cbn [mbind option_bind].
  assert (Hbest : realizes on dc n (fun m => xorb (es_complemented best) (cover_hits (es_cover best) m))).
  { intros m Hm Hmdc. rewrite Hcb. cbn [xorb]. by apply (valid_hits on dc n (es_cover best)); [lia|..]. }
  case_match; [by eexists|]. case_match; [by eexists|]. destruct (off_minterms on dc n) as [|o os] eqn:Eo; [by eexists|]. rewrite <-Eo.
  destruct (espresso_base_ok (off_minterms on dc n) dc n opt Hn (H0 _ off_within) (H0 dc Hdc) sort_ranked Hsr off_within) as (comp & -> & _ & (Hok' & Hv' & _) & _). cbn [mbind option_bind].
  case_match; [by eexists|]. case_match; [|by eexists]. eexists. split; [done|]. intros m Hm Hmdc. change (negb (cover_hits (es_cover comp) m) = bool_decide (m ∈ on)).
  rewrite (proj2 (valid_hits (off_minterms on dc n) dc n (es_cover comp) ltac:(lia) off_within Hok' Hv') m Hm Hmdc).
  rewrite <-bool_decide_not. apply bool_decide_ext. rewrite elem_off. destruct (decide (m ∈ on)); tauto.
Qed.
End Correct.

(** C25: for a function of seven to sixteen variables the cover that is built,
    by primes (greedy or Petrick) or by the heuristic minimizer,
    realizes the function: outside the don't cares it is true exactly on the
    ON minterms.  For fewer variables the same holds when the essential
    primes already cover the function. *)
Theorem best_single_cover_realizes on dc n opt sort_cands sort_ranked fuel : (1 <= n <= 16)%nat -> weights_ok opt -> Forall (within n) on -> Forall (within n) dc ->
  (forall l, sort_cands l ≡ₚ l) -> (forall l, sort_ranked l ≡ₚ l) -> NoDup on -> (1 <= fuel)%nat ->
  (forall primes, qm_prime_implicants on dc n = Some primes -> (n <= exact_vars)%nat -> essentials_cover on primes) ->
  exists cover, best_single_cover on dc n opt sort_cands sort_ranked fuel = Some cover /\ realizes on dc n (cover_hits cover).
Proof. intros. by apply best_single_cover_ok. Qed.

(** The minimizer with the complement: the cover, inverted when the
    solution says so, is true on the ON minterms and false on the OFF
    minterms. *)
Theorem espresso_complement_realizes on dc n opt sort_ranked : (1 <= n <= 16)%nat -> Forall (within n) on -> Forall (within n) dc -> (forall l, sort_ranked l ≡ₚ l) ->
  exists sol, espresso_two_level_minimize on dc n opt sort_ranked = Some sol /\
    realizes on dc n (fun m => xorb (es_complemented sol) (cover_hits (es_cover sol) m)).
Proof. intros. by apply espresso_complement_ok. Qed.

Lemma best_single_cover_realizes_witness : exists cover, best_single_cover [3; 5; 64] [7] 7 unit_weights (fun l => l) (fun l => l) 1 = Some cover /\ realizes [3; 5; 64] [7] 7 (cover_hits cover).
Proof.
  apply (best_single_cover_realizes [3; 5; 64] [7] 7 unit_weights (fun l => l) (fun l => l) 1).
  - lia.
  - repeat split; vm_compute; congruence.
  - repeat constructor; vm_compute; congruence.
  - repeat constructor; vm_compute; congruence.
  - reflexivity.
  - reflexivity.
  - apply (bool_decide_unpack _). vm_compute. exact I.
  - lia.
  - unfold exact_vars. lia.
Defined.
Lemma espresso_complement_realizes_witness : exists sol, espresso_two_level_minimize cycle_on [3] 3 unit_weights (fun l => l) = Some sol /\
  realizes cycle_on [3] 3 (fun m => xorb (es_complemented sol) (cover_hits (es_cover sol) m)).
Proof.
  apply (espresso_complement_realizes cycle_on [3] 3 unit_weights (fun l => l)).
  - lia.
  - repeat constructor; vm_compute; congruence.
  - repeat constructor; vm_compute; congruence.
  - reflexivity.
Defined.

(** The cycle of three variables has no essential prime: the empty cover is
    built for it, a constant zero. *)
Example best_single_cover_of_cycle : best_single_cover cycle_on [] 3 unit_weights (fun l => l) (fun l => l) 1 = Some [].
Proof. vm_compute. reflexivity. Qed.
