(* ===== verification/SynthNet.v ===== *)
(** * SynthNet: the netlist builder of synthesis

    [synth_context] of [verilog/digital/pe_synth.h]: the netlist under
    construction, the first error, the count of drivers of each node, the
    constant nodes and the delay cache, with the functions that create the
    gates.  A computation is a state transformer over the context; a node
    pointer that may be null is an [option], and [None] as the result of a
    computation is undefined behaviour. *)

From Stdlib Require Import ZArith Lia.
From stdpp Require Import base list gmap strings.
From S2P Require Import Prelude Store Logic4 Gates Devices Model Netlist.
From S2P Require Import VData VExpr VCache VStmt.

Open Scope Z_scope.

Abbreviation nodep := (option node_ptr).

(** The members of [pe_synth_options] that the lowering reads. *)
Record pe_synth_options : Type := mk_synth_options {
  allow_inout : bool;
  allow_multi_driver : bool;
  support_always_comb : bool;
  support_always_ff : bool;
  assume_binary_inputs : bool;
  loop_unroll_limit : nat
}.
Definition pe_synth_options_default : pe_synth_options :=
  {| allow_inout := false; allow_multi_driver := false; support_always_comb := true; support_always_ff := true;
     assume_binary_inputs := false; loop_unroll_limit := 64 |}.

(** [cx_error] is the message of the first error; [failed] is that there is
    one.  The keys of [const_nodes] are the states themselves; it is a list
    because [try_get_const] searches it by node. *)
Record synth_context : Type := mk_synth_context {
  cx_nl : netlist device;
  cx_opt : pe_synth_options;
  cx_error : option string;
  driver_count : gmap node_ptr Z;
  const_nodes : list (logic_t * node_ptr);
  delay_cache : gmap Z node_ptr
}.

Abbreviation Sy := (St synth_context).

Definition with_nl (c : synth_context) (nl : netlist device) : synth_context :=
  mk_synth_context nl (cx_opt c) (cx_error c) (driver_count c) (const_nodes c) (delay_cache c).
Definition with_drivers (c : synth_context) (dc : gmap node_ptr Z) : synth_context :=
  mk_synth_context (cx_nl c) (cx_opt c) (cx_error c) dc (const_nodes c) (delay_cache c).
Definition with_consts (c : synth_context) (l : list (logic_t * node_ptr)) : synth_context :=
  mk_synth_context (cx_nl c) (cx_opt c) (cx_error c) (driver_count c) l (delay_cache c).
Definition with_delays (c : synth_context) (m : gmap Z node_ptr) : synth_context :=
  mk_synth_context (cx_nl c) (cx_opt c) (cx_error c) (driver_count c) (const_nodes c) m.

(** ** Errors *)

Definition cx_ok (c : synth_context) : bool := bool_decide (cx_error c = None).
Definition ok : Sy bool := fun c => Some (cx_ok c, c).
Definition set_error (msg : string) : Sy unit := fun c =>
  Some (tt, if cx_ok c
            then mk_synth_context (cx_nl c) (cx_opt c) (Some msg) (driver_count c) (const_nodes c) (delay_cache c)
            else c).
Definition option_of {A} (f : pe_synth_options -> A) : Sy A := fun c => Some (f (cx_opt c), c).

Section Context.
(** The chunk sizes of the netlist, and the address of a node. *)
Context (chunk_models chunk_nodes : nat) (addr : node_ptr -> Z).

(** ** Nodes and connections *)

Definition make_node : Sy nodep := fun c =>
  let '(nl, n) := create_node chunk_nodes (cx_nl c) in Some (Some n, with_nl c nl).
Definition new_model (d : device) : Sy impl_ptr := fun c =>
  let '(nl, ip, _) := add_model chunk_models (cx_nl c) d in Some (ip, with_nl c nl).

(** The pointers to models come from [add_model], which does not fail. *)
Definition connect_pin (m : impl_ptr) (pin : Z) (node : nodep) : Sy bool :=
  good ← ok;
  if negb good then mret false
  else match node with
       | None => _ ← set_error "pe_synth: null model/node in connect"; mret false
       | Some n =>
           c ← get;
           match add_to_node (cx_nl c) (new_model_base m) pin n with
           | None => undefined
           | Some (true, nl) => _ ← put (with_nl c nl); mret true
           | Some (false, nl) => _ ← put (with_nl c nl); _ ← set_error "pe_synth: add_to_node failed"; mret false
           end
       end.

(** [auto& c = driver_count[node]; ++c;] *)
Definition count_driver (n : node_ptr) : Sy Z := fun c =>
  let k := u64_wrap (default 0 (driver_count c !! n) + 1) in
  Some (k, with_drivers c (<[n := k]> (driver_count c))).

Definition connect_driver (m : impl_ptr) (pin : Z) (node : nodep) : Sy bool :=
  done ← connect_pin m pin node;
  if negb done then mret false
  else match node with
       | None => mret false
       | Some n =>
           k ← count_driver n;
           multi ← option_of allow_multi_driver;
           if (1 <? k) && negb multi then
             _ ← set_error "pe_synth: multiple drivers on one net (not supported)"; mret false
           else mret true
       end.

(** The connections of a model: its inputs from pin [i] on, then its output. *)
Fixpoint connect_all (m : impl_ptr) (i : Z) (ins : list nodep) (out : nodep) : Sy bool :=
  match ins with
  | [] => connect_driver m i out
  | n :: ins' => done ← connect_pin m i n; if (done : bool) then connect_all m (i + 1) ins' out else mret false
  end.

(** The block at the end of every gate function: a model, a node for its
    output, and the connections. *)
Definition emit_gate (d : device) (ins : list nodep) : Sy nodep :=
  m ← new_model d;
  out ← make_node;
  done ← connect_all m 0 ins out;
  mret (if (done : bool) then out else None).

(** A model that drives a node that exists. *)
Definition emit_driver (d : device) (ins : list nodep) (out : nodep) : Sy bool :=
  m ← new_model d; connect_all m 0 ins out.

(** ** Constants *)

Definition find_const (l : list (logic_t * node_ptr)) (n : nodep) : option logic_t :=
  match n with
  | None => None
  | Some p => fst <$> List.find (fun kv => bool_decide (kv.2 = p)) l
  end.
Definition try_get_const (n : nodep) : Sy (option logic_t) := fun c => Some (find_const (const_nodes c) n, c).

Definition input_with (v : logic_t) : device :=
  m_INPUT {| INPUT.i_pins := INPUT.i_pins INPUT.default; INPUT.i_Ll := INPUT.i_Ll INPUT.default;
             INPUT.i_Hl := INPUT.i_Hl INPUT.default; INPUT.outputA := v;
             INPUT.last_outputA := INPUT.last_outputA INPUT.default |}.

Definition add_const (v : logic_t) (n : node_ptr) : Sy unit := fun c =>
  Some (tt, with_consts c (const_nodes c ++ [(v, n)])).

Definition const_node (v : logic_t) : Sy nodep :=
  good ← ok;
  if negb good then mret None
  else
    c ← get;
    match List.find (fun kv => bool_decide (kv.1 = v)) (const_nodes c) with
    | Some kv => mret (Some kv.2)
    | None =>
        node ← make_node;
        m ← new_model (input_with v);
        done ← connect_driver m 0 node;
        if (done : bool) then
          match node with Some n => _ ← add_const v n; mret node | None => mret node end
        else mret None
    end.

(** ** Gates *)

Definition gate_not (i : nodep) : Sy nodep :=
  iv ← try_get_const i;
  match iv with
  | Some v => const_node (logic_not v)
  | None => emit_gate (m_NOT NOT.default) [i]
  end.

(** What a gate does with one constant operand: a node, or a computation that
    gives it, or nothing to fold. *)
Definition fold_and (v : logic_t) (other : nodep) : option (Sy nodep) :=
  match normalize_z_to_x v with
  | sL => Some (const_node sL)
  | sH => Some (mret other)
  | _ => None
  end.
Definition fold_or (v : logic_t) (other : nodep) : option (Sy nodep) :=
  match normalize_z_to_x v with
  | sH => Some (const_node sH)
  | sL => Some (mret other)
  | _ => None
  end.
Definition fold_xor (v : logic_t) (other : nodep) : option (Sy nodep) :=
  match normalize_z_to_x v with
  | sL => Some (mret other)
  | sH => Some (gate_not other)
  | _ => None
  end.
Definition fold_xnor (v : logic_t) (other : nodep) : option (Sy nodep) :=
  match normalize_z_to_x v with
  | sL => Some (gate_not other)
  | sH => Some (mret other)
  | _ => None
  end.

(** The four functions have one shape: both operands constant, the first
    constant, the second constant, a gate. *)
Definition gate_folded (both : logic_t -> logic_t -> logic_t) (one : logic_t -> nodep -> option (Sy nodep))
    (d : device) (a b : nodep) : Sy nodep :=
  av ← try_get_const a;
  bv ← try_get_const b;
  match av, bv with
  | Some x, Some y => const_node (both x y)
  | Some x, None => match one x b with Some c => c | None => emit_gate d [a; b] end
  | None, Some y => match one y a with Some c => c | None => emit_gate d [a; b] end
  | None, None => emit_gate d [a; b]
  end.

Definition gate_and : nodep -> nodep -> Sy nodep := gate_folded logic_and fold_and (m_AND AND.default).
Definition gate_or : nodep -> nodep -> Sy nodep := gate_folded logic_or fold_or (m_OR OR.default).
Definition gate_xor : nodep -> nodep -> Sy nodep := gate_folded logic_xor fold_xor (m_XOR XOR.default).
Definition gate_xnor : nodep -> nodep -> Sy nodep :=
  gate_folded (fun a b => logic_not (logic_xor a b)) fold_xnor (m_XNOR XNOR.default).

Definition gate_is_unknown (i : nodep) : Sy nodep :=
  bin ← option_of assume_binary_inputs;
  if (bin : bool) then const_node sL
  else
    iv ← try_get_const i;
    match iv with
    | Some v => const_node (if is_unknown v then sH else sL)
    | None => emit_gate (m_IS_UNKNOWN IS_UNKNOWN.default) [i]
    end.

Definition gate_case_eq (a b : nodep) : Sy nodep :=
  if bool_decide (a = b) then const_node sH
  else
    av ← try_get_const a;
    bv ← try_get_const b;
    match av, bv with
    | Some x, Some y => const_node (if dns_eqb x y then sH else sL)
    | _, _ => emit_gate (m_CASE_EQ CASE_EQ.default) [a; b]
    end.

(** [(ticks << 32) ^ (ptr >> 4)] in 64 bits. *)
Definition delay_key (ticks : Z) (n : node_ptr) : Z :=
  Z.lxor (u64_wrap (Z.shiftl ticks 32)) (Z.shiftr (addr n) 4).
Definition add_delay (key : Z) (n : node_ptr) : Sy unit := fun c =>
  Some (tt, with_delays c (<[key := n]> (delay_cache c))).

Definition tick_delay (i : nodep) (ticks : Z) : Sy nodep :=
  good ← ok;
  if negb good then mret None
  else match i with
       | None => mret None
       | Some n =>
           if ticks =? 0 then mret i
           else
             c ← get;
             match delay_cache c !! delay_key ticks n with
             | Some o => mret (Some o)
             | None =>
                 out ← emit_gate (m_TICK_DELAY (TICK_DELAY.with_ticks (Z.to_nat ticks))) [i];
                 match out with Some o => _ ← add_delay (delay_key ticks n) o; mret out | None => mret None end
             end
       end.

Definition mux2 (sel d0 d1 : nodep) : Sy nodep :=
  if bool_decide (d0 = d1) then mret d0
  else match sel, d0, d1 with
       | Some _, Some _, Some _ =>
           n_not ← gate_not sel;
           n_a ← gate_and d1 sel;
           n_b ← gate_and d0 n_not;
           gate_or n_a n_b
       | _, _, _ => _ ← set_error "pe_synth: mux2 null input"; mret None
       end.
End Context.

Definition synth_context_new (nl : netlist device) (opt : pe_synth_options) : synth_context :=
  mk_synth_context nl opt None ∅ [] ∅.
