(* ===== verification/SynthNetLemmas.v ===== *)
(** * SynthNetLemmas: what the gates of [SynthNet] compute

    A valuation of the nodes is [stable] for a context when every model of its
    netlist, given the states of the nodes it reads, drives the states of the
    nodes it drives; the reactions of [Reactions] say what a model drives.
    [computes] is the contract of a gate function: it returns a node of the
    extended netlist, keeps the invariant [cx_inv], and in every stable
    valuation the node has the state the gate should give. *)

From Stdlib Require Import ZArith Lia.
From stdpp Require Import base list gmap strings.
From S2P Require Import Prelude Store Logic4 Gates Devices Sequential Model.
From S2P Require Import Reactive Reaction Reactions Engine Settle.
From S2P Require Import Netlist NetlistInv NetlistOps.
From S2P Require Import VData VExpr VCache VStmt VStmtInv SynthNet.

Open Scope Z_scope.

(** ** Stable valuations *)

Definition valuation : Type := node_ptr -> logic_t.

(** A model after some reactions: its registers have changed, its kind and its
    wiring have not. *)
Definition reacts (d d' : device) : Prop := exists meth xs, (r_react device_reaction meth d xs).1 = d'.

(** A model is satisfied when, in some state its registers can reach, it
    drives what its outputs carry. *)
Definition sat (σ : valuation) (d : device) : Prop := exists d', rtc reacts d d' /\
  (r_react device_reaction update_table d' (map σ (r_ins device_reaction d'))).2 = map σ (r_outs device_reaction d').
Definition stable (c : synth_context) (σ : valuation) : Prop :=
  forall ip d, s_impls (cx_nl c) !! ip = Some d -> sat σ d.

(** What reactions keep. *)
Lemma reacts_keep {A} (f : A -> device) (P : A -> Prop) :
  (forall x meth xs, P x -> exists y, (r_react device_reaction meth (f x) xs).1 = f y /\ P y) ->
  forall x d', P x -> rtc reacts (f x) d' -> exists y, d' = f y /\ P y.
Proof.
  intros Hstep x d' HP Hr. remember (f x) as d eqn:Ed. revert x HP Ed. induction Hr as [d|d d1 d2 (meth & xs & <-) Hr IH]; intros x HP ->; [eauto|].
  destruct (Hstep x meth xs HP) as (y & Ey & HPy). by apply (IH y).
Qed.

Section Satisfied.
Context (σ : valuation).

Lemma sat_gate2 (f : gate2 -> device) op x na nb no ma mb mo a b o :
  (forall y, device_view (f y) = as_view f y (gate2_reaction op)) ->
  g2_pins x = [mk_pin na (Some a) ma; mk_pin nb (Some b) mb; mk_pin no (Some o) mo] -> sat σ (f x) -> σ o = op (σ a) (σ b).
Proof.
  intros Hv Hp (d' & Hr & Hs). apply (reacts_keep f (fun y => g2_pins y = g2_pins x)) in Hr as (y & -> & Hy); [| |done].
  - simpl in Hs. rewrite Hv in Hs. cbn in Hs. rewrite Hy, Hp in Hs. cbn in Hs. by injection Hs.
  - intros y meth xs Hy. simpl. rewrite Hv. cbn. destruct (wires _); [|eauto]. destruct xs as [|? [|? [|? ?]]]; eauto.
Qed.

Lemma sat_gate1 (f : gate1 -> device) op x na no ma mo a o :
  (forall y, device_view (f y) = as_view f y (gate1_reaction op)) ->
  g1_pins x = [mk_pin na (Some a) ma; mk_pin no (Some o) mo] -> sat σ (f x) -> σ o = op (σ a).
Proof.
  intros Hv Hp (d' & Hr & Hs). apply (reacts_keep f (fun y => g1_pins y = g1_pins x)) in Hr as (y & -> & Hy); [| |done].
  - simpl in Hs. rewrite Hv in Hs. cbn in Hs. rewrite Hy, Hp in Hs. cbn in Hs. by injection Hs.
  - intros y meth xs Hy. simpl. rewrite Hv. cbn. destruct (wires _); [|eauto]. destruct xs as [|? [|? ?]]; eauto.
Qed.

Lemma sat_INPUT x no mo o : INPUT.i_pins x = [mk_pin no (Some o) mo] -> sat σ (m_INPUT x) -> σ o = INPUT.outputA x.
Proof.
  intros Hp (d' & Hr & Hs).
  apply (reacts_keep m_INPUT (fun y => INPUT.i_pins y = INPUT.i_pins x /\ INPUT.outputA y = INPUT.outputA x)) in Hr as (y & -> & Hy & Ho); [| |done].
  - cbn in Hs. rewrite Hy, Hp in Hs. cbn in Hs. injection Hs as <-. done.
  - intros y meth xs [Hy Ho]. cbn. destruct (wires _); eauto.
Qed.

Lemma sat_CASE_EQ x na nb no ma mb mo a b o :
  CASE_EQ.c_pins x = [mk_pin na (Some a) ma; mk_pin nb (Some b) mb; mk_pin no (Some o) mo] -> sat σ (m_CASE_EQ x) ->
  σ o = if dns_eqb (σ a) (σ b) then sH else sL.
Proof.
  intros Hp (d' & Hr & Hs). apply (reacts_keep m_CASE_EQ (fun y => CASE_EQ.c_pins y = CASE_EQ.c_pins x)) in Hr as (y & -> & Hy); [| |done].
  - cbn in Hs. rewrite Hy, Hp in Hs. cbn in Hs. by injection Hs.
  - intros y meth xs Hy. cbn. destruct (wires _); [|eauto]. destruct xs as [|? [|? [|? ?]]]; eauto.
Qed.

Lemma sat_IS_UNKNOWN x na no ma mo a o :
  IS_UNKNOWN.u_pins x = [mk_pin na (Some a) ma; mk_pin no (Some o) mo] -> sat σ (m_IS_UNKNOWN x) ->
  σ o = if dns_eqb (σ a) sX || dns_eqb (σ a) sZ then sH else sL.
Proof.
  intros Hp (d' & Hr & Hs). apply (reacts_keep m_IS_UNKNOWN (fun y => IS_UNKNOWN.u_pins y = IS_UNKNOWN.u_pins x)) in Hr as (y & -> & Hy); [| |done].
  - cbn in Hs. rewrite Hy, Hp in Hs. cbn in Hs. by injection Hs.
  - intros y meth xs Hy. cbn. destruct (wires _); [|eauto]. destruct xs as [|? [|? ?]]; eauto.
Qed.

(** An open latch hands its input through. *)
Lemma sat_DLATCH x na nb no ma mb mo a b o :
  DLATCH.l_pins x = [mk_pin na (Some a) ma; mk_pin nb (Some b) mb; mk_pin no (Some o) mo] -> sat σ (m_DLATCH x) ->
  σ b = sH -> σ a <> sZ -> σ o = σ a.
Proof.
  intros Hp (d' & Hr & Hs) Hb Ha. apply (reacts_keep m_DLATCH (fun y => DLATCH.l_pins y = DLATCH.l_pins x)) in Hr as (y & -> & Hy); [| |done].
  - cbn in Hs. rewrite Hy, Hp in Hs. cbn in Hs. rewrite Hb in Hs. injection Hs as <-. by destruct (σ a).
  - intros y meth xs Hy. cbn. destruct (wires _); [|eauto]. destruct xs as [|? [|? [|? ?]]]; eauto.
Qed.
End Satisfied.

Definition has (c : synth_context) (n : node_ptr) : Prop := is_Some (s_nodes (cx_nl c) !! n).

(** The pins [i], [i + 1], ... of a model on the nodes of a list. *)
Fixpoint wire_up (d : device) (i : nat) (ns : list node_ptr) : device :=
  match ns with
  | [] => d
  | n :: ns' => wire_up (set_pin_nodes d i (Some n)) (S i) ns'
  end.

(** ** The invariant and the growth of a context *)

Section Gates.
Context (chunk_models chunk_nodes : nat) (addr : node_ptr -> Z).
Context (Hchunk : (0 < chunk_models <= 4096)%nat).

Record cx_inv (c : synth_context) : Prop := mk_cx_inv {
  ci_ok : cx_error c = None;
  ci_nl : nl_inv chunk_models (cx_nl c);
  ci_drivers : forall n k, driver_count c !! n = Some k -> has c n;
  ci_consts : forall v n, (v, n) ∈ const_nodes c ->
    has c n /\ exists ip, s_impls (cx_nl c) !! ip = Some (wire_up (input_with v) 0 [n])
}.

(** A context grows by models and nodes; when only fresh nodes are driven, it
    [extends]. *)
Record grows (c c' : synth_context) : Prop := mk_grows {
  gr_impls : s_impls (cx_nl c) ⊆ s_impls (cx_nl c');
  gr_has : forall n, has c n -> has c' n;
  gr_opt : cx_opt c' = cx_opt c
}.
Record extends (c c' : synth_context) : Prop := mk_extends {
  ex_impls : s_impls (cx_nl c) ⊆ s_impls (cx_nl c');
  ex_has : forall n, has c n -> has c' n;
  ex_opt : cx_opt c' = cx_opt c;
  ex_drivers : forall n, has c n -> driver_count c' !! n = driver_count c !! n
}.

Lemma extends_grows c c' : extends c c' -> grows c c'.
Proof. intros []. by split. Qed.

#[export] Instance grows_preorder : PreOrder grows.
Proof. split; [by split|]. intros a b c [A1 A2 A3] [B1 B2 B3]. split; [by etrans|auto|congruence]. Qed.
#[export] Instance extends_preorder : PreOrder extends.
Proof. split; [by split|]. intros a b c [A1 A2 A3 A4] [B1 B2 B3 B4]. split; [by etrans|auto|congruence|]. intros n Hn. rewrite B4; auto. Qed.

Lemma stable_grows c c' σ : grows c c' -> stable c' σ -> stable c σ.
Proof. intros [Hi _ _] Hs ip d Hd. apply (Hs ip). by eapply lookup_weaken. Qed.
Lemma stable_extends c c' σ : extends c c' -> stable c' σ -> stable c σ.
Proof. intros He. by apply stable_grows, extends_grows. Qed.

Definition computes (c : synth_context) (P : valuation -> logic_t -> Prop) (r : nodep) (c' : synth_context) : Prop :=
  exists o, r = Some o /\ cx_inv c' /\ extends c c' /\ has c' o /\ forall σ, stable c' σ -> P σ (σ o).

Lemma computes_mono c (P Q : valuation -> logic_t -> Prop) r c' : computes c P r c' ->
  (forall σ v, stable c' σ -> P σ v -> Q σ v) -> computes c Q r c'.
Proof. intros (o & -> & Hi & He & Ho & HP) HPQ. exists o. split_and!; auto. Qed.

Lemma computes_from c0 c P r c' : extends c0 c -> computes c P r c' -> computes c0 P r c'.
Proof. intros H0 (o & -> & Hi & He & Ho & HP). exists o. split_and!; auto. by etrans. Qed.

(** ** Connecting a model *)

Definition free_from (d : device) (i : nat) : Prop :=
  forall j pn, (i <= j)%nat -> device_pins d !! j = Some pn -> nodes pn = None.

Lemma device_pins_set (d : device) i x : length (device_pins (set_pin_nodes d i x)) = length (device_pins d).
Proof.
  unfold set_pin_nodes. change device_pins with (@generate_pin_view device _). rewrite pin_view_set; by rewrite length_alter.
Qed.

Lemma free_from_set d i x : free_from d i -> free_from (set_pin_nodes d i x) (S i).
Proof.
  intros Hf j pn Hj Hp. change device_pins with (@generate_pin_view device _) in Hp.
  rewrite view_set_pin in Hp. destruct (decide (i = j)); [lia|]. apply (Hf j); [lia|done].
Qed.

Lemma connect_pin_run c ip d (i : nat) n : cx_error c = None -> nl_inv chunk_models (cx_nl c) ->
  s_impls (cx_nl c) !! ip = Some d -> (i < length (device_pins d))%nat -> free_from d i -> has c n ->
  exists nl, connect_pin ip (Z.of_nat i) (Some n) c = Some (true, with_nl c nl) /\ nl_inv chunk_models nl /\
    dom (s_nodes nl) = dom (s_nodes (cx_nl c)) /\
    s_impls nl = <[ip := set_pin_nodes d i (Some n)]> (s_impls (cx_nl c)).
Proof.
  intros Ho I Hd Hi Hf [nd Hn]. destruct (lookup_lt_is_Some_2 (device_pins d) i Hi) as [pn Hpn].
  assert (E : exists nl, add_to_node (cx_nl c) (new_model_base ip) (Z.of_nat i) n = Some (true, nl) /\
    dom (s_nodes nl) = dom (s_nodes (cx_nl c)) /\ s_impls nl = <[ip := set_pin_nodes d i (Some n)]> (s_impls (cx_nl c))).
  { unfold add_to_node. cbn [new_model_base ptr]. rewrite Hd. change (generate_pin_view d) with (device_pins d).
    rewrite (proj2 (Z.leb_gt _ _)) by lia. rewrite Hn, Nat2Z.id. eexists. split; [reflexivity|]. simpl.
    split; [|done]. by eapply dom_insert_same. }
  destruct E as (nl & E & Hdom & Himp). exists nl. split_and!; try done.
  - unfold connect_pin, mbind, St_bind, ok, cx_ok. rewrite Ho, bool_decide_true by done. cbn [negb]. unfold get. by rewrite E.
  - eapply (inv_add_to_node _ _ (new_model_base ip) (Z.of_nat i) n); [exact I|lia|reflexivity| |exact E]. intros x Hx.
    replace (Z.to_N (Z.of_nat i)) with (N.of_nat i) in Hx by lia.
    pose proof (pin_node_at (s_impls (cx_nl c)) ip d i pn Hd) as Hat. rewrite (Hat Hpn) in Hx.
    injection Hx as <-. by apply (Hf i).
Qed.

(** The driver is the first one, or more are allowed. *)
Definition may_drive (c : synth_context) (n : node_ptr) : Prop :=
  driver_count c !! n = None \/ allow_multi_driver (cx_opt c) = true.

Lemma has_with_nl c nl n : dom (s_nodes nl) = dom (s_nodes (cx_nl c)) -> has (with_nl c nl) n <-> has c n.
Proof. intros E. unfold has. cbn [with_nl cx_nl]. by rewrite <- !elem_of_dom, E. Qed.

Lemma connect_driver_run c ip d (i : nat) n : cx_error c = None -> nl_inv chunk_models (cx_nl c) ->
  s_impls (cx_nl c) !! ip = Some d -> (i < length (device_pins d))%nat -> free_from d i -> has c n -> may_drive c n ->
  exists nl k, connect_driver ip (Z.of_nat i) (Some n) c = Some (true, with_drivers (with_nl c nl) (<[n := k]> (driver_count c))) /\
    nl_inv chunk_models nl /\ dom (s_nodes nl) = dom (s_nodes (cx_nl c)) /\
    s_impls nl = <[ip := set_pin_nodes d i (Some n)]> (s_impls (cx_nl c)).
Proof.
  intros Ho I Hd Hi Hf Hn Hm. destruct (connect_pin_run c ip d i n) as (nl & E & I' & Hdom & Himp); [done..|].
  unfold connect_driver. unfold mbind, St_bind. rewrite E. cbn [negb]. unfold count_driver. cbn [with_nl driver_count].
  unfold option_of. cbn [with_drivers cx_opt with_nl].
  exists nl, (u64_wrap (default 0 (driver_count c !! n) + 1)).
  assert (Hg : (1 <? u64_wrap (default 0 (driver_count c !! n) + 1)) && negb (allow_multi_driver (cx_opt c)) = false).
  { destruct Hm as [-> | ->]; [reflexivity|apply andb_false_r]. }
  rewrite Hg. done.
Qed.

Lemma connect_all_run ns : forall c ip d (i : nat) n, cx_error c = None -> nl_inv chunk_models (cx_nl c) ->
  s_impls (cx_nl c) !! ip = Some d -> length (device_pins d) = S (i + length ns) -> free_from d i ->
  Forall (has c) ns -> has c n -> may_drive c n ->
  exists nl k, connect_all ip (Z.of_nat i) (map Some ns) (Some n) c =
      Some (true, with_drivers (with_nl c nl) (<[n := k]> (driver_count c))) /\
    nl_inv chunk_models nl /\ dom (s_nodes nl) = dom (s_nodes (cx_nl c)) /\
    s_impls nl = <[ip := wire_up d i (ns ++ [n])]> (s_impls (cx_nl c)).
Proof.
  induction ns as [|a ns IH]; intros c ip d i n Ho I Hd Hl Hf Hns Hn Hm; cbn [connect_all map app wire_up].
  - apply (connect_driver_run c ip d i n); try done. simpl in Hl. lia.
  - apply Forall_cons in Hns as [Ha Hns]. simpl in Hl.
    destruct (connect_pin_run c ip d i a) as (nl & E & I' & Hdom & Himp); [done..|lia|done|done|].
    unfold mbind at 1, St_bind at 1. rewrite E. cbv beta iota.
    destruct (IH (with_nl c nl) ip (set_pin_nodes d i (Some a)) (S i) n) as (nl2 & k & E2 & I2 & Hdom2 & Himp2).
    + done.
    + done.
    + simpl. by rewrite Himp, lookup_insert_eq.
    + rewrite device_pins_set. lia.
    + by apply free_from_set.
    + eapply Forall_impl; [exact Hns|]. intros x Hx. by apply has_with_nl.
    + by apply has_with_nl.
    + done.
    + exists nl2, k. rewrite Nat2Z.inj_succ in E2. unfold Z.succ in E2. rewrite E2. split; [done|]. split; [done|]. split.
      * rewrite Hdom2. exact Hdom.
      * rewrite Himp2. simpl. by rewrite Himp, insert_insert_eq.
Qed.

(** ** Emitting a model *)

Lemma new_model_run c d : nl_inv chunk_models (cx_nl c) -> free_from d 0 ->
  exists nl ip, new_model chunk_models d c = Some (ip, with_nl c nl) /\ nl_inv chunk_models nl /\
    s_nodes nl = s_nodes (cx_nl c) /\ s_impls (cx_nl c) !! ip = None /\ s_impls nl = <[ip := d]> (s_impls (cx_nl c)).
Proof using Hchunk.
  intros I Hf. exists (add_model chunk_models (cx_nl c) d).1.1, (fresh_impl (cx_nl c)). split_and!; try done.
  - apply inv_add_model; [done|done|]. intros i pn Hp. apply (Hf i); [lia|done].
  - apply (ni_fresh_impl _ _ I). apply N.le_refl.
Qed.

Lemma make_node_run c : nl_inv chunk_models (cx_nl c) ->
  exists nl o, make_node chunk_nodes c = Some (Some o, with_nl c nl) /\ nl_inv chunk_models nl /\
    s_nodes (cx_nl c) !! o = None /\ s_nodes nl = <[o := node_t_default]> (s_nodes (cx_nl c)) /\
    s_impls nl = s_impls (cx_nl c).
Proof.
  intros I. exists (create_node chunk_nodes (cx_nl c)).1, (fresh_node (cx_nl c)). split_and!; try done.
  - by apply inv_create_node.
  - apply (ni_fresh_node _ _ I). apply N.le_refl.
Qed.

(** A context that has grown: everything but the constants may be new. *)
Lemma cx_inv_grow c c' : cx_inv c -> cx_error c' = None -> nl_inv chunk_models (cx_nl c') ->
  grows c c' -> const_nodes c' = const_nodes c ->
  (forall n k, driver_count c' !! n = Some k -> has c' n) -> cx_inv c'.
Proof.
  intros [Ho I Hd Hk] Ho' I' He Ec Hd'. split; [done..|]. rewrite Ec. intros v n Hv.
  destruct (Hk v n Hv) as (Hn & ip & Hip). split; [by apply (gr_has _ _ He)|]. exists ip.
  eapply lookup_weaken; [exact Hip|apply He].
Qed.

Definition emitted (c : synth_context) (d : device) (ns : list node_ptr) (c' : synth_context) : Prop :=
  cx_inv c' /\ grows c c' /\ const_nodes c' = const_nodes c /\
  exists ip, s_impls (cx_nl c') !! ip = Some (wire_up d 0 ns).

Lemma emit_driver_spec c d ns n : cx_inv c -> free_from d 0 -> length (device_pins d) = S (length ns) ->
  Forall (has c) ns -> has c n -> may_drive c n ->
  wp (emit_driver chunk_models d (map Some ns) (Some n)) c (fun r c' => r = true /\ emitted c d (ns ++ [n]) c' /\
    forall x, x <> n -> driver_count c' !! x = driver_count c !! x).
Proof using Hchunk.
  intros Hc Hf Hl Hns Hn Hm. unfold wp, emit_driver, mbind, St_bind.
  destruct (new_model_run c d) as (nl & ip & -> & I1 & En1 & Hip & Ei1); [apply Hc|done|].
  assert (Hh : forall x, has (with_nl c nl) x <-> has c x) by (intros x; apply has_with_nl; by rewrite En1).
  destruct (connect_all_run ns (with_nl c nl) ip d 0 n) as (nl2 & k & E2 & I2 & Hdom & Himp).
  - apply Hc.
  - done.
  - simpl. by rewrite Ei1, lookup_insert_eq.
  - lia.
  - done.
  - eapply Forall_impl; [exact Hns|]. intros x. apply Hh.
  - by apply Hh.
  - done.
  - change (Z.of_nat 0) with 0 in E2. rewrite E2. split; [done|]. cbn [with_nl cx_nl] in Hdom, Himp. rewrite Ei1, insert_insert_eq in Himp.
    split; [|intros x Hx; simpl; by rewrite lookup_insert_ne].
    assert (He : grows c (with_drivers (with_nl (with_nl c nl) nl2) (<[n := k]> (driver_count c)))).
    { split; simpl; [|intros x; unfold has; simpl; by rewrite <- !elem_of_dom, Hdom, En1|done].
      rewrite Himp. by apply insert_subseteq. }
    split_and!; [|exact He|done|].
    + apply (cx_inv_grow c); [done|apply Hc|done|exact He|done|]. intros x y. simpl. intros Hx. apply He.
      apply lookup_insert_Some in Hx as [[<- _]|[_ Hx]]; [done|]. by eapply ci_drivers.
    + exists ip. simpl. by rewrite Himp, lookup_insert_eq.
Qed.

Lemma emit_gate_spec c d ns : cx_inv c -> free_from d 0 -> length (device_pins d) = S (length ns) -> Forall (has c) ns ->
  wp (emit_gate chunk_models chunk_nodes d (map Some ns)) c (fun r c' =>
    exists o, r = Some o /\ extends c c' /\ has c' o /\ emitted c d (ns ++ [o]) c').
Proof using Hchunk.
  intros Hc Hf Hl Hns. unfold wp, emit_gate, mbind, St_bind.
  destruct (new_model_run c d) as (nl & ip & -> & I1 & En1 & Hip & Ei1); [apply Hc|done|].
  destruct (make_node_run (with_nl c nl)) as (nl1 & o & -> & I1' & Ho & En2 & Ei2); [done|].
  cbn [with_nl cx_nl] in *. rewrite En1 in Ho, En2.
  assert (Hh : forall x, has c x -> has (with_nl (with_nl c nl) nl1) x).
  { intros x Hx. unfold has. simpl. rewrite En2. destruct (decide (x = o)) as [->|]; [by rewrite lookup_insert_eq|].
    by rewrite lookup_insert_ne. }
  assert (Hfree : driver_count c !! o = None).
  { destruct (driver_count c !! o) eqn:E; [|done]. apply (ci_drivers _ Hc) in E as [??]. congruence. }
  destruct (connect_all_run ns (with_nl (with_nl c nl) nl1) ip d 0 o) as (nl2 & k & E2 & I2 & Hdom & Himp).
  - apply Hc.
  - done.
  - simpl. by rewrite Ei2, Ei1, lookup_insert_eq.
  - lia.
  - done.
  - eapply Forall_impl; [exact Hns|]. intros x. apply Hh.
  - unfold has. simpl. by rewrite En2, lookup_insert_eq.
  - by left.
  - change (Z.of_nat 0) with 0 in E2. rewrite E2. cbn [with_nl cx_nl] in Hdom, Himp. rewrite Ei2, Ei1, insert_insert_eq in Himp.
    set (c' := with_drivers _ _).
    assert (Hh' : forall x, has c' x <-> has (with_nl (with_nl c nl) nl1) x).
    { intros x. unfold has. simpl. by rewrite <- !elem_of_dom, Hdom. }
    assert (Ho' : has c' o) by (apply Hh'; unfold has; simpl; by rewrite En2, lookup_insert_eq).
    assert (He : extends c c').
    { split; simpl; [|intros x Hx; by apply Hh', Hh|done|].
      - rewrite Himp. by apply insert_subseteq.
      - intros x [y Hx]. rewrite lookup_insert_ne; [done|]. intros ->. congruence. }
    exists o. split_and!; [done|exact He|done|].
    split_and!; [|by apply extends_grows|done|].
    + apply (cx_inv_grow c); [done|apply Hc|done|by apply extends_grows|done|]. intros x y. simpl. intros Hx.
      apply lookup_insert_Some in Hx as [[<- _]|[_ Hx]]; [done|]. apply He. by eapply ci_drivers.
    + exists ip. simpl. by rewrite Himp, lookup_insert_eq.
Qed.

(** ** Constants *)

Lemma const_state c v n σ : cx_inv c -> (v, n) ∈ const_nodes c -> stable c σ -> σ n = v.
Proof.
  intros Hc Hv Hs. destruct (ci_consts _ Hc v n Hv) as (_ & ip & Hip). specialize (Hs ip _ Hip).
  by eapply (sat_INPUT σ) in Hs; [|reflexivity].
Qed.

Lemma find_const_state c n v σ : cx_inv c -> find_const (const_nodes c) (Some n) = Some v -> stable c σ -> σ n = v.
Proof.
  intros Hc Hf. unfold find_const in Hf. destruct (List.find _ _) as [[w p]|] eqn:E; [|done]. simpl in Hf. injection Hf as ->.
  apply find_some in E as [Hin Hp]. apply bool_decide_eq_true in Hp. simpl in Hp. subst p.
  apply list_elem_of_In in Hin. by eapply const_state.
Qed.

Lemma const_node_spec c v : cx_inv c ->
  wp (const_node chunk_models chunk_nodes v) c (computes c (fun _ w => w = v)).
Proof using Hchunk.
  intros Hc. unfold const_node. apply wp_bind. unfold wp at 1, ok, cx_ok. rewrite (ci_ok _ Hc), bool_decide_true by done. cbn [negb].
  apply wp_bind. unfold wp at 1, get. destruct (List.find _ _) as [[w n]|] eqn:E.
  - apply find_some in E as [Hin Hp]. apply bool_decide_eq_true in Hp. simpl in Hp. subst w. apply list_elem_of_In in Hin.
    apply wp_ret. exists n. split_and!; [done..|by eapply ci_consts|]. intros σ Hs. by eapply const_state.
  - clear E. unfold wp, mbind, St_bind. destruct (make_node_run c) as (nl & o & -> & I1 & Ho & En & Ei); [apply Hc|].
    set (c1 := with_nl c nl).
    assert (Hh : forall x, has c x -> has c1 x).
    { intros x Hx. unfold has. simpl. rewrite En. destruct (decide (x = o)) as [->|]; [by rewrite lookup_insert_eq|].
      by rewrite lookup_insert_ne. }
    assert (He : grows c c1) by (split; [simpl; by rewrite Ei|done|done]).
    assert (Hc1 : cx_inv c1).
    { apply (cx_inv_grow c); try done; [apply Hc|]. intros x y Hx. apply Hh. by eapply (ci_drivers _ Hc). }
    assert (Ho1 : has c1 o) by (unfold has; simpl; by rewrite En, lookup_insert_eq).
    assert (Hm : may_drive c1 o).
    { left. simpl. destruct (driver_count c !! o) eqn:E; [|done]. apply (ci_drivers _ Hc) in E as [??]. congruence. }
    pose proof (emit_driver_spec c1 (input_with v) [] o Hc1) as Hw. unfold wp, emit_driver, mbind, St_bind in Hw.
    cbn [map connect_all] in Hw. change (@map node_ptr nodep Some []) with (@nil nodep) in Hw.
    destruct (new_model chunk_models (input_with v) c1) as [[m c2]|].
    2: { apply Hw; try done. by intros [|i] pn _ [= <-]. }
    destruct (connect_driver m 0 (Some o) c2) as [[b c3]|].
    2: { apply Hw; try done. by intros [|i] pn _ [= <-]. }
    destruct Hw as (-> & (Hc3 & He3 & Ec3 & ip & Hip) & Hk3); try done; [by intros [|i] pn _ [= <-]|].
    unfold add_const. cbn. exists o.
    assert (Hi3 : cx_inv (with_consts c3 (const_nodes c3 ++ [(v, o)]))).
    { destruct Hc3 as [A1 A2 A3 A4]. split; [done|done|done|]. simpl. intros w n. rewrite elem_of_app, list_elem_of_singleton.
      intros [Hw|[= -> ->]]; [by apply A4|]. split; [by apply He3|eauto]. }
    split_and!; [done|done| |by apply (gr_has _ _ He3)|].
    + assert (Hg : grows c c3) by (by etrans). split; simpl; [apply Hg|apply (gr_has _ _ Hg)|apply Hg|].
      intros n [y Hn]. rewrite Hk3; [done|]. intros ->. congruence.
    + intros σ Hs. eapply const_state; [exact Hi3| |exact Hs]. simpl. apply elem_of_app. right. by apply list_elem_of_singleton.
Qed.

(** ** Gates *)

Abbreviation nz v := (v <> sZ).

(** A fresh gate: its law in a stable valuation is that of its output. *)
Lemma emit_computes c d ns (P : valuation -> logic_t -> Prop) :
  cx_inv c -> free_from d 0 -> length (device_pins d) = S (length ns) -> Forall (has c) ns ->
  (forall σ o, sat σ (wire_up d 0 (ns ++ [o])) -> P σ (σ o)) ->
  wp (emit_gate chunk_models chunk_nodes d (map Some ns)) c (computes c P).
Proof using Hchunk.
  intros Hc Hf Hl Hns HP. eapply wp_mono; [by apply emit_gate_spec|].
  intros r c' (o & -> & He & Ho & Hc' & _ & _ & ip & Hip). exists o. split_and!; try done. intros σ Hs. apply HP. by eapply Hs.
Qed.

Lemma wp_try_get_const c n (k : option logic_t -> Sy nodep) Q :
  wp (k (find_const (const_nodes c) n)) c Q -> wp (v ← try_get_const n; k v) c Q.
Proof. intros H. by apply wp_bind. Qed.

Lemma gate_not_spec c a : cx_inv c -> has c a ->
  wp (gate_not chunk_models chunk_nodes (Some a)) c (computes c (fun σ w => w = logic_not (σ a))).
Proof using Hchunk.
  intros Hc Ha. apply wp_try_get_const. destruct (find_const _ _) as [v|] eqn:E.
  - eapply wp_mono; [by apply const_node_spec|]. intros r c' Hr. eapply computes_mono; [exact Hr|]. intros σ w Hs ->.
    destruct Hr as (_ & _ & _ & He & _). f_equal. symmetry. eapply find_const_state; [exact Hc|done|by eapply stable_extends].
  - apply (emit_computes c _ [a]); [done|by intros [|[|i]] pn _ [= <-]|done|by repeat constructor|].
    intros σ o Hs. eapply (sat_gate1 σ m_NOT NOT.output_res) in Hs; [|reflexivity..]. rewrite Hs. by destruct (σ a).
Qed.

Section Folded.
Context (both : logic_t -> logic_t -> logic_t) (one : logic_t -> nodep -> option (Sy nodep)) (d : device).
Context (f : logic_t -> logic_t -> logic_t).
Context (Hfree : free_from d 0) (Hlen : length (device_pins d) = 3%nat).
Context (Hsat : forall σ a b o, sat σ (wire_up d 0 [a; b; o]) -> σ o = f (σ a) (σ b)).
Context (Hcomm : forall x y, f x y = f y x) (Hboth : forall x y, both x y = f x y).
Context (Hone : forall c x n k, cx_inv c -> has c n -> one x (Some n) = Some k ->
  wp k c (computes c (fun σ w => nz (σ n) -> w = f x (σ n)))).

Lemma gate_folded_spec c a b : cx_inv c -> has c a -> has c b ->
  wp (gate_folded chunk_models chunk_nodes both one d (Some a) (Some b)) c
    (computes c (fun σ w => nz (σ a) -> nz (σ b) -> w = f (σ a) (σ b))).
Proof using Hchunk Hfree Hlen Hsat Hcomm Hboth Hone.
  intros Hc Ha Hb.
  assert (Hemit : wp (emit_gate chunk_models chunk_nodes d [Some a; Some b]) c
    (computes c (fun σ w => nz (σ a) -> nz (σ b) -> w = f (σ a) (σ b)))).
  { apply (emit_computes c d [a; b]); [done..|by repeat constructor|]. intros σ o Hs _ _. by apply Hsat. }
  assert (Hval : forall n v r c' P, find_const (const_nodes c) (Some n) = Some v -> computes c P r c' ->
    forall σ, stable c' σ -> σ n = v).
  { intros n v r c' P Hv (_ & _ & _ & He & _) σ Hs. eapply find_const_state; [exact Hc|done|by eapply stable_extends]. }
  apply wp_try_get_const, wp_try_get_const.
  destruct (find_const _ (Some a)) as [x|] eqn:Ex, (find_const _ (Some b)) as [y|] eqn:Ey; [..|done].
  - eapply wp_mono; [by apply const_node_spec|]. intros r c' Hr. eapply computes_mono; [exact Hr|]. intros σ w Hs -> _ _.
    by rewrite (Hval _ _ _ _ _ Ex Hr), (Hval _ _ _ _ _ Ey Hr).
  - destruct (one x (Some b)) as [k|] eqn:Ek; [|done]. eapply wp_mono; [by eapply (Hone c x b)|]. intros r c' Hr.
    eapply computes_mono; [exact Hr|]. intros σ w Hs Hw _ Hz. rewrite (Hval _ _ _ _ _ Ex Hr) by done. auto.
  - destruct (one y (Some a)) as [k|] eqn:Ek; [|done]. eapply wp_mono; [by eapply (Hone c y a)|]. intros r c' Hr.
    eapply computes_mono; [exact Hr|]. intros σ w Hs Hw Hz _. rewrite (Hval _ _ _ _ _ Ey Hr), Hcomm by done. auto.
Qed.
End Folded.

Lemma ret_computes c n (P : valuation -> logic_t -> Prop) : cx_inv c -> has c n -> (forall σ, P σ (σ n)) ->
  wp (mret (Some n) : Sy nodep) c (computes c P).
Proof. intros Hc Hn HP. apply wp_ret. exists n. by split_and!. Qed.

Ltac folded_gate con op f :=
  let fold_case := (intros c0 x n k Hc0 Hn0 Hk; destruct x; try discriminate Hk; injection Hk as <-;
    first [ apply ret_computes; [done|done|]; intros ? ?
          | eapply wp_mono; [by first [apply const_node_spec|apply gate_not_spec]|];
            intros ? ? Hr; eapply computes_mono; [exact Hr|]; intros ? ? ? -> ? ];
    match goal with |- context [?σ n] => by destruct (σ n) end) in
  intros Hc Ha Hb; apply (gate_folded_spec _ _ _ f);
  [ by intros [|[|[|?]]] ? _ [= <-] | done
  | intros σ x y o Hs; eapply (sat_gate2 σ con op) in Hs; [|reflexivity..]; rewrite Hs; by destruct (σ x), (σ y)
  | by intros [] [] | by intros [] [] | fold_case | done..].

Lemma gate_and_spec c a b : cx_inv c -> has c a -> has c b -> wp (gate_and chunk_models chunk_nodes (Some a) (Some b)) c
  (computes c (fun σ w => nz (σ a) -> nz (σ b) -> w = logic_and (σ a) (σ b))).
Proof using Hchunk. folded_gate m_AND AND.output_res logic_and. Qed.
Lemma gate_or_spec c a b : cx_inv c -> has c a -> has c b -> wp (gate_or chunk_models chunk_nodes (Some a) (Some b)) c
  (computes c (fun σ w => nz (σ a) -> nz (σ b) -> w = logic_or (σ a) (σ b))).
Proof using Hchunk. folded_gate m_OR OR.output_res logic_or. Qed.
Lemma gate_xor_spec c a b : cx_inv c -> has c a -> has c b -> wp (gate_xor chunk_models chunk_nodes (Some a) (Some b)) c
  (computes c (fun σ w => nz (σ a) -> nz (σ b) -> w = logic_xor (σ a) (σ b))).
Proof using Hchunk. folded_gate m_XOR XOR.output_res logic_xor. Qed.
Lemma gate_xnor_spec c a b : cx_inv c -> has c a -> has c b -> wp (gate_xnor chunk_models chunk_nodes (Some a) (Some b)) c
  (computes c (fun σ w => nz (σ a) -> nz (σ b) -> w = logic_not (logic_xor (σ a) (σ b)))).
Proof using Hchunk. folded_gate m_XNOR XNOR.output_res (fun x y => logic_not (logic_xor x y)). Qed.

Lemma gate_is_unknown_spec c a : cx_inv c -> has c a -> wp (gate_is_unknown chunk_models chunk_nodes (Some a)) c
  (computes c (fun σ w => w = if assume_binary_inputs (cx_opt c) then sL else op_is_unknown (σ a))).
Proof using Hchunk.
  intros Hc Ha. unfold gate_is_unknown. apply wp_bind. unfold wp at 1, option_of.
  destruct (assume_binary_inputs (cx_opt c)); [by apply const_node_spec|]. apply wp_try_get_const.
  destruct (find_const _ _) as [v|] eqn:E.
  - eapply wp_mono; [by apply const_node_spec|]. intros r c' Hr. eapply computes_mono; [exact Hr|]. intros σ w Hs ->.
    destruct Hr as (_ & _ & _ & He & _). assert (σ a = v) as -> by (eapply find_const_state; [exact Hc|done|by eapply stable_extends]).
    by destruct v.
  - apply (emit_computes c _ [a]); [done|by intros [|[|i]] pn _ [= <-]|done|by repeat constructor|].
    intros σ o Hs. eapply sat_IS_UNKNOWN in Hs; [|reflexivity]. rewrite Hs. by destruct (σ a).
Qed.

Lemma gate_case_eq_spec c a b : cx_inv c -> has c a -> has c b -> wp (gate_case_eq chunk_models chunk_nodes (Some a) (Some b)) c
  (computes c (fun σ w => w = op_case_eq (σ a) (σ b))).
Proof using Hchunk.
  intros Hc Ha Hb. unfold gate_case_eq. case_bool_decide as Eab.
  { injection Eab as <-. eapply wp_mono; [by apply const_node_spec|]. intros r c' Hr. eapply computes_mono; [exact Hr|].
    intros σ w _ ->. unfold op_case_eq. by rewrite dns_eqb_refl. }
  assert (Hemit : wp (emit_gate chunk_models chunk_nodes (m_CASE_EQ CASE_EQ.default) [Some a; Some b]) c
    (computes c (fun σ w => w = op_case_eq (σ a) (σ b)))).
  { apply (emit_computes c _ [a; b]); [done|by intros [|[|[|i]]] pn _ [= <-]|done|by repeat constructor|].
    intros σ o Hs. eapply sat_CASE_EQ in Hs; [|reflexivity]. done. }
  apply wp_try_get_const, wp_try_get_const.
  destruct (find_const (const_nodes c) (Some a)) as [x|] eqn:Ex, (find_const (const_nodes c) (Some b)) as [y|] eqn:Ey; [|done..].
  eapply wp_mono; [by apply const_node_spec|]. intros r c' Hr. eapply computes_mono; [exact Hr|]. intros σ w Hs ->.
  destruct Hr as (_ & _ & _ & He & _). unfold op_case_eq.
  by rewrite (find_const_state c a x σ Hc Ex), (find_const_state c b y σ Hc Ey) by (by eapply stable_extends).
Qed.

(** Composing gates: the second is built in the context the first leaves. *)
Lemma computes_bind {P : valuation -> logic_t -> Prop} {Q : nodep -> synth_context -> Prop} c (k : Sy nodep) (g : nodep -> Sy nodep) :
  wp k c (computes c P) ->
  (forall o c', cx_inv c' -> extends c c' -> has c' o -> (forall σ, stable c' σ -> P σ (σ o)) -> wp (g (Some o)) c' Q) ->
  wp (k ≫= g) c Q.
Proof.
  intros Hk Hg. apply wp_bind. eapply wp_mono; [exact Hk|]. intros r c' (o & -> & Hi & He & Ho & HP). by apply Hg.
Qed.

Lemma mux2_spec c sel d0 d1 : cx_inv c -> has c sel -> has c d0 -> has c d1 ->
  wp (mux2 chunk_models chunk_nodes (Some sel) (Some d0) (Some d1)) c (computes c (fun σ w =>
    binary (σ sel) = true -> nz (σ d0) -> nz (σ d1) -> w = if dns_eqb (σ sel) sH then σ d1 else σ d0)).
Proof using Hchunk.
  intros Hc Hs H0 H1. unfold mux2. case_bool_decide as E.
  { injection E as <-. apply ret_computes; [done|done|]. intros σ _ _ _. by destruct (dns_eqb _ _). }
  eapply computes_bind; [by apply gate_not_spec|]. intros n c1 I1 E1 Hn P1.
  eapply computes_bind; [apply gate_and_spec; [done|by apply E1..]|]. intros na c2 I2 E2 Hna P2.
  eapply computes_bind; [apply gate_and_spec; [done|by apply E2, E1|by apply E2]|]. intros nb c3 I3 E3 Hnb P3.
  eapply wp_mono; [apply gate_or_spec; [done|by apply E3|done]|]. intros r c4 Hr.
  apply (computes_from c c3); [etrans; [exact E1|]; by etrans|]. eapply computes_mono; [exact Hr|].
  intros σ w S4 Hw Hb Hz0 Hz1. destruct Hr as (_ & _ & _ & E4 & _).
  assert (S3 : stable c3 σ) by (by eapply stable_extends). assert (S2 : stable c2 σ) by (by eapply stable_extends).
  assert (S1 : stable c1 σ) by (by eapply stable_extends).
  specialize (P1 σ S1). specialize (P2 σ S2). specialize (P3 σ S3). cbv beta in P1, P2, P3, Hw. rewrite P1 in P3.
  destruct (σ sel); try discriminate Hb; (rewrite P2 in Hw by done); (rewrite P3 in Hw by done);
    (rewrite Hw; [|by destruct (σ d1)|by destruct (σ d0)]); by destruct (σ d0), (σ d1).
Qed.
End Gates.

(** ** Settled circuits

    A circuit that runs the models of the netlist and has settled: the states
    of its nodes are a stable valuation. *)
Definition node_states (c : circult device) : valuation := fun n => default sX (dig (st_nodes c) n).

Lemma node_states_digs (c : circult device) ns xs : digs (st_nodes c) ns xs -> map (node_states c) ns = xs.
Proof.
  unfold digs, node_states. induction 1 as [|n x ns xs Hn H IH]; [done|]. cbn [map]. rewrite IH. by rewrite Hn.
Qed.

Lemma settled_is_stable (c : circult device) (cx : synth_context) :
  (forall ip d, s_impls (cx_nl cx) !! ip = Some d -> exists d', st_impls c !! ip = Some d' /\ rtc reacts d d') ->
  (forall ip d, st_impls c !! ip = Some d -> quiescent (st_nodes c) d) -> stable cx (node_states c).
Proof.
  intros Hrun Hq ip d Hd. destruct (Hrun ip d Hd) as (d' & Hd' & Hr). exists d'. split; [done|].
  destruct (Hq ip d' Hd') as (xs & os & Hx & Ho & E). cbn [rm device_reactive] in *.
  by rewrite (node_states_digs c _ _ Hx), (node_states_digs c _ _ Ho), E.
Qed.
