(* ===== verification/SynthLower.v ===== *)
(** * SynthLower: expressions to gates

    [instance_builder::expr] and [instance_builder::expr_in_env] of
    [verilog/digital/pe_synth.h]: an expression of a module becomes a node of
    the netlist, with a cache of the nodes of its subexpressions.  The theorem
    says that the node carries the value the simulator computes. *)

From Stdlib Require Import ZArith Lia.
From stdpp Require Import base list gmap strings.
From S2P Require Import Prelude Logic4 Store Gates Devices Model Netlist NetlistOps.
From S2P Require Import VData VExpr VCache VStmt VStmtInv SynthNet SynthNetLemmas.

Open Scope Z_scope.

Definition expr_cache : Type := gmap Z nodep.
Abbreviation Lw := (St (synth_context * expr_cache)).

Definition on_ctx {A} (k : Sy A) : Lw A := fun s =>
  match k s.1 with Some (x, c) => Some (x, (c, s.2)) | None => None end.
Definition cached (r : Z) : Lw (option nodep) := fun s => Some (s.2 !! r, s).
(** [cache.emplace(r, res)]: an entry that is there stays. *)
Definition remember (r : Z) (res : nodep) : Lw unit := fun s =>
  Some (tt, (s.1, match s.2 !! r with Some _ => s.2 | None => <[r := res]> s.2 end)).

Section Lower.
Context (chunk_models chunk_nodes : nat).
(** C++ leaves the order of the two calls in [gate(expr(n.a), expr(n.b))]
    open: [first_a r] says that the operand [a] of node [r] comes first. *)
Context (first_a : Z -> bool).
Context (nodes : list expr_node).

Abbreviation const_node := (const_node chunk_models chunk_nodes).

Definition operands (rec : Z -> Lw nodep) (r a b : Z) : Lw (nodep * nodep) :=
  if first_a r then x ← rec a; y ← rec b; mret (x, y)
  else y ← rec b; x ← rec a; mret (x, y).

Definition binary_gate (k : expr_kind) : option (nodep -> nodep -> Sy nodep) :=
  match k with
  | ek_binary_and => Some (gate_and chunk_models chunk_nodes)
  | ek_binary_or => Some (gate_or chunk_models chunk_nodes)
  | ek_binary_xor | ek_binary_neq => Some (gate_xor chunk_models chunk_nodes)
  | ek_binary_eq => Some (gate_xnor chunk_models chunk_nodes)
  | ek_binary_case_eq => Some (gate_case_eq chunk_models chunk_nodes)
  | _ => None
  end.

(** The switch on the kind of a node; [sig] gives the node of a signal. *)
Definition lower_node (sig : Z -> nodep) (rec : Z -> Lw nodep) (r : Z) (n : expr_node) : Lw nodep :=
  match en_kind n with
  | ek_literal => on_ctx (const_node (en_literal n))
  | ek_signal => mret (sig (en_signal n))
  | ek_is_unknown => a ← rec (en_a n); on_ctx (gate_is_unknown chunk_models chunk_nodes a)
  | ek_unary_not => a ← rec (en_a n); on_ctx (gate_not chunk_models chunk_nodes a)
  | k =>
      match binary_gate k with
      | Some g => ab ← operands rec r (en_a n) (en_b n); on_ctx (g ab.1 ab.2)
      | None => on_ctx (const_node sX)
      end
  end.

(** The recursion of both functions; the fuel bounds the depth. *)
Fixpoint lower (sig : Z -> nodep) (fuel : nat) (r : Z) : Lw nodep :=
  match fuel with
  | O => undefined
  | S fuel' =>
      good ← on_ctx ok;
      if negb good then mret None
      else
        hit ← cached r;
        match hit with
        | Some n => mret n
        | None =>
            res ← (if vsize nodes <=? r then on_ctx (const_node sX)
                   else match vat nodes r with
                        | Some n => lower_node sig (lower sig fuel') r n
                        | None => undefined
                        end);
            _ ← remember r res;
            mret res
        end
  end.

(** [instance_builder::signal]. *)
Definition signal (sig_nodes : list nodep) (sig : Z) : nodep :=
  if vsize sig_nodes <=? sig then None else default None (vat sig_nodes sig).

Definition expr (sig_nodes : list nodep) (root : Z) : Lw nodep :=
  lower (signal sig_nodes) (S (length nodes)) root.

(** The node of a signal in an environment: [use_env] is null or says which
    signals are substituted. *)
Definition env_signal (sig_nodes env : list nodep) (use_env : option (list bool)) (sig : Z) : nodep :=
  let subst :=
    if sig <? vsize env then
      match use_env with
      | None => true
      | Some u => if sig <? vsize u then default false (vat u sig) else false
      end
    else false in
  if subst then match default None (vat env sig) with Some n => Some n | None => signal sig_nodes sig end
  else signal sig_nodes sig.

(** [expr_in_env] starts from an empty cache of its own. *)
Definition expr_in_env (sig_nodes : list nodep) (root : Z) (env : list nodep) (use_env : option (list bool)) : Sy nodep :=
  good ← ok;
  if negb good then mret None
  else if vsize nodes <=? root then const_node sX
  else fun c =>
    match lower (env_signal sig_nodes env use_env) (S (length nodes)) root (c, ∅) with
    | Some (r, (c', _)) => Some (r, c')
    | None => None
    end.
End Lower.

(** ** The node of an expression carries its value

    The lowering of [SynthLower] against the evaluator of [VExpr]: in every
    stable valuation of the netlist in which the nodes of the signals carry
    the values of the signals, the node of an expression carries the value
    [eval_expr] computes.  A floating wire ([Z]) is where the two differ: the
    constant folding of the gates hands an operand through unchanged, so the
    theorem asks for values that are not [Z] and for literals [Z] that are not
    operands of the folded gates. *)

Open Scope Z_scope.

Definition z_literal (nodes : list expr_node) (r : Z) : bool :=
  match vat nodes r with
  | Some n => bool_decide (en_kind n = ek_literal) && dns_eqb (en_literal n) sZ
  | None => false
  end.
Definition folds (k : expr_kind) : bool :=
  match k with ek_binary_and | ek_binary_or | ek_binary_xor | ek_binary_eq | ek_binary_neq => true | _ => false end.
Definition no_z_operands (nodes : list expr_node) : Prop := forall i n, vat nodes i = Some n ->
  folds (en_kind n) = true -> z_literal nodes (en_a n) = false /\ z_literal nodes (en_b n) = false.

(** What the theorem asks of the values of the signals: none floats, and
    under [assume_binary_inputs] the tests for unknown values are false. *)
Record clean_values (opt : pe_synth_options) (nodes : list expr_node) (values : list logic_t) : Prop := mk_clean {
  cv_nz : Forall (fun v => v <> sZ) values;
  cv_binary : assume_binary_inputs opt = true -> forall i n, vat nodes i = Some n -> en_kind n = ek_is_unknown ->
    is_unknown (den nodes values (en_a n)) = false
}.

Lemma read_signal_nz values s : Forall (fun v => v <> sZ) values -> read_signal values s <> sZ.
Proof.
  intros Hv. unfold read_signal. destruct (vat values s) as [v|] eqn:E; [|done]. apply vat_Some in E as [_ E]. simpl.
  by eapply (Forall_lookup_1 _ _ _ _ Hv).
Qed.

Lemma den_nz nodes values r : arena_ok nodes -> Forall (fun v => v <> sZ) values -> 0 <= r ->
  z_literal nodes r = false -> den nodes values r <> sZ.
Proof.
  intros Ha Hv Hr Hz. destruct (vat nodes r) as [n|] eqn:En.
  2: { rewrite den_outside; [done|]. apply vat_None in En. lia. }
  rewrite (den_eq nodes values r n) by done. unfold z_literal in Hz. rewrite En in Hz. unfold node_value.
  destruct (en_kind n); cbn [unary_op binary_op] in *.
  - destruct (en_literal n); by try discriminate Hz.
  - by apply read_signal_nz.
  - unfold op_is_unknown. by destruct (is_unknown _).
  - by destruct (den nodes values (en_a n)).
  - by destruct (den nodes values (en_a n)), (den nodes values (en_b n)).
  - by destruct (den nodes values (en_a n)), (den nodes values (en_b n)).
  - by destruct (den nodes values (en_a n)), (den nodes values (en_b n)).
  - by destruct (den nodes values (en_a n)), (den nodes values (en_b n)).
  - by destruct (den nodes values (en_a n)), (den nodes values (en_b n)).
  - by destruct (den nodes values (en_a n)), (den nodes values (en_b n)).
Qed.

Lemma operand_nonneg i a : operand_ok i a -> 0 <= a.
Proof. by intros [?| ->]; [lia|]. Qed.

Section Lower.
Context (chunk_models chunk_nodes : nat) (Hchunk : (0 < chunk_models <= 4096)%nat).
Context (first_a : Z -> bool) (nodes : list expr_node).
Context (Harena : arena_ok nodes) (Hzops : no_z_operands nodes).

Section Signals.
Context (sig : Z -> nodep).

(** The nodes of the signals are there, and carry the values. *)
Definition signals_there (c : synth_context) : Prop := forall i n, vat nodes i = Some n -> en_kind n = ek_signal ->
  exists p, sig (en_signal n) = Some p /\ has c p.
Definition carries (σ : valuation) (values : list logic_t) : Prop :=
  forall s p, sig s = Some p -> σ p = read_signal values s.

Definition denotes (c : synth_context) (r : Z) (res : nodep) : Prop := exists p, res = Some p /\ has c p /\
  forall σ values, stable c σ -> carries σ values -> clean_values (cx_opt c) nodes values -> σ p = den nodes values r.
Definition cache_ok (c : synth_context) (m : expr_cache) : Prop := forall r res, m !! r = Some res -> denotes c r res.

Lemma signals_there_extends c c' : extends c c' -> signals_there c -> signals_there c'.
Proof. intros He Hs i n Hn Hk. destruct (Hs i n Hn Hk) as (p & Hp & Hh). exists p. split; [done|]. by apply He. Qed.
Lemma denotes_extends c c' r res : extends c c' -> denotes c r res -> denotes c' r res.
Proof.
  intros He (p & -> & Hh & HP). exists p. split; [done|]. split; [by apply He|]. intros σ values Hs. rewrite (ex_opt _ _ He).
  apply HP. by eapply stable_extends.
Qed.
Lemma cache_ok_empty c : cache_ok c ∅.
Proof. intros r res H. unfold expr_cache in H. by rewrite lookup_empty in H. Qed.
Lemma cache_ok_extends c c' m : extends c c' -> cache_ok c m -> cache_ok c' m.
Proof. intros He Hm r res Hr. eapply denotes_extends; eauto. Qed.

Definition lowered (c : synth_context) (r : Z) (res : nodep) (s : synth_context * expr_cache) : Prop :=
  cx_inv chunk_models s.1 /\ extends c s.1 /\ cache_ok s.1 s.2 /\ denotes s.1 r res.

(** A gate in the middle of the lowering. *)
Lemma on_ctx_denotes c m r (k : Sy nodep) P : cx_inv chunk_models c -> cache_ok c m ->
  wp k c (computes chunk_models c P) ->
  (forall σ values v, stable c σ -> carries σ values -> clean_values (cx_opt c) nodes values -> P σ v -> v = den nodes values r) ->
  wp (on_ctx k) (c, m) (lowered c r).
Proof.
  intros Hc Hm Hk HP. unfold wp, on_ctx in *. simpl. destruct (k c) as [[res c']|]; [|done].
  destruct Hk as (p & -> & Hc' & He & Hh & Hp). unfold lowered. simpl. split_and!; [done|done|by eapply cache_ok_extends|].
  exists p. split_and!; [done|done|]. intros σ values Hs Hcar Hcl. rewrite (ex_opt _ _ He) in Hcl. eapply HP; eauto.
  by eapply stable_extends.
Qed.

Lemma wp_on_ctx_ok {A} c m (k : bool -> Lw A) Q : cx_inv chunk_models c -> wp (k true) (c, m) Q -> wp (b ← on_ctx ok; k b) (c, m) Q.
Proof.
  intros Hc Hk. apply wp_bind. unfold wp at 1, on_ctx, ok, cx_ok. cbn [fst snd].
  rewrite (ci_ok _ _ Hc), bool_decide_true by done. exact Hk.
Qed.

(** The recursive calls, for operands below [r]. *)
Definition lowers (rec : Z -> Lw nodep) (r : Z) : Prop := forall a c m, operand_ok r a ->
  cx_inv chunk_models c -> signals_there c -> cache_ok c m -> wp (rec a) (c, m) (lowered c a).

Lemma operands_lowered rec r a b c m Q : lowers rec r -> operand_ok r a -> operand_ok r b ->
  cx_inv chunk_models c -> signals_there c -> cache_ok c m ->
  (forall c' m' x y, cx_inv chunk_models c' -> extends c c' -> cache_ok c' m' -> denotes c' a x -> denotes c' b y -> Q (x, y) (c', m')) ->
  wp (operands first_a rec r a b) (c, m) Q.
Proof.
  intros Hrec Ha Hb Hc Hs Hm HQ. unfold operands. destruct (first_a r); apply wp_bind.
  - eapply wp_mono; [by apply Hrec|]. intros x [c1 m1] (Hc1 & He1 & Hm1 & Hx). simpl in *. apply wp_bind.
    eapply wp_mono; [apply (Hrec b c1 m1); try done; by eapply signals_there_extends|].
    intros y [c2 m2] (Hc2 & He2 & Hm2 & Hy). simpl in *. apply wp_ret, HQ; try done; [by etrans|by eapply denotes_extends].
  - eapply wp_mono; [by apply Hrec|]. intros y [c1 m1] (Hc1 & He1 & Hm1 & Hy). simpl in *. apply wp_bind.
    eapply wp_mono; [apply (Hrec a c1 m1); try done; by eapply signals_there_extends|].
    intros x [c2 m2] (Hc2 & He2 & Hm2 & Hx). simpl in *. apply wp_ret, HQ; try done; [by etrans|by eapply denotes_extends].
Qed.

Lemma lowered_from c c' r res s : extends c c' -> lowered c' r res s -> lowered c r res s.
Proof. intros He (H1 & H2 & H3 & H4). split_and!; try done. by etrans. Qed.

(** One lemma for the six binary gates. *)
Lemma binary_gate_spec k g f c x y : binary_gate chunk_models chunk_nodes k = Some g -> binary_op k = Some f ->
  cx_inv chunk_models c -> has c x -> has c y ->
  wp (g (Some x) (Some y)) c (computes chunk_models c (fun σ w =>
    (folds k = true -> σ x <> sZ /\ σ y <> sZ) -> w = f (σ x) (σ y))).
Proof using Hchunk.
  intros Hg Hf Hc Hx Hy. destruct k; try discriminate Hg; injection Hg as <-; injection Hf as <-.
  all: eapply wp_mono; [
    lazymatch goal with
    | |- wp (gate_and _ _ _ _) _ _ => by apply gate_and_spec
    | |- wp (gate_or _ _ _ _) _ _ => by apply gate_or_spec
    | |- wp (gate_xor _ _ _ _) _ _ => by apply gate_xor_spec
    | |- wp (gate_xnor _ _ _ _) _ _ => by apply gate_xnor_spec
    | |- wp (gate_case_eq _ _ _ _) _ _ => by apply gate_case_eq_spec
    end|].
  all: intros r c' Hr; eapply computes_mono; [exact Hr|]; cbv beta; intros σ w _ Hw Hz.
  all: first [exact Hw|destruct (Hz eq_refl) as [Hz1 Hz2]; rewrite (Hw Hz1 Hz2); by destruct (σ x), (σ y)].
Qed.

Lemma lower_binary_spec rec r n c m g f : vat nodes r = Some n -> lowers rec r ->
  binary_gate chunk_models chunk_nodes (en_kind n) = Some g -> binary_op (en_kind n) = Some f ->
  (forall values, den nodes values r = f (den nodes values (en_a n)) (den nodes values (en_b n))) ->
  cx_inv chunk_models c -> signals_there c -> cache_ok c m ->
  wp (ab ← operands first_a rec r (en_a n) (en_b n); on_ctx (g ab.1 ab.2)) (c, m) (lowered c r).
Proof using Hchunk Harena Hzops.
  intros Hn Hrec Hg Hf Hden Hc Hs Hm. pose proof (proj2 Harena r n Hn) as [Hoa Hob].
  specialize (Hoa ltac:(right; eauto)). specialize (Hob ltac:(eauto)).
  pose proof (operand_nonneg _ _ Hoa). pose proof (operand_nonneg _ _ Hob).
  apply wp_bind. apply operands_lowered; [done..|]. intros c1 m1 xa xb Hc1 He1 Hm1 (pa & -> & Ha & Va) (pb & -> & Hb & Vb).
  cbn [fst snd]. eapply wp_mono; [|intros ??; by apply lowered_from].
  eapply on_ctx_denotes; [done|done|by eapply binary_gate_spec|]. cbv beta. intros σ values v Hst Hcar Hcl Hv.
  rewrite Hv, Hden, (Va σ values), (Vb σ values); [done..|]. intros Hk. destruct (Hzops r n Hn Hk) as [Hza Hzb].
  rewrite (Va σ values), (Vb σ values) by done. split; apply den_nz; try done; by try apply Hcl.
Qed.

Lemma lower_node_spec rec r n c m : vat nodes r = Some n -> lowers rec r ->
  cx_inv chunk_models c -> signals_there c -> cache_ok c m ->
  wp (lower_node chunk_models chunk_nodes first_a sig rec r n) (c, m) (lowered c r).
Proof using Hchunk Harena Hzops.
  intros Hn Hrec Hc Hs Hm. pose proof (proj2 Harena r n Hn) as [Hoa _].
  assert (Hden : forall values, den nodes values r = node_value values (den nodes values) n) by (intros values; by apply den_eq).
  assert (Hun : is_Some (unary_op (en_kind n)) -> operand_ok r (en_a n)) by (intros H; apply Hoa; by left). clear Hoa.
  unfold lower_node, node_value in *. destruct (en_kind n) eqn:Ek; cbn [unary_op binary_op] in *.
  - eapply on_ctx_denotes; [done|done|by apply const_node_spec|]. cbv beta. intros σ values v _ _ _ ->. by rewrite Hden.
  - destruct (Hs r n Hn Ek) as (p & Hp & Hh). apply wp_ret. unfold lowered. cbn [fst snd]. split_and!; [done|done|done|].
    exists p. split_and!; [done|done|]. intros σ values _ Hcar _. rewrite Hden. by apply Hcar.
  - apply wp_bind. eapply wp_mono; [apply Hrec; [apply Hun; eauto|done..]|].
    intros a [c1 m1] (Hc1 & He1 & Hm1 & (pa & -> & Hpa & Va)). cbn [fst snd] in *.
    eapply wp_mono; [eapply on_ctx_denotes; [done|done|by apply gate_is_unknown_spec|]|intros ??; by apply lowered_from].
    cbv beta. intros σ values v Hst Hcar Hcl ->. rewrite (Va σ values) by done. rewrite Hden.
    destruct (assume_binary_inputs (cx_opt c1)) eqn:Eb; [|done]. pose proof (cv_binary _ _ _ Hcl Eb r n Hn Ek) as Hu.
    unfold op_is_unknown. destruct (den nodes values (en_a n)); by try discriminate Hu.
  - apply wp_bind. eapply wp_mono; [apply Hrec; [apply Hun; eauto|done..]|].
    intros a [c1 m1] (Hc1 & He1 & Hm1 & (pa & -> & Hpa & Va)). cbn [fst snd] in *.
    eapply wp_mono; [eapply on_ctx_denotes; [done|done|by apply gate_not_spec|]|intros ??; by apply lowered_from].
    cbv beta. intros σ values v Hst Hcar Hcl ->. by rewrite (Va σ values), Hden by done.
  - by eapply lower_binary_spec; rewrite ?Ek.
  - by eapply lower_binary_spec; rewrite ?Ek.
  - by eapply lower_binary_spec; rewrite ?Ek.
  - by eapply lower_binary_spec; rewrite ?Ek.
  - by eapply lower_binary_spec; rewrite ?Ek.
  - by eapply lower_binary_spec; rewrite ?Ek.
Qed.

Lemma lower_spec fuel : forall r c m, 0 <= r ->
  (S (Z.to_nat r) < fuel)%nat \/ (vsize nodes <= r /\ (0 < fuel)%nat) ->
  cx_inv chunk_models c -> signals_there c -> cache_ok c m ->
  wp (lower chunk_models chunk_nodes first_a nodes sig fuel r) (c, m) (lowered c r).
Proof using Hchunk Harena Hzops.
  induction fuel as [|fuel IH]; intros r c m Hr Hf Hc Hs Hm; [lia|]. cbn [lower].
  apply wp_on_ctx_ok; [done|]. cbn [negb]. apply wp_bind. unfold wp at 1, cached. cbn [fst snd].
  destruct (m !! r) as [res|] eqn:Er.
  { apply wp_ret. unfold lowered. cbn [fst snd]. split_and!; [done|done|done|]. by apply Hm. }
  apply wp_bind. eapply wp_mono with (P := lowered c r).
  - destruct (vsize nodes <=? r) eqn:El.
    + eapply on_ctx_denotes; [done|done|by apply const_node_spec|]. cbv beta. intros σ values v _ _ _ ->.
      rewrite den_outside; [done|]. by apply Z.leb_le.
    + apply Z.leb_gt in El. destruct (proj2 (vat_is_Some nodes r)) as [n Hn]; [lia|]. rewrite Hn.
      apply lower_node_spec; [done| |done..]. intros a c1 m1 Ha Hc1 Hs1 Hm1. destruct Ha as [Ha| ->].
      * apply IH; [lia|left; lia|done..].
      * pose proof (proj1 Harena). apply IH; [done|right; split; [done|lia]|done..].
  - intros res [c1 m1] (Hc1 & He1 & Hm1 & Hd1). cbn [fst snd] in *. apply wp_bind. unfold wp, remember. cbn.
    unfold lowered. cbn [fst snd]. split_and!; [done|done| |done].
    destruct (m1 !! r) as [old|] eqn:Eo; [done|]. intros r' res' Hl.
    apply lookup_insert_Some in Hl as [[<- <-]|[_ Hl]]; [done|by apply Hm1].
Qed.
End Signals.

Lemma expr_in_env_spec sig_nodes root env use_env c : 0 <= root -> cx_inv chunk_models c ->
  signals_there (env_signal sig_nodes env use_env) c ->
  wp (expr_in_env chunk_models chunk_nodes first_a nodes sig_nodes root env use_env) c (fun res c' =>
    cx_inv chunk_models c' /\ extends c c' /\ denotes (env_signal sig_nodes env use_env) c' root res).
Proof using Hchunk Harena Hzops.
  intros Hr Hc Hs. unfold expr_in_env. apply wp_bind. unfold wp at 1, ok, cx_ok. rewrite (ci_ok _ _ Hc), bool_decide_true by done. cbn [negb].
  destruct (vsize nodes <=? root) eqn:El.
  - eapply wp_mono; [by apply const_node_spec|]. intros r c' (p & -> & Hc' & He & Hh & Hp). split_and!; [done..|].
    exists p. split_and!; [done..|]. intros σ values Hst _ _. rewrite (Hp σ Hst), den_outside; [done|by apply Z.leb_le].
  - apply Z.leb_gt in El. pose proof (lower_spec (env_signal sig_nodes env use_env) (S (length nodes)) root c ∅ Hr) as Hl.
    assert (Hf : (S (Z.to_nat root) < S (length nodes))%nat) by (unfold vsize in El; lia).
    specialize (Hl (or_introl Hf) Hc Hs ltac:(done)). unfold wp in *.
    destruct (lower _ _ _ _ _ _ _ _) as [[r [c' m]]|]; [|done]. by destruct Hl as (? & ? & _ & ?).
Qed.

Lemma expr_spec sig_nodes root c m : 0 <= root -> cx_inv chunk_models c ->
  signals_there (signal sig_nodes) c -> cache_ok (signal sig_nodes) c m ->
  wp (expr chunk_models chunk_nodes first_a nodes sig_nodes root) (c, m) (lowered (signal sig_nodes) c root).
Proof using Hchunk Harena Hzops.
  intros Hr Hc Hs Hm. apply lower_spec; [done| |done..]. unfold vsize. destruct (decide (root < Z.of_nat (length nodes))); lia.
Qed.
End Lower.

(** C13: the lowering of an expression is correct: whatever the order in which
    the operands of a gate are built, [expr] returns a node [p] of a netlist
    that extends the one it was given and satisfies its invariant, and in
    every state of the nodes in which all gates are stable and the nodes of
    the signals carry the values of a module's state, [p] carries the value
    the simulator's evaluator computes from that state - provided that no
    signal floats and that no literal [Z] is an operand of a gate that folds
    constants. *)
Theorem lowering_carries_value chunk_models chunk_nodes first_a m sig_nodes root c :
  (0 < chunk_models <= 4096)%nat -> arena_ok (cm_expr_nodes m) -> no_z_operands (cm_expr_nodes m) -> 0 <= root ->
  cx_inv chunk_models c -> signals_there (cm_expr_nodes m) (signal sig_nodes) c ->
  exists p c' cache, expr chunk_models chunk_nodes first_a (cm_expr_nodes m) sig_nodes root (c, ∅) = Some (Some p, (c', cache)) /\
    cx_inv chunk_models c' /\ extends c c' /\ has c' p /\
    forall σ st, stable c' σ -> carries (signal sig_nodes) σ (ms_values st) ->
      clean_values (cx_opt c') (cm_expr_nodes m) (ms_values st) -> memo_inv st ->
      exists st', eval_expr_cached m root st = Some (σ p, st').
Proof.
  intros Hchunk Ha Hz Hr Hc Hs.
  destruct (wp_result _ _ _ (expr_spec chunk_models chunk_nodes Hchunk first_a _ Ha Hz sig_nodes root c ∅ Hr Hc Hs (cache_ok_empty _ _ _)))
    as (res & [c' cache] & E & Hc' & He & _ & p & -> & Hp & HP).
  exists p, c', cache. split_and!; [done..|]. intros σ st Hst Hcar Hcl Hi.
  destruct (cached_agrees m root st Ha Hr Hi) as (c2 & t & Ev & _). exists (set_memo st c2 t). by rewrite Ev, (HP σ (ms_values st)) by done.
Qed.

(** ** An example: [(a & ~b) === c] *)

Definition lower_nodes : list expr_node :=
  [node_signal 0; node_signal 1; node_unary ek_unary_not 1; node_binary ek_binary_and 0 2; node_signal 2;
   node_binary ek_binary_case_eq 3 4].
Definition lower_module : compiled_module :=
  {| cm_name := "m"; cm_ports := []; cm_port_order := []; cm_port_decls := ∅; cm_vectors := ∅;
     cm_signal_names := ["a"; "b"; "c"]; cm_signal_is_reg := [false; false; false]; cm_signal_is_signed := [false; false; false];
     cm_signal_is_const := [false; false; false]; cm_signal_is_const_foldable := [false; false; false];
     cm_signal_const_value := [sX; sX; sX]; cm_signal_index := ∅; cm_param_order := []; cm_param_default_values := ∅;
     cm_param_is_local := ∅; cm_expr_nodes := lower_nodes; cm_assigns := []; cm_always_ffs := []; cm_always_combs := [];
     cm_initials := []; cm_instances := []; cm_inline_counter := 0 |}.

(** A netlist with a node for each signal. *)
Fixpoint add_nodes (chunk_nodes n : nat) (nl : netlist device) : netlist device :=
  match n with O => nl | S n' => add_nodes chunk_nodes n' (create_node chunk_nodes nl).1 end.
Definition nodes_context (n : nat) : synth_context :=
  synth_context_new (add_nodes 100 n netlist_empty) pe_synth_options_default.

Lemma nodes_context_inv n : cx_inv 100 (nodes_context n).
Proof.
  split; [done| |done|].
  - simpl. assert (H : nl_inv 100 (netlist_empty (impl := device))) by (apply empty_inv; lia). revert H.
    generalize (netlist_empty (impl := device)). induction n as [|n IH]; intros nl H; [done|]. simpl. apply IH. by apply inv_create_node.
  - intros v p H. by apply elem_of_nil in H.
Qed.

Lemma lower_nodes_ok : arena_ok lower_nodes /\ no_z_operands lower_nodes.
Proof.
  split.
  - apply operands_present_ok; [done|]. intros i n Hn. apply vat_Some in Hn as [Hi Hn]. unfold vsize in Hi. simpl in Hi.
    assert (i = 0 \/ i = 1 \/ i = 2 \/ i = 3 \/ i = 4 \/ i = 5) as [->|[->|[->|[->|[-> | ->]]]]] by lia; injection Hn as <-; simpl;
      (split; [intros [[]|[]]|intros []]); try done; lia.
  - intros i n Hn Hk. apply vat_Some in Hn as [Hi Hn]. unfold vsize in Hi. simpl in Hi.
    assert (i = 0 \/ i = 1 \/ i = 2 \/ i = 3 \/ i = 4 \/ i = 5) as [->|[->|[->|[->|[-> | ->]]]]] by lia; injection Hn as <-; by try discriminate Hk.
Qed.

Lemma lowering_carries_value_witness :
  exists p c' cache, expr 100 100 (fun _ => true) lower_nodes [Some 1%N; Some 2%N; Some 3%N] 5 (nodes_context 3, ∅)
      = Some (Some p, (c', cache)) /\ cx_inv 100 c' /\ extends (nodes_context 3) c' /\ has c' p /\
    forall σ st, stable c' σ -> carries (signal [Some 1%N; Some 2%N; Some 3%N]) σ (ms_values st) ->
      clean_values (cx_opt c') lower_nodes (ms_values st) -> memo_inv st ->
      exists st', eval_expr_cached lower_module 5 st = Some (σ p, st').
Proof.
  apply (lowering_carries_value 100 100 (fun _ => true) lower_module [Some 1%N; Some 2%N; Some 3%N] 5 (nodes_context 3)).
  - lia.
  - apply lower_nodes_ok.
  - apply lower_nodes_ok.
  - lia.
  - apply nodes_context_inv.
  - intros i n Hn Hk. apply vat_Some in Hn as [Hi Hn]. unfold vsize in Hi. simpl in Hi.
    assert (i = 0 \/ i = 1 \/ i = 2 \/ i = 3 \/ i = 4 \/ i = 5) as [->|[->|[->|[->|[-> | ->]]]]] by lia; injection Hn as <-;
      try discriminate Hk; eexists; (split; [reflexivity|]); by eexists.
Defined.

(** Folding [a & 1] hands [a] through, so that a floating [a] stays [Z]
    where the simulator's [&] makes it unknown. *)
Example folded_and_keeps_z : exists c' cache,
  expr 100 100 (fun _ => true) [node_signal 0; node_literal sH; node_binary ek_binary_and 0 1] [Some 1%N] 2 (nodes_context 1, ∅)
    = Some (Some 1%N, (c', cache)) /\
  den [node_signal 0; node_literal sH; node_binary ek_binary_and 0 1] [sZ] 2 = sX.
Proof. eexists _, _. split; [vm_compute; reflexivity|reflexivity]. Qed.
