(* ===== verification/SynthStmt.v ===== *)
(** * SynthStmt: statements to multiplexers

    [synth_stmt_comb], [synth_stmt_ff] and [collect_assigned_signals] of
    [verilog/digital/pe_synth.h]: a statement is executed on nodes instead of
    values, both branches of a conditional are lowered and joined by
    multiplexers, and loops are unrolled up to a limit.  The two functions have
    the same control structure and differ in their environments: the values
    and the "assigned" conditions of an [always_comb], or the current and the
    next values of an [always_ff]; [synth_stmt] is that structure. *)

From Stdlib Require Import ZArith Lia.
From stdpp Require Import base list gmap strings.
From S2P Require Import Prelude Store Logic4 Model Netlist.
From S2P Require Import VData VExpr VCache VStmt SynthNet SynthLower.

Open Scope Z_scope.

(** ** The signals a statement assigns *)

Definition mark (out : list bool) (sig : Z) : list bool := if sig <? vsize out then vset out sig true else out.

(** The statements that [collect_assigned_signals] visits, in its order. *)
Definition assigned_children (n : stmt_node) : list Z :=
  let part i := if i =? SIZE_MAX then [] else [i] in
  match sn_k n with
  | sk_block | sk_subprogram_block => sn_stmts n
  | sk_if_stmt => sn_stmts n ++ sn_else_stmts n
  | sk_case_stmt => concat (map ci_stmts (sn_case_items n))
  | sk_for_stmt => part (sn_init_stmt n) ++ part (sn_step_stmt n) ++ part (sn_body_stmt n)
  | sk_while_stmt | sk_do_while_stmt => part (sn_body_stmt n)
  | _ => []
  end.

Definition assigned_here (n : stmt_node) : list Z :=
  match sn_k n with
  | sk_blocking_assign | sk_nonblocking_assign => [sn_lhs_signal n]
  | sk_blocking_assign_vec | sk_nonblocking_assign_vec => sn_lhs_signals n
  | _ => []
  end.

Fixpoint collect_assigned_signals (fuel : nat) (arena : list stmt_node) (stmt_idx : Z) (out : list bool) : option (list bool) :=
  match fuel with
  | O => None
  | S fuel' =>
      if vsize arena <=? stmt_idx then Some out
      else match vat arena stmt_idx with
           | None => None
           | Some n =>
               fold_left (fun acc s => match acc with Some o => collect_assigned_signals fuel' arena s o | None => None end)
                 (assigned_children n) (Some (fold_left mark (assigned_here n) out))
           end
  end.

(** [sig < targets.size() && targets[sig]] *)
Definition targeted (targets : list bool) (sig : Z) : bool := default false (vat targets sig).
Definition set_if (l : list nodep) (sig : Z) (n : nodep) : list nodep := if sig <? vsize l then vset l sig n else l.

Section Statements.
Context (chunk_models chunk_nodes : nat) (addr : node_ptr -> Z) (first_a : Z -> bool).
Context (nodes : list expr_node) (sig_nodes : list nodep).

Abbreviation const_node := (const_node chunk_models chunk_nodes).
Abbreviation gate_case_eq := (gate_case_eq chunk_models chunk_nodes).
Abbreviation gate_is_unknown := (gate_is_unknown chunk_models chunk_nodes).
Abbreviation gate_or := (gate_or chunk_models chunk_nodes).
Abbreviation gate_and := (gate_and chunk_models chunk_nodes).
Abbreviation mux2 := (mux2 chunk_models chunk_nodes).

Definition eval_in (env : list nodep) (root : Z) : Sy nodep :=
  expr_in_env chunk_models chunk_nodes first_a nodes sig_nodes root env None.
Definition rhs_node (n : stmt_node) (env : list nodep) (root : Z) : Sy nodep :=
  rhs ← eval_in env root;
  if negb (sn_delay_ticks n =? 0) then tick_delay chunk_models chunk_nodes addr rhs (sn_delay_ticks n) else mret rhs.

(** ** Matching a case item *)

Definition bit_match (ck : case_kind) (z a b : nodep) : Sy nodep :=
  eq ← gate_case_eq a b;
  match ck with
  | ck_normal => mret eq
  | ck_casez => az ← gate_case_eq a z; bz ← gate_case_eq b z; o ← gate_or az bz; gate_or eq o
  | ck_casex => ua ← gate_is_unknown a; ub ← gate_is_unknown b; o ← gate_or ua ub; gate_or eq o
  end.

Fixpoint match_bits (ck : case_kind) (z : nodep) (env : list nodep) (key : list nodep) (roots : list Z) (m : nodep) : Sy nodep :=
  match key, roots with
  | k :: key', r :: roots' =>
      mb ← eval_in env r;
      b ← bit_match ck z k mb;
      m' ← gate_and m b;
      match_bits ck z env key' roots' m'
  | _, _ => mret m
  end.

Definition item_match (ck : case_kind) (z : nodep) (env key : list nodep) (ci : case_item) : Sy nodep :=
  if negb (length (ci_match_roots ci) =? length key)%nat then const_node sL
  else m ← const_node sH; match_bits ck z env key (ci_match_roots ci) m.

Definition case_keys (env : list nodep) (roots : list Z) : Sy (list nodep) :=
  match roots with
  | [] => x ← const_node sX; mret [x]
  | _ => smap (eval_in env) roots
  end.

Definition last_default (items : list case_item) : option case_item := last (List.filter ci_is_default items).
Definition other_items (items : list case_item) : list case_item := List.filter (fun ci => negb (ci_is_default ci)) items.

(** ** The control structure

    [Some e] is [return true] with the environment changed in place, [None]
    is [return false]. *)
Section Control.
Context {E : Type} (env_of : E -> list nodep) (assign : stmt_node -> E -> Sy E).
(** [merge sel e0 e1 base]: the loops that write [mux2(sel, e0, e1)] into
    [base]. *)
Context (merge : nodep -> E -> E -> E -> Sy E).

Section Node.
Context (run : Z -> E -> Sy (option E)).

Fixpoint run_list (l : list Z) (e : E) : Sy (option E) :=
  match l with
  | [] => mret (Some e)
  | s :: l' => r ← run s e; match r with Some e' => run_list l' e' | None => mret None end
  end.

Definition present (i : Z) : list Z := if i =? SIZE_MAX then [] else [i].

Definition branch_cond (e : E) (root : Z) : Sy nodep :=
  raw ← eval_in (env_of e) root; t ← const_node sH; gate_case_eq raw t.

(** At most [iter] rounds: a constant condition ends the loop or makes the
    body unconditional. *)
Fixpoint unroll (root : Z) (body : list Z) (iter : nat) (e : E) : Sy (option E) :=
  match iter with
  | O => mret (Some e)
  | S iter' =>
      cond ← branch_cond e root;
      cv ← try_get_const cond;
      match cv with
      | Some sL => mret (Some e)
      | Some sH => r ← run_list body e; match r with Some e' => unroll root body iter' e' | None => mret None end
      | _ =>
          r ← run_list body e;
          match r with
          | Some t => e' ← merge cond e t e; unroll root body iter' e'
          | None => mret None
          end
      end
  end.

Definition no_unroll : Sy (option E) := _ ← set_error "pe_synth: loop_unroll_limit is 0 (loops disabled)"; mret None.

(** The items from the last to the first, over what follows them. *)
Fixpoint join_items (ck : case_kind) (z : nodep) (base : E) (key : list nodep) (rev_items : list case_item) (agg : E) : Sy (option E) :=
  match rev_items with
  | [] => mret (Some agg)
  | ci :: rest =>
      m ← item_match ck z (env_of base) key ci;
      r ← run_list (ci_stmts ci) base;
      match r with
      | Some item => agg' ← merge m agg item agg; join_items ck z base key rest agg'
      | None => mret None
      end
  end.

Definition synth_case (n : stmt_node) (e : E) : Sy (option E) :=
  key ← case_keys (env_of e) (sn_case_expr_roots n);
  z ← const_node sZ;
  agg ← match last_default (sn_case_items n) with
        | Some d => run_list (ci_stmts d) e
        | None => mret (Some e)
        end;
  match agg with
  | Some a => join_items (sn_ck n) z e key (rev (other_items (sn_case_items n))) a
  | None => mret None
  end.

Definition synth_node (n : stmt_node) (e : E) : Sy (option E) :=
  match sn_k n with
  | sk_empty => mret (Some e)
  | sk_block | sk_subprogram_block => run_list (sn_stmts n) e
  | sk_blocking_assign | sk_nonblocking_assign | sk_blocking_assign_vec | sk_nonblocking_assign_vec =>
      e' ← assign n e; mret (Some e')
  | sk_if_stmt =>
      cond ← branch_cond e (sn_expr_root n);
      r1 ← run_list (sn_stmts n) e;
      match r1 with
      | None => mret None
      | Some t =>
          r2 ← run_list (sn_else_stmts n) e;
          match r2 with
          | None => mret None
          | Some f => e' ← merge cond f t e; mret (Some e')
          end
      end
  | sk_case_stmt => synth_case n e
  | sk_for_stmt =>
      limit ← option_of loop_unroll_limit;
      if (limit =? 0)%nat then no_unroll
      else r ← run_list (present (sn_init_stmt n)) e;
           match r with
           | Some e' => unroll (sn_expr_root n) (present (sn_body_stmt n) ++ present (sn_step_stmt n)) limit e'
           | None => mret None
           end
  | sk_while_stmt =>
      limit ← option_of loop_unroll_limit;
      if (limit =? 0)%nat then no_unroll else unroll (sn_expr_root n) (present (sn_body_stmt n)) limit e
  | sk_do_while_stmt =>
      limit ← option_of loop_unroll_limit;
      if (limit =? 0)%nat then no_unroll
      else r ← run_list (present (sn_body_stmt n)) e;
           match r with
           | Some e' => unroll (sn_expr_root n) (present (sn_body_stmt n)) (limit - 1) e'
           | None => mret None
           end
  | sk_return_stmt | sk_break_stmt | sk_continue_stmt => mret (Some e)
  end.
End Node.

(** The fuel bounds the nesting of the statements. *)
Fixpoint synth_stmt (fuel : nat) (arena : list stmt_node) (stmt_idx : Z) (e : E) : Sy (option E) :=
  match fuel with
  | O => undefined
  | S fuel' =>
      good ← ok;
      if negb good then mret None
      else if vsize arena <=? stmt_idx then _ ← set_error "pe_synth: stmt index out of range"; mret None
      else match vat arena stmt_idx with
           | Some n => synth_node (synth_stmt fuel' arena) n e
           | None => undefined
           end
  end.
End Control.

(** ** always_comb: values and "assigned" conditions *)

Record comb_env : Type := mk_comb_env { ce_value : list nodep; ce_assigned : list nodep }.

Definition assign_comb (targets : list bool) (sig : Z) (rhs : nodep) (e : comb_env) : Sy comb_env :=
  if (vsize (ce_value e) <=? sig) || (vsize (ce_assigned e) <=? sig) then mret e
  else if targeted targets sig then
    t ← const_node sH;
    mret {| ce_value := vset (ce_value e) sig rhs; ce_assigned := vset (ce_assigned e) sig t |}
  else mret e.

Fixpoint assign_comb_list (targets : list bool) (l : list (Z * nodep)) (e : comb_env) : Sy comb_env :=
  match l with
  | [] => mret e
  | (sig, rhs) :: l' => e' ← assign_comb targets sig rhs e; assign_comb_list targets l' e'
  end.

(** A scalar right side is lowered only for a target; a vector's right sides
    are all lowered first. *)
Definition comb_assign (targets : list bool) (n : stmt_node) (e : comb_env) : Sy comb_env :=
  match sn_k n with
  | sk_blocking_assign | sk_nonblocking_assign =>
      if (vsize (ce_value e) <=? sn_lhs_signal n) || (vsize (ce_assigned e) <=? sn_lhs_signal n) then mret e
      else if targeted targets (sn_lhs_signal n) then
        rhs ← rhs_node n (ce_value e) (sn_expr_root n); assign_comb targets (sn_lhs_signal n) rhs e
      else mret e
  | _ =>
      if vec_ok n then
        rhs ← smap (rhs_node n (ce_value e)) (sn_rhs_roots n);
        assign_comb_list targets (zip (sn_lhs_signals n) rhs) e
      else mret e
  end.

(** One signal of the loop that joins two environments. *)
Definition merge_at (sel : nodep) (l0 l1 base : list nodep) (sig : Z) : Sy (list nodep) :=
  match vat l0 sig, vat l1 sig with
  | Some n0, Some n1 => r ← mux2 sel n0 n1; mret (vset base sig r)
  | _, _ => undefined
  end.

Fixpoint comb_merge_from (targets : list bool) (sel : nodep) (e0 e1 : comb_env) (sigs : list Z) (base : comb_env) : Sy comb_env :=
  match sigs with
  | [] => mret base
  | sig :: sigs' =>
      if targeted targets sig then
        v ← merge_at sel (ce_value e0) (ce_value e1) (ce_value base) sig;
        a ← merge_at sel (ce_assigned e0) (ce_assigned e1) (ce_assigned base) sig;
        comb_merge_from targets sel e0 e1 sigs' {| ce_value := v; ce_assigned := a |}
      else comb_merge_from targets sel e0 e1 sigs' base
  end.

Definition indices (n : nat) : list Z := map Z.of_nat (seq 0 n).

Definition comb_merge (targets : list bool) (sel : nodep) (e0 e1 base : comb_env) : Sy comb_env :=
  comb_merge_from targets sel e0 e1 (indices (min (length targets) (length (ce_value base)))) base.

Definition synth_stmt_comb (arena : list stmt_node) (targets : list bool) (stmt_idx : Z) (e : comb_env) : Sy (option comb_env) :=
  synth_stmt ce_value (comb_assign targets) (comb_merge targets) (S (length arena)) arena stmt_idx e.

(** ** always_ff: current and next values *)

Record ff_env : Type := mk_ff_env { fe_cur : list nodep; fe_next : list nodep }.

Definition is_blocking (n : stmt_node) : bool :=
  match sn_k n with sk_blocking_assign | sk_blocking_assign_vec => true | _ => false end.

Definition write_cur (n : stmt_node) (l : list (Z * nodep)) (cur : list nodep) : list nodep :=
  if is_blocking n then fold_left (fun c p => set_if c p.1 p.2) l cur else cur.
Definition write_next (targets : list bool) (l : list (Z * nodep)) (next : list nodep) : list nodep :=
  fold_left (fun x p => if targeted targets p.1 then set_if x p.1 p.2 else x) l next.

Definition ff_assign (targets : list bool) (n : stmt_node) (e : ff_env) : Sy ff_env :=
  match sn_k n with
  | sk_blocking_assign | sk_nonblocking_assign =>
      if vsize (fe_next e) <=? sn_lhs_signal n then mret e
      else
        rhs ← rhs_node n (fe_cur e) (sn_expr_root n);
        mret {| fe_cur := write_cur n [(sn_lhs_signal n, rhs)] (fe_cur e);
                fe_next := write_next targets [(sn_lhs_signal n, rhs)] (fe_next e) |}
  | _ =>
      if vec_ok n then
        rhs ← smap (rhs_node n (fe_cur e)) (sn_rhs_roots n);
        mret {| fe_cur := write_cur n (zip (sn_lhs_signals n) rhs) (fe_cur e);
                fe_next := write_next targets (zip (sn_lhs_signals n) rhs) (fe_next e) |}
      else mret e
  end.

Fixpoint merge_list (sel : nodep) (l0 l1 : list nodep) (sigs : list Z) (base : list nodep) : Sy (list nodep) :=
  match sigs with
  | [] => mret base
  | sig :: sigs' => b ← merge_at sel l0 l1 base sig; merge_list sel l0 l1 sigs' b
  end.

Definition ff_merge (targets : list bool) (sel : nodep) (e0 e1 base : ff_env) : Sy ff_env :=
  cur ← merge_list sel (fe_cur e0) (fe_cur e1)
          (indices (min (length (fe_cur base)) (min (length (fe_cur e1)) (length (fe_cur e0))))) (fe_cur base);
  next ← merge_list sel (fe_next e0) (fe_next e1)
           (List.filter (targeted targets) (indices (min (length targets) (length (fe_next base))))) (fe_next base);
  mret {| fe_cur := cur; fe_next := next |}.

Definition synth_stmt_ff (arena : list stmt_node) (targets : list bool) (stmt_idx : Z) (e : ff_env) : Sy (option ff_env) :=
  synth_stmt fe_cur (ff_assign targets) (ff_merge targets) (S (length arena)) arena stmt_idx e.
End Statements.
