(* ===== verification/SynthSim.v ===== *)
(** * SynthSim: lowering a statement simulates its execution

    The control structure [synth_stmt] of [SynthStmt] against [exec_stmt] of
    [VStmt], for any kind of environment.  [R σ e st] says that the nodes of
    the environment [e] carry, in the valuation [σ], the state [st] of the
    module.  What the two kinds of environment have to provide is [env_laws]:
    an assignment and a multiplexed join keep the relation.  The theorem: if a
    statement is lowered from [e] to [e'], then in every stable valuation the
    execution of the statement takes every state carried by [e] to a state
    carried by [e']. *)

From Stdlib Require Import ZArith Lia.
From stdpp Require Import base list gmap strings.
From S2P Require Import Prelude Store Logic4 Gates Devices Model Netlist NetlistOps.
From S2P Require Import VData VExpr VCache VStmt VStmtInv VStmtClaims.
From S2P Require Import SynthNet SynthNetLemmas SynthLower SynthStmt.

Open Scope Z_scope.

(** ** Running computations in a row, the flow staying [none] *)

Abbreviation xstate := (module_state * option flow_kind)%type.

Fixpoint wp_seq (ks : list (X bool)) (s : xstate) (Q : xstate -> Prop) : Prop :=
  match ks with
  | [] => Q s
  | k :: ks' => wp k s (fun _ s' => s'.2 = Some fl_none /\ wp_seq ks' s' Q)
  end.

Lemma wp_seq_mono ks : forall s (P Q : xstate -> Prop), wp_seq ks s P -> (forall s', P s' -> Q s') -> wp_seq ks s Q.
Proof.
  induction ks as [|k ks IH]; simpl; intros s P Q H HPQ; [by apply HPQ|]. eapply wp_mono; [exact H|]. simpl.
  intros _ s' [Hf Hs]. split; [done|]. by eapply IH.
Qed.

Lemma wp_seq_app ks1 : forall ks2 s (Q : xstate -> Prop), wp_seq ks1 s (fun s' => wp_seq ks2 s' Q) -> wp_seq (ks1 ++ ks2) s Q.
Proof.
  induction ks1 as [|k ks IH]; simpl; intros ks2 s Q H; [done|]. eapply wp_mono; [exact H|]. simpl. intros _ s' [Hf Hs].
  split; [done|]. by apply IH.
Qed.

Lemma wp_seq_result ks : forall s (Q : xstate -> Prop), wp_seq ks s Q -> exists s', Q s'.
Proof.
  induction ks as [|k ks IH]; simpl; intros s Q H; [eauto|]. apply wp_result in H as (b & s' & _ & _ & H). by eapply IH.
Qed.

Lemma exec_list_seq (run : Z -> X bool) l : forall st (Q : xstate -> Prop),
  wp_seq (map run l) (st, Some fl_none) Q -> wp (exec_list run l) (st, Some fl_none) (fun _ s' => Q s').
Proof.
  induction l as [|x l IH]; intros st Q H; [by apply wp_ret|]. cbn [exec_list]. apply wp_bind. unfold wp at 1, get_flow.
  cbn [snd default]. apply wp_bind. cbn [map wp_seq] in H. eapply wp_mono; [exact H|]. intros b [s1 f1] [Hf Hs]. simpl in Hf.
  subst f1. apply wp_bind. eapply wp_mono; [by apply IH|]. intros b' s2 H2. by apply wp_ret.
Qed.

(** ** Statements that are lowered as they are executed *)

(** A property of every statement below a statement. *)
Fixpoint all_below (P : stmt_node -> bool) (fuel : nat) (arena : list stmt_node) (i : Z) : bool :=
  match fuel with
  | O => false
  | S fuel' =>
      match vat arena i with
      | None => false
      | Some n => P n && forallb (all_below P fuel' arena) (assigned_children n)
      end
  end.

Definition is_loop (k : stmt_kind) : bool :=
  match k with sk_for_stmt | sk_while_stmt | sk_do_while_stmt => true | _ => false end.
Definition is_jump (k : stmt_kind) : bool :=
  match k with sk_return_stmt | sk_break_stmt | sk_continue_stmt => true | _ => false end.

(** No jumps and no delays, no [Z] on a right side; loops only when they are
    unrolled as far as the simulator runs them. *)
Definition lowered_stmt (loops : bool) (nodes : list expr_node) (n : stmt_node) : bool :=
  negb (is_jump (sn_k n)) && (sn_delay_ticks n =? 0) && implb (is_loop (sn_k n)) loops &&
  negb (z_literal nodes (sn_expr_root n)) && forallb (fun r => negb (z_literal nodes r)) (sn_rhs_roots n) &&
  forallb (Z.leb 0) (roots_used n).

Section Sim.
Context (chunk_models chunk_nodes : nat) (Hchunk : (0 < chunk_models <= 4096)%nat).
Context (addr : node_ptr -> Z) (first_a : Z -> bool) (m : compiled_module).
Abbreviation nodes := (cm_expr_nodes m).
Abbreviation value := (den nodes).
Context (Harena : arena_ok nodes) (Hzops : no_z_operands nodes).
Context (sig_nodes : list nodep).
Context (Hsig : forall i n, vat nodes i = Some n -> en_kind n = ek_signal -> 0 <= en_signal n < vsize sig_nodes).
Context (opt : pe_synth_options) (Hbin : assume_binary_inputs opt = false).

Definition ready (c : synth_context) : Prop := cx_inv chunk_models c /\ cx_opt c = opt.

Lemma ready_extends c c' : ready c -> cx_inv chunk_models c' -> extends c c' -> ready c'.
Proof using Type. intros [_ E] H He. split; [done|]. by rewrite (ex_opt _ _ He). Qed.

(** An environment is a node for each signal. *)
Definition env_ok (c : synth_context) (l : list nodep) : Prop :=
  exists ps, l = map Some ps /\ length ps = length sig_nodes /\ Forall (has c) ps.
Definition env_carries (σ : valuation) (l : list nodep) (vs : list logic_t) : Prop :=
  l = map Some (omap id l) /\ vs = map σ (omap id l) /\ Forall (fun v => v <> sZ) vs.

Lemma omap_id_Some {A} (ps : list A) : omap id (map Some ps) = ps.
Proof using Type. induction ps as [|p ps IH]; [done|]. simpl. by f_equal. Qed.

Lemma env_ok_extends c c' l : extends c c' -> env_ok c l -> env_ok c' l.
Proof using Type.
  intros He (ps & -> & Hl & Hp). exists ps. split_and!; [done|done|]. eapply Forall_impl; [exact Hp|]. apply He.
Qed.

Lemma vat_map {A B} (f : A -> B) l s : vat (map f l) s = f <$> vat l s.
Proof using Type. unfold vat. rewrite length_map. destruct (_ && _); [|done]. by rewrite list_lookup_fmap. Qed.
Lemma vsize_map {A B} (f : A -> B) l : vsize (map f l) = vsize l.
Proof using Type. unfold vsize. by rewrite length_map. Qed.

Lemma env_signal_at ps s : length ps = length sig_nodes -> env_signal sig_nodes (map Some ps) None s = vat ps s.
Proof using Hchunk.
  intros Hl. unfold env_signal. rewrite vsize_map. assert (Hs : vsize ps = vsize sig_nodes) by (unfold vsize; lia).
  destruct (s <? vsize ps) eqn:E.
  - rewrite vat_map. destruct (vat ps s) as [p|] eqn:Ep; [done|]. simpl. apply Z.ltb_lt in E. apply vat_None in Ep.
    unfold signal. rewrite (proj2 (Z.leb_gt _ _)) by lia. rewrite (proj2 (vat_None sig_nodes s)) by lia. done.
  - apply Z.ltb_ge in E. rewrite (proj2 (vat_None ps s)) by lia. unfold signal. by rewrite (proj2 (Z.leb_le _ _)) by lia.
Qed.

Lemma eval_in_spec c l root : ready c -> env_ok c l -> 0 <= root ->
  wp (eval_in chunk_models chunk_nodes first_a nodes sig_nodes l root) c (computes chunk_models c (fun σ v =>
    forall vs, env_carries σ l vs -> v = value vs root)).
Proof using Hchunk Harena Hzops Hsig Hbin.
  intros [Hc Ho] (ps & -> & Hl & Hps) Hr. unfold eval_in.
  eapply wp_mono; [apply expr_in_env_spec; [done..|]|].
  - intros i n Hn Hk. rewrite env_signal_at by done. destruct (proj2 (vat_is_Some ps (en_signal n))) as [p Hp].
    { unfold vsize. rewrite Hl. by eapply Hsig. }
    exists p. split; [done|]. apply vat_Some in Hp as [_ Hp]. by eapply (Forall_lookup_1 _ _ _ _ Hps).
  - intros res c' (Hc' & He & p & -> & Hh & HP). exists p. split_and!; [done..|]. intros σ Hs vs (_ & -> & Hz).
    rewrite omap_id_Some in *. apply HP; [done| |].
    + intros s q. rewrite env_signal_at by done. intros Hq. unfold read_signal. by rewrite vat_map, Hq.
    + split; [done|]. rewrite (ex_opt _ _ He), Ho, Hbin. done.
Qed.

(** ** What an environment has to provide *)

Context {E : Type} (env_of : E -> list nodep) (assign : stmt_node -> E -> Sy E).
Context (merge : nodep -> E -> E -> E -> Sy E).
Context (wfE : synth_context -> E -> Prop) (R : valuation -> E -> module_state -> Prop).
Context (ok_stmt : stmt_node -> bool) (treat : bool) (tick : Z).

Definition runs (ks : list (X bool)) (σ : valuation) (e e' : E) : Prop := forall st, sane st -> R σ e st ->
  wp_seq ks (st, Some fl_none) (fun s' => s'.2 = Some fl_none /\ sane s'.1 /\ R σ e' s'.1).
Definition sim (c : synth_context) (e : E) (ks : list (X bool)) (r : option E) (c' : synth_context) : Prop :=
  exists e', r = Some e' /\ cx_inv chunk_models c' /\ extends c c' /\ wfE c' e' /\ forall σ, stable c' σ -> runs ks σ e e'.

Definition is_assign (k : stmt_kind) : bool :=
  match k with
  | sk_blocking_assign | sk_nonblocking_assign | sk_blocking_assign_vec | sk_nonblocking_assign_vec => true
  | _ => false
  end.

Record env_laws : Prop := mk_env_laws {
  el_env : forall c e, wfE c e -> env_ok c (env_of e);
  el_extends : forall c c' e, extends c c' -> wfE c e -> wfE c' e;
  el_carries : forall c σ e st, wfE c e -> R σ e st -> env_carries σ (env_of e) (ms_values st);
  el_visible : forall σ e st st', R σ e st -> visible st' = visible st -> R σ e st';
  el_assign : forall n c e run, ok_stmt n = true -> is_assign (sn_k n) = true -> ready c -> wfE c e ->
    wp (assign n e) c (fun e' c' => cx_inv chunk_models c' /\ extends c c' /\ wfE c' e' /\
      forall σ, stable c' σ -> runs [exec_node m run tick treat n] σ e e');
  el_merge : forall c sel e0 e1 base, ready c -> has c sel -> wfE c e0 -> wfE c e1 -> wfE c base ->
    wp (merge (Some sel) e0 e1 base) c (fun e' c' => cx_inv chunk_models c' /\ extends c c' /\ wfE c' e' /\
      forall σ st0 st1, stable c' σ -> binary (σ sel) = true -> R σ e0 st0 -> R σ e1 st1 ->
        R σ e' (if dns_eqb (σ sel) sH then st1 else st0))
}.
Context (L : env_laws).

(** ** Conditions *)

Definition holds (vs : list logic_t) (root : Z) : bool := dns_eqb (normalize_z_to_x (value vs root)) sH.
Definition bit_of (b : bool) : logic_t := if b then sH else sL.

Lemma eval_env c e root : ready c -> wfE c e -> 0 <= root ->
  wp (eval_in chunk_models chunk_nodes first_a nodes sig_nodes (env_of e) root) c (computes chunk_models c (fun σ v =>
    forall st, R σ e st -> v = value (ms_values st) root)).
Proof using L Hchunk Harena Hzops Hsig Hbin.
  intros Hc He Hr. eapply wp_mono; [apply eval_in_spec; [done|by apply (el_env L)|done]|]. intros r c' Hp.
  eapply computes_mono; [exact Hp|]. intros σ v _ H st HR. apply H. by eapply (el_carries L).
Qed.

Lemma branch_cond_spec c e root : ready c -> wfE c e -> 0 <= root ->
  wp (branch_cond chunk_models chunk_nodes first_a nodes sig_nodes env_of e root) c (computes chunk_models c (fun σ v =>
    forall st, R σ e st -> v = bit_of (holds (ms_values st) root))).
Proof using L Hchunk Harena Hzops Hsig Hbin.
  intros Hc He Hr. unfold branch_cond. eapply computes_bind; [by apply eval_env|]. intros raw c1 I1 E1 H1 P1.
  eapply computes_bind; [by apply const_node_spec|]. intros t c2 I2 E2 H2 P2.
  eapply wp_mono; [apply gate_case_eq_spec; [done|done|by apply E2|done]|]. intros r c3 Hp.
  apply (computes_from _ _ c2); [by etrans|]. eapply computes_mono; [exact Hp|]. intros σ v S3 -> st HR.
  destruct Hp as (_ & _ & _ & E3 & _). assert (S2 : stable c2 σ) by (by eapply stable_extends).
  assert (S1 : stable c1 σ) by (by eapply stable_extends). rewrite (P1 σ S1 st HR), (P2 σ S2). unfold holds. by destruct (value _ root).
Qed.

Lemma condition_spec n st : 0 <= sn_expr_root n -> sane st ->
  wp (condition m n) (st, Some fl_none) (fun t s' => t = holds (ms_values st) (sn_expr_root n) /\ s'.2 = Some fl_none /\
    visible s'.1 = visible st /\ sane s'.1).
Proof using Harena.
  intros Hr Hs. unfold condition. apply wp_bind. unfold wp at 1, lift. cbn [fst snd].
  pose proof (eval_spec m Harena (sn_expr_root n) st Hr Hs) as He. unfold wp in He. destruct (eval m _ st) as [[v st1]|]; [|done].
  destruct He as (-> & Ev & Hs1). by apply wp_ret.
Qed.

Lemma sim_from c c1 e ks r c' : extends c c1 -> sim c1 e ks r c' -> sim c e ks r c'.
Proof using Type. intros He (e' & -> & H1 & H2 & H3 & H4). exists e'. split_and!; try done. by etrans. Qed.

Lemma sim_mono c e ks1 ks2 r c' : sim c e ks1 r c' ->
  (forall σ e', stable c' σ -> runs ks1 σ e e' -> runs ks2 σ e e') -> sim c e ks2 r c'.
Proof using Type. intros (e' & -> & H1 & H2 & H3 & H4) H. exists e'. split_and!; try done. intros σ Hs. apply H; auto. Qed.

Lemma sim_ret c e : ready c -> wfE c e -> wp (mret (Some e) : Sy (option E)) c (sim c e []).
Proof using Type. intros [Hc _] He. apply wp_ret. exists e. by split_and!. Qed.

(** One lowering after another. *)
Lemma sim_bind c e ks1 ks2 (k : Sy (option E)) (f : E -> Sy (option E)) : wp k c (sim c e ks1) ->
  (forall e1 c1, ready c1 -> extends c c1 -> wfE c1 e1 -> wp (f e1) c1 (sim c1 e1 ks2)) -> ready c ->
  wp (r ← k; match r with Some e' => f e' | None => mret None end) c (sim c e (ks1 ++ ks2)).
Proof using Type.
  intros Hk Hf Hc. apply wp_bind. eapply wp_mono; [exact Hk|]. intros r c1 (e1 & -> & I1 & E1 & W1 & R1).
  eapply wp_mono; [apply Hf; [by eapply ready_extends|done|done]|]. intros r2 c2 (e2 & -> & I2 & E2 & W2 & R2).
  exists e2. split_and!; try done; [by etrans|]. intros σ Hs st Hst HR. apply wp_seq_app.
  eapply wp_seq_mono; [apply (R1 σ); [by eapply stable_extends|done|done]|]. intros [st1 f1] (Hf1 & Hs1 & HR1). simpl in *.
  subst f1. by apply (R2 σ).
Qed.

(** ** Joining two environments *)

Definition arrives (σ : valuation) (e : E) (s : xstate) : Prop := s.2 = Some fl_none /\ sane s.1 /\ R σ e s.1.

(** [e0] and [e1] are where [ks0] and [ks1] lead: the join is where the
    selected one leads. *)
Lemma join_seq σ sel e0 e1 e' ks0 ks1 s :
  (forall st0 st1, R σ e0 st0 -> R σ e1 st1 -> R σ e' (if dns_eqb (σ sel) sH then st1 else st0)) ->
  wp_seq ks0 s (arrives σ e0) -> wp_seq ks1 s (arrives σ e1) ->
  wp_seq (if dns_eqb (σ sel) sH then ks1 else ks0) s (arrives σ e').
Proof using Type.
  intros HR H0 H1. destruct (wp_seq_result _ _ _ H0) as ([st0 f0] & _ & _ & HR0).
  destruct (wp_seq_result _ _ _ H1) as ([st1 f1] & _ & _ & HR1). simpl in *. destruct (dns_eqb (σ sel) sH) eqn:Es.
  - eapply wp_seq_mono; [exact H1|]. intros s' (? & ? & H). split_and!; [done..|]. by apply (HR st0).
  - eapply wp_seq_mono; [exact H0|]. intros s' (? & ? & H). split_and!; [done..|]. by apply (HR s'.1 st1).
Qed.

Lemma merge_runs c sel e e0 e1 base ks0 ks1 : ready c -> has c sel -> wfE c e0 -> wfE c e1 -> wfE c base ->
  wp (merge (Some sel) e0 e1 base) c (fun e' c' => cx_inv chunk_models c' /\ extends c c' /\ wfE c' e' /\
    forall σ, stable c' σ -> binary (σ sel) = true -> runs ks0 σ e e0 -> runs ks1 σ e e1 ->
      runs (if dns_eqb (σ sel) sH then ks1 else ks0) σ e e').
Proof using L.
  intros Hc Hs W0 W1 Wb. eapply wp_mono; [by apply (el_merge L)|]. intros e' c' (I & Ex & W & HR). split_and!; [done..|].
  intros σ Hst Hb R0 R1 st Hsane HRe. apply (join_seq σ sel e0 e1); [|by apply R0|by apply R1]. intros st0 st1. by apply HR.
Qed.

Lemma bit_of_binary b : binary (bit_of b) = true.
Proof using Type. by destruct b. Qed.
Lemma bit_of_eqb b : dns_eqb (bit_of b) sH = b.
Proof using Type. by destruct b. Qed.

(** The same state up to the caches. *)
Lemma runs_visible ks σ e e' st st' : runs ks σ e e' -> sane st' -> R σ e st -> visible st' = visible st ->
  wp_seq ks (st', Some fl_none) (fun s' => s'.2 = Some fl_none /\ sane s'.1 /\ R σ e' s'.1).
Proof using L. intros Hr Hs HR Hv. apply Hr; [done|]. by eapply (el_visible L). Qed.

Lemma visible_values st st' : visible st' = visible st -> ms_values st' = ms_values st.
Proof using Type. by intros [= Hv _ _]. Qed.

(** ** Case items *)

Abbreviation bit_matchs := (bit_match chunk_models chunk_nodes).

Lemma bit_match_spec ck c z a b : ready c -> has c z -> has c a -> has c b ->
  wp (bit_matchs ck (Some z) (Some a) (Some b)) c
    (computes chunk_models c (fun σ v => σ z = sZ -> v = bit_of (bit_matches ck (σ a) (σ b)))).
Proof using Hchunk Hbin.
  intros [Hc Ho] Hz Ha Hb. unfold bit_match. eapply computes_bind; [by apply gate_case_eq_spec|]. intros q c1 I1 E1 H1 P1. destruct ck.
  - apply wp_ret. exists q. split_and!; [done..|]. intros σ S1 _. rewrite (P1 σ S1). unfold op_case_eq. by destruct (σ a), (σ b).
  - eapply computes_bind; [apply gate_case_eq_spec; [done|done|by apply E1..]|]. intros az c2 I2 E2 H2 P2.
    eapply computes_bind; [apply gate_case_eq_spec; [done|done|by apply E2, E1..]|]. intros bz c3 I3 E3 H3 P3.
    eapply computes_bind; [apply gate_or_spec; [done|done|by apply E3|done]|]. intros o c4 I4 E4 H4 P4.
    eapply wp_mono; [apply gate_or_spec; [done|done|by apply E4, E3, E2|done]|]. intros r c5 Hp.
    apply (computes_from _ _ c4); [etrans; [exact E1|]; etrans; [exact E2|]; by etrans|]. eapply computes_mono; [exact Hp|].
    intros σ v S5 Hv Ez. destruct Hp as (_ & _ & _ & E5 & _). assert (S4 : stable c4 σ) by (by eapply stable_extends).
    assert (S3 : stable c3 σ) by (by eapply stable_extends). assert (S2 : stable c2 σ) by (by eapply stable_extends).
    assert (S1 : stable c1 σ) by (by eapply stable_extends).
    specialize (P1 σ S1). specialize (P2 σ S2). specialize (P3 σ S3). specialize (P4 σ S4). cbv beta in *.
    rewrite Ez in P2, P3. rewrite P2, P3 in P4. rewrite P1, P4 in Hv; clear -Hv; [|by destruct (σ a)|by destruct (σ b)].
    destruct (σ a), (σ b); by apply Hv.
  - eapply computes_bind; [apply gate_is_unknown_spec; [done|done|by apply E1]|]. intros ua c2 I2 E2 H2 P2.
    eapply computes_bind; [apply gate_is_unknown_spec; [done|done|by apply E2, E1]|]. intros ub c3 I3 E3 H3 P3.
    eapply computes_bind; [apply gate_or_spec; [done|done|by apply E3|done]|]. intros o c4 I4 E4 H4 P4.
    eapply wp_mono; [apply gate_or_spec; [done|done|by apply E4, E3, E2|done]|]. intros r c5 Hp.
    apply (computes_from _ _ c4); [etrans; [exact E1|]; etrans; [exact E2|]; by etrans|]. eapply computes_mono; [exact Hp|].
    intros σ v S5 Hv _. destruct Hp as (_ & _ & _ & E5 & _). assert (S4 : stable c4 σ) by (by eapply stable_extends).
    assert (S3 : stable c3 σ) by (by eapply stable_extends). assert (S2 : stable c2 σ) by (by eapply stable_extends).
    assert (S1 : stable c1 σ) by (by eapply stable_extends).
    specialize (P1 σ S1). specialize (P2 σ S2). specialize (P3 σ S3). specialize (P4 σ S4). cbv beta in *.
    rewrite (ex_opt _ _ E1), Ho, Hbin in P2. rewrite (ex_opt _ _ E2), (ex_opt _ _ E1), Ho, Hbin in P3.
    rewrite P2, P3 in P4. rewrite P1, P4 in Hv; clear -Hv; [|by destruct (σ a)|by destruct (σ b)].
    destruct (σ a), (σ b); by apply Hv.
Qed.

(** What the simulator decides. *)
Definition bits_match (ck : case_kind) (vs : list logic_t) (key : list logic_t) (roots : list Z) : bool :=
  forallb (fun p => bit_matches ck p.1 (value vs p.2)) (zip key roots).
Definition item_fits (ck : case_kind) (vs key : list logic_t) (ci : case_item) : bool :=
  (length (ci_match_roots ci) =? length key)%nat && bits_match ck vs key (ci_match_roots ci).
Definition key_of (vs : list logic_t) (roots : list Z) : list logic_t := match roots with [] => [sX] | _ => map (value vs) roots end.
Definition chosen (ck : case_kind) (vs key : list logic_t) (items : list case_item) : option case_item :=
  match List.find (item_fits ck vs key) (other_items items) with Some ci => Some ci | None => last_default items end.

Lemma match_bits_spec ck z e : forall kps roots c p, ready c -> wfE c e -> has c z -> Forall (has c) kps -> has c p ->
  Forall (Z.le 0) roots -> length kps = length roots ->
  wp (match_bits chunk_models chunk_nodes first_a nodes sig_nodes ck (Some z) (env_of e) (map Some kps) roots (Some p)) c
    (computes chunk_models c (fun σ v => forall st b, R σ e st -> σ z = sZ -> σ p = bit_of b ->
       v = bit_of (b && bits_match ck (ms_values st) (map σ kps) roots))).
Proof using L Hchunk Harena Hzops Hsig Hbin.
  induction kps as [|k kps IH]; intros [|r roots] c p Hc He Hz Hk Hp Hr Hl; try done.
  { apply wp_ret. exists p. split_and!; try done; [apply Hc|]. intros σ _ st b _ _ ->. by rewrite andb_true_r. }
  apply Forall_cons in Hk as [Hk Hks]. apply Forall_cons in Hr as [Hr Hrs]. injection Hl as Hl. cbn [match_bits map].
  eapply computes_bind; [by apply eval_env|]. intros mb c1 I1 E1 H1 P1. assert (Hc1 : ready c1) by (by eapply ready_extends).
  eapply computes_bind; [apply bit_match_spec; [done|by apply E1|by apply E1|done]|]. intros q c2 I2 E2 H2 P2.
  assert (Hc2 : ready c2) by (by eapply ready_extends).
  eapply computes_bind; [apply gate_and_spec; [done|apply Hc2|by apply E2, E1|done]|]. intros p' c3 I3 E3 H3 P3.
  assert (Hc3 : ready c3) by (by eapply ready_extends). assert (E03 : extends c c3) by (etrans; [exact E1|]; by etrans).
  eapply wp_mono; [apply (IH roots c3 p'); try done; [by eapply (el_extends L)|by apply E03|]|].
  { eapply Forall_impl; [exact Hks|]. apply E03. }
  intros res c4 Hpost. apply (computes_from _ _ c3); [done|]. eapply computes_mono; [exact Hpost|].
  intros σ v S4 Hv st b HR Ez Ep. destruct Hpost as (_ & _ & _ & E4 & _). assert (S3 : stable c3 σ) by (by eapply stable_extends).
  assert (S2 : stable c2 σ) by (by eapply stable_extends). assert (S1 : stable c1 σ) by (by eapply stable_extends).
  pose proof (P1 σ S1 st HR) as Em. pose proof (P2 σ S2 Ez) as Eq. pose proof (P3 σ S3) as Ep'. cbv beta in Ep'. rewrite Em in Eq.
  rewrite Ep, Eq in Ep'. rewrite (Hv st (b && bit_matches ck (σ k) (value (ms_values st) r)) HR Ez).
  - unfold bits_match. cbn [map zip zip_with forallb fst snd]. by rewrite andb_assoc.
  - rewrite Ep' by (by destruct b, (bit_matches _ _ _)). by destruct b, (bit_matches _ _ _).
Qed.

Lemma item_match_spec ck z e kps ci c : ready c -> wfE c e -> has c z -> Forall (has c) kps -> Forall (Z.le 0) (ci_match_roots ci) ->
  wp (item_match chunk_models chunk_nodes first_a nodes sig_nodes ck (Some z) (env_of e) (map Some kps) ci) c
    (computes chunk_models c (fun σ v => forall st, R σ e st -> σ z = sZ ->
       v = bit_of (item_fits ck (ms_values st) (map σ kps) ci))).
Proof using L Hchunk Harena Hzops Hsig Hbin.
  intros Hc He Hz Hk Hr. unfold item_match, item_fits. rewrite length_map. destruct (_ =? _)%nat eqn:El; cbn [negb].
  - apply Nat.eqb_eq in El. eapply computes_bind; [apply const_node_spec; [done|apply Hc]|]. intros p c1 I1 E1 H1 P1.
    eapply wp_mono; [apply match_bits_spec; try done|].
    + by eapply ready_extends. + by eapply (el_extends L). + by apply E1. + eapply Forall_impl; [exact Hk|]. apply E1.
    + intros r c2 Hpost. apply (computes_from _ _ c1); [done|]. eapply computes_mono; [exact Hpost|]. intros σ v S2 Hv st HR Ez.
      rewrite length_map, El, Nat.eqb_refl. apply (Hv st true HR Ez). destruct Hpost as (_ & _ & _ & E2 & _).
      apply P1. by eapply stable_extends.
  - eapply wp_mono; [apply const_node_spec; [done|apply Hc]|]. intros r c1 Hp. eapply computes_mono; [exact Hp|]. intros σ v _ -> st _ _.
    by rewrite length_map, El.
Qed.

Lemma item_matches_spec ck : forall key roots st, Forall (Z.le 0) roots -> sane st ->
  wp (item_matches m ck key roots) st (fun b st' => b = bits_match ck (ms_values st) key roots /\ visible st' = visible st /\ sane st').
Proof using Harena.
  induction key as [|a key IH]; intros [|r roots] st Hr Hs; cbn [item_matches]; try by apply wp_ret.
  apply Forall_cons in Hr as [Hr Hrs]. apply wp_bind. eapply wp_mono; [by apply eval_spec|]. intros v s1 (-> & V1 & S1).
  unfold bits_match. cbn [zip zip_with forallb fst snd]. destruct (bit_matches ck a _); [|by apply wp_ret].
  eapply wp_mono; [by apply IH|]. intros b s2 (-> & V2 & S2). rewrite (visible_values _ _ V1). split_and!; [done|congruence|done].
Qed.

Lemma choose_item_ref ck key items : Forall (fun ci => Forall (Z.le 0) (ci_match_roots ci)) items -> forall def st, sane st ->
  wp (choose_item m ck key items def) st (fun r st' =>
    r = match chosen ck (ms_values st) key items with Some ci => Some ci | None => def end /\ visible st' = visible st /\ sane st').
Proof using Harena.
  unfold chosen, other_items, last_default. induction 1 as [|ci items Hci Hi IH]; intros def st Hs; [by apply wp_ret|].
  cbn [choose_item List.filter]. destruct (ci_is_default ci) eqn:Ed; cbn [negb].
  { eapply wp_mono; [by apply IH|]. intros r st' (-> & V & S'). split_and!; [|done..].
    destruct (List.find _ _); [done|]. destruct (List.filter ci_is_default items) as [|d l]; [done|].
    change (last (ci :: d :: l)) with (last (d :: l)). destruct (last (d :: l)) eqn:Ela; [done|]. by apply last_None in Ela. }
  cbn [List.find]. destruct (length (ci_match_roots ci) =? length key)%nat eqn:El; cbn [negb].
  - apply wp_bind. eapply wp_mono; [by apply item_matches_spec|]. intros b s1 (-> & V1 & S1). unfold item_fits at 1. rewrite El.
    cbn [andb]. destruct (bits_match _ _ _ _); [by apply wp_ret|]. eapply wp_mono; [by apply IH|]. intros r s2 (-> & V2 & S2).
    rewrite (visible_values _ _ V1). split_and!; [done|congruence|done].
  - unfold item_fits at 1. rewrite El. cbn [andb]. by apply IH.
Qed.

Lemma case_key_spec roots st : Forall (Z.le 0) roots -> sane st ->
  wp (case_key m roots) st (fun key st' => key = key_of (ms_values st) roots /\ visible st' = visible st /\ sane st').
Proof using Harena. intros Hr Hs. destruct roots as [|r roots]; [by apply wp_ret|]. by apply samples_spec. Qed.

Lemma smap_eval_spec roots : forall c e, ready c -> wfE c e -> Forall (Z.le 0) roots ->
  wp (smap (eval_in chunk_models chunk_nodes first_a nodes sig_nodes (env_of e)) roots) c (fun l c' =>
    exists ps, l = map Some ps /\ cx_inv chunk_models c' /\ extends c c' /\ Forall (has c') ps /\
      forall σ st, stable c' σ -> R σ e st -> map σ ps = map (value (ms_values st)) roots).
Proof using L Hchunk Harena Hzops Hsig Hbin.
  induction roots as [|r roots IH]; intros c e Hc He Hr; cbn [smap].
  { apply wp_ret. exists []. split_and!; try done. apply Hc. }
  apply Forall_cons in Hr as [Hr Hrs]. apply wp_bind. eapply wp_mono; [by apply eval_env|]. intros x c1 (p & -> & I1 & E1 & H1 & P1).
  assert (Hc1 : ready c1) by (by eapply ready_extends). apply wp_bind.
  eapply wp_mono; [apply IH; [done|by eapply (el_extends L)|done]|]. intros l c2 (ps & -> & I2 & E2 & H2 & P2). apply wp_ret.
  exists (p :: ps). split_and!; [done|done|by etrans| |].
  - constructor; [by apply E2|done].
  - intros σ st S2 HR. cbn [map]. rewrite (P2 σ st) by done. f_equal. apply P1; [by eapply stable_extends|done].
Qed.

Lemma case_keys_spec c e roots : ready c -> wfE c e -> Forall (Z.le 0) roots ->
  wp (case_keys chunk_models chunk_nodes first_a nodes sig_nodes (env_of e) roots) c (fun l c' =>
    exists ps, l = map Some ps /\ cx_inv chunk_models c' /\ extends c c' /\ Forall (has c') ps /\
      forall σ st, stable c' σ -> R σ e st -> map σ ps = key_of (ms_values st) roots).
Proof using L Hchunk Harena Hzops Hsig Hbin.
  intros Hc He Hr. destruct roots as [|r roots]; [|by apply smap_eval_spec]. unfold case_keys. apply wp_bind.
  eapply wp_mono; [apply const_node_spec; [done|apply Hc]|]. intros x c1 (p & -> & I1 & E1 & H1 & P1). apply wp_ret. exists [p].
  split_and!; try done; [by constructor|]. intros σ st S1 _. cbn. by rewrite (P1 σ S1).
Qed.

Section Node.
Context (run : Z -> E -> Sy (option E)) (xrun : Z -> X bool) (ok_at : Z -> Prop).
Context (Hrun : forall i c e, ok_at i -> ready c -> wfE c e -> wp (run i e) c (sim c e [xrun i])).
#[local] Set Default Proof Using "Type*".

Lemma sim_list l : forall c e, Forall ok_at l -> ready c -> wfE c e -> wp (run_list run l e) c (sim c e (map xrun l)).
Proof.
  induction l as [|x l IH]; intros c e Hl Hc He; [by apply sim_ret|]. apply Forall_cons in Hl as [Hx Hl]. cbn [run_list map].
  apply (sim_bind c e [xrun x] (map xrun l)); [by apply Hrun| |done]. intros e1 c1 Hc1 _ He1. by apply IH.
Qed.

(** The parts of a loop that are there. *)
Lemma sim_parts is_ c e : Forall (fun i => i = SIZE_MAX \/ ok_at i) is_ -> ready c -> wfE c e ->
  wp (run_list run (concat (map present is_)) e) c (sim c e (map (run_opt xrun) is_)).
Proof.
  intros Hi Hc He.
  assert (Hok : Forall ok_at (concat (map present is_))).
  { induction Hi as [|i is_ H Hi IH]; simpl; [constructor|]. apply Forall_app. split; [|done]. unfold present.
    destruct (i =? SIZE_MAX) eqn:Ei; [constructor|]. apply Z.eqb_neq in Ei. constructor; [by destruct H|constructor]. }
  eapply wp_mono; [by apply sim_list|]. intros r c' Hsim. eapply sim_mono; [exact Hsim|]. intros σ e' _ Hr st Hs HR.
  specialize (Hr st Hs HR). clear -Hr. revert st Hr. generalize (R σ e'). intros P.
  induction is_ as [|i is_ IH]; intros st Hr; [done|]. cbn [map concat wp_seq] in *. unfold run_opt at 1. unfold present at 1 in Hr.
  destruct (i =? SIZE_MAX); [apply wp_ret; split; [done|by apply IH]|]. cbn [map app wp_seq] in Hr. eapply wp_mono; [exact Hr|].
  intros b [st1 f1] [Hf H1]. simpl in Hf. subst f1. split; [done|]. by apply IH.
Qed.

Lemma sim_if n c e : 0 <= sn_expr_root n -> sn_k n = sk_if_stmt -> Forall ok_at (sn_stmts n) -> Forall ok_at (sn_else_stmts n) ->
  ready c -> wfE c e ->
  wp (synth_node chunk_models chunk_nodes first_a nodes sig_nodes env_of assign merge run n e) c
    (sim c e [exec_node m xrun tick treat n]).
Proof.
  intros Hr Hk Ht Hf Hc He. unfold synth_node. rewrite Hk. apply wp_bind. eapply wp_mono; [by apply branch_cond_spec|].
  intros cond c1 (sel & -> & I1 & E1 & H1 & P1). assert (Hc1 : ready c1) by (by eapply ready_extends).
  assert (He1 : wfE c1 e) by (by eapply (el_extends L)). apply wp_bind. eapply wp_mono; [by apply (sim_list (sn_stmts n) c1 e)|].
  intros r1 c2 (t & -> & I2 & E2 & W2 & R2). assert (Hc2 : ready c2) by (by eapply ready_extends).
  assert (He2 : wfE c2 e) by (by eapply (el_extends L)). apply wp_bind. eapply wp_mono; [by apply (sim_list (sn_else_stmts n) c2 e)|].
  intros r2 c3 (f & -> & I3 & E3 & W3 & R3). assert (Hc3 : ready c3) by (by eapply ready_extends). apply wp_bind.
  eapply wp_mono; [apply (merge_runs c3 sel e f t e (map xrun (sn_else_stmts n)) (map xrun (sn_stmts n)) Hc3)|].
  { by apply E3, E2. } { done. } { by eapply (el_extends L). } { by eapply (el_extends L). }
  intros e' c4 (I4 & E4 & W4 & R4). apply wp_ret. exists e'. split_and!; [done|done| |done|].
  { etrans; [exact E1|]. etrans; [exact E2|]. by etrans. }
  intros σ S4 st Hs HR. assert (S3 : stable c3 σ) by (by eapply stable_extends). assert (S2 : stable c2 σ) by (by eapply stable_extends).
  assert (S1 : stable c1 σ) by (by eapply stable_extends). pose proof (P1 σ S1 st HR) as Esel.
  cbn [wp_seq]. unfold exec_node. rewrite Hk. apply wp_bind. eapply wp_mono; [by apply condition_spec|].
  intros t0 [st1 f1] (-> & Hf1 & Hv & Hs1). simpl in Hf1, Hv, Hs1. subst f1.
  specialize (R4 σ S4). rewrite Esel, bit_of_eqb, bit_of_binary in R4. specialize (R4 eq_refl (R3 σ S3) (R2 σ S2)).
  eapply wp_mono with (P := fun _ s' => s'.2 = Some fl_none /\ sane s'.1 /\ R σ e' s'.1); [|by intros ? ? (? & ? & ?)].
  destruct (holds (ms_values st) (sn_expr_root n)); (eapply exec_list_seq, runs_visible; [exact R4|done..]).
Qed.

(** ** Loops

    What the three loops of the simulator have in common: [K it] runs at most
    [it] rounds; a round tests the condition and runs the parts. *)
Section Loop.
Context (root : Z) (parts : list Z) (K : nat -> X bool).
Context (Hroot : 0 <= root) (Hparts : Forall (fun i => i = SIZE_MAX \/ ok_at i) parts).
Context (K0 : forall st (Q : xstate -> Prop), sane st ->
  (forall st', visible st' = visible st -> sane st' -> Q (st', Some fl_none)) -> wp (K 0) (st, Some fl_none) (fun _ s => Q s)).
Context (KS : forall it st (Q : xstate -> Prop), sane st ->
  (forall st', visible st' = visible st -> sane st' ->
    if holds (ms_values st) root
    then wp_seq (map (run_opt xrun) parts) (st', Some fl_none) (fun s' => s'.2 = Some fl_none /\ sane s'.1 /\ wp (K it) s' (fun _ s => Q s))
    else Q (st', Some fl_none)) ->
  wp (K (S it)) (st, Some fl_none) (fun _ s => Q s)).

(** A loop whose condition is false does nothing. *)
Lemma loop_stops it st : sane st -> holds (ms_values st) root = false ->
  wp (K it) (st, Some fl_none) (fun _ s => s.2 = Some fl_none /\ sane s.1 /\ visible s.1 = visible st).
Proof using K0 KS.
  intros Hs Hh. destruct it as [|it]; [by apply K0|]. apply KS; [done|]. intros st' Hv Hs'. by rewrite Hh.
Qed.

Lemma round_skipped it σ e' e'' st : runs [K it] σ e' e'' -> sane st -> R σ e' st -> holds (ms_values st) root = false ->
  forall st', visible st' = visible st -> R σ e'' st'.
Proof using L K0 KS.
  intros Hr Hs HR Hh st' Hv. pose proof (Hr st Hs HR) as H1. pose proof (loop_stops it st Hs Hh) as H2. cbn [wp_seq] in H1.
  unfold wp in H1, H2. destruct (K it (st, Some fl_none)) as [[b [s1 f1]]|]; [|done].
  destruct H1 as (_ & _ & _ & H1), H2 as (_ & _ & H2). simpl in H1, H2. eapply (el_visible L); [exact H1|congruence].
Qed.

Abbreviation unrolled := (unroll chunk_models chunk_nodes first_a nodes sig_nodes env_of merge run root (concat (map present parts))).

(** The three outcomes of a round of the unrolling. *)
Lemma runs_end it σ e : (forall st, R σ e st -> holds (ms_values st) root = false) -> runs [K (S it)] σ e e.
Proof using L KS.
  intros Hh st Hs HR. cbn [wp_seq]. apply (KS it st (fun s => s.2 = Some fl_none /\ s.2 = Some fl_none /\ sane s.1 /\ R σ e s.1) Hs).
  intros st' Hv Hs'. rewrite (Hh st HR). split_and!; [done..|]. by eapply (el_visible L).
Qed.

Lemma runs_round it σ e t e' : runs (map (run_opt xrun) parts) σ e t -> runs [K it] σ t e' ->
  (forall st, R σ e st -> holds (ms_values st) root = true) -> runs [K (S it)] σ e e'.
Proof using L KS.
  intros Ht Hk Hh st Hs HR. cbn [wp_seq]. apply (KS it st (fun s => s.2 = Some fl_none /\ s.2 = Some fl_none /\ sane s.1 /\ R σ e' s.1) Hs).
  intros st' Hv Hs'. rewrite (Hh st HR). eapply wp_seq_mono; [by eapply runs_visible|]. intros [s1 f1] (Hf1 & Hs1 & HR1). simpl in *.
  subst f1. split_and!; [done..|]. by apply (Hk s1 Hs1 HR1).
Qed.

Lemma runs_join it σ e t j e' sel : runs (map (run_opt xrun) parts) σ e t ->
  (forall st, R σ e st -> σ sel = bit_of (holds (ms_values st) root)) ->
  runs (if dns_eqb (σ sel) sH then map (run_opt xrun) parts else []) σ e j -> runs [K it] σ j e' -> runs [K (S it)] σ e e'.
Proof using L K0 KS.
  intros Ht Hsel Hj Hk st Hs HR. pose proof (Hsel st HR) as Es. rewrite Es, bit_of_eqb in Hj.
  destruct (holds (ms_values st) root) eqn:Eh.
  - cbn [wp_seq]. apply (KS it st (fun s => s.2 = Some fl_none /\ s.2 = Some fl_none /\ sane s.1 /\ R σ e' s.1) Hs).
    intros st' Hv Hs'. rewrite Eh. eapply wp_seq_mono; [by eapply runs_visible|]. intros [s1 f1] (Hf1 & Hs1 & HR1). simpl in *.
    subst f1. split_and!; [done..|]. by apply (Hk s1 Hs1 HR1).
  - cbn [wp_seq]. apply (KS it st (fun s => s.2 = Some fl_none /\ s.2 = Some fl_none /\ sane s.1 /\ R σ e' s.1) Hs).
    intros st' Hv Hs'. rewrite Eh. split_and!; [done..|]. simpl. destruct (Hj st Hs HR) as (_ & _ & HRj). simpl in HRj.
    by eapply (round_skipped it σ j e' st).
Qed.

Lemma unroll_sim iter : forall c e, ready c -> wfE c e -> wp (unrolled iter e) c (sim c e [K iter]).
Proof.
  induction iter as [|iter IH]; intros c e Hc He.
  { apply wp_ret. exists e. split_and!; try done; [apply Hc|]. intros σ _ st Hs HR. cbn [wp_seq].
    apply (K0 st (fun s => s.2 = Some fl_none /\ s.2 = Some fl_none /\ sane s.1 /\ R σ e s.1) Hs). intros st' Hv Hs'. split_and!; [done..|].
    by eapply (el_visible L). }
  cbn [unroll]. apply wp_bind. eapply wp_mono; [by apply branch_cond_spec|]. intros cond c1 (sel & -> & I1 & E1 & H1 & P1).
  assert (Hc1 : ready c1) by (by eapply ready_extends). assert (He1 : wfE c1 e) by (by eapply (el_extends L)).
  apply wp_bind. unfold wp at 1, try_get_const.
  assert (Hknown : forall v c2 σ, find_const (const_nodes c1) (Some sel) = Some v -> extends c1 c2 -> stable c2 σ ->
    forall st, R σ e st -> bit_of (holds (ms_values st) root) = v).
  { intros v c2 σ Hv He2 Hs st HR. assert (Hs1 : stable c1 σ) by (by eapply stable_extends). rewrite <- (P1 σ Hs1 st HR).
    by eapply find_const_state. }
  assert (Hround : wp (run_list run (concat (map present parts)) e) c1 (sim c1 e (map (run_opt xrun) parts))) by (by apply sim_parts).
  assert (Hdefault : wp (r ← run_list run (concat (map present parts)) e;
      match r with Some t => e' ← merge (Some sel) e t e; unrolled iter e' | None => mret None end) c1 (sim c e [K (S iter)])).
  { apply wp_bind. eapply wp_mono; [exact Hround|]. intros r c2 (t & -> & I2 & E2 & W2 & R2).
    assert (Hc2 : ready c2) by (by eapply ready_extends). assert (He2 : wfE c2 e) by (by eapply (el_extends L)). apply wp_bind.
    eapply wp_mono; [apply (merge_runs c2 sel e e t e [] (map (run_opt xrun) parts)); try done; by apply E2|].
    intros j c3 (I3 & E3 & W3 & R3). eapply wp_mono; [apply IH; [by eapply ready_extends|done]|].
    intros r4 c4 (e4 & -> & I4 & E4 & W4 & R4). exists e4. split_and!; try done.
    { etrans; [exact E1|]. etrans; [exact E2|]. by etrans. }
    intros σ S4. assert (S3 : stable c3 σ) by (by eapply stable_extends). assert (S2 : stable c2 σ) by (by eapply stable_extends).
    assert (S1 : stable c1 σ) by (by eapply stable_extends). intros st Hs HR. pose proof (P1 σ S1 st HR) as Es.
    apply (runs_join iter σ e t j e4 sel); [by apply R2|by apply P1| |by apply R4|done|done].
    apply R3; [done| | |by apply R2]. { by rewrite Es, bit_of_binary. } intros st2 Hs2 HR2. by split_and!. }
  destruct (find_const (const_nodes c1) (Some sel)) as [[]|] eqn:Ev; try exact Hdefault.
  - apply wp_ret. exists e. split_and!; try done. intros σ S1. apply runs_end. intros st HR.
    pose proof (Hknown _ c1 σ eq_refl ltac:(reflexivity) S1 st HR) as Hb. by destruct (holds _ _).
  - apply wp_bind. eapply wp_mono; [exact Hround|]. intros r c2 (t & -> & I2 & E2 & W2 & R2).
    eapply wp_mono; [apply IH; [by eapply ready_extends|done]|]. intros r3 c3 (e3 & -> & I3 & E3 & W3 & R3). exists e3.
    split_and!; try done. { etrans; [exact E1|]. by etrans. }
    intros σ S3. assert (S2 : stable c2 σ) by (by eapply stable_extends). apply (runs_round iter σ e t e3); [by apply R2|by apply R3|].
    intros st HR. pose proof (Hknown _ c2 σ eq_refl E2 S2 st HR) as Hb. by destruct (holds _ _).
Qed.
End Loop.

(** ** The case statement *)

Section Case.
Context (ck : case_kind) (z : node_ptr) (base : E) (kps : list node_ptr) (kd : list (X bool)).

(** [agg] is where the choice among [suf] leads, or else [kd]. *)
Definition picks (suf : list case_item) (agg : E) (c : synth_context) : Prop := forall σ st, stable c σ -> σ z = sZ -> sane st ->
  R σ base st ->
  wp_seq (match List.find (item_fits ck (ms_values st) (map σ kps)) suf with Some ci => map xrun (ci_stmts ci) | None => kd end)
    (st, Some fl_none) (arrives σ agg).

Lemma picks_extends suf agg c c' : extends c c' -> picks suf agg c -> picks suf agg c'.
Proof using Type. intros He Hp σ st Hs. apply Hp. by eapply stable_extends. Qed.

Lemma join_sim l : forall suf c agg, ready c -> wfE c base -> has c z -> Forall (has c) kps -> wfE c agg ->
  Forall (fun ci => Forall (Z.le 0) (ci_match_roots ci) /\ Forall ok_at (ci_stmts ci)) l -> picks suf agg c ->
  wp (join_items chunk_models chunk_nodes first_a nodes sig_nodes env_of merge run ck (Some z) base (map Some kps) l agg) c (fun r c' =>
    exists agg', r = Some agg' /\ cx_inv chunk_models c' /\ extends c c' /\ wfE c' agg' /\ picks (rev l ++ suf) agg' c').
Proof.
  induction l as [|ci l IH]; intros suf c agg Hc Wb Hz Hk Wa Hl Hp; cbn [join_items].
  { apply wp_ret. exists agg. split_and!; try done. apply Hc. }
  apply Forall_cons in Hl as [[Hr Hst] Hl]. apply wp_bind. eapply wp_mono; [by apply item_match_spec|].
  intros mm c1 (sel & -> & I1 & E1 & H1 & P1). assert (Hc1 : ready c1) by (by eapply ready_extends). apply wp_bind.
  eapply wp_mono; [apply (sim_list (ci_stmts ci) c1 base); [done|done|by eapply (el_extends L)]|].
  intros r c2 (item & -> & I2 & E2 & W2 & R2). assert (Hc2 : ready c2) by (by eapply ready_extends).
  assert (E02 : extends c c2) by (by etrans). apply wp_bind.
  eapply wp_mono; [apply (el_merge L c2 sel agg item agg); try done; [by apply E2|by eapply (el_extends L)..]|].
  intros agg2 c3 (I3 & E3 & W3 & R3). assert (E03 : extends c c3) by (by etrans).
  eapply wp_mono; [apply (IH (ci :: suf) c3 agg2)|].
  - by eapply ready_extends.
  - by eapply (el_extends L).
  - by apply E03.
  - eapply Forall_impl; [exact Hk|]. apply E03.
  - done.
  - done.
  - intros σ st S3 Ez Hs HR. assert (S2 : stable c2 σ) by (by eapply stable_extends). assert (S1 : stable c1 σ) by (by eapply stable_extends).
    pose proof (P1 σ S1 st HR Ez) as Es.
    pose proof (fun ks0 => join_seq σ sel agg item agg2 ks0 (map xrun (ci_stmts ci)) (st, Some fl_none)) as Hj. rewrite Es, bit_of_eqb in Hj.
    cbn [List.find]. eapply wp_seq_mono with (P := arrives σ agg2); [|done].
    specialize (R3 σ). rewrite Es, bit_of_eqb, bit_of_binary in R3.
    pose proof (Hj _ ltac:(intros; by apply R3) (picks_extends _ _ _ _ E02 Hp σ st S2 Ez Hs HR) (R2 σ S2 st Hs HR)) as Hres.
    by destruct (item_fits _ _ _ _).
  - intros r c4 (agg' & -> & I4 & E4 & W4 & P4). exists agg'. split_and!; try done; [by etrans|]. simpl. by rewrite <- app_assoc.
Qed.
End Case.

Lemma sim_case n c e : sn_k n = sk_case_stmt -> Forall (Z.le 0) (sn_case_expr_roots n) ->
  Forall (fun ci => Forall (Z.le 0) (ci_match_roots ci)) (sn_case_items n) -> Forall ok_at (concat (map ci_stmts (sn_case_items n))) ->
  ready c -> wfE c e ->
  wp (synth_case chunk_models chunk_nodes first_a nodes sig_nodes env_of merge run n e) c (sim c e [exec_node m xrun tick treat n]).
Proof.
  intros Hk Hkey Hroots Hst Hc He. apply Forall_concat_map in Hst. unfold synth_case. apply wp_bind.
  eapply wp_mono; [by apply case_keys_spec|]. intros keys c1 (kps & -> & I1 & E1 & H1 & P1). assert (Hc1 : ready c1) by (by eapply ready_extends).
  apply wp_bind. eapply wp_mono; [apply const_node_spec; [done|apply Hc1]|]. intros zz c2 (z & -> & I2 & E2 & H2 & P2).
  assert (Hc2 : ready c2) by (by eapply ready_extends). assert (E02 : extends c c2) by (by etrans).
  assert (He2 : wfE c2 e) by (by eapply (el_extends L)). apply wp_bind.
  set (kd := match last_default (sn_case_items n) with Some d => map xrun (ci_stmts d) | None => [] end).
  assert (Hd : wp (match last_default (sn_case_items n) with Some d => run_list run (ci_stmts d) e | None => mret (Some e) end) c2 (sim c2 e kd)).
  { unfold kd. destruct (last_default (sn_case_items n)) as [d|] eqn:Ed; [|by apply sim_ret]. apply sim_list; [|done|done].
    unfold last_default in Ed. apply last_Some_elem_of, list_elem_of_In, filter_In in Ed as [Ed _].
    rewrite Forall_forall in Hst. apply Hst. by apply list_elem_of_In. }
  eapply wp_mono; [exact Hd|]. intros r c3 (agg & -> & I3 & E3 & W3 & R3). assert (E03 : extends c c3) by (by etrans).
  eapply wp_mono; [apply (join_sim (sn_ck n) z e kps kd (rev (other_items (sn_case_items n))) [] c3 agg)|].
  - by eapply ready_extends.
  - by eapply (el_extends L).
  - by apply E3.
  - eapply Forall_impl; [exact H1|]. intros x Hx. by apply E3, E2.
  - done.
  - apply Forall_forall. intros ci Hin. apply list_elem_of_In, in_rev, filter_In in Hin as [Hin _]. apply list_elem_of_In in Hin.
    rewrite Forall_forall in Hroots, Hst. auto.
  - intros σ st S3 _ Hs HR. by apply (R3 σ S3).
  - rewrite rev_involutive, app_nil_r. intros r c4 (e' & -> & I4 & E4 & W4 & P4). exists e'. split_and!; try done; [by etrans|].
    intros σ S4 st Hs HR. assert (S3 : stable c3 σ) by (by eapply stable_extends). assert (S2 : stable c2 σ) by (by eapply stable_extends).
    assert (S1 : stable c1 σ) by (by eapply stable_extends). cbn [wp_seq]. unfold exec_node. rewrite Hk. apply wp_bind.
    unfold wp at 1, lift. cbn [fst snd]. pose proof (case_key_spec (sn_case_expr_roots n) st Hkey Hs) as Hck. unfold wp in Hck.
    destruct (case_key m _ st) as [[key st1]|]; [|done]. destruct Hck as (-> & V1 & Hs1). apply wp_bind. unfold wp at 1, lift. cbn [fst snd].
    pose proof (choose_item_ref (sn_ck n) (key_of (ms_values st) (sn_case_expr_roots n)) _ Hroots None st1 Hs1) as Hch. unfold wp in Hch.
    destruct (choose_item m _ _ _ _ st1) as [[ch st2]|]; [|done]. destruct Hch as (-> & V2 & Hs2).
    assert (HR2 : R σ e st2) by (eapply (el_visible L); [exact HR|congruence]).
    assert (Ev : ms_values st2 = ms_values st) by (apply visible_values; congruence).
    pose proof (P4 σ st2 S4 (P2 σ S2) Hs2 HR2) as Hw. rewrite Ev, (P1 σ st S1 HR) in Hw. unfold chosen.
    rewrite (visible_values _ _ V1).
    eapply wp_mono with (P := fun _ => arrives σ e'); [|intros ? ? Ha; by split; [apply Ha|]].
    destruct (List.find _ _) as [ci|]; [by apply exec_list_seq|]. unfold kd in Hw.
    destruct (last_default _) as [d|]; [by apply exec_list_seq|]. by apply wp_ret.
Qed.

(** ** The loops of the simulator *)

Lemma wp_get_flow_none {A} st (k : flow_kind -> X A) Q : wp (k fl_none) (st, Some fl_none) Q -> wp (f ← get_flow; k f) (st, Some fl_none) Q.
Proof using Type. intros H. by apply wp_bind. Qed.
Lemma wp_after_body {A} st (k : bool -> X A) Q : wp (k true) (st, Some fl_none) Q -> wp (b ← after_body; k b) (st, Some fl_none) Q.
Proof using Type. intros H. apply wp_bind. unfold after_body. by apply wp_get_flow_none, wp_ret. Qed.

Lemma for_loop_round n it st (Q : xstate -> Prop) : 0 <= sn_expr_root n -> sane st ->
  (forall st', visible st' = visible st -> sane st' ->
    if holds (ms_values st) (sn_expr_root n)
    then wp_seq (map (run_opt xrun) [sn_body_stmt n; sn_step_stmt n]) (st', Some fl_none)
      (fun s' => s'.2 = Some fl_none /\ sane s'.1 /\ wp (for_loop m xrun n it) s' (fun _ s => Q s))
    else Q (st', Some fl_none)) ->
  wp (for_loop m xrun n (S it)) (st, Some fl_none) (fun _ s => Q s).
Proof using Harena.
  intros Hr Hs HQ. cbn [for_loop]. apply wp_get_flow_none. apply wp_bind. eapply wp_mono; [by apply condition_spec|].
  intros t [st1 f1] (-> & Hf1 & V1 & S1). simpl in Hf1, V1, S1. subst f1. specialize (HQ st1 V1 S1).
  destruct (holds _ _); [|by apply wp_ret]. apply wp_bind. cbn [map wp_seq] in HQ. eapply wp_mono; [exact HQ|].
  intros c1 [st2 f2] [Hf2 H2]. simpl in Hf2. subst f2. apply wp_after_body. apply wp_bind. eapply wp_mono; [exact H2|].
  intros c2 [st3 f3] (Hf3 & _ & _ & H3). apply wp_bind. eapply wp_mono; [exact H3|]. intros c3 s3 HQ3. by apply wp_ret.
Qed.

Lemma while_loop_round n it st (Q : xstate -> Prop) : 0 <= sn_expr_root n -> sane st ->
  (forall st', visible st' = visible st -> sane st' ->
    if holds (ms_values st) (sn_expr_root n)
    then wp_seq (map (run_opt xrun) [sn_body_stmt n]) (st', Some fl_none)
      (fun s' => s'.2 = Some fl_none /\ sane s'.1 /\ wp (while_loop m xrun n it) s' (fun _ s => Q s))
    else Q (st', Some fl_none)) ->
  wp (while_loop m xrun n (S it)) (st, Some fl_none) (fun _ s => Q s).
Proof using Harena.
  intros Hr Hs HQ. cbn [while_loop]. apply wp_after_body. apply wp_bind. eapply wp_mono; [by apply condition_spec|].
  intros t [st1 f1] (-> & Hf1 & V1 & S1). simpl in Hf1, V1, S1. subst f1. specialize (HQ st1 V1 S1).
  destruct (holds _ _); [|by apply wp_ret]. apply wp_bind. cbn [map wp_seq] in HQ. eapply wp_mono; [exact HQ|].
  intros c1 [st2 f2] [Hf2 (_ & _ & H2)]. simpl in Hf2. subst f2. apply wp_after_body. apply wp_bind. eapply wp_mono; [exact H2|].
  intros c3 s3 HQ3. by apply wp_ret.
Qed.

(** A [do] loop after its body: the test, and the rest of the rounds. *)
Definition do_rest (n : stmt_node) (it : nat) : X bool :=
  t ← condition m n; if (t : bool) then do_while_loop m xrun n it else mret false.

Lemma do_rest_start n st (Q : xstate -> Prop) : 0 <= sn_expr_root n -> sane st ->
  (forall st', visible st' = visible st -> sane st' -> Q (st', Some fl_none)) -> wp (do_rest n 0) (st, Some fl_none) (fun _ s => Q s).
Proof using Harena.
  intros Hr Hs HQ. unfold do_rest. apply wp_bind. eapply wp_mono; [by apply condition_spec|].
  intros t [st1 f1] (_ & Hf1 & V1 & S1). simpl in Hf1, V1, S1. subst f1. destruct t; by apply wp_ret, HQ.
Qed.

Lemma do_body_then n it st (Q : xstate -> Prop) : wp_seq (map (run_opt xrun) [sn_body_stmt n]) (st, Some fl_none)
    (fun s' => s'.2 = Some fl_none /\ wp (do_rest n it) s' (fun _ s => Q s)) ->
  wp (do_while_loop m xrun n (S it)) (st, Some fl_none) (fun _ s => Q s).
Proof using Type.
  intros HQ. cbn [do_while_loop]. apply wp_after_body. apply wp_bind. cbn [map wp_seq] in HQ. eapply wp_mono; [exact HQ|].
  intros c1 [st2 f2] [Hf2 (_ & H2)]. simpl in Hf2. subst f2. apply wp_after_body. apply wp_bind. unfold do_rest in H2.
  apply wp_bind_inv in H2. eapply wp_mono; [exact H2|]. intros [] s3 H3; [|by apply wp_ret]. apply wp_bind.
  eapply wp_mono; [exact H3|]. intros c3 s4 HQ4. by apply wp_ret.
Qed.

Lemma do_rest_round n it st (Q : xstate -> Prop) : 0 <= sn_expr_root n -> sane st ->
  (forall st', visible st' = visible st -> sane st' ->
    if holds (ms_values st) (sn_expr_root n)
    then wp_seq (map (run_opt xrun) [sn_body_stmt n]) (st', Some fl_none)
      (fun s' => s'.2 = Some fl_none /\ sane s'.1 /\ wp (do_rest n it) s' (fun _ s => Q s))
    else Q (st', Some fl_none)) ->
  wp (do_rest n (S it)) (st, Some fl_none) (fun _ s => Q s).
Proof using Harena.
  intros Hr Hs HQ. unfold do_rest at 1. apply wp_bind. eapply wp_mono; [by apply condition_spec|].
  intros t [st1 f1] (-> & Hf1 & V1 & S1). simpl in Hf1, V1, S1. subst f1. specialize (HQ st1 V1 S1).
  destruct (holds _ _); [|by apply wp_ret]. apply do_body_then. eapply wp_seq_mono; [exact HQ|]. by intros s' (? & _ & ?).
Qed.

(** ** One statement *)

Context (Hlimit : forall n, ok_stmt n = true -> is_loop (sn_k n) = true -> loop_unroll_limit opt = max_iter).
Context (Hjump : forall n, ok_stmt n = true -> is_jump (sn_k n) = false).
Context (Hroots : forall n, ok_stmt n = true -> Forall (Z.le 0) (roots_used n)).

Lemma present_ok i : Forall ok_at (present i) -> i = SIZE_MAX \/ ok_at i.
Proof using Type. unfold present. destruct (i =? SIZE_MAX) eqn:Ei; [left; by apply Z.eqb_eq|]. intros [H _]%Forall_cons. by right. Qed.

Lemma wp_limit {A} c (k : nat -> Sy A) Q : ready c -> wp (k (loop_unroll_limit opt)) c Q -> wp (l ← option_of loop_unroll_limit; k l) c Q.
Proof using Type. intros [_ Ho] H. apply wp_bind. unfold wp at 1, option_of. by rewrite Ho. Qed.

Lemma sim_loops n c e : ok_stmt n = true -> is_loop (sn_k n) = true -> 0 <= sn_expr_root n -> Forall ok_at (assigned_children n) ->
  ready c -> wfE c e ->
  wp (synth_node chunk_models chunk_nodes first_a nodes sig_nodes env_of assign merge run n e) c (sim c e [exec_node m xrun tick treat n]).
Proof.
  intros Hn Hl Hr Hch Hc He. pose proof (Hlimit n Hn Hl) as El. unfold assigned_children in Hch.
  unfold synth_node. destruct (sn_k n) eqn:Hk; try discriminate Hl; apply wp_limit; try done; rewrite El; change (max_iter =? 0)%nat with false; cbv iota.
  - apply Forall_app in Hch as [Hi Hch]. apply Forall_app in Hch as [Hst Hb]. fold (present (sn_init_stmt n)) in *.
    pose proof (sim_parts [sn_init_stmt n] c e) as Hinit. cbn [map concat] in Hinit. rewrite app_nil_r in Hinit.
    eapply wp_mono; [apply (sim_bind c e (map (run_opt xrun) [sn_init_stmt n]) [for_loop m xrun n max_iter])|].
    + apply Hinit; [|done|done]. constructor; [by apply present_ok|constructor].
    + intros e1 c1 Hc1 _ He1. rewrite <- (app_nil_r (present (sn_step_stmt n))).
      apply (unroll_sim (sn_expr_root n) [sn_body_stmt n; sn_step_stmt n] (for_loop m xrun n)); try done.
      * constructor; [by apply present_ok|]. constructor; [by apply present_ok|constructor].
      * intros st Q Hs HQ. apply wp_ret. by apply HQ.
      * intros it st Q. by apply for_loop_round.
    + done.
    + intros r c' Hsim. eapply sim_mono; [exact Hsim|]. intros σ e' _ Hrun' st Hs HR. specialize (Hrun' st Hs HR).
      cbn [wp_seq map app] in Hrun' |- *. unfold exec_node. rewrite Hk. apply wp_bind. eapply wp_mono; [exact Hrun'|].
      intros b1 s1 [_ H1]. apply wp_bind. eapply wp_mono; [exact H1|]. intros b2 s2 H2. by apply wp_ret.
  - fold (present (sn_body_stmt n)) in *. eapply wp_mono.
    + rewrite <- (app_nil_r (present (sn_body_stmt n))). apply (unroll_sim (sn_expr_root n) [sn_body_stmt n] (while_loop m xrun n)); try done.
      * constructor; [by apply present_ok|constructor].
      * intros st Q Hs HQ. apply wp_ret. by apply HQ.
      * intros it st Q. by apply while_loop_round.
    + intros r c' Hsim. eapply sim_mono; [exact Hsim|]. intros σ e' _ Hrun'. unfold exec_node. by rewrite Hk.
  - fold (present (sn_body_stmt n)) in *. pose proof (sim_parts [sn_body_stmt n] c e) as Hbody. cbn [map concat] in Hbody.
    rewrite app_nil_r in Hbody. assert (Hpart : Forall (fun i => i = SIZE_MAX \/ ok_at i) [sn_body_stmt n]).
    { constructor; [by apply present_ok|constructor]. }
    eapply wp_mono; [apply (sim_bind c e (map (run_opt xrun) [sn_body_stmt n]) [do_rest n (max_iter - 1)])|].
    + by apply Hbody.
    + intros e1 c1 Hc1 _ He1. rewrite <- (app_nil_r (present (sn_body_stmt n))).
      apply (unroll_sim (sn_expr_root n) [sn_body_stmt n] (do_rest n)); try done.
      * intros st Q. by apply do_rest_start.
      * intros it st Q. by apply do_rest_round.
    + done.
    + intros r c' Hsim. eapply sim_mono; [exact Hsim|]. intros σ e' _ Hrun' st Hs HR. specialize (Hrun' st Hs HR).
      cbn [wp_seq]. unfold exec_node. rewrite Hk.
      eapply wp_mono with (P := fun _ s => s.2 = Some fl_none /\ arrives σ e' s); [|by intros].
      change max_iter with (S (max_iter - 1)).
      apply (do_body_then n (max_iter - 1) st (fun s => s.2 = Some fl_none /\ arrives σ e' s)).
      cbn [map app wp_seq] in Hrun' |- *. eapply wp_mono; [exact Hrun'|]. intros b [st1 f1] [Hf1 H1]. simpl in Hf1. subst f1.
      by split_and!.
Qed.

Lemma synth_node_sim n c e : ok_stmt n = true -> Forall ok_at (assigned_children n) -> ready c -> wfE c e ->
  wp (synth_node chunk_models chunk_nodes first_a nodes sig_nodes env_of assign merge run n e) c (sim c e [exec_node m xrun tick treat n]).
Proof.
  intros Hn Hch Hc He. destruct (is_loop (sn_k n)) eqn:Hl.
  { apply sim_loops; try done. pose proof (Hroots n Hn) as Hr. unfold roots_used in Hr. by do 2 apply Forall_cons in Hr as [? Hr]. }
  pose proof (Hjump n Hn) as Hj. pose proof (Hroots n Hn) as Hr. unfold roots_used in Hr. rewrite !Forall_app, !Forall_cons in Hr.
  destruct Hr as ((_ & Hr & _) & _ & _ & Hkey & Hitems). apply Forall_concat_map in Hitems. unfold assigned_children in Hch.
  destruct (is_assign (sn_k n)) eqn:Ha.
  { assert (Eq : synth_node chunk_models chunk_nodes first_a nodes sig_nodes env_of assign merge run n e = (e' ← assign n e; mret (Some e'))).
    { unfold synth_node. by destruct (sn_k n). }
    rewrite Eq. apply wp_bind. eapply wp_mono; [by apply (el_assign L n c e xrun)|]. intros e' c' (I & Ex & W & HR). apply wp_ret.
    exists e'. by split_and!. }
  destruct (sn_k n) eqn:Hk; try discriminate; [| | |apply Forall_app in Hch as [? ?]; by apply sim_if|].
  - unfold synth_node. rewrite Hk. eapply wp_mono; [by apply sim_ret|]. intros r c' Hsim. eapply sim_mono; [exact Hsim|].
    intros σ e' _ Hr' st Hs HR. cbn [wp_seq]. unfold exec_node. rewrite Hk. apply wp_ret. split; [done|]. by apply Hr'.
  - unfold synth_node. rewrite Hk. eapply wp_mono; [by apply sim_list|]. intros r c' Hsim. eapply sim_mono; [exact Hsim|].
    intros σ e' _ Hr' st Hs HR. cbn [wp_seq]. unfold exec_node. rewrite Hk.
    eapply wp_mono; [by apply exec_list_seq, Hr'|]. intros b s' Ha'. by split; [apply Ha'|].
  - unfold synth_node. rewrite Hk. eapply wp_mono; [by apply sim_list|]. intros r c' Hsim. eapply sim_mono; [exact Hsim|].
    intros σ e' _ Hr' st Hs HR. cbn [wp_seq]. unfold exec_node. rewrite Hk. unfold wp, subprogram. cbn [fst snd].
    pose proof (exec_list_seq xrun (sn_stmts n) st _ (Hr' st Hs HR)) as Hw. unfold wp in Hw.
    destruct (exec_list xrun (sn_stmts n) (st, Some fl_none)) as [[b [st1 f1]]|]; [|done]. destruct Hw as (Hf & ? & ?). simpl in *.
    by subst f1.
  - unfold synth_node. rewrite Hk. by apply sim_case.
Qed.
End Node.

(** ** The theorem *)

Context (Hlimit : forall n, ok_stmt n = true -> is_loop (sn_k n) = true -> loop_unroll_limit opt = max_iter).
Context (Hjump : forall n, ok_stmt n = true -> is_jump (sn_k n) = false).
Context (Hroots : forall n, ok_stmt n = true -> Forall (Z.le 0) (roots_used n)).
#[local] Set Default Proof Using "Type*".

Lemma synth_stmt_sim arena fuel : forall i c e, all_below ok_stmt fuel arena i = true -> ready c -> wfE c e ->
  wp (synth_stmt chunk_models chunk_nodes first_a nodes sig_nodes env_of assign merge fuel arena i e) c
    (sim c e [exec_stmt m fuel arena tick treat i]).
Proof.
  induction fuel as [|fuel IH]; intros i c e Hb Hc He; [done|]. cbn [all_below] in Hb. destruct (vat arena i) as [n|] eqn:Hn; [|done].
  apply andb_true_iff in Hb as [Hn1 Hb]. cbn [synth_stmt exec_stmt]. apply wp_bind. unfold wp at 1, ok, cx_ok.
  rewrite (ci_ok _ _ (proj1 Hc)), bool_decide_true by done. cbn [negb].
  pose proof (proj1 (vat_Some _ _ _) Hn) as [Hi _]. rewrite (proj2 (Z.leb_gt _ _)), Hn by lia.
  apply (synth_node_sim _ _ (fun j => all_below ok_stmt fuel arena j = true)); try done.
  eapply forallb_Forall; [|exact Hb]. done.
Qed.
End Sim.
