(* ===== verification/SynthComb.v ===== *)
(** * SynthComb: the environments of [always_comb]

    The laws of [SynthSim] for [comb_env]: an assignment stores the node of
    the right side and the constant 1 as "assigned", and a join multiplexes
    both for every target.  A signal whose "assigned" node is 0 has the value
    it had when the block started, which is what the latch inferred for it
    relies on. *)

From Stdlib Require Import ZArith Lia.
From stdpp Require Import base list gmap strings.
From S2P Require Import Prelude Store Logic4 Gates Devices Model Netlist NetlistOps.
From S2P Require Import VData VExpr VCache VStmt VStmtInv VStmtClaims.
From S2P Require Import SynthNet SynthNetLemmas SynthLower SynthStmt SynthSim.

Open Scope Z_scope.

(** ** Nodes that carry values *)

Definition node_is (σ : valuation) (x : nodep) (v : logic_t) : Prop := exists p, x = Some p /\ σ p = v.

Lemma node_is_carries σ l vs : Forall2 (node_is σ) l vs -> Forall (fun v => v <> sZ) vs -> env_carries σ l vs.
Proof.
  intros H Hz. split_and!; [| |done]; clear Hz.
  - induction H as [|x v l vs (p & -> & _) H IH]; [done|]. simpl. by f_equal.
  - induction H as [|x v l vs (p & -> & <-) H IH]; [done|]. simpl. by f_equal.
Qed.

Lemma vset_insert {A} (l : list A) s x : 0 <= s -> vset l s x = <[Z.to_nat s := x]> l.
Proof.
  intros Hs. unfold vset. rewrite (proj2 (Z.leb_le _ _)) by done. cbn [andb]. destruct (s <? _) eqn:E; [done|].
  apply Z.ltb_ge in E. rewrite list_insert_ge; [done|lia].
Qed.

Lemma node_is_vset σ l vs s p : Forall2 (node_is σ) l vs -> 0 <= s -> Forall2 (node_is σ) (vset l s (Some p)) (vset vs s (σ p)).
Proof. intros H Hs. rewrite !vset_insert by done. apply Forall2_insert; [done|]. by exists p. Qed.

Lemma Forall_vset {A} (P : A -> Prop) l s x : Forall P l -> P x -> Forall P (vset l s x).
Proof. intros H Hx. unfold vset. destruct (_ && _); [|done]. by apply Forall_insert. Qed.

Lemma env_ok_vset sig_nodes c l s p : env_ok sig_nodes c l -> has c p -> env_ok sig_nodes c (vset l s (Some p)).
Proof.
  intros (ps & -> & Hl & Hps) Hp. exists (vset ps s p). split_and!.
  - unfold vset. rewrite length_map. destruct (_ && _); [|done]. symmetry. apply list_fmap_insert.
  - by rewrite length_vset.
  - by apply Forall_vset.
Qed.

(** ** Right sides *)

Section Rhs.
Context (chunk_models chunk_nodes : nat) (Hchunk : (0 < chunk_models <= 4096)%nat).
Context (addr : node_ptr -> Z) (first_a : Z -> bool) (m : compiled_module).
Abbreviation nodes := (cm_expr_nodes m).
Abbreviation value := (den nodes).
Context (Harena : arena_ok nodes) (Hzops : no_z_operands nodes).
Context (sig_nodes : list nodep).
Context (Hsig : forall i n, vat nodes i = Some n -> en_kind n = ek_signal -> 0 <= en_signal n < vsize sig_nodes).
Context (opt : pe_synth_options) (Hbin : assume_binary_inputs opt = false).
#[local] Set Default Proof Using "Type*".

Abbreviation rhs_node := (rhs_node chunk_models chunk_nodes addr first_a nodes sig_nodes).

Lemma rhs_node_spec n c l root : sn_delay_ticks n = 0 -> ready chunk_models opt c -> env_ok sig_nodes c l -> 0 <= root ->
  wp (rhs_node n l root) c (computes chunk_models c (fun σ v => forall vs, env_carries σ l vs -> v = value vs root)).
Proof.
  intros Hd Hc He Hr. unfold SynthStmt.rhs_node. apply wp_bind. eapply wp_mono; [by eapply (eval_in_spec chunk_models chunk_nodes Hchunk first_a m Harena Hzops sig_nodes Hsig opt Hbin)|].
  intros r c' Hp. rewrite Hd. by apply wp_ret.
Qed.

Lemma rhs_nodes_spec n l roots : sn_delay_ticks n = 0 -> forall c, ready chunk_models opt c -> env_ok sig_nodes c l -> Forall (Z.le 0) roots ->
  wp (smap (rhs_node n l) roots) c (fun xs c' => exists ps, xs = map Some ps /\ cx_inv chunk_models c' /\ extends c c' /\ Forall (has c') ps /\
    forall σ vs, stable c' σ -> env_carries σ l vs -> map σ ps = map (value vs) roots).
Proof.
  intros Hd. induction roots as [|r roots IH]; intros c Hc He Hr; cbn [smap].
  { apply wp_ret. exists []. split_and!; try done. apply Hc. }
  apply Forall_cons in Hr as [Hr Hrs]. apply wp_bind. eapply wp_mono; [by apply rhs_node_spec|]. intros x c1 (p & -> & I1 & E1 & H1 & P1).
  apply wp_bind. eapply wp_mono; [apply IH; [by eapply ready_extends|by eapply env_ok_extends|done]|].
  intros xs c2 (ps & -> & I2 & E2 & H2 & P2). apply wp_ret. exists (p :: ps). split_and!; [done|done|by etrans| |].
  - constructor; [by apply E2|done].
  - intros σ vs S2 Hv. cbn [map]. rewrite (P2 σ vs) by done. f_equal. apply P1; [by eapply stable_extends|done].
Qed.

Lemma value_nz vs root : Forall (fun v => v <> sZ) vs -> 0 <= root -> z_literal nodes root = false -> value vs root <> sZ.
Proof using Harena. intros Hv Hr Hz. by apply den_nz. Qed.

(** ** Joins *)

Definition node_at (σ : valuation) (l : list nodep) (s : Z) (v : logic_t) : Prop := exists p, vat l s = Some (Some p) /\ σ p = v.
Definition joined (σ : valuation) (sel : node_ptr) (l0 l1 l : list nodep) (s : Z) : Prop := forall v0 v1,
  node_at σ l0 s v0 -> node_at σ l1 s v1 -> v0 <> sZ -> v1 <> sZ -> node_at σ l s (if dns_eqb (σ sel) sH then v1 else v0).

Lemma env_ok_at c l s : env_ok sig_nodes c l -> 0 <= s < vsize sig_nodes -> exists p, vat l s = Some (Some p) /\ has c p.
Proof using Type.
  intros (ps & -> & Hl & Hps) Hs. destruct (proj2 (vat_is_Some ps s)) as [p Hp]; [unfold vsize in *; by rewrite Hl|].
  exists p. rewrite vat_map, Hp. split; [done|]. apply vat_Some in Hp as [_ Hp]. by eapply (Forall_lookup_1 _ _ _ _ Hps).
Qed.
Lemma env_ok_size c l : env_ok sig_nodes c l -> vsize l = vsize sig_nodes.
Proof using Type. intros (ps & -> & Hl & _). rewrite vsize_map. unfold vsize. by rewrite Hl. Qed.

Lemma merge_at_spec c sel l0 l1 base s : ready chunk_models opt c -> has c sel -> env_ok sig_nodes c l0 -> env_ok sig_nodes c l1 ->
  env_ok sig_nodes c base -> 0 <= s < vsize sig_nodes ->
  wp (merge_at chunk_models chunk_nodes (Some sel) l0 l1 base s) c (fun l c' =>
    cx_inv chunk_models c' /\ extends c c' /\ env_ok sig_nodes c' l /\ (forall s', s' <> s -> vat l s' = vat base s') /\
    forall σ, stable c' σ -> binary (σ sel) = true -> joined σ sel l0 l1 l s).
Proof using Hchunk.
  intros [Hc Ho] Hsel H0 H1 Hb Hs. destruct (env_ok_at c l0 s H0 Hs) as (p0 & Hp0 & Hh0). destruct (env_ok_at c l1 s H1 Hs) as (p1 & Hp1 & Hh1).
  unfold merge_at. rewrite Hp0, Hp1. apply wp_bind. eapply wp_mono; [by apply mux2_spec|]. intros r c' (p & -> & I & Ex & Hh & HP).
  apply wp_ret. split_and!; [done|done| | |].
  - apply env_ok_vset; [by eapply env_ok_extends|done].
  - intros s' Hne. by apply vat_vset_ne.
  - intros σ Hst Hbi v0 v1 (q0 & Hq0 & <-) (q1 & Hq1 & <-) Hz0 Hz1. rewrite Hp0 in Hq0. rewrite Hp1 in Hq1. injection Hq0 as <-. injection Hq1 as <-.
    exists p. split; [|by apply HP]. apply vat_vset. by rewrite (env_ok_size c base).
Qed.

Lemma joined_same σ sel l0 l1 l l' s : vat l' s = vat l s -> joined σ sel l0 l1 l s -> joined σ sel l0 l1 l' s.
Proof using Type. intros E H v0 v1 H0 H1 Hz0 Hz1. destruct (H v0 v1 H0 H1 Hz0 Hz1) as (p & Hp & Hv). exists p. by rewrite E. Qed.
End Rhs.

Lemma node_at_fun σ l s v w : node_at σ l s v -> node_at σ l s w -> v = w.
Proof. intros (p & Hp & <-) (q & Hq & <-). congruence. Qed.
Lemma node_at_same σ l l' s v : vat l' s = vat l s -> node_at σ l s v -> node_at σ l' s v.
Proof. intros E (p & Hp & Hv). exists p. by rewrite E. Qed.

Lemma Forall2_node_at σ l vs : Forall2 (node_is σ) l vs <-> vsize l = vsize vs /\ forall s v, vat vs s = Some v -> node_at σ l s v.
Proof.
  rewrite Forall2_same_length_lookup. unfold vsize. split.
  - intros [Hl H]. split; [lia|]. intros s v Hv. apply vat_Some in Hv as [Hs Hv]. unfold vsize in Hs.
    destruct (lookup_lt_is_Some_2 l (Z.to_nat s)) as [x Hx]; [lia|]. destruct (H _ _ _ Hx Hv) as (p & -> & Hp). exists p. split; [|done].
    apply vat_Some. unfold vsize. split; [lia|done].
  - intros [Hl H]. split; [lia|]. intros i x v Hx Hv. destruct (H (Z.of_nat i) v) as (p & Hp & Hpv).
    { apply vat_Some. apply lookup_lt_Some in Hv as Hi. unfold vsize. rewrite Nat2Z.id. split; [lia|done]. }
    apply vat_Some in Hp as [_ Hp]. rewrite Nat2Z.id in Hp. exists p. split; [congruence|done].
Qed.

Lemma indices_elem n s : s ∈ indices n <-> 0 <= s < Z.of_nat n.
Proof.
  unfold indices. rewrite list_elem_of_In, in_map_iff. setoid_rewrite in_seq. split.
  - intros (i & <- & Hi). lia.
  - intros Hs. exists (Z.to_nat s). lia.
Qed.

Section Comb.
Context (chunk_models chunk_nodes : nat) (Hchunk : (0 < chunk_models <= 4096)%nat).
Context (addr : node_ptr -> Z) (first_a : Z -> bool) (m : compiled_module).
Abbreviation nodes := (cm_expr_nodes m).
Abbreviation value := (den nodes).
Context (Harena : arena_ok nodes) (Hzops : no_z_operands nodes).
Context (sig_nodes : list nodep).
Context (Hsig : forall i n, vat nodes i = Some n -> en_kind n = ek_signal -> 0 <= en_signal n < vsize sig_nodes).
Context (opt : pe_synth_options) (Hbin : assume_binary_inputs opt = false).
Context (targets : list bool) (Htargets : length targets = length sig_nodes).
(** The environment and the state at the start of the block. *)
Context (e0 : comb_env) (st0 : module_state).

Record wf_comb (c : synth_context) (e : comb_env) : Prop := mk_wf_comb {
  wc_value : env_ok sig_nodes c (ce_value e);
  wc_assigned : env_ok sig_nodes c (ce_assigned e);
  wc_same : forall s, targeted targets s = false ->
    vat (ce_value e) s = vat (ce_value e0) s /\ vat (ce_assigned e) s = vat (ce_assigned e0) s
}.

Record comb_carries (σ : valuation) (e : comb_env) (st : module_state) : Prop := mk_comb_carries {
  cc_values : Forall2 (node_is σ) (ce_value e) (ms_values st);
  cc_nz : Forall (fun v => v <> sZ) (ms_values st);
  cc_assigned : forall s a, node_at σ (ce_assigned e) s a ->
    binary a = true /\ (a = sL -> vat (ms_values st) s = vat (ms_values st0) s);
  cc_queues : ms_nba_queue st = ms_nba_queue st0 /\ ms_events st = ms_events st0
}.

Definition comb_stmt (loops : bool) (n : stmt_node) : bool :=
  lowered_stmt loops nodes n &&
  match sn_k n with sk_nonblocking_assign | sk_nonblocking_assign_vec => false | _ => true end &&
  forallb (fun s => (vsize sig_nodes <=? s) || targeted targets s) (assigned_here n).

Lemma wf_comb_extends c c' e : extends c c' -> wf_comb c e -> wf_comb c' e.
Proof using Type. intros He [H1 H2 H3]. split; [by eapply env_ok_extends..|done]. Qed.

Lemma targeted_range s : targeted targets s = true -> 0 <= s < vsize sig_nodes.
Proof using Htargets.
  unfold targeted. destruct (vat targets s) eqn:E; [|done]. intros _. apply vat_Some in E as [E _]. unfold vsize in *. by rewrite Htargets in E.
Qed.

(** ** The join *)

Lemma comb_merge_from_spec sel (a b : comb_env) sigs : forall c base, ready chunk_models opt c -> has c sel ->
  wf_comb c a -> wf_comb c b -> wf_comb c base ->
  wp (comb_merge_from chunk_models chunk_nodes targets (Some sel) a b sigs base) c (fun e' c' =>
    cx_inv chunk_models c' /\ extends c c' /\ wf_comb c' e' /\
    (forall s, s ∉ sigs -> vat (ce_value e') s = vat (ce_value base) s /\ vat (ce_assigned e') s = vat (ce_assigned base) s) /\
    forall σ s, stable c' σ -> binary (σ sel) = true -> targeted targets s = true -> s ∈ sigs ->
      joined σ sel (ce_value a) (ce_value b) (ce_value e') s /\ joined σ sel (ce_assigned a) (ce_assigned b) (ce_assigned e') s).
Proof using Hchunk Htargets Hbin.
  induction sigs as [|s sigs IH]; intros c base Hc Hsel Wa Wb Wbase; cbn [comb_merge_from].
  { apply wp_ret. split_and!; try done; [apply Hc|]. intros σ s _ _ _ H. by apply elem_of_nil in H. }
  destruct (targeted targets s) eqn:Et.
  2: { eapply wp_mono; [by apply IH|]. intros e' c' (I & Ex & W & Hsame & Hj). split_and!; try done.
       - intros s' Hs'. apply Hsame. by apply not_elem_of_cons in Hs' as [_ ?].
       - intros σ s' Hst Hb Ht [->|Hin]%elem_of_cons; [congruence|auto]. }
  pose proof (targeted_range s Et) as Hr.
  apply wp_bind. eapply wp_mono; [apply (merge_at_spec chunk_models chunk_nodes Hchunk sig_nodes opt c sel); try done; [apply Wa|apply Wb|apply Wbase]|].
  intros v c1 (I1 & E1 & Ok1 & Same1 & J1). assert (Hc1 : ready chunk_models opt c1) by (by eapply ready_extends).
  apply wp_bind. eapply wp_mono; [apply (merge_at_spec chunk_models chunk_nodes Hchunk sig_nodes opt c1 sel); try done;
    [by apply E1|eapply env_ok_extends; [exact E1|apply Wa]|eapply env_ok_extends; [exact E1|apply Wb]|eapply env_ok_extends; [exact E1|apply Wbase]]|].
  intros x c2 (I2 & E2 & Ok2 & Same2 & J2). assert (E02 : extends c c2) by (by etrans).
  assert (Wnew : wf_comb c2 {| ce_value := v; ce_assigned := x |}).
  { split; simpl; [eapply env_ok_extends; [exact E2|done]|done|]. intros s' Hs'. assert (s' <> s) by congruence. rewrite Same1, Same2 by done. by apply Wbase. }
  eapply wp_mono; [apply IH; try done; [by eapply (ready_extends chunk_models opt c1)|by apply E02|eapply wf_comb_extends; [exact E02|done]..]|].
  intros e' c3 (I3 & E3 & W3 & Same3 & J3). simpl in Same3. split_and!; [done|by etrans|done| |].
  - intros s' [Hne Hs']%not_elem_of_cons. destruct (Same3 s' Hs') as [-> ->]. rewrite Same1, Same2 by done. done.
  - intros σ s' S3 Hb Ht Hin. destruct (decide (s' ∈ sigs)) as [Hin'|Hin']; [by apply J3|].
    apply elem_of_cons in Hin as [->|Hin]; [|done]. destruct (Same3 s Hin') as [Ev Ea].
    assert (S2 : stable c2 σ) by (by eapply stable_extends). assert (S1 : stable c1 σ) by (by eapply stable_extends).
    split; [eapply joined_same; [exact Ev|by apply J1]|eapply joined_same; [exact Ea|by apply J2]].
Qed.

Lemma comb_value_at σ e st s : comb_carries σ e st -> 0 <= s < vsize (ce_value e) ->
  exists v, vat (ms_values st) s = Some v /\ node_at σ (ce_value e) s v /\ v <> sZ.
Proof using Type.
  intros HR Hs. destruct (proj1 (Forall2_node_at _ _ _) (cc_values _ _ _ HR)) as [Hl Hat].
  destruct (proj2 (vat_is_Some (ms_values st) s)) as [v Hv]; [by rewrite <- Hl|]. exists v. split_and!; [done|by apply Hat|].
  apply vat_Some in Hv as [_ Hv]. by eapply (Forall_lookup_1 _ _ _ _ (cc_nz _ _ _ HR)).
Qed.

(** The chosen environment, signal by signal. *)
Lemma comb_join_carries c' σ sel (a b e' : comb_env) sta stb : wf_comb c' a -> wf_comb c' b -> wf_comb c' e' -> binary (σ sel) = true ->
  (forall s, targeted targets s = true ->
    joined σ sel (ce_value a) (ce_value b) (ce_value e') s /\ joined σ sel (ce_assigned a) (ce_assigned b) (ce_assigned e') s) ->
  comb_carries σ a sta -> comb_carries σ b stb ->
  comb_carries σ e' (if dns_eqb (σ sel) sH then stb else sta).
Proof using Htargets.
  intros Wa Wb We Hbi Hj Ra Rb. set (ch := if dns_eqb (σ sel) sH then b else a). set (stc := if dns_eqb (σ sel) sH then stb else sta).
  assert (Rc : comb_carries σ ch stc) by (unfold ch, stc; by destruct (dns_eqb _ _)).
  assert (Wc : wf_comb c' ch) by (unfold ch; by destruct (dns_eqb _ _)).
  pose proof (env_ok_size _ _ _ (wc_value _ _ Wa)) as Sa. pose proof (env_ok_size _ _ _ (wc_value _ _ Wb)) as Sb.
  pose proof (env_ok_size _ _ _ (wc_value _ _ Wc)) as Sc. pose proof (env_ok_size _ _ _ (wc_value _ _ We)) as Se.
  assert (Hval : forall s v, node_at σ (ce_value ch) s v -> 0 <= s < vsize sig_nodes -> node_at σ (ce_value e') s v).
  { intros s v Hv Hs. destruct (targeted targets s) eqn:Et.
    - destruct (comb_value_at σ a sta s Ra) as (va & _ & Ha & Hza); [by rewrite Sa|].
      destruct (comb_value_at σ b stb s Rb) as (vb & _ & Hb & Hzb); [by rewrite Sb|].
      destruct (Hj s Et) as [Hjv _]. pose proof (Hjv va vb Ha Hb Hza Hzb) as Hn. unfold ch in Hv. destruct (dns_eqb (σ sel) sH).
      + by rewrite (node_at_fun _ _ _ _ _ Hv Hb).
      + by rewrite (node_at_fun _ _ _ _ _ Hv Ha).
    - destruct (wc_same _ _ Wc s Et) as [E1 _]. destruct (wc_same _ _ We s Et) as [E2 _]. eapply node_at_same; [|exact Hv]. congruence. }
  destruct (proj1 (Forall2_node_at _ _ _) (cc_values _ _ _ Rc)) as [Hl Hat]. split; [| |  |apply Rc].
  - apply Forall2_node_at. split; [by rewrite Se, <- Sc|]. intros s v Hv. apply Hval; [by apply Hat|].
    apply vat_Some in Hv as [Hs _]. by rewrite <- Hl, Sc in Hs.
  - apply Rc.
  - intros s x Hx. apply (cc_assigned _ _ _ Rc s x). destruct (targeted targets s) eqn:Et.
    + pose proof (targeted_range s Et) as Hs. destruct (env_ok_at sig_nodes c' _ s (wc_assigned _ _ Wa) Hs) as (pa & Hpa & _).
      destruct (env_ok_at sig_nodes c' _ s (wc_assigned _ _ Wb) Hs) as (pb & Hpb & _).
      assert (Na : node_at σ (ce_assigned a) s (σ pa)) by (by exists pa). assert (Nb : node_at σ (ce_assigned b) s (σ pb)) by (by exists pb).
      destruct (cc_assigned _ _ _ Ra s _ Na) as [Ba _]. destruct (cc_assigned _ _ _ Rb s _ Nb) as [Bb _]. destruct (Hj s Et) as [_ Hja].
      assert (Hn := Hja (σ pa) (σ pb) Na Nb ltac:(intros Hz; by rewrite Hz in Ba) ltac:(intros Hz; by rewrite Hz in Bb)).
      rewrite (node_at_fun _ _ _ _ _ Hx Hn). unfold ch. by destruct (dns_eqb _ _).
    + destruct (wc_same _ _ Wc s Et) as [_ E1]. destruct (wc_same _ _ We s Et) as [_ E2]. eapply node_at_same; [|exact Hx]. congruence.
Qed.

Lemma comb_merge_spec c sel (a b base : comb_env) : ready chunk_models opt c -> has c sel -> wf_comb c a -> wf_comb c b -> wf_comb c base ->
  wp (comb_merge chunk_models chunk_nodes targets (Some sel) a b base) c (fun e' c' => cx_inv chunk_models c' /\ extends c c' /\ wf_comb c' e' /\
    forall σ sta stb, stable c' σ -> binary (σ sel) = true -> comb_carries σ a sta -> comb_carries σ b stb ->
      comb_carries σ e' (if dns_eqb (σ sel) sH then stb else sta)).
Proof using Hchunk Htargets Hbin.
  intros Hc Hsel Wa Wb Wbase. unfold comb_merge. eapply wp_mono; [by apply comb_merge_from_spec|].
  intros e' c' (I & Ex & W & _ & Hj). split_and!; try done. intros σ sta stb Hst Hbi Ra Rb.
  apply (comb_join_carries c' σ sel a b); try done; [by eapply wf_comb_extends..|]. intros s Et. apply Hj; try done.
  apply indices_elem. pose proof (targeted_range s Et) as Hs. pose proof (env_ok_size _ _ _ (wc_value _ _ Wbase)) as Sb. unfold vsize in *. lia.
Qed.

(** ** Assignments *)

Lemma comb_carries_visible σ e st st' : comb_carries σ e st -> visible st' = visible st -> comb_carries σ e st'.
Proof using Type. intros [R1 R2 R3 R4] Hv. injection Hv as Ev Eq Ee. split; by rewrite ?Ev, ?Eq, ?Ee. Qed.

Lemma assign_comb_spec c e s p : ready chunk_models opt c -> wf_comb c e -> has c p -> 0 <= s ->
  (vsize sig_nodes <=? s) || targeted targets s = true ->
  wp (assign_comb chunk_models chunk_nodes targets s (Some p) e) c (fun e' c' => cx_inv chunk_models c' /\ extends c c' /\ wf_comb c' e' /\
    forall σ st, stable c' σ -> comb_carries σ e st -> σ p <> sZ -> comb_carries σ e' (with_values st (store (ms_values st) (s, σ p)))).
Proof using Hchunk Htargets Hbin.
  intros [Hc Ho] We Hp Hs Hok. unfold assign_comb.
  rewrite (env_ok_size _ _ _ (wc_value _ _ We)), (env_ok_size _ _ _ (wc_assigned _ _ We)), orb_diag.
  destruct (vsize sig_nodes <=? s) eqn:El.
  { apply Z.leb_le in El. apply wp_ret. split_and!; try done. intros σ st _ HR _. eapply comb_carries_visible; [exact HR|].
    destruct (proj1 (Forall2_node_at _ _ _) (cc_values _ _ _ HR)) as [Hl _]. rewrite (env_ok_size _ _ _ (wc_value _ _ We)) in Hl.
    unfold visible, store. simpl. rewrite vset_outside; [done|]. by rewrite <- Hl. }
  apply Z.leb_gt in El. cbn [orb] in Hok. rewrite Hok. apply wp_bind. eapply wp_mono; [by apply const_node_spec|].
  intros t c1 (q & -> & I1 & E1 & H1 & P1). apply wp_ret. split_and!; try done.
  - split; simpl; [apply env_ok_vset; [eapply env_ok_extends; [exact E1|apply We]|by apply E1]|apply env_ok_vset; [eapply env_ok_extends; [exact E1|apply We]|done]|].
    intros s' Hs'. assert (s <> s') by congruence. rewrite !vat_vset_ne by done. by apply We.
  - intros σ st S1 [R1 R2 R3 R4] Hz. split; simpl; [by apply node_is_vset|by apply Forall_vset| |done].
    intros s' x Hx. destruct (decide (s = s')) as [<-|Hne].
    + destruct Hx as (q' & Hq & <-). rewrite vat_vset in Hq by (by rewrite (env_ok_size _ _ _ (wc_assigned _ _ We))). injection Hq as <-.
      rewrite (P1 σ S1). by split.
    + unfold store. simpl. rewrite vat_vset_ne by done. apply R3. eapply node_at_same; [|exact Hx]. symmetry. by apply vat_vset_ne.
Qed.

Lemma assign_comb_list_spec sigs : forall ps c e, ready chunk_models opt c -> wf_comb c e -> Forall (has c) ps -> Forall (Z.le 0) sigs ->
  forallb (fun s => (vsize sig_nodes <=? s) || targeted targets s) sigs = true ->
  wp (assign_comb_list chunk_models chunk_nodes targets (zip sigs (map Some ps)) e) c (fun e' c' =>
    cx_inv chunk_models c' /\ extends c c' /\ wf_comb c' e' /\
    forall σ st, stable c' σ -> comb_carries σ e st -> Forall (fun v => v <> sZ) (map σ ps) ->
      comb_carries σ e' (with_values st (fold_left store (zip sigs (map σ ps)) (ms_values st)))).
Proof using Hchunk Htargets Hbin.
  induction sigs as [|s sigs IH]; intros ps c e Hc We Hps Hs Hok.
  { apply wp_ret. split_and!; try done; [apply Hc|]. intros σ st _ HR _. by eapply comb_carries_visible. }
  destruct ps as [|p ps].
  { apply wp_ret. split_and!; try done; [apply Hc|]. intros σ st _ HR _. by eapply comb_carries_visible. }
  apply Forall_cons in Hps as [Hp Hps]. apply Forall_cons in Hs as [Hs Hss]. cbn [forallb] in Hok. apply andb_true_iff in Hok as [Hok Hoks].
  cbn [map zip zip_with assign_comb_list]. apply wp_bind. eapply wp_mono; [by apply assign_comb_spec|].
  intros e1 c1 (I1 & E1 & W1 & R1). eapply wp_mono; [apply IH; try done; [by eapply ready_extends|]|].
  { eapply Forall_impl; [exact Hps|]. apply E1. }
  intros e2 c2 (I2 & E2 & W2 & R2). split_and!; [done|by etrans|done|]. intros σ st S2 HR Hz. apply Forall_cons in Hz as [Hz Hzs].
  cbn [fold_left]. assert (S1 : stable c1 σ) by (by eapply stable_extends).
  eapply comb_carries_visible; [apply (R2 σ _ S2 (R1 σ st S1 HR Hz) Hzs)|done].
Qed.

Lemma lowered_stmt_parts loops n : lowered_stmt loops nodes n = true ->
  is_jump (sn_k n) = false /\ sn_delay_ticks n = 0 /\ implb (is_loop (sn_k n)) loops = true /\ z_literal nodes (sn_expr_root n) = false /\
  Forall (fun r => z_literal nodes r = false) (sn_rhs_roots n) /\ Forall (Z.le 0) (roots_used n).
Proof using Type.
  unfold lowered_stmt. rewrite !andb_true_iff, !negb_true_iff. intros (((((H1 & H2) & H3) & H4) & H5) & H6). split_and!; try done.
  - by apply Z.eqb_eq.
  - eapply forallb_Forall; [|exact H5]. intros r. apply negb_true_iff.
  - eapply forallb_Forall; [|exact H6]. intros r. apply Z.leb_le.
Qed.

Lemma map_values_nz (σ : valuation) vs ps roots : Forall (fun v => v <> sZ) vs -> Forall (Z.le 0) roots -> Forall (fun r => z_literal nodes r = false) roots ->
  map σ ps = map (value vs) roots -> Forall (fun v => v <> sZ) (map σ ps).
Proof using Harena.
  intros Hv Hr Hz ->. apply Forall_forall. intros v Hin. apply list_elem_of_fmap in Hin as (r & -> & Hin).
  rewrite Forall_forall in Hr, Hz. apply den_nz; auto.
Qed.

Lemma exec_assign_scalar run treat tick n st : sn_delay_ticks n = 0 -> sn_k n = sk_blocking_assign -> 0 <= sn_lhs_signal n -> 0 <= sn_expr_root n ->
  sane st -> wp (exec_node m run tick treat n) (st, Some fl_none) (fun _ s' => s'.2 = Some fl_none /\ sane s'.1 /\
    visible s'.1 = (store (ms_values st) (sn_lhs_signal n, value (ms_values st) (sn_expr_root n)), ms_nba_queue st, ms_events st)).
Proof using Harena.
  intros Hd Hk Hl Hr Hs. unfold exec_node. rewrite Hk. apply wp_bind. unfold wp at 1, lift, in_range. cbn [fst snd]. destruct (_ <? _) eqn:El.
  - unfold wp, lift, assign_scalar. rewrite Hd. cbn [Z.eqb negb fst snd]. unfold mbind, St_bind.
    pose proof (eval_spec m Harena (sn_expr_root n) st Hr Hs) as He. unfold wp in He. destruct (eval m _ st) as [[v st1]|]; [|done].
    destruct He as (-> & V1 & S1). injection V1 as Ev Eq Ee.
    pose proof (assign_visible (sn_lhs_signal n) (value (ms_values st) (sn_expr_root n)) st1 Hl S1) as Ha. unfold wp in Ha.
    destruct (assign_signal _ _ st1) as [[b st2]|]; [|done]. destruct Ha as [V2 S2]. rewrite Ev, Eq, Ee in V2. by split_and!.
  - apply wp_ret. split_and!; try done. unfold visible, store. simpl. apply Z.ltb_ge in El. by rewrite vset_outside.
Qed.

Lemma exec_assign_vec run treat tick n st : sn_delay_ticks n = 0 -> sn_k n = sk_blocking_assign_vec -> Forall (Z.le 0) (sn_lhs_signals n) ->
  Forall (Z.le 0) (sn_rhs_roots n) -> sane st ->
  wp (exec_node m run tick treat n) (st, Some fl_none) (fun _ s' => s'.2 = Some fl_none /\ sane s'.1 /\
    visible s'.1 = (if vec_ok n then fold_left store (zip (sn_lhs_signals n) (map (value (ms_values st)) (sn_rhs_roots n))) (ms_values st)
                    else ms_values st, ms_nba_queue st, ms_events st)).
Proof using Harena.
  intros Hd Hk Hl Hr Hs. unfold exec_node. rewrite Hk. destruct (vec_ok n); [|by apply wp_ret].
  unfold wp, lift, assign_vec. rewrite Hd. cbn [Z.eqb negb fst snd]. unfold mbind, St_bind.
  pose proof (samples_spec m Harena (sn_rhs_roots n) Hr st Hs) as He. unfold wp in He. destruct (smap (eval m) _ st) as [[vs st1]|]; [|done].
  destruct He as (-> & V1 & S1). injection V1 as Ev Eq Ee.
  pose proof (assign_sampled_visible (sn_lhs_signals n) (map (value (ms_values st)) (sn_rhs_roots n)) st1 Hl S1) as Ha. unfold wp in Ha.
  destruct (assign_sampled _ _ st1) as [[b st2]|]; [|done]. destruct Ha as [V2 S2]. rewrite Ev, Eq, Ee in V2. by split_and!.
Qed.

Lemma comb_assign_spec loops run treat tick n c e : comb_stmt loops n = true -> is_assign (sn_k n) = true ->
  ready chunk_models opt c -> wf_comb c e ->
  wp (comb_assign chunk_models chunk_nodes addr first_a nodes sig_nodes targets n e) c (fun e' c' =>
    cx_inv chunk_models c' /\ extends c c' /\ wf_comb c' e' /\
    forall σ, stable c' σ -> runs comb_carries [exec_node m run tick treat n] σ e e').
Proof using Hchunk Harena Hzops Hsig Hbin Htargets.
  intros Hn Ha Hc We. unfold comb_stmt in Hn. apply andb_true_iff in Hn as [Hn Htg]. apply andb_true_iff in Hn as [Hn Hnb].
  destruct (lowered_stmt_parts loops n Hn) as (_ & Hd & _ & Hz & Hzs & Hroots). unfold roots_used in Hroots.
  rewrite !Forall_app, !Forall_cons in Hroots. destruct Hroots as ((Hl & Hr & _) & Hls & Hrs & _). unfold assigned_here in Htg.
  destruct (sn_k n) eqn:Hk; try discriminate; unfold comb_assign; rewrite Hk.
  - cbn [forallb] in Htg. rewrite andb_true_r in Htg.
    rewrite (env_ok_size _ _ _ (wc_value _ _ We)), (env_ok_size _ _ _ (wc_assigned _ _ We)), orb_diag.
    assert (Hexec : forall σ e' (P : list logic_t -> Prop), (forall st, comb_carries σ e st ->
      comb_carries σ e' (with_values st (store (ms_values st) (sn_lhs_signal n, value (ms_values st) (sn_expr_root n))))) ->
      runs comb_carries [exec_node m run tick treat n] σ e e').
    { intros σ e' _ H st Hs HR. cbn [wp_seq]. eapply wp_mono; [by apply exec_assign_scalar|]. intros b s' (Hf & Hs' & Hv).
      split_and!; try done. eapply comb_carries_visible; [by apply H|]. by rewrite Hv. }
    destruct (vsize sig_nodes <=? sn_lhs_signal n) eqn:El.
    { apply wp_ret. split_and!; try done; [apply Hc|]. intros σ _. apply (Hexec σ e (fun _ => True)). intros st HR.
      eapply comb_carries_visible; [exact HR|]. destruct (proj1 (Forall2_node_at _ _ _) (cc_values _ _ _ HR)) as [Hsz _].
      rewrite (env_ok_size _ _ _ (wc_value _ _ We)) in Hsz. apply Z.leb_le in El. unfold visible, store. simpl.
      rewrite vset_outside; [done|]. by rewrite <- Hsz. }
    cbn [orb] in Htg. rewrite Htg. apply wp_bind.
    eapply wp_mono; [apply (rhs_node_spec chunk_models chunk_nodes Hchunk addr first_a m Harena Hzops sig_nodes Hsig opt Hbin); try done; apply We|].
    intros x c1 (p & -> & I1 & E1 & H1 & P1). assert (Hc1 : ready chunk_models opt c1) by (by eapply ready_extends).
    eapply wp_mono; [apply assign_comb_spec; try done; [by eapply wf_comb_extends|by rewrite Htg, orb_true_r]|].
    intros e' c2 (I2 & E2 & W2 & R2). split_and!; [done|by etrans|done|]. intros σ S2. apply (Hexec σ e' (fun _ => True)). intros st HR.
    assert (S1 : stable c1 σ) by (by eapply stable_extends).
    assert (Ep : σ p = value (ms_values st) (sn_expr_root n)) by (apply P1; [done|]; apply node_is_carries; apply HR).
    rewrite <- Ep. apply R2; try done. rewrite Ep. apply value_nz; try done. apply HR.
  - destruct (vec_ok n) eqn:Ev.
    + apply wp_bind.
      eapply wp_mono; [apply (rhs_nodes_spec chunk_models chunk_nodes Hchunk addr first_a m Harena Hzops sig_nodes Hsig opt Hbin); try done; apply We|].
      intros xs c1 (ps & -> & I1 & E1 & H1 & P1). assert (Hc1 : ready chunk_models opt c1) by (by eapply ready_extends).
      eapply wp_mono; [apply assign_comb_list_spec; try done; by eapply wf_comb_extends|].
      intros e' c2 (I2 & E2 & W2 & R2). split_and!; [done|by etrans|done|]. intros σ S2 st Hs HR. cbn [wp_seq].
      eapply wp_mono; [by apply exec_assign_vec|]. intros b s' (Hf & Hs' & Hv). split_and!; try done. rewrite Ev in Hv.
      assert (S1 : stable c1 σ) by (by eapply stable_extends).
      assert (Ep : map σ ps = map (value (ms_values st)) (sn_rhs_roots n)) by (apply P1; [done|]; apply node_is_carries; apply HR).
      eapply comb_carries_visible; [apply (R2 σ st S2 HR)|by rewrite Hv, Ep]. apply (map_values_nz σ (ms_values st) ps (sn_rhs_roots n)); try done. apply HR.
    + apply wp_ret. split_and!; try done; [apply Hc|]. intros σ _ st Hs HR. cbn [wp_seq]. eapply wp_mono; [by apply exec_assign_vec|].
      intros b s' (Hf & Hs' & Hv). split_and!; try done. rewrite Ev in Hv. by eapply comb_carries_visible.
Qed.

Lemma comb_laws loops treat tick :
  env_laws chunk_models m sig_nodes opt ce_value (comb_assign chunk_models chunk_nodes addr first_a nodes sig_nodes targets)
    (comb_merge chunk_models chunk_nodes targets) wf_comb comb_carries (comb_stmt loops) treat tick.
Proof using Hchunk Harena Hzops Hsig Hbin Htargets.
  split.
  - intros c e W. apply W.
  - intros c c' e. apply wf_comb_extends.
  - intros c σ e st W HR. apply node_is_carries; apply HR.
  - intros σ e st st'. apply comb_carries_visible.
  - intros n c e run. apply comb_assign_spec.
  - intros c sel a b base. apply comb_merge_spec.
Qed.

(** A statement of an [always_comb]. *)
Lemma synth_stmt_comb_sim loops tick arena i c : all_below (comb_stmt loops) (S (length arena)) arena i = true ->
  (loops = true -> loop_unroll_limit opt = max_iter) -> ready chunk_models opt c -> forall e, wf_comb c e ->
  wp (synth_stmt_comb chunk_models chunk_nodes addr first_a nodes sig_nodes arena targets i e) c
    (sim chunk_models wf_comb comb_carries c e [exec_stmt m (S (length arena)) arena tick false i]).
Proof using Hchunk Harena Hzops Hsig Hbin Htargets.
  intros Hb Hl Hc e We.
  eapply (synth_stmt_sim chunk_models chunk_nodes Hchunk first_a m Harena Hzops sig_nodes Hsig opt Hbin _ _ _ _ _ (comb_stmt loops) false tick
    (comb_laws loops false tick)); try done.
  all: intros n Hn; unfold comb_stmt in Hn; apply andb_true_iff in Hn as [Hn _]; apply andb_true_iff in Hn as [Hn _];
    destruct (lowered_stmt_parts loops n Hn) as (H1 & _ & H3 & _ & _ & H6); try done.
  intros Hloop. apply Hl. by rewrite Hloop in H3.
Qed.
End Comb.
