(* ===== verification/SynthFf.v ===== *)
(** * SynthFf: the environments of [always_ff]

    The laws of [SynthSim] for [ff_env]: the current values are those a
    statement reads, the next values are what the registers will load.  A
    blocking assignment writes both, a nonblocking one the next value only, so
    the next values carry the state after the queue of nonblocking assignments
    has been applied; the simulator agrees for a block that assigns each
    variable in one of the two ways. *)

From Stdlib Require Import ZArith Lia.
From stdpp Require Import base list gmap strings.
From S2P Require Import Prelude Store Logic4 Gates Devices Model Netlist NetlistOps.
From S2P Require Import VData VExpr VCache VStmt VStmtInv VStmtClaims.
From S2P Require Import SynthNet SynthNetLemmas SynthLower SynthStmt SynthSim SynthComb.

Open Scope Z_scope.

(** ** Writes *)

Definition stores (vs : list logic_t) (w : list (Z * logic_t)) : list logic_t := fold_left store w vs.
Definition pending (st : module_state) : list logic_t := stores (ms_values st) (ms_nba_queue st).

Lemma store_size vs p : vsize (store vs p) = vsize vs.
Proof. unfold store, vsize. by rewrite length_vset. Qed.
Lemma stores_size w : forall vs, vsize (stores vs w) = vsize vs.
Proof. unfold stores. induction w as [|p w IH]; intros vs; [done|]. cbn [fold_left]. by rewrite IH, store_size. Qed.

Lemma store_comm vs p q : 0 <= p.1 -> 0 <= q.1 -> p.1 <> q.1 -> store (store vs p) q = store (store vs q) p.
Proof. intros Hp Hq Hne. unfold store. rewrite !vset_insert by done. rewrite list_insert_insert_ne; [done|]. lia. Qed.

Lemma stores_store w : forall vs p, 0 <= p.1 -> Forall (fun q => 0 <= q.1 /\ q.1 <> p.1) w -> stores (store vs p) w = store (stores vs w) p.
Proof.
  unfold stores. induction w as [|q w IH]; intros vs p Hp Hw; [done|]. apply Forall_cons in Hw as [[Hq Hne] Hw]. cbn [fold_left].
  rewrite store_comm by done. by apply IH.
Qed.
Lemma stores_comm w1 : forall vs w2, (forall p q, p ∈ w1 -> q ∈ w2 -> 0 <= p.1 /\ 0 <= q.1 /\ p.1 <> q.1) ->
  stores (stores vs w1) w2 = stores (stores vs w2) w1.
Proof.
  unfold stores. induction w1 as [|p w1 IH]; intros vs w2 H; [done|]. cbn [fold_left].
  destruct w2 as [|q0 w2]; [done|]. rewrite IH; [|intros p' q Hp Hq; apply H; [by apply elem_of_cons; right|done]].
  f_equal. apply (stores_store (q0 :: w2)); [by apply (H p q0); apply elem_of_cons; left|]. apply Forall_forall. intros q Hq.
  destruct (H p q) as (_ & ? & ?); [apply elem_of_cons; by left|done|]. by split.
Qed.
Lemma stores_app vs w1 w2 : stores vs (w1 ++ w2) = stores (stores vs w1) w2.
Proof. apply fold_left_app. Qed.

Lemma stores_in_range k w : forall vs, vsize vs = k -> stores vs (filter (fun p => p.1 < k) w) = stores vs w.
Proof.
  unfold stores. induction w as [|p w IH]; intros vs Hk; [done|]. rewrite filter_cons. destruct (decide (p.1 < k)) as [Hp|Hp]; cbn [fold_left].
  - apply IH. by rewrite store_size.
  - assert (store vs p = vs) as -> by (apply vset_outside; lia). by apply IH.
Qed.

Lemma stores_nz w : forall vs, Forall (fun v => v <> sZ) vs -> Forall (fun p => p.2 <> sZ) w -> Forall (fun v => v <> sZ) (stores vs w).
Proof.
  unfold stores. induction w as [|p w IH]; intros vs Hv Hw; [done|]. apply Forall_cons in Hw as [Hp Hw]. cbn [fold_left]. apply IH; [|done].
  by apply Forall_vset.
Qed.

(** What an assignment writes. *)
Definition writes (nodes : list expr_node) (n : stmt_node) (vs : list logic_t) : list (Z * logic_t) :=
  match sn_k n with
  | sk_blocking_assign | sk_nonblocking_assign => [(sn_lhs_signal n, den nodes vs (sn_expr_root n))]
  | _ => if vec_ok n then zip (sn_lhs_signals n) (map (den nodes vs) (sn_rhs_roots n)) else []
  end.

Lemma push_nba_visible sig v st : 0 <= sig -> sane st ->
  wp (push_nba sig v) st (fun _ st' => sane st' /\ visible st' = (ms_values st, ms_nba_queue st ++ [(sig, v)], ms_events st)).
Proof. intros Hl Hs. pose proof (quiet_push_nba sig v Hl st Hs) as Hq. unfold wp in Hq |- *. simpl in Hq |- *. split; [apply Hq|done]. Qed.

Section Exec.
Context (m : compiled_module) (Harena : arena_ok (cm_expr_nodes m)).

Lemma exec_nonblocking_scalar run tick n st : sn_delay_ticks n = 0 -> sn_k n = sk_nonblocking_assign -> 0 <= sn_lhs_signal n -> 0 <= sn_expr_root n ->
  sane st -> wp (exec_node m run tick false n) (st, Some fl_none) (fun _ s' => s'.2 = Some fl_none /\ sane s'.1 /\
    visible s'.1 = (ms_values st, ms_nba_queue st ++ filter (fun p => p.1 < vsize (ms_values st)) (writes (cm_expr_nodes m) n (ms_values st)), ms_events st)).
Proof using Harena.
  intros Hd Hk Hl Hr Hs. unfold exec_node, writes. rewrite Hk. apply wp_bind. unfold wp at 1, lift, in_range. cbn [fst snd]. rewrite filter_cons. cbn [fst].
  destruct (_ <? _) eqn:El.
  - apply Z.ltb_lt in El. rewrite decide_True by done. rewrite Hd. cbn [Z.eqb negb]. apply wp_bind. unfold wp at 1, lift. cbn [fst snd].
    pose proof (eval_spec m Harena (sn_expr_root n) st Hr Hs) as He. unfold wp in He. destruct (eval m _ st) as [[v st1]|]; [|done].
    destruct He as (-> & V1 & S1). injection V1 as Ev Eq Ee. apply wp_bind. unfold wp at 1, lift. cbn [fst snd].
    pose proof (push_nba_visible (sn_lhs_signal n) (den (cm_expr_nodes m) (ms_values st) (sn_expr_root n)) st1 Hl S1) as Hq. unfold wp in Hq.
    destruct (push_nba _ _ st1) as [[u st2]|]; [|done]. destruct Hq as [S2 V2]. apply wp_ret. cbn [fst snd]. split_and!; [done|done|].
    by rewrite V2, Ev, Eq, Ee.
  - apply Z.ltb_ge in El. rewrite decide_False by lia. apply wp_ret. cbn [fst snd]. rewrite filter_nil, app_nil_r. by split_and!.
Qed.

(** The right sides of a vector are queued one by one; the values they are
    sampled from do not change. *)
Lemma queue_pairs_visible (l : list (Z * Z)) : Forall (fun p => 0 <= p.1 /\ 0 <= p.2) l -> forall st, sane st ->
  wp (seach (fun '(sig, root) => ok ← in_range sig; if (ok : bool) then v ← eval m root; push_nba sig v else mret tt) l) st (fun _ st' => sane st' /\
    visible st' = (ms_values st, ms_nba_queue st ++
      filter (fun p => p.1 < vsize (ms_values st)) (map (fun p => (p.1, den (cm_expr_nodes m) (ms_values st) p.2)) l), ms_events st)).
Proof using Harena.
  induction 1 as [|[sig root] l [Hl Hr] Hls IH]; intros st Hs; cbn [seach map].
  { apply wp_ret. rewrite filter_nil, app_nil_r. by split. }
  apply wp_bind. apply wp_bind. unfold wp at 1, in_range. rewrite filter_cons. cbn [fst snd] in *. destruct (_ <? _) eqn:El.
  - apply Z.ltb_lt in El. rewrite decide_True by done. apply wp_bind. eapply wp_mono; [by apply (eval_spec m Harena)|].
    intros v st1 (-> & V1 & S1). injection V1 as Ev Eq Ee. set (v := den _ _ _).
    eapply wp_mono; [by apply push_nba_visible|]. intros [] st2 [S2 V2]. injection V2 as W1 W2 W3.
    eapply wp_mono; [by apply (IH st2)|]. intros u st3 [S3 V3]. split; [done|]. rewrite V3, W1, W2, W3, Ev, Eq, Ee. by rewrite <- app_assoc.
  - apply Z.ltb_ge in El. rewrite decide_False by lia. apply wp_ret. by apply IH.
Qed.

Lemma exec_nonblocking_vec run tick n st : sn_delay_ticks n = 0 -> sn_k n = sk_nonblocking_assign_vec -> Forall (Z.le 0) (sn_lhs_signals n) ->
  Forall (Z.le 0) (sn_rhs_roots n) -> sane st ->
  wp (exec_node m run tick false n) (st, Some fl_none) (fun _ s' => s'.2 = Some fl_none /\ sane s'.1 /\
    visible s'.1 = (ms_values st, ms_nba_queue st ++ filter (fun p => p.1 < vsize (ms_values st)) (writes (cm_expr_nodes m) n (ms_values st)), ms_events st)).
Proof using Harena.
  intros Hd Hk Hl Hr Hs. unfold exec_node, writes. rewrite Hk. destruct (vec_ok n).
  2: { apply wp_ret. rewrite filter_nil, app_nil_r. by split_and!. }
  rewrite Hd. cbn [Z.eqb negb]. apply wp_bind. unfold wp at 1, lift, queue_vec. cbn [fst snd].
  assert (Hp : Forall (fun p => 0 <= p.1 /\ 0 <= p.2) (zip (sn_lhs_signals n) (sn_rhs_roots n))).
  { apply Forall_forall. intros [s r] Hin. rewrite Forall_forall in Hl, Hr. split; [apply Hl; by eapply elem_of_zip_l|apply Hr; by eapply elem_of_zip_r]. }
  pose proof (queue_pairs_visible _ Hp st Hs) as Ha. unfold wp in Ha. destruct (seach _ _ st) as [[u st2]|]; [|done]. destruct Ha as [S2 V2].
  apply wp_ret. split_and!; [done|done|]. cbn [fst]. rewrite V2. do 4 f_equal.
  generalize (sn_lhs_signals n), (sn_rhs_roots n). intros l1. induction l1 as [|x l1 IH]; intros [|y l2]; [done..|]. cbn [zip zip_with map]. f_equal. apply IH.
Qed.
End Exec.

(** ** Nodes that carry the writes *)

Section Nodes.
Context (sig_nodes : list nodep) (targets : list bool) (Htargets : length targets = length sig_nodes).
Abbreviation covered s := ((vsize sig_nodes <=? s) || targeted targets s).
#[local] Set Default Proof Using "Type".

Lemma set_if_vset (l : list nodep) s x : 0 <= s -> set_if l s x = vset l s x.
Proof. intros Hs. unfold set_if. destruct (s <? vsize l) eqn:E; [done|]. apply Z.ltb_ge in E. by rewrite vset_outside. Qed.

Lemma write_all_spec (f : list nodep -> Z * nodep -> list nodep) sigs : Forall (Z.le 0) sigs ->
  (forall l s p, s ∈ sigs -> length l = length sig_nodes -> f l (s, Some p) = vset l s (Some p)) ->
  forall ps c l, env_ok sig_nodes c l -> Forall (has c) ps ->
  env_ok sig_nodes c (fold_left f (zip sigs (map Some ps)) l) /\
  forall σ vs, Forall2 (node_is σ) l vs -> Forall2 (node_is σ) (fold_left f (zip sigs (map Some ps)) l) (stores vs (zip sigs (map σ ps))).
Proof.
  unfold stores. induction 1 as [|s sigs Hs Hss IH]; intros Hf ps c l Hl Hp; [done|]. destruct ps as [|p ps]; [done|].
  apply Forall_cons in Hp as [Hp Hps]. cbn [map zip zip_with fold_left].
  assert (Hlen : length l = length sig_nodes) by (destruct Hl as (q & -> & Hq & _); by rewrite length_map).
  rewrite Hf by (done || (apply elem_of_cons; by left)).
  destruct (IH ltac:(intros l' s' p' Hin; apply Hf; apply elem_of_cons; by right) ps c (vset l s (Some p))) as [H1 H2]; [by apply env_ok_vset|done|].
  split; [done|]. intros σ vs Hv. apply H2. by apply node_is_vset.
Qed.

Lemma write_next_spec sigs ps c l : Forall (Z.le 0) sigs -> forallb (fun s => covered s) sigs = true -> env_ok sig_nodes c l -> Forall (has c) ps ->
  env_ok sig_nodes c (write_next targets (zip sigs (map Some ps)) l) /\
  forall σ vs, Forall2 (node_is σ) l vs -> Forall2 (node_is σ) (write_next targets (zip sigs (map Some ps)) l) (stores vs (zip sigs (map σ ps))).
Proof.
  intros Hs Hc. apply write_all_spec; [done|]. intros l' s p Hin Hl. cbn [fst snd]. rewrite forallb_forall in Hc.
  specialize (Hc s (proj1 (list_elem_of_In _ _) Hin)). rewrite Forall_forall in Hs. destruct (targeted targets s); [by apply set_if_vset, Hs|].
  rewrite orb_false_r in Hc. apply Z.leb_le in Hc. rewrite vset_outside; [done|]. unfold vsize in *. by rewrite Hl.
Qed.

Lemma write_cur_spec sigs ps c l : Forall (Z.le 0) sigs -> env_ok sig_nodes c l -> Forall (has c) ps ->
  env_ok sig_nodes c (fold_left (fun x p => set_if x p.1 p.2) (zip sigs (map Some ps)) l) /\
  forall σ vs, Forall2 (node_is σ) l vs -> Forall2 (node_is σ) (fold_left (fun x p => set_if x p.1 p.2) (zip sigs (map Some ps)) l) (stores vs (zip sigs (map σ ps))).
Proof.
  intros Hs. apply write_all_spec; [done|]. intros l' s p Hin _. cbn [fst snd]. rewrite Forall_forall in Hs. by apply set_if_vset, Hs.
Qed.

Lemma write_next_same w : forall l s, targeted targets s = false -> vat (write_next targets w l) s = vat l s.
Proof.
  unfold write_next. induction w as [|[s0 x] w IH]; intros l s Hs; [done|]. cbn [fold_left fst snd]. rewrite IH by done.
  destruct (targeted targets s0) eqn:E; [|done]. unfold set_if. destruct (_ <? _); [|done]. apply vat_vset_ne. congruence.
Qed.
End Nodes.

Section Ff.
Context (chunk_models chunk_nodes : nat) (Hchunk : (0 < chunk_models <= 4096)%nat).
Context (addr : node_ptr -> Z) (first_a : Z -> bool) (m : compiled_module).
Abbreviation nodes := (cm_expr_nodes m).
Abbreviation value := (den nodes).
Context (Harena : arena_ok nodes) (Hzops : no_z_operands nodes).
Context (sig_nodes : list nodep).
Context (Hsig : forall i n, vat nodes i = Some n -> en_kind n = ek_signal -> 0 <= en_signal n < vsize sig_nodes).
Context (opt : pe_synth_options) (Hbin : assume_binary_inputs opt = false).
Context (targets : list bool) (Htargets : length targets = length sig_nodes).
(** The variables that the block assigns with [<=], and the environment and
    the state at its start. *)
Context (nonblocking : Z -> bool) (e0 : ff_env) (st0 : module_state).
#[local] Set Default Proof Using "Type".

Record wf_ff (c : synth_context) (e : ff_env) : Prop := mk_wf_ff {
  wf_cur : env_ok sig_nodes c (fe_cur e);
  wf_next : env_ok sig_nodes c (fe_next e);
  wf_same : forall s, targeted targets s = false -> vat (fe_next e) s = vat (fe_next e0) s
}.

Record ff_carries (σ : valuation) (e : ff_env) (st : module_state) : Prop := mk_ff_carries {
  fc_cur : Forall2 (node_is σ) (fe_cur e) (ms_values st);
  fc_next : Forall2 (node_is σ) (fe_next e) (pending st);
  fc_nz : Forall (fun v => v <> sZ) (ms_values st) /\ Forall (fun v => v <> sZ) (pending st);
  fc_queue : Forall (fun p => 0 <= p.1 /\ nonblocking p.1 = true) (ms_nba_queue st);
  fc_events : ms_events st = ms_events st0
}.

Definition ff_stmt (loops : bool) (n : stmt_node) : bool :=
  lowered_stmt loops nodes n && forallb (fun s => (vsize sig_nodes <=? s) || targeted targets s) (assigned_here n) &&
  forallb (fun s => eqb (nonblocking s) (negb (is_blocking n))) (assigned_here n).

Lemma wf_ff_extends c c' e : extends c c' -> wf_ff c e -> wf_ff c' e.
Proof. intros He [H1 H2 H3]. split; [by eapply env_ok_extends..|done]. Qed.
Lemma ff_carries_visible σ e st st' : ff_carries σ e st -> visible st' = visible st -> ff_carries σ e st'.
Proof. intros [R1 R2 R3 R4 R5] Hv. injection Hv as Ev Eq Ee. unfold pending in R2, R3. split; unfold pending; by rewrite ?Ev, ?Eq, ?Ee. Qed.

(** ** The join *)

Lemma merge_list_spec sel l0 l1 sigs : Forall (fun s => 0 <= s < vsize sig_nodes) sigs -> forall c base,
  ready chunk_models opt c -> has c sel -> env_ok sig_nodes c l0 -> env_ok sig_nodes c l1 -> env_ok sig_nodes c base ->
  wp (merge_list chunk_models chunk_nodes (Some sel) l0 l1 sigs base) c (fun l c' =>
    cx_inv chunk_models c' /\ extends c c' /\ env_ok sig_nodes c' l /\ (forall s, s ∉ sigs -> vat l s = vat base s) /\
    forall σ s, stable c' σ -> binary (σ sel) = true -> s ∈ sigs -> joined σ sel l0 l1 l s).
Proof using Hchunk.
  induction 1 as [|s sigs Hs Hss IH]; intros c base Hc Hsel H0 H1 Hb; cbn [merge_list].
  { apply wp_ret. split_and!; try done; [apply Hc|]. intros σ s _ _ H. by apply elem_of_nil in H. }
  apply wp_bind. eapply wp_mono; [by apply (merge_at_spec chunk_models chunk_nodes Hchunk sig_nodes opt)|].
  intros l1' c1 (I1 & E1 & Ok1 & Same1 & J1).
  eapply wp_mono; [apply IH; [by eapply ready_extends|by apply E1|by eapply env_ok_extends|by eapply env_ok_extends|done]|].
  intros l2' c2 (I2 & E2 & Ok2 & Same2 & J2). split_and!; [done|by etrans|done| |].
  - intros s' [Hne Hs']%not_elem_of_cons. by rewrite Same2, Same1.
  - intros σ s' S2 Hbi Hin. destruct (decide (s' ∈ sigs)) as [Hin'|Hin']; [by apply J2|]. apply elem_of_cons in Hin as [->|Hin]; [|done].
    eapply joined_same; [by apply Same2|]. apply J1; [by eapply stable_extends|done].
Qed.

(** The list that carries the chosen values. *)
Lemma joined_carries c σ sel l0 l1 l vs0 vs1 : env_ok sig_nodes c l0 -> env_ok sig_nodes c l1 -> env_ok sig_nodes c l ->
  Forall2 (node_is σ) l0 vs0 -> Forall2 (node_is σ) l1 vs1 -> Forall (fun v => v <> sZ) vs0 -> Forall (fun v => v <> sZ) vs1 ->
  (forall s, 0 <= s < vsize sig_nodes -> joined σ sel l0 l1 l s \/ (vat l s = vat l0 s /\ vat l s = vat l1 s)) ->
  Forall2 (node_is σ) l (if dns_eqb (σ sel) sH then vs1 else vs0).
Proof.
  intros H0 H1 Hl V0 V1 Z0 Z1 Hj. apply Forall2_node_at in V0 as [L0 N0]. apply Forall2_node_at in V1 as [L1 N1].
  rewrite (env_ok_size _ _ _ H0) in L0. rewrite (env_ok_size _ _ _ H1) in L1. apply Forall2_node_at. split.
  { rewrite (env_ok_size _ _ _ Hl). by destruct (dns_eqb _ _). }
  intros s v Hv. assert (Hs : 0 <= s < vsize sig_nodes) by (apply vat_Some in Hv as [Hv _]; destruct (dns_eqb _ _); [rewrite L1|rewrite L0]; exact Hv).
  destruct (proj2 (vat_is_Some vs0 s)) as [v0 Hv0]; [by rewrite <- L0|]. destruct (proj2 (vat_is_Some vs1 s)) as [v1 Hv1]; [by rewrite <- L1|].
  assert (v0 <> sZ) by (apply vat_Some in Hv0 as [_ Hv0]; by eapply (Forall_lookup_1 _ _ _ _ Z0)).
  assert (v1 <> sZ) by (apply vat_Some in Hv1 as [_ Hv1]; by eapply (Forall_lookup_1 _ _ _ _ Z1)).
  assert (v = if dns_eqb (σ sel) sH then v1 else v0) as -> by (destruct (dns_eqb _ _); congruence).
  destruct (Hj s Hs) as [Hjs|[E0 E1]]; [apply Hjs; auto|].
  destruct (dns_eqb _ _); [eapply node_at_same; [exact E1|by apply N1]|eapply node_at_same; [exact E0|by apply N0]].
Qed.

Lemma ff_merge_spec c sel (a b base : ff_env) : ready chunk_models opt c -> has c sel -> wf_ff c a -> wf_ff c b -> wf_ff c base ->
  wp (ff_merge chunk_models chunk_nodes targets (Some sel) a b base) c (fun e' c' => cx_inv chunk_models c' /\ extends c c' /\ wf_ff c' e' /\
    forall σ sta stb, stable c' σ -> binary (σ sel) = true -> ff_carries σ a sta -> ff_carries σ b stb ->
      ff_carries σ e' (if dns_eqb (σ sel) sH then stb else sta)).
Proof using Hchunk Htargets.
  intros Hc Hsel Wa Wb Wbase. unfold ff_merge. pose proof (env_ok_size _ _ _ (wf_cur _ _ Wa)) as Sa. pose proof (env_ok_size _ _ _ (wf_cur _ _ Wb)) as Sb.
  pose proof (env_ok_size _ _ _ (wf_cur _ _ Wbase)) as Sc. pose proof (env_ok_size _ _ _ (wf_next _ _ Wbase)) as Sn. unfold vsize in *.
  apply wp_bind. eapply wp_mono; [apply merge_list_spec; [|done|done|apply Wa|apply Wb|apply Wbase]|].
  { apply Forall_forall. intros s Hs. apply indices_elem in Hs. unfold vsize. lia. }
  intros cur c1 (I1 & E1 & Ok1 & _ & J1). apply wp_bind.
  eapply wp_mono; [apply merge_list_spec; [|by eapply ready_extends|by apply E1|eapply env_ok_extends; [exact E1|]..]; [|apply Wa|apply Wb|apply Wbase]|].
  { apply Forall_forall. intros s Hs. apply list_elem_of_In, filter_In in Hs as [Hs _]. apply list_elem_of_In, indices_elem in Hs. unfold vsize. lia. }
  intros next c2 (I2 & E2 & Ok2 & Same2 & J2). apply wp_ret. assert (E02 : extends c c2) by (by etrans).
  assert (Hun : forall s, targeted targets s = false -> vat next s = vat (fe_next base) s).
  { intros s Hs. apply Same2. rewrite list_elem_of_In, filter_In. intros [_ ?]. congruence. }
  split_and!; [done|done| |].
  - split; simpl; [eapply env_ok_extends; [exact E2|exact Ok1]|exact Ok2|]. intros s Hs. rewrite Hun by done. by apply Wbase.
  - intros σ sta stb S2 Hbi [A1 A2 [A3 A3'] A4 A5] [B1 B2 [B3 B3'] B4 B5]. assert (S1 : stable c1 σ) by (by eapply stable_extends).
    assert (Hcur : Forall2 (node_is σ) cur (if dns_eqb (σ sel) sH then ms_values stb else ms_values sta)).
    { apply (joined_carries c1 σ sel (fe_cur a) (fe_cur b)); try done; [eapply env_ok_extends; [exact E1|apply Wa]|eapply env_ok_extends; [exact E1|apply Wb]|].
      intros s Hs. left. apply J1; try done. apply indices_elem. unfold vsize in Hs. lia. }
    assert (Hnext : Forall2 (node_is σ) next (if dns_eqb (σ sel) sH then pending stb else pending sta)).
    { apply (joined_carries c2 σ sel (fe_next a) (fe_next b)); try done; [eapply env_ok_extends; [exact E02|apply Wa]|eapply env_ok_extends; [exact E02|apply Wb]|].
      intros s Hs. destruct (targeted targets s) eqn:Et.
      - left. apply J2; try done. apply list_elem_of_In, filter_In. split; [|done]. apply list_elem_of_In, indices_elem. unfold vsize in Hs. lia.
      - right. rewrite Hun by done. rewrite (wf_same _ _ Wbase), (wf_same _ _ Wa), (wf_same _ _ Wb) by done. done. }
    destruct (dns_eqb (σ sel) sH); by split.
Qed.

(** ** Assignments *)

Definition effect (n : stmt_node) (st : module_state) (w : list (Z * logic_t)) : list logic_t * list (Z * logic_t) * list scheduled_event :=
  if is_blocking n then (stores (ms_values st) w, ms_nba_queue st, ms_events st)
  else (ms_values st, ms_nba_queue st ++ filter (fun p => p.1 < vsize (ms_values st)) w, ms_events st).

Lemma exec_assign_effect loops run tick n st : lowered_stmt loops nodes n = true -> is_assign (sn_k n) = true -> sane st ->
  wp (exec_node m run tick false n) (st, Some fl_none) (fun _ s' => s'.2 = Some fl_none /\ sane s'.1 /\
    visible s'.1 = effect n st (writes nodes n (ms_values st))).
Proof using Harena.
  intros Hn Ha Hs. destruct (lowered_stmt_parts m loops n Hn) as (_ & Hd & _ & _ & _ & Hroots). unfold roots_used in Hroots.
  rewrite !Forall_app, !Forall_cons in Hroots. destruct Hroots as ((Hl & Hr & _) & Hls & Hrs & _). unfold effect, is_blocking.
  destruct (sn_k n) eqn:Hk; try discriminate.
  - eapply wp_mono; [by apply exec_assign_scalar|]. intros b s' (F & S & V). split_and!; [done..|]. by rewrite V; unfold writes; rewrite Hk.
  - eapply wp_mono; [by apply exec_assign_vec|]. intros b s' (F & S & V). split_and!; [done..|]. rewrite V. unfold writes, stores. rewrite Hk.
    by destruct (vec_ok n).
  - by apply exec_nonblocking_scalar.
  - by apply exec_nonblocking_vec.
Qed.

(** The nodes written, against the values written. *)
Lemma ff_written c e n sigs ps : wf_ff c e -> Forall (has c) ps -> Forall (Z.le 0) sigs ->
  forallb (fun s => (vsize sig_nodes <=? s) || targeted targets s) sigs = true ->
  forallb (fun s => eqb (nonblocking s) (negb (is_blocking n))) sigs = true ->
  let e' := {| fe_cur := write_cur n (zip sigs (map Some ps)) (fe_cur e); fe_next := write_next targets (zip sigs (map Some ps)) (fe_next e) |} in
  wf_ff c e' /\ forall σ st st', ff_carries σ e st -> Forall (fun v => v <> sZ) (map σ ps) ->
    visible st' = effect n st (zip sigs (map σ ps)) -> ff_carries σ e' st'.
Proof.
  intros We Hps Hs Hc Hb. destruct (write_next_spec sig_nodes targets sigs ps c (fe_next e) Hs Hc (wf_next _ _ We) Hps) as [Okn Vn].
  destruct (write_cur_spec sig_nodes sigs ps c (fe_cur e) Hs (wf_cur _ _ We) Hps) as [Okc Vc]. split.
  - split; simpl; [|done|].
    + unfold write_cur. destruct (is_blocking n); [done|apply We].
    + intros s Ht. rewrite write_next_same by done. by apply We.
  - intros σ st st' [R1 R2 [R3 R3'] R4 R5] Hz Hv. set (w := zip sigs (map σ ps)) in *.
    assert (Hw : Forall (fun p => 0 <= p.1 /\ nonblocking p.1 = negb (is_blocking n)) w).
    { apply Forall_forall. intros [s v] Hin. apply elem_of_zip_l in Hin. rewrite Forall_forall in Hs. split; [by apply Hs|].
      rewrite forallb_forall in Hb. by apply eqb_prop, Hb, list_elem_of_In. }
    assert (Hwz : Forall (fun p => p.2 <> sZ) w).
    { apply Forall_forall. intros [s v] Hin. apply elem_of_zip_r in Hin. rewrite Forall_forall in Hz. by apply Hz. }
    assert (Hpend : pending st' = stores (pending st) w /\ ms_values st' = (if is_blocking n then stores (ms_values st) w else ms_values st) /\
      Forall (fun p => 0 <= p.1 /\ nonblocking p.1 = true) (ms_nba_queue st') /\ ms_events st' = ms_events st).
    { unfold effect in Hv. unfold pending. destruct (is_blocking n); injection Hv as Ev Eq Ee; rewrite Ev, Eq, Ee; split_and!; try done.
      - apply stores_comm. intros p q Hp Hq. rewrite Forall_forall in Hw, R4. destruct (Hw p Hp) as [? Hp']. destruct (R4 q Hq) as [? Hq'].
        split_and!; [done..|]. intros E. rewrite E in Hp'. simpl in Hp'. congruence.
      - rewrite stores_app. apply stores_in_range. by rewrite stores_size.
      - apply Forall_app. split; [done|]. apply Forall_forall. intros p Hp. apply list_elem_of_filter in Hp as [_ Hp].
        rewrite Forall_forall in Hw. by apply Hw. }
    destruct Hpend as (P1 & P2 & P3 & P4). split; simpl.
    + rewrite P2. unfold write_cur. destruct (is_blocking n); [by apply Vc|done].
    + rewrite P1. by apply Vn.
    + rewrite P1, P2. split; [|by apply stores_nz]. destruct (is_blocking n); [by apply stores_nz|done].
    + done.
    + congruence.
Qed.

Lemma ff_unwritten σ e n st st' w : (forall p, p ∈ w -> vsize sig_nodes <= p.1) -> vsize (fe_cur e) = vsize sig_nodes -> ff_carries σ e st ->
  visible st' = effect n st w -> ff_carries σ e st'.
Proof.
  intros Hw Hsz HR Hv. eapply ff_carries_visible; [exact HR|]. rewrite Hv. unfold effect, visible.
  assert (Hl : vsize (ms_values st) = vsize sig_nodes).
  { destruct (proj1 (Forall2_node_at _ _ _) (fc_cur _ _ _ HR)) as [Hl _]. by rewrite <- Hl. }
  destruct (is_blocking n).
  - do 2 f_equal. clear Hv. unfold stores. revert Hw. generalize (ms_values st) Hl. induction w as [|p w IH]; intros vs Hvs Hw; [done|]. cbn [fold_left].
    assert (store vs p = vs) as -> by (apply vset_outside; rewrite Hvs; apply Hw; apply elem_of_cons; by left).
    apply IH; [done|]. intros q Hq. apply Hw. apply elem_of_cons. by right.
  - do 2 f_equal. rewrite <- (app_nil_r (ms_nba_queue st)) at 2. f_equal. clear Hv. induction w as [|p w IH]; [done|]. rewrite filter_cons.
    rewrite decide_False; [apply IH; intros q Hq; apply Hw; apply elem_of_cons; by right|]. rewrite Hl.
    apply Z.le_ngt, Hw, elem_of_cons. by left.
Qed.

(** From the effect of an assignment to its runs. *)
Lemma ff_runs loops run tick n σ e e' : lowered_stmt loops nodes n = true -> is_assign (sn_k n) = true ->
  (forall st st', ff_carries σ e st -> visible st' = effect n st (writes nodes n (ms_values st)) -> ff_carries σ e' st') ->
  runs ff_carries [exec_node m run tick false n] σ e e'.
Proof using Harena.
  intros Hn Ha H st Hs HR. cbn [wp_seq]. eapply wp_mono; [by eapply exec_assign_effect|]. intros b s' (Hf & Hs' & Hv).
  split_and!; [done..|]. by eapply H.
Qed.

Lemma ff_runs_none loops run tick n σ c e : lowered_stmt loops nodes n = true -> is_assign (sn_k n) = true -> wf_ff c e ->
  (forall st p, p ∈ writes nodes n (ms_values st) -> vsize sig_nodes <= p.1) ->
  runs ff_carries [exec_node m run tick false n] σ e e.
Proof using Harena.
  intros Hn Ha We H. eapply ff_runs; [done..|]. intros st st' HR Hv.
  eapply ff_unwritten; [intros p; by apply (H st p)|apply (env_ok_size _ _ _ (wf_cur _ _ We))|exact HR|exact Hv].
Qed.

Lemma ff_runs_some loops run tick n c c1 e ps : ff_stmt loops n = true -> is_assign (sn_k n) = true -> wf_ff c e ->
  cx_inv chunk_models c1 -> extends c c1 -> Forall (has c1) ps ->
  (forall σ st, stable c1 σ -> ff_carries σ e st ->
    writes nodes n (ms_values st) = zip (assigned_here n) (map σ ps) /\ Forall (fun v => v <> sZ) (map σ ps)) ->
  let e' := {| fe_cur := write_cur n (zip (assigned_here n) (map Some ps)) (fe_cur e);
               fe_next := write_next targets (zip (assigned_here n) (map Some ps)) (fe_next e) |} in
  cx_inv chunk_models c1 /\ extends c c1 /\ wf_ff c1 e' /\ forall σ, stable c1 σ -> runs ff_carries [exec_node m run tick false n] σ e e'.
Proof using Harena.
  intros Hn Ha We I1 E1 H1 Hw e'. unfold ff_stmt in Hn. apply andb_true_iff in Hn as [Hn Hnb]. apply andb_true_iff in Hn as [Hn Htg].
  destruct (ff_written c1 e n (assigned_here n) ps) as [W R]; try done; [by eapply wf_ff_extends| |].
  { destruct (lowered_stmt_parts m loops n Hn) as (_ & _ & _ & _ & _ & Hroots). unfold roots_used in Hroots.
    rewrite !Forall_app, !Forall_cons in Hroots. destruct Hroots as ((Hl & _) & Hls & _). unfold assigned_here. destruct (sn_k n); auto. }
  split_and!; [done..|]. intros σ S1. eapply ff_runs; [done..|]. intros st st' HR Hv. destruct (Hw σ st S1 HR) as [Ew Ez]. rewrite Ew in Hv. by eapply R.
Qed.

Lemma ff_assign_spec loops run tick n c e : ff_stmt loops n = true -> is_assign (sn_k n) = true -> ready chunk_models opt c -> wf_ff c e ->
  wp (ff_assign chunk_models chunk_nodes addr first_a nodes sig_nodes targets n e) c (fun e' c' =>
    cx_inv chunk_models c' /\ extends c c' /\ wf_ff c' e' /\
    forall σ, stable c' σ -> runs ff_carries [exec_node m run tick false n] σ e e').
Proof using Hchunk Harena Hzops Hsig Hbin.
  intros Hst Ha Hc We. pose proof Hst as Hn. unfold ff_stmt in Hn. apply andb_true_iff in Hn as [Hn _]. apply andb_true_iff in Hn as [Hn _].
  destruct (lowered_stmt_parts m loops n Hn) as (_ & Hd & _ & Hz & Hzs & Hroots). unfold roots_used in Hroots.
  rewrite !Forall_app, !Forall_cons in Hroots. destruct Hroots as ((Hl & Hr & _) & _ & Hrs & _).
  assert (Hcar : forall σ st, ff_carries σ e st -> env_carries σ (fe_cur e) (ms_values st)).
  { intros σ st HR. apply node_is_carries; apply HR. }
  pose proof (rhs_node_spec chunk_models chunk_nodes Hchunk addr first_a m Harena Hzops sig_nodes Hsig opt Hbin n c (fe_cur e) (sn_expr_root n) Hd Hc
    (wf_cur _ _ We) Hr) as Hscalar.
  pose proof (rhs_nodes_spec chunk_models chunk_nodes Hchunk addr first_a m Harena Hzops sig_nodes Hsig opt Hbin n (fe_cur e) (sn_rhs_roots n) Hd c Hc
    (wf_cur _ _ We) Hrs) as Hvec.
  assert (Hkind : (sn_k n = sk_blocking_assign \/ sn_k n = sk_nonblocking_assign) \/ (sn_k n = sk_blocking_assign_vec \/ sn_k n = sk_nonblocking_assign_vec)).
  { destruct (sn_k n); try discriminate; auto. }
  destruct Hkind as [Hk|Hk].
  - assert (Hw : forall vs, writes nodes n vs = [(sn_lhs_signal n, value vs (sn_expr_root n))]) by (intros vs; unfold writes; by destruct Hk as [-> | ->]).
    assert (Hah : assigned_here n = [sn_lhs_signal n]) by (unfold assigned_here; by destruct Hk as [-> | ->]).
    replace (ff_assign _ _ _ _ _ _ _ n e) with (if vsize (fe_next e) <=? sn_lhs_signal n then mret e else
      rhs ← rhs_node chunk_models chunk_nodes addr first_a nodes sig_nodes n (fe_cur e) (sn_expr_root n);
      mret {| fe_cur := write_cur n [(sn_lhs_signal n, rhs)] (fe_cur e); fe_next := write_next targets [(sn_lhs_signal n, rhs)] (fe_next e) |} : Sy ff_env)
      by (unfold ff_assign; by destruct Hk as [-> | ->]).
    rewrite (env_ok_size _ _ _ (wf_next _ _ We)). destruct (vsize sig_nodes <=? sn_lhs_signal n) eqn:El.
    + apply Z.leb_le in El. apply wp_ret. split_and!; try done; [apply Hc|]. intros σ _. eapply ff_runs_none; [done..|]. intros st p. rewrite Hw.
      intros ->%list_elem_of_singleton. done.
    + apply wp_bind. eapply wp_mono; [exact Hscalar|]. intros x c1 (p & -> & I1 & E1 & H1 & P1). apply wp_ret.
      change [(sn_lhs_signal n, Some p)] with (zip [sn_lhs_signal n] (map Some [p])). rewrite <- Hah. eapply ff_runs_some; try done; [by constructor|].
      intros σ st S1 HR. assert (Ep : σ p = value (ms_values st) (sn_expr_root n)) by (by apply P1, Hcar). cbn [map zip zip_with].
      rewrite Hw, Hah, Ep. split; [done|]. constructor; [|done]. by apply (value_nz m Harena); [apply HR| |].
  - assert (Hw : forall vs, writes nodes n vs = if vec_ok n then zip (sn_lhs_signals n) (map (value vs) (sn_rhs_roots n)) else [])
      by (intros vs; unfold writes; by destruct Hk as [-> | ->]).
    assert (Hah : assigned_here n = sn_lhs_signals n) by (unfold assigned_here; by destruct Hk as [-> | ->]).
    replace (ff_assign _ _ _ _ _ _ _ n e) with (if vec_ok n then
      rhs ← smap (rhs_node chunk_models chunk_nodes addr first_a nodes sig_nodes n (fe_cur e)) (sn_rhs_roots n);
      mret {| fe_cur := write_cur n (zip (sn_lhs_signals n) rhs) (fe_cur e); fe_next := write_next targets (zip (sn_lhs_signals n) rhs) (fe_next e) |}
      else mret e : Sy ff_env) by (unfold ff_assign; by destruct Hk as [-> | ->]).
    destruct (vec_ok n) eqn:Ev.
    + apply wp_bind. eapply wp_mono; [exact Hvec|]. intros xs c1 (ps & -> & I1 & E1 & H1 & P1). apply wp_ret.
      rewrite <- Hah. eapply ff_runs_some; try done. intros σ st S1 HR.
      assert (Ep : map σ ps = map (value (ms_values st)) (sn_rhs_roots n)) by (by apply P1; [|apply Hcar]).
      rewrite Hw, Hah, Ep. split; [done|]. rewrite <- Ep. apply (map_values_nz m Harena σ (ms_values st) ps (sn_rhs_roots n)); try done. apply HR.
    + apply wp_ret. split_and!; try done; [apply Hc|]. intros σ _. eapply ff_runs_none; [done..|]. intros st p. rewrite Hw. by intros H%elem_of_nil.
Qed.

Lemma ff_env_laws loops tick :
  env_laws chunk_models m sig_nodes opt fe_cur (ff_assign chunk_models chunk_nodes addr first_a nodes sig_nodes targets)
    (ff_merge chunk_models chunk_nodes targets) wf_ff ff_carries (ff_stmt loops) false tick.
Proof using Hchunk Harena Hzops Hsig Hbin Htargets.
  split.
  - intros c e W. apply W.
  - intros c c' e. apply wf_ff_extends.
  - intros c σ e st W HR. apply node_is_carries; apply HR.
  - intros σ e st st'. apply ff_carries_visible.
  - intros n c e run. apply ff_assign_spec.
  - intros c sel a b base. apply ff_merge_spec.
Qed.

(** A statement of an [always_ff]. *)
Lemma synth_stmt_ff_sim loops tick arena i c : all_below (ff_stmt loops) (S (length arena)) arena i = true ->
  (loops = true -> loop_unroll_limit opt = max_iter) -> ready chunk_models opt c -> forall e, wf_ff c e ->
  wp (synth_stmt_ff chunk_models chunk_nodes addr first_a nodes sig_nodes arena targets i e) c
    (sim chunk_models wf_ff ff_carries c e [exec_stmt m (S (length arena)) arena tick false i]).
Proof using Hchunk Harena Hzops Hsig Hbin Htargets.
  intros Hb Hl Hc e We.
  eapply (synth_stmt_sim chunk_models chunk_nodes Hchunk first_a m Harena Hzops sig_nodes Hsig opt Hbin _ _ _ _ _ (ff_stmt loops) false tick
    (ff_env_laws loops tick)); try done.
  all: intros n Hn; unfold ff_stmt in Hn; apply andb_true_iff in Hn as [Hn _]; apply andb_true_iff in Hn as [Hn _];
    destruct (lowered_stmt_parts m loops n Hn) as (H1 & _ & H3 & _ & _ & H6); try done.
  intros Hloop. apply Hl. by rewrite Hloop in H3.
Qed.
End Ff.
