(* ===== verification/SynthInstance.v ===== *)
(** * SynthInstance: a module instance to a netlist

    [synth_context::synth_instance] of [verilog/digital/pe_synth.h] with the
    functions it uses: the nodes of the signals of an instance, the continuous
    assignments, the output drives, the reads that decide which variables get
    a driver, the [always_comb] and [always_ff] blocks with the inference of
    latches and of asynchronous resets, the random generator and the children.
    The don't-care groups that [infer_one_hot_fsm_groups] collects are left
    out: only the optimization passes use them. *)

From Stdlib Require Import ZArith Lia.
From stdpp Require Import base list gmap strings.
From S2P Require Import Prelude Store Logic4 Gates Devices Sequential Model Netlist.
From S2P Require Import VData VExpr VCache VStmt VRuntime SynthNet SynthLower SynthStmt.

Open Scope Z_scope.

(** ** The reads of a block

    A stamp marks the nodes and the signals seen in a pass. *)
Record reads : Type := mk_reads { rd_expr_seen : list Z; rd_sig_seen : list Z; rd_out : list Z }.

Definition with_out (s : reads) (out : list Z) : reads :=
  {| rd_expr_seen := rd_expr_seen s; rd_sig_seen := rd_sig_seen s; rd_out := out |}.

Definition part (i : Z) : list Z := if i =? SIZE_MAX then [] else [i].

(** The loop over the stack of [collect_expr_reads]. *)
Fixpoint expr_reads (fuel : nat) (nodes : list expr_node) (stamp : Z) (stack : list Z) (s : reads) : option reads :=
  match stack with
  | [] => Some s
  | r :: rest =>
      match fuel with
      | O => None
      | S fuel' =>
          if (r =? SIZE_MAX) || (vsize nodes <=? r) then expr_reads fuel' nodes stamp rest s
          else match vat nodes r, vat (rd_expr_seen s) r with
               | Some n, Some seen =>
                   if seen =? stamp then expr_reads fuel' nodes stamp rest s
                   else
                     let es := vset (rd_expr_seen s) r stamp in
                     match en_kind n with
                     | ek_signal =>
                         let sg := en_signal n in
                         let fresh := match vat (rd_sig_seen s) sg with Some k => negb (k =? stamp) | None => false end in
                         expr_reads fuel' nodes stamp rest
                           (if fresh
                            then {| rd_expr_seen := es; rd_sig_seen := vset (rd_sig_seen s) sg stamp; rd_out := rd_out s ++ [sg] |}
                            else {| rd_expr_seen := es; rd_sig_seen := rd_sig_seen s; rd_out := rd_out s |})
                     | _ =>
                         expr_reads fuel' nodes stamp (part (en_b n) ++ part (en_a n) ++ rest)
                           {| rd_expr_seen := es; rd_sig_seen := rd_sig_seen s; rd_out := rd_out s |}
                     end
               | _, _ => None
               end
      end
  end.

Definition collect_expr_reads (nodes : list expr_node) (stamp : Z) (root : Z) (s : reads) : option reads :=
  if (root =? SIZE_MAX) || (vsize nodes <=? root) then Some s
  else expr_reads (2 * length nodes + 2) nodes stamp [root] s.

Fixpoint collect_all (f : Z -> reads -> option reads) (l : list Z) (s : reads) : option reads :=
  match l with
  | [] => Some s
  | x :: l' => match f x s with Some s' => collect_all f l' s' | None => None end
  end.

(** The expressions and the statements a statement reads, in the order of the
    switch of [collect_stmt_reads]. *)
Inductive read_item : Set := read_expr (root : Z) | read_stmt (idx : Z).
Definition read_items (n : stmt_node) : list read_item :=
  match sn_k n with
  | sk_blocking_assign | sk_nonblocking_assign => [read_expr (sn_expr_root n)]
  | sk_blocking_assign_vec | sk_nonblocking_assign_vec => map read_expr (sn_rhs_roots n)
  | sk_if_stmt => read_expr (sn_expr_root n) :: map read_stmt (sn_stmts n) ++ map read_stmt (sn_else_stmts n)
  | sk_case_stmt =>
      map read_expr (sn_case_expr_roots n) ++
      concat (map (fun ci => map read_expr (ci_match_roots ci) ++ map read_stmt (ci_stmts ci)) (sn_case_items n))
  | sk_block | sk_subprogram_block => map read_stmt (sn_stmts n)
  | sk_for_stmt =>
      map read_stmt (part (sn_init_stmt n)) ++ map read_stmt (part (sn_step_stmt n)) ++ [read_expr (sn_expr_root n)] ++
      map read_stmt (part (sn_body_stmt n))
  | sk_while_stmt | sk_do_while_stmt => read_expr (sn_expr_root n) :: map read_stmt (part (sn_body_stmt n))
  | _ => []
  end.

Fixpoint collect_stmt_reads (fuel : nat) (nodes : list expr_node) (arena : list stmt_node) (stamp : Z) (stmt_idx : Z) (s : reads) : option reads :=
  match fuel with
  | O => None
  | S fuel' =>
      if (stmt_idx =? SIZE_MAX) || (vsize arena <=? stmt_idx) then Some s
      else match vat arena stmt_idx with
           | None => None
           | Some n =>
               fold_left (fun acc it =>
                 match acc with
                 | None => None
                 | Some s' =>
                     match it with
                     | read_expr r => collect_expr_reads nodes stamp r s'
                     | read_stmt i => collect_stmt_reads fuel' nodes arena stamp i s'
                     end
                 end) (read_items n) (Some s)
           end
  end.

(** [++read_block_count[s]] for the signals of a block. *)
Definition bump (counts : list Z) (s : Z) : list Z :=
  match vat counts s with Some k => vset counts s (u32_wrap (k + 1)) | None => counts end.

Record read_info : Type := mk_read_info {
  ri_reads : reads;
  ri_stamp : Z;
  ri_assigns_read : list bool;
  ri_block_count : list Z
}.

Definition block_reads (m : compiled_module) (arena : list stmt_node) (roots : list Z) (stamp : Z) (s : reads) : option reads :=
  collect_all (collect_stmt_reads (S (length arena)) (cm_expr_nodes m) arena stamp) roots (with_out s []).

Definition add_reader_block (m : compiled_module) (info : option read_info) (arena : list stmt_node) (roots : list Z) : option read_info :=
  match info with
  | None => None
  | Some i =>
      let stamp := u32_wrap (ri_stamp i + 1) in
      match block_reads m arena roots stamp (ri_reads i) with
      | None => None
      | Some s => Some {| ri_reads := s; ri_stamp := stamp; ri_assigns_read := ri_assigns_read i;
                          ri_block_count := fold_left bump (rd_out s) (ri_block_count i) |}
      end
  end.

(** The reads of the assignments, then those of the blocks. *)
Definition module_reads (m : compiled_module) : option read_info :=
  let ns := length (cm_signal_names m) in
  let s0 := {| rd_expr_seen := replicate (length (cm_expr_nodes m)) 0; rd_sig_seen := replicate ns 0; rd_out := [] |} in
  let stamp := 2 in
  match collect_all (collect_expr_reads (cm_expr_nodes m) stamp)
          (concat (map (fun a => ca_expr_root a :: part (ca_guard_root a)) (cm_assigns m))) s0 with
  | None => None
  | Some s =>
      let i0 := {| ri_reads := s; ri_stamp := stamp; ri_assigns_read := fold_left mark (rd_out s) (replicate ns false);
                   ri_block_count := replicate ns 0 |} in
      let i1 := fold_left (fun i ac => add_reader_block m i (ac_stmt_nodes ac) (ac_roots ac)) (cm_always_combs m) (Some i0) in
      let i2 := fold_left (fun i ff => add_reader_block m i (ff_stmt_nodes ff) (ff_roots ff)) (cm_always_ffs m) i1 in
      fold_left (fun i ib => add_reader_block m i (ib_stmt_nodes ib) (ib_roots ib)) (cm_initials m) i2
  end.

(** The signals of the output ports. *)
Definition port_out (m : compiled_module) : list bool :=
  fold_left (fun out p => match po_dir p with pd_output | pd_inout => mark out (po_signal p) | _ => out end)
    (cm_ports m) (replicate (length (cm_signal_names m)) false).

(** A target is driven when it is a port, or is read outside its block. *)
Definition drives (m : compiled_module) (info : read_info) (here : reads) (stamp sig : Z) : bool :=
  let read_here := match vat (rd_sig_seen here) sig with Some k => k =? stamp | None => false end in
  let elsewhere :=
    flag (ri_assigns_read info) sig ||
    match vat (ri_block_count info) sig with Some k => (if read_here then 1 else 0) <? k | None => false end in
  flag (port_out m) sig || elsewhere.

(** ** Constants *)

Fixpoint eval_const_expr_to_logic (fuel : nat) (inst : instance_state) (m : compiled_module) (root : Z) : option logic_t :=
  match fuel with
  | O => None
  | S fuel' =>
      match vat (cm_expr_nodes m) root with
      | None => None
      | Some n =>
          match en_kind n with
          | ek_literal => Some (en_literal n)
          | ek_signal =>
              let s := en_signal n in
              if flag (cm_signal_is_const m) s then vat (ms_values (is_state inst)) s
              else if flag (cm_signal_is_reg m) s then None
              else if existsb (fun p => po_signal p =? s) (cm_ports m) then None
              else if flag (is_driven_nets inst) s then None
              else vat (ms_values (is_state inst)) s
          | ek_unary_not => logic_not <$> eval_const_expr_to_logic fuel' inst m (en_a n)
          | _ => None
          end
      end
  end.
Definition const_of (inst : instance_state) (m : compiled_module) (root : Z) : option logic_t :=
  eval_const_expr_to_logic (S (length (cm_expr_nodes m))) inst m root.

(** ** Asynchronous resets *)

Definition find_async_reset_if_stmt (arena : list stmt_node) (roots : list Z) : option Z :=
  match roots with
  | [root] =>
      match vat arena root with
      | None => None
      | Some n =>
          match sn_k n with
          | sk_if_stmt => Some root
          | sk_block =>
              let live := List.filter (fun s => match vat arena s with
                                                | None => false
                                                | Some sn => match sn_k sn with sk_empty => false | _ => true end
                                                end) (sn_stmts n) in
              match live with
              | [s] => match vat arena s with
                       | Some sn => match sn_k sn with sk_if_stmt => Some s | _ => None end
                       | None => None
                       end
              | _ => None
              end
          | _ => None
          end
      end
  | _ => None
  end.

Definition reset_env : Type := list logic_t * list bool.

(** One assignment of [try_collect_async_reset_values]: [None] is [false]. *)
Definition reset_assign (inst : instance_state) (m : compiled_module) (targets : list bool) (p : Z * Z) (e : reset_env) : option reset_env :=
  let '(sig, root) := p in
  if (vsize e.1 <=? sig) || (vsize e.2 <=? sig) then Some e
  else if targeted targets sig then
    match const_of inst m root with
    | None => None
    | Some v => Some (vset e.1 sig v, vset e.2 sig true)
    end
  else Some e.

Fixpoint fold_opt {A B} (f : A -> B -> option B) (l : list A) (b : B) : option B :=
  match l with [] => Some b | x :: l' => match f x b with Some b' => fold_opt f l' b' | None => None end end.

Fixpoint try_collect_async_reset_values (fuel : nat) (inst : instance_state) (m : compiled_module) (targets : list bool)
    (arena : list stmt_node) (stmt_idx : Z) (e : reset_env) : option reset_env :=
  match fuel with
  | O => None
  | S fuel' =>
      match vat arena stmt_idx with
      | None => None
      | Some n =>
          match sn_k n with
          | sk_empty => Some e
          | sk_block => fold_opt (try_collect_async_reset_values fuel' inst m targets arena) (sn_stmts n) e
          | sk_blocking_assign | sk_nonblocking_assign => reset_assign inst m targets (sn_lhs_signal n, sn_expr_root n) e
          | sk_blocking_assign_vec | sk_nonblocking_assign_vec =>
              if (length (sn_lhs_signals n) =? length (sn_rhs_roots n))%nat
              then fold_opt (reset_assign inst m targets) (zip (sn_lhs_signals n) (sn_rhs_roots n)) e
              else Some e
          | _ => None
          end
      end
  end.

(** [match_cond]: the signal a condition tests, and whether it holds when the
    signal is 1. *)
Definition signal_literal (nodes : list expr_node) (a b : Z) : option (Z * logic_t) :=
  match vat nodes a, vat nodes b with
  | Some na, Some nb =>
      match en_kind na, en_kind nb with
      | ek_signal, ek_literal => Some (en_signal na, en_literal nb)
      | ek_literal, ek_signal => Some (en_signal nb, en_literal na)
      | _, _ => None
      end
  | _, _ => None
  end.
Definition match_cond (nodes : list expr_node) (root : Z) : option (Z * bool) :=
  match vat nodes root with
  | None => None
  | Some n =>
      match en_kind n with
      | ek_signal => Some (en_signal n, true)
      | ek_unary_not =>
          match vat nodes (en_a n) with
          | Some na => match en_kind na with ek_signal => Some (en_signal na, false) | _ => None end
          | None => None
          end
      | ek_binary_eq | ek_binary_case_eq | ek_binary_neq =>
          match signal_literal nodes (en_a n) (en_b n) with
          | Some (sig, lit) =>
              match lit with
              | sH => Some (sig, negb (bool_decide (en_kind n = ek_binary_neq)))
              | sL => Some (sig, bool_decide (en_kind n = ek_binary_neq))
              | _ => None
              end
          | None => None
          end
      | _ => None
      end
  end.

Definition is_edge (ev : sensitivity_event) : bool := match se_k ev with ev_posedge | ev_negedge => true | ev_level => false end.

(** The first edge of the signal among the events but the clock. *)
Definition edge_of (events : list sensitivity_event) (clk_idx : nat) (sig : Z) : option event_kind :=
  match List.find (fun p => negb (p.1 =? clk_idx)%nat && (se_signal p.2 =? sig) && is_edge p.2) (imap pair events) with
  | Some p => Some (se_k p.2)
  | None => None
  end.

Definition infer_reset_is_then (nodes : list expr_node) (cond_root : Z) (events : list sensitivity_event) (clk_idx : nat) : option bool :=
  match match_cond nodes cond_root with
  | Some (sig, when_one) =>
      if sig =? SIZE_MAX then None
      else match edge_of events clk_idx sig with
           | Some k => Some (Bool.eqb when_one (match k with ev_posedge => true | _ => false end))
           | None => None
           end
  | None => None
  end.

(** ** Building an instance *)

Section Instance.
Context (chunk_models chunk_nodes : nat) (addr : node_ptr -> Z) (first_a : Z -> bool).

Abbreviation const_node := (const_node chunk_models chunk_nodes).
Abbreviation make_node := (make_node chunk_nodes).
Abbreviation gate_not := (gate_not chunk_models chunk_nodes).
Abbreviation gate_case_eq := (gate_case_eq chunk_models chunk_nodes).
Abbreviation emit_driver := (emit_driver chunk_models).

(** The builder of the parent: its module and the nodes of its signals; its
    cache is the second part of the state. *)
Record parent_builder : Type := mk_parent { pa_module : compiled_module; pa_sig_nodes : list nodep }.

Definition fail {A} (msg : string) : Sy (option A) := _ ← set_error msg; mret None.

Definition is_output (d : port_dir) : bool := match d with pd_output | pd_inout => true | _ => false end.

(** The node of a port: [None] is [return false]. *)
Definition binding_node (parent : parent_builder) (p : port) (b : port_binding) : Lw (option nodep) :=
  match pb_k b with
  | bk_unconnected => mret (Some None)
  | bk_parent_signal => mret (Some (signal (pa_sig_nodes parent) (pb_parent_signal b)))
  | bk_literal =>
      if is_output (po_dir p) then on_ctx (fail "pe_synth: output port bound to literal (unsupported)")
      else n ← on_ctx (const_node (pb_literal b)); mret (Some n)
  | bk_parent_expr_root =>
      if is_output (po_dir p) then on_ctx (fail "pe_synth: output port bound to expression (unsupported)")
      else n ← expr chunk_models chunk_nodes first_a (cm_expr_nodes (pa_module parent)) (pa_sig_nodes parent) (pb_parent_expr_root b);
           mret (Some n)
  end.

Definition port_node (inst : instance_state) (parent : option parent_builder) (top_ports : list nodep) (pi : Z) (p : port)
    : Lw (option nodep) :=
  match parent with
  | None =>
      match vat top_ports pi with
      | None => on_ctx (fail "pe_synth: top port node list size mismatch")
      | Some n => mret (Some n)
      end
  | Some pb =>
      match vat (is_bindings inst) pi with
      | None => on_ctx (fail "pe_synth: binding size mismatch")
      | Some b =>
          r ← binding_node pb p b;
          match r with
          | None => mret None
          | Some n =>
              inout ← on_ctx (option_of allow_inout);
              if (match po_dir p with pd_inout => true | _ => false end) && negb inout
              then on_ctx (fail "pe_synth: inout ports not supported")
              else mret (Some n)
          end
      end
  end.

Fixpoint bind_ports (inst : instance_state) (parent : option parent_builder) (top_ports : list nodep) (ports : list (nat * port))
    (sig_nodes : list nodep) : Lw (option (list nodep)) :=
  match ports with
  | [] => mret (Some sig_nodes)
  | (pi, p) :: rest =>
      if vsize sig_nodes <=? po_signal p then bind_ports inst parent top_ports rest sig_nodes
      else
        r ← port_node inst parent top_ports (Z.of_nat pi) p;
        match r with
        | None => mret None
        | Some n =>
            n' ← match n with None => on_ctx make_node | Some _ => mret n end;
            bind_ports inst parent top_ports rest (vset sig_nodes (po_signal p) n')
        end
  end.

(** The constants and the internal nets. *)
Fixpoint bind_rest (inst : instance_state) (m : compiled_module) (si : Z) (l : list nodep) : Sy (list nodep) :=
  match l with
  | [] => mret []
  | x :: l' =>
      y ← match x with
          | Some _ => mret x
          | None =>
              if flag (cm_signal_is_const m) si
              then const_node (default sX (vat (ms_values (is_state inst)) si))
              else make_node
          end;
      ys ← bind_rest inst m (si + 1) l';
      mret (y :: ys)
  end.

(** ** Continuous assignments and output drives *)

Section Module.
Context (inst : instance_state) (m : compiled_module) (sig_nodes : list nodep).

Abbreviation expr := (expr chunk_models chunk_nodes first_a (cm_expr_nodes m) sig_nodes).

Definition synth_assign (a : continuous_assign) : Lw bool :=
  good ← on_ctx ok;
  if negb good then mret false
  else match vat sig_nodes (ca_lhs_signal a) with
       | None => mret true
       | Some lhs =>
           rhs ← expr (ca_expr_root a);
           match lhs, rhs with
           | Some _, Some _ =>
               if ca_guard_root a =? SIZE_MAX then on_ctx (emit_driver (m_YES YES.default) [rhs] lhs)
               else en ← expr (ca_guard_root a); on_ctx (emit_driver (m_TRI TRI.default) [rhs; en] lhs)
           | _, _ => mret true
           end
       end.

Definition synth_output_drive (parent : parent_builder) (d : port_drive) : Sy bool :=
  good ← ok;
  if negb good then mret false
  else if pv_parent_signal d =? SIZE_MAX then mret true
  else match signal (pa_sig_nodes parent) (pv_parent_signal d) with
       | None => _ ← set_error "pe_synth: output_drives parent_signal out of range"; mret false
       | dst =>
           src ← (if pv_src_is_literal d then const_node (pv_literal d)
                  else mret (if pv_child_signal d =? SIZE_MAX then None else signal sig_nodes (pv_child_signal d)));
           match src with
           | None => mret true
           | Some _ => emit_driver (m_YES YES.default) [src] dst
           end
       end.

(** [for(x: l) { if(!f(x)) { return false; } }] *)
Fixpoint all_of {S A} (f : A -> St S bool) (l : list A) : St S bool :=
  match l with
  | [] => mret true
  | x :: l' => r ← f x; if (r : bool) then all_of f l' else mret false
  end.

Definition collect_targets (arena : list stmt_node) (roots : list Z) : option (list bool) :=
  fold_left (fun acc r => match acc with Some o => collect_assigned_signals (S (length arena)) arena r o | None => None end)
    roots (Some (replicate (length (cm_signal_names m)) false)).

(** ** always_comb *)

Fixpoint comb_roots (arena : list stmt_node) (targets : list bool) (roots : list Z) (e : comb_env) : Sy (option comb_env) :=
  match roots with
  | [] => mret (Some e)
  | r :: rest =>
      x ← synth_stmt_comb chunk_models chunk_nodes addr first_a (cm_expr_nodes m) sig_nodes arena targets r e;
      match x with Some e' => comb_roots arena targets rest e' | None => mret None end
  end.

(** The driver of one target: a buffer when the block always assigns it, else
    a latch that is open when it does. *)
Definition comb_driver (drive : Z -> bool) (e : comb_env) (sig : Z) : Sy bool :=
  if negb (drive sig) then mret true
  else match vat sig_nodes sig, vat (ce_value e) sig, vat (ce_assigned e) sig with
       | Some lhs, Some rhs, Some asg =>
           match lhs, rhs with
           | Some _, Some _ =>
               av ← try_get_const asg;
               if bool_decide (av = Some sH) then emit_driver (m_YES YES.default) [rhs] lhs
               else emit_driver (m_DLATCH DLATCH.default) [rhs; asg] lhs
           | _, _ => mret true
           end
       | _, _, _ => undefined
       end.

Definition targets_of (targets : list bool) : list Z := List.filter (targeted targets) (indices (length targets)).

Definition synth_comb_block (arena : list stmt_node) (roots : list Z) (targets : list bool) (drive : Z -> bool) : Sy bool :=
  z ← const_node sL;
  r ← comb_roots arena targets roots {| ce_value := sig_nodes; ce_assigned := replicate (length (cm_signal_names m)) z |};
  match r with
  | None => mret false
  | Some e => all_of (comb_driver drive e) (targets_of targets)
  end.

(** One block of the loop: [info] has the reads of the module, and the stamps
    go on. *)
Definition synth_always_comb (info : read_info) (stamp : Z) (s : reads) (ac : always_comb) : Sy (option (Z * reads)) :=
  let stamp' := u32_wrap (stamp + 1) in
  match collect_targets (ac_stmt_nodes ac) (ac_roots ac), block_reads m (ac_stmt_nodes ac) (ac_roots ac) stamp' s with
  | Some targets, Some s' =>
      done ← synth_comb_block (ac_stmt_nodes ac) (ac_roots ac) targets (drives m info s' stamp');
      mret (if (done : bool) then Some (stamp', s') else None)
  | _, _ => undefined
  end.

Fixpoint synth_always_combs (info : read_info) (stamp : Z) (s : reads) (l : list always_comb) : Sy bool :=
  match l with
  | [] => mret true
  | ac :: l' =>
      r ← synth_always_comb info stamp s ac;
      match r with Some (stamp', s') => synth_always_combs info stamp' s' l' | None => mret false end
  end.

(** ** always_ff *)

Definition clock_node (ev : sensitivity_event) : Sy (option nodep) :=
  match vat sig_nodes (se_signal ev) with
  | None => fail "pe_synth: always_ff clock signal out of range"
  | Some None => fail "pe_synth: null clk node"
  | Some clk => match se_k ev with ev_negedge => n ← gate_not clk; mret (Some n) | _ => mret (Some clk) end
  end.

Definition first_edge (events : list sensitivity_event) : nat :=
  match List.find (fun p => is_edge p.2) (imap pair events) with Some p => p.1 | None => O end.

(** The clock, the active-low reset and the reset values of a block with
    several events. *)
Definition async_reset (ff : always_ff) (targets : list bool) : Sy (option (nodep * nodep * reset_env)) :=
  let arena := ff_stmt_nodes ff in
  match find_async_reset_if_stmt arena (ff_roots ff) with
  | None => fail "pe_synth: async-reset always_ff requires a single top-level if"
  | Some if_stmt =>
      match vat arena if_stmt, ff_events ff !! first_edge (ff_events ff) with
      | Some ifn, Some clk_ev =>
          ck ← clock_node clk_ev;
          match ck with
          | None => mret None
          | Some clk =>
              raw ← expr_in_env chunk_models chunk_nodes first_a (cm_expr_nodes m) sig_nodes (sn_expr_root ifn) sig_nodes None;
              t ← const_node sH;
              cond_true ← gate_case_eq raw t;
              good ← ok;
              let e0 : reset_env := (replicate (length (cm_signal_names m)) sX, replicate (length (cm_signal_names m)) false) in
              let collect l := fold_opt (fun i e => if (good : bool) then try_collect_async_reset_values (S (length arena)) inst m targets arena i e else None) l e0 in
              let finish (is_then : bool) (e : reset_env) : Sy (option (nodep * nodep * reset_env)) :=
                active ← (if is_then then mret cond_true else gate_not cond_true);
                arst_n ← gate_not active;
                mret (Some (clk, arst_n, e)) in
              match collect (sn_stmts ifn), collect (sn_else_stmts ifn) with
              | Some te, None => finish true te
              | None, Some ee => finish false ee
              | Some te, Some ee =>
                  let is_then := default true (infer_reset_is_then (cm_expr_nodes m) (sn_expr_root ifn) (ff_events ff) (first_edge (ff_events ff))) in
                  finish is_then (if is_then then te else ee)
              | None, None => fail "pe_synth: async reset requires one branch to be constant-only"
              end
          end
      | _, _ => undefined
      end
  end.

Definition ff_control (ff : always_ff) (targets : list bool) : Sy (option (nodep * nodep * reset_env)) :=
  let e0 : reset_env := (replicate (length (cm_signal_names m)) sX, replicate (length (cm_signal_names m)) false) in
  match ff_events ff with
  | [] => fail "pe_synth: always_ff requires at least 1 event"
  | [ev] => ck ← clock_node ev; mret (match ck with Some clk => Some (clk, None, e0) | None => None end)
  | _ => async_reset ff targets
  end.

Fixpoint ff_roots_stmts (arena : list stmt_node) (targets : list bool) (roots : list Z) (e : ff_env) : Sy (option ff_env) :=
  match roots with
  | [] => mret (Some e)
  | r :: rest =>
      x ← synth_stmt_ff chunk_models chunk_nodes addr first_a (cm_expr_nodes m) sig_nodes arena targets r e;
      match x with Some e' => ff_roots_stmts arena targets rest e' | None => mret None end
  end.

Definition dff_arstn (v : logic_t) : device :=
  m_DFF_ARSTN {| DFF_ARSTN.a_pins := DFF_ARSTN.a_pins DFF_ARSTN.default; DFF_ARSTN.a_Ll := DFF_ARSTN.a_Ll DFF_ARSTN.default;
                 DFF_ARSTN.a_Hl := DFF_ARSTN.a_Hl DFF_ARSTN.default; DFF_ARSTN.q := DFF_ARSTN.q DFF_ARSTN.default;
                 DFF_ARSTN.reset_value := v; DFF_ARSTN.last_clk := DFF_ARSTN.last_clk DFF_ARSTN.default |}.

(** The flip-flop of one target. *)
Definition ff_register (clk arst_n : nodep) (resets : reset_env) (next : list nodep) (sig : Z) : Sy bool :=
  match vat sig_nodes sig, vat next sig with
  | Some q, Some d =>
      match q, d with
      | Some _, Some _ =>
          match arst_n, flag resets.2 sig with
          | Some _, true => emit_driver (dff_arstn (default sX (vat resets.1 sig))) [d; clk; arst_n] q
          | _, _ => emit_driver (m_DFF DFF.default) [d; clk] q
          end
      | _, _ => mret true
      end
  | _, _ => undefined
  end.

Definition synth_always_ff (ff : always_ff) : Sy bool :=
  match collect_targets (ff_stmt_nodes ff) (ff_roots ff) with
  | None => undefined
  | Some targets =>
      if existsb (fun sig => negb (flag (cm_signal_is_reg m) sig)) (targets_of targets)
      then _ ← set_error "pe_synth: always_ff assigns to non-reg (unsupported)"; mret false
      else
        ctl ← ff_control ff targets;
        match ctl with
        | None => mret false
        | Some (clk, arst_n, resets) =>
            r ← ff_roots_stmts (ff_stmt_nodes ff) targets (ff_roots ff) {| fe_cur := sig_nodes; fe_next := sig_nodes |};
            match r with
            | None => mret false
            | Some e => all_of (ff_register clk arst_n resets (fe_next e)) (targets_of targets)
            end
        end
  end.

(** ** The random generator *)

Definition named_node (name : string) : nodep :=
  match cm_signal_index m !! name with Some s => signal sig_nodes s | None => None end.

Fixpoint rng_outputs (rng : impl_ptr) (i : Z) (bits : list Z) : Sy bool :=
  match bits with
  | [] => mret true
  | b :: rest =>
      r ← match signal sig_nodes b with None => mret true | out => connect_driver rng i out end;
      if (r : bool) then rng_outputs rng (i + 1) rest else mret false
  end.

Definition synth_urandom : Sy bool :=
  match cm_vectors m !! "$urandom"%string with
  | None => mret true
  | Some vd =>
      if negb (length (vd_bits vd) =? 4)%nat
      then _ ← set_error "pe_synth: $urandom/$random internal bus width mismatch (expected [3:0])"; mret false
      else match named_node "clk" with
           | None => _ ← set_error "pe_synth: $urandom/$random requires a 1-bit signal named 'clk'"; mret false
           | clk =>
               rstn ← match named_node "rst_n" with
                      | Some n => mret (Some n)
                      | None => match named_node "reset_n" with Some n => mret (Some n) | None => const_node sH end
                      end;
               rng ← new_model chunk_models (m_RANDOM_GENERATOR4 RANDOM_GENERATOR4.default);
               q ← rng_outputs rng 0 (vd_bits vd);
               if negb q then mret false
               else a ← connect_pin rng 4 clk;
                    if negb a then mret false else connect_pin rng 5 rstn
           end
  end.
End Module.

(** ** The instance *)

(** The builder of an instance has a cache of its own, empty at first; the parent's is put back at the end. *)
Definition with_own_cache {A} (k : Lw A) : Lw A := fun s =>
  match k (s.1, ∅) with Some (r, (c, _)) => Some (r, (c, s.2)) | None => None end.

(** Two parts in sequence; the second is not run when the first fails. *)
Definition then_ {S} (k1 k2 : St S bool) : St S bool := r ← k1; if (r : bool) then k2 else mret false.

Fixpoint synth_instance (fuel : nat) (inst : instance_state) (parent : option parent_builder) (top_ports : list nodep) : Lw bool :=
  match fuel with
  | O => undefined
  | S fuel' =>
      good ← on_ctx ok;
      if negb good then mret false
      else match is_mod inst with
      | None => _ ← on_ctx (set_error "pe_synth: instance has no module"); mret false
      | Some m =>
          bound ← bind_ports inst parent top_ports (imap pair (cm_ports m)) (replicate (length (cm_signal_names m)) None);
          match bound with
          | None => mret false
          | Some ports =>
              sig_nodes ← on_ctx (bind_rest inst m 0 ports);
              with_own_cache
                (then_ (all_of (synth_assign m sig_nodes) (cm_assigns m))
                  (then_ (match parent with
                          | Some pb => on_ctx (all_of (synth_output_drive sig_nodes pb) (is_output_drives inst))
                          | None => mret true
                          end)
                  (then_ (comb ← on_ctx (option_of support_always_comb);
                          if (comb : bool) then
                            match module_reads m with
                            | Some info => on_ctx (synth_always_combs m sig_nodes info (ri_stamp info) (ri_reads info) (cm_always_combs m))
                            | None => undefined
                            end
                          else match cm_always_combs m with
                               | [] => mret true
                               | _ => _ ← on_ctx (set_error "pe_synth: always_comb not supported by options"); mret false
                               end)
                  (then_ (ffs ← on_ctx (option_of support_always_ff);
                          if (ffs : bool) then on_ctx (all_of (synth_always_ff inst m sig_nodes) (cm_always_ffs m))
                          else match cm_always_ffs m with
                               | [] => mret true
                               | _ => _ ← on_ctx (set_error "pe_synth: always_ff not supported by options"); mret false
                               end)
                  (then_ (on_ctx (synth_urandom m sig_nodes))
                  (then_ (all_of (fun child => synth_instance fuel' child (Some {| pa_module := m; pa_sig_nodes := sig_nodes |}) []) (is_children inst))
                  (on_ctx ok)))))))
          end
      end
  end.
End Instance.
