(* ===== verification/SynthBlock.v ===== *)
(** * SynthBlock: the netlist of an [always_comb] block

    [synth_comb_block] of [SynthInstance] on top of the simulation of
    [SynthComb]: the targets that [collect_targets] marks cover every
    assignment of the block, the statements are lowered one after the other,
    and each driven target gets a buffer or a latch.  The theorem: the lowering
    succeeds, and in every stable valuation of the netlist the block is at
    rest, as the simulator runs it. *)

From Stdlib Require Import ZArith Lia.
From stdpp Require Import base list gmap strings.
From S2P Require Import Prelude Store Logic4 Gates Devices Sequential Model.
From S2P Require Import Reaction Reactions Netlist NetlistOps.
From S2P Require Import VData VExpr VCache VStmt VStmtInv VStmtClaims VRuntime.
From S2P Require Import SynthNet SynthNetLemmas SynthLower SynthStmt SynthSim SynthComb SynthInstance.

Open Scope Z_scope.

(** ** The targets of a block *)

(** A signal is no variable of the module, or is marked. *)
Definition covered (out : list bool) (s : Z) : bool := (vsize out <=? s) || targeted out s.

Record marks (out out' : list bool) : Prop := mk_marks {
  mk_length : length out' = length out;
  mk_covered : forall s, covered out s = true -> covered out' s = true
}.
#[export] Instance marks_preorder : PreOrder marks.
Proof. split; [by split|]. intros a b c [A1 A2] [B1 B2]. split; [congruence|auto]. Qed.

Lemma mark_marks out s : marks out (mark out s).
Proof.
  unfold mark. destruct (s <? vsize out) eqn:E; [|done]. split; [by rewrite length_vset|]. intros s'. unfold covered, targeted, vsize.
  rewrite length_vset. destruct (decide (s = s')) as [<-|Hne]; [|by rewrite vat_vset_ne].
  destruct (vat out s) as [b|] eqn:Ev; [|intros H; rewrite orb_false_r in H; by rewrite H].
  apply vat_Some in Ev as [Hs _]. rewrite vat_vset by done. intros _. by rewrite orb_true_r.
Qed.
Lemma mark_covered out s : 0 <= s -> covered (mark out s) s = true.
Proof.
  intros Hs. unfold mark, covered, targeted, vsize. destruct (s <? _) eqn:E.
  - rewrite vat_vset; [by rewrite orb_true_r|]. unfold vsize. apply Z.ltb_lt in E. lia.
  - apply Z.ltb_ge in E. by rewrite (proj2 (Z.leb_le _ _)).
Qed.

Lemma fold_mark sigs : forall out, Forall (Z.le 0) sigs ->
  marks out (fold_left mark sigs out) /\ forallb (covered (fold_left mark sigs out)) sigs = true.
Proof.
  induction sigs as [|s sigs IH]; intros out Hs; [done|]. apply Forall_cons in Hs as [Hs Hss]. cbn [fold_left forallb].
  destruct (IH (mark out s) Hss) as [Hm Hc]. split; [etrans; [apply mark_marks|done]|]. rewrite Hc, andb_true_r.
  apply Hm. by apply mark_covered.
Qed.

Lemma covered_marks out out' sigs : marks out out' -> forallb (covered out) sigs = true -> forallb (covered out') sigs = true.
Proof. intros [_ H] Hs. apply forallb_forall. intros s Hin. apply H. by eapply forallb_forall in Hs. Qed.

(** Marking the parts in a row. *)
Lemma fold_collect (f : Z -> list bool -> option (list bool)) (T : list bool -> Z -> bool) l :
  Forall (fun i => forall out, exists out', f i out = Some out' /\ marks out out' /\ forall o, marks out' o -> T o i = true) l ->
  forall out, exists out', fold_left (fun acc s => match acc with Some o => f s o | None => None end) l (Some out) = Some out' /\
    marks out out' /\ forall o, marks out' o -> forallb (T o) l = true.
Proof.
  induction 1 as [|i l Hi Hl IH]; intros out; [by exists out|]. destruct (Hi out) as (o1 & E1 & M1 & T1).
  destruct (IH o1) as (o2 & E2 & M2 & T2). exists o2. cbn [fold_left forallb]. rewrite E1. split_and!; [done|by etrans|].
  intros o Ho. rewrite T2 by done. rewrite T1; [done|]. by etrans.
Qed.

Definition covers (P : stmt_node -> bool) (out : list bool) (n : stmt_node) : bool := P n && forallb (covered out) (assigned_here n).

Lemma collect_covers (P : stmt_node -> bool) arena : (forall n, P n = true -> Forall (Z.le 0) (assigned_here n)) ->
  forall fuel i, all_below P fuel arena i = true -> forall out, exists out',
  collect_assigned_signals fuel arena i out = Some out' /\ marks out out' /\
  forall o, marks out' o -> all_below (covers P o) fuel arena i = true.
Proof.
  intros HP. induction fuel as [|fuel IH]; intros i Hb out; [done|]. cbn [all_below collect_assigned_signals] in *.
  destruct (vat arena i) as [n|] eqn:En; [|done]. apply andb_true_iff in Hb as [Hn Hch].
  pose proof (proj1 (vat_Some _ _ _) En) as [Hi _]. rewrite (proj2 (Z.leb_gt _ _)) by lia.
  destruct (fold_mark (assigned_here n) out (HP n Hn)) as [M1 C1].
  destruct (fold_collect (collect_assigned_signals fuel arena) (fun o => all_below (covers P o) fuel arena) (assigned_children n))
    with (out := fold_left mark (assigned_here n) out) as (o2 & E2 & M2 & T2).
  { apply Forall_forall. intros s Hs. apply IH. eapply forallb_forall in Hch; [exact Hch|]. by apply list_elem_of_In. }
  exists o2. split_and!; [done|by etrans|]. intros o Ho. rewrite T2 by done. unfold covers at 1. rewrite Hn.
  rewrite (covered_marks (fold_left mark (assigned_here n) out)); [done| |done]. by etrans.
Qed.

Lemma all_below_mono (P Q : stmt_node -> bool) arena : (forall n, P n = true -> Q n = true) ->
  forall fuel i, all_below P fuel arena i = true -> all_below Q fuel arena i = true.
Proof.
  intros H. induction fuel as [|fuel IH]; intros i Hb; [done|]. cbn [all_below] in *. destruct (vat arena i) as [n|]; [|done].
  apply andb_true_iff in Hb as [Hn Hch]. rewrite H by done. cbn [andb]. apply forallb_forall. intros s Hs. apply IH.
  by eapply forallb_forall in Hch.
Qed.

(** Statements of an [always_comb] whose lowering simulates them: no delays,
    no jumps, no nonblocking assignments. *)
Definition blocking_stmt (loops : bool) (nodes : list expr_node) (n : stmt_node) : bool :=
  lowered_stmt loops nodes n &&
  match sn_k n with sk_nonblocking_assign | sk_nonblocking_assign_vec => false | _ => true end.

Definition blocking_below (loops : bool) (nodes : list expr_node) (arena : list stmt_node) (i : Z) : bool :=
  all_below (blocking_stmt loops nodes) (S (length arena)) arena i.

Lemma lowered_assigned loops nodes n : lowered_stmt loops nodes n = true -> Forall (Z.le 0) (assigned_here n).
Proof.
  unfold lowered_stmt. rewrite !andb_true_iff. intros (_ & H). assert (Hr : Forall (Z.le 0) (roots_used n)).
  { eapply forallb_Forall; [|exact H]. intros r. apply Z.leb_le. }
  unfold roots_used in Hr. rewrite !Forall_app, !Forall_cons in Hr. destruct Hr as ((Hl & _) & Hls & _). unfold assigned_here. destruct (sn_k n); auto.
Qed.

Lemma env_ok_grows sig_nodes c c' l : grows c c' -> env_ok sig_nodes c l -> env_ok sig_nodes c' l.
Proof. intros Hg (ps & -> & Hl & Hps). exists ps. split_and!; [done..|]. eapply Forall_impl; [exact Hps|]. apply (gr_has _ _ Hg). Qed.

(** The roots as the simulator runs them. *)
Lemma roots_run m arena tick roots : forall st (Q : xstate -> Prop),
  wp_seq (map (exec_stmt m (S (length arena)) arena tick false) roots) (st, Some fl_none) Q ->
  exists b st', sor (exec_root m arena tick) roots st = Some (b, st') /\ Q (st', Some fl_none).
Proof.
  induction roots as [|r roots IH]; intros st Q H; [by exists false, st|]. cbn [map] in H. apply wp_result in H as (b & [st1 f1] & E1 & Hf & H1).
  simpl in Hf. subst f1. destruct (IH st1 Q H1) as (b2 & st2 & E2 & HQ). exists (b2 || b), st2. split; [|done].
  cbn [sor]. unfold mbind, St_bind. unfold exec_root at 1. rewrite E1. unfold mbind, St_bind. by rewrite E2.
Qed.

Section Block.
Context (chunk_models chunk_nodes : nat) (Hchunk : (0 < chunk_models <= 4096)%nat).
Context (addr : node_ptr -> Z) (first_a : Z -> bool) (m : compiled_module).
Abbreviation nodes := (cm_expr_nodes m).
Context (Harena : arena_ok nodes) (Hzops : no_z_operands nodes).
Context (sig_nodes : list nodep) (Hlen : length sig_nodes = length (cm_signal_names m)).
Context (Hsig : forall i n, vat nodes i = Some n -> en_kind n = ek_signal -> 0 <= en_signal n < vsize sig_nodes).
Context (opt : pe_synth_options) (Hbin : assume_binary_inputs opt = false).
#[local] Set Default Proof Using "Type".

Lemma collect_targets_covers (P : stmt_node -> bool) arena roots : (forall n, P n = true -> Forall (Z.le 0) (assigned_here n)) ->
  Forall (fun r => all_below P (S (length arena)) arena r = true) roots ->
  exists targets, collect_targets m arena roots = Some targets /\ length targets = length (cm_signal_names m) /\
    Forall (fun r => all_below (covers P targets) (S (length arena)) arena r = true) roots.
Proof.
  intros HP Hr. destruct (fold_collect (collect_assigned_signals (S (length arena)) arena)
    (fun o => all_below (covers P o) (S (length arena)) arena) roots)
    with (out := replicate (length (cm_signal_names m)) false) as (o & E & M & T).
  { eapply Forall_impl; [exact Hr|]. intros r Hb. by eapply collect_covers. }
  exists o. split_and!; [done|rewrite (mk_length _ _ M); apply length_replicate|]. apply Forall_forall. intros r Hin.
  specialize (T o (reflexivity o)). by eapply forallb_forall in T; [|by apply list_elem_of_In].
Qed.

Lemma collect_targets_ok loops arena roots : Forall (fun r => blocking_below loops nodes arena r = true) roots ->
  exists targets, collect_targets m arena roots = Some targets /\ length targets = length (cm_signal_names m) /\
    Forall (fun r => all_below (comb_stmt m sig_nodes targets loops) (S (length arena)) arena r = true) roots.
Proof using Hlen.
  intros Hr. destruct (collect_targets_covers (blocking_stmt loops nodes) arena roots) as (o & E & Hl & T); [|done|].
  { intros n Hn. apply andb_true_iff in Hn as [Hn _]. by eapply lowered_assigned. }
  exists o. split_and!; [done..|]. eapply Forall_impl; [exact T|]. intros r. apply all_below_mono. intros n Hn. unfold covers in Hn.
  apply andb_true_iff in Hn as [Hn Hc]. unfold comb_stmt. unfold blocking_stmt in Hn. rewrite Hn. cbn [andb].
  unfold covered, vsize in Hc. rewrite Hl, <- Hlen in Hc. exact Hc.
Qed.

(** ** The statements *)

Section Targets.
Context (targets : list bool) (Htargets : length targets = length sig_nodes) (e0 : comb_env) (st0 : module_state).
Abbreviation wf := (wf_comb sig_nodes targets e0).

Lemma comb_roots_sim loops tick arena : (loops = true -> loop_unroll_limit opt = max_iter) -> forall roots c e,
  Forall (fun r => all_below (comb_stmt m sig_nodes targets loops) (S (length arena)) arena r = true) roots ->
  ready chunk_models opt c -> wf c e ->
  wp (comb_roots chunk_models chunk_nodes addr first_a m sig_nodes arena targets roots e) c
    (sim chunk_models wf (comb_carries st0) c e (map (exec_stmt m (S (length arena)) arena tick false) roots)).
Proof using Hchunk Harena Hzops Hsig Hbin Htargets.
  intros Hl. induction roots as [|r roots IH]; intros c e Hr Hc We; cbn [comb_roots map]; [by eapply sim_ret|].
  apply Forall_cons in Hr as [Hr Hrs]. change (?x :: ?l) with ([x] ++ l). eapply (sim_bind chunk_models opt); [|by auto|done].
  by eapply (synth_stmt_comb_sim chunk_models chunk_nodes Hchunk addr first_a m Harena Hzops sig_nodes Hsig opt Hbin targets Htargets).
Qed.

(** ** The drivers *)

(** A target follows its value when it is assigned. *)
Definition follows (σ : valuation) (e : comb_env) (s : Z) : Prop := forall v,
  node_at σ (ce_value e) s v -> node_at σ (ce_assigned e) s sH -> v <> sZ -> node_at σ sig_nodes s v.

Lemma comb_driver_spec (drive : Z -> bool) c e s p : ready chunk_models opt c -> wf c e -> vat sig_nodes s = Some (Some p) -> has c p ->
  (drive s = true -> may_drive c p) ->
  wp (comb_driver chunk_models sig_nodes drive e s) c (fun r c' => r = true /\ cx_inv chunk_models c' /\ grows c c' /\
    (forall x, x <> p -> driver_count c' !! x = driver_count c !! x) /\
    (drive s = false -> c' = c) /\ (drive s = true -> forall σ, stable c' σ -> follows σ e s)).
Proof using Hchunk.
  intros [Hc Ho] We Hp Hh Hm. unfold comb_driver. destruct (drive s) eqn:Ed; cbn [negb].
  2: { apply wp_ret. by split_and!. }
  assert (Hs : 0 <= s < vsize sig_nodes) by (by apply vat_is_Some; eexists).
  destruct (env_ok_at sig_nodes c _ s (wc_value _ _ _ _ _ We) Hs) as (q & Hq & Hhq).
  destruct (env_ok_at sig_nodes c _ s (wc_assigned _ _ _ _ _ We) Hs) as (a & Ha & Hha). rewrite Hp, Hq, Ha.
  apply wp_bind. unfold wp at 1, try_get_const. case_bool_decide as Ec.
  - eapply wp_mono; [apply (emit_driver_spec chunk_models Hchunk c (m_YES YES.default) [q] p); [done| |done|by repeat constructor|done|by apply Hm]|].
    { by intros [|[|i]] pn _ [= <-]. }
    intros r c' (-> & (I & G & _ & ip & Hip) & Hk). split_and!; try done. intros _ σ Hst v (q' & Hq' & <-) _ _.
    rewrite Hq in Hq'. injection Hq' as <-. exists p. split; [done|]. specialize (Hst ip _ Hip).
    by eapply (sat_gate1 σ m_YES YES.output_res) in Hst; [|reflexivity..].
  - eapply wp_mono; [apply (emit_driver_spec chunk_models Hchunk c (m_DLATCH DLATCH.default) [q; a] p); [done| |done|by repeat constructor|done|by apply Hm]|].
    { by intros [|[|[|i]]] pn _ [= <-]. }
    intros r c' (-> & (I & G & _ & ip & Hip) & Hk). split_and!; try done. intros _ σ Hst v (q' & Hq' & <-) (a' & Ha' & Hav) Hz.
    rewrite Hq in Hq'. injection Hq' as <-. rewrite Ha in Ha'. injection Ha' as <-. exists p. split; [done|]. specialize (Hst ip _ Hip).
    by eapply sat_DLATCH in Hst; [|reflexivity|done|done].
Qed.

(** The nodes to drive have no driver and differ, or several drivers are
    allowed. *)
Definition drivable (c : synth_context) (sigs : list Z) : Prop :=
  allow_multi_driver opt = true \/
  NoDup (map (vat sig_nodes) sigs) /\ Forall (fun s => forall p, vat sig_nodes s = Some (Some p) -> driver_count c !! p = None) sigs.

Lemma drivable_next c c' s sigs p : vat sig_nodes s = Some (Some p) -> drivable c (s :: sigs) ->
  (forall x, x <> p -> driver_count c' !! x = driver_count c !! x) -> drivable c' sigs.
Proof.
  intros Hp [H|[Hd Hf]] Hk; [by left|]. right. cbn [map] in Hd. apply NoDup_cons in Hd as [Hn Hd]. apply Forall_cons in Hf as [_ Hf].
  split; [done|]. apply Forall_forall. intros s' Hs' q Hq. rewrite Hk; [by eapply Forall_forall in Hf; [apply Hf|]|].
  intros ->. apply Hn. apply list_elem_of_fmap. exists s'. split; [congruence|done].
Qed.

Lemma drivable_extends c c' sigs : env_ok sig_nodes c sig_nodes -> extends c c' -> drivable c sigs -> drivable c' sigs.
Proof.
  intros Hn He [Hd|[Hnd Hf]]; [by left|right]. split; [done|]. eapply Forall_impl; [exact Hf|]. intros s Hs p Hp.
  rewrite (ex_drivers _ _ He); [by apply Hs|]. destruct (env_ok_at sig_nodes c sig_nodes s Hn) as (q & Hq & Hh); [by apply vat_is_Some; eexists|].
  by simplify_eq.
Qed.

Lemma comb_drivers_spec (drive : Z -> bool) e sigs : Forall (fun s => 0 <= s < vsize sig_nodes) sigs -> forall c,
  ready chunk_models opt c -> wf c e -> env_ok sig_nodes c sig_nodes -> drivable c (List.filter drive sigs) ->
  wp (all_of (comb_driver chunk_models sig_nodes drive e) sigs) c (fun r c' => r = true /\ cx_inv chunk_models c' /\ grows c c' /\
    forall σ s, stable c' σ -> s ∈ sigs -> drive s = true -> follows σ e s).
Proof using Hchunk.
  induction 1 as [|s sigs Hs Hss IH]; intros c Hc We Hn Hd; cbn [all_of].
  { apply wp_ret. split_and!; try done; [apply Hc|]. intros σ s _ H. by apply elem_of_nil in H. }
  destruct (env_ok_at sig_nodes c _ s Hn Hs) as (p & Hp & Hh). apply wp_bind.
  eapply wp_mono; [apply (comb_driver_spec drive c e s p); try done|].
  { intros Ed. cbn [List.filter] in Hd. rewrite Ed in Hd. destruct Hc as [_ Ho]. destruct Hd as [H|[_ Hf]]; [right; by rewrite Ho|left].
    apply Forall_cons in Hf as [Hf _]. by apply Hf. }
  intros r c1 (-> & I1 & G1 & K1 & S1 & F1).
  assert (W1 : wf c1 e) by (destruct We; split; [by eapply env_ok_grows..|done]).
  eapply wp_mono; [apply (IH c1); [split; [done|by rewrite (gr_opt _ _ G1); apply Hc]|done|by eapply env_ok_grows|]|].
  { cbn [List.filter] in Hd. destruct (drive s) eqn:Ed; [by eapply drivable_next|]. by rewrite S1. }
  intros r c2 (-> & I2 & G2 & F2). split_and!; [done|done|by etrans|]. intros σ s' Hst [->|Hin]%elem_of_cons Ed; [|by apply F2].
  apply F1; [done|]. by eapply stable_grows.
Qed.
End Targets.

(** ** The block *)

(** Every signal has a node, and the nodes carry the values of the state,
    none of them [Z]. *)
Definition block_carries (σ : valuation) (st : module_state) : Prop :=
  Forall2 (node_is σ) sig_nodes (ms_values st) /\ Forall (fun v => v <> sZ) (ms_values st).

(** The block is at rest on its driven targets. *)
Definition at_rest (arena : list stmt_node) (roots : list Z) (targets : list bool) (drive : Z -> bool) (tick : Z) (st : module_state) : Prop :=
  exists b st', sor (exec_root m arena tick) roots st = Some (b, st') /\ sane st' /\
    forall s, targeted targets s = true -> drive s = true -> vat (ms_values st') s = vat (ms_values st) s.

Definition block_driven (targets : list bool) (drive : Z -> bool) : list Z := List.filter drive (targets_of targets).

Lemma targets_of_elem targets s : s ∈ targets_of targets <-> targeted targets s = true.
Proof.
  unfold targets_of. rewrite list_elem_of_In, filter_In, <- list_elem_of_In, indices_elem. split; [by intros [_ ?]|]. intros H.
  split; [|done]. unfold targeted in H. destruct (vat targets s) eqn:E; [|done]. by apply vat_Some in E as [E _].
Qed.

Lemma start_carries σ st z : block_carries σ st -> σ z = sL ->
  comb_carries st σ {| ce_value := sig_nodes; ce_assigned := replicate (length (cm_signal_names m)) (Some z) |} st.
Proof.
  intros [Hv Hz] Ez. split; simpl; try done. intros s a (p & Hp & <-). apply vat_Some in Hp as [_ Hp].
  apply lookup_replicate in Hp as [[= ->] _]. by rewrite Ez.
Qed.

(** A target at rest: assigned, it follows its value; not assigned, the value
    has not changed. *)
Lemma target_rests targets e0 c σ e st st' s : block_carries σ st -> wf_comb sig_nodes targets e0 c e -> comb_carries st σ e st' ->
  follows σ e s -> 0 <= s < vsize sig_nodes -> vat (ms_values st') s = vat (ms_values st) s.
Proof.
  intros [Hv _] We HR Hf Hs. pose proof (env_ok_size _ _ _ (wc_value _ _ _ _ _ We)) as Sv.
  destruct (comb_value_at st σ e st' s HR) as (v & Ev & Nv & Hz); [by rewrite Sv|].
  destruct (env_ok_at sig_nodes c _ s (wc_assigned _ _ _ _ _ We) Hs) as (a & Ha & _).
  assert (Na : node_at σ (ce_assigned e) s (σ a)) by (by exists a). destruct (cc_assigned _ _ _ _ HR s _ Na) as [Hb Hl].
  destruct (σ a); try discriminate Hb; [by apply Hl|]. rewrite Ev. symmetry.
  destruct (proj1 (Forall2_node_at _ _ _) Hv) as [Hsz Hat]. destruct (proj2 (vat_is_Some (ms_values st) s)) as [w Hw]; [by rewrite <- Hsz|].
  rewrite Hw. f_equal. eapply node_at_fun; [by apply Hat|]. by apply Hf.
Qed.

Lemma comb_block_spec loops tick arena roots targets (drive : Z -> bool) c :
  Forall (fun r => blocking_below loops nodes arena r = true) roots -> (loops = true -> loop_unroll_limit opt = max_iter) ->
  collect_targets m arena roots = Some targets -> ready chunk_models opt c -> env_ok sig_nodes c sig_nodes ->
  drivable c (block_driven targets drive) ->
  wp (synth_comb_block chunk_models chunk_nodes addr first_a m sig_nodes arena roots targets drive) c (fun r c' =>
    r = true /\ cx_inv chunk_models c' /\ grows c c' /\
    forall σ st, stable c' σ -> sane st -> block_carries σ st -> at_rest arena roots targets drive tick st).
Proof using Hchunk Hlen Harena Hzops Hsig Hbin.
  intros Hr Hl Ht Hc Hn Hd. destruct (collect_targets_ok loops arena roots Hr) as (t & Et & Htl & Hb). rewrite Ht in Et. injection Et as <-.
  assert (Htg : length targets = length sig_nodes) by congruence.
  unfold synth_comb_block. apply wp_bind. eapply wp_mono; [apply const_node_spec; [done|apply Hc]|]. intros x c1 (z & -> & I1 & E1 & H1 & P1).
  set (e0 := {| ce_value := sig_nodes; ce_assigned := _ |}). assert (Hc1 : ready chunk_models opt c1) by (by eapply ready_extends).
  assert (Hn1 : env_ok sig_nodes c1 sig_nodes) by (by eapply env_ok_extends).
  assert (W1 : wf_comb sig_nodes targets e0 c1 e0).
  { split; [done| |done]. exists (replicate (length sig_nodes) z). rewrite Hlen, length_replicate. split_and!; [symmetry; apply fmap_replicate|done|].
    by apply Forall_replicate. }
  assert (Hsim := fun st0 => comb_roots_sim targets Htg e0 st0 loops tick arena Hl roots c1 e0 Hb Hc1 W1).
  destruct (wp_result _ _ _ (Hsim module_state_default)) as (r & c2 & Er & e & -> & I2 & E2 & W2 & _).
  apply wp_bind. unfold wp at 1. rewrite Er.
  assert (Hc2 : ready chunk_models opt c2) by (by eapply (ready_extends chunk_models opt c1)).
  assert (Hrng : Forall (fun s => 0 <= s < vsize sig_nodes) (targets_of targets)).
  { apply Forall_forall. intros s Hs. apply targets_of_elem in Hs. by eapply targeted_range. }
  eapply wp_mono; [apply (comb_drivers_spec targets e0 drive e); [done|done|done|by eapply env_ok_extends|]|].
  { apply (drivable_extends c); [done|by etrans|done]. }
  intros r c3 (-> & I3 & G3 & F3). split_and!; [done|done|by repeat (etrans; [by apply extends_grows|])|].
  intros σ st S3 Hst Hcar. assert (S2 : stable c2 σ) by (by eapply stable_grows). assert (S1 : stable c1 σ) by (by eapply stable_extends).
  specialize (Hsim st). unfold wp in Hsim. rewrite Er in Hsim. destruct Hsim as (e' & [= <-] & _ & _ & _ & Hrun).
  destruct (roots_run _ _ _ _ _ _ (Hrun σ S2 st Hst (start_carries σ st z Hcar (P1 σ S1)))) as (b & st' & Ex & _ & Hs' & HR').
  exists b, st'. split_and!; [done|done|]. intros s Htgs Eds. assert (Hin : s ∈ targets_of targets) by (by apply targets_of_elem).
  eapply target_rests; [done|exact W2|exact HR'|by apply F3|]. by eapply Forall_forall in Hrng.
Qed.
End Block.
