(* ===== verification/SynthReads.v ===== *)
(** * SynthReads: the analysis of the reads of a module

    [collect_expr_reads] and [collect_stmt_reads] of [SynthInstance].  The
    search over the expressions terminates within its fuel on any arena, since
    a node is entered once per stamp, and finds every signal the value of a
    root depends on; so a signal that gets no driver is not used by the
    continuous assignments. *)

From Stdlib Require Import ZArith Lia.
From stdpp Require Import base list gmap strings.
From S2P Require Import Prelude Store Logic4 Model Netlist.
From S2P Require Import VData VExpr VCache VStmt VStmtInv VRuntime.
From S2P Require Import SynthNet SynthLower SynthStmt SynthSim SynthComb SynthInstance SynthBlock.

Open Scope Z_scope.

(** ** Counting the nodes not yet seen *)

Definition unseen (stamp : Z) (l : list Z) : nat := length (filter (fun k => k <> stamp) l).

Lemma unseen_le stamp l : (unseen stamp l <= length l)%nat.
Proof. unfold unseen. apply length_filter. Qed.

Lemma unseen_insert stamp (l : list Z) i k : l !! i = Some k -> k <> stamp -> unseen stamp l = S (unseen stamp (<[i := stamp]> l)).
Proof.
  unfold unseen. revert i. induction l as [|x l IH]; intros [|i] Hi Hk; try done; simpl in Hi |- *.
  - injection Hi as ->. rewrite !filter_cons. by rewrite decide_True, decide_False by (done || auto).
  - rewrite !filter_cons. destruct (decide (x <> stamp)); simpl; by rewrite (IH i).
Qed.

Section Reads.
Context (nodes : list expr_node) (stamp : Z).
#[local] Set Default Proof Using "Type".

Definition seen (s : reads) (r : Z) : Prop := vat (rd_expr_seen s) r = Some stamp.
Definition sig_read (s : reads) (x : Z) : Prop := vat (rd_sig_seen s) x = Some stamp.

(** A node that was seen has its operands seen, or still on the stack. *)
Record reads_inv (stack : list Z) (s : reads) : Prop := mk_reads_inv {
  ri_length : length (rd_expr_seen s) = length nodes;
  ri_signals : forall r n, vat nodes r = Some n -> seen s r -> en_kind n = ek_signal -> 
    0 <= en_signal n < vsize (rd_sig_seen s) -> sig_read s (en_signal n);
  ri_parts : forall r n c, vat nodes r = Some n -> seen s r -> en_kind n <> ek_signal -> c = en_a n \/ c = en_b n ->
    c <> SIZE_MAX -> 0 <= c < vsize nodes -> seen s c \/ c ∈ stack;
  ri_out : forall x, sig_read s x -> x ∈ rd_out s
}.

(** What a search adds. *)
Record found (s s' : reads) : Prop := mk_found {
  fd_seen : forall r, seen s r -> seen s' r;
  fd_read : forall x, sig_read s x -> sig_read s' x;
  fd_signals : length (rd_sig_seen s') = length (rd_sig_seen s)
}.
#[export] Instance found_preorder : PreOrder found.
Proof. split; [by split|]. intros a b c [A1 A2 A3] [B1 B2 B3]. split; [auto|auto|congruence]. Qed.

Lemma part_in c i : c ∈ part i <-> c = i /\ i <> SIZE_MAX.
Proof. unfold part. destruct (i =? SIZE_MAX) eqn:E; [apply Z.eqb_eq in E|apply Z.eqb_neq in E]; set_solver. Qed.
Lemma part_length i : (length (part i) <= 1)%nat.
Proof. unfold part. destruct (i =? SIZE_MAX); simpl; lia. Qed.
Lemma vat_stamp (l : list Z) i j : 0 <= i < vsize l -> vat (vset l i stamp) j = Some stamp <-> i = j \/ vat l j = Some stamp.
Proof.
  intros Hi. destruct (decide (i = j)) as [<-|Hne]; [rewrite vat_vset by done; by split; [left|]|]. rewrite vat_vset_ne by done. naive_solver.
Qed.

(** One node of the search. *)
Definition visit (r : Z) (n : expr_node) (s : reads) : reads :=
  let es := vset (rd_expr_seen s) r stamp in
  match en_kind n with
  | ek_signal =>
      let sg := en_signal n in
      if (match vat (rd_sig_seen s) sg with Some k => negb (k =? stamp) | None => false end)
      then {| rd_expr_seen := es; rd_sig_seen := vset (rd_sig_seen s) sg stamp; rd_out := rd_out s ++ [sg] |}
      else {| rd_expr_seen := es; rd_sig_seen := rd_sig_seen s; rd_out := rd_out s |}
  | _ => {| rd_expr_seen := es; rd_sig_seen := rd_sig_seen s; rd_out := rd_out s |}
  end.
Definition visit_parts (n : expr_node) : list Z :=
  match en_kind n with ek_signal => [] | _ => part (en_b n) ++ part (en_a n) end.

Lemma visit_seen r n s : rd_expr_seen (visit r n s) = vset (rd_expr_seen s) r stamp.
Proof. unfold visit. destruct (en_kind n); try done. by destruct (match _ with Some _ => _ | None => _ end). Qed.

Lemma visit_signals r n s : let s' := visit r n s in
  length (rd_sig_seen s') = length (rd_sig_seen s) /\ (forall x, sig_read s x -> sig_read s' x) /\
  (en_kind n = ek_signal -> 0 <= en_signal n < vsize (rd_sig_seen s) -> sig_read s' (en_signal n)) /\
  (forall x, sig_read s' x -> sig_read s x \/ x ∈ rd_out s') /\ (forall x, x ∈ rd_out s -> x ∈ rd_out s').
Proof.
  unfold visit, sig_read. destruct (en_kind n); simpl; try (by split_and!; auto).
  destruct (vat (rd_sig_seen s) (en_signal n)) as [k|] eqn:Ek.
  - pose proof (proj1 (vat_Some _ _ _) Ek) as [Hr _]. destruct (k =? stamp) eqn:E; simpl.
    + apply Z.eqb_eq in E as ->. by split_and!; auto.
    + split_and!; [apply length_vset| | | |].
      * intros x Hx. apply vat_stamp; auto.
      * intros _ _. apply vat_stamp; auto.
      * intros x Hx. apply vat_stamp in Hx as [<-|Hx]; [right; set_solver|by left|done].
      * set_solver.
  - simpl. split_and!; auto. intros _ Hr. apply vat_None in Ek. lia.
Qed.

Lemma visit_inv r n rest s : vat nodes r = Some n -> reads_inv (r :: rest) s ->
  reads_inv (visit_parts n ++ rest) (visit r n s) /\ found s (visit r n s) /\ seen (visit r n s) r.
Proof.
  intros Hn [I1 I2 I3 I4]. pose proof (proj1 (vat_Some _ _ _) Hn) as [Hr _].
  assert (Hr' : 0 <= r < vsize (rd_expr_seen s)) by (unfold vsize in *; by rewrite I1).
  destruct (visit_signals r n s) as (V1 & V2 & V3 & V4 & V5).
  assert (Hs : forall j, seen (visit r n s) j <-> r = j \/ seen s j) by (intros j; unfold seen; rewrite visit_seen; by apply vat_stamp).
  split_and!; [split| |by apply Hs; left].
  - by rewrite visit_seen, length_vset.
  - intros r' n' Hn' Hs' Hk Hb. rewrite Hs in Hs'. unfold vsize in *. rewrite V1 in Hb.
    destruct Hs' as [<-|Hs']; [|by apply V2, (I2 r')]. rewrite Hn in Hn'. injection Hn' as <-. by apply V3.
  - intros r' n' c Hn' Hs' Hk Hc Hm Hb. rewrite Hs in Hs' |- *. destruct Hs' as [<-|Hs'].
    + rewrite Hn in Hn'. injection Hn' as <-. right. apply elem_of_app. left. unfold visit_parts.
      assert (c ∈ part (en_b n) ++ part (en_a n)) by (rewrite elem_of_app, !part_in; naive_solver). by destruct (en_kind n).
    + destruct (I3 r' n' c Hn' Hs' Hk Hc Hm Hb) as [H|[->|H]%elem_of_cons]; [by left; right|by left; left|right; set_solver].
  - intros x Hx. destruct (V4 x Hx) as [Hx'|]; [by apply V5, I4|done].
  - split; [intros j Hj; by apply Hs; right|done|done].
Qed.

Lemma expr_reads_visit fuel stack r n rest s k : stack = r :: rest -> r <> SIZE_MAX -> vat nodes r = Some n -> vat (rd_expr_seen s) r = Some k -> k <> stamp ->
  expr_reads (S fuel) nodes stamp stack s = expr_reads fuel nodes stamp (visit_parts n ++ rest) (visit r n s).
Proof.
  intros -> Hm Hn Hk Hne. pose proof (proj1 (vat_Some _ _ _) Hn) as [Hr _]. cbn [expr_reads].
  rewrite (proj2 (Z.eqb_neq _ _)) by done. rewrite (proj2 (Z.leb_gt _ _)) by lia. cbn [orb]. rewrite Hn, Hk.
  rewrite (proj2 (Z.eqb_neq _ _)) by done. unfold visit, visit_parts. destruct (en_kind n); cbn [app]; try by rewrite <- app_assoc. done.
Qed.

Lemma reads_inv_skip r rest s : reads_inv (r :: rest) s -> (r = SIZE_MAX \/ vsize nodes <= r \/ seen s r) -> reads_inv rest s.
Proof.
  intros [I1 I2 I3 I4] Hr. split; try done. intros r' n c Hn Hs Hk Hc Hm Hb.
  destruct (I3 r' n c Hn Hs Hk Hc Hm Hb) as [H|[->|H]%elem_of_cons]; [by left| |by right]. destruct Hr as [?|[?|?]]; [done|lia|by left].
Qed.

(** The operands are of type [size_t]. *)
Context (Hpos : forall i n, vat nodes i = Some n -> 0 <= en_a n /\ 0 <= en_b n).

Lemma visit_parts_length n : (length (visit_parts n) <= 2)%nat.
Proof.
  unfold visit_parts. pose proof (part_length (en_a n)). pose proof (part_length (en_b n)). destruct (en_kind n); rewrite ?length_app; simpl; lia.
Qed.
Lemma visit_parts_pos r n : vat nodes r = Some n -> Forall (Z.le 0) (visit_parts n).
Proof using Hpos.
  intros Hn. destruct (Hpos r n Hn) as [Pa Pb]. apply Forall_forall. intros c Hc. unfold visit_parts in Hc.
  assert (c ∈ part (en_b n) ++ part (en_a n)) as Hc' by (destruct (en_kind n); try done; by apply elem_of_nil in Hc).
  rewrite elem_of_app, !part_in in Hc'. destruct Hc' as [[-> _]|[-> _]]; done.
Qed.

(** The search ends within its fuel. *)
Lemma expr_reads_total fuel : forall stack s, Forall (Z.le 0) stack -> reads_inv stack s ->
  (length stack + 2 * unseen stamp (rd_expr_seen s) <= fuel)%nat ->
  exists s', expr_reads fuel nodes stamp stack s = Some s' /\ reads_inv [] s' /\ found s s' /\
    forall r, r ∈ stack -> r <> SIZE_MAX -> r < vsize nodes -> seen s' r.
Proof using Hpos.
  induction fuel as [|fuel IH]; intros stack s Hst Hi Hf.
  { destruct stack; [|simpl in Hf; lia]. exists s. split_and!; try done. intros r Hr. by apply elem_of_nil in Hr. }
  destruct stack as [|r rest].
  { exists s. split_and!; try done. intros r Hr. by apply elem_of_nil in Hr. }
  apply Forall_cons in Hst as [Hr Hrest]. simpl in Hf.
  assert (Hskip : r = SIZE_MAX \/ vsize nodes <= r \/ seen s r -> exists s', expr_reads fuel nodes stamp rest s = Some s' /\ reads_inv [] s' /\ found s s' /\
    forall r', r' ∈ r :: rest -> r' <> SIZE_MAX -> r' < vsize nodes -> seen s' r').
  { intros Hsk. destruct (IH rest s Hrest) as (s' & Ex & I' & F & Hsn); [by eapply reads_inv_skip|lia|]. exists s'. split_and!; try done.
    intros r' [->|Hin]%elem_of_cons Hm Hb; [|by apply Hsn]. destruct Hsk as [?|[?|?]]; [done|lia|by apply F]. }
  destruct (decide (r = SIZE_MAX)) as [Em|Em].
  { cbn [expr_reads]. rewrite (proj2 (Z.eqb_eq _ _)) by done. apply Hskip. auto. }
  destruct (decide (vsize nodes <= r)) as [El|El].
  { cbn [expr_reads]. rewrite (proj2 (Z.leb_le (vsize nodes) r)) by done. rewrite orb_true_r. apply Hskip. auto. }
  assert (Hb : 0 <= r < vsize nodes) by lia. destruct (proj2 (vat_is_Some nodes r) Hb) as [n Hn].
  destruct (proj2 (vat_is_Some (rd_expr_seen s) r)) as [k Hk]; [unfold vsize; by rewrite (ri_length _ _ Hi)|].
  destruct (decide (k = stamp)) as [->|Hne].
  { cbn [expr_reads]. rewrite (proj2 (Z.eqb_neq _ _)) by done. rewrite (proj2 (Z.leb_gt _ _)) by lia. cbn [orb]. rewrite Hn, Hk, Z.eqb_refl.
    apply Hskip. auto. }
  rewrite (expr_reads_visit fuel (r :: rest) r n rest s k) by done. destruct (visit_inv r n rest s Hn Hi) as (Iv & Fv & Sv).
  destruct (IH (visit_parts n ++ rest) (visit r n s)) as (s' & Ex & I' & F & Hsn); [|done| |].
  { apply Forall_app. split; [by eapply visit_parts_pos|done]. }
  { apply vat_Some in Hk as [Hkb Hk]. rewrite visit_seen, vset_insert by lia. rewrite (unseen_insert stamp _ _ _ Hk Hne) in Hf.
    pose proof (visit_parts_length n). rewrite length_app. lia. }
  exists s'. split_and!; [done|done|by etrans|]. intros r' [->|Hin]%elem_of_cons Hm Hlt; [by apply F|]. apply Hsn; [|done|done].
  apply elem_of_app. by right.
Qed.

(** It ends whatever the stamps of earlier searches are. *)
Lemma expr_reads_returns fuel : forall stack s, Forall (Z.le 0) stack -> length (rd_expr_seen s) = length nodes ->
  (length stack + 2 * unseen stamp (rd_expr_seen s) <= fuel)%nat ->
  exists s', expr_reads fuel nodes stamp stack s = Some s' /\ length (rd_expr_seen s') = length nodes.
Proof using Hpos.
  induction fuel as [|fuel IH]; intros [|r rest] s Hst Hl Hf; try (by exists s); [simpl in Hf; lia|].
  apply Forall_cons in Hst as [Hr Hrest]. simpl in Hf. assert (Hskip := IH rest s Hrest Hl ltac:(lia)).
  destruct (decide (r = SIZE_MAX)) as [Em|Em]; [cbn [expr_reads]; by rewrite (proj2 (Z.eqb_eq _ _))|].
  destruct (decide (vsize nodes <= r)) as [El|El]; [cbn [expr_reads]; by rewrite (proj2 (Z.leb_le (vsize nodes) r)), orb_true_r|].
  assert (Hb : 0 <= r < vsize nodes) by lia. destruct (proj2 (vat_is_Some nodes r) Hb) as [n Hn].
  destruct (proj2 (vat_is_Some (rd_expr_seen s) r)) as [k Hk]; [unfold vsize; by rewrite Hl|].
  destruct (decide (k = stamp)) as [->|Hne].
  { cbn [expr_reads]. rewrite (proj2 (Z.eqb_neq _ _)) by done. rewrite (proj2 (Z.leb_gt _ _)) by lia. cbn [orb]. by rewrite Hn, Hk, Z.eqb_refl. }
  rewrite (expr_reads_visit fuel (r :: rest) r n rest s k) by done. apply IH.
  - apply Forall_app. split; [by eapply visit_parts_pos|done].
  - by rewrite visit_seen, length_vset.
  - rewrite length_app, visit_seen. pose proof (visit_parts_length n). apply vat_Some in Hk as [Hkb Hk].
    rewrite vset_insert by lia. rewrite (unseen_insert stamp _ _ _ Hk Hne) in Hf. lia.
Qed.

Lemma collect_expr_reads_returns root s : 0 <= root -> length (rd_expr_seen s) = length nodes ->
  exists s', collect_expr_reads nodes stamp root s = Some s' /\ length (rd_expr_seen s') = length nodes.
Proof using Hpos.
  intros Hr Hl. unfold collect_expr_reads. destruct (_ || _); [by exists s|]. apply expr_reads_returns; [by constructor|done|].
  pose proof (unseen_le stamp (rd_expr_seen s)). simpl. lia.
Qed.

Lemma collect_expr_reads_total root s : 0 <= root -> reads_inv [] s ->
  exists s', collect_expr_reads nodes stamp root s = Some s' /\ reads_inv [] s' /\ found s s' /\ (root < vsize nodes -> root <> SIZE_MAX -> seen s' root).
Proof using Hpos.
  intros Hr Hi. unfold collect_expr_reads. destruct ((root =? SIZE_MAX) || _) eqn:E.
  { exists s. split_and!; try done. intros Hlt Hm. apply orb_true_iff in E as [E|E]; [by apply Z.eqb_eq in E|apply Z.leb_le in E; lia]. }
  destruct (expr_reads_total (2 * length nodes + 2) [root] s) as (s' & Ex & I' & F & Hsn).
  - by constructor.
  - destruct Hi as [I1 I2 I3 I4]. split; try done. intros r n c Hn Hs Hk Hc Hm Hb. destruct (I3 r n c Hn Hs Hk Hc Hm Hb) as [H|H]; [by left|by apply elem_of_nil in H].
  - pose proof (unseen_le stamp (rd_expr_seen s)). rewrite (ri_length _ _ Hi) in *. simpl. lia.
  - exists s'. split_and!; try done. intros Hlt Hm. apply Hsn; [set_solver|done|done].
Qed.

Lemma collect_all_total (roots : list Z) : Forall (Z.le 0) roots -> forall s, reads_inv [] s ->
  exists s', collect_all (collect_expr_reads nodes stamp) roots s = Some s' /\ reads_inv [] s' /\ found s s' /\
    forall r, r ∈ roots -> r < vsize nodes -> r <> SIZE_MAX -> seen s' r.
Proof using Hpos.
  induction 1 as [|r roots Hr Hrs IH]; intros s Hi; cbn [collect_all].
  { exists s. split_and!; try done. intros r H. by apply elem_of_nil in H. }
  destruct (collect_expr_reads_total r s Hr Hi) as (s1 & -> & I1 & F1 & S1). destruct (IH s1 I1) as (s2 & E2 & I2 & F2 & S2).
  exists s2. split_and!; [done|done|by etrans|]. intros r' [->|Hin]%elem_of_cons Hlt Hm; [by apply F2, S1|by apply S2].
Qed.

(** ** The reads decide the value *)

Lemma seen_value s vs ws : arena_ok nodes -> reads_inv [] s -> length vs = length (rd_sig_seen s) -> length ws = length vs ->
  (forall x, sig_read s x -> vat vs x = vat ws x) -> forall r, seen s r -> den nodes vs r = den nodes ws r.
Proof.
  intros Ha Hi Hl Hl' Hag. assert (Hstep : forall k r, (Z.to_nat r < k)%nat -> seen s r -> den nodes vs r = den nodes ws r).
  2: { intros r. by apply (Hstep (S (Z.to_nat r))); lia. }
  induction k as [|k IH]; intros r Hk Hs; [lia|]. assert (Hr : 0 <= r < vsize nodes).
  { unfold seen in Hs. apply vat_Some in Hs as [Hs _]. unfold vsize in *. by rewrite (ri_length _ _ Hi) in Hs. }
  destruct (proj2 (vat_is_Some nodes r) Hr) as [n Hn]. rewrite !(den_eq nodes _ r n) by done.
  assert (Hop : forall c, (c = en_a n \/ c = en_b n) -> en_kind n <> ek_signal -> operand_ok r c -> den nodes vs c = den nodes ws c).
  { intros c Hc Hkn [Hb| ->]; [|by rewrite !den_outside by apply Ha]. apply IH; [lia|].
    destruct (ri_parts _ _ Hi r n c Hn Hs Hkn Hc) as [H|H]; [|lia|done|by apply elem_of_nil in H]. destruct Ha as [Ha _]. lia. }
  destruct (proj2 Ha r n Hn) as [Oa Ob]. unfold node_value. destruct (en_kind n) eqn:Ek; cbn [unary_op binary_op] in *; try done;
    try (rewrite (Hop (en_a n)) by (auto; try congruence; apply Oa; eauto)); try (rewrite (Hop (en_b n)) by (auto; try congruence; apply Ob; eauto)); try done.
  unfold read_signal. f_equal. destruct (decide (0 <= en_signal n < vsize (rd_sig_seen s))) as [Hb|Hb].
  - apply Hag. by eapply (ri_signals _ _ Hi r).
  - unfold vsize in Hb. rewrite !(proj2 (vat_None _ _)); [done|unfold vsize..]; lia.
Qed.
End Reads.

(** ** Statements and modules *)

Definition reads_ok (n : stmt_node) : bool := forallb (Z.leb 0) (roots_used n).
Definition block_reads_ok (arena : list stmt_node) (roots : list Z) : Prop :=
  Forall (fun r => all_below reads_ok (S (length arena)) arena r = true) roots.

Lemma read_items_ok n it : reads_ok n = true -> it ∈ read_items n ->
  match it with read_expr r => 0 <= r | read_stmt i => i ∈ assigned_children n end.
Proof.
  intros Hn. assert (Hr : Forall (Z.le 0) (roots_used n)) by (eapply forallb_Forall; [|exact Hn]; intros r; apply Z.leb_le).
  unfold roots_used in Hr. rewrite !Forall_app, !Forall_cons in Hr. destruct Hr as ((_ & Hr & _) & _ & Hrs & Hc & Hm).
  rewrite Forall_forall in Hrs, Hc, Hm.
  unfold read_items, assigned_children. destruct (sn_k n); intros Hin;
    repeat match goal with
    | H : it ∈ _ ++ _ |- _ => apply elem_of_app in H
    | H : it ∈ _ :: _ |- _ => apply elem_of_cons in H
    | H : _ \/ _ |- _ => destruct H as [H|H]
    | H : it ∈ [] |- _ => by apply elem_of_nil in H
    | H : it ∈ map _ _ |- _ => apply list_elem_of_fmap in H as (? & -> & H)
    | H : it = _ |- _ => subst it
    end; rewrite ?elem_of_app; auto.
  all: try (unfold part in *; auto; fail).
  apply list_elem_of_In, in_concat in Hin as (l & Hl & Hin). apply in_map_iff in Hl as (ci & <- & Hci). apply list_elem_of_In in Hin.
  apply elem_of_app in Hin as [Hin|Hin]; apply list_elem_of_fmap in Hin as (x & -> & Hin).
  - apply Hm. apply list_elem_of_In, in_concat. exists (ci_match_roots ci). split; [by apply in_map|by apply list_elem_of_In].
  - apply list_elem_of_In, in_concat. exists (ci_stmts ci). split; [by apply in_map|by apply list_elem_of_In].
Qed.

Section Modules.
Context (m : compiled_module).
Abbreviation nodes := (cm_expr_nodes m).
Context (Hpos : forall i n, vat nodes i = Some n -> 0 <= en_a n /\ 0 <= en_b n).
#[local] Set Default Proof Using "Type".

Abbreviation sized s := (length (rd_expr_seen s) = length nodes).

Lemma items_return (f : read_item -> reads -> option reads) l :
  Forall (fun it => forall s, sized s -> exists s', f it s = Some s' /\ sized s') l -> forall s, sized s ->
  exists s', fold_left (fun acc it => match acc with None => None | Some s' => f it s' end) l (Some s) = Some s' /\ sized s'.
Proof.
  induction 1 as [|it l Hit Hl IH]; intros s Hs; [by exists s|]. cbn [fold_left]. destruct (Hit s Hs) as (s1 & -> & H1). by apply IH.
Qed.

Lemma collect_stmt_reads_returns stamp arena : forall fuel i s, all_below reads_ok fuel arena i = true -> sized s ->
  exists s', collect_stmt_reads fuel nodes arena stamp i s = Some s' /\ sized s'.
Proof using Hpos.
  induction fuel as [|fuel IH]; intros i s Hb Hs; [done|]. cbn [all_below collect_stmt_reads] in *.
  destruct (_ || _); [by exists s|]. destruct (vat arena i) as [n|]; [|done]. apply andb_true_iff in Hb as [Hn Hch].
  apply (items_return (fun it s' => match it with read_expr r => collect_expr_reads nodes stamp r s' | read_stmt j => collect_stmt_reads fuel nodes arena stamp j s' end)); [|done].
  apply Forall_forall. intros it Hit s' Hs'. pose proof (read_items_ok n it Hn Hit) as Hi. destruct it as [r|j].
  - by apply collect_expr_reads_returns.
  - apply IH; [|done]. eapply forallb_forall in Hch; [exact Hch|]. by apply list_elem_of_In.
Qed.

Lemma block_reads_returns arena roots stamp s : block_reads_ok arena roots -> sized s ->
  exists s', block_reads m arena roots stamp s = Some s' /\ sized s'.
Proof using Hpos.
  unfold block_reads. intros Hr Hs. assert (H0 : sized (with_out s [])) by done. revert H0. generalize (with_out s []). clear Hs s.
  induction Hr as [|r roots Hb Hr IH]; intros s Hs; cbn [collect_all]; [by exists s|].
  destruct (collect_stmt_reads_returns stamp arena _ _ s Hb Hs) as (s1 & -> & H1). by apply IH.
Qed.

(** The reads of the assignments stay as they are while the blocks are added. *)
Definition same_assigns (i i' : read_info) : Prop := ri_assigns_read i' = ri_assigns_read i.

Lemma add_reader_blocks_return {A} (arena : A -> list stmt_node) (roots : A -> list Z) l i : Forall (fun x => block_reads_ok (arena x) (roots x)) l ->
  sized (ri_reads i) -> exists i', fold_left (fun i x => add_reader_block m i (arena x) (roots x)) l (Some i) = Some i' /\
    sized (ri_reads i') /\ same_assigns i i'.
Proof using Hpos.
  intros Hl. revert i. induction Hl as [|x l Hx Hl IH]; intros i Hi; cbn [fold_left]; [by exists i|]. cbn [add_reader_block].
  destruct (block_reads_returns (arena x) (roots x) (u32_wrap (ri_stamp i + 1)) (ri_reads i) Hx Hi) as (s & -> & Hs).
  match goal with |- context [fold_left _ l (Some ?i1)] => destruct (IH i1 Hs) as (i' & -> & H1 & H2) end. exists i'. by split_and!.
Qed.

(** The blocks of the module can be read. *)
Record readable : Prop := mk_readable {
  rb_assigns : Forall (fun a => 0 <= ca_expr_root a /\ 0 <= ca_guard_root a) (cm_assigns m);
  rb_combs : Forall (fun ac => block_reads_ok (ac_stmt_nodes ac) (ac_roots ac)) (cm_always_combs m);
  rb_ffs : Forall (fun ff => block_reads_ok (ff_stmt_nodes ff) (ff_roots ff)) (cm_always_ffs m);
  rb_initials : Forall (fun ib => block_reads_ok (ib_stmt_nodes ib) (ib_roots ib)) (cm_initials m)
}.

Definition assign_roots : list Z := concat (map (fun a => ca_expr_root a :: part (ca_guard_root a)) (cm_assigns m)).

Lemma assign_roots_pos : readable -> Forall (Z.le 0) assign_roots.
Proof.
  intros [Ha _ _ _]. unfold assign_roots. induction Ha as [|a l [H1 H2] Hl IH]; [done|]. cbn [map concat].
  constructor; [done|]. apply Forall_app. split; [|done]. apply Forall_forall. intros c Hc. apply part_in in Hc as [-> _]. done.
Qed.
Lemma assign_roots_in a : a ∈ cm_assigns m -> ca_expr_root a ∈ assign_roots /\ (ca_guard_root a <> SIZE_MAX -> ca_guard_root a ∈ assign_roots).
Proof.
  intros Ha. assert (Hall : forall r, r ∈ ca_expr_root a :: part (ca_guard_root a) -> r ∈ assign_roots).
  { intros r Hr. apply list_elem_of_In, in_concat. exists (ca_expr_root a :: part (ca_guard_root a)). split; [|by apply list_elem_of_In].
    apply in_map_iff. exists a. split; [done|by apply list_elem_of_In]. }
  split; [|intros Hg]; apply Hall, elem_of_cons; [by left|right]. by apply part_in.
Qed.

Lemma flag_fold_mark sigs x : 0 <= x -> forall out, x < vsize out -> flag out x = true \/ x ∈ sigs -> flag (fold_left mark sigs out) x = true.
Proof.
  intros Hx. induction sigs as [|s sigs IH]; intros out Ho H; cbn [fold_left]; [by destruct H as [|H%elem_of_nil]|].
  assert (Hl : vsize (mark out s) = vsize out) by (unfold vsize; by rewrite (mk_length _ _ (mark_marks out s))). apply IH; [by rewrite Hl|].
  rewrite elem_of_cons in H. destruct (decide (s = x)) as [->|Hne].
  - left. unfold flag, mark. rewrite (proj2 (Z.ltb_lt _ _)) by done. by rewrite vat_vset.
  - destruct H as [H|[->|H]]; [left|done|by right]. unfold flag, mark. destruct (s <? _); [|done]. by rewrite vat_vset_ne.
Qed.

(** The reads of the assignments decide their values. *)
Lemma module_reads_spec : arena_ok nodes -> readable -> exists info, module_reads m = Some info /\
  forall vs ws, length vs = length (cm_signal_names m) -> length ws = length vs ->
    (forall x, flag (ri_assigns_read info) x = true -> vat vs x = vat ws x) ->
    forall r, r ∈ assign_roots -> den nodes vs r = den nodes ws r.
Proof using Hpos.
  intros Ha Hr. unfold module_reads. set (s0 := {| rd_expr_seen := _; rd_sig_seen := _; rd_out := _ |}).
  assert (H0 : reads_inv nodes 2 [] s0).
  { split; simpl; [apply length_replicate| | |]; unfold seen, sig_read; simpl.
    - intros r n _ Hs. apply vat_Some in Hs as [_ Hs]. by apply lookup_replicate in Hs as [? _].
    - intros r n c _ Hs. apply vat_Some in Hs as [_ Hs]. by apply lookup_replicate in Hs as [? _].
    - intros x Hs. apply vat_Some in Hs as [_ Hs]. by apply lookup_replicate in Hs as [? _]. }
  destruct (collect_all_total nodes 2 Hpos assign_roots (assign_roots_pos Hr) s0 H0) as (s & E & I & F & S). fold assign_roots. rewrite E.
  set (i0 := {| ri_reads := s |}). assert (Hs0 : sized (ri_reads i0)) by apply (ri_length _ _ _ _ I).
  destruct (add_reader_blocks_return ac_stmt_nodes ac_roots (cm_always_combs m) i0) as (i1 & -> & H1 & A1); [apply Hr|done|].
  destruct (add_reader_blocks_return ff_stmt_nodes ff_roots (cm_always_ffs m) i1) as (i2 & -> & H2 & A2); [apply Hr|done|].
  destruct (add_reader_blocks_return ib_stmt_nodes ib_roots (cm_initials m) i2) as (i3 & -> & H3 & A3); [apply Hr|done|].
  exists i3. split; [done|]. rewrite A3, A2, A1. intros vs ws Hl Hl' Hag r Hin.
  pose proof (fd_signals _ _ _ F) as Hsg. simpl in Hsg. rewrite length_replicate in Hsg.
  destruct (decide (vsize nodes <= r)) as [Ho|Ho]; [by rewrite !den_outside|].
  apply (seen_value nodes 2 s); try done; [by rewrite Hl| |].
  - intros x Hx. apply Hag. simpl. unfold sig_read in Hx. pose proof (proj1 (vat_Some _ _ _) Hx) as [Hb _]. unfold vsize in Hb.
    apply flag_fold_mark; [lia|unfold vsize; rewrite length_replicate; lia|]. right. by eapply ri_out.
  - apply S; [done|lia|]. destruct Ha as [Ha _]. lia.
Qed.
End Modules.

(** C34: The pruning of drivers is safe for the continuous assignments: the
    analysis of a module returns, and when it decides that a variable assigned
    in an [always_comb] block gets no driver, the variable is no output of the
    module, and the right sides and the guards of all continuous assignments
    have the same values whatever the variable's value is. *)
Theorem pruned_variables_unused (m : compiled_module) :
  (forall i n, vat (cm_expr_nodes m) i = Some n -> 0 <= en_a n /\ 0 <= en_b n) -> arena_ok (cm_expr_nodes m) -> readable m ->
  exists info, module_reads m = Some info /\
    forall here stamp sig, drives m info here stamp sig = false ->
      flag (port_out m) sig = false /\
      forall a vs v, a ∈ cm_assigns m -> length vs = length (cm_signal_names m) ->
        den (cm_expr_nodes m) (vset vs sig v) (ca_expr_root a) = den (cm_expr_nodes m) vs (ca_expr_root a) /\
        (ca_guard_root a <> SIZE_MAX ->
          den (cm_expr_nodes m) (vset vs sig v) (ca_guard_root a) = den (cm_expr_nodes m) vs (ca_guard_root a)).
Proof.
  intros Hpos Ha Hr. destruct (module_reads_spec m Hpos Ha Hr) as (info & E & H). exists info. split; [done|].
  intros here stamp sig Hd. unfold drives in Hd. apply orb_false_iff in Hd as [Hp Hd]. apply orb_false_iff in Hd as [Hd _].
  split; [done|]. intros a vs v Hin Hl. destruct (assign_roots_in m a Hin) as [H1 H2].
  assert (Hag : forall x, flag (ri_assigns_read info) x = true -> vat (vset vs sig v) x = vat vs x).
  { intros x Hx. apply vat_vset_ne. congruence. }
  split; [|intros Hg]; apply H; auto using length_vset; by rewrite length_vset.
Qed.
