(* ===== verification/SynthBlockClaims.v ===== *)
(** * SynthBlockClaims: the parts of an instance at rest

    The continuous assignments and the [always_comb] blocks of an instance, as
    [synth_assign] and [synth_always_comb] turn them into models: the building
    succeeds, and in every stable valuation of the netlist that carries a
    state of the module the simulator would not change that state. *)

From Stdlib Require Import ZArith Lia.
From stdpp Require Import base list gmap strings.
From S2P Require Import Prelude Logic4 Store Gates Devices Sequential Model Reaction.
From S2P Require Import Reactions Netlist NetlistInv NetlistOps VData VExpr VCache VStmt.
From S2P Require Import VStmtInv VStmtClaims VRuntime VRuntimeClaims SynthNet SynthNetLemmas SynthLower SynthStmt.
From S2P Require Import SynthSim SynthComb SynthFf SynthInstance SynthBlock SynthReads.

Open Scope Z_scope.

(** ** What an instance under construction has *)

Record instance_ready (chunk_models : nat) (m : compiled_module) (sig_nodes : list nodep) (opt : pe_synth_options) (c : synth_context) : Prop :=
  mk_instance_ready {
    ir_arena : arena_ok (cm_expr_nodes m);
    ir_no_z : no_z_operands (cm_expr_nodes m);
    ir_operands : forall i n, vat (cm_expr_nodes m) i = Some n -> 0 <= en_a n /\ 0 <= en_b n;
    ir_signals : forall i n, vat (cm_expr_nodes m) i = Some n -> en_kind n = ek_signal -> 0 <= en_signal n < vsize sig_nodes;
    ir_length : length sig_nodes = length (cm_signal_names m);
    ir_binary : assume_binary_inputs opt = false;
    ir_ready : ready chunk_models opt c;
    ir_nodes : env_ok sig_nodes c sig_nodes
  }.

Lemma drivable_filter sig_nodes opt c f l : drivable sig_nodes opt c l -> drivable sig_nodes opt c (List.filter f l).
Proof.
  intros [H|[Hn Hf]]; [by left|right]. induction l as [|s l IH]; [done|]. cbn [map List.filter] in *.
  apply NoDup_cons in Hn as [Hs Hn]. apply Forall_cons in Hf as [Hp Hf]. destruct (IH Hn Hf) as [IH1 IH2]. destruct (f s); [|done]. cbn [map].
  split; [|by constructor]. apply NoDup_cons. split; [|done]. intros Hin. apply Hs. apply list_elem_of_fmap in Hin as (x & E & Hin).
  apply list_elem_of_fmap. exists x. split; [done|]. apply list_elem_of_In in Hin. apply filter_In in Hin as [Hin _]. by apply list_elem_of_In.
Qed.

Lemma blocking_reads_ok loops nodes arena roots : Forall (fun r => blocking_below loops nodes arena r = true) roots -> block_reads_ok arena roots.
Proof.
  intros H. eapply Forall_impl; [exact H|]. intros r. unfold blocking_below. apply all_below_mono. intros n Hn. unfold blocking_stmt, lowered_stmt in Hn.
  rewrite !andb_true_iff in Hn. by destruct Hn as ((_ & Hn) & _).
Qed.

(** ** Continuous assignments *)

Section Assigns.
Context (chunk_models chunk_nodes : nat) (Hchunk : (0 < chunk_models <= 4096)%nat).
Context (first_a : Z -> bool) (m : compiled_module) (sig_nodes : list nodep) (opt : pe_synth_options).
Abbreviation nodes := (cm_expr_nodes m).
Context (Harena : arena_ok nodes) (Hzops : no_z_operands nodes).
Abbreviation cached_ok := (cache_ok nodes (signal sig_nodes)).

Lemma cache_ok_grows c c' cache : grows c c' -> cached_ok c cache -> cached_ok c' cache.
Proof.
  intros He Hm r res Hr. destruct (Hm r res Hr) as (p & -> & Hh & HP). exists p. split; [done|]. split; [by apply (gr_has _ _ He)|].
  intros σ values Hs. rewrite (gr_opt _ _ He). apply HP. by eapply stable_grows.
Qed.

(** The node of the left side carries the value of the right side. *)
Definition assigned_value (σ : valuation) (a : continuous_assign) : Prop := ca_guard_root a = SIZE_MAX -> forall p values,
  vat sig_nodes (ca_lhs_signal a) = Some (Some p) -> carries (signal sig_nodes) σ values -> clean_values opt nodes values ->
  σ p = den nodes values (ca_expr_root a).

Definition only_drives (c c' : synth_context) (s : Z) : Prop :=
  forall x, has c x -> vat sig_nodes s <> Some (Some x) -> driver_count c' !! x = driver_count c !! x.

Definition assigned (a : continuous_assign) (c : synth_context) (r : bool) (s' : synth_context * expr_cache) : Prop :=
  r = true /\ cx_inv chunk_models s'.1 /\ grows c s'.1 /\ cached_ok s'.1 s'.2 /\ only_drives c s'.1 (ca_lhs_signal a) /\
  forall σ, stable s'.1 σ -> assigned_value σ a.

Lemma wp_on_ctx {A} (k : Sy A) c cache (Q : A -> synth_context * expr_cache -> Prop) :
  wp k c (fun r c' => Q r (c', cache)) -> wp (on_ctx k) (c, cache) Q.
Proof. unfold wp, on_ctx. simpl. by destruct (k c) as [[r c']|]. Qed.

(** The driver of the left side, after the expressions. *)
Lemma assign_driver_spec a c c1 cache d ns p : cx_inv chunk_models c1 -> extends c c1 -> cached_ok c1 cache ->
  vat sig_nodes (ca_lhs_signal a) = Some (Some p) -> has c p -> may_drive c p ->
  free_from d 0 -> length (device_pins d) = S (length ns) -> Forall (has c1) ns ->
  (forall σ, stable c1 σ -> sat σ (wire_up d 0 (ns ++ [p])) -> assigned_value σ a) ->
  wp (on_ctx (emit_driver chunk_models d (map Some ns) (Some p))) (c1, cache) (assigned a c).
Proof using Hchunk.
  intros I1 E1 M1 Hp Hh Hm Hf Hl Hns HP. apply wp_on_ctx. eapply wp_mono; [apply (emit_driver_spec chunk_models Hchunk); try done; [by apply E1|]|].
  { unfold may_drive. rewrite (ex_drivers _ _ E1), (ex_opt _ _ E1) by done. exact Hm. }
  intros r c2 (-> & (I2 & G2 & _ & ip & Hip) & K2). unfold assigned. cbn [fst snd].
  split_and!; [done|done|etrans; [by apply extends_grows|done]|by eapply cache_ok_grows| |].
  - intros x Hx Hne. rewrite K2, (ex_drivers _ _ E1); [done..|]. congruence.
  - intros σ S2. apply HP; [by eapply stable_grows|]. by apply (S2 ip).
Qed.

Lemma synth_assign_spec a c cache : cx_inv chunk_models c -> cx_opt c = opt -> signals_there nodes (signal sig_nodes) c -> cached_ok c cache ->
  0 <= ca_expr_root a -> 0 <= ca_guard_root a -> env_ok sig_nodes c sig_nodes ->
  (forall p, vat sig_nodes (ca_lhs_signal a) = Some (Some p) -> may_drive c p) ->
  wp (synth_assign chunk_models chunk_nodes first_a m sig_nodes a) (c, cache) (assigned a c).
Proof using Hchunk Harena Hzops.
  intros Hc Ho Hs Hm Hr Hg Hn Hd. unfold synth_assign. apply (wp_on_ctx_ok chunk_models); [done|]. cbn [negb].
  destruct (vat sig_nodes (ca_lhs_signal a)) as [lhs|] eqn:El.
  2: { apply wp_ret. unfold assigned, only_drives, assigned_value. cbn [fst snd]. rewrite El. by split_and!. }
  destruct (env_ok_at sig_nodes c sig_nodes (ca_lhs_signal a) Hn) as (p & Hp & Hh); [by apply vat_is_Some; eexists|].
  rewrite El in Hp. injection Hp as ->. apply wp_bind. eapply wp_mono; [by eapply (expr_spec chunk_models chunk_nodes Hchunk first_a nodes Harena Hzops)|].
  intros rhs [c1 m1] (I1 & E1 & M1 & q & -> & Hq & Vq). cbn [fst snd] in *. destruct (ca_guard_root a =? SIZE_MAX) eqn:Eg.
  - apply (assign_driver_spec a c c1 m1 (m_YES YES.default) [q] p); try done; [by apply Hd|by intros [|[|i]] pn _ [= <-]|by repeat constructor|].
    intros σ Hst Hsat _ p' values Hp' Hcar Hcl. rewrite El in Hp'. injection Hp' as <-.
    eapply (sat_gate1 σ m_YES YES.output_res) in Hsat; [|reflexivity..]. rewrite Hsat. unfold YES.output_res.
    apply Vq; [done|done|]. by rewrite (ex_opt _ _ E1), Ho.
  - apply Z.eqb_neq in Eg. apply wp_bind.
    eapply wp_mono; [eapply (expr_spec chunk_models chunk_nodes Hchunk first_a nodes Harena Hzops); try done; by eapply signals_there_extends|].
    intros en [c2 m2] (I2 & E2 & M2 & g & -> & Hgn & _). cbn [fst snd] in *.
    apply (assign_driver_spec a c c2 m2 (m_TRI TRI.default) [q; g] p); try done; [by etrans|by apply Hd|by intros [|[|[|i]]] pn _ [= <-]| |].
    + repeat constructor; [by apply E2|done].
    + by intros σ _ _ Hg'.
Qed.

Lemma sig_node_has c s p : env_ok sig_nodes c sig_nodes -> vat sig_nodes s = Some (Some p) -> has c p.
Proof.
  intros Hn Hp. destruct (env_ok_at sig_nodes c sig_nodes s Hn) as (q & Hq & Hh); [by apply vat_is_Some; eexists|]. by simplify_eq.
Qed.

Lemma drivable_after c c' s l : env_ok sig_nodes c sig_nodes -> only_drives c c' s -> drivable sig_nodes opt c (s :: l) -> drivable sig_nodes opt c' l.
Proof.
  intros Hn Hk [H|[Hd Hf]]; [by left|]. right. cbn [map] in Hd. apply NoDup_cons in Hd as [Hs Hd]. apply Forall_cons in Hf as [_ Hf].
  split; [done|]. apply Forall_forall. intros s' Hs' q Hq. rewrite Hk; [by eapply Forall_forall in Hf; [apply Hf|]|by eapply sig_node_has|].
  intros E. apply Hs. apply list_elem_of_fmap. exists s'. split; [congruence|done].
Qed.

Lemma synth_assigns_spec l : Forall (fun a => 0 <= ca_expr_root a /\ 0 <= ca_guard_root a) l -> forall c cache,
  cx_inv chunk_models c -> cx_opt c = opt -> signals_there nodes (signal sig_nodes) c -> cached_ok c cache ->
  env_ok sig_nodes c sig_nodes -> drivable sig_nodes opt c (map ca_lhs_signal l) ->
  wp (all_of (synth_assign chunk_models chunk_nodes first_a m sig_nodes) l) (c, cache) (fun r s' => r = true /\ cx_inv chunk_models s'.1 /\
    grows c s'.1 /\ forall σ a, stable s'.1 σ -> a ∈ l -> assigned_value σ a).
Proof using Hchunk Harena Hzops.
  induction 1 as [|a l [Hr Hg] Hl IH]; intros c cache Hc Ho Hs Hm Hn Hd; cbn [all_of].
  { apply wp_ret. split_and!; try done. intros σ a _ H. by apply elem_of_nil in H. }
  apply wp_bind. eapply wp_mono; [apply synth_assign_spec; try done|].
  { intros p Hp. destruct Hd as [Hd|[_ Hf]]; [right; by rewrite Ho|left]. apply Forall_cons in Hf as [Hf _]. by apply Hf. }
  intros r [c1 m1] (-> & I1 & G1 & M1 & K1 & V1). cbn [fst snd] in *.
  eapply wp_mono; [apply IH; [done|by rewrite (gr_opt _ _ G1)| |done|by eapply env_ok_grows|by eapply drivable_after]|].
  { intros i n Hi Hk. destruct (Hs i n Hi Hk) as (p & Hp & Hh). exists p. split; [done|]. by apply (gr_has _ _ G1). }
  intros r [c2 m2] (-> & I2 & G2 & V2). cbn [fst snd] in *. split_and!; [done|done|by etrans|].
  intros σ a' Hst [->|Hin]%elem_of_cons; [|by apply V2]. apply V1. by eapply stable_grows.
Qed.
End Assigns.

(** ** The claims *)

Lemma block_carries_signals sig_nodes σ st : block_carries sig_nodes σ st -> carries (signal sig_nodes) σ (ms_values st).
Proof.
  intros [Hv _] s p Hp. unfold signal in Hp. destruct (vsize sig_nodes <=? s); [done|]. destruct (vat sig_nodes s) as [x|] eqn:Ex; [|done].
  simpl in Hp. subst x. destruct (proj1 (Forall2_node_at _ _ _) Hv) as [Hsz Hat]. unfold read_signal.
  destruct (vat (ms_values st) s) as [v|] eqn:Ev.
  - destruct (Hat s v Ev) as (q & Hq & <-). by simplify_eq.
  - apply vat_None in Ev. apply vat_Some in Ex as [Ex _]. lia.
Qed.

(** C33: Suppose that the synthesis context is
    error-free and keeps its invariant, each signal has its node in the
    netlist, the expression arena is well-formed with its signals in range,
    no operand of a folded operator is a literal [Z], and
    [assume_binary_inputs] is off;
    that the roots of the assignments are indices; and that the left sides are
    free to drive: the option for several drivers is on, or no two assignments
    have the same left node and none of these nodes has a driver yet.  Then
    the continuous assignments are at rest in their netlist: building the
    drivers of all assignments succeeds, and in every stable valuation whose
    signal nodes carry a consistent state of the module without [Z], evaluating the right
    side of any assignment without a guard whose left side is a signal of the
    module, as the simulator does, gives the value that its left side already
    has.  (Without the condition on the drivers the synthesis reports multiple
    drivers and stops.) *)
Theorem assigns_at_rest chunk_models chunk_nodes first_a m sig_nodes opt c :
  (0 < chunk_models <= 4096)%nat -> instance_ready chunk_models m sig_nodes opt c ->
  Forall (fun a => 0 <= ca_expr_root a /\ 0 <= ca_guard_root a) (cm_assigns m) ->
  drivable sig_nodes opt c (map ca_lhs_signal (cm_assigns m)) ->
  exists c' cache, all_of (synth_assign chunk_models chunk_nodes first_a m sig_nodes) (cm_assigns m) (c, ∅) = Some (true, (c', cache)) /\
    cx_inv chunk_models c' /\ grows c c' /\
    forall σ st a, stable c' σ -> memo_inv st -> block_carries sig_nodes σ st ->
      a ∈ cm_assigns m -> ca_guard_root a = SIZE_MAX -> 0 <= ca_lhs_signal a < vsize sig_nodes ->
      exists st', eval_expr_cached m (ca_expr_root a) st = Some (read_signal (ms_values st) (ca_lhs_signal a), st').
Proof.
  intros Hchunk [Ha Hz Hp Hs Hl Hb [Hc Ho] Hn] Hr Hd.
  assert (Hst : signals_there (cm_expr_nodes m) (signal sig_nodes) c).
  { intros i n Hi Hk. pose proof (Hs i n Hi Hk) as Hb'. destruct (env_ok_at sig_nodes c sig_nodes _ Hn Hb') as (p & Hp' & Hh). exists p.
    split; [|done]. unfold signal. rewrite (proj2 (Z.leb_gt _ _)) by lia. by rewrite Hp'. }
  pose proof (synth_assigns_spec chunk_models chunk_nodes Hchunk first_a m sig_nodes opt Ha Hz (cm_assigns m) Hr c ∅ Hc Ho Hst (cache_ok_empty _ _ _) Hn Hd) as Hw.
  apply wp_result in Hw as (r & [c' cache] & E & -> & I & G & V). cbn [fst snd] in *. exists c', cache. split_and!; [done..|].
  intros σ st a Hstb Hmemo Hcar Hin Hg Hlhs. destruct (env_ok_at sig_nodes c sig_nodes _ Hn Hlhs) as (p & Hp' & _).
  pose proof (block_carries_signals _ _ _ Hcar) as Hcs.
  assert (Hv : σ p = den (cm_expr_nodes m) (ms_values st) (ca_expr_root a)).
  { apply (V σ a Hstb Hin Hg p); [done|done|]. split; [apply Hcar|]. by rewrite Hb. }
  assert (Hlp : σ p = read_signal (ms_values st) (ca_lhs_signal a)).
  { apply Hcs. unfold signal. rewrite (proj2 (Z.leb_gt _ _)) by lia. by rewrite Hp'. }
  assert (Hroot : 0 <= ca_expr_root a) by (rewrite Forall_forall in Hr; by destruct (Hr a Hin)).
  destruct (cached_agrees m (ca_expr_root a) st Ha Hroot Hmemo) as (c2 & t & Ev & _). exists (set_memo st c2 t). by rewrite Ev, <- Hv, Hlp.
Qed.

(** C11: Suppose that the synthesis context is
    error-free and keeps its invariant, each signal has its node in the
    netlist, the expression arena is well-formed with its signals in range,
    no operand of a folded operator is a literal [Z], and
    [assume_binary_inputs] is off;
    that the statements of an [always_comb] block form trees in its arena, with
    indices for the expressions, and are of the kinds that the synthesis
    models exactly: blocking assignments, blocks, conditionals, [case]
    and, if any, loops, all without delays, without [break], [continue] and
    [return], without nonblocking assignments and without a literal [Z] as a
    right side; that loops occur only when [loop_unroll_limit] is 4096, the
    bound of the simulator (the default is 64, which drops further
    iterations); that the marks of the read analysis are one per expression
    node; and that the targets are free to drive: the option for several
    drivers is on, or their nodes are distinct and none has a driver yet.
    Then the block is at rest in its netlist: the analysis and the lowering of
    the block succeed, and in every stable valuation of the resulting netlist
    whose signal nodes carry a consistent state of the module without [Z], the simulator
    runs the block, at any tick, and leaves the values of the targets that the
    analysis keeps (those read elsewhere) as they are - also those of the
    latched targets, which hold their value when no branch assigns them. *)
Theorem always_comb_at_rest chunk_models chunk_nodes addr first_a m sig_nodes opt loops tick info stamp s ac c targets :
  (0 < chunk_models <= 4096)%nat -> instance_ready chunk_models m sig_nodes opt c ->
  Forall (fun r => blocking_below loops (cm_expr_nodes m) (ac_stmt_nodes ac) r = true) (ac_roots ac) ->
  (loops = true -> loop_unroll_limit opt = max_iter) -> length (rd_expr_seen s) = length (cm_expr_nodes m) ->
  collect_targets m (ac_stmt_nodes ac) (ac_roots ac) = Some targets -> drivable sig_nodes opt c (targets_of targets) ->
  exists s' c', synth_always_comb chunk_models chunk_nodes addr first_a m sig_nodes info stamp s ac c = Some (Some (u32_wrap (stamp + 1), s'), c') /\
    cx_inv chunk_models c' /\ grows c c' /\
    forall σ st, stable c' σ -> sane st -> block_carries sig_nodes σ st ->
      at_rest m (ac_stmt_nodes ac) (ac_roots ac) targets (drives m info s' (u32_wrap (stamp + 1))) tick st.
Proof.
  intros Hchunk [Ha Hz Hp Hs Hl Hb Hc Hn] Hr Hu Hlen Ht Hd. unfold synth_always_comb. rewrite Ht.
  destruct (block_reads_returns m Hp (ac_stmt_nodes ac) (ac_roots ac) (u32_wrap (stamp + 1)) s) as (s' & -> & _);
    [by eapply blocking_reads_ok|done|].
  pose proof (comb_block_spec chunk_models chunk_nodes Hchunk addr first_a m Ha Hz sig_nodes Hl Hs opt Hb loops tick (ac_stmt_nodes ac) (ac_roots ac)
    targets (drives m info s' (u32_wrap (stamp + 1))) c Hr Hu Ht Hc Hn (drivable_filter _ _ _ _ _ Hd)) as Hw.
  apply wp_result in Hw as (r & c' & E & -> & I & G & HR). exists s', c'. unfold mbind, St_bind. by rewrite E.
Qed.

(** ** The registers of an [always_ff] block

    [synth_always_ff] of [SynthInstance] for a block with one event: the
    statements are lowered to the next values of the targets, and each target
    gets a flip-flop that loads its next value.  The theorem: the D input of
    the flip-flop carries the value the simulator gives the variable when it
    runs the block and applies the nonblocking assignments. *)

Open Scope Z_scope.

(** ** The simulator's side *)

Lemma apply_nba_pending st : sane st -> exists b st', apply_nba st = Some (b, st') /\ ms_values st' = pending st.
Proof.
  intros Hs. assert (Ha : wp (sor (fun '(lhs, v) => assign_signal lhs v) (ms_nba_queue st)) st (fun _ st2 =>
    visible st2 = (fold_left store (ms_nba_queue st) (ms_values st), ms_nba_queue st, ms_events st) /\ sane st2)).
  { apply assigns_visible; [|apply Hs|done]. intros [sig v] s Hsig Hss. by apply assign_visible. }
  apply wp_result in Ha as (b & st2 & E & V & _). unfold apply_nba. rewrite E. eexists _, _. split; [done|]. by injection V.
Qed.

Lemma ff_roots_run m arena tick roots : forall st (Q : xstate -> Prop),
  wp_seq (map (exec_stmt m (S (length arena)) arena tick false) roots) (st, Some fl_none) Q ->
  exists st', seach (fun root => _ ← exec_root m arena tick root; mret tt) roots st = Some (tt, st') /\ Q (st', Some fl_none).
Proof.
  induction roots as [|r roots IH]; intros st Q H; [by exists st|]. cbn [map] in H. apply wp_result in H as (b & [st1 f1] & E1 & Hf & H1).
  simpl in Hf. subst f1. destruct (IH st1 Q H1) as (st2 & E2 & HQ). exists st2. split; [|done].
  cbn [seach]. unfold mbind, St_bind. unfold exec_root at 1. rewrite E1. unfold mbind, St_bind in E2. by rewrite <- E2.
Qed.

(** The value of a variable after the block and the update that follows. *)
Definition next_value (m : compiled_module) (ff : always_ff) (tick : Z) (st : module_state) (s : Z) (v : logic_t) : Prop :=
  exists st1 b st2, seach (fun root => _ ← exec_root m (ff_stmt_nodes ff) tick root; mret tt) (ff_roots ff) st = Some (tt, st1) /\
    apply_nba st1 = Some (b, st2) /\ vat (ms_values st2) s = Some v.

(** Statements whose assignments follow the discipline: a variable is assigned
    with [<=] everywhere, or with [=] everywhere. *)
Definition disciplined (nonblocking : Z -> bool) (loops : bool) (nodes : list expr_node) (n : stmt_node) : bool :=
  lowered_stmt loops nodes n && forallb (fun s => eqb (nonblocking s) (negb (is_blocking n))) (assigned_here n).

Section Block.
Context (chunk_models chunk_nodes : nat) (Hchunk : (0 < chunk_models <= 4096)%nat).
Context (addr : node_ptr -> Z) (first_a : Z -> bool) (m : compiled_module).
Abbreviation nodes := (cm_expr_nodes m).
Context (Harena : arena_ok nodes) (Hzops : no_z_operands nodes).
Context (sig_nodes : list nodep) (Hlen : length sig_nodes = length (cm_signal_names m)).
Context (Hsig : forall i n, vat nodes i = Some n -> en_kind n = ek_signal -> 0 <= en_signal n < vsize sig_nodes).
Context (opt : pe_synth_options) (Hbin : assume_binary_inputs opt = false).
Context (inst : instance_state) (nonblocking : Z -> bool).
#[local] Set Default Proof Using "Type".

Lemma ff_targets_ok loops arena roots :
  Forall (fun r => all_below (disciplined nonblocking loops nodes) (S (length arena)) arena r = true) roots ->
  exists targets, collect_targets m arena roots = Some targets /\ length targets = length sig_nodes /\
    Forall (fun r => all_below (ff_stmt m sig_nodes targets nonblocking loops) (S (length arena)) arena r = true) roots.
Proof using Hlen.
  intros Hr. destruct (collect_targets_covers m (disciplined nonblocking loops nodes) arena roots) as (o & E & Hl & T); [|done|].
  { intros n Hn. apply andb_true_iff in Hn as [Hn _]. by eapply lowered_assigned. }
  exists o. split_and!; [done|congruence|]. eapply Forall_impl; [exact T|]. intros r. apply all_below_mono. intros n Hn. unfold covers in Hn.
  apply andb_true_iff in Hn as [Hn Hc]. unfold disciplined in Hn. apply andb_true_iff in Hn as [Hn Hd]. unfold ff_stmt. rewrite Hn, Hd, andb_true_r. cbn [andb].
  unfold covered, vsize in Hc. rewrite Hl, <- Hlen in Hc. exact Hc.
Qed.

Section Targets.
Context (targets : list bool) (Htargets : length targets = length sig_nodes) (e0 : ff_env) (st0 : module_state).
Abbreviation wf := (wf_ff sig_nodes targets e0).

Lemma ff_roots_sim loops tick arena : (loops = true -> loop_unroll_limit opt = max_iter) -> forall roots c e,
  Forall (fun r => all_below (ff_stmt m sig_nodes targets nonblocking loops) (S (length arena)) arena r = true) roots ->
  ready chunk_models opt c -> wf c e ->
  wp (ff_roots_stmts chunk_models chunk_nodes addr first_a m sig_nodes arena targets roots e) c
    (sim chunk_models wf (ff_carries nonblocking st0) c e (map (exec_stmt m (S (length arena)) arena tick false) roots)).
Proof using Hchunk Harena Hzops Hsig Hbin Htargets.
  intros Hl. induction roots as [|r roots IH]; intros c e Hr Hc We; cbn [ff_roots_stmts map]; [by eapply sim_ret|].
  apply Forall_cons in Hr as [Hr Hrs]. change (?x :: ?l) with ([x] ++ l). eapply (sim_bind chunk_models opt); [|by auto|done].
  by eapply (synth_stmt_ff_sim chunk_models chunk_nodes Hchunk addr first_a m Harena Hzops sig_nodes Hsig opt Hbin targets Htargets).
Qed.

(** ** The registers *)

(** A flip-flop of the netlist that loads the node [d] into the node of [s]. *)
Definition loads (c : synth_context) (clk : node_ptr) (d : node_ptr) (s : Z) : Prop := exists ip q,
  vat sig_nodes s = Some (Some q) /\ s_impls (cx_nl c) !! ip = Some (wire_up (m_DFF DFF.default) 0 [d; clk; q]).

Lemma loads_grows c c' clk d s : grows c c' -> loads c clk d s -> loads c' clk d s.
Proof. intros Hg (ip & q & Hq & Hip). exists ip, q. split; [done|]. eapply lookup_weaken; [exact Hip|apply Hg]. Qed.

Lemma ff_registers_spec clk resets next sigs : Forall (fun s => 0 <= s < vsize sig_nodes) sigs -> forall c,
  ready chunk_models opt c -> has c clk -> env_ok sig_nodes c next -> env_ok sig_nodes c sig_nodes -> drivable sig_nodes opt c sigs ->
  wp (all_of (ff_register chunk_models sig_nodes (Some clk) None resets next) sigs) c (fun r c' => r = true /\ cx_inv chunk_models c' /\ grows c c' /\
    forall s, s ∈ sigs -> exists d, vat next s = Some (Some d) /\ loads c' clk d s).
Proof using Hchunk.
  induction 1 as [|s sigs Hs Hss IH]; intros c [Hc Ho] Hclk Hx Hn Hd; cbn [all_of].
  { apply wp_ret. split_and!; try done. intros s H. by apply elem_of_nil in H. }
  destruct (env_ok_at sig_nodes c _ s Hn Hs) as (q & Hq & Hhq). destruct (env_ok_at sig_nodes c _ s Hx Hs) as (d & Hxd & Hhd).
  apply wp_bind. unfold ff_register at 1. rewrite Hq, Hxd.
  eapply wp_mono; [apply (emit_driver_spec chunk_models Hchunk c (m_DFF DFF.default) [d; clk] q); [done| |done|by repeat constructor|done|]|].
  { by intros [|[|[|i]]] pn _ [= <-]. }
  { destruct Hd as [Hd|[_ Hf]]; [right; by rewrite Ho|left]. apply Forall_cons in Hf as [Hf _]. by apply Hf. }
  intros r c1 (-> & (I1 & G1 & _ & ip & Hip) & K1).
  eapply wp_mono; [apply (IH c1); [split; [done|by rewrite (gr_opt _ _ G1)]|by apply (gr_has _ _ G1)|by eapply env_ok_grows|by eapply env_ok_grows|by eapply drivable_next]|].
  intros r c2 (-> & I2 & G2 & L2). split_and!; [done|done|by etrans|]. intros s' [->|Hin]%elem_of_cons; [|by apply L2].
  exists d. split; [done|]. apply (loads_grows c1); [done|]. by exists ip, q.
Qed.
End Targets.

(** ** The clock *)

(** The node of the clock signal, inverted for [negedge]. *)
Definition clocked (σ : valuation) (ev : sensitivity_event) (clk : node_ptr) : Prop := exists p, vat sig_nodes (se_signal ev) = Some (Some p) /\
  σ clk = match se_k ev with ev_negedge => logic_not (σ p) | _ => σ p end.

Lemma clock_node_spec c ev : ready chunk_models opt c -> env_ok sig_nodes c sig_nodes -> 0 <= se_signal ev < vsize sig_nodes ->
  wp (clock_node chunk_models chunk_nodes sig_nodes ev) c (fun r c' => exists clk, r = Some (Some clk) /\ cx_inv chunk_models c' /\ extends c c' /\
    has c' clk /\ forall σ, stable c' σ -> clocked σ ev clk).
Proof using Hchunk.
  intros [Hc _] Hn Hs. destruct (env_ok_at sig_nodes c _ _ Hn Hs) as (p & Hp & Hh). unfold clock_node, clocked. rewrite Hp.
  destruct (se_k ev) eqn:Ek.
  1, 2: apply wp_ret; exists p; split; [done|]; split; [done|]; split; [done|]; split; [done|]; intros σ _; by exists p.
  apply wp_bind. eapply wp_mono; [by apply (gate_not_spec chunk_models chunk_nodes Hchunk)|]. intros r c' (q & -> & I & Ex & Hq & HP). apply wp_ret.
  exists q. split_and!; [done..|]. intros σ Hst. exists p. split; [done|]. by apply HP.
Qed.

(** ** The block *)

Lemma start_ff_carries σ st : block_carries sig_nodes σ st -> ms_nba_queue st = [] ->
  ff_carries nonblocking st σ {| fe_cur := sig_nodes; fe_next := sig_nodes |} st.
Proof. intros [Hv Hz] Hq. split; unfold pending; rewrite ?Hq; done. Qed.

Lemma always_ff_spec loops tick ff ev targets c :
  Forall (fun r => all_below (disciplined nonblocking loops nodes) (S (length (ff_stmt_nodes ff))) (ff_stmt_nodes ff) r = true) (ff_roots ff) ->
  (loops = true -> loop_unroll_limit opt = max_iter) ->
  collect_targets m (ff_stmt_nodes ff) (ff_roots ff) = Some targets ->
  (forall s, targeted targets s = true -> flag (cm_signal_is_reg m) s = true) ->
  ff_events ff = [ev] -> 0 <= se_signal ev < vsize sig_nodes ->
  ready chunk_models opt c -> env_ok sig_nodes c sig_nodes -> drivable sig_nodes opt c (targets_of targets) ->
  wp (synth_always_ff chunk_models chunk_nodes addr first_a inst m sig_nodes ff) c (fun r c' => r = true /\ cx_inv chunk_models c' /\ grows c c' /\
    exists clk, (forall σ, stable c' σ -> clocked σ ev clk) /\
      forall s, targeted targets s = true -> exists d, loads c' clk d s /\
        forall σ st, stable c' σ -> sane st -> ms_nba_queue st = [] -> block_carries sig_nodes σ st -> next_value m ff tick st s (σ d)).
Proof using Hchunk Hlen Harena Hzops Hsig Hbin.
  intros Hr Hl Ht Hreg Hev Hclk Hc Hn Hd. destruct (ff_targets_ok loops _ _ Hr) as (t & Et & Htg & Hb). rewrite Ht in Et. injection Et as <-.
  unfold synth_always_ff. rewrite Ht. replace (existsb _ _) with false.
  2: { symmetry. apply not_true_is_false. rewrite existsb_exists. intros (s & Hin & Hs). apply list_elem_of_In, targets_of_elem in Hin.
       by rewrite Hreg in Hs. }
  apply wp_bind. unfold ff_control. rewrite Hev. apply wp_bind. eapply wp_mono; [by apply clock_node_spec|].
  intros r c1 (clk & -> & I1 & E1 & H1 & P1). apply wp_ret. assert (Hc1 : ready chunk_models opt c1) by (by eapply ready_extends).
  assert (Hn1 : env_ok sig_nodes c1 sig_nodes) by (by eapply env_ok_extends). set (e0 := {| fe_cur := sig_nodes; fe_next := sig_nodes |}).
  assert (W1 : wf_ff sig_nodes targets e0 c1 e0) by (by split).
  assert (Hsim := fun st0 => ff_roots_sim targets Htg e0 st0 loops tick (ff_stmt_nodes ff) Hl (ff_roots ff) c1 e0 Hb Hc1 W1).
  destruct (wp_result _ _ _ (Hsim module_state_default)) as (r & c2 & Er & e & -> & I2 & E2 & W2 & _).
  apply wp_bind. unfold wp at 1. rewrite Er. assert (Hc2 : ready chunk_models opt c2) by (by eapply (ready_extends chunk_models opt c1)).
  assert (Hrng : Forall (fun s => 0 <= s < vsize sig_nodes) (targets_of targets)).
  { apply Forall_forall. intros s Hs. apply targets_of_elem in Hs. by eapply targeted_range. }
  assert (E02 : extends c c2) by (by etrans).
  eapply wp_mono; [apply (ff_registers_spec clk _ (fe_next e)); [done|done|by apply E2|apply W2|by eapply env_ok_extends|]|].
  { by apply (drivable_extends sig_nodes opt c c2). }
  intros r c3 (-> & I3 & G3 & L3). split_and!; [done|done|etrans; [by apply extends_grows|done]|]. exists clk. split.
  { intros σ S3. apply P1. eapply stable_extends; [exact E2|]. by eapply stable_grows. }
  intros s Hs. destruct (L3 s) as (d & Hd3 & Hld); [by apply targets_of_elem|]. exists d. split; [done|].
  intros σ st S3 Hst Hq Hcar. assert (S2 : stable c2 σ) by (by eapply stable_grows).
  specialize (Hsim st). unfold wp in Hsim. rewrite Er in Hsim. destruct Hsim as (e' & [= <-] & _ & _ & _ & Hrun).
  destruct (ff_roots_run _ _ _ _ _ _ (Hrun σ S2 st Hst (start_ff_carries σ st Hcar Hq))) as (st1 & Ex & _ & Hs1 & HR1). cbn [fst] in Hs1, HR1.
  destruct (apply_nba_pending st1 Hs1) as (b & st2 & En & Ev2). exists st1, b, st2. split_and!; [done..|]. rewrite Ev2.
  destruct (proj1 (Forall2_node_at _ _ _) (fc_next _ _ _ _ _ HR1)) as [Hsz Hat].
  destruct (proj2 (vat_is_Some (pending st1) s)) as [v Hv].
  { rewrite <- Hsz, (env_ok_size _ _ _ (wf_next _ _ _ _ _ W2)). rewrite Forall_forall in Hrng. apply Hrng. by apply targets_of_elem. }
  destruct (Hat s v Hv) as (d' & Hd' & <-). rewrite Hv. f_equal. congruence.
Qed.
End Block.

(** C12: Suppose that the synthesis context is
    error-free and keeps its invariant, each signal has its node in the
    netlist, the expression arena is well-formed with its signals in range,
    no operand of a folded operator is a literal [Z], and
    [assume_binary_inputs] is off;
    that an [always_ff] block has one event, on a signal of the module, and
    that all its targets are registers; that its statements form trees in its
    arena, with indices for the expressions, and are assignments,
    blocks, conditionals, [case] and, if any, loops, all without delays,
    without [break], [continue] and [return] and without a literal [Z] as a
    right side, each variable being assigned with [=] everywhere or with [<=]
    everywhere; that loops occur only when [loop_unroll_limit] is 4096, the
    bound of the simulator (the default is 64, which drops further
    iterations); and that the targets are free to drive: the option for
    several drivers is on, or their nodes are distinct and none has a driver
    yet.  Then the block becomes flip-flops that load what the simulator
    computes: the lowering succeeds, the clock node is the signal of the
    event, inverted for [negedge], every target has a flip-flop on its node,
    and in every stable valuation whose signal nodes carry a consistent state
    of the module without [Z] and without queued assignments, the D input carries the
    value that the variable has after the simulator has run the block and
    applied its nonblocking assignments. *)
Theorem always_ff_loads_next chunk_models chunk_nodes addr first_a inst m sig_nodes opt nonblocking loops tick ff ev targets c :
  (0 < chunk_models <= 4096)%nat -> instance_ready chunk_models m sig_nodes opt c ->
  Forall (fun r => all_below (disciplined nonblocking loops (cm_expr_nodes m)) (S (length (ff_stmt_nodes ff))) (ff_stmt_nodes ff) r = true) (ff_roots ff) ->
  (loops = true -> loop_unroll_limit opt = max_iter) ->
  collect_targets m (ff_stmt_nodes ff) (ff_roots ff) = Some targets ->
  (forall s, targeted targets s = true -> flag (cm_signal_is_reg m) s = true) ->
  ff_events ff = [ev] -> 0 <= se_signal ev < vsize sig_nodes -> drivable sig_nodes opt c (targets_of targets) ->
  exists c', synth_always_ff chunk_models chunk_nodes addr first_a inst m sig_nodes ff c = Some (true, c') /\ cx_inv chunk_models c' /\ grows c c' /\
    exists clk, (forall σ, stable c' σ -> clocked sig_nodes σ ev clk) /\
      forall s, targeted targets s = true -> exists d, loads sig_nodes c' clk d s /\
        forall σ st, stable c' σ -> sane st -> ms_nba_queue st = [] -> block_carries sig_nodes σ st -> next_value m ff tick st s (σ d).
Proof.
  intros Hchunk [Ha Hz Hp Hs Hl Hb Hc Hn] Hr Hu Ht Hreg Hev Hclk Hd.
  pose proof (always_ff_spec chunk_models chunk_nodes Hchunk addr first_a m Ha Hz sig_nodes Hl Hs opt Hb inst nonblocking loops tick ff ev targets c
    Hr Hu Ht Hreg Hev Hclk Hc Hn Hd) as Hw.
  apply wp_result in Hw as (r & c' & E & -> & H). by exists c'.
Qed.

(** ** An example

    A module with a continuous assignment [w = d & en], a block
    [if(en) t = d; y = t;] and a register [q <= d] on [posedge clk]. *)

Definition stmt_of (k : stmt_kind) (lhs root : Z) (stmts : list Z) : stmt_node :=
  {| sn_k := k; sn_ck := ck_normal; sn_delay_ticks := 0; sn_lhs_signal := lhs; sn_expr_root := root;
     sn_lhs_signals := []; sn_rhs_roots := []; sn_stmts := stmts; sn_else_stmts := []; sn_case_expr_roots := [];
     sn_case_items := []; sn_init_stmt := SIZE_MAX; sn_step_stmt := SIZE_MAX; sn_body_stmt := SIZE_MAX |}.

Definition ex_comb : always_comb :=
  {| ac_is_star := true; ac_sens_signals := [];
     ac_stmt_nodes := [stmt_of sk_blocking_assign 4 0 []; stmt_of sk_if_stmt SIZE_MAX 1 [0]; stmt_of sk_blocking_assign 5 2 []];
     ac_roots := [1; 2] |}.
Definition ex_ff : always_ff :=
  {| ff_events := [{| se_k := ev_posedge; se_signal := 0 |}];
     ff_stmt_nodes := [stmt_of sk_nonblocking_assign 3 0 []]; ff_roots := [0] |}.
Definition ex_assign : continuous_assign := {| ca_lhs_signal := 6; ca_expr_root := 3; ca_guard_root := SIZE_MAX |}.
Definition ex_module : compiled_module :=
  {| cm_name := "m"; cm_ports := [{| po_name := "y"; po_dir := pd_output; po_signal := 5 |}; {| po_name := "w"; po_dir := pd_output; po_signal := 6 |}];
     cm_port_order := []; cm_port_decls := ∅; cm_vectors := ∅; cm_signal_names := ["clk"; "d"; "en"; "q"; "t"; "y"; "w"];
     cm_signal_is_reg := [false; false; false; true; true; true; false]; cm_signal_is_signed := replicate 7 false;
     cm_signal_is_const := replicate 7 false; cm_signal_is_const_foldable := replicate 7 false;
     cm_signal_const_value := replicate 7 sX; cm_signal_index := ∅; cm_param_order := []; cm_param_default_values := ∅;
     cm_param_is_local := ∅; cm_expr_nodes := [node_signal 1; node_signal 2; node_signal 4; node_binary ek_binary_and 0 1];
     cm_assigns := [ex_assign]; cm_always_ffs := [ex_ff]; cm_always_combs := [ex_comb]; cm_initials := []; cm_instances := [];
     cm_inline_counter := 0 |}.
Definition ex_instance : instance_state :=
  {| is_mod := Some ex_module; is_instance_name := "m"; is_state := init_state ex_module; is_driven_nets := []; is_bindings := []; is_output_drives := []; is_children := [] |}.
Definition ex_sig_nodes : list nodep := map (fun i => Some (N.of_nat i)) (seq 1 7).
Definition ex_reads : reads := {| rd_expr_seen := replicate 4 0; rd_sig_seen := replicate 7 0; rd_out := [] |}.

Definition ex_reads_here : reads := {| rd_expr_seen := [5; 5; 5; 0]; rd_sig_seen := [0; 5; 5; 0; 5; 0; 0]; rd_out := [2; 1; 4] |}.

Lemma ex_node_cases (P : Z -> expr_node -> Prop) : P 0 (node_signal 1) -> P 1 (node_signal 2) -> P 2 (node_signal 4) ->
  P 3 (node_binary ek_binary_and 0 1) -> forall i n, vat (cm_expr_nodes ex_module) i = Some n -> P i n.
Proof.
  intros H0 H1 H2 H3 i n Hn. apply vat_Some in Hn as [Hi Hn]. unfold vsize in Hi. simpl in Hi.
  assert (i = 0 \/ i = 1 \/ i = 2 \/ i = 3) as [->|[->|[-> | ->]]] by lia; by injection Hn as <-.
Qed.

Lemma ex_ready : instance_ready 100 ex_module ex_sig_nodes pe_synth_options_default (nodes_context 7).
Proof.
  split; try done.
  - by apply arena_okb_ok.
  - refine (ex_node_cases (fun i n => folds (en_kind n) = true -> z_literal (cm_expr_nodes ex_module) (en_a n) = false /\
      z_literal (cm_expr_nodes ex_module) (en_b n) = false) _ _ _ _); by intros.
  - by refine (ex_node_cases (fun i n => 0 <= en_a n /\ 0 <= en_b n) _ _ _ _).
  - by refine (ex_node_cases (fun i n => en_kind n = ek_signal -> 0 <= en_signal n < vsize ex_sig_nodes) _ _ _ _).
  - split; [apply nodes_context_inv|done].
  - exists (map N.of_nat (seq 1 7)). split_and!; [done..|]. repeat constructor; by eexists.
Qed.

Lemma ex_drivable s : drivable ex_sig_nodes pe_synth_options_default (nodes_context 7) [s].
Proof. right. split; [apply NoDup_singleton|]. constructor; [|done]. intros p _. simpl. by rewrite lookup_empty. Qed.

Lemma assigns_at_rest_witness :
  exists c' cache, all_of (synth_assign 100 100 (fun _ => true) ex_module ex_sig_nodes) [ex_assign] (nodes_context 7, ∅) = Some (true, (c', cache)) /\
    cx_inv 100 c' /\ grows (nodes_context 7) c' /\
    forall σ st a, stable c' σ -> memo_inv st -> block_carries ex_sig_nodes σ st -> a ∈ [ex_assign] -> ca_guard_root a = SIZE_MAX ->
      0 <= ca_lhs_signal a < vsize ex_sig_nodes ->
      exists st', eval_expr_cached ex_module (ca_expr_root a) st = Some (read_signal (ms_values st) (ca_lhs_signal a), st').
Proof.
  apply (assigns_at_rest 100 100 (fun _ => true) ex_module ex_sig_nodes pe_synth_options_default (nodes_context 7)).
  - lia.
  - apply ex_ready.
  - by repeat constructor.
  - apply ex_drivable.
Defined.

Lemma always_comb_at_rest_witness :
  let info := default {| ri_reads := ex_reads; ri_stamp := 0; ri_assigns_read := []; ri_block_count := [] |} (module_reads ex_module) in
  exists s' c', synth_always_comb 100 100 (fun _ => 0) (fun _ => true) ex_module ex_sig_nodes info 4 ex_reads ex_comb (nodes_context 7)
      = Some (Some (5, s'), c') /\ cx_inv 100 c' /\ grows (nodes_context 7) c' /\
    forall σ st, stable c' σ -> sane st -> block_carries ex_sig_nodes σ st ->
      at_rest ex_module (ac_stmt_nodes ex_comb) (ac_roots ex_comb) [false; false; false; false; true; true; false] (drives ex_module info s' 5) 9 st.
Proof.
  intros info.
  apply (always_comb_at_rest 100 100 (fun _ => 0) (fun _ => true) ex_module ex_sig_nodes pe_synth_options_default false 9 info 4 ex_reads ex_comb (nodes_context 7)).
  - lia.
  - apply ex_ready.
  - by repeat constructor.
  - done.
  - done.
  - reflexivity.
  - right. split; [by apply (bool_decide_unpack _)|]. repeat constructor; intros p _; simpl; by rewrite lookup_empty.
Defined.

Lemma always_ff_loads_next_witness :
  exists c', synth_always_ff 100 100 (fun _ => 0) (fun _ => true) ex_instance ex_module ex_sig_nodes ex_ff (nodes_context 7) = Some (true, c') /\
    cx_inv 100 c' /\ grows (nodes_context 7) c' /\
    exists clk, (forall σ, stable c' σ -> clocked ex_sig_nodes σ {| se_k := ev_posedge; se_signal := 0 |} clk) /\
      forall s, targeted [false; false; false; true; false; false; false] s = true -> exists d, loads ex_sig_nodes c' clk d s /\
        forall σ st, stable c' σ -> sane st -> ms_nba_queue st = [] -> block_carries ex_sig_nodes σ st -> next_value ex_module ex_ff 9 st s (σ d).
Proof.
  apply (always_ff_loads_next 100 100 (fun _ => 0) (fun _ => true) _ ex_module ex_sig_nodes pe_synth_options_default (fun s => s =? 3) false 9 ex_ff
    {| se_k := ev_posedge; se_signal := 0 |} _ (nodes_context 7)).
  - lia.
  - apply ex_ready.
  - by repeat constructor.
  - done.
  - reflexivity.
  - intros s Hs. apply targets_of_elem in Hs. simpl in Hs. by apply list_elem_of_singleton in Hs as ->.
  - done.
  - done.
  - apply ex_drivable.
Defined.

Lemma ex_readable : readable ex_module.
Proof. split; by repeat constructor. Qed.

Lemma pruned_variables_unused_witness : exists info, module_reads ex_module = Some info /\ drives ex_module info ex_reads_here 5 4 = false /\
  forall vs v, length vs = 7%nat -> den (cm_expr_nodes ex_module) (vset vs 4 v) 3 = den (cm_expr_nodes ex_module) vs 3.
Proof.
  destruct (pruned_variables_unused ex_module) as (info & E & H).
  - by refine (ex_node_cases (fun i n => 0 <= en_a n /\ 0 <= en_b n) _ _ _ _).
  - by apply arena_okb_ok.
  - apply ex_readable.
  - exists info. split; [done|]. assert (Hd : drives ex_module info ex_reads_here 5 4 = false) by (vm_compute in E; injection E as <-; reflexivity).
    split; [done|]. intros vs v Hl. apply (proj2 (H ex_reads_here 5 4 Hd) ex_assign vs v); [by apply list_elem_of_singleton|done].
Defined.

(** The latched variable [t] is read in its block only, so it is pruned and
    nothing drives its node, while [y] is driven from it: when [en] is 0, [y]
    follows a node without a driver. *)
Example latched_local_floats : exists info s' c', module_reads ex_module = Some info /\
  synth_always_comb 100 100 (fun _ => 0) (fun _ => true) ex_module ex_sig_nodes info 4 ex_reads ex_comb (nodes_context 7) = Some (Some (5, s'), c') /\
  driver_count c' !! 5%N = None /\ driver_count c' !! 6%N = Some 1.
Proof. eexists _, _, _. split; [vm_compute; reflexivity|]. split; [vm_compute; reflexivity|]. by vm_compute. Qed.
