(* ===== verification/SynthOpt.v ===== *)
(** * SynthOpt: optimization passes over a finished netlist

    Passes of [verilog/digital/pe_synth.h] that remove gates from a
    synthesized netlist: buffers, double inverters, gates with constant inputs,
    absorbed terms, inverters behind gates, duplicates, and gates nobody reads;
    with the maps of drivers and consumers they are based on and the costs the
    search compares.  A computation is a state transformer over the netlist;
    [None] is undefined behaviour, and the nodes of [protected_nodes] (the
    ports) are not removed.  Addresses of objects are not reused. *)

From Stdlib Require Import ZArith Lia.
From stdpp Require Import base list gmap strings.
From S2P Require Import Prelude Store Logic4 Gates Devices Sequential Arith Model Netlist.
From S2P Require Import VData VExpr VCache VStmt SynthNet.

Open Scope Z_scope.

Abbreviation Nt := (St (netlist device)).

(** ** Names and pins *)

(** [get_model_name] of the models. *)
Definition model_name (d : device) : string :=
  match d with
  | m_AND _ => AND.model_name | m_OR _ => OR.model_name | m_XOR _ => XOR.model_name | m_NAND _ => NAND.model_name
  | m_NOR _ => NOR.model_name | m_XNOR _ => XNOR.model_name | m_IMP _ => IMP.model_name | m_NIMP _ => NIMP.model_name
  | m_NOT _ => NOT.model_name | m_YES _ => YES.model_name | m_INPUT _ => INPUT.model_name | m_OUTPUT _ => OUTPUT.model_name
  | m_CASE_EQ _ => "CASE_EQ" | m_IS_UNKNOWN _ => "IS_UNKNOWN" | m_RESOLVE2 _ => "RESOLVE2" | m_TRI _ => "TRI"
  | m_SCHMITT_TRIGGER _ => "SCHMITT_TRIGGER" | m_TICK_DELAY _ => "TICK_DELAY" | m_EIGHT_BIT_INPUT _ => "EIGHT_BIT_INPUT" | m_EIGHT_BIT_DISPLAY _ => "EIGHT_BIT_DISPLAY"
  | m_DFF _ => "DFF" | m_DFF_ARSTN _ => "DFF_ARSTN" | m_DLATCH _ => "DLATCH" | m_TFF _ => "TFF"
  | m_T_BAR_FF _ => "T_BAR_FF" | m_JKFF _ => "JKFF" | m_COUNTER4 _ => "COUNTER4" | m_RANDOM_GENERATOR4 _ => "RANDOM_GENERATOR4"
  | m_HALF_ADDER _ => "HALF_ADDER" | m_FULL_ADDER _ => "FULL_ADDER" | m_HALF_SUB _ => "HALF_SUB" | m_FULL_SUB _ => "FULL_SUB"
  | m_MUL2 _ => "MUL2"
  end.

Definition among (name : string) (l : list string) : bool := bool_decide (name ∈ l).

Definition is_output_pin (name : string) (i n : nat) : bool :=
  if among name ["INPUT"] then (i =? 0)%nat
  else if among name ["OUTPUT"] then false
  else if among name ["YES"; "NOT"] then (i =? 1)%nat
  else if among name ["AND"; "OR"; "XOR"; "XNOR"; "NAND"; "NOR"; "IMP"; "NIMP"; "CASE_EQ"; "IS_UNKNOWN"]
  then negb (n =? 0)%nat && (S i =? n)%nat
  else if among name ["HALF_ADDER"] then (i =? 2)%nat || (i =? 3)%nat
  else if among name ["FULL_ADDER"] then (i =? 3)%nat || (i =? 4)%nat
  else if among name ["HALF_SUB"] then (i =? 2)%nat || (i =? 3)%nat
  else if among name ["FULL_SUB"] then (i =? 3)%nat || (i =? 4)%nat
  else if among name ["MUL2"] then (4 <=? i)%nat
  else if among name ["DFF"] then (i =? 2)%nat
  else if among name ["DFF_ARSTN"] then (i =? 3)%nat
  else if among name ["D_LATCH"] then (i =? 2)%nat
  else if among name ["TICK_DELAY"] then (i =? 2)%nat
  else if among name ["TRI"] then (i =? 2)%nat
  else if among name ["RESOLVE2"] then (i =? 2)%nat
  else false.

(** The slots of the chunks with their positions, in the order of the loops. *)
Definition slots_of (nl : netlist device) : list (model_pos * model_base) :=
  concat (imap (fun c b => imap (fun v mb => ({| vec_pos := Z.of_nat v; chunk_pos := Z.of_nat c |}, mb)) (slots b)) (models nl)).

(** The object of a slot, when it is in use; a dangling pointer is undefined. *)
Definition object_of (nl : netlist device) (mb : model_base) : option (option (impl_ptr * device)) :=
  if bool_decide (type mb = normal) then
    match ptr mb with
    | None => Some None
    | Some ip => match s_impls nl !! ip with Some d => Some (Some (ip, d)) | None => None end
    end
  else Some None.

(** A model in use: where it is, its slot, its object. *)
Record live : Type := mk_live { lv_pos : model_pos; lv_base : model_base; lv_ip : impl_ptr; lv_dev : device }.

Definition live_at (nl : netlist device) (s : model_pos * model_base) : option (list live) :=
  match object_of nl s.2 with
  | None => None
  | Some None => Some []
  | Some (Some (ip, d)) => Some [{| lv_pos := s.1; lv_base := s.2; lv_ip := ip; lv_dev := d |}]
  end.
Definition live_models (nl : netlist device) : option (list live) :=
  (fun ls => concat ls) <$> mapM (live_at nl) (slots_of nl).

Definition named (d : device) (l : list string) : bool := among (model_name d) l.
Definition out_pin (ip : impl_ptr) (i : nat) : pin_ptr := (ip, N.of_nat i).

(** ** Drivers and consumers *)

Record gate_opt_fanout : Type := mk_fanout {
  pin_out : gmap pin_ptr bool;
  consumer_count : gmap node_ptr Z;
  driver_pins : gmap node_ptr Z
}.

Definition bump_count (m : gmap node_ptr Z) (n : node_ptr) : gmap node_ptr Z := <[n := u64_wrap (default 0 (m !! n) + 1)]> m.
Definition emplace {K V} `{Countable K} (m : gmap K V) (k : K) (v : V) : gmap K V :=
  match m !! k with Some _ => m | None => <[k := v]> m end.

Definition fan_pin (name : string) (n : nat) (ip : impl_ptr) (info : gate_opt_fanout) (ixp : nat * pin) : gate_opt_fanout :=
  let '(i, p) := ixp in
  let is_out := is_output_pin name i n in
  let po := emplace (pin_out info) (out_pin ip i) is_out in
  match nodes p with
  | None => mk_fanout po (consumer_count info) (driver_pins info)
  | Some nd => if is_out then mk_fanout po (consumer_count info) (bump_count (driver_pins info) nd)
               else mk_fanout po (bump_count (consumer_count info) nd) (driver_pins info)
  end.
Definition fan_model (info : gate_opt_fanout) (m : live) : gate_opt_fanout :=
  let pv := generate_pin_view (lv_dev m) in
  fold_left (fan_pin (model_name (lv_dev m)) (length pv) (lv_ip m)) (imap pair pv) info.
Definition build_gate_opt_fanout (nl : netlist device) : option gate_opt_fanout :=
  (fun ls => fold_left fan_model ls (mk_fanout ∅ ∅ ∅)) <$> live_models nl.

Definition is_out_in (po : gmap pin_ptr bool) (p : pin_ptr) : bool := default false (po !! p).

(** The driving pins on a node are the expected one and no other. *)
Definition has_unique_driver_pin (po : gmap pin_ptr bool) (ps : list pin_ptr) (expected : pin_ptr) : bool :=
  let drivers := List.filter (is_out_in po) ps in
  forallb (fun p => bool_decide (p = expected)) drivers && (length drivers =? 1)%nat.

Definition is_protected (prot : list nodep) (n : node_ptr) : bool := bool_decide (Some n ∈ prot).

(** ** Changing the netlist *)

Definition node_at (n : node_ptr) : Nt node_t := fun nl => match s_nodes nl !! n with Some nd => Some (nd, nl) | None => None end.
Definition fanout : Nt gate_opt_fanout := fun nl => match build_gate_opt_fanout nl with Some f => Some (f, nl) | None => None end.
Definition lives : Nt (list live) := fun nl => match live_models nl with Some l => Some (l, nl) | None => None end.
Definition slot_at (pos : model_pos) : Nt (option model_base) := fun nl => Some (get_model nl pos, nl).
Definition object (mb : model_base) : Nt (option (impl_ptr * device)) := fun nl =>
  match object_of nl mb with Some r => Some (r, nl) | None => None end.
Definition delete_at (pos : model_pos) : Nt bool := fun nl => delete_model nl pos.

(** [from->pins.erase(p); p->nodes = to; to->pins.insert(p);] *)
Definition move_pin (from to : node_ptr) (p : pin_ptr) : Nt unit := fun nl =>
  match s_nodes nl !! from with
  | None => None
  | Some fd =>
      let ns := <[from := set_links fd (oset_erase p (pins fd)) (num_of_analog_node fd)]> (s_nodes nl) in
      match point_pin (Some to) (s_impls nl) p with
      | None => None
      | Some ims =>
          match ns !! to with
          | None => None
          | Some td => Some (tt, set_graph nl (<[to := set_links td (oset_insert p (pins td)) (num_of_analog_node td)]> ns) ims)
          end
      end
  end.
Fixpoint move_pins (from to : node_ptr) (ps : list pin_ptr) : Nt unit :=
  match ps with
  | [] => mret tt
  | p :: ps' => _ ← move_pin from to p; move_pins from to ps'
  end.

(** The lambda [move_consumers]: the pins that do not drive. *)
Definition move_consumers (prot : list nodep) (po : gmap pin_ptr bool) (from to : nodep) : Nt bool :=
  match from, to with
  | Some f, Some t =>
      if bool_decide (f = t) || is_protected prot f then mret false
      else
        nd ← node_at f;
        _ ← move_pins f t (List.filter (fun p => negb (is_out_in po p)) (pins nd));
        mret true
  | _, _ => mret false
  end.

(** A loop over a list with a flag. *)
Fixpoint any_change {A} (f : A -> Nt bool) (l : list A) : Nt bool :=
  match l with
  | [] => mret false
  | x :: l' => c ← f x; c' ← any_change f l'; mret (c || c')
  end.

(** ** Buffers *)

Definition pin_out_of (l : list live) : gmap pin_ptr bool :=
  fold_left (fun po m =>
    let pv := generate_pin_view (lv_dev m) in
    fold_left (fun po i => emplace po (out_pin (lv_ip m) i) (is_output_pin (model_name (lv_dev m)) i (length pv)))
      (seq 0 (length pv)) po) l ∅.

(** The buffer at a position: the pins on its output node, which it alone
    drives, move to its input node, and it is deleted. *)
Definition eliminate_yes_at (prot : list nodep) (po : gmap pin_ptr bool) (pos : model_pos) : Nt unit :=
  slot ← slot_at pos;
  match slot with
  | None => mret tt
  | Some mb =>
      obj ← object mb;
      match obj with
      | None => mret tt
      | Some (ip, d) =>
          if negb (named d ["YES"]) then mret tt
          else match generate_pin_view d with
          | [p0; p1] =>
              match nodes p0, nodes p1 with
              | Some in_node, Some out_node =>
                  if bool_decide (in_node = out_node) || is_protected prot out_node then mret tt
                  else
                    nd ← node_at out_node;
                    if has_unique_driver_pin po (pins nd) (out_pin ip 1) then
                      _ ← move_pins out_node in_node (List.filter (fun p => negb (bool_decide (p = out_pin ip 1))) (pins nd));
                      _ ← delete_at pos;
                      mret tt
                    else mret tt
              | _, _ => mret tt
              end
          | _ => mret tt
          end
      end
  end.
Fixpoint eliminate_yes_all (prot : list nodep) (po : gmap pin_ptr bool) (l : list model_pos) : Nt unit :=
  match l with
  | [] => mret tt
  | pos :: l' => _ ← eliminate_yes_at prot po pos; eliminate_yes_all prot po l'
  end.
Definition optimize_eliminate_yes_buffers (prot : list nodep) : Nt unit :=
  l ← lives;
  eliminate_yes_all prot (pin_out_of l) (map lv_pos (List.filter (fun m => named (lv_dev m) ["YES"]) l)).

(** ** Double inverters *)

(** The gates as the passes record them. *)
Record gate_rec : Type := mk_gate {
  gr_name : string; gr_pos : model_pos; gr_in0 : nodep; gr_in1 : nodep; gr_out : nodep; gr_out_pin : pin_ptr
}.

Definition classify (m : live) : option gate_rec :=
  let d := lv_dev m in
  if named d ["NOT"] then
    match generate_pin_view d with
    | [a; o] => Some (mk_gate (model_name d) (lv_pos m) (nodes a) None (nodes o) (out_pin (lv_ip m) 1))
    | _ => None
    end
  else if named d ["AND"; "OR"; "XOR"; "XNOR"; "NAND"; "NOR"; "IMP"; "NIMP"] then
    match generate_pin_view d with
    | [a; b; o] => Some (mk_gate (model_name d) (lv_pos m) (nodes a) (nodes b) (nodes o) (out_pin (lv_ip m) 2))
    | _ => None
    end
  else None.

(** [gate_by_out]: the first gate that drives a node. *)
Definition by_out (l : list gate_rec) : gmap node_ptr gate_rec :=
  fold_left (fun m g => match gr_out g with Some o => emplace m o g | None => m end) l ∅.

Definition is_not (g : gate_rec) : bool := bool_decide (gr_name g = "NOT").
Definition connected_not (g : gate_rec) : bool := is_not g && bool_decide (is_Some (gr_in0 g)) && bool_decide (is_Some (gr_out g)).

Definition sole_link (fan : gate_opt_fanout) (n : node_ptr) : bool :=
  bool_decide (driver_pins fan !! n = Some 1) && bool_decide (consumer_count fan !! n = Some 1).

(** The key of a gate: its kind and its inputs. *)
Abbreviation gate_key := (string * node_ptr * nodep)%type.

Section Passes.
Context (chunk_models chunk_nodes : nat).

(** [add_model], and the connections of the new model; deleted again when one
    fails. *)
Definition new_object (d : device) : Nt (impl_ptr * model_pos) := fun nl =>
  let '(nl', ip, pos) := add_model chunk_models nl d in Some ((ip, pos), nl').
Definition link (ip : impl_ptr) (i : Z) (n : node_ptr) : Nt bool := fun nl => add_to_node nl (new_model_base ip) i n.

Definition replace_by_yes (outer inner : gate_rec) (x o : node_ptr) : Nt bool :=
  _ ← delete_at (gr_pos outer);
  _ ← delete_at (gr_pos inner);
  m ← new_object (m_YES YES.default);
  l0 ← link m.1 0 x;
  l1 ← (if (l0 : bool) then link m.1 1 o else mret false);
  if (l1 : bool) then mret true else _ ← delete_at m.2; mret false.

Definition double_not_at (prot : list nodep) (fan : gate_opt_fanout) (not_by_out : gmap node_ptr gate_rec) (outer : gate_rec) : Nt bool :=
  match gr_in0 outer, gr_out outer with
  | Some mid, Some o =>
      od ← node_at o;
      if negb (has_unique_driver_pin (pin_out fan) (pins od) (gr_out_pin outer)) then mret false
      else match not_by_out !! mid with
      | None => mret false
      | Some inner =>
          match gr_in0 inner with
          | None => mret false
          | Some x =>
              if is_protected prot mid || negb (sole_link fan mid) then mret false
              else
                md ← node_at mid;
                if negb (has_unique_driver_pin (pin_out fan) (pins md) (gr_out_pin inner)) then mret false
                else if is_protected prot o then replace_by_yes outer inner x o
                else
                  moved ← move_consumers prot (pin_out fan) (Some o) (Some x);
                  if negb moved then mret false
                  else
                    _ ← delete_at (gr_pos outer);
                    _ ← delete_at (gr_pos inner);
                    mret true
          end
      end
  | _, _ => mret false
  end.
Definition optimize_eliminate_double_not (prot : list nodep) : Nt bool :=
  fan ← fanout;
  l ← lives;
  let nots := List.filter connected_not (omap classify l) in
  any_change (double_not_at prot fan (by_out nots)) nots.

(** ** Constants *)

(** [is_const_input_model]: an [INPUT] without a name, of the given state. *)
Definition is_const_input_model (m : live) (v : logic_t) : bool :=
  bool_decide (mb_name (lv_base m) = "") && named (lv_dev m) ["INPUT"] &&
  match device_get_attribute (lv_dev m) 0 with v_digital s => bool_decide (s = v) | _ => false end.
Definition const_pin (m : live) : nodep :=
  match generate_pin_view (lv_dev m) with [p] => nodes p | _ => None end.
Definition find_existing_const_node (l : list live) (v : logic_t) : nodep :=
  head (omap (fun m => if is_const_input_model m v then const_pin m else None) l).
Definition make_const_node (v : logic_t) : Nt nodep :=
  n ← (fun nl => let '(nl', n) := create_node chunk_nodes nl in Some (n, nl'));
  m ← new_object (input_with v);
  linked ← link m.1 0 n;
  mret (if (linked : bool) then Some n else None).
Definition find_or_make_const_node (v : logic_t) : Nt nodep :=
  l ← lives;
  match find_existing_const_node l v with
  | Some n => mret (Some n)
  | None => make_const_node v
  end.

(** [node_const]: the nodes of the unnamed inputs that are 0 or 1. *)
Definition node_const (l : list live) : gmap node_ptr logic_t :=
  fold_left (fun m x =>
    match const_pin x with
    | None => m
    | Some n => if is_const_input_model x sL then emplace m n sL else if is_const_input_model x sH then emplace m n sH else m
    end) l ∅.

(** What a gate is replaced by: a constant, or one of its inputs. *)
Inductive replacement : Set := by_const (v : logic_t) | by_first | by_second.
Definition const_if (b : bool) : replacement := by_const (if b then sH else sL).

(** The rules by the name of the gate; [a] and [b] are the constants of the
    inputs, [same] is that the inputs are one node. *)
Definition const_rule (name : string) (assume_binary same : bool) (a b : option logic_t) : option replacement :=
  let eqc (x : option logic_t) (v : logic_t) := bool_decide (x = Some v) in
  if among name ["NOT"] then match a with Some v => Some (const_if (negb (bool_decide (v = sH)))) | None => None end
  else if among name ["AND"] then
    if eqc a sL || eqc b sL then Some (by_const sL)
    else if eqc a sH then Some by_second
    else if eqc b sH then Some by_first
    else if same then Some by_first else None
  else if among name ["OR"] then
    if eqc a sH || eqc b sH then Some (by_const sH)
    else if eqc a sL then Some by_second
    else if eqc b sL then Some by_first
    else if same then Some by_first else None
  else if among name ["XOR"] then
    match a, b with
    | Some x, Some y => Some (const_if (negb (bool_decide (x = y))))
    | _, _ =>
        if eqc a sL then Some by_second
        else if eqc b sL then Some by_first
        else if assume_binary && same then Some (by_const sL) else None
    end
  else if among name ["XNOR"] then
    match a, b with
    | Some x, Some y => Some (const_if (bool_decide (x = y)))
    | _, _ =>
        if eqc a sH then Some by_second
        else if eqc b sH then Some by_first
        else if assume_binary && same then Some (by_const sH) else None
    end
  else if among name ["NAND"] then
    if eqc a sL || eqc b sL then Some (by_const sH)
    else match a, b with Some x, Some y => Some (const_if (negb (bool_decide (x = sH) && bool_decide (y = sH)))) | _, _ => None end
  else if among name ["NOR"] then
    if eqc a sH || eqc b sH then Some (by_const sL)
    else match a, b with Some x, Some y => Some (const_if (negb (bool_decide (x = sH) || bool_decide (y = sH)))) | _, _ => None end
  else if among name ["IMP"] then
    if eqc b sH || eqc a sL then Some (by_const sH)
    else if eqc a sH then Some by_second else None
  else if among name ["NIMP"] then
    if eqc a sL || eqc b sH then Some (by_const sL)
    else if eqc b sL then Some by_first else None
  else None.

Definition lookup_node {A} (m : gmap node_ptr A) (n : nodep) : option A := match n with Some x => m !! x | None => None end.
Definition same_input (g : gate_rec) : bool := bool_decide (is_Some (gr_in0 g)) && bool_decide (gr_in0 g = gr_in1 g).

Definition constant_at (prot : list nodep) (assume_binary : bool) (fan : gate_opt_fanout) (consts : gmap node_ptr logic_t) (g : gate_rec) : Nt bool :=
  match gr_out g with
  | None => mret false
  | Some o =>
      if is_protected prot o then mret false
      else
        od ← node_at o;
        if negb (has_unique_driver_pin (pin_out fan) (pins od) (gr_out_pin g)) then mret false
        else match const_rule (gr_name g) assume_binary (same_input g) (lookup_node consts (gr_in0 g)) (lookup_node consts (gr_in1 g)) with
        | None => mret false
        | Some r =>
            rep ← match r with
                  | by_const v => find_or_make_const_node v
                  | by_first => mret (gr_in0 g)
                  | by_second => mret (gr_in1 g)
                  end;
            moved ← move_consumers prot (pin_out fan) (Some o) rep;
            if negb moved then mret false else _ ← delete_at (gr_pos g); mret true
        end
  end.
(** [max_candidates] is [rewrite_max_candidates]; 0 is no limit. *)
Definition optimize_constant_propagation (prot : list nodep) (assume_binary : bool) (max_candidates : nat) : Nt bool :=
  fan ← fanout;
  l ← lives;
  let cands := List.filter (fun g => bool_decide (is_Some (gr_out g))) (omap classify l) in
  any_change (constant_at prot assume_binary fan (node_const l))
    (if (max_candidates =? 0)%nat then cands else take max_candidates cands).

(** ** Absorption *)

Definition is_and_or (g : gate_rec) : bool := among (gr_name g) ["AND"; "OR"].

(** The gate is still in its slot, under its name. *)
Definition still_there (g : gate_rec) : Nt bool :=
  slot ← slot_at (gr_pos g);
  match slot with
  | None => mret false
  | Some mb => obj ← object mb; mret (match obj with Some (_, d) => named d [gr_name g] | None => false end)
  end.

(** [a & (a | b)] and [a | (a & b)] are [a]; [a & (a & b)] and [a | (a | b)]
    are the inner gate. *)
Definition try_rewrite (gates : gmap node_ptr gate_rec) (pg : gate_rec) (plain subexpr : node_ptr) : Nt nodep :=
  match gates !! subexpr with
  | None => mret None
  | Some cg =>
      match gr_in0 cg, gr_in1 cg with
      | Some c0, Some c1 =>
          there ← still_there cg;
          if negb there then mret None
          else if bool_decide (plain = c0) || bool_decide (plain = c1)
          then mret (if bool_decide (gr_name pg = gr_name cg) then gr_out cg else Some plain)
          else mret None
      | _, _ => mret None
      end
  end.

Definition absorb_at (prot : list nodep) (fan : gate_opt_fanout) (gates : gmap node_ptr gate_rec) (pg : gate_rec) : Nt bool :=
  match gr_in0 pg, gr_in1 pg, gr_out pg with
  | Some a, Some b, Some o =>
      if is_protected prot o then mret false
      else
        od ← node_at o;
        if negb (has_unique_driver_pin (pin_out fan) (pins od) (gr_out_pin pg)) then mret false
        else
          there ← still_there pg;
          if negb there then mret false
          else
            rep1 ← try_rewrite gates pg a b;
            rep ← match rep1 with Some r => mret (Some r) | None => try_rewrite gates pg b a end;
            moved ← move_consumers prot (pin_out fan) (Some o) rep;
            if negb moved then mret false else _ ← delete_at (gr_pos pg); mret true
  | _, _, _ => mret false
  end.
Definition optimize_absorption (prot : list nodep) : Nt bool :=
  fan ← fanout;
  l ← lives;
  let gates := List.filter (fun g => is_and_or g && bool_decide (is_Some (gr_out g))) (omap classify l) in
  any_change (absorb_at prot fan (by_out gates)) gates.

(** ** Inverters behind gates *)

(** The gate whose output is the complement. *)
Definition complement (name : string) : option device :=
  if among name ["AND"] then Some (m_NAND NAND.default)
  else if among name ["NAND"] then Some (m_AND AND.default)
  else if among name ["OR"] then Some (m_NOR NOR.default)
  else if among name ["NOR"] then Some (m_OR OR.default)
  else if among name ["XOR"] then Some (m_XNOR XNOR.default)
  else if among name ["XNOR"] then Some (m_XOR XOR.default)
  else if among name ["IMP"] then Some (m_NIMP NIMP.default)
  else if among name ["NIMP"] then Some (m_IMP IMP.default)
  else None.

(** The new gate with its inputs connected. *)
Definition add_bin_gate (d : device) (a b : node_ptr) : Nt (option model_pos) :=
  m ← new_object d;
  l0 ← link m.1 0 a;
  l1 ← (if (l0 : bool) then link m.1 1 b else mret false);
  if (l1 : bool) then mret (Some m.2) else _ ← delete_at m.2; mret None.

(** The complement gate takes the place of the gate and the inverter; its
    output is connected when the inverter is gone. *)
Definition fuse_pair (d : device) (a b o : node_ptr) (n g : gate_rec) : Nt bool :=
  added ← add_bin_gate d a b;
  match added with
  | None => mret false
  | Some pos =>
      _ ← delete_at (gr_pos n);
      _ ← delete_at (gr_pos g);
      slot ← slot_at pos;
      match slot with
      | None => mret false
      | Some mb =>
          obj ← object mb;
          match obj with
          | None => mret false
          | Some _ =>
              linked ← (fun nl => add_to_node nl mb 2 o);
              if (linked : bool) then mret true else _ ← delete_at pos; mret false
          end
      end
  end.

Definition fuse_at (prot : list nodep) (fan : gate_opt_fanout) (gates : gmap node_ptr gate_rec) (n : gate_rec) : Nt bool :=
  match gr_in0 n, gr_out n with
  | Some mid, Some o =>
      if is_protected prot mid then mret false
      else match gates !! mid with
      | None => mret false
      | Some g =>
          match gr_in0 g, gr_in1 g, complement (gr_name g) with
          | Some a, Some b, Some d =>
              if negb (sole_link fan mid) then mret false
              else
                md ← node_at mid;
                if negb (has_unique_driver_pin (pin_out fan) (pins md) (gr_out_pin g)) then mret false
                else
                  od ← node_at o;
                  if negb (has_unique_driver_pin (pin_out fan) (pins od) (gr_out_pin n)) then mret false
                  else
                    fuse_pair d a b o n g
          | _, _, _ => mret false
          end
      end
  | _, _ => mret false
  end.
Definition optimize_fuse_inverters (prot : list nodep) : Nt bool :=
  fan ← fanout;
  l ← lives;
  let gs := omap classify l in
  let bins := List.filter (fun g => negb (is_not g) && bool_decide (is_Some (gr_out g))) gs in
  any_change (fuse_at prot fan (by_out bins)) (List.filter is_not gs).

(** ** Duplicates *)

(** The inputs of a commutative gate are sorted by address. *)
Definition commutative (name : string) : bool := among name ["AND"; "OR"; "XOR"; "XNOR"; "NAND"; "NOR"].
Definition canon_key (name : string) (a b : node_ptr) : gate_key :=
  if commutative name && (b <? a)%N then (name, b, Some a) else (name, a, Some b).
Definition key_of (g : gate_rec) : option gate_key :=
  if is_not g then match gr_in0 g with Some a => Some (gr_name g, a, None) | None => None end
  else match gr_in0 g, gr_in1 g with Some a, Some b => Some (canon_key (gr_name g) a b) | _, _ => None end.

(** The pins of a node but its driver move to another node. *)
Definition merge_into (prot : list nodep) (po : gmap pin_ptr bool) (from to : node_ptr) (driver : pin_ptr) : Nt bool :=
  if bool_decide (from = to) || is_protected prot from then mret false
  else
    nd ← node_at from;
    if negb (has_unique_driver_pin po (pins nd) driver) then mret false
    else _ ← move_pins from to (List.filter (fun p => negb (bool_decide (p = driver))) (pins nd)); mret true.

Definition strash_gate (prot : list nodep) (po : gmap pin_ptr bool) (rep : gmap gate_key gate_rec) (og : gate_rec) : Nt (gmap gate_key gate_rec * bool) :=
  match gr_out og, key_of og with
  | Some go, Some k =>
      match rep !! k with
      | None => mret (<[k := og]> rep, false)
      | Some r =>
          match gr_out r with
          | None => mret (<[k := og]> rep, false)
          | Some ro =>
              let r_prot := is_protected prot ro in
              let g_prot := is_protected prot go in
              if r_prot && g_prot then mret (rep, false)
              else if negb r_prot && g_prot then
                moved ← merge_into prot po ro go (gr_out_pin r);
                if negb moved then mret (rep, false)
                else _ ← delete_at (gr_pos r); mret (<[k := og]> rep, true)
              else
                moved ← merge_into prot po go ro (gr_out_pin og);
                if negb moved then mret (rep, false)
                else _ ← delete_at (gr_pos og); mret (rep, true)
          end
      end
  | _, _ => mret (rep, false)
  end.

(** The slots of a chunk are visited while they are there: the loop ends at
    the last slot that is left. *)
Definition strash_at (prot : list nodep) (po : gmap pin_ptr bool) (rep : gmap gate_key gate_rec) (pos : model_pos) : Nt (gmap gate_key gate_rec * bool) :=
  slot ← slot_at pos;
  match slot with
  | None => mret (rep, false)
  | Some mb =>
      obj ← object mb;
      match obj with
      | None => mret (rep, false)
      | Some (ip, d) =>
          match classify {| lv_pos := pos; lv_base := mb; lv_ip := ip; lv_dev := d |} with
          | None => mret (rep, false)
          | Some og => strash_gate prot po rep og
          end
      end
  end.
Fixpoint strash_all (prot : list nodep) (po : gmap pin_ptr bool) (rep : gmap gate_key gate_rec) (l : list model_pos) : Nt bool :=
  match l with
  | [] => mret false
  | pos :: l' => r ← strash_at prot po rep pos; c ← strash_all prot po r.1 l'; mret (r.2 || c)
  end.
Definition positions : Nt (list model_pos) := fun nl => Some (map fst (slots_of nl), nl).
Definition optimize_strash (prot : list nodep) : Nt bool :=
  fan ← fanout;
  ps ← positions;
  strash_all prot (pin_out fan) ∅ ps.

(** ** Gates nobody reads *)

(** The outputs of a model are not protected, and had no consumer. *)
Definition unused (prot : list nodep) (fan : gate_opt_fanout) (d : device) : bool :=
  let pv := generate_pin_view d in
  let outs := List.filter (fun ixp : nat * pin => is_output_pin (model_name d) ixp.1 (length pv)) (imap pair pv) in
  negb (bool_decide (outs = [])) &&
  forallb (fun ixp : nat * pin =>
    match nodes ixp.2 with
    | None => true
    | Some n => negb (is_protected prot n) && match consumer_count fan !! n with Some k => k =? 0 | None => true end
    end) outs.

Definition dce_at (prot : list nodep) (fan : gate_opt_fanout) (pos : model_pos) : Nt bool :=
  slot ← slot_at pos;
  match slot with
  | None => mret false
  | Some mb =>
      obj ← object mb;
      match obj with
      | None => mret false
      | Some (ip, d) =>
          if named d ["OUTPUT"; "VERILOG_PORTS"] || (named d ["INPUT"] && negb (bool_decide (mb_name mb = ""))) then mret false
          else if unused prot fan d then delete_at pos else mret false
      end
  end.
Definition optimize_dce (prot : list nodep) : Nt bool :=
  fan ← fanout;
  ps ← positions;
  any_change (dce_at prot fan) ps.

(** ** Costs *)

Definition count_logic_gates (l : list live) : Z :=
  fold_left (fun k m => if named (lv_dev m) ["AND"; "OR"; "XOR"; "XNOR"; "NOT"; "NAND"; "NOR"; "IMP"; "NIMP"; "YES"] then u64_wrap (k + 1) else k) l 0.
Definition count_total_models (l : list live) : Z := fold_left (fun k _ => u64_wrap (k + 1)) l 0.
Definition count_total_nodes (nl : netlist device) : Z :=
  u64_wrap (fold_left (fun k b => u64_wrap (k + Z.of_nat (length b))) (node_blocks nl) 0 + 1).

(** The weights in the order of the tests. *)
Definition gate_names : list string :=
  ["NOT"; "AND"; "OR"; "XOR"; "XNOR"; "NAND"; "NOR"; "IMP"; "NIMP"; "YES"; "CASE_EQ"; "IS_UNKNOWN"].
Definition gate_weight (weights : list Z) (name : string) : Z :=
  default 0 (snd <$> List.find (fun nw => bool_decide (nw.1 = name)) (zip gate_names weights)).
Definition compute_omax_cost (gate_count : bool) (weights : list Z) (l : list live) : Z :=
  if gate_count then count_logic_gates l
  else fold_left (fun k m => u64_wrap (k + gate_weight weights (model_name (lv_dev m)))) l 0.

End Passes.
