(* ===== verification/SynthOptLemmas.v ===== *)
(** * SynthOptLemmas: netlists with the same behaviour

    [behaves] relates two netlists that have the same stable valuations, seen
    from the protected nodes ([TRI], which has no reaction, puts no constraint on
    them).  A pass keeps the behaviour step by step: a step merges a node into
    another one that carries the same state, which renames the node in all
    models ([merge_behaves]), removes a model nobody reads ([drop_behaves]), or
    puts a model in the place of two ([fuse_behaves]). *)

From Stdlib Require Import ZArith Lia.
From stdpp Require Import base list gmap strings.
From S2P Require Import Prelude Store Logic4 Gates Devices Sequential Arith Model.
From S2P Require Import Reactive Reaction Reactions Engine Settle.
From S2P Require Import Netlist NetlistInv NetlistOps NetlistClaims.
From S2P Require Import VData VExpr VCache VStmt VStmtInv SynthNet SynthNetLemmas SynthOpt.

Open Scope Z_scope.

(** ** Renaming the nodes of a model *)

Definition rename_pin (ρ : node_ptr -> node_ptr) (p : pin) : pin := mk_pin (name p) (ρ <$> nodes p) (model p).
Definition rename (ρ : node_ptr -> node_ptr) (d : device) : device := device_set_pins d (map (rename_pin ρ) (device_pins d)).

Section Rename.
Context (ρ : node_ptr -> node_ptr).

Lemma wires_rename ps : wires (map (rename_pin ρ) ps) = map ρ <$> wires ps.
Proof.
  induction ps as [|p ps IH]; [done|]. unfold wires in *. simpl. rewrite IH. destruct (nodes p); [|done]. simpl.
  by destruct (mapM nodes ps).
Qed.
Lemma port_ins_rename k ps : port_ins k (map (rename_pin ρ) ps) = map ρ (port_ins k ps).
Proof. unfold port_ins. rewrite wires_rename. destruct (wires ps); [|done]. simpl. by rewrite <- fmap_take. Qed.
Lemma port_outs_rename k ps : port_outs k (map (rename_pin ρ) ps) = map ρ (port_outs k ps).
Proof. unfold port_outs. rewrite wires_rename. destruct (wires ps); [|done]. simpl. by rewrite <- fmap_drop. Qed.
Lemma conn_rename ps : conn (map (rename_pin ρ) ps) = map ρ (conn ps).
Proof. induction ps as [|p ps IH]; [done|]. cbn [map]. rewrite !conn_cons, IH, map_app. simpl. by destruct (nodes p). Qed.
Lemma conn_vals_rename f ps : forall i, conn_vals f i (map (rename_pin ρ) ps) = conn_vals f i ps.
Proof. induction ps as [|p ps IH]; intros i; [done|]. simpl. destruct (nodes p); simpl; by rewrite IH. Qed.
Lemma conn_vals_ext f g ps : (forall i, f i = g i) -> forall i, conn_vals f i ps = conn_vals g i ps.
Proof. intros H. induction ps as [|p ps IH]; intros i; [done|]. simpl. by rewrite H, IH. Qed.
Lemma display_bits_rename ps : forall i xs acc, display_bits i (map (rename_pin ρ) ps) xs acc = display_bits i ps xs acc.
Proof. induction ps as [|p ps IH]; intros i xs acc; [done|]. simpl. destruct (nodes p), xs; simpl; by rewrite IH. Qed.
Lemma pin_at_rename ps i : pin_at (map (rename_pin ρ) ps) i = ρ <$> pin_at ps i.
Proof. unfold pin_at. rewrite list_lookup_fmap. by destruct (ps !! i). Qed.
Lemma take_rename k ps : take k (map (rename_pin ρ) ps) = map (rename_pin ρ) (take k ps).
Proof. symmetry. apply fmap_take. Qed.

Lemma pins_rename d : device_pins (rename ρ d) = map (rename_pin ρ) (device_pins d).
Proof. by destruct d. Qed.

#[local] Arguments wires : simpl never.
#[local] Arguments conn_vals : simpl never.
#[local] Arguments display_bits : simpl never.
#[local] Arguments pin_at : simpl never.

Lemma td_node_at i m : td_node i m = pin_at (TICK_DELAY.d_pins m) i.
Proof. done. Qed.

Ltac rename_ports :=
  rewrite ?td_node_at; cbn; unfold COUNTER4.generate_pin_view_define, RANDOM_GENERATOR4.generate_pin_view_define, TICK_DELAY.generate_pin_view_define;
  rewrite ?take_rename, ?wires_rename, ?port_ins_rename, ?port_outs_rename, ?conn_rename, ?conn_vals_rename, ?pin_at_rename, ?display_bits_rename.
Ltac split_ports := repeat match goal with |- context [pin_at ?ps ?i] => destruct (pin_at ps i) end; try done.

Lemma rename_ins d : r_ins device_reaction (rename ρ d) = map ρ (r_ins device_reaction d).
Proof. destruct d; cbn; try done; rename_ports; split_ports. Qed.
Lemma rename_outs d : r_outs device_reaction (rename ρ d) = map ρ (r_outs device_reaction d).
Proof. destruct d; cbn; try done; rename_ports; split_ports. Qed.

(** A reaction that does not look at which nodes its pins are on. *)
Definition commutes {A} (pins_of : A -> list pin) (set : A -> list pin -> A) (R : reaction A) : Prop := forall meth m xs,
  let r := r_react R meth m xs in
  r_react R meth (set m (map (rename_pin ρ) (pins_of m))) xs = (set r.1 (map (rename_pin ρ) (pins_of r.1)), r.2).

Lemma ff_commutes {A} (pins_of : A -> list pin) (set : A -> list pin -> A) k next q :
  (forall m ps, pins_of (set m ps) = ps) -> (forall m xs, pins_of (next m xs) = pins_of m) ->
  (forall m ps xs, next (set m ps) xs = set (next m xs) ps) -> (forall m ps, q (set m ps) = q m) ->
  commutes pins_of set (ff_reaction pins_of k next q).
Proof.
  intros H1 H2 H3 H4 meth m xs. cbn. rewrite H1, wires_rename. destruct (wires (pins_of m)); cbn; [|done]. by rewrite H3, H4, H2.
Qed.

Lemma gen_commutes {A} (pins_of : A -> list pin) (set : A -> list pin -> A) step q :
  (forall m ps, pins_of (set m ps) = ps) -> (forall m c e, pins_of (step m c e) = pins_of m) ->
  (forall m ps c e, step (set m ps) c e = set (step m c e) ps) -> (forall m ps i, q (set m ps) i = q m i) ->
  commutes pins_of set (gen_reaction pins_of step q).
Proof.
  intros H1 H2 H3 H4 meth m xs. cbn. rewrite H1, pin_at_rename, take_rename. destruct (pin_at (pins_of m) 4); cbn; [|done].
  destruct xs as [|c xs]; cbn; [done|]. rewrite H3, conn_vals_rename, H2. f_equal.
  apply conn_vals_ext. intros i. apply H4.
Qed.

Lemma gate2_commutes op : commutes g2_pins set_pins_gate2 (gate2_reaction op).
Proof. intros meth m xs. destruct m as [ps ? ? ? ?]. cbn. rewrite wires_rename. destruct (wires ps); cbn; [|done]. by destruct xs as [|? [|? [|? ?]]]. Qed.
Lemma gate1_commutes op : commutes g1_pins set_pins_gate1 (gate1_reaction op).
Proof. intros meth m xs. destruct m as [ps ? ? ?]. cbn. rewrite wires_rename. destruct (wires ps); cbn; [|done]. by destruct xs as [|? [|? ?]]. Qed.
Lemma arith2_commutes k f : commutes ar_pins set_pins_arith2 (arith2_reaction k f).
Proof. intros meth m xs. destruct m as [ps ? ? ? ?]. cbn. rewrite wires_rename. destruct (wires ps); cbn; [|done]. by destruct (f _). Qed.

Lemma td_step_set m ps i : td_step (set_pins_TICK_DELAY m ps) i = (set_pins_TICK_DELAY (td_step m i).1 ps, (td_step m i).2).
Proof. unfold td_step. cbn. by destruct (bool_decide _). Qed.
Lemma td_step_pins m i : TICK_DELAY.d_pins (td_step m i).1 = TICK_DELAY.d_pins m.
Proof. unfold td_step. by destruct (bool_decide _). Qed.

Lemma device_react meth d xs : let v := device_view d in
  r_react device_reaction meth d xs = (v_inj v (r_react (v_rx v) meth (v_val v) xs).1, (r_react (v_rx v) meth (v_val v) xs).2).
Proof. cbn. by destruct (r_react _ _ _ _). Qed.

Ltac open_xs := match goal with xs : list dns |- _ => destruct xs as [|? [|? [|? [|? [|? ?]]]]]; try done end.

Ltac ff_commute pins_of set :=
  lazymatch goal with |- context [ff_reaction ?p ?k ?next ?q] =>
    let H := fresh in
    assert (H : commutes pins_of set (ff_reaction p k next q)) by (apply ff_commutes;
      [done | by intros ? [|? [|? [|? [|? ?]]]] | (intros [] ? [|? [|? [|? [|? ?]]]]; try done; cbn; by repeat case_match) | done]);
    etransitivity; [exact (f_equal (fun r => (_ r.1, r.2)) (H _ _ _))|reflexivity]
  end.

Lemma rename_react meth d xs :
  r_react device_reaction meth (rename ρ d) xs =
  (rename ρ (r_react device_reaction meth d xs).1, (r_react device_reaction meth d xs).2).
Proof.
  rewrite !device_react.
  destruct d as [m|m|m|m|m|m|m|m|m|m|m|m|m|m|m|m|m|m|m|m|m|m|m|m|m|m|m|m|m|m|m|m|m];
    cbn [device_view v_inj v_rx v_val rename device_set_pins device_pins as_view fst snd];
    try (rewrite gate2_commutes; done); try (rewrite gate1_commutes; done); try (rewrite arith2_commutes; done).
  - destruct m as [ps ? ? ? ?]. cbn. rewrite wires_rename. by destruct (wires ps).
  - destruct m as [ps ? ?]. cbn. by open_xs.
  - destruct m as [ps ? ? ?]. cbn. rewrite wires_rename. destruct (wires ps); cbn; [|done]. by open_xs.
  - destruct m as [ps ? ? ?]. cbn. rewrite wires_rename. destruct (wires ps); cbn; [|done]. by open_xs.
  - destruct m as [ps ? ?]. cbn. rewrite wires_rename. destruct (wires ps); cbn; [|done]. by open_xs.
  - done.
  - destruct m as [ps ? ? ? ? ? ? ?]. cbn. rewrite wires_rename. destruct (wires ps); cbn; [|done]. by open_xs.
  - cbn. rewrite !td_node_at. cbn. unfold TICK_DELAY.generate_pin_view_define. rewrite pin_at_rename.
    destruct (pin_at (TICK_DELAY.d_pins m) 1); cbn; [|done]. destruct (bool_decide _); [|done]. rewrite td_step_set.
    pose proof (td_step_pins m (default sX (head xs))) as Hp. destruct (td_step m _) as [m' out]. cbn in *. by rewrite Hp.
  - destruct m as [ps ? ? ? ?]. cbn. unfold bits_of. cbn. unfold EIGHT_BIT_INPUT.generate_pin_view_define. cbn. by rewrite conn_vals_rename.
  - destruct m as [ps ? ? ? ?]. cbn. unfold EIGHT_BIT_DISPLAY.generate_pin_view_define. cbn. rewrite display_bits_rename. by destruct (display_bits _ _ _ _).
  - by ff_commute DFF.f_pins set_pins_DFF.
  - by ff_commute DFF_ARSTN.a_pins set_pins_DFF_ARSTN.
  - by ff_commute DLATCH.l_pins set_pins_DLATCH.
  - by ff_commute TFF.f_pins set_pins_TFF.
  - by ff_commute T_BAR_FF.f_pins set_pins_T_BAR_FF.
  - by ff_commute JKFF.j_pins set_pins_JKFF.
  - change COUNTER4.generate_pin_view_define with COUNTER4.n_pins. rewrite (gen_commutes COUNTER4.n_pins set_pins_COUNTER4); [done|done|apply COUNTER4_pins| |done].
    intros ? ? ? ?. unfold COUNTER4_step, COUNTER4.next. cbn. by repeat case_match.
  - change RANDOM_GENERATOR4.generate_pin_view_define with RANDOM_GENERATOR4.r_pins.
    rewrite (gen_commutes RANDOM_GENERATOR4.r_pins set_pins_RANDOM_GENERATOR4); [done|done|apply RANDOM_GENERATOR4_pins| |done].
    intros ? ? ? ?. unfold RANDOM_GENERATOR4_step, RANDOM_GENERATOR4.next. cbn. by repeat case_match.
  - destruct m as [ps ? ? ?]. cbn. rewrite wires_rename. by destruct (wires ps).
Qed.
End Rename.

(** ** Satisfied models under a renaming *)

Lemma rename_reacts ρ d d' : reacts d d' -> reacts (rename ρ d) (rename ρ d').
Proof. intros (meth & xs & <-). exists meth, xs. by rewrite rename_react. Qed.
Lemma rename_rtc ρ d d' : rtc reacts d d' -> rtc reacts (rename ρ d) (rename ρ d').
Proof. induction 1 as [|a b c H _ IH]; [done|]. eapply rtc_l; [by apply rename_reacts|done]. Qed.
Lemma rename_rtc_inv ρ d e : rtc reacts (rename ρ d) e -> exists d', e = rename ρ d' /\ rtc reacts d d'.
Proof.
  intros H. remember (rename ρ d) as x eqn:Ex. revert d Ex. induction H as [x|x y z (meth & xs & <-) _ IH]; intros d ->; [by exists d|].
  rewrite rename_react in IH. destruct (IH _ eq_refl) as (d' & -> & Hr). exists d'. split; [done|]. eapply rtc_l; [|done]. by exists meth, xs.
Qed.

Lemma sat_rename (σ : valuation) ρ d : sat σ (rename ρ d) <-> sat (fun n => σ (ρ n)) d.
Proof.
  split.
  - intros (e & Hr & Hs). apply rename_rtc_inv in Hr as (d' & -> & Hr). exists d'. split; [done|].
    rewrite rename_react, rename_ins, rename_outs, !map_map in Hs. exact Hs.
  - intros (d' & Hr & Hs). exists (rename ρ d'). split; [by apply rename_rtc|].
    rewrite rename_react, rename_ins, rename_outs, !map_map. exact Hs.
Qed.

Lemma sat_ext (σ τ : valuation) d : (forall n, σ n = τ n) -> sat σ d -> sat τ d.
Proof. intros E (d' & Hr & Hs). exists d'. split; [done|]. rewrite <- (map_ext σ τ), <- (map_ext σ τ); done. Qed.

(** ** Behaviour *)

Definition nl_stable (nl : netlist device) (σ : valuation) : Prop := forall ip d, s_impls nl !! ip = Some d -> sat σ d.
Definition agree (prot : list nodep) (σ τ : valuation) : Prop := forall n, Some n ∈ prot -> σ n = τ n.

Definition simulates (prot : list nodep) (nl nl' : netlist device) : Prop := forall σ, nl_stable nl σ ->
  exists τ, nl_stable nl' τ /\ agree prot σ τ.
Definition behaves (prot : list nodep) (nl nl' : netlist device) : Prop := simulates prot nl nl' /\ simulates prot nl' nl.

#[export] Instance agree_equivalence prot : Equivalence (agree prot).
Proof. split; [done| |]. - intros σ τ H n Hn. by rewrite H. - intros σ τ υ H1 H2 n Hn. by rewrite H1, H2. Qed.
#[export] Instance simulates_preorder prot : PreOrder (simulates prot).
Proof.
  split.
  - intros nl σ Hs. by exists σ.
  - intros a b c H1 H2 σ Hs. destruct (H1 σ Hs) as (τ & St & A1). destruct (H2 τ St) as (υ & Su & A2).
    exists υ. split; [done|]. by etransitivity.
Qed.
#[export] Instance behaves_equivalence prot : Equivalence (behaves prot).
Proof. split; [done| |]. - intros a b [? ?]. by split. - intros a b c [] []. split; by etransitivity. Qed.

(** A node is replaced by one that carries the same state, and its driver is
    removed. *)
Definition replace (from to n : node_ptr) : node_ptr := if decide (n = from) then to else n.

Lemma merge_behaves prot nl nl' ip d from to : s_impls nl !! ip = Some d -> from <> to -> is_protected prot from = false ->
  s_impls nl' = rename (replace from to) <$> delete ip (s_impls nl) ->
  (forall σ, nl_stable nl σ -> σ from = σ to) ->
  (forall σ, σ from = σ to -> (forall ip' d', ip' <> ip -> s_impls nl !! ip' = Some d' -> sat σ d') -> sat σ d) ->
  behaves prot nl nl'.
Proof.
  intros Hd Hne Hp E H1 H2. split.
  - intros σ Hs. exists σ. split; [|done]. intros ip' d'. rewrite E, lookup_fmap, fmap_Some.
    intros (d0 & H0 & ->). apply lookup_delete_Some in H0 as [_ H0]. apply sat_rename. eapply sat_ext; [|by apply (Hs ip')].
    intros n. unfold replace. case_decide; [subst; by apply H1|done].
  - intros σ Hs. exists (fun n => σ (replace from to n)).
    assert (Ho : forall ip' d', ip' <> ip -> s_impls nl !! ip' = Some d' -> sat (fun n => σ (replace from to n)) d').
    { intros ip' d' Hn Hd'. apply sat_rename, (Hs ip'). rewrite E, lookup_fmap, lookup_delete_ne, Hd' by done. done. }
    split.
    + intros ip' d' Hd'. destruct (decide (ip' = ip)) as [->|Hn]; [|by eapply Ho]. simplify_eq. apply H2; [unfold replace|done].
      rewrite decide_True, decide_False by done. done.
    + intros n Hn. unfold replace. case_decide as En; [|done]. subst. unfold is_protected in Hp. by apply bool_decide_eq_false_1 in Hp.
Qed.

(** ** Removing a model nobody reads *)

(** A reaction leaves the wiring alone. *)
Lemma ff_pins {A} (pins_of : A -> list pin) k next q meth m xs : (forall m xs, pins_of (next m xs) = pins_of m) ->
  pins_of (r_react (ff_reaction pins_of k next q) meth m xs).1 = pins_of m.
Proof. intros H. cbn. destruct (wires (pins_of m)); [apply H|done]. Qed.
Lemma gen_pins {A} (pins_of : A -> list pin) step q meth m xs : (forall m c e, pins_of (step m c e) = pins_of m) ->
  pins_of (r_react (gen_reaction pins_of step q) meth m xs).1 = pins_of m.
Proof. intros H. cbn. destruct (pin_at (pins_of m) 4), xs; cbn; try done; apply H. Qed.

Lemma react_pins meth d xs : device_pins (r_react device_reaction meth d xs).1 = device_pins d.
Proof.
  rewrite device_react. destruct d as [m|m|m|m|m|m|m|m|m|m|m|m|m|m|m|m|m|m|m|m|m|m|m|m|m|m|m|m|m|m|m|m|m];
    cbn [device_view v_inj v_rx v_val device_pins as_view fst snd];
    try (apply ff_pins; by intros ? [|? [|? [|? [|? ?]]]]);
    try (cbn; repeat case_match; done).
  - cbn. destruct (td_node _ m); cbn; [|done]. destruct (bool_decide _); [|done].
    pose proof (td_step_pins m (default sX (head xs))) as Hp. destruct (td_step m _) as [m' out]. exact Hp.
  - apply (gen_pins COUNTER4.n_pins), COUNTER4_pins.
  - apply (gen_pins RANDOM_GENERATOR4.r_pins), RANDOM_GENERATOR4_pins.
Qed.
Lemma reacts_pins d d' : rtc reacts d d' -> device_pins d' = device_pins d.
Proof. induction 1 as [|a b c (meth & xs & <-) _ IH]; [done|]. by rewrite IH, react_pins. Qed.

(** Whether a model is satisfied depends on the nodes of its pins. *)
Lemma sat_local (σ τ : valuation) d : (forall p n, p ∈ device_pins d -> nodes p = Some n -> σ n = τ n) -> sat σ d -> sat τ d.
Proof.
  intros H (d' & Hr & Hs). exists d'. split; [done|]. rewrite <- (reacts_pins _ _ Hr) in H.
  assert (E : forall l, (forall n, n ∈ l -> exists p, p ∈ device_pins d' /\ nodes p = Some n) -> map τ l = map σ l).
  { intros l Hl. apply map_ext_in. intros n Hn. apply list_elem_of_In, Hl in Hn as (p & Hp & Hpn). symmetry. by eapply H. }
  rewrite !E; [done| |]; intros n Hn; apply (l_ports _ _ _ device_laws d'); auto.
Qed.

(** The nodes of a list carry the given states. *)
Definition overlay (ns : list node_ptr) (ys : list dns) (σ : valuation) : valuation := fun n =>
  default (σ n) ((list_to_map (zip ns ys) : gmap node_ptr dns) !! n).
Lemma overlay_in ns ys σ : NoDup ns -> length ys = length ns -> map (overlay ns ys σ) ns = ys.
Proof.
  intros Hnd Hl. apply list_eq. intros i. change (map ?f ?l) with (f <$> l). rewrite list_lookup_fmap.
  destruct (ns !! i) as [n|] eqn:Hn; simpl; [|symmetry; apply lookup_ge_None; rewrite Hl; by apply lookup_ge_None].
  destruct (lookup_lt_is_Some_2 ys i) as [y Hy]; [rewrite Hl; by eapply lookup_lt_Some|]. rewrite Hy. f_equal. unfold overlay.
  rewrite (elem_of_list_to_map_1 _ n y); [done| |].
  - by rewrite fst_zip by lia.
  - apply list_elem_of_lookup. exists i. by rewrite lookup_zip_with, Hn, Hy.
Qed.
Lemma overlay_out ns ys σ n : n ∉ ns -> overlay ns ys σ n = σ n.
Proof.
  intros Hn. unfold overlay. rewrite not_elem_of_list_to_map_1; [done|]. intros H. apply list_elem_of_fmap in H as ([x y] & -> & H).
  by apply elem_of_zip_l in H.
Qed.

Lemma drop_behaves prot nl nl' ip d : s_impls nl !! ip = Some d -> s_impls nl' = delete ip (s_impls nl) ->
  r_wf device_reaction d -> NoDup (r_outs device_reaction d) ->
  (forall n, n ∈ r_outs device_reaction d -> is_protected prot n = false /\ n ∉ r_ins device_reaction d /\
    forall ip' d' p, ip' <> ip -> s_impls nl !! ip' = Some d' -> p ∈ device_pins d' -> nodes p <> Some n) ->
  behaves prot nl nl'.
Proof.
  intros Hd E Hwf Hnd Hout. split.
  - intros σ Hs. exists σ. split; [|done]. intros ip' d'. rewrite E. intros [_ H]%lookup_delete_Some. by apply (Hs ip').
  - intros σ Hs. destruct (r_react device_reaction update_table d (map σ (r_ins device_reaction d))) as [d1 ys] eqn:Hr.
    destruct (l_keep _ _ _ device_laws _ _ _ _ _ Hwf ltac:(by rewrite length_map) Hr) as (_ & _ & _ & _ & Hl & _).
    exists (overlay (r_outs device_reaction d) ys σ). split.
    + intros ip' d' Hd'. destruct (decide (ip' = ip)) as [->|Hn].
      * rewrite Hd in Hd'. injection Hd' as <-. exists d. split; [done|]. rewrite overlay_in by done.
        rewrite (map_ext_in _ σ); [by rewrite Hr|]. intros n Hin. apply overlay_out. intros Ho. apply (Hout n Ho). by apply list_elem_of_In.
      * apply (sat_local σ); [|apply (Hs ip'); by rewrite E, lookup_delete_ne]. intros p n Hp Hpn. symmetry. apply overlay_out. intros Ho.
        destruct (Hout n Ho) as (_ & _ & Hno). by apply (Hno ip' d' p).
    + intros n Hn. symmetry. apply overlay_out. intros Ho. destruct (Hout n Ho) as [Hp _]. unfold is_protected in Hp. by apply bool_decide_eq_false_1 in Hp.
Qed.

(** ** A model takes the place of two *)

Definition upd (σ : valuation) (n : node_ptr) (v : logic_t) : valuation := fun x => if decide (x = n) then v else σ x.

Lemma fuse_behaves prot nl nl' ip e ipn dn ipg dg mid o (vg : valuation -> logic_t) : s_impls nl !! ipn = Some dn -> s_impls nl !! ipg = Some dg ->
  s_impls nl !! ip = None -> s_impls nl' = <[ip := e]> (delete ipg (delete ipn (s_impls nl))) -> is_protected prot mid = false -> o <> mid ->
  (forall σ, sat σ dg <-> σ mid = vg σ) -> (forall σ, sat σ dn <-> σ o = NOT.output_res (σ mid)) -> (forall σ, sat σ e <-> σ o = NOT.output_res (vg σ)) ->
  (forall σ v, vg (upd σ mid v) = vg σ) ->
  (forall ip' d' p, ip' <> ipn -> ip' <> ipg -> s_impls nl !! ip' = Some d' -> p ∈ device_pins d' -> nodes p <> Some mid) ->
  behaves prot nl nl'.
Proof.
  intros Hn Hg Hfr E Hpr Hom Sg Sn Se Hv Hno. split.
  - intros σ Hs. exists σ. split; [|done]. intros ip' d'. rewrite E. intros [[<- <-]|[Hne H]]%lookup_insert_Some.
    + apply Se. rewrite (proj1 (Sn σ) (Hs _ _ Hn)). f_equal. by apply Sg, (Hs ipg).
    + apply lookup_delete_Some in H as [_ H]. apply lookup_delete_Some in H as [_ H]. by apply (Hs ip').
  - intros τ Hs. assert (He : sat τ e) by (apply (Hs ip); by rewrite E, lookup_insert_eq). apply Se in He.
    exists (upd τ mid (vg τ)). split.
    + intros ip' d' Hd'. destruct (decide (ip' = ipg)) as [->|N1]; [|destruct (decide (ip' = ipn)) as [->|N2]].
      * rewrite Hg in Hd'. injection Hd' as <-. apply Sg. rewrite Hv. unfold upd. by rewrite decide_True.
      * rewrite Hn in Hd'. injection Hd' as <-. apply Sn. unfold upd. by rewrite decide_False, decide_True.
      * apply (sat_local τ).
        -- intros p n Hp Hpn. unfold upd. rewrite decide_False; [done|]. intros ->. by eapply Hno.
        -- apply (Hs ip'). rewrite E, lookup_insert_ne by congruence. by rewrite !lookup_delete_ne.
    + intros n Hin. unfold upd. rewrite decide_False; [done|]. intros ->. unfold is_protected in Hpr. by apply bool_decide_eq_false_1 in Hpr.
Qed.

(** ** Moving pins *)

(** A model without its wiring. *)
Definition core (d : device) : device := device_set_pins d [].

Lemma device_ext d1 d2 : core d1 = core d2 -> (forall j, device_pins d1 !! j = device_pins d2 !! j) -> d1 = d2.
Proof.
  intros Hc Hp. apply list_eq in Hp. assert (E : forall d, d = device_set_pins (core d) (device_pins d)) by (intros []; by destruct m).
  rewrite (E d1), (E d2). by rewrite Hc, Hp.
Qed.
Lemma core_set d i x : core (set_pin_nodes d i x) = core d.
Proof. by destruct d. Qed.
Lemma core_rename ρ d : core (rename ρ d) = core d.
Proof. by destruct d. Qed.
Lemma set_pin_twice (d : device) i x y : set_pin_nodes (set_pin_nodes d i x) i y = set_pin_nodes d i y.
Proof.
  apply device_ext; [by rewrite !core_set|]. intros j. change device_pins with (@generate_pin_view device _). rewrite !view_set_pin.
  case_decide; [|done]. by destruct (generate_pin_view d !! j).
Qed.

Lemma device_digital (d : device) : is_analog d = false.
Proof. done. Qed.

Definition repoint (to : node_ptr) (p : pin) : pin := mk_pin (name p) (Some to) (model p).
Definition moved_pin (to : node_ptr) (ps : list pin_ptr) (ip : impl_ptr) (j : nat) (p : pin) : pin :=
  if decide ((ip, N.of_nat j) ∈ ps) then repoint to p else p.

(** The models after the pins [ps] have moved to [to]. *)
Record moved (to : node_ptr) (ps : list pin_ptr) (nl nl' : netlist device) : Prop := mk_moved {
  mv_models : models nl' = models nl;
  mv_dom : dom (s_impls nl') = dom (s_impls nl);
  mv_nodes : dom (s_nodes nl') = dom (s_nodes nl);
  mv_impl : forall ip d, s_impls nl !! ip = Some d -> exists d', s_impls nl' !! ip = Some d' /\ core d' = core d /\
    forall j, device_pins d' !! j = moved_pin to ps ip j <$> device_pins d !! j
}.

Section Moves.
Context (chunk_models : nat) (Hchunk : (0 < chunk_models <= 4096)%nat).
Abbreviation nl_inv := (nl_inv chunk_models).

Lemma pin_on nl n nd p : nl_inv nl -> s_nodes nl !! n = Some nd -> p ∈ pins nd ->
  exists d pn, s_impls nl !! p.1 = Some d /\ device_pins d !! N.to_nat p.2 = Some pn /\ nodes pn = Some n.
Proof.
  intros I Hn Hp. pose proof (proj2 (gi_link _ _ (ni_graph _ _ I) p n) (ex_intro _ nd (conj Hn Hp))) as E. unfold pin_node in E.
  destruct (s_impls nl !! p.1) as [d|] eqn:Hd; [|done]. change (generate_pin_view d) with (device_pins d) in E.
  destruct (device_pins d !! N.to_nat p.2) as [pn|] eqn:Hpn; [|done]. simpl in E. injection E as E. eauto.
Qed.

Lemma move_pin_spec nl from to fd p : nl_inv nl -> from <> to -> s_nodes nl !! from = Some fd -> p ∈ pins fd -> is_Some (s_nodes nl !! to) ->
  exists nl', move_pin from to p nl = Some (tt, nl') /\ nl_inv nl' /\ moved to [p] nl nl' /\
    s_nodes nl' !! from = Some (set_links fd (oset_erase p (pins fd)) (num_of_analog_node fd)).
Proof.
  intros I Hne Hf Hp [td Ht]. destruct (pin_on nl from fd p I Hf Hp) as (d & pn & Hd & Hpn & Hon). destruct p as [ip k]. simpl in *.
  unfold move_pin. rewrite Hf. unfold point_pin. simpl. rewrite Hd. change (generate_pin_view d) with (device_pins d). rewrite Hpn.
  rewrite lookup_insert_ne, Ht by done. eexists. split; [reflexivity|]. split_and!.
  - pose proof (graph_unlink _ _ ip d (N.to_nat k) pn from fd (ni_graph _ _ I) Hd Hpn Hon Hf) as G1.
    rewrite device_digital, N2Nat.id in G1. cbv match in G1.
    pose proof (graph_link _ _ ip (set_pin_nodes d (N.to_nat k) None) (N.to_nat k) (mk_pin (name pn) None (model pn)) to td G1) as G2.
    rewrite device_digital, N2Nat.id, set_pin_twice, insert_insert_eq in G2. cbv match in G2.
    apply inv_set_graph; [done| | |by eapply dom_insert_same].
    + apply G2; [by rewrite lookup_insert_eq| |done|by rewrite lookup_insert_ne].
      change device_pins with (@generate_pin_view device _). rewrite view_set_pin, decide_True by done. change (generate_pin_view d) with (device_pins d). by rewrite Hpn.
    + rewrite (dom_insert_same _ _ td) by (by rewrite lookup_insert_ne). by eapply dom_insert_same.
  - split; simpl; [done|by eapply dom_insert_same| |].
    + rewrite (dom_insert_same _ _ td) by (by rewrite lookup_insert_ne). by eapply dom_insert_same.
    + intros ip' d' Hd'. destruct (decide (ip' = ip)) as [->|Hn].
      * simplify_eq. exists (set_pin_nodes d (N.to_nat k) (Some to)). rewrite lookup_insert_eq. split; [done|]. split; [apply core_set|]. intros j.
        change device_pins with (@generate_pin_view device _). rewrite view_set_pin. unfold moved_pin.
        case_decide as E1; case_decide as E2; try done.
        -- subst. destruct E2. rewrite N2Nat.id. by left.
        -- destruct E1. apply list_elem_of_singleton in E2. injection E2 as <-. by rewrite Nat2N.id.
        -- by destruct (generate_pin_view d !! j).
      * exists d'. rewrite lookup_insert_ne by done. split_and!; [done|done|]. intros j. destruct (device_pins d' !! j) as [q|]; [|done]. simpl. unfold moved_pin. rewrite decide_False; [done|].
        intros E. apply list_elem_of_singleton in E. congruence.
  - simpl. by rewrite lookup_insert_ne, lookup_insert_eq by done.
Qed.
Lemma moved_trans to ps qs nl1 nl2 nl3 : moved to ps nl1 nl2 -> moved to qs nl2 nl3 -> moved to (ps ++ qs) nl1 nl3.
Proof.
  intros [A1 A2 A3 A4] [B1 B2 B3 B4]. split; [congruence..|]. intros ip d Hd. destruct (A4 ip d Hd) as (d2 & H2 & C2 & V2).
  destruct (B4 ip d2 H2) as (d3 & H3 & C3 & V3). exists d3. split_and!; [done|congruence|]. intros j. rewrite V3, V2.
  destruct (device_pins d !! j) as [q|]; [|done]. simpl. f_equal. unfold moved_pin.
  repeat case_decide; try done; set_solver.
Qed.

Lemma move_pins_spec from to ps : forall nl fd, nl_inv nl -> from <> to -> s_nodes nl !! from = Some fd -> (forall p, p ∈ ps -> p ∈ pins fd) ->
  NoDup ps -> is_Some (s_nodes nl !! to) ->
  exists nl', move_pins from to ps nl = Some (tt, nl') /\ nl_inv nl' /\ moved to ps nl nl'.
Proof using Hchunk.
  induction ps as [|p ps IH]; intros nl fd I Hne Hf Hps Hnd Ht.
  { exists nl. split_and!; [done|done|]. split; try done. intros ip d Hd. exists d. split_and!; [done|done|]. intros j.
    destruct (device_pins d !! j) as [q|]; [|done]. simpl. unfold moved_pin. rewrite decide_False; [done|apply not_elem_of_nil]. }
  apply NoDup_cons in Hnd as [Hni Hnd].
  destruct (move_pin_spec nl from to fd p I Hne Hf) as (nl1 & E1 & I1 & M1 & F1); [by apply Hps; left|done|].
  destruct (IH nl1 _ I1 Hne F1) as (nl2 & E2 & I2 & M2); [|done| |].
  - intros q Hq. simpl. apply elem_of_oset_erase; [by eapply I|]. split; [by apply Hps; right|]. by intros ->.
  - apply elem_of_dom. rewrite (mv_nodes _ _ _ _ M1). by apply elem_of_dom.
  - exists nl2. split_and!; [|done|].
    + cbn [move_pins]. unfold mbind, St_bind. by rewrite E1.
    + by apply (moved_trans to [p] ps nl nl1 nl2).
Qed.

(** ** Deleting a model *)

Lemma detach_pins_keep is_ : forall (nl nl' : netlist device) ip, detach_pins nl ip is_ = Some nl' ->
  delete ip (s_impls nl') = delete ip (s_impls nl) /\ models nl' = models nl.
Proof.
  induction is_ as [|i is_ IH]; intros nl nl' ip; simpl; [by intros [= <-]|]. destruct (detach_pin nl ip i) as [nl1|] eqn:E; [|done].
  intros H. destruct (IH _ _ _ H) as [-> ->]. unfold detach_pin in E. repeat (case_match; try done); simplify_eq; [|done]. simpl.
  split; [apply delete_insert_eq|done].
Qed.

(** The slot of a position is in use, by an object. *)
Definition holds (nl : netlist device) (pos : model_pos) (ip : impl_ptr) (d : device) : Prop :=
  0 <= chunk_pos pos /\ 0 <= vec_pos pos /\
  exists mb, get_model nl pos = Some mb /\ type mb = normal /\ ptr mb = Some ip /\ s_impls nl !! ip = Some d.

Lemma delete_at_spec nl pos ip d : nl_inv nl -> holds nl pos ip d ->
  exists nl', delete_at pos nl = Some (true, nl') /\ nl_inv nl' /\ s_impls nl' = delete ip (s_impls nl) /\ dom (s_nodes nl') = dom (s_nodes nl) /\
    forall pos' ip' d', ip' <> ip -> holds nl pos' ip' d' -> holds nl' pos' ip' d'.
Proof using Hchunk.
  intros I (Hc & Hv & mb & Hg & Ht & Hp & Hd). destruct (delete_model_spec chunk_models Hchunk nl pos mb I Hc Hv Hg) as (nl' & E & I' & Dn & Di).
  exists nl'. assert (Hu : is_used mb = true) by (unfold is_used; by rewrite Ht). rewrite Hu in E.
  apply get_model_spec in Hg as (b & Eb & Em); [|done..]. pose proof E as E0. rewrite (delete_model_cases nl pos b mb) in E0 by done.
  cbv zeta in E0. rewrite Hu in E0. unfold model_clear, model_remove_from_node in E0. rewrite Hp, Hd, bool_decide_eq_true_2 in E0 by done.
  destruct (detach_pins nl ip _) as [nl1|] eqn:E1; [|by repeat case_match]. destruct (detach_pins_keep _ _ _ _ E1) as [Hi Hm].
  assert (exists b', models nl' = <[Z.to_nat (chunk_pos pos) := b']> (models nl) /\ s_impls nl' = delete ip (s_impls nl) /\
    forall v, v <> Z.to_nat (vec_pos pos) -> (v < length (slots b))%nat -> slots b' !! v = slots b !! v) as (b' & Hb & Himp & Hsl).
  { case_decide as Ev; injection E0 as <-; simpl; rewrite Hi, Hm; eexists; (split; [reflexivity|]); (split; [done|]); intros v Hv1 Hv2; simpl.
    - rewrite lookup_take_lt; [done|]. lia.
    - by rewrite list_lookup_insert_ne. }
  split_and!; [done|done|done|done|]. intros pos' ip' d' Hne (Hc' & Hv' & mb' & Hg' & Ht' & Hp' & Hd'). split_and!; [done..|]. exists mb'.
  rewrite Himp, lookup_delete_ne by done. split_and!; [|done..]. apply get_model_spec; [done..|].
  apply get_model_spec in Hg' as (b1 & Eb1 & Em1); [|done..]. rewrite Hb.
  destruct (decide (Z.to_nat (chunk_pos pos) = Z.to_nat (chunk_pos pos'))) as [Ec|Ec]; [|exists b1; by rewrite list_lookup_insert_ne].
  rewrite <- Ec in *. simplify_eq. exists b'. rewrite list_lookup_insert_eq by (by eapply lookup_lt_Some). split; [done|].
  rewrite Hsl; [done| |by eapply lookup_lt_Some]. intros Ev. rewrite Ev in Em1. congruence.
Qed.

(** ** Adding a model *)

(** A model with its first pins on the given nodes. *)
Definition wired3 (d : device) (a b o : node_ptr) : device := set_pin_nodes (set_pin_nodes (set_pin_nodes d 0 (Some a)) 1 (Some b)) 2 (Some o).

Lemma add_model_holds nl d : let r := add_model chunk_models nl d in
  s_nodes r.1.1 = s_nodes nl /\ s_impls r.1.1 = <[r.1.2 := d]> (s_impls nl) /\ r.1.2 = fresh_impl nl /\ fresh_impl r.1.1 = (fresh_impl nl + 1)%N /\
  holds r.1.1 r.2 r.1.2 d /\
  forall pos ip d', ip <> r.1.2 -> holds nl pos ip d' -> holds r.1.1 pos ip d'.
Proof using Type.
  clear Hchunk. cbn zeta. split_and!; [done..| |].
  - unfold holds. split_and!.
    + cbn. destruct (rev (models nl)) eqn:E; [done|]. case_bool_decide; simpl; unfold push_slot; rewrite E; case_bool_decide; rewrite ?length_app, ?length_rev; simpl; lia.
    + cbn. destruct (rev (models nl)) eqn:E; [done|]. case_bool_decide; simpl; unfold block_size; lia.
    + exists (new_model_base (fresh_impl nl)). split_and!; [apply get_new|done|done|]. simpl. by rewrite lookup_insert_eq.
  - intros pos ip d' Hne (Hc & Hv & mb & Hg & Ht & Hp & Hd). split_and!; [done..|]. exists mb. split_and!; [by apply get_pushed|done|done|].
    simpl. by rewrite lookup_insert_ne.
Qed.

Lemma link_run nl mb ip d i pn n nd : nl_inv nl -> ptr mb = Some ip -> s_impls nl !! ip = Some d -> device_pins d !! i = Some pn -> nodes pn = None ->
  s_nodes nl !! n = Some nd ->
  exists nl', add_to_node nl mb (Z.of_nat i) n = Some (true, nl') /\ nl_inv nl' /\ dom (s_nodes nl') = dom (s_nodes nl) /\
    s_impls nl' = <[ip := set_pin_nodes d i (Some n)]> (s_impls nl) /\ models nl' = models nl /\ fresh_impl nl' = fresh_impl nl.
Proof using Type.
  clear Hchunk. intros I Hp Hd Hpn Hfree Hn. pose proof (lookup_lt_Some _ _ _ Hpn) as Hi.
  assert (E : exists nl', add_to_node nl mb (Z.of_nat i) n = Some (true, nl') /\ dom (s_nodes nl') = dom (s_nodes nl) /\
    s_impls nl' = <[ip := set_pin_nodes d i (Some n)]> (s_impls nl) /\ models nl' = models nl /\ fresh_impl nl' = fresh_impl nl).
  { unfold add_to_node. rewrite Hp, Hd. change (generate_pin_view d) with (device_pins d). rewrite (proj2 (Z.leb_gt _ _)) by lia. rewrite Hn, Nat2Z.id.
    eexists. split_and!; try done. simpl. by eapply dom_insert_same. }
  destruct E as (nl' & E & ?). exists nl'. split_and!; try done; try apply H.
  apply (inv_add_to_node chunk_models nl mb (Z.of_nat i) n true nl' ip); [done|lia|done| |done]. intros x.
  replace (Z.to_N (Z.of_nat i)) with (N.of_nat i) by lia. pose proof (pin_node_at (s_impls nl) ip d i pn Hd Hpn) as Hat. congruence.
Qed.

Lemma detach_pins_fresh is_ : forall (nl nl' : netlist device) ip, detach_pins nl ip is_ = Some nl' -> fresh_impl nl' = fresh_impl nl.
Proof using Type.
  induction is_ as [|i is_ IH]; intros nl nl' ip; simpl; [by intros [= <-]|]. destruct (detach_pin nl ip i) as [nl1|] eqn:E; [|done].
  intros H. rewrite (IH _ _ _ H). unfold detach_pin in E. by repeat (case_match; try done); simplify_eq.
Qed.
Lemma delete_at_fresh nl pos r nl' : delete_at pos nl = Some (r, nl') -> fresh_impl nl' = fresh_impl nl.
Proof using Type.
  unfold delete_at, delete_model, model_clear, model_remove_from_node. intros H.
  repeat (case_match; try done); simplify_eq; simpl; try done; try (by eapply detach_pins_fresh).
Qed.

Lemma holds_link nl nl' ip e : models nl' = models nl -> s_impls nl' = <[ip := e]> (s_impls nl) ->
  (forall pos d, holds nl pos ip d -> holds nl' pos ip e) /\ (forall pos ip' d, ip' <> ip -> holds nl pos ip' d -> holds nl' pos ip' d).
Proof using Type.
  clear Hchunk. intros Hm Hi. assert (Hg : forall pos, get_model nl' pos = get_model nl pos) by (intros pos; unfold get_model; by rewrite Hm).
  split; [intros pos d (? & ? & mb & ? & ? & ? & ?)|intros pos ip' d Hne (? & ? & mb & ? & ? & ? & ?)]; (split_and!; [done..|]); exists mb; rewrite Hg, Hi;
    [by rewrite lookup_insert_eq|by rewrite lookup_insert_ne].
Qed.

Lemma set_pin_other (d : device) i x j : i <> j -> device_pins (set_pin_nodes d i x) !! j = device_pins d !! j.
Proof using Type. intros H. change device_pins with (@generate_pin_view device _). rewrite view_set_pin. by case_decide. Qed.

Lemma add_bin_gate_run d a b nl : nl_inv nl -> (forall i, (i < 3)%nat -> exists pn, device_pins d !! i = Some pn /\ nodes pn = None) -> unconnected d ->
  is_Some (s_nodes nl !! a) -> is_Some (s_nodes nl !! b) ->
  exists nl' pos, let ip := fresh_impl nl in let e := set_pin_nodes (set_pin_nodes d 0 (Some a)) 1 (Some b) in
    add_bin_gate chunk_models d a b nl = Some (Some pos, nl') /\ nl_inv nl' /\ dom (s_nodes nl') = dom (s_nodes nl) /\
    s_impls nl' = <[ip := e]> (s_impls nl) /\ fresh_impl nl' = (fresh_impl nl + 1)%N /\ holds nl' pos ip e /\
    (forall pos' ip' d', ip' <> ip -> holds nl pos' ip' d' -> holds nl' pos' ip' d').
Proof using Hchunk.
  intros I Hd Hu [na Ha] [nb Hb]. destruct (add_model_holds nl d) as (En & Ei & Eip & Ef & Hnew & Hold). pose proof (inv_add_model chunk_models Hchunk nl d I Hu) as I1.
  unfold add_bin_gate, new_object, mbind, St_bind. destruct (add_model chunk_models nl d) as [[nl1 ip] pos]. cbn [fst snd] in *. subst ip. set (ip := fresh_impl nl) in *.
  destruct (Hd 0%nat ltac:(lia)) as (p0 & Hp0 & F0). destruct (Hd 1%nat ltac:(lia)) as (p1 & Hp1 & F1).
  destruct (link_run nl1 (new_model_base ip) ip d 0 p0 a na I1) as (nl2 & L2 & I2 & D2 & E2 & M2 & R2); [done|by rewrite Ei, lookup_insert_eq|done|done|by rewrite En|].
  assert (Hb2 : is_Some (s_nodes nl2 !! b)) by (apply elem_of_dom; rewrite D2, En; by apply elem_of_dom; exists nb). destruct Hb2 as [nb2 Hb2].
  destruct (link_run nl2 (new_model_base ip) ip (set_pin_nodes d 0 (Some a)) 1 p1 b nb2 I2) as (nl3 & L3 & I3 & D3 & E3 & M3 & R3);
    [done|by rewrite E2, lookup_insert_eq|by rewrite set_pin_other|done|done|].
  destruct (holds_link nl1 nl2 ip _ M2 E2) as [K2 O2]. destruct (holds_link nl2 nl3 ip _ M3 E3) as [K3 O3].
  exists nl3, pos. cbn zeta. change (Z.of_nat 0) with 0 in L2. change (Z.of_nat 1) with 1 in L3. unfold link. rewrite L2, L3. split_and!; [done|done|congruence| |congruence| |].
  - by rewrite E3, E2, Ei, !insert_insert_eq.
  - eapply K3, K2, Hnew.
  - intros pos' ip' d' Hne Hh. apply O3, O2, Hold; done.
Qed.

Lemma fuse_pair_run d a b o n g nl ipn dn ipg dg : nl_inv nl ->
  (forall i, (i < 3)%nat -> exists pn, device_pins d !! i = Some pn /\ nodes pn = None) -> unconnected d ->
  is_Some (s_nodes nl !! a) -> is_Some (s_nodes nl !! b) -> is_Some (s_nodes nl !! o) ->
  holds nl (gr_pos n) ipn dn -> holds nl (gr_pos g) ipg dg -> ipn <> ipg ->
  exists nl', let ip := fresh_impl nl in fuse_pair chunk_models d a b o n g nl = Some (true, nl') /\ nl_inv nl' /\ dom (s_nodes nl') = dom (s_nodes nl) /\
    s_impls nl' = <[ip := wired3 d a b o]> (delete ipg (delete ipn (s_impls nl))) /\ fresh_impl nl' = (fresh_impl nl + 1)%N /\
    (forall pos' ip' d', ip' <> ip -> ip' <> ipn -> ip' <> ipg -> holds nl pos' ip' d' -> holds nl' pos' ip' d').
Proof using Hchunk.
  intros I Hd Hu Ha Hb Ho Hn Hg Hne. destruct (add_bin_gate_run d a b nl I Hd Hu Ha Hb) as (nl1 & pos & E1 & I1 & D1 & S1 & R1 & H1 & O1).
  cbn zeta in *. set (ip := fresh_impl nl) in *.
  assert (Hfr : forall q ip' d', holds nl q ip' d' -> ip' <> ip).
  { intros q ip' d' (_ & _ & ? & _ & _ & _ & Hd') ->. by rewrite (ni_fresh_impl _ _ I ip (N.le_refl _)) in Hd'. }
  destruct (delete_at_spec nl1 (gr_pos n) ipn dn I1) as (nl2 & E2 & I2 & S2 & D2 & O2); [apply O1; [by eapply Hfr|done]|].
  destruct (delete_at_spec nl2 (gr_pos g) ipg dg I2) as (nl3 & E3 & I3 & S3 & D3 & O3); [apply O2; [done|]; apply O1; [by eapply Hfr|done]|].
  assert (H3 : holds nl3 pos ip (set_pin_nodes (set_pin_nodes d 0 (Some a)) 1 (Some b))).
  { apply O3; [apply not_eq_sym; exact (Hfr _ _ _ Hg)|]. apply O2; [apply not_eq_sym; exact (Hfr _ _ _ Hn)|done]. }
  destruct H3 as (Hc & Hv & mb & Hgm & Hty & Hp & Hdev). destruct (Hd 2%nat ltac:(lia)) as (p2 & Hp2 & F2).
  assert (Ho3 : is_Some (s_nodes nl3 !! o)) by (apply elem_of_dom; rewrite D3, D2, D1; by apply elem_of_dom). destruct Ho3 as [no Ho3].
  destruct (link_run nl3 mb ip _ 2 p2 o no I3 Hp Hdev) as (nl4 & L4 & I4 & D4 & S4 & M4 & R4); [by rewrite !set_pin_other by done|done|done|].
  exists nl4. split_and!.
  - unfold fuse_pair, mbind, St_bind. rewrite E1, E2, E3. unfold slot_at. rewrite Hgm. unfold object, object_of. rewrite Hp, bool_decide_eq_true_2, Hdev by done.
    change 2 with (Z.of_nat 2). by rewrite L4.
  - done.
  - congruence.
  - rewrite S4, S3, S2, S1. pose proof (Hfr _ _ _ Hn). pose proof (Hfr _ _ _ Hg). rewrite !delete_insert_ne by done.
    by rewrite insert_insert_eq.
  - by rewrite R4, (delete_at_fresh _ _ _ _ E3), (delete_at_fresh _ _ _ _ E2).
  - intros pos' ip' d' N1 N2 N3 Hh. destruct (holds_link nl3 nl4 ip _ M4 S4) as [_ O4]. apply O4, O3, O2, O1; done.
Qed.

(** ** Merging a node into another *)

Definition others (drv : pin_ptr) (ps : list pin_ptr) : list pin_ptr := List.filter (fun p => negb (bool_decide (p = drv))) ps.

Lemma elem_of_others drv ps p : p ∈ others drv ps <-> p ∈ ps /\ p <> drv.
Proof. unfold others. rewrite !list_elem_of_In, filter_In, negb_true_iff, bool_decide_eq_false. done. Qed.

Lemma on_node nl n nd ip d j p : nl_inv nl -> s_nodes nl !! n = Some nd -> s_impls nl !! ip = Some d -> device_pins d !! j = Some p ->
  (ip, N.of_nat j) ∈ pins nd <-> nodes p = Some n.
Proof.
  intros I Hn Hd Hj. pose proof (pin_node_at (s_impls nl) ip d j p Hd Hj) as E. split.
  - intros Hin. pose proof (proj2 (gi_link _ _ (ni_graph _ _ I) (ip, N.of_nat j) n) (ex_intro _ nd (conj Hn Hin))). congruence.
  - intros Hp. rewrite Hp in E. apply (gi_link _ _ (ni_graph _ _ I)) in E as (nd' & Hn' & Hin). by simplify_eq.
Qed.

Lemma moved_others nl nl1 from to fd ip i : nl_inv nl -> s_nodes nl !! from = Some fd -> moved to (others (out_pin ip i) (pins fd)) nl nl1 ->
  forall ip' d', ip' <> ip -> s_impls nl !! ip' = Some d' -> s_impls nl1 !! ip' = Some (rename (replace from to) d').
Proof.
  intros I Hf M ip' d' Hne Hd'. destruct (mv_impl _ _ _ _ M ip' d' Hd') as (d1 & H1 & C1 & V1). rewrite H1. f_equal.
  apply device_ext; [by rewrite core_rename|]. intros j. rewrite V1, pins_rename. change (map (rename_pin (replace from to)) (device_pins d')) with (rename_pin (replace from to) <$> device_pins d'). rewrite list_lookup_fmap.
  destruct (device_pins d' !! j) as [q|] eqn:Hq; [|done]. simpl. f_equal. unfold moved_pin, rename_pin, replace.
  pose proof (on_node nl from fd ip' d' j q I Hf Hd' Hq) as Ho. case_decide as E1.
  - apply elem_of_others in E1 as [E1 _]. apply Ho in E1. rewrite E1. simpl. by rewrite decide_True.
  - destruct q as [nm [n|] md]; simpl in *; [|done]. case_decide as E2; [|done]. subst. destruct E1. apply elem_of_others. split; [by apply Ho|].
    unfold out_pin. congruence.
Qed.

Lemma merge_delete_spec nl pos ip d i from to fd : nl_inv nl -> holds nl pos ip d -> from <> to -> s_nodes nl !! from = Some fd -> is_Some (s_nodes nl !! to) ->
  exists nl1 nl2, move_pins from to (others (out_pin ip i) (pins fd)) nl = Some (tt, nl1) /\ delete_at pos nl1 = Some (true, nl2) /\ nl_inv nl2 /\
    s_impls nl2 = rename (replace from to) <$> delete ip (s_impls nl) /\ dom (s_nodes nl2) = dom (s_nodes nl) /\
    forall pos' ip' d', ip' <> ip -> holds nl pos' ip' d' -> holds nl2 pos' ip' (rename (replace from to) d').
Proof using Hchunk.
  intros I Hh Hne Hf Ht. destruct (move_pins_spec from to (others (out_pin ip i) (pins fd)) nl fd I Hne Hf) as (nl1 & E1 & I1 & M).
  - intros p Hp. by apply elem_of_others in Hp as [? _].
  - unfold others. apply NoDup_ListNoDup, List.NoDup_filter, NoDup_ListNoDup. apply osorted_NoDup. by eapply I.
  - done.
  - pose proof (moved_others nl nl1 from to fd ip i I Hf M) as Hm. pose proof Hh as (Hc & Hv & mb & Hg & Hty & Hp & Hd).
    assert (Hmod : forall pos', get_model nl1 pos' = get_model nl pos') by (intros pos'; unfold get_model; by rewrite (mv_models _ _ _ _ M)).
    destruct (mv_impl _ _ _ _ M ip d Hd) as (d1 & Hd1 & _).
    destruct (delete_at_spec nl1 pos ip d1 I1) as (nl2 & E2 & I2 & Hi & Dn & Hkeep).
    { split_and!; [done..|]. exists mb. by rewrite Hmod. }
    exists nl1, nl2. split_and!; [done|done|done| |by rewrite Dn, (mv_nodes _ _ _ _ M)|].
    + apply map_eq. intros ip'. rewrite Hi, lookup_fmap. destruct (decide (ip' = ip)) as [->|Hn]; [by rewrite !lookup_delete_eq|].
      rewrite !lookup_delete_ne by done. destruct (s_impls nl !! ip') as [d'|] eqn:Hd'; simpl; [by apply Hm|].
      apply not_elem_of_dom. rewrite (mv_dom _ _ _ _ M). by apply not_elem_of_dom.
    + intros pos' ip' d' Hn (Hc' & Hv' & mb' & Hg' & Ht' & Hp' & Hd'). apply Hkeep; [done|]. split_and!; [done..|].
      exists mb'. rewrite Hmod. split_and!; [done..|]. by apply Hm.
Qed.
End Moves.

(** ** Gates that are satisfied *)

Lemma sat_gate2_intro σ (f : gate2 -> device) op x pa pb po a b o :
  (forall y, device_view (f y) = as_view f y (gate2_reaction op)) -> g2_pins x = [pa; pb; po] ->
  nodes pa = Some a -> nodes pb = Some b -> nodes po = Some o -> σ o = op (σ a) (σ b) -> sat σ (f x).
Proof.
  intros Hv Hp Ha Hb Ho E. exists (f x). split; [done|]. cbn. rewrite Hv. cbn. rewrite Hp. unfold port_ins, port_outs, wires. cbn. rewrite Ha, Hb, Ho. cbn. by rewrite E.
Qed.
Lemma sat_gate1_intro σ (f : gate1 -> device) op x pa po a o :
  (forall y, device_view (f y) = as_view f y (gate1_reaction op)) -> g1_pins x = [pa; po] ->
  nodes pa = Some a -> nodes po = Some o -> σ o = op (σ a) -> sat σ (f x).
Proof.
  intros Hv Hp Ha Ho E. exists (f x). split; [done|]. cbn. rewrite Hv. cbn. rewrite Hp. unfold port_ins, port_outs, wires. cbn. rewrite Ha, Ho. cbn. by rewrite E.
Qed.
