(* ===== verification/SynthOptClaims.v ===== *)
(** * SynthOptClaims: the optimization passes keep the behaviour

    The removal of buffers, of duplicates and of unused models and the fusion
    of inverters of [SynthOpt] keep the behaviour of the netlist at the
    protected nodes; what a gate with constant inputs is replaced by carries
    its value; three passes that work on a snapshot of the gates disconnect a
    port when the snapshot is out of date. *)

From Stdlib Require Import ZArith Lia.
From stdpp Require Import base list gmap strings.
From S2P Require Import Prelude Store Logic4 Gates Devices Sequential Arith Model.
From S2P Require Import Reactive Reaction Reactions Engine Settle.
From S2P Require Import Netlist NetlistInv NetlistOps NetlistClaims.
From S2P Require Import VData VExpr VCache VStmt VStmtInv SynthNet SynthNetLemmas SynthLower.
From S2P Require Import SynthOpt SynthOptLemmas.

Open Scope Z_scope.

Section Passes.
Context (chunk_models chunk_nodes : nat) (Hchunk : (0 < chunk_models <= 4096)%nat) (prot : list nodep).
Abbreviation nl_inv := (nl_inv chunk_models).

Definition good_pos (pos : model_pos) : Prop := 0 <= chunk_pos pos /\ 0 <= vec_pos pos.

(** What a step of a pass keeps. *)
Record keeps (nl nl' : netlist device) : Prop := mk_keeps {
  kp_inv : nl_inv nl';
  kp_nodes : dom (s_nodes nl') = dom (s_nodes nl);
  kp_impls : dom (s_impls nl') ⊆ dom (s_impls nl);
  kp_behaves : behaves prot nl nl'
}.
Lemma keeps_refl nl : nl_inv nl -> keeps nl nl.
Proof. by split. Qed.
Lemma keeps_chain a b c : keeps a b -> keeps b c -> keeps a c.
Proof. intros [A1 A2 A3 A4] [B1 B2 B3 B4]. split; [done|congruence|by etransitivity|by etransitivity]. Qed.

(** What a pass reports: that a model is gone, or that nothing changed. *)
Definition reports (c : bool) (nl nl' : netlist device) : Prop :=
  if c then (size (s_impls nl') < size (s_impls nl))%nat else nl' = nl.
Lemma reports_trans c c' nl1 nl2 nl3 : reports c nl1 nl2 -> reports c' nl2 nl3 -> reports (c || c') nl1 nl3.
Proof using Type. clear Hchunk. destruct c, c'; simpl; [lia|by intros ? ->|by intros ->|congruence]. Qed.
Lemma size_delete_lt (m : gmap impl_ptr device) ip d : m !! ip = Some d -> (size (delete ip m) < size m)%nat.
Proof using Type.
  clear Hchunk. intros Hd. rewrite map_size_delete_Some by done. assert (size m <> 0)%nat; [|lia]. intros H0. apply map_size_empty_inv in H0.
  by rewrite H0, lookup_empty in Hd.
Qed.
Lemma reports_delete nl nl' ip d ρ : s_impls nl !! ip = Some d -> s_impls nl' = rename ρ <$> delete ip (s_impls nl) -> reports true nl nl'.
Proof using Type. intros Hd E. simpl. rewrite E, map_size_fmap. by eapply size_delete_lt. Qed.

(** The object of a slot. *)
Lemma wp_object {A} nl pos mb (k : option (impl_ptr * device) -> Nt A) Q : nl_inv nl -> good_pos pos -> get_model nl pos = Some mb ->
  ((forall ip d, ~ holds nl pos ip d) -> wp (k None) nl Q) ->
  (forall ip d, holds nl pos ip d -> (forall ip' d', holds nl pos ip' d' -> ip' = ip /\ d' = d) -> wp (k (Some (ip, d))) nl Q) -> wp (o ← object mb; k o) nl Q.
Proof using Type.
  intros I [Hc Hv] Hg HN HS. unfold wp, mbind, St_bind, object, object_of.
  case_bool_decide as Ht; [|apply HN; intros ip d (_ & _ & mb' & ? & ? & _); congruence].
  destruct (ptr mb) as [ip|] eqn:Hp; [|apply HN; intros ip d (_ & _ & mb' & ? & _ & ? & _); congruence].
  assert (is_Some (s_impls nl !! ip)) as [d Hd].
  { apply (ni_owned _ _ I). unfold owned. apply list_elem_of_omap. exists mb. split; [|done]. apply get_model_spec in Hg as (b & Eb & Em); [|done..].
    unfold all_slots. apply elem_of_concat. exists (slots b). split; [by eapply list_elem_of_lookup_2|]. apply list_elem_of_fmap. exists b.
    split; [done|]. by eapply list_elem_of_lookup_2. }
  rewrite Hd. apply (HS ip d); [split_and!; [done..|]; by exists mb|]. intros ip' d' (_ & _ & mb' & ? & _ & ? & ?). by simplify_eq.
Qed.

Lemma wp_slot {A} nl pos (k : option model_base -> Nt A) Q : wp (k (get_model nl pos)) nl Q -> wp (s ← slot_at pos; k s) nl Q.
Proof using Type. done. Qed.
Lemma wp_node_at {A} nl n nd (k : node_t -> Nt A) Q : s_nodes nl !! n = Some nd -> wp (k nd) nl Q -> wp (x ← node_at n; k x) nl Q.
Proof using Type. intros H. unfold wp, mbind, St_bind, node_at. by rewrite H. Qed.

Lemma pin_node_there nl ip d j p n : nl_inv nl -> s_impls nl !! ip = Some d -> device_pins d !! j = Some p -> nodes p = Some n ->
  exists nd, s_nodes nl !! n = Some nd /\ (ip, N.of_nat j) ∈ pins nd.
Proof using Type.
  intros I Hd Hj Hp. pose proof (pin_node_at (s_impls nl) ip d j p Hd Hj) as E. rewrite Hp in E. by apply (gi_link _ _ (ni_graph _ _ I)) in E.
Qed.

Lemma slots_of_elem nl pos mb : (pos, mb) ∈ slots_of nl <-> good_pos pos /\ get_model nl pos = Some mb.
Proof using Type.
  clear Hchunk. unfold slots_of, good_pos. split.
  - intros H. apply elem_of_concat in H as (l & H & Hl). apply elem_of_lookup_imap in Hl as (c & b & -> & Hb).
    apply elem_of_lookup_imap in H as (v & mb' & E & Hv). injection E as -> ->. simpl. split; [lia|]. apply get_model_spec; simpl; [lia..|].
    rewrite !Nat2Z.id. by exists b.
  - intros [[Hc Hv] Hg]. apply get_model_spec in Hg as (b & Hb & Hm); [|done..]. apply elem_of_concat. eexists. split.
    2: { apply elem_of_lookup_imap. exists (Z.to_nat (chunk_pos pos)), b. split; [reflexivity|done]. }
    apply elem_of_lookup_imap. exists (Z.to_nat (vec_pos pos)), mb. split; [|done]. destruct pos. simpl in *. rewrite !Z2Nat.id by done. done.
Qed.

(** The models in use. *)
Definition live_ok (nl : netlist device) (m : live) : Prop :=
  holds nl (lv_pos m) (lv_ip m) (lv_dev m) /\ get_model nl (lv_pos m) = Some (lv_base m) /\ ptr (lv_base m) = Some (lv_ip m).

Definition live_of (nl : netlist device) (s : model_pos * model_base) : option live :=
  match ptr s.2 with
  | Some ip => (fun d => {| lv_pos := s.1; lv_base := s.2; lv_ip := ip; lv_dev := d |}) <$> s_impls nl !! ip
  | None => None
  end.

Lemma slot_cases nl pos mb : nl_inv nl -> (pos, mb) ∈ slots_of nl ->
  (ptr mb = None /\ type mb = null) \/ exists ip d, ptr mb = Some ip /\ type mb = normal /\ s_impls nl !! ip = Some d.
Proof using Type.
  intros I H. apply slots_of_elem in H as [[Hc Hv] Hg]. apply get_model_spec in Hg as (b & Eb & Em); [|done..].
  assert (Hin : mb ∈ all_slots (models nl)).
  { unfold all_slots. apply elem_of_concat. exists (slots b). split; [by eapply list_elem_of_lookup_2|]. apply list_elem_of_fmap. exists b.
    split; [done|]. by eapply list_elem_of_lookup_2. }
  destruct (ni_slot _ _ I mb Hin) as [[? ?]|[Ht [ip Hp]]]; [by left|]. right.
  assert (is_Some (s_impls nl !! ip)) as [d Hd]; [|by exists ip, d].
  apply (ni_owned _ _ I). unfold owned. apply list_elem_of_omap. by exists mb.
Qed.

Lemma live_models_run nl : nl_inv nl -> live_models nl = Some (omap (live_of nl) (slots_of nl)).
Proof using Type.
  intros I. unfold live_models. assert (H : forall s, s ∈ slots_of nl -> live_at nl s = Some (option_list (live_of nl s))).
  { intros [pos mb] Hs. unfold live_at, live_of, object_of. simpl.
    destruct (slot_cases nl pos mb I Hs) as [[-> ->]|(ip & d & -> & -> & Hd)]; [done|]. rewrite bool_decide_eq_true_2, Hd by done. done. }
  induction (slots_of nl) as [|s l IH]; [done|]. simpl. rewrite H by (by left).
  assert (Hl : forall s', s' ∈ l -> live_at nl s' = Some (option_list (live_of nl s'))) by (intros s' ?; apply H; by right).
  specialize (IH Hl). simpl. destruct (mapM (live_at nl) l) as [ls|]; [|done]. simpl in *. injection IH as ->. by destruct (live_of nl s).
Qed.

Lemma snd_slots_of nl : map snd (slots_of nl) = all_slots (models nl).
Proof using Type.
  unfold slots_of, all_slots. rewrite concat_map. f_equal. apply list_eq. intros c.
  change (map (map snd) ?l) with (map snd <$> l). rewrite list_lookup_fmap, list_lookup_imap. change (map slots ?l) with (slots <$> l). rewrite list_lookup_fmap.
  destruct (models nl !! c) as [b|]; [|done]. simpl. f_equal. apply list_eq. intros v. change (map snd ?l) with (snd <$> l).
  rewrite list_lookup_fmap, list_lookup_imap. by destruct (slots b !! v).
Qed.

Lemma live_models_spec nl l : nl_inv nl -> live_models nl = Some l ->
  (forall m, m ∈ l -> live_ok nl m) /\
  (forall ip d, s_impls nl !! ip = Some d -> exists m, m ∈ l /\ lv_ip m = ip /\ lv_dev m = d) /\ NoDup (map lv_ip l).
Proof using Type.
  intros I E. rewrite live_models_run in E by done. injection E as <-. split_and!.
  - intros m Hm. apply list_elem_of_omap in Hm as ([pos mb] & Hs & Hl). pose proof (slot_cases nl pos mb I Hs) as Hsc.
    apply slots_of_elem in Hs as [[Hc Hv] Hg]. unfold live_of in Hl. simpl in Hl. destruct (ptr mb) as [ip|] eqn:Hp; [|done].
    destruct (s_impls nl !! ip) as [d|] eqn:Hd; [|done]. injection Hl as <-. destruct Hsc as [[? ?]|(? & ? & ? & Ht & ?)]; [done|].
    split_and!; [|done|done]. split_and!; [done..|]. by exists mb.
  - intros ip d Hd. assert (Ho : ip ∈ owned (models nl)) by (apply (ni_owned _ _ I); by exists d). unfold owned in Ho.
    rewrite <- snd_slots_of in Ho. apply list_elem_of_omap in Ho as (mb & Hmb & Hp). apply list_elem_of_fmap in Hmb as ([pos mb'] & -> & Hs). simpl in Hp.
    exists {| lv_pos := pos; lv_base := mb'; lv_ip := ip; lv_dev := d |}. split_and!; [|done|done]. apply list_elem_of_omap. exists (pos, mb').
    split; [done|]. unfold live_of. simpl. by rewrite Hp, Hd.
  - pose proof (ni_unique _ _ I) as Hu. unfold owned in Hu. rewrite <- snd_slots_of in Hu.
    assert (H : forall s, s ∈ slots_of nl -> lv_ip <$> live_of nl s = ptr s.2).
    { intros [pos mb] Hs. unfold live_of. simpl. destruct (slot_cases nl pos mb I Hs) as [[-> _]|(ip & d & -> & _ & ->)]; done. }
    assert (E : map lv_ip (omap (live_of nl) (slots_of nl)) = omap ptr (map snd (slots_of nl))); [|by rewrite E].
    clear Hu. induction (slots_of nl) as [|s l IH]; [done|]. cbn. assert (Hl : forall s', s' ∈ l -> lv_ip <$> live_of nl s' = ptr s'.2) by (intros; apply H; by right).
    specialize (IH Hl). specialize (H s ltac:(by left)). rewrite <- H. destruct (live_of nl s); simpl; [by f_equal|done].
Qed.

(** Merging the output of a model into a node, and deleting the model. *)
Lemma merge_keeps {A} nl pos ip d i po from to fd (k : Nt A) Q : nl_inv nl -> holds nl pos ip d -> device_pins d !! i = Some po -> nodes po = Some from ->
  from <> to -> is_protected prot from = false -> s_nodes nl !! from = Some fd -> is_Some (s_nodes nl !! to) ->
  (forall σ, nl_stable nl σ -> σ from = σ to) ->
  (forall σ, σ from = σ to -> (forall ip' d', ip' <> ip -> s_impls nl !! ip' = Some d' -> sat σ d') -> sat σ d) ->
  (forall nl', keeps nl nl' -> s_impls nl' = rename (replace from to) <$> delete ip (s_impls nl) ->
    (forall pos' ip' d', ip' <> ip -> holds nl pos' ip' d' -> holds nl' pos' ip' (rename (replace from to) d')) -> wp k nl' Q) ->
  wp (_ ← move_pins from to (others (out_pin ip i) (pins fd)); _ ← delete_at pos; k) nl Q.
Proof using Hchunk.
  intros I Hh Hi Ho Hne Hpr Hf Ht H1 H2 HQ.
  destruct (merge_delete_spec chunk_models Hchunk nl pos ip d i from to fd I Hh Hne Hf Ht) as (nl1 & nl2 & E1 & E2 & I2 & Hi2 & Dn & Hk).
  unfold wp, mbind, St_bind. rewrite E1, E2. apply HQ; [|done|done]. split; [done|done| |].
  - rewrite Hi2, dom_fmap_L, dom_delete_L. set_solver.
  - pose proof Hh as (_ & _ & mb & _ & _ & _ & Hd). by eapply (merge_behaves prot nl nl2 ip d from to).
Qed.

(** ** The maps of drivers and consumers *)

Definition out_flag (d : device) (i : nat) : bool := is_output_pin (model_name d) i (length (device_pins d)).

(** The pins of all models are in the map, with the right flags. *)
Definition flags_ok (po : gmap pin_ptr bool) (nl : netlist device) : Prop := forall ip d i,
  s_impls nl !! ip = Some d -> (i < length (device_pins d))%nat -> po !! out_pin ip i = Some (out_flag d i).
(** The flags of the pins in the map are right. *)
Definition flags_sound (po : gmap pin_ptr bool) (nl : netlist device) : Prop := forall ip d i v,
  s_impls nl !! ip = Some d -> po !! out_pin ip i = Some v -> v = out_flag d i.

Lemma out_pin_inj ip i ip' i' : out_pin ip i = out_pin ip' i' -> ip = ip' /\ i = i'.
Proof using Type. unfold out_pin. intros [= -> H]. split; [done|]. by apply Nat2N.inj. Qed.

Lemma emplace_lookup {K V} `{Countable K} (m : gmap K V) k v k' : emplace m k v !! k' =
  if decide (k = k') then Some (default v (m !! k)) else m !! k'.
Proof using Type.
  unfold emplace. destruct (m !! k) as [x|] eqn:E; case_decide as Ek; subst; [done|done|by rewrite lookup_insert_eq|by rewrite lookup_insert_ne].
Qed.

Lemma fan_pins_out name n ip L : forall info,
  pin_out (fold_left (fan_pin name n ip) L info) =
  fold_left (fun po (x : nat * pin) => emplace po (out_pin ip x.1) (is_output_pin name x.1 n)) L (pin_out info).
Proof using Type.
  induction L as [|[i p] L IH]; intros info; [done|]. cbn [fold_left]. rewrite IH. f_equal. unfold fan_pin. destruct (nodes p); [|done]. by destruct (is_output_pin _ _ _).
Qed.

Lemma emplace_pins nl ip d L : s_impls nl !! ip = Some d -> forall po, flags_sound po nl ->
  let po' := fold_left (fun po (x : nat * pin) => emplace po (out_pin ip x.1) (out_flag d x.1)) L po in
  flags_sound po' nl /\ (forall p, is_Some (po !! p) -> is_Some (po' !! p)) /\ (forall x, x ∈ L -> is_Some (po' !! out_pin ip x.1)).
Proof using Type.
  intros Hd. induction L as [|x L IH]; intros po Hs; cbn [fold_left].
  { split_and!; [done|done|]. intros x Hx. by apply elem_of_nil in Hx. }
  destruct (IH (emplace po (out_pin ip x.1) (out_flag d x.1))) as (H1 & H2 & H3).
  - intros ip' d' i' v Hd'. rewrite emplace_lookup. case_decide as E; [|by apply Hs]. apply out_pin_inj in E as [-> <-]. simplify_eq.
    destruct (po !! out_pin ip' x.1) as [w|] eqn:Ew; simpl; intros [= <-]; [by eapply Hs|done].
  - split_and!; [done| |].
    + intros p Hp. apply H2. rewrite emplace_lookup. by case_decide.
    + intros y [->|Hy]%elem_of_cons; [|by apply H3]. apply H2. rewrite emplace_lookup, decide_True by done. done.
Qed.

Lemma fan_flags nl l : (forall m, m ∈ l -> s_impls nl !! lv_ip m = Some (lv_dev m)) -> forall info, flags_sound (pin_out info) nl ->
  let info' := fold_left fan_model l info in
  flags_sound (pin_out info') nl /\ (forall p, is_Some (pin_out info !! p) -> is_Some (pin_out info' !! p)) /\
  (forall m i, m ∈ l -> (i < length (device_pins (lv_dev m)))%nat -> is_Some (pin_out info' !! out_pin (lv_ip m) i)).
Proof using Type.
  induction l as [|m l IH]; intros Hl info Hs; cbn [fold_left].
  { split_and!; [done|done|]. intros m i Hm. by apply elem_of_nil in Hm. }
  pose proof (Hl m ltac:(by left)) as Hm. pose proof (emplace_pins nl (lv_ip m) (lv_dev m) (imap pair (device_pins (lv_dev m))) Hm (pin_out info) Hs) as (A1 & A2 & A3).
  assert (E : pin_out (fan_model info m) = fold_left (fun po (x : nat * pin) => emplace po (out_pin (lv_ip m) x.1) (out_flag (lv_dev m) x.1)) (imap pair (device_pins (lv_dev m))) (pin_out info)) by apply fan_pins_out.
  cbv zeta in A1, A2, A3. rewrite <- E in A1, A2, A3. destruct (IH (fun m' Hm' => Hl m' (list_elem_of_further _ _ _ Hm')) _ A1) as (B1 & B2 & B3). split_and!; [done|auto|].
  intros m' i [->|Hm']%elem_of_cons Hi; [|by apply B3]. apply B2.
  destruct (lookup_lt_is_Some_2 (device_pins (lv_dev m)) i Hi) as [p Hp]. apply (A3 (i, p)). apply elem_of_lookup_imap. by exists i, p.
Qed.

Lemma fanout_flags nl fan : nl_inv nl -> build_gate_opt_fanout nl = Some fan -> flags_ok (pin_out fan) nl.
Proof using Type.
  intros I. unfold build_gate_opt_fanout. destruct (live_models nl) as [l|] eqn:El; [|done]. intros [= <-]. destruct (live_models_spec nl l I El) as (H1 & H2 & _).
  destruct (fan_flags nl l) with (info := mk_fanout ∅ ∅ ∅) as (A1 & _ & A3).
  - intros m Hm. by destruct (H1 m Hm) as [(_ & _ & ? & _ & _ & _ & ?) _].
  - intros ip d i v _ H. simpl in H. by rewrite lookup_empty in H.
  - intros ip d i Hd Hi. destruct (H2 ip d Hd) as (m & Hm & <- & <-). destruct (A3 m i Hm Hi) as [v Hv]. rewrite Hv. f_equal. by eapply A1.
Qed.
Lemma wp_fanout {A} nl (k : gate_opt_fanout -> Nt A) Q : nl_inv nl ->
  (forall fan, build_gate_opt_fanout nl = Some fan -> wp (k fan) nl Q) -> wp (f ← fanout; k f) nl Q.
Proof using Type.
  intros I H. unfold wp, mbind, St_bind, fanout. destruct (build_gate_opt_fanout nl) as [fan|] eqn:E; [by apply H|].
  unfold build_gate_opt_fanout in E. by rewrite live_models_run in E.
Qed.

Lemma fst_imap_pair {A} (l : list A) : map fst (imap pair l) = seq 0 (length l).
Proof using Type.
  apply list_eq. intros i. change (map fst ?l) with (fst <$> l). rewrite list_lookup_fmap, list_lookup_imap.
  destruct (l !! i) as [x|] eqn:E; simpl.
  - symmetry. apply lookup_seq. split; [done|]. by eapply lookup_lt_Some.
  - symmetry. apply lookup_seq_ge. by apply lookup_ge_None.
Qed.
Lemma pin_out_of_fan l : forall info, fold_left (fun po m =>
    let pv := generate_pin_view (lv_dev m) in
    fold_left (fun po i => emplace po (out_pin (lv_ip m) i) (is_output_pin (model_name (lv_dev m)) i (length pv))) (seq 0 (length pv)) po) l (pin_out info) =
  pin_out (fold_left fan_model l info).
Proof using Type.
  induction l as [|m l IH]; intros info; [done|]. cbn [fold_left]. rewrite <- IH. f_equal. unfold fan_model. rewrite fan_pins_out, <- fst_imap_pair.
  generalize (imap pair (generate_pin_view (lv_dev m))), (pin_out info). intros L. induction L as [|x L IHL]; intros po; [done|]. apply IHL.
Qed.
Lemma pin_out_flags nl l : nl_inv nl -> live_models nl = Some l -> flags_ok (pin_out_of l) nl.
Proof using Type.
  intros I E. pose proof (pin_out_of_fan l (mk_fanout ∅ ∅ ∅)) as Ep. unfold pin_out_of. cbn [pin_out] in Ep. rewrite Ep. apply (fanout_flags nl _ I).
  unfold build_gate_opt_fanout. by rewrite E.
Qed.

(** A node with a unique driver has no other pin that drives. *)
Lemma unique_driver po ps drv p : has_unique_driver_pin po ps drv = true -> p ∈ ps -> po !! p = Some true -> p = drv.
Proof using Type.
  unfold has_unique_driver_pin. intros [H _]%andb_true_iff Hp Hf. rewrite forallb_forall in H. specialize (H p).
  eapply bool_decide_eq_true_1. apply H, filter_In. split; [by apply list_elem_of_In|]. unfold is_out_in. by rewrite Hf.
Qed.

(** ** Gates and their keys *)

Definition op_named (name : string) : logic_t -> logic_t -> logic_t :=
  if among name ["AND"] then AND.output_res else if among name ["OR"] then OR.output_res
  else if among name ["XOR"] then XOR.output_res else if among name ["XNOR"] then XNOR.output_res
  else if among name ["NAND"] then NAND.output_res else if among name ["NOR"] then NOR.output_res
  else if among name ["IMP"] then IMP.output_res else NIMP.output_res.
Definition key_value (k : gate_key) (σ : valuation) : logic_t :=
  let '(name, a, b) := k in
  match b with Some b' => op_named name (σ a) (σ b') | None => NOT.output_res (σ a) end.

Lemma canon_value name a b σ : key_value (canon_key name a b) σ = op_named name (σ a) (σ b).
Proof using Type.
  unfold canon_key. destruct (commutative name) eqn:Hc; [|done]. cbn [andb]. destruct (b <? a)%N; [|done]. cbn [key_value].
  unfold commutative, among in Hc. apply bool_decide_eq_true_1 in Hc.
  repeat (apply elem_of_cons in Hc as [->|Hc]; [cbn; by destruct (σ a), (σ b)|]). by apply elem_of_nil in Hc.
Qed.

(** What [classify] says of a model. *)
Lemma classify_spec pos mb ip d g : classify {| lv_pos := pos; lv_base := mb; lv_ip := ip; lv_dev := d |} = Some g ->
  gr_name g = model_name d /\ gr_pos g = pos /\ exists i po, gr_out_pin g = out_pin ip i /\ device_pins d !! i = Some po /\ nodes po = gr_out g /\
    out_flag d i = true /\ (exists pa, device_pins d !! 0%nat = Some pa /\ nodes pa = gr_in0 g) /\
    (is_not g = false -> exists pb, device_pins d !! 1%nat = Some pb /\ nodes pb = gr_in1 g).
Proof using Type.
  unfold classify, out_flag. cbn [lv_dev lv_pos lv_ip]. destruct (named d ["NOT"]) eqn:H1.
  - destruct d; try done. change (generate_pin_view (m_NOT m)) with (g1_pins m). change (device_pins (m_NOT m)) with (g1_pins m).
    destruct (g1_pins m) as [|pa [|po [|? ?]]]; try done. intros [= <-]. split_and!; [done..|]. exists 1%nat, po. split_and!; eauto. done.
  - clear H1. destruct d; try done;
      lazymatch goal with |- context [named ?d _] => change (generate_pin_view d) with (device_pins d); destruct (device_pins d) as [|pa [|pb [|po [|? ?]]]] end;
      try done; intros [= <-]; (split_and!; [done..|]); exists 2%nat, po; split_and!; eauto.
Qed.

Lemma classify_sat σ pos mb ip d g k o : classify {| lv_pos := pos; lv_base := mb; lv_ip := ip; lv_dev := d |} = Some g ->
  key_of g = Some k -> gr_out g = Some o -> sat σ d <-> σ o = key_value k σ.
Proof using Type.
  unfold classify. cbn [lv_dev lv_pos lv_ip]. destruct (named d ["NOT"]) eqn:H1.
  - destruct d; try done. change (generate_pin_view (m_NOT m)) with (g1_pins m). destruct (g1_pins m) as [|[na a ma] [|[no x mo] [|? ?]]] eqn:Hp; try done.
    intros [= <-]. unfold key_of. cbn. destruct a as [a|]; [|done]. intros [= <-] ->. cbn. split.
    + by eapply (sat_gate1 σ m_NOT NOT.output_res).
    + by eapply (sat_gate1_intro σ m_NOT NOT.output_res).
  - clear H1. destruct d; try done;
      lazymatch goal with |- context [named (?f ?m) _] => change (generate_pin_view (f m)) with (g2_pins m); destruct (g2_pins m) as [|[na a ma] [|[nb b mb'] [|[no x mo] [|? ?]]]] eqn:Hp end;
      try done; intros [= <-]; unfold key_of; cbn; destruct a as [a|]; try done; destruct b as [b|]; try done; intros [= <-] ->; rewrite canon_value; split;
      lazymatch goal with |- sat _ (?f _) -> _ => intros; by eapply (sat_gate2 σ f) | |- _ -> sat _ (?f _) => intros; by eapply (sat_gate2_intro σ f) end.
Qed.

(** ** Duplicates *)

Definition rename_gate (ρ : node_ptr -> node_ptr) (g : gate_rec) : gate_rec :=
  mk_gate (gr_name g) (gr_pos g) (ρ <$> gr_in0 g) (ρ <$> gr_in1 g) (ρ <$> gr_out g) (gr_out_pin g).
Lemma model_name_rename ρ d : model_name (rename ρ d) = model_name d.
Proof using Type. by destruct d. Qed.
Lemma classify_rename ρ pos mb ip d : classify {| lv_pos := pos; lv_base := mb; lv_ip := ip; lv_dev := rename ρ d |} =
  rename_gate ρ <$> classify {| lv_pos := pos; lv_base := mb; lv_ip := ip; lv_dev := d |}.
Proof using Type.
  unfold classify. cbn [lv_dev lv_pos lv_ip]. unfold named. rewrite model_name_rename. change (@generate_pin_view device _) with device_pins. rewrite pins_rename.
  destruct (among _ _); [by destruct (device_pins d) as [|? [|? [|? ?]]]|]. destruct (among _ _); [|done].
  by destruct (device_pins d) as [|? [|? [|? [|? ?]]]].
Qed.

(** A gate is recorded with its inputs as they were; those that changed since
    are nodes without pins now. *)
Definition stale (dead : list node_ptr) (now was : nodep) : Prop := now = was \/ exists n, was = Some n /\ n ∈ dead.
Definition recorded (nl : netlist device) (dead : list node_ptr) (r : gate_rec) (ip : impl_ptr) : Prop :=
  exists mb d g, holds nl (gr_pos r) ip d /\ classify {| lv_pos := gr_pos r; lv_base := mb; lv_ip := ip; lv_dev := d |} = Some g /\
    gr_name g = gr_name r /\ gr_out g = gr_out r /\ gr_out_pin g = gr_out_pin r /\
    stale dead (gr_in0 g) (gr_in0 r) /\ stale dead (gr_in1 g) (gr_in1 r).
Definition dead_ok (dead : list node_ptr) (nl : netlist device) : Prop := forall n nd, n ∈ dead -> s_nodes nl !! n = Some nd -> pins nd = [].

Lemma stale_replace dead from to x y : stale dead x y -> stale (from :: dead) (replace from to <$> x) y.
Proof using Type.
  intros [->|(n & -> & Hn)]; [|right; exists n; split; [done|by right]]. destruct y as [n|]; [|by left]. simpl. unfold replace.
  case_decide as E; [subst; right; exists from; split; [done|by left]|by left].
Qed.

Lemma merge_into_keeps {A} nl po pos ip d i pd from to (k1 k2 : Nt A) Q : nl_inv nl -> holds nl pos ip d -> device_pins d !! i = Some pd -> nodes pd = Some from ->
  is_Some (s_nodes nl !! to) ->
  (from <> to -> (forall σ, nl_stable nl σ -> σ from = σ to) /\
    (forall σ, σ from = σ to -> (forall ip' d', ip' <> ip -> s_impls nl !! ip' = Some d' -> sat σ d') -> sat σ d)) ->
  wp k1 nl Q ->
  (forall nl' fd, from <> to -> s_nodes nl !! from = Some fd -> has_unique_driver_pin po (pins fd) (out_pin ip i) = true ->
    keeps nl nl' -> s_impls nl' = rename (replace from to) <$> delete ip (s_impls nl) ->
    (forall pos' ip' d', ip' <> ip -> holds nl pos' ip' d' -> holds nl' pos' ip' (rename (replace from to) d')) -> wp k2 nl' Q) ->
  wp (moved ← merge_into prot po from to (out_pin ip i); if negb moved then k1 else _ ← delete_at pos; k2) nl Q.
Proof using Hchunk.
  intros I Hh Hi Ho Ht H12 Hk1 Hk2. unfold merge_into. case_bool_decide as Hne; [done|]. cbn [orb]. destruct (is_protected prot from) eqn:Hpr; [done|].
  pose proof Hh as (_ & _ & ? & _ & _ & _ & Hd). destruct (pin_node_there nl ip d i pd from I Hd Hi Ho) as (fd & Hf & _).
  unfold mbind at 1, St_bind at 1. unfold wp. unfold node_at, mbind at 1, St_bind at 1. rewrite Hf.
  destruct (has_unique_driver_pin po (pins fd) (out_pin ip i)) eqn:Hu; [|exact Hk1]. cbn [negb]. destruct (H12 Hne) as [H1 H2].
  pose proof (merge_keeps nl pos ip d i pd from to fd k2 Q I Hh Hi Ho Hne Hpr Hf Ht H1 H2) as Hm.
  unfold wp, mbind, St_bind in Hm. unfold mbind, St_bind, others in *. destruct (move_pins _ _ _ nl) as [[? nl1]|]; cbn.
  - apply Hm. intros nl' K Hi2 Hk. by eapply Hk2.
  - apply Hm. intros nl' K Hi2 Hk. by eapply Hk2.
Qed.

(** ** What a merge keeps *)

Section Merge.
Context (po : gmap pin_ptr bool) (nl nl' : netlist device) (ip : impl_ptr) (from to : node_ptr) (i : nat) (fd : node_t) (dead : list node_ptr).
Context (I : nl_inv nl) (K : keeps nl nl') (Hi : s_impls nl' = rename (replace from to) <$> delete ip (s_impls nl)).
Context (Hh : forall pos' ip' d', ip' <> ip -> holds nl pos' ip' d' -> holds nl' pos' ip' (rename (replace from to) d')).
Context (Hne : from <> to) (Hf : s_nodes nl !! from = Some fd) (Hu : has_unique_driver_pin po (pins fd) (out_pin ip i) = true).

Lemma merged_impl ip' d' : s_impls nl' !! ip' = Some d' -> exists d, ip' <> ip /\ s_impls nl !! ip' = Some d /\ d' = rename (replace from to) d.
Proof using Hi.
  rewrite Hi, lookup_fmap, fmap_Some. intros (d & H & ->). apply lookup_delete_Some in H as [? ?]. by exists d.
Qed.

Lemma merged_flags : flags_ok po nl -> flags_ok po nl'.
Proof using Hi.
  intros Hfl ip' d' j Hd' Hj. apply merged_impl in Hd' as (d & _ & Hd & ->). unfold out_flag. rewrite pins_rename, length_map in *.
  rewrite model_name_rename. by apply Hfl.
Qed.

Lemma merged_dead : (exists td, s_nodes nl !! to = Some td /\ pins td <> []) -> dead_ok dead nl -> dead_ok (from :: dead) nl'.
Proof using Hi I K Hne Hh.
  intros (td & Htd & Hne') Hd n nd Hn Hnd. destruct (pins nd) as [|p ps] eqn:E; [done|]. exfalso.
  destruct (pin_on chunk_models nl' n nd p (kp_inv _ _ K) Hnd) as (d' & pn & Hd' & Hpn & Hon); [rewrite E; by left|].
  apply merged_impl in Hd' as (d & _ & Hd0 & ->). rewrite pins_rename in Hpn. apply list_lookup_fmap_Some in Hpn as (q & -> & Hq). simpl in Hon.
  destruct (nodes q) as [x|] eqn:Hx; [|done]. injection Hon as <-. destruct (pin_node_there nl p.1 d _ q x I Hd0 Hq Hx) as (xd & Hxd & Hin).
  unfold replace in *. case_decide as Ex.
  - subst. apply elem_of_cons in Hn as [->|Hn]; [done|]. by rewrite (Hd to td Hn Htd) in Hne'.
  - apply elem_of_cons in Hn as [->|Hn]; [done|]. rewrite (Hd x xd Hn Hxd) in Hin. by apply elem_of_nil in Hin.
Qed.

Lemma merged_recorded r ip' : flags_ok po nl -> ip' <> ip -> recorded nl dead r ip' -> recorded nl' (from :: dead) r ip'.
Proof using Hi I Hh Hf Hu.
  intros Hfl Hn (mb & d & g & Hhold & Hc & E1 & E2 & E3 & S0 & S1). exists mb, (rename (replace from to) d), (rename_gate (replace from to) g).
  split_and!; [by apply Hh|by rewrite classify_rename, Hc|done| |done|by apply stale_replace|by apply stale_replace].
  cbn [rename_gate gr_out]. rewrite <- E2. destruct (gr_out g) as [o|] eqn:Eo; [|done]. simpl. f_equal. unfold replace. case_decide as Eof; [|done]. subst o. exfalso.
  destruct (classify_spec _ _ _ _ _ Hc) as (_ & _ & j & pj & Hpj & Hj & Hon & Hfj & _). rewrite Eo in Hon. pose proof Hhold as (_ & _ & ? & _ & _ & _ & Hd).
  destruct (pin_node_there nl ip' d j pj from I Hd Hj Hon) as (fd' & Hf' & Hin). rewrite Hf in Hf'. injection Hf' as <-.
  pose proof (Hfl ip' d j Hd (lookup_lt_Some _ _ _ Hj)) as Hflag. rewrite Hfj in Hflag.
  pose proof (unique_driver po (pins fd) (out_pin ip i) (out_pin ip' j) Hu Hin Hflag) as Epin. apply out_pin_inj in Epin as [-> _]. done.
Qed.
End Merge.

Lemma holds_inj nl pos pos' ip d d' : nl_inv nl -> holds nl pos ip d -> holds nl pos' ip d' -> pos = pos'.
Proof using Type.
  intros I (Hc & Hv & mb & Hg & _ & Hp & Hd) (Hc' & Hv' & mb' & Hg' & _ & Hp' & Hd').
  destruct (live_models_spec nl _ I (live_models_run nl I)) as (_ & _ & Hnd).
  assert (H : forall q m, good_pos q -> get_model nl q = Some m -> ptr m = Some ip ->
    {| lv_pos := q; lv_base := m; lv_ip := ip; lv_dev := d |} ∈ omap (live_of nl) (slots_of nl)).
  { intros q m Hq Hgq Hm. apply list_elem_of_omap. exists (q, m). split; [by apply slots_of_elem|]. unfold live_of. simpl. by rewrite Hm, Hd. }
  pose proof (H pos mb (conj Hc Hv) Hg Hp) as A. pose proof (H pos' mb' (conj Hc' Hv') Hg' Hp') as B.
  apply list_elem_of_lookup in A as [x A], B as [y B].
  assert (x = y) as ->.
  { apply (NoDup_lookup (map lv_ip (omap (live_of nl) (slots_of nl))) x y ip Hnd); apply list_lookup_fmap_Some; eexists; split; [|done|..|done]; done. }
  congruence.
Qed.

Definition key_nodes (k : gate_key) : list node_ptr := k.1.2 :: option_list k.2.
Lemma canon_nodes name a b n : n ∈ key_nodes (canon_key name a b) <-> n = a \/ n = b.
Proof using Type. clear Hchunk. unfold canon_key, key_nodes. destruct (_ && _); cbn; set_solver. Qed.

Definition awake (nl : netlist device) (n : node_ptr) : Prop := exists nd, s_nodes nl !! n = Some nd /\ pins nd <> [].
Lemma awake_not_dead nl dead n : dead_ok dead nl -> awake nl n -> n ∉ dead.
Proof using Type. intros Hd (nd & Hn & Hp) Hin. by apply Hp, (Hd n nd). Qed.
Lemma pin_awake nl ip d j p n : nl_inv nl -> s_impls nl !! ip = Some d -> device_pins d !! j = Some p -> nodes p = Some n -> awake nl n.
Proof using Type.
  intros I Hd Hj Hp. destruct (pin_node_there nl ip d j p n I Hd Hj Hp) as (nd & Hn & Hin). exists nd. split; [done|]. intros E. rewrite E in Hin. by apply elem_of_nil in Hin.
Qed.

Lemma key_awake nl pos mb ip d g k : nl_inv nl -> s_impls nl !! ip = Some d -> classify {| lv_pos := pos; lv_base := mb; lv_ip := ip; lv_dev := d |} = Some g ->
  key_of g = Some k -> forall n, n ∈ key_nodes k -> awake nl n.
Proof using Type.
  intros I Hd Hc Hk n Hn. destruct (classify_spec _ _ _ _ _ Hc) as (_ & _ & _ & _ & _ & _ & _ & _ & (pa & Ha & Ea) & Hb).
  unfold key_of in Hk. destruct (is_not g) eqn:En.
  - destruct (gr_in0 g) as [a|]; [|done]. injection Hk as <-. unfold key_nodes in Hn. simpl in Hn. apply list_elem_of_singleton in Hn as ->. by eapply pin_awake.
  - destruct (gr_in0 g) as [a|]; [|done]. destruct (gr_in1 g) as [b|] eqn:Eb; [|done]. injection Hk as <-. destruct (Hb eq_refl) as (pb & Hb' & Eb').
    apply canon_nodes in Hn as [->| ->]; [by apply (pin_awake nl ip d 0 pa)|by apply (pin_awake nl ip d 1 pb)].
Qed.

Lemma stale_awake nl dead now n : dead_ok dead nl -> awake nl n -> stale dead now (Some n) -> now = Some n.
Proof using Type. intros Hd Ha [?|(m & [= <-] & Hm)]; [done|]. by destruct (awake_not_dead nl dead n Hd Ha). Qed.

Lemma recorded_key nl dead r ip k : dead_ok dead nl -> recorded nl dead r ip -> key_of r = Some k -> (forall n, n ∈ key_nodes k -> awake nl n) ->
  exists mb d g, holds nl (gr_pos r) ip d /\ classify {| lv_pos := gr_pos r; lv_base := mb; lv_ip := ip; lv_dev := d |} = Some g /\
    key_of g = Some k /\ gr_out g = gr_out r /\ gr_out_pin g = gr_out_pin r.
Proof using Type.
  intros Hd (mb & d & g & Hh & Hc & E1 & E2 & E3 & S0 & S1) Hk Ha. exists mb, d, g. split_and!; [done|done| |done|done].
  unfold key_of, is_not in *. rewrite E1. case_bool_decide as En.
  - destruct (gr_in0 r) as [a|]; [|done]. injection Hk as <-. by rewrite (stale_awake nl dead _ a Hd (Ha a ltac:(by left)) S0).
  - destruct (gr_in0 r) as [a|]; [|done]. destruct (gr_in1 r) as [b|]; [|done]. injection Hk as <-.
    rewrite (stale_awake nl dead _ a Hd (Ha a ltac:(apply canon_nodes; by left)) S0).
    by rewrite (stale_awake nl dead _ b Hd (Ha b ltac:(apply canon_nodes; by right)) S1).
Qed.

Record strash_inv (po : gmap pin_ptr bool) (rep : gmap gate_key gate_rec) (dead : list node_ptr) (visited : list model_pos) (nl : netlist device) : Prop := mk_strash_inv {
  si_nl : nl_inv nl;
  si_flags : flags_ok po nl;
  si_dead : dead_ok dead nl;
  si_rep : forall k r, rep !! k = Some r -> key_of r = Some k /\ is_Some (gr_out r) /\ gr_pos r ∈ visited /\ exists ip, recorded nl dead r ip;
  si_inj : forall k k' r r', rep !! k = Some r -> rep !! k' = Some r' -> gr_pos r = gr_pos r' -> k = k'
}.

Lemma strash_visit po rep dead visited nl pos : strash_inv po rep dead visited nl -> strash_inv po rep dead (pos :: visited) nl.
Proof using Type.
  intros [H1 H2 H3 H4 H5]. split; [done..| |done]. intros k r Hr. destruct (H4 k r Hr) as (? & ? & ? & ?). split_and!; [done|done|by right|done].
Qed.

Lemma fresh_recorded nl dead pos mb ip d g : holds nl pos ip d -> classify {| lv_pos := pos; lv_base := mb; lv_ip := ip; lv_dev := d |} = Some g ->
  gr_pos g = pos /\ recorded nl dead g ip.
Proof using Type.
  intros Hh Hc. destruct (classify_spec _ _ _ _ _ Hc) as (_ & Ep & _). split; [done|]. exists mb, d, g. rewrite Ep. split_and!; try done; by left.
Qed.

(** The entry of a key is set to a gate that was not visited before. *)
Lemma strash_insert po rep dead visited nl k g ip : strash_inv po rep dead visited nl -> key_of g = Some k -> is_Some (gr_out g) -> gr_pos g ∉ visited ->
  recorded nl dead g ip -> strash_inv po (<[k := g]> rep) dead (gr_pos g :: visited) nl.
Proof using Type.
  intros [H1 H2 H3 H4 H5] Hk Ho Hv Hr. split; [done..| |].
  - intros k' r [[<- <-]|[Hne Hl]]%lookup_insert_Some; [split_and!; [done|done|by left|by exists ip]|].
    destruct (H4 k' r Hl) as (? & ? & ? & ?). split_and!; [done|done|by right|done].
  - intros k1 k2 r1 r2 [[<- <-]|[Hn1 L1]]%lookup_insert_Some [[<- <-]|[Hn2 L2]]%lookup_insert_Some E; [done| | |by eapply H5].
    + destruct (H4 _ _ L2) as (_ & _ & Hin & _). rewrite <- E in Hin. done.
    + destruct (H4 _ _ L1) as (_ & _ & Hin & _). rewrite E in Hin. done.
Qed.

(** Two gates with one key drive the same state. *)
Lemma same_key_merges nl ip1 d1 g1 pos1 mb1 o1 ip2 d2 g2 pos2 mb2 o2 k : s_impls nl !! ip1 = Some d1 -> s_impls nl !! ip2 = Some d2 ->
  classify {| lv_pos := pos1; lv_base := mb1; lv_ip := ip1; lv_dev := d1 |} = Some g1 ->
  classify {| lv_pos := pos2; lv_base := mb2; lv_ip := ip2; lv_dev := d2 |} = Some g2 ->
  key_of g1 = Some k -> key_of g2 = Some k -> gr_out g1 = Some o1 -> gr_out g2 = Some o2 -> ip1 <> ip2 ->
  (forall σ, nl_stable nl σ -> σ o1 = σ o2) /\
  (forall σ, σ o1 = σ o2 -> (forall ip' d', ip' <> ip1 -> s_impls nl !! ip' = Some d' -> sat σ d') -> sat σ d1).
Proof using Type.
  intros D1 D2 C1 C2 K1 K2 O1 O2 Hne. split.
  - intros σ Hs. rewrite (proj1 (classify_sat σ _ _ _ _ _ _ _ C1 K1 O1) (Hs _ _ D1)), (proj1 (classify_sat σ _ _ _ _ _ _ _ C2 K2 O2) (Hs _ _ D2)). done.
  - intros σ E Ho. apply (classify_sat σ _ _ _ _ _ _ _ C1 K1 O1). rewrite E. apply (classify_sat σ _ _ _ _ _ _ _ C2 K2 O2). by eapply Ho.
Qed.

(** The entries of the other gates after a merge. *)
Lemma strash_merged po rep dead visited nl nl' ip from to i fd  : strash_inv po rep dead visited nl -> keeps nl nl' ->
  s_impls nl' = rename (replace from to) <$> delete ip (s_impls nl) ->
  (forall pos' ip' d', ip' <> ip -> holds nl pos' ip' d' -> holds nl' pos' ip' (rename (replace from to) d')) ->
  from <> to -> s_nodes nl !! from = Some fd -> has_unique_driver_pin po (pins fd) (out_pin ip i) = true -> awake nl to ->
  forall rep', (forall k r, rep' !! k = Some r -> rep !! k = Some r /\ forall ip', recorded nl dead r ip' -> ip' <> ip) ->
  strash_inv po rep' (from :: dead) visited nl'.
Proof using Type.
  intros [H1 H2 H3 H4 H5] K Hi Hh Hne Hf Hu Ha rep' Hrep. split; [apply K|by eapply merged_flags|by eapply merged_dead| |].
  - intros k r Hr. destruct (Hrep k r Hr) as [Hr' Hip]. destruct (H4 k r Hr') as (? & ? & ? & ip' & Hrec). split_and!; [done..|]. exists ip'.
    apply (merged_recorded po nl nl' ip from to i fd); try done. by apply Hip.
  - intros k k' r r' Hr Hr'. destruct (Hrep k r Hr) as [A _], (Hrep k' r' Hr') as [B _]. by eapply H5.
Qed.

Definition strash_post (po : gmap pin_ptr bool) (visited : list model_pos) (nl : netlist device) (r : gmap gate_key gate_rec * bool) (nl' : netlist device) : Prop :=
  keeps nl nl' /\ reports r.2 nl nl' /\ exists dead, strash_inv po r.1 dead visited nl'.

(** Two objects at different positions are different. *)
Lemma recorded_other nl dead r ip' pos ip d : nl_inv nl -> holds nl pos ip d -> gr_pos r <> pos -> recorded nl dead r ip' -> ip' <> ip.
Proof using Type. intros I Hh Hne (mb & d' & g & Hh' & _) ->. apply Hne. by eapply holds_inj. Qed.

Lemma strash_gate_keeps po rep dead visited nl pos mb ip d og : strash_inv po rep dead visited nl -> holds nl pos ip d ->
  classify {| lv_pos := pos; lv_base := mb; lv_ip := ip; lv_dev := d |} = Some og -> pos ∉ visited ->
  wp (strash_gate prot po rep og) nl (strash_post po (pos :: visited) nl).
Proof using Hchunk.
  intros S Hh Hc Hv. pose proof (si_nl _ _ _ _ _ S) as I. pose proof Hh as (_ & _ & ? & _ & _ & _ & Hd).
  destruct (fresh_recorded nl dead pos mb ip d og Hh Hc) as [Epos Hrec].
  assert (Hsame : strash_post po (pos :: visited) nl (rep, false) nl) by (split_and!; [by apply keeps_refl|done|exists dead; by apply strash_visit]).
  unfold strash_gate. destruct (gr_out og) as [go|] eqn:Ego; [|done]. destruct (key_of og) as [k|] eqn:Ek; [|done].
  destruct (rep !! k) as [r|] eqn:Er.
  2: { split_and!; [by apply keeps_refl|done|]. exists dead. simpl. rewrite <- Epos in *. by eapply strash_insert. }
  destruct (si_rep _ _ _ _ _ S k r Er) as (Ekr & [ro Ero] & Hvr & ipr & Hrecr). rewrite Ero.
  destruct (recorded_key nl dead r ipr k (si_dead _ _ _ _ _ S) Hrecr Ekr (key_awake nl pos mb ip d og k I Hd Hc Ek)) as (mbr & dr & gr & Hhr & Hcr & Ekg & Eog & Epg).
  pose proof Hhr as (_ & _ & ? & _ & _ & _ & Hdr). assert (Hne : ipr <> ip) by (eapply recorded_other; [done|exact Hh|intros E; by rewrite E in Hvr|exact Hrecr]).
  destruct (classify_spec _ _ _ _ _ Hc) as (_ & _ & io & pio & Eio & Hpio & Hon & _). rewrite Ego in Hon.
  destruct (classify_spec _ _ _ _ _ Hcr) as (_ & _ & ir & pir & Eir & Hpir & Honr & _). rewrite Eog, Ero in Honr.
  assert (Hago : awake nl go) by (by apply (pin_awake nl ip d io pio)). assert (Haro : awake nl ro) by (by apply (pin_awake nl ipr dr ir pir)).
  destruct (is_protected prot ro && is_protected prot go); [done|]. destruct (negb (is_protected prot ro) && is_protected prot go).
  - rewrite <- Epg, Eir. apply (merge_into_keeps nl po (gr_pos r) ipr dr ir pir ro go); try done.
    + destruct Hago as (? & ? & _). eauto.
    + intros _. rewrite Ero in Eog. by eapply (same_key_merges nl ipr dr gr _ mbr ro ip d og _ mb go k).
    + intros nl' fd Hneo Hf Hu K Hi Hk. split_and!; [done|exact (reports_delete _ _ _ _ _ Hdr Hi)|]. exists (ro :: dead). simpl.
      assert (S' : strash_inv po (delete k rep) (ro :: dead) visited nl').
      { apply (strash_merged po rep dead visited nl nl' ipr ro go ir fd S K Hi Hk Hneo Hf Hu Hago). intros k' r' [Hkk Hr']%lookup_delete_Some. split; [done|].
        intros ip' Hrec'. eapply (recorded_other nl dead r' ip' (gr_pos r)); [done|exact Hhr| |exact Hrec']. intros E. apply Hkk. symmetry. by eapply (si_inj _ _ _ _ _ S). }
      rewrite <- Epos in *. rewrite <- (insert_delete_eq rep k og). eapply strash_insert; [exact S'|done|by rewrite Ego|done|].
      eapply (merged_recorded po nl nl' ipr ro go ir fd dead); try done. by apply S.
  - rewrite Eio. apply (merge_into_keeps nl po (gr_pos og) ip d io pio go ro); try done.
    + by rewrite Epos.
    + destruct Haro as (? & ? & _). eauto.
    + intros _. rewrite Ero in Eog. by eapply (same_key_merges nl ip d og _ mb go ipr dr gr _ mbr ro k).
    + intros nl' fd Hneo Hf Hu K Hi Hk. split_and!; [done|exact (reports_delete _ _ _ _ _ Hd Hi)|]. exists (go :: dead). simpl. apply strash_visit.
      apply (strash_merged po rep dead visited nl nl' ip go ro io fd S K Hi Hk Hneo Hf Hu Haro). intros k' r' Hr'. split; [done|].
      intros ip' Hrec'. eapply (recorded_other nl dead r' ip' pos); [done|exact Hh| |exact Hrec'].
      destruct (si_rep _ _ _ _ _ S k' r' Hr') as (_ & _ & Hin & _). intros E. by rewrite E in Hin.
Qed.

Lemma strash_at_keeps po rep dead visited nl pos : strash_inv po rep dead visited nl -> good_pos pos -> pos ∉ visited ->
  wp (strash_at prot po rep pos) nl (strash_post po (pos :: visited) nl).
Proof using Hchunk.
  intros S Hg Hv. pose proof (si_nl _ _ _ _ _ S) as I.
  assert (Hsame : strash_post po (pos :: visited) nl (rep, false) nl) by (split_and!; [by apply keeps_refl|done|exists dead; by apply strash_visit]).
  unfold strash_at. apply wp_slot. destruct (get_model nl pos) as [mb|] eqn:Hm; [|done]. apply (wp_object nl pos mb); [done..|].
  intros ip d Hh _. destruct (classify _) as [og|] eqn:Hc; [|done]. by eapply strash_gate_keeps.
Qed.

Lemma strash_all_keeps po ps : forall rep dead visited nl, strash_inv po rep dead visited nl -> Forall good_pos ps -> NoDup ps ->
  (forall pos, pos ∈ ps -> pos ∉ visited) -> wp (strash_all prot po rep ps) nl (fun c nl' => keeps nl nl' /\ reports c nl nl').
Proof using Hchunk.
  induction ps as [|pos ps IH]; intros rep dead visited nl S Hg Hnd Hv; [split; [by apply keeps_refl, S|done]|]. apply Forall_cons in Hg as [Hp Hg]. apply NoDup_cons in Hnd as [Hni Hnd].
  cbn [strash_all]. apply wp_bind. eapply wp_mono; [eapply strash_at_keeps; [exact S|done|by apply Hv; left]|]. intros [rep1 c1] nl1 (K1 & R1 & dead1 & S1).
  apply wp_bind. eapply wp_mono; [eapply IH; [exact S1|done|done|]|].
  - intros q Hq [->|Hq']%elem_of_cons; [done|]. apply (Hv q); [by right|done].
  - intros c2 nl2 [K2 R2]. apply wp_ret. split; [exact (keeps_chain _ _ _ K1 K2)|exact (reports_trans _ _ _ _ _ R1 R2)].
Qed.

Lemma positions_NoDup nl : NoDup (map fst (slots_of nl)).
Proof using Type.
  clear Hchunk. unfold slots_of.
  assert (H : forall bs c0, let l := concat (imap (fun c b => imap (fun v mb => ({| vec_pos := Z.of_nat v; chunk_pos := Z.of_nat (c0 + c) |}, mb)) (slots b)) bs) in
    NoDup (map fst l) /\ forall x, x ∈ l -> Z.of_nat c0 <= chunk_pos x.1); [|exact (proj1 (H (models nl) 0%nat))].
  induction bs as [|b bs IH]; intros c0; cbn zeta.
  { split; [apply NoDup_nil_2|]. intros x Hx. by apply elem_of_nil in Hx. }
  cbn [imap concat]. specialize (IH (S c0)). cbn zeta in IH. destruct IH as [IH1 IH2].
  assert (E : imap ((fun c b0 => imap (fun v mb => ({| vec_pos := Z.of_nat v; chunk_pos := Z.of_nat (c0 + c) |}, mb)) (slots b0)) ∘ S) bs =
    imap (fun c b0 => imap (fun v mb => ({| vec_pos := Z.of_nat v; chunk_pos := Z.of_nat (S c0 + c) |}, mb)) (slots b0)) bs).
  { apply imap_ext. intros i x Hx. simpl. by replace (c0 + S i)%nat with (S (c0 + i)) by lia. }
  rewrite E. rewrite map_app. split.
  - apply NoDup_app. split_and!.
    + apply NoDup_alt. intros i j x Hi Hj. change (map fst ?l) with (fst <$> l) in *. rewrite list_lookup_fmap, list_lookup_imap in Hi, Hj.
      destruct (slots b !! i), (slots b !! j); try done. simpl in *. injection Hi as <-. injection Hj as Hj. lia.
    + intros x Hx Hy. apply list_elem_of_fmap in Hx as (x' & -> & Hx). apply elem_of_lookup_imap in Hx as (v & mb & -> & _).
      apply list_elem_of_fmap in Hy as (y & Ey & Hy). specialize (IH2 y Hy). rewrite <- Ey in IH2. simpl in IH2. lia.
    + exact IH1.
  - intros x [Hx|Hx]%elem_of_app; [|specialize (IH2 x Hx); lia]. apply elem_of_lookup_imap in Hx as (v & mb & -> & _). simpl. lia.
Qed.

Lemma positions_good nl : Forall good_pos (map fst (slots_of nl)).
Proof using Type.
  apply Forall_forall. intros pos Hp. apply list_elem_of_fmap in Hp as ([q mb] & -> & Hs). by apply slots_of_elem in Hs as [? _].
Qed.

Lemma strash_keeps nl : nl_inv nl -> wp (optimize_strash prot) nl (fun c nl' => keeps nl nl' /\ reports c nl nl').
Proof using Hchunk.
  intros I. apply wp_fanout; [done|]. intros fan Hf. unfold wp, mbind, St_bind, positions.
  apply (strash_all_keeps (pin_out fan) (map fst (slots_of nl)) ∅ [] []).
  - split; [done|by apply fanout_flags| | |].
    + intros n nd Hn. by apply elem_of_nil in Hn.
    + intros k r. by rewrite lookup_empty.
    + intros k k' r r'. by rewrite lookup_empty.
  - apply positions_good.
  - apply positions_NoDup.
  - intros pos _. apply not_elem_of_nil.
Qed.

(** ** Buffers *)

Lemma named_yes d : named d ["YES"] = true -> exists x, d = m_YES x.
Proof using Type. destruct d; try done. eauto. Qed.

(** Another pin drives the node. *)
Definition contested (nl : netlist device) (ip : impl_ptr) (i : nat) (n : node_ptr) : Prop := exists ip' d' j p,
  s_impls nl !! ip' = Some d' /\ device_pins d' !! j = Some p /\ nodes p = Some n /\ out_flag d' j = true /\ out_pin ip' j <> out_pin ip i.
(** A buffer that has to stay. *)
Definition needed (nl : netlist device) (ip : impl_ptr) : Prop := forall x p0 p1 a b,
  s_impls nl !! ip = Some (m_YES x) -> g1_pins x = [p0; p1] -> nodes p0 = Some a -> nodes p1 = Some b ->
  a = b \/ is_protected prot b = true \/ contested nl ip 1 b.

Lemma rename_yes ρ d x : rename ρ d = m_YES x -> exists y, d = m_YES y /\ g1_pins x = map (rename_pin ρ) (g1_pins y).
Proof using Type. destruct d; try done. intros [= <-]. by eexists. Qed.

Lemma merged_needed po nl nl' ip0 x0 p1 from to fd ip : nl_inv nl -> flags_ok po nl -> s_impls nl !! ip0 = Some (m_YES x0) ->
  g1_pins x0 !! 1%nat = Some p1 -> nodes p1 = Some from -> is_protected prot from = false ->
  s_impls nl' = rename (replace from to) <$> delete ip0 (s_impls nl) ->
  s_nodes nl !! from = Some fd -> has_unique_driver_pin po (pins fd) (out_pin ip0 1) = true ->
  needed nl ip -> needed nl' ip.
Proof using Type.
  clear Hchunk. intros I Hfl Hd0 Hp1 Hn1 Hpr Hi Hf Hu Hneed x q0 q1 a b Hx Hq Ha Hb.
  apply (merged_impl nl nl' ip0 from to Hi) in Hx as (d & Hne & Hd & Ed). symmetry in Ed. apply rename_yes in Ed as (y & -> & Ey).
  rewrite Hq in Ey. destruct (g1_pins y) as [|r0 [|r1 [|? ?]]] eqn:Hy; try done. injection Ey as -> ->. simpl in Ha, Hb.
  destruct (nodes r0) as [a'|] eqn:Ha'; [|done]. destruct (nodes r1) as [b'|] eqn:Hb'; [|done]. injection Ha as <-. injection Hb as <-.
  assert (Hdrv : forall ip' d' j p, s_impls nl !! ip' = Some d' -> device_pins d' !! j = Some p -> nodes p = Some from -> out_flag d' j = true -> out_pin ip' j = out_pin ip0 1).
  { intros ip' d' j p Hd' Hj Hpn Hfj. apply (unique_driver po (pins fd) _ _ Hu).
    - by apply (on_node chunk_models nl from fd ip' d' j p).
    - rewrite <- Hfj. apply (Hfl ip' d' j Hd'). by eapply lookup_lt_Some. }
  destruct (Hneed y r0 r1 a' b' Hd Hy Ha' Hb') as [->|[Hpb|(ip' & d' & j & p & Hd' & Hj & Hpn & Hfj & Hpin)]]; [by left| |].
  - right. left. unfold replace. case_decide; [congruence|done].
  - right. right. assert (Hbf : b' <> from).
    { intros ->. assert (E : out_pin ip 1 = out_pin ip0 1) by (apply (Hdrv ip (m_YES y) 1%nat r1); [done|change (g1_pins y !! 1%nat = Some r1); by rewrite Hy|done|done]).
      apply out_pin_inj in E as [? _]. done. }
    assert (Hip : ip' <> ip0).
    { intros ->. rewrite Hd0 in Hd'. injection Hd' as <-. unfold out_flag, is_output_pin in Hfj. cbn in Hfj. apply Nat.eqb_eq in Hfj. subst.
      change (g1_pins x0 !! 1%nat = Some p) in Hj. congruence. }
    unfold replace at 1. rewrite decide_False by done.
    exists ip', (rename (replace from to) d'), j, (rename_pin (replace from to) p). split_and!; [| | | |done].
    + by rewrite Hi, lookup_fmap, lookup_delete_ne, Hd'.
    + rewrite pins_rename. change (map ?f ?l) with (f <$> l). by rewrite list_lookup_fmap, Hj.
    + simpl. rewrite Hpn. simpl. unfold replace. by rewrite decide_False.
    + unfold out_flag. by rewrite model_name_rename, pins_rename, length_map.
Qed.

(** The models left are where they were, of the same kind; those at the
    positions [P] and those that had to stay before have to stay. *)
Definition yes_post (po : gmap pin_ptr bool) (P : model_pos -> Prop) (nl nl' : netlist device) : Prop :=
  keeps nl nl' /\ flags_ok po nl' /\
  (forall ip d', s_impls nl' !! ip = Some d' -> exists d, s_impls nl !! ip = Some d /\ model_name d' = model_name d) /\
  (forall pos ip d, holds nl pos ip d -> is_Some (s_impls nl' !! ip) -> exists d', holds nl' pos ip d') /\
  (forall ip, needed nl ip -> needed nl' ip) /\
  (forall pos ip d, P pos -> holds nl pos ip d -> needed nl' ip).

(** The driving pins are not the expected one alone. *)
Lemma not_unique po nl n nd ip d i p : nl_inv nl -> flags_ok po nl -> s_nodes nl !! n = Some nd -> s_impls nl !! ip = Some d -> device_pins d !! i = Some p ->
  nodes p = Some n -> po !! out_pin ip i = Some true -> has_unique_driver_pin po (pins nd) (out_pin ip i) = false -> contested nl ip i n.
Proof using Type.
  clear Hchunk. intros I Hs Hnd Hd Hp Hn Hflag Hu. unfold has_unique_driver_pin in Hu. set (L := List.filter (is_out_in po) (pins nd)) in *.
  assert (Hin : out_pin ip i ∈ L).
  { apply list_elem_of_In, filter_In. split; [apply list_elem_of_In; by apply (on_node chunk_models nl n nd ip d i p)|]. unfold is_out_in. by rewrite Hflag. }
  destruct (decide (Forall (fun q => q = out_pin ip i) L)) as [HF|HF].
  - exfalso. assert (HN : NoDup L) by (apply NoDup_ListNoDup, List.NoDup_filter, NoDup_ListNoDup, osorted_NoDup; by eapply I).
    destruct L as [|q [|q' L]]; [by apply elem_of_nil in Hin| |].
    + apply Forall_cons in HF as [-> _]. simpl in Hu. by rewrite bool_decide_eq_true_2 in Hu.
    + apply Forall_cons in HF as [-> HF]. apply Forall_cons in HF as [-> _]. apply NoDup_cons in HN as [HN _]. apply HN. by left.
  - apply not_Forall_Exists, Exists_exists in HF as ([ip' j] & Hq & Hne); [|apply _]. apply list_elem_of_In, filter_In in Hq as [Hq Hf].
    apply list_elem_of_In in Hq. destruct (pin_on chunk_models nl n nd _ I Hnd Hq) as (d' & pn & Hd' & Hpn & Hon). simpl in *.
    exists ip', d', (N.to_nat j), pn. unfold out_pin in *. rewrite N2Nat.id. split_and!; try done.
    specialize (Hs ip' d' (N.to_nat j) Hd' (lookup_lt_Some _ _ _ Hpn)). unfold out_pin in Hs. rewrite N2Nat.id in Hs.
    unfold is_out_in in Hf. rewrite Hs in Hf. exact Hf.
Qed.

Lemma eliminate_yes_at_keeps po pos nl : nl_inv nl -> flags_ok po nl -> good_pos pos ->
  wp (eliminate_yes_at prot po pos) nl (fun _ nl' => yes_post po (fun q => q = pos) nl nl').
Proof using Hchunk.
  intros I Hfl Hg.
  assert (Hr : (forall ip d, holds nl pos ip d -> needed nl ip) -> yes_post po (fun q => q = pos) nl nl).
  { intros H. split_and!; [by apply keeps_refl|done|eauto|eauto|done|]. intros q ip d ->. apply H. }
  unfold eliminate_yes_at. apply wp_slot.
  destruct (get_model nl pos) as [mb|] eqn:Hm; [|apply Hr; by intros ? ? (_ & _ & ? & ? & _); congruence].
  apply (wp_object nl pos mb); [done..|intros Hno; apply Hr; intros ip d Hh; by destruct (Hno ip d)|]. intros ip d Hh Hat. pose proof Hh as (_ & _ & mb1 & _ & _ & _ & Hd).
  assert (Hr' : needed nl ip -> yes_post po (fun q => q = pos) nl nl) by (intros Hn; apply Hr; by intros ip' d' [-> _]%Hat).
  destruct (named d ["YES"]) eqn:Hn; cbn [negb]; [|apply Hr'; intros y ? ? ? ? Hy; rewrite Hd in Hy; by injection Hy as ->].
  apply named_yes in Hn as [x ->]. change (generate_pin_view (m_YES x)) with (g1_pins x).
  destruct (g1_pins x) as [|p0 [|p1 [|? ?]]] eqn:Hp; try by (apply Hr'; intros ? ? ? ? ? Hx; rewrite Hd in Hx; injection Hx as <-; congruence).
  assert (Hk : (forall a b, nodes p0 = Some a -> nodes p1 = Some b -> a = b \/ is_protected prot b = true \/ contested nl ip 1 b) -> yes_post po (fun q => q = pos) nl nl).
  { intros H'. apply Hr'. intros y q0 q1 a b Hy Hq. rewrite Hd in Hy. injection Hy as <-. rewrite Hp in Hq. injection Hq as <- <-. apply H'. }
  destruct (nodes p0) as [a|] eqn:Ha; [|by apply Hk]. destruct (nodes p1) as [b|] eqn:Hb; [|by apply Hk].
  case_bool_decide as Hab; [apply Hk; intros; left; congruence|]. cbn [orb]. destruct (is_protected prot b) eqn:Hpr; [apply Hk; intros ? ? _ [= <-]; auto|].
  assert (Hpins : device_pins (m_YES x) = [p0; p1]) by done.
  destruct (pin_node_there nl ip (m_YES x) 1 p1 b I Hd) as (nd & Hnd & _); [by rewrite Hpins|done|].
  destruct (pin_node_there nl ip (m_YES x) 0 p0 a I Hd) as (na & Hna & _); [by rewrite Hpins|done|].
  apply (wp_node_at nl b nd); [done|]. destruct (has_unique_driver_pin _ _ _) eqn:Hu.
  2: { apply Hk. intros ? ? _ [= <-]. right. right. apply (not_unique po nl b nd ip (m_YES x) 1 p1); try done; [by rewrite Hpins|].
       rewrite (Hfl ip (m_YES x) 1%nat Hd); [done|rewrite Hpins; simpl; lia]. }
  apply (merge_keeps nl pos ip (m_YES x) 1 p1 b a nd); try done.
  - by rewrite Hpins.
  - intros σ Hs. destruct p0, p1. simpl in Ha, Hb. subst. change (σ b = YES.output_res (σ a)).
    eapply (sat_gate1 σ m_YES); [done|exact Hp|]. by eapply Hs.
  - intros σ E _. by eapply (sat_gate1_intro σ m_YES YES.output_res).
  - intros nl' K Hi Hh'. split_and!; [done|by eapply merged_flags| | | |].
    + intros ip' d' Hd'. destruct (merged_impl nl nl' ip b a Hi ip' d' Hd') as (d0 & _ & Hd0 & ->). exists d0. by rewrite model_name_rename.
    + intros q ip' d' Hhq [e He]. destruct (merged_impl nl nl' ip b a Hi ip' e He) as (_ & Hne & _). eexists. by apply Hh'.
    + intros ip'. by apply (merged_needed po nl nl' ip x p1 b a nd ip'); try done; rewrite Hp.
    + intros q ip' d' -> [-> _]%Hat y ? ? ? ? Hy. by destruct (merged_impl nl nl' ip b a Hi ip _ Hy) as (_ & Hne & _).
Qed.

Lemma eliminate_yes_all_keeps po l : forall nl, nl_inv nl -> flags_ok po nl -> Forall good_pos l ->
  wp (eliminate_yes_all prot po l) nl (fun _ nl' => yes_post po (fun q => q ∈ l) nl nl').
Proof using Hchunk.
  induction l as [|pos l IH]; intros nl I Hfl Hg.
  { split_and!; [by apply keeps_refl|done|eauto|eauto|done|]. intros q ip d H. by apply elem_of_nil in H. }
  apply Forall_cons in Hg as [Hp Hg]. cbn [eliminate_yes_all]. apply wp_bind.
  eapply wp_mono; [by apply eliminate_yes_at_keeps|]. intros ? nl1 (K1 & F1 & N1 & H1 & S1 & U1).
  eapply wp_mono; [apply IH; [apply K1|done|done]|]. intros ? nl2 (K2 & F2 & N2 & H2 & S2 & U2).
  split_and!; [exact (keeps_chain _ _ _ K1 K2)|done| | |auto|].
  - intros ip d2 Hd2. destruct (N2 ip d2 Hd2) as (d1 & Hd1 & E1). destruct (N1 ip d1 Hd1) as (d & Hd & E). exists d. split; [done|congruence].
  - intros q ip d Hh Hs. destruct (H1 q ip d Hh) as [d1 Hh1]; [|by eapply H2]. destruct Hs as [e He]. destruct (N2 ip e He) as (? & ? & _). eauto.
  - intros q ip d [->|Hq]%elem_of_cons Hh; [apply S2; by eapply U1|]. destruct (s_impls nl1 !! ip) as [e|] eqn:He.
    + destruct (H1 q ip d Hh) as [d1 Hh1]; [by exists e|]. by eapply U2.
    + intros y ? ? ? ? Hy. destruct (N2 ip _ Hy) as (? & ? & _). congruence.
Qed.

Lemma wp_lives {A} nl (k : list live -> Nt A) Q : nl_inv nl ->
  (forall l, live_models nl = Some l -> wp (k l) nl Q) -> wp (l ← lives; k l) nl Q.
Proof using Type. intros I H. pose proof (live_models_run nl I) as E. unfold wp, mbind, St_bind, lives. rewrite E. by apply H. Qed.

Lemma yes_buffers_keep nl : nl_inv nl -> wp (optimize_eliminate_yes_buffers prot) nl (fun _ nl' => keeps nl nl' /\ forall ip, needed nl' ip).
Proof using Hchunk.
  intros I. apply wp_lives; [done|]. intros l E. destruct (live_models_spec nl l I E) as (Hl & Hall & _).
  eapply wp_mono; [apply eliminate_yes_all_keeps; [done|by apply pin_out_flags|]|].
  - apply Forall_forall. intros pos Hpos. apply list_elem_of_In, in_map_iff in Hpos as (m & <- & Hm). apply filter_In in Hm as [Hm _].
    apply list_elem_of_In in Hm. by destruct (Hl m Hm) as [(? & ? & _) _].
  - intros ? nl' (K & _ & N & _ & _ & U). split; [done|]. intros ip y p0 p1 a b Hx. destruct (N ip _ Hx) as (d & Hd & Hname).
    destruct (Hall ip d Hd) as (m & Hm & <- & <-). destruct (Hl m Hm) as [Hh _]. refine (U (lv_pos m) (lv_ip m) (lv_dev m) _ Hh y p0 p1 a b Hx).
    apply list_elem_of_In, in_map_iff. exists m. split; [done|]. apply filter_In. split; [by apply list_elem_of_In|]. unfold named. by rewrite <- Hname.
Qed.

(** ** The counts of the pins *)

(** The pins that drive a node ([b] is true) or read it, with their nodes. *)
Definition touch (b : bool) (ip : impl_ptr) (d : device) (L : list (nat * pin)) : list (pin_ptr * node_ptr) :=
  omap (fun x : nat * pin => if Bool.eqb (out_flag d x.1) b then (fun n => (out_pin ip x.1, n)) <$> nodes x.2 else None) L.
Definition touches (b : bool) (m : live) : list (pin_ptr * node_ptr) := touch b (lv_ip m) (lv_dev m) (imap pair (device_pins (lv_dev m))).
Definition counts (b : bool) (info : gate_opt_fanout) : gmap node_ptr Z := if b then driver_pins info else consumer_count info.

Lemma fan_pins_count b d ip L : forall info,
  counts b (fold_left (fan_pin (model_name d) (length (device_pins d)) ip) L info) =
  fold_left bump_count (map snd (touch b ip d L)) (counts b info).
Proof using Type.
  induction L as [|[i p] L IH]; intros info; [done|]. cbn [fold_left]. rewrite IH. unfold touch, fan_pin, out_flag. cbn.
  destruct (nodes p); destruct (is_output_pin _ _ _), b; done.
Qed.
Lemma fan_count b l : forall info, counts b (fold_left fan_model l info) = fold_left bump_count (map snd (concat (map (touches b) l))) (counts b info).
Proof using Type.
  induction l as [|m l IH]; intros info; [done|]. cbn [fold_left map concat]. rewrite IH, map_app, fold_left_app. f_equal. apply fan_pins_count.
Qed.

Definition count_of (n : node_ptr) (ns : list node_ptr) : nat := length (List.filter (fun x => bool_decide (x = n)) ns).
Lemma bump_total n ns : forall m, 0 <= default 0 (m !! n) -> default 0 (m !! n) + Z.of_nat (length ns) < 2 ^ 64 ->
  default 0 (fold_left bump_count ns m !! n) = default 0 (m !! n) + Z.of_nat (count_of n ns).
Proof using Type.
  clear Hchunk. unfold count_of. induction ns as [|x ns IH]; intros m H0 Hb; cbn [fold_left List.filter]; [simpl; lia|].
  cbn [length] in Hb. unfold bump_count at 2. case_bool_decide as Hx.
  - subst x. cbn [length]. rewrite IH; rewrite lookup_insert_eq; simpl; rewrite u64_wrap_small by lia; lia.
  - rewrite IH; by rewrite lookup_insert_ne by done; try lia.
Qed.

(** The number of pins fits the counters. *)
Definition few_pins (nl : netlist device) : Prop := forall l, live_models nl = Some l ->
  Z.of_nat (length (concat (map (fun m => device_pins (lv_dev m)) l))) < 2 ^ 64.

Lemma omap_shorter {A B} (f : A -> option B) l : (length (omap f l) <= length l)%nat.
Proof using Type. clear Hchunk. induction l as [|x l IH]; [done|]. cbn. destruct (f x); cbn; lia. Qed.

Lemma length_touches b l : (length (concat (map (touches b) l)) <= length (concat (map (fun m => device_pins (lv_dev m)) l)))%nat.
Proof using Type.
  clear Hchunk. induction l as [|m l IH]; [done|]. cbn [map concat]. rewrite !length_app.
  assert (H : (length (touches b m) <= length (device_pins (lv_dev m)))%nat); [|lia].
  unfold touches, touch. etransitivity; [apply omap_shorter|]. by rewrite length_imap.
Qed.

Lemma counted b nl fan : nl_inv nl -> few_pins nl -> build_gate_opt_fanout nl = Some fan -> exists L : list (pin_ptr * node_ptr),
  (forall n, default 0 (counts b fan !! n) = Z.of_nat (count_of n (map snd L))) /\
  forall ip d i p n, s_impls nl !! ip = Some d -> device_pins d !! i = Some p -> nodes p = Some n -> out_flag d i = b -> (out_pin ip i, n) ∈ L.
Proof using Type.
  clear Hchunk. intros I Hfew. unfold build_gate_opt_fanout. destruct (live_models nl) as [l|] eqn:El; [|done]. intros [= <-].
  destruct (live_models_spec nl l I El) as (_ & H2 & _). specialize (Hfew l El). pose proof (length_touches b l) as Hlen. exists (concat (map (touches b) l)). split.
  - intros n. rewrite fan_count. assert (E : counts b (mk_fanout ∅ ∅ ∅) = ∅) by (by destruct b). rewrite E.
    rewrite bump_total; rewrite lookup_empty; simpl; [done|lia|]. rewrite length_map. lia.
  - intros ip d i p n Hd Hp Hn Hf. destruct (H2 ip d Hd) as (m & Hm & <- & <-). apply elem_of_concat. exists (touches b m).
    split; [|apply list_elem_of_fmap; by exists m]. apply list_elem_of_omap. exists (i, p). split; [apply elem_of_lookup_imap; by exists i, p|].
    simpl. by rewrite Hf, eqb_reflx, Hn.
Qed.

Lemma touched b nl fan ip d i p n : nl_inv nl -> few_pins nl -> build_gate_opt_fanout nl = Some fan -> s_impls nl !! ip = Some d ->
  device_pins d !! i = Some p -> nodes p = Some n -> out_flag d i = b -> 0 < default 0 (counts b fan !! n).
Proof using Type.
  clear Hchunk. intros I Hfew Hfan Hd Hp Hn Hf. destruct (counted b nl fan I Hfew Hfan) as (L & -> & HL). specialize (HL ip d i p n Hd Hp Hn Hf).
  unfold count_of. destruct (List.filter _ _) eqn:E; [|simpl; lia]. exfalso. assert (Hin : In n []); [|done]. rewrite <- E. apply filter_In.
  split; [apply in_map_iff; exists (out_pin ip i, n); split; [done|by apply list_elem_of_In]|by apply bool_decide_eq_true_2].
Qed.

(** With a count of one there is one pin. *)
Lemma touched_once b nl fan n ip d i p ip' d' i' p' : nl_inv nl -> few_pins nl -> build_gate_opt_fanout nl = Some fan -> counts b fan !! n = Some 1 ->
  s_impls nl !! ip = Some d -> device_pins d !! i = Some p -> nodes p = Some n -> out_flag d i = b ->
  s_impls nl !! ip' = Some d' -> device_pins d' !! i' = Some p' -> nodes p' = Some n -> out_flag d' i' = b -> ip = ip' /\ i = i'.
Proof using Type.
  clear Hchunk. intros I Hfew Hfan Hc Hd Hp Hn Hf Hd' Hp' Hn' Hf'. destruct (counted b nl fan I Hfew Hfan) as (L & Hcount & HL).
  pose proof (HL _ _ _ _ _ Hd Hp Hn Hf) as A. pose proof (HL _ _ _ _ _ Hd' Hp' Hn' Hf') as B. apply out_pin_inj.
  specialize (Hcount n). rewrite Hc in Hcount. simpl in Hcount.
  assert (E : count_of n (map snd L) = length (List.filter (fun x => bool_decide (x.2 = n)) L)).
  { unfold count_of. clear. induction L as [|x L IH]; [done|]. cbn. case_bool_decide; cbn; by rewrite IH. }
  assert (Hin : forall q, (q, n) ∈ L -> In (q, n) (List.filter (fun x => bool_decide (x.2 = n)) L)).
  { intros q Hq. apply filter_In. split; [by apply list_elem_of_In|]. by apply bool_decide_eq_true_2. }
  apply Hin in A, B. rewrite E in Hcount. destruct (List.filter _ L) as [|x [|y l]]; [done| |simpl in Hcount; lia].
  destruct A as [->|[]], B as [B|[]]. congruence.
Qed.

(** ** Unused models *)

(** The outputs of a model that has a driving pin. *)
Ltac compute_flags :=
  unfold out_flag, is_output_pin in *;
  repeat match goal with H : context [among ?a ?b] |- _ => let v := eval vm_compute in (among a b) in change (among a b) with v in H end;
  repeat match goal with |- context [among ?a ?b] => let v := eval vm_compute in (among a b) in change (among a b) with v end;
  rewrite ?orb_true_iff, ?andb_true_iff, ?negb_true_iff, ?Nat.eqb_eq, ?Nat.eqb_neq, ?Nat.leb_le in *.

Lemma driving_outs d i : r_wf device_reaction d -> (i < length (device_pins d))%nat -> out_flag d i = true ->
  exists k, r_outs device_reaction d = port_outs k (device_pins d) /\ r_ins device_reaction d = port_ins k (device_pins d) /\
    forall j, (k <= j < length (device_pins d))%nat -> out_flag d j = true.
Proof using Type.
  clear Hchunk. intros Hwf Hi Hf. destruct d as [m|m|m|m|m|m|m|m|m|m|m|m|m|m|m|m|m|m|m|m|m|m|m|m|m|m|m|m|m|m|m|m|m]; compute_flags; try done; cbn in Hwf;
    repeat match type of Hwf with _ /\ _ => destruct Hwf as [Hwf _] end;
    lazymatch type of Hwf with length _ = ?n => lazymatch type of Hi with (_ < length (device_pins ?d))%nat => change (length (device_pins d) = n) in Hwf end end.
  all: first [exists 2%nat; split_and!; [reflexivity|reflexivity|] | exists 1%nat; split_and!; [reflexivity|reflexivity|] | exists 3%nat; split_and!; [reflexivity|reflexivity|]
             | exists 0%nat; split_and!; [reflexivity|reflexivity|] | exists 4%nat; split_and!; [reflexivity|reflexivity|] | idtac].
  all: intros; compute_flags; lia.
Qed.

(** A node has one driving pin. *)
Definition single_driver (nl : netlist device) : Prop := forall ip d i p ip' d' i' p' n,
  s_impls nl !! ip = Some d -> device_pins d !! i = Some p -> nodes p = Some n -> out_flag d i = true ->
  s_impls nl !! ip' = Some d' -> device_pins d' !! i' = Some p' -> nodes p' = Some n -> out_flag d' i' = true -> ip = ip' /\ i = i'.
Definition well_formed (nl : netlist device) : Prop := forall ip d, s_impls nl !! ip = Some d -> r_wf device_reaction d.

Lemma port_outs_pin k ps j n : port_outs k ps !! j = Some n -> exists p, ps !! (k + j)%nat = Some p /\ nodes p = Some n.
Proof using Type.
  unfold port_outs, wires. destruct (mapM nodes ps) as [l|] eqn:E; [|done]. apply mapM_Some in E. rewrite lookup_drop. intros H.
  destruct (Forall2_lookup_r _ _ _ _ _ E H) as (p & Hp & Hn). by exists p.
Qed.

Lemma port_ins_pin k ps n : n ∈ port_ins k ps -> exists i p, (i < k)%nat /\ ps !! i = Some p /\ nodes p = Some n.
Proof using Type.
  unfold port_ins, wires. destruct (mapM nodes ps) as [l|] eqn:E; [|by intros H%elem_of_nil]. apply mapM_Some in E. intros H.
  apply list_elem_of_lookup in H as [i H]. apply lookup_take_Some in H as [H Hi].
  destruct (Forall2_lookup_r _ _ _ _ _ E H) as (p & Hp & Hn). by exists i, p.
Qed.

Lemma unused_spec fan d : unused prot fan d = true -> (exists i, (i < length (device_pins d))%nat /\ out_flag d i = true) /\
  forall i p n, device_pins d !! i = Some p -> out_flag d i = true -> nodes p = Some n ->
    is_protected prot n = false /\ default 0 (consumer_count fan !! n) = 0.
Proof using Type.
  clear Hchunk. unfold unused. change (generate_pin_view d) with (device_pins d). intros [H1 H2]%andb_true_iff. split.
  - destruct (List.filter _ _) as [|[i p] l] eqn:E; [done|].
    assert (Hin : In (i, p) ((i, p) :: l)) by (by left). rewrite <- E in Hin. apply filter_In in Hin as [Hin Hf]. exists i. split; [|done].
    apply list_elem_of_In, elem_of_lookup_imap in Hin as (? & ? & [= -> ->] & Hp). by eapply lookup_lt_Some.
  - intros i p n Hp Hf Hn. rewrite forallb_forall in H2. specialize (H2 (i, p)). simpl in H2. rewrite Hn in H2.
    destruct (andb_prop _ _ (H2 ltac:(apply filter_In; split; [apply list_elem_of_In, elem_of_lookup_imap; by exists i, p|done]))) as [A B].
    split; [by apply negb_true_iff|]. destruct (consumer_count fan !! n) as [k|]; [|done]. simpl. by apply Z.eqb_eq.
Qed.

Section Dce.
Context (nl0 : netlist device) (fan : gate_opt_fanout).
Hypothesis (I0 : nl_inv nl0) (Hwf : well_formed nl0) (Hsd : single_driver nl0) (Hfew : few_pins nl0) (Hfan : build_gate_opt_fanout nl0 = Some fan).

(** Every pin on an output of an unused model is that output. *)
Lemma unused_alone ip d i p n ip' d' i' p' : unused prot fan d = true -> s_impls nl0 !! ip = Some d -> device_pins d !! i = Some p ->
  out_flag d i = true -> nodes p = Some n -> s_impls nl0 !! ip' = Some d' -> device_pins d' !! i' = Some p' -> nodes p' = Some n -> ip' = ip /\ i' = i.
Proof using I0 Hsd Hfew Hfan.
  intros Hu Hd Hp Hf Hn Hd' Hp' Hn'. destruct (unused_spec fan d Hu) as [_ H]. destruct (H i p n Hp Hf Hn) as [_ H0].
  destruct (out_flag d' i') eqn:Hf'; [by eapply (Hsd ip' d' i' p' ip d i p n)|].
  pose proof (touched false nl0 fan ip' d' i' p' n I0 Hfew Hfan Hd' Hp' Hn' Hf') as Hc. simpl in Hc. by rewrite H0 in Hc.
Qed.

Lemma unused_drops nl nl' ip d : s_impls nl ⊆ s_impls nl0 -> s_impls nl !! ip = Some d -> s_impls nl' = delete ip (s_impls nl) ->
  unused prot fan d = true -> behaves prot nl nl'.
Proof using I0 Hwf Hsd Hfew Hfan.
  clear Hchunk. intros Hsub Hd E Hu. pose proof (lookup_weaken _ _ _ _ Hd Hsub) as Hd0. destruct (unused_spec fan d Hu) as [(i & Hi & Hf) Hout].
  destruct (driving_outs d i (Hwf _ _ Hd0) Hi Hf) as (k & Eo & Ei & Hk).
  assert (Hpin : forall j n, r_outs device_reaction d !! j = Some n -> exists p, device_pins d !! (k + j)%nat = Some p /\ out_flag d (k + j) = true /\ nodes p = Some n).
  { intros j n Hj. rewrite Eo in Hj. apply port_outs_pin in Hj as (p & Hp & Hn). exists p. split_and!; [done| |done]. apply Hk.
    pose proof (lookup_lt_Some _ _ _ Hp). lia. }
  apply (drop_behaves prot nl nl' ip d); [done|done|by eapply Hwf| |].
  - apply NoDup_alt. intros j1 j2 n H1 H2. destruct (Hpin j1 n H1) as (p1 & P1 & F1 & N1), (Hpin j2 n H2) as (p2 & P2 & F2 & N2).
    destruct (Hsd ip d _ p1 ip d _ p2 n Hd0 P1 N1 F1 Hd0 P2 N2 F2). lia.
  - intros n Hn. apply list_elem_of_lookup in Hn as [j Hj]. destruct (Hpin j n Hj) as (p & Hp & Hf' & Hnp). split_and!.
    + by eapply Hout.
    + intros Hin. rewrite Ei in Hin. apply port_ins_pin in Hin as (i' & p' & Hlt & Hp' & Hn').
      destruct (unused_alone ip d (k + j) p n ip d i' p' Hu Hd0 Hp Hf' Hnp Hd0 Hp' Hn'). lia.
    + intros ip' d' p' Hne Hd' Hp' Hn'. apply list_elem_of_lookup in Hp' as [i' Hi']. apply Hne.
      eapply (unused_alone ip d (k + j) p n ip' d' i' p'); try done. by eapply lookup_weaken.
Qed.

(** The models that are left are as they were; no unused one is left at the
    positions [P]. *)
Definition dce_post (P : model_pos -> Prop) (nl : netlist device) (c : bool) (nl' : netlist device) : Prop :=
  keeps nl nl' /\ reports c nl nl' /\ s_impls nl' ⊆ s_impls nl /\
  (forall pos ip d, holds nl pos ip d -> is_Some (s_impls nl' !! ip) -> holds nl' pos ip d) /\
  (forall pos ip d, P pos -> holds nl pos ip d -> s_impls nl' !! ip = Some d -> unused prot fan d = true -> named d ["OUTPUT"; "INPUT"] = true).

Lemma dce_at_keeps nl pos : nl_inv nl -> s_impls nl ⊆ s_impls nl0 -> good_pos pos ->
  wp (dce_at prot fan pos) nl (dce_post (fun q => q = pos) nl).
Proof using Hchunk I0 Hwf Hsd Hfew Hfan.
  intros I Hsub Hg. unfold dce_at.
  assert (Hr : (forall ip d, holds nl pos ip d -> unused prot fan d = true -> named d ["OUTPUT"; "INPUT"] = true) -> dce_post (fun q => q = pos) nl false nl).
  { intros H. split_and!; [by apply keeps_refl|done|done|done|]. intros q ip d -> Hh _ Hu. by eapply H. }
  apply wp_slot. destruct (get_model nl pos) as [mb|] eqn:Hm; [|apply Hr; by intros ? ? (_ & _ & ? & ? & _); congruence].
  apply (wp_object nl pos mb); [done..|intros Hno; apply Hr; intros ip d Hh; by destruct (Hno ip d)|]. intros ip d Hh Hat. pose proof Hh as (_ & _ & ? & _ & _ & _ & Hd).
  destruct (named d ["OUTPUT"; "VERILOG_PORTS"] || _) eqn:Hn.
  { apply Hr. intros ip' d' [-> ->]%Hat _. by destruct d. }
  destruct (unused prot fan d) eqn:Hu; [|apply Hr; intros ip' d' [-> ->]%Hat ?; congruence].
  destruct (delete_at_spec chunk_models Hchunk nl pos ip d I Hh) as (nl' & E & I' & Hi & Dn & Hk). unfold wp. rewrite E.
  split_and!; [split; [done|done| |]| | | |].
  - rewrite Hi, dom_delete_L. set_solver.
  - by eapply unused_drops.
  - simpl. rewrite Hi. by eapply size_delete_lt.
  - rewrite Hi. apply delete_subseteq.
  - intros q ip' d' Hh' [e He]. apply Hk; [|done]. intros ->. by rewrite Hi, lookup_delete_eq in He.
  - intros q ip' d' -> [-> _]%Hat Hd'. by rewrite Hi, lookup_delete_eq in Hd'.
Qed.

Lemma dce_all_keeps ps : forall nl, nl_inv nl -> s_impls nl ⊆ s_impls nl0 -> Forall good_pos ps ->
  wp (any_change (dce_at prot fan) ps) nl (dce_post (fun q => q ∈ ps) nl).
Proof using Hchunk I0 Hwf Hsd Hfew Hfan.
  induction ps as [|pos ps IH]; intros nl I Hsub Hg.
  { split_and!; [by apply keeps_refl|done|done|done|]. intros pos ip d H. by apply elem_of_nil in H. }
  apply Forall_cons in Hg as [Hp Hg]. cbn [any_change].
  apply wp_bind. eapply wp_mono; [by apply dce_at_keeps|]. intros c nl1 (K1 & R1 & S1 & H1 & U1). apply wp_bind.
  eapply wp_mono; [apply IH; [apply K1|by etransitivity|done]|]. intros c' nl2 (K2 & R2 & S2 & H2 & U2). apply wp_ret.
  split_and!; [exact (keeps_chain _ _ _ K1 K2)|exact (reports_trans _ _ _ _ _ R1 R2)|by etransitivity| |].
  - intros q ip d Hh [e He]. apply H2; [apply H1; [done|]|by exists e]. exists e. by eapply lookup_weaken.
  - intros q ip d [->|Hq]%elem_of_cons Hh Hd Hu; [eapply U1; [done|exact Hh|by eapply lookup_weaken|done]|].
    eapply U2; [exact Hq|apply H1; [exact Hh|eexists; by eapply lookup_weaken]|done|done].
Qed.
End Dce.

Lemma live_held nl ip d : nl_inv nl -> s_impls nl !! ip = Some d -> exists pos, pos ∈ map fst (slots_of nl) /\ holds nl pos ip d.
Proof using Type.
  intros I Hd. pose proof (live_models_run nl I) as El. destruct (live_models_spec nl _ I El) as (H1 & H2 & _).
  destruct (H2 ip d Hd) as (m & Hm & <- & <-). destruct (H1 m Hm) as (Hh & Hg & _). exists (lv_pos m). split; [|done].
  apply list_elem_of_fmap. exists (lv_pos m, lv_base m). split; [done|]. apply slots_of_elem. split; [|done]. by destruct Hh as (? & ? & _).
Qed.

Lemma dce_keeps nl fan : nl_inv nl -> well_formed nl -> single_driver nl -> few_pins nl -> build_gate_opt_fanout nl = Some fan ->
  wp (optimize_dce prot) nl (fun c nl' => keeps nl nl' /\ reports c nl nl' /\ s_impls nl' ⊆ s_impls nl /\
    forall ip d, s_impls nl' !! ip = Some d -> unused prot fan d = true -> named d ["OUTPUT"; "INPUT"] = true).
Proof using Hchunk.
  intros I Hwf Hsd Hfew Hf. apply wp_fanout; [done|]. intros fan' Hf'. rewrite Hf in Hf'. injection Hf' as <-. unfold wp, mbind, St_bind, positions.
  eapply wp_mono; [apply (dce_all_keeps nl fan I Hwf Hsd Hfew Hf (map fst (slots_of nl)) nl I); [done|apply positions_good]|].
  intros c nl' (K & R & S & _ & U). split_and!; [done..|]. intros ip d Hd Hu. destruct (live_held nl ip d I) as (pos & Hp & Hh); [by eapply lookup_weaken|].
  by eapply U.
Qed.

(** ** Inverters behind gates *)

Lemma among_one name x : among name [x] = true -> name = x.
Proof using Type. unfold among. intros H. apply bool_decide_eq_true_1 in H. by apply list_elem_of_singleton in H. Qed.

Lemma wired3_sat σ (f : gate2 -> device) op x pa pb po a b o : (forall y, device_view (f y) = as_view f y (gate2_reaction op)) ->
  g2_pins x = [pa; pb; po] -> wired3 (f x) a b o = f (set_pins_gate2 x [repoint a pa; repoint b pb; repoint o po]) ->
  sat σ (wired3 (f x) a b o) <-> σ o = op (σ a) (σ b).
Proof using Type.
  intros Hv Hp ->. split.
  - eapply (sat_gate2 σ f); [done|reflexivity].
  - by eapply (sat_gate2_intro σ f).
Qed.

(** The complement gate: its free pins, and what it drives. *)
Lemma complement_gate name d : complement name = Some d ->
  (forall i, (i < 3)%nat -> exists pn, device_pins d !! i = Some pn /\ nodes pn = None) /\ unconnected d /\
  (forall a b o j p x, device_pins (wired3 d a b o) !! j = Some p -> nodes p = Some x -> (j = 0%nat /\ x = a) \/ (j = 1%nat /\ x = b) \/ (j = 2%nat /\ x = o)) /\
  forall σ a b o, sat σ (wired3 d a b o) <-> σ o = NOT.output_res (op_named name (σ a) (σ b)).
Proof using Type.
  clear Hchunk. unfold complement. intros H.
  repeat (case_match; [match goal with E : among _ [_] = true |- _ => apply among_one in E; subst name end; injection H as <-; split_and!;
    [intros [|[|[|i]]] Hi; [eexists; by split..|lia]|intros [|[|[|i]]] pn Hp; [by injection Hp as <-..|done]|
     intros a b o [|[|[|j]]] p x Hp Hx; try done; injection Hp as <-; injection Hx as <-; auto|
     intros σ a b o; etransitivity; [by eapply wired3_sat|]; cbn; by destruct (σ a), (σ b)]|]).
  done.
Qed.

Lemma classify_bin pos mb ip d g : classify {| lv_pos := pos; lv_base := mb; lv_ip := ip; lv_dev := d |} = Some g -> is_not g = false ->
  model_name d <> "NOT" /\ out_flag d 0 = false /\ out_flag d 1 = false.
Proof using Type.
  intros H Hn. destruct (classify_spec _ _ _ _ _ H) as (E & _). unfold is_not in Hn. rewrite E in Hn. apply bool_decide_eq_false_1 in Hn. split; [done|].
  unfold classify in H. cbn [lv_dev] in H. unfold out_flag. destruct d; try done;
    lazymatch type of H with context [generate_pin_view ?d] => change (generate_pin_view d) with (device_pins d) in H; destruct (device_pins d) as [|? [|? [|? [|? ?]]]] end; done.
Qed.

Lemma by_out_fold l : forall acc n g, fold_left (fun m g => match gr_out g with Some o => emplace m o g | None => m end) l acc !! n = Some g ->
  (g ∈ l /\ gr_out g = Some n) \/ acc !! n = Some g.
Proof using Type.
  clear Hchunk. induction l as [|h l IH]; intros acc n g; cbn [fold_left]; [by right|]. intros H. apply IH in H as [[Hin Ho]|H]; [left; split; [by right|done]|].
  destruct (gr_out h) as [o|] eqn:Eo; [|by right]. rewrite emplace_lookup in H. case_decide as E; [|by right]. subst o.
  destruct (acc !! n) as [x|]; simpl in H; injection H as <-; [by right|left; split; [by left|done]].
Qed.
Lemma by_out_spec l n g : by_out l !! n = Some g -> g ∈ l /\ gr_out g = Some n.
Proof using Type. intros H. apply by_out_fold in H as [H|H]; [done|]. by rewrite lookup_empty in H. Qed.

(** The kinds of gates and of their complements. *)
Definition opposites : list (string * string) :=
  [("AND", "NAND"); ("NAND", "AND"); ("OR", "NOR"); ("NOR", "OR"); ("XOR", "XNOR"); ("XNOR", "XOR"); ("IMP", "NIMP"); ("NIMP", "IMP")]%string.

(** The gate [ipg] of the kind [name] reads [a] and [b], and the inverter [ipn],
    which drives [o], is the only other model on its output, an unprotected
    node. *)
Definition paired (nl : netlist device) (ipn ipg : impl_ptr) (name : string) (a b o : node_ptr) : Prop :=
  exists mid dn dg, s_impls nl !! ipn = Some dn /\ model_name dn = "NOT"%string /\ nodes <$> device_pins dn = [Some mid; Some o] /\
    s_impls nl !! ipg = Some dg /\ model_name dg = name /\ name ∈ opposites.*1 /\ nodes <$> device_pins dg = [Some a; Some b; Some mid] /\
    Some mid ∉ prot /\
    forall ip d j, s_impls nl !! ip = Some d -> (nodes <$> device_pins d) !! j = Some (Some mid) -> (ip = ipn /\ j = 0%nat) \/ (ip = ipg /\ j = 2%nat).

(** No other model has an output pin on the node. *)
Definition sole_driver (nl : netlist device) (ip : impl_ptr) (o : node_ptr) : Prop := forall ip' d j,
  s_impls nl !! ip' = Some d -> (nodes <$> device_pins d) !! j = Some (Some o) -> out_flag d j = true -> ip' = ip.

(** The complement of a gate, from its inputs to the output of the inverter. *)
Definition is_complement (name : string) (a b o : node_ptr) (e : device) : Prop :=
  (name, model_name e) ∈ opposites /\ nodes <$> device_pins e = [Some a; Some b; Some o].

Lemma complement_opposite name d a b o : complement name = Some d -> is_complement name a b o (wired3 d a b o).
Proof using Type.
  clear Hchunk. unfold complement. intros H.
  repeat (case_match; [match goal with E : among _ [_] = true |- _ => apply among_one in E; subst name end; injection H as <-;
    (split; [by apply (bool_decide_eq_true_1 _)|reflexivity])|]). done.
Qed.
Lemma opposite_complement name : name ∈ opposites.*1 -> exists d, complement name = Some d.
Proof using Type. clear Hchunk. intros H. repeat (apply elem_of_cons in H as [->|H]; [by eexists|]). by apply elem_of_nil in H. Qed.
Lemma complement_kinds name d : complement name = Some d -> name ∈ opposites.*1.
Proof using Type. intros H. destruct (complement_opposite name d 0%N 0%N 0%N H) as [H' _]. by apply (list_elem_of_fmap_2 fst) in H'. Qed.
Lemma opposite_not_NOT name : name ∈ opposites.*1 -> name <> "NOT"%string.
Proof using Type. clear Hchunk. intros H ->. revert H. by apply (bool_decide_eq_false_1 _). Qed.

(** The record of a gate, from its pins. *)
Lemma classify_not pos mb ip d mid o : model_name d = "NOT"%string -> nodes <$> device_pins d = [Some mid; Some o] ->
  classify {| lv_pos := pos; lv_base := mb; lv_ip := ip; lv_dev := d |} = Some (mk_gate "NOT" pos (Some mid) None (Some o) (out_pin ip 1)).
Proof using Type.
  intros Hn Hp. unfold classify. cbn [lv_dev lv_pos lv_ip]. unfold named. rewrite Hn. change (generate_pin_view d) with (device_pins d). cbn.
  destruct (device_pins d) as [|p0 [|p1 [|? ?]]]; try done. simpl in Hp. by injection Hp as -> ->.
Qed.
Lemma classify_opposite pos mb ip d a b mid : model_name d ∈ opposites.*1 -> nodes <$> device_pins d = [Some a; Some b; Some mid] ->
  classify {| lv_pos := pos; lv_base := mb; lv_ip := ip; lv_dev := d |} = Some (mk_gate (model_name d) pos (Some a) (Some b) (Some mid) (out_pin ip 2)).
Proof using Type.
  intros Hn Hp. unfold classify. cbn [lv_dev lv_pos lv_ip]. change (generate_pin_view d) with (device_pins d).
  destruct (device_pins d) as [|p0 [|p1 [|p2 [|? ?]]]] eqn:Ed; try done. simpl in Hp. injection Hp as -> -> ->.
  unfold named. repeat (apply elem_of_cons in Hn as [Hn|Hn]; [by rewrite Hn|]). by apply elem_of_nil in Hn.
Qed.
Lemma gate_flags d a b mid j : model_name d ∈ opposites.*1 -> nodes <$> device_pins d = [Some a; Some b; Some mid] -> out_flag d j = (S j =? 3)%nat.
Proof using Type.
  clear Hchunk. intros Hn Hp. unfold out_flag. apply (f_equal length) in Hp. rewrite length_fmap in Hp. simpl in Hp. rewrite Hp.
  repeat (apply elem_of_cons in Hn as [Hn|Hn]; [by rewrite Hn|]). by apply elem_of_nil in Hn.
Qed.
Lemma pins_at d j x : (nodes <$> device_pins d) !! j = Some (Some x) <-> exists p, device_pins d !! j = Some p /\ nodes p = Some x.
Proof using Type. clear Hchunk. rewrite list_lookup_fmap. destruct (device_pins d !! j) as [p|]; simpl; (split; [intros [= H]|intros (p' & [= <-] & ->)]); [by exists p|done]. Qed.

(** ** Counting exactly *)

Lemma fan_domain (l : list live) : forall info, (forall q, is_Some (pin_out info !! q) -> exists m, m ∈ l /\ lv_ip m = q.1) -> forall l', (forall m, m ∈ l' -> m ∈ l) ->
  forall q, is_Some (pin_out (fold_left fan_model l' info) !! q) -> exists m, m ∈ l /\ lv_ip m = q.1.
Proof using Type.
  clear Hchunk. intros info Hi l'. revert info Hi. induction l' as [|m l' IH]; intros info Hi Hl; [done|]. cbn [fold_left]. apply IH; [|intros x Hx; apply Hl; by right].
  unfold fan_model. rewrite fan_pins_out. generalize (imap pair (generate_pin_view (lv_dev m))) as L. intros L.
  revert Hi. generalize (pin_out info) as po. induction L as [|x L IHL]; intros po Hi; [done|]. cbn [fold_left]. apply IHL. intros q. rewrite emplace_lookup.
  case_decide as E; [|apply Hi]. intros _. exists m. split; [apply Hl; by left|by subst q].
Qed.
Lemma fanout_domain nl fan q : nl_inv nl -> build_gate_opt_fanout nl = Some fan -> is_Some (pin_out fan !! q) -> is_Some (s_impls nl !! q.1).
Proof using Type.
  intros I. unfold build_gate_opt_fanout. destruct (live_models nl) as [l|] eqn:El; [|done]. intros [= <-] Hq.
  destruct (fan_domain l (mk_fanout ∅ ∅ ∅)) with (l' := l) (q := q) as (m & Hm & <-); [intros q' [? H]; simpl in H; by rewrite lookup_empty in H|done|done|].
  destruct (proj1 (live_models_spec nl l I El) m Hm) as [(_ & _ & ? & _ & _ & _ & Hd) _]. by exists (lv_dev m).
Qed.

Lemma NoDup_touches b l : NoDup (map lv_ip l) -> NoDup (concat (map (touches b) l)).
Proof using Type.
  clear Hchunk. induction l as [|m l IH]; cbn [map concat]; [constructor|]. intros [Hm Hl]%NoDup_cons. apply NoDup_app. split_and!; [|clear IH|by apply IH].
  - unfold touches, touch. assert (HN : NoDup (map fst (imap pair (device_pins (lv_dev m))))) by (rewrite fst_imap_pair; apply NoDup_seq).
    revert HN. generalize (imap pair (device_pins (lv_dev m))) as L. induction L as [|[i p] L IHL]; [constructor|]. cbn [map fst snd omap list_omap]. intros [Hi HN]%NoDup_cons. cbn [fst snd].
    destruct (Bool.eqb _ _); [|by apply IHL]. destruct (nodes p) as [n|]; [|by apply IHL]. simpl. apply NoDup_cons. split; [|by apply IHL].
    intros Hin. apply list_elem_of_omap in Hin as ([i' p'] & Hin & E). simpl in E. destruct (Bool.eqb _ _); [|done]. destruct (nodes p'); [|done]. simpl in E.
    injection E as E _. apply Nat2N.inj in E as ->. apply Hi. by apply (list_elem_of_fmap_2 fst) in Hin.
  - intros q Hq Hin. apply list_elem_of_omap in Hq as ([i p] & _ & E). simpl in E. destruct (Bool.eqb _ _); [|done]. destruct (nodes p); [|done]. injection E as <-.
    apply elem_of_concat in Hin as (L & Hin & HL). apply list_elem_of_fmap in HL as (m' & -> & Hm'). apply list_elem_of_omap in Hin as ([i' p'] & _ & E).
    simpl in E. destruct (Bool.eqb _ _); [|done]. destruct (nodes p'); [|done]. injection E as E _ _. apply Hm. rewrite <- E. by apply list_elem_of_fmap_2.
Qed.

(** One pin that touches a node gives a count of one. *)
Lemma counted_once b nl fan n ip d j : nl_inv nl -> few_pins nl -> build_gate_opt_fanout nl = Some fan ->
  s_impls nl !! ip = Some d -> (nodes <$> device_pins d) !! j = Some (Some n) -> out_flag d j = b ->
  (forall ip' d' j', s_impls nl !! ip' = Some d' -> (nodes <$> device_pins d') !! j' = Some (Some n) -> out_flag d' j' = b -> ip' = ip /\ j' = j) ->
  counts b fan !! n = Some 1.
Proof using Type.
  clear Hchunk. intros I Hfew Hf Hd Hj Hb Hu. pose proof (pins_at d j n) as Hp. apply Hp in Hj as (p & Hj & Hn). clear Hp.
  assert (E : default 0 (counts b fan !! n) = 1); [|destruct (counts b fan !! n); simpl in E; first [congruence|lia]].
  unfold build_gate_opt_fanout in Hf. destruct (live_models nl) as [l|] eqn:El; [|done]. injection Hf as <-.
  destruct (live_models_spec nl l I El) as (H1 & H2 & H3). specialize (Hfew l El). pose proof (length_touches b l) as Hlen.
  rewrite fan_count. assert (E0 : counts b (mk_fanout ∅ ∅ ∅) = ∅) by (by destruct b). rewrite E0.
  rewrite bump_total; rewrite lookup_empty; simpl; [|lia|rewrite length_map; lia].
  set (L := concat (map (touches b) l)) in *. pose proof (NoDup_touches b l H3) as HN. fold L in HN.
  assert (Hin : (out_pin ip j, n) ∈ L).
  { destruct (H2 ip d Hd) as (m & Hm & <- & <-). apply elem_of_concat. exists (touches b m).
    split; [|apply list_elem_of_fmap; by exists m]. apply list_elem_of_omap. exists (j, p). split; [apply elem_of_lookup_imap; by exists j, p|].
    simpl. by rewrite Hb, eqb_reflx, Hn. }
  assert (Hall : forall q, (q, n) ∈ L -> q = out_pin ip j).
  { intros q Hq. apply elem_of_concat in Hq as (T & Hq & HT). apply list_elem_of_fmap in HT as (m & -> & Hm). apply list_elem_of_omap in Hq as ([i p'] & Hi & E).
    apply elem_of_lookup_imap in Hi as (i' & p'' & [= -> ->] & Hi). simpl in E. destruct (Bool.eqb _ _) eqn:Eb; [|done]. apply eqb_prop in Eb. destruct (nodes p'') as [n'|] eqn:En; [|done].
    injection E as <- ->. destruct (H1 m Hm) as [(_ & _ & ? & _ & _ & _ & Hdm) _].
    destruct (Hu (lv_ip m) (lv_dev m) i' Hdm) as [-> ->]; [apply pins_at; by exists p''|done|done]. }
  clear -Hin Hall HN. unfold count_of. induction L as [|[q x] L IH]; [by apply elem_of_nil in Hin|]. apply NoDup_cons in HN as [Hq HN]. cbn.
  case_bool_decide as Ex.
  - subst x. rewrite (Hall q) in * by (by left). cbn. assert (E : List.filter (fun x => bool_decide (x = n)) (map snd L) = []).
    { destruct (List.filter _ _) as [|y K] eqn:E; [done|]. assert (Hy : In y (y :: K)) by (by left). rewrite <- E in Hy. apply filter_In in Hy as [Hy Hyn].
      apply bool_decide_eq_true_1 in Hyn. subst y. apply in_map_iff in Hy as ([q' ?] & Hq' & Hin'). simpl in Hq'. subst. apply list_elem_of_In in Hin'.
      rewrite (Hall q') in Hin' by (by right). done. }
    by rewrite E.
  - apply elem_of_cons in Hin as [Hin|Hin]; [congruence|]. apply IH; try done. intros q0 Hq0. apply Hall. by right.
Qed.

Lemma by_out_has l : forall acc n, (exists g, g ∈ l /\ gr_out g = Some n) \/ is_Some (acc !! n) ->
  is_Some (fold_left (fun m g => match gr_out g with Some o => emplace m o g | None => m end) l acc !! n).
Proof using Type.
  clear Hchunk. induction l as [|h l IH]; intros acc n; cbn [fold_left]; [by intros [(g & H & _)|?]; [apply elem_of_nil in H|]|]. intros H. apply IH.
  assert (Hk : is_Some (acc !! n) -> is_Some (match gr_out h with Some o => emplace acc o h | None => acc end !! n)).
  { intros Ha. destruct (gr_out h); [|done]. rewrite emplace_lookup. by case_decide. }
  destruct H as [(g & [->|Hg]%elem_of_cons & Ho)|H]; [|left; by exists g|right; by apply Hk].
  right. rewrite Ho, emplace_lookup, decide_True by done. done.
Qed.

Section Fuse.
Context (nl0 : netlist device) (fan : gate_opt_fanout).
Hypothesis (I0 : nl_inv nl0) (Hfew : few_pins nl0) (Hfan : build_gate_opt_fanout nl0 = Some fan).

(** A gate of the snapshot. *)
Definition snapped (g : gate_rec) (ip : impl_ptr) (d : device) : Prop :=
  exists mb, holds nl0 (gr_pos g) ip d /\ classify {| lv_pos := gr_pos g; lv_base := mb; lv_ip := ip; lv_dev := d |} = Some g.

(** The pins of a new gate are where a gate read, or an inverter drove. *)
Definition justified (d : device) : Prop := forall j p x, device_pins d !! j = Some p -> nodes p = Some x ->
  exists ip' d' j' p', s_impls nl0 !! ip' = Some d' /\ device_pins d' !! j' = Some p' /\ nodes p' = Some x /\
    out_flag d' j' = bool_decide (model_name d' = "NOT").

Record fuse_inv (nl : netlist device) : Prop := mk_fuse_inv {
  fi_nl : nl_inv nl;
  fi_fresh : (fresh_impl nl0 <= fresh_impl nl)%N;
  fi_nodes : dom (s_nodes nl) = dom (s_nodes nl0);
  fi_held : forall pos ip d, holds nl0 pos ip d -> s_impls nl !! ip = Some d -> holds nl pos ip d;
  fi_dev : forall ip d, s_impls nl !! ip = Some d -> s_impls nl0 !! ip = Some d \/ (s_impls nl0 !! ip = None /\ justified d)
}.

(** A unique driver of the snapshot is still there. *)
Lemma driver_alive nl n nd ip d i : fuse_inv nl -> s_impls nl0 !! ip = Some d -> s_nodes nl !! n = Some nd ->
  has_unique_driver_pin (pin_out fan) (pins nd) (out_pin ip i) = true -> s_impls nl !! ip = Some d.
Proof using Type.
  clear Hchunk. intros F Hd Hn Hu. unfold has_unique_driver_pin in Hu. apply andb_true_iff in Hu as [Ha Hl]. apply Nat.eqb_eq in Hl.
  destruct (List.filter _ _) as [|q [|? ?]] eqn:E; try done. assert (Hq : In q [q]) by (by left). rewrite <- E in Hq. apply filter_In in Hq as [Hq _].
  simpl in Ha. apply andb_true_iff in Ha as [Ha _]. apply bool_decide_eq_true_1 in Ha. subst q. apply list_elem_of_In in Hq.
  destruct (pin_on chunk_models nl n nd _ (fi_nl _ F) Hn Hq) as (d1 & pn & Hd1 & _). simpl in Hd1. rewrite Hd1.
  destruct (fi_dev _ F ip d1 Hd1) as [E1|[E1 _]]; congruence.
Qed.

(** The pins on a node between a gate and the inverter that alone reads it. *)
Lemma link_pins nl mid md ipn dn pn ipg dg i pg ip d j p : fuse_inv nl -> s_nodes nl !! mid = Some md -> sole_link fan mid = true ->
  has_unique_driver_pin (pin_out fan) (pins md) (out_pin ipg i) = true ->
  s_impls nl0 !! ipn = Some dn -> model_name dn = "NOT" -> device_pins dn !! 0%nat = Some pn -> nodes pn = Some mid -> out_flag dn 0 = false ->
  s_impls nl0 !! ipg = Some dg -> model_name dg <> "NOT" -> device_pins dg !! i = Some pg -> nodes pg = Some mid -> out_flag dg i = true ->
  s_impls nl !! ip = Some d -> device_pins d !! j = Some p -> nodes p = Some mid -> (ip = ipg /\ j = i) \/ (ip = ipn /\ j = 0%nat).
Proof using I0 Hfew Hfan.
  clear Hchunk. intros F Hm Hs Hu Hn Nn Pn On Fn Hg Ng Pg Og Fg Hd Hp Hpm. unfold sole_link in Hs. apply andb_true_iff in Hs as [Hdc Hcc].
  apply bool_decide_eq_true_1 in Hdc, Hcc.
  destruct (fi_dev _ F ip d Hd) as [H0|[_ Hj]].
  - destruct (out_flag d j) eqn:Hf.
    + left. by apply (touched_once true nl0 fan mid ip d j p ipg dg i pg).
    + right. by apply (touched_once false nl0 fan mid ip d j p ipn dn 0 pn).
  - exfalso. destruct (Hj j p mid Hp Hpm) as (ip' & d' & j' & p' & Hd' & Hp' & Hpm' & Hf). case_bool_decide as Hname.
    + destruct (touched_once true nl0 fan mid ip' d' j' p' ipg dg i pg) as [-> _]; try done. congruence.
    + destruct (touched_once false nl0 fan mid ip' d' j' p' ipn dn 0 pn) as [-> _]; try done. congruence.
Qed.

Lemma snapped_in g ip d i p n : snapped g ip d -> device_pins d !! i = Some p -> nodes p = Some n -> s_impls nl0 !! ip = Some d /\ is_Some (s_nodes nl0 !! n).
Proof using I0.
  clear Hchunk. intros (mb & (_ & _ & ? & _ & _ & _ & Hd) & _) Hp Hn. split; [done|]. destruct (pin_node_there nl0 ip d i p n I0 Hd Hp Hn) as (nd & ? & _). by exists nd.
Qed.

(** ** What is fused *)

(** The objects of the snapshot, and the complements of linked pairs. *)
Record fuse_log (nl : netlist device) : Prop := mk_fuse_log {
  fl_new : forall ip e, s_impls nl !! ip = Some e -> s_impls nl0 !! ip = Some e \/
    (s_impls nl0 !! ip = None /\ exists ipn ipg name a b o, paired nl0 ipn ipg name a b o /\ is_complement name a b o e);
  fl_old : forall ip d, s_impls nl0 !! ip = Some d -> s_impls nl !! ip = Some d \/
    exists ipn ipg name a b o, paired nl0 ipn ipg name a b o /\ (ip = ipn \/ ip = ipg)
}.

(** One step of the pass at the inverter [ipn]: nothing, or a linked pair gives
    way to the complement. *)
Definition fuse_happens (ipn : impl_ptr) (nl nl' : netlist device) : Prop :=
  exists ipg name d a b o, paired nl0 ipn ipg name a b o /\ complement name = Some d /\ s_impls nl0 !! fresh_impl nl = None /\
    s_impls nl' = <[fresh_impl nl := wired3 d a b o]> (delete ipg (delete ipn (s_impls nl))).
Definition fuse_step (ipn : impl_ptr) (nl nl' : netlist device) : Prop := nl' = nl \/ fuse_happens ipn nl nl'.

Lemma fuse_step_log ipn nl nl' : fuse_log nl -> fuse_step ipn nl nl' -> fuse_log nl'.
Proof using Type.
  clear Hchunk. intros [L1 L2] [->|(ipg & name & d & a & b & o & HL & Hc & Hfr & Si)]; [done|]. split.
  - intros ip e. rewrite Si. intros [[<- <-]|[Hne [N1 [N2 Hd]%lookup_delete_Some]%lookup_delete_Some]]%lookup_insert_Some; [|by apply L1].
    right. split; [done|]. exists ipn, ipg, name, a, b, o. split; [done|]. by apply complement_opposite.
  - intros ip d0 Hd0. destruct (L2 ip d0 Hd0) as [Hd|?]; [|by right]. destruct (decide (ip = ipn)) as [->|N1]; [right; naive_solver|].
    destruct (decide (ip = ipg)) as [->|N2]; [right; naive_solver|]. left. rewrite Si, lookup_insert_ne by congruence. by rewrite !lookup_delete_ne.
Qed.

(** The two models of a linked pair determine each other. *)
Lemma paired_same ipn ipg name a b o ipg' name' a' b' o' : paired nl0 ipn ipg name a b o -> paired nl0 ipn ipg' name' a' b' o' ->
  ipg = ipg' /\ name = name' /\ a = a' /\ b = b' /\ o = o'.
Proof using Type.
  clear Hchunk. intros (mid & dn & dg & E1 & N1 & P1 & E2 & N2 & K2 & P2 & _ & U) (mid' & dn' & dg' & E1' & N1' & P1' & E2' & N2' & K2' & P2' & _ & U').
  rewrite E1 in E1'. injection E1' as <-. rewrite P1 in P1'. injection P1' as <- <-.
  destruct (U ipg' dg' 2%nat E2' ltac:(by rewrite P2')) as [[_ ?]|[-> _]]; [done|]. rewrite E2 in E2'. injection E2' as <-.
  rewrite P2 in P2'. injection P2' as <- <-. by subst.
Qed.
Lemma paired_apart ipn ipg name a b o ipn' ipg' name' a' b' o' : paired nl0 ipn ipg name a b o -> paired nl0 ipn' ipg' name' a' b' o' -> ipn <> ipn' ->
  ipn <> ipg' /\ ipg <> ipn' /\ ipg <> ipg'.
Proof using Type.
  clear Hchunk. intros (mid & dn & dg & E1 & N1 & P1 & E2 & N2 & K2 & P2 & _ & U) (mid' & dn' & dg' & E1' & N1' & P1' & E2' & N2' & K2' & P2' & _ & U') Hne.
  assert (name <> "NOT"%string) by (by apply opposite_not_NOT). assert (name' <> "NOT"%string) by (by apply opposite_not_NOT).
  split_and!; intros <-; [congruence..|]. rewrite E2 in E2'. injection E2' as <-. rewrite P2 in P2'. injection P2' as <- <- <-.
  destruct (U ipn' dn' 0%nat E1' ltac:(by rewrite P1')) as [[? _]|[_ ?]]; [congruence|done].
Qed.

(** A linked pair is in the netlist, or its complement is. *)
Definition both_there (ipn ipg : impl_ptr) (nl : netlist device) : Prop := s_impls nl !! ipn = s_impls nl0 !! ipn /\ s_impls nl !! ipg = s_impls nl0 !! ipg.
Definition fused (ipn ipg : impl_ptr) (name : string) (a b o : node_ptr) (nl : netlist device) : Prop :=
  s_impls nl !! ipn = None /\ s_impls nl !! ipg = None /\
  exists ip e, s_impls nl0 !! ip = None /\ s_impls nl !! ip = Some e /\ is_complement name a b o e.

Lemma fuse_step_fused ipn ipg name a b o ip nl nl' : paired nl0 ipn ipg name a b o -> fuse_step ip nl nl' ->
  fused ipn ipg name a b o nl -> s_impls nl !! fresh_impl nl = None -> fused ipn ipg name a b o nl'.
Proof using Type.
  clear Hchunk. intros HL [->|(ipg' & name' & d & a' & b' & o' & HL' & Hc & Hfr & Si)] HF Hf; [done|].
  destruct HF as (F1 & F2 & ipc & e & F3 & F4 & F5).
  pose proof HL as (mid & dn & dg & E1 & _ & _ & E2 & _). pose proof HL' as (mid' & dn' & dg' & E1' & _ & _ & E2' & _).
  unfold fused. rewrite Si. rewrite !(lookup_insert_ne _ (fresh_impl nl)) by congruence.
  split_and!; [by rewrite !lookup_delete_None; auto..|]. exists ipc, e. split_and!; [done| |done].
  rewrite lookup_insert_ne by congruence. by rewrite !lookup_delete_ne by congruence.
Qed.
Lemma fuse_step_there ipn ipg name a b o ip nl nl' : paired nl0 ipn ipg name a b o -> fuse_step ip nl nl' -> both_there ipn ipg nl ->
  s_impls nl !! fresh_impl nl = None -> both_there ipn ipg nl' \/ fused ipn ipg name a b o nl'.
Proof using Type.
  clear Hchunk. intros HL [->|(ipg' & name' & d & a' & b' & o' & HL' & Hc & Hfr & Si)] [T1 T2] Hf; [by left|].
  pose proof HL as (mid & dn & dg & E1 & _ & _ & E2 & _). rewrite E1 in T1. rewrite E2 in T2.
  destruct (decide (ipn = ip)) as [->|Hne].
  - right. destruct (paired_same _ _ _ _ _ _ _ _ _ _ _ HL HL') as (<- & <- & <- & <- & <-). unfold fused. rewrite Si.
    rewrite !(lookup_insert_ne _ (fresh_impl nl) ip), (lookup_insert_ne _ (fresh_impl nl) ipg) by congruence.
    split_and!; [apply lookup_delete_None; right; by apply lookup_delete_eq|apply lookup_delete_eq|].
    exists (fresh_impl nl), (wired3 d a b o). split_and!; [done|by rewrite lookup_insert_eq|by apply complement_opposite].
  - left. destruct (paired_apart _ _ _ _ _ _ _ _ _ _ _ _ HL HL' Hne) as (A1 & A2 & A3). unfold both_there. rewrite Si, E1, E2.
    rewrite !(lookup_insert_ne _ (fresh_impl nl)) by congruence. by rewrite !lookup_delete_ne by congruence.
Qed.

(** The output pin of a model is the unique driver of a node, as long as the
    model is there and drives it alone in the snapshot. *)
Lemma lone_driver nl n nd ip d i : fuse_inv nl -> s_nodes nl !! n = Some nd -> s_impls nl0 !! ip = Some d -> s_impls nl !! ip = Some d ->
  (nodes <$> device_pins d) !! i = Some (Some n) -> out_flag d i = true ->
  (forall ip' d' j, s_impls nl0 !! ip' = Some d' -> (nodes <$> device_pins d') !! j = Some (Some n) -> out_flag d' j = true -> ip' = ip /\ j = i) ->
  has_unique_driver_pin (pin_out fan) (pins nd) (out_pin ip i) = true.
Proof using I0 Hfan.
  clear Hchunk. intros F Hn Hd0 Hd Hp Hf Hu. apply pins_at in Hp as (p & Hp & Hpn). unfold has_unique_driver_pin.
  assert (Hflag : pin_out fan !! out_pin ip i = Some true).
  { rewrite (fanout_flags nl0 fan I0 Hfan ip d i Hd0); [by rewrite Hf|by eapply lookup_lt_Some]. }
  set (L := List.filter (is_out_in (pin_out fan)) (pins nd)).
  assert (Hin : out_pin ip i ∈ L).
  { apply list_elem_of_In, filter_In. split; [apply list_elem_of_In; by apply (on_node chunk_models nl n nd ip d i p (fi_nl _ F))|]. unfold is_out_in. by rewrite Hflag. }
  assert (HN : NoDup L) by (apply NoDup_ListNoDup, List.NoDup_filter, NoDup_ListNoDup, osorted_NoDup; by eapply (fi_nl _ F)).
  assert (Hall : forall q, q ∈ L -> q = out_pin ip i).
  { intros [ip' j] Hq. apply list_elem_of_In, filter_In in Hq as [Hq Hfl]. apply list_elem_of_In in Hq. destruct (pin_on chunk_models nl n nd _ (fi_nl _ F) Hn Hq) as (d' & pn & Hd' & Hpn' & Hon).
    simpl in *. unfold is_out_in in Hfl. destruct (pin_out fan !! (ip', j)) as [v|] eqn:Ev; [|done]. simpl in Hfl. subst v.
    destruct (fanout_domain nl0 fan (ip', j) I0 Hfan ltac:(by eexists)) as [d0 Hd0']. simpl in Hd0'. destruct (fi_dev _ F ip' d' Hd') as [E|[E _]]; [|congruence].
    assert (Eo : out_flag d' (N.to_nat j) = true).
    { pose proof (fanout_flags nl0 fan I0 Hfan ip' d' (N.to_nat j) E ltac:(by eapply lookup_lt_Some)) as Ef. unfold out_pin in Ef. rewrite N2Nat.id in Ef. congruence. }
    destruct (Hu ip' d' (N.to_nat j) E ltac:(apply pins_at; by exists pn) Eo) as [-> <-]. unfold out_pin. by rewrite N2Nat.id. }
  destruct L as [|q [|q' L']]; [by apply elem_of_nil in Hin| |].
  - rewrite (Hall q) by (by left). simpl. by rewrite bool_decide_eq_true_2.
  - exfalso. rewrite (Hall q), (Hall q') in HN by (repeat first [by left|right]). apply NoDup_cons in HN as [HN _]. apply HN. by left.
Qed.

Lemma classify_pins pos mb ip d g : classify {| lv_pos := pos; lv_base := mb; lv_ip := ip; lv_dev := d |} = Some g ->
  if is_not g then nodes <$> device_pins d = [gr_in0 g; gr_out g] /\ gr_out_pin g = out_pin ip 1
  else nodes <$> device_pins d = [gr_in0 g; gr_in1 g; gr_out g] /\ gr_out_pin g = out_pin ip 2.
Proof using Type.
  unfold classify. cbn [lv_dev lv_pos lv_ip]. change (generate_pin_view d) with (device_pins d). destruct (named d ["NOT"]) eqn:H1.
  - unfold named in H1. apply among_one in H1. destruct (device_pins d) as [|pa [|po [|? ?]]]; try done. intros [= <-]. unfold is_not. simpl. by rewrite bool_decide_eq_true_2.
  - intros H. destruct (named d ["AND"; "OR"; "XOR"; "XNOR"; "NAND"; "NOR"; "IMP"; "NIMP"]); [|discriminate H]. revert H. destruct (device_pins d) as [|pa [|pb [|po [|? ?]]]]; try done. intros [= <-]. unfold is_not. simpl.
    rewrite bool_decide_eq_false_2; [done|]. intros E. unfold named in H1. by rewrite E in H1.
Qed.

(** What the pass has found about a pair makes it a linked one. *)
Lemma link_paired n ipn dn g ipg dg mid o a b d : snapped n ipn dn -> is_not n = true -> snapped g ipg dg -> is_not g = false ->
  gr_in0 n = Some mid -> gr_out n = Some o -> gr_out g = Some mid -> gr_in0 g = Some a -> gr_in1 g = Some b -> complement (gr_name g) = Some d ->
  is_protected prot mid = false -> sole_link fan mid = true -> paired nl0 ipn ipg (gr_name g) a b o.
Proof using I0 Hfew Hfan.
  clear Hchunk. intros (mbn & (_ & _ & ? & _ & _ & _ & Hn) & Cn) Nn (mbg & (_ & _ & ? & _ & _ & _ & Hg) & Cg) Ng En Eo Eg Ea Eb Hc Hp Hs.
  pose proof (classify_pins _ _ _ _ _ Cn) as Pn. rewrite Nn, En, Eo in Pn. destruct Pn as [Pn _]. pose proof (classify_pins _ _ _ _ _ Cg) as Pg. rewrite Ng, Ea, Eb, Eg in Pg. destruct Pg as [Pg _].
  destruct (classify_spec _ _ _ _ _ Cn) as (Mn & _). destruct (classify_spec _ _ _ _ _ Cg) as (Mg & _). apply bool_decide_eq_true_1 in Nn. rewrite Mn in Nn.
  pose proof (complement_kinds _ _ Hc) as Hk. apply andb_true_iff in Hs as [Hdc Hcc]. apply bool_decide_eq_true_1 in Hdc, Hcc.
  exists mid, dn, dg. split_and!; [done..|by apply bool_decide_eq_false_1 in Hp|]. intros ip e j He Hj. apply pins_at in Hj as (p & Hj & Hpm).
  assert (Pn0 : exists p0, device_pins dn !! 0%nat = Some p0 /\ nodes p0 = Some mid) by (apply pins_at; by rewrite Pn). destruct Pn0 as (p0 & Hp0 & Hm0).
  assert (Pg2 : exists p2, device_pins dg !! 2%nat = Some p2 /\ nodes p2 = Some mid) by (apply pins_at; by rewrite Pg). destruct Pg2 as (p2 & Hp2 & Hm2).
  destruct (out_flag e j) eqn:Hf.
  - right. apply (touched_once true nl0 fan mid ip e j p ipg dg 2 p2); try done. rewrite (gate_flags dg a b mid) by (by rewrite <- ?Mg). done.
  - left. apply (touched_once false nl0 fan mid ip e j p ipn dn 0 p0); try done. unfold out_flag. by rewrite Nn.
Qed.

(** All tests of the pass succeed at the inverter of a linked pair that is still
    there, when the inverter alone drives its output. *)
Lemma fuse_ready (gates : gmap node_ptr gate_rec) nl n ipn dn ipg name a b o :
  (forall m g, gates !! m = Some g -> gr_out g = Some m /\ is_not g = false /\ exists ipg dg, snapped g ipg dg) ->
  (forall ip d a b x, s_impls nl0 !! ip = Some d -> model_name d ∈ opposites.*1 -> nodes <$> device_pins d = [Some a; Some b; Some x] -> is_Some (gates !! x)) ->
  fuse_inv nl -> snapped n ipn dn -> paired nl0 ipn ipg name a b o -> sole_driver nl0 ipn o -> both_there ipn ipg nl ->
  exists mid g, gr_in0 n = Some mid /\ gr_out n = Some o /\ is_protected prot mid = false /\ gates !! mid = Some g /\ gr_in0 g = Some a /\ gr_in1 g = Some b /\
    is_Some (complement (gr_name g)) /\ sole_link fan mid = true /\
    (forall md, s_nodes nl !! mid = Some md -> has_unique_driver_pin (pin_out fan) (pins md) (gr_out_pin g) = true) /\
    (forall od, s_nodes nl !! o = Some od -> has_unique_driver_pin (pin_out fan) (pins od) (gr_out_pin n) = true).
Proof using I0 Hfew Hfan.
  clear Hchunk. intros HG HG2 F (mbn & (_ & _ & ? & _ & _ & _ & Hn) & Cn) (mid & dn' & dg & E1 & N1 & P1 & E2 & N2 & K2 & P2 & Hpr & U) Hsd [T1 T2].
  rewrite E1 in Hn. injection Hn as ->. rewrite E1 in T1. rewrite E2 in T2. rewrite <- N2 in K2.
  destruct (classify_spec _ _ _ _ _ Cn) as (Mn & _). pose proof (classify_pins _ _ _ _ _ Cn) as Pn.
  assert (Nn : is_not n = true) by (unfold is_not; apply bool_decide_eq_true_2; congruence). rewrite Nn, P1 in Pn. destruct Pn as [[= Ein Eo] Epn].
  destruct (HG2 ipg dg a b mid E2 K2 P2) as [g Hg]. destruct (HG mid g Hg) as (Eg & Ng & ipg' & dg' & mbg & (_ & _ & ? & _ & _ & _ & Hg0) & Cg).
  pose proof (classify_pins _ _ _ _ _ Cg) as Pg. rewrite Ng in Pg. destruct Pg as [Pg Epg].
  destruct (U ipg' dg' 2%nat Hg0 ltac:(by rewrite Pg, Eg)) as [[_ ?]|[-> _]]; [done|]. rewrite E2 in Hg0. injection Hg0 as <-.
  rewrite P2 in Pg. injection Pg as Ea Eb _. destruct (classify_spec _ _ _ _ _ Cg) as (Mg & _).
  assert (Fn : forall j, out_flag dn j = (j =? 1)%nat) by (intros j; unfold out_flag; by rewrite N1).
  pose proof (fun j => gate_flags dg a b mid j K2 P2) as Fg.
  exists mid, g. split_and!; [done..|by apply bool_decide_eq_false_2|done|done|done| | | |].
  - rewrite Mg. destruct (opposite_complement _ K2) as [d ->]. done.
  - unfold sole_link. apply andb_true_iff. split; apply bool_decide_eq_true_2.
    + apply (counted_once true nl0 fan mid ipg dg 2 I0 Hfew Hfan E2); [by rewrite P2|by rewrite Fg|]. intros ip' d' j' H1 H2 H3.
      destruct (U ip' d' j' H1 H2) as [[-> ->]|?]; [|done]. rewrite E1 in H1. injection H1 as <-. by rewrite Fn in H3.
    + apply (counted_once false nl0 fan mid ipn dn 0 I0 Hfew Hfan E1); [by rewrite P1|by rewrite Fn|]. intros ip' d' j' H1 H2 H3.
      destruct (U ip' d' j' H1 H2) as [?|[-> ->]]; [done|]. rewrite E2 in H1. injection H1 as <-. by rewrite Fg in H3.
  - intros md Hmd. rewrite Epg. apply (lone_driver nl mid md ipg dg 2 F Hmd E2 T2); [by rewrite P2|by rewrite Fg|]. intros ip' d' j' H1 H2 H3.
    destruct (U ip' d' j' H1 H2) as [[-> ->]|?]; [|done]. rewrite E1 in H1. injection H1 as <-. by rewrite Fn in H3.
  - intros od Hod. rewrite Epn. apply (lone_driver nl o od ipn dn 1 F Hod E1 T1); [by rewrite P1|by rewrite Fn|]. intros ip' d' j' H1 H2 H3.
    pose proof (Hsd ip' d' j' H1 H2 H3) as ->. rewrite E1 in H1. injection H1 as <-. rewrite Fn in H3. apply Nat.eqb_eq in H3. done.
Qed.

Definition fuse_post (nl : netlist device) (c : bool) (nl' : netlist device) : Prop := fuse_inv nl' /\ behaves prot nl nl' /\ reports c nl nl'.

Lemma fused_inv nl nl' ipn ipg e : fuse_inv nl -> nl_inv nl' -> dom (s_nodes nl') = dom (s_nodes nl) ->
  s_impls nl' = <[fresh_impl nl := e]> (delete ipg (delete ipn (s_impls nl))) -> fresh_impl nl' = (fresh_impl nl + 1)%N ->
  (forall pos ip d, ip <> fresh_impl nl -> ip <> ipn -> ip <> ipg -> holds nl pos ip d -> holds nl' pos ip d) -> justified e -> fuse_inv nl'.
Proof using I0.
  clear Hchunk. intros F I' Dn Si Ff Hold He. assert (Hfr0 : s_impls nl0 !! fresh_impl nl = None) by (apply (ni_fresh_impl _ _ I0); apply F).
  split; [done|pose proof (fi_fresh _ F); lia|rewrite Dn; apply F| |].
  - intros pos ip d Hh. rewrite Si. intros [[<- _]|[Hne [N1 [N2 Hd]%lookup_delete_Some]%lookup_delete_Some]]%lookup_insert_Some.
    + destruct Hh as (_ & _ & mb & _ & _ & _ & Hd). congruence.
    + apply Hold; [done..|]. by apply (fi_held _ F).
  - intros ip d. rewrite Si. intros [[<- <-]|[Hne [N1 [N2 Hd]%lookup_delete_Some]%lookup_delete_Some]]%lookup_insert_Some; [by right|by apply (fi_dev _ F)].
Qed.

(** The pair that is replaced. *)
Lemma fuse_pair_keeps nl n ipn dn g ipg dg mid md o od a b d : fuse_inv nl -> snapped n ipn dn -> is_not n = true -> snapped g ipg dg -> is_not g = false ->
  gr_in0 n = Some mid -> gr_out n = Some o -> gr_out g = Some mid -> gr_in0 g = Some a -> gr_in1 g = Some b -> complement (gr_name g) = Some d ->
  is_protected prot mid = false -> sole_link fan mid = true -> s_nodes nl !! mid = Some md -> s_nodes nl !! o = Some od ->
  has_unique_driver_pin (pin_out fan) (pins md) (gr_out_pin g) = true -> has_unique_driver_pin (pin_out fan) (pins od) (gr_out_pin n) = true ->
  wp (fuse_pair chunk_models d a b o n g) nl (fun c nl' => fuse_post nl c nl' /\ fuse_happens ipn nl nl').
Proof using Hchunk I0 Hfew Hfan.
  intros F Sn Nn Sg Ng En Eo Eg Ea Eb Hcomp Hpr Hs Hmd Hod Hu1 Hu2. pose proof Sn as (mbn & Hhn & Cn). pose proof Sg as (mbg & Hhg & Cg).
  pose proof Hhn as (_ & _ & mb2 & _ & _ & _ & Hn0). pose proof Hhg as (_ & _ & mb3 & _ & _ & _ & Hg0).
  destruct (classify_spec _ _ _ _ _ Cn) as (Mn & _ & io & po & Ein & Hpo & Hon & Hfo & (pn & Hpn & Hmn) & _). rewrite Eo in Hon. rewrite En in Hmn. rewrite Ein in Hu2.
  destruct (classify_spec _ _ _ _ _ Cg) as (_ & _ & ig & pg & Eig & Hpg & Hog & Hfg & (pa & Hpa & Hna) & Hb). rewrite Eg in Hog. rewrite Ea in Hna. rewrite Eig in Hu1.
  destruct (Hb Ng) as (pb & Hpb & Hnb). rewrite Eb in Hnb. destruct (classify_bin _ _ _ _ _ Cg Ng) as (Mg & Fa & Fb).
  assert (Mn' : model_name dn = "NOT") by (rewrite <- Mn; by apply bool_decide_eq_true_1 in Nn).
  assert (Fn : out_flag dn 0 = false) by (unfold out_flag; by rewrite Mn').
  pose proof (driver_alive nl mid md ipg dg ig F Hg0 Hmd Hu1) as Hg. pose proof (driver_alive nl o od ipn dn io F Hn0 Hod Hu2) as Hn.
  pose proof (fun ip d j p => link_pins nl mid md ipn dn pn ipg dg ig pg ip d j p F Hmd Hs Hu1 Hn0 Mn' Hpn Hmn Fn Hg0 Mg Hpg Hog Hfg) as Hlink.
  assert (Hne : ipn <> ipg) by congruence.
  assert (Hin : forall x, is_Some (s_nodes nl0 !! x) -> is_Some (s_nodes nl !! x)) by (intros x Hx; apply elem_of_dom; rewrite (fi_nodes _ F); by apply elem_of_dom).
  destruct (complement_gate _ _ Hcomp) as (D1 & D2 & D3 & D4).
  destruct (fuse_pair_run chunk_models Hchunk d a b o n g nl ipn dn ipg dg (fi_nl _ F) D1 D2) as (nl' & E & I' & Dn & Si & Ff & Hold).
  { by apply Hin, (snapped_in g ipg dg 0 pa). }
  { by apply Hin, (snapped_in g ipg dg 1 pb). }
  { by exists od. }
  { by apply (fi_held _ F). }
  { by apply (fi_held _ F). }
  { done. }
  cbn zeta in *. set (ip := fresh_impl nl) in *. unfold wp. rewrite E.
  assert (Hfr0 : s_impls nl0 !! ip = None) by (apply (ni_fresh_impl _ _ I0); apply F).
  assert (Hfr : s_impls nl !! ip = None) by (apply (ni_fresh_impl _ _ (fi_nl _ F)), N.le_refl).
  split; [|exists ipg, (gr_name g), d, a, b, o; split_and!; [by apply (link_paired n ipn dn g ipg dg mid o a b d)|done|done|done]].
  split_and!.
  - apply (fused_inv nl nl' ipn ipg (wired3 d a b o)); try done. intros j p x Hj Hx. destruct (D3 a b o j p x Hj Hx) as [[_ ->]|[[_ ->]|[_ ->]]].
    + exists ipg, dg, 0%nat, pa. by rewrite bool_decide_eq_false_2.
    + exists ipg, dg, 1%nat, pb. by rewrite bool_decide_eq_false_2.
    + exists ipn, dn, io, po. by rewrite bool_decide_eq_true_2.
  - assert (Kn : key_of n = Some (gr_name n, mid, None)) by (unfold key_of; by rewrite Nn, En).
    assert (Kg : key_of g = Some (canon_key (gr_name g) a b)) by (unfold key_of; by rewrite Ng, Ea, Eb).
    apply (fuse_behaves prot nl nl' ip (wired3 d a b o) ipn dn ipg dg mid o (fun σ => op_named (gr_name g) (σ a) (σ b))); try done.
    + intros ->. destruct (Hlink ipn dn io po Hn Hpo Hon) as [[? _]|[_ ->]]; congruence.
    + intros σ. rewrite (classify_sat σ _ _ _ _ _ _ _ Cg Kg Eg). by rewrite canon_value.
    + intros σ. by rewrite (classify_sat σ _ _ _ _ _ _ _ Cn Kn Eo).
    + intros σ v. unfold upd. rewrite !decide_False; [done| |].
      * intros ->. destruct (Hlink ipg dg 1%nat pb Hg Hpb Hnb) as [[_ ?]|[? _]]; congruence.
      * intros ->. destruct (Hlink ipg dg 0%nat pa Hg Hpa Hna) as [[_ ?]|[? _]]; congruence.
    + intros ip' d' p N1 N2 Hd' Hp Hpm. apply list_elem_of_lookup in Hp as [j Hj]. by destruct (Hlink ip' d' j p Hd' Hj Hpm) as [[? _]|[? _]].
  - simpl. rewrite Si, map_size_insert_None; [|by rewrite !lookup_delete_ne by congruence].
    pose proof (size_delete_lt (s_impls nl) ipn dn Hn). pose proof (size_delete_lt (delete ipn (s_impls nl)) ipg dg ltac:(by rewrite lookup_delete_ne)). lia.
Qed.

Section Loop.
Context (gates : gmap node_ptr gate_rec).
Hypothesis (HG : forall m g, gates !! m = Some g -> gr_out g = Some m /\ is_not g = false /\ exists ipg dg, snapped g ipg dg).
Hypothesis (HG2 : forall ip d a b x, s_impls nl0 !! ip = Some d -> model_name d ∈ opposites.*1 -> nodes <$> device_pins d = [Some a; Some b; Some x] -> is_Some (gates !! x)).

(** A test that fails rules a pair out. *)
Ltac no_pair Hno Hready := apply Hno; intros ? ? ? ? ? K1 K2 K3;
  destruct (Hready _ _ _ _ _ K1 K2 K3) as (mid' & g' & R1 & R2 & R3 & R4 & R5 & R6 & [d' R7] & R8 & R9 & R10); simplify_eq; try congruence.

Lemma fuse_at_keeps nl n ipn dn : fuse_inv nl -> snapped n ipn dn -> is_not n = true ->
  wp (fuse_at chunk_models prot fan gates n) nl (fun c nl' => fuse_post nl c nl' /\ fuse_step ipn nl nl' /\
    forall ipg name a b o, paired nl0 ipn ipg name a b o -> sole_driver nl0 ipn o -> both_there ipn ipg nl -> fuse_happens ipn nl nl').
Proof using Hchunk I0 Hfew Hfan HG HG2.
  intros F Sn Nn. pose proof (fun ipg name a b o => fuse_ready gates nl n ipn dn ipg name a b o HG HG2 F Sn) as Hready.
  assert (Hno : (forall ipg name a b o, paired nl0 ipn ipg name a b o -> sole_driver nl0 ipn o -> both_there ipn ipg nl -> False) ->
    fuse_post nl false nl /\ fuse_step ipn nl nl /\ forall ipg name a b o, paired nl0 ipn ipg name a b o -> sole_driver nl0 ipn o -> both_there ipn ipg nl -> fuse_happens ipn nl nl).
  { intros H. split; [done|]. split; [by left|]. intros ipg name a b o H1 H2 H3. by destruct (H ipg name a b o H1 H2 H3). }
  unfold fuse_at.
  destruct (gr_in0 n) as [mid|] eqn:En; [|by no_pair Hno Hready]. destruct (gr_out n) as [o|] eqn:Eo; [|by no_pair Hno Hready].
  destruct (is_protected prot mid) eqn:Hpr; [by no_pair Hno Hready|]. destruct (gates !! mid) as [g|] eqn:Hg; [|by no_pair Hno Hready].
  destruct (HG mid g Hg) as (Eg & Ng & ipg & dg & Sg). destruct (gr_in0 g) as [a|] eqn:Ea; [|by no_pair Hno Hready].
  destruct (gr_in1 g) as [b|] eqn:Eb; [|by no_pair Hno Hready]. destruct (complement (gr_name g)) as [d|] eqn:Hc; [|by no_pair Hno Hready].
  destruct (sole_link fan mid) eqn:Hs; [|by no_pair Hno Hready]. cbn [negb].
  assert (Hin : forall x, is_Some (s_nodes nl0 !! x) -> is_Some (s_nodes nl !! x)) by (intros x Hx; apply elem_of_dom; rewrite (fi_nodes _ F); by apply elem_of_dom).
  pose proof Sn as (mbn & _ & Cn). destruct (classify_spec _ _ _ _ _ Cn) as (_ & _ & io & po & _ & Hpo & Hon & _ & (pn & Hpn & Hmn) & _). rewrite Eo in Hon. rewrite En in Hmn.
  destruct (Hin mid (proj2 (snapped_in n ipn dn 0 pn mid Sn Hpn Hmn))) as [md Hmd]. destruct (Hin o (proj2 (snapped_in n ipn dn io po o Sn Hpo Hon))) as [od Hod].
  apply (wp_node_at nl mid md); [done|]. destruct (has_unique_driver_pin _ _ (gr_out_pin g)) eqn:H1; [|by no_pair Hno Hready; rewrite (R9 md Hmd) in H1]. cbn [negb].
  apply (wp_node_at nl o od); [done|]. destruct (has_unique_driver_pin _ _ (gr_out_pin n)) eqn:H2; [|by no_pair Hno Hready; rewrite (R10 od Hod) in H2]. cbn [negb].
  eapply wp_mono; [by apply (fuse_pair_keeps nl n ipn dn g ipg dg mid md o od a b d)|]. intros c nl' [P H]. split; [done|]. split; [by right|done].
Qed.

(** After a run over inverters, a linked pair is there or fused, and it is fused
    if its inverter is among them and drives its output alone. *)
Definition progress (ns : list gate_rec) (nl nl' : netlist device) : Prop := forall ipn ipg name a b o, paired nl0 ipn ipg name a b o -> sole_driver nl0 ipn o ->
  (fused ipn ipg name a b o nl -> fused ipn ipg name a b o nl') /\
  (both_there ipn ipg nl -> both_there ipn ipg nl' \/ fused ipn ipg name a b o nl') /\
  ((exists n dn, n ∈ ns /\ snapped n ipn dn) -> both_there ipn ipg nl -> fused ipn ipg name a b o nl').

Lemma snapped_ip n ip d ip' d' : snapped n ip d -> snapped n ip' d' -> ip = ip'.
Proof using Type.
  clear Hchunk. intros (mb & _ & C) (mb' & _ & C'). destruct (classify_spec _ _ _ _ _ C) as (_ & _ & i & _ & E & _). destruct (classify_spec _ _ _ _ _ C') as (_ & _ & i' & _ & E' & _).
  rewrite E in E'. by apply out_pin_inj in E' as [-> _].
Qed.

Lemma happens_fused ipn ipg name a b o nl nl' : paired nl0 ipn ipg name a b o -> both_there ipn ipg nl -> s_impls nl !! fresh_impl nl = None ->
  fuse_happens ipn nl nl' -> fused ipn ipg name a b o nl'.
Proof using Type.
  clear Hchunk. intros HL HT Hf HH. destruct (fuse_step_there ipn ipg name a b o ipn nl nl' HL (or_intror HH) HT Hf) as [[T1 _]|?]; [|done].
  pose proof HL as (mid & dn & dg & E1 & _). destruct HH as (ipg' & name' & d & a' & b' & o' & _ & _ & Hfr & Si). exfalso. rewrite Si, E1 in T1.
  rewrite lookup_insert_ne in T1 by congruence. by apply lookup_delete_Some in T1 as [_ [? _]%lookup_delete_Some].
Qed.

Lemma fuse_all_keeps ns : (forall n, n ∈ ns -> is_not n = true /\ exists ipn dn, snapped n ipn dn) ->
  forall nl, fuse_inv nl -> fuse_log nl -> wp (any_change (fuse_at chunk_models prot fan gates) ns) nl (fun c nl' => fuse_post nl c nl' /\ fuse_log nl' /\ progress ns nl nl').
Proof using Hchunk I0 Hfew Hfan HG HG2.
  induction ns as [|n ns IH]; intros Hns nl F L.
  { split; [done|]. split; [done|]. intros ipn ipg name a b o _ _. split_and!; [done|by left|]. intros (? & ? & H & _). by apply elem_of_nil in H. }
  cbn [any_change]. destruct (Hns n ltac:(by left)) as (Nn & ipn & dn & Sn).
  apply wp_bind. eapply wp_mono; [by eapply fuse_at_keeps|]. intros c1 nl1 ((F1 & B1 & R1) & St & Hh). apply wp_bind.
  eapply wp_mono; [apply IH; [intros n' ?; apply Hns; by right|done|by eapply fuse_step_log]|]. intros c2 nl2 ((F2 & B2 & R2) & L2 & P2). apply wp_ret.
  split; [split_and!; [done|by etransitivity|exact (reports_trans _ _ _ _ _ R1 R2)]|]. split; [done|].
  assert (Hfr : s_impls nl !! fresh_impl nl = None) by (apply (ni_fresh_impl _ _ (fi_nl _ F)), N.le_refl).
  intros ipn' ipg name a b o HL Hsd. destruct (P2 ipn' ipg name a b o HL Hsd) as (Q1 & Q2 & Q3).
  pose proof (fuse_step_fused ipn' ipg name a b o ipn nl nl1 HL St) as S1. pose proof (fuse_step_there ipn' ipg name a b o ipn nl nl1 HL St) as S2. split_and!.
  - intros H. by apply Q1, S1.
  - intros H. destruct (S2 H Hfr) as [H1|H1]; [by apply Q2|right; by apply Q1].
  - intros (n' & dn' & [->|Hin]%elem_of_cons & Sn') H.
    + pose proof (snapped_ip _ _ _ _ _ Sn Sn') as <-. apply Q1. apply (happens_fused ipn ipg name a b o nl nl1); try done. by eapply Hh.
    + destruct (S2 H Hfr) as [H1|H1]; [|by apply Q1]. apply Q3; [|done]. by exists n', dn'.
Qed.
End Loop.
End Fuse.

(** What is left of the pairs after the pass. *)
Definition pairs_fused (nl nl' : netlist device) : Prop :=
  (forall ipn ipg name a b o, paired nl ipn ipg name a b o -> sole_driver nl ipn o ->
     s_impls nl' !! ipn = None /\ s_impls nl' !! ipg = None /\
     exists ip e, s_impls nl !! ip = None /\ s_impls nl' !! ip = Some e /\ is_complement name a b o e) /\
  (forall ip e, s_impls nl' !! ip = Some e -> s_impls nl !! ip = Some e \/
     (s_impls nl !! ip = None /\ exists ipn ipg name a b o, paired nl ipn ipg name a b o /\ is_complement name a b o e)) /\
  (forall ip d, s_impls nl !! ip = Some d -> s_impls nl' !! ip = Some d \/
     exists ipn ipg name a b o, paired nl ipn ipg name a b o /\ (ip = ipn \/ ip = ipg)).

Lemma fuse_inverters_keeps nl : nl_inv nl -> few_pins nl -> wp (optimize_fuse_inverters chunk_models prot) nl (fun c nl' =>
  nl_inv nl' /\ dom (s_nodes nl') = dom (s_nodes nl) /\ behaves prot nl nl' /\ reports c nl nl' /\ pairs_fused nl nl').
Proof using Hchunk.
  intros I Hfew. apply wp_fanout; [done|]. intros fan Hf. apply wp_lives; [done|]. intros l El. destruct (live_models_spec nl l I El) as (Hl & Hl2 & _).
  assert (Hsn : forall m g, m ∈ l -> classify m = Some g -> snapped nl g (lv_ip m) (lv_dev m)).
  { intros [pos mb ip d] g Hm Hc. destruct (Hl _ Hm) as (Hh & _). simpl in Hh. exists mb. destruct (classify_spec _ _ _ _ _ Hc) as (_ & -> & _). done. }
  eapply wp_mono; [apply (fuse_all_keeps nl fan I Hfew Hf)|].
  - intros m g Hg. apply by_out_spec in Hg as [Hg Ho]. apply list_elem_of_In, filter_In in Hg as [Hg Hn]. apply andb_true_iff in Hn as [Hn _].
    split_and!; [done|by apply negb_true_iff|]. apply list_elem_of_In, list_elem_of_omap in Hg as (m' & Hm & Hc). eexists _, _. by apply Hsn.
  - intros ip d a b x Hd Hk Hp. destruct (Hl2 ip d Hd) as ([pos mb ip' d'] & Hm & <- & <-). simpl in Hk, Hp.
    pose proof (classify_opposite pos mb ip' d' a b x Hk Hp) as Hc. apply by_out_has. left. exists (mk_gate (model_name d') pos (Some a) (Some b) (Some x) (out_pin ip' 2)). split; [|done].
    apply list_elem_of_In, filter_In. split; [apply list_elem_of_In, list_elem_of_omap; by eexists|]. unfold is_not. simpl.
    rewrite bool_decide_eq_false_2 by (by apply opposite_not_NOT). done.
  - intros n Hn. apply list_elem_of_In, filter_In in Hn as [Hn Hnot]. split; [done|]. apply list_elem_of_In, list_elem_of_omap in Hn as (m' & Hm & Hc). eexists _, _. by apply Hsn.
  - split; [done|lia|done|done|]. intros ip d Hd. by left.
  - split; intros; by left.
  - intros c nl' ((F & B & R) & [L1 L2] & P). split; [apply F|]. split; [apply F|]. split; [done|]. split; [done|]. split; [|by split].
    intros ipn ipg name a b o HL Hsd. apply (P ipn ipg name a b o HL Hsd); [|done]. pose proof HL as (mid & dn & dg & E1 & N1 & P1 & _).
    destruct (Hl2 ipn dn E1) as ([pos mb ip' d'] & Hm & <- & <-). simpl in N1, P1. pose proof (classify_not pos mb ip' d' mid o N1 P1) as Hc.
    eexists _, d'. split; [|exact (Hsn _ _ Hm Hc)]. apply list_elem_of_In, filter_In. split; [apply list_elem_of_In, list_elem_of_omap; by eexists|done].
Qed.

(** ** Constants *)

Lemma const_input σ m v n : is_const_input_model m v = true -> const_pin m = Some n -> sat σ (lv_dev m) -> σ n = v.
Proof using Type.
  unfold is_const_input_model, const_pin. intros [[_ Hn]%andb_true_iff Hv]%andb_true_iff. destruct (lv_dev m) as [| | | | | | | | | |x| | | | | | | | | | | | | | | | | | | | | |]; try done.
  change (generate_pin_view (m_INPUT x)) with (INPUT.i_pins x). destruct (INPUT.i_pins x) as [|[na on ma] [|? ?]] eqn:Hp; try done.
  simpl. intros -> Hs. rewrite (sat_INPUT σ x na ma n Hp Hs). cbn in Hv. by apply bool_decide_eq_true_1 in Hv.
Qed.

Definition binary (v : logic_t) : Prop := v = sL \/ v = sH.

Lemma node_const_fold σ l : (forall m, m ∈ l -> sat σ (lv_dev m)) -> forall acc, (forall n v, acc !! n = Some v -> binary v /\ σ n = v) ->
  forall n v, fold_left (fun acc x => match const_pin x with
    | None => acc
    | Some n => if is_const_input_model x sL then emplace acc n sL else if is_const_input_model x sH then emplace acc n sH else acc
    end) l acc !! n = Some v -> binary v /\ σ n = v.
Proof using Type.
  clear Hchunk. induction l as [|m l IH]; intros Hl acc Hacc; cbn [fold_left]; [done|]. apply IH; [intros m' ?; apply Hl; by right|].
  destruct (const_pin m) as [n0|] eqn:Hn; [|done].
  assert (He : forall v0, binary v0 -> is_const_input_model m v0 = true -> forall n v, emplace acc n0 v0 !! n = Some v -> binary v /\ σ n = v).
  { intros v0 Hb Hc n v. rewrite emplace_lookup. case_decide as E; [|by apply Hacc]. subst n0. destruct (acc !! n) as [w|] eqn:Ew; simpl; intros [= <-]; [by apply Hacc|].
    split; [done|]. eapply const_input; [done|done|]. apply Hl. by left. }
  destruct (is_const_input_model m sL) eqn:HL; [by apply (He sL); [left|]|].
  destruct (is_const_input_model m sH) eqn:HH; [by apply (He sH); [right|]|done].
Qed.

(** The nodes of the constants carry them. *)
Lemma node_const_carries nl l σ n v : nl_inv nl -> live_models nl = Some l -> nl_stable nl σ -> node_const l !! n = Some v -> binary v /\ σ n = v.
Proof using Type.
  intros I El Hs. apply node_const_fold; [|by intros ? ? ?%lookup_empty_Some]. intros m Hm. destruct (live_models_spec nl l I El) as (H1 & _ & _).
  destruct (H1 m Hm) as [(_ & _ & ? & _ & _ & _ & Hd) _]. by eapply Hs.
Qed.

Definition gate_value (name : string) (x y : logic_t) : logic_t := if among name ["NOT"] then NOT.output_res x else op_named name x y.
Definition known_gates : list string := ["NOT"; "AND"; "OR"; "XOR"; "XNOR"; "NAND"; "NOR"; "IMP"; "NIMP"].

Lemma const_rule_value name ab same a b r x y : name ∈ known_gates -> const_rule name ab same a b = Some r ->
  (forall v, a = Some v -> binary v /\ x = v) -> (forall v, b = Some v -> binary v /\ y = v) -> (same = true -> x = y) ->
  x <> sZ -> (name <> "NOT" -> y <> sZ) -> (ab = true -> x <> sX) ->
  gate_value name x y = match r with by_const v => v | by_first => x | by_second => y end.
Proof using Type.
  clear Hchunk. intros Hn Hr Ha Hb Hs Hx Hy Hab. unfold known_gates in Hn.
  assert (Hyz : name = "NOT" \/ y <> sZ) by (destruct (decide (name = "NOT")); auto). clear Hy.
  destruct a as [a|]; [destruct (Ha a eq_refl) as [[-> | ->] ->]|]; clear Ha; (destruct b as [b|]; [destruct (Hb b eq_refl) as [[-> | ->] ->]|]); clear Hb;
  repeat (apply elem_of_cons in Hn as [->|Hn]; [vm_compute in Hr; destruct ab, same; try discriminate Hr; injection Hr as <-;
    try specialize (Hs eq_refl); try specialize (Hab eq_refl); destruct Hyz; try done; try subst y; try destruct x; try done; by destruct y|]);
  by apply elem_of_nil in Hn.
Qed.

(** What a replacement of a gate carries. *)
Definition carried (σ : valuation) (g : gate_rec) (r : replacement) : option logic_t :=
  match r with by_const v => Some v | by_first => σ <$> gr_in0 g | by_second => σ <$> gr_in1 g end.

Lemma classify_known pos mb ip d g : classify {| lv_pos := pos; lv_base := mb; lv_ip := ip; lv_dev := d |} = Some g -> gr_name g ∈ known_gates.
Proof using Type.
  intros H. destruct (classify_spec _ _ _ _ _ H) as [-> _]. destruct d; try done; by apply (bool_decide_eq_true_1 (_ ∈ known_gates)).
Qed.

Lemma constant_value nl l pos mb ip d g k o ab r σ : nl_inv nl -> live_models nl = Some l -> s_impls nl !! ip = Some d ->
  classify {| lv_pos := pos; lv_base := mb; lv_ip := ip; lv_dev := d |} = Some g -> key_of g = Some k -> gr_out g = Some o ->
  const_rule (gr_name g) ab (same_input g) (lookup_node (node_const l) (gr_in0 g)) (lookup_node (node_const l) (gr_in1 g)) = Some r ->
  nl_stable nl σ -> (forall n, n ∈ key_nodes k -> σ n <> sZ /\ (ab = true -> σ n <> sX)) -> carried σ g r = Some (σ o).
Proof using Type.
  clear Hchunk. intros I El Hd Hc Hk Ho Hr Hs Hz. rewrite (proj1 (classify_sat σ _ _ _ _ _ _ _ Hc Hk Ho) (Hs _ _ Hd)).
  pose proof (classify_known _ _ _ _ _ Hc) as Hkn.
  assert (Hcv : forall n v, lookup_node (node_const l) n = Some v -> binary v /\ σ <$> n = Some v).
  { intros [n|] v; [|done]. simpl. intros Hv. destruct (node_const_carries nl l σ n v I El Hs Hv) as [? ->]. done. }
  unfold key_of, is_not in Hk. case_bool_decide as Hn.
  - destruct (gr_in0 g) as [a|] eqn:Ea; [|done]. injection Hk as <-. simpl. unfold carried.
    rewrite Hn in Hr. unfold const_rule in Hr. cbn in Hr. destruct (node_const l !! a) as [v|] eqn:Ev; [|done]. injection Hr as <-.
    destruct (Hcv (Some a) v Ev) as [Hb [= ->]]. by destruct Hb as [-> | ->].
  - destruct (gr_in0 g) as [a|] eqn:Ea; [|done]. destruct (gr_in1 g) as [b|] eqn:Eb; [|done]. injection Hk as <-. rewrite canon_value.
    assert (Hv := const_rule_value _ _ _ _ _ _ (σ a) (σ b) Hkn Hr). unfold gate_value, among in Hv. rewrite bool_decide_eq_false_2 in Hv by set_solver.
    unfold carried. rewrite Ea, Eb. simpl. rewrite Hv; [by destruct r| | | | | |].
    + intros v Hva. destruct (Hcv _ _ Hva) as [? [= ->]]. done.
    + intros v Hvb. destruct (Hcv _ _ Hvb) as [? [= ->]]. done.
    + unfold same_input. rewrite Ea, Eb. intros [_ E]%andb_true_iff. apply bool_decide_eq_true_1 in E. by injection E as ->.
    + apply Hz, canon_nodes. by left.
    + intros _. apply Hz, canon_nodes. by right.
    + apply Hz, canon_nodes. by left.
Qed.
End Passes.

(** ** The passes on whole netlists *)

Lemma wp_run {S A} (c : St S A) s (Q : A -> S -> Prop) : wp c s Q -> exists x s', c s = Some (x, s') /\ Q x s'.
Proof. unfold wp. destruct (c s) as [[x s']|]; [by exists x, s'|done]. Qed.

(** C14: removing the buffers is defined on every netlist of the invariant, keeps
    the invariant and the nodes, adds no model, and keeps the behaviour: a
    stable valuation before has one after that agrees with it on the protected
    nodes, and the other way round.  A buffer is left only when it joins a node
    to itself, drives a protected node, or is not the only driver of its output. *)
Theorem buffers_are_bypassed chunk_models prot nl : (0 < chunk_models <= 4096)%nat -> nl_inv chunk_models nl ->
  exists nl', optimize_eliminate_yes_buffers prot nl = Some (tt, nl') /\ nl_inv chunk_models nl' /\ behaves prot nl nl' /\
    dom (s_nodes nl') = dom (s_nodes nl) /\ dom (s_impls nl') ⊆ dom (s_impls nl) /\ forall ip, needed prot nl' ip.
Proof.
  intros Hc I. destruct (wp_run _ _ _ (yes_buffers_keep chunk_models Hc prot nl I)) as ([] & nl' & E & [[K1 K2 K3 K4] Hn]).
  by exists nl'.
Qed.

(** C15: merging the gates that have the same inputs is defined on every netlist of
    the invariant, keeps the invariant, the nodes and the behaviour at the
    protected nodes; it returns true when there are fewer models than before,
    and false when nothing changed. *)
Theorem duplicates_are_merged chunk_models prot nl : (0 < chunk_models <= 4096)%nat -> nl_inv chunk_models nl ->
  exists c nl', optimize_strash prot nl = Some (c, nl') /\ nl_inv chunk_models nl' /\ behaves prot nl nl' /\
    dom (s_nodes nl') = dom (s_nodes nl) /\ reports c nl nl'.
Proof.
  intros Hc I. destruct (wp_run _ _ _ (strash_keeps chunk_models Hc prot nl I)) as (c & nl' & E & [[K1 K2 K3 K4] R]).
  by exists c, nl'.
Qed.

(** C16: removing the models nobody reads, on a netlist of well-formed models where
    a node has one driving pin and the pins can be counted, keeps the invariant
    and the behaviour at the protected nodes; the other models are as they
    were; and no model is left whose outputs are unprotected and had no
    reader, but for the terminals.  It returns whether a model was removed. *)
Theorem dead_gates_are_removed chunk_models prot nl fan : (0 < chunk_models <= 4096)%nat -> nl_inv chunk_models nl ->
  well_formed nl -> single_driver nl -> few_pins nl -> build_gate_opt_fanout nl = Some fan ->
  exists c nl', optimize_dce prot nl = Some (c, nl') /\ nl_inv chunk_models nl' /\ behaves prot nl nl' /\ reports c nl nl' /\
    s_impls nl' ⊆ s_impls nl /\
    forall ip d, s_impls nl' !! ip = Some d -> unused prot fan d = true -> named d ["OUTPUT"; "INPUT"] = true.
Proof.
  intros Hc I Hwf Hsd Hfew Hf. destruct (wp_run _ _ _ (dce_keeps chunk_models Hc prot nl fan I Hwf Hsd Hfew Hf)) as (c & nl' & E & [K1 K2 K3 K4] & R & S & U).
  by exists c, nl'.
Qed.

(** C17: fusing the inverters with the gates before them is defined on every
    netlist of the invariant whose pins can be counted in 64 bits.  A pair is
    linked when a connected gate (AND, OR, XOR, IMP or the complement of one)
    and a connected inverter are the only models on an unprotected node, which
    the one drives and the other reads.  Each linked pair whose inverter alone
    drives its output is gone after the pass, and a new gate of the opposite
    kind joins the inputs of the gate to the output of the inverter; every
    model afterwards is one from before, as it was, or such a complement of a
    linked pair, and every model that is gone was one of a linked pair.  The
    invariant, the nodes and the behaviour at the protected nodes are kept;
    the pass returns true when there are fewer models than before, and false
    when nothing changed. *)
Theorem inverters_are_fused chunk_models prot nl : (0 < chunk_models <= 4096)%nat -> nl_inv chunk_models nl -> few_pins nl ->
  exists c nl', optimize_fuse_inverters chunk_models prot nl = Some (c, nl') /\ nl_inv chunk_models nl' /\ behaves prot nl nl' /\
    dom (s_nodes nl') = dom (s_nodes nl) /\ reports c nl nl' /\ pairs_fused prot nl nl'.
Proof.
  intros Hc I Hfew. destruct (wp_run _ _ _ (fuse_inverters_keeps chunk_models Hc prot nl I Hfew)) as (c & nl' & E & K1 & K2 & K3 & R & P).
  by exists c, nl'.
Qed.

(** C18: what a gate with constant or equal inputs is replaced by carries the state
    that the gate drives, in every stable valuation in which its inputs are not
    high-impedance, and not unknown where the pass assumes binary signals. *)
Theorem constants_replace_gates chunk_models nl l ip d pos mb g k o assume_binary r σ : nl_inv chunk_models nl -> live_models nl = Some l ->
  s_impls nl !! ip = Some d -> classify {| lv_pos := pos; lv_base := mb; lv_ip := ip; lv_dev := d |} = Some g -> key_of g = Some k -> gr_out g = Some o ->
  const_rule (gr_name g) assume_binary (same_input g) (lookup_node (node_const l) (gr_in0 g)) (lookup_node (node_const l) (gr_in1 g)) = Some r ->
  nl_stable nl σ -> (forall n, n ∈ key_nodes k -> σ n <> sZ /\ (assume_binary = true -> σ n <> sX)) -> carried σ g r = Some (σ o).
Proof. apply constant_value. Qed.

(** ** Concrete netlists *)

(** A model with its pins connected. *)
Definition free_pin (nl : netlist device) (p : pin_ptr) : bool := match pin_node (s_impls nl) p with Some (Some _) => false | _ => true end.
Fixpoint wire (ip : impl_ptr) (i : Z) (ns : list node_ptr) (nl : netlist device) : option (netlist device) :=
  match ns with
  | [] => Some nl
  | n :: ns' => if free_pin nl (ip, Z.to_N i) then match add_to_node nl (new_model_base ip) i n with Some (_, nl') => wire ip (i + 1) ns' nl' | None => None end else None
  end.
Fixpoint build (l : list (device * list node_ptr)) (nl : netlist device) : option (netlist device) :=
  match l with
  | [] => Some nl
  | (d, ns) :: l' =>
      if forallb (fun p => bool_decide (nodes p = None)) (device_pins d) then
        let '(nl1, ip, _) := add_model 100 nl d in match wire ip 0 ns nl1 with Some nl2 => build l' nl2 | None => None end
      else None
  end.
Definition circuit (n : nat) (l : list (device * list node_ptr)) : netlist device := default netlist_empty (build l (add_nodes 100 n netlist_empty)).

Lemma wire_inv ip ns : forall i nl nl', nl_inv 100 nl -> 0 <= i -> wire ip i ns nl = Some nl' -> nl_inv 100 nl'.
Proof.
  induction ns as [|n ns IH]; intros i nl nl' I Hi; simpl; [by intros [= <-]|]. destruct (free_pin _ _) eqn:Hf; [|done].
  destruct (add_to_node _ _ _ _) as [[r nl1]|] eqn:E; [|done]. apply IH; [|lia]. apply (inv_add_to_node 100 nl (new_model_base ip) i n r nl1 ip); [exact I|exact Hi|done| |exact E].
  intros x Hx. unfold free_pin in Hf. rewrite Hx in Hf. by destruct x.
Qed.
Lemma build_inv l : forall nl nl', nl_inv 100 nl -> build l nl = Some nl' -> nl_inv 100 nl'.
Proof.
  induction l as [|[d ns] l IH]; intros nl nl' I; cbn [build]; [by intros [= <-]|]. destruct (forallb _ _) eqn:Hu; [|done].
  assert (I1 : nl_inv 100 (add_model 100 nl d).1.1).
  { apply inv_add_model; [lia|done|]. intros i pn Hp. rewrite forallb_forall in Hu. eapply bool_decide_eq_true_1. apply (Hu pn), list_elem_of_In.
    by eapply list_elem_of_lookup_2. }
  destruct (add_model 100 nl d) as [[nl1 ip] pos]. destruct (wire ip 0 ns nl1) as [nl2|] eqn:E; [|done]. apply IH. apply (wire_inv ip ns 0 nl1); [exact I1|lia|exact E].
Qed.
Lemma circuit_inv n l : nl_inv 100 (circuit n l).
Proof.
  pose proof (ci_nl _ _ (nodes_context_inv n)) as I. unfold circuit. simpl in I. destruct (build l _) as [nl|] eqn:E; [by eapply build_inv|apply empty_inv; lia].
Qed.

(** The first nodes are the ports, which are driven from outside or drive
    something outside. *)
Definition ports (k : nat) : list nodep := map (fun i => Some (N.of_nat i)) (seq 1 k).

(** A buffer between the input and an inverter. *)
Definition buffered : netlist device := circuit 3 [(m_YES YES.default, [1%N; 3%N]); (m_NOT NOT.default, [3%N; 2%N])].
Lemma buffers_are_bypassed_witness :
  (exists nl', optimize_eliminate_yes_buffers (ports 2) buffered = Some (tt, nl') /\ size (s_impls buffered) = 2%nat /\ size (s_impls nl') = 1%nat) /\
  exists nl', optimize_eliminate_yes_buffers (ports 2) buffered = Some (tt, nl') /\ nl_inv 100 nl' /\ behaves (ports 2) buffered nl' /\
    dom (s_nodes nl') = dom (s_nodes buffered) /\ dom (s_impls nl') ⊆ dom (s_impls buffered) /\ forall ip, needed (ports 2) nl' ip.
Proof.
  split; [eexists; split_and!; vm_compute; reflexivity|]. apply (buffers_are_bypassed 100 (ports 2) buffered); [lia|apply circuit_inv].
Defined.

(** Two conjunctions of the same nodes, in both orders. *)
Definition doubled : netlist device := circuit 5 [(m_AND AND.default, [1%N; 2%N; 4%N]); (m_AND AND.default, [2%N; 1%N; 5%N]); (m_XOR XOR.default, [4%N; 5%N; 3%N])].
Lemma duplicates_are_merged_witness :
  (exists nl', optimize_strash (ports 3) doubled = Some (true, nl') /\ size (s_impls doubled) = 3%nat /\ size (s_impls nl') = 2%nat) /\
  exists c nl', optimize_strash (ports 3) doubled = Some (c, nl') /\ nl_inv 100 nl' /\ behaves (ports 3) doubled nl' /\
    dom (s_nodes nl') = dom (s_nodes doubled) /\ reports c doubled nl'.
Proof.
  split; [eexists; split_and!; vm_compute; reflexivity|]. apply (duplicates_are_merged 100 (ports 3) doubled); [lia|apply circuit_inv].
Defined.

(** An inverter behind a conjunction. *)
Definition inverted : netlist device := circuit 4 [(m_AND AND.default, [1%N; 2%N; 4%N]); (m_NOT NOT.default, [4%N; 3%N])].
Lemma inverters_are_fused_witness :
  (exists nl', optimize_fuse_inverters 100 (ports 3) inverted = Some (true, nl') /\ size (s_impls inverted) = 2%nat /\ size (s_impls nl') = 1%nat) /\
  exists c nl', optimize_fuse_inverters 100 (ports 3) inverted = Some (c, nl') /\ nl_inv 100 nl' /\ behaves (ports 3) inverted nl' /\
    dom (s_nodes nl') = dom (s_nodes inverted) /\ reports c inverted nl' /\ pairs_fused (ports 3) inverted nl'.
Proof.
  split; [eexists; split_and!; vm_compute; reflexivity|]. apply (inverters_are_fused 100 (ports 3) inverted); [lia|apply circuit_inv|].
  intros l Hl. vm_compute in Hl. injection Hl as <-. vm_compute. reflexivity.
Defined.

(** What the hypotheses say of the list of the models. *)
Definition objects (nl : netlist device) : list (impl_ptr * device) := map_to_list (s_impls nl).
Definition driving (nl : netlist device) : list (pin_ptr * node_ptr) :=
  concat (map (fun x => omap (fun y : nat * pin => if out_flag x.2 y.1 then (fun n => (out_pin x.1 y.1, n)) <$> nodes y.2 else None) (imap pair (device_pins x.2))) (objects nl)).

Lemma driving_elem nl ip d i p n : s_impls nl !! ip = Some d -> device_pins d !! i = Some p -> nodes p = Some n -> out_flag d i = true ->
  (out_pin ip i, n) ∈ driving nl.
Proof.
  intros Hd Hp Hn Hf. apply elem_of_concat. eexists. split; [|apply list_elem_of_fmap; exists (ip, d); split; [reflexivity|by apply elem_of_map_to_list]].
  apply list_elem_of_omap. exists (i, p). split; [apply elem_of_lookup_imap; by exists i, p|]. simpl. by rewrite Hf, Hn.
Qed.
Lemma driving_single nl : NoDup (map snd (driving nl)) -> single_driver nl.
Proof.
  intros H ip d i p ip' d' i' p' n Hd Hp Hn Hf Hd' Hp' Hn' Hf'. apply out_pin_inj.
  pose proof (driving_elem nl ip d i p n Hd Hp Hn Hf) as A. pose proof (driving_elem nl ip' d' i' p' n Hd' Hp' Hn' Hf') as B.
  apply list_elem_of_lookup in A as [x Hx], B as [y Hy]. assert (x = y); [|congruence].
  eapply (NoDup_lookup (map snd (driving nl)) x y n); [done|change (map snd ?l) with (snd <$> l); by rewrite list_lookup_fmap, ?Hx, ?Hy..].
Qed.

(** The states that a list of models drives. *)
Ltac each_object := let L := fresh in intros ip d L; apply elem_of_map_to_list in L; vm_compute in L;
  repeat (apply elem_of_cons in L as [L|L]; [injection L as -> ->|]); try by apply elem_of_nil in L.

(** Two inverters behind the input; one of them drives no port. *)
Definition dangling : netlist device := circuit 3 [(m_NOT NOT.default, [1%N; 3%N]); (m_NOT NOT.default, [1%N; 2%N])].
Definition dangling_fan : gate_opt_fanout := default (mk_fanout ∅ ∅ ∅) (build_gate_opt_fanout dangling).
Lemma dead_gates_are_removed_witness :
  (exists nl', optimize_dce (ports 2) dangling = Some (true, nl') /\ size (s_impls dangling) = 2%nat /\ size (s_impls nl') = 1%nat) /\
  exists c nl', optimize_dce (ports 2) dangling = Some (c, nl') /\ nl_inv 100 nl' /\ behaves (ports 2) dangling nl' /\ reports c dangling nl' /\
    s_impls nl' ⊆ s_impls dangling /\
    forall ip d, s_impls nl' !! ip = Some d -> unused (ports 2) dangling_fan d = true -> named d ["OUTPUT"; "INPUT"] = true.
Proof.
  split; [eexists; split_and!; vm_compute; reflexivity|]. apply (dead_gates_are_removed 100 (ports 2) dangling dangling_fan).
  - lia.
  - apply circuit_inv.
  - by each_object.
  - apply driving_single. apply (bool_decide_eq_true_1 (NoDup _)). vm_compute. reflexivity.
  - intros l Hl. vm_compute in Hl. injection Hl as <-. vm_compute. reflexivity.
  - vm_compute. reflexivity.
Defined.

(** ** Passes that work on an outdated snapshot *)

(** A node that is read and that nothing drives. *)
Definition undriven (nl : netlist device) (n : node_ptr) : bool :=
  match build_gate_opt_fanout nl with
  | Some fan => bool_decide (is_Some (consumer_count fan !! n)) && bool_decide (driver_pins fan !! n = None)
  | None => false
  end.
Definition disconnects (pass : Nt bool) (nl : netlist device) (n : node_ptr) : bool :=
  match pass nl with Some (_, nl') => negb (undriven nl n) && undriven nl' n | None => false end.

(** Four inverters in a row: the second pair is joined to the output of the
    first pair, which is gone by then. *)
Definition inverters : netlist device := circuit 6 [(m_NOT NOT.default, [1%N; 3%N]); (m_NOT NOT.default, [3%N; 4%N]);
  (m_NOT NOT.default, [4%N; 5%N]); (m_NOT NOT.default, [5%N; 6%N]); (m_YES YES.default, [6%N; 2%N])].
Example double_not_disconnects : disconnects (optimize_eliminate_double_not 100 (ports 2)) inverters 4%N = true.
Proof. vm_compute. reflexivity. Qed.

(** [(x & 1) & 1]: the second gate is replaced by the output of the first. *)
Definition ones : netlist device := circuit 5 [(input_with sH, [3%N]); (m_AND AND.default, [1%N; 3%N; 4%N]);
  (m_AND AND.default, [4%N; 3%N; 5%N]); (m_YES YES.default, [5%N; 2%N])].
Example constants_disconnect : disconnects (optimize_constant_propagation 100 100 (ports 2) false 0) ones 4%N = true.
Proof. vm_compute. reflexivity. Qed.

(** [p = a & (a | b)], [p & (p | c)]. *)
Definition absorbed : netlist device := circuit 8 [(m_OR OR.default, [1%N; 3%N; 5%N]); (m_AND AND.default, [1%N; 5%N; 6%N]);
  (m_OR OR.default, [6%N; 4%N; 7%N]); (m_AND AND.default, [6%N; 7%N; 8%N]); (m_YES YES.default, [8%N; 2%N])].
Example absorption_disconnects : disconnects (optimize_absorption (ports 4)) absorbed 6%N = true.
Proof. vm_compute. reflexivity. Qed.

(** The first conjunction of [ones] is replaced by its first input. *)
Definition ones_state : valuation := fun n => if decide (n = 3%N) then sH else sX.
Definition ones_lives : list live := default [] (live_models ones).
Definition ones_gate : live := nth 1 ones_lives {| lv_pos := {| vec_pos := 0; chunk_pos := 0 |}; lv_base := cleared_model_base; lv_ip := 0%N; lv_dev := m_AND AND.default |}.
Definition ones_rec : gate_rec := mk_gate "AND" (lv_pos ones_gate) (Some 1%N) (Some 3%N) (Some 4%N) (out_pin (lv_ip ones_gate) 2).
Lemma constants_replace_gates_witness :
  const_rule "AND" false false (lookup_node (node_const ones_lives) (Some 1%N)) (lookup_node (node_const ones_lives) (Some 3%N)) = Some by_first /\
  carried ones_state ones_rec by_first = Some (ones_state 4%N).
Proof.
  split; [vm_compute; reflexivity|].
  apply (constants_replace_gates 100 ones ones_lives (lv_ip ones_gate) (lv_dev ones_gate) (lv_pos ones_gate) (lv_base ones_gate) ones_rec ("AND", 1%N, Some 3%N) 4%N false by_first ones_state).
  - apply circuit_inv.
  - vm_compute. reflexivity.
  - vm_compute. reflexivity.
  - vm_compute. reflexivity.
  - reflexivity.
  - reflexivity.
  - vm_compute. reflexivity.
  - each_object; eexists; (split; [apply rtc_refl|vm_compute; reflexivity]).
  - intros n [->|[->|Hn]%elem_of_cons]%elem_of_cons; [by vm_compute..|]. by apply elem_of_nil in Hn.
Defined.
